(* ===== verification/_CoqProject ===== *)
-Q . S2P
Prelude.v
Bytes.v
BTreeMap.v
CowBytes.v
StoragePref.v
Message.v
Checksum.v
ChildBuffer.v
PackedFormat.v
Pivots.v
Internal.v
Node.v
Tree.v
TreeInv.v
TreeSteps.v
TreeSplit.v
TreeMerge.v
TreeRebalance.v
TreeCorrect.v
Range.v
Disk.v
Allocator.v
RootKeys.v
Handler.v
DmuAlloc.v
Clock.v
Cache.v
Dataset.v
Meta.v
Chunk.v
Object.v
ObjectCorrect.v
ObjectLife.v
Buffer.v
Compression.v
Superblock.v
Database.v
Vdev.v
Parity.v
ParityCorrect.v
Mirror.v
Device.v
PoolConfig.v
Pool.v
PoolCorrect.v
PoolAlloc.v
DmuObjects.v
DmuDenote.v
DmuProtocol.v
DmuWriteBack.v
DmuMachine.v
DmuPersist.v
DmuExamples.v
Migration.v
NodePack.v
NodeObject.v
