(* ===== verification/Prelude.v ===== *)
(** * Haura: a verification library for the B-epsilon-tree storage stack

    Haura ([src/betree]) stores objects and key-value data sets in
    B-epsilon-trees that are written copy on write to a pool of disks.  From
    the top down its parts are: object stores ([object/]), data sets,
    snapshots and the database with its root tree and superblock
    ([database/]), the tree with its messages and nodes ([tree/]), the data
    management unit with its cache ([data_management/], [cache/]), the
    segment allocator ([allocator.rs]) and the storage pool with its virtual
    devices ([storage_pool/], [vdev/]).  A call walks down this stack: an
    object write becomes messages for the tree, a full node is flushed, split
    or merged, nodes live in the cache, are written to blocks that the
    allocator hands out, and the root tree, whose keys describe data sets,
    snapshots, bitmaps and dead lists, is written last and named by the
    superblock.

    ** Conventions

    The development is a shallow embedding: one definition per function,
    named after it.  A call that may panic (a failed assertion, an index out
    of range, an overflow in a debug build) returns [option], [None] being
    the panic; errors are values ([A + E]); machine integers are [Z] with the
    width written out; bytes are [list byte].  State is passed explicitly.
    In most files one thread runs, locks are not modelled and atomic cells
    are values; where threads matter, in the storage pool and in the data
    management unit, what a thread does under one lock is a step, and the
    theorems are about every order of steps.  Traits are classes, with their
    laws in a second class ([MessageAction], [Checksum], [ObjectReference],
    [Object], [ObjectStore], [Bincode], [NodeBincode], [Memory],
    [StoragePoolLayer], [VdevLeaf], [Vdev], [LfuCache]); third-party code
    (hashers, bincode, speedy, zstd, lfu_cache) is only met through such a
    class, and every property that relies on its laws has a witness with a
    concrete instance.

    ** The files

    Shared: this file (the panic monad, machine integers, generic lemmas),
    [Bytes] (byte strings, coding of integers, [cut] for slices, the order of
    keys), [BTreeMap] (ordered maps as sorted lists), [CowBytes]
    ([cow_bytes.rs]), [StoragePref] ([storage_pool/storage_preference.rs]),
    [Checksum] ([checksum/]).

    Messages and nodes: [Message] ([tree/message_action.rs],
    [tree/default_message_action.rs]; content-level and slice-level
    functions), [ChildBuffer] and [PackedFormat]
    ([tree/imp/internal/packed_child_buffer.rs]: the message buffers that
    also serve as leaves, and their byte format with its binary search),
    [Pivots] ([tree/pivot_key.rs]), [Internal]
    ([tree/imp/internal/copyless_internal.rs]), [Node]
    ([tree/imp/node.rs]), [NodePack] (the packed form of both kinds of
    nodes).

    The tree: [Tree] ([tree/imp/mod.rs], [flush.rs], [split.rs]; the store of
    nodes is a finite map), [TreeInv] (well-formedness and the value of a key
    as the leaf value with the buffered messages applied), [TreeSteps],
    [TreeSplit], [TreeMerge], [TreeRebalance] (each rebalancing step keeps
    both), [TreeCorrect] (queries, insertion and the composed theorems),
    [Range] ([tree/imp/range.rs], [range_validation.rs]), [Dataset] (a tree
    behaves as the map of its entries, which is what the layers above use).

    Space and cache: [Disk] ([vdev/block.rs],
    [storage_pool/disk_offset.rs]), [Allocator] ([allocator.rs]), [RootKeys]
    ([database/root_tree_msg.rs], keys and records of the root tree),
    [Handler] ([database/handler.rs]), [DmuAlloc] (allocation in
    [data_management/dmu.rs]), [Clock] and [Cache] ([cache/clock.rs],
    [cache/clock_cache.rs]; the clock is a circular list over raw pointers).

    Objects and the database: [Meta], [Chunk], [Object], [ObjectCorrect],
    [ObjectLife] ([object/meta.rs], [chunk.rs], [mod.rs], [cursor.rs]),
    [Buffer] ([buffer.rs]), [Superblock] ([database/superblock.rs]),
    [Database] ([database/mod.rs], [dataset.rs], [snapshot.rs]),
    [Compression] ([compression/]).

    Devices and the pool: [Vdev] (leaf devices: [vdev/mod.rs], [mem.rs],
    [file.rs]), [Parity] and [ParityCorrect] ([vdev/parity1.rs]), [Mirror]
    ([vdev/mirror.rs]), [Device] (the traits that the pool uses, discharged
    by leaves, mirrors and parity), [PoolConfig]
    ([storage_pool/configuration.rs]), [Pool] and [PoolCorrect]
    ([storage_pool/unit.rs], [bounded_future_queue.rs]; clients and
    write-back tasks as a step function under a schedule), [PoolAlloc] (the
    pool behind [Dmu::allocate]).

    The data management unit ([data_management/dmu.rs], [impls.rs],
    [object_ptr.rs]): [DmuObjects] (the states of an object and every
    operation on them), [DmuDenote] (the tree of contents that a reference
    denotes, and the laws of [Object] and [ObjectStore]), [DmuProtocol] and
    [DmuWriteBack] (every operation keeps what all references denote),
    [DmuMachine] (the actions of threads as steps, and the forest that they
    refine), [DmuPersist] ([write_back] of a whole tree), [DmuExamples],
    [NodeObject] (tree nodes as objects of the unit, which joins the unit and
    the tree).

    Migration: [Migration] ([migration/lfu.rs], [msg.rs] and one turn of the
    loop in [mod.rs]).

    ** What the theorems show

    - Tree: point queries compute the value the tree stands for; insertion
      changes the value of its key only; flush, split, merge and the root
      split keep every value and the shape; range queries return the entries
      between their bounds in order; together, a tree refines a map.  Where
      the code departs from this ([newer_message_lost], [leaf_merge_panics],
      [range_differs_from_request]) the departure is a theorem.
    - Formats: packed buffers, nodes, keys, disk offsets, records and
      compressed data read back; the search on packed bytes is the lookup in
      the unpacked map.  A node whose recorded sizes are wrong cannot be
      packed ([rebalanced_cannot_be_packed]).
    - Space: first fit is complete, an allocation takes unused blocks and
      only them, copy on write frees exactly what no snapshot needs, the
      bitmap protects the blocks of the last synced tree.
    - Cache: the pointer structure refines a queue, eviction gives a second
      chance and ends, pinned entries stay.
    - Data management unit: in every order of actions nothing panics and
      clients see a forest that only their own changes change; [write_back]
      ends, and the pointer it returns and the disk alone give the tree back;
      this holds of the nodes of a tree ([trees_survive_reopening]).  Runs
      with a storage hint or a failing eviction that break it are theorems
      ([hint_loses_child], [failed_evict_blocks]).
    - Devices and pool: a parity device survives the loss of one disk and a
      mirror that of all but one, writes stay in their allocation, and in
      every schedule a client of the pool reads what it wrote; where two
      writes to one offset overlap ([rewrite_is_lost]) or the queue waits for
      itself ([write_back_deadlocks]) it does not.
    - Objects: a read returns what was written, creation and deletion have
      their effects, and the message for meta data merges as it applies;
      exceptions are theorems again ([merged_deletion_is_lost],
      [sparse_read_panics]).
    - Database: a superblock write survives a crash, sync commits the root
      tree, data sets can be created, opened, closed and reopened; a created
      snapshot is lost ([created_snapshot_is_lost]).

    - Migration: a written node is known in exactly one class, a round leaves
      the data of all objects as they are, the loops that move objects end
      unless space is tight; then they may not ([promote_spins]).

    ** Bounds and fuel

    Loops that are not structural take fuel, and the theorem about the
    function gives an amount that is enough: the height of the tree for a
    walk, the number of nodes for rebalancing, the number of entries for
    binary search, clock and range query, the length of the range for chunk
    loops, the number of segments and disks for allocation.  Running out of
    fuel is [None], as a panic, so that a theorem that a call returns covers
    termination.  In the data management unit [get] retries at most 4 times
    and [get_mut] and the settling of a reference twice, as each turn moves
    the object one state forward, and [write_back] of a tree of n nodes takes
    2n + 2 turns.  Objects that are written have at most 4 MiB, which
    allocation assumes, and packed nodes stay below 4 GiB, the range of their
    lengths.  In [Migration] a loop that is out of fuel says so ([Running]),
    since one of them need not end; one turn more than there are objects in
    the class is enough for the others.

    ** Not modelled

    Locks and futures outside the pool and the data management unit, and
    interleavings below the steps that were named; pins of cache entries in
    the unit, except where [remove] meets one; the C interface, the command
    line tool, the benchmarks and other bindings (they only call the
    library); the migration policy by reinforcement learning, the metrics,
    and the floating-point comparison of fill levels; persistent memory; the
    figment configuration; [rename] of objects, which changes the tree under
    its own iterator. *)

From Stdlib Require Import ZArith Lia.
From stdpp Require Export base option list numbers sets.

(** ** Notation scope and the panic monad

    Rust code that may panic (a failed [assert!], an index out of range, an
    [unwrap] of [None], an arithmetic overflow with overflow checks) is
    modelled in [option]: [None] is the panic, [Some r] the returned value.
    Sequencing is stdpp's [x ← m; k]. *)

Declare Scope haura_scope.
Delimit Scope haura_scope with haura.

Notation "'assert!' b ; k" := (if b then k else None)
  (at level 100, b at level 99, k at level 200, right associativity) : haura_scope.

Global Open Scope haura_scope.
Global Open Scope Z_scope.

(** ** Automation *)

Create HintDb haura.
Create Rewrite HintDb haura.

(** Case analysis on every boolean comparison of [Z] in sight. *)
Ltac zbool :=
  repeat match goal with
  | H : context [Z.ltb ?a ?b] |- _ => destruct (Z.ltb_spec a b)
  | H : context [Z.leb ?a ?b] |- _ => destruct (Z.leb_spec a b)
  | H : context [Z.eqb ?a ?b] |- _ => destruct (Z.eqb_spec a b)
  | |- context [Z.ltb ?a ?b] => destruct (Z.ltb_spec a b)
  | |- context [Z.leb ?a ?b] => destruct (Z.leb_spec a b)
  | |- context [Z.eqb ?a ?b] => destruct (Z.eqb_spec a b)
  end.

(** Invert a computation in the panic monad that returned. *)
Ltac inv_bind :=
  repeat match goal with
  | H : mbind _ _ = Some _ |- _ =>
      apply bind_Some in H; destruct H as (? & ? & H)
  | H : (if ?b then _ else None) = Some _ |- _ =>
      destruct b eqn:?; [|discriminate H]
  end; simplify_eq/=.

(** ** Machine integers

    A [u8], [u32], [u64] or [usize] is a [Z]; the operations that can leave
    the width are written out.  The checked operations model the overflow
    checks of a debug build; where a theorem shows that they return, the
    wrapping operations of a release build compute the same value. *)

Definition U8_MAX : Z := 2 ^ 8 - 1.
Definition U32_SIZE : Z := 2 ^ 32.
Definition U64_SIZE : Z := 2 ^ 64.

Definition wrap8 (x : Z) : Z := x mod 2 ^ 8.
Definition wrap16 (x : Z) : Z := x mod 2 ^ 16.
Definition wrap32 (x : Z) : Z := x mod 2 ^ 32.
Definition wrap64 (x : Z) : Z := x mod 2 ^ 64.

(** [a + b] on [u32] with overflow check. *)
Definition u32_add (a b : Z) : option Z :=
  if a + b <? U32_SIZE then Some (a + b) else None.

(** [a + b] on [u64] with overflow check. *)
Definition u64_add (a b : Z) : option Z :=
  if a + b <? U64_SIZE then Some (a + b) else None.

(** [a * b] on a type of [width] values with overflow check. *)
Definition umul (width a b : Z) : option Z :=
  if a * b <? width then Some (a * b) else None.

(** [a - b] on [u32] or [usize] with overflow check. *)
Definition usub (a b : Z) : option Z :=
  if b <=? a then Some (a - b) else None.

Lemma u32_add_Some a b : a + b < U32_SIZE → u32_add a b = Some (a + b).
Proof. unfold u32_add. zbool; [done|lia]. Qed.

Lemma u32_add_inv a b c : u32_add a b = Some c → c = a + b ∧ a + b < U32_SIZE.
Proof. unfold u32_add. zbool; intros [=]; lia. Qed.

Lemma u64_add_Some a b : a + b < U64_SIZE → u64_add a b = Some (a + b).
Proof. unfold u64_add. zbool; [done|lia]. Qed.

Lemma u64_add_inv a b c : u64_add a b = Some c → c = a + b ∧ a + b < U64_SIZE.
Proof. unfold u64_add. zbool; intros [=]; lia. Qed.

Lemma umul_inv w a b c : umul w a b = Some c → c = a * b ∧ a * b < w.
Proof. unfold umul. zbool; intros [=]; lia. Qed.

Lemma usub_Some a b : b ≤ a → usub a b = Some (a - b).
Proof. unfold usub. zbool; [done|lia]. Qed.

Lemma usub_inv a b c : usub a b = Some c → c = a - b ∧ b ≤ a.
Proof. unfold usub. zbool; intros [=]; lia. Qed.

#[export] Hint Resolve u32_add_Some u64_add_Some usub_Some : haura.

(** ** Bit fields *)

(** A value placed above [n] bits of another one. *)
Lemma lor_field hi lo n :
  0 ≤ n → 0 ≤ lo < 2 ^ n → Z.lor (Z.shiftl hi n) lo = hi * 2 ^ n + lo.
Proof.
  intros Hn Hlo. rewrite Z.shiftl_mul_pow2 by done. symmetry.
  apply Z.add_nocarry_lor, Z.bits_inj_0. intros i.
  rewrite Z.land_spec. destruct (Z.ltb_spec i 0); [by rewrite Z.testbit_neg_r|].
  destruct (Z.ltb_spec i n).
  - by rewrite Z.mul_pow2_bits_low.
  - destruct (decide (lo = 0)) as [->|]; [by rewrite Z.testbit_0_l, andb_false_r|].
    rewrite (Z.bits_above_log2 lo i), andb_false_r; [done|lia|].
    apply Z.log2_lt_pow2; [lia|]. apply Z.lt_le_trans with (2 ^ n); [lia|].
    apply Z.pow_le_mono_r; lia.
Qed.

(** [(x & (((1 << k) - 1) << n)) >> n] *)
Lemma field_mod x n k :
  0 ≤ n → 0 ≤ k →
  Z.shiftr (Z.land x (Z.shiftl (Z.ones k) n)) n = (x / 2 ^ n) mod 2 ^ k.
Proof.
  intros Hn Hk. rewrite Z.shiftr_land, Z.shiftr_shiftl_l, Z.sub_diag, Z.shiftl_0_r by lia.
  by rewrite Z.land_ones, Z.shiftr_div_pow2.
Qed.

(** [x & !((1 << k) - 1)] *)
Lemma land_lnot_ones x k : 0 ≤ k → Z.land x (Z.lnot (Z.ones k)) = x - x mod 2 ^ k.
Proof.
  intros Hk. rewrite <- Z.ldiff_land, Z.ldiff_ones_r by done.
  rewrite Z.shiftr_div_pow2, Z.shiftl_mul_pow2 by done.
  pose proof (Z.div_mod x (2 ^ k) ltac:(apply Z.pow_nonzero; lia)). lia.
Qed.

(** ** Lists *)

(** Sum of a list of sizes ([iter().sum::<usize>()]). *)
Definition sum_Z (l : list Z) : Z := foldr Z.add 0 l.

Lemma sum_Z_app l1 l2 : sum_Z (l1 ++ l2) = sum_Z l1 + sum_Z l2.
Proof. induction l1; simpl; lia. Qed.

Lemma sum_Z_nonneg l : Forall (λ x, 0 ≤ x) l → 0 ≤ sum_Z l.
Proof. induction 1; simpl; lia. Qed.

Lemma take_drop_mid {A} (l1 l2 l3 : list A) :
  take (length l2) (drop (length l1) (l1 ++ l2 ++ l3)) = l2.
Proof. by rewrite drop_app_length, take_app_length. Qed.

(** [Vec::insert(i, x)]: panics when [i > len]. *)
Definition vec_insert {A} (i : nat) (x : A) (l : list A) : option (list A) :=
  if Nat.leb i (length l) then Some (take i l ++ x :: drop i l) else None.

(** [Vec::remove(i)]: the removed element and the rest; panics when
    [i >= len]. *)
Definition vec_remove {A} (i : nat) (l : list A) : option (A * list A) :=
  x ← l !! i; Some (x, take i l ++ drop (S i) l).

(** [v[i] = x]: panics when [i >= len]. *)
Definition vec_set {A} (i : nat) (x : A) (l : list A) : option (list A) :=
  if Nat.ltb i (length l) then Some (<[i := x]> l) else None.

(** [Vec::split_off(i)]: panics when [i > len]. *)
Definition vec_split_off {A} (i : nat) (l : list A) : option (list A * list A) :=
  if Nat.leb i (length l) then Some (take i l, drop i l) else None.

Lemma vec_insert_Some {A} i (x : A) l :
  (i ≤ length l)%nat → vec_insert i x l = Some (take i l ++ x :: drop i l).
Proof. intros H. unfold vec_insert. by rewrite (proj2 (Nat.leb_le _ _) H). Qed.

Lemma vec_remove_Some {A} i (x : A) l :
  l !! i = Some x → vec_remove i l = Some (x, take i l ++ drop (S i) l).
Proof. intros H. unfold vec_remove. by rewrite H. Qed.

Lemma vec_set_Some {A} i (x : A) l :
  (i < length l)%nat → vec_set i x l = Some (<[i := x]> l).
Proof. intros H. unfold vec_set. by rewrite (proj2 (Nat.ltb_lt _ _) H). Qed.

Lemma vec_split_off_Some {A} i (l : list A) :
  (i ≤ length l)%nat → vec_split_off i l = Some (take i l, drop i l).
Proof. intros H. unfold vec_split_off. by rewrite (proj2 (Nat.leb_le _ _) H). Qed.

Lemma vec_insert_inv {A} i (x : A) l l' :
  vec_insert i x l = Some l' → (i ≤ length l)%nat ∧ l' = take i l ++ x :: drop i l.
Proof. unfold vec_insert. destruct (Nat.leb_spec i (length l)); intros [= <-]; done. Qed.

Lemma vec_remove_inv {A} i (x : A) l l' :
  vec_remove i l = Some (x, l') → l !! i = Some x ∧ l' = take i l ++ drop (S i) l.
Proof. unfold vec_remove. destruct (l !! i); simpl; intros [= -> <-]; done. Qed.

Lemma vec_set_inv {A} i (x : A) l l' :
  vec_set i x l = Some l' → (i < length l)%nat ∧ l' = <[i := x]> l.
Proof. unfold vec_set. destruct (Nat.ltb_spec i (length l)); intros [= <-]; done. Qed.

Lemma vec_split_off_inv {A} i (l l1 l2 : list A) :
  vec_split_off i l = Some (l1, l2) → (i ≤ length l)%nat ∧ l1 = take i l ∧ l2 = drop i l.
Proof. unfold vec_split_off. destruct (Nat.leb_spec i (length l)); intros [= <- <-]; done. Qed.

(** Invert the vector operations in the context. *)
Ltac inv_vec :=
  repeat match goal with
  | H : vec_insert _ _ _ = Some _ |- _ => apply vec_insert_inv in H as [? ->]
  | H : vec_remove _ _ = Some (_, _) |- _ => apply vec_remove_inv in H as [? ->]
  | H : vec_set _ _ _ = Some _ |- _ => apply vec_set_inv in H as [? ->]
  | H : vec_split_off _ _ = Some (_, _) |- _ => apply vec_split_off_inv in H as (? & -> & ->)
  end.

(** A list cut around one position. *)
Lemma insert_cut {A} (l : list A) j x :
  (j < length l)%nat → <[j := x]> l = take j l ++ x :: drop (S j) l.
Proof. intros Hj. by rewrite insert_take_drop. Qed.

Lemma alter_middle {A} (f : A → A) (l r : list A) j x :
  (j ≤ length l)%nat → alter f j (take j l ++ x :: r) = take j l ++ f x :: r.
Proof.
  intros Hj. assert (length (take j l) = j) as Hl by (rewrite length_take; lia).
  rewrite alter_app_r_alt, Hl, Nat.sub_diag by lia. done.
Qed.

Lemma insert_middle {A} (l r : list A) j x y :
  (j ≤ length l)%nat → <[j := y]> (take j l ++ x :: r) = take j l ++ y :: r.
Proof.
  intros Hj. assert (length (take j l) = j) as Hl by (rewrite length_take; lia).
  rewrite insert_app_r_alt, Hl, Nat.sub_diag by lia. done.
Qed.

(** Removing the element behind position [j]. *)
Lemma remove_next_cut {A} (l : list A) j x :
  l !! j = Some x → take (S j) l ++ drop (S (S j)) l = take j l ++ x :: drop (S (S j)) l.
Proof. intros Hj. by rewrite (take_S_r _ _ _ Hj), <- app_assoc. Qed.

Lemma insert_after_cut {A} (l : list A) j x y :
  (j < length l)%nat →
  take (S j) (take j l ++ x :: drop (S j) l) ++ y :: drop (S j) (take j l ++ x :: drop (S j) l)
    = take j l ++ x :: y :: drop (S j) l.
Proof.
  intros Hj. assert (length (take j l) = j) as Hl by (rewrite length_take; lia).
  rewrite take_app_ge, drop_app_ge by lia.
  rewrite Hl. replace (S j - j)%nat with 1%nat by lia. simpl.
  by rewrite take_0, drop_0, <- app_assoc.
Qed.

#[export] Hint Resolve vec_insert_Some vec_remove_Some vec_set_Some
  vec_split_off_Some : haura.
