(* ===== verification/Bytes.v ===== *)
(** * Bytes, little- and big-endian words, bit views, byte-string order

    The parts of the Rust standard library (and of the [byteorder] and
    [bitvec] views the code uses on plain slices) that every component works
    on: [u8] slices, [to_le_bytes]/[from_le_bytes], [to_be_bytes], slicing
    with bounds checks, the [Lsb0] bit view of a byte slice, and the
    lexicographic order on keys. *)

From Stdlib Require Import ZArith Lia Orders OrdersTac.
From coqutil Require Import Byte Word.LittleEndianList.
From stdpp Require Import base option list numbers.
From S2P Require Import Prelude.

(** ** Bytes *)

Abbreviation byte := Init.Byte.byte.
Abbreviation bytes := (list Init.Byte.byte).

#[global] Instance byte_eq_dec : EqDecision byte := Byte.byte_eq_dec.
#[global] Instance byte_inhabited : Inhabited byte := populate Byte.x00.

Abbreviation zero := Byte.x00.

(** Length of a slice as a [usize]. *)
Definition blen (b : bytes) : Z := Z.of_nat (length b).

Lemma blen_nonneg b : 0 ≤ blen b.
Proof. unfold blen. lia. Qed.

Lemma blen_app a b : blen (a ++ b) = blen a + blen b.
Proof. unfold blen. rewrite length_app. lia. Qed.

#[export] Hint Resolve blen_nonneg : haura.

Create Rewrite HintDb blen.

(** ** Words in memory *)

Definition le32 (x : Z) : bytes := le_split 4 x.
Definition le64 (x : Z) : bytes := le_split 8 x.
Definition be32 (x : Z) : bytes := rev (le_split 4 x).
Definition be64 (x : Z) : bytes := rev (le_split 8 x).
Definition be16 (x : Z) : bytes := rev (le_split 2 x).
Definition of_le (b : bytes) : Z := le_combine b.
Definition of_be (b : bytes) : Z := le_combine (rev b).

#[global] Arguments le32 : simpl never.
#[global] Arguments le64 : simpl never.
#[global] Arguments be32 : simpl never.
#[global] Arguments be64 : simpl never.
#[global] Arguments be16 : simpl never.

Lemma length_le32 x : length (le32 x) = 4%nat.
Proof. apply length_le_split. Qed.
Lemma length_le64 x : length (le64 x) = 8%nat.
Proof. apply length_le_split. Qed.
Lemma length_be32 x : length (be32 x) = 4%nat.
Proof. unfold be32. by rewrite length_rev, length_le_split. Qed.
Lemma length_be64 x : length (be64 x) = 8%nat.
Proof. unfold be64. by rewrite length_rev, length_le_split. Qed.

Lemma length_be16 x : length (be16 x) = 2%nat.
Proof. unfold be16. by rewrite length_rev, length_le_split. Qed.

Lemma of_le_le32 x : 0 ≤ x < U32_SIZE → of_le (le32 x) = x.
Proof.
  intros H. unfold of_le, le32. rewrite le_combine_split.
  by apply Z.mod_small.
Qed.

Lemma of_le_le64 x : 0 ≤ x < U64_SIZE → of_le (le64 x) = x.
Proof.
  intros H. unfold of_le, le64. rewrite le_combine_split.
  by apply Z.mod_small.
Qed.

Lemma of_be_be64 x : 0 ≤ x < U64_SIZE → of_be (be64 x) = x.
Proof.
  intros H. unfold of_be, be64. rewrite rev_involutive. by apply of_le_le64.
Qed.

Lemma of_be_be32 x : 0 ≤ x < U32_SIZE → of_be (be32 x) = x.
Proof.
  intros H. unfold of_be, be32. rewrite rev_involutive. by apply of_le_le32.
Qed.

Lemma of_be_be16 x : 0 ≤ x < 2 ^ 16 → of_be (be16 x) = x.
Proof.
  intros H. unfold of_be, be16. rewrite rev_involutive, le_combine_split.
  by apply Z.mod_small.
Qed.

Lemma of_le_nonneg b : 0 ≤ of_le b.
Proof. apply le_combine_bound. Qed.

Lemma of_le_bound b : of_le b < 2 ^ (8 * Z.of_nat (length b)).
Proof. apply le_combine_bound. Qed.

(** A single byte as a number and back ([as u8] truncates). *)
Definition u8 (b : byte) : Z := byte.unsigned b.
Definition to_u8 (x : Z) : byte := byte.of_Z x.

#[global] Arguments u8 : simpl never.
#[global] Arguments to_u8 : simpl never.

Lemma u8_range b : 0 ≤ u8 b < 256.
Proof. apply byte.unsigned_range. Qed.

Lemma u8_to_u8 x : 0 ≤ x < 256 → u8 (to_u8 x) = x.
Proof.
  intros H. unfold u8, to_u8. rewrite byte.unsigned_of_Z. by apply Z.mod_small.
Qed.

Lemma to_u8_u8 b : to_u8 (u8 b) = b.
Proof. apply byte.of_Z_unsigned. Qed.

#[export] Instance u8_inj : Inj (=) (=) u8.
Proof. intros a b H. by rewrite <- (to_u8_u8 a), H, to_u8_u8. Qed.

Lemma blen_le32 x : blen (le32 x) = 4.
Proof. unfold blen. by rewrite length_le32. Qed.
Lemma blen_le64 x : blen (le64 x) = 8.
Proof. unfold blen. by rewrite length_le64. Qed.
Lemma blen_cons x b : blen (x :: b) = 1 + blen b.
Proof. unfold blen. simpl. lia. Qed.
Lemma blen_nil : blen [] = 0.
Proof. done. Qed.

Lemma of_le_u8 x : 0 ≤ x < 256 → of_le [to_u8 x] = x.
Proof.
  intros Hx. rewrite <- (u8_to_u8 x Hx) at 2.
  unfold of_le, le_combine, u8. by rewrite Z.shiftl_0_l, Z.lor_0_r.
Qed.

#[export] Hint Rewrite blen_app blen_le32 blen_le64 blen_cons blen_nil : blen.

#[export] Hint Rewrite length_le32 length_le64 length_be32 length_be64
  length_le_split : haura.

(** ** Slicing

    [b[pos..pos + len]] panics when the range does not lie in the slice. *)

Definition cut (b : bytes) (pos len : Z) : option bytes :=
  if (0 <=? pos) && (0 <=? len) && (pos + len <=? blen b)
  then Some (take (Z.to_nat len) (drop (Z.to_nat pos) b)) else None.

(** [b[i]] *)
Definition at_ (b : bytes) (i : Z) : option byte :=
  if 0 <=? i then b !! Z.to_nat i else None.

Lemma cut_Some b pos len r :
  cut b pos len = Some r → 0 ≤ pos ∧ 0 ≤ len ∧ pos + len ≤ blen b ∧
    r = take (Z.to_nat len) (drop (Z.to_nat pos) b) ∧ blen r = len.
Proof.
  unfold cut. zbool; simpl; intros [= <-]. unfold blen in *.
  rewrite length_take, length_drop. repeat split; lia.
Qed.

Lemma cut_app_mid a b c pos len :
  pos = blen a → len = blen b → cut (a ++ b ++ c) pos len = Some b.
Proof.
  intros -> ->. unfold cut. rewrite !blen_app.
  pose proof (blen_nonneg a). pose proof (blen_nonneg b). pose proof (blen_nonneg c).
  zbool; try lia. simpl. f_equal. unfold blen. rewrite !Nat2Z.id.
  apply take_drop_mid.
Qed.

(** The same with the decomposition as an equation. *)
Lemma cut_at d a b c pos len :
  d = a ++ b ++ c → pos = blen a → len = blen b → cut d pos len = Some b.
Proof. intros ->. apply cut_app_mid. Qed.

Lemma cut_front (b : bytes) n : 0 ≤ n ≤ blen b → cut b 0 n = Some (take (Z.to_nat n) b).
Proof.
  intros. unfold cut. by rewrite (proj2 (Z.leb_le 0 n)), (proj2 (Z.leb_le (0 + n) (blen b))) by lia.
Qed.

(** A cut inside the middle part of a concatenation. *)
Lemma cut_app_in a b c pos len r :
  cut b pos len = Some r → cut (a ++ b ++ c) (blen a + pos) len = Some r.
Proof.
  intros (?&?&?&->&?)%cut_Some.
  rewrite <- (take_drop (Z.to_nat pos) b) at 1.
  rewrite <- (take_drop (Z.to_nat len) (drop (Z.to_nat pos) b)) at 1.
  rewrite <- !app_assoc, app_assoc. unfold blen in *.
  apply cut_app_mid; unfold blen; rewrite ?length_app, ?length_take, ?length_drop; lia.
Qed.

(** ** The [Lsb0] bit view of a byte slice *)

Definition byte_bit (b : byte) (i : Z) : bool := Z.testbit (u8 b) i.

(** Bit [i] of the slice ([view_bits::<Lsb0>()[i]]); out of range reads
    [false]. *)
Definition bit_at (d : bytes) (i : Z) : bool :=
  match d !! Z.to_nat (i / 8) with
  | Some b => byte_bit b (i mod 8)
  | None => false
  end.

Definition set_bit (b : byte) (i : Z) (v : bool) : byte :=
  to_u8 (if v then Z.setbit (u8 b) i else Z.clearbit (u8 b) i).

Definition write_bit (d : bytes) (i : Z) (v : bool) : bytes :=
  alter (λ b, set_bit b (i mod 8) v) (Z.to_nat (i / 8)) d.

(** [view_bits_mut::<Lsb0>()[start..start + n].fill(v)] for a range in
    bounds. *)
Fixpoint fill_bits (d : bytes) (start : Z) (n : nat) (v : bool) : bytes :=
  match n with
  | O => d
  | S n => fill_bits (write_bit d start v) (start + 1) n v
  end.

Lemma byte_bit_set_bit b i j v :
  0 ≤ i < 8 → 0 ≤ j < 8 →
  byte_bit (set_bit b i v) j = if decide (i = j) then v else byte_bit b j.
Proof.
  intros Hi Hj. unfold byte_bit, set_bit, u8, to_u8.
  rewrite byte.unsigned_of_Z. unfold byte.wrap.
  rewrite <- Z.land_ones, Z.land_spec, Z.ones_spec_low by lia.
  rewrite andb_true_r.
  destruct v; case_decide; subst.
  - apply Z.setbit_eq; lia.
  - apply Z.setbit_neq; lia.
  - apply Z.clearbit_eq.
  - apply Z.clearbit_neq; lia.
Qed.

Lemma length_write_bit d i v : length (write_bit d i v) = length d.
Proof. apply length_alter. Qed.

Lemma length_fill_bits d s n v : length (fill_bits d s n v) = length d.
Proof.
  revert d s; induction n as [|n IH]; intros d s; simpl; [done|].
  by rewrite IH, length_write_bit.
Qed.

Lemma bit_at_write_bit d i j v :
  0 ≤ i < 8 * blen d → 0 ≤ j →
  bit_at (write_bit d i v) j = if decide (i = j) then v else bit_at d j.
Proof.
  intros Hi Hj. unfold bit_at, write_bit, blen in *.
  pose proof (Z.mod_pos_bound i 8 ltac:(lia)).
  pose proof (Z.mod_pos_bound j 8 ltac:(lia)).
  pose proof (Z.div_mod i 8 ltac:(lia)). pose proof (Z.div_mod j 8 ltac:(lia)).
  destruct (decide (i / 8 = j / 8)) as [E|E].
  - rewrite <- E, list_lookup_alter_eq.
    destruct (lookup_lt_is_Some_2 d (Z.to_nat (i / 8))) as [b Hb].
    { apply Nat2Z.inj_lt. rewrite Z2Nat.id by (apply Z.div_pos; lia).
      apply Z.div_lt_upper_bound; lia. }
    rewrite Hb. simpl. rewrite byte_bit_set_bit by lia.
    repeat case_decide; try done; lia.
  - rewrite list_lookup_alter_ne.
    + case_decide; [subst; done|done].
    + pose proof (Z.div_pos i 8); pose proof (Z.div_pos j 8). lia.
Qed.

(** [fill] sets exactly the bits of the range. *)
Lemma bit_at_fill_bits d s n v j :
  0 ≤ s → s + Z.of_nat n ≤ 8 * blen d → 0 ≤ j →
  bit_at (fill_bits d s n v) j =
    if decide (s ≤ j < s + Z.of_nat n) then v else bit_at d j.
Proof.
  revert d s; induction n as [|n IH]; intros d s Hs Hn Hj; simpl.
  - case_decide; [lia|done].
  - rewrite IH; [|lia|unfold blen in *; rewrite length_write_bit; lia|done].
    rewrite bit_at_write_bit by lia.
    repeat case_decide; subst; try done; lia.
Qed.

(** ** The order on keys

    [<[u8] as Ord>::cmp]: lexicographic on unsigned bytes. *)

Fixpoint bytes_cmp (a b : bytes) : comparison :=
  match a, b with
  | [], [] => Eq
  | [], _ :: _ => Lt
  | _ :: _, [] => Gt
  | x :: a, y :: b =>
      match u8 x ?= u8 y with
      | Eq => bytes_cmp a b
      | c => c
      end
  end.

Definition blt (a b : bytes) : Prop := bytes_cmp a b = Lt.
Definition ble (a b : bytes) : Prop := blt a b ∨ a = b.
Definition bltb (a b : bytes) : bool :=
  match bytes_cmp a b with Lt => true | _ => false end.
Definition bleb (a b : bytes) : bool :=
  match bytes_cmp a b with Gt => false | _ => true end.
Definition beqb (a b : bytes) : bool :=
  match bytes_cmp a b with Eq => true | _ => false end.

Infix "<ᵇ" := blt (at level 70) : haura_scope.
Infix "≤ᵇ" := ble (at level 70) : haura_scope.

Lemma bytes_cmp_refl a : bytes_cmp a a = Eq.
Proof. induction a as [|x a IH]; simpl; [done|]. by rewrite Z.compare_refl. Qed.

Lemma bytes_cmp_eq a b : bytes_cmp a b = Eq ↔ a = b.
Proof.
  split; [|intros ->; apply bytes_cmp_refl].
  revert b; induction a as [|x a IH]; intros [|y b]; simpl; try done.
  destruct (Z.compare_spec (u8 x) (u8 y)) as [E| |]; try done.
  intros H. f_equal; [by apply (inj u8)|by apply IH].
Qed.

Lemma bytes_cmp_antisym a b : bytes_cmp b a = CompOpp (bytes_cmp a b).
Proof.
  revert b; induction a as [|x a IH]; intros [|y b]; simpl; try done.
  rewrite (Z.compare_antisym (u8 x)). destruct (u8 x ?= u8 y); simpl; auto.
Qed.

Lemma blt_trans a b c : a <ᵇ b → b <ᵇ c → a <ᵇ c.
Proof.
  unfold blt. revert b c; induction a as [|x a IH]; intros [|y b] [|z c]; simpl; try done.
  destruct (Z.compare_spec (u8 x) (u8 y)), (Z.compare_spec (u8 y) (u8 z)),
    (Z.compare_spec (u8 x) (u8 z)); try done; try lia; eauto.
Qed.

Lemma blt_irrefl a : ¬ a <ᵇ a.
Proof. unfold blt. by rewrite bytes_cmp_refl. Qed.

Lemma bytes_total a b : a <ᵇ b ∨ a = b ∨ b <ᵇ a.
Proof.
  unfold blt. rewrite (bytes_cmp_antisym a b), <- bytes_cmp_eq.
  destruct (bytes_cmp a b); auto.
Qed.

(** The [order] tactic for keys. *)
Module BytesOrder <: TotalOrder.
Definition t := bytes.
Definition eq := @Logic.eq bytes.
Definition lt := blt.
Definition le := ble.
Definition eq_equiv : Equivalence eq := _.
Instance lt_strorder : StrictOrder lt.
Proof. split; [exact blt_irrefl|exact blt_trans]. Qed.
Instance lt_compat : Proper (eq ==> eq ==> iff) lt.
Proof. intros ?? -> ?? ->. done. Qed.
Lemma le_lteq x y : le x y ↔ lt x y ∨ eq x y.
Proof. done. Qed.
Lemma lt_total x y : lt x y ∨ eq x y ∨ lt y x.
Proof. apply bytes_total. Qed.
End BytesOrder.
Module BytesOrderTac := MakeOrderTac BytesOrder BytesOrder.

Ltac border :=
  change (@Logic.eq (list Init.Byte.byte)) with BytesOrder.eq in *;
  change blt with BytesOrder.lt in *; change ble with BytesOrder.le in *;
  BytesOrderTac.order.

Lemma bltb_spec a b : BoolSpec (a <ᵇ b) (b ≤ᵇ a) (bltb a b).
Proof.
  unfold bltb. destruct (bytes_cmp a b) eqn:E; constructor.
  - apply bytes_cmp_eq in E. subst. by right.
  - done.
  - left. unfold blt. by rewrite bytes_cmp_antisym, E.
Qed.

Lemma bleb_spec a b : BoolSpec (a ≤ᵇ b) (b <ᵇ a) (bleb a b).
Proof.
  unfold bleb. destruct (bytes_cmp a b) eqn:E; constructor.
  - apply bytes_cmp_eq in E. subst. by right.
  - by left.
  - unfold blt. by rewrite bytes_cmp_antisym, E.
Qed.

Lemma beqb_spec a b : BoolSpec (a = b) (a ≠ b) (beqb a b).
Proof.
  unfold beqb. destruct (bytes_cmp a b) eqn:E; constructor.
  - by apply bytes_cmp_eq.
  - intros ->. by rewrite bytes_cmp_refl in E.
  - intros ->. by rewrite bytes_cmp_refl in E.
Qed.

Lemma beqb_refl a : beqb a a = true.
Proof. unfold beqb. by rewrite bytes_cmp_refl. Qed.

#[export] Instance blt_dec a b : Decision (a <ᵇ b).
Proof. unfold blt. apply _. Defined.
#[export] Instance ble_dec a b : Decision (a ≤ᵇ b).
Proof. unfold ble. apply _. Defined.

(** Case analysis on every key comparison in sight. *)
Ltac bbool :=
  repeat match goal with
  | H : context [bltb ?a ?b] |- _ => destruct (bltb_spec a b)
  | H : context [bleb ?a ?b] |- _ => destruct (bleb_spec a b)
  | H : context [beqb ?a ?b] |- _ => destruct (beqb_spec a b)
  | |- context [bltb ?a ?b] => destruct (bltb_spec a b)
  | |- context [bleb ?a ?b] => destruct (bleb_spec a b)
  | |- context [beqb ?a ?b] => destruct (beqb_spec a b)
  end.

(** [key ++ [0]] is the immediate successor of [key]: the trick behind
    [split_off] at an inclusive pivot and the range iterator's bounds. *)
Lemma blt_snoc_zero k p : k <ᵇ p ++ [zero] ↔ k ≤ᵇ p.
Proof.
  unfold ble, blt. revert k; induction p as [|y p IH]; intros [|x k]; simpl.
  - naive_solver.
  - change (u8 Byte.x00) with 0. pose proof (u8_range x).
    destruct (Z.compare_spec (u8 x) 0); try lia; destruct k; naive_solver.
  - naive_solver.
  - destruct (Z.compare_spec (u8 x) (u8 y)) as [E|E|E].
    + apply (inj u8) in E as ->. rewrite IH. naive_solver.
    + naive_solver.
    + split; [done|]. intros [?|[= -> ->]]; [done|lia].
Qed.

Lemma blt_succ p : p <ᵇ p ++ [zero].
Proof. apply blt_snoc_zero. by right. Qed.

Lemma ble_snoc_zero p k : p ++ [zero] ≤ᵇ k ↔ p <ᵇ k.
Proof.
  pose proof (blt_succ p). pose proof (blt_snoc_zero k p) as Hk.
  destruct (bltb_spec k (p ++ [zero])) as [Hlt|Hge].
  - apply Hk in Hlt as Hle. split; intros; exfalso; border.
  - split; [intros; border|done].
Qed.

Lemma ble_nil k : [] ≤ᵇ k.
Proof. destruct k; [by right|by left]. Qed.

(** ** Keys made of parts

    The order of concatenations, and of big-endian words. *)

Lemma bytes_cmp_app a b x y :
  length a = length b →
  bytes_cmp (a ++ x) (b ++ y) = match bytes_cmp a b with Eq => bytes_cmp x y | c => c end.
Proof.
  revert b; induction a as [|u a IH]; intros [|v b] Hl; simpl in *; try done.
  destruct (u8 u ?= u8 v); auto.
Qed.

Lemma u8_of_Z x : u8 (Byte.byte.of_Z x) = x mod 256.
Proof. unfold u8. apply Byte.byte.unsigned_of_Z. Qed.

Lemma bytes_cmp_be n x y :
  0 ≤ x < 2 ^ (8 * Z.of_nat n) → 0 ≤ y < 2 ^ (8 * Z.of_nat n) →
  bytes_cmp (rev (le_split n x)) (rev (le_split n y)) = (x ?= y).
Proof.
  revert x y; induction n as [|n IH]; intros x y Hx Hy.
  - simpl in *. symmetry. apply Z.compare_eq_iff. lia.
  - replace (8 * Z.of_nat (S n)) with (8 + 8 * Z.of_nat n) in * by lia.
    rewrite Z.pow_add_r in * by lia. change (2 ^ 8) with 256 in *.
    assert (∀ w, le_split (S n) w = Byte.byte.of_Z w :: le_split n (Z.shiftr w 8)) as Hs by done.
    rewrite !Hs. cbn [rev].
    rewrite bytes_cmp_app by (by rewrite !length_rev, !length_le_split).
    rewrite !Z.shiftr_div_pow2 by lia. change (2 ^ 8) with 256.
    pose proof (Z.div_mod x 256 ltac:(lia)). pose proof (Z.div_mod y 256 ltac:(lia)).
    pose proof (Z.mod_pos_bound x 256 ltac:(lia)). pose proof (Z.mod_pos_bound y 256 ltac:(lia)).
    rewrite IH by (split; [apply Z.div_pos; lia|apply Z.div_lt_upper_bound; lia]).
    cbn [bytes_cmp]. rewrite !u8_of_Z.
    destruct (Z.compare_spec (x / 256) (y / 256)).
    + destruct (Z.compare_spec (x mod 256) (y mod 256)); symmetry.
      * apply Z.compare_eq_iff. lia.
      * apply Z.compare_lt_iff. lia.
      * apply Z.compare_gt_iff. lia.
    + symmetry. apply Z.compare_lt_iff. lia.
    + symmetry. apply Z.compare_gt_iff. lia.
Qed.

Lemma bytes_cmp_be64 x y :
  0 ≤ x < U64_SIZE → 0 ≤ y < U64_SIZE → bytes_cmp (be64 x) (be64 y) = (x ?= y).
Proof. intros Hx Hy. apply (bytes_cmp_be 8); done. Qed.
