(* ===== verification/BTreeMap.v ===== *)
(** * [std::collections::BTreeMap] with byte-string keys

    A [BTreeMap<CowBytes, V>] is a strictly sorted association list: its
    iteration order is the list order.  The operations are those the tree
    code uses ([get], [insert], [remove], [split_off], [append], [range],
    [FromIterator], reverse iteration), each with its effect on lookups, on
    sortedness and on the sum of a per-entry size. *)

From Stdlib Require Import ZArith Lia Sorting.Sorted.
From stdpp Require Import base option list numbers sorting sets gmap fin_maps.
From S2P Require Import Prelude.
From S2P Require Import Bytes.

#[global] Instance byte_countable : Countable byte :=
  inj_countable' u8 to_u8 to_u8_u8.

(** A map without an order: the contents of a tree. *)
Abbreviation contents := (gmap (list Init.Byte.byte) (list Init.Byte.byte)).

Section btree.
Context {V : Type}.
Implicit Types (m : list (bytes * V)) (k : bytes) (v : V) (p : bytes → bool).

(** ** Operations *)

Fixpoint bt_get (k : bytes) (m : list (bytes * V)) : option V :=
  match m with
  | [] => None
  | (k', v) :: m => if beqb k k' then Some v else bt_get k m
  end.

Fixpoint bt_insert (k : bytes) (v : V) (m : list (bytes * V)) : list (bytes * V) :=
  match m with
  | [] => [(k, v)]
  | (k', v') :: m' =>
      match bytes_cmp k k' with
      | Lt => (k, v) :: m
      | Eq => (k, v) :: m'
      | Gt => (k', v') :: bt_insert k v m'
      end
  end.

(** The entries whose key satisfies [p], in order. *)
Definition bt_filter (p : bytes → bool) (m : list (bytes * V)) : list (bytes * V) :=
  List.filter (λ e, p e.1) m.

Definition bt_remove (k : bytes) (m : list (bytes * V)) : list (bytes * V) :=
  bt_filter (λ k', negb (beqb k k')) m.

(** [split_off(k)]: what stays (keys below [k]) and what is returned. *)
Definition bt_split_off (k : bytes) (m : list (bytes * V)) :
    list (bytes * V) * list (bytes * V) :=
  (bt_filter (λ k', bltb k' k) m, bt_filter (λ k', negb (bltb k' k)) m).

(** [a.append(b)] moves all entries of [b] into [a]; [b]'s value wins. *)
Definition bt_append (a b : list (bytes * V)) : list (bytes * V) :=
  foldl (λ m e, bt_insert e.1 e.2 m) a b.

Definition bt_from_iter (l : list (bytes * V)) : list (bytes * V) :=
  bt_append [] l.

Definition bt_sorted (m : list (bytes * V)) : Prop := StronglySorted blt (m.*1).

(** Sum of a per-entry size. *)
Definition bt_sum (f : bytes → V → Z) (m : list (bytes * V)) : Z :=
  sum_Z ((λ e, f e.1 e.2) <$> m).

(** ** Sortedness *)

Lemma bt_sorted_cons k v m :
  bt_sorted ((k, v) :: m) ↔ bt_sorted m ∧ Forall (λ e, k <ᵇ e.1) m.
Proof.
  unfold bt_sorted. simpl. split.
  - intros H. apply StronglySorted_inv in H as [? H]. split; [done|].
    by rewrite Forall_fmap in H.
  - intros [? H]. constructor; [done|]. by rewrite Forall_fmap.
Qed.

Lemma Forall_bt_insert (P : bytes * V → Prop) k v m :
  P (k, v) → Forall P m → Forall P (bt_insert k v m).
Proof.
  intros Hk. induction 1 as [|[k' v'] m ? ? IH]; simpl; [by constructor|].
  destruct (bytes_cmp k k'); repeat constructor; auto.
Qed.

Lemma bt_sorted_insert k v m : bt_sorted m → bt_sorted (bt_insert k v m).
Proof.
  induction m as [|[k' v'] m IH]; simpl; intros Hs.
  { apply bt_sorted_cons. split; constructor. }
  apply bt_sorted_cons in Hs as [Hs Hall].
  destruct (bytes_cmp k k') eqn:E; apply bt_sorted_cons.
  - apply bytes_cmp_eq in E. by subst.
  - split; [by apply bt_sorted_cons|].
    constructor; [done|]. eapply Forall_impl; [eassumption|]. simpl. intros x ?.
    by eapply blt_trans.
  - split; [auto|]. apply Forall_bt_insert; [|done]. simpl.
    unfold blt. by rewrite bytes_cmp_antisym, E.
Qed.

Lemma Forall_bt_filter (P : bytes * V → Prop) p m :
  Forall P m → Forall P (bt_filter p m).
Proof.
  induction 1 as [|[k v] m ?? IH]; simpl; [done|]. destruct (p k); auto.
Qed.

Lemma bt_sorted_filter p m : bt_sorted m → bt_sorted (bt_filter p m).
Proof.
  induction m as [|[k v] m IH]; simpl; intros Hs; [done|].
  apply bt_sorted_cons in Hs as [Hs Hall].
  destruct (p k); [|auto]. apply bt_sorted_cons. split; [auto|].
  by apply Forall_bt_filter.
Qed.

Lemma bt_sorted_remove k m : bt_sorted m → bt_sorted (bt_remove k m).
Proof. apply bt_sorted_filter. Qed.

Lemma bt_sorted_append a b : bt_sorted a → bt_sorted (bt_append a b).
Proof.
  revert a; induction b as [|[k v] b IH]; intros a Ha; simpl; [done|].
  by apply IH, bt_sorted_insert.
Qed.

Lemma bt_sorted_app a b :
  bt_sorted a → bt_sorted b → (∀ x y, x ∈ a → y ∈ b → x.1 <ᵇ y.1) →
  bt_sorted (a ++ b).
Proof.
  induction a as [|[k v] a IH]; simpl; intros Ha Hb Hab; [done|].
  apply bt_sorted_cons in Ha as [Ha Hall]. apply bt_sorted_cons. split.
  - apply IH; auto. intros x y ??. apply Hab; set_solver.
  - apply Forall_app. split; [done|]. apply Forall_forall. intros y ?.
    apply (Hab (k, v)); set_solver.
Qed.

Lemma bt_sorted_app_inv a b :
  bt_sorted (a ++ b) →
  bt_sorted a ∧ bt_sorted b ∧ ∀ x y, x ∈ a → y ∈ b → x.1 <ᵇ y.1.
Proof.
  induction a as [|[k v] a IH]; simpl; intros Hs.
  - split_and!; [constructor|done|set_solver].
  - apply bt_sorted_cons in Hs as [Hs Hall].
    apply Forall_app in Hall as [Ha Hb].
    destruct (IH Hs) as (?&?&Hab). split_and!; [by apply bt_sorted_cons|done|].
    intros x y [->|?]%elem_of_cons Hy; [|auto]. simpl.
    rewrite Forall_forall in Hb. auto.
Qed.

(** ** Lookups *)

Lemma bt_get_lt k m : Forall (λ e, k <ᵇ e.1) m → bt_get k m = None.
Proof.
  induction 1 as [|[k' v] m Hk _ IH]; simpl in *; [done|].
  bbool; [subst|done]. by apply blt_irrefl in Hk.
Qed.

Lemma bt_get_In k v m : bt_get k m = Some v → (k, v) ∈ m.
Proof.
  induction m as [|[k' v'] m IH]; simpl; [done|].
  bbool; [intros [= ->]; subst; left|]. intros. right. auto.
Qed.

Lemma bt_get_Some k v m : bt_sorted m → bt_get k m = Some v ↔ (k, v) ∈ m.
Proof.
  intros Hs. split; [apply bt_get_In|].
  induction m as [|[k' v'] m IH]; simpl; [set_solver|].
  apply bt_sorted_cons in Hs as [Hs Hall].
  intros [[= -> ->]|Hin]%elem_of_cons; [by rewrite beqb_refl|].
  bbool; [|auto]. subst. rewrite Forall_forall in Hall.
  apply Hall in Hin. simpl in Hin. by apply blt_irrefl in Hin.
Qed.

Lemma bt_get_None k m : bt_get k m = None ↔ k ∉ m.*1.
Proof.
  induction m as [|[k' v'] m IH]; simpl; [set_solver|].
  bbool; [subst; set_solver|]. rewrite IH. set_solver.
Qed.

Lemma bt_get_insert k k' v m :
  bt_get k (bt_insert k' v m) = if beqb k k' then Some v else bt_get k m.
Proof.
  induction m as [|[k0 v0] m IH]; simpl; [done|].
  destruct (bytes_cmp k' k0) eqn:E; simpl.
  - apply bytes_cmp_eq in E. subst. by bbool.
  - done.
  - rewrite IH. bbool; try done. subst. by rewrite bytes_cmp_refl in E.
Qed.

Lemma bt_get_filter k p m :
  bt_get k (bt_filter p m) = if p k then bt_get k m else None.
Proof.
  induction m as [|[k' v] m IH]; simpl; [by destruct (p k)|].
  destruct (p k') eqn:E; simpl; rewrite IH.
  - bbool; [subst; by rewrite E|done].
  - bbool; [subst; by rewrite E|done].
Qed.

Lemma bt_get_remove k k' m :
  bt_get k (bt_remove k' m) = if beqb k k' then None else bt_get k m.
Proof.
  unfold bt_remove. rewrite bt_get_filter. by bbool; subst.
Qed.

Lemma bt_get_append k a b :
  bt_sorted b →
  bt_get k (bt_append a b) =
    match bt_get k b with Some v => Some v | None => bt_get k a end.
Proof.
  revert a; induction b as [|[k' v'] b IH]; intros a Hs; simpl; [done|].
  apply bt_sorted_cons in Hs as [Hs Hall].
  rewrite IH, bt_get_insert by done. bbool; [|done].
  subst. by rewrite (bt_get_lt k' b) by done.
Qed.

Lemma bt_get_app k a b :
  bt_get k (a ++ b) = match bt_get k a with Some v => Some v | None => bt_get k b end.
Proof. induction a as [|[k' v'] a IH]; simpl; [done|]. by bbool. Qed.

(** A sorted map cut after its entry [pk]. *)
Lemma bt_cut a b pk v :
  bt_sorted (a ++ b) → last a = Some (pk, v) →
  ∀ k, (bt_get k a = if bleb k pk then bt_get k (a ++ b) else None) ∧
       (bt_get k b = if bleb k pk then None else bt_get k (a ++ b)).
Proof.
  intros Hs Hl k. pose proof Hl as Hin. apply last_Some in Hl as [a' ->].
  apply bt_sorted_app_inv in Hs as (Ha&Hb&Hab).
  apply bt_sorted_app_inv in Ha as (_&_&Ha).
  rewrite (bt_get_app k (a' ++ _) b).
  assert (∀ w, bt_get k (a' ++ [(pk, v)]) = Some w → bleb k pk = true) as Hka.
  { intros w Hk. apply bt_get_In, elem_of_app in Hk. destruct Hk as [Hk|Hk].
    - apply (Ha _ (pk, v)) in Hk; [|set_solver]. simpl in Hk. bbool; [done|]. border.
    - apply list_elem_of_singleton in Hk. simplify_eq. bbool; [done|]. border. }
  assert (∀ w, bt_get k b = Some w → bleb k pk = false) as Hkb.
  { intros w Hk. apply bt_get_In in Hk. apply (Hab (pk, v)) in Hk; [|set_solver].
    simpl in Hk. bbool; [|done]. border. }
  destruct (bt_get k (a' ++ [(pk, v)])) as [w|] eqn:E1, (bt_get k b) as [w'|] eqn:E2;
    try rewrite (Hka w) in * by done; try rewrite (Hkb w') in * by done; try done.
  - by specialize (Hkb w' eq_refl).
  - by destruct (bleb k pk).
Qed.

(** Sorted maps with the same lookups are equal. *)
Lemma bt_ext m1 m2 :
  bt_sorted m1 → bt_sorted m2 → (∀ k, bt_get k m1 = bt_get k m2) → m1 = m2.
Proof.
  revert m2; induction m1 as [|[k1 v1] m1 IH]; intros [|[k2 v2] m2] H1 H2 Heq;
    [done|..].
  - specialize (Heq k2). simpl in Heq. by rewrite beqb_refl in Heq.
  - specialize (Heq k1). simpl in Heq. by rewrite beqb_refl in Heq.
  - apply bt_sorted_cons in H1 as [H1 A1], H2 as [H2 A2].
    pose proof (bt_get_lt _ _ A1) as N1. pose proof (bt_get_lt _ _ A2) as N2.
    assert (k1 = k2) as <-.
    { destruct (bytes_total k1 k2) as [L|[->|L]]; [|done|].
      - specialize (Heq k1). simpl in Heq. rewrite beqb_refl in Heq.
        rewrite (bt_get_lt k1 m2) in Heq; [bbool; [subst; by apply blt_irrefl in L|done]|].
        eapply Forall_impl; [eassumption|]. simpl. intros. by eapply blt_trans.
      - specialize (Heq k2). simpl in Heq. rewrite beqb_refl in Heq.
        rewrite (bt_get_lt k2 m1) in Heq; [bbool; [subst; by apply blt_irrefl in L|done]|].
        eapply Forall_impl; [eassumption|]. simpl. intros. by eapply blt_trans. }
    assert (v1 = v2) as <-.
    { specialize (Heq k1). simpl in Heq. rewrite beqb_refl in Heq. congruence. }
    f_equal. apply IH; [done..|]. intros k. specialize (Heq k). simpl in Heq.
    bbool; [subst; congruence|done].
Qed.

(** Reading back a sorted list through [FromIterator] is the identity. *)
Lemma bt_insert_last k v m :
  Forall (λ e, e.1 <ᵇ k) m → bt_insert k v m = m ++ [(k, v)].
Proof.
  induction 1 as [|[k' v'] m Hk _ IH]; simpl in *; [done|].
  assert (bytes_cmp k k' = Gt) as ->; [|by rewrite IH].
  unfold blt in Hk. by rewrite bytes_cmp_antisym, Hk.
Qed.

Lemma bt_append_app a b : bt_sorted (a ++ b) → bt_append a b = a ++ b.
Proof.
  revert a; induction b as [|[k v] b IH]; intros a Hs; simpl; [by rewrite app_nil_r|].
  rewrite bt_insert_last.
  - replace (a ++ (k, v) :: b) with ((a ++ [(k, v)]) ++ b) in *
      by (by rewrite <- app_assoc). by apply IH.
  - apply bt_sorted_app_inv in Hs as (_&_&Hab). apply Forall_forall.
    intros x Hx. apply (Hab x (k, v)); set_solver.
Qed.

Lemma bt_from_iter_sorted m : bt_sorted m → bt_from_iter m = m.
Proof. intros. by apply (bt_append_app []). Qed.

(** ** Sizes *)

Lemma bt_sum_cons f k v m : bt_sum f ((k, v) :: m) = f k v + bt_sum f m.
Proof. done. Qed.

Lemma bt_sum_insert f k v m :
  bt_sorted m →
  bt_sum f (bt_insert k v m) =
    bt_sum f m + f k v - match bt_get k m with Some v0 => f k v0 | None => 0 end.
Proof.
  induction m as [|[k' v'] m IH]; intros Hs; simpl bt_insert.
  { unfold bt_sum. simpl. lia. }
  apply bt_sorted_cons in Hs as [Hs Hall]. simpl bt_get.
  destruct (bytes_cmp k k') eqn:E.
  - apply bytes_cmp_eq in E. subst. rewrite beqb_refl, !bt_sum_cons. lia.
  - rewrite (bt_get_lt k m).
    + unfold beqb. rewrite E, !bt_sum_cons. lia.
    + eapply Forall_impl; [eassumption|]. simpl. intros. by eapply blt_trans.
  - unfold beqb. rewrite E, !bt_sum_cons, IH by done. lia.
Qed.

Lemma bt_sum_filter f p m :
  bt_sum f (bt_filter p m) + bt_sum f (bt_filter (λ k, negb (p k)) m) = bt_sum f m.
Proof.
  induction m as [|[k v] m IH]; simpl; [done|].
  destruct (p k); simpl; rewrite ?bt_sum_cons; lia.
Qed.

Lemma bt_sum_nonneg f m : (∀ k v, 0 ≤ f k v) → 0 ≤ bt_sum f m.
Proof.
  intros H. apply sum_Z_nonneg. rewrite Forall_fmap. apply Forall_forall.
  intros. apply H.
Qed.

Lemma bt_sum_app f a b : bt_sum f (a ++ b) = bt_sum f a + bt_sum f b.
Proof. unfold bt_sum. by rewrite fmap_app, sum_Z_app. Qed.

Lemma bt_sum_rev f m : bt_sum f (rev m) = bt_sum f m.
Proof.
  induction m as [|[k v] m IH]; simpl; [done|].
  rewrite bt_sum_app, bt_sum_cons, IH, bt_sum_cons. unfold bt_sum. simpl. lia.
Qed.

Lemma bt_sum_append f a b :
  bt_sorted a → bt_sorted b → (∀ k, bt_get k b ≠ None → bt_get k a = None) →
  bt_sum f (bt_append a b) = bt_sum f a + bt_sum f b.
Proof.
  revert a; induction b as [|[k v] b IH]; intros a Ha Hb Hdis; simpl.
  { unfold bt_sum. simpl. lia. }
  apply bt_sorted_cons in Hb as [Hb Hall].
  rewrite IH; [|by apply bt_sorted_insert|done|].
  - rewrite bt_sum_insert, bt_sum_cons by done. rewrite Hdis; [lia|].
    simpl. by rewrite beqb_refl.
  - intros k' Hk'. rewrite bt_get_insert. bbool.
    + subst. by rewrite (bt_get_lt k b) in Hk' by done.
    + apply Hdis. simpl. bbool; done.
Qed.

Lemma bt_sum_remove f k m :
  bt_sorted m →
  bt_sum f (bt_remove k m) =
    bt_sum f m - match bt_get k m with Some v0 => f k v0 | None => 0 end.
Proof.
  induction m as [|[k' v'] m IH]; intros Hs; [done|].
  apply bt_sorted_cons in Hs as [Hs Hall]. unfold bt_remove in *. simpl.
  bbool; simpl.
  - subst. rewrite IH, bt_sum_cons, (bt_get_lt k' m) by done. lia.
  - rewrite !bt_sum_cons, IH by done. lia.
Qed.

Lemma bt_filter_all p m : Forall (λ e, p e.1 = true) m → bt_filter p m = m.
Proof.
  induction 1 as [|[k v] m Hk _ IH]; simpl in *; [done|]. by rewrite Hk, IH.
Qed.

Lemma bt_filter_none p m : Forall (λ e, p e.1 = false) m → bt_filter p m = [].
Proof.
  induction 1 as [|[k v] m Hk _ IH]; simpl in *; [done|]. by rewrite Hk, IH.
Qed.

Lemma Forall_bt_append (P : bytes * V → Prop) a b :
  Forall P a → Forall P b → Forall P (bt_append a b).
Proof.
  intros Ha Hb. revert a Ha. induction Hb as [|[k v] b ?? IH]; intros a Ha; simpl; [done|].
  by apply IH, Forall_bt_insert.
Qed.

(** Splitting a sorted map at a key is a [take]/[drop] of its list. *)
Lemma bt_split_off_app a b k :
  (∀ e, e ∈ a → e.1 <ᵇ k) → (∀ e, e ∈ b → k ≤ᵇ e.1) →
  bt_split_off k (a ++ b) = (a, b).
Proof.
  intros Ha Hb. unfold bt_split_off, bt_filter. rewrite !List.filter_app.
  fold (bt_filter (λ k', bltb k' k) a) (bt_filter (λ k', bltb k' k) b)
    (bt_filter (λ k', negb (bltb k' k)) a) (bt_filter (λ k', negb (bltb k' k)) b).
  rewrite (bt_filter_all _ a), (bt_filter_none _ b), (bt_filter_none _ a),
    (bt_filter_all _ b), app_nil_r; [done|..]; apply Forall_forall; intros e He.
  - apply Hb in He. bbool; simpl; [border|done].
  - apply Ha in He. bbool; simpl; [done|border].
  - apply Hb in He. bbool; [border|done].
  - apply Ha in He. bbool; [done|border].
Qed.

End btree.

#[export] Hint Resolve bt_sorted_insert bt_sorted_filter bt_sorted_remove
  bt_sorted_append : haura.

(** ** From a map to its sorted entries *)

Definition bt_of_map (m : contents) : list (bytes * bytes) := bt_from_iter (map_to_list m).

Lemma bt_from_iter_get (l : list (bytes * bytes)) k v :
  NoDup l.*1 → bt_get k (bt_from_iter l) = Some v ↔ (k, v) ∈ l.
Proof.
  unfold bt_from_iter, bt_append. intros Hnd. rewrite <- (rev_involutive l) in *.
  induction (rev l) as [|[k' v'] l' IH]; [set_solver|]. simpl in *.
  rewrite foldl_app. simpl. rewrite bt_get_insert.
  rewrite fmap_app in Hnd. apply NoDup_app in Hnd as (Hnd&Hd&_). specialize (IH Hnd).
  rewrite elem_of_app, list_elem_of_singleton. bbool.
  - subst. split; [intros [= ->]; by right|]. intros [Hin|[= ->]]; [|done]. exfalso.
    apply (Hd k'); [|set_solver]. apply list_elem_of_fmap. by exists (k', v).
  - rewrite IH. split; [by left|]. intros [?|[= -> ->]]; done.
Qed.

Lemma bt_of_map_sorted m : bt_sorted (bt_of_map m).
Proof. apply bt_sorted_append. constructor. Qed.

Lemma bt_of_map_elem m k v : (k, v) ∈ bt_of_map m ↔ m !! k = Some v.
Proof.
  rewrite <- bt_get_Some by apply bt_of_map_sorted. unfold bt_of_map.
  rewrite bt_from_iter_get by apply NoDup_fst_map_to_list. apply elem_of_map_to_list.
Qed.
