(* ===== verification/CowBytes.v ===== *)
(** * [CowBytes] and [SlicedCowBytes] (betree/src/cow_bytes.rs, size.rs)

    The reference-counted byte buffers every key, message and value is
    passed in.  [Arc::make_mut] clones a shared buffer before a write, so a
    [CowBytes] has value semantics: it is the bytes it holds.  A
    [SlicedCowBytes] is a window into such a buffer, or into raw memory. *)

From Stdlib Require Import ZArith Lia.
From stdpp Require Import base option list numbers.
From S2P Require Import Prelude.
From S2P Require Import Bytes.

(** ** [CowBytes] *)

Record CowBytes := mkCow { inner : bytes }.

#[global] Instance CowBytes_eq_dec : EqDecision CowBytes.
Proof. solve_decision. Defined.

Module Cow.

Definition new : CowBytes := mkCow [].

Definition from (x : bytes) : CowBytes := mkCow x.

Definition len (c : CowBytes) : Z := blen (inner c).

Definition is_empty (c : CowBytes) : bool := bool_decide (inner c = []).

Definition push_slice (c : CowBytes) (v : bytes) : CowBytes := mkCow (inner c ++ v).

Definition fill_zeros_up_to (c : CowBytes) (size : Z) : CowBytes :=
  if len c <? size
  then mkCow (inner c ++ replicate (Z.to_nat (size - len c)) zero)
  else c.

(** Number of bytes of the bincode representation: an 8-byte length and the
    content. *)
Definition size (c : CowBytes) : Z := 8 + blen (inner c).

Definition into_vec (c : CowBytes) : bytes := inner c.

End Cow.

(** ** [SlicedCowBytes] *)

(** Where the bytes come from.  [Raw mem len] is a pointer, given by the
    memory that starts at it, together with the length it was made with. *)
Inductive ByteSource :=
  | SrcCow (c : CowBytes)
  | SrcRaw (mem : bytes) (len : Z).

(** [<ByteSource as Deref>::deref] *)
Definition source_deref (d : ByteSource) : bytes :=
  match d with
  | SrcCow c => inner c
  | SrcRaw mem len => take (Z.to_nat len) mem
  end.

Record SlicedCowBytes := mkScb {
  sc_data : ByteSource;
  sc_pos : Z;  (* u32 *)
  sc_len : Z;  (* u32 *)
}.

Module Sliced.

(** [From<CowBytes>]: the length is cast with [as u32]. *)
Definition from (c : CowBytes) : SlicedCowBytes :=
  mkScb (SrcCow c) 0 (wrap32 (Cow.len c)).

(** [SlicedCowBytes::from_raw]: [len.try_into().expect(..)] panics when the
    length does not fit in a [u32]. *)
Definition from_raw (mem : bytes) (len : Z) : option SlicedCowBytes :=
  assert! len <? U32_SIZE; Some (mkScb (SrcRaw mem len) 0 len).

(** [<SlicedCowBytes as Deref>::deref]: indexing panics out of range. *)
Definition deref (s : SlicedCowBytes) : option bytes :=
  cut (source_deref (sc_data s)) (sc_pos s) (sc_len s).

Definition subslice (s : SlicedCowBytes) (pos len : Z) : option SlicedCowBytes :=
  e ← u32_add pos len;
  assert! e <=? sc_len s;
  p ← u32_add (sc_pos s) pos;
  Some (mkScb (sc_data s) p len).

Definition slice_from (s : SlicedCowBytes) (pos : Z) : option SlicedCowBytes :=
  assert! pos <=? sc_len s;
  p ← u32_add (sc_pos s) pos;
  l ← usub (sc_len s) pos;
  Some (mkScb (sc_data s) p l).

(** [into_cow_bytes]: [inl] is [Ok], [inr] is [Err]. *)
Definition into_cow_bytes (s : SlicedCowBytes) : CowBytes + SlicedCowBytes :=
  match sc_data s with
  | SrcCow c => if sc_pos s =? 0 then inl c else inr s
  | SrcRaw _ _ => inr s
  end.

Definition size (s : SlicedCowBytes) : Z := 8 + sc_len s.

Definition cache_size (s : SlicedCowBytes) : Z :=
  match sc_data s with
  | SrcCow c => Cow.size c
  | SrcRaw _ _ => 8 + 8
  end.

End Sliced.

(** [CowBytes::slice] and [CowBytes::slice_from] *)
Definition cow_slice (c : CowBytes) (pos len : Z) : option SlicedCowBytes :=
  Sliced.subslice (Sliced.from c) pos len.

Definition cow_slice_from (c : CowBytes) (pos : Z) : option SlicedCowBytes :=
  let len := wrap32 (Cow.len c) in
  l ← usub len pos; cow_slice c pos l.

(** ** The window invariant *)

(** The window lies in its source and its end does not overflow a [u32]. *)
Definition scb_wf (s : SlicedCowBytes) : Prop :=
  0 ≤ sc_pos s ∧ 0 ≤ sc_len s ∧
  sc_pos s + sc_len s ≤ blen (source_deref (sc_data s)) ∧
  sc_pos s + sc_len s < U32_SIZE.

(** Content of a well-formed slice. *)
Definition content (s : SlicedCowBytes) : bytes :=
  take (Z.to_nat (sc_len s)) (drop (Z.to_nat (sc_pos s)) (source_deref (sc_data s))).

Lemma deref_wf s : scb_wf s → Sliced.deref s = Some (content s).
Proof.
  intros (?&?&?&?). unfold Sliced.deref, cut. zbool; simpl; try lia. done.
Qed.

Lemma blen_content s : scb_wf s → blen (content s) = sc_len s.
Proof.
  intros (?&?&?&?). unfold content, blen in *.
  rewrite length_take, length_drop. lia.
Qed.

Lemma from_wf c : Cow.len c < U32_SIZE → scb_wf (Sliced.from c) ∧ content (Sliced.from c) = inner c.
Proof.
  intros H. pose proof (blen_nonneg (inner c)).
  unfold Sliced.from, scb_wf, content, wrap32, Cow.len in *. simpl.
  rewrite Z.mod_small by done. rewrite drop_0.
  split; [lia|]. unfold blen. rewrite Nat2Z.id. apply firstn_all.
Qed.

Lemma content_window s pos len :
  scb_wf s → 0 ≤ pos → 0 ≤ len → pos + len ≤ sc_len s →
  content (mkScb (sc_data s) (sc_pos s + pos) len) =
    take (Z.to_nat len) (drop (Z.to_nat pos) (content s)).
Proof.
  intros (?&?&?&?) ???. unfold content. simpl.
  rewrite skipn_firstn_comm, take_take, drop_drop.
  rewrite <- Z2Nat.inj_add by lia. f_equal; lia.
Qed.

(** Sub-slicing succeeds exactly on windows inside the slice, and reads the
    corresponding window of the content. *)
Lemma subslice_content s pos len :
  scb_wf s → 0 ≤ pos → 0 ≤ len → pos + len ≤ sc_len s →
  ∃ s', Sliced.subslice s pos len = Some s' ∧ scb_wf s' ∧ sc_len s' = len ∧
        cut (content s) pos len = Some (content s').
Proof.
  intros Hwf ???. pose proof Hwf as (?&?&?&?).
  exists (mkScb (sc_data s) (sc_pos s + pos) len).
  unfold Sliced.subslice. rewrite !u32_add_Some by lia. simpl.
  zbool; [|lia]. split_and!; [done|unfold scb_wf; simpl; lia|done|].
  unfold cut. rewrite blen_content, content_window by done.
  zbool; simpl; try lia. done.
Qed.

Lemma slice_from_content s pos :
  scb_wf s → 0 ≤ pos ≤ sc_len s →
  ∃ s', Sliced.slice_from s pos = Some s' ∧ scb_wf s' ∧
        sc_pos s' = sc_pos s + pos ∧
        content s' = drop (Z.to_nat pos) (content s).
Proof.
  intros Hwf ?. pose proof Hwf as (?&?&?&?).
  exists (mkScb (sc_data s) (sc_pos s + pos) (sc_len s - pos)).
  unfold Sliced.slice_from. zbool; [|lia].
  rewrite u32_add_Some, usub_Some by lia. simpl.
  split_and!; [done|unfold scb_wf; simpl; lia|done|].
  rewrite content_window by (try done; lia).
  apply take_ge. rewrite length_drop. pose proof (blen_content s Hwf).
  unfold blen in *. lia.
Qed.

(** The slices on which [into_cow_bytes] hands out the buffer without
    changing the content: those that do not start at 0, do not own their
    buffer, or cover all of it. *)
Definition owns_window (s : SlicedCowBytes) : Prop :=
  match sc_data s with
  | SrcCow c => sc_pos s = 0 → sc_len s = blen (inner c)
  | SrcRaw _ _ => True
  end.

Lemma into_cow_bytes_content s :
  scb_wf s → owns_window s →
  match Sliced.into_cow_bytes s with
  | inl c => inner c = content s
  | inr s' => s' = s
  end.
Proof.
  intros (?&?&?&?) Ho. unfold Sliced.into_cow_bytes, owns_window, content in *.
  destruct (sc_data s) as [c|]; [|done]. zbool; [|done].
  simpl. rewrite Ho, e, drop_0 by done. unfold blen. rewrite Nat2Z.id.
  symmetry. apply firstn_all.
Qed.

Lemma inner_fill_zeros c n :
  inner (Cow.fill_zeros_up_to c n) =
    inner c ++ replicate (Z.to_nat (n - blen (inner c))) zero.
Proof.
  unfold Cow.fill_zeros_up_to, Cow.len. zbool; [done|].
  rewrite Z2Nat.nonpos by lia. simpl. by rewrite app_nil_r.
Qed.

(** ** Property *)

(** [into_cow_bytes] ignores the end of the slice.  A prefix window that
    does not reach the end of its buffer is handed out as the whole buffer, so
    the bytes behind the window become part of the value. *)
Theorem into_cow_bytes_widens_prefix c n :
  0 ≤ n < Cow.len c → Cow.len c < U32_SIZE →
  ∃ s d, cow_slice c 0 n = Some s ∧ Sliced.deref s = Some d ∧ blen d = n ∧
       Sliced.into_cow_bytes s = inl c ∧ inner c ≠ d.
Proof.
  intros Hn Hlen. destruct (from_wf c Hlen) as [Hwf Hc].
  destruct (subslice_content _ 0 n Hwf) as (s & Hs & Hws & Hsl & Hcut); [lia..| |].
  { rewrite <- blen_content, Hc by done. unfold Cow.len in Hn. lia. }
  exists s, (content s).
  assert (Sliced.into_cow_bytes s = inl c).
  { unfold Sliced.subslice in Hs. inv_bind. unfold Sliced.into_cow_bytes. simpl.
    apply (u32_add_inv 0 0) in H0 as [-> _]. by rewrite <- Hs. }
  split_and!; [done|by apply deref_wf|by rewrite blen_content|done|].
  intros Heq. apply (f_equal blen) in Heq. rewrite blen_content in Heq by done.
  unfold Cow.len in Hn. lia.
Qed.

Lemma into_cow_bytes_widens_prefix_witness :
  ∃ s d, cow_slice (mkCow [Byte.x01; Byte.x02]) 0 1 = Some s ∧
    Sliced.deref s = Some d ∧ blen d = 1 ∧
    Sliced.into_cow_bytes s = inl (mkCow [Byte.x01; Byte.x02]).
Proof.
  destruct (into_cow_bytes_widens_prefix (mkCow [Byte.x01; Byte.x02]) 1)
    as (s & d & ? & ? & ? & ? & _).
  - unfold Cow.len, blen; simpl; lia.
  - unfold Cow.len, blen, U32_SIZE; simpl; lia.
  - by exists s, d.
Defined.
