(* ===== verification/StoragePref.v ===== *)
(** * Storage preferences (betree/src/storage_pool/storage_preference.rs)

    A [StoragePreference] is a [u8]: a class 0..3, faster first, or [NONE]
    (254), which is larger than every class.  The atomic variants hold the
    same byte, with 255 for "unknown" in [AtomicStoragePreference]. *)

From Stdlib Require Import ZArith Lia.
From stdpp Require Import base option list numbers.
From S2P Require Import Prelude.

Abbreviation StoragePreference := Z (only parsing).

Module Pref.

Definition NONE : StoragePreference := U8_MAX - 1.
Definition FASTEST : StoragePreference := 0.
Definition FAST : StoragePreference := 1.
Definition SLOW : StoragePreference := 2.
Definition SLOWEST : StoragePreference := 3.

(** [StoragePreference::new] panics if [class > 3]. *)
Definition new (class : Z) : option StoragePreference :=
  assert! class <=? 3; Some class.

Definition or (self other : StoragePreference) : StoragePreference :=
  if self =? NONE then other else self.

Definition choose_faster (a b : StoragePreference) : StoragePreference := Z.min a b.

Definition preferred_class (self : StoragePreference) : option Z :=
  if self =? NONE then None else Some self.

Definition as_u8 (self : StoragePreference) : Z := self.

(** [from_u8]: the [debug_assert!] fails for a byte that is not a preference. *)
Definition from_u8 (u : Z) : option StoragePreference :=
  assert! (u =? U8_MAX - 1) || (u <=? 3); Some u.

Definition upgrade (self other : StoragePreference) : StoragePreference :=
  choose_faster self other.

Definition lift (self : StoragePreference) : option StoragePreference :=
  if self =? NONE then None else Some (Z.max 0 (self - 1)).

Definition lower (self : StoragePreference) : option StoragePreference :=
  if self =? NONE then None
  else if self =? SLOWEST then Some SLOWEST
  else Some (Z.min U8_MAX (self + 1)).

(** The values a preference takes. *)
Definition valid (p : StoragePreference) : Prop := p = NONE ∨ 0 ≤ p ≤ 3.

Definition validb (p : StoragePreference) : bool :=
  (p =? NONE) || ((0 <=? p) && (p <=? 3)).

Lemma validb_spec p : validb p = true ↔ valid p.
Proof. unfold validb, valid. rewrite orb_true_iff, andb_true_iff. lia. Qed.

Lemma valid_byte p : valid p → 0 ≤ p < 256.
Proof. unfold valid, NONE, U8_MAX. lia. Qed.

Lemma valid_NONE : valid NONE.
Proof. by left. Qed.

Lemma valid_choose_faster a b : valid a → valid b → valid (choose_faster a b).
Proof. unfold valid, choose_faster. lia. Qed.

Lemma valid_lift p q : valid p → lift p = Some q → valid q ∧ q ≤ p.
Proof. unfold valid, lift. zbool; intros ? [= <-]; lia. Qed.

Lemma valid_lower p q : valid p → lower p = Some q → valid q ∧ p ≤ q.
Proof.
  unfold valid, lower, SLOWEST, NONE, U8_MAX. zbool; intros ? [= <-]; lia.
Qed.

Lemma from_u8_valid p : valid p → from_u8 p = Some p.
Proof. unfold valid, from_u8, NONE. intros []; zbool; simpl; try done; lia. Qed.

End Pref.

#[export] Hint Resolve Pref.valid_NONE Pref.valid_choose_faster : haura.

(** [AtomicStoragePreference]: 255 stands for "unknown". *)
Module AtomicPref.

Definition known (class : StoragePreference) : Z := class.
Definition unknown : Z := U8_MAX.

Definition as_option (v : Z) : option StoragePreference :=
  if v =? U8_MAX then None else Some v.

Definition unwrap_or_none (v : Z) : StoragePreference :=
  default Pref.NONE (as_option v).

Definition set (_ : Z) (pref : StoragePreference) : Z := pref.
Definition invalidate (_ : Z) : Z := U8_MAX.

Definition upgrade (p : Z) (other : StoragePreference) : Z :=
  if negb (p =? U8_MAX) then Pref.upgrade p other else p.

Definition upgrade_atomic (p other_p : Z) : Z :=
  if negb (p =? U8_MAX)
  then (if negb (other_p =? U8_MAX) then Pref.upgrade p other_p else p)
  else p.

(** What the atomic holds: unknown, or a preference. *)
Definition valid (v : Z) : Prop := v = U8_MAX ∨ Pref.valid v.

Lemma valid_upgrade v p : valid v → Pref.valid p → valid (upgrade v p).
Proof.
  unfold valid, upgrade, Pref.upgrade, Pref.choose_faster, Pref.valid,
    Pref.NONE, U8_MAX. zbool; simpl; lia.
Qed.

Lemma valid_upgrade_atomic v w : valid v → valid w → valid (upgrade_atomic v w).
Proof.
  unfold valid, upgrade_atomic, Pref.upgrade, Pref.choose_faster, Pref.valid,
    Pref.NONE, U8_MAX. zbool; simpl; lia.
Qed.

End AtomicPref.

(** [AtomicSystemStoragePreference]: an upper bound set by the migration
    policy. *)
Module SysPref.

Definition from (p : StoragePreference) : Z := p.
Definition set (_ : Z) (pref : StoragePreference) : Z := pref.

(** [weak_bound]: a byte that is neither [NONE] nor a class is
    [unreachable!]. *)
Definition weak_bound (self : Z) (prf : StoragePreference) : option StoragePreference :=
  if self =? Pref.NONE then Some prf
  else if (0 <=? self) && (self <=? 3)
  then (if prf <? self then Some prf else Pref.from_u8 self)
  else None.

Definition strong_bound (self : Z) (_ : StoragePreference) : option StoragePreference :=
  Pref.from_u8 self.

Lemma weak_bound_min self prf :
  Pref.valid self → Pref.valid prf →
  weak_bound self prf = Some (Pref.choose_faster self prf).
Proof.
  intros Hs Hp. unfold weak_bound, Pref.choose_faster.
  pose proof (Pref.from_u8_valid _ Hs) as Hf.
  unfold Pref.valid, Pref.NONE, U8_MAX in *.
  zbool; simpl; try lia; try (f_equal; lia). rewrite Hf. f_equal. lia.
Qed.

End SysPref.
