(* ===== verification/Message.v ===== *)
(** * Messages (betree/src/tree/message_action.rs, default_message_action.rs)

    The [MessageAction] trait as a class with the laws the tree relies on,
    and [DefaultMessageAction], its implementation by byte-encoded inserts,
    deletes and upserts.

    [Module Dma] translates the source on [SlicedCowBytes].  The tree keeps
    message contents, so the class is stated on contents; [Module Content]
    is the same code on contents, [apply_content] and [merge_content] prove
    that the two agree, and [DefaultMessageAction_laws] discharges the
    class's laws. *)

From Stdlib Require Import ZArith Lia.
From coqutil Require Import Byte Word.LittleEndianList.
From stdpp Require Import base option list numbers.
From S2P Require Import Prelude.
From S2P Require Import Bytes.
From S2P Require Import CowBytes.

(** ** The trait *)

(** [MessageAction]: [apply key msg data] updates [data]; [merge key upper
    lower] combines two messages, [upper] being the newer one.  [None] is a
    panic. *)
Class MessageAction := {
  ma_apply : bytes → bytes → option bytes → option (option bytes);
  ma_merge : bytes → bytes → bytes → option bytes;
}.

(** What the tree relies on: on valid messages nothing panics, merging keeps
    validity, and a merged message acts as the older one followed by the
    newer one. *)
Class MessageActionLaws `{MessageAction} := {
  ma_valid : bytes → Prop;
  ma_apply_total k m d : ma_valid m → ∃ d', ma_apply k m d = Some d';
  ma_merge_total k u l : ma_valid u → ma_valid l →
    ∃ m, ma_merge k u l = Some m ∧ ma_valid m;
  ma_merge_apply k u l m d d' : ma_valid u → ma_valid l →
    ma_merge k u l = Some m → ma_apply k l d = Some d' →
    ma_apply k m d = ma_apply k u d';
}.

(** ** The message format *)

Inductive MsgType := OverwriteNone | OverwriteSome | MsgUpsert.

Definition MsgType_disc (t : MsgType) : Z :=
  match t with OverwriteNone => 0 | OverwriteSome => 1 | MsgUpsert => 2 end.

(** [MsgType::from] panics on an unknown discriminant. *)
Definition MsgType_from (discriminant : Z) : option MsgType :=
  if discriminant =? 0 then Some OverwriteNone
  else if discriminant =? 1 then Some OverwriteSome
  else if discriminant =? 2 then Some MsgUpsert
  else None.

Inductive UpsertType := UtBytes | UtBitsFalse | UtBitsTrue.

Definition UpsertType_disc (t : UpsertType) : Z :=
  match t with UtBytes => 0 | UtBitsFalse => 2 | UtBitsTrue => 3 end.

(** [UpsertType::from]: [unreachable!] on any other discriminant. *)
Definition UpsertType_from (discriminant : Z) : option UpsertType :=
  if discriminant =? 0 then Some UtBytes
  else if discriminant =? 2 then Some UtBitsFalse
  else if discriminant =? 3 then Some UtBitsTrue
  else None.

Inductive Upsert :=
  | UBytes (offset_bytes : Z) (data : bytes)
  | UBits (offset_bits amount_bits : Z) (value : bool).

#[global] Instance Upsert_eq_dec : EqDecision Upsert.
Proof. solve_decision. Defined.

Definition estimate_size (u : Upsert) : Z :=
  match u with
  | UBytes _ data => 4 + 4 + blen data
  | UBits _ _ _ => 4 + 4
  end.

Definition append_upsert (v : bytes) (u : Upsert) : bytes :=
  match u with
  | UBytes offset_bytes data => v ++ le32 offset_bytes ++ le32 (blen data) ++ data
  | UBits offset_bits amount_bits value =>
      let tag := UpsertType_disc (if value then UtBitsTrue else UtBitsFalse) in
      v ++ le32 (Z.lor (wrap32 (Z.shiftl tag 30)) offset_bits) ++ le32 amount_bits
  end.

(** One call of the iterator closure of [iter_upserts] on the remaining
    bytes [b]: [None] is a panic, [Some None] the end of the iteration. *)
Definition next_upsert (b : bytes) : option (option (Upsert * bytes)) :=
  if blen b <? 2 * 4 then Some None
  else
    let '(mode, rest) := (take 4 b, drop 4 b) in
    let w := of_le mode in
    let '(mode, offset) := (Z.shiftr w 30, Z.land w (2 ^ 30 - 1)) in
    let '(len, rest) := (take 4 rest, drop 4 rest) in
    let len := of_le len in
    t ← UpsertType_from (wrap8 mode);
    match t with
    | UtBytes =>
        if blen rest <? len then Some None
        else Some (Some (UBytes offset (take (Z.to_nat len) rest),
                         drop (Z.to_nat len) rest))
    | UtBitsFalse => Some (Some (UBits offset len false, rest))
    | UtBitsTrue => Some (Some (UBits offset len true, rest))
    end.

(** All items of the iterator.  Every call consumes eight bytes or more, so
    the length of the input is enough fuel. *)
Fixpoint collect_upserts (fuel : nat) (b : bytes) : option (list Upsert) :=
  match fuel with
  | O => Some []
  | S fuel =>
      r ← next_upsert b;
      match r with
      | None => Some []
      | Some (u, rest) => us ← collect_upserts fuel rest; Some (u :: us)
      end
  end.

(** [iter_upserts]: [Some None] when the message is not an upsert. *)
Definition iter_upserts (b : bytes) : option (option (list Upsert)) :=
  if bool_decide (head b = Some (to_u8 (MsgType_disc MsgUpsert)))
  then us ← collect_upserts (length b) (drop 1 b); Some (Some us)
  else Some None.

(** The loop body of [apply_upserts]. *)
Definition apply_upsert (data : CowBytes) (u : Upsert) : option CowBytes :=
  match u with
  | UBytes offset_bytes new_data =>
      let end_offset := offset_bytes + blen new_data in
      if Cow.len data <=? offset_bytes
      then Some (Cow.push_slice (Cow.fill_zeros_up_to data offset_bytes) new_data)
      else
        let data := Cow.fill_zeros_up_to data end_offset in
        assert! end_offset <=? Cow.len data;
        Some (mkCow (take (Z.to_nat offset_bytes) (inner data) ++ new_data ++
                     drop (Z.to_nat end_offset) (inner data)))
  | UBits offset_bits amount_bits value =>
      end_bit ← u32_add offset_bits amount_bits;
      let end_byte := end_bit / 8 + (if end_bit mod 8 =? 0 then 0 else 1) in
      let data := if Cow.len data <=? end_byte
                  then Cow.fill_zeros_up_to data end_byte else data in
      assert! end_bit <=? 8 * Cow.len data;
      Some (mkCow (fill_bits (inner data) offset_bits (Z.to_nat amount_bits) value))
  end.

Fixpoint fold_upserts (data : CowBytes) (us : list Upsert) : option CowBytes :=
  match us with
  | [] => Some data
  | u :: us => data ← apply_upsert data u; fold_upserts data us
  end.

(** ** [DefaultMessageAction] on [SlicedCowBytes] *)

Module Dma.

(** [as_overwrite]: outer option panic, then the code's
    [Option<Option<SlicedCowBytes>>]. *)
Definition as_overwrite (b : SlicedCowBytes) :
    option (option (option SlicedCowBytes)) :=
  c ← Sliced.deref b;
  match c with
  | [] => Some None
  | x :: _ =>
      t ← MsgType_from (u8 x);
      match t with
      | OverwriteNone => Some (Some None)
      | OverwriteSome => s ← Sliced.slice_from b 1; Some (Some (Some s))
      | MsgUpsert => Some None
      end
  end.

Definition apply_upserts (us : list Upsert) (msg_data : option SlicedCowBytes) :
    option (option SlicedCowBytes) :=
  data ← match msg_data with
         | None => Some Cow.new
         | Some b =>
             match Sliced.into_cow_bytes b with
             | inl c => Some c
             | inr b => c ← Sliced.deref b; Some (Cow.from c)
             end
         end;
  data ← fold_upserts data us;
  Some (Some (Sliced.from data)).

Definition build_overwrite_msg (data : option bytes) : SlicedCowBytes :=
  let t := match data with Some _ => OverwriteSome | None => OverwriteNone end in
  let v := [to_u8 (MsgType_disc t)] in
  let v := match data with Some b => v ++ b | None => v end in
  Sliced.from (Cow.from v).

(** [build_upsert_msg]: the [debug_assert_eq!] on the estimated size is the
    guard. *)
Definition build_upsert_msg (us : list Upsert) : option SlicedCowBytes :=
  let estimated_size := 1 + sum_Z (estimate_size <$> us) in
  let v := foldl append_upsert [to_u8 (MsgType_disc MsgUpsert)] us in
  assert! estimated_size =? blen v;
  Some (Sliced.from (Cow.from v)).

Definition insert_msg (data : bytes) : SlicedCowBytes := build_overwrite_msg (Some data).

Definition delete_msg : SlicedCowBytes := build_overwrite_msg None.

Definition upsert_msg (offset_bytes : Z) (data : bytes) : option SlicedCowBytes :=
  build_upsert_msg [UBytes offset_bytes data].

Definition upsert_bits_msg (offset_bits amount_bits : Z) (value : bool) :
    option SlicedCowBytes :=
  build_upsert_msg [UBits offset_bits amount_bits value].

Definition apply (_key : bytes) (msg : SlicedCowBytes) (data : option SlicedCowBytes) :
    option (option SlicedCowBytes) :=
  c ← Sliced.deref msg;
  x ← head c;
  t ← MsgType_from (u8 x);
  match t with
  | OverwriteNone | OverwriteSome => r ← as_overwrite msg; r
  | MsgUpsert =>
      if 1 <=? blen c then
        us ← iter_upserts c;
        us ← us;
        apply_upserts us data
      else Some data
  end.

Definition merge (_key : bytes) (upper_msg lower_msg : SlicedCowBytes) :
    option SlicedCowBytes :=
  u ← Sliced.deref upper_msg;
  l ← Sliced.deref lower_msg;
  xu ← head u; upper_type ← MsgType_from (u8 xu);
  xl ← head l; lower_type ← MsgType_from (u8 xl);
  match upper_type with
  | OverwriteNone | OverwriteSome => Some upper_msg
  | MsgUpsert =>
      if blen u <=? 1 then Some lower_msg
      else
        us ← iter_upserts u;
        upper_upserts ← us;
        match lower_type with
        | OverwriteNone | OverwriteSome =>
            r ← as_overwrite lower_msg;
            data ← r;
            data ← apply_upserts upper_upserts data;
            d ← match data with
                | Some b => c ← Sliced.deref b; Some (Some c)
                | None => Some None
                end;
            Some (build_overwrite_msg d)
        | MsgUpsert => Some (Sliced.from (Cow.from (l ++ drop 1 u)))
        end
  end.

End Dma.

(** ** The same code on contents *)

Module Content.

Definition as_overwrite (c : bytes) : option (option (option bytes)) :=
  match c with
  | [] => Some None
  | x :: c =>
      t ← MsgType_from (u8 x);
      match t with
      | OverwriteNone => Some (Some None)
      | OverwriteSome => Some (Some (Some c))
      | MsgUpsert => Some None
      end
  end.

Definition apply_upserts (us : list Upsert) (data : option bytes) :
    option (option bytes) :=
  data ← fold_upserts (mkCow (default [] data)) us;
  Some (Some (inner data)).

Definition build_overwrite_msg (data : option bytes) : bytes :=
  match data with
  | Some b => to_u8 (MsgType_disc OverwriteSome) :: b
  | None => [to_u8 (MsgType_disc OverwriteNone)]
  end.

Definition build_upsert_msg (us : list Upsert) : bytes :=
  foldl append_upsert [to_u8 (MsgType_disc MsgUpsert)] us.

Definition apply (_key : bytes) (msg : bytes) (data : option bytes) :
    option (option bytes) :=
  x ← head msg;
  t ← MsgType_from (u8 x);
  match t with
  | OverwriteNone | OverwriteSome => r ← as_overwrite msg; r
  | MsgUpsert =>
      us ← iter_upserts msg;
      us ← us;
      apply_upserts us data
  end.

Definition merge (_key : bytes) (u l : bytes) : option bytes :=
  xu ← head u; upper_type ← MsgType_from (u8 xu);
  xl ← head l; lower_type ← MsgType_from (u8 xl);
  match upper_type with
  | OverwriteNone | OverwriteSome => Some u
  | MsgUpsert =>
      if blen u <=? 1 then Some l
      else
        us ← iter_upserts u;
        upper_upserts ← us;
        match lower_type with
        | OverwriteNone | OverwriteSome =>
            r ← as_overwrite l;
            data ← r;
            data ← apply_upserts upper_upserts data;
            Some (build_overwrite_msg data)
        | MsgUpsert => Some (l ++ drop 1 u)
        end
  end.

End Content.

#[export] Instance DefaultMessageAction : MessageAction := {
  ma_apply := Content.apply;
  ma_merge := Content.merge;
}.

(** ** Encoding round trip *)

(** The upserts the format can carry: a 30-bit offset, 32-bit lengths, and a
    bit range whose end fits in a [u32]. *)
Definition upsert_wf (u : Upsert) : Prop :=
  match u with
  | UBytes o d => 0 ≤ o < 2 ^ 30 ∧ blen d < U32_SIZE
  | UBits o n _ => 0 ≤ o < 2 ^ 30 ∧ 0 ≤ n ∧ o + n < U32_SIZE
  end.

Definition encode_upsert (u : Upsert) : bytes := append_upsert [] u.
Definition encode_upserts (us : list Upsert) : bytes := concat (encode_upsert <$> us).

Lemma encode_upserts_cons u us :
  encode_upserts (u :: us) = encode_upsert u ++ encode_upserts us.
Proof. done. Qed.

Lemma append_upsert_app v u : append_upsert v u = v ++ encode_upsert u.
Proof. by destruct u. Qed.

Lemma foldl_append_upsert v us : foldl append_upsert v us = v ++ encode_upserts us.
Proof.
  revert v; induction us as [|u us IH]; intros v; simpl.
  - by rewrite app_nil_r.
  - by rewrite IH, append_upsert_app, encode_upserts_cons, <- app_assoc.
Qed.

Lemma blen_encode_upsert u : blen (encode_upsert u) = estimate_size u.
Proof.
  destruct u; unfold encode_upsert, append_upsert, estimate_size, blen;
    rewrite !length_app, !length_le32; simpl; lia.
Qed.

Lemma blen_encode_upserts us : blen (encode_upserts us) = sum_Z (estimate_size <$> us).
Proof.
  induction us as [|u us IH]; [done|].
  by rewrite encode_upserts_cons, blen_app, IH, blen_encode_upsert.
Qed.

Lemma mode_word tag o :
  0 ≤ tag < 4 → 0 ≤ o < 2 ^ 30 →
  Z.lor (wrap32 (Z.shiftl tag 30)) o = tag * 2 ^ 30 + o.
Proof.
  intros Ht Ho. unfold wrap32.
  rewrite Z.mod_small by (rewrite Z.shiftl_mul_pow2; lia). apply lor_field; lia.
Qed.

Lemma mode_word_split tag o :
  0 ≤ tag < 4 → 0 ≤ o < 2 ^ 30 →
  let w := tag * 2 ^ 30 + o in
  0 ≤ w < U32_SIZE ∧ Z.shiftr w 30 = tag ∧ Z.land w (2 ^ 30 - 1) = o.
Proof.
  intros ?? w. subst w. split; [unfold U32_SIZE; lia|]. split.
  - rewrite Z.shiftr_div_pow2, Z.add_comm, Z.div_add, Z.div_small by lia. done.
  - change (2 ^ 30 - 1) with (Z.ones 30). rewrite Z.land_ones by lia.
    rewrite Z.add_comm, Z_mod_plus_full. by apply Z.mod_small.
Qed.

(** The head of the iteration, given the three parts of the next record. *)
Lemma next_upsert_parts w n rest :
  0 ≤ w < U32_SIZE → 0 ≤ n < U32_SIZE →
  next_upsert (le32 w ++ le32 n ++ rest) =
    (t ← UpsertType_from (wrap8 (Z.shiftr w 30));
     let o := Z.land w (2 ^ 30 - 1) in
     match t with
     | UtBytes => if blen rest <? n then Some None
                  else Some (Some (UBytes o (take (Z.to_nat n) rest),
                                   drop (Z.to_nat n) rest))
     | UtBitsFalse => Some (Some (UBits o n false, rest))
     | UtBitsTrue => Some (Some (UBits o n true, rest))
     end).
Proof.
  intros Hw Hn. unfold next_upsert.
  assert ((blen (le32 w ++ le32 n ++ rest) <? 2 * 4) = false) as ->.
  { apply Z.ltb_ge. unfold blen. rewrite !length_app, !length_le32. lia. }
  rewrite (take_app_length' (le32 w)), (drop_app_length' (le32 w))
    by (symmetry; apply length_le32).
  rewrite (take_app_length' (le32 n)), (drop_app_length' (le32 n))
    by (symmetry; apply length_le32).
  by rewrite !of_le_le32.
Qed.

Lemma next_upsert_encode u rest :
  upsert_wf u → next_upsert (encode_upsert u ++ rest) = Some (Some (u, rest)).
Proof.
  destruct u as [o d|o n v]; intros Hwf; unfold encode_upsert, append_upsert;
    cbv zeta; rewrite app_nil_l; simpl in Hwf.
  - destruct Hwf as [Ho Hd]. rewrite <- !app_assoc. rewrite next_upsert_parts.
    + destruct (mode_word_split 0 o) as (_&E1&E2); [lia..|].
      change (0 * 2 ^ 30 + o) with o in *. rewrite E1, E2. simpl.
      assert ((blen (d ++ rest) <? blen d) = false) as ->.
      { apply Z.ltb_ge. rewrite blen_app. pose proof (blen_nonneg rest). lia. }
      unfold blen. rewrite Nat2Z.id, take_app_length, drop_app_length. done.
    + unfold U32_SIZE. lia.
    + pose proof (blen_nonneg d). lia.
  - destruct Hwf as (Ho&Hn&He). rewrite <- !app_assoc.
    set (tag := UpsertType_disc (if v then UtBitsTrue else UtBitsFalse)).
    assert (0 ≤ tag < 4) as Ht by (subst tag; destruct v; simpl; lia).
    rewrite mode_word by done.
    destruct (mode_word_split tag o Ht Ho) as (Hw&E1&E2).
    rewrite next_upsert_parts by lia. rewrite E1, E2.
    subst tag. by destruct v.
Qed.

Lemma collect_upserts_encode fuel us :
  Forall upsert_wf us → (length us ≤ fuel)%nat →
  collect_upserts fuel (encode_upserts us) = Some us.
Proof.
  intros Hwf. revert fuel; induction Hwf as [|u us Hu Hus IH]; intros fuel Hf.
  - by destruct fuel.
  - destruct fuel as [|fuel]; simpl in Hf; [lia|].
    rewrite encode_upserts_cons. simpl. rewrite next_upsert_encode by done.
    simpl. by rewrite IH by lia.
Qed.

Lemma length_le_encode_upserts us : (length us ≤ length (encode_upserts us))%nat.
Proof.
  induction us as [|u us IH]; [done|].
  rewrite encode_upserts_cons, length_app. simpl. pose proof (blen_encode_upsert u) as Hb.
  assert (1 ≤ estimate_size u) by (destruct u; simpl; [pose proof (blen_nonneg data)|]; lia).
  unfold blen in Hb. lia.
Qed.

Lemma iter_upserts_build us :
  Forall upsert_wf us → iter_upserts (Content.build_upsert_msg us) = Some (Some us).
Proof.
  intros Hwf. unfold iter_upserts, Content.build_upsert_msg.
  rewrite foldl_append_upsert. simpl drop. rewrite drop_0.
  pose proof (length_le_encode_upserts us) as Hl.
  rewrite collect_upserts_encode by (rewrite ?length_app; done || lia). done.
Qed.

(** ** What one upsert does *)

(** [new] written at offset [o] into [d], zero-padded up to [o]. *)
Definition overwrite_at (d : bytes) (o : nat) (new : bytes) : bytes :=
  take o (d ++ replicate (o - length d) zero) ++ new ++ drop (o + length new) d.

Lemma overwrite_at_lookup d o new i :
  overwrite_at d o new !! i =
    if (i <? o)%nat then Some (default zero (d !! i))
    else if (i <? o + length new)%nat then new !! (i - o)%nat
    else d !! i.
Proof.
  unfold overwrite_at.
  assert (length (take o (d ++ replicate (o - length d) zero)) = o) as Hlen.
  { rewrite length_take, length_app, length_replicate. lia. }
  destruct (Nat.ltb_spec i o) as [Hi|Hi].
  - rewrite lookup_app_l, lookup_take_lt by lia.
    destruct (decide (i < length d)%nat).
    + rewrite lookup_app_l by done.
      destruct (lookup_lt_is_Some_2 d i) as [x ->]; done.
    + rewrite lookup_app_r, (lookup_ge_None_2 d i) by lia. simpl.
      apply lookup_replicate_2. lia.
  - rewrite lookup_app_r by lia. rewrite Hlen.
    destruct (Nat.ltb_spec i (o + length new)).
    + by rewrite lookup_app_l by lia.
    + rewrite lookup_app_r, lookup_drop by lia. f_equal. lia.
Qed.

Lemma apply_upsert_bytes d o new :
  0 ≤ o → apply_upsert (mkCow d) (UBytes o new) =
    Some (mkCow (overwrite_at d (Z.to_nat o) new)).
Proof.
  intros Ho. unfold apply_upsert, overwrite_at, Cow.len, Cow.push_slice. simpl inner.
  pose proof (blen_nonneg new).
  destruct (Z.leb_spec (blen d) o) as [Hd|Hd].
  - rewrite inner_fill_zeros. unfold blen in *. simpl.
    rewrite (drop_ge d), app_nil_r by lia. do 2 f_equal. f_equal.
    rewrite take_ge; [do 2 f_equal; lia|].
    rewrite length_app, length_replicate. lia.
  - rewrite inner_fill_zeros. simpl inner.
    rewrite blen_app. unfold blen in *. rewrite length_replicate.
    zbool; [|lia]. do 2 f_equal.
    replace (Z.to_nat o - length d)%nat with 0%nat by lia. simpl. rewrite app_nil_r.
    rewrite take_app_le by lia. do 2 f_equal.
    destruct (decide (length d ≤ Z.to_nat o + length new)%nat).
    + rewrite !drop_ge; [done|..]; rewrite ?length_app, ?length_replicate; lia.
    + rewrite drop_app_le by lia.
      replace (replicate _ _) with (@nil byte); [rewrite app_nil_r; f_equal; lia|].
      replace (Z.to_nat _) with 0%nat by lia. done.
Qed.

Lemma bit_at_app_zeros d n j : 0 ≤ j → bit_at (d ++ replicate n zero) j = bit_at d j.
Proof.
  intros Hj. unfold bit_at.
  destruct (decide (Z.to_nat (j / 8) < length d)%nat).
  - by rewrite lookup_app_l.
  - rewrite (lookup_ge_None_2 d) by lia.
    destruct ((d ++ replicate n zero) !! Z.to_nat (j / 8)) as [b|] eqn:E; [|done].
    rewrite lookup_app_r in E by lia. apply lookup_replicate in E as [-> _].
    unfold byte_bit. apply Z.testbit_0_l.
Qed.

Lemma apply_upsert_bits d o n v :
  0 ≤ o → 0 ≤ n → o + n < U32_SIZE →
  ∃ d', apply_upsert (mkCow d) (UBits o n v) = Some (mkCow d') ∧
    blen d' = Z.max (blen d) ((o + n + 7) / 8) ∧
    ∀ j, 0 ≤ j → bit_at d' j = if decide (o ≤ j < o + n) then v else bit_at d j.
Proof.
  intros Ho Hn He. simpl. rewrite u32_add_Some by done. simpl.
  set (eb := (o + n) / 8 + (if (o + n) mod 8 =? 0 then 0 else 1)).
  assert (eb = (o + n + 7) / 8 ∧ o + n ≤ 8 * eb) as [Heb Hle].
  { subst eb. pose proof (Z.div_mod (o + n) 8 ltac:(lia)).
    pose proof (Z.mod_pos_bound (o + n) 8 ltac:(lia)).
    split; [|zbool; lia]. zbool.
    - apply (Z.div_unique _ _ _ 7); lia.
    - apply (Z.div_unique _ _ _ ((o + n) mod 8 - 1)); lia. }
  set (c := if Cow.len (mkCow d) <=? eb then Cow.fill_zeros_up_to (mkCow d) eb
            else mkCow d).
  assert (∃ z, inner c = d ++ replicate z zero ∧ Cow.len c = Z.max (blen d) eb)
    as (z & Hc & Hlen).
  { subst c. unfold Cow.len. simpl. zbool.
    - rewrite inner_fill_zeros. simpl. eexists. split; [done|].
      rewrite blen_app. unfold blen. rewrite length_replicate. unfold blen in *. lia.
    - exists 0%nat. simpl. rewrite app_nil_r. split; [done|lia]. }
  zbool; [|lia]. eexists. split; [done|]. rewrite Hc. split.
  - unfold blen at 1. rewrite length_fill_bits. rewrite <- Heb, <- Hlen.
    unfold Cow.len. by rewrite Hc.
  - intros j Hj. unfold Cow.len in *. rewrite Hc in *.
    rewrite bit_at_fill_bits, bit_at_app_zeros, Z2Nat.id by lia. done.
Qed.

(** Well-formed upserts never panic. *)
Lemma apply_upsert_total c u : upsert_wf u → is_Some (apply_upsert c u).
Proof.
  destruct c as [d]. destruct u as [o new|o n v]; intros Hwf; simpl in Hwf.
  - rewrite apply_upsert_bytes by lia. eauto.
  - destruct (apply_upsert_bits d o n v) as (d' & -> & _); [lia..|eauto].
Qed.

Lemma fold_upserts_total c us : Forall upsert_wf us → is_Some (fold_upserts c us).
Proof.
  intros Hwf. revert c. induction Hwf as [|u us Hu _ IH]; intros c; simpl; [eauto|].
  destruct (apply_upsert_total c u Hu) as [c' ->]. simpl. apply IH.
Qed.

Lemma fold_upserts_app c us1 us2 :
  fold_upserts c (us1 ++ us2) = c ← fold_upserts c us1; fold_upserts c us2.
Proof.
  revert c; induction us1 as [|u us1 IH]; intros c; simpl; [done|].
  destruct (apply_upsert c u); simpl; [apply IH|done].
Qed.

(** ** The laws of [DefaultMessageAction] *)

(** The messages the constructors build and merging produces. *)
Definition dma_valid (m : bytes) : Prop :=
  (∃ d, m = Content.build_overwrite_msg d) ∨
  (∃ us, us ≠ [] ∧ Forall upsert_wf us ∧ m = Content.build_upsert_msg us).

Lemma apply_overwrite k d0 d :
  Content.apply k (Content.build_overwrite_msg d0) d = Some d0.
Proof. by destruct d0. Qed.

Lemma head_build_upsert us :
  head (Content.build_upsert_msg us) = Some (to_u8 (MsgType_disc MsgUpsert)).
Proof. unfold Content.build_upsert_msg. by rewrite foldl_append_upsert. Qed.

Lemma apply_upsert_build k us d :
  Forall upsert_wf us →
  Content.apply k (Content.build_upsert_msg us) d = Content.apply_upserts us d.
Proof.
  intros Hwf. unfold Content.apply. rewrite head_build_upsert. simpl.
  rewrite iter_upserts_build by done. done.
Qed.

Lemma blen_build_upsert us :
  blen (Content.build_upsert_msg us) = 1 + sum_Z (estimate_size <$> us).
Proof.
  unfold Content.build_upsert_msg.
  by rewrite foldl_append_upsert, blen_app, blen_encode_upserts.
Qed.

Lemma build_upsert_nonempty us :
  us ≠ [] → (blen (Content.build_upsert_msg us) <=? 1) = false.
Proof.
  intros Hne. apply Z.leb_gt. rewrite blen_build_upsert.
  pose proof (length_le_encode_upserts us) as Hl.
  rewrite <- blen_encode_upserts. unfold blen. destruct us; simpl in *; [done|lia].
Qed.

Lemma merge_overwrite_upper k d u : dma_valid u →
  Content.merge k (Content.build_overwrite_msg d) u =
    Some (Content.build_overwrite_msg d).
Proof.
  unfold Content.merge. intros [[d' ->]|(us&_&_&->)].
  - by destruct d, d'.
  - rewrite head_build_upsert. by destruct d.
Qed.

Lemma merge_upsert_overwrite k us d :
  us ≠ [] → Forall upsert_wf us →
  Content.merge k (Content.build_upsert_msg us) (Content.build_overwrite_msg d) =
    (r ← Content.apply_upserts us d; Some (Content.build_overwrite_msg r)).
Proof.
  intros Hne Hwf. unfold Content.merge.
  rewrite head_build_upsert. simpl.
  rewrite build_upsert_nonempty, iter_upserts_build by done.
  destruct d; done.
Qed.

Lemma merge_upsert_upsert k us1 us2 :
  us1 ≠ [] → Forall upsert_wf us1 →
  Content.merge k (Content.build_upsert_msg us1) (Content.build_upsert_msg us2) =
    Some (Content.build_upsert_msg (us2 ++ us1)).
Proof.
  intros Hne Hwf. unfold Content.merge.
  rewrite !head_build_upsert. simpl.
  rewrite build_upsert_nonempty, iter_upserts_build by done. simpl.
  f_equal. unfold Content.build_upsert_msg. rewrite !foldl_append_upsert.
  unfold encode_upserts. rewrite fmap_app, concat_app. simpl. by rewrite drop_0.
Qed.

Lemma apply_upserts_total us d :
  Forall upsert_wf us → ∃ b, Content.apply_upserts us d = Some (Some b).
Proof.
  intros Hwf. unfold Content.apply_upserts.
  destruct (fold_upserts_total (mkCow (default [] d)) us Hwf) as [c ->]. simpl. eauto.
Qed.

Lemma dma_apply_total k m d : dma_valid m → ∃ d', Content.apply k m d = Some d'.
Proof.
  intros [[d0 ->]|(us&_&Hwf&->)].
  - rewrite apply_overwrite. eauto.
  - rewrite apply_upsert_build by done.
    destruct (apply_upserts_total us d Hwf) as [b ->]. eauto.
Qed.

Lemma dma_merge_total k u l : dma_valid u → dma_valid l →
  ∃ m, Content.merge k u l = Some m ∧ dma_valid m.
Proof.
  intros [[d ->]|(us&Hne&Hwf&->)] Hl.
  - rewrite merge_overwrite_upper by done. eexists. split; [done|left; eauto].
  - destruct Hl as [[d ->]|(us'&Hne'&Hwf'&->)].
    + rewrite merge_upsert_overwrite by done.
      destruct (apply_upserts_total us d Hwf) as [b ->].
      eexists. split; [done|]. left. by exists (Some b).
    + rewrite merge_upsert_upsert by done. eexists. split; [done|right].
      exists (us' ++ us). split; [by destruct us'|]. split; [|done].
      by apply Forall_app.
Qed.

Lemma dma_merge_sequence k u l m d d' : dma_valid u → dma_valid l →
  Content.merge k u l = Some m → Content.apply k l d = Some d' →
  Content.apply k m d = Content.apply k u d'.
Proof.
  intros [[du ->]|(us&Hne&Hwf&->)] Hl Hm Ha.
  - rewrite merge_overwrite_upper in Hm by done. simplify_eq.
    by rewrite !apply_overwrite.
  - destruct Hl as [[d0 ->]|(us'&Hne'&Hwf'&->)].
    + rewrite merge_upsert_overwrite in Hm by done.
      rewrite apply_overwrite in Ha. simplify_eq. rewrite apply_upsert_build by done.
      destruct (Content.apply_upserts us d') eqn:E; simplify_eq/=.
      by rewrite apply_overwrite.
    + rewrite merge_upsert_upsert in Hm by done. simplify_eq.
      rewrite !apply_upsert_build in * by (done || by apply Forall_app).
      unfold Content.apply_upserts in *. rewrite fold_upserts_app.
      destruct (fold_upserts _ us') as [[b]|]; simplify_eq/=. done.
Qed.

#[export] Instance DefaultMessageAction_laws : MessageActionLaws := {
  ma_valid := dma_valid;
  ma_apply_total := dma_apply_total;
  ma_merge_total := dma_merge_total;
  ma_merge_apply := dma_merge_sequence;
}.

(** ** Slices and contents agree *)

(** The slices the code builds: inside their source, handed out whole by
    [into_cow_bytes]. *)
Definition scb_ok (s : SlicedCowBytes) : Prop := scb_wf s ∧ owns_window s.
Definition oscb_ok (o : option SlicedCowBytes) : Prop :=
  match o with Some s => scb_ok s | None => True end.

Lemma from_ok b : blen b < U32_SIZE →
  scb_ok (Sliced.from (mkCow b)) ∧ content (Sliced.from (mkCow b)) = b.
Proof.
  intros H. destruct (from_wf (mkCow b) H) as [Hwf Hc].
  split; [split|]; [done| |done].
  unfold owns_window. simpl. unfold wrap32, Cow.len. simpl.
  rewrite Z.mod_small; [done|]. pose proof (blen_nonneg b). done.
Qed.

Lemma as_overwrite_content s r :
  scb_ok s → Content.as_overwrite (content s) = Some (Some r) →
  ∃ r', Dma.as_overwrite s = Some (Some r') ∧ oscb_ok r' ∧ (content <$> r') = r.
Proof.
  intros [Hwf Ho] H. unfold Dma.as_overwrite. rewrite deref_wf by done. simpl.
  destruct (content s) as [|x c] eqn:E; [done|]. simpl in H.
  destruct (MsgType_from (u8 x)) as [[]|]; simplify_eq/=.
  - by exists None.
  - destruct (slice_from_content s 1 Hwf) as (s' & -> & Hwf' & Hp' & Hc').
    { rewrite <- blen_content, E by done. unfold blen. simpl. lia. }
    simpl. eexists. split; [done|]. split; [split; [done|]|].
    + unfold owns_window. destruct (sc_data s'); [|done].
      destruct Hwf. lia.
    + simpl. by rewrite Hc', E.
Qed.

Lemma apply_upserts_content us data r :
  oscb_ok data → Content.apply_upserts us (content <$> data) = Some (Some r) →
  blen r < U32_SIZE →
  ∃ s, Dma.apply_upserts us data = Some (Some s) ∧ scb_ok s ∧ content s = r.
Proof.
  intros Hok H Hlen. unfold Content.apply_upserts in H. inv_bind.
  destruct x as [b]. simpl in *. destruct (from_ok b Hlen) as [Hfo Hfc].
  exists (Sliced.from (mkCow b)). split; [|done].
  unfold Dma.apply_upserts.
  assert ((match data with
         | None => Some Cow.new
         | Some b => match Sliced.into_cow_bytes b with
                     | inl c => Some c
                     | inr b => c ← Sliced.deref b; Some (Cow.from c)
                     end
         end) = Some (mkCow (default [] (content <$> data)))) as ->.
  { destruct data as [s|]; [|done]. destruct Hok as [Hwf Ho]. simpl.
    pose proof (into_cow_bytes_content s Hwf Ho) as Hi.
    destruct (Sliced.into_cow_bytes s) as [[c]|s']; simpl in *.
    - by rewrite Hi.
    - subst. by rewrite deref_wf. }
  simpl. by rewrite H0.
Qed.

Lemma apply_content_agree k msg data r :
  scb_ok msg → oscb_ok data →
  Content.apply k (content msg) (content <$> data) = Some r →
  (∀ b, r = Some b → blen b < U32_SIZE) →
  ∃ r', Dma.apply k msg data = Some r' ∧ oscb_ok r' ∧ (content <$> r') = r.
Proof.
  intros [Hwf Ho] Hd H Hlen. unfold Content.apply, Dma.apply in *.
  rewrite deref_wf by done. simpl.
  destruct (content msg) as [|x c] eqn:E; [done|]. rewrite <- E in *.
  assert (head (content msg) = Some x) as Hx by by rewrite E.
  rewrite Hx in *. simpl in *.
  destruct (MsgType_from (u8 x)) as [[]|]; simpl in *; [..|done].
  1,2: inv_bind; destruct (as_overwrite_content msg r) as (r'&->&?&?);
    [by split|done|by exists r'].
  assert ((1 <=? blen (content msg)) = true) as ->.
  { apply Z.leb_le. rewrite E. unfold blen. simpl. lia. }
  inv_bind. rewrite H0. simpl.
  match goal with H : Content.apply_upserts _ _ = _ |- _ => rename H into Ha end.
  pose proof Ha as Ha'. unfold Content.apply_upserts in Ha'. inv_bind.
  destruct (apply_upserts_content _ _ _ Hd Ha) as (s&->&?&?); [by apply Hlen|].
  exists (Some s). split_and!; [done|done|]. simpl. by f_equal.
Qed.

Lemma build_overwrite_ok d :
  blen (Content.build_overwrite_msg d) < U32_SIZE →
  scb_ok (Dma.build_overwrite_msg d) ∧
  content (Dma.build_overwrite_msg d) = Content.build_overwrite_msg d.
Proof. by destruct d; apply from_ok. Qed.

Lemma merge_content_agree k upper lower m :
  scb_ok upper → scb_ok lower →
  Content.merge k (content upper) (content lower) = Some m →
  blen m < U32_SIZE →
  ∃ s, Dma.merge k upper lower = Some s ∧ scb_ok s ∧ content s = m.
Proof.
  intros Hu Hl H Hlen. unfold Content.merge, Dma.merge in *.
  rewrite !deref_wf by (apply Hu || apply Hl). simpl.
  destruct (head (content upper)) as [xu|]; simpl in *; [|done].
  destruct (MsgType_from (u8 xu)) as [tu|]; simpl in *; [|done].
  destruct (head (content lower)) as [xl|]; simpl in *; [|done].
  destruct (MsgType_from (u8 xl)) as [tl|]; simpl in *; [|done].
  destruct tu; simplify_eq; [eauto..|].
  destruct (blen (content upper) <=? 1); simplify_eq; [eauto|].
  destruct (iter_upserts (content upper)) as [[us|]|]; simplify_eq/=.
  destruct tl.
  1,2: inv_bind;
    match goal with
    | H1 : Content.as_overwrite _ = _, H2 : Content.apply_upserts _ _ = _ |- _ =>
        destruct (as_overwrite_content _ _ Hl H1) as (d & -> & Hd & <-);
        pose proof H2 as H3; unfold Content.apply_upserts in H3; inv_bind;
        destruct (apply_upserts_content _ _ _ Hd H2) as (s & Hs & Hok & Hc)
    end;
    [unfold blen in *; simpl in *; lia|];
    simpl; rewrite Hs; simpl; rewrite deref_wf by apply Hok; simpl; rewrite Hc;
    eexists; (split; [done|]); by apply build_overwrite_ok.
  simplify_eq. eexists. split; [done|]. by apply from_ok.
Qed.

(** ** Properties *)

(** C12: the messages of the default action compose.  For any two messages the
    constructors can build (or merging can produce), [merge] does not panic,
    its result is again such a message, and applying the merged message to
    any current value, present or absent, gives exactly what applying the
    older message and then the newer one gives. *)
Theorem dma_merge_is_sequence k upper lower :
  dma_valid upper → dma_valid lower →
  ∃ m, Content.merge k upper lower = Some m ∧ dma_valid m ∧
    ∀ d, ∃ d', Content.apply k lower d = Some d' ∧
               Content.apply k m d = Content.apply k upper d' ∧
               is_Some (Content.apply k m d).
Proof.
  intros Hu Hl. destruct (dma_merge_total k upper lower Hu Hl) as (m & Hm & Hv).
  exists m. split_and!; [done..|]. intros d.
  destruct (dma_apply_total k lower d Hl) as [d' Hd'].
  destruct (dma_apply_total k m d Hv) as [d'' Hd''].
  exists d'. split_and!; eauto using dma_merge_sequence.
Qed.

(** A two-upsert message over a three-byte insert. *)
Lemma dma_merge_is_sequence_witness :
  ∃ m, Content.merge [] (Content.build_upsert_msg [UBytes 1 [Byte.x07]; UBits 24 3 true])
         (Content.build_overwrite_msg (Some [Byte.x01; Byte.x02; Byte.x03])) = Some m ∧
    Content.apply [] m None = Some (Some [Byte.x01; Byte.x07; Byte.x03; Byte.x07]).
Proof.
  destruct (dma_merge_is_sequence []
    (Content.build_upsert_msg [UBytes 1 [Byte.x07]; UBits 24 3 true])
    (Content.build_overwrite_msg (Some [Byte.x01; Byte.x02; Byte.x03]))) as (m & Hm & _ & Ha).
  - right. eexists. split_and!; [..|reflexivity]; [done|].
    repeat constructor; unfold blen; simpl; unfold U32_SIZE; lia.
  - left. by eexists.
  - exists m. split; [done|]. destruct (Ha None) as (d' & Hd' & -> & _).
    vm_compute in Hd'. simplify_eq. vm_compute. reflexivity.
Defined.

(** An upsert message round-trips through its byte encoding: iterating over
    the message built from a list of encodable upserts yields exactly that
    list, in order. *)
Theorem upserts_round_trip us :
  Forall upsert_wf us →
  ∃ s, Dma.build_upsert_msg us = Some s ∧
    (blen (Content.build_upsert_msg us) < U32_SIZE →
     ∃ c, Sliced.deref s = Some c ∧ iter_upserts c = Some (Some us)).
Proof.
  intros Hwf. unfold Dma.build_upsert_msg, Cow.from.
  fold (Content.build_upsert_msg us). rewrite blen_build_upsert.
  rewrite Z.eqb_refl. eexists. split; [done|]. intros Hlen.
  rewrite <- blen_build_upsert in *.
  destruct (from_ok _ Hlen) as [[Hok _] Hc].
  eexists. split; [by apply deref_wf|]. rewrite Hc. by apply iter_upserts_build.
Qed.

Lemma upserts_round_trip_witness :
  ∃ s, Dma.build_upsert_msg [UBytes 5 [Byte.x61]; UBits 9 2 false] = Some s.
Proof.
  destruct (upserts_round_trip [UBytes 5 [Byte.x61]; UBits 9 2 false]) as (s & Hs & _).
  - repeat constructor; unfold blen; simpl; unfold U32_SIZE; lia.
  - by exists s.
Defined.

(** A byte upsert, by position. *)
Lemma upsert_bytes_at k o new old :
  0 ≤ o < 2 ^ 30 → blen new < U32_SIZE →
  ∃ r, Content.apply k (Content.build_upsert_msg [UBytes o new]) old = Some (Some r) ∧
    ∀ i, r !! i =
      let d := default [] old in
      if (i <? Z.to_nat o)%nat then Some (default zero (d !! i))
      else if (i <? Z.to_nat o + length new)%nat then new !! (i - Z.to_nat o)%nat
      else d !! i.
Proof.
  intros Ho Hn. rewrite apply_upsert_build by (apply Forall_singleton; simpl; auto).
  unfold Content.apply_upserts. cbn [fold_upserts].
  rewrite apply_upsert_bytes by lia. simpl. eexists. split; [done|].
  intros i. apply overwrite_at_lookup.
Qed.

(** A byte upsert writes its data at its offset and nothing else.  After
    applying [upsert_msg(offset, data)] to a value (absent counts as empty),
    every position before the offset keeps its old byte (or is zero where the
    value was shorter), the written range holds the data, and every position
    behind it keeps its old byte. *)
Theorem upsert_msg_effect k o new old :
  0 ≤ o < 2 ^ 30 → blen new < U32_SIZE →
  ∃ r, Content.apply k (Content.build_upsert_msg [UBytes o new]) old = Some (Some r) ∧
    ∀ i, r !! i =
      let d := default [] old in
      if (i <? Z.to_nat o)%nat then Some (default zero (d !! i))
      else if (i <? Z.to_nat o + length new)%nat then new !! (i - Z.to_nat o)%nat
      else d !! i.
Proof. apply upsert_bytes_at. Qed.

Lemma upsert_msg_effect_witness :
  ∃ r, Content.apply [] (Content.build_upsert_msg [UBytes 3 [Byte.x09]])
         (Some [Byte.x01]) = Some (Some r) ∧ r !! 3%nat = Some Byte.x09 ∧
       r !! 2%nat = Some zero ∧ r !! 4%nat = None.
Proof.
  destruct (upsert_msg_effect [] 3 [Byte.x09] (Some [Byte.x01])) as (r & Hr & Hl).
  - lia.
  - unfold blen, U32_SIZE; simpl; lia.
  - exists r. split; [done|]. by rewrite !Hl.
Defined.

(** A bit upsert sets exactly the requested bits.  After applying
    [upsert_bits_msg(offset, amount, value)] every bit of the range reads
    [value], every other bit is unchanged (bits behind the old end read zero),
    and the value has grown at most to the last byte of the range. *)
Theorem upsert_bits_effect k o n v old :
  0 ≤ o < 2 ^ 30 → 0 ≤ n → o + n < U32_SIZE →
  ∃ r, Content.apply k (Content.build_upsert_msg [UBits o n v]) old = Some (Some r) ∧
    blen r = Z.max (blen (default [] old)) ((o + n + 7) / 8) ∧
    ∀ j, 0 ≤ j →
      bit_at r j = if decide (o ≤ j < o + n) then v else bit_at (default [] old) j.
Proof.
  intros Ho Hn He. rewrite apply_upsert_build by (apply Forall_singleton; simpl; auto).
  unfold Content.apply_upserts. cbn [fold_upserts].
  destruct (apply_upsert_bits (default [] old) o n v) as (d & Hd & Hl & Hb); [lia..|].
  rewrite Hd. simpl. by exists d.
Qed.

Lemma upsert_bits_effect_witness :
  ∃ r, Content.apply [] (Content.build_upsert_msg [UBits 7 2 true]) None = Some (Some r) ∧
    blen r = 2 ∧ bit_at r 7 = true ∧ bit_at r 9 = false.
Proof.
  destruct (upsert_bits_effect [] 7 2 true None) as (r & Hr & Hl & Hb).
  - lia.
  - lia.
  - unfold U32_SIZE; lia.
  - exists r. split; [done|]. rewrite Hl, !Hb by lia. done.
Defined.


