(* ===== verification/Checksum.v ===== *)
(** * Checksums (betree/src/checksum/)

    The [Checksum] trait as a class with the laws its users rely on, and its
    implementations: [GxHash], [FxHash] and [XxHash] wrap a third-party
    hasher, which is a parameter here, in a [u64] whose value 0 switches the
    verification off. *)

From Stdlib Require Import ZArith Lia.
From stdpp Require Import base option list numbers proof_irrel.
From S2P Require Import Prelude.
From S2P Require Import Bytes.

(** ** The trait *)

(** [Checksum::static_size] of the three implementations. *)
Definition CSUM_SIZE : Z := 8.

(** A checksum type with its verification, its builder run over one slice,
    and its bincode coding. *)
Class Checksum := {
  csum : Type;
  csum_verify_buffer : csum → list bytes → bool;
  csum_build : bytes → csum;
  csum_ser : csum → bytes;
  csum_de : bytes → option csum;
}.

(** [Checksum::verify] *)
Definition csum_verify `{Checksum} (c : csum) (data : bytes) : bool :=
  csum_verify_buffer c [data].

(** A checksum serializes to its static size, reads back, and the checksum
    built over some bytes verifies them. *)
Class ChecksumLaws `{Checksum} := {
  csum_ser_length c : blen (csum_ser c) = CSUM_SIZE;
  csum_de_ser c : csum_de (csum_ser c) = Some c;
  csum_verify_build d : csum_verify (csum_build d) d = true;
}.

(** Verifying pieces is verifying their concatenation.  [std]'s [Hasher] does
    not promise it, so it is a law of its own. *)
Class ChecksumStream `{Checksum} := {
  csum_verify_pieces c ds : csum_verify_buffer c ds = csum_verify c (concat ds);
}.

(** ** Implementations over a hasher *)

(** [GxHash(u64)], [FxHash(u64)], [XxHash(u64)] *)
Record Hash64 := mkHash { hash0 : Z; hash0_u64 : (hash0 =? wrap64 hash0) = true }.

Lemma wrap64_idemp x : (wrap64 x =? wrap64 (wrap64 x)) = true.
Proof. apply Z.eqb_eq. unfold wrap64. by rewrite Z.mod_mod. Qed.

Definition hash64 (x : Z) : Hash64 := mkHash (wrap64 x) (wrap64_idemp x).

Section hasher.
(** The third-party hasher: its initial state ([with_seed(0)] or
    [default()]), [Hasher::write] and [Hasher::finish], which returns a
    [u64]. *)
Context {Hasher : Type} (initial : Hasher) (write : Hasher → bytes → Hasher)
  (finish : Hasher → Z).

(** [Builder::build], [State::ingest], [State::finish] *)
Definition hash_build : Hasher := initial.
Definition hash_ingest (s : Hasher) (data : bytes) : Hasher := write s data.
Definition hash_finish (s : Hasher) : Hash64 := hash64 (finish s).

(** [Builder::empty]: the checksum that skips the verification. *)
Definition hash_empty : Hash64 := hash64 0.

(** [Checksum::verify_buffer]: [true] is [Ok(())]. *)
Definition verify_buffer (self : Hash64) (data : list bytes) : bool :=
  if hash0 self =? 0 then true
  else
    let other := hash_finish (foldl hash_ingest hash_build data) in
    hash0 self =? hash0 other.

(** [Checksum::verify] *)
Definition hash_verify (self : Hash64) (data : bytes) : bool := verify_buffer self [data].

(** The closure every writer passes down: build, ingest, finish. *)
Definition hash_of (data : bytes) : Hash64 := hash_finish (hash_ingest hash_build data).

(** bincode's fixed-width little-endian coding of the [u64]. *)
Definition hash_ser (c : Hash64) : bytes := le64 (hash0 c).
Definition hash_de (b : bytes) : option Hash64 :=
  if blen b =? CSUM_SIZE then Some (hash64 (of_le b)) else None.

Definition HashChecksum : Checksum := {|
  csum := Hash64;
  csum_verify_buffer := verify_buffer;
  csum_build := hash_of;
  csum_ser := hash_ser;
  csum_de := hash_de;
|}.

Lemma hash0_range c : 0 ≤ hash0 c < U64_SIZE.
Proof.
  destruct c as [x Hx]. simpl. apply Z.eqb_eq in Hx. rewrite Hx.
  apply Z.mod_pos_bound. done.
Qed.

Lemma hash64_hash0 c : hash64 (hash0 c) = c.
Proof.
  destruct c as [x Hx]. unfold hash64. simpl.
  assert (wrap64 x = x) as E by (symmetry; by apply Z.eqb_eq).
  assert (∀ y (p : (y =? wrap64 y) = true), y = x → mkHash y p = mkHash x Hx) as Hy.
  { intros y p ->. f_equal. apply proof_irrel. }
  by apply Hy.
Qed.

Lemma HashChecksum_laws : @ChecksumLaws HashChecksum.
Proof.
  split; simpl.
  - intros c. unfold blen, hash_ser. by rewrite length_le64.
  - intros c. unfold hash_de, hash_ser, blen. rewrite length_le64.
    rewrite of_le_le64 by apply hash0_range. simpl. by rewrite hash64_hash0.
  - intros d. unfold csum_verify. simpl. unfold verify_buffer, hash_of. simpl.
    rewrite Z.eqb_refl. by case_match.
Qed.

(** The empty checksum accepts everything. *)
Lemma hash_empty_verifies data : verify_buffer hash_empty data = true.
Proof. done. Qed.

(** A checksum other than the empty one accepts a buffer only if its hash is
    the recorded one. *)
Lemma verify_buffer_exact c data :
  hash0 c ≠ 0 →
  verify_buffer c data = true ↔
    c = hash_finish (foldl hash_ingest hash_build data).
Proof.
  intros Hc. unfold verify_buffer. rewrite (proj2 (Z.eqb_neq _ _) Hc).
  split; [|by intros ->; apply Z.eqb_refl].
  intros E%Z.eqb_eq. rewrite <- (hash64_hash0 c), E. apply hash64_hash0.
Qed.

End hasher.

(** ** A concrete hasher

    Instantiates the parameter where a closed example needs one: a
    polynomial hash of the bytes. *)
Module PolyHash.

Definition write (s : Z) (data : bytes) : Z :=
  foldl (λ s b, wrap64 (s * 31 + u8 b + 1)) s data.

#[export] Instance checksum : Checksum := HashChecksum 7 write id.
#[export] Instance laws : ChecksumLaws := HashChecksum_laws 7 write id.

End PolyHash.

(** ** A checksum that no two buffers share

    The bytes themselves, where a closed example needs one. *)
Module WholeData.

#[export] Instance checksum : Checksum := {|
  csum := bytes;
  csum_verify_buffer c ds := bool_decide (concat ds = c);
  csum_build := id;
  csum_ser := id;
  csum_de := Some;
|}.

#[export] Instance stream : ChecksumStream.
Proof. split. intros c ds. unfold csum_verify. simpl. by rewrite app_nil_r. Qed.

Lemma verify_data d : csum_verify d d = true.
Proof. apply bool_decide_eq_true. simpl. apply app_nil_r. Qed.

Lemma verify_only c d : csum_verify c d = true → d = c.
Proof. intros H%bool_decide_eq_true. simpl in H. by rewrite app_nil_r in H. Qed.

End WholeData.
