(* ===== verification/ChildBuffer.v ===== *)
(** * Message buffers and leaves
      (betree/src/tree/imp/internal/packed_child_buffer.rs)

    [PackedChildBuffer] is both the message buffer of a child link and the
    leaf node.  Its map is either packed (the serialized bytes, read in
    place) or unpacked (a [BTreeMap]).  This file has the data, every
    operation, the size invariant and the theorems on the unpacked form;
    [PackedFormat] has the byte format. *)

From Stdlib Require Import ZArith Lia.
From stdpp Require Import base option list numbers.
From S2P Require Import Prelude.
From S2P Require Import Bytes.
From S2P Require Import BTreeMap.
From S2P Require Import CowBytes.
From S2P Require Import StoragePref.
From S2P Require Import Message.
From S2P Require Import Checksum.

(** ** Data *)

(** [KeyInfo] (tree/imp/mod.rs) *)
Record KeyInfo := mkKeyInfo { storage_preference : StoragePreference }.

#[global] Instance KeyInfo_eq_dec : EqDecision KeyInfo.
Proof. solve_decision. Defined.

(** [KeyInfo::static_size]: one byte. *)
Definition KEYINFO_SIZE : Z := 1.

Definition merge_with_upper (self upper : KeyInfo) : KeyInfo :=
  mkKeyInfo (Pref.choose_faster (storage_preference self) (storage_preference upper)).

(** [IntegrityMode] (data_management/mod.rs) *)
Inductive IntegrityMode (C : Type) :=
  | External
  | Internal (csum : C) (len : Z).
Arguments External {C}.
Arguments Internal {C} csum len.

Definition integrity_checksum {C} (i : IntegrityMode C) : option C :=
  match i with Internal csum _ => Some csum | External => None end.

Definition integrity_length {C} (i : IntegrityMode C) : option Z :=
  match i with Internal _ len => Some len | External => None end.

Definition IS_LEAF_HEADER : Z := 1.
Definition HEADER : Z := IS_LEAF_HEADER + 4 + 4 + 1.
Definition KEY_IDX_SIZE : Z := 4 + 1 + 4.
Definition PER_KEY_BYTES : Z := 16.

Abbreviation btree := (list (bytes * (KeyInfo * bytes))).

Inductive Map :=
  | Packed (entry_count : Z) (data : SlicedCowBytes)
  | Unpacked (m : btree).

Record PackedChildBuffer := mkBuf {
  messages_preference : Z;        (* AtomicStoragePreference *)
  system_storage_preference : Z;  (* AtomicSystemStoragePreference *)
  entries_size : Z;               (* usize *)
  buffer : Map;
  is_leaf : bool;
}.

(** [LocalPivotKey] (tree/pivot_key.rs) *)
Inductive LocalPivotKey :=
  | LpkLeftOuter (p : bytes)
  | LpkRight (p : bytes)
  | LpkRoot.

(** [FillUpResult] (tree/imp/leaf/mod.rs) *)
Inductive FillUpResult :=
  | Rebalanced (pivot_key : bytes) (size_delta : Z)
  | Merged (size_delta : Z).

Section buffer.
Context `{Checksum} `{MessageAction}.

(** ** Reading the packed form *)

Record KeyIdx := mkKeyIdx { ki_pos : Z; ki_len : Z; ki_pref : Z }.

(** [KeyIdx::unpack] on nine bytes. *)
Definition KeyIdx_unpack (buf : bytes) : option KeyIdx :=
  p ← cut buf 0 4; l ← cut buf 4 4; f ← cut buf 8 1;
  Some (mkKeyIdx (of_le p) (of_le l) (of_le f)).

Definition read_key_idx (data : bytes) (idx : Z) : option KeyIdx :=
  b ← cut data (HEADER + KEY_IDX_SIZE * idx) KEY_IDX_SIZE; KeyIdx_unpack b.

(** Position, length and checksum of the value of the key at [kidx]. *)
Definition read_val_pos (data : bytes) (kidx : KeyIdx) : option (Z * Z * csum) :=
  let off := ki_pos kidx + ki_len kidx in
  p ← cut data off 4;
  l ← cut data (off + 4) 4;
  c ← cut data (off + 4 + 4) CSUM_SIZE;
  c ← csum_de c;
  Some (of_le p, of_le l, c).

(** One round of the loop of [Map::unpacked]: key, key info and value
    position of entry [idx]. *)
Definition read_entry (data : bytes) (idx : Z) :
    option (bytes * (KeyInfo * (Z * Z * csum))) :=
  kidx ← read_key_idx data idx;
  pref ← Pref.from_u8 (ki_pref kidx);
  key ← cut data (ki_pos kidx) (ki_len kidx);
  v ← read_val_pos data kidx;
  Some (key, (mkKeyInfo pref, v)).

(** The value at a position: cut out and verified. *)
Definition read_value (data : bytes) (v : Z * Z * csum) : option bytes :=
  let '(pos, len, c) := v in
  e ← u32_add pos len;
  b ← cut data pos (e - pos);
  assert! csum_verify c b; Some b.

Definition read_full_entry (data : bytes) (idx : Z) :
    option (bytes * (KeyInfo * bytes)) :=
  e ← read_entry data idx;
  v ← read_value data e.2.2;
  Some (e.1, (e.2.1, v)).

Definition indices (n : Z) : list Z := Z.of_nat <$> seq 0 (Z.to_nat n).

(** [Map::unpacked]: the tree and the change of the cached size.  The map is
    unpacked afterwards. *)
Definition unpacked (m : Map) : option (btree * Z) :=
  match m with
  | Packed entry_count data =>
      d ← Sliced.deref data;
      es ← mapM (read_full_entry d) (indices entry_count);
      let size_delta :=
        -2 * 8 + sum_Z ((λ e, KEYINFO_SIZE + blen e.1 + blen e.2.2) <$> es) in
      Some (bt_from_iter es, size_delta)
  | Unpacked t => Some (t, 0)
  end.

Definition assert_unpacked (m : Map) : option btree :=
  match m with Packed _ _ => None | Unpacked t => Some t end.

Definition assert_packed (m : Map) : option SlicedCowBytes :=
  match m with Packed _ data => Some data | Unpacked _ => None end.

Definition is_unpacked (m : Map) : bool :=
  match m with Packed _ _ => false | Unpacked _ => true end.

Definition map_len (m : Map) : Z :=
  match m with
  | Packed entry_count _ => entry_count
  | Unpacked t => Z.of_nat (length t)
  end.

(** The binary search of [Map::find] over the key table, on [isize] indices.
    The interval shrinks in every round: [entry_count + 1] rounds are enough
    fuel. *)
Fixpoint find_loop (fuel : nat) (data key : bytes) (left right : Z) :
    option (option (Z * Z * Z * csum)) :=
  match fuel with
  | O => None
  | S fuel =>
      if right <? left then Some None
      else
        let mid := (left + right) / 2 + (left + right) mod 2 in
        kidx ← read_key_idx data mid;
        k ← cut data (ki_pos kidx) (ki_len kidx);
        match bytes_cmp key k with
        | Lt => find_loop fuel data key left (mid - 1)
        | Eq => v ← read_val_pos data kidx;
                Some (Some (ki_pref kidx, v.1.1, v.1.2, v.2))
        | Gt => find_loop fuel data key (mid + 1) right
        end
  end.

Definition find (m : Map) (key : bytes) : option (option (Z * Z * Z * csum)) :=
  match m with
  | Packed entry_count data =>
      d ← Sliced.deref data;
      find_loop (S (Z.to_nat entry_count)) d key 0 (entry_count - 1)
  | Unpacked _ => None
  end.

(** [Map::get] *)
Definition map_get (m : Map) (key : bytes) : option (option (KeyInfo * bytes)) :=
  match m with
  | Packed _ data =>
      r ← find m key;
      match r with
      | None => Some None
      | Some (pref, pos, len, c) =>
          d ← Sliced.deref data;
          b ← cut d pos len;
          assert! csum_verify c b;
          pref ← Pref.from_u8 pref;
          Some (Some (mkKeyInfo pref, b))
      end
  | Unpacked t => Some (bt_get key t)
  end.

(** [Map::is_empty]: no message for the key. *)
Definition map_is_empty (m : Map) (key : bytes) : option bool :=
  match m with
  | Packed _ _ => r ← find m key; Some (bool_decide (¬ is_Some r))
  | Unpacked t => Some (bool_decide (¬ is_Some (bt_get key t)))
  end.

(** [Map::len_bytes_contained_in_checksum] *)
Definition len_bytes_contained_in_checksum (m : Map) : option Z :=
  match m with
  | Packed entry_count data =>
      if entry_count <? 1 then Some HEADER
      else
        d ← Sliced.deref data;
        kidx ← read_key_idx d (Z.max 0 (entry_count - 1));
        Some (ki_pos kidx + ki_len kidx + 4 + 4 + CSUM_SIZE)
  | Unpacked _ => None
  end.

(** ** Sizes *)

(** Size of an entry in the packed form, as the insert path counts it:
    [key.size() + value.size() + keyinfo.size() + Checksum::static_size()]. *)
Definition entry_size (k : bytes) (v : KeyInfo * bytes) : Z :=
  (8 + blen k) + (8 + blen v.2) + KEYINFO_SIZE + CSUM_SIZE.

(** [<PackedChildBuffer as Size>::size] *)
Definition buf_size (b : PackedChildBuffer) : Z := HEADER + entries_size b.

Definition buf_actual_size (b : PackedChildBuffer) : option Z := Some (buf_size b).

Definition buf_cache_size (b : PackedChildBuffer) : Z :=
  match buffer b with
  | Packed _ data => HEADER + 8 * 2 + Sliced.cache_size data
  | Unpacked _ => buf_size b
  end.

Definition set_buffer (b : PackedChildBuffer) (m : Map) : PackedChildBuffer :=
  mkBuf (messages_preference b) (system_storage_preference b) (entries_size b) m (is_leaf b).
Definition set_entries_size (b : PackedChildBuffer) (n : Z) : PackedChildBuffer :=
  mkBuf (messages_preference b) (system_storage_preference b) n (buffer b) (is_leaf b).
Definition set_messages_preference (b : PackedChildBuffer) (p : Z) : PackedChildBuffer :=
  mkBuf p (system_storage_preference b) (entries_size b) (buffer b) (is_leaf b).
Definition set_system_storage_preference (b : PackedChildBuffer) (p : StoragePreference) :
    PackedChildBuffer :=
  mkBuf (messages_preference b) (SysPref.set (system_storage_preference b) p)
    (entries_size b) (buffer b) (is_leaf b).
Definition invalidate (b : PackedChildBuffer) : PackedChildBuffer :=
  set_messages_preference b (AtomicPref.invalidate (messages_preference b)).

(** ** [HasStoragePreference] *)

Definition buf_current_preference (b : PackedChildBuffer) :
    option (option StoragePreference) :=
  match AtomicPref.as_option (messages_preference b) with
  | None => Some None
  | Some p => r ← SysPref.weak_bound (system_storage_preference b) p; Some (Some r)
  end.

(** [recalculate] caches the result in [messages_preference]. *)
Definition buf_recalculate (b : PackedChildBuffer) :
    option (StoragePreference * PackedChildBuffer) :=
  t ← assert_unpacked (buffer b);
  let pref := foldl (λ p e, Pref.upgrade p (storage_preference e.2.1)) Pref.NONE t in
  Some (Pref.choose_faster pref Pref.NONE, set_messages_preference b pref).

Definition buf_correct_preference (b : PackedChildBuffer) :
    option (StoragePreference * PackedChildBuffer) :=
  p ← buf_current_preference b;
  match p with
  | Some p => Some (p, b)
  | None => buf_recalculate b
  end.

(** ** Operations *)

Definition buf_new (is_leaf : bool) : PackedChildBuffer :=
  mkBuf (AtomicPref.known Pref.NONE) (SysPref.from Pref.NONE) 0 (Unpacked []) is_leaf.

Definition buf_is_empty (b : PackedChildBuffer) (key : bytes) : option bool :=
  map_is_empty (buffer b) key.

Definition buf_get (b : PackedChildBuffer) (key : bytes) :
    option (option (KeyInfo * bytes)) := map_get (buffer b) key.

Definition buf_len (b : PackedChildBuffer) : Z := map_len (buffer b).

(** [unpack_data] *)
Definition unpack_data (b : PackedChildBuffer) : option (PackedChildBuffer * Z) :=
  '(t, d) ← unpacked (buffer b); Some (set_buffer b (Unpacked t), d).

(** [apply_with_info]: sets the preference of an existing key. *)
Definition buf_apply_with_info (b : PackedChildBuffer) (key : bytes)
    (pref : StoragePreference) : option (PackedChildBuffer * option KeyInfo * Z) :=
  let b := invalidate b in
  '(t, d) ← unpacked (buffer b);
  match bt_get key t with
  | Some (_, v) =>
      Some (set_buffer b (Unpacked (bt_insert key (mkKeyInfo pref, v) t)),
            Some (mkKeyInfo pref), d)
  | None => Some (set_buffer b (Unpacked t), None, d)
  end.

(** [insert] *)
Definition buf_insert (b : PackedChildBuffer) (key : bytes) (keyinfo : KeyInfo)
    (msg : bytes) : option (PackedChildBuffer * Z) :=
  let key_size := 8 + blen key in
  let b := set_messages_preference b
    (AtomicPref.upgrade (messages_preference b) (storage_preference keyinfo)) in
  '(t, d) ← unpacked (buffer b);
  let b := set_buffer b (Unpacked t) in
  match bt_get key t with
  | None =>
      '(b, size_delta) ←
        (if is_leaf b then
           data ← ma_apply key msg None;
           match data with
           | Some data =>
               Some (set_buffer b (Unpacked (bt_insert key (keyinfo, data) t)),
                     KEYINFO_SIZE + (8 + blen data) + key_size + CSUM_SIZE)
           | None => Some (b, 0)
           end
         else
           Some (set_buffer b (Unpacked (bt_insert key (keyinfo, msg) t)),
                 key_size + (8 + blen msg) + KEYINFO_SIZE + CSUM_SIZE));
      Some (set_entries_size b (entries_size b + size_delta), d + size_delta)
  | Some (lower_info, lower_msg) =>
      let lower_size := 8 + blen lower_msg in
      merged ←
        (if is_leaf b then ma_apply key msg (Some lower_msg)
         else m ← ma_merge key msg lower_msg; Some (Some m));
      match merged with
      | None =>
          (* the entry, whose value is an empty placeholder by now, is
             removed and the function returns early *)
          Some (set_buffer b (Unpacked (bt_remove key t)),
                d - (key_size + (8 + 0) + PER_KEY_BYTES))
      | Some merged =>
          let merged_size := 8 + blen merged in
          n ← usub (entries_size b + merged_size) lower_size;
          Some (set_entries_size
                  (set_buffer b (Unpacked (bt_insert key (lower_info, merged) t))) n,
                d + (merged_size - lower_size))
      end
  end.

(** [insert_msg_buffer] *)
Fixpoint buf_insert_msg_buffer (b : PackedChildBuffer) (msgs : btree) :
    option (PackedChildBuffer * Z) :=
  match msgs with
  | [] => Some (b, 0)
  | (key, (keyinfo, msg)) :: msgs =>
      '(b, d) ← buf_insert b key keyinfo msg;
      '(b, ds) ← buf_insert_msg_buffer b msgs;
      Some (b, d + ds)
  end.

(** [take]: the buffer is left empty and unpacked. *)
Definition buf_take (b : PackedChildBuffer) : option (btree * Z * PackedChildBuffer) :=
  let b := invalidate b in
  '(t, _) ← unpacked (buffer b);
  Some (t, entries_size b, set_entries_size (set_buffer b (Unpacked [])) 0).

(** [append]: both buffers afterwards ([other] keeps its [entries_size]). *)
Definition buf_append (b other : PackedChildBuffer) :
    option (PackedChildBuffer * PackedChildBuffer * Z) :=
  '(t, d) ← unpacked (buffer b);
  '(t', _) ← unpacked (buffer other);
  let b := set_buffer b (Unpacked (bt_append t t')) in
  let b := set_entries_size b (entries_size b + entries_size other) in
  let b := set_messages_preference b
    (AtomicPref.upgrade_atomic (messages_preference b) (messages_preference other)) in
  Some (b, set_buffer other (Unpacked []), d + entries_size other).

(** [split_off]: cuts behind [pivot]; asserts that the map is unpacked. *)
Definition buf_split_off (b : PackedChildBuffer) (pivot : bytes) :
    option (btree * Z * PackedChildBuffer) :=
  let next_key := pivot ++ [zero] in
  assert! is_unpacked (buffer b);
  '(t, _) ← unpacked (buffer b);
  let '(l, right_buffer) := bt_split_off next_key t in
  let b := invalidate (set_buffer b (Unpacked l)) in
  let right_entry_size := bt_sum entry_size right_buffer in
  n ← usub (entries_size b) right_entry_size;
  Some (right_buffer, right_entry_size, set_entries_size b n).

(** [split_at]: the part that stays and the new right sibling. *)
Definition buf_split_at (b : PackedChildBuffer) (pivot : bytes) :
    option (PackedChildBuffer * PackedChildBuffer) :=
  '(r, n, b) ← buf_split_off b pivot;
  Some (b, mkBuf AtomicPref.unknown (SysPref.from Pref.NONE) n (Unpacked r) (is_leaf b)).

(** [rebalance] *)
Definition buf_rebalance (b right_sibling : PackedChildBuffer) (new_pivot_key : bytes) :
    option (PackedChildBuffer * PackedChildBuffer) :=
  '(b, right_sibling, _) ← buf_append b right_sibling;
  '(r, n, b) ← buf_split_off b new_pivot_key;
  Some (b, set_entries_size (set_buffer right_sibling (Unpacked r)) n).

(** The backward scan of [split]: accumulates entries from the right until
    [min_size] is reached; the split key, the size and the preference of the
    sibling. *)
Fixpoint split_scan (rev_entries : btree) (min_size size : Z) (pref : StoragePreference) :
    option (bytes * Z * StoragePreference) :=
  match rev_entries with
  | [] => None
  | (k, (keyinfo, v)) :: es =>
      let size := size + (blen k + blen v + PER_KEY_BYTES + KEYINFO_SIZE) in
      let pref := Pref.upgrade pref (storage_preference keyinfo) in
      if min_size <=? size then Some (k, size, pref) else split_scan es min_size size pref
  end.

(** [split]: the part that stays, the right sibling, the pivot key and the
    change of the cached size. *)
Definition buf_split (b : PackedChildBuffer) (min_size max_size : Z) :
    option (PackedChildBuffer * (PackedChildBuffer * bytes * LocalPivotKey) * Z) :=
  assert! max_size <? buf_size b;
  assert! 2 <? map_len (buffer b);
  '(t, d) ← unpacked (buffer b);
  '(split_key, sibling_size, sibling_pref) ← split_scan (rev t) min_size 0 Pref.NONE;
  let '(l, r) := bt_split_off split_key t in
  n ← usub (entries_size b) sibling_size;
  let right_sibling := set_messages_preference
    (set_entries_size (set_buffer (buf_new (is_leaf b)) (Unpacked r)) sibling_size)
    sibling_pref in
  let b := invalidate (set_entries_size (set_buffer b (Unpacked l)) n) in
  '(pivot_key, _) ← last l;
  Some (b, (right_sibling, pivot_key, LpkRight pivot_key), d - sibling_size).

(** [rebalance_size]: merge into the left buffer, split again if that is too
    large. *)
Definition buf_rebalance_size (b right_sibling : PackedChildBuffer) (min_size max_size : Z) :
    option (PackedChildBuffer * PackedChildBuffer * FillUpResult) :=
  '(b, right_sibling, d) ← buf_append b right_sibling;
  if buf_size b <=? max_size then Some (b, right_sibling, Merged d)
  else
    '(b, (sibling, pivot_key, _), d') ← buf_split b min_size max_size;
    Some (b, sibling, Rebalanced pivot_key (d + d')).

(** [range_delete]: [end = None] is unbounded. *)
Definition buf_range_delete (b : PackedChildBuffer) (start : bytes) (end_ : option bytes) :
    option (PackedChildBuffer * Z) :=
  '(t, d) ← unpacked (buffer b);
  let in_range k := bleb start k && match end_ with Some e => bltb k e | None => true end in
  let dead := bt_filter in_range t in
  let size_delta := sum_Z ((λ e, (8 + blen e.1) + (8 + blen e.2.2)) <$> dead) in
  let t := foldl (λ t e, bt_remove e.1 t) t dead in
  n ← usub (entries_size b) size_delta;
  Some (invalidate (set_entries_size (set_buffer b (Unpacked t)) n), d - size_delta).

(** [get_all_messages]: all entries in key order.  The packed iterator reads
    values without verifying their checksum. *)
Definition packed_next (d : bytes) (idx : Z) : option (bytes * (KeyInfo * bytes)) :=
  kpos ← read_key_idx d idx;
  vpos_off ← u32_add (ki_pos kpos) (ki_len kpos);
  vpos ← cut d vpos_off 4;
  vlen ← cut d (vpos_off + 4) 4;
  val ← cut d (of_le vpos) (of_le vlen);
  k ← cut d (ki_pos kpos) (ki_len kpos);
  pref ← Pref.from_u8 (ki_pref kpos);
  Some (k, (mkKeyInfo pref, val)).

Definition get_all_messages (b : PackedChildBuffer) : option btree :=
  match buffer b with
  | Packed entry_count data =>
      d ← Sliced.deref data; mapM (packed_next d) (indices entry_count)
  | Unpacked t => Some t
  end.

(** ** Serialization *)

(** The key table of [pack]: position, length and preference of each key. *)
Fixpoint pack_key_table (t : btree) (free_after : Z) : bytes * Z :=
  match t with
  | [] => ([], free_after)
  | (key, (info, _)) :: t =>
      let '(r, f) := pack_key_table t (free_after + (blen key + 4 + 4 + CSUM_SIZE)) in
      (le32 free_after ++ le32 (blen key) ++ [to_u8 (Pref.as_u8 (storage_preference info))]
         ++ r, f)
  end.

(** The keys, each followed by position, length and checksum of its value. *)
Fixpoint pack_keys (csum_builder : bytes → csum) (t : btree) (free_after : Z) : bytes :=
  match t with
  | [] => []
  | (key, (_, val)) :: t =>
      key ++ le32 free_after ++ le32 (blen val) ++ csum_ser (csum_builder val)
        ++ pack_keys csum_builder t (free_after + blen val)
  end.

Definition pack_values (t : btree) : bytes := concat ((λ e, e.2.2) <$> t).

(** [pack]: the bytes written and the integrity information. *)
Definition buf_pack (b : PackedChildBuffer) (csum_builder : bytes → csum) :
    option (bytes * IntegrityMode csum) :=
  match buffer b with
  | Packed _ data =>
      d ← Sliced.deref data;
      w ← cut d 0 (buf_size b);
      n ← len_bytes_contained_in_checksum (buffer b);
      h ← cut d 0 n;
      Some (w, Internal (csum_builder h) (wrap32 n))
  | Unpacked t =>
      pref ← SysPref.strong_bound (system_storage_preference b) Pref.NONE;
      let len := Z.of_nat (length t) in
      let head := [to_u8 (if is_leaf b then 1 else 0)] ++ le32 len ++
                  le32 (entries_size b) ++ [to_u8 (Pref.as_u8 pref)] in
      let '(table, free_after) := pack_key_table t (HEADER + len * KEY_IDX_SIZE) in
      let tmp := head ++ table ++ pack_keys csum_builder t free_after in
      Some (tmp ++ pack_values t, Internal (csum_builder tmp) (wrap32 (blen tmp)))
  end.

(** [unpack]: [Some None] is the checksum error, [None] a panic. *)
Definition buf_unpack (buf : SlicedCowBytes) (csum : IntegrityMode csum) :
    option (option PackedChildBuffer) :=
  d ← Sliced.deref buf;
  leaf ← at_ d 0;
  entry_count ← cut d IS_LEAF_HEADER 4;
  size ← cut d (IS_LEAF_HEADER + 4) 4;
  pref ← cut d (IS_LEAF_HEADER + 8) 1;
  c ← integrity_checksum csum;
  len ← integrity_length csum;
  h ← cut d 0 len;
  if csum_verify c h then
    pref ← Pref.from_u8 (of_le pref);
    Some (Some (mkBuf (AtomicPref.known pref) (SysPref.from pref) (of_le size)
                  (Packed (of_le entry_count) buf) (negb (u8 leaf =? 0))))
  else Some None.

(** ** The buffer invariant *)

(** The size of an entry as [split] counts it: without the checksum. *)
Definition split_size (k : bytes) (v : KeyInfo * bytes) : Z :=
  blen k + blen v.2 + PER_KEY_BYTES + KEYINFO_SIZE.

(** Message buffers count the packed size of their entries exactly; leaves
    never fall below the entries' size without checksums (deleting and
    splitting make the count of a leaf drift, see [leaf_delete_keeps_size]
    and [split_miscounts]). *)
Definition size_inv (b : PackedChildBuffer) (t : btree) : Prop :=
  if is_leaf b then bt_sum split_size t ≤ entries_size b
  else entries_size b = bt_sum entry_size t.

End buffer.

(** [buf_wf b t]: buffer [b], packed or not, holds the sorted entries [t];
    preferences are valid, the size is accounted for, a message buffer holds
    valid messages only, and lookup, iteration and count, which work on the
    packed bytes where the buffer is packed, see the same entries; the
    preference of a packed buffer is known. *)
Record buf_wf `{Checksum} `{MessageActionLaws} (b : PackedChildBuffer) (t : btree) : Prop := {
  wf_contents : fst <$> unpacked (buffer b) = Some t;
  wf_sorted : bt_sorted t;
  wf_prefs : Forall (λ e, Pref.valid (storage_preference e.2.1)) t;
  wf_msg_pref : AtomicPref.valid (messages_preference b);
  wf_sys_pref : Pref.valid (system_storage_preference b);
  wf_size : size_inv b t;
  wf_msgs : is_leaf b = false → Forall (λ e, ma_valid e.2.2) t;
  wf_get : ∀ k, map_get (buffer b) k = Some (bt_get k t);
  wf_iter : get_all_messages b = Some t;
  wf_len : map_len (buffer b) = Z.of_nat (length t);
  wf_known : is_unpacked (buffer b) || negb (messages_preference b =? U8_MAX) = true;
}.

Section buffer_theory.
Context `{Checksum} `{MessageActionLaws}.
Implicit Types (b : PackedChildBuffer) (t : btree) (k : bytes).

(** The value a leaf holds for a key. *)
Definition leaf_val (t : btree) (k : bytes) : option bytes := snd <$> bt_get k t.

(** What the messages of a buffer do to the value of a key. *)
Definition msg_eff (t : btree) (k : bytes) (d : option bytes) : option (option bytes) :=
  match bt_get k t with
  | None => Some d
  | Some (_, m) => ma_apply k m d
  end.

Lemma entry_size_pos k v : 0 ≤ entry_size k v.
Proof.
  unfold entry_size, KEYINFO_SIZE, CSUM_SIZE.
  pose proof (blen_nonneg k). pose proof (blen_nonneg v.2). lia.
Qed.

Lemma split_size_pos k v : 0 ≤ split_size k v.
Proof.
  unfold split_size, KEYINFO_SIZE, PER_KEY_BYTES.
  pose proof (blen_nonneg k). pose proof (blen_nonneg v.2). lia.
Qed.

Lemma size_inv_nonneg b t : size_inv b t → 0 ≤ entries_size b.
Proof.
  unfold size_inv. pose proof (bt_sum_nonneg _ t entry_size_pos).
  pose proof (bt_sum_nonneg _ t split_size_pos). destruct (is_leaf b); lia.
Qed.

Lemma wf_unpacked b t : buf_wf b t → ∃ d, unpacked (buffer b) = Some (t, d).
Proof.
  intros [Hc _ _ _ _ _]. destruct (unpacked (buffer b)) as [[t' d]|]; simplify_eq/=.
  eauto.
Qed.

Lemma buf_new_wf leaf : buf_wf (buf_new leaf) [].
Proof.
  split; simpl; auto with haura.
  - constructor.
  - right. apply Pref.valid_NONE.
  - by destruct leaf.
Qed.

(** Valid messages keep a value defined. *)
Lemma msg_eff_total b t k d :
  buf_wf b t → is_leaf b = false → ∃ d', msg_eff t k d = Some d'.
Proof.
  intros Hwf Hl. unfold msg_eff. destruct (bt_get k t) as [[ki m]|] eqn:E; [|eauto].
  apply ma_apply_total. pose proof (wf_msgs _ _ Hwf Hl) as Hm.
  rewrite Forall_forall in Hm. apply (Hm (k, (ki, m))). by apply bt_get_In.
Qed.

(** *** Inserting into a message buffer *)
Lemma buf_insert_msg b t k ki msg :
  buf_wf b t → is_leaf b = false → ma_valid msg → Pref.valid (storage_preference ki) →
  ∃ b' t' d, buf_insert b k ki msg = Some (b', d) ∧ buffer b' = Unpacked t' ∧
    buf_wf b' t' ∧ is_leaf b' = false ∧
    (∀ k' d0, msg_eff t' k' d0 =
      if beqb k' k then (d1 ← msg_eff t k d0; ma_apply k msg d1) else msg_eff t k' d0) ∧
    (∀ k', bt_get k' t' = None ↔ bt_get k' t = None ∧ k' ≠ k).
Proof.
  intros Hwf Hl Hv Hp. pose proof (wf_unpacked _ _ Hwf) as [d0 Hu].
  destruct Hwf as [Hc Hs Hprefs Hmp Hsp Hsz Hms].
  unfold buf_insert. simpl. rewrite Hu. simpl. rewrite Hl.
  destruct (bt_get k t) as [[li lm]|] eqn:E.
  - assert ((k, (li, lm)) ∈ t) as Hin by by apply bt_get_In.
    assert (ma_valid lm) as Hvl.
    { rewrite Forall_forall in Hms. by apply (Hms Hl) in Hin. }
    assert (Pref.valid (storage_preference li)) as Hpl.
    { rewrite Forall_forall in Hprefs. by apply Hprefs in Hin. }
    destruct (ma_merge_total k msg lm) as (m & Hm & Hvm); [done..|].
    rewrite Hm. simpl.
    assert (entries_size b + (8 + blen m) - (8 + blen lm) =
            bt_sum entry_size (bt_insert k (li, m) t)) as Hsum.
    { rewrite bt_sum_insert, E by done. unfold size_inv in Hsz. rewrite Hl in Hsz.
      rewrite Hsz. unfold entry_size. simpl. lia. }
    rewrite usub_Some.
    2: { pose proof (bt_sum_nonneg _ (bt_insert k (li, m) t) entry_size_pos). lia. }
    simpl. eexists _, _, _. split_and!; [done|done| |done| |].
    + split; simpl; auto with haura.
      * by apply Forall_bt_insert.
      * by apply AtomicPref.valid_upgrade.
      * unfold size_inv. simpl. by rewrite Hl.
      * intros _. apply Forall_bt_insert; auto.
    + intros k' d1. unfold msg_eff. rewrite bt_get_insert. bbool; [subst|done].
      rewrite E. destruct (ma_apply_total k lm d1 Hvl) as [d2 Hd2]. rewrite Hd2.
      simpl. by apply (ma_merge_apply k msg lm).
    + intros k'. rewrite bt_get_insert. bbool; [subst; naive_solver|naive_solver].
  - simpl. eexists _, _, _. split_and!; [done|done| |done| |].
    + split; simpl; auto with haura.
      * by apply Forall_bt_insert.
      * by apply AtomicPref.valid_upgrade.
      * unfold size_inv in *. simpl. rewrite Hl in *. rewrite bt_sum_insert, E by done.
        rewrite Hsz. unfold entry_size. simpl. lia.
      * intros _. apply Forall_bt_insert; auto.
    + intros k' d1. unfold msg_eff. rewrite bt_get_insert. bbool; [subst|done].
      by rewrite E.
    + intros k'. rewrite bt_get_insert. bbool; [subst; naive_solver|naive_solver].
Qed.

(** *** Inserting into a leaf *)
Lemma buf_insert_leaf b t k ki msg :
  buf_wf b t → is_leaf b = true → ma_valid msg → Pref.valid (storage_preference ki) →
  ∃ b' t' d, buf_insert b k ki msg = Some (b', d) ∧ buffer b' = Unpacked t' ∧
    buf_wf b' t' ∧ is_leaf b' = true ∧
    ma_apply k msg (leaf_val t k) = Some (leaf_val t' k) ∧
    (∀ k', k' ≠ k → bt_get k' t' = bt_get k' t).
Proof.
  intros Hwf Hl Hv Hp. pose proof (wf_unpacked _ _ Hwf) as [d0 Hu].
  destruct Hwf as [Hc Hs Hprefs Hmp Hsp Hsz Hms].
  unfold buf_insert. simpl. rewrite Hu. simpl. rewrite Hl.
  assert (∀ k', (beqb k' k = true ∧ k' = k) ∨ (beqb k' k = false ∧ k' ≠ k)) as Hb.
  { intros k'. bbool; auto. }
  unfold size_inv in Hsz. rewrite Hl in Hsz.
  destruct (bt_get k t) as [[li lm]|] eqn:E.
  - assert ((k, (li, lm)) ∈ t) as Hin by by apply bt_get_In.
    assert (Pref.valid (storage_preference li)) as Hpl.
    { rewrite Forall_forall in Hprefs. by apply Hprefs in Hin. }
    destruct (ma_apply_total k msg (Some lm) Hv) as [r Hr].
    rewrite Hr. simpl. pose proof (bt_sum_remove split_size k t Hs) as Hrm.
    rewrite E in Hrm. unfold split_size at 3 in Hrm. simpl in Hrm.
    pose proof (bt_sum_nonneg _ (bt_remove k t) split_size_pos).
    pose proof (blen_nonneg k). pose proof (blen_nonneg lm).
    unfold PER_KEY_BYTES, KEYINFO_SIZE in *.
    destruct r as [m|].
    + pose proof (blen_nonneg m). rewrite usub_Some by lia. simpl.
      eexists _, _, _. split_and!; [done|done| |done| |].
      * split; simpl; auto with haura.
        -- by apply Forall_bt_insert.
        -- by apply AtomicPref.valid_upgrade.
        -- unfold size_inv. simpl. rewrite Hl, bt_sum_insert, E by done.
           unfold split_size at 2 3, PER_KEY_BYTES, KEYINFO_SIZE. simpl. lia.
        -- intros ?. congruence.
      * unfold leaf_val. rewrite E, bt_get_insert, beqb_refl. done.
      * intros k' Hk'. rewrite bt_get_insert. destruct (Hb k') as [[_ ?]|[-> _]]; done.
    + eexists _, _, _. split_and!; [done|done| |done| |].
      * split; simpl; auto with haura.
        -- by apply Forall_bt_filter.
        -- by apply AtomicPref.valid_upgrade.
        -- unfold size_inv. simpl. rewrite Hl. lia.
        -- intros ?. congruence.
      * unfold leaf_val. rewrite E, bt_get_remove, beqb_refl. done.
      * intros k' Hk'. rewrite bt_get_remove. destruct (Hb k') as [[_ ?]|[-> _]]; done.
  - destruct (ma_apply_total k msg None Hv) as [r Hr]. rewrite Hr. simpl.
    destruct r as [m|]; simpl.
    + pose proof (blen_nonneg m). pose proof (blen_nonneg k).
      eexists _, _, _. split_and!; [done|done| |done| |].
      * split; simpl; auto with haura.
        -- by apply Forall_bt_insert.
        -- by apply AtomicPref.valid_upgrade.
        -- unfold size_inv. simpl. rewrite Hl, bt_sum_insert, E by done.
           unfold split_size at 2, PER_KEY_BYTES, KEYINFO_SIZE, CSUM_SIZE. simpl. lia.
        -- intros ?. congruence.
      * unfold leaf_val. rewrite E, bt_get_insert, beqb_refl. done.
      * intros k' Hk'. rewrite bt_get_insert. destruct (Hb k') as [[_ ?]|[-> _]]; done.
    + eexists _, _, _. split_and!; [done|done| |done| |done].
      * split; simpl; auto with haura.
        -- by apply AtomicPref.valid_upgrade.
        -- unfold size_inv. simpl. rewrite Hl. lia.
      * unfold leaf_val. rewrite E. done.
Qed.

(** *** Inserting a whole message buffer *)

(** The entries a flush moves: sorted, with valid messages and
    preferences. *)
Definition msgs_wf (ms : btree) : Prop :=
  bt_sorted ms ∧ Forall (λ e, ma_valid e.2.2) ms ∧
  Forall (λ e, Pref.valid (storage_preference e.2.1)) ms.

Lemma msg_eff_cons k ki m ms k' d :
  bt_sorted ((k, (ki, m)) :: ms) →
  msg_eff ((k, (ki, m)) :: ms) k' d =
    if beqb k' k then ma_apply k m d else msg_eff ms k' d.
Proof. intros _. unfold msg_eff. simpl. by bbool; subst. Qed.

Lemma msg_eff_not_in ms k d : bt_get k ms = None → msg_eff ms k d = Some d.
Proof. intros E. unfold msg_eff. by rewrite E. Qed.

Lemma insert_msgs_leaf ms b t :
  buf_wf b t → is_leaf b = true → msgs_wf ms →
  ∃ b' t' d, buf_insert_msg_buffer b ms = Some (b', d) ∧ buf_wf b' t' ∧
    is_leaf b' = true ∧
    (∀ k, msg_eff ms k (leaf_val t k) = Some (leaf_val t' k)) ∧
    (∀ k, bt_get k ms = None → bt_get k t' = bt_get k t).
Proof.
  revert b t; induction ms as [|[k [ki m]] ms IH]; intros b t Hwf Hl (Hs&Hv&Hp).
  { exists b, t, 0. by split_and!. }
  pose proof Hs as Hs'. apply bt_sorted_cons in Hs as [Hs Hlt].
  apply Forall_cons in Hv as [Hv1 Hv]. apply Forall_cons in Hp as [Hp1 Hp].
  pose proof (bt_get_lt _ _ Hlt) as Hnone.
  destruct (buf_insert_leaf b t k ki m) as (b1&t1&d1&Hi&_&Hwf1&Hl1&Ha&Ho); [done..|].
  destruct (IH b1 t1) as (b2&t2&d2&Hi2&Hwf2&Hl2&He&Hn); [done|done|by repeat split|].
  simpl. rewrite Hi. simpl. rewrite Hi2. simpl.
  exists b2, t2, (d1 + d2). split_and!; [done..| |].
  - intros k'. rewrite msg_eff_cons by done. bbool.
    + subst. rewrite Ha. unfold leaf_val. by rewrite Hn.
    + rewrite <- He. unfold leaf_val. by rewrite Ho.
  - intros k'. simpl. bbool; [done|]. intros ?. by rewrite Hn, Ho.
Qed.

Lemma insert_msgs_buf ms b t :
  buf_wf b t → is_leaf b = false → msgs_wf ms →
  ∃ b' t' d, buf_insert_msg_buffer b ms = Some (b', d) ∧ buf_wf b' t' ∧
    is_leaf b' = false ∧
    (∀ k d0, msg_eff t' k d0 = (d1 ← msg_eff t k d0; msg_eff ms k d1)) ∧
    (∀ k, bt_get k t' = None ↔ bt_get k t = None ∧ bt_get k ms = None).
Proof.
  revert b t; induction ms as [|[k [ki m]] ms IH]; intros b t Hwf Hl (Hs&Hv&Hp).
  { exists b, t, 0. split_and!; [done..| |naive_solver].
    intros k d0. by destruct (msg_eff_total b t k d0 Hwf Hl) as [? ->]. }
  pose proof Hs as Hs'. apply bt_sorted_cons in Hs as [Hs Hlt].
  apply Forall_cons in Hv as [Hv1 Hv]. apply Forall_cons in Hp as [Hp1 Hp].
  pose proof (bt_get_lt _ _ Hlt) as Hnone.
  destruct (buf_insert_msg b t k ki m) as (b1&t1&d1&Hi&_&Hwf1&Hl1&Ha&Ho); [done..|].
  destruct (IH b1 t1) as (b2&t2&d2&Hi2&Hwf2&Hl2&He&Hn); [done|done|by repeat split|].
  simpl. rewrite Hi. simpl. rewrite Hi2. simpl.
  exists b2, t2, (d1 + d2). split_and!; [done..| |].
  - intros k' d0. rewrite He, Ha.
    destruct (msg_eff_total b t k' d0 Hwf Hl) as [e He'].
    destruct (beqb_spec k' k) as [->|Hne]; rewrite He'; simpl;
      rewrite msg_eff_cons by done.
    + rewrite beqb_refl. destruct (ma_apply k m e); simpl; [|done].
      by rewrite msg_eff_not_in.
    + by destruct (beqb_spec k' k).
  - intros k'. rewrite Hn, Ho. simpl. bbool; naive_solver.
Qed.

(** *** Taking, appending, cutting *)

Lemma buf_take_wf b t :
  buf_wf b t →
  ∃ b', buf_take b = Some (t, entries_size b, b') ∧ buf_wf b' [] ∧
        is_leaf b' = is_leaf b ∧ buffer b' = Unpacked [].
Proof.
  intros Hwf. pose proof (wf_unpacked _ _ Hwf) as [d0 Hu].
  destruct Hwf as [Hc Hs Hprefs Hmp Hsp Hsz Hms].
  unfold buf_take. simpl. rewrite Hu. simpl. eexists. split_and!; [done| |done..].
  split; simpl; auto with haura.
  - constructor.
  - by left.
  - unfold size_inv. simpl. by destruct (is_leaf b).
Qed.

Lemma msgs_wf_buf b t : buf_wf b t → is_leaf b = false → msgs_wf t.
Proof. intros [] ?. by repeat split; auto. Qed.

Definition disjoint_keys (t1 t2 : btree) : Prop :=
  ∀ k, bt_get k t2 ≠ None → bt_get k t1 = None.

Lemma buf_append_wf b1 t1 b2 t2 :
  buf_wf b1 t1 → buf_wf b2 t2 → is_leaf b1 = is_leaf b2 → disjoint_keys t1 t2 →
  ∃ b1' b2' d, buf_append b1 b2 = Some (b1', b2', d) ∧
    buf_wf b1' (bt_append t1 t2) ∧ is_leaf b1' = is_leaf b1 ∧
    buffer b1' = Unpacked (bt_append t1 t2) ∧
    entries_size b1' = entries_size b1 + entries_size b2 ∧
    b2' = set_buffer b2 (Unpacked []).
Proof.
  intros Hwf1 Hwf2 Hl Hdis.
  pose proof (wf_unpacked _ _ Hwf1) as [d1 Hu1].
  pose proof (wf_unpacked _ _ Hwf2) as [d2 Hu2].
  destruct Hwf1 as [Hc1 Hs1 Hp1 Hmp1 Hsp1 Hsz1 Hms1],
    Hwf2 as [Hc2 Hs2 Hp2 Hmp2 Hsp2 Hsz2 Hms2].
  unfold buf_append. rewrite Hu1, Hu2. simpl.
  eexists _, _, _. split_and!; [done| |done..].
  split; simpl; auto with haura.
  - by apply Forall_bt_append.
  - by apply AtomicPref.valid_upgrade_atomic.
  - unfold size_inv in *. simpl. rewrite <- Hl in Hsz2. destruct (is_leaf b1);
      rewrite bt_sum_append by done; lia.
  - intros E. apply Forall_bt_append; [auto|]. apply Hms2. congruence.
Qed.

Lemma buf_split_off_wf b t pivot :
  buf_wf b t → is_leaf b = false → is_unpacked (buffer b) = true →
  ∃ n b', buf_split_off b pivot = Some (bt_filter (λ k, negb (bleb k pivot)) t, n, b') ∧
    buf_wf b' (bt_filter (λ k, bleb k pivot) t) ∧ is_leaf b' = false ∧
    buffer b' = Unpacked (bt_filter (λ k, bleb k pivot) t) ∧
    n = bt_sum entry_size (bt_filter (λ k, negb (bleb k pivot)) t).
Proof.
  intros Hwf Hl Hup. pose proof (wf_unpacked _ _ Hwf) as [d0 Hu].
  destruct Hwf as [Hc Hs Hprefs Hmp Hsp Hsz Hms].
  assert (∀ p q : bytes → bool, (∀ k, p k = q k) → bt_filter p t = bt_filter q t) as Hext.
  { intros p q E. unfold bt_filter. apply List.filter_ext. intros. apply E. }
  assert (∀ k, bltb k (pivot ++ [zero]) = bleb k pivot) as Hcut.
  { intros k. destruct (bltb_spec k (pivot ++ [zero])) as [L|L],
      (bleb_spec k pivot) as [M|M]; try done; exfalso.
    - apply blt_snoc_zero in L. border.
    - apply (proj2 (blt_snoc_zero k pivot)) in M. border. }
  unfold buf_split_off. rewrite Hup, Hu. simpl.
  rewrite (Hext (λ k', bltb k' (pivot ++ [zero])) (λ k, bleb k pivot)) by done.
  rewrite (Hext (λ k', negb (bltb k' (pivot ++ [zero]))) (λ k, negb (bleb k pivot)))
    by (intros; by rewrite Hcut).
  pose proof (bt_sum_filter entry_size (λ k, bleb k pivot) t) as Hsum.
  cbv beta in Hsum.
  pose proof (bt_sum_nonneg _ (bt_filter (λ k, bleb k pivot) t) entry_size_pos).
  unfold size_inv in Hsz. rewrite Hl in Hsz.
  rewrite usub_Some by lia. simpl. eexists _, _. split_and!; [done| |done..].
  split; simpl; auto with haura.
  - by apply Forall_bt_filter.
  - by left.
  - unfold size_inv. simpl. rewrite Hl. lia.
  - intros _. apply Forall_bt_filter. auto.
Qed.

Lemma buf_split_at_wf b t pivot :
  buf_wf b t → is_leaf b = false → is_unpacked (buffer b) = true →
  ∃ b1 b2, buf_split_at b pivot = Some (b1, b2) ∧
    buf_wf b1 (bt_filter (λ k, bleb k pivot) t) ∧ is_leaf b1 = false ∧
    buf_wf b2 (bt_filter (λ k, negb (bleb k pivot)) t) ∧ is_leaf b2 = false.
Proof.
  intros Hwf Hl Hup.
  destruct (buf_split_off_wf b t pivot) as (n&b'&Hso&Hwf'&Hl'&_&->); [done..|].
  unfold buf_split_at. rewrite Hso. simpl. eexists _, _. split_and!; [done..| |done].
  destruct Hwf as [Hc Hs Hprefs Hmp Hsp Hsz Hms].
  split; simpl; auto with haura.
  - by apply Forall_bt_filter.
  - by left.
  - unfold size_inv. simpl. by rewrite Hl'.
  - intros _. apply Forall_bt_filter. auto.
Qed.

Lemma buf_rebalance_wf b1 t1 b2 t2 pivot :
  buf_wf b1 t1 → buf_wf b2 t2 → is_leaf b1 = false → is_leaf b2 = false →
  disjoint_keys t1 t2 →
  ∃ b1' b2', buf_rebalance b1 b2 pivot = Some (b1', b2') ∧
    buf_wf b1' (bt_filter (λ k, bleb k pivot) (bt_append t1 t2)) ∧ is_leaf b1' = false ∧
    buf_wf b2' (bt_filter (λ k, negb (bleb k pivot)) (bt_append t1 t2)) ∧ is_leaf b2' = false.
Proof.
  intros Hwf1 Hwf2 Hl1 Hl2 Hdis.
  destruct (buf_append_wf b1 t1 b2 t2) as (b1'&b2'&d&Ha&Hwf&Hl&Hu&Hes&->);
    [done|done|congruence|done|].
  destruct (buf_split_off_wf b1' (bt_append t1 t2) pivot)
    as (n&b'&Hso&Hwf'&Hl'&_&->); [done|congruence|by rewrite Hu|].
  unfold buf_rebalance. rewrite Ha. simpl. rewrite Hso. simpl.
  eexists _, _. split_and!; [done..| |done].
  destruct Hwf as [Hc Hs Hp Hmp Hsp Hsz Hms], Hwf2.
  split; simpl; auto with haura.
  - by apply Forall_bt_filter.
  - unfold size_inv. simpl. by rewrite Hl2.
  - intros _. apply Forall_bt_filter. apply Hms. congruence.
Qed.

(** *** Splitting a leaf *)

Lemma split_scan_Some es min s p k s' p' :
  split_scan es min s p = Some (k, s', p') →
  ∃ a v c, es = a ++ (k, v) :: c ∧
    s' = s + bt_sum split_size a + split_size k v ∧ min ≤ s' ∧
    (a ≠ [] → s + bt_sum split_size a < min).
Proof.
  revert s p; induction es as [|[k0 [ki v0]] es IH]; intros s p; simpl; [done|].
  destruct (Z.leb_spec min (s + (blen k0 + blen v0 + PER_KEY_BYTES + KEYINFO_SIZE)))
    as [Hm|Hm].
  - intros [= <- <- <-]. exists [], (ki, v0), es. unfold split_size, bt_sum. simpl.
    split_and!; [done|lia|lia|done].
  - intros Hr. apply IH in Hr as (a&v&c&->&->&Hmin&Ha).
    assert (split_size k0 (ki, v0) = blen k0 + blen v0 + PER_KEY_BYTES + KEYINFO_SIZE)
      as Hq by done.
    exists ((k0, (ki, v0)) :: a), v, c. rewrite bt_sum_cons, Hq.
    split_and!; [done|lia|lia|]. intros _.
    destruct a as [|e a]; [unfold bt_sum; simpl; lia|].
    assert (e :: a ≠ []) as Hne by done. apply Ha in Hne. lia.
Qed.

Lemma split_scan_total es min s p :
  es ≠ [] → min ≤ s + bt_sum split_size es →
  is_Some (split_scan es min s p).
Proof.
  revert s p; induction es as [|[k0 [ki v0]] es IH]; intros s p Hne Hm; [done|].
  rewrite bt_sum_cons in Hm. unfold split_size at 1 in Hm. simpl in *.
  destruct (Z.leb_spec min (s + (blen k0 + blen v0 + PER_KEY_BYTES + KEYINFO_SIZE)));
    [eauto|].
  apply IH; [|lia]. intros ->. unfold bt_sum in Hm. simpl in Hm. lia.
Qed.

Lemma split_scan_pref es min s p k s' p' :
  split_scan es min s p = Some (k, s', p') → Pref.valid p →
  Forall (λ e, Pref.valid (storage_preference e.2.1)) es → Pref.valid p'.
Proof.
  revert s p; induction es as [|[k0 [ki v0]] es IH]; intros s p; simpl; [done|].
  intros Hr Hp [Hk Hes]%Forall_cons. unfold Pref.upgrade in *. simpl in *.
  case_match; simplify_eq; eauto with haura.
Qed.

(** [split] cuts the entries in two non-empty halves around the pivot. *)
Lemma buf_split_wf b t min max b' rs pk lpk d :
  buf_wf b t → is_leaf b = true →
  buf_split b min max = Some (b', (rs, pk, lpk), d) →
  ∃ l r, t = l ++ r ∧ l ≠ [] ∧ r ≠ [] ∧ (∃ v, last l = Some (pk, v)) ∧
    lpk = LpkRight pk ∧
    buf_wf b' l ∧ is_leaf b' = true ∧ buffer b' = Unpacked l ∧
    buf_wf rs r ∧ is_leaf rs = true ∧ buffer rs = Unpacked r ∧
    entries_size rs = bt_sum split_size r ∧
    entries_size b' + entries_size rs = entries_size b ∧
    min ≤ entries_size rs.
Proof.
  intros Hwf Hl Hsp. pose proof (wf_unpacked _ _ Hwf) as [d0 Hu].
  destruct Hwf as [Hc Hs Hprefs Hmp Hspr Hsz Hms].
  unfold buf_split in Hsp. rewrite Hu in Hsp.
  destruct (max <? buf_size b); [|done].
  destruct (2 <? map_len (buffer b)); [|done]. cbn in Hsp.
  destruct (split_scan (rev t) min 0 Pref.NONE) as [[[k sz] pr]|] eqn:Hscan; [|done].
  cbn in Hsp. pose proof (split_scan_pref _ _ _ _ _ _ _ Hscan) as Hpr.
  apply split_scan_Some in Hscan as (a&v&c&Hrev&->&Hmin&_).
  apply (f_equal (@rev _)) in Hrev. rewrite rev_involutive, rev_app_distr in Hrev.
  simpl in Hrev. rewrite <- app_assoc in Hrev. simpl in Hrev.
  remember (rev c) as l eqn:Hl0. remember ((k, v) :: rev a) as r eqn:Hr0.
  assert (bt_sum split_size r = 0 + bt_sum split_size a + split_size k v) as Hsum.
  { rewrite Hr0, bt_sum_cons, bt_sum_rev. lia. }
  rewrite <- Hsum in Hsp, Hmin. subst t.
  pose proof Hs as (Hsl&Hsr&Hlr)%bt_sorted_app_inv.
  assert (bt_split_off k (l ++ r) = (l, r)) as Hoff.
  { apply bt_split_off_app.
    - intros e He. apply (Hlr e (k, v)); [done|]. rewrite Hr0. set_solver.
    - intros e He. rewrite Hr0 in He, Hsr. apply elem_of_cons in He as [->|He]; [by right|].
      left. apply bt_sorted_cons in Hsr as [_ Hall]. rewrite Forall_forall in Hall. auto. }
  injection Hoff as Hf1 Hf2. rewrite Hf1, Hf2 in Hsp.
  destruct (usub (entries_size b) (bt_sum split_size r)) as [n|] eqn:Hn; [|done].
  cbn in Hsp. apply usub_inv in Hn as [-> Hle].
  destruct (last l) as [[pk' v']|] eqn:Hlast; [|done]. cbn in Hsp.
  injection Hsp as <- <- <- <- <-.
  apply Forall_app in Hprefs as [Hpl Hpr'].
  unfold size_inv in Hsz. rewrite Hl, bt_sum_app in Hsz.
  exists l, r. split_and!; simpl; auto; try done; try lia.
  - intros E. by rewrite E in Hlast.
  - by rewrite Hr0.
  - eauto.
  - split; simpl; auto with haura.
    + by left.
    + unfold size_inv. simpl. rewrite Hl. lia.
    + congruence.
  - split; simpl; auto with haura.
    + right. apply Hpr; [apply Pref.valid_NONE|]. apply Forall_rev, Forall_app. done.
    + unfold size_inv. simpl. rewrite Hl. lia.
    + congruence.
Qed.

(** [split] succeeds on an overfull leaf with more than two entries of which
    all but the first one reach the minimal size. *)
Lemma buf_split_total b t min max :
  buf_wf b t → is_leaf b = true → buffer b = Unpacked t → max < buf_size b →
  (2 < length t)%nat → min ≤ bt_sum split_size (drop 1 t) →
  is_Some (buf_split b min max).
Proof.
  intros Hwf Hl Hbuf Hmax Hlen Hmin. destruct Hwf as [Hc Hs Hprefs Hmp Hspr Hsz Hms].
  unfold buf_split. rewrite (proj2 (Z.ltb_lt _ _) Hmax), Hbuf. simpl.
  assert (2 <? Z.of_nat (length t) = true) as -> by (apply Z.ltb_lt; lia).
  destruct t as [|e0 t]; [simpl in Hlen; lia|]. simpl drop in Hmin. rewrite drop_0 in Hmin.
  destruct e0 as [k0 v0]. pose proof (split_size_pos k0 v0).
  destruct (split_scan_total (rev ((k0, v0) :: t)) min 0 Pref.NONE) as [[[k sz] pr] Hscan].
  { simpl. by destruct (rev t). }
  { rewrite bt_sum_rev, bt_sum_cons. lia. }
  rewrite Hscan. cbn. apply split_scan_Some in Hscan as (a&v&c&Hrev&->&_&Ha).
  (* the scan stops before the first entry *)
  assert (∃ c', c = c' ++ [(k0, v0)] ∧ t = rev (a ++ (k, v) :: c')) as (c'&->&Ht).
  { destruct c as [|e c] using rev_ind.
    - exfalso. simpl in Hrev. apply app_inj_tail in Hrev as [<- _].
      rewrite bt_sum_rev in Ha. destruct t; [simpl in Hlen; lia|].
      assert (rev (p :: t) ≠ []) as Hne by (simpl; by destruct (rev t)).
      apply Ha in Hne. lia.
    - clear IHc. exists c. rewrite app_comm_cons, app_assoc in Hrev. simpl in Hrev.
      apply app_inj_tail in Hrev as [<- <-]. by rewrite rev_involutive. }
  rewrite usub_Some.
  2: { unfold size_inv in Hsz. rewrite Hl, Ht, bt_sum_cons, bt_sum_rev, bt_sum_app,
         bt_sum_cons in Hsz. pose proof (bt_sum_nonneg _ c' split_size_pos). lia. }
  cbn. apply bt_sorted_cons in Hs as [_ Hall].
  assert (bltb k0 k = true) as Hlt.
  { rewrite Forall_forall in Hall. specialize (Hall (k, v)).
    destruct (bltb_spec k0 k) as [L|L]; [done|]. exfalso.
    assert (k0 <ᵇ k) by (apply Hall; rewrite Ht, rev_app_distr; simpl; set_solver).
    border. }
  rewrite Hlt. destruct (last _) as [[pk v']|] eqn:E; [by eexists|].
  by apply last_None in E.
Qed.

(** *** Refilling a leaf from its right sibling *)
Lemma buf_rebalance_size_wf b1 t1 b2 t2 min max b1' b2' r :
  buf_wf b1 t1 → buf_wf b2 t2 → is_leaf b1 = true → is_leaf b2 = true →
  bt_sorted (t1 ++ t2) →
  buf_rebalance_size b1 b2 min max = Some (b1', b2', r) →
  is_leaf b1' = true ∧
  match r with
  | Merged _ => buf_wf b1' (t1 ++ t2) ∧ buf_size b1' ≤ max
  | Rebalanced pk _ =>
      ∃ l r, t1 ++ t2 = l ++ r ∧ l ≠ [] ∧ r ≠ [] ∧ (∃ v, last l = Some (pk, v)) ∧
        buf_wf b1' l ∧ buf_wf b2' r ∧ is_leaf b2' = true
  end.
Proof.
  intros Hwf1 Hwf2 Hl1 Hl2 Hs Hr.
  destruct (buf_append_wf b1 t1 b2 t2) as (a1&a2&d&Ha&Hwf&Hl&Hu&Hes&->);
    [done|done|congruence| |].
  { intros k Hk. apply bt_get_None. intros Hin. apply bt_sorted_app_inv in Hs as (_&_&Hlt).
    destruct (bt_get k t2) as [v|] eqn:E; [|done]. apply bt_get_In in E.
    apply list_elem_of_fmap in Hin as ([k' v']&->&Hin). specialize (Hlt _ _ Hin E).
    simpl in Hlt. border. }
  rewrite bt_append_app in * by done. unfold buf_rebalance_size in Hr.
  rewrite Ha in Hr. cbn in Hr.
  destruct (Z.leb_spec (buf_size a1) max) as [Hle|Hgt].
  - injection Hr as <- <- <-. by rewrite Hl.
  - destruct (buf_split a1 min max) as [[[b [[rs pk] lpk]] d']|] eqn:Hsp; [|done].
    cbn in Hr. injection Hr as <- <- <-.
    apply (buf_split_wf _ (t1 ++ t2)) in Hsp as (l&r&?&?&?&?&_&?&?&_&?&?&_); [|done|congruence].
    split; [done|]. by exists l, r.
Qed.

End buffer_theory.

(** ** Properties *)

Section buffer_properties.
Context `{Checksum} `{MessageActionLaws}.

(** C14: inserting a message into a message buffer never panics and composes
    with what the buffer already holds.  Afterwards the buffer's effect on
    the message's key is the old effect followed by the new message, every
    other key's effect is unchanged, the invariant holds again, and the
    reported size is exactly the header plus the packed size of each
    entry. *)
Theorem message_insert_effect b t k ki msg :
  buf_wf b t → is_leaf b = false → ma_valid msg → Pref.valid (storage_preference ki) →
  ∃ b' t' d, buf_insert b k ki msg = Some (b', d) ∧ buf_wf b' t' ∧ is_leaf b' = false ∧
    (∀ k' d0, msg_eff t' k' d0 =
      if beqb k' k then (d1 ← msg_eff t k d0; ma_apply k msg d1) else msg_eff t k' d0) ∧
    buf_size b' = HEADER + bt_sum entry_size t'.
Proof.
  intros Hwf Hl Hv Hp.
  destruct (buf_insert_msg b t k ki msg) as (b'&t'&d&Hi&_&Hwf'&Hl'&He&_); [done..|].
  exists b', t', d. split_and!; [done..|]. unfold buf_size.
  pose proof (wf_size _ _ Hwf') as Hsz. unfold size_inv in Hsz. rewrite Hl' in Hsz. lia.
Qed.

(** Flushing a message buffer into a leaf never panics and leaves every
    key with exactly the value its message produces from the value the leaf
    had; keys without a message keep their entry. *)
Theorem leaf_flush_effect ms b t :
  buf_wf b t → is_leaf b = true → msgs_wf ms →
  ∃ b' t' d, buf_insert_msg_buffer b ms = Some (b', d) ∧ buf_wf b' t' ∧
    is_leaf b' = true ∧
    (∀ k, msg_eff ms k (leaf_val t k) = Some (leaf_val t' k)) ∧
    (∀ k, bt_get k ms = None → bt_get k t' = bt_get k t).
Proof. apply insert_msgs_leaf. Qed.

(** Splitting an overfull leaf cuts its entries in two non-empty runs, the
    pivot is the last key that stays, the right run reaches the minimal size,
    and no size is lost between the two halves.  The split happens (no panic)
    whenever the leaf has more than two entries and all but the first one
    reach the minimal size. *)
Theorem leaf_split_partition b t min max :
  buf_wf b t → is_leaf b = true → buffer b = Unpacked t → max < buf_size b →
  (2 < length t)%nat → min ≤ bt_sum split_size (drop 1 t) →
  ∃ b' rs pk d l r, buf_split b min max = Some (b', (rs, pk, LpkRight pk), d) ∧
    t = l ++ r ∧ l ≠ [] ∧ r ≠ [] ∧ (∃ v, last l = Some (pk, v)) ∧
    buf_wf b' l ∧ buf_wf rs r ∧ min ≤ entries_size rs ∧
    entries_size b' + entries_size rs = entries_size b.
Proof.
  intros Hwf Hl Hu Hmax Hlen Hmin.
  destruct (buf_split_total b t min max) as [[[b' [[rs pk] lpk]] d] Hsp]; [done..|].
  pose proof Hsp as Hsp'.
  apply (buf_split_wf b t) in Hsp' as (l&r&?&?&?&?&->&?&_&_&?&_&_&_&?&?); [|done..].
  by exists b', rs, pk, d, l, r.
Qed.

(** Moving the pivot between two neighbouring message buffers loses
    nothing: after [rebalance] the left buffer holds exactly the messages of
    both with keys up to the new pivot, the right one exactly those behind
    it, so every key's effect is the one it had. *)
Theorem buffer_rebalance_partition b1 t1 b2 t2 pivot :
  buf_wf b1 t1 → buf_wf b2 t2 → is_leaf b1 = false → is_leaf b2 = false →
  disjoint_keys t1 t2 →
  ∃ b1' b2' l r, buf_rebalance b1 b2 pivot = Some (b1', b2') ∧
    buf_wf b1' l ∧ buf_wf b2' r ∧
    ∀ k, bt_get k l = (if bleb k pivot then bt_get k (bt_append t1 t2) else None) ∧
         bt_get k r = (if bleb k pivot then None else bt_get k (bt_append t1 t2)).
Proof.
  intros. destruct (buf_rebalance_wf b1 t1 b2 t2 pivot) as (b1'&b2'&?&?&_&?&_); [done..|].
  eexists b1', b2', _, _. split_and!; [done..|].
  intros k. rewrite !bt_get_filter. by destruct (bleb k pivot).
Qed.

(** Deleting a key from a leaf does not give its size back.  When the
    message removes an existing entry, [insert] returns early: the entry is
    gone but [entries_size] is what it was. *)
Theorem leaf_delete_keeps_size b t k ki msg v :
  buf_wf b t → is_leaf b = true → bt_get k t = Some v →
  ma_apply k msg (Some v.2) = Some None →
  ∃ b' d, buf_insert b k ki msg = Some (b', d) ∧
    buffer b' = Unpacked (bt_remove k t) ∧ buf_size b' = buf_size b.
Proof.
  intros Hwf Hl Hk Ha. pose proof (wf_unpacked _ _ Hwf) as [d0 Hu].
  unfold buf_insert. simpl. rewrite Hu. simpl. rewrite Hk, Hl.
  destruct v as [vi vm]. simpl in *. rewrite Ha. simpl. by eexists _, _.
Qed.

(** The sibling that [split] produces reports eight bytes (the size of a
    checksum) less per entry than its packed form takes. *)
Theorem split_miscounts b t min max b' rs pk lpk d :
  buf_wf b t → is_leaf b = true →
  buf_split b min max = Some (b', (rs, pk, lpk), d) →
  ∃ r, buffer rs = Unpacked r ∧ r ≠ [] ∧
    buf_size rs + CSUM_SIZE * Z.of_nat (length r) = HEADER + bt_sum entry_size r.
Proof.
  intros Hwf Hl Hsp.
  apply (buf_split_wf b t) in Hsp as (l&r&?&?&?&?&_&?&_&_&?&_&Hr&Hes&_&_); [|done..].
  exists r. split_and!; [done..|]. unfold buf_size. rewrite Hes.
  enough (bt_sum split_size r + CSUM_SIZE * Z.of_nat (length r) = bt_sum entry_size r) by lia.
  clear. induction r as [|[k v] r IH]; [done|].
  rewrite !bt_sum_cons, <- IH. unfold split_size at 1, entry_size at 1. simpl length.
  unfold PER_KEY_BYTES. lia.
Qed.

End buffer_properties.

(** *** Witnesses *)

Module BufferExamples.
Import PolyHash.

Definition info : KeyInfo := mkKeyInfo Pref.FAST.
Definition put (v : bytes) : bytes := Content.build_overwrite_msg (Some v).
Definition del : bytes := Content.build_overwrite_msg None.
Definition key (b : byte) : bytes := [b].

(** A message buffer and a leaf filled through [insert]. *)
Definition fill (leaf : bool) (ms : btree) : option (PackedChildBuffer * Z) :=
  buf_insert_msg_buffer (buf_new leaf) ms.

Definition puts : btree :=
  [(key Byte.x01, (info, put [Byte.x0a])); (key Byte.x02, (info, put [Byte.x0b]));
   (key Byte.x03, (info, put [Byte.x0c]))].

Definition vals : btree :=
  [(key Byte.x01, (info, [Byte.x0a])); (key Byte.x02, (info, [Byte.x0b]));
   (key Byte.x03, (info, [Byte.x0c]))].

Definition leaf3 : PackedChildBuffer :=
  default (buf_new true) (fst <$> fill true puts).
Definition msgs3 : PackedChildBuffer :=
  default (buf_new false) (fst <$> fill false puts).

Lemma put_valid v : ma_valid (put v).
Proof. left. by eexists. Qed.

Lemma info_valid : Pref.valid (storage_preference info).
Proof. by apply Pref.validb_spec. Qed.

Lemma puts_wf : msgs_wf puts.
Proof.
  split_and!.
  - repeat (constructor; try done).
  - do 3 (constructor; [apply put_valid|]). constructor.
  - do 3 (constructor; [apply info_valid|]). constructor.
Qed.

Lemma leaf3_wf : buf_wf leaf3 vals.
Proof.
  split.
  - by vm_compute.
  - repeat (constructor; try done).
  - do 3 (constructor; [apply info_valid|]). constructor.
  - right. by apply Pref.validb_spec.
  - by apply Pref.validb_spec.
  - by vm_compute.
  - done.
  - done.
  - done.
  - done.
  - done.
Qed.

Lemma msgs3_wf : buf_wf msgs3 puts.
Proof.
  split.
  - by vm_compute.
  - apply puts_wf.
  - apply puts_wf.
  - right. by apply Pref.validb_spec.
  - by apply Pref.validb_spec.
  - by vm_compute.
  - intros _. apply puts_wf.
  - done.
  - done.
  - done.
  - done.
Qed.

(** A delete over an existing put. *)
Lemma message_insert_effect_witness :
  ∃ b' t' d, buf_insert msgs3 (key Byte.x02) info del = Some (b', d) ∧ buf_wf b' t' ∧
    msg_eff t' (key Byte.x02) (Some [Byte.x33]) = Some None.
Proof.
  destruct (message_insert_effect msgs3 puts (key Byte.x02) info del)
    as (b'&t'&d&?&?&_&He&_).
  - apply msgs3_wf.
  - reflexivity.
  - left. by eexists.
  - apply info_valid.
  - exists b', t', d. split_and!; [done..|]. rewrite He. by vm_compute.
Defined.

Lemma leaf_flush_effect_witness :
  ∃ b' t' d, buf_insert_msg_buffer leaf3 puts = Some (b', d) ∧ buf_wf b' t' ∧
    leaf_val t' (key Byte.x01) = Some [Byte.x0a].
Proof.
  destruct (leaf_flush_effect puts leaf3 vals) as (b'&t'&d&?&?&_&He&_).
  - apply leaf3_wf.
  - reflexivity.
  - apply puts_wf.
  - exists b', t', d. split_and!; [done..|]. specialize (He (key Byte.x01)).
    vm_compute in He. by injection He.
Defined.

Lemma leaf_split_partition_witness :
  ∃ b' rs pk d, buf_split leaf3 30 40 = Some (b', (rs, pk, LpkRight pk), d) ∧
    entries_size b' + entries_size rs = 81.
Proof.
  destruct (leaf_split_partition leaf3 vals 30 40)
    as (b'&rs&pk&d&l&r&?&_&_&_&_&_&_&_&?).
  - apply leaf3_wf.
  - reflexivity.
  - reflexivity.
  - by vm_compute.
  - simpl. lia.
  - by vm_compute.
  - by exists b', rs, pk, d.
Defined.

Lemma buffer_rebalance_partition_witness :
  ∃ b1 b2, buf_rebalance msgs3 (buf_new false) (key Byte.x01) = Some (b1, b2) ∧
    entries_size b1 = 28 ∧ entries_size b2 = 56.
Proof.
  destruct (buffer_rebalance_partition msgs3 puts (buf_new false) [] (key Byte.x01))
    as (b1&b2&l&r&Hr&_).
  - apply msgs3_wf.
  - apply buf_new_wf.
  - reflexivity.
  - reflexivity.
  - intros k Hk. done.
  - exists b1, b2. split; [done|]. vm_compute in Hr. by injection Hr as <- <-.
Defined.

Lemma leaf_delete_keeps_size_witness :
  ∃ b' d, buf_insert leaf3 (key Byte.x02) info del = Some (b', d) ∧
    buf_size b' = buf_size leaf3.
Proof.
  destruct (leaf_delete_keeps_size leaf3 vals (key Byte.x02) info del (info, [Byte.x0b]))
    as (b'&d&?&_&?).
  - apply leaf3_wf.
  - reflexivity.
  - reflexivity.
  - reflexivity.
  - by exists b', d.
Defined.

Lemma split_miscounts_witness :
  ∃ b' rs pk lpk d r, buf_split leaf3 30 40 = Some (b', (rs, pk, lpk), d) ∧
    buffer rs = Unpacked r ∧
    buf_size rs + CSUM_SIZE * Z.of_nat (length r) = HEADER + bt_sum entry_size r.
Proof.
  destruct (buf_split leaf3 30 40) as [[[b' [[rs pk] lpk]] d]|] eqn:E; [|done].
  destruct (split_miscounts leaf3 vals 30 40 b' rs pk lpk d) as (r&?&_&?).
  - apply leaf3_wf.
  - reflexivity.
  - exact E.
  - by exists b', rs, pk, lpk, d, r.
Defined.

End BufferExamples.
