(* ===== verification/PackedFormat.v ===== *)
(** * The packed form of a buffer
      (betree/src/tree/imp/internal/packed_child_buffer.rs)

    What [pack] writes, and that every reader of the packed bytes
    ([Map::unpacked], [Map::find] and [Map::get] by binary search, the
    iterator) sees exactly the entries that were packed.  [packed_as] is the
    contract between the two sides: the readers are proved against it and the
    writer establishes it. *)

From Stdlib Require Import ZArith Lia.
From stdpp Require Import base option list numbers.
From S2P Require Import Prelude.
From S2P Require Import Bytes.
From S2P Require Import BTreeMap.
From S2P Require Import CowBytes.
From S2P Require Import StoragePref.
From S2P Require Import Message.
From S2P Require Import Checksum.
From S2P Require Import ChildBuffer.

Section format.
Context `{ChecksumLaws}.
Implicit Types (t a c : btree) (d : bytes).

(** ** The contract *)

(** Entry number [i] of the packed bytes [d]: its row of the key table leads
    to the key, which is followed by position, length and checksum of the
    value. *)
Definition entry_at d (i kpos vpos : Z) (e : bytes * (KeyInfo * bytes)) : Prop :=
  let '(k, (ki, v)) := e in
  let kidx := mkKeyIdx kpos (blen k) (Pref.as_u8 (storage_preference ki)) in
  read_key_idx d i = Some kidx ∧
  cut d kpos (blen k) = Some k ∧
  read_val_pos d kidx = Some (vpos, blen v, csum_build v) ∧
  cut d vpos (blen v) = Some v ∧
  kpos + blen k < U32_SIZE ∧ vpos + blen v < U32_SIZE ∧
  Pref.valid (storage_preference ki).

Definition packed_as d t : Prop :=
  ∀ i e, t !! i = Some e → ∃ kpos vpos, entry_at d (Z.of_nat i) kpos vpos e.

(** ** The readers *)

Lemma read_full_entry_at d i kpos vpos e :
  entry_at d i kpos vpos e → read_full_entry d i = Some e.
Proof.
  destruct e as [k [[p] v]]. intros (Hk&Hkey&Hv&Hval&_&Hlen&Hp).
  unfold read_full_entry, read_entry. rewrite Hk. simpl in *.
  rewrite Pref.from_u8_valid by done. simpl. rewrite Hkey. simpl. rewrite Hv. simpl.
  rewrite u32_add_Some by done. simpl.
  replace (vpos + blen v - vpos) with (blen v) by lia. rewrite Hval. simpl.
  by rewrite csum_verify_build.
Qed.

Lemma packed_next_at d i kpos vpos e :
  entry_at d i kpos vpos e → packed_next d i = Some e.
Proof.
  destruct e as [k [[p] v]]. intros (Hk&Hkey&Hv&Hval&Hklen&Hlen&Hp).
  unfold packed_next. rewrite Hk. simpl in *. rewrite u32_add_Some by done. simpl.
  unfold read_val_pos in Hv. simpl in Hv.
  apply bind_Some in Hv as (pb&->&Hv). apply bind_Some in Hv as (lb&->&Hv).
  apply bind_Some in Hv as (cb&_&Hv). apply bind_Some in Hv as (cs&_&Hv).
  simpl. injection Hv as -> -> _. rewrite Hval. simpl. rewrite Hkey. simpl.
  by rewrite Pref.from_u8_valid.
Qed.

Lemma indices_fmap (n : nat) : indices (Z.of_nat n) = Z.of_nat <$> seq 0 n.
Proof. unfold indices. by rewrite Nat2Z.id. Qed.

(** Reading all entries by index gives the list. *)
Lemma mapM_indices (f : Z → option (bytes * (KeyInfo * bytes))) t :
  (∀ i e, t !! i = Some e → f (Z.of_nat i) = Some e) →
  mapM f (indices (Z.of_nat (length t))) = Some t.
Proof.
  intros Hf. rewrite indices_fmap. apply mapM_Some_2.
  apply Forall2_fmap_l, Forall2_same_length_lookup_2; [by rewrite length_seq|].
  intros i x e Hi He. apply lookup_seq in Hi as [-> _]. simpl. by apply Hf.
Qed.

Definition packed_map t (s : SlicedCowBytes) : Map := Packed (Z.of_nat (length t)) s.

Lemma unpacked_packed t s d :
  Sliced.deref s = Some d → packed_as d t → bt_sorted t →
  ∃ n, unpacked (packed_map t s) = Some (t, n).
Proof.
  intros Hd Hp Hs. unfold unpacked, packed_map. rewrite Hd. simpl.
  rewrite mapM_indices.
  2: { intros i e He. destruct (Hp i e He) as (?&?&?). by eapply read_full_entry_at. }
  simpl. rewrite bt_from_iter_sorted by done. eauto.
Qed.

Lemma iter_packed b t s d :
  buffer b = packed_map t s → Sliced.deref s = Some d → packed_as d t →
  get_all_messages b = Some t.
Proof.
  intros Hb Hd Hp. unfold get_all_messages. rewrite Hb. simpl. rewrite Hd. simpl.
  apply mapM_indices. intros i e He. destruct (Hp i e He) as (?&?&?).
  by eapply packed_next_at.
Qed.

(** ** Binary search *)

(** What [find] reports for an entry of the tree. *)
Definition found d (k : bytes) (r : option (Z * Z * Z * csum)) t : Prop :=
  match r with
  | None => bt_get k t = None
  | Some (p, vpos, vlen, c) =>
      ∃ ki v, bt_get k t = Some (ki, v) ∧ p = Pref.as_u8 (storage_preference ki) ∧
        Pref.valid p ∧ vlen = blen v ∧ c = csum_build v ∧ cut d vpos vlen = Some v
  end.

Lemma bt_sorted_lookup_lt t i j ei ej :
  bt_sorted t → t !! i = Some ei → t !! j = Some ej → (i < j)%nat → ei.1 <ᵇ ej.1.
Proof.
  intros Hs Hi Hj Hij. rewrite <- (take_drop j t) in Hs.
  apply bt_sorted_app_inv in Hs as (_&_&Hlt). apply Hlt.
  - apply list_elem_of_lookup. exists i. by rewrite lookup_take_lt.
  - apply list_elem_of_lookup. exists 0%nat. by rewrite lookup_drop, Nat.add_0_r.
Qed.

(** The interval [left..right] always contains the key if the tree has it,
    and it shrinks. *)
Lemma find_loop_spec d t k :
  packed_as d t → bt_sorted t →
  ∀ fuel left right,
    0 ≤ left → right < Z.of_nat (length t) → right - left + 1 < Z.of_nat fuel →
    left ≤ right + 1 →
    (∀ i e, t !! i = Some e → e.1 = k → left ≤ Z.of_nat i ≤ right) →
    ∃ r, find_loop fuel d k left right = Some r ∧ found d k r t.
Proof.
  intros Hp Hs. induction fuel as [|fuel IH]; intros left right Hl Hr Hf Hlr Hin; [lia|].
  cbn [find_loop]. destruct (Z.ltb_spec right left) as [Hdone|Hgo].
  { exists None. split; [done|]. simpl. apply bt_get_None. intros Hk.
    apply list_elem_of_fmap in Hk as (e&->&He). apply list_elem_of_lookup in He as [i He].
    specialize (Hin i e He eq_refl). lia. }
  set (mid := (left + right) / 2 + (left + right) mod 2).
  assert (left ≤ mid ≤ right) as Hmid.
  { subst mid. pose proof (Z.div_mod (left + right) 2 ltac:(lia)).
    pose proof (Z.mod_pos_bound (left + right) 2 ltac:(lia)). lia. }
  destruct (lookup_lt_is_Some_2 t (Z.to_nat mid)) as [e He]; [lia|].
  destruct (Hp _ _ He) as (kpos&vpos&Hat). rewrite Z2Nat.id in Hat by lia.
  destruct e as [k' [ki v]]. destruct Hat as (Hk&Hkey&Hv&Hval&_&_&Hpv).
  rewrite Hk. simpl. rewrite Hkey. simpl.
  destruct (bytes_cmp k k') eqn:Hcmp.
  - apply bytes_cmp_eq in Hcmp as <-. rewrite Hv. simpl. eexists. split; [done|].
    exists ki, v. split_and!; try done.
    apply bt_get_Some; [done|]. by apply list_elem_of_lookup_2 in He.
  - assert (k <ᵇ k') as Hlt by done.
    apply IH; try lia. intros i e Hi Hek. specialize (Hin i e Hi Hek).
    enough (Z.of_nat i ≠ mid ∧ ¬ mid < Z.of_nat i) by lia. split; intros Hc.
    + assert (i = Z.to_nat mid) as -> by lia. simplify_eq/=. border.
    + pose proof (bt_sorted_lookup_lt _ _ _ _ _ Hs He Hi ltac:(lia)). simpl in *.
      subst. border.
  - assert (k' <ᵇ k) as Hlt by (unfold blt; by rewrite bytes_cmp_antisym, Hcmp).
    apply IH; try lia. intros i e Hi Hek. specialize (Hin i e Hi Hek).
    enough (Z.of_nat i ≠ mid ∧ ¬ Z.of_nat i < mid) by lia. split; intros Hc.
    + assert (i = Z.to_nat mid) as -> by lia. simplify_eq/=. border.
    + pose proof (bt_sorted_lookup_lt _ _ _ _ _ Hs Hi He ltac:(lia)). simpl in *.
      subst. border.
Qed.

Lemma find_packed t s d k :
  Sliced.deref s = Some d → packed_as d t → bt_sorted t →
  ∃ r, find (packed_map t s) k = Some r ∧ found d k r t.
Proof.
  intros Hd Hp Hs. unfold find, packed_map. rewrite Hd. cbn [mbind option_bind].
  apply (find_loop_spec d t); try done; try lia.
  intros i e Hi _. apply lookup_lt_Some in Hi. lia.
Qed.

Lemma map_get_packed t s d k :
  Sliced.deref s = Some d → packed_as d t → bt_sorted t →
  map_get (packed_map t s) k = Some (bt_get k t).
Proof.
  intros Hd Hp Hs. destruct (find_packed t s d k Hd Hp Hs) as (r & Hf & Hr).
  unfold map_get, packed_map. unfold packed_map in Hf. rewrite Hf. simpl.
  destruct r as [[[[p vpos] vlen] cs]|]; simpl in *; [|by rewrite Hr].
  destruct Hr as ([p']&v&Hg&->&Hv&->&->&Hc). rewrite Hd. simpl. rewrite Hc. simpl.
  rewrite csum_verify_build, Pref.from_u8_valid by done. simpl. by rewrite Hg.
Qed.

Lemma map_is_empty_packed t s d k :
  Sliced.deref s = Some d → packed_as d t → bt_sorted t →
  map_is_empty (packed_map t s) k = Some (bool_decide (bt_get k t = None)).
Proof.
  intros Hd Hp Hs. destruct (find_packed t s d k Hd Hp Hs) as (r & Hf & Hr).
  unfold map_is_empty, packed_map. unfold packed_map in Hf. rewrite Hf. simpl. f_equal.
  apply bool_decide_ext. rewrite <- eq_None_not_Some.
  destruct r as [[[[p vpos] vlen] cs]|]; simpl in *; [|done].
  by destruct Hr as (?&?&->&_).
Qed.

(** ** The writer *)

(** Space the keys take (each with position, length and checksum of its
    value), and the values. *)
Definition keys_len t : Z := bt_sum (λ k _, blen k + (4 + 4 + CSUM_SIZE)) t.
Definition vals_len t : Z := bt_sum (λ _ v, blen v.2) t.

Lemma keys_len_cons k v t : keys_len ((k, v) :: t) = blen k + 16 + keys_len t.
Proof. unfold keys_len. rewrite bt_sum_cons. unfold CSUM_SIZE. lia. Qed.
Lemma keys_len_app a c : keys_len (a ++ c) = keys_len a + keys_len c.
Proof. apply bt_sum_app. Qed.
Lemma keys_len_nonneg t : 0 ≤ keys_len t.
Proof. apply bt_sum_nonneg. intros k v. unfold CSUM_SIZE. pose proof (blen_nonneg k). lia. Qed.
Lemma vals_len_cons k v t : vals_len ((k, v) :: t) = blen v.2 + vals_len t.
Proof. unfold vals_len. by rewrite bt_sum_cons. Qed.
Lemma vals_len_app a c : vals_len (a ++ c) = vals_len a + vals_len c.
Proof. apply bt_sum_app. Qed.
Lemma vals_len_nonneg t : 0 ≤ vals_len t.
Proof. apply bt_sum_nonneg. intros k v. apply blen_nonneg. Qed.

(** The packed form is as long as the entry sizes say. *)
Lemma entries_layout t :
  bt_sum entry_size t = KEY_IDX_SIZE * Z.of_nat (length t) + keys_len t + vals_len t.
Proof.
  induction t as [|[k v] t IH]; [done|].
  rewrite bt_sum_cons, IH, keys_len_cons, vals_len_cons. unfold entry_size.
  unfold KEYINFO_SIZE, CSUM_SIZE, KEY_IDX_SIZE. simpl length. lia.
Qed.

(** One row of the key table. *)
Definition key_row (k : bytes) (ki : KeyInfo) (pos : Z) : bytes :=
  le32 pos ++ le32 (blen k) ++ [to_u8 (Pref.as_u8 (storage_preference ki))].

Lemma blen_key_row k ki pos : blen (key_row k ki pos) = KEY_IDX_SIZE.
Proof. unfold key_row. autorewrite with blen. done. Qed.

Lemma pack_key_table_cons k ki v t f :
  pack_key_table ((k, (ki, v)) :: t) f =
    (key_row k ki f ++ (pack_key_table t (f + (blen k + 16))).1,
     (pack_key_table t (f + (blen k + 16))).2).
Proof.
  cbn [pack_key_table].
  replace (blen k + 4 + 4 + CSUM_SIZE) with (blen k + 16) by (unfold CSUM_SIZE; lia).
  destruct (pack_key_table t (f + (blen k + 16))). unfold key_row.
  by rewrite <- !app_assoc.
Qed.

Lemma pack_key_table_app a c f :
  pack_key_table (a ++ c) f =
    ((pack_key_table a f).1 ++ (pack_key_table c (f + keys_len a)).1,
     f + keys_len (a ++ c)).
Proof.
  revert f; induction a as [|[k [ki v]] a IH]; intros f.
  - simpl. rewrite Z.add_0_r.
    revert f; induction c as [|[k [ki v]] c IH]; intros f.
    + simpl. by rewrite Z.add_0_r.
    + rewrite pack_key_table_cons, IH, keys_len_cons. cbn [fst snd]. f_equal. lia.
  - rewrite <- app_comm_cons, !pack_key_table_cons, IH, !keys_len_cons. cbn [fst snd].
    by rewrite <- app_assoc, !Z.add_assoc.
Qed.

Lemma blen_key_table t f :
  blen (pack_key_table t f).1 = KEY_IDX_SIZE * Z.of_nat (length t).
Proof.
  revert f; induction t as [|[k [ki v]] t IH]; intros f; [done|].
  rewrite pack_key_table_cons. cbn [fst]. rewrite blen_app, IH, blen_key_row.
  simpl length. unfold KEY_IDX_SIZE. lia.
Qed.

(** A key with the location of its value. *)
Definition key_cell (k v : bytes) (pos : Z) : bytes :=
  k ++ le32 pos ++ le32 (blen v) ++ csum_ser (csum_build v).

Lemma blen_key_cell k v pos : blen (key_cell k v pos) = blen k + 16.
Proof.
  unfold key_cell. autorewrite with blen. rewrite csum_ser_length.
  unfold CSUM_SIZE. lia.
Qed.

Lemma pack_keys_cons k ki v t f :
  pack_keys csum_build ((k, (ki, v)) :: t) f =
    key_cell k v f ++ pack_keys csum_build t (f + blen v).
Proof. cbn [pack_keys]. unfold key_cell. by rewrite <- !app_assoc. Qed.

Lemma pack_keys_app a c f :
  pack_keys csum_build (a ++ c) f =
    pack_keys csum_build a f ++ pack_keys csum_build c (f + vals_len a).
Proof.
  revert f; induction a as [|[k [ki v]] a IH]; intros f.
  - simpl. by rewrite Z.add_0_r.
  - rewrite <- app_comm_cons, !pack_keys_cons, IH, vals_len_cons, <- app_assoc.
    cbn [snd]. by rewrite !Z.add_assoc.
Qed.

Lemma blen_pack_keys t f : blen (pack_keys csum_build t f) = keys_len t.
Proof.
  revert f; induction t as [|[k [ki v]] t IH]; intros f; [done|].
  rewrite pack_keys_cons, blen_app, IH, blen_key_cell, keys_len_cons. lia.
Qed.

Lemma pack_values_app a c : pack_values (a ++ c) = pack_values a ++ pack_values c.
Proof. unfold pack_values. by rewrite fmap_app, concat_app. Qed.

Lemma blen_pack_values t : blen (pack_values t) = vals_len t.
Proof.
  induction t as [|[k v] t IH]; [done|].
  change (pack_values ((k, v) :: t)) with (v.2 ++ pack_values t).
  rewrite blen_app, IH, vals_len_cons. lia.
Qed.

(** Header, key table, keys and values, followed by anything. *)
Definition image (head : bytes) t (pad : bytes) : bytes :=
  let f := HEADER + Z.of_nat (length t) * KEY_IDX_SIZE in
  head ++ (pack_key_table t f).1 ++ pack_keys csum_build t (f + keys_len t) ++
  pack_values t ++ pad.

(** The parts of the image around one entry. *)
Lemma image_split head a k ki v c pad :
  let t := a ++ (k, (ki, v)) :: c in
  let f := HEADER + Z.of_nat (length t) * KEY_IDX_SIZE in
  image head t pad =
    head ++
    ((pack_key_table a f).1 ++ key_row k ki (f + keys_len a) ++
       (pack_key_table c (f + keys_len a + (blen k + 16))).1) ++
    (pack_keys csum_build a (f + keys_len t) ++
       key_cell k v (f + keys_len t + vals_len a) ++
       pack_keys csum_build c (f + keys_len t + vals_len a + blen v)) ++
    (pack_values a ++ v ++ pack_values c) ++ pad.
Proof.
  intros t f. unfold image. fold f. unfold t at 1 2 4.
  rewrite pack_key_table_app, pack_keys_app, pack_values_app. cbn [fst].
  rewrite pack_key_table_cons, pack_keys_cons. cbn [fst]. done.
Qed.

Lemma KeyIdx_unpack_row k ki pos :
  0 ≤ pos < U32_SIZE → blen k < U32_SIZE → Pref.valid (storage_preference ki) →
  KeyIdx_unpack (key_row k ki pos) =
    Some (mkKeyIdx pos (blen k) (Pref.as_u8 (storage_preference ki))).
Proof.
  intros Hp Hk Hv. unfold KeyIdx_unpack, key_row. pose proof (blen_nonneg k).
  rewrite (cut_at _ [] (le32 pos) _ 0 4) by done.
  rewrite (cut_at _ (le32 pos) (le32 (blen k)) _ 4 4) by done.
  rewrite (cut_at _ (le32 pos ++ le32 (blen k))
    [to_u8 (Pref.as_u8 (storage_preference ki))] [] 8 1)
    by (rewrite <- ?app_assoc; done).
  cbn [mbind option_bind]. 
  by rewrite !of_le_le32, of_le_u8 by (done || by apply Pref.valid_byte).
Qed.

Lemma read_val_pos_cell d x k v pos z p :
  d = x ++ key_cell k v pos ++ z → 0 ≤ pos < U32_SIZE → blen v < U32_SIZE →
  read_val_pos d (mkKeyIdx (blen x) (blen k) p) = Some (pos, blen v, csum_build v).
Proof.
  intros -> Hp Hv. unfold read_val_pos, key_cell. cbn [ki_pos ki_len]. pose proof (blen_nonneg v).
  rewrite (cut_at _ (x ++ k) (le32 pos) (le32 (blen v) ++ csum_ser (csum_build v) ++ z)
    (blen x + blen k) 4) by (rewrite ?blen_app, <- ?app_assoc; done).
  rewrite (cut_at _ (x ++ k ++ le32 pos) (le32 (blen v)) (csum_ser (csum_build v) ++ z)
    (blen x + blen k + 4) 4) by (autorewrite with blen; rewrite <- ?app_assoc; done || lia).
  rewrite (cut_at _ (x ++ k ++ le32 pos ++ le32 (blen v)) (csum_ser (csum_build v)) z
    (blen x + blen k + 4 + 4) CSUM_SIZE)
    by (autorewrite with blen; rewrite <- ?app_assoc, ?csum_ser_length; done || lia).
  cbn [mbind option_bind]. rewrite csum_de_ser. cbn [mbind option_bind].
  by rewrite !of_le_le32.
Qed.

(** An entry can be read in an image cut into its parts. *)
Lemma entry_at_parts d head T1 T2 K1 K2 V1 V2 pad k ki v kpos vpos i :
  d = head ++ (T1 ++ key_row k ki kpos ++ T2) ++ (K1 ++ key_cell k v vpos ++ K2) ++
        (V1 ++ v ++ V2) ++ pad →
  blen head = HEADER → blen T1 = KEY_IDX_SIZE * i →
  kpos = blen head + blen T1 + KEY_IDX_SIZE + blen T2 + blen K1 →
  vpos = kpos + (blen k + 16) + blen K2 + blen V1 →
  vpos + blen v < U32_SIZE → Pref.valid (storage_preference ki) →
  entry_at d i kpos vpos (k, (ki, v)).
Proof.
  intros Hd Hh HT1 Hk Hv Hlen Hp.
  pose proof (blen_nonneg T1). pose proof (blen_nonneg T2). pose proof (blen_nonneg K1).
  pose proof (blen_nonneg K2). pose proof (blen_nonneg V1). pose proof (blen_nonneg k).
  pose proof (blen_nonneg v).
  assert (0 ≤ kpos ∧ 0 ≤ vpos) as [Hk0 Hv0].
  { unfold HEADER, IS_LEAF_HEADER, KEY_IDX_SIZE in *. lia. }
  set (x := head ++ T1 ++ key_row k ki kpos ++ T2 ++ K1).
  assert (blen x = kpos) as Hx.
  { unfold x. rewrite !blen_app, blen_key_row. lia. }
  assert (d = x ++ key_cell k v vpos ++ (K2 ++ V1 ++ v ++ V2 ++ pad)) as Hdx.
  { unfold x. rewrite Hd, <- !app_assoc. done. }
  split_and!; try done; try lia.
  - unfold read_key_idx.
    rewrite (cut_at d (head ++ T1) (key_row k ki kpos)
      (T2 ++ (K1 ++ key_cell k v vpos ++ K2) ++ (V1 ++ v ++ V2) ++ pad)).
    + cbn [mbind option_bind]. apply KeyIdx_unpack_row; [lia|lia|done].
    + by rewrite Hd, <- !app_assoc.
    + rewrite blen_app. lia.
    + by rewrite blen_key_row.
  - apply (cut_at d x k (le32 vpos ++ le32 (blen v) ++ csum_ser (csum_build v) ++
      K2 ++ V1 ++ v ++ V2 ++ pad)); [|done|done].
    rewrite Hdx. unfold key_cell. by rewrite <- !app_assoc.
  - rewrite <- Hx. apply (read_val_pos_cell d x k v vpos _ _ Hdx); lia.
  - apply (cut_at d (x ++ key_cell k v vpos ++ K2 ++ V1) v (V2 ++ pad)); [| |done].
    + by rewrite Hdx, <- !app_assoc.
    + rewrite !blen_app, blen_key_cell. lia.
Qed.

(** Where the writer puts an entry. *)
Lemma image_entry head a k ki v c pad :
  let t := a ++ (k, (ki, v)) :: c in
  let f := HEADER + Z.of_nat (length t) * KEY_IDX_SIZE in
  blen head = HEADER → Pref.valid (storage_preference ki) →
  HEADER + bt_sum entry_size t < U32_SIZE →
  entry_at (image head t pad) (Z.of_nat (length a)) (f + keys_len a)
    (f + keys_len t + vals_len a) (k, (ki, v)).
Proof.
  intros t f Hh Hpv Hlen. rewrite entries_layout in Hlen. subst t f.
  eapply entry_at_parts; [apply image_split|done|..|done];
    rewrite ?blen_key_table, ?blen_pack_keys, ?blen_pack_values;
    rewrite ?keys_len_app, ?keys_len_cons, ?vals_len_app, ?vals_len_cons,
      ?length_app, ?length_cons in *; rewrite ?Hh;
    cbn [snd] in *; unfold KEY_IDX_SIZE in *.
  - lia.
  - lia.
  - lia.
  - pose proof (vals_len_nonneg c). lia.
Qed.

(** The writer establishes the contract. *)
Lemma image_packed head t pad :
  blen head = HEADER → Forall (λ e, Pref.valid (storage_preference e.2.1)) t →
  HEADER + bt_sum entry_size t < U32_SIZE → packed_as (image head t pad) t.
Proof.
  intros Hh Hprefs Hlen i [k [ki v]] Hi.
  assert (Pref.valid (storage_preference ki)) as Hpv.
  { rewrite Forall_forall in Hprefs. by apply list_elem_of_lookup_2, Hprefs in Hi. }
  pose proof (lookup_lt_Some _ _ _ Hi) as Hil. apply take_drop_middle in Hi.
  assert (length (take i t) = i) as Hla by (rewrite length_take; lia).
  replace (Z.of_nat i) with (Z.of_nat (length (take i t))) by (by rewrite Hla).
  remember (take i t) as a eqn:Ea. remember (drop (S i) t) as c eqn:Ec. clear Ea Ec.
  subst t. eexists _, _. by apply image_entry.
Qed.

(** ** [pack] and [unpack] *)

Definition pack_head (b : PackedChildBuffer) t : bytes :=
  [to_u8 (if is_leaf b then 1 else 0)] ++ le32 (Z.of_nat (length t)) ++
  le32 (entries_size b) ++ [to_u8 (Pref.as_u8 (system_storage_preference b))].

Lemma blen_pack_head b t : blen (pack_head b t) = HEADER.
Proof. unfold pack_head. autorewrite with blen. done. Qed.

(** The part the node's checksum covers: everything up to the values. *)
Definition checked_part (b : PackedChildBuffer) t : bytes :=
  let f := HEADER + Z.of_nat (length t) * KEY_IDX_SIZE in
  pack_head b t ++ (pack_key_table t f).1 ++ pack_keys csum_build t (f + keys_len t).

Lemma blen_checked_part b t :
  blen (checked_part b t) = HEADER + Z.of_nat (length t) * KEY_IDX_SIZE + keys_len t.
Proof.
  unfold checked_part. rewrite !blen_app, blen_pack_head, blen_key_table, blen_pack_keys.
  lia.
Qed.

Lemma image_checked b t pad :
  image (pack_head b t) t pad = checked_part b t ++ pack_values t ++ pad.
Proof. unfold image, checked_part. by rewrite <- !app_assoc. Qed.

Lemma blen_image b t pad :
  blen (image (pack_head b t) t pad) = HEADER + bt_sum entry_size t + blen pad.
Proof.
  rewrite image_checked, !blen_app, blen_checked_part, blen_pack_values, entries_layout.
  lia.
Qed.

Lemma buf_pack_image b t :
  buffer b = Unpacked t → Pref.valid (system_storage_preference b) →
  buf_pack b csum_build =
    Some (image (pack_head b t) t [],
          Internal (csum_build (checked_part b t)) (wrap32 (blen (checked_part b t)))).
Proof.
  intros Hb Hp. unfold buf_pack. rewrite Hb. unfold SysPref.strong_bound.
  rewrite Pref.from_u8_valid by done. cbn [mbind option_bind].
  fold (pack_head b t).
  pose proof (pack_key_table_app t [] (HEADER + Z.of_nat (length t) * KEY_IDX_SIZE)) as Ht.
  rewrite app_nil_r in Ht. rewrite Ht. cbn [pack_key_table fst].
  rewrite app_nil_r. fold (checked_part b t).
  by rewrite image_checked, app_nil_r.
Qed.

(** What [unpack] makes of a packed buffer. *)
Definition reread (b : PackedChildBuffer) t (s : SlicedCowBytes) : PackedChildBuffer :=
  mkBuf (system_storage_preference b) (system_storage_preference b) (entries_size b)
    (packed_map t s) (is_leaf b).

Lemma length_bound t : Z.of_nat (length t) ≤ bt_sum entry_size t.
Proof.
  rewrite entries_layout. pose proof (keys_len_nonneg t). pose proof (vals_len_nonneg t).
  unfold KEY_IDX_SIZE. lia.
Qed.

Lemma checked_len_bound b t :
  HEADER + bt_sum entry_size t < U32_SIZE →
  wrap32 (blen (checked_part b t)) = blen (checked_part b t).
Proof.
  intros Hlen. apply Z.mod_small. split; [apply blen_nonneg|].
  rewrite blen_checked_part. rewrite entries_layout in Hlen.
  pose proof (vals_len_nonneg t). unfold U32_SIZE in *. lia.
Qed.

Lemma buf_unpack_image b t s pad :
  Sliced.deref s = Some (image (pack_head b t) t pad) →
  Pref.valid (system_storage_preference b) → HEADER + bt_sum entry_size t < U32_SIZE →
  0 ≤ entries_size b < U32_SIZE →
  buf_unpack s (Internal (csum_build (checked_part b t)) (wrap32 (blen (checked_part b t)))) =
    Some (Some (reread b t s)).
Proof.
  intros Hs Hp Hlen Hes. rewrite checked_len_bound by done.
  pose proof (length_bound t). unfold HEADER, IS_LEAF_HEADER in Hlen.
  unfold buf_unpack. rewrite Hs, image_checked. cbn [mbind option_bind].
  remember (checked_part b t ++ pack_values t ++ pad) as d eqn:Hd.
  set (leaf := to_u8 (if is_leaf b then 1 else 0)).
  set (pref := to_u8 (Pref.as_u8 (system_storage_preference b))).
  set (n := le32 (Z.of_nat (length t))). set (es := le32 (entries_size b)).
  assert (∃ rest, d = [leaf] ++ n ++ es ++ [pref] ++ rest) as [rest Hr].
  { eexists. rewrite Hd. unfold checked_part, pack_head. rewrite <- !app_assoc. done. }
  assert (at_ d 0 = Some leaf) as -> by by rewrite Hr.
  rewrite (cut_at d [leaf] n (es ++ [pref] ++ rest) IS_LEAF_HEADER 4) by done.
  rewrite (cut_at d ([leaf] ++ n) es ([pref] ++ rest) (IS_LEAF_HEADER + 4) 4) by done.
  rewrite (cut_at d ([leaf] ++ n ++ es) [pref] rest (IS_LEAF_HEADER + 8) 1) by done.
  cbn [mbind option_bind integrity_checksum integrity_length].
  rewrite (cut_at d [] (checked_part b t) (pack_values t ++ pad) 0) by done.
  cbn [mbind option_bind]. rewrite csum_verify_build. subst n es pref leaf.
  rewrite !of_le_le32, of_le_u8 by (done || lia || by apply Pref.valid_byte).
  rewrite Pref.from_u8_valid by done. cbn [mbind option_bind]. unfold reread, packed_map.
  by destruct (is_leaf b).
Qed.

(** *** Packing a buffer that is still packed *)

Lemma len_checked_image b t s pad :
  Sliced.deref s = Some (image (pack_head b t) t pad) →
  Forall (λ e, Pref.valid (storage_preference e.2.1)) t →
  HEADER + bt_sum entry_size t < U32_SIZE →
  len_bytes_contained_in_checksum (packed_map t s) = Some (blen (checked_part b t)).
Proof.
  intros Hs Hprefs Hlen. rewrite blen_checked_part. unfold packed_map.
  cbn [len_bytes_contained_in_checksum].
  destruct t as [|[k [ki v]] a _] using rev_ind; [done|].
  apply Forall_app in Hprefs as [_ [Hki _]%Forall_cons].
  rewrite Hs, length_app. simpl length. cbn [mbind option_bind].
  destruct (Z.ltb_spec (Z.of_nat (length a + 1)) 1) as [?|_]; [lia|].
  replace (Z.max 0 (Z.of_nat (length a + 1) - 1)) with (Z.of_nat (length a)) by lia.
  destruct (image_entry (pack_head b (a ++ [(k, (ki, v))])) a k ki v [] pad) as (->&_);
    [apply blen_pack_head|done|done|].
  cbn [mbind option_bind ki_pos ki_len]. rewrite keys_len_app, keys_len_cons, length_app.
  simpl length. f_equal. unfold CSUM_SIZE, keys_len at 3, bt_sum. simpl. lia.
Qed.

Lemma buf_repack b t s pad :
  Sliced.deref s = Some (image (pack_head b t) t pad) →
  Forall (λ e, Pref.valid (storage_preference e.2.1)) t →
  HEADER + bt_sum entry_size t < U32_SIZE →
  0 ≤ entries_size b ≤ bt_sum entry_size t →
  buf_pack (reread b t s) csum_build =
    Some (take (Z.to_nat (buf_size b)) (image (pack_head b t) t []),
          Internal (csum_build (checked_part b t)) (wrap32 (blen (checked_part b t)))).
Proof.
  intros Hs Hprefs Hlen Hes. unfold buf_pack, reread. cbn [buffer].
  rewrite (len_checked_image b t s pad) by done. unfold packed_map. rewrite Hs.
  cbn [mbind option_bind].
  assert (cut (image (pack_head b t) t pad) 0 (buf_size b) =
          Some (take (Z.to_nat (buf_size b)) (image (pack_head b t) t []))) as Hcut.
  { unfold cut. pose proof (blen_image b t []) as Hi0. pose proof (blen_image b t pad) as Hi.
    pose proof (blen_nonneg pad). unfold buf_size, HEADER, IS_LEAF_HEADER in *.
    rewrite blen_nil in Hi0.
    zbool; try lia. cbn [andb]. change (Z.to_nat 0) with 0%nat. rewrite drop_0. f_equal.
    assert (image (pack_head b t) t pad = image (pack_head b t) t [] ++ pad) as ->.
    { by rewrite !image_checked, app_nil_r, <- app_assoc. }
    apply take_app_le. unfold blen in Hi0. lia. }
  unfold buf_size in Hcut |- *. cbn [entries_size]. rewrite Hcut. cbn [mbind option_bind].
  by rewrite (cut_at _ [] (checked_part b t) (pack_values t ++ pad) 0)
    by (done || apply image_checked).
Qed.

End format.

(** ** Properties *)

Section format_properties.
Context `{ChecksumLaws} `{MessageActionLaws}.

(** A buffer in the form of a packed image is well-formed. *)
Lemma reread_wf b t s d :
  buf_wf b t → Sliced.deref s = Some d → packed_as d t → buf_wf (reread b t s) t.
Proof.
  intros [Hc Hso Hprefs Hmp Hsp Hsz Hms] Hs Hpk.
  destruct (unpacked_packed t s d Hs Hpk Hso) as [n Hu].
  split; cbn [buffer reread messages_preference system_storage_preference]; try done.
  - by rewrite Hu.
  - by right.
  - intros k. by eapply map_get_packed.
  - by eapply iter_packed.
  - simpl. apply negb_true_iff, Z.eqb_neq. unfold Pref.valid, Pref.NONE, U8_MAX in *. lia.
Qed.

(** C11: what [pack] writes, [unpack] reads.  For a well-formed unpacked buffer
    below 4 GiB, [pack] returns, its output is header, key table, keys and
    values, as long as the entries' sizes say, and [unpack] of the output (in a slice that may be padded behind it)
    passes the checksum and gives a buffer with the same entries, size and
    leaf flag, in which the zero-copy lookup, the emptiness test and the
    iterator all agree with the entries that were packed. *)
Theorem pack_unpack_roundtrip b t :
  buf_wf b t → buffer b = Unpacked t →
  HEADER + bt_sum entry_size t < U32_SIZE → entries_size b < U32_SIZE →
  ∃ out im, buf_pack b csum_build = Some (out, im) ∧
    out = image (pack_head b t) t [] ∧ blen out = HEADER + bt_sum entry_size t ∧
    ∀ s pad, Sliced.deref s = Some (out ++ pad) →
    ∃ b', buf_unpack s im = Some (Some b') ∧ buf_wf b' t ∧
      is_leaf b' = is_leaf b ∧ entries_size b' = entries_size b ∧
      (∀ k, buf_get b' k = Some (bt_get k t)) ∧
      (∀ k, buf_is_empty b' k = Some (bool_decide (bt_get k t = None))) ∧
      get_all_messages b' = Some t.
Proof.
  intros Hwf Hb Hlen Hes. pose proof (size_inv_nonneg _ _ (wf_size _ _ Hwf)).
  rewrite (buf_pack_image b t Hb (wf_sys_pref _ _ Hwf)). eexists _, _. split; [done|].
  split; [done|]. split. { rewrite blen_image, blen_nil. lia. }
  intros s pad Hs.
  assert (Sliced.deref s = Some (image (pack_head b t) t pad)) as Hs'.
  { by rewrite Hs, !image_checked, app_nil_r, <- app_assoc. }
  pose proof (image_packed (pack_head b t) t pad (blen_pack_head b t)
    (wf_prefs _ _ Hwf) Hlen) as Hpk.
  pose proof (wf_sorted _ _ Hwf) as Hso.
  exists (reread b t s). split_and!; try done.
  - apply (buf_unpack_image b t s pad); [done|apply Hwf|done|lia].
  - by eapply reread_wf.
  - intros k. by eapply map_get_packed.
  - intros k. by eapply map_is_empty_packed.
  - by eapply iter_packed.
Qed.

(** Binary search over a packed key table terminates within its fuel and
    finds exactly the entry of the key, or nothing when there is none. *)
Theorem find_is_lookup t s d k :
  Sliced.deref s = Some d → packed_as d t → bt_sorted t →
  ∃ r, find (packed_map t s) k = Some r ∧ found d k r t.
Proof. apply find_packed. Qed.

(** A buffer that is written back without having been unpacked is cut to
    its recorded size.  The bytes are reproduced exactly when that size is
    the packed size; a leaf whose size is short (as after a split) loses the
    end of its values, while the checksum over the head stays the same. *)
Theorem repack_cuts_to_size b t :
  buf_wf b t → buffer b = Unpacked t →
  HEADER + bt_sum entry_size t < U32_SIZE → entries_size b ≤ bt_sum entry_size t →
  ∃ out im, buf_pack b csum_build = Some (out, im) ∧ out = image (pack_head b t) t [] ∧
    ∀ s pad, Sliced.deref s = Some (out ++ pad) →
    ∃ b' out', buf_unpack s im = Some (Some b') ∧
      buf_pack b' csum_build = Some (out', im) ∧
      out' = take (Z.to_nat (buf_size b)) out ∧
      blen out - blen out' = bt_sum entry_size t - entries_size b ∧
      (out' = out ↔ entries_size b = bt_sum entry_size t).
Proof.
  intros Hwf Hb Hlen Hes. pose proof (size_inv_nonneg _ _ (wf_size _ _ Hwf)).
  rewrite (buf_pack_image b t Hb (wf_sys_pref _ _ Hwf)). eexists _, _. split; [done|]. split; [done|].
  intros s pad Hs.
  assert (Sliced.deref s = Some (image (pack_head b t) t pad)) as Hs'.
  { by rewrite Hs, !image_checked, app_nil_r, <- app_assoc. }
  pose proof (blen_image b t []) as Hi. rewrite blen_nil in Hi.
  assert (blen (take (Z.to_nat (buf_size b)) (image (pack_head b t) t [])) =
          HEADER + entries_size b) as Hn.
  { unfold blen, buf_size, HEADER, IS_LEAF_HEADER in *. rewrite length_take. lia. }
  exists (reread b t s), (take (Z.to_nat (buf_size b)) (image (pack_head b t) t [])).
  split_and!; [| |done|lia|].
  - apply (buf_unpack_image b t s pad); [done|apply Hwf|done|].
    unfold HEADER, IS_LEAF_HEADER in *. lia.
  - apply (buf_repack b t s pad); [done|apply Hwf|done|lia].
  - split.
    + intros E. apply (f_equal blen) in E. lia.
    + intros E. apply take_ge. unfold blen, buf_size, HEADER, IS_LEAF_HEADER in *. lia.
Qed.

End format_properties.

(** *** Witnesses *)

Module FormatExamples.
Import PolyHash BufferExamples.

Lemma pack_unpack_roundtrip_witness :
  ∃ out im b', buf_pack leaf3 csum_build = Some (out, im) ∧
    buf_unpack (Sliced.from (mkCow (out ++ [zero; zero]))) im = Some (Some b') ∧
    buf_get b' (key Byte.x02) = Some (Some (info, [Byte.x0b])).
Proof.
  destruct (pack_unpack_roundtrip leaf3 vals) as (out&im&Hp&_&_&Hu).
  - apply leaf3_wf.
  - reflexivity.
  - by vm_compute.
  - by vm_compute.
  - destruct (Hu (Sliced.from (mkCow (out ++ [zero; zero]))) [zero; zero])
      as (b'&Hb'&_&_&_&Hg&_).
    + vm_compute in Hp. injection Hp as <- _. by vm_compute.
    + exists out, im, b'. split_and!; [done..|]. rewrite Hg. by vm_compute.
Defined.

Definition packed_leaf3 : bytes := image (pack_head leaf3 vals) vals [].

Lemma find_is_lookup_witness :
  ∃ r, find (packed_map vals (Sliced.from (mkCow packed_leaf3))) (key Byte.x04) = Some r ∧
    r = None.
Proof.
  destruct (find_is_lookup vals (Sliced.from (mkCow packed_leaf3)) packed_leaf3
    (key Byte.x04)) as (r&Hf&_).
  - by vm_compute.
  - apply image_packed; [by vm_compute|apply leaf3_wf|by vm_compute].
  - apply leaf3_wf.
  - exists r. split; [done|]. vm_compute in Hf. by injection Hf.
Defined.

(** The right half of a split, packed, read and packed again. *)
Lemma repack_cuts_to_size_witness :
  ∃ rs r out im, buffer rs = Unpacked r ∧
    (∃ b' pk lpk d, buf_split leaf3 30 40 = Some (b', (rs, pk, lpk), d)) ∧
    buf_pack rs csum_build = Some (out, im) ∧
    ∃ b' out', buf_unpack (Sliced.from (mkCow out)) im = Some (Some b') ∧
      buf_pack b' csum_build = Some (out', im) ∧ blen out - blen out' = 16.
Proof.
  destruct (buf_split leaf3 30 40) as [[[b' [[rs pk] lpk]] d]|] eqn:E; [|done].
  pose proof E as E'.
  apply (buf_split_wf leaf3 vals) in E' as (l&r&Ht&_&_&_&_&_&_&_&Hwf&_&Hr&Hes&_);
    [|apply leaf3_wf|done].
  exists rs, r. vm_compute in E. injection E as <- <- <- <- <-.
  simpl in Hr. injection Hr as <-.
  match goal with |- context [buf_pack ?x _] => set (rs := x) in * end.
  destruct (repack_cuts_to_size rs _ Hwf) as (out&im&Hp&_&Hu).
  - reflexivity.
  - by vm_compute.
  - by vm_compute.
  - exists out, im. split_and!; [done|by eexists _, _, _, _|done|].
    destruct (Hu (Sliced.from (mkCow out)) []) as (b2&out'&?&?&_&Hd&_).
    + vm_compute in Hp. injection Hp as <- _. by vm_compute.
    + exists b2, out'. split_and!; [done..|]. rewrite Hd. by vm_compute.
Defined.

End FormatExamples.
