(* ===== verification/Pivots.v ===== *)
(** * Pivots and key ranges

    The search among the pivots of an internal node
    (betree/src/tree/imp/internal/copyless_internal.rs, [idx]) and the key
    range each child covers: child [i] holds the keys greater than pivot
    [i - 1] and up to pivot [i]; [None] is the missing bound at either end. *)

From Stdlib Require Import ZArith Lia Sorted.
From stdpp Require Import base option list numbers sorting.
From S2P Require Import Prelude.
From S2P Require Import Bytes.

(** The position [binary_search_by] returns on a strictly sorted slice,
    found or not: the number of pivots below the key. *)
Fixpoint pivot_idx (ps : list bytes) (key : bytes) : nat :=
  match ps with
  | [] => 0
  | p :: ps => if bltb p key then S (pivot_idx ps key) else 0
  end.

(** ** Ranges *)

Definition in_range (lo hi : option bytes) (k : bytes) : Prop :=
  (∀ l, lo = Some l → l <ᵇ k) ∧ (∀ h, hi = Some h → k ≤ᵇ h).

(** The range is not empty. *)
Definition range_ok (lo hi : option bytes) : Prop :=
  ∀ l h, lo = Some l → hi = Some h → l <ᵇ h.

(** The ranges of the children of a node that covers [lo..hi]. *)
Fixpoint ranges (lo : option bytes) (ps : list bytes) (hi : option bytes) :
    list (option bytes * option bytes) :=
  match ps with
  | [] => [(lo, hi)]
  | p :: ps => (lo, Some p) :: ranges (Some p) ps hi
  end.

Lemma in_range_alt lo hi k :
  in_range lo hi k ↔
    match lo with Some l => l <ᵇ k | None => True end ∧
    match hi with Some h => k ≤ᵇ h | None => True end.
Proof.
  unfold in_range. destruct lo, hi; split; intros [H1 H2]; split; auto;
    by intros ? [= <-].
Qed.

Lemma in_range_all k : in_range None None k.
Proof. done. Qed.

Lemma in_range_split lo hi p k :
  in_range lo hi k → if bleb k p then in_range lo (Some p) k else in_range (Some p) hi k.
Proof.
  intros [H1 H2]. unfold in_range. bbool; split; auto; intros ? [= <-]; done.
Qed.

Lemma in_range_sub_l lo hi p k :
  range_ok lo (Some p) → in_range (Some p) hi k → in_range lo hi k.
Proof.
  intros Hr [H1 H2]. split; [|done]. intros l Hl. specialize (H1 p eq_refl).
  specialize (Hr l p Hl eq_refl). border.
Qed.

Lemma in_range_sub_r lo hi p k :
  range_ok (Some p) hi → in_range lo (Some p) k → in_range lo hi k.
Proof.
  intros Hr [H1 H2]. split; [done|]. intros h Hh. specialize (H2 p eq_refl).
  specialize (Hr p h eq_refl Hh). border.
Qed.

Lemma range_ok_of_keys lo hi k1 k2 :
  in_range lo hi k1 → in_range lo hi k2 → k1 <ᵇ k2 →
  range_ok lo (Some k1) ∧ range_ok (Some k1) hi.
Proof.
  intros [H1 _] [_ H2] Hlt. split.
  - intros l h Hl [= <-]. by apply H1.
  - intros l h [= <-] Hh. specialize (H2 h Hh). border.
Qed.

(** ** Sorted pivots *)

Lemma StronglySorted_adjacent (ps : list bytes) :
  (∀ i p q, ps !! i = Some p → ps !! S i = Some q → p <ᵇ q) → StronglySorted blt ps.
Proof.
  intros Hadj. apply Sorted_StronglySorted; [exact blt_trans|].
  induction ps as [|p ps IH]; constructor.
  - apply IH. intros i. apply (Hadj (S i)).
  - destruct ps as [|q ps]; constructor. by apply (Hadj 0%nat p q).
Qed.

Lemma StronglySorted_lookup (ps : list bytes) i j p q :
  StronglySorted blt ps → ps !! i = Some p → ps !! j = Some q → (i < j)%nat → p <ᵇ q.
Proof.
  intros Hs. revert i j. induction Hs as [|x ps Hs IH Hall]; intros i j; [done|].
  destruct i as [|i], j as [|j]; simpl; intros Hi Hj Hij; try lia.
  - injection Hi as <-. rewrite Forall_forall in Hall. apply Hall.
    by apply list_elem_of_lookup_2 in Hj.
  - eapply IH; eauto. lia.
Qed.

Lemma pivot_idx_le ps k : (pivot_idx ps k ≤ length ps)%nat.
Proof. induction ps as [|p ps IH]; simpl; [done|]. case_match; lia. Qed.

(** Exactly the pivots in front of the position are below the key. *)
Lemma pivot_idx_spec ps k i p :
  StronglySorted blt ps → ps !! i = Some p → p <ᵇ k ↔ (i < pivot_idx ps k)%nat.
Proof.
  intros Hs. revert i. induction Hs as [|x ps Hs IH Hall]; intros i; [done|].
  intros Hi. simpl. destruct (bltb_spec x k) as [Hx|Hx].
  - destruct i as [|i]; simpl in Hi.
    + injection Hi as <-. split; [lia|done].
    + rewrite IH by done. lia.
  - split; [|lia]. intros Hp. exfalso. destruct i as [|i]; simpl in Hi.
    + injection Hi as <-. border.
    + rewrite Forall_forall in Hall. apply list_elem_of_lookup_2, Hall in Hi. border.
Qed.

(** ** The ranges of the children *)

Section ranges.
Implicit Types (ps : list bytes) (lo hi : option bytes).

Lemma length_ranges lo ps hi : length (ranges lo ps hi) = S (length ps).
Proof. revert lo; induction ps as [|p ps IH]; intros lo; simpl; [done|]. by rewrite IH. Qed.

(** A node cut at pivot [p]. *)
Lemma ranges_app lo ps1 p ps2 hi :
  ranges lo (ps1 ++ p :: ps2) hi = ranges lo ps1 (Some p) ++ ranges (Some p) ps2 hi.
Proof. revert lo; induction ps1 as [|q ps1 IH]; intros lo; simpl; [done|]. by rewrite IH. Qed.

(** A new pivot cuts the range of child [j] in two. *)
Lemma ranges_insert lo ps hi j a b p :
  ranges lo ps hi !! j = Some (a, b) →
  ranges lo (take j ps ++ p :: drop j ps) hi =
    take j (ranges lo ps hi) ++ (a, Some p) :: (Some p, b) :: drop (S j) (ranges lo ps hi).
Proof.
  revert lo j; induction ps as [|q ps IH]; intros lo [|j]; simpl; intros Hj; simplify_eq.
  - done.
  - done.
  - by rewrite (IH (Some q) j Hj).
Qed.

(** Removing pivot [j] joins the ranges of its two children. *)
Lemma ranges_remove lo ps hi j a b c d :
  ranges lo ps hi !! j = Some (a, b) → ranges lo ps hi !! S j = Some (c, d) →
  ranges lo (take j ps ++ drop (S j) ps) hi =
    take j (ranges lo ps hi) ++ (a, d) :: drop (S (S j)) (ranges lo ps hi).
Proof.
  revert lo j; induction ps as [|q ps IH]; intros lo [|j]; intros Hj Hj'; try done.
  - simpl in *. simplify_eq. destruct ps as [|r ps]; simpl in *; simplify_eq; done.
  - simpl in Hj, Hj'. cbn [take drop app ranges]. by rewrite (IH (Some q) j Hj Hj').
Qed.

(** Moving pivot [j] moves the border between its two children. *)
Lemma ranges_set lo ps hi j a b c d p :
  ranges lo ps hi !! j = Some (a, b) → ranges lo ps hi !! S j = Some (c, d) →
  ranges lo (<[j := p]> ps) hi =
    take j (ranges lo ps hi) ++ (a, Some p) :: (Some p, d) :: drop (S (S j)) (ranges lo ps hi).
Proof.
  revert lo j; induction ps as [|q ps IH]; intros lo [|j]; intros Hj Hj'; try done.
  - simpl in *. simplify_eq. destruct ps as [|r ps]; simpl in *; simplify_eq; done.
  - simpl in Hj, Hj'. change (<[S j := p]> (q :: ps)) with (q :: <[j := p]> ps).
    cbn [take drop app ranges]. by rewrite (IH (Some q) j Hj Hj').
Qed.

(** Neighbours share their border. *)
Lemma ranges_adjacent lo ps hi j a b c d :
  ranges lo ps hi !! j = Some (a, b) → ranges lo ps hi !! S j = Some (c, d) →
  ∃ p, ps !! j = Some p ∧ b = Some p ∧ c = Some p.
Proof.
  revert lo j; induction ps as [|q ps IH]; intros lo [|j]; intros Hj Hj'; try done.
  - simpl in *. simplify_eq. destruct ps as [|r ps]; simpl in *; simplify_eq; eauto.
  - simpl in Hj, Hj' |- *. by apply (IH (Some q)).
Qed.

(** Non-empty ranges make a non-empty range. *)
Lemma range_ok_trans lo p hi : range_ok lo (Some p) → range_ok (Some p) hi → range_ok lo hi.
Proof.
  intros H1 H2 l h Hl Hh. eapply blt_trans; [by apply (H1 l p)|by apply (H2 p h)].
Qed.

Lemma ranges_ends lo ps hi :
  Forall (λ r, range_ok r.1 r.2) (ranges lo ps hi) → range_ok lo hi.
Proof.
  revert lo. induction ps as [|p ps IH]; intros lo; simpl;
    intros [Hr Hall]%Forall_cons; [done|]. by apply (range_ok_trans lo p hi), IH.
Qed.

(** Each is a part of it. *)
Lemma ranges_in lo ps hi r k :
  Forall (λ r, range_ok r.1 r.2) (ranges lo ps hi) → r ∈ ranges lo ps hi →
  in_range r.1 r.2 k → in_range lo hi k.
Proof.
  revert lo. induction ps as [|p ps IH]; intros lo Hall Hin Hk; simpl in *.
  - by apply list_elem_of_singleton in Hin as ->.
  - apply Forall_cons in Hall as [Hr Hall]. pose proof (ranges_ends _ _ _ Hall).
    apply elem_of_cons in Hin as [->|Hin]; [by eapply in_range_sub_r|].
    eapply in_range_sub_l; [done|]. by apply IH.
Qed.

(** Non-empty ranges: the pivots are strictly sorted. *)
Lemma ranges_sorted lo ps hi :
  Forall (λ r, range_ok r.1 r.2) (ranges lo ps hi) → StronglySorted blt ps.
Proof.
  intros Hall. apply StronglySorted_adjacent. intros i p q Hp Hq.
  revert lo i Hall Hp Hq. induction ps as [|x ps IH]; intros lo i; [done|].
  simpl. intros [_ Hall]%Forall_cons Hp Hq. destruct i as [|i]; simpl in *.
  - destruct ps as [|y ps]; simplify_eq/=. apply Forall_cons in Hall as [Hr _].
    by apply Hr.
  - by apply (IH (Some x) i).
Qed.

(** The range the search leads to contains the key. *)
Lemma pivot_idx_range lo ps hi k :
  in_range lo hi k →
  ∃ r, ranges lo ps hi !! pivot_idx ps k = Some r ∧ in_range r.1 r.2 k.
Proof.
  revert lo; induction ps as [|p ps IH]; intros lo Hk; simpl; [by eexists|].
  destruct (bltb_spec p k) as [Hp|Hp]; simpl.
  - apply IH. split; [by intros ? [= <-]|apply Hk].
  - eexists. split; [done|]. split; [apply Hk|]. by intros ? [= <-].
Qed.

(** It is the only one that does. *)
Lemma pivot_idx_unique lo ps hi k i r :
  StronglySorted blt ps → ranges lo ps hi !! i = Some r → in_range r.1 r.2 k →
  pivot_idx ps k = i.
Proof.
  intros Hs. revert lo i. induction Hs as [|p ps Hs IH Hall]; intros lo i; simpl.
  { intros Hi _. destruct i as [|[|i]]; done. }
  intros Hi Hk. destruct i as [|i]; simpl in Hi.
  - injection Hi as <-. destruct Hk as [_ Hk]. specialize (Hk p eq_refl).
    destruct (bltb_spec p k); [border|done].
  - assert (p <ᵇ k) as Hp.
    { destruct ps as [|q ps]; simpl in Hi.
      - destruct i; simplify_eq/=. by apply Hk.
      - destruct i as [|i]; simplify_eq/=; [by apply Hk|].
        destruct (ranges (Some q) ps hi !! i) as [[x y]|] eqn:E; simplify_eq/=.
        assert (∃ l, x = Some l ∧ (l = q ∨ l ∈ ps)) as (l&->&Hl).
        { clear -E. revert q i E. induction ps as [|z ps IH]; intros q [|i] E; simplify_eq/=.
          - eauto.
          - eauto.
          - destruct (IH z i E) as (l&->&Hl). exists l. split; [done|]. right. set_solver. }
        specialize (proj1 Hk l eq_refl) as Hlk.
        rewrite Forall_forall in Hall. specialize (Hall l ltac:(set_solver)). border. }
    destruct (bltb_spec p k); [|border]. f_equal. by apply (IH (Some p) i).
Qed.

End ranges.
