(* ===== verification/Internal.v ===== *)
(** * Internal nodes (betree/src/tree/imp/internal/copyless_internal.rs,
      tree/pivot_key.rs)

    An internal node has one more child than pivots; child [i] holds the keys
    greater than pivot [i - 1] and up to pivot [i].  Every child link carries
    the buffer of messages that have not been flushed to the child yet.  This
    file has the node's data and operations, its invariant, and what each
    operation does to the lookup of a key: the link a key leads to, as a
    function of the key, before and after. *)

From Stdlib Require Import ZArith Lia Sorted.
From stdpp Require Import base option list numbers sorting.
From S2P Require Import Prelude.
From S2P Require Import Bytes.
From S2P Require Import BTreeMap.
From S2P Require Import CowBytes.
From S2P Require Import StoragePref.
From S2P Require Import Message.
From S2P Require Import Checksum.
From S2P Require Import ChildBuffer.
From S2P Require Import Pivots.

(** ** Pivot keys *)

Abbreviation DatasetId := Z.

Inductive PivotKey :=
  | PkLeftOuter (p : bytes) (d_id : DatasetId)
  | PkRight (p : bytes) (d_id : DatasetId)
  | PkRoot (d_id : DatasetId).

#[global] Instance PivotKey_eq_dec : EqDecision PivotKey.
Proof. solve_decision. Defined.

Definition pk_d_id (pk : PivotKey) : DatasetId :=
  match pk with PkLeftOuter _ d | PkRight _ d | PkRoot d => d end.

Definition pk_bytes (pk : PivotKey) : option bytes :=
  match pk with PkLeftOuter p _ | PkRight p _ => Some p | PkRoot _ => None end.

Definition pk_is_root (pk : PivotKey) : bool := bool_decide (pk_bytes pk = None).

Definition pk_is_left (pk : PivotKey) : bool :=
  match pk with PkLeftOuter _ _ => true | _ => false end.

Definition pk_is_right (pk : PivotKey) : bool :=
  match pk with PkRight _ _ => true | _ => false end.

(** [LocalPivotKey::to_global] *)
Definition to_global (lpk : LocalPivotKey) (d_id : DatasetId) : PivotKey :=
  match lpk with
  | LpkLeftOuter p => PkLeftOuter p d_id
  | LpkRight p => PkRight p d_id
  | LpkRoot => PkRoot d_id
  end.

(** ** Data *)

(** [ObjectReference] (data_management/mod.rs): what a node needs of the
    references to its children. *)
Class ObjectReference (N : Type) := {
  np_static_size : Z;
  np_index : N → PivotKey;
  np_set_index : PivotKey → N → N;
}.

Definition MIN_FLUSH_RATIO : Z := 16.
Definition MIN_FANOUT : Z := 2.

Definition META_BINCODE_STATIC : Z := 33.
Definition INTERNAL_INTEGRITY_CHECKSUM_SIZE : Z := 8 + 8.

Record InternalNodeMetaData := mkMeta {
  current_size : Z;
  m_level : Z;
  m_system_storage_preference : Z;
  m_pref : Z;
  pivot : list bytes;
  entries_sizes : list Z;
  entries_prefs : list StoragePreference;
}.

Record ChildLink (N : Type) := mkLink { cl_buffer : PackedChildBuffer; cl_ptr : N }.
Arguments mkLink {N} cl_buffer cl_ptr.
Arguments cl_buffer {N} _.
Arguments cl_ptr {N} _.

Record CopylessInternalNode (N : Type) := mkInternal {
  meta_data : InternalNodeMetaData;
  children : list (ChildLink N);
}.
Arguments mkInternal {N} meta_data children.
Arguments meta_data {N} _.
Arguments children {N} _.

(** [InternalNodeLink] *)
Record InternalNodeLink (N : Type) := mkInl {
  inl_ptr : N; inl_buffer : PackedChildBuffer; inl_buffer_size : Z }.
Arguments mkInl {N} inl_ptr inl_buffer inl_buffer_size.
Arguments inl_ptr {N} _.
Arguments inl_buffer {N} _.
Arguments inl_buffer_size {N} _.

Definition set_pivot (m : InternalNodeMetaData) (p : list bytes) : InternalNodeMetaData :=
  mkMeta (current_size m) (m_level m) (m_system_storage_preference m) (m_pref m)
    p (entries_sizes m) (entries_prefs m).
Definition set_entries_sizes (m : InternalNodeMetaData) (e : list Z) : InternalNodeMetaData :=
  mkMeta (current_size m) (m_level m) (m_system_storage_preference m) (m_pref m)
    (pivot m) e (entries_prefs m).
Definition set_entries_prefs (m : InternalNodeMetaData) (e : list StoragePreference) :
    InternalNodeMetaData :=
  mkMeta (current_size m) (m_level m) (m_system_storage_preference m) (m_pref m)
    (pivot m) (entries_sizes m) e.
Definition set_pref (m : InternalNodeMetaData) (p : Z) : InternalNodeMetaData :=
  mkMeta (current_size m) (m_level m) (m_system_storage_preference m) p
    (pivot m) (entries_sizes m) (entries_prefs m).
Definition set_sys_pref (m : InternalNodeMetaData) (p : StoragePreference) :
    InternalNodeMetaData :=
  mkMeta (current_size m) (m_level m) (SysPref.set (m_system_storage_preference m) p)
    (m_pref m) (pivot m) (entries_sizes m) (entries_prefs m).

(** [recalc_size] *)
Definition recalc_size (m : InternalNodeMetaData) : Z :=
  4 + 8 + 1 + 1 + sum_Z ((λ p, 8 + blen p) <$> pivot m)
  + Z.of_nat (length (pivot m)) * 8 + Z.of_nat (length (pivot m)) * 1
  + META_BINCODE_STATIC.

(** [InternalNodeMetaData::invalidate] *)
Definition meta_invalidate (m : InternalNodeMetaData) : InternalNodeMetaData :=
  mkMeta (recalc_size m) (m_level m) (m_system_storage_preference m)
    (AtomicPref.invalidate (m_pref m)) (pivot m) (entries_sizes m) (entries_prefs m).

Inductive PivotGetResult (N : Type) :=
  | PivotTarget (np : option N)
  | PivotNextNode (np : N).
Arguments PivotTarget {N} np.
Arguments PivotNextNode {N} np.

Section internal.
Context {N : Type} `{ObjectReference N} `{Checksum} `{MessageAction}.
Implicit Types (n : CopylessInternalNode N) (m : InternalNodeMetaData).

Definition map_meta (f : InternalNodeMetaData → InternalNodeMetaData) n :
    CopylessInternalNode N := mkInternal (f (meta_data n)) (children n).

(** ** Sizes *)

Definition fanout n : Z := Z.of_nat (length (children n)).

Definition level n : Z := m_level (meta_data n).

(** [<CopylessInternalNode as Size>::size] *)
Definition in_size n : Z :=
  4 + current_size (meta_data n) + 4 + fanout n * np_static_size
  + fanout n * INTERNAL_INTEGRITY_CHECKSUM_SIZE
  + sum_Z (entries_sizes (meta_data n)) + 8.

Definition in_actual_size n : option Z := Some (in_size n).

Definition in_cache_size n : Z :=
  4 + current_size (meta_data n) + 4 + fanout n * np_static_size
  + sum_Z ((λ c, buf_cache_size (cl_buffer c)) <$> children n).

(** [has_too_high_fanout]: the square root is taken of one of the three
    maximal node sizes. *)
Definition has_too_high_fanout n (max_size : Z) : bool :=
  Z.sqrt_up max_size <? sum_Z (blen <$> pivot (meta_data n)).

(** ** Preferences *)

Definition in_current_preference n : option (option StoragePreference) :=
  match AtomicPref.as_option (m_pref (meta_data n)) with
  | None => Some None
  | Some p =>
      r ← SysPref.weak_bound (m_system_storage_preference (meta_data n)) p; Some (Some r)
  end.

(** [recalculate] caches the result. *)
Definition in_recalculate n : StoragePreference * CopylessInternalNode N :=
  let p := foldl Pref.upgrade Pref.NONE (entries_prefs (meta_data n)) in
  (p, map_meta (λ m, set_pref m (AtomicPref.set (m_pref m) p)) n).

Definition in_correct_preference n : option (StoragePreference * CopylessInternalNode N) :=
  c ← in_current_preference n;
  let '(p, n) := match c with Some p => (p, n) | None => in_recalculate n end in
  p ← SysPref.weak_bound (m_system_storage_preference (meta_data n)) p;
  Some (p, n).

Definition in_set_system_storage_preference n (p : StoragePreference) :
    CopylessInternalNode N := map_meta (λ m, set_sys_pref m p) n.

(** ** Construction and lookup *)

Definition link_into (l : InternalNodeLink N) : ChildLink N := mkLink (inl_buffer l) (inl_ptr l).

(** [CopylessInternalNode::new] *)
Definition in_new (left_child right_child : InternalNodeLink N) (pivot_key : bytes)
    (lvl : Z) : CopylessInternalNode N :=
  mkInternal
    (mkMeta (4 + 8 + 1 + 1 + (8 + blen pivot_key) + 1 * 8 + 1 * 1 + META_BINCODE_STATIC)
       lvl (SysPref.from Pref.NONE) AtomicPref.unknown [pivot_key]
       [inl_buffer_size left_child; inl_buffer_size right_child]
       [Pref.NONE; Pref.NONE])
    [link_into left_child; link_into right_child].

Definition idx n (key : bytes) : nat := pivot_idx (pivot (meta_data n)) key.

(** [iter_with_bounds] *)
Definition iter_with_bounds n : list (option bytes * ChildLink N * option bytes) :=
  imap (λ i child,
    (match i with O => None | S i => pivot (meta_data n) !! i end, child,
     pivot (meta_data n) !! i)) (children n).

(** [get]: the child pointer and the message buffered for the key. *)
Definition in_get n (key : bytes) : option (N * option (KeyInfo * bytes)) :=
  child ← children n !! idx n key;
  m ← buf_get (cl_buffer child) key;
  Some (cl_ptr child, m).

(** Position of an exact pivot. *)
Definition find_pivot n (p : bytes) : option nat :=
  fst <$> list_find (λ q, q = p) (pivot (meta_data n)).

(** [pivot_get]: the [debug_assert!] excludes the root's key. *)
Definition in_pivot_get n (pk : PivotKey) : option (PivotGetResult N) :=
  p ← pk_bytes pk;
  match find_pivot n p with
  | None => c ← children n !! idx n p; Some (PivotNextNode (cl_ptr c))
  | Some i =>
      c ← children n !! (if pk_is_left pk then i else S i);
      Some (PivotTarget (Some (cl_ptr c)))
  end.

(** [pivot_get_mut] resolves the index first and then borrows mutably. *)
Definition in_pivot_get_mut n (pk : PivotKey) : option (PivotGetResult N) :=
  p ← pk_bytes pk;
  let '(id, is_target) :=
    match find_pivot n p with None => (idx n p, false) | Some i => (i, true) end in
  match is_target, pk_is_left pk with
  | true, true => c ← children n !! id; Some (PivotTarget (Some (cl_ptr c)))
  | true, false => c ← children n !! S id; Some (PivotTarget (Some (cl_ptr c)))
  | false, _ => c ← children n !! id; Some (PivotNextNode (cl_ptr c))
  end.

(** [apply_with_info]: upgrades the preference recorded for the child. *)
Definition in_apply_with_info n (key : bytes) (pref : StoragePreference) :
    option (CopylessInternalNode N * N) :=
  let i := idx n key in
  c ← children n !! i;
  p ← entries_prefs (meta_data n) !! i;
  ps ← vec_set i (Pref.upgrade p pref) (entries_prefs (meta_data n));
  Some (map_meta (λ m, set_entries_prefs m ps) n, cl_ptr c).

(** [get_range]: the link and the bounds of the child, where it has any. *)
Definition in_get_range n (key : bytes) (left_pivot_key right_pivot_key : option bytes) :
    option (ChildLink N * option bytes * option bytes) :=
  let i := idx n key in
  l ← (match i with
       | O => Some left_pivot_key
       | S j => p ← pivot (meta_data n) !! j; Some (Some p)
       end);
  let r := match pivot (meta_data n) !! i with Some p => Some p | None => right_pivot_key end in
  c ← children n !! i;
  Some (c, l, r).

Definition in_get_next_node n (key : bytes) : option (ChildLink N) :=
  children n !! S (idx n key).

(** ** Updates *)

(** [after_insert_size_delta] *)
Definition after_insert_size_delta n (i : nat) : option (CopylessInternalNode N) :=
  c ← children n !! i;
  es ← vec_set i (buf_size (cl_buffer c)) (entries_sizes (meta_data n));
  Some (map_meta (λ m, set_entries_sizes m es) n).

(** Replace the buffer of a child. *)
Definition set_child_buffer n (i : nat) (b : PackedChildBuffer) : CopylessInternalNode N :=
  mkInternal (meta_data n) (alter (λ c, mkLink b (cl_ptr c)) i (children n)).

(** [drain_children] *)
Definition drain_children n : list (ChildLink N) * CopylessInternalNode N :=
  (children n, mkInternal (meta_invalidate (meta_data n)) []).

(** [split]: the node that stays, the right sibling, the pivot between the
    two and the reported size change. *)
Definition in_split n :
    option (CopylessInternalNode N * (CopylessInternalNode N * bytes * Z * LocalPivotKey)) :=
  let m := meta_data n in
  let split_off_idx := (length (children n) / 2)%nat in
  '(ps, pivot_r) ← vec_split_off split_off_idx (pivot m);
  pivot_key ← last ps;
  let pivot_l := removelast ps in
  '(children_l, children_r) ← vec_split_off split_off_idx (children n);
  children_r ←
    match children_r with
    | first_child :: cs =>
        let ds_id := pk_d_id (np_index (cl_ptr first_child)) in
        p0 ← pivot_r !! 0%nat;
        Some (mkLink (cl_buffer first_child)
                (np_set_index (PkLeftOuter p0 ds_id) (cl_ptr first_child)) :: cs)
    | [] => Some []
    end;
  '(sizes_l, sizes_r) ← vec_split_off split_off_idx (entries_sizes m);
  '(prefs_l, prefs_r) ← vec_split_off split_off_idx (entries_prefs m);
  let entries_size :=
    Z.of_nat (length sizes_r) * 8 + Z.of_nat (length prefs_r)
    + sum_Z ((λ p, 8 + blen p) <$> pivot_r)
    + Z.of_nat (length children_r) * np_static_size + sum_Z sizes_r in
  let size_delta := entries_size + (8 + blen pivot_key) in
  let right_sibling := mkInternal (meta_invalidate
    (mkMeta 0 (m_level m) (m_system_storage_preference m) AtomicPref.unknown
       pivot_r sizes_r prefs_r)) children_r in
  let self := mkInternal (meta_invalidate
    (mkMeta (current_size m) (m_level m) (m_system_storage_preference m) (m_pref m)
       pivot_l sizes_l prefs_l)) children_l in
  assert! MIN_FANOUT <=? fanout self;
  assert! MIN_FANOUT <=? fanout right_sibling;
  Some (self, (right_sibling, pivot_key, - size_delta, LpkRight pivot_key)).

(** [merge]: the right sibling is left without pivots, entries and
    children. *)
Definition in_merge n (right_sibling : CopylessInternalNode N) (old_pivot_key : bytes) :
    CopylessInternalNode N * CopylessInternalNode N * Z :=
  let m := meta_data n in
  let r := meta_data right_sibling in
  let n' := mkInternal (meta_invalidate
    (mkMeta (current_size m) (m_level m) (m_system_storage_preference m) (m_pref m)
       ((pivot m ++ [old_pivot_key]) ++ pivot r)
       (entries_sizes m ++ entries_sizes r) (entries_prefs m ++ entries_prefs r)))
    (children n ++ children right_sibling) in
  let r' := mkInternal
    (mkMeta (current_size r) (m_level r) (m_system_storage_preference r) (m_pref r) [] [] [])
    [] in
  (n', r', in_size n - in_size n').

(** [complete_object_refs]: every child learns its position. *)
Definition complete_object_refs n (d_id : DatasetId) : option (CopylessInternalNode N) :=
  first ← head (pivot (meta_data n));
  let pks := PkLeftOuter first d_id :: ((λ p, PkRight p d_id) <$> pivot (meta_data n)) in
  assert! (length pks <=? length (children n))%nat;
  Some (mkInternal (meta_data n)
    (imap (λ i c, match pks !! i with
                  | Some pk => mkLink (cl_buffer c) (np_set_index pk (cl_ptr c))
                  | None => c
                  end) (children n))).

(** ** Flushing *)

(** [max_by_key] over the buffer sizes: the last maximal one. *)
Fixpoint max_by_key (l : list Z) (i : nat) (best : option (nat * Z)) : option (nat * Z) :=
  match l with
  | [] => best
  | v :: l =>
      max_by_key l (S i)
        (match best with
         | Some (bi, bv) => if bv <=? v then Some (i, v) else Some (bi, bv)
         | None => Some (i, v)
         end)
  end.

(** [try_find_flush_candidate]: [Some None] when the node has to be split. *)
Definition in_try_find_flush_candidate n (min_flush_size max_node_size min_fanout : Z) :
    option (option nat) :=
  '(child_idx, child) ← max_by_key (entries_sizes (meta_data n)) 0 None;
  c ← children n !! child_idx;
  assert! buf_size (cl_buffer c) =? child;
  flush ←
    (if min_flush_size <=? child then
       rest ← usub (in_size n) child;
       Some (((rest <=? max_node_size) || (fanout n <? 2 * min_fanout))
             && negb (has_too_high_fanout n max_node_size))
     else Some false);
  Some (if (flush : bool) then Some child_idx
        else if fanout n <? 2 * min_fanout then Some child_idx
        else None).

(** [TakeChildBuffer::split_child]: the messages behind the pivot move to a
    new link for the sibling. *)
Definition split_child n (child_idx : nat) (sibling_np : N) (pivot_key : bytes)
    (select_right : bool) : option (CopylessInternalNode N * nat * Z) :=
  let before := in_cache_size n in
  c ← children n !! child_idx;
  '(b, sibling) ← buf_split_at (cl_buffer c) pivot_key;
  let n := set_child_buffer n child_idx b in
  let m := meta_data n in
  cs ← vec_insert (S child_idx) (mkLink sibling sibling_np) (children n);
  ps ← vec_insert child_idx pivot_key (pivot m);
  es ← vec_set child_idx (buf_size b) (entries_sizes m);
  es ← vec_insert (S child_idx) (buf_size sibling) es;
  p ← entries_prefs m !! child_idx;
  prefs ← vec_insert (S child_idx) p (entries_prefs m);
  let n := mkInternal
    (mkMeta (current_size m) (m_level m) (m_system_storage_preference m) (m_pref m)
       ps es prefs) cs in
  Some (n, if select_right then S child_idx else child_idx, in_cache_size n - before).

(** [TakeChildBuffer::take_buffer] *)
Definition take_buffer n (child_idx : nat) : option (btree * CopylessInternalNode N * Z) :=
  c ← children n !! child_idx;
  '(t, size_delta, b) ← buf_take (cl_buffer c);
  n ← after_insert_size_delta (set_child_buffer n child_idx b) child_idx;
  Some (t, n, - size_delta).

(** [prepare_merge]: indices of the pivot between the child and the sibling
    it is merged with, and of that sibling. *)
Definition prepare_merge n (child_idx : nat) : option (nat * nat) :=
  assert! 2 <=? fanout n;
  Some (if (child_idx + 1 <? length (children n))%nat
        then (child_idx, child_idx + 1)%nat
        else (child_idx - 1, child_idx - 1)%nat).

Definition is_right_sibling (pm : nat * nat) : bool := negb (pm.1 =? pm.2)%nat.

(** [merge_children]: drops the right link and moves its messages to the
    left one; the pivot key and the dropped pointer. *)
Definition merge_children n (pivot_key_idx : nat) :
    option (CopylessInternalNode N * (bytes * N * Z)) :=
  let m := meta_data n in
  '(right_link, cs) ← vec_remove (S pivot_key_idx) (children n);
  '(pivot_key, ps) ← vec_remove pivot_key_idx (pivot m);
  '(_, prefs) ← vec_remove (S pivot_key_idx) (entries_prefs m);
  '(_, es) ← vec_remove (S pivot_key_idx) (entries_sizes m);
  left_link ← cs !! pivot_key_idx;
  let size_delta := (8 + blen pivot_key) + np_static_size * 2 + 1 + 8 in
  '(b, _, _) ← buf_append (cl_buffer left_link) (cl_buffer right_link);
  es ← vec_set pivot_key_idx (buf_size b) es;
  let n := mkInternal (meta_invalidate
    (mkMeta (current_size m) (m_level m) (m_system_storage_preference m) (m_pref m)
       ps es prefs)) (alter (λ c, mkLink b (cl_ptr c)) pivot_key_idx cs) in
  Some (n, (pivot_key, cl_ptr right_link, - size_delta)).

(** [rebalanced]: moves messages across the new pivot.  Both recorded sizes
    are set to the size of the left buffer. *)
Definition rebalanced n (pivot_key_idx : nat) (new_pivot_key : bytes) :
    option (CopylessInternalNode N * Z) :=
  let m := meta_data n in
  left_link ← children n !! pivot_key_idx;
  right_link ← children n !! S pivot_key_idx;
  '(lb, rb) ← buf_rebalance (cl_buffer left_link) (cl_buffer right_link) new_pivot_key;
  es ← vec_set pivot_key_idx (buf_size lb) (entries_sizes m);
  es ← vec_set (S pivot_key_idx) (buf_size lb) es;
  old_pivot_key ← pivot m !! pivot_key_idx;
  ps ← vec_set pivot_key_idx new_pivot_key (pivot m);
  let n := set_child_buffer (set_child_buffer n pivot_key_idx lb) (S pivot_key_idx) rb in
  Some (map_meta (λ m, set_entries_sizes (set_pivot m ps) es) n,
        (8 + blen new_pivot_key) - (8 + blen old_pivot_key)).

End internal.

(** ** The node as a cover of its key range *)

(** What identifies the object behind a reference. *)
Class ObjectReferenceLaws (N : Type) `{ObjectReference N} := {
  np_id : N → positive;
  np_id_set_index pk x : np_id (np_set_index pk x) = np_id x;
}.

Abbreviation range := (option bytes * option bytes)%type.

(** The contents of a buffer, packed or not. *)
Definition buf_contents `{Checksum} (b : PackedChildBuffer) : btree :=
  default [] (fst <$> unpacked (buffer b)).

Section cover.
Context {N : Type}.
Implicit Types (n : CopylessInternalNode N) (r : range) (c : ChildLink N).

(** The vectors of a node have matching lengths. *)
Record shape_ok n : Prop := {
  so_children : length (children n) = S (length (pivot (meta_data n)));
  so_sizes : length (entries_sizes (meta_data n)) = length (children n);
  so_prefs : length (entries_prefs (meta_data n)) = length (children n);
}.

(** Every child with the range it covers. *)
Definition cover (lo hi : option bytes) n : list (range * ChildLink N) :=
  zip (ranges lo (pivot (meta_data n)) hi) (children n).

Lemma length_cover lo hi n : shape_ok n → length (cover lo hi n) = length (children n).
Proof.
  intros [Hc _ _]. unfold cover. rewrite length_zip_with, length_ranges. lia.
Qed.

Lemma cover_snd lo hi n : shape_ok n → (cover lo hi n).*2 = children n.
Proof.
  intros [Hc _ _]. unfold cover. apply snd_zip. rewrite length_ranges. lia.
Qed.

Lemma cover_fst lo hi n :
  shape_ok n → (cover lo hi n).*1 = ranges lo (pivot (meta_data n)) hi.
Proof.
  intros [Hc _ _]. unfold cover. apply fst_zip. rewrite length_ranges. lia.
Qed.

Lemma cover_lookup lo hi n i r c :
  cover lo hi n !! i = Some (r, c) ↔
    ranges lo (pivot (meta_data n)) hi !! i = Some r ∧ children n !! i = Some c.
Proof.
  unfold cover. rewrite lookup_zip_with. split.
  - intros Hi. destruct (ranges _ _ _ !! i); simplify_eq/=.
    destruct (children n !! i); simplify_eq/=. done.
  - by intros [-> ->].
Qed.

Lemma cover_child lo hi n i c :
  shape_ok n → children n !! i = Some c → ∃ r, cover lo hi n !! i = Some (r, c).
Proof.
  intros Hs Hi. destruct (lookup_lt_is_Some_2 (cover lo hi n) i) as [[r c'] Hc].
  { rewrite length_cover by done. by eapply lookup_lt_Some. }
  exists r. apply cover_lookup in Hc as Hc'. destruct Hc' as [_ Hc']. congruence.
Qed.

(** Non-empty ranges throughout. *)
Definition cover_ok (lo hi : option bytes) n : Prop :=
  shape_ok n ∧ Forall (λ e, range_ok e.1.1 e.1.2) (cover lo hi n).

Lemma cover_sorted lo hi n : cover_ok lo hi n → StronglySorted blt (pivot (meta_data n)).
Proof.
  intros [Hs Hall]. apply (ranges_sorted lo _ hi). rewrite <- (cover_fst lo hi n Hs).
  by apply Forall_fmap.
Qed.

(** The search finds the child whose range contains the key. *)
Lemma cover_find lo hi n k r c :
  cover_ok lo hi n → (r, c) ∈ cover lo hi n → in_range r.1 r.2 k →
  children n !! idx n k = Some c.
Proof.
  intros Hok Hin Hk. apply list_elem_of_lookup in Hin as [i Hi].
  apply cover_lookup in Hi as [Hr Hc]. unfold idx.
  by rewrite (pivot_idx_unique lo _ hi k i r (cover_sorted _ _ _ Hok) Hr Hk).
Qed.

Lemma cover_total lo hi n k :
  cover_ok lo hi n → in_range lo hi k →
  ∃ r c, cover lo hi n !! idx n k = Some (r, c) ∧ in_range r.1 r.2 k.
Proof.
  intros [Hs _] Hk. destruct (pivot_idx_range lo (pivot (meta_data n)) hi k Hk) as (r&Hr&Hrk).
  destruct (lookup_lt_is_Some_2 (children n) (pivot_idx (pivot (meta_data n)) k)) as [c Hc].
  { destruct Hs as [Hc _ _]. pose proof (pivot_idx_le (pivot (meta_data n)) k). lia. }
  exists r, c. split; [|done]. by apply cover_lookup.
Qed.

(** *** Lists cut at a position *)

Lemma zip_cut2 {A B} (l : list A) (l' : list B) j k x1 x2 y1 y2 :
  length l = length l' → (j ≤ length l)%nat →
  zip (take j l ++ x1 :: x2 :: drop k l) (take j l' ++ y1 :: y2 :: drop k l') =
    take j (zip l l') ++ (x1, y1) :: (x2, y2) :: drop k (zip l l').
Proof.
  intros Hl Hj. rewrite zip_with_app by (rewrite !length_take; lia). simpl.
  by rewrite zip_with_take, zip_with_drop.
Qed.

Lemma zip_cut1 {A B} (l : list A) (l' : list B) j k x y :
  length l = length l' → (j ≤ length l)%nat →
  zip (take j l ++ x :: drop k l) (take j l' ++ y :: drop k l') =
    take j (zip l l') ++ (x, y) :: drop k (zip l l').
Proof.
  intros Hl Hj. rewrite zip_with_app by (rewrite !length_take; lia). simpl.
  by rewrite zip_with_take, zip_with_drop.
Qed.

Lemma alter_cut {A} (f : A → A) (l : list A) j x :
  l !! j = Some x → alter f j l = take j l ++ f x :: drop (S j) l.
Proof.
  intros Hj. rewrite <- (take_drop_middle l j x Hj) at 1.
  rewrite alter_app_r_alt; rewrite length_take_le by (apply lookup_lt_Some in Hj; lia); [|done].
  by rewrite Nat.sub_diag.
Qed.

End cover.

(** ** What the operations do to the cover *)

Section ops.
Context {N : Type} `{ObjectReferenceLaws N} `{Checksum} `{MessageAction}.
Implicit Types (n : CopylessInternalNode N) (r : range) (c : ChildLink N).

(** The recorded buffer sizes are the actual ones. *)
Definition sizes_exact n : Prop :=
  entries_sizes (meta_data n) = (λ c, buf_size (cl_buffer c)) <$> children n.

Definition prefs_valid n : Prop :=
  Forall Pref.valid (entries_prefs (meta_data n)) ∧
  AtomicPref.valid (m_pref (meta_data n)) ∧
  Pref.valid (m_system_storage_preference (meta_data n)).

Lemma set_child_buffer_cover lo hi n j b r c :
  shape_ok n → cover lo hi n !! j = Some (r, c) →
  shape_ok (set_child_buffer n j b) ∧
  cover lo hi (set_child_buffer n j b) =
    take j (cover lo hi n) ++ (r, mkLink b (cl_ptr c)) :: drop (S j) (cover lo hi n).
Proof.
  intros [Hc Hs Hp] Hj. apply cover_lookup in Hj as [Hr Hj].
  unfold set_child_buffer. rewrite (alter_cut _ _ _ _ Hj).
  pose proof (lookup_lt_Some _ _ _ Hj) as Hlt. pose proof (length_ranges lo (pivot (meta_data n)) hi).
  split.
  - rewrite <- (take_drop_middle _ _ _ Hj) in Hc, Hs, Hp.
    split; simpl; rewrite !length_app in *; simpl in *; lia.
  - unfold cover. simpl.
    rewrite <- (take_drop_middle (ranges _ _ _) _ _ Hr) at 1.
    apply zip_cut1; lia.
Qed.

Lemma after_insert_inv n j n' :
  after_insert_size_delta n j = Some n' →
  ∃ c, children n !! j = Some c ∧ (j < length (entries_sizes (meta_data n)))%nat ∧
    n' = map_meta (λ m, set_entries_sizes m
           (<[j := buf_size (cl_buffer c)]> (entries_sizes (meta_data n)))) n.
Proof.
  unfold after_insert_size_delta. intros Hi.
  destruct (children n !! j) as [c|]; simplify_eq/=.
  apply bind_Some in Hi as (es&Hes&[= <-]). inv_vec. eauto.
Qed.

(** [after_insert_size_delta] repairs the size of the one child whose buffer
    was changed. *)
Lemma after_insert_exact n j b n' :
  shape_ok n → sizes_exact n →
  after_insert_size_delta (set_child_buffer n j b) j = Some n' →
  shape_ok n' ∧ sizes_exact n' ∧ children n' = children (set_child_buffer n j b) ∧
  pivot (meta_data n') = pivot (meta_data n) ∧
  entries_prefs (meta_data n') = entries_prefs (meta_data n).
Proof.
  intros Hsh Hex Ha. apply after_insert_inv in Ha as (c'&Hc'&Hlt&->). simpl in *.
  assert (∃ c, children n !! j = Some c) as [c Hc].
  { rewrite list_lookup_alter_eq in Hc'. destruct (children n !! j); simplify_eq/=; eauto. }
  rewrite list_lookup_alter_eq, Hc in Hc'. simplify_eq/=.
  destruct Hsh as [Hl Hs Hp]. split_and!; try done.
  - split; simpl; rewrite ?length_alter, ?length_insert; lia.
  - unfold sizes_exact in *. simpl. rewrite Hex. apply list_eq. intros i. rewrite list_lookup_fmap.
    destruct (decide (i = j)) as [->|Hne].
    + rewrite list_lookup_insert_eq by (rewrite length_fmap; by eapply lookup_lt_Some).
      by rewrite list_lookup_alter_eq, Hc.
    + by rewrite list_lookup_insert_ne, list_lookup_alter_ne, list_lookup_fmap by done.
Qed.

(** [split_child] cuts the range of the child at the pivot; both parts keep
    their messages, the right one gets the new pointer. *)
Lemma split_child_spec lo hi n j np p sel n' j' d :
  shape_ok n → split_child n j np p sel = Some (n', j', d) →
  ∃ r c b1 b2, cover lo hi n !! j = Some (r, c) ∧
    buf_split_at (cl_buffer c) p = Some (b1, b2) ∧
    cover lo hi n' = take j (cover lo hi n) ++
      ((r.1, Some p), mkLink b1 (cl_ptr c)) :: ((Some p, r.2), mkLink b2 np) ::
      drop (S j) (cover lo hi n) ∧
    shape_ok n' ∧ level n' = level n ∧ j' = (if sel then S j else j) ∧
    (sizes_exact n → sizes_exact n') ∧ (prefs_valid n → prefs_valid n') ∧
    current_size (meta_data n') = current_size (meta_data n) ∧
    pivot (meta_data n') = take j (pivot (meta_data n)) ++ p :: drop j (pivot (meta_data n)).
Proof.
  intros Hsh Hs. unfold split_child in Hs.
  destruct (children n !! j) as [c|] eqn:Hc; simplify_eq/=.
  destruct (buf_split_at (cl_buffer c) p) as [[b1 b2]|] eqn:Hb; simplify_eq/=.
  rewrite (alter_cut _ _ _ _ Hc) in Hs. inv_bind. inv_vec.
  destruct Hsh as [Hl Hes Hps]. pose proof (lookup_lt_Some _ _ _ Hc) as Hlt.
  pose proof (length_ranges lo (pivot (meta_data n)) hi) as Hlr.
  destruct (lookup_lt_is_Some_2 (ranges lo (pivot (meta_data n)) hi) j) as [[a b] Hr]; [lia|].
  exists (a, b), c, b1, b2.
  assert (<[j := buf_size b1]> (entries_sizes (meta_data n)) =
          take j (entries_sizes (meta_data n)) ++ buf_size b1 ::
          drop (S j) (entries_sizes (meta_data n))) as Hins by (apply insert_cut; lia).
  split_and!; simpl; try done.
  - by apply cover_lookup.
  - unfold cover. simpl.
    rewrite insert_after_cut by done. rewrite (ranges_insert _ _ _ _ a b) by done.
    apply zip_cut2; lia.
  - split; simpl; rewrite ?Hins, ?insert_after_cut by lia;
      rewrite ?length_app, ?length_cons, ?length_take, ?length_drop,
        ?length_app, ?length_cons, ?length_take, ?length_drop; lia.
  - unfold sizes_exact. simpl. intros Hex. rewrite Hins, !insert_after_cut by lia.
    rewrite Hex, fmap_app, fmap_take. simpl. by rewrite fmap_drop.
  - intros (Hv&?&?). split_and!; try done. simpl.
    apply Forall_app. split; [by apply Forall_take|]. constructor; [|by apply Forall_drop].
    eapply Forall_lookup_1; [exact Hv|]. eassumption.
Qed.

(** [take_buffer] empties the buffer of one child. *)
Lemma take_buffer_spec lo hi n j t n' d :
  shape_ok n → take_buffer n j = Some (t, n', d) →
  ∃ r c b, cover lo hi n !! j = Some (r, c) ∧ buf_take (cl_buffer c) = Some (t, - d, b) ∧
    cover lo hi n' = take j (cover lo hi n) ++ (r, mkLink b (cl_ptr c)) ::
      drop (S j) (cover lo hi n) ∧
    shape_ok n' ∧ level n' = level n ∧
    (sizes_exact n → sizes_exact n') ∧ (prefs_valid n → prefs_valid n') ∧
    current_size (meta_data n') = current_size (meta_data n).
Proof.
  intros Hsh Ht. unfold take_buffer in Ht.
  destruct (children n !! j) as [c|] eqn:Hc; simplify_eq/=.
  destruct (buf_take (cl_buffer c)) as [[[t0 sd] b]|] eqn:Hb; simplify_eq/=.
  apply bind_Some in Ht as (n0&Ha&[= <- <- <-]).
  destruct (cover_child lo hi n j c Hsh Hc) as [r Hr].
  destruct (set_child_buffer_cover lo hi n j b r c Hsh Hr) as [Hsh' Hcov].
  pose proof Ha as Ha'. apply after_insert_inv in Ha as (c'&Hc'&Hlt&->).
  exists r, c, b. split_and!; try done.
  - by rewrite Z.opp_involutive.
  - destruct Hsh' as [? ? ?]. split; simpl in *; rewrite ?length_insert; lia.
  - intros Hex. by destruct (after_insert_exact n j b _ Hsh Hex Ha') as (_&?&_).
Qed.

(** [merge_children] joins the ranges of two neighbours; the left link gets
    the messages of both. *)
Lemma merge_children_spec lo hi n j n' pk np d :
  shape_ok n → merge_children n j = Some (n', (pk, np, d)) →
  ∃ r1 c1 r2 c2 b b' db, cover lo hi n !! j = Some (r1, c1) ∧
    cover lo hi n !! S j = Some (r2, c2) ∧ r1.2 = Some pk ∧ r2.1 = Some pk ∧
    np = cl_ptr c2 ∧ buf_append (cl_buffer c1) (cl_buffer c2) = Some (b, b', db) ∧
    cover lo hi n' = take j (cover lo hi n) ++ ((r1.1, r2.2), mkLink b (cl_ptr c1)) ::
      drop (S (S j)) (cover lo hi n) ∧
    shape_ok n' ∧ level n' = level n ∧
    (sizes_exact n → sizes_exact n') ∧ (prefs_valid n → prefs_valid n') ∧
    current_size (meta_data n') = recalc_size (meta_data n').
Proof.
  intros Hsh Hm. unfold merge_children in Hm. destruct Hsh as [Hl Hes Hps].
  destruct (vec_remove (S j) (children n)) as [[c2 cs]|] eqn:Hrc; simplify_eq/=.
  destruct (vec_remove j (pivot (meta_data n))) as [[pk' ps]|] eqn:Hrp; simplify_eq/=.
  destruct (vec_remove (S j) (entries_prefs (meta_data n))) as [[p2 prefs]|] eqn:Hrf; simplify_eq/=.
  destruct (vec_remove (S j) (entries_sizes (meta_data n))) as [[s2 es]|] eqn:Hrs; simplify_eq/=.
  inv_vec.
  match goal with H : children n !! S j = _ |- _ => rename H into Hc2 end.
  match goal with H : pivot _ !! j = _ |- _ => rename H into Hpk end.
  pose proof (lookup_lt_Some _ _ _ Hc2) as Hlt.
  destruct (lookup_lt_is_Some_2 (children n) j) as [c1 Hc1]; [lia|].
  rewrite lookup_app_l, lookup_take_lt, Hc1 in Hm by (rewrite ?length_take; lia).
  simpl in Hm.
  destruct (buf_append (cl_buffer c1) (cl_buffer c2)) as [[[b b'] db]|] eqn:Hb; simplify_eq/=.
  apply bind_Some in Hm as (es'&Hes'&[= <- <- <- <-]). inv_vec.
  pose proof (length_ranges lo (pivot (meta_data n)) hi) as Hlr.
  destruct (lookup_lt_is_Some_2 (ranges lo (pivot (meta_data n)) hi) j) as [[x1 y1] Hr1]; [lia|].
  destruct (lookup_lt_is_Some_2 (ranges lo (pivot (meta_data n)) hi) (S j)) as [[x2 y2] Hr2]; [lia|].
  destruct (ranges_adjacent _ _ _ _ _ _ _ _ Hr1 Hr2) as (p&Hp&->&->).
  rewrite Hpk in Hp. injection Hp as <-.
  destruct (lookup_lt_is_Some_2 (entries_sizes (meta_data n)) j) as [s1 Hs1]; [lia|].
  rewrite (remove_next_cut _ _ _ Hc1), (remove_next_cut _ _ _ Hs1).
  rewrite alter_middle, insert_middle by lia.
  exists (x1, Some pk'), c1, (Some pk', y2), c2, b, b', db.
  split_and!; simpl; try done; try by apply cover_lookup.
  - unfold cover. simpl. rewrite (ranges_remove _ _ _ _ x1 (Some pk') (Some pk') y2) by done.
    apply zip_cut1; lia.
  - split; simpl; rewrite !length_app, ?length_cons, !length_take, !length_drop; lia.
  - unfold sizes_exact. simpl. intros Hex.
    rewrite Hex, fmap_app, fmap_take. simpl. by rewrite fmap_drop.
  - intros (Hv&?&?). split_and!; simpl; [|by left|done].
    apply Forall_app. split; [by apply Forall_take|by apply Forall_drop].
Qed.

(** [rebalanced] moves the border between two neighbours. *)
Lemma rebalanced_spec lo hi n j pk n' d :
  shape_ok n → rebalanced n j pk = Some (n', d) →
  ∃ r1 c1 r2 c2 lb rb, cover lo hi n !! j = Some (r1, c1) ∧
    cover lo hi n !! S j = Some (r2, c2) ∧
    (∃ p, r1.2 = Some p ∧ r2.1 = Some p) ∧
    buf_rebalance (cl_buffer c1) (cl_buffer c2) pk = Some (lb, rb) ∧
    cover lo hi n' = take j (cover lo hi n) ++ ((r1.1, Some pk), mkLink lb (cl_ptr c1)) ::
      ((Some pk, r2.2), mkLink rb (cl_ptr c2)) :: drop (S (S j)) (cover lo hi n) ∧
    shape_ok n' ∧ level n' = level n ∧ (prefs_valid n → prefs_valid n') ∧
    entries_sizes (meta_data n') !! j = Some (buf_size lb) ∧
    entries_sizes (meta_data n') !! S j = Some (buf_size lb) ∧
    current_size (meta_data n') = current_size (meta_data n).
Proof.
  intros Hsh Hm. unfold rebalanced in Hm. destruct Hsh as [Hl Hes Hps].
  destruct (children n !! j) as [c1|] eqn:Hc1; simplify_eq/=.
  destruct (children n !! S j) as [c2|] eqn:Hc2; simplify_eq/=.
  destruct (buf_rebalance (cl_buffer c1) (cl_buffer c2) pk) as [[lb rb]|] eqn:Hb; simplify_eq/=.
  inv_bind. inv_vec. pose proof (lookup_lt_Some _ _ _ Hc2) as Hlt.
  pose proof (length_ranges lo (pivot (meta_data n)) hi) as Hlr.
  destruct (lookup_lt_is_Some_2 (ranges lo (pivot (meta_data n)) hi) j) as [[u1 v1] Hr1]; [lia|].
  destruct (lookup_lt_is_Some_2 (ranges lo (pivot (meta_data n)) hi) (S j)) as [[u2 v2] Hr2]; [lia|].
  destruct (ranges_adjacent _ _ _ _ _ _ _ _ Hr1 Hr2) as (p&Hp&->&->).
  assert (alter (λ c, mkLink rb (cl_ptr c)) (S j)
            (alter (λ c, mkLink lb (cl_ptr c)) j (children n)) =
          take j (children n) ++ mkLink lb (cl_ptr c1) :: mkLink rb (cl_ptr c2) ::
            drop (S (S j)) (children n)) as Hcs.
  { rewrite (alter_cut _ _ _ _ Hc1), (drop_S _ _ _ Hc2).
    assert (length (take j (children n)) = j) as Hlj by (rewrite length_take; lia).
    rewrite alter_app_r_alt, Hlj by lia. by replace (S j - j)%nat with 1%nat by lia. }
  exists (u1, Some p), c1, (Some p, v2), c2, lb, rb.
  split_and!; simpl; try done; try by apply cover_lookup.
  - by exists p.
  - unfold cover. simpl. rewrite Hcs, (ranges_set _ _ _ _ u1 (Some p) (Some p) v2) by done.
    apply zip_cut2; lia.
  - split; simpl; rewrite ?length_insert, ?length_alter, ?length_insert; lia.
  - rewrite list_lookup_insert_ne, list_lookup_insert_eq by lia. done.
  - rewrite list_lookup_insert_eq by (rewrite length_insert; lia). done.
Qed.

(** [merge] joins two nodes around the pivot between them. *)
Lemma in_merge_spec lo hi n rs p n' rs' d :
  shape_ok n → shape_ok rs → in_merge n rs p = (n', rs', d) →
  cover lo hi n' = cover lo (Some p) n ++ cover (Some p) hi rs ∧
  shape_ok n' ∧ level n' = level n ∧
  (sizes_exact n → sizes_exact rs → sizes_exact n') ∧
  (prefs_valid n → prefs_valid rs → prefs_valid n') ∧
  current_size (meta_data n') = recalc_size (meta_data n').
Proof.
  intros [Hl Hes Hps] [Hl' Hes' Hps']. unfold in_merge. intros [= <- _ _].
  split_and!; simpl; try done.
  - unfold cover. simpl. rewrite <- app_assoc. simpl. rewrite ranges_app.
    apply zip_with_app. rewrite length_ranges. lia.
  - split; simpl; rewrite ?length_app; simpl; lia.
  - unfold sizes_exact. simpl. intros -> ->. by rewrite fmap_app.
  - intros (?&?&?) (?&?&?). split_and!; simpl; [by apply Forall_app|by left|done].
Qed.

(** The cover with the references taken up to their index. *)
Definition cover_ids lo hi n : list (range * (PackedChildBuffer * positive)) :=
  (λ e, (e.1, (cl_buffer e.2, np_id (cl_ptr e.2)))) <$> cover lo hi n.

Definition link_id c : PackedChildBuffer * positive := (cl_buffer c, np_id (cl_ptr c)).

Lemma cover_ids_zip lo hi n :
  cover_ids lo hi n = zip (ranges lo (pivot (meta_data n)) hi) (link_id <$> children n).
Proof.
  unfold cover_ids, cover. generalize (ranges lo (pivot (meta_data n)) hi) as R.
  generalize (children n) as cs. intros cs R. revert cs.
  induction R as [|r R IH]; intros [|c cs]; simpl; [done..|]. by rewrite IH.
Qed.

(** The first child of the right half only learns its new index. *)
Lemma split_first_child (cr cr' : list (ChildLink N)) (pr : list bytes) :
  match cr with
  | first_child :: cs =>
      let ds_id := pk_d_id (np_index (cl_ptr first_child)) in
      p0 ← pr !! 0%nat;
      Some (mkLink (cl_buffer first_child)
              (np_set_index (PkLeftOuter p0 ds_id) (cl_ptr first_child)) :: cs)
  | [] => Some []
  end = Some cr' → link_id <$> cr' = link_id <$> cr.
Proof.
  destruct cr as [|c cs]; [by intros [= <-]|]. cbv zeta.
  destruct (pr !! 0%nat); simpl; [|done]. intros [= <-]. simpl. unfold link_id at 1. simpl.
  by rewrite np_id_set_index.
Qed.

Lemma sizes_of_ids (cs cs' : list (ChildLink N)) :
  link_id <$> cs = link_id <$> cs' →
  (λ c, buf_size (cl_buffer c)) <$> cs = (λ c, buf_size (cl_buffer c)) <$> cs'.
Proof.
  intros E. apply (f_equal (fmap (λ x, buf_size x.1))) in E.
  by rewrite <- !list_fmap_compose in E.
Qed.

Lemma take_last_pivot (ps : list bytes) h p :
  last (take h ps) = Some p → ps = removelast (take h ps) ++ p :: drop h ps.
Proof.
  intros Hl. rewrite <- (take_drop h ps) at 1.
  apply last_Some in Hl as [l' Hl]. rewrite Hl, removelast_last, <- app_assoc. done.
Qed.

(** [split] cuts the node at the middle pivot. *)
Lemma in_split_spec lo hi n n' rs pk d lpk :
  shape_ok n → in_split n = Some (n', (rs, pk, d, lpk)) →
  cover_ids lo hi n = cover_ids lo (Some pk) n' ++ cover_ids (Some pk) hi rs ∧
  shape_ok n' ∧ shape_ok rs ∧ level n' = level n ∧ level rs = level n ∧
  (sizes_exact n → sizes_exact n' ∧ sizes_exact rs) ∧
  (prefs_valid n → prefs_valid n' ∧ prefs_valid rs) ∧
  MIN_FANOUT ≤ fanout n' ∧ MIN_FANOUT ≤ fanout rs ∧ lpk = LpkRight pk ∧
  current_size (meta_data n') = recalc_size (meta_data n') ∧
  current_size (meta_data rs) = recalc_size (meta_data rs).
Proof.
  intros [Hl Hes Hps] Hs. unfold in_split in Hs.
  set (h := (length (children n) / 2)%nat) in *.
  destruct (vec_split_off h (pivot (meta_data n))) as [[ps pr]|] eqn:Hvp; simplify_eq/=.
  destruct (last ps) as [pk'|] eqn:Hlast; simplify_eq/=.
  destruct (vec_split_off h (children n)) as [[cl cr]|] eqn:Hvc; simplify_eq/=.
  apply bind_Some in Hs as (cr'&Hcr&Hs).
  destruct (vec_split_off h (entries_sizes (meta_data n))) as [[sl sr]|] eqn:Hvs; simplify_eq/=.
  destruct (vec_split_off h (entries_prefs (meta_data n))) as [[fl fr]|] eqn:Hvf; simplify_eq/=.
  inv_vec.
  match type of Hs with (if ?b then _ else _) = _ => destruct b eqn:Hf1; [|done] end.
  match type of Hs with (if ?b then _ else _) = _ => destruct b eqn:Hf2; [|done] end.
  apply Z.leb_le in Hf1, Hf2. injection Hs as <- <- <- <- <-.
  apply split_first_child in Hcr. pose proof (f_equal length Hcr) as Hlen.
  rewrite !length_fmap, length_drop in Hlen.
  pose proof (take_last_pivot _ _ _ Hlast) as Hpiv.
  pose proof (f_equal length Hpiv) as Hlp. rewrite length_app in Hlp. simpl in Hlp.
  rewrite length_drop in Hlp.
  split_and!; simpl; try done.
  - rewrite !cover_ids_zip. simpl. rewrite Hpiv at 1. rewrite ranges_app, Hcr.
    rewrite <- (take_drop h (children n)) at 1. rewrite fmap_app.
    apply zip_with_app. rewrite length_ranges, length_fmap, length_take. lia.
  - split; simpl; rewrite ?length_take; lia.
  - split; simpl; rewrite ?length_drop, ?Hlen; lia.
  - unfold sizes_exact. simpl. intros ->. rewrite fmap_take. split; [done|].
    rewrite (sizes_of_ids _ _ Hcr). by rewrite fmap_drop.
  - intros (?&?&?). split; split_and!; simpl; try by left.
    + by apply Forall_take.
    + done.
    + by apply Forall_drop.
    + done.
Qed.

(** ** Properties *)

(** The key search of an internal node finds the one child whose key
    range contains the key, when the pivots divide the node's range into
    non-empty parts. *)
Theorem search_finds_child lo hi n k :
  cover_ok lo hi n → in_range lo hi k →
  ∃ r c, cover lo hi n !! idx n k = Some (r, c) ∧ in_range r.1 r.2 k ∧
    ∀ i r' c', cover lo hi n !! i = Some (r', c') → in_range r'.1 r'.2 k → i = idx n k.
Proof.
  intros Hc Hk. destruct (cover_total lo hi n k Hc Hk) as (r&c&Hrc&Hr).
  exists r, c. split_and!; [done..|]. intros i r' c' Hi Hr'.
  apply cover_lookup in Hi as [Hi _]. unfold idx.
  by rewrite (pivot_idx_unique lo _ hi k i r' (cover_sorted _ _ _ Hc) Hi Hr').
Qed.

(** Splitting an internal node and merging the halves around the pivot
    gives back every link with its range, and both halves have at least the
    minimal fanout. *)
Theorem split_then_merge lo hi n n' rs pk d lpk :
  shape_ok n → in_split n = Some (n', (rs, pk, d, lpk)) →
  MIN_FANOUT ≤ fanout n' ∧ MIN_FANOUT ≤ fanout rs ∧
  cover_ids lo hi (in_merge n' rs pk).1.1 = cover_ids lo hi n.
Proof.
  intros Hs Hsp.
  destruct (in_split_spec lo hi n n' rs pk d lpk Hs Hsp) as (Hcov&Hs1&Hs2&_&_&_&_&?&?&_).
  split_and!; [done..|]. destruct (in_merge n' rs pk) as [[n2 rs2] d2] eqn:Hm.
  destruct (in_merge_spec lo hi n' rs pk n2 rs2 d2 Hs1 Hs2 Hm) as (Hcov'&_).
  rewrite Hcov. unfold cover_ids. simpl. by rewrite Hcov', fmap_app.
Qed.

(** [rebalanced] records the size of the left buffer for the right one,
    too: afterwards the recorded sizes are wrong whenever the two buffers
    differ in size. *)
Theorem rebalanced_records_wrong_size n j pk n' d :
  shape_ok n → rebalanced n j pk = Some (n', d) →
  ∃ c1 c2, children n' !! j = Some c1 ∧ children n' !! S j = Some c2 ∧
    entries_sizes (meta_data n') !! S j = Some (buf_size (cl_buffer c1)) ∧
    (buf_size (cl_buffer c1) ≠ buf_size (cl_buffer c2) → ¬ sizes_exact n').
Proof.
  intros Hs Hr.
  destruct (rebalanced_spec None None n j pk n' d Hs Hr)
    as (r1&c1&r2&c2&lb&rb&Hc1&_&_&_&Hcov&_&_&_&_&He&_).
  apply lookup_lt_Some in Hc1.
  assert (length (take j (cover None None n)) = j) as Hlen by (rewrite length_take; lia).
  assert (∀ i x, cover None None n' !! i = Some x → children n' !! i = Some x.2) as Hch.
  { intros i [r c] Hi. by apply cover_lookup in Hi as [_ ?]. }
  assert (children n' !! S j = Some (mkLink rb (cl_ptr c2))) as Hj.
  { eapply (Hch _ (_, _)). rewrite Hcov, lookup_app_r by lia. rewrite Hlen.
    by replace (S j - j)%nat with 1%nat by lia. }
  exists (mkLink lb (cl_ptr c1)), (mkLink rb (cl_ptr c2)). split_and!; [|done..|].
  - eapply (Hch _ (_, _)). by rewrite Hcov, lookup_app_r, Hlen, Nat.sub_diag by lia.
  - intros Hne Hex. unfold sizes_exact in Hex. rewrite Hex, list_lookup_fmap, Hj in He.
    simpl in He, Hne. congruence.
Qed.

(** [split_child] adds a pivot but does not count it: if the recorded
    size of the meta data was right before, it is short by the new pivot's
    bytes afterwards. *)
Theorem split_child_miscounts n j np pk sel n' j' d :
  shape_ok n → current_size (meta_data n) = recalc_size (meta_data n) →
  split_child n j np pk sel = Some (n', j', d) →
  current_size (meta_data n') + (8 + blen pk + 8 + 1) = recalc_size (meta_data n').
Proof.
  intros Hs Hsz Hsp.
  destruct (split_child_spec None None n j np pk sel n' j' d Hs Hsp)
    as (r&c&b1&b2&_&_&_&_&_&_&_&_&Hcs&Hpv).
  rewrite Hcs, Hsz. unfold recalc_size. rewrite Hpv.
  set (ps := pivot (meta_data n)).
  assert (sum_Z ((λ p, 8 + blen p) <$> ps) =
    sum_Z ((λ p, 8 + blen p) <$> take j ps) + sum_Z ((λ p, 8 + blen p) <$> drop j ps)) as E
    by (by rewrite <- sum_Z_app, <- fmap_app, take_drop).
  assert (length ps = length (take j ps) + length (drop j ps))%nat as El
    by (by rewrite <- length_app, take_drop).
  rewrite E, El, fmap_app, length_app, sum_Z_app, fmap_cons.
  unfold sum_Z at 4. cbn [foldr length]. fold (sum_Z ((λ p, 8 + blen p) <$> drop j ps)). lia.
Qed.

(** Splitting the link of a child panics when the link's buffer is still
    packed. *)
Theorem split_child_packed_panics n j np pk sel c :
  children n !! j = Some c → is_unpacked (buffer (cl_buffer c)) = false →
  split_child n j np pk sel = None.
Proof.
  intros Hc Hu. unfold split_child. rewrite Hc. simpl.
  unfold buf_split_at, buf_split_off. by rewrite Hu.
Qed.

End ops.

(** *** Witnesses *)

Module InternalExamples.
Import PolyHash BufferExamples.

(** References that are a number and an index. *)
Definition Ref : Type := positive * PivotKey.

#[export] Instance Ref_reference : ObjectReference Ref := {
  np_static_size := 45;
  np_index := snd;
  np_set_index pk r := (r.1, pk);
}.

#[export] Instance Ref_laws : ObjectReferenceLaws Ref := {
  np_id := fst;
  np_id_set_index pk x := eq_refl;
}.

Definition link (b : PackedChildBuffer) (i : positive) : ChildLink Ref :=
  mkLink b (i, PkRight (key Byte.x02) 0).

Definition node_of (ps : list bytes) (cs : list (ChildLink Ref)) : CopylessInternalNode Ref :=
  mkInternal (meta_invalidate (mkMeta 0 1 Pref.NONE AtomicPref.unknown ps
    ((λ c, buf_size (cl_buffer c)) <$> cs) (replicate (length cs) Pref.NONE))) cs.

Definition four : CopylessInternalNode Ref :=
  node_of [key Byte.x02; key Byte.x04; key Byte.x06]
    [link (buf_new false) 1; link (buf_new false) 2; link (buf_new false) 3;
     link (buf_new false) 4].

(** Three messages in the left buffer. *)
Definition two : CopylessInternalNode Ref :=
  node_of [key Byte.x04] [link msgs3 1; link (buf_new false) 2].

Lemma four_cover : cover_ok None None four.
Proof.
  split; [by split|]. repeat (apply Forall_cons; split); try apply Forall_nil_2;
    intros l h; simpl; intros; by simplify_eq.
Qed.

Lemma search_finds_child_witness :
  ∃ r c, cover None None four !! idx four (key Byte.x05) = Some (r, c) ∧
    in_range r.1 r.2 (key Byte.x05) ∧ np_id (cl_ptr c) = 3%positive.
Proof.
  destruct (search_finds_child None None four (key Byte.x05)) as (r&c&Hrc&Hr&_).
  - apply four_cover.
  - done.
  - exists r, c. split_and!; [done..|]. vm_compute in Hrc. by injection Hrc as <- <-.
Defined.

Lemma split_then_merge_witness :
  ∃ n' rs pk d lpk, in_split four = Some (n', (rs, pk, d, lpk)) ∧
    cover_ids None None (in_merge n' rs pk).1.1 = cover_ids None None four.
Proof.
  destruct (in_split four) as [[n' [[[rs pk] d] lpk]]|] eqn:E; [|done].
  destruct (split_then_merge None None four n' rs pk d lpk) as (_&_&Hm).
  - by split.
  - exact E.
  - by exists n', rs, pk, d, lpk.
Defined.

(** One message stays left, two move right. *)
Lemma rebalanced_records_wrong_size_witness :
  ∃ n' d, rebalanced two 0 (key Byte.x01) = Some (n', d) ∧ ¬ sizes_exact n'.
Proof.
  destruct (rebalanced two 0 (key Byte.x01)) as [[n' d]|] eqn:E; [|done].
  destruct (rebalanced_records_wrong_size two 0 (key Byte.x01) n' d) as (c1&c2&H1&H2&_&Hne).
  - by split.
  - exact E.
  - exists n', d. split; [done|]. apply Hne. vm_compute in E. injection E as <- <-.
    vm_compute in H1, H2. injection H1 as <-. injection H2 as <-. by vm_compute.
Defined.

Lemma split_child_miscounts_witness :
  ∃ n' j d, split_child two 1 (3%positive, PkRight (key Byte.x06) 0) (key Byte.x06) false =
      Some (n', j, d) ∧
    current_size (meta_data n') + 18 = recalc_size (meta_data n').
Proof.
  destruct (split_child two 1 (3%positive, PkRight (key Byte.x06) 0) (key Byte.x06) false)
    as [[[n' j] d]|] eqn:E; [|done].
  pose proof (split_child_miscounts two 1 (3%positive, PkRight (key Byte.x06) 0)
    (key Byte.x06) false n' j d) as Hm.
  exists n', j, d. split; [done|]. apply Hm; [by split|done|exact E].
Defined.

(** A node read back from disk: its buffers are packed. *)
Definition packed_two : CopylessInternalNode Ref :=
  node_of [key Byte.x04]
    [link (mkBuf Pref.FAST Pref.NONE 0 (Packed 0 (Sliced.from Cow.new)) false) 1;
     link (buf_new false) 2].

Lemma split_child_packed_panics_witness :
  split_child packed_two 0 (3%positive, PkRight (key Byte.x02) 0) (key Byte.x02) false = None.
Proof. eapply split_child_packed_panics; [reflexivity|reflexivity]. Defined.

End InternalExamples.
