(* ===== verification/Node.v ===== *)
(** * Tree nodes (betree/src/tree/imp/node.rs)

    A node is a leaf or an internal node.  This file dispatches the operations
    of the two, has the size limits per storage kind ([StorageMap]) and the
    root split.  Asking for the storage preference of a node caches it in the
    node, so every size test returns the node along with its answer. *)

From Stdlib Require Import ZArith Lia.
From stdpp Require Import base option list numbers.
From S2P Require Import Prelude.
From S2P Require Import Bytes.
From S2P Require Import BTreeMap.
From S2P Require Import CowBytes.
From S2P Require Import StoragePref.
From S2P Require Import Message.
From S2P Require Import Checksum.
From S2P Require Import ChildBuffer.
From S2P Require Import Pivots.
From S2P Require Import Internal.

(** [StorageKind] (tree/mod.rs) *)
Inductive StorageKind := Hdd | Memory | Ssd.

(** [StorageMap] (tree/imp/mod.rs): the kind of each storage class. *)
Record StorageMap := mkStorageMap { sm_map : list StorageKind; sm_default : StorageKind }.

(** [StorageMap::get] *)
Definition sm_get (sm : StorageMap) (pref : StoragePreference) : StorageKind :=
  default (sm_default sm) (sm_map sm !! Z.to_nat (Pref.as_u8 pref)).

Definition kib (n : Z) : Z := n * 1024.
Definition mib (n : Z) : Z := n * 1024 * 1024.

Inductive Node (N : Type) :=
  | MemLeaf (leaf : PackedChildBuffer)
  | CopylessInternal (n : CopylessInternalNode N).
Arguments MemLeaf {N} leaf.
Arguments CopylessInternal {N} n.

Inductive GetResult (N : Type) :=
  | GetData (d : option (KeyInfo * bytes))
  | GetNextNode (np : N).
Arguments GetData {N} d.
Arguments GetNextNode {N} np.

Inductive ApplyResult (N : Type) :=
  | ApplyLeaf (info : option KeyInfo)
  | ApplyNextNode (np : N).
Arguments ApplyLeaf {N} info.
Arguments ApplyNextNode {N} np.

Section node.
Context {N : Type} `{ObjectReference N} `{Checksum} `{MessageAction}.
Implicit Types (nd : Node N) (sm : StorageMap).

(** ** Preferences *)

Definition node_current_preference nd : option (option StoragePreference) :=
  match nd with
  | MemLeaf b => buf_current_preference b
  | CopylessInternal n => in_current_preference n
  end.

Definition node_recalculate nd : option (StoragePreference * Node N) :=
  match nd with
  | MemLeaf b => '(p, b) ← buf_recalculate b; Some (p, MemLeaf b)
  | CopylessInternal n => let '(p, n) := in_recalculate n in Some (p, CopylessInternal n)
  end.

(** [HasStoragePreference::correct_preference], the default method. *)
Definition node_correct_preference nd : option (StoragePreference * Node N) :=
  c ← node_current_preference nd;
  match c with Some p => Some (p, nd) | None => node_recalculate nd end.

(** [ensure_unpacked]: the node and the change of the cached size. *)
Definition ensure_unpacked nd : option (Node N * Z) :=
  match nd with
  | MemLeaf b =>
      '(b', _) ← unpack_data b;
      Some (MemLeaf b', buf_cache_size b' - buf_cache_size b)
  | CopylessInternal n => Some (nd, 0)
  end.

Definition node_set_system_storage_preference nd (p : StoragePreference) : option (Node N) :=
  '(nd, _) ← ensure_unpacked nd;
  Some (match nd with
        | MemLeaf b => MemLeaf (set_system_storage_preference b p)
        | CopylessInternal n => CopylessInternal (in_set_system_storage_preference n p)
        end).

(** ** Sizes *)

Definition node_size nd : Z :=
  match nd with MemLeaf b => 4 + buf_size b | CopylessInternal n => 4 + in_size n end.

Definition node_actual_size nd : option Z :=
  match nd with
  | MemLeaf b => s ← buf_actual_size b; Some (4 + s)
  | CopylessInternal n => s ← in_actual_size n; Some (4 + s)
  end.

Definition node_cache_size nd : Z :=
  match nd with MemLeaf b => buf_cache_size b | CopylessInternal n => in_cache_size n end.

Definition inner_size nd : Z :=
  match nd with MemLeaf b => buf_size b | CopylessInternal n => in_size n end.

Definition node_has_too_high_fanout nd (max_size : Z) : bool :=
  match nd with CopylessInternal n => has_too_high_fanout n max_size | MemLeaf _ => false end.

Definition is_leaf_node nd : bool :=
  match nd with MemLeaf _ => true | CopylessInternal _ => false end.

Definition node_fanout nd : option Z :=
  match nd with MemLeaf _ => None | CopylessInternal n => Some (fanout n) end.

Definition has_too_low_fanout nd : bool :=
  match nd with MemLeaf _ => false | CopylessInternal n => fanout n <? MIN_FANOUT end.

Definition node_level nd : Z :=
  match nd with MemLeaf _ => 0 | CopylessInternal n => level n end.

Definition root_needs_merge nd : bool :=
  match nd with MemLeaf _ => false | CopylessInternal n => fanout n =? 1 end.

Definition empty_leaf : Node N := MemLeaf (buf_new true).

(** [StorageMap::min_size]: internal nodes have no minimal size. *)
Definition min_size sm nd : option (option Z * Node N) :=
  '(pref, nd) ← node_correct_preference nd;
  Some (match nd, sm_get sm pref with
        | CopylessInternal _, _ => None
        | _, Hdd => Some (mib 1)
        | _, Ssd => Some (kib 512)
        | _, Memory => Some (kib 128)
        end, nd).

(** [StorageMap::max_size] *)
Definition kind_max_size (k : StorageKind) : Z :=
  match k with Hdd => mib 4 | Ssd => mib 2 | Memory => kib 512 end.

Definition max_size sm nd : option (Z * Node N) :=
  '(pref, nd) ← node_correct_preference nd;
  Some (kind_max_size (sm_get sm pref), nd).

Definition node_is_too_large sm nd : option (bool * Node N) :=
  '(max, nd) ← max_size sm nd;
  Some ((max <? inner_size nd) || node_has_too_high_fanout nd max, nd).

Definition leaf_is_too_large sm nd : option (bool * Node N) :=
  if is_leaf_node nd then node_is_too_large sm nd else Some (false, nd).

Definition leaf_is_too_small sm nd : option (bool * Node N) :=
  if is_leaf_node nd then
    '(min, nd) ← min_size sm nd;
    Some (match min with Some min => inner_size nd <? min | None => false end, nd)
  else Some (false, nd).

(** ** Navigation *)

(** [try_walk]: the index of the child the key leads to. *)
Definition node_try_walk nd (key : bytes) : option nat :=
  match nd with MemLeaf _ => None | CopylessInternal n => Some (idx n key) end.

Definition node_try_find_flush_candidate sm nd : option (option nat * Node N) :=
  '(max, nd) ← max_size sm nd;
  match nd with
  | MemLeaf _ => Some (None, nd)
  | CopylessInternal n =>
      r ← in_try_find_flush_candidate n (max / MIN_FLUSH_RATIO) max MIN_FANOUT;
      Some (r, nd)
  end.

(** [get]: the result and the message to push, where there is one. *)
Definition node_get nd (key : bytes) :
    option (GetResult N * option (KeyInfo * bytes)) :=
  match nd with
  | MemLeaf b => d ← buf_get b key; Some (GetData d, None)
  | CopylessInternal n => '(np, m) ← in_get n key; Some (GetNextNode np, m)
  end.

Definition node_pivot_get nd (pk : PivotKey) : option (option (PivotGetResult N)) :=
  if pk_is_root pk then Some (Some (PivotTarget None))
  else
    match nd with
    | MemLeaf _ => Some None
    | CopylessInternal n => r ← in_pivot_get n pk; Some (Some r)
    end.

Definition node_pivot_get_mut nd (pk : PivotKey) : option (option (PivotGetResult N)) :=
  if pk_is_root pk then Some (Some (PivotTarget None))
  else
    match nd with
    | MemLeaf _ => Some None
    | CopylessInternal n => r ← in_pivot_get_mut n pk; Some (Some r)
    end.

(** ** Updates *)

(** The internal node's part of [insert]. *)
Definition in_insert (n : CopylessInternalNode N) (key : bytes) (keyinfo : KeyInfo)
    (msg : bytes) : option (CopylessInternalNode N * Z) :=
  let child_idx := idx n key in
  link ← children n !! child_idx;
  '(b, size_delta) ← buf_insert (cl_buffer link) key keyinfo msg;
  n ← after_insert_size_delta (set_child_buffer n child_idx b) child_idx;
  Some (n, size_delta).

(** [insert] *)
Definition node_insert nd (key msg : bytes) (storage_preference : StoragePreference) :
    option (Node N * Z) :=
  '(nd, d) ← ensure_unpacked nd;
  let keyinfo := mkKeyInfo storage_preference in
  match nd with
  | MemLeaf b => '(b, d') ← buf_insert b key keyinfo msg; Some (MemLeaf b, d + d')
  | CopylessInternal n =>
      '(n, d') ← in_insert n key keyinfo msg; Some (CopylessInternal n, d + d')
  end.

Fixpoint in_insert_msg_buffer (n : CopylessInternalNode N) (msgs : btree) :
    option (CopylessInternalNode N * Z) :=
  match msgs with
  | [] => Some (n, 0)
  | (k, (kinfo, v)) :: msgs =>
      '(n, delta) ← in_insert n k kinfo v;
      '(n, ds) ← in_insert_msg_buffer n msgs;
      Some (n, delta + ds)
  end.

(** [insert_msg_buffer] *)
Definition node_insert_msg_buffer nd (msgs : btree) : option (Node N * Z) :=
  '(nd, d) ← ensure_unpacked nd;
  match nd with
  | MemLeaf b => '(b, d') ← buf_insert_msg_buffer b msgs; Some (MemLeaf b, d + d')
  | CopylessInternal n =>
      '(n, d') ← in_insert_msg_buffer n msgs; Some (CopylessInternal n, d + d')
  end.

(** [apply_with_info] *)
Definition node_apply_with_info nd (key : bytes) (pref : StoragePreference) :
    option (Node N * ApplyResult N) :=
  '(nd, _) ← ensure_unpacked nd;
  match nd with
  | MemLeaf b =>
      '(b, info, _) ← buf_apply_with_info b key pref; Some (MemLeaf b, ApplyLeaf info)
  | CopylessInternal n =>
      '(n, np) ← in_apply_with_info n key pref; Some (CopylessInternal n, ApplyNextNode np)
  end.

(** [drain_children] *)
Definition node_drain_children nd : option (list (ChildLink N)) * Node N :=
  match nd with
  | MemLeaf _ => (None, nd)
  | CopylessInternal n =>
      let '(cs, n) := drain_children n in (Some cs, CopylessInternal n)
  end.

(** [split]: both limits passed to the leaf are the minimal size. *)
Definition node_split sm nd :
    option (Node N * (Node N * bytes * Z * LocalPivotKey)) :=
  '(nd, _) ← ensure_unpacked nd;
  '(min, nd) ← min_size sm nd;
  '(max, nd) ← min_size sm nd;
  match nd with
  | MemLeaf b =>
      min ← min; max ← max;
      '(b, (sibling, pivot_key, pk), size_delta) ← buf_split b min max;
      Some (MemLeaf b, (MemLeaf sibling, pivot_key, size_delta, pk))
  | CopylessInternal n =>
      assert! 2 * MIN_FANOUT <=? fanout n;
      '(n, (sibling, pivot_key, size_delta, pk)) ← in_split n;
      Some (CopylessInternal n, (CopylessInternal sibling, pivot_key, size_delta, pk))
  end.

(** [merge]: both nodes afterwards. *)
Definition node_merge nd (right_sibling : Node N) (pivot_key : bytes) :
    option (Node N * Node N * Z) :=
  '(nd, d0) ← ensure_unpacked nd;
  '(right_sibling, _) ← ensure_unpacked right_sibling;
  match nd, right_sibling with
  | MemLeaf l, MemLeaf r =>
      '(l, r, d) ← buf_append l r; Some (MemLeaf l, MemLeaf r, d0 + d)
  | CopylessInternal l, CopylessInternal r =>
      let '(l, r, d) := in_merge l r pivot_key in
      Some (CopylessInternal l, CopylessInternal r, d0 + d)
  | _, _ => None
  end.

(** [leaf_rebalance]: both limits passed on are the minimal size. *)
Definition leaf_rebalance sm nd (right_sibling : Node N) :
    option (Node N * Node N * FillUpResult) :=
  '(nd, _) ← ensure_unpacked nd;
  '(right_sibling, _) ← ensure_unpacked right_sibling;
  '(min, nd) ← min_size sm nd;
  '(max, nd) ← min_size sm nd;
  match nd, right_sibling with
  | MemLeaf l, MemLeaf r =>
      min ← min; max ← max;
      '(l, r, res) ← buf_rebalance_size l r min max;
      Some (MemLeaf l, MemLeaf r, res)
  | _, _ => None
  end.

(** [split_root_mut]: [allocate_obj] is threaded through the caller's state. *)
Definition split_root_mut {S : Type} (allocate_obj : Node N → LocalPivotKey → S → N * S)
    sm nd (s : S) : option (Node N * S * Z) :=
  '(_, nd) ← node_correct_preference nd;
  let size_before := node_cache_size nd in
  '(nd, _) ← ensure_unpacked nd;
  '(min, left_sibling) ← min_size sm nd;
  '(max, left_sibling) ← max_size sm left_sibling;
  '(left_sibling, right_sibling, pivot_key, cur_level) ←
    match left_sibling with
    | MemLeaf b =>
        min ← min;
        '(b, (r, pivot_key, _), _) ← buf_split b min max;
        Some (MemLeaf b, MemLeaf r, pivot_key, 0)
    | CopylessInternal n =>
        '(n, (r, pivot_key, _, _)) ← in_split n;
        Some (CopylessInternal n, CopylessInternal r, pivot_key, level n)
    end;
  assert! negb (has_too_low_fanout left_sibling);
  assert! negb (has_too_low_fanout right_sibling);
  let '(left_child, s) := allocate_obj left_sibling (LpkLeftOuter pivot_key) s in
  let '(right_child, s) := allocate_obj right_sibling (LpkRight pivot_key) s in
  let left_buffer := buf_new false in
  let right_buffer := buf_new false in
  let nd := CopylessInternal (in_new
    (mkInl left_child left_buffer (buf_size left_buffer))
    (mkInl right_child right_buffer (buf_size right_buffer)) pivot_key (cur_level + 1)) in
  Some (nd, s, node_cache_size nd - size_before).

End node.

(** ** Asking for sizes and preferences changes nothing else *)

Section node_theory.
Context {N : Type} `{ObjectReferenceLaws N} `{Checksum} `{MessageActionLaws}.
Implicit Types (nd : Node N) (n : CopylessInternalNode N) (sm : StorageMap) (b : PackedChildBuffer).

Lemma buf_wf_contents b t : buf_wf b t → buf_contents b = t.
Proof. intros Hwf. unfold buf_contents. by rewrite (wf_contents _ _ Hwf). Qed.

Lemma unpack_data_wf b t :
  buf_wf b t →
  ∃ b' d, unpack_data b = Some (b', d) ∧ buf_wf b' t ∧ buffer b' = Unpacked t ∧
    is_leaf b' = is_leaf b ∧ entries_size b' = entries_size b.
Proof.
  intros Hwf. pose proof (wf_unpacked _ _ Hwf) as [d Hu]. unfold unpack_data. rewrite Hu.
  simpl. eexists _, _. split_and!; [done| |done..].
  destruct Hwf. by split; simpl.
Qed.

(** Buffers and nodes that differ in cached preferences only. *)
Definition buf_sim b b' : Prop :=
  buffer b' = buffer b ∧ is_leaf b' = is_leaf b ∧ entries_size b' = entries_size b ∧
  (∀ t, buf_wf b t → buf_wf b' t).

Definition in_sim n n' : Prop :=
  children n' = children n ∧ pivot (meta_data n') = pivot (meta_data n) ∧
  entries_sizes (meta_data n') = entries_sizes (meta_data n) ∧
  entries_prefs (meta_data n') = entries_prefs (meta_data n) ∧
  level n' = level n ∧ current_size (meta_data n') = current_size (meta_data n) ∧
  (prefs_valid n → prefs_valid n').

Definition node_sim nd nd' : Prop :=
  match nd, nd' with
  | MemLeaf b, MemLeaf b' => buf_sim b b'
  | CopylessInternal n, CopylessInternal n' => in_sim n n'
  | _, _ => False
  end.

#[global] Instance node_sim_preorder : PreOrder node_sim.
Proof.
  split.
  - intros [b|n]; simpl; [by split_and!|]. unfold in_sim. by split_and!.
  - intros [b1|n1] [b2|n2] [b3|n3]; simpl; try done.
    + intros (?&?&?&?) (?&?&?&?). unfold buf_sim. split_and!; try congruence. auto.
    + intros (?&?&?&?&?&?&?) (?&?&?&?&?&?&?). unfold in_sim.
      split_and!; try congruence. auto.
Qed.

(** What the preference queries need of a node. *)
Definition node_wf nd : Prop :=
  match nd with MemLeaf b => ∃ t, buf_wf b t | CopylessInternal n => prefs_valid n end.

Lemma node_sim_wf nd nd' : node_sim nd nd' → node_wf nd → node_wf nd'.
Proof.
  destruct nd, nd'; simpl; try done.
  - intros (_&_&_&Hw) [t Ht]. eauto.
  - intros (_&_&_&_&_&_&Hp). auto.
Qed.

Lemma node_sim_size nd nd' : node_sim nd nd' → inner_size nd' = inner_size nd.
Proof.
  destruct nd, nd'; simpl; try done.
  - intros (_&_&He&_). unfold buf_size. by rewrite He.
  - intros (Hc&Hp&He&_&_&Hs&_). unfold in_size, fanout. by rewrite Hs, Hc, He.
Qed.

Lemma fold_upgrade_valid (ps : list StoragePreference) p :
  Pref.valid p → Forall Pref.valid ps → Pref.valid (foldl Pref.upgrade p ps).
Proof.
  intros Hp Hall. revert p Hp. induction Hall as [|q ps Hq _ IH]; intros p Hp; simpl; [done|].
  apply IH. unfold Pref.upgrade. auto with haura.
Qed.

Lemma as_option_valid v p :
  AtomicPref.valid v → AtomicPref.as_option v = Some p → Pref.valid p.
Proof. unfold AtomicPref.as_option, AtomicPref.valid. case_match; naive_solver lia. Qed.

Lemma weak_bound_ok q p :
  Pref.valid q → Pref.valid p → ∃ r, SysPref.weak_bound q p = Some r ∧ Pref.valid r.
Proof.
  intros Hq Hp. rewrite SysPref.weak_bound_min by done. eexists. split; [done|].
  auto with haura.
Qed.

Lemma buf_recalculate_ok b t :
  buf_wf b t → messages_preference b = U8_MAX →
  ∃ p b', buf_recalculate b = Some (p, b') ∧ buf_sim b b' ∧ Pref.valid p.
Proof.
  intros Hwf Hm. pose proof (wf_known _ _ Hwf) as Hk. rewrite Hm in Hk.
  destruct (buffer b) as [c d|t'] eqn:Hb; [done|].
  assert (t' = t) as ->.
  { pose proof (wf_contents _ _ Hwf) as Hc. rewrite Hb in Hc. by injection Hc. }
  assert (Pref.valid (foldl (λ p e, Pref.upgrade p (storage_preference e.2.1)) Pref.NONE t))
    as Hv.
  { assert (foldl (λ p e, Pref.upgrade p (storage_preference e.2.1)) Pref.NONE t =
            foldl Pref.upgrade Pref.NONE ((λ e, storage_preference e.2.1) <$> t)) as ->.
    { generalize Pref.NONE. clear. induction t as [|e t IH]; intros p; simpl; auto. }
    apply fold_upgrade_valid; [apply Pref.valid_NONE|]. apply Forall_fmap, Hwf. }
  unfold buf_recalculate. rewrite Hb. simpl. eexists _, _. split_and!; [done| |].
  - split_and!; try done. intros t0 Ht0.
    pose proof (buf_wf_contents _ _ Ht0). pose proof (buf_wf_contents _ _ Hwf). simplify_eq.
    destruct Hwf. split; simpl; try done; [by right|by rewrite Hb].
  - apply Pref.valid_choose_faster; [done|apply Pref.valid_NONE].
Qed.

Lemma node_correct_preference_ok nd :
  node_wf nd →
  ∃ p nd', node_correct_preference nd = Some (p, nd') ∧ node_sim nd nd' ∧ Pref.valid p.
Proof.
  intros Hwf. unfold node_correct_preference. destruct nd as [b|n]; simpl in *.
  - destruct Hwf as [t Hwf]. unfold buf_current_preference.
    destruct (AtomicPref.as_option (messages_preference b)) as [p|] eqn:E; simpl.
    + destruct (weak_bound_ok (system_storage_preference b) p) as (r&->&Hr);
        [apply Hwf|eapply as_option_valid; [apply Hwf|done]|]. simpl.
      eexists _, _. split_and!; [done|by split_and!|done].
    + destruct (buf_recalculate_ok b t) as (p&b'&->&Hsim&Hp); [done| |].
      { unfold AtomicPref.as_option in E. case_match eqn:Em; [|done]. by apply Z.eqb_eq. }
      simpl. by eexists _, _.
  - destruct Hwf as (Hprefs&Hp&Hs). unfold in_current_preference.
    destruct (AtomicPref.as_option (m_pref (meta_data n))) as [p|] eqn:E; simpl.
    + destruct (weak_bound_ok (m_system_storage_preference (meta_data n)) p) as (r&->&Hr);
        [done|by eapply as_option_valid|]. simpl.
      eexists _, _. split_and!; [done| |done]. unfold in_sim. by split_and!.
    + eexists _, _. split_and!; [done| |].
      * unfold in_sim. split_and!; simpl; try done. intros _. split_and!; simpl; try done.
        right. apply fold_upgrade_valid; [apply Pref.valid_NONE|done].
      * apply fold_upgrade_valid; [apply Pref.valid_NONE|done].
Qed.

Lemma max_size_ok sm nd :
  node_wf nd →
  ∃ k nd', max_size sm nd = Some (kind_max_size k, nd') ∧ node_sim nd nd'.
Proof.
  intros Hwf. destruct (node_correct_preference_ok nd Hwf) as (p&nd'&Hc&Hs&_).
  unfold max_size. rewrite Hc. simpl. by eexists _, _.
Qed.

Lemma min_size_ok sm nd :
  node_wf nd → ∃ m nd', min_size sm nd = Some (m, nd') ∧ node_sim nd nd' ∧
    (is_leaf_node nd = true → ∃ v, m = Some v ∧ 0 < v).
Proof.
  intros Hwf. destruct (node_correct_preference_ok nd Hwf) as (p&nd'&Hc&Hs&_).
  unfold min_size. rewrite Hc. simpl. eexists _, _. split_and!; [done|done|].
  intros Hl. destruct nd, nd'; try done. destruct (sm_get sm p); eexists; by split.
Qed.

Lemma node_is_too_large_ok sm nd :
  node_wf nd → ∃ r nd', node_is_too_large sm nd = Some (r, nd') ∧ node_sim nd nd'.
Proof.
  intros Hwf. destruct (max_size_ok sm nd Hwf) as (k&nd'&Hm&Hs).
  unfold node_is_too_large. rewrite Hm. simpl. by eexists _, _.
Qed.

Lemma leaf_is_too_large_ok sm nd :
  node_wf nd → ∃ r nd', leaf_is_too_large sm nd = Some (r, nd') ∧ node_sim nd nd'.
Proof.
  intros Hwf. unfold leaf_is_too_large. destruct (is_leaf_node nd).
  - by apply node_is_too_large_ok.
  - eexists _, _. split; [done|reflexivity].
Qed.

Lemma leaf_is_too_small_ok sm nd :
  node_wf nd → ∃ r nd', leaf_is_too_small sm nd = Some (r, nd') ∧ node_sim nd nd'.
Proof.
  intros Hwf. unfold leaf_is_too_small. destruct (is_leaf_node nd).
  - destruct (min_size_ok sm nd Hwf) as (m&nd'&->&Hs&_). simpl. by eexists _, _.
  - eexists _, _. split; [done|reflexivity].
Qed.

End node_theory.
