(* ===== verification/Tree.v ===== *)
(** * The tree (betree/src/tree/imp/mod.rs, flush.rs, split.rs)

    The nodes of a tree are objects of the data management layer.  That layer
    is modelled by what its interface ([Dml], data_management/mod.rs)
    promises the tree: a store of objects behind references, which objects
    are currently mutable in the cache ([Modified]), and that an object which
    is still borrowed cannot be removed.  Nodes are changed in place.

    [get_with_info] walks down collecting messages, [tree_insert] walks down
    as far as the nodes are mutable, inserts there and calls
    [rebalance_tree], whose loop body is [rebalance_step]. *)

From Stdlib Require Import ZArith Lia.
From stdpp Require Import base option list numbers gmap fin_maps.
From S2P Require Import Prelude.
From S2P Require Import Bytes.
From S2P Require Import BTreeMap.
From S2P Require Import CowBytes.
From S2P Require Import StoragePref.
From S2P Require Import Message.
From S2P Require Import Checksum.
From S2P Require Import ChildBuffer.
From S2P Require Import Pivots.
From S2P Require Import Internal.
From S2P Require Import Node.

(** ** The data management layer as the tree sees it *)

Abbreviation oid := positive.

(** A reference: the object and its position in the tree. *)
Record ObjRef := mkRef { or_id : oid; or_index : PivotKey }.

(** [ObjRef::static_size] is [ObjectPointer::static_size]: tag, checksum,
    dataset id, generation, offset, block count and a [usize]. *)
Definition obj_ref_static_size : Z := 1 + CSUM_SIZE + 8 + 8 + 8 + 4 + 8.

#[export] Instance ObjRef_reference : ObjectReference ObjRef := {
  np_static_size := obj_ref_static_size;
  np_index := or_index;
  np_set_index pk r := mkRef (or_id r) pk;
}.

#[export] Instance ObjRef_laws : ObjectReferenceLaws ObjRef := {
  np_id := or_id;
  np_id_set_index pk x := eq_refl;
}.

Abbreviation TNode := (Node ObjRef).

Record Store := mkStore {
  objs : gmap oid TNode;
  next_id : oid;
  modified : gset oid;
}.

Definition put (s : Store) (o : oid) (nd : TNode) : Store :=
  mkStore (<[o := nd]> (objs s)) (next_id s) (modified s).

(** [Dml::get] *)
Definition dml_get (s : Store) (r : ObjRef) : option TNode := objs s !! or_id r.

(** [Dml::try_get_mut]: only for objects that are already mutable. *)
Definition dml_try_get_mut (s : Store) (r : ObjRef) : option TNode :=
  if decide (or_id r ∈ modified s) then objs s !! or_id r else None.

(** [Dml::get_mut]: copies on write, so the object is mutable afterwards. *)
Definition dml_get_mut (s : Store) (r : ObjRef) : option Store :=
  _ ← objs s !! or_id r;
  Some (mkStore (objs s) (next_id s) ({[or_id r]} ∪ modified s)).

(** [Dml::insert]: a fresh mutable object. *)
Definition dml_insert (nd : TNode) (pk : PivotKey) (s : Store) : ObjRef * Store :=
  (mkRef (next_id s) pk,
   mkStore (<[next_id s := nd]> (objs s)) (Pos.succ (next_id s))
     ({[next_id s]} ∪ modified s)).

(** [Dml::remove]: [unimplemented!] for an object that is still borrowed. *)
Definition dml_remove (s : Store) (held : list oid) (r : ObjRef) : option Store :=
  assert! bool_decide (or_id r ∉ held);
  Some (mkStore (delete (or_id r) (objs s)) (next_id s) (modified s ∖ {[or_id r]})).

(** ** The tree *)

Record Tree := mkTree {
  root_node : ObjRef;
  tree_id : DatasetId;
  tree_storage_preference : StoragePreference;
  storage_map : StorageMap;
}.

(** [Error] (tree/errors.rs); the modelled store has no I/O errors. *)
Inductive TreeError := DmuError | EmptyKey | InvalidRange.

Section tree.
Context `{Checksum} `{MessageAction}.
Implicit Types (t : Tree) (s : Store) (o : oid).

(** [empty_tree] *)
Definition empty_tree (tree_id : DatasetId) (pref : StoragePreference) (sm : StorageMap)
    (s : Store) : Tree * Store :=
  let '(r, s) := dml_insert empty_leaf (PkRoot tree_id) s in
  (mkTree r tree_id pref sm, s).

(** ** Point queries *)

(** The loop of [get_with_info]: the leaf entry and the messages on the way,
    uppermost first. *)
Fixpoint get_path (fuel : nat) s (np : ObjRef) (key : bytes)
    (msgs : list (KeyInfo * bytes)) :
    option (option (KeyInfo * bytes) * list (KeyInfo * bytes)) :=
  match fuel with
  | O => None
  | S fuel =>
      nd ← dml_get s np;
      '(r, m) ← node_get nd key;
      let msgs := msgs ++ option_list m in
      match r with
      | GetNextNode np => get_path fuel s np key msgs
      | GetData d => Some (d, msgs)
      end
  end.

(** Applies messages in the given order; the key info of the last one. *)
Fixpoint apply_all (key : bytes) (msgs : list (KeyInfo * bytes)) (info : option KeyInfo)
    (tmp : option bytes) : option (option KeyInfo * option bytes) :=
  match msgs with
  | [] => Some (info, tmp)
  | (keyinfo, msg) :: msgs =>
      tmp ← ma_apply key msg tmp; apply_all key msgs (Some keyinfo) tmp
  end.

(** [get_with_info] *)
Definition get_with_info (fuel : nat) t s (key : bytes) :
    option (option (KeyInfo * bytes)) :=
  '(data, msgs) ← get_path fuel s (root_node t) key [];
  match data with
  | None =>
      '(info, tmp) ← apply_all key (rev msgs) None None;
      match tmp, info with
      | None, _ => Some None
      | Some data, Some info => Some (Some (info, data))
      | Some _, None => None
      end
  | Some (info, data) =>
      '(_, tmp) ← apply_all key (rev msgs) None (Some data);
      Some (match tmp with Some data => Some (info, data) | None => None end)
  end.

(** [get] *)
Definition tree_get (fuel : nat) t s (key : bytes) : option (option bytes) :=
  r ← get_with_info fuel t s key;
  Some (match r with Some (_info, data) => Some data | None => None end).

(** [depth] *)
Definition depth t s : option Z := nd ← dml_get s (root_node t); Some (node_level nd + 1).

(** [apply_with_info]: the update of a key's preference goes straight to the
    leaf. *)
Fixpoint apply_with_info_loop (fuel : nat) s (np : ObjRef) (key : bytes)
    (pref : StoragePreference) : option (Store * option KeyInfo) :=
  match fuel with
  | O => None
  | S fuel =>
      s ← dml_get_mut s np;
      nd ← objs s !! or_id np;
      '(nd, r) ← node_apply_with_info nd key pref;
      let s := put s (or_id np) nd in
      match r with
      | ApplyNextNode np => apply_with_info_loop fuel s np key pref
      | ApplyLeaf info => Some (s, info)
      end
  end.

Definition tree_apply_with_info (fuel : nat) t s (key : bytes) (pref : StoragePreference) :
    option (Store * option KeyInfo) :=
  apply_with_info_loop fuel s (root_node t) key pref.

(** [get_node_pivot] *)
Fixpoint get_node_pivot (fuel : nat) s (np : ObjRef) (pk : PivotKey) :
    option (option ObjRef) :=
  match fuel with
  | O => None
  | S fuel =>
      nd ← dml_get s np;
      r ← node_pivot_get nd pk;
      match r with
      | Some (PivotTarget (Some np)) => Some (Some np)
      | Some (PivotTarget None) => Some (Some np)
      | Some (PivotNextNode np) => get_node_pivot fuel s np pk
      | None => Some None
      end
  end.

(** ** Splitting *)

(** [split_root_node] *)
Definition split_root_node t s (root : oid) : option Store :=
  nd ← objs s !! root;
  '(nd, s, _) ← split_root_mut
    (λ node pk s, dml_insert node (to_global pk (tree_id t)) s) (storage_map t) nd s;
  Some (put s root nd).

(** A step on an internal node of the store. *)
Definition with_internal {A} s o
    (f : CopylessInternalNode ObjRef → option (CopylessInternalNode ObjRef * A)) :
    option (Store * A) :=
  nd ← objs s !! o;
  match nd with
  | CopylessInternal n => '(n, a) ← f n; Some (put s o (CopylessInternal n), a)
  | MemLeaf _ => None
  end.

(** [split_node]: splits [node], child [i] of [parent]; the half to go on
    with, and its position. *)
Definition split_node t s (node parent : oid) (i : nat) : option (Store * oid * nat) :=
  nd ← objs s !! node;
  '(nd, (sibling, pivot_key, _, lpk)) ← node_split (storage_map t) nd;
  let pk := to_global lpk (tree_id t) in
  let select_right := node_size nd <? node_size sibling in
  let s := put s node nd in
  let '(sibling_np, s) := dml_insert sibling pk s in
  '(s, i) ← with_internal s parent (λ n,
    '(n, i, _) ← split_child n i sibling_np pivot_key select_right; Some (n, i));
  Some (s, if select_right then or_id sibling_np else node, i).

(** ** Rebalancing *)

(** A size test on an object of the store; the preference it computes is
    cached in the object. *)
Definition test_node s o (f : TNode → option (bool * TNode)) : option (bool * Store) :=
  nd ← objs s !! o; '(b, nd) ← f nd; Some (b, put s o nd).

(** The reference to child [i] of [o]. *)
Definition child_ref s o (i : nat) : option ObjRef :=
  nd ← objs s !! o;
  match nd with
  | CopylessInternal n => c ← children n !! i; Some (cl_ptr c)
  | MemLeaf _ => None
  end.

(** Step 3: an internal child with a single child of its own is merged with
    a sibling. *)
Definition merge_step s (node child : oid) (i : nat) : option Store :=
  '(s, pm) ← with_internal s node (λ n, pm ← prepare_merge n i; Some (n, pm));
  sib ← child_ref s node pm.2;
  s ← dml_get_mut s sib;
  let child_on_left := is_right_sibling pm in
  '(s, (pivot_key, old_np)) ← with_internal s node (λ n,
    '(n, (pk, np, _)) ← merge_children n pm.1; Some (n, (pk, np)));
  cnd ← objs s !! child;
  sibling ← objs s !! or_id sib;
  s ← (if child_on_left then
         '(cnd, sibling, _) ← node_merge cnd sibling pivot_key;
         Some (put (put s child cnd) (or_id sib) sibling)
       else
         '(sibling, cnd, _) ← node_merge sibling cnd pivot_key;
         Some (put (put s child cnd) (or_id sib) sibling));
  (* sibling and child are dropped before the removal *)
  dml_remove s [node] old_np.

(** Steps 4 and 5: the buffered messages move into the child. *)
Definition flush_step s (node child : oid) (i : nat) : option Store :=
  '(s, msgs) ← with_internal s node (λ n, '(msgs, n, _) ← take_buffer n i; Some (n, msgs));
  cnd ← objs s !! child;
  '(cnd, _) ← node_insert_msg_buffer cnd msgs;
  Some (put s child cnd).

(** Step 6: a leaf that is too small is filled from a sibling or merged with
    it.  Child and sibling are still borrowed when the merged one is
    removed. *)
Definition fill_step t s (node child : oid) (i : nat) : option Store :=
  '(s, pm) ← with_internal s node (λ n, pm ← prepare_merge n i; Some (n, pm));
  sib ← child_ref s node pm.2;
  s ← dml_get_mut s sib;
  let '(lo, ro) :=
    if is_right_sibling pm then (child, or_id sib) else (or_id sib, child) in
  lnd ← objs s !! lo;
  rnd ← objs s !! ro;
  '(lnd, rnd, res) ← leaf_rebalance (storage_map t) lnd rnd;
  let s := put (put s lo lnd) ro rnd in
  match res with
  | Merged _ =>
      '(s, old_np) ← with_internal s node (λ n,
        '(n, (_, np, _)) ← merge_children n pm.1; Some (n, np));
      dml_remove s [node; child; or_id sib] old_np
  | Rebalanced pivot_key _ =>
      '(s, _) ← with_internal s node (λ n,
        '(n, _) ← rebalanced n pm.1 pivot_key; Some (n, tt));
      Some s
  end.

(** Step 7: the leaf is split until it is small enough. *)
Fixpoint split_leaf_loop (fuel : nat) t s (node child : oid) (i : nat) :
    option (Store * oid * nat) :=
  match fuel with
  | O => None
  | S fuel =>
      '(large, s) ← test_node s child (leaf_is_too_large (storage_map t));
      if (large : bool) then
        '(s, child, i) ← split_node t s child node i;
        split_leaf_loop fuel t s node child i
      else Some (s, child, i)
  end.

(** The loop state: the node to work on and where it hangs in its parent. *)
Abbreviation cursor := (oid * option (oid * nat))%type.

(** One round of the loop of [rebalance_tree]; no next cursor means that the
    function returns. *)
Definition rebalance_step (fuel : nat) t s (cur : cursor) : option (Store * option cursor) :=
  let '(node, parent) := cur in
  let too_large := node_is_too_large (storage_map t) in
  '(large, s) ← test_node s node too_large;
  if negb large then Some (s, None)
  else
    nd ← objs s !! node;
    '(candidate, nd) ← node_try_find_flush_candidate (storage_map t) nd;
    let s := put s node nd in
    match candidate with
    | None =>
        match parent with
        | None => s ← split_root_node t s node; Some (s, None)
        | Some (p, i) =>
            '(s, node, i) ← split_node t s node p i; Some (s, Some (node, Some (p, i)))
        end
    | Some i =>
        np ← child_ref s node i;
        s ← dml_get_mut s np;
        let child := or_id np in
        '(large, s) ← test_node s child (λ cnd,
          if is_leaf_node cnd then Some (false, cnd) else too_large cnd);
        if (large : bool) then Some (s, Some (child, Some (node, i)))
        else
          '(low, s) ← test_node s child (λ cnd,
            if has_too_low_fanout cnd then
              '(l, cnd) ← too_large cnd; Some (negb l, cnd)
            else Some (false, cnd));
          if (low : bool) then
            s ← merge_step s node child i; Some (s, Some (node, parent))
          else
            s ← flush_step s node child i;
            '(small, s) ← test_node s child (leaf_is_too_small (storage_map t));
            s ← (if (small : bool) then fill_step t s node child i else Some s);
            '(s, child, i) ← split_leaf_loop fuel t s node child i;
            '(large, s) ← test_node s node too_large;
            if (large : bool) then
              (* the warning asks for the child's size, too *)
              '(_, s) ← test_node s child too_large;
              Some (s, Some (node, parent))
            else Some (s, Some (child, Some (node, i)))
    end.

Fixpoint rebalance_tree (fuel : nat) t s (cur : cursor) : option Store :=
  match fuel with
  | O => None
  | S fuel' =>
      '(s, next) ← rebalance_step fuel t s cur;
      match next with
      | None => Some s
      | Some cur => rebalance_tree fuel' t s cur
      end
  end.

(** ** Insertion *)

(** The loop that walks down over mutable nodes. *)
Fixpoint insert_walk (fuel : nat) t s (node : oid) (parent : option (oid * nat))
    (key : bytes) : option (Store * cursor) :=
  match fuel with
  | O => None
  | S fuel =>
      '(large, s) ← test_node s node (node_is_too_large (storage_map t));
      if (large : bool) then Some (s, (node, parent))
      else
        nd ← objs s !! node;
        match node_try_walk nd key with
        | Some i =>
            np ← child_ref s node i;
            match dml_try_get_mut s np with
            | Some _ => insert_walk fuel t s (or_id np) (Some (node, i)) key
            | None => Some (s, (node, parent))
            end
        | None => Some (s, (node, parent))
        end
  end.

(** [insert] up to the rebalancing. *)
Definition insert_message (fuel : nat) t s (key msg : bytes)
    (storage_preference : StoragePreference) : option (Store * cursor) :=
  s ← dml_get_mut s (root_node t);
  '(s, (node, parent)) ← insert_walk fuel t s (or_id (root_node t)) None key;
  let op_preference := Pref.or storage_preference (tree_storage_preference t) in
  nd ← objs s !! node;
  '(nd, _) ← node_insert nd key msg op_preference;
  let s := put s node nd in
  assert! negb (bool_decide (parent = None) && root_needs_merge nd);
  Some (s, (node, parent)).

(** [insert] *)
Definition tree_insert (fuel : nat) t s (key msg : bytes)
    (storage_preference : StoragePreference) : option (Store + TreeError) :=
  if bool_decide (key = []) then Some (inr EmptyKey)
  else
    '(s, cur) ← insert_message fuel t s key msg storage_preference;
    s ← rebalance_tree fuel t s cur;
    Some (inl s).

End tree.
