(* ===== verification/TreeInv.v ===== *)
(** * The tree invariant and the meaning of a tree

    [tree_ok m l lo hi o]: in the objects [m], [o] is the root of a subtree of
    height [l] for the keys in [lo..hi].  [oids] lists the objects of a
    subtree; a tree has no object twice.  [den] is the meaning of a subtree:
    the value of a key is the leaf's value changed by the buffered messages,
    lowest first.

    The frame lemma says that a subtree depends on its own objects only; the
    lifting lemma carries a change inside a subtree to the whole tree. *)

From Stdlib Require Import ZArith Lia.
From stdpp Require Import base option list numbers gmap fin_maps.
From S2P Require Import Prelude.
From S2P Require Import Bytes.
From S2P Require Import BTreeMap.
From S2P Require Import CowBytes.
From S2P Require Import StoragePref.
From S2P Require Import Message.
From S2P Require Import Checksum.
From S2P Require Import ChildBuffer.
From S2P Require Import Pivots.
From S2P Require Import Internal.
From S2P Require Import Node.
From S2P Require Import Tree.

Abbreviation heap := (gmap oid TNode).

(** A link with its range: the buffer and the child's object. *)
Abbreviation entry := (range * (PackedChildBuffer * oid))%type.

Section tree_inv.
Context `{Checksum} `{MessageActionLaws}.
Implicit Types (m : heap) (l : nat) (lo hi : option bytes) (o : oid) (k : bytes)
  (b : PackedChildBuffer) (n : CopylessInternalNode ObjRef).

(** All keys of a buffer lie in its range. *)
Definition keys_in lo hi b : Prop :=
  ∀ k, bt_get k (buf_contents b) ≠ None → in_range lo hi k.

(** A leaf for the range. *)
Definition leaf_ok lo hi b : Prop :=
  buf_wf b (buf_contents b) ∧ is_leaf b = true ∧ keys_in lo hi b.

(** A message buffer for the range, which is not empty. *)
Definition link_ok lo hi b : Prop :=
  range_ok lo hi ∧ buf_wf b (buf_contents b) ∧ is_leaf b = false ∧ keys_in lo hi b.

Definition inner_ok (l : nat) n : Prop :=
  shape_ok n ∧ level n = Z.of_nat (S l) ∧ prefs_valid n.

Fixpoint tree_ok m l lo hi o : Prop :=
  match l with
  | O => ∃ b, m !! o = Some (MemLeaf b) ∧ leaf_ok lo hi b
  | S l =>
      ∃ n, m !! o = Some (CopylessInternal n) ∧ inner_ok l n ∧
        Forall (λ e, link_ok e.1.1 e.1.2 e.2.1 ∧ tree_ok m l e.1.1 e.1.2 e.2.2)
          (cover_ids lo hi n)
  end.

(** The objects of a subtree, the root first. *)
Fixpoint oids m l o : list oid :=
  match l, m !! o with
  | S l, Some (CopylessInternal n) =>
      o :: concat ((λ c, oids m l (or_id (cl_ptr c))) <$> children n)
  | _, _ => [o]
  end.

(** The value of a key. *)
Fixpoint den m l o k : option (option bytes) :=
  match l, m !! o with
  | O, Some (MemLeaf b) => Some (leaf_val (buf_contents b) k)
  | S l, Some (CopylessInternal n) =>
      c ← children n !! idx n k;
      d ← den m l (or_id (cl_ptr c)) k;
      msg_eff (buf_contents (cl_buffer c)) k d
  | _, _ => None
  end.

(** ** Reading the cover of a node *)

Lemma cover_ids_elem lo hi n r b x :
  (r, (b, x)) ∈ cover_ids lo hi n ↔
    ∃ c, (r, c) ∈ cover lo hi n ∧ b = cl_buffer c ∧ x = or_id (cl_ptr c).
Proof.
  unfold cover_ids. rewrite list_elem_of_fmap. split.
  - intros ([r' c]&[= -> -> ->]&Hin). eauto.
  - intros (c&Hin&->&->). by exists (r, c).
Qed.

Lemma cover_ids_lookup lo hi n i e :
  cover_ids lo hi n !! i = Some e →
  ∃ c, cover lo hi n !! i = Some (e.1, c) ∧ e.2 = (cl_buffer c, or_id (cl_ptr c)).
Proof.
  unfold cover_ids. rewrite list_lookup_fmap.
  destruct (cover lo hi n !! i) as [[r c]|]; [|done]. intros [= <-]. eauto.
Qed.

Lemma cover_ids_unique lo hi n i e k :
  cover_ok lo hi n → cover_ids lo hi n !! i = Some e → in_range e.1.1 e.1.2 k → i = idx n k.
Proof.
  intros Hc Hi Hk. apply cover_ids_lookup in Hi as (c&Hi&_). apply cover_lookup in Hi as [Hr _].
  unfold idx. by rewrite (pivot_idx_unique lo _ hi k i e.1 (cover_sorted _ _ _ Hc) Hr Hk).
Qed.

(** The range of a link is part of the node's. *)
Lemma cover_ids_range lo hi n e k :
  shape_ok n → cover_ok lo hi n → e ∈ cover_ids lo hi n → in_range e.1.1 e.1.2 k →
  in_range lo hi k.
Proof.
  intros Hs [_ Hall] He Hk. destruct e as [r [b x]]. apply cover_ids_elem in He as (c&He&_).
  apply (ranges_in lo (pivot (meta_data n)) hi r).
  - rewrite <- (cover_fst lo hi n Hs). by apply Forall_fmap.
  - rewrite <- (cover_fst lo hi n Hs). apply list_elem_of_fmap. by exists (r, c).
  - done.
Qed.

(** Only one link covers a key. *)
Lemma cover_ids_other lo hi n j e e' k :
  cover_ok lo hi n → cover_ids lo hi n !! j = Some e → in_range e.1.1 e.1.2 k →
  e' ∈ take j (cover_ids lo hi n) ++ drop (S j) (cover_ids lo hi n) →
  ¬ in_range e'.1.1 e'.1.2 k.
Proof.
  intros Hc Hj Hk He' Hk'. pose proof (cover_ids_unique _ _ _ _ _ _ Hc Hj Hk) as Ej.
  assert (∃ i, cover_ids lo hi n !! i = Some e' ∧ i ≠ j) as (i&Hi&Hne).
  { apply elem_of_app in He' as [He'|He']; apply list_elem_of_lookup in He' as [i Hi].
    - apply lookup_take_Some in Hi as [? ?]. exists i. split; [done|lia].
    - rewrite lookup_drop in Hi. exists (S j + i)%nat. split; [done|lia]. }
  pose proof (cover_ids_unique _ _ _ _ _ _ Hc Hi Hk'). lia.
Qed.

Lemma cover_ids_snd lo hi n :
  shape_ok n → (cover_ids lo hi n).*2 = link_id <$> children n.
Proof.
  intros Hs. rewrite <- (cover_snd lo hi n Hs). unfold cover_ids.
  by rewrite <- !list_fmap_compose.
Qed.

(** The children's objects through the cover. *)
Lemma oids_cover m l lo hi o n :
  m !! o = Some (CopylessInternal n) → shape_ok n →
  oids m (S l) o = o :: concat ((λ e, oids m l e.2.2) <$> cover_ids lo hi n).
Proof.
  intros Ho Hs. simpl. rewrite Ho. do 2 f_equal.
  rewrite <- (cover_snd lo hi n Hs). unfold cover_ids.
  by rewrite <- !list_fmap_compose.
Qed.

(** A node with its range: the part of the invariant the search needs. *)
Lemma tree_cover_ok m l lo hi n :
  shape_ok n →
  Forall (λ e, link_ok e.1.1 e.1.2 e.2.1 ∧ tree_ok m l e.1.1 e.1.2 e.2.2)
    (cover_ids lo hi n) → cover_ok lo hi n.
Proof.
  intros Hs Hall. split; [done|]. unfold cover_ids in Hall. rewrite Forall_fmap in Hall.
  eapply Forall_impl; [exact Hall|]. simpl. intros e [[Hr _] _]. done.
Qed.

(** The child a key leads to. *)
Lemma tree_find m l lo hi o k :
  tree_ok m (S l) lo hi o → in_range lo hi k →
  ∃ n c r, m !! o = Some (CopylessInternal n) ∧ inner_ok l n ∧ cover_ok lo hi n ∧
    children n !! idx n k = Some c ∧ cover lo hi n !! idx n k = Some (r, c) ∧
    in_range r.1 r.2 k ∧ link_ok r.1 r.2 (cl_buffer c) ∧
    tree_ok m l r.1 r.2 (or_id (cl_ptr c)).
Proof.
  intros (n&Ho&Hi&Hall) Hk. pose proof Hi as (Hs&_).
  pose proof (tree_cover_ok _ _ _ _ _ Hs Hall) as Hc.
  destruct (cover_total lo hi n k Hc Hk) as (r&c&Hrc&Hr).
  pose proof Hrc as Hrc'. apply cover_lookup in Hrc' as [_ Hch].
  assert ((r, (cl_buffer c, or_id (cl_ptr c))) ∈ cover_ids lo hi n) as Hin.
  { apply cover_ids_elem. exists c. split; [|done]. by apply list_elem_of_lookup_2 in Hrc. }
  rewrite Forall_forall in Hall. apply Hall in Hin as [Hlk Ht].
  by exists n, c, r.
Qed.

(** Every key has a value. *)
Lemma den_total m l lo hi o k :
  tree_ok m l lo hi o → in_range lo hi k → ∃ d, den m l o k = Some d.
Proof.
  revert lo hi o. induction l as [|l IH]; intros lo hi o Ht Hk.
  - destruct Ht as (b&Ho&_). simpl. rewrite Ho. eauto.
  - destruct (tree_find _ _ _ _ _ _ Ht Hk) as (n&c&r&Ho&_&_&Hc&_&Hr&Hlk&Hsub).
    simpl. rewrite Ho, Hc. simpl. destruct (IH _ _ _ Hsub Hr) as [d ->]. simpl.
    destruct Hlk as (_&Hwf&Hl&_). by apply (msg_eff_total (cl_buffer c)).
Qed.

(** ** Frame *)

Lemma oids_root m l o : o ∈ oids m l o.
Proof. destruct l as [|l]; simpl; repeat case_match; set_solver. Qed.

Lemma oids_child m l o n c :
  m !! o = Some (CopylessInternal n) → c ∈ children n →
  ∀ x, x ∈ oids m l (or_id (cl_ptr c)) → x ∈ oids m (S l) o.
Proof.
  intros Ho Hc x Hx. simpl. rewrite Ho. apply elem_of_cons. right.
  apply list_elem_of_In, in_concat. eexists. split; [|by apply list_elem_of_In].
  apply list_elem_of_In, list_elem_of_fmap. by exists c.
Qed.

Lemma frame m m' l lo hi o :
  (∀ x, x ∈ oids m l o → m' !! x = m !! x) →
  oids m' l o = oids m l o ∧ (∀ k, den m' l o k = den m l o k) ∧
  (tree_ok m l lo hi o → tree_ok m' l lo hi o).
Proof.
  revert lo hi o. induction l as [|l IH]; intros lo hi o Hf.
  - simpl in *. rewrite (Hf o) by set_solver. done.
  - pose proof (Hf o (oids_root _ _ _)) as Ho. simpl. rewrite Ho.
    destruct (m !! o) as [[b|n]|] eqn:Hmo; [split_and!; try done; by intros (n&?&_)..|
      |split_and!; try done; by intros (n&?&_)].
    assert (∀ c, c ∈ children n → ∀ lo hi,
      oids m' l (or_id (cl_ptr c)) = oids m l (or_id (cl_ptr c)) ∧
      (∀ k, den m' l (or_id (cl_ptr c)) k = den m l (or_id (cl_ptr c)) k) ∧
      (tree_ok m l lo hi (or_id (cl_ptr c)) → tree_ok m' l lo hi (or_id (cl_ptr c)))) as Hc.
    { intros c Hc lo' hi'. apply IH. intros x Hx. apply Hf. by eapply oids_child. }
    split_and!.
    + f_equal. f_equal. apply list_fmap_ext. intros i c Hi.
      apply list_elem_of_lookup_2 in Hi. by apply (Hc c Hi None None).
    + intros k. destruct (children n !! idx n k) as [c|] eqn:Hi; simpl; [|done].
      apply list_elem_of_lookup_2 in Hi. by rewrite (proj1 (proj2 (Hc c Hi None None)) k).
    + intros (n'&[= <-]&Hi&Hall). exists n. split_and!; [done..|].
      apply Forall_forall. intros [r [b x]] Hin. rewrite Forall_forall in Hall.
      specialize (Hall _ Hin) as [Hlk Ht]. split; [done|]. simpl in *.
      apply cover_ids_elem in Hin as (c&Hrc&->&->). apply (Hc c); [|done].
      apply list_elem_of_lookup in Hrc as [i Hrc]. apply cover_lookup in Hrc as [_ Hrc].
      by apply list_elem_of_lookup_2 in Hrc.
Qed.

(** All objects of a tree exist. *)
Lemma oids_dom m l lo hi o x : tree_ok m l lo hi o → x ∈ oids m l o → is_Some (m !! x).
Proof.
  revert lo hi o. induction l as [|l IH]; intros lo hi o.
  - intros (b&Ho&_) Hx. simpl in Hx. apply list_elem_of_singleton in Hx as ->. eauto.
  - intros (n&Ho&(Hs&_)&Hall) Hx. rewrite (oids_cover m l lo hi o n Ho Hs) in Hx.
    apply elem_of_cons in Hx as [->|Hx]; [eauto|].
    apply list_elem_of_In, in_concat in Hx as (xs&Hin&Hx).
    apply list_elem_of_In, list_elem_of_fmap in Hin as (e&->&Hin).
    rewrite Forall_forall in Hall. apply Hall in Hin as [_ Ht].
    eapply IH; [exact Ht|]. by apply list_elem_of_In.
Qed.

(** ** Changes inside a subtree *)

(** The value of a key below one link. *)
Definition eden m l (e : entry) k : option (option bytes) :=
  d ← den m l e.2.2 k; msg_eff (buf_contents e.2.1) k d.

Definition entry_ok m l (e : entry) : Prop :=
  link_ok e.1.1 e.1.2 e.2.1 ∧ tree_ok m l e.1.1 e.1.2 e.2.2.

(** The objects below some links. *)
Definition eoids m l (es : list entry) : list oid := concat ((λ e, oids m l e.2.2) <$> es).

Lemma eoids_app m l es es' : eoids m l (es ++ es') = eoids m l es ++ eoids m l es'.
Proof. unfold eoids. by rewrite fmap_app, concat_app. Qed.

Lemma eoids_elem m l es x : x ∈ eoids m l es ↔ ∃ e, e ∈ es ∧ x ∈ oids m l e.2.2.
Proof.
  unfold eoids. rewrite list_elem_of_In, in_concat. split.
  - intros (xs&Hin&Hx). apply list_elem_of_In, list_elem_of_fmap in Hin as (e&->&He).
    exists e. split; [done|]. by apply list_elem_of_In.
  - intros (e&He&Hx). exists (oids m l e.2.2). split; apply list_elem_of_In; [|done].
    apply list_elem_of_fmap. by exists e.
Qed.

(** From [m] to [m'] the subtree of [o] stays a subtree for the same range,
    its keys change by [G], nothing else changes except the new objects
    [F]. *)
Record local_step m m' l lo hi o (F : list oid)
    (G : bytes → option bytes → option (option bytes)) : Prop := {
  ls_out x : x ∉ oids m l o → x ∉ F → m' !! x = m !! x;
  ls_ok : tree_ok m' l lo hi o;
  ls_den k : in_range lo hi k → den m' l o k = (d ← den m l o k; G k d);
  ls_oids : oids m' l o ⊆+ F ++ oids m l o;
}.

(** The value of a key through the cover. *)
Lemma den_cover m l lo hi o n e k :
  m !! o = Some (CopylessInternal n) → cover_ok lo hi n →
  e ∈ cover_ids lo hi n → in_range e.1.1 e.1.2 k → den m (S l) o k = eden m l e k.
Proof.
  intros Ho Hc He Hk. destruct e as [r [b x]]. apply cover_ids_elem in He as (c&He&->&->).
  simpl. rewrite Ho, (cover_find lo hi n k r c Hc He Hk). done.
Qed.

Lemma cover_ids_total lo hi n k :
  cover_ok lo hi n → in_range lo hi k →
  ∃ e, e ∈ cover_ids lo hi n ∧ in_range e.1.1 e.1.2 k.
Proof.
  intros Hc Hk. destruct (cover_total lo hi n k Hc Hk) as (r&c&Hrc&Hr).
  exists (r, (cl_buffer c, or_id (cl_ptr c))). split; [|done].
  apply cover_ids_elem. exists c. split; [|done]. by apply list_elem_of_lookup_2 in Hrc.
Qed.

Lemma entry_frame m m' l e :
  (∀ x, x ∈ oids m l e.2.2 → m' !! x = m !! x) →
  oids m' l e.2.2 = oids m l e.2.2 ∧ (∀ k, eden m' l e k = eden m l e k) ∧
  (entry_ok m l e → entry_ok m' l e).
Proof.
  intros Hf. destruct (frame m m' l e.1.1 e.1.2 e.2.2 Hf) as (Ho&Hd&Ht).
  split_and!; [done| |by intros []; split; auto]. intros k. unfold eden. by rewrite Hd.
Qed.

Lemma eoids_frame m m' l es :
  (∀ x, x ∈ eoids m l es → m' !! x = m !! x) →
  eoids m' l es = eoids m l es ∧ (∀ e k, e ∈ es → eden m' l e k = eden m l e k) ∧
  (Forall (entry_ok m l) es → Forall (entry_ok m' l) es).
Proof.
  intros Hf.
  assert (∀ e, e ∈ es → oids m' l e.2.2 = oids m l e.2.2 ∧
    (∀ k, eden m' l e k = eden m l e k) ∧ (entry_ok m l e → entry_ok m' l e)) as He.
  { intros e He. apply entry_frame. intros x Hx. apply Hf, eoids_elem. eauto. }
  split_and!.
  - unfold eoids. f_equal. apply list_fmap_ext. intros i e Hi.
    apply list_elem_of_lookup_2 in Hi. by apply He.
  - intros e k Hin. by apply He.
  - rewrite !Forall_forall. intros Hall e Hin. apply He; auto.
Qed.

(** The general step: in node [o] the links [old] are replaced by [new]. *)
Lemma node_step m m' l lo hi o n n' A old new B F G :
  tree_ok m (S l) lo hi o → NoDup (oids m (S l) o) →
  m !! o = Some (CopylessInternal n) → m' !! o = Some (CopylessInternal n') →
  inner_ok l n' →
  cover_ids lo hi n = A ++ old ++ B → cover_ids lo hi n' = A ++ new ++ B →
  (∀ x, x ≠ o → x ∉ eoids m l old → x ∉ F → m' !! x = m !! x) →
  (∀ x, x ∈ F → x ∉ oids m (S l) o) →
  Forall (entry_ok m' l) new → eoids m' l new ⊆+ F ++ eoids m l old →
  (∀ e' k, e' ∈ new → in_range e'.1.1 e'.1.2 k →
    ∃ e, e ∈ old ∧ in_range e.1.1 e.1.2 k ∧ eden m' l e' k = (d ← eden m l e k; G k d)) →
  (∀ e k, e ∈ A ++ B → in_range e.1.1 e.1.2 k → ∀ d, G k d = Some d) →
  local_step m m' (S l) lo hi o F G.
Proof.
  intros (n0&Hn0&(Hs0&_)&Hall) Hnd Ho Ho' Hi HA HA' Hout HF Hnew Hsub Hden HG.
  rewrite Ho in Hn0. simplify_eq.
  pose proof (tree_cover_ok _ _ _ _ _ Hs0 Hall) as Hc. pose proof Hi as (Hs'&_).
  change (Forall (entry_ok m l) (cover_ids lo hi n0)) in Hall.
  assert (oids m (S l) o = o :: eoids m l A ++ eoids m l old ++ eoids m l B) as Eo.
  { rewrite (oids_cover m l lo hi o n0) by done. fold (eoids m l (cover_ids lo hi n0)).
    by rewrite HA, !eoids_app. }
  rewrite Eo in Hnd, HF. rewrite HA, !Forall_app in Hall. destruct Hall as (HallA&_&HallB).
  apply NoDup_cons in Hnd as [HnR Hnd]. rewrite !NoDup_app in Hnd.
  destruct Hnd as (_&HdA&_&HdB&_).
  destruct (eoids_frame m m' l A) as (EA&DA&KA).
  { intros x Hx. apply Hout; intros Hx'; [subst|apply HdA in Hx|apply HF in Hx']; set_solver. }
  destruct (eoids_frame m m' l B) as (EB&DB&KB).
  { intros x Hx. apply Hout; intros Hx'; [subst|apply HdB in Hx'|apply HF in Hx']; set_solver. }
  assert (Forall (entry_ok m' l) (cover_ids lo hi n')) as Hall'.
  { rewrite HA', !Forall_app. auto. }
  pose proof (tree_cover_ok _ _ _ _ _ Hs' Hall') as Hc'.
  split.
  - intros x Hx HxF. rewrite Eo in Hx. apply Hout; set_solver.
  - exists n'. by split_and!.
  - intros k Hk. destruct (cover_ids_total lo hi n' k Hc' Hk) as (e'&He'&Hk').
    rewrite (den_cover m' l lo hi o n' e' k) by done.
    assert (e' ∈ new ∨ e' ∈ A ++ B) as [Hin|Hin] by (rewrite HA' in He'; set_solver).
    + destruct (Hden e' k Hin Hk') as (e&He&Hke&->).
      rewrite (den_cover m l lo hi o n0 e k); [done|done|done| |done]. rewrite HA. set_solver.
    + rewrite (den_cover m l lo hi o n0 e' k); [|done|done|rewrite HA; set_solver|done].
      assert (eden m' l e' k = eden m l e' k) as ->.
      { apply elem_of_app in Hin as [?|?]; auto. }
      destruct (eden m l e' k) as [d|]; simpl; [|done]. by rewrite (HG e').
  - rewrite Eo, (oids_cover m' l lo hi o n') by done.
    fold (eoids m' l (cover_ids lo hi n')). rewrite HA', !eoids_app, EA, EB.
    apply submseteq_cons_middle, submseteq_app_middle. rewrite app_assoc.
    by apply submseteq_skips_r.
Qed.

(** The links around one position. *)
Lemma cover_ids_cut lo hi n j e :
  cover_ids lo hi n !! j = Some e →
  cover_ids lo hi n = take j (cover_ids lo hi n) ++ [e] ++ drop (S j) (cover_ids lo hi n).
Proof. intros Hj. by rewrite <- (take_drop_middle _ _ _ Hj) at 1. Qed.

(** Entries with the same range and buffer value. *)
Lemma eden_same m m' l r b x b' x' k G :
  (∀ d, msg_eff (buf_contents b') k d = msg_eff (buf_contents b) k d) →
  (∀ d, G k d = Some d) →
  den m' l x' k = den m l x k →
  eden m' l (r, (b', x')) k = (d ← eden m l (r, (b, x)) k; G k d).
Proof.
  intros Hm HG Hd. unfold eden. simpl. rewrite Hd.
  destruct (den m l x k) as [d|]; simpl; [|done]. rewrite Hm.
  destruct (msg_eff _ k d); simpl; [|done]. by rewrite HG.
Qed.

Definition keep (k : bytes) (d : option bytes) : option (option bytes) := Some d.

Lemma bind_keep k (d : option (option bytes)) : (x ← d; keep k x) = d.
Proof. by destruct d. Qed.

(** A step that keeps the values of one child's subtree is one of the
    parent's subtree. *)
Lemma child_step m m' l lo hi o n j e F :
  tree_ok m (S l) lo hi o → NoDup (oids m (S l) o) →
  m !! o = Some (CopylessInternal n) → cover_ids lo hi n !! j = Some e →
  (∀ x, x ∈ F → x ∉ oids m (S l) o) →
  local_step m m' l e.1.1 e.1.2 e.2.2 F keep →
  local_step m m' (S l) lo hi o F keep ∧ m' !! o = m !! o.
Proof.
  intros Ht Hnd Ho Hj HF [Hout Hok Hden Hsub].
  pose proof Ht as (n0&Hn0&Hi&Hall). rewrite Ho in Hn0. simplify_eq.
  pose proof Hi as (Hs&_).
  pose proof (cover_ids_cut _ _ _ _ _ Hj) as Hcut.
  assert (o ∉ oids m l e.2.2) as Hno.
  { rewrite (oids_cover m l lo hi o n0) in Hnd by done. apply NoDup_cons in Hnd as [Hnd _].
    intros Hin. apply Hnd, eoids_elem. exists e. split; [|done].
    by apply list_elem_of_lookup_2 in Hj. }
  assert (m' !! o = m !! o) as Ho'.
  { apply Hout; [done|]. intros Hin. apply (HF o Hin), oids_root. }
  split; [|done].
  pose proof (Forall_lookup_1 _ _ _ _ Hall Hj) as [Hlk _].
  apply (node_step m m' l lo hi o n0 n0 (take j (cover_ids lo hi n0)) [e] [e]
           (drop (S j) (cover_ids lo hi n0))); try done.
  - by rewrite Ho'.
  - intros x Hx Hxe HxF. apply Hout; [|done]. unfold eoids in Hxe. simpl in Hxe.
    by rewrite app_nil_r in Hxe.
  - constructor; [by split|constructor].
  - unfold eoids. simpl. by rewrite !app_nil_r.
  - intros e' k He' Hk. apply list_elem_of_singleton in He' as ->. exists e.
    split_and!; [set_solver|done|]. destruct e as [r [b x]].
    apply eden_same; [done|done|]. simpl in *. rewrite Hden by done. apply bind_keep.
Qed.

(** The same when the child's values change for one key only: so do the
    parent's. *)
Definition changed m' l o key (k : bytes) (d : option bytes) : option (option bytes) :=
  if beqb k key then den m' l o key else Some d.

Lemma child_step_key m m' l lo hi o n j e F G key :
  tree_ok m (S l) lo hi o → NoDup (oids m (S l) o) →
  m !! o = Some (CopylessInternal n) → cover_ids lo hi n !! j = Some e →
  (∀ x, x ∈ F → x ∉ oids m (S l) o) → in_range e.1.1 e.1.2 key →
  (∀ k d, k ≠ key → G k d = Some d) →
  local_step m m' l e.1.1 e.1.2 e.2.2 F G →
  local_step m m' (S l) lo hi o F (changed m' (S l) o key) ∧ m' !! o = m !! o.
Proof.
  intros Ht Hnd Ho Hj HF Hkey HG [Hout Hok Hden Hsub].
  pose proof Ht as (n0&Hn0&Hi&Hall). rewrite Ho in Hn0. injection Hn0 as <-.
  pose proof Hi as (Hs&_). pose proof (tree_cover_ok _ _ _ _ _ Hs Hall) as Hc.
  pose proof (list_elem_of_lookup_2 _ _ _ Hj) as Hin.
  assert (m' !! o = m !! o) as Ho'.
  { apply Hout; [|intros Hx; apply (HF o Hx), oids_root].
    rewrite (oids_cover m l lo hi o n) in Hnd by done. apply NoDup_cons in Hnd as [Hnd _].
    intros Hx. apply Hnd, eoids_elem. by exists e. }
  split; [|done].
  pose proof (Forall_lookup_1 _ _ _ _ Hall Hj) as [Hlk Hte].
  apply (node_step m m' l lo hi o n n (take j (cover_ids lo hi n)) [e] [e]
           (drop (S j) (cover_ids lo hi n))); try done.
  - by rewrite Ho'.
  - by apply cover_ids_cut.
  - by apply cover_ids_cut.
  - intros x Hx Hxe HxF. apply Hout; [|done]. intros Hx'. apply Hxe, eoids_elem.
    exists e. split; [set_solver|done].
  - by apply Forall_singleton.
  - unfold eoids. simpl. by rewrite !app_nil_r.
  - intros e' k He' Hk. apply list_elem_of_singleton in He' as ->. exists e.
    split_and!; [set_solver|done|]. unfold changed. bbool.
    + subst k. rewrite (den_cover m' l lo hi o n e key); [|by rewrite Ho'|done..].
      assert (∃ d, eden m l e key = Some d) as [d ->]; [|done].
      destruct (den_total m l _ _ _ _ Hte Hk) as [d Ed]. unfold eden. rewrite Ed. simpl.
      destruct Hlk as (_&Hwf&Hl&_). by apply (msg_eff_total e.2.1).
    + unfold eden. rewrite Hden by done. destruct (den m l e.2.2 k) as [d|]; simpl; [|done].
      rewrite HG by done. simpl. by destruct (msg_eff _ k d).
  - intros e' k He' Hk d. unfold changed. bbool; [|done]. subst. exfalso.
    by eapply cover_ids_other.
Qed.

(** [o'] is a node of the subtree of [o]. *)
Inductive at_path m : nat → range → oid → nat → range → oid → Prop :=
| path_here l r o : at_path m l r o l r o
| path_below l r o n j e l' r' o' :
    m !! o = Some (CopylessInternal n) → cover_ids r.1 r.2 n !! j = Some e →
    at_path m l e.1 e.2.2 l' r' o' → at_path m (S l) r o l' r' o'.

Lemma path_child m L R0 R l r o n j e :
  at_path m L R0 R (S l) r o → m !! o = Some (CopylessInternal n) →
  cover_ids r.1 r.2 n !! j = Some e → at_path m L R0 R l e.1 e.2.2.
Proof.
  intros Hp. remember (S l) as l1. revert Heql1.
  induction Hp; intros -> Ho Hj; eapply path_below; eauto using path_here.
Qed.

Lemma path_range m L R0 R l r o : at_path m L R0 R l r o → (l ≤ L)%nat.
Proof. induction 1; lia. Qed.

(** A part of a tree is a tree. *)
Lemma path_ok m L R0 R l r o :
  at_path m L R0 R l r o → tree_ok m L R0.1 R0.2 R → NoDup (oids m L R) →
  tree_ok m l r.1 r.2 o ∧ NoDup (oids m l o) ∧ (∀ x, x ∈ oids m l o → x ∈ oids m L R).
Proof.
  induction 1 as [|l r o n j e l' r' o' Ho Hj Hp IH]; intros Ht Hnd; [by split_and!|].
  destruct Ht as (n0&Hn0&(Hs&_)&Hall). rewrite Ho in Hn0. simplify_eq.
  pose proof (Forall_lookup_1 _ _ _ _ Hall Hj) as [_ Ht].
  rewrite (oids_cover m l r.1 r.2 o n0) in Hnd |- * by done.
  fold (eoids m l (cover_ids r.1 r.2 n0)) in Hnd |- *.
  assert (eoids m l (cover_ids r.1 r.2 n0) =
    eoids m l (take j (cover_ids r.1 r.2 n0)) ++ oids m l e.2.2 ++
      eoids m l (drop (S j) (cover_ids r.1 r.2 n0))) as E.
  { rewrite (cover_ids_cut _ _ _ _ _ Hj) at 1. rewrite !eoids_app. do 2 f_equal.
    unfold eoids. simpl. by rewrite app_nil_r. }
  apply NoDup_cons in Hnd as [_ Hnd]. rewrite E, !NoDup_app in Hnd.
  destruct IH as (?&?&Hin); [done|by destruct Hnd as (_&_&?&_)|].
  split_and!; [done..|]. intros x Hx. apply elem_of_cons. right. rewrite E. set_solver.
Qed.

(** A path depends on the nodes above its end only. *)
Lemma path_frame m m' L R0 R l r o :
  at_path m L R0 R l r o → tree_ok m L R0.1 R0.2 R → NoDup (oids m L R) →
  (∀ x, x ∈ oids m L R → x ∉ oids m l o → m' !! x = m !! x) →
  at_path m' L R0 R l r o.
Proof.
  induction 1 as [|l r o n j e l' r' o' Ho Hj Hp IH]; intros Ht Hnd Hf; [constructor|].
  pose proof (path_below _ _ _ _ _ _ _ _ _ _ Ho Hj (path_here m l e.1 e.2.2)) as Hp1.
  destruct (path_ok _ _ _ _ _ _ _ Hp1 Ht Hnd) as (Ht1&Hnd1&Hin1).
  destruct (path_ok _ _ _ _ _ _ _ Hp Ht1 Hnd1) as (_&_&Hin2).
  eapply path_below; [|done|].
  - rewrite Hf; [done|apply oids_root|]. intros Hx.
    destruct Ht as (n0&Hn0&(Hs&_)&_). rewrite Ho in Hn0. injection Hn0 as <-.
    rewrite (oids_cover m l r.1 r.2 o n) in Hnd by done. apply NoDup_cons in Hnd as [Hnd _].
    apply Hnd, eoids_elem. exists e. split; [by eapply list_elem_of_lookup_2|auto].
  - apply IH; [done..|]. auto.
Qed.

(** The lifting lemma. *)
Lemma path_step m m' L R0 R l r o F :
  at_path m L R0 R l r o → tree_ok m L R0.1 R0.2 R → NoDup (oids m L R) →
  (∀ x, x ∈ F → x ∉ oids m L R) → local_step m m' l r.1 r.2 o F keep →
  local_step m m' L R0.1 R0.2 R F keep ∧ at_path m' L R0 R l r o.
Proof.
  induction 1 as [|l r o n j e l' r' o' Ho Hj Hp IH]; intros Ht Hnd HF Hls.
  - split; [done|constructor].
  - pose proof (path_below _ _ _ _ _ _ _ _ _ _ Ho Hj (path_here m l e.1 e.2.2)) as Hp1.
    destruct (path_ok _ _ _ _ _ _ _ Hp1 Ht Hnd) as (Ht1&Hnd1&Hin1).
    destruct IH as [Hls1 Hp']; [done..| |done|].
    { intros x Hx Hx'. by eapply HF, Hin1. }
    destruct (child_step m m' l r.1 r.2 o n j e F) as [? Ho']; [done..|].
    split; [done|]. eapply path_below; [by rewrite Ho'|done|done].
Qed.

(** Lifting a change of one key. *)
Lemma path_step_key m m' L R0 R l r o F G key :
  at_path m L R0 R l r o → tree_ok m L R0.1 R0.2 R → NoDup (oids m L R) →
  (∀ x, x ∈ F → x ∉ oids m L R) → in_range r.1 r.2 key →
  (∀ k d, k ≠ key → G k d = Some d) → local_step m m' l r.1 r.2 o F G →
  (∃ G', local_step m m' L R0.1 R0.2 R F G' ∧ ∀ k d, k ≠ key → G' k d = Some d) ∧
  at_path m' L R0 R l r o ∧ in_range R0.1 R0.2 key.
Proof.
  induction 1 as [|l r o n j e l' r' o' Ho Hj Hp IH]; intros Ht Hnd HF Hkey HG Hls.
  - split_and!; [by exists G|constructor|done].
  - pose proof (path_below _ _ _ _ _ _ _ _ _ _ Ho Hj (path_here m l e.1 e.2.2)) as Hp1.
    destruct (path_ok _ _ _ _ _ _ _ Hp1 Ht Hnd) as (Ht1&Hnd1&Hin1).
    destruct IH as ((G1&Hls1&HG1)&Hp'&Hk1); [done|done| |done..|].
    { intros x Hx Hx'. by eapply HF, Hin1. }
    destruct (child_step_key m m' l r.1 r.2 o n j e F G1 key) as [Hls2 Ho']; [done..|].
    split_and!.
    + eexists. split; [done|]. intros k d Hk. unfold changed. by bbool.
    + eapply path_below; [by rewrite Ho'|done|done].
    + pose proof Ht as (n0&Hn0&Hi&Hall). rewrite Ho in Hn0. injection Hn0 as <-.
      apply (cover_ids_range r.1 r.2 n e); [apply Hi| |by eapply list_elem_of_lookup_2|done].
      eapply tree_cover_ok; [apply Hi|done].
Qed.

(** ** The way to a key without messages for it *)

Inductive clear_path m (key : bytes) : nat → oid → nat → oid → Prop :=
| clear_here l o : clear_path m key l o l o
| clear_below l o n c l' o' :
    m !! o = Some (CopylessInternal n) → children n !! idx n key = Some c →
    bt_get key (buf_contents (cl_buffer c)) = None →
    clear_path m key l (or_id (cl_ptr c)) l' o' → clear_path m key (S l) o l' o'.

Lemma clear_den m key l o l' o' :
  clear_path m key l o l' o' → den m l o key = den m l' o' key.
Proof.
  induction 1 as [|l o n c l' o' Ho Hc Hk Hp IH]; [done|]. simpl. rewrite Ho, Hc. simpl.
  rewrite IH. destruct (den m l' o' key) as [d|]; simpl; [|done]. by apply msg_eff_not_in.
Qed.

Lemma clear_oids m key l o l' o' x :
  clear_path m key l o l' o' → x ∈ oids m l' o' → x ∈ oids m l o.
Proof.
  induction 1 as [|l o n c l' o' Ho Hc Hk Hp IH]; [done|]. intros Hx.
  eapply oids_child; [done|by eapply list_elem_of_lookup_2|auto].
Qed.

(** The way stays clear when only its end changes. *)
Lemma clear_frame m m' key l lo hi o l' o' :
  tree_ok m l lo hi o → NoDup (oids m l o) → clear_path m key l o l' o' →
  (∀ x, x ∉ oids m l' o' → x ∈ oids m l o → m' !! x = m !! x) →
  clear_path m' key l o l' o'.
Proof.
  intros Ht Hnd Hp. revert lo hi Ht Hnd.
  induction Hp as [|l o n c l' o' Ho Hc Hk Hp IH]; intros lo hi Ht Hnd Hf; [constructor|].
  pose proof Ht as (n0&Hn0&(Hs&_)&Hall). rewrite Ho in Hn0. injection Hn0 as <-.
  destruct (cover_child lo hi n _ c Hs Hc) as [r Hr].
  set (e := (r, (cl_buffer c, or_id (cl_ptr c))) : entry).
  assert (cover_ids lo hi n !! idx n key = Some e) as He
    by (unfold cover_ids; by rewrite list_lookup_fmap, Hr).
  pose proof (path_below m l (lo, hi) o n _ e _ _ _ Ho He (path_here m l e.1 e.2.2)) as Hp1.
  destruct (path_ok _ _ _ _ _ _ _ Hp1 Ht Hnd) as (Ht1&Hnd1&Hin1).
  apply clear_below with n c; [|done|done|].
  - rewrite Hf; [done| |apply oids_root]. intros Hx.
    rewrite (oids_cover m l lo hi o n Ho Hs) in Hnd. apply NoDup_cons in Hnd as [Hnd _].
    apply Hnd, eoids_elem. exists e. split; [by eapply list_elem_of_lookup_2|].
    by eapply clear_oids.
  - eapply IH; [done..|]. intros x Hx Hx'. apply Hf; [done|]. by apply Hin1.
Qed.

(** The range of the root. *)
Definition whole : range := (None, None).

(** ** Steps of the store *)

Lemma NoDup_sub {A} (l1 l2 : list A) : l1 ⊆+ l2 → NoDup l2 → NoDup l1.
Proof.
  intros Hs Hnd. apply submseteq_Permutation in Hs as [l' Hp]. rewrite Hp in Hnd.
  by apply NoDup_app in Hnd as [? _].
Qed.

(** In the store, [o] is the root of a subtree of height [l] for [r]. *)
Record sub_ok (s : Store) l (r : range) o : Prop := {
  sub_tree : tree_ok (objs s) l r.1 r.2 o;
  sub_nodup : NoDup (oids (objs s) l o);
  sub_next x : x ∈ oids (objs s) l o → (x < next_id s)%positive;
}.

(** A change of the subtree that keeps all values; the new objects [F] are
    taken from [next_id]. *)
Definition store_step (s s' : Store) l (r : range) o
    (G : bytes → option bytes → option (option bytes)) : Prop :=
  ∃ F, local_step (objs s) (objs s') l r.1 r.2 o F G ∧ NoDup F ∧
    (∀ x, x ∈ F → (next_id s ≤ x < next_id s')%positive) ∧
    (next_id s ≤ next_id s')%positive.

Lemma store_step_ok s s' l r o G : sub_ok s l r o → store_step s s' l r o G → sub_ok s' l r o.
Proof.
  intros [Ht Hnd Hnx] (F&[Hout Hok Hden Hsub]&HF&HFr&Hle). split; [done| |].
  - eapply NoDup_sub; [done|]. apply NoDup_app. split_and!; [done| |done].
    intros x Hx Hx'. apply HFr in Hx. apply Hnx in Hx'. lia.
  - intros x Hx. eapply elem_of_submseteq in Hsub; [|done].
    apply elem_of_app in Hsub as [Hx'|Hx']; [by apply HFr|apply Hnx in Hx'; lia].
Qed.

Lemma store_step_seq s1 s2 s3 l r o G1 G2 G :
  store_step s1 s2 l r o G1 → store_step s2 s3 l r o G2 →
  (∀ k d, in_range r.1 r.2 k → G k d = (d' ← G1 k d; G2 k d')) →
  store_step s1 s3 l r o G.
Proof.
  intros (F&[Hout Ht Hden Hsub]&HF&HFr&Hle) (F'&[Hout' Ht' Hden' Hsub']&HF'&HFr'&Hle') HG.
  exists (F' ++ F). split_and!; [split; try done|..].
  - intros x Hx HxF. apply not_elem_of_app in HxF as [? ?].
    rewrite Hout'; [by apply Hout| |done].
    intros Hin. eapply elem_of_submseteq in Hsub; [|done]. set_solver.
  - intros k Hk. rewrite Hden', Hden by done.
    destruct (den (objs s1) l o k) as [d|]; simpl; [|done]. by rewrite HG.
  - etrans; [exact Hsub'|]. rewrite <- app_assoc. by apply submseteq_skips_l.
  - apply NoDup_app. split_and!; [done| |done]. intros x Hx Hx'.
    apply HFr in Hx'. apply HFr' in Hx. lia.
  - intros x Hx. apply elem_of_app in Hx as [Hx|Hx]; [apply HFr' in Hx|apply HFr in Hx]; lia.
  - lia.
Qed.

Lemma store_step_trans s1 s2 s3 l r o G :
  store_step s1 s2 l r o keep → store_step s2 s3 l r o G → store_step s1 s3 l r o G.
Proof. intros Hs Hs2. by eapply store_step_seq. Qed.

(** A step that leaves the subtree as it is, e.g. of the set of mutable
    objects. *)
Lemma store_step_same s s' l r o :
  sub_ok s l r o → objs s' = objs s → next_id s' = next_id s → store_step s s' l r o keep.
Proof.
  intros [Ht Hnd Hnx] Ho Hn. exists []. rewrite Ho, Hn. split_and!; [|constructor|set_solver|lia].
  split; [done|done| |done]. intros k Hk. by rewrite bind_keep.
Qed.

(** Steps inside a part of the tree are steps of the tree. *)
Lemma store_step_path s s' L R0 R l r o :
  sub_ok s L R0 R → at_path (objs s) L R0 R l r o →
  store_step s s' l r o keep →
  store_step s s' L R0 R keep ∧ at_path (objs s') L R0 R l r o.
Proof.
  intros [Ht Hnd Hnx] Hp (F&Hls&HF&HFr&Hle).
  destruct (path_step (objs s) (objs s') L R0 R l r o F) as [Hls' Hp']; [done..| |done|].
  { intros x Hx Hx'. apply HFr in Hx. apply Hnx in Hx'. lia. }
  split; [|done]. by exists F.
Qed.

Lemma sub_path s L R0 R l r o :
  sub_ok s L R0 R → at_path (objs s) L R0 R l r o → sub_ok s l r o.
Proof.
  intros [Ht Hnd Hnx] Hp. destruct (path_ok _ _ _ _ _ _ _ Hp Ht Hnd) as (?&?&Hin).
  split; auto.
Qed.

End tree_inv.
