(* ===== verification/TreeSteps.v ===== *)
(** * The steps of the tree algorithms keep the invariant and the contents

    Every operation that [insert] and [rebalance_tree] perform on the store
    is a [store_step] of the subtree it works on: reading sizes
    ([test_node]), inserting a message ([node_insert]), splitting a node
    under its parent ([split_node]), merging two children ([merge_step]),
    flushing a buffer ([flush_step]), filling a leaf from its sibling
    ([fill_step]). *)

From Stdlib Require Import ZArith Lia.
From stdpp Require Import base option list numbers gmap fin_maps.
From S2P Require Import Prelude.
From S2P Require Import Bytes.
From S2P Require Import BTreeMap.
From S2P Require Import CowBytes.
From S2P Require Import StoragePref.
From S2P Require Import Message.
From S2P Require Import Checksum.
From S2P Require Import ChildBuffer.
From S2P Require Import Pivots.
From S2P Require Import Internal.
From S2P Require Import Node.
From S2P Require Import Tree.
From S2P Require Import TreeInv.

Section steps.
Context `{Checksum} `{MessageActionLaws}.
Implicit Types (m : heap) (l : nat) (lo hi : option bytes) (o : oid) (k : bytes)
  (b : PackedChildBuffer) (n : CopylessInternalNode ObjRef) (s : Store) (r : range).

(** What one message does to the values. *)
Definition upd (key msg : bytes) (k : bytes) (d : option bytes) : option (option bytes) :=
  if beqb k key then ma_apply key msg d else Some d.

(** ** One node changes *)

Lemma leaf_step s o r b b' G :
  sub_ok s 0 r o → objs s !! o = Some (MemLeaf b) → leaf_ok r.1 r.2 b' →
  (∀ k, in_range r.1 r.2 k →
    Some (leaf_val (buf_contents b') k) = G k (leaf_val (buf_contents b) k)) →
  store_step s (put s o (MemLeaf b')) 0 r o G.
Proof.
  intros [Ht Hnd Hnx] Ho Hb HG. exists []. split_and!; [|constructor|set_solver|simpl; lia].
  split; simpl.
  - intros x Hx _. rewrite lookup_insert_ne; [done|set_solver].
  - exists b'. by rewrite lookup_insert_eq.
  - intros k Hk. rewrite lookup_insert_eq, Ho. simpl. by apply HG.
  - done.
Qed.

(** The node of a subtree that is not a leaf. *)
Lemma sub_inner s l r o :
  sub_ok s (S l) r o →
  ∃ n, objs s !! o = Some (CopylessInternal n) ∧ inner_ok l n ∧ cover_ok r.1 r.2 n ∧
    Forall (entry_ok (objs s) l) (cover_ids r.1 r.2 n) ∧
    oids (objs s) (S l) o = o :: eoids (objs s) l (cover_ids r.1 r.2 n).
Proof.
  intros [(n&Ho&Hi&Hall) _ _]. pose proof Hi as (Hs&_). exists n.
  split_and!; [done..| |done|].
  - by eapply tree_cover_ok.
  - by rewrite (oids_cover _ _ r.1 r.2 _ n).
Qed.

(** Node [o] is replaced without a change of its objects below. *)
Lemma inner_put s l r o n n' A B old new G :
  sub_ok s (S l) r o → objs s !! o = Some (CopylessInternal n) → inner_ok l n' →
  cover_ids r.1 r.2 n = A ++ old ++ B → cover_ids r.1 r.2 n' = A ++ new ++ B →
  (snd ∘ snd <$> new) = (snd ∘ snd <$> old) →
  Forall (entry_ok (objs s) l) new →
  (∀ e' k, e' ∈ new → in_range e'.1.1 e'.1.2 k → ∃ e, e ∈ old ∧ in_range e.1.1 e.1.2 k ∧
    eden (objs s) l e' k = (d ← eden (objs s) l e k; G k d)) →
  (∀ e k, e ∈ A ++ B → in_range e.1.1 e.1.2 k → ∀ d, G k d = Some d) →
  store_step s (put s o (CopylessInternal n')) (S l) r o G.
Proof.
  intros Hok Ho Hi HA HA' Hids Hnew Hden HG. pose proof Hok as [Ht Hnd Hnx].
  destruct (sub_inner _ _ _ _ Hok) as (n0&Hn0&_&_&Hall&Eo). simplify_eq.
  assert (∀ m, eoids m l new = eoids m l old) as Ee.
  { intros m. unfold eoids. apply (f_equal (fmap (oids m l))) in Hids.
    rewrite <- !list_fmap_compose in Hids. unfold compose in Hids. by f_equal. }
  assert (∀ x, x ∈ eoids (objs s) l (A ++ old ++ B) →
    <[o := CopylessInternal n']> (objs s) !! x = objs s !! x) as Hf.
  { intros x Hx. rewrite lookup_insert_ne; [done|]. intros <-.
    rewrite Eo, HA in Hnd. by apply NoDup_cons in Hnd as [? _]. }
  destruct (eoids_frame (objs s) (<[o := CopylessInternal n']> (objs s)) l new) as (E1&E2&E3).
  { intros x Hx. apply Hf. rewrite Ee in Hx. rewrite !eoids_app. set_solver. }
  exists []. split_and!; [|constructor|set_solver|simpl; lia].
  apply (node_step _ _ l r.1 r.2 o n n' A old new B); simpl; auto.
  - by rewrite lookup_insert_eq.
  - intros x Hx _ _. by rewrite lookup_insert_ne.
  - set_solver.
  - by rewrite E1, Ee.
  - intros e' k He' Hk. rewrite E2 by done. auto.
Qed.

(** The buffer of one link changes. *)
Lemma link_put s l r o n n' j e b' G :
  sub_ok s (S l) r o → objs s !! o = Some (CopylessInternal n) → inner_ok l n' →
  cover_ids r.1 r.2 n !! j = Some e →
  cover_ids r.1 r.2 n' = take j (cover_ids r.1 r.2 n) ++ [(e.1, (b', e.2.2))] ++
    drop (S j) (cover_ids r.1 r.2 n) →
  link_ok e.1.1 e.1.2 b' →
  (∀ k d, in_range e.1.1 e.1.2 k → msg_eff (buf_contents b') k d =
    (d' ← msg_eff (buf_contents e.2.1) k d; G k d')) →
  (∀ e' k, e' ∈ take j (cover_ids r.1 r.2 n) ++ drop (S j) (cover_ids r.1 r.2 n) →
    in_range e'.1.1 e'.1.2 k → ∀ d, G k d = Some d) →
  store_step s (put s o (CopylessInternal n')) (S l) r o G.
Proof.
  intros Hok Ho Hi Hj Hcov Hlk Heff HG.
  destruct (sub_inner _ _ _ _ Hok) as (n0&Hn0&_&_&Hall&_). simplify_eq.
  pose proof (Forall_lookup_1 _ _ _ _ Hall Hj) as [_ Hte].
  eapply inner_put; [done..|by apply cover_ids_cut|done|done| | |done].
  - constructor; [|constructor]. by split.
  - intros e' k He' Hk. apply list_elem_of_singleton in He' as ->. exists e.
    split_and!; [set_solver|done|]. unfold eden. simpl.
    destruct (den (objs s) l e.2.2 k) as [d|]; simpl; [|done]. by apply Heff.
Qed.

(** *** Cached preferences *)

Lemma sub_node s l r o :
  sub_ok s l r o →
  ∃ nd, objs s !! o = Some nd ∧ node_wf nd ∧ is_leaf_node nd = (l =? 0)%nat.
Proof.
  intros [Ht _ _]. destruct l as [|l]; destruct Ht as (x&Hx&Hx').
  - destruct Hx' as (?&_). eexists. split_and!; [done| |done]. simpl. eauto.
  - destruct Hx' as ((_&_&?)&_). eexists. by split_and!.
Qed.

Lemma buf_sim_contents b b' : buf_sim b b' → buf_contents b' = buf_contents b.
Proof. intros (Hb&_). unfold buf_contents. by rewrite Hb. Qed.

Lemma leaf_ok_sim lo hi b b' : buf_sim b b' → leaf_ok lo hi b → leaf_ok lo hi b'.
Proof.
  intros Hsim (Hwf&Hl&Hk). pose proof (buf_sim_contents _ _ Hsim) as E.
  destruct Hsim as (_&El&_&Hw). unfold leaf_ok, keys_in. rewrite E, El. auto.
Qed.

Lemma in_sim_cover lo hi n n' : in_sim n n' → cover_ids lo hi n' = cover_ids lo hi n.
Proof. intros (Hc&Hp&_). unfold cover_ids, cover. by rewrite Hc, Hp. Qed.

Lemma in_sim_inner l n n' : in_sim n n' → inner_ok l n → inner_ok l n'.
Proof.
  intros (Hc&Hp&He&Hf&Hl&_&Hv) ([? ? ?]&?&?). split_and!; [|by rewrite Hl|by auto].
  split; rewrite ?Hc, ?Hp, ?He, ?Hf; done.
Qed.

Lemma touch_step s l r o nd nd' :
  sub_ok s l r o → objs s !! o = Some nd → node_sim nd nd' →
  store_step s (put s o nd') l r o keep.
Proof.
  intros Hok Ho Hsim. pose proof Hok as [Ht _ _]. destruct l as [|l].
  - destruct Ht as (b&Hb&Hlf). simplify_eq. destruct nd' as [b'|]; [|done].
    apply (leaf_step _ _ _ b); [done..|by eapply leaf_ok_sim|].
    intros k Hk. by rewrite (buf_sim_contents _ _ Hsim).
  - destruct Ht as (n&Hn&Hi&Hall). simplify_eq. destruct nd' as [|n']; [done|].
    apply (inner_put s l r o n n' (cover_ids r.1 r.2 n) [] [] []); try done.
    + by eapply in_sim_inner.
    + simpl. by rewrite !app_nil_r.
    + simpl. by rewrite !app_nil_r, (in_sim_cover _ _ _ _ Hsim).
    + set_solver.
Qed.

(** Queries that touch cached preferences only. *)
Definition reads (f : TNode → option (bool * TNode)) : Prop :=
  ∀ nd, node_wf nd → ∃ x nd', f nd = Some (x, nd') ∧ node_sim nd nd'.

Lemma test_node_step s l r o f :
  sub_ok s l r o → reads f →
  ∃ x s', test_node s o f = Some (x, s') ∧ store_step s s' l r o keep ∧
    modified s' = modified s.
Proof.
  intros Hok Hf. destruct (sub_node _ _ _ _ Hok) as (nd&Ho&Hwf&_).
  destruct (Hf nd Hwf) as (x&nd'&Hx&Hsim). unfold test_node. rewrite Ho. simpl.
  rewrite Hx. simpl. eexists _, _. split_and!; [done| |done]. by eapply touch_step.
Qed.

(** *** Inserting a message *)

Lemma keys_in_insert lo hi b b' key :
  keys_in lo hi b → in_range lo hi key →
  (∀ k, bt_get k (buf_contents b') ≠ None → bt_get k (buf_contents b) ≠ None ∨ k = key) →
  keys_in lo hi b'.
Proof. intros Hk Hr Hn k Hb'. destruct (Hn k Hb') as [?| ->]; auto. Qed.

Lemma link_insert lo hi b key ki msg :
  link_ok lo hi b → in_range lo hi key → ma_valid msg →
  Pref.valid (storage_preference ki) →
  ∃ b' d, buf_insert b key ki msg = Some (b', d) ∧ link_ok lo hi b' ∧
    (∀ k d, msg_eff (buf_contents b') k d =
      (d' ← msg_eff (buf_contents b) k d; upd key msg k d')).
Proof.
  intros (Hr&Hwf&Hl&Hk) Hkey Hv Hp.
  destruct (buf_insert_msg b _ key ki msg Hwf Hl Hv Hp) as (b'&t'&d&Hi&_&Hwf'&Hl'&He&Hn).
  pose proof (buf_wf_contents _ _ Hwf') as Ec.
  exists b', d. rewrite Ec. split_and!; [done| |].
  - split_and!; [done|by rewrite Ec|done|]. eapply keys_in_insert; [done..|].
    intros k. rewrite Ec. intros Hb'. destruct (decide (k = key)); [by right|left].
    intros E. apply Hb', Hn. done.
  - intros k d0. rewrite He. unfold upd. bbool; [by subst|].
    by destruct (msg_eff _ k d0).
Qed.

Lemma leaf_insert lo hi b key ki msg :
  leaf_ok lo hi b → in_range lo hi key → ma_valid msg →
  Pref.valid (storage_preference ki) →
  ∃ b' d, buf_insert b key ki msg = Some (b', d) ∧ leaf_ok lo hi b' ∧
    (∀ k, Some (leaf_val (buf_contents b') k) = upd key msg k (leaf_val (buf_contents b) k)).
Proof.
  intros (Hwf&Hl&Hk) Hkey Hv Hp.
  destruct (buf_insert_leaf b _ key ki msg Hwf Hl Hv Hp) as (b'&t'&d&Hi&_&Hwf'&Hl'&He&Hn).
  pose proof (buf_wf_contents _ _ Hwf') as Ec.
  exists b', d. rewrite Ec. split_and!; [done| |].
  - split_and!; [by rewrite Ec|done|]. eapply keys_in_insert; [done..|].
    intros k. rewrite Ec. intros Hb'. destruct (decide (k = key)); [by right|left].
    by rewrite <- Hn.
  - intros k. unfold upd. bbool; [by subst|]. unfold leaf_val. by rewrite Hn.
Qed.

(** Setting a buffer and its recorded size. *)
Lemma set_buffer_cover_ids l lo hi n j e b' :
  inner_ok l n → cover_ids lo hi n !! j = Some e →
  ∃ n', after_insert_size_delta (set_child_buffer n j b') j = Some n' ∧ inner_ok l n' ∧
    cover_ids lo hi n' = take j (cover_ids lo hi n) ++ [(e.1, (b', e.2.2))] ++
      drop (S j) (cover_ids lo hi n).
Proof.
  intros (Hs&Hl&Hp) Hj. apply cover_ids_lookup in Hj as (c&Hj&He).
  destruct (set_child_buffer_cover lo hi n j b' e.1 c Hs Hj) as [Hs' Hcov].
  pose proof Hj as Hj'. apply cover_lookup in Hj' as [_ Hc].
  pose proof (lookup_lt_Some _ _ _ Hc) as Hlt.
  unfold after_insert_size_delta. simpl. rewrite list_lookup_alter_eq, Hc. simpl.
  rewrite vec_set_Some by (rewrite (so_sizes _ Hs); lia). simpl.
  eexists. split_and!; [done| |].
  - split_and!; [|done|done]. destruct Hs' as [? ? ?]. split; simpl in *;
      rewrite ?length_insert; lia.
  - unfold cover_ids in *.
    match goal with |- _ <$> cover lo hi ?x = _ =>
      change (cover lo hi x) with (cover lo hi (set_child_buffer n j b')) end.
    rewrite Hcov, fmap_app, fmap_take. simpl. by rewrite fmap_drop, He.
Qed.

Lemma in_insert_step s l r o n key ki msg :
  sub_ok s (S l) r o → objs s !! o = Some (CopylessInternal n) →
  in_range r.1 r.2 key → ma_valid msg → Pref.valid (storage_preference ki) →
  ∃ n' d, in_insert n key ki msg = Some (n', d) ∧
    store_step s (put s o (CopylessInternal n')) (S l) r o (upd key msg).
Proof.
  intros Hok Ho Hkey Hv Hp.
  destruct (sub_inner _ _ _ _ Hok) as (n0&Hn0&Hi&Hc&Hall&_). simplify_eq.
  destruct (cover_total _ _ _ _ Hc Hkey) as (r1&c&Hrc&Hr1).
  assert (cover_ids r.1 r.2 n !! idx n key = Some (r1, (cl_buffer c, or_id (cl_ptr c)))) as Hj.
  { unfold cover_ids. by rewrite list_lookup_fmap, Hrc. }
  pose proof (Forall_lookup_1 _ _ _ _ Hall Hj) as [Hlk _].
  destruct (link_insert r1.1 r1.2 (cl_buffer c) key ki msg) as (b'&d&Hb&Hlk'&Heff); [done..|].
  destruct (set_buffer_cover_ids l r.1 r.2 n _ _ b' Hi Hj) as (n'&Hn'&Hi'&Hcov).
  unfold in_insert. apply cover_lookup in Hrc as [_ ->]. simpl. rewrite Hb. simpl.
  rewrite Hn'. simpl. eexists _, _. split; [done|].
  eapply link_put; [done..|by intros; apply Heff|].
  intros e' k He' Hk d0. unfold upd. bbool; [|done]. subst. exfalso.
  by eapply cover_ids_other.
Qed.

(** [insert] changes the value of the key as the message says, and no
    other. *)
Lemma node_insert_step s l r o nd key msg pref :
  sub_ok s l r o → objs s !! o = Some nd →
  in_range r.1 r.2 key → ma_valid msg → Pref.valid pref →
  ∃ nd' d, node_insert nd key msg pref = Some (nd', d) ∧
    store_step s (put s o nd') l r o (upd key msg).
Proof.
  intros Hok Ho Hkey Hv Hp. unfold node_insert. destruct l as [|l].
  - destruct Hok as [(b&Hb&Hwf&Hl&Hk) Hnd Hnx]. simplify_eq. simpl.
    destruct (unpack_data_wf b _ Hwf) as (b1&d1&->&Hwf1&Hu&Hl1&_). simpl.
    pose proof (buf_wf_contents _ _ Hwf1) as E1.
    destruct (leaf_insert r.1 r.2 b1 key (mkKeyInfo pref) msg) as (b'&d&->&Hlf&He);
      [|done..|].
    { split_and!; [by rewrite E1|congruence|]. intros k. rewrite E1. apply Hk. }
    simpl. eexists _, _. split; [done|]. rewrite E1 in He.
    eapply leaf_step; [|done..|auto]. split; [|done..]. by exists b.
  - destruct (sub_inner _ _ _ _ Hok) as (n&Hn&_). simplify_eq. simpl.
    destruct (in_insert_step s l r o n key (mkKeyInfo pref) msg) as (n'&d&->&Hst); [done..|].
    simpl. by eexists _, _.
Qed.

(** *** Inserting a message buffer *)

Lemma put_put s o nd nd' : put (put s o nd) o nd' = put s o nd'.
Proof. unfold put. simpl. by rewrite insert_insert_eq. Qed.

Lemma put_comm s o o' nd nd' : o ≠ o' → put (put s o nd) o' nd' = put (put s o' nd') o nd.
Proof. intros Hne. unfold put. simpl. by rewrite insert_insert_ne. Qed.

Lemma put_same s o nd : objs s !! o = Some nd → put s o nd = s.
Proof. intros Ho. unfold put. rewrite insert_id by done. by destruct s. Qed.

Definition msgs_in r (ms : btree) : Prop := ∀ k, bt_get k ms ≠ None → in_range r.1 r.2 k.

Lemma msgs_in_cons r k v ms : msgs_in r ((k, v) :: ms) → in_range r.1 r.2 k ∧ msgs_in r ms.
Proof.
  intros Hin. split; [apply Hin; simpl; by rewrite beqb_refl|].
  intros k' Hk'. apply Hin. simpl. by bbool.
Qed.

Lemma in_insert_msgs_step ms s l r o n :
  sub_ok s (S l) r o → objs s !! o = Some (CopylessInternal n) → msgs_wf ms → msgs_in r ms →
  ∃ n' d, in_insert_msg_buffer n ms = Some (n', d) ∧
    store_step s (put s o (CopylessInternal n')) (S l) r o (msg_eff ms).
Proof.
  revert s n. induction ms as [|[k [ki v]] ms IH]; intros s n Hok Ho (Hs&Hv&Hp) Hin.
  { eexists _, _. split; [done|]. rewrite put_same by done.
    eapply store_step_seq; [by apply store_step_same| |done]. by apply store_step_same. }
  pose proof Hs as Hs'. apply bt_sorted_cons in Hs as [Hs Hlt].
  apply Forall_cons in Hv as [Hv1 Hv]. apply Forall_cons in Hp as [Hp1 Hp].
  apply msgs_in_cons in Hin as [Hin1 Hin].
  destruct (in_insert_step s l r o n k ki v) as (n1&d1&Hi1&Hst1); [done..|].
  destruct (IH (put s o (CopylessInternal n1)) n1) as (n2&d2&Hi2&Hst2).
  { by eapply store_step_ok. } { simpl. by rewrite lookup_insert_eq. }
  { by split_and!. } { done. }
  simpl. rewrite Hi1. simpl. rewrite Hi2. simpl. eexists _, _. split; [done|].
  rewrite put_put in Hst2. eapply store_step_seq; [done..|].
  intros k' d Hk'. rewrite msg_eff_cons by done. unfold upd. bbool; [|done]. subst.
  destruct (ma_apply k v d); simpl; [|done].
  by rewrite msg_eff_not_in by (by apply bt_get_lt).
Qed.

Lemma node_insert_msgs_step ms s l r o nd :
  sub_ok s l r o → objs s !! o = Some nd → msgs_wf ms → msgs_in r ms →
  ∃ nd' d, node_insert_msg_buffer nd ms = Some (nd', d) ∧
    store_step s (put s o nd') l r o (msg_eff ms).
Proof.
  intros Hok Ho Hms Hin. unfold node_insert_msg_buffer. destruct l as [|l].
  - pose proof Hok as [(b&Hb&Hwf&Hl&Hk) Hnd Hnx]. simplify_eq. simpl.
    destruct (unpack_data_wf b _ Hwf) as (b1&d1&->&Hwf1&Hu&Hl1&_). simpl.
    destruct (insert_msgs_leaf ms b1 _ Hwf1) as (b'&t'&d&->&Hwf'&Hl'&He&Hn);
      [congruence|done|].
    pose proof (buf_wf_contents _ _ Hwf') as E'.
    simpl. eexists _, _. split; [done|]. eapply leaf_step; [done..| |].
    + split_and!; [by rewrite E'|done|]. intros k. rewrite E'. intros Hk'.
      destruct (bt_get k ms) eqn:Em; [apply Hin; congruence|]. rewrite Hn in Hk' by done. auto.
    + intros k Hkr. by rewrite E', He.
  - destruct (sub_inner _ _ _ _ Hok) as (n&Hn&_). simplify_eq. simpl.
    destruct (in_insert_msgs_step ms s l r o n) as (n'&d&->&Hst); [done..|].
    simpl. by eexists _, _.
Qed.

(** ** A link and the subtree below it change together *)

(** A child's subtree does not contain the parent. *)
Lemma child_not_parent s l r o n j e :
  sub_ok s (S l) r o → objs s !! o = Some (CopylessInternal n) →
  cover_ids r.1 r.2 n !! j = Some e → o ∉ oids (objs s) l e.2.2.
Proof.
  intros Hok Ho Hj Hin. destruct (sub_inner _ _ _ _ Hok) as (n0&Hn0&_&_&_&Eo). simplify_eq.
  pose proof (sub_nodup _ _ _ _ Hok) as Hnd. rewrite Eo in Hnd.
  apply NoDup_cons in Hnd as [Hnd _]. apply Hnd, eoids_elem. exists e. split; [|done].
  by apply list_elem_of_lookup_2 in Hj.
Qed.

(** The child of a subtree is a subtree. *)
Lemma sub_child s l r o n j e :
  sub_ok s (S l) r o → objs s !! o = Some (CopylessInternal n) →
  cover_ids r.1 r.2 n !! j = Some e → sub_ok s l e.1 e.2.2 ∧ link_ok e.1.1 e.1.2 e.2.1.
Proof.
  intros Hok Ho Hj. split.
  - eapply sub_path; [done|]. eapply path_below; [done..|apply path_here].
  - destruct (sub_inner _ _ _ _ Hok) as (n0&Hn0&_&_&Hall&_). simplify_eq.
    by pose proof (Forall_lookup_1 _ _ _ _ Hall Hj) as [? _].
Qed.

(** Some links of node [o] and the subtrees below them are replaced, with
    [m1] the objects after the change below. *)
Lemma parent_step s m1 l r o n n' A old new B F :
  sub_ok s (S l) r o → objs s !! o = Some (CopylessInternal n) → inner_ok l n' →
  cover_ids r.1 r.2 n = A ++ old ++ B → cover_ids r.1 r.2 n' = A ++ new ++ B →
  (∀ x, x ∉ eoids (objs s) l old → x ∉ F → x ≠ o → m1 !! x = objs s !! x) →
  (∀ x, x ∈ F → (next_id s ≤ x)%positive) →
  Forall (entry_ok m1 l) new → eoids m1 l new ⊆+ F ++ eoids (objs s) l old →
  (∀ e' k, e' ∈ new → in_range e'.1.1 e'.1.2 k →
    ∃ e, e ∈ old ∧ in_range e.1.1 e.1.2 k ∧ eden m1 l e' k = eden (objs s) l e k) →
  local_step (objs s) (<[o := CopylessInternal n']> m1) (S l) r.1 r.2 o F keep.
Proof.
  intros Hok Ho Hi HA HA' Hout HF Hnew Hsub Hden.
  assert (∀ x, x ∈ F → x ∉ oids (objs s) (S l) o) as HFo.
  { intros x Hx Hx'. apply HF in Hx. apply (sub_next _ _ _ _ Hok) in Hx'. lia. }
  assert (o ∉ eoids (objs s) l old) as Hno.
  { destruct (sub_inner _ _ _ _ Hok) as (n0&Hn0&_&_&_&Eo). simplify_eq.
    pose proof (sub_nodup _ _ _ _ Hok) as Hnd. rewrite Eo, HA, !eoids_app in Hnd.
    apply NoDup_cons in Hnd as [Hnd _]. rewrite !elem_of_app in Hnd. tauto. }
  destruct (eoids_frame m1 (<[o := CopylessInternal n']> m1) l new) as (E1&E2&E3).
  { intros x Hx. rewrite lookup_insert_ne; [done|]. intros <-.
    eapply elem_of_submseteq in Hsub; [|done]. apply elem_of_app in Hsub as [Hx'|Hx']; [|done].
    by apply (HFo o Hx'), oids_root. }
  apply (node_step _ _ l r.1 r.2 o n n' A old new B); try done.
  - apply Hok.
  - apply Hok.
  - by rewrite lookup_insert_eq.
  - intros x Hx Hxe HxF. rewrite lookup_insert_ne by done. auto.
  - auto.
  - by rewrite E1.
  - intros e' k He' Hk. destruct (Hden e' k He' Hk) as (e&?&?&Ee). exists e.
    split_and!; [done..|]. by rewrite bind_keep, E2.
Qed.

Lemma link_child_step s s2 l r o n n' j e b' G :
  sub_ok s (S l) r o → objs s !! o = Some (CopylessInternal n) → inner_ok l n' →
  cover_ids r.1 r.2 n !! j = Some e →
  cover_ids r.1 r.2 n' = take j (cover_ids r.1 r.2 n) ++ [(e.1, (b', e.2.2))] ++
    drop (S j) (cover_ids r.1 r.2 n) →
  link_ok e.1.1 e.1.2 b' → store_step s s2 l e.1 e.2.2 G →
  (∀ k d, in_range e.1.1 e.1.2 k →
    (d' ← G k d; msg_eff (buf_contents b') k d') = msg_eff (buf_contents e.2.1) k d) →
  store_step s (put s2 o (CopylessInternal n')) (S l) r o keep.
Proof.
  intros Hok Ho Hi Hj Hcov Hlk (F&[Hout Ht Hden Hsub]&HF&HFr&Hle) Heff.
  exists F. split_and!; try done.
  eapply (parent_step s (objs s2) l r o n n' _ [e] [(e.1, (b', e.2.2))]); try done.
  - by apply cover_ids_cut.
  - intros x Hxe HxF _. apply Hout; [|done]. intros Hx. apply Hxe, eoids_elem.
    exists e. split; [set_solver|done].
  - intros x Hx. by apply HFr.
  - by apply Forall_singleton.
  - unfold eoids. simpl. by rewrite !app_nil_r.
  - intros e' k He' Hk. apply list_elem_of_singleton in He' as ->. exists e.
    split_and!; [set_solver|done|]. unfold eden. simpl in *. rewrite Hden by done.
    destruct (den (objs s) l e.2.2 k) as [d|]; simpl; [|done].
    rewrite <- Heff by done. by destruct (G k d).
Qed.

(** ** Flushing *)

(** Where a child hangs after a step. *)
Definition child_at s o r (i : nat) (e : entry) : Prop :=
  ∃ n, objs s !! o = Some (CopylessInternal n) ∧ cover_ids r.1 r.2 n !! i = Some e.

Lemma cover_ids_put_lookup {A} (xs : list A) i x y :
  xs !! i = Some x → (take i xs ++ [y] ++ drop (S i) xs) !! i = Some y.
Proof.
  intros Hi. apply lookup_lt_Some in Hi. rewrite lookup_app_r; rewrite length_take; [|lia].
  by replace (i - i `min` length xs)%nat with 0%nat by lia.
Qed.

(** Moving the messages of a link into the child never fails and keeps all
    values. *)
Lemma flush_step_ok s l r o i e :
  sub_ok s (S l) r o → child_at s o r i e →
  ∃ s' b', flush_step s o e.2.2 i = Some s' ∧ store_step s s' (S l) r o keep ∧
    child_at s' o r i (e.1, (b', e.2.2)) ∧ buf_contents b' = [].
Proof.
  intros Hok (n&Ho&Hi). destruct (sub_inner _ _ _ _ Hok) as (n0&Hn0&Hin&Hc&_). simplify_eq.
  destruct (sub_child _ _ _ _ _ _ _ Hok Ho Hi) as [Hsub (Hr&Hwf&Hl&Hk)].
  destruct (buf_take_wf e.2.1 _ Hwf) as (b0&Ht&Hwf0&Hl0&Hu0).
  destruct (set_buffer_cover_ids l r.1 r.2 n i e b0 Hin Hi) as (n'&Hn'&Hin'&Hcov).
  assert (take_buffer n i = Some (buf_contents e.2.1, n', - entries_size e.2.1)) as Htb.
  { apply cover_ids_lookup in Hi as (c&Hrc&He). apply cover_lookup in Hrc as [_ Hrc].
    unfold take_buffer. rewrite Hrc. simpl. rewrite He in Ht |- *. simpl in *. rewrite Ht.
    simpl. by rewrite Hn'. }
  destruct (sub_node _ _ _ _ Hsub) as (cnd&Hcnd&_).
  pose proof (child_not_parent _ _ _ _ _ _ _ Hok Ho Hi) as Hno.
  assert (o ≠ e.2.2) as Hne by (intros ->; apply Hno, oids_root).
  destruct (node_insert_msgs_step (buf_contents e.2.1) s l e.1 e.2.2 cnd) as (cnd'&d&Hci&Hst);
    [done|done|by eapply msgs_wf_buf|done|].
  unfold flush_step, with_internal. rewrite Ho. simpl. rewrite Htb. simpl.
  rewrite lookup_insert_ne, Hcnd by done. simpl. rewrite Hci. simpl.
  pose proof (buf_wf_contents _ _ Hwf0) as E0.
  eexists _, b0. split_and!; [done|..|done].
  - rewrite put_comm by done.
    eapply link_child_step; [done..| |done|].
    + split_and!; [done|by rewrite E0|congruence|]. intros k. by rewrite E0.
    + intros k d0 Hkr. rewrite E0. simpl. by destruct (msg_eff _ k d0).
  - exists n'. split; [simpl; by rewrite lookup_insert_ne, lookup_insert_eq|].
    rewrite Hcov. by eapply cover_ids_put_lookup.
Qed.

End steps.
