(* ===== verification/TreeSplit.v ===== *)
(** * Splitting, merging and filling nodes in the tree

    The steps that change which objects make up a subtree.  [node_halves]
    says that two nodes divide a third one at a pivot; [split_node] puts the
    halves side by side under the parent, [split_root_node] under a new
    level.  [merge_step] goes the other way, [fill_step] moves the border
    between two leaves. *)

From Stdlib Require Import ZArith Lia.
From stdpp Require Import base option list numbers gmap fin_maps.
From S2P Require Import Prelude.
From S2P Require Import Bytes.
From S2P Require Import BTreeMap.
From S2P Require Import CowBytes.
From S2P Require Import StoragePref.
From S2P Require Import Message.
From S2P Require Import Checksum.
From S2P Require Import ChildBuffer.
From S2P Require Import Pivots.
From S2P Require Import Internal.
From S2P Require Import Node.
From S2P Require Import Tree.
From S2P Require Import TreeInv.
From S2P Require Import TreeSteps.

Section split.
Context `{Checksum} `{MessageActionLaws}.
Implicit Types (m : heap) (l : nat) (lo hi : option bytes) (o : oid) (k : bytes)
  (b : PackedChildBuffer) (n : CopylessInternalNode ObjRef) (s : Store) (r : range)
  (nd : TNode).

(** [nd1] and [nd2] divide [nd] at the pivot [pk]. *)
Definition node_halves l lo hi nd nd1 nd2 (pk : bytes) : Prop :=
  range_ok lo (Some pk) ∧ range_ok (Some pk) hi ∧
  match l with
  | O => ∃ b b1 b2, nd = MemLeaf b ∧ nd1 = MemLeaf b1 ∧ nd2 = MemLeaf b2 ∧
      leaf_ok lo (Some pk) b1 ∧ leaf_ok (Some pk) hi b2 ∧
      ∀ k, leaf_val (buf_contents b) k =
        if bleb k pk then leaf_val (buf_contents b1) k else leaf_val (buf_contents b2) k
  | S l => ∃ n n1 n2, nd = CopylessInternal n ∧ nd1 = CopylessInternal n1 ∧
      nd2 = CopylessInternal n2 ∧ inner_ok l n1 ∧ inner_ok l n2 ∧
      cover_ids lo hi n = cover_ids lo (Some pk) n1 ++ cover_ids (Some pk) hi n2
  end.

Lemma leaf_cut lo hi b1 b2 a c pk v :
  bt_sorted (a ++ c) → (∀ k, bt_get k (a ++ c) ≠ None → in_range lo hi k) →
  last a = Some (pk, v) → c ≠ [] →
  buf_wf b1 a → is_leaf b1 = true → buf_wf b2 c → is_leaf b2 = true →
  range_ok lo (Some pk) ∧ range_ok (Some pk) hi ∧
  leaf_ok lo (Some pk) b1 ∧ leaf_ok (Some pk) hi b2 ∧
  ∀ k, leaf_val (a ++ c) k =
    if bleb k pk then leaf_val (buf_contents b1) k else leaf_val (buf_contents b2) k.
Proof.
  intros Hs Hk Hl Hc Hwf1 Hl1 Hwf2 Hl2. pose proof (bt_cut _ _ _ _ Hs Hl) as Hcut.
  pose proof (buf_wf_contents _ _ Hwf1) as E1. pose proof (buf_wf_contents _ _ Hwf2) as E2.
  destruct c as [|[k2 v2] c]; [done|].
  assert (∀ x y, (x, y) ∈ a ++ (k2, v2) :: c → in_range lo hi x) as Hin.
  { intros x y Hx. apply Hk. apply (bt_get_Some x y) in Hx; [|done]. by rewrite Hx. }
  assert ((pk, v) ∈ a) as Hpk by (apply last_Some in Hl as [? ->]; set_solver).
  assert (pk <ᵇ k2) as Hlt.
  { apply bt_sorted_app_inv in Hs as (_&_&Hs). apply (Hs (pk, v) (k2, v2)); set_solver. }
  destruct (range_ok_of_keys lo hi pk k2) as [Hr1 Hr2];
    [apply (Hin pk v); set_solver|apply (Hin k2 v2); set_solver|done|].
  split_and!; [done|done| | |].
  - split_and!; [by rewrite E1|done|]. intros k. rewrite E1, (proj1 (Hcut k)).
    destruct (bleb k pk) eqn:Ek; [|done]. intros Hg. apply Hk in Hg.
    apply (in_range_split _ _ pk) in Hg. by rewrite Ek in Hg.
  - split_and!; [by rewrite E2|done|]. intros k. rewrite E2, (proj2 (Hcut k)).
    destruct (bleb k pk) eqn:Ek; [done|]. intros Hg. apply Hk in Hg.
    apply (in_range_split _ _ pk) in Hg. by rewrite Ek in Hg.
  - intros k. rewrite E1, E2. unfold leaf_val.
    destruct (Hcut k) as [-> ->]. by destruct (bleb k pk).
Qed.

Lemma leaf_split_halves lo hi b mn mx b' rs pk lpk d :
  leaf_ok lo hi b → buf_split b mn mx = Some (b', (rs, pk, lpk), d) →
  node_halves 0 lo hi (MemLeaf b) (MemLeaf b') (MemLeaf rs) pk.
Proof.
  intros (Hwf&Hl&Hk) Hs.
  destruct (buf_split_wf b _ mn mx b' rs pk lpk d Hwf Hl Hs)
    as (a&c&Et&_&Hc&[v Hla]&_&Hwf1&Hl1&_&Hwf2&Hl2&_).
  unfold keys_in in Hk. pose proof (wf_sorted _ _ Hwf) as Hst. rewrite Et in Hk, Hst.
  destruct (leaf_cut lo hi b' rs a c pk v) as (?&?&?&?&Hv); [done..|].
  split_and!; [done..|]. exists b, b', rs. split_and!; try done. by rewrite Et.
Qed.

Lemma cover_ids_fst lo hi n :
  shape_ok n → (cover_ids lo hi n).*1 = ranges lo (pivot (meta_data n)) hi.
Proof.
  intros Hs. rewrite <- (cover_fst lo hi n Hs). unfold cover_ids.
  by rewrite <- list_fmap_compose.
Qed.

Lemma cover_ends l m lo hi n :
  shape_ok n → Forall (entry_ok m l) (cover_ids lo hi n) → range_ok lo hi.
Proof.
  intros Hs Hall. apply (ranges_ends lo (pivot (meta_data n)) hi).
  rewrite <- (cover_ids_fst lo hi n Hs). apply Forall_fmap.
  eapply Forall_impl; [exact Hall|]. by intros e [[? _] _].
Qed.

Lemma inner_split_halves m l lo hi n n' rs pk d lpk :
  inner_ok l n → Forall (entry_ok m l) (cover_ids lo hi n) →
  in_split n = Some (n', (rs, pk, d, lpk)) →
  node_halves (S l) lo hi (CopylessInternal n) (CopylessInternal n') (CopylessInternal rs) pk.
Proof.
  intros (Hs&Hl&Hp) Hall Hsp.
  apply (in_split_spec lo hi) in Hsp as (Hcov&Hs1&Hs2&Hl1&Hl2&_&Hpv&_); [|done].
  destruct (Hpv Hp) as [Hp1 Hp2]. rewrite Hcov, Forall_app in Hall. destruct Hall as [Ha1 Ha2].
  split_and!; [by apply (cover_ends l m _ _ n')|by apply (cover_ends l m _ _ rs)|].
  exists n, n', rs. split_and!; try done; split_and!; try done; congruence.
Qed.

(** Getting ready for a change keeps leaves as they are. *)
Lemma unpack_leaf_ok lo hi b :
  leaf_ok lo hi b →
  ∃ b' d, unpack_data b = Some (b', d) ∧ leaf_ok lo hi b' ∧
    buf_contents b' = buf_contents b.
Proof.
  intros (Hwf&Hl&Hk). destruct (unpack_data_wf b _ Hwf) as (b'&d&Hu&Hwf'&_&Hl'&_).
  pose proof (buf_wf_contents _ _ Hwf') as E. exists b', d. split_and!; [done| |done].
  split_and!; [by rewrite E|congruence|]. intros k. rewrite E. apply Hk.
Qed.

Lemma leaf_ok_wf lo hi b : leaf_ok lo hi b → node_wf (N := ObjRef) (MemLeaf b).
Proof. intros (?&_). simpl. eauto. Qed.

Lemma min_size_leaf sm lo hi b :
  leaf_ok lo hi b →
  ∃ v b', min_size (N := ObjRef) sm (MemLeaf b) = Some (Some v, MemLeaf b') ∧
    leaf_ok lo hi b' ∧ buf_contents b' = buf_contents b.
Proof.
  intros Hlf. destruct (min_size_ok sm (MemLeaf b : TNode)) as (mn&nd'&Hm&Hsim&Hv);
    [by eapply leaf_ok_wf|].
  destruct (Hv eq_refl) as (v&->&_). destruct nd' as [b'|]; [|done].
  exists v, b'. split_and!; [done|by eapply leaf_ok_sim|by apply buf_sim_contents].
Qed.

Lemma max_size_leaf sm lo hi b :
  leaf_ok lo hi b →
  ∃ v b', max_size (N := ObjRef) sm (MemLeaf b) = Some (v, MemLeaf b') ∧
    leaf_ok lo hi b' ∧ buf_contents b' = buf_contents b.
Proof.
  intros Hlf. destruct (max_size_ok sm (MemLeaf b : TNode)) as (mn&nd'&Hm&Hsim);
    [by eapply leaf_ok_wf|].
  destruct nd' as [b'|]; [|done].
  eexists _, b'. split_and!; [done|by eapply leaf_ok_sim|by apply buf_sim_contents].
Qed.

Lemma inner_sim_halves l lo hi n n' nd1 nd2 pk :
  in_sim n n' → node_halves (S l) lo hi (CopylessInternal n') nd1 nd2 pk →
  node_halves (S l) lo hi (CopylessInternal n) nd1 nd2 pk.
Proof.
  intros Hsim (?&?&n0&n1&n2&[= <-]&Hrest). split_and!; [done..|].
  exists n, n1, n2. rewrite <- (in_sim_cover lo hi _ _ Hsim). by split_and!; try apply Hrest.
Qed.

Lemma leaf_same_halves lo hi b b' nd1 nd2 pk :
  buf_contents b' = buf_contents b → node_halves 0 lo hi (MemLeaf b') nd1 nd2 pk →
  node_halves 0 lo hi (MemLeaf b) nd1 nd2 pk.
Proof.
  intros E (?&?&b0&b1&b2&[= <-]&Hrest). split_and!; [done..|].
  exists b, b1, b2. rewrite <- E. by split_and!; try apply Hrest.
Qed.

(** [Node::split] divides the node. *)
Lemma node_split_halves sm m l lo hi o nd nd' sib pk d lpk :
  tree_ok m l lo hi o → m !! o = Some nd →
  node_split sm nd = Some (nd', (sib, pk, d, lpk)) →
  node_halves l lo hi nd nd' sib pk.
Proof.
  intros Ht Ho Hsp. unfold node_split in Hsp. destruct l as [|l].
  - destruct Ht as (b&Hb&Hlf). simplify_eq. simpl in Hsp.
    destruct (unpack_leaf_ok lo hi b Hlf) as (b1&d1&Hu&Hlf1&E1). rewrite Hu in Hsp. simpl in Hsp.
    destruct (min_size_leaf sm lo hi b1 Hlf1) as (v2&b2&Hm2&Hlf2&E2).
    rewrite Hm2 in Hsp. simpl in Hsp.
    destruct (min_size_leaf sm lo hi b2 Hlf2) as (v3&b3&Hm3&Hlf3&E3).
    rewrite Hm3 in Hsp. simpl in Hsp.
    destruct (buf_split b3 v2 v3) as [[[b' [[rs pk'] lpk']] d']|] eqn:Hs; simplify_eq/=.
    apply (leaf_same_halves _ _ b b3); [congruence|]. by eapply leaf_split_halves.
  - destruct Ht as (n&Hn&Hi&Hall). simplify_eq. simpl in Hsp.
    destruct (min_size_ok sm (CopylessInternal n)) as (m1&nd1&Hm1&Hsim1&_); [apply Hi|].
    rewrite Hm1 in Hsp. simpl in Hsp.
    destruct (min_size_ok sm nd1) as (m2&nd2&Hm2&Hsim2&_);
      [by eapply node_sim_wf; [done|apply Hi]|].
    rewrite Hm2 in Hsp. simpl in Hsp.
    assert (node_sim (CopylessInternal n) nd2) as Hsim by (by etrans).
    destruct nd2 as [|n2]; [done|].
    destruct (2 * MIN_FANOUT <=? fanout n2); [|done].
    destruct (in_split n2) as [[n' [[[rs pk'] d'] lpk']]|] eqn:Hs; simplify_eq/=.
    eapply inner_sim_halves; [done|]. eapply inner_split_halves; [|by erewrite in_sim_cover|done].
    by eapply in_sim_inner.
Qed.

(** The halves of a node in the place of two objects. *)
Lemma halves_place m m1 l lo hi o nd nd1 nd2 pk a c :
  tree_ok m l lo hi o → NoDup (oids m l o) → m !! o = Some nd →
  node_halves l lo hi nd nd1 nd2 pk → m1 !! a = Some nd1 → m1 !! c = Some nd2 →
  (∀ x, x ∈ oids m l o → x ≠ o → m1 !! x = m !! x) →
  tree_ok m1 l lo (Some pk) a ∧ tree_ok m1 l (Some pk) hi c ∧
  (∃ rest, oids m l o = o :: rest ∧ oids m1 l a ++ oids m1 l c ≡ₚ a :: c :: rest) ∧
  (∀ k, in_range lo (Some pk) k → den m1 l a k = den m l o k) ∧
  (∀ k, in_range (Some pk) hi k → den m1 l c k = den m l o k).
Proof.
  intros Ht Hnd Ho (_&_&Hh) Ha Hc Hf. destruct l as [|l].
  - destruct Hh as (b&b1&b2&->&->&->&Hl1&Hl2&Hv). simpl. rewrite Ho, Ha, Hc.
    split_and!; [by eexists|by eexists|by exists []| |]; intros k [Hk1 Hk2]; rewrite Hv.
    + specialize (Hk2 pk eq_refl). bbool; [done|border].
    + specialize (Hk1 pk eq_refl). bbool; [border|done].
  - destruct Hh as (n&n1&n2&->&->&->&Hi1&Hi2&Hcov).
    destruct Ht as (n0&Hn0&(Hs&_)&Hall). rewrite Ho in Hn0. injection Hn0 as <-.
    pose proof (tree_cover_ok _ _ _ _ _ Hs Hall) as Hck.
    assert (oids m (S l) o = o :: eoids m l (cover_ids lo hi n)) as Eo
      by (by rewrite (oids_cover _ _ lo hi _ n)).
    rewrite Eo in Hnd, Hf. apply NoDup_cons in Hnd as [Hno _].
    destruct (eoids_frame m m1 l (cover_ids lo hi n)) as (Ee&Ed&Et).
    { intros x Hx. apply Hf; [apply elem_of_cons; by right|]. by intros ->. }
    apply Et in Hall. clear Et. rewrite Hcov, Forall_app in Hall. destruct Hall as [Hall1 Hall2].
    pose proof Hi1 as (Hs1&_). pose proof Hi2 as (Hs2&_).
    split_and!; [by eexists|by eexists| | |].
    + exists (eoids m l (cover_ids lo hi n)). split; [done|].
      rewrite (oids_cover m1 l lo (Some pk) a n1), (oids_cover m1 l (Some pk) hi c n2) by done.
      fold (eoids m1 l (cover_ids lo (Some pk) n1)). fold (eoids m1 l (cover_ids (Some pk) hi n2)).
      rewrite <- Ee, Hcov, eoids_app. simpl. constructor. by rewrite Permutation_middle.
    + intros k Hk.
      destruct (cover_ids_total lo (Some pk) n1 k) as (e&He&Hke); [by eapply tree_cover_ok|done|].
      rewrite (den_cover m1 l lo (Some pk) a n1 e) by (try done; by eapply tree_cover_ok).
      assert (e ∈ cover_ids lo hi n) by (rewrite Hcov; set_solver).
      by rewrite (den_cover m l lo hi o n e), Ed.
    + intros k Hk.
      destruct (cover_ids_total (Some pk) hi n2 k) as (e&He&Hke); [by eapply tree_cover_ok|done|].
      rewrite (den_cover m1 l (Some pk) hi c n2 e) by (try done; by eapply tree_cover_ok).
      assert (e ∈ cover_ids lo hi n) by (rewrite Hcov; set_solver).
      by rewrite (den_cover m l lo hi o n e), Ed.
Qed.

(** The messages of a link, cut at a pivot. *)
Lemma link_cut lo hi b1 b2 t pk :
  range_ok lo (Some pk) → range_ok (Some pk) hi →
  (∀ k, bt_get k t ≠ None → in_range lo hi k) →
  buf_wf b1 (bt_filter (λ k, bleb k pk) t) → is_leaf b1 = false →
  buf_wf b2 (bt_filter (λ k, negb (bleb k pk)) t) → is_leaf b2 = false →
  link_ok lo (Some pk) b1 ∧ link_ok (Some pk) hi b2 ∧
  (∀ k d, in_range lo (Some pk) k → msg_eff (buf_contents b1) k d = msg_eff t k d) ∧
  (∀ k d, in_range (Some pk) hi k → msg_eff (buf_contents b2) k d = msg_eff t k d).
Proof.
  intros Hr1 Hr2 Hk Hwf1 Hl1 Hwf2 Hl2.
  pose proof (buf_wf_contents _ _ Hwf1) as E1. pose proof (buf_wf_contents _ _ Hwf2) as E2.
  split_and!.
  - split_and!; [done|by rewrite E1|done|]. intros k. rewrite E1, bt_get_filter.
    destruct (bleb k pk) eqn:Ek; [|done]. intros Hg%Hk. apply (in_range_split _ _ pk) in Hg.
    by rewrite Ek in Hg.
  - split_and!; [done|by rewrite E2|done|]. intros k. rewrite E2, bt_get_filter.
    destruct (bleb k pk) eqn:Ek; [done|]. intros Hg%Hk. apply (in_range_split _ _ pk) in Hg.
    by rewrite Ek in Hg.
  - intros k d [_ Hk2]. specialize (Hk2 pk eq_refl). unfold msg_eff. rewrite E1, bt_get_filter.
    bbool; [done|border].
  - intros k d [Hk1 _]. specialize (Hk1 pk eq_refl). unfold msg_eff. rewrite E2, bt_get_filter.
    bbool; [border|done].
Qed.

(** ** Splitting a node under its parent *)

Lemma split_at_unpacked b pk x : buf_split_at b pk = Some x → is_unpacked (buffer b) = true.
Proof.
  unfold buf_split_at, buf_split_off. by destruct (is_unpacked (buffer b)).
Qed.

Lemma split_at_link lo hi b b1 b2 pk :
  link_ok lo hi b → range_ok lo (Some pk) → range_ok (Some pk) hi →
  buf_split_at b pk = Some (b1, b2) →
  link_ok lo (Some pk) b1 ∧ link_ok (Some pk) hi b2 ∧
  (∀ k d, in_range lo (Some pk) k →
    msg_eff (buf_contents b1) k d = msg_eff (buf_contents b) k d) ∧
  (∀ k d, in_range (Some pk) hi k →
    msg_eff (buf_contents b2) k d = msg_eff (buf_contents b) k d).
Proof.
  intros (Hr&Hwf&Hl&Hk) Hr1 Hr2 Hs. pose proof (split_at_unpacked _ _ _ Hs) as Hu.
  destruct (buf_split_at_wf b _ pk Hwf Hl Hu) as (b1'&b2'&Hs'&?&?&?&?).
  rewrite Hs in Hs'. injection Hs' as <- <-. by apply link_cut.
Qed.

(** [split_child] in terms of objects. *)
Lemma split_child_ids l lo hi n j np pk sel n' j' d :
  inner_ok l n → split_child n j np pk sel = Some (n', j', d) →
  ∃ e b1 b2, cover_ids lo hi n !! j = Some e ∧ buf_split_at e.2.1 pk = Some (b1, b2) ∧
    cover_ids lo hi n' = take j (cover_ids lo hi n) ++
      [((e.1.1, Some pk), (b1, e.2.2)); ((Some pk, e.1.2), (b2, or_id np))] ++
      drop (S j) (cover_ids lo hi n) ∧
    inner_ok l n' ∧ j' = (if sel then S j else j).
Proof.
  intros (Hs&Hl&Hp) Hsp.
  destruct (split_child_spec lo hi n j np pk sel n' j' d Hs Hsp)
    as (r&c&b1&b2&Hj&Hb&Hcov&Hs'&Hl'&->&_&Hp'&_).
  exists (r, (cl_buffer c, or_id (cl_ptr c))), b1, b2. split_and!; try done.
  - unfold cover_ids. by rewrite list_lookup_fmap, Hj.
  - unfold cover_ids. rewrite Hcov, fmap_app, fmap_take. simpl. by rewrite fmap_drop.
  - split_and!; [done|by rewrite Hl'|auto].
Qed.

Lemma lookup_cut_l {A} (xs zs : list A) i x y :
  xs !! i = Some x → (take i xs ++ y :: zs) !! i = Some y.
Proof.
  intros Hi. apply lookup_lt_Some in Hi. rewrite lookup_app_r; rewrite length_take; [|lia].
  by replace (i - i `min` length xs)%nat with 0%nat by lia.
Qed.

Lemma lookup_cut_r {A} (xs zs : list A) i x y z :
  xs !! i = Some x → (take i xs ++ y :: z :: zs) !! S i = Some z.
Proof.
  intros Hi. apply lookup_lt_Some in Hi. rewrite lookup_app_r; rewrite length_take; [|lia].
  by replace (S i - i `min` length xs)%nat with 1%nat by lia.
Qed.

Lemma put_dml_insert s nd pk o nd' :
  objs (put (dml_insert nd pk s).2 o nd') = <[o := nd']> (<[next_id s := nd]> (objs s)).
Proof. done. Qed.

Lemma split_node_step s l r o i e nd nd' sib pk b1 b2 n n' gpk :
  sub_ok s (S l) r o → objs s !! o = Some (CopylessInternal n) →
  cover_ids r.1 r.2 n !! i = Some e → objs s !! e.2.2 = Some nd →
  node_halves l e.1.1 e.1.2 nd nd' sib pk → buf_split_at e.2.1 pk = Some (b1, b2) →
  inner_ok l n' →
  cover_ids r.1 r.2 n' = take i (cover_ids r.1 r.2 n) ++
      [((e.1.1, Some pk), (b1, e.2.2)); ((Some pk, e.1.2), (b2, next_id s))] ++
      drop (S i) (cover_ids r.1 r.2 n) →
  store_step s (put (dml_insert sib gpk (put s e.2.2 nd')).2 o (CopylessInternal n'))
    (S l) r o keep.
Proof.
  intros Hok Ho Hi Hnd Hh Hsp Hin' Hcov.
  destruct (sub_child _ _ _ _ _ _ _ Hok Ho Hi) as [Hsub Hlk].
  assert (∀ x, x ∈ oids (objs s) l e.2.2 → x ≠ next_id s) as Hnx'.
  { intros x Hx ->. apply (sub_next _ _ _ _ Hsub) in Hx. lia. }
  set (q := next_id s) in *. set (c := e.2.2) in *.
  set (m1 := <[q := sib]> (<[c := nd']> (objs s)) : heap).
  pose proof Hh as (Hr1&Hr2&_).
  destruct (halves_place (objs s) m1 l e.1.1 e.1.2 c nd nd' sib pk c q)
    as (Ht1&Ht2&(rest&Er&Ep)&Hd1&Hd2); [apply Hsub|apply Hsub|done|done|..].
  { unfold m1. rewrite lookup_insert_ne, lookup_insert_eq; [done|].
    intros E. by apply (Hnx' c (oids_root _ _ _)). }
  { unfold m1. by rewrite lookup_insert_eq. }
  { intros x Hx Hxc. unfold m1. rewrite !lookup_insert_ne; [done|done|].
    intros E. by apply (Hnx' x Hx). }
  destruct (split_at_link e.1.1 e.1.2 e.2.1 b1 b2 pk) as (Hlk1&Hlk2&He1&He2); [done..|].
  exists [q]. split_and!; [|apply NoDup_singleton| |simpl; lia].
  2: { intros x Hx. apply list_elem_of_singleton in Hx as ->. simpl. lia. }
  apply (parent_step s m1 l r o n n' (take i (cover_ids r.1 r.2 n)) [e]
    [((e.1.1, Some pk), (b1, c)); ((Some pk, e.1.2), (b2, q))]
    (drop (S i) (cover_ids r.1 r.2 n))); try done.
  - by apply cover_ids_cut.
  - intros x Hxe HxF _. unfold m1. rewrite !lookup_insert_ne; [done| |set_solver].
    intros E. apply Hxe, eoids_elem. exists e. subst x. split; [set_solver|apply oids_root].
  - intros x Hx. apply list_elem_of_singleton in Hx as ->. unfold q. lia.
  - apply Forall_cons. split; [by split|]. by apply Forall_singleton.
  - unfold eoids. simpl. rewrite !app_nil_r, Ep. fold c. rewrite Er.
    by rewrite Permutation_swap.
  - intros e' k He' Hk. exists e. split; [set_solver|].
    apply elem_of_cons in He' as [->|He']; [|apply list_elem_of_singleton in He' as ->];
      simpl in Hk; unfold eden; simpl.
    + split; [by eapply in_range_sub_r|]. rewrite Hd1 by done. fold c.
      destruct (den (objs s) l c k); simpl; auto.
    + split; [by eapply in_range_sub_l|]. rewrite Hd2 by done. fold c.
      destruct (den (objs s) l c k); simpl; auto.
Qed.

(** [split_node] keeps the subtree of the parent and all values; the half it
    returns is a child of the parent. *)
Lemma split_node_ok t s l r o i e s' c' i' :
  sub_ok s (S l) r o → child_at s o r i e →
  split_node t s e.2.2 o i = Some (s', c', i') →
  store_step s s' (S l) r o keep ∧ ∃ e', child_at s' o r i' e' ∧ e'.2.2 = c'.
Proof.
  intros Hok (n&Ho&Hi) Hsp. destruct (sub_inner _ _ _ _ Hok) as (n0&Hn0&Hin&_). simplify_eq.
  destruct (sub_child _ _ _ _ _ _ _ Hok Ho Hi) as [Hsub Hlk].
  assert (o ≠ e.2.2) as Hne.
  { intros E. apply (child_not_parent _ _ _ _ _ _ _ Hok Ho Hi). rewrite E. apply oids_root. }
  assert (o ≠ next_id s) as Hnq.
  { intros ->. pose proof (sub_next _ _ _ _ Hok _ (oids_root _ _ _)). lia. }
  unfold split_node in Hsp.
  destruct (objs s !! e.2.2) as [nd|] eqn:Hnd; simplify_eq/=.
  destruct (node_split (storage_map t) nd) as [[nd' [[[sib pk] d] lpk]]|] eqn:Hs; simplify_eq/=.
  unfold with_internal in Hsp. simpl in Hsp.
  rewrite !lookup_insert_ne, Ho in Hsp by done. simpl in Hsp.
  destruct (split_child n i _ pk _) as [[[n' i1] d1]|] eqn:Hc; simplify_eq/=.
  destruct (split_child_ids l r.1 r.2 _ _ _ _ _ _ _ _ Hin Hc)
    as (e1&b1&b2&He1&Hb&Hcov&Hin'&->). rewrite Hi in He1. injection He1 as <-. simpl in Hcov.
  pose proof (node_split_halves _ _ _ _ _ _ _ _ _ _ _ _ (sub_tree _ _ _ _ Hsub) Hnd Hs) as Hh.
  split.
  - by apply (split_node_step s l r o i e nd nd' sib pk b1 b2 n n' (to_global lpk (tree_id t))).
  - destruct (node_size nd' <? node_size sib).
    + eexists. split; [exists n'; simpl; rewrite lookup_insert_eq; split; [done|]|].
      * rewrite Hcov. by eapply lookup_cut_r.
      * done.
    + eexists. split; [exists n'; simpl; rewrite lookup_insert_eq; split; [done|]|].
      * rewrite Hcov. by eapply lookup_cut_l.
      * done.
Qed.

(** ** Splitting the root *)

Lemma split_root_halves t s l o nd nd' s' d :
  tree_ok (objs s) l None None o → objs s !! o = Some nd →
  split_root_mut (λ node pk s, dml_insert node (to_global pk (tree_id t)) s) (storage_map t)
    nd s = Some (nd', s', d) →
  ∃ nd1 nd2 pk pk1 pk2, node_halves l None None nd nd1 nd2 pk ∧
    s' = (dml_insert nd2 pk2 (dml_insert nd1 pk1 s).2).2 ∧
    nd' = CopylessInternal (in_new
      (mkInl (mkRef (next_id s) pk1) (buf_new false) (buf_size (buf_new false)))
      (mkInl (mkRef (Pos.succ (next_id s)) pk2) (buf_new false) (buf_size (buf_new false)))
      pk (Z.of_nat l + 1)).
Proof.
  intros Ht Ho Hs. unfold split_root_mut in Hs. destruct l as [|l].
  - destruct Ht as (b&Hb&Hlf). rewrite Ho in Hb. injection Hb as ->.
    destruct (node_correct_preference_ok (MemLeaf b : TNode)) as (p&nd0&Hcp&Hsim&_);
      [by eapply leaf_ok_wf|].
    rewrite Hcp in Hs. simpl in Hs. destruct nd0 as [b0|]; [|done].
    pose proof (leaf_ok_sim None None _ _ Hsim Hlf) as Hlf0.
    pose proof (buf_sim_contents _ _ Hsim) as E0. simpl in Hs.
    destruct (unpack_leaf_ok None None b0 Hlf0) as (b1&d1&Hu&Hlf1&E1).
    rewrite Hu in Hs. simpl in Hs.
    destruct (min_size_leaf (storage_map t) None None b1 Hlf1) as (v2&b2&Hm2&Hlf2&E2).
    rewrite Hm2 in Hs. simpl in Hs.
    destruct (max_size_leaf (storage_map t) None None b2 Hlf2) as (v3&b3&Hm3&Hlf3&E3).
    rewrite Hm3 in Hs. simpl in Hs.
    destruct (buf_split b3 v2 v3) as [[[bl [[rs pk] lpk]] d2]|] eqn:Hsp; simplify_eq/=.
    eexists _, _, _, _, _. split_and!; [|done|done].
    apply (leaf_same_halves _ _ b b3); [congruence|]. by eapply leaf_split_halves.
  - destruct Ht as (n&Hn&Hi&Hall). rewrite Ho in Hn. injection Hn as ->.
    destruct (node_correct_preference_ok (CopylessInternal n)) as (p&nd0&Hcp&Hsim&_);
      [apply Hi|].
    rewrite Hcp in Hs. simpl in Hs. destruct nd0 as [|n0]; [done|]. simpl in Hs.
    pose proof (in_sim_inner l _ _ Hsim Hi) as Hi0.
    destruct (min_size_ok (storage_map t) (CopylessInternal n0)) as (m1&nd1&Hm1&Hsim1&_);
      [apply Hi0|].
    rewrite Hm1 in Hs. simpl in Hs. destruct nd1 as [|n1]; [done|].
    pose proof (in_sim_inner l _ _ Hsim1 Hi0) as Hi1.
    destruct (max_size_ok (storage_map t) (CopylessInternal n1)) as (m2&nd2&Hm2&Hsim2);
      [apply Hi1|].
    rewrite Hm2 in Hs. simpl in Hs. destruct nd2 as [|n2]; [done|].
    pose proof (in_sim_inner l _ _ Hsim2 Hi1) as Hi2.
    assert (in_sim n n2) as Hsim'.
    { apply (transitivity (R := node_sim) (y := CopylessInternal n0)
               (x := CopylessInternal n) (z := CopylessInternal n2)); [done|].
      by transitivity (CopylessInternal n1). }
    destruct (in_split n2) as [[nl [[[rs pk] d2] lpk]]|] eqn:Hsp; simplify_eq/=.
    pose proof (in_split_spec None None n2 nl rs pk d2 lpk (proj1 Hi2) Hsp) as (_&_&_&Hlv&_).
    destruct (negb (fanout nl <? MIN_FANOUT)); [|done].
    destruct (negb (fanout rs <? MIN_FANOUT)); [|done]. simplify_eq/=.
    eexists _, _, _, _, _. split_and!; [|done|].
    + eapply inner_sim_halves; [done|].
      eapply inner_split_halves; [done|by erewrite in_sim_cover|done].
    + do 2 f_equal. destruct Hi2 as (_&Hl2&_). lia.
Qed.

Lemma new_link_ok lo hi : range_ok lo hi → link_ok lo hi (buf_new false).
Proof. intros Hr. split_and!; [done|apply buf_new_wf|done|]. by intros k. Qed.

Lemma eden_new m l r x k : eden m l (r, (buf_new false, x)) k = den m l x k.
Proof. unfold eden. simpl. by destruct (den m l x k). Qed.

(** The new root. *)
Lemma new_root_ok l (a c : ObjRef) pk z :
  inner_ok l (in_new (mkInl a (buf_new false) z) (mkInl c (buf_new false) z) pk
    (Z.of_nat l + 1)).
Proof.
  split_and!; [by split|unfold level; simpl; lia|].
  split_and!; simpl.
  - repeat (constructor; [apply Pref.valid_NONE|]). constructor.
  - by left.
  - apply Pref.valid_NONE.
Qed.

(** [split_root_node] adds a level and keeps all values. *)
Lemma split_root_ok t s l R s' :
  sub_ok s l whole R → split_root_node t s R = Some s' →
  sub_ok s' (S l) whole R ∧ ∀ k, den (objs s') (S l) R k = den (objs s) l R k.
Proof.
  intros Hok Hs. unfold split_root_node in Hs.
  destruct (objs s !! R) as [nd|] eqn:Ho; [|done]. cbn [mbind option_bind] in Hs.
  apply bind_Some in Hs as ([[nd' s1] d]&Hs&[= <-]).
  apply (split_root_halves t s l R) in Hs as (nd1&nd2&pk&pk1&pk2&Hh&->&->);
    [|apply Hok|done].
  set (q1 := next_id s). set (q2 := Pos.succ q1).
  match goal with |- context [put ?s1 R ?x] => set (s' := put s1 R x) end.
  assert (∀ x, x ∈ oids (objs s) l R → x ≠ q1 ∧ x ≠ q2) as Hnx.
  { intros x Hx. apply (sub_next _ _ _ _ Hok) in Hx. unfold q1, q2 in *. lia. }
  destruct (Hnx R (oids_root _ _ _)) as [Hn1 Hn2].
  assert (q1 ≠ q2) as Hn12 by (unfold q2; lia).
  pose proof Hh as (Hr1&Hr2&_).
  destruct (halves_place (objs s) (objs s') l None None R nd nd1 nd2 pk q1 q2)
    as (Ht1&Ht2&(rest&Er&Ep)&Hd1&Hd2); [apply Hok|apply Hok|done|done|..].
  { simpl. by rewrite 2!lookup_insert_ne, lookup_insert_eq by done. }
  { simpl. by rewrite lookup_insert_ne, lookup_insert_eq by done. }
  { intros x Hx HxR. destruct (Hnx x Hx). simpl. by rewrite !lookup_insert_ne. }
  assert (tree_ok (objs s') (S l) None None R) as Ht.
  { eexists. simpl. rewrite lookup_insert_eq. split_and!; [done|apply new_root_ok|].
    apply Forall_cons. split; [by split; [apply new_link_ok|]|].
    apply Forall_singleton. by split; [apply new_link_ok|]. }
  assert (oids (objs s') (S l) R = R :: oids (objs s') l q1 ++ oids (objs s') l q2) as Eo.
  { simpl. rewrite lookup_insert_eq. simpl. by rewrite app_nil_r. }
  pose proof (sub_nodup _ _ _ _ Hok) as Hnd. rewrite Er in Hnd.
  split; [split; [done|..]|].
  - rewrite Eo, (perm_skip R Ep). rewrite Er in Hnx. apply NoDup_cons in Hnd as [Hnd0 Hnd].
    rewrite NoDup_cons, NoDup_cons, NoDup_cons. split_and!; [|..|done].
    + set_solver.
    + rewrite elem_of_cons. intros [?|Hx]; [done|]. destruct (Hnx q1); set_solver.
    + intros Hx. destruct (Hnx q2); set_solver.
  - intros x. rewrite Eo, (perm_skip R Ep). pose proof (sub_next _ _ _ _ Hok) as Hlt. rewrite Er in Hlt.
    change (next_id s') with (Pos.succ q2).
    intros Hx. assert (x ∈ R :: rest ∨ x = q1 ∨ x = q2) as [Hx'|[->| ->]] by set_solver;
      [apply Hlt in Hx'|..]; unfold q1, q2; lia.
  - intros k. pose proof Ht as (n&Hn&Hi&Hall).
    pose proof (tree_cover_ok _ _ _ _ _ (proj1 Hi) Hall) as Hc.
    pose proof Hn as Hn'. simpl in Hn'. rewrite lookup_insert_eq in Hn'. injection Hn' as <-.
    pose proof (in_range_split None None pk k (in_range_all k)) as Hk.
    destruct (bleb k pk).
    + rewrite (den_cover _ l None None R _ ((None, Some pk), (buf_new false, q1)) k Hn Hc);
        [|apply list_elem_of_here|done]. rewrite eden_new. auto.
    + rewrite (den_cover _ l None None R _ ((Some pk, None), (buf_new false, q2)) k Hn Hc);
        [|apply list_elem_of_further, list_elem_of_here|done]. rewrite eden_new. auto.
Qed.

End split.
