(* ===== verification/TreeMerge.v ===== *)
(** * Merging children and moving the border between leaves

    [merge_step] joins two neighbouring children and their links,
    [fill_step] moves entries between two neighbouring leaves. *)

From Stdlib Require Import ZArith Lia.
From stdpp Require Import base option list numbers gmap fin_maps.
From S2P Require Import Prelude.
From S2P Require Import Bytes.
From S2P Require Import BTreeMap.
From S2P Require Import CowBytes.
From S2P Require Import StoragePref.
From S2P Require Import Message.
From S2P Require Import Checksum.
From S2P Require Import ChildBuffer.
From S2P Require Import Pivots.
From S2P Require Import Internal.
From S2P Require Import Node.
From S2P Require Import Tree.
From S2P Require Import TreeInv.
From S2P Require Import TreeSteps.
From S2P Require Import TreeSplit.

Section merge.
Context `{Checksum} `{MessageActionLaws}.
Implicit Types (m : heap) (l : nat) (lo hi : option bytes) (o : oid) (k : bytes)
  (b : PackedChildBuffer) (n : CopylessInternalNode ObjRef) (s : Store) (r : range)
  (nd : TNode).

(** ** The two neighbours *)

Lemma length_cover_ids lo hi n : shape_ok n → length (cover_ids lo hi n) = length (children n).
Proof. intros Hs. unfold cover_ids. by rewrite length_fmap, length_cover. Qed.

Lemma cover_ids_adjacent lo hi n p e1 e2 :
  cover_ids lo hi n !! p = Some e1 → cover_ids lo hi n !! S p = Some e2 →
  ∃ pk, pivot (meta_data n) !! p = Some pk ∧ e1.1.2 = Some pk ∧ e2.1.1 = Some pk.
Proof.
  intros (c1&Hr1&_)%cover_ids_lookup (c2&Hr2&_)%cover_ids_lookup.
  apply cover_lookup in Hr1 as [Hr1 _], Hr2 as [Hr2 _].
  destruct e1 as [[a1 z1] x1], e2 as [[a2 z2] x2].
  by apply (ranges_adjacent lo _ hi p a1 z1 a2 z2).
Qed.

(** The pair that [prepare_merge] chooses. *)
Lemma prepare_merge_pair lo hi n i e pm :
  shape_ok n → cover_ids lo hi n !! i = Some e → prepare_merge n i = Some pm →
  ∃ e1 e2, cover_ids lo hi n !! pm.1 = Some e1 ∧ cover_ids lo hi n !! S pm.1 = Some e2 ∧
    ((is_right_sibling pm = true ∧ i = pm.1 ∧ pm.2 = S pm.1 ∧ e = e1) ∨
     (is_right_sibling pm = false ∧ i = S pm.1 ∧ pm.2 = pm.1 ∧ e = e2 ∧
      cover_ids lo hi n !! S i = None)).
Proof.
  intros Hs Hi Hpm. unfold prepare_merge in Hpm.
  pose proof (length_cover_ids lo hi n Hs) as Hlen.
  pose proof (lookup_lt_Some _ _ _ Hi) as Hlt.
  destruct (2 <=? fanout n) eqn:Hf; [|done]. apply Z.leb_le in Hf. unfold fanout in Hf.
  unfold is_right_sibling.
  destruct (Nat.ltb_spec (i + 1) (length (children n))); injection Hpm as <-; simpl.
  - destruct (lookup_lt_is_Some_2 (cover_ids lo hi n) (S i)) as [e2 He2]; [lia|].
    exists e, e2. split_and!; [done..|]. left. split_and!; [|lia|lia|done].
    apply negb_true_iff, Nat.eqb_neq. lia.
  - destruct (lookup_lt_is_Some_2 (cover_ids lo hi n) (i - 1)) as [e1 He1]; [lia|].
    exists e1, e. assert (S (i - 1) = i) as -> by lia. split_and!; [done..|].
    right. split_and!; [|lia|done|done|apply lookup_ge_None; lia].
    apply negb_false_iff, Nat.eqb_eq. lia.
Qed.

(** Two neighbours and their subtrees. *)
Lemma cover_ids_pair {A} (xs : list A) p x y :
  xs !! p = Some x → xs !! S p = Some y →
  xs = take p xs ++ [x; y] ++ drop (S (S p)) xs.
Proof.
  intros Hx Hy. rewrite <- (take_drop_middle _ _ _ Hx) at 1. by rewrite (drop_S _ _ _ Hy).
Qed.

Record neighbours s l r o n (p : nat) (e1 e2 : entry) (pk : bytes) : Prop := {
  nb_left : sub_ok s l e1.1 e1.2.2;
  nb_right : sub_ok s l e2.1 e2.2.2;
  nb_link_left : link_ok e1.1.1 e1.1.2 e1.2.1;
  nb_link_right : link_ok e2.1.1 e2.1.2 e2.2.1;
  nb_border_left : e1.1.2 = Some pk;
  nb_border_right : e2.1.1 = Some pk;
  nb_disjoint x : x ∈ oids (objs s) l e1.2.2 → x ∉ oids (objs s) l e2.2.2;
  nb_parent_left : o ∉ oids (objs s) l e1.2.2;
  nb_parent_right : o ∉ oids (objs s) l e2.2.2;
  nb_cut : cover_ids r.1 r.2 n = take p (cover_ids r.1 r.2 n) ++ [e1; e2] ++
    drop (S (S p)) (cover_ids r.1 r.2 n);
}.

Lemma neighbours_ok s l r o n p e1 e2 :
  sub_ok s (S l) r o → objs s !! o = Some (CopylessInternal n) →
  cover_ids r.1 r.2 n !! p = Some e1 → cover_ids r.1 r.2 n !! S p = Some e2 →
  ∃ pk, neighbours s l r o n p e1 e2 pk.
Proof.
  intros Hok Ho He1 He2. destruct (cover_ids_adjacent _ _ _ _ _ _ He1 He2) as (pk&_&Hb1&Hb2).
  exists pk.
  destruct (sub_child _ _ _ _ _ _ _ Hok Ho He1) as [? ?].
  destruct (sub_child _ _ _ _ _ _ _ Hok Ho He2) as [? ?].
  pose proof (cover_ids_pair _ _ _ _ He1 He2) as Hcut.
  split; try done; try by eapply child_not_parent.
  intros x Hx Hx'. destruct (sub_inner _ _ _ _ Hok) as (n0&Hn0&_&_&_&Eo). simplify_eq.
  pose proof (sub_nodup _ _ _ _ Hok) as Hnd. rewrite Eo, Hcut, !eoids_app in Hnd.
  apply NoDup_cons in Hnd as [_ Hnd]. apply NoDup_app in Hnd as (_&_&Hnd).
  apply NoDup_app in Hnd as (Hnd&_). unfold eoids in Hnd. simpl in Hnd.
  rewrite app_nil_r in Hnd. apply NoDup_app in Hnd as (_&Hnd&_). by apply (Hnd x).
Qed.

(** ** Joining two nodes *)

(** A node of height [l] without the objects below it. *)
Definition shell_ok l lo hi nd : Prop :=
  match l with
  | O => ∃ b, nd = MemLeaf b ∧ leaf_ok lo hi b
  | S l => ∃ n, nd = CopylessInternal n ∧ inner_ok l n
  end.

Lemma tree_shell m l lo hi o nd :
  tree_ok m l lo hi o → m !! o = Some nd → shell_ok l lo hi nd.
Proof.
  intros Ht Ho. destruct l as [|l].
  - destruct Ht as (b&Hb&Hlf). simplify_eq. by eexists.
  - destruct Ht as (n&Hn&Hi&_). simplify_eq. by eexists.
Qed.

Lemma in_range_weaken_l lo hi pk k :
  range_ok (Some pk) hi → in_range lo (Some pk) k → in_range lo hi k ∧ bleb k pk = true.
Proof.
  intros Hr Hk. split; [by eapply in_range_sub_r|]. destruct Hk as [_ Hk].
  specialize (Hk pk eq_refl). bbool; [done|border].
Qed.

Lemma in_range_weaken_r lo hi pk k :
  range_ok lo (Some pk) → in_range (Some pk) hi k → in_range lo hi k ∧ bleb k pk = false.
Proof.
  intros Hr Hk. split; [by eapply in_range_sub_l|]. destruct Hk as [Hk _].
  specialize (Hk pk eq_refl). bbool; [border|done].
Qed.

(** Maps on the two sides of a pivot. *)
Lemma sides_sorted lo hi pk (t1 t2 : btree) :
  bt_sorted t1 → bt_sorted t2 →
  (∀ k, bt_get k t1 ≠ None → in_range lo (Some pk) k) →
  (∀ k, bt_get k t2 ≠ None → in_range (Some pk) hi k) → bt_sorted (t1 ++ t2).
Proof.
  intros Hs1 Hs2 Hk1 Hk2. apply bt_sorted_app; [done..|].
  intros [x vx] [y vy] Hx Hy. simpl.
  apply (bt_get_Some x vx t1 Hs1) in Hx. apply (bt_get_Some y vy t2 Hs2) in Hy.
  destruct (Hk1 x ltac:(congruence)) as [_ Hx']. destruct (Hk2 y ltac:(congruence)) as [Hy' _].
  specialize (Hx' pk eq_refl). specialize (Hy' pk eq_refl). border.
Qed.

Lemma sides_get lo hi pk (t1 t2 : btree) k :
  (∀ k, bt_get k t1 ≠ None → in_range lo (Some pk) k) →
  (∀ k, bt_get k t2 ≠ None → in_range (Some pk) hi k) →
  bt_get k (t1 ++ t2) = if bleb k pk then bt_get k t1 else bt_get k t2.
Proof.
  intros Hk1 Hk2. rewrite bt_get_app.
  destruct (bt_get k t1) eqn:E1.
  - destruct (Hk1 k ltac:(congruence)) as [_ Hx]. specialize (Hx pk eq_refl). bbool; [done|border].
  - destruct (bt_get k t2) eqn:E2; [|by destruct (bleb k pk)].
    destruct (Hk2 k ltac:(congruence)) as [Hx _]. specialize (Hx pk eq_refl). bbool; [border|done].
Qed.

Lemma sides_range lo hi pk (t1 t2 : btree) k :
  range_ok lo (Some pk) → range_ok (Some pk) hi →
  (∀ k, bt_get k t1 ≠ None → in_range lo (Some pk) k) →
  (∀ k, bt_get k t2 ≠ None → in_range (Some pk) hi k) →
  bt_get k (t1 ++ t2) ≠ None → in_range lo hi k.
Proof.
  intros Hr1 Hr2 Hk1 Hk2. rewrite (sides_get lo hi pk) by done.
  destruct (bleb k pk); intros Hk; [eapply in_range_sub_r|eapply in_range_sub_l]; eauto.
Qed.

Lemma sides_disjoint lo hi pk b1 b2 :
  range_ok lo (Some pk) → range_ok (Some pk) hi →
  keys_in lo (Some pk) b1 → keys_in (Some pk) hi b2 →
  disjoint_keys (buf_contents b1) (buf_contents b2).
Proof.
  intros Hr1 Hr2 Hk1 Hk2 k Hk. destruct (bt_get k (buf_contents b1)) eqn:E1; [|done].
  destruct (in_range_weaken_r lo hi pk k Hr1 (Hk2 k Hk)) as [_ Hb].
  destruct (in_range_weaken_l lo hi pk k Hr2 (Hk1 k ltac:(congruence))) as [_ Hb'].
  congruence.
Qed.

(** Appending the buffer on the right of a pivot to the one on the left. *)
Lemma append_sides lo hi pk b1 b2 :
  range_ok lo (Some pk) → range_ok (Some pk) hi →
  buf_wf b1 (buf_contents b1) → buf_wf b2 (buf_contents b2) → is_leaf b1 = is_leaf b2 →
  keys_in lo (Some pk) b1 → keys_in (Some pk) hi b2 →
  ∃ b b' d, buf_append b1 b2 = Some (b, b', d) ∧ is_leaf b = is_leaf b1 ∧
    buf_wf b (buf_contents b) ∧ keys_in lo hi b ∧
    (∀ k, bt_get k (buf_contents b) =
      if bleb k pk then bt_get k (buf_contents b1) else bt_get k (buf_contents b2)).
Proof.
  intros Hr1 Hr2 Hwf1 Hwf2 Hl Hk1 Hk2.
  pose proof (sides_sorted lo hi pk _ _ (wf_sorted _ _ Hwf1) (wf_sorted _ _ Hwf2) Hk1 Hk2) as Hs.
  pose proof (sides_disjoint lo hi pk b1 b2 Hr1 Hr2 Hk1 Hk2) as Hd.
  destruct (buf_append_wf b1 _ b2 _ Hwf1 Hwf2 Hl Hd) as (b&b'&d&Ha&Hwf&Hl'&_).
  rewrite (bt_append_app _ _ Hs) in Hwf. pose proof (buf_wf_contents _ _ Hwf) as E.
  exists b, b', d. rewrite E. split_and!; [done..| |].
  - intros k. rewrite E. by apply sides_range with (pk := pk).
  - intros k. by apply (sides_get lo hi).
Qed.

Lemma node_merge_halves l lo hi nd1 nd2 pk nd1' nd2' d :
  range_ok lo (Some pk) → range_ok (Some pk) hi →
  shell_ok l lo (Some pk) nd1 → shell_ok l (Some pk) hi nd2 →
  node_merge nd1 nd2 pk = Some (nd1', nd2', d) →
  shell_ok l lo hi nd1' ∧ node_halves l lo hi nd1' nd1 nd2 pk.
Proof.
  intros Hr1 Hr2 Hsh1 Hsh2 Hm. unfold node_merge in Hm. destruct l as [|l].
  - destruct Hsh1 as (b1&->&Hlf1), Hsh2 as (b2&->&Hlf2). simpl in Hm.
    destruct (unpack_leaf_ok _ _ _ Hlf1) as (b1'&d1&Hu1&(Hwf1&Hl1&Hk1)&E1).
    destruct (unpack_leaf_ok _ _ _ Hlf2) as (b2'&d2&Hu2&(Hwf2&Hl2&Hk2)&E2).
    rewrite Hu1, Hu2 in Hm. simpl in Hm.
    destruct (append_sides lo hi pk b1' b2') as (b&b'&d'&Ha&Hl&Hwf&Hk&Hg);
      [done|done|done|done|congruence|done|done|].
    rewrite Ha in Hm. simplify_eq/=.
    assert (leaf_ok lo hi b) by (split_and!; [done|congruence|done]).
    split; [by eexists|]. split_and!; [done..|]. exists b, b1, b2. split_and!; try done.
    intros k. unfold leaf_val. rewrite Hg, E1, E2. by destruct (bleb k pk).
  - destruct Hsh1 as (n1&->&Hs1&Hl1&Hp1), Hsh2 as (n2&->&Hs2&Hl2&Hp2). cbn [ensure_unpacked mbind option_bind] in Hm.
    destruct (in_merge n1 n2 pk) as [[n' rs'] d'] eqn:Hi. injection Hm as <- _ _.
    destruct (in_merge_spec lo hi n1 n2 pk n' rs' d' Hs1 Hs2 Hi) as (Hcov&Hs'&Hl'&_&Hp'&_).
    assert (inner_ok l n') by (split_and!; [done|congruence|auto]).
    split; [by exists n'|]. split_and!; [done..|]. exists n', n1, n2. split_and!; try done.
    unfold cover_ids. by rewrite Hcov, fmap_app.
Qed.

(** The joined node in the place of the left one. *)
Lemma join_place m m1 l lo hi pk a c nd1 nd2 nd' :
  tree_ok m l lo (Some pk) a → tree_ok m l (Some pk) hi c →
  NoDup (oids m l a ++ oids m l c) → m !! a = Some nd1 → m !! c = Some nd2 →
  shell_ok l lo hi nd' → node_halves l lo hi nd' nd1 nd2 pk → m1 !! a = Some nd' →
  (∀ x, x ∈ oids m l a ++ oids m l c → x ≠ a → x ≠ c → m1 !! x = m !! x) →
  tree_ok m1 l lo hi a ∧ oids m1 l a ⊆+ oids m l a ++ oids m l c ∧
  (∀ k, in_range lo hi k → den m1 l a k = if bleb k pk then den m l a k else den m l c k).
Proof.
  intros Ht1 Ht2 Hnd Ha Hc Hsh (_&_&Hh) Ha' Hf. destruct l as [|l].
  - destruct Hh as (b&b1&b2&->&->&->&_&_&Hv). destruct Hsh as (b0&[= <-]&Hlf).
    simpl. rewrite Ha, Hc, Ha'. split_and!; [by exists b| |].
    + apply submseteq_skip, submseteq_nil_l.
    + intros k _. rewrite Hv. by destruct (bleb k pk).
  - destruct Hh as (n&n1&n2&->&->&->&_&_&Hcov). destruct Hsh as (n0&[= <-]&Hi).
    destruct Ht1 as (n0&Hn0&(Hs1&_)&Hall1). rewrite Ha in Hn0. injection Hn0 as <-.
    destruct Ht2 as (n0&Hn0&(Hs2&_)&Hall2). rewrite Hc in Hn0. injection Hn0 as <-.
    pose proof (tree_cover_ok _ _ _ _ _ Hs1 Hall1) as Hc1.
    pose proof (tree_cover_ok _ _ _ _ _ Hs2 Hall2) as Hc2.
    rewrite (oids_cover m l lo (Some pk) a n1), (oids_cover m l (Some pk) hi c n2)
      in Hnd, Hf |- * by done.
    fold (eoids m l (cover_ids lo (Some pk) n1)) in Hnd, Hf |- *.
    fold (eoids m l (cover_ids (Some pk) hi n2)) in Hnd, Hf |- *.
    set (X1 := eoids m l (cover_ids lo (Some pk) n1)) in *.
    set (X2 := eoids m l (cover_ids (Some pk) hi n2)) in *.
    assert (∀ x, x ∈ X1 ++ X2 → x ≠ a ∧ x ≠ c) as Hne.
    { rewrite Permutation_app_comm in Hnd. simpl in Hnd. apply NoDup_cons in Hnd as [Hn1 Hnd].
      rewrite <- Permutation_middle in Hnd. apply NoDup_cons in Hnd as [Hn2 _].
      rewrite elem_of_app in Hn2. rewrite elem_of_app, elem_of_cons in Hn1.
      intros x Hx. apply elem_of_app in Hx. split; intros ->; tauto. }
    destruct (eoids_frame m m1 l (cover_ids lo hi n)) as (Ee&Ed&Et).
    { rewrite Hcov, eoids_app. intros x Hx. destruct (Hne x Hx). apply Hf; [|done..].
      apply elem_of_app in Hx as [Hx|Hx]; apply elem_of_app; [left|right];
        apply elem_of_cons; by right. }
    rewrite Hcov, eoids_app in Ee. rewrite Hcov, !Forall_app in Et.
    pose proof (Et (conj Hall1 Hall2)) as Hall. rewrite <- Forall_app, <- Hcov in Hall.
    pose proof (tree_cover_ok _ _ _ _ _ (proj1 Hi) Hall) as Hck.
    split_and!; [by exists n| |].
    + rewrite (oids_cover m1 l lo hi a n) by (try done; apply Hi).
      fold (eoids m1 l (cover_ids lo hi n)). rewrite Hcov, eoids_app, Ee, eoids_app. simpl.
      apply submseteq_skip, submseteq_skips_l. by constructor.
    + intros k Hk. apply (in_range_split _ _ pk) in Hk. destruct (bleb k pk).
      * destruct (cover_ids_total _ _ n1 k Hc1 Hk) as (e&He&Hke).
        assert (e ∈ cover_ids lo hi n) by (rewrite Hcov; apply elem_of_app; by left).
        by rewrite (den_cover m1 l lo hi a n e), (den_cover m l lo (Some pk) a n1 e), Ed.
      * destruct (cover_ids_total _ _ n2 k Hc2 Hk) as (e&He&Hke).
        assert (e ∈ cover_ids lo hi n) by (rewrite Hcov; apply elem_of_app; by right).
        by rewrite (den_cover m1 l lo hi a n e), (den_cover m l (Some pk) hi c n2 e), Ed.
Qed.

(** ** Merging two children *)

Lemma merge_children_ids l lo hi n p n' pk np d e1 e2 :
  inner_ok l n → merge_children n p = Some (n', (pk, np, d)) →
  cover_ids lo hi n !! p = Some e1 → cover_ids lo hi n !! S p = Some e2 →
  ∃ b b' db, buf_append e1.2.1 e2.2.1 = Some (b, b', db) ∧ or_id np = e2.2.2 ∧
    e1.1.2 = Some pk ∧ e2.1.1 = Some pk ∧ inner_ok l n' ∧
    cover_ids lo hi n' = take p (cover_ids lo hi n) ++
      [((e1.1.1, e2.1.2), (b, e1.2.2))] ++ drop (S (S p)) (cover_ids lo hi n).
Proof.
  intros (Hs&Hl&Hp) Hm He1 He2.
  destruct (merge_children_spec lo hi n p n' pk np d Hs Hm)
    as (r1&c1&r2&c2&b&b'&db&Hc1&Hc2&Hr1&Hr2&->&Hb&Hcov&Hs'&Hl'&_&Hp'&_).
  unfold cover_ids in He1, He2. rewrite list_lookup_fmap in He1, He2.
  rewrite Hc1 in He1. rewrite Hc2 in He2. simplify_eq/=.
  exists b, b', db. split_and!; try done.
  - split_and!; [done|congruence|auto].
  - unfold cover_ids. rewrite Hcov, fmap_app, fmap_take. simpl. by rewrite fmap_drop.
Qed.

Lemma append_link lo hi pk b1 b2 b b' d :
  link_ok lo (Some pk) b1 → link_ok (Some pk) hi b2 →
  buf_append b1 b2 = Some (b, b', d) →
  link_ok lo hi b ∧ ∀ k x, msg_eff (buf_contents b) k x =
    if bleb k pk then msg_eff (buf_contents b1) k x else msg_eff (buf_contents b2) k x.
Proof.
  intros (Hr1&Hwf1&Hl1&Hk1) (Hr2&Hwf2&Hl2&Hk2) Ha.
  destruct (append_sides lo hi pk b1 b2) as (b0&b0'&d0&Ha'&Hl&Hwf&Hk&Hg);
    [done|done|done|done|congruence|done|done|].
  rewrite Ha in Ha'. injection Ha' as <- <- <-. split.
  - split_and!; [by eapply range_ok_trans|done|congruence|done].
  - intros k x. unfold msg_eff. rewrite Hg. by destruct (bleb k pk).
Qed.

Lemma merge_pair_step s s' l r o n n' p e1 e2 pk nd1 nd2 nd' b :
  sub_ok s (S l) r o → objs s !! o = Some (CopylessInternal n) →
  neighbours s l r o n p e1 e2 pk → inner_ok l n' →
  cover_ids r.1 r.2 n' = take p (cover_ids r.1 r.2 n) ++
    [((e1.1.1, e2.1.2), (b, e1.2.2))] ++ drop (S (S p)) (cover_ids r.1 r.2 n) →
  link_ok e1.1.1 e2.1.2 b →
  (∀ k x, msg_eff (buf_contents b) k x =
    if bleb k pk then msg_eff (buf_contents e1.2.1) k x
    else msg_eff (buf_contents e2.2.1) k x) →
  objs s !! e1.2.2 = Some nd1 → objs s !! e2.2.2 = Some nd2 →
  shell_ok l e1.1.1 e2.1.2 nd' → node_halves l e1.1.1 e2.1.2 nd' nd1 nd2 pk →
  objs s' !! o = Some (CopylessInternal n') → objs s' !! e1.2.2 = Some nd' →
  (∀ x, x ≠ o → x ≠ e1.2.2 → x ≠ e2.2.2 → objs s' !! x = objs s !! x) →
  next_id s' = next_id s →
  store_step s s' (S l) r o keep.
Proof.
  intros Hok Ho [Hs1 Hs2 Hlk1 Hlk2 Hb1 Hb2 Hdis Hp1 Hp2 Hcut] Hi' Hcov Hlk Heff
    Hnd1 Hnd2 Hsh Hh Ho' Ha' Hout Hnx.
  pose proof (sub_tree _ _ _ _ Hs1) as Ht1. pose proof (sub_tree _ _ _ _ Hs2) as Ht2.
  rewrite Hb1 in Ht1. rewrite Hb2 in Ht2.
  destruct (join_place (objs s) (objs s') l e1.1.1 e2.1.2 pk e1.2.2 e2.2.2 nd1 nd2 nd')
    as (Ht&Hsub&Hden); try done.
  { apply NoDup_app. split_and!; [apply Hs1|done|apply Hs2]. }
  { intros x Hx Hxa Hxc. apply Hout; [|done..]. intros ->. set_solver. }
  exists []. rewrite Hnx. split_and!; [|constructor|set_solver|lia].
  rewrite <- (insert_id _ _ _ Ho').
  eapply (parent_step s (objs s') l r o n n' _ [e1; e2]
    [((e1.1.1, e2.1.2), (b, e1.2.2))]); try done.
  - intros x Hxe _ Hxo. apply Hout; [done| |]; intros ->; apply Hxe, eoids_elem.
    + exists e1. split; [set_solver|apply oids_root].
    + exists e2. split; [set_solver|apply oids_root].
  - set_solver.
  - by apply Forall_singleton.
  - unfold eoids. simpl. by rewrite !app_nil_r.
  - intros e' k He' Hk. apply list_elem_of_singleton in He' as ->. simpl in Hk.
    unfold eden. simpl. rewrite Hden by done. apply (in_range_split _ _ pk) in Hk.
    destruct (bleb k pk) eqn:Ek.
    + exists e1. rewrite Hb1. split_and!; [set_solver|done|].
      destruct (den (objs s) l e1.2.2 k) as [d|]; simpl; [|done]. by rewrite Heff, Ek.
    + exists e2. rewrite Hb2. split_and!; [set_solver|done|].
      destruct (den (objs s) l e2.2.2 k) as [d|]; simpl; [|done]. by rewrite Heff, Ek.
Qed.

Lemma with_internal_same {A} s o n (a : A) f :
  objs s !! o = Some (CopylessInternal n) → f n = Some (n, a) →
  with_internal s o f = Some (s, a).
Proof.
  intros Ho Hf. unfold with_internal. rewrite Ho. simpl. rewrite Hf. simpl.
  by rewrite put_same.
Qed.

Lemma child_ref_id s o r n i e :
  objs s !! o = Some (CopylessInternal n) → cover_ids r.1 r.2 n !! i = Some e →
  ∃ np, child_ref s o i = Some np ∧ or_id np = e.2.2.
Proof.
  intros Ho Hi. apply cover_ids_lookup in Hi as (c&Hc&He). apply cover_lookup in Hc as [_ Hc].
  unfold child_ref. rewrite Ho. simpl. rewrite Hc. simpl. eexists. split; [done|].
  by rewrite He.
Qed.

Lemma neighbours_ne s l r o n p e1 e2 pk :
  neighbours s l r o n p e1 e2 pk → o ≠ e1.2.2 ∧ o ≠ e2.2.2 ∧ e1.2.2 ≠ e2.2.2.
Proof.
  intros [_ _ _ _ _ _ Hdis Hp1 Hp2 _].
  pose proof (oids_root (objs s) l e1.2.2). pose proof (oids_root (objs s) l e2.2.2).
  split_and!; intros E; rewrite E in *; try done. by apply (Hdis e2.2.2).
Qed.

(** What [merge_step] did, if it did not panic. *)
Lemma merge_step_inv s l r o n i e s' :
  sub_ok s (S l) r o → objs s !! o = Some (CopylessInternal n) →
  cover_ids r.1 r.2 n !! i = Some e → merge_step s o e.2.2 i = Some s' →
  ∃ p e1 e2 pk0 n' pk np dm nd1 nd2 nd1' nd2' d,
    cover_ids r.1 r.2 n !! p = Some e1 ∧ cover_ids r.1 r.2 n !! S p = Some e2 ∧
    neighbours s l r o n p e1 e2 pk0 ∧
    merge_children n p = Some (n', (pk, np, dm)) ∧
    objs s !! e1.2.2 = Some nd1 ∧ objs s !! e2.2.2 = Some nd2 ∧
    node_merge nd1 nd2 pk = Some (nd1', nd2', d) ∧
    next_id s' = next_id s ∧
    ∀ x, x ≠ or_id np → objs s' !! x =
      if decide (x = o) then Some (CopylessInternal n')
      else if decide (x = e1.2.2) then Some nd1'
      else if decide (x = e2.2.2) then Some nd2' else objs s !! x.
Proof.
  intros Hok Ho Hi Hm. destruct (sub_inner _ _ _ _ Hok) as (n0&Hn0&Hin&_). simplify_eq.
  unfold merge_step in Hm.
  destruct (prepare_merge n i) as [pm|] eqn:Hpm;
    [|by unfold with_internal in Hm; rewrite Ho in Hm; simpl in Hm; rewrite Hpm in Hm].
  rewrite (with_internal_same s o n pm) in Hm by (try done; by rewrite Hpm). simpl in Hm.
  destruct (prepare_merge_pair r.1 r.2 n i e pm (proj1 Hin) Hi Hpm) as (e1&e2&He1&He2&Hcase).
  destruct (neighbours_ok s l r o n pm.1 e1 e2 Hok Ho He1 He2) as (pk0&Hnb).
  destruct (neighbours_ne _ _ _ _ _ _ _ _ _ Hnb) as (Hne1&Hne2&Hne).
  destruct (sub_node _ _ _ _ (nb_left _ _ _ _ _ _ _ _ _ Hnb)) as (nd1&Hnd1&_).
  destruct (sub_node _ _ _ _ (nb_right _ _ _ _ _ _ _ _ _ Hnb)) as (nd2&Hnd2&_).
  exists pm.1, e1, e2, pk0. unfold with_internal, dml_get_mut, dml_remove in Hm.
  destruct Hcase as [(Hrs&->&Hpm2&->)|(Hrs&->&Hpm2&->&Hlast)]; rewrite Hrs in Hm;
    rewrite Hpm2 in Hm.
  - destruct (child_ref_id s o r n (S pm.1) e2 Ho He2) as (sib&Hsr&Hsi).
    rewrite Hsr in Hm. simpl in Hm. rewrite Hsi, Hnd2 in Hm. simpl in Hm. rewrite Ho in Hm.
    simpl in Hm.
    destruct (merge_children n pm.1) as [[n' [[pk np] dm]]|] eqn:Hmc; simplify_eq/=.
    rewrite !lookup_insert_ne, Hnd1, Hnd2 in Hm by done. simpl in Hm.
    destruct (node_merge nd1 nd2 pk) as [[[nd1' nd2'] d]|] eqn:Hnm; simplify_eq/=.
    destruct (bool_decide _) in Hm; simplify_eq/=.
    eexists _, _, _, _, _, _, _, _, _. split_and!; try done. intros x Hx.
    rewrite lookup_delete_ne by done. rewrite !lookup_insert. repeat case_decide; congruence.
  - destruct (child_ref_id s o r n pm.1 e1 Ho He1) as (sib&Hsr&Hsi).
    rewrite Hsr in Hm. simpl in Hm. rewrite Hsi, Hnd1 in Hm. simpl in Hm. rewrite Ho in Hm.
    simpl in Hm.
    destruct (merge_children n pm.1) as [[n' [[pk np] dm]]|] eqn:Hmc; simplify_eq/=.
    rewrite !lookup_insert_ne, Hnd1, Hnd2 in Hm by done. simpl in Hm.
    destruct (node_merge nd1 nd2 pk) as [[[nd1' nd2'] d]|] eqn:Hnm; simplify_eq/=.
    destruct (bool_decide _) in Hm; simplify_eq/=.
    eexists _, _, _, _, _, _, _, _, _. split_and!; try done. intros x Hx.
    rewrite lookup_delete_ne by done. rewrite !lookup_insert. repeat case_decide; congruence.
Qed.

(** Step 3: merging a child with its sibling keeps the subtree and all
    values. *)
Lemma merge_step_ok s l r o i e s' :
  sub_ok s (S l) r o → child_at s o r i e →
  merge_step s o e.2.2 i = Some s' → store_step s s' (S l) r o keep.
Proof.
  intros Hok (n&Ho&Hi) Hm. destruct (sub_inner _ _ _ _ Hok) as (n0&Hn0&Hin&_). simplify_eq.
  destruct (merge_step_inv s l r o n i e s' Hok Ho Hi Hm)
    as (p&e1&e2&pk0&n'&pk&np&dm&nd1&nd2&nd1'&nd2'&d&He1&He2&Hnb&Hmc&Hnd1&Hnd2&Hnm&Hnx&Hout).
  destruct (neighbours_ne _ _ _ _ _ _ _ _ _ Hnb) as (Hne1&Hne2&Hne).
  destruct (merge_children_ids l r.1 r.2 _ _ _ _ _ _ e1 e2 Hin Hmc He1 He2)
    as (b&b'&db&Hba&Hnp&Hpk&_&Hin'&Hcov).
  pose proof Hnb as [Hs1 Hs2 Hlk1 Hlk2 Hb1 Hb2 _ _ _ _].
  rewrite Hb1 in Hpk. injection Hpk as ->.
  pose proof (tree_shell _ _ _ _ _ _ (sub_tree _ _ _ _ Hs1) Hnd1) as Hsh1.
  pose proof (tree_shell _ _ _ _ _ _ (sub_tree _ _ _ _ Hs2) Hnd2) as Hsh2.
  rewrite Hb1 in Hlk1, Hsh1. rewrite Hb2 in Hlk2, Hsh2.
  destruct (append_link _ _ _ _ _ _ _ _ Hlk1 Hlk2 Hba) as [Hlk Heff].
  destruct (node_merge_halves l e1.1.1 e2.1.2 nd1 nd2 pk nd1' nd2' d) as [Hsh Hh];
    [apply Hlk1|apply Hlk2|done..|].
  rewrite Hnp in Hout. eapply merge_pair_step; try done.
  - by rewrite Hout, decide_True.
  - by rewrite Hout, decide_False, decide_True.
  - intros x Hx1 Hx2 Hx3. by rewrite Hout, !decide_False.
Qed.

(** ** Moving the border between two leaves *)

Lemma leaf_rebalance_cut sm lo hi pk b1 b2 nd1 nd2 pk' d :
  range_ok lo (Some pk) → range_ok (Some pk) hi →
  leaf_ok lo (Some pk) b1 → leaf_ok (Some pk) hi b2 →
  leaf_rebalance (N := ObjRef) sm (MemLeaf b1) (MemLeaf b2) =
    Some (nd1, nd2, Rebalanced pk' d) →
  ∃ b1' b2', nd1 = MemLeaf b1' ∧ nd2 = MemLeaf b2' ∧
    range_ok lo (Some pk') ∧ range_ok (Some pk') hi ∧
    leaf_ok lo (Some pk') b1' ∧ leaf_ok (Some pk') hi b2' ∧
    ∀ k, (if bleb k pk then leaf_val (buf_contents b1) k else leaf_val (buf_contents b2) k) =
      if bleb k pk' then leaf_val (buf_contents b1') k else leaf_val (buf_contents b2') k.
Proof.
  intros Hr1 Hr2 Hlf1 Hlf2 Hm. unfold leaf_rebalance in Hm. simpl in Hm.
  destruct (unpack_leaf_ok _ _ _ Hlf1) as (u1&d1&Hu1&Hlu1&E1). rewrite Hu1 in Hm. simpl in Hm.
  destruct (unpack_leaf_ok _ _ _ Hlf2) as (u2&d2&Hu2&(Hwf2&Hl2&Hk2)&E2).
  rewrite Hu2 in Hm. simpl in Hm.
  destruct (min_size_leaf sm _ _ u1 Hlu1) as (v2&w1&Hm2&Hlw1&F1). rewrite Hm2 in Hm. simpl in Hm.
  destruct (min_size_leaf sm _ _ w1 Hlw1) as (v3&x1&Hm3&(Hwf1&Hl1&Hk1)&G1).
  rewrite Hm3 in Hm. simpl in Hm.
  destruct (buf_rebalance_size x1 u2 v2 v3) as [[[b1' b2'] res]|] eqn:Hb; simplify_eq/=.
  pose proof (sides_sorted lo hi pk _ _ (wf_sorted _ _ Hwf1) (wf_sorted _ _ Hwf2) Hk1 Hk2) as Hst.
  destruct (buf_rebalance_size_wf x1 _ u2 _ v2 v3 b1' b2' _ Hwf1 Hwf2 Hl1 Hl2 Hst Hb)
    as (Hl1'&t1&t2&Et&_&Hne&[v Hla]&Hwf1'&Hwf2'&Hl2').
  assert (∀ k, bt_get k (t1 ++ t2) ≠ None → in_range lo hi k) as Hk.
  { intros k. rewrite <- Et. by apply sides_range with (pk := pk). }
  assert (bt_sorted (t1 ++ t2)) as Hst' by (by rewrite <- Et).
  destruct (leaf_cut lo hi b1' b2' t1 t2 pk' v) as (?&?&?&?&Hv); [done..|].
  exists b1', b2'. split_and!; try done. intros k. rewrite <- Hv, <- Et.
  unfold leaf_val. rewrite (sides_get lo hi pk) by done.
  rewrite G1, F1, E1, E2. by destruct (bleb k pk).
Qed.

Lemma rebalanced_ids l lo hi n p pk' n' d e1 e2 :
  inner_ok l n → rebalanced n p pk' = Some (n', d) →
  cover_ids lo hi n !! p = Some e1 → cover_ids lo hi n !! S p = Some e2 →
  ∃ lb rb, buf_rebalance e1.2.1 e2.2.1 pk' = Some (lb, rb) ∧ inner_ok l n' ∧
    cover_ids lo hi n' = take p (cover_ids lo hi n) ++
      [((e1.1.1, Some pk'), (lb, e1.2.2)); ((Some pk', e2.1.2), (rb, e2.2.2))] ++
      drop (S (S p)) (cover_ids lo hi n).
Proof.
  intros (Hs&Hl&Hp) Hm He1 He2.
  destruct (rebalanced_spec lo hi n p pk' n' d Hs Hm)
    as (r1&c1&r2&c2&lb&rb&Hc1&Hc2&_&Hb&Hcov&Hs'&Hl'&Hp'&_).
  unfold cover_ids in He1, He2. rewrite list_lookup_fmap in He1, He2.
  rewrite Hc1 in He1. rewrite Hc2 in He2. simplify_eq/=.
  exists lb, rb. split_and!; [done|split_and!; [done|congruence|auto]|].
  unfold cover_ids. rewrite Hcov, fmap_app, fmap_take. simpl. by rewrite fmap_drop.
Qed.

Lemma rebalance_link lo hi pk pk' b1 b2 lb rb :
  link_ok lo (Some pk) b1 → link_ok (Some pk) hi b2 →
  range_ok lo (Some pk') → range_ok (Some pk') hi →
  buf_rebalance b1 b2 pk' = Some (lb, rb) →
  link_ok lo (Some pk') lb ∧ link_ok (Some pk') hi rb ∧
  ∀ k x, in_range lo hi k →
    msg_eff (buf_contents (if bleb k pk' then lb else rb)) k x =
    msg_eff (buf_contents (if bleb k pk then b1 else b2)) k x.
Proof.
  intros (Hr1&Hwf1&Hl1&Hk1) (Hr2&Hwf2&Hl2&Hk2) Hr1' Hr2' Hb.
  pose proof (sides_sorted lo hi pk _ _ (wf_sorted _ _ Hwf1) (wf_sorted _ _ Hwf2) Hk1 Hk2) as Hst.
  pose proof (sides_disjoint lo hi pk b1 b2 Hr1 Hr2 Hk1 Hk2) as Hd.
  destruct (buf_rebalance_wf b1 _ b2 _ pk' Hwf1 Hwf2 Hl1 Hl2 Hd) as (lb'&rb'&Hb'&Hw1&?&Hw2&?).
  rewrite Hb in Hb'. injection Hb' as <- <-. rewrite (bt_append_app _ _ Hst) in Hw1, Hw2.
  destruct (link_cut lo hi lb rb (buf_contents b1 ++ buf_contents b2) pk')
    as (?&?&Hf1&Hf2); try done.
  { intros k. by apply sides_range with (pk := pk). }
  split_and!; [done..|]. intros k x Hk. apply (in_range_split _ _ pk') in Hk.
  transitivity (msg_eff (buf_contents b1 ++ buf_contents b2) k x).
  - destruct (bleb k pk'); auto.
  - unfold msg_eff. rewrite (sides_get lo hi pk) by done. by destruct (bleb k pk).
Qed.

(** The removal of a child that is still borrowed panics. *)
Lemma dml_remove_held s held np : or_id np ∈ held → dml_remove s held np = None.
Proof. intros Hin. unfold dml_remove. by rewrite bool_decide_eq_false_2 by auto. Qed.

(** [fill_step] on the pair at [p]: the part after both leaves are there. *)
Definition fill_pair t s (node child sib a c : oid) (p : nat) : option Store :=
  lnd ← objs s !! a;
  rnd ← objs s !! c;
  '(lnd, rnd, res) ← leaf_rebalance (storage_map t) lnd rnd;
  let s := put (put s a lnd) c rnd in
  match res with
  | Merged _ =>
      '(s, old_np) ← with_internal s node (λ n,
        '(n, (_, np, _)) ← merge_children n p; Some (n, np));
      dml_remove s [node; child; sib] old_np
  | Rebalanced pivot_key _ =>
      '(s, _) ← with_internal s node (λ n,
        '(n, _) ← rebalanced n p pivot_key; Some (n, tt));
      Some s
  end.

Lemma fill_step_pair t s l r o n i e s' :
  sub_ok s (S l) r o → objs s !! o = Some (CopylessInternal n) →
  cover_ids r.1 r.2 n !! i = Some e → fill_step t s o e.2.2 i = Some s' →
  ∃ p e1 e2 pk0 sib md, cover_ids r.1 r.2 n !! p = Some e1 ∧
    cover_ids r.1 r.2 n !! S p = Some e2 ∧ neighbours s l r o n p e1 e2 pk0 ∧
    (i = p ∧ e = e1 ∧ sib = e2.2.2 ∨
     i = S p ∧ e = e2 ∧ sib = e1.2.2 ∧ cover_ids r.1 r.2 n !! S i = None) ∧
    fill_pair t (mkStore (objs s) (next_id s) md) o e.2.2 sib e1.2.2 e2.2.2 p = Some s'.
Proof.
  intros Hok Ho Hi Hm. destruct (sub_inner _ _ _ _ Hok) as (n0&Hn0&Hin&_). simplify_eq.
  unfold fill_step in Hm.
  destruct (prepare_merge n i) as [pm|] eqn:Hpm;
    [|by unfold with_internal in Hm; rewrite Ho in Hm; simpl in Hm; rewrite Hpm in Hm].
  rewrite (with_internal_same s o n pm) in Hm by (try done; by rewrite Hpm).
  cbn [mbind option_bind] in Hm.
  destruct (prepare_merge_pair r.1 r.2 n i e pm (proj1 Hin) Hi Hpm) as (e1&e2&He1&He2&Hcase).
  destruct (neighbours_ok s l r o n pm.1 e1 e2 Hok Ho He1 He2) as (pk0&Hnb).
  destruct (sub_node _ _ _ _ (nb_left _ _ _ _ _ _ _ _ _ Hnb)) as (nd1&Hnd1&_).
  destruct (sub_node _ _ _ _ (nb_right _ _ _ _ _ _ _ _ _ Hnb)) as (nd2&Hnd2&_).
  destruct Hcase as [(Hrs&->&Hpm2&->)|(Hrs&->&Hpm2&->&Hlast)]; rewrite Hrs, Hpm2 in Hm.
  - destruct (child_ref_id s o r n (S pm.1) e2 Ho He2) as (sib&Hsr&Hsi).
    rewrite Hsr in Hm. cbn [mbind option_bind] in Hm. unfold dml_get_mut in Hm.
    rewrite Hsi, Hnd2 in Hm. cbn [mbind option_bind] in Hm.
    eexists pm.1, e1, e2, pk0, e2.2.2, _. split_and!; try done. by left.
  - destruct (child_ref_id s o r n pm.1 e1 Ho He1) as (sib&Hsr&Hsi).
    rewrite Hsr in Hm. cbn [mbind option_bind] in Hm. unfold dml_get_mut in Hm.
    rewrite Hsi, Hnd1 in Hm. cbn [mbind option_bind] in Hm.
    eexists pm.1, e1, e2, pk0, e1.2.2, _. split_and!; try done. by right.
Qed.

(** If it did not panic, the border between the leaves was moved. *)
Lemma fill_pair_inv t s l r o n p e1 e2 pk0 e sib s' :
  sub_ok s (S l) r o → objs s !! o = Some (CopylessInternal n) →
  neighbours s l r o n p e1 e2 pk0 →
  cover_ids r.1 r.2 n !! p = Some e1 → cover_ids r.1 r.2 n !! S p = Some e2 →
  e2.2.2 ∈ [o; e; sib] → fill_pair t s o e sib e1.2.2 e2.2.2 p = Some s' →
  ∃ nd1 nd2 nd1' nd2' pk' d n' d',
    objs s !! e1.2.2 = Some nd1 ∧ objs s !! e2.2.2 = Some nd2 ∧
    leaf_rebalance (storage_map t) nd1 nd2 = Some (nd1', nd2', Rebalanced pk' d) ∧
    rebalanced n p pk' = Some (n', d') ∧
    s' = put (put (put s e1.2.2 nd1') e2.2.2 nd2') o (CopylessInternal n').
Proof.
  intros Hok Ho Hnb He1 He2 Hheld Hm. unfold fill_pair, with_internal in Hm.
  destruct (sub_inner _ _ _ _ Hok) as (n0&Hn0&Hin&_). simplify_eq.
  destruct (neighbours_ne _ _ _ _ _ _ _ _ _ Hnb) as (Hne1&Hne2&Hne).
  destruct (objs s !! e1.2.2) as [nd1|] eqn:Hnd1; [|done]. cbn [mbind option_bind] in Hm.
  destruct (objs s !! e2.2.2) as [nd2|] eqn:Hnd2; [|done]. cbn [mbind option_bind] in Hm.
  destruct (leaf_rebalance (storage_map t) nd1 nd2) as [[[nd1' nd2'] res]|] eqn:Hlr; [|done].
  cbn [mbind option_bind] in Hm. simpl in Hm. rewrite !lookup_insert_ne, Ho in Hm by done.
  simpl in Hm. destruct res as [pk' d|d].
  - destruct (rebalanced n p pk') as [[n' d']|] eqn:Hr; simplify_eq/=.
    by exists nd1, nd2, nd1', nd2', pk', d, n', d'.
  - destruct (merge_children n p) as [[n' [[pk np] dm]]|] eqn:Hmc; [|done]. simpl in Hm.
    destruct (merge_children_ids l r.1 r.2 _ _ _ _ _ _ e1 e2 Hin Hmc He1 He2)
      as (_&_&_&_&Hnp&_). by rewrite dml_remove_held in Hm by (by rewrite Hnp).
Qed.

Lemma fill_pair_step t s r l o n n' p e1 e2 pk nd1 nd2 nd1' nd2' pk' d d' :
  sub_ok s (S l) r o → objs s !! o = Some (CopylessInternal n) →
  neighbours s l r o n p e1 e2 pk →
  cover_ids r.1 r.2 n !! p = Some e1 → cover_ids r.1 r.2 n !! S p = Some e2 →
  objs s !! e1.2.2 = Some nd1 → objs s !! e2.2.2 = Some nd2 →
  leaf_rebalance (storage_map t) nd1 nd2 = Some (nd1', nd2', Rebalanced pk' d) →
  rebalanced n p pk' = Some (n', d') →
  store_step s (put (put (put s e1.2.2 nd1') e2.2.2 nd2') o (CopylessInternal n')) (S l) r o keep ∧
  ∃ lb rb, cover_ids r.1 r.2 n' !! p = Some ((e1.1.1, Some pk'), (lb, e1.2.2)) ∧
    cover_ids r.1 r.2 n' !! S p = Some ((Some pk', e2.1.2), (rb, e2.2.2)).
Proof.
  intros Hok Ho Hnb He1 He2 Hnd1 Hnd2 Hlr Hrb.
  destruct (sub_inner _ _ _ _ Hok) as (n0&Hn0&Hin&_). simplify_eq.
  destruct (neighbours_ne _ _ _ _ _ _ _ _ _ Hnb) as (Hne1&Hne2&Hne).
  destruct Hnb as [Hs1 Hs2 Hlk1 Hlk2 Hb1 Hb2 _ _ _ Hcut].
  destruct (rebalanced_ids l r.1 r.2 _ _ _ _ _ e1 e2 Hin Hrb He1 He2) as (lb&rb&Hb&Hin'&Hcov).
  rewrite Hb1 in Hlk1. rewrite Hb2 in Hlk2.
  assert (l = 0%nat ∧ ∃ b1 b2, nd1 = MemLeaf b1 ∧ nd2 = MemLeaf b2) as (->&b1&b2&->&->).
  { destruct (sub_node _ _ _ _ Hs1) as (x1&Hx1&_&Hlf1), (sub_node _ _ _ _ Hs2) as (x2&Hx2&_&Hlf2).
    simplify_eq. destruct l as [|l]; [destruct nd1, nd2; try done; eauto|].
    destruct nd1 as [|n1], nd2 as [|n2]; try done. unfold leaf_rebalance in Hlr. simpl in Hlr.
    destruct (min_size _ _) as [[m1 [z1|z1]]|] in Hlr; try done; simpl in Hlr;
      destruct (min_size _ _) as [[m2 [z2|z2]]|] in Hlr; try done. }
  assert (leaf_ok e1.1.1 (Some pk) b1) as Hlf1.
  { pose proof (sub_tree _ _ _ _ Hs1) as (b&?&?). simplify_eq. by rewrite <- Hb1. }
  assert (leaf_ok (Some pk) e2.1.2 b2) as Hlf2.
  { pose proof (sub_tree _ _ _ _ Hs2) as (b&?&?). simplify_eq. by rewrite <- Hb2. }
  destruct (leaf_rebalance_cut _ _ _ _ _ _ _ _ _ _ (proj1 Hlk1) (proj1 Hlk2) Hlf1 Hlf2 Hlr)
    as (b1'&b2'&->&->&Hr1&Hr2&Hlf1'&Hlf2'&Hv).
  destruct (rebalance_link _ _ pk pk' _ _ lb rb Hlk1 Hlk2 Hr1 Hr2 Hb) as (Hl1&Hl2&Heff).
  set (m1 := <[e2.2.2 := MemLeaf b2']> (<[e1.2.2 := MemLeaf b1']> (objs s)) : heap).
  assert (m1 !! e1.2.2 = Some (MemLeaf b1')) as M1
    by (unfold m1; by rewrite lookup_insert_ne, lookup_insert_eq).
  assert (m1 !! e2.2.2 = Some (MemLeaf b2')) as M2 by (unfold m1; by rewrite lookup_insert_eq).
  split; [|exists lb, rb; rewrite Hcov; split; [by eapply lookup_cut_l|by eapply lookup_cut_r]].
  exists []. split_and!; [|constructor|set_solver|simpl; lia].
  apply (parent_step s m1 0 r o n n' (take p (cover_ids r.1 r.2 n)) [e1; e2]
    [((e1.1.1, Some pk'), (lb, e1.2.2)); ((Some pk', e2.1.2), (rb, e2.2.2))]
    (drop (S (S p)) (cover_ids r.1 r.2 n))); try done.
  - intros x Hxe _ _. unfold eoids in Hxe. simpl in Hxe. unfold m1.
    rewrite !lookup_insert_ne; [done|set_solver..].
  - set_solver.
  - apply Forall_cons. split; [|apply Forall_singleton]; split; simpl; eauto.
  - intros e' k He' Hk.
    assert (in_range e1.1.1 e2.1.2 k ∧ eden m1 0 e' k =
      msg_eff (buf_contents (if bleb k pk then e1.2.1 else e2.2.1)) k
        (if bleb k pk then leaf_val (buf_contents b1) k else leaf_val (buf_contents b2) k))
      as [Hkr He].
    { rewrite Hv. unfold eden.
      apply elem_of_cons in He' as [->|He']; [|apply list_elem_of_singleton in He' as ->];
        simpl in Hk |- *; rewrite ?M1, ?M2; simpl.
      - destruct (in_range_weaken_l _ _ _ _ Hr2 Hk) as [Hk' Eb]. split; [done|].
        rewrite <- Heff, Eb by done. done.
      - destruct (in_range_weaken_r _ _ _ _ Hr1 Hk) as [Hk' Eb]. split; [done|].
        rewrite <- Heff, Eb by done. done. }
    rewrite He. apply (in_range_split _ _ pk) in Hkr.
    destruct (bleb k pk); [exists e1; rewrite Hb1|exists e2; rewrite Hb2];
      (split_and!; [set_solver|done|]); unfold eden; simpl; by rewrite ?Hnd1, ?Hnd2.
Qed.

(** Step 6: filling a leaf keeps the subtree and all values, and the child
    keeps its place. *)
Lemma fill_step_ok t s l r o i e s' :
  sub_ok s (S l) r o → child_at s o r i e → fill_step t s o e.2.2 i = Some s' →
  store_step s s' (S l) r o keep ∧ ∃ e', child_at s' o r i e' ∧ e'.2.2 = e.2.2.
Proof.
  intros Hok (n&Ho&Hi) Hm.
  destruct (fill_step_pair t s l r o n i e s' Hok Ho Hi Hm)
    as (p&e1&e2&pk&sib&md&He1&He2&Hnb&Hcase&Hf).
  set (s1 := mkStore (objs s) (next_id s) md) in *.
  assert (sub_ok s1 (S l) r o) as Hok1 by (destruct Hok; by split).
  assert (neighbours s1 l r o n p e1 e2 pk) as Hnb1.
  { destruct (neighbours_ok s1 l r o n p e1 e2 Hok1 Ho He1 He2) as (pk1&Hnb1).
    pose proof (nb_border_left _ _ _ _ _ _ _ _ _ Hnb). 
    pose proof (nb_border_left _ _ _ _ _ _ _ _ _ Hnb1). simplify_eq. done. }
  destruct (fill_pair_inv t s1 l r o n p e1 e2 pk e.2.2 sib s' Hok1 Ho Hnb1 He1 He2)
    as (nd1&nd2&nd1'&nd2'&pk'&d&n'&d'&Hnd1&Hnd2&Hlr&Hrb&->); [|done|].
  { destruct Hcase as [(_&->&->)|(_&->&->&_)]; set_solver. }
  destruct (fill_pair_step t s1 r l o n n' p e1 e2 pk nd1 nd2 nd1' nd2' pk' d d')
    as [Hst (lb&rb&Hc1&Hc2)]; [done..|].
  split; [by destruct Hst as (F&?&?&?&?); exists F|].
  destruct Hcase as [(->&->&_)|(->&->&_)]; eexists; (split; [exists n'; split; [|done]|done]);
    simpl; by rewrite lookup_insert_eq.
Qed.

End merge.
