(* ===== verification/TreeRebalance.v ===== *)
(** * Rebalancing keeps the tree and its contents

    One round of [rebalance_tree] turns a tree into a tree with the same
    values ([rebalance_step_ok]); so does the whole loop. *)

From Stdlib Require Import ZArith Lia.
From stdpp Require Import base option list numbers gmap fin_maps.
From S2P Require Import Prelude.
From S2P Require Import Bytes.
From S2P Require Import BTreeMap.
From S2P Require Import CowBytes.
From S2P Require Import StoragePref.
From S2P Require Import Message.
From S2P Require Import Checksum.
From S2P Require Import ChildBuffer.
From S2P Require Import Pivots.
From S2P Require Import Internal.
From S2P Require Import Node.
From S2P Require Import Tree.
From S2P Require Import TreeInv.
From S2P Require Import TreeSteps.
From S2P Require Import TreeSplit.
From S2P Require Import TreeMerge.

Section rebalance.
Context `{Checksum} `{MessageActionLaws}.
Implicit Types (m : heap) (l : nat) (lo hi : option bytes) (o : oid) (k : bytes)
  (b : PackedChildBuffer) (n : CopylessInternalNode ObjRef) (s : Store) (r : range)
  (nd : TNode) (t : Tree).

(** Where the loop works: [node] with its place in its parent. *)
Definition focus s L (R : oid) (node : oid) (parent : option (oid * nat)) l r : Prop :=
  at_path (objs s) L whole R l r node ∧
  match parent with
  | None => node = R ∧ l = L ∧ r = whole
  | Some (p, i) => ∃ rp e, at_path (objs s) L whole R (S l) rp p ∧
      child_at s p rp i e ∧ e.1 = r ∧ e.2.2 = node
  end.

Lemma focus_sub s L R node parent l r :
  sub_ok s L whole R → focus s L R node parent l r → sub_ok s l r node.
Proof. intros Hok [Hp _]. by eapply sub_path. Qed.

Lemma focus_root s R L : focus s L R R None L whole.
Proof. split; [constructor|done]. Qed.

Lemma focus_child s L R node parent l r i e :
  focus s L R node parent (S l) r → child_at s node r i e →
  focus s L R e.2.2 (Some (node, i)) l e.1.
Proof.
  intros [Hp _] Hc. split; [|by exists r, e].
  destruct Hc as (n&Hn&Hi). by eapply path_child.
Qed.

(** A step of a child's subtree is one of the parent's. *)
Lemma child_store_step s s' l r o i e :
  sub_ok s (S l) r o → child_at s o r i e → store_step s s' l e.1 e.2.2 keep →
  store_step s s' (S l) r o keep ∧ child_at s' o r i e ∧ objs s' !! o = objs s !! o.
Proof.
  intros Hok (n&Ho&Hi) (F&Hls&HF&HFr&Hle).
  destruct (child_step (objs s) (objs s') l r.1 r.2 o n i e F) as [Hls' Ho'];
    [apply Hok|apply Hok|done|done| |done|].
  { intros x Hx Hx'. apply HFr in Hx. apply (sub_next _ _ _ _ Hok) in Hx'. lia. }
  split_and!; [by exists F| |done]. exists n. by rewrite Ho'.
Qed.

(** The same values. *)
Definition same_values s L s' L' (R : oid) : Prop :=
  sub_ok s' L' whole R ∧ ∀ k, den (objs s') L' R k = den (objs s) L R k.

Lemma same_values_trans s1 s2 s3 L1 L2 L3 R :
  same_values s1 L1 s2 L2 R → same_values s2 L2 s3 L3 R → same_values s1 L1 s3 L3 R.
Proof. intros [_ E1] [? E2]. split; [done|]. intros k. by rewrite E2, E1. Qed.

Lemma path_values s s' L R l r o :
  sub_ok s L whole R → at_path (objs s) L whole R l r o → store_step s s' l r o keep →
  same_values s L s' L R ∧ at_path (objs s') L whole R l r o.
Proof.
  intros Hok Hp Hst. destruct (store_step_path _ _ _ _ _ _ _ _ Hok Hp Hst) as [Hst' Hp'].
  split; [|done]. split; [by eapply store_step_ok|].
  destruct Hst' as (F&[_ _ Hden _]&_). intros k. by rewrite Hden, bind_keep.
Qed.

Lemma focus_step s s' L R node parent l r :
  sub_ok s L whole R → focus s L R node parent l r → store_step s s' l r node keep →
  same_values s L s' L R ∧ focus s' L R node parent l r.
Proof.
  intros Hok [Hp Hpar] Hst. destruct (path_values _ _ _ _ _ _ _ Hok Hp Hst) as [Hv Hp'].
  split; [done|]. split; [done|]. destruct parent as [[p i]|]; [|done].
  destruct Hpar as (rp&e&Hpp&Hc&<-&<-). exists rp, e.
  destruct (child_store_step s s' l rp p i e) as (Hst'&Hc'&_); [by eapply sub_path|done..|].
  by destruct (path_values _ _ _ _ _ _ _ Hok Hpp Hst').
Qed.

(** ** Size queries *)

Lemma reads_too_large sm : reads (node_is_too_large sm).
Proof. intros nd Hwf. by apply node_is_too_large_ok. Qed.

Lemma reads_leaf_too_large sm : reads (leaf_is_too_large sm).
Proof. intros nd Hwf. by apply leaf_is_too_large_ok. Qed.

Lemma reads_leaf_too_small sm : reads (leaf_is_too_small sm).
Proof. intros nd Hwf. by apply leaf_is_too_small_ok. Qed.

Lemma reads_inner_too_large sm :
  reads (λ cnd, if is_leaf_node cnd then Some (false, cnd) else node_is_too_large sm cnd).
Proof.
  intros nd Hwf. destruct (is_leaf_node nd); [|by apply node_is_too_large_ok].
  eexists _, _. by split.
Qed.

Lemma reads_low_fanout sm :
  reads (λ cnd, if has_too_low_fanout cnd then
    '(l, cnd) ← node_is_too_large sm cnd; Some (negb l, cnd) else Some (false, cnd)).
Proof.
  intros nd Hwf. destruct (has_too_low_fanout nd); [|by eexists _, _].
  destruct (node_is_too_large_ok sm nd Hwf) as (x&nd'&->&Hsim). simpl. by eexists _, _.
Qed.

(** The children of a node stay in place when its sizes are read. *)
Lemma test_node_child s l r o f x s' i e :
  sub_ok s (S l) r o → reads f → test_node s o f = Some (x, s') → child_at s o r i e →
  store_step s s' (S l) r o keep ∧ child_at s' o r i e.
Proof.
  intros Hok Hf Ht (n&Ho&Hi).
  destruct (test_node_step s (S l) r o f Hok Hf) as (x'&s''&Ht'&Hst&_).
  rewrite Ht in Ht'. injection Ht' as <- <-. split; [done|].
  unfold test_node in Ht. rewrite Ho in Ht. simpl in Ht.
  destruct (sub_node _ _ _ _ Hok) as (nd&Hnd&Hwf&_). rewrite Ho in Hnd. injection Hnd as <-.
  destruct (Hf _ Hwf) as (y&nd'&Hy&Hsim). rewrite Hy in Ht. simplify_eq/=.
  destruct nd' as [|n']; [done|]. exists n'. simpl. rewrite lookup_insert_eq.
  split; [done|]. by rewrite (in_sim_cover _ _ _ _ Hsim).
Qed.

(** Reading the sizes of a child. *)
Lemma test_child s l r o f x s' i e :
  sub_ok s (S l) r o → reads f → child_at s o r i e → test_node s e.2.2 f = Some (x, s') →
  store_step s s' (S l) r o keep ∧ child_at s' o r i e ∧ sub_ok s' (S l) r o.
Proof.
  intros Hok Hf Hc Ht. pose proof Hc as (n&Ho&Hi).
  destruct (sub_child _ _ _ _ _ _ _ Hok Ho Hi) as [Hsub _].
  destruct (test_node_step s l e.1 e.2.2 f Hsub Hf) as (x'&s''&Ht'&Hst&_).
  rewrite Ht in Ht'. injection Ht' as <- <-.
  destruct (child_store_step _ _ _ _ _ _ _ Hok Hc Hst) as (?&?&_). split_and!; [done..|].
  by eapply store_step_ok.
Qed.

(** The candidate for a flush is found without a change. *)
Lemma flush_candidate_sim sm nd c nd' :
  node_wf nd → node_try_find_flush_candidate sm nd = Some (c, nd') → node_sim nd nd'.
Proof.
  intros Hwf Hf. unfold node_try_find_flush_candidate in Hf.
  destruct (max_size_ok sm nd Hwf) as (x&nd1&Hm&Hsim). rewrite Hm in Hf. simpl in Hf.
  destruct nd1 as [b1|n1]; simplify_eq/=; [done|].
  destruct (in_try_find_flush_candidate _ _ _ _); by simplify_eq/=.
Qed.

Lemma child_ref_at s l r o i np :
  sub_ok s l r o → child_ref s o i = Some np →
  ∃ l' e, l = S l' ∧ child_at s o r i e ∧ e.2.2 = or_id np.
Proof.
  intros Hok Hc. unfold child_ref in Hc.
  destruct (objs s !! o) as [[b|n]|] eqn:Ho; simplify_eq/=.
  destruct (children n !! i) as [c|] eqn:Hi; simplify_eq/=.
  destruct l as [|l]; [destruct (sub_tree _ _ _ _ Hok) as (?&?&_); congruence|].
  destruct (sub_inner _ _ _ _ Hok) as (n0&Hn0&(Hs&_)&_). rewrite Ho in Hn0. simplify_eq.
  destruct (cover_child r.1 r.2 _ i c Hs Hi) as [r' Hr].
  exists l, (r', (cl_buffer c, or_id (cl_ptr c))). split_and!; [done| |done].
  eexists. split; [done|]. unfold cover_ids. by rewrite list_lookup_fmap, Hr.
Qed.

Lemma get_mut_step s l r o np s' i e :
  sub_ok s (S l) r o → child_at s o r i e → dml_get_mut s np = Some s' →
  store_step s s' (S l) r o keep ∧ child_at s' o r i e ∧ sub_ok s' (S l) r o.
Proof.
  intros Hok Hc Hg. unfold dml_get_mut in Hg.
  destruct (objs s !! or_id np); simplify_eq/=.
  assert (store_step s (mkStore (objs s) (next_id s) ({[or_id np]} ∪ modified s)) (S l) r o keep)
    as Hst by (by apply store_step_same).
  split_and!; [done|done|by eapply store_step_ok].
Qed.

(** Step 7. *)
Lemma split_leaf_loop_ok fuel t s l r o i e s' c' i' :
  sub_ok s (S l) r o → child_at s o r i e →
  split_leaf_loop fuel t s o e.2.2 i = Some (s', c', i') →
  store_step s s' (S l) r o keep ∧ ∃ e', child_at s' o r i' e' ∧ e'.2.2 = c'.
Proof.
  revert s i e. induction fuel as [|fuel IH]; intros s i e Hok Hc Hl; [done|]. simpl in Hl.
  apply bind_Some in Hl as ([large s1]&Ht&Hl).
  destruct (test_child _ _ _ _ _ _ _ _ _ Hok (reads_leaf_too_large _) Hc Ht)
    as (Hst1&Hc1&Hok1).
  destruct large; [|simplify_eq; eauto].
  apply bind_Some in Hl as ([[s2 c2] i2]&Hs&Hl).
  destruct (split_node_ok _ _ _ _ _ _ _ _ _ _ Hok1 Hc1 Hs) as (Hst2&e2&Hc2&<-).
  pose proof (store_step_ok _ _ _ _ _ _ Hok1 Hst2) as Hok2.
  destruct (IH s2 i2 e2 Hok2 Hc2 Hl) as (Hst3&He).
  split; [|done]. eapply store_step_trans; [done|]. by eapply store_step_trans.
Qed.

(** Steps 4 to 7 on one child. *)
Lemma flush_fill_split_ok fuel t s l r o i e s' c' i' :
  sub_ok s (S l) r o → child_at s o r i e →
  (s ← flush_step s o e.2.2 i;
   '(small, s) ← test_node s e.2.2 (leaf_is_too_small (storage_map t));
   s ← (if (small : bool) then fill_step t s o e.2.2 i else Some s);
   split_leaf_loop fuel t s o e.2.2 i) = Some (s', c', i') →
  store_step s s' (S l) r o keep ∧ ∃ e', child_at s' o r i' e' ∧ e'.2.2 = c'.
Proof.
  intros Hok Hc Hs. apply bind_Some in Hs as (s1&Hf&Hs).
  destruct (flush_step_ok s l r o i e Hok Hc) as (s1'&b'&Hf'&Hst1&Hc1&_).
  rewrite Hf in Hf'. injection Hf' as <-.
  pose proof (store_step_ok _ _ _ _ _ _ Hok Hst1) as Hok1.
  apply bind_Some in Hs as ([small s2]&Ht&Hs).
  destruct (test_child _ _ _ _ _ _ _ _ _ Hok1 (reads_leaf_too_small _) Hc1 Ht)
    as (Hst2&Hc2&Hok2).
  apply bind_Some in Hs as (s3&Hfill&Hs).
  assert (store_step s2 s3 (S l) r o keep ∧ ∃ e3, child_at s3 o r i e3 ∧ e3.2.2 = e.2.2)
    as (Hst3&e3&Hc3&He3).
  { destruct small.
    - by destruct (fill_step_ok t s2 l r o i _ s3 Hok2 Hc2 Hfill) as [? ?].
    - simplify_eq. split; [by apply store_step_same|by eexists]. }
  pose proof (store_step_ok _ _ _ _ _ _ Hok2 Hst3) as Hok3. rewrite <- He3 in Hs.
  destruct (split_leaf_loop_ok _ _ _ _ _ _ _ _ _ _ _ Hok3 Hc3 Hs) as [Hst4 He4].
  split; [|done]. eapply store_step_trans; [done|]. eapply store_step_trans; [done|].
  by eapply store_step_trans.
Qed.

(** The round when a child was chosen: everything happens below [o]; the
    loop goes on with [o] or with a child of it. *)
Lemma flush_round_ok fuel t s l r o parent i s' next :
  sub_ok s l r o →
  (np ← child_ref s o i;
   s ← dml_get_mut s np;
   let child := or_id np in
   '(large, s) ← test_node s child (λ cnd,
     if is_leaf_node cnd then Some (false, cnd) else node_is_too_large (storage_map t) cnd);
   if (large : bool) then Some (s, Some (child, Some (o, i)))
   else
     '(low, s) ← test_node s child (λ cnd,
       if has_too_low_fanout cnd then
         '(l, cnd) ← node_is_too_large (storage_map t) cnd; Some (negb l, cnd)
       else Some (false, cnd));
     if (low : bool) then
       s ← merge_step s o child i; Some (s, Some (o, parent))
     else
       s ← flush_step s o child i;
       '(small, s) ← test_node s child (leaf_is_too_small (storage_map t));
       s ← (if (small : bool) then fill_step t s o child i else Some s);
       '(s, child, i) ← split_leaf_loop fuel t s o child i;
       '(large, s) ← test_node s o (node_is_too_large (storage_map t));
       if (large : bool) then
         '(_, s) ← test_node s child (node_is_too_large (storage_map t));
         Some (s, Some (o, parent))
       else Some (s, Some (child, Some (o, i)))) = Some (s', next) →
  ∃ l', l = S l' ∧ store_step s s' l r o keep ∧
    (next = Some (o, parent) ∨
     ∃ i' e', next = Some (e'.2.2, Some (o, i')) ∧ child_at s' o r i' e').
Proof.
  intros Hok Hs. apply bind_Some in Hs as (np&Hnp&Hs).
  destruct (child_ref_at _ _ _ _ _ _ Hok Hnp) as (l'&e&->&Hc&He).
  exists l'. split; [done|]. rewrite <- He in Hs. cbv zeta in Hs.
  apply bind_Some in Hs as (s1&Hg&Hs).
  destruct (get_mut_step _ _ _ _ _ _ _ _ Hok Hc Hg) as (Hst1&Hc1&Hok1).
  apply bind_Some in Hs as ([large s2]&Ht2&Hs).
  destruct (test_child _ _ _ _ _ _ _ _ _ Hok1 (reads_inner_too_large _) Hc1 Ht2)
    as (Hst2&Hc2&Hok2).
  assert (store_step s s2 (S l') r o keep) as Hst02 by (by eapply store_step_trans).
  destruct large; [simplify_eq; split; eauto|].
  apply bind_Some in Hs as ([low s3]&Ht3&Hs).
  destruct (test_child _ _ _ _ _ _ _ _ _ Hok2 (reads_low_fanout _) Hc2 Ht3)
    as (Hst3&Hc3&Hok3).
  assert (store_step s s3 (S l') r o keep) as Hst03 by (by eapply store_step_trans).
  destruct low.
  { apply bind_Some in Hs as (s4&Hm&[= <- <-]). split; [|by left].
    eapply store_step_trans; [done|]. by eapply merge_step_ok. }
  assert (∃ c5 i5 s5 large s6,
    (s ← flush_step s3 o e.2.2 i;
     '(small, s) ← test_node s e.2.2 (leaf_is_too_small (storage_map t));
     s ← (if (small : bool) then fill_step t s o e.2.2 i else Some s);
     split_leaf_loop fuel t s o e.2.2 i) = Some (s5, c5, i5) ∧
    test_node s5 o (node_is_too_large (storage_map t)) = Some (large, s6) ∧
    (if (large : bool) then
       '(_, s) ← test_node s6 c5 (node_is_too_large (storage_map t)); Some (s, Some (o, parent))
     else Some (s6, Some (c5, Some (o, i5)))) = Some (s', next))
    as (c5&i5&s5&large&s6&Hff&Ht6&Hs').
  { apply bind_Some in Hs as (x1&Hx1&Hs). apply bind_Some in Hs as ([x2 y2]&Hx2&Hs).
    apply bind_Some in Hs as (x3&Hx3&Hs). apply bind_Some in Hs as ([[x4 y4] z4]&Hx4&Hs).
    apply bind_Some in Hs as ([x5 y5]&Hx5&Hs).
    exists y4, z4, x4, x5, y5. rewrite Hx1. simpl. rewrite Hx2. simpl. rewrite Hx3. simpl.
    by split_and!. }
  destruct (flush_fill_split_ok _ _ _ _ _ _ _ _ _ _ _ Hok3 Hc3 Hff) as (Hst5&e5&Hc5&<-).
  pose proof (store_step_ok _ _ _ _ _ _ Hok3 Hst5) as Hok5.
  destruct (test_node_child _ _ _ _ _ _ _ _ _ Hok5 (reads_too_large _) Ht6 Hc5) as [Hst6 Hc6].
  assert (store_step s s6 (S l') r o keep) as Hst06.
  { eapply store_step_trans; [done|]. by eapply store_step_trans. }
  destruct large; [|simplify_eq; eauto 10].
  pose proof (store_step_ok _ _ _ _ _ _ Hok5 Hst6) as Hok6.
  apply bind_Some in Hs' as ([x7 s7]&Ht7&[= <- <-]).
  destruct (test_child _ _ _ _ _ _ _ _ _ Hok6 (reads_too_large _) Hc6 Ht7) as (Hst7&_).
  split; [by eapply store_step_trans|by left].
Qed.

(** One round of the loop. *)
Lemma rebalance_step_ok fuel t s L R node parent l r s' next :
  sub_ok s L whole R → focus s L R node parent l r →
  rebalance_step fuel t s (node, parent) = Some (s', next) →
  ∃ L', same_values s L s' L' R ∧
    ∀ node' parent', next = Some (node', parent') →
      ∃ l' r', focus s' L' R node' parent' l' r'.
Proof.
  intros Hok Hfoc Hs. unfold rebalance_step in Hs.
  apply bind_Some in Hs as ([large s1]&Ht1&Hs).
  destruct (test_node_step s l r node _ (focus_sub _ _ _ _ _ _ _ Hok Hfoc)
    (reads_too_large (storage_map t))) as (x&sx&Htx&Hst1&_).
  rewrite Ht1 in Htx. injection Htx as <- <-.
  destruct (focus_step _ _ _ _ _ _ _ _ Hok Hfoc Hst1) as [Hv1 Hfoc1]. pose proof Hv1 as [Hok1 _].
  destruct large; simpl in Hs; [|simplify_eq; by exists L].
  destruct (sub_node _ _ _ _ (focus_sub _ _ _ _ _ _ _ Hok1 Hfoc1)) as (nd&Hnd&Hwf&_).
  rewrite Hnd in Hs. cbn [mbind option_bind] in Hs.
  apply bind_Some in Hs as ([cand nd']&Hcand&Hs).
  apply flush_candidate_sim in Hcand as Hsim; [|done].
  pose proof (touch_step _ _ _ _ _ _ (focus_sub _ _ _ _ _ _ _ Hok1 Hfoc1) Hnd Hsim) as Hst2.
  destruct (focus_step _ _ _ _ _ _ _ _ Hok1 Hfoc1 Hst2) as [Hv2 Hfoc2]. pose proof Hv2 as [Hok2 _].
  set (s2 := put s1 node nd') in *.
  pose proof (same_values_trans _ _ _ _ _ _ _ Hv1 Hv2) as Hv12.
  destruct cand as [i|].
  - apply (flush_round_ok fuel t s2 l r node parent i s' next) in Hs as (l'&->&Hst&Hnext);
      [|by eapply focus_sub].
    destruct (focus_step _ _ _ _ _ _ _ _ Hok2 Hfoc2 Hst) as [Hv3 Hfoc3].
    exists L. split; [by eapply same_values_trans|].
    intros node' parent' Hn. destruct Hnext as [->|(i'&e'&->&Hc)]; simplify_eq; [eauto|].
    eexists _, _. by eapply focus_child.
  - destruct parent as [[p i]|].
    + apply bind_Some in Hs as ([[s3 c3] i3]&Hsp&[= <- <-]).
      pose proof Hfoc2 as [_ (rp&e&Hpp&Hc&<-&He)]. rewrite <- He in Hsp.
      destruct (split_node_ok _ _ _ _ _ _ _ _ _ _ (sub_path _ _ _ _ _ _ _ Hok2 Hpp) Hc Hsp)
        as (Hst3&e3&Hc3&<-).
      destruct (path_values _ _ _ _ _ _ _ Hok2 Hpp Hst3) as [Hv3 Hpp3].
      exists L. split; [by eapply same_values_trans|]. intros node' parent' [= <- <-].
      eexists _, _. split; [|by exists rp, e3]. destruct Hc3 as (n3&Hn3&Hi3).
      by eapply path_child.
    + apply bind_Some in Hs as (s3&Hsp&[= <- <-]).
      pose proof Hfoc2 as [_ (->&->&->)].
      destruct (split_root_ok t s2 L R s3 Hok2 Hsp) as [Hok3 Hden3].
      exists (S L). split; [|done]. eapply same_values_trans; [done|by split].
Qed.

Lemma rebalance_tree_ok fuel t s L R node parent l r s' :
  sub_ok s L whole R → focus s L R node parent l r →
  rebalance_tree fuel t s (node, parent) = Some s' → ∃ L', same_values s L s' L' R.
Proof.
  revert s L node parent l r.
  induction fuel as [|fuel IH]; intros s L node parent l r Hok Hfoc Hs; [done|].
  simpl in Hs. apply bind_Some in Hs as ([s1 next]&Hst&Hs).
  change (rebalance_step (S fuel) t s (node, parent) = Some (s1, next)) in Hst.
  destruct (rebalance_step_ok _ _ _ _ _ _ _ _ _ _ _ Hok Hfoc Hst) as (L1&Hv1&Hn).
  destruct next as [[node1 parent1]|]; [|simplify_eq; by exists L1].
  destruct (Hn node1 parent1 eq_refl) as (l1&r1&Hfoc1).
  destruct (IH s1 L1 node1 parent1 l1 r1 (proj1 Hv1) Hfoc1 Hs) as (L2&Hv2).
  exists L2. by eapply same_values_trans.
Qed.

End rebalance.
