(* ===== verification/TreeCorrect.v ===== *)
(** * The tree is a map

    [get] computes the value of a key in the tree, whatever buffers its
    messages are in; [insert] changes the value of its key as the message
    says and no other; rebalancing changes no value.  [tree_inv] is the
    invariant all of this rests on.

    The insertion theorem needs that the message is not put below an older
    one for the same key ([bypassed]); a concrete tree shows that the code
    does not make sure of that. *)

From Stdlib Require Import ZArith Lia.
From stdpp Require Import base option list numbers gmap fin_maps.
From S2P Require Import Prelude.
From S2P Require Import Bytes.
From S2P Require Import BTreeMap.
From S2P Require Import CowBytes.
From S2P Require Import StoragePref.
From S2P Require Import Message.
From S2P Require Import Checksum.
From S2P Require Import ChildBuffer.
From S2P Require Import Pivots.
From S2P Require Import Internal.
From S2P Require Import Node.
From S2P Require Import Tree.
From S2P Require Import TreeInv.
From S2P Require Import TreeSteps.
From S2P Require Import TreeSplit.
From S2P Require Import TreeMerge.
From S2P Require Import TreeRebalance.

Section correct.
Context `{Checksum} `{MessageActionLaws}.
Implicit Types (m : heap) (l : nat) (o : oid) (k : bytes) (n : CopylessInternalNode ObjRef)
  (s : Store) (r : range) (nd : TNode) (t : Tree).

(** Tree [t] of height [L] in store [s]. *)
Definition tree_inv t s (L : nat) : Prop := sub_ok s L whole (or_id (root_node t)).

(** The value the tree holds for a key. *)
Definition value_of t s (L : nat) k : option (option bytes) :=
  den (objs s) L (or_id (root_node t)) k.

(** On the way down over mutable nodes there is a message for the key, so
    that a message inserted at the end of that way goes below it. *)
Fixpoint bypassed (mutable : gset oid) m l o (key : bytes) : bool :=
  match l, m !! o with
  | S l, Some (CopylessInternal n) =>
      match children n !! idx n key with
      | Some c =>
          if decide (or_id (cl_ptr c) ∈ mutable) then
            bool_decide (bt_get key (buf_contents (cl_buffer c)) ≠ None)
            || bypassed mutable m l (or_id (cl_ptr c)) key
          else false
      | None => false
      end
  | _, _ => false
  end.

(** ** Point queries *)

(** The messages applied in order. *)
Fixpoint applied (key : bytes) (ms : list (KeyInfo * bytes)) (d : option bytes) :
    option (option bytes) :=
  match ms with
  | [] => Some d
  | (_, m) :: ms => d ← ma_apply key m d; applied key ms d
  end.

Lemma applied_app key ms ms' d :
  applied key (ms ++ ms') d = (d ← applied key ms d; applied key ms' d).
Proof.
  revert d. induction ms as [|[ki m] ms IH]; intros d; simpl; [done|].
  destruct (ma_apply key m d); simpl; auto.
Qed.

Lemma apply_all_applied key ms info d :
  apply_all key ms info d =
    (d ← applied key ms d; Some (match last ms with Some (ki, _) => Some ki | None => info end, d)).
Proof.
  revert info d. induction ms as [|[ki m] ms IH]; intros info d; [done|].
  rewrite last_cons. cbn [apply_all applied].
  destruct (ma_apply key m d) as [d'|]; simpl; [|done]. rewrite IH.
  by destruct (last ms) as [[ki' m']|].
Qed.

(** The loop of [get] with enough fuel. *)
Lemma get_path_den fuel s l lo hi np key msgs :
  tree_ok (objs s) l lo hi (or_id np) → in_range lo hi key → (l < fuel)%nat →
  ∃ d ms, get_path fuel s np key msgs = Some (d, msgs ++ ms) ∧
    den (objs s) l (or_id np) key = applied key (rev ms) (snd <$> d).
Proof.
  revert lo hi np msgs fuel.
  induction l as [|l IH]; intros lo hi np msgs fuel Ht Hk Hf; (destruct fuel as [|fuel]; [lia|]).
  - destruct Ht as (b&Hb&Hwf&_). simpl. unfold dml_get. rewrite Hb. simpl.
    unfold buf_get. rewrite (wf_get _ _ Hwf). simpl.
    exists (bt_get key (buf_contents b)), []. by rewrite app_nil_r.
  - destruct (tree_find _ _ _ _ _ _ Ht Hk) as (n&c&r&Ho&_&_&Hc&_&Hr&(_&Hwf&_)&Hsub).
    simpl. unfold dml_get. rewrite Ho. simpl. unfold in_get. rewrite Hc. simpl.
    unfold buf_get. rewrite (wf_get _ _ Hwf). simpl.
    set (ms0 := option_list (bt_get key (buf_contents (cl_buffer c)))).
    destruct (IH r.1 r.2 (cl_ptr c) (msgs ++ ms0) fuel Hsub Hr ltac:(lia)) as (d&ms&Hg&Hd).
    rewrite Hg. exists d, (ms0 ++ ms). rewrite app_assoc. split; [done|].
    rewrite rev_app_distr, applied_app, Hd.
    destruct (applied key (rev ms) (snd <$> d)) as [d'|]; simpl; [|done].
    unfold msg_eff, ms0. destruct (bt_get key _) as [[ki m]|]; simpl; [|done].
    by destruct (ma_apply key m d').
Qed.

Lemma tree_get_value fuel t s L key :
  tree_inv t s L → (L < fuel)%nat → tree_get fuel t s key = value_of t s L key.
Proof.
  intros Hok Hf. unfold tree_get, get_with_info, value_of.
  destruct (get_path_den fuel s L None None (root_node t) key []) as (d&ms&Hg&Hd);
    [apply Hok|done|done|].
  rewrite Hg, Hd. simpl. destruct d as [[ki v]|]; simpl; rewrite apply_all_applied.
  - destruct (applied key (rev ms) (Some v)) as [[w|]|]; done.
  - destruct (rev ms) as [|x xs] eqn:Er; [done|].
    destruct (last (x :: xs)) as [[ki m]|] eqn:El; [|by apply last_None in El].
    destruct (applied key (x :: xs) None) as [[w|]|]; done.
Qed.

(** ** The walk of [insert] *)

(** Heaps that differ in cached preferences only. *)
Definition heap_sim m m' : Prop :=
  ∀ o, match m !! o, m' !! o with
       | Some nd, Some nd' => node_sim nd nd'
       | None, None => True
       | _, _ => False
       end.

Lemma heap_sim_insert m o nd nd' :
  m !! o = Some nd → node_sim nd nd' → heap_sim m (<[o := nd']> m).
Proof.
  intros Ho Hsim o'. rewrite lookup_insert. case_decide as E; [subst; by rewrite Ho|].
  by destruct (m !! o').
Qed.

Lemma bypassed_sim M m m' l o key :
  heap_sim m m' → bypassed M m' l o key = bypassed M m l o key.
Proof.
  intros Hs. revert o. induction l as [|l IH]; intros o; [done|]. simpl.
  specialize (Hs o). destruct (m !! o) as [[b|n]|], (m' !! o) as [[b'|n']|]; try done.
  destruct Hs as (Hc&Hp&_). unfold idx. rewrite Hc, Hp.
  destruct (children n !! _) as [c|]; [|done]. by rewrite IH.
Qed.

(** What the walk does: it reads sizes, and stops at a node on the way to the
    key. *)
Record walked M s s' l r o l' r' o' (parent parent' : option (oid * nat)) key : Prop := {
  wk_step : store_step s s' l r o keep;
  wk_mutable : modified s' = modified s;
  wk_path : at_path (objs s') l r o l' r' o';
  wk_range : in_range r'.1 r'.2 key;
  wk_clear : bypassed M (objs s) l o key = false → clear_path (objs s') key l o l' o';
  wk_start nd : objs s !! o = Some nd → ∃ nd', objs s' !! o = Some nd' ∧ node_sim nd nd';
  wk_place : (parent' = parent ∧ o' = o ∧ l' = l ∧ r' = r) ∨
    ∃ p i rp e, parent' = Some (p, i) ∧ at_path (objs s') l r o (S l') rp p ∧
      child_at s' p rp i e ∧ e.1 = r' ∧ e.2.2 = o';
}.

Lemma walked_here s l r o nd nd' parent key :
  sub_ok s l r o → in_range r.1 r.2 key → objs s !! o = Some nd → node_sim nd nd' →
  walked (modified s) s (put s o nd') l r o l r o parent parent key.
Proof.
  intros Hok Hk Ho Hsim. split; [by eapply touch_step|done|constructor|done| | |by left].
  - intros _. constructor.
  - intros nd0 Ho0. simplify_eq. exists nd'. simpl. by rewrite lookup_insert_eq.
Qed.

(** The way to the child. *)
Lemma find_child s l r o n key :
  sub_ok s (S l) r o → objs s !! o = Some (CopylessInternal n) → in_range r.1 r.2 key →
  ∃ c e, children n !! idx n key = Some c ∧ cover_ids r.1 r.2 n !! idx n key = Some e ∧
    e.2 = (cl_buffer c, or_id (cl_ptr c)) ∧ in_range e.1.1 e.1.2 key.
Proof.
  intros Hok Ho Hk. destruct (sub_inner _ _ _ _ Hok) as (n0&Hn0&_&Hc&_). simplify_eq.
  destruct (cover_total _ _ _ _ Hc Hk) as (r1&c&Hrc&Hr1).
  exists c, (r1, (cl_buffer c, or_id (cl_ptr c))). split_and!; try done.
  - by apply cover_lookup in Hrc as [_ ?].
  - unfold cover_ids. by rewrite list_lookup_fmap, Hrc.
Qed.

Lemma walked_below s s1 s' l r o n n' c e l' r' o' parent parent' key :
  sub_ok s (S l) r o → objs s !! o = Some (CopylessInternal n) → in_sim n n' →
  s1 = put s o (CopylessInternal n') →
  children n' !! idx n' key = Some c → cover_ids r.1 r.2 n' !! idx n' key = Some e →
  e.2 = (cl_buffer c, or_id (cl_ptr c)) → or_id (cl_ptr c) ∈ modified s →
  walked (modified s) s1 s' l e.1 e.2.2 l' r' o' (Some (o, idx n' key)) parent' key →
  walked (modified s) s s' (S l) r o l' r' o' parent parent' key.
Proof.
  intros Hok Ho Hsim -> Hc He Ee Hmut [Hst Hmod Hp Hr Hcl Hstart Hplace].
  pose proof (touch_step s (S l) r o _ (CopylessInternal n') Hok Ho Hsim) as Hst1.
  set (s1 := put s o (CopylessInternal n')) in *.
  pose proof (store_step_ok _ _ _ _ _ _ Hok Hst1) as Hok1.
  assert (objs s1 !! o = Some (CopylessInternal n')) as Ho1 by (simpl; by rewrite lookup_insert_eq).
  destruct (child_store_step s1 s' l r o (idx n' key) e Hok1) as (Hst2&_&Ho'); [by exists n'|done|].
  rewrite Ho1 in Ho'. split.
  - by eapply store_step_trans.
  - by rewrite Hmod.
  - by eapply path_below.
  - done.
  - intros Hb. rewrite <- (bypassed_sim _ (objs s) (objs s1)) in Hb
      by (by eapply heap_sim_insert).
    cbn [bypassed] in Hb. rewrite Ho1, Hc, decide_True in Hb by done.
    apply orb_false_iff in Hb as [Hb1 Hb2]. apply bool_decide_eq_false in Hb1.
    eapply clear_below; [done|done| |].
    + destruct (bt_get key _) eqn:E; [|done]. by destruct Hb1.
    + rewrite Ee in Hcl. by apply Hcl.
  - intros nd Hnd. rewrite Ho in Hnd. injection Hnd as <-. by eexists.
  - right. destruct Hplace as [(->&->&->&->)|(p&i&rp&e0&->&Hpp&Hc0&<-&<-)].
    + exists o, (idx n' key), r, e. split_and!; try done; [constructor|by exists n'].
    + exists p, i, rp, e0. split_and!; try done. by eapply path_below.
Qed.

Lemma insert_walk_ok fuel t s l r o parent key :
  sub_ok s l r o → in_range r.1 r.2 key → (l < fuel)%nat →
  ∃ s' o' parent' l' r', insert_walk fuel t s o parent key = Some (s', (o', parent')) ∧
    walked (modified s) s s' l r o l' r' o' parent parent' key.
Proof.
  revert s l r o parent. induction fuel as [|fuel IH]; intros s l r o parent Hok Hk Hf; [lia|].
  destruct (sub_node _ _ _ _ Hok) as (nd&Ho&Hwf&Hleaf).
  destruct (node_is_too_large_ok (storage_map t) nd Hwf) as (large&nd'&Hx&Hsim).
  pose proof (walked_here s l r o nd nd' parent key Hok Hk Ho Hsim) as Hhere.
  cbn [insert_walk]. unfold test_node. rewrite Ho. cbn [mbind option_bind]. rewrite Hx.
  cbn [mbind option_bind]. destruct large; [by eexists _, _, _, _, _|].
  assert (objs (put s o nd') !! o = Some nd') as Ho1 by (simpl; by rewrite lookup_insert_eq).
  rewrite Ho1. cbn [mbind option_bind].
  destruct nd as [b|n], nd' as [b'|n']; try done; [by eexists _, _, _, _, _|]. cbn [node_try_walk].
  destruct l as [|l]; [done|].
  pose proof (store_step_ok _ _ _ _ _ _ Hok (wk_step _ _ _ _ _ _ _ _ _ _ _ _ Hhere)) as Hok1.
  destruct (find_child _ _ _ _ _ _ Hok1 Ho1 Hk) as (c&e&Hc&He&Ee&Hke).
  unfold child_ref. rewrite Ho1. cbn [mbind option_bind]. rewrite Hc. cbn [mbind option_bind].
  unfold dml_try_get_mut.
  destruct (decide (or_id (cl_ptr c) ∈ modified (put s o (CopylessInternal n')))) as [Hmut|];
    [|by eexists _, _, _, _, _].
  destruct (sub_child _ _ _ _ _ _ _ Hok1 Ho1 He) as [Hsub _].
  destruct (sub_node _ _ _ _ Hsub) as (cnd&Hcnd&_). rewrite Ee in Hcnd.
  cbn [snd] in Hcnd. rewrite Hcnd.
  destruct (IH (put s o (CopylessInternal n')) l e.1 e.2.2 (Some (o, idx n' key)) Hsub Hke)
    as (s'&o'&parent'&l'&r'&Hw&Hwk); [lia|].
  rewrite Ee in Hw. exists s', o', parent', l', r'. split; [exact Hw|].
  by eapply walked_below.
Qed.

(** ** Insertion *)

Lemma node_insert_fanout nd key msg pref nd' d :
  node_insert nd key msg pref = Some (nd', d) → root_needs_merge nd' = root_needs_merge nd.
Proof.
  unfold node_insert. destruct nd as [b|n]; simpl; intros Hi.
  - apply bind_Some in Hi as ([nd1 d1]&Hu&Hi).
    apply bind_Some in Hu as ([b1 d2]&_&[= <- <-]).
    by apply bind_Some in Hi as ([b' d']&_&[= <- <-]).
  - unfold in_insert in Hi. destruct (children n !! _) as [c|] eqn:Hc; [|done]. simpl in Hi.
    destruct (buf_insert _ _ _ _) as [[b db]|]; [|done]. simpl in Hi.
    destruct (after_insert_size_delta _ _) as [n1|] eqn:Ha; simplify_eq/=.
    apply after_insert_inv in Ha as (c'&_&_&->). unfold fanout. simpl. by rewrite length_alter.
Qed.

Lemma node_sim_fanout nd nd' : node_sim nd nd' → root_needs_merge nd' = root_needs_merge nd.
Proof.
  destruct nd, nd'; try done. intros (Hc&_). simpl. unfold fanout. by rewrite Hc.
Qed.

(** Lifting the insertion at the end of the walk. *)
Lemma insert_lift t s s' L l r o key msg :
  tree_inv t s L → at_path (objs s) L whole (or_id (root_node t)) l r o →
  in_range r.1 r.2 key → store_step s s' l r o (upd key msg) →
  tree_inv t s' L ∧ at_path (objs s') L whole (or_id (root_node t)) l r o ∧
  (∀ k, k ≠ key → value_of t s' L k = value_of t s L k) ∧
  (clear_path (objs s) key L (or_id (root_node t)) l o →
    value_of t s' L key = (d ← value_of t s L key; ma_apply key msg d)).
Proof.
  intros Hok Hp Hk Hst. pose proof Hok as [Ht Hnd Hnx]. pose proof Hst as (F&Hls&HF&HFr&Hle).
  destruct (path_step_key (objs s) (objs s') L whole (or_id (root_node t)) l r o F
    (upd key msg) key) as ((G&Hls'&HG)&Hp'&_); try done.
  { intros x Hx Hx'. apply HFr in Hx. apply Hnx in Hx'. lia. }
  { intros k d Hne. unfold upd. by bbool. }
  assert (store_step s s' L whole (or_id (root_node t)) G) as Hst' by (by exists F).
  split_and!; [by eapply store_step_ok|done| |].
  - intros k Hne. unfold value_of. destruct Hls' as [_ _ Hden _]. rewrite Hden by done.
    destruct (den _ _ _ _); simpl; [|done]. by apply HG.
  - intros Hcl. unfold value_of. rewrite (clear_den _ _ _ _ _ _ Hcl).
    rewrite (clear_den (objs s') key L (or_id (root_node t)) l o).
    + destruct Hls as [_ _ Hden _]. rewrite Hden by done.
      destruct (den _ _ _ _); simpl; [|done]. unfold upd. by rewrite beqb_refl.
    + eapply clear_frame; [done..|]. intros x Hx Hx'. destruct Hls as [Hout _ _ _].
      apply Hout; [done|]. intros HxF. apply HFr in HxF. apply Hnx in Hx'. lia.
Qed.

(** A change of one object keeps its place. *)
Lemma put_place t s L l rp p i e nd' :
  tree_inv t s L → at_path (objs s) L whole (or_id (root_node t)) (S l) rp p →
  child_at s p rp i e →
  at_path (objs (put s e.2.2 nd')) L whole (or_id (root_node t)) (S l) rp p ∧
  child_at (put s e.2.2 nd') p rp i e.
Proof.
  intros Hok Hp (n&Hn&Hi). pose proof (sub_path _ _ _ _ _ _ _ Hok Hp) as Hsub.
  pose proof (child_not_parent _ _ _ _ _ _ _ Hsub Hn Hi) as Hno.
  assert (e.2.2 ≠ p) as Hne by (intros E; apply Hno; rewrite <- E; apply oids_root).
  split; [|exists n; split; [simpl; by rewrite lookup_insert_ne|done]].
  eapply path_frame; [done|apply Hok|apply Hok|]. intros x _ Hx. simpl.
  rewrite lookup_insert_ne; [done|]. intros <-. apply Hx.
  destruct (sub_inner _ _ _ _ Hsub) as (n0&Hn0&_&_&_&Eo). simplify_eq. rewrite Eo.
  apply elem_of_cons. right. apply eoids_elem. exists e.
  split; [by eapply list_elem_of_lookup_2|apply oids_root].
Qed.

Lemma insert_message_ok fuel t s L key msg pref :
  tree_inv t s L → (L < fuel)%nat → ma_valid msg →
  Pref.valid (Pref.or pref (tree_storage_preference t)) →
  (∀ nd, objs s !! or_id (root_node t) = Some nd → root_needs_merge nd = false) →
  ∃ s' node parent l r, insert_message fuel t s key msg pref = Some (s', (node, parent)) ∧
    tree_inv t s' L ∧ focus s' L (or_id (root_node t)) node parent l r ∧
    (∀ k, k ≠ key → value_of t s' L k = value_of t s L k) ∧
    (bypassed ({[or_id (root_node t)]} ∪ modified s) (objs s) L (or_id (root_node t)) key = false →
      value_of t s' L key = (d ← value_of t s L key; ma_apply key msg d)).
Proof.
  intros Hok Hf Hv Hp Hroot. set (R := or_id (root_node t)) in *.
  unfold insert_message, dml_get_mut. fold R.
  destruct (sub_node _ _ _ _ Hok) as (rnd&Hrnd&_). fold R in Hrnd. rewrite Hrnd.
  cbn [mbind option_bind].
  set (s1 := mkStore (objs s) (next_id s) ({[R]} ∪ modified s)).
  assert (sub_ok s1 L whole R) as Hok1 by (destruct Hok; by split).
  destruct (insert_walk_ok fuel t s1 L whole R None key Hok1) as (s2&o&parent&l&r&Hw&Hwk);
    [done|done|].
  rewrite Hw. cbn [mbind option_bind].
  destruct Hwk as [Hst _ Hpath Hr Hcl Hstart Hplace].
  pose proof (store_step_ok _ _ _ _ _ _ Hok1 Hst) as Hok2.
  pose proof (sub_path _ _ _ _ _ _ _ Hok2 Hpath) as Hsub.
  destruct (sub_node _ _ _ _ Hsub) as (nd&Hnd&_). rewrite Hnd. cbn [mbind option_bind].
  destruct (node_insert_step s2 l r o nd key msg _ Hsub Hnd Hr Hv Hp) as (nd'&d&Hi&Hst3).
  rewrite Hi. cbn [mbind option_bind].
  destruct (insert_lift t s2 (put s2 o nd') L l r o key msg Hok2 Hpath Hr Hst3)
    as (Hinv&Hpath3&Hoth&Hkey).
  assert (negb (bool_decide (parent = None) && root_needs_merge nd') = true) as ->.
  { destruct Hplace as [(->&->&->&->)|(p&i&rp&e&->&_)]; [|done]. simpl.
    destruct (Hstart rnd Hrnd) as (nd0&Hnd0&Hsim). rewrite Hnd in Hnd0. injection Hnd0 as <-.
    rewrite (node_insert_fanout _ _ _ _ _ _ Hi), (node_sim_fanout _ _ Hsim).
    by rewrite (Hroot rnd Hrnd). }
  assert (∀ k, value_of t s2 L k = value_of t s L k) as Hsame.
  { intros k. destruct Hst as (F&[_ _ Hden _]&_). unfold value_of. fold R.
    rewrite Hden by done. apply bind_keep. }
  exists (put s2 o nd'), o, parent, l, r. split_and!; [done|done| | |].
  - split; [done|]. destruct Hplace as [(->&->&->&->)|(p&i&rp&e&->&Hpp&Hc&<-&<-)]; [done|].
    destruct (put_place t s2 L l rp p i e nd' Hok2 Hpp Hc). by exists rp, e.
  - intros k Hne. by rewrite Hoth, Hsame.
  - intros Hb. rewrite Hkey, Hsame by (by apply Hcl). done.
Qed.

(** ** Properties *)

(** C3: in a well-formed tree a point query returns (with fuel for one round
    per level) and its result is the value of the key: the leaf's value with
    the messages buffered on the way applied, lowest first. *)
Theorem get_reads_the_tree fuel t s L key :
  tree_inv t s L → (L < fuel)%nat →
  ∃ v, tree_get fuel t s key = Some v ∧ value_of t s L key = Some v.
Proof.
  intros Hok Hf. rewrite (tree_get_value fuel t s L key Hok Hf).
  destruct (den_total (objs s) L None None (or_id (root_node t)) key) as [v Hv];
    [apply Hok|done|]. by exists v.
Qed.


(** The effect of [insert] on the values of the tree. *)
Lemma tree_insert_values fuel t s L key msg pref s' :
  tree_inv t s L → (L < fuel)%nat → ma_valid msg →
  Pref.valid (Pref.or pref (tree_storage_preference t)) →
  (∀ nd, objs s !! or_id (root_node t) = Some nd → root_needs_merge nd = false) →
  bypassed ({[or_id (root_node t)]} ∪ modified s) (objs s) L (or_id (root_node t)) key = false →
  tree_insert fuel t s key msg pref = Some (inl s') →
  ∃ L', tree_inv t s' L' ∧ ∀ k, value_of t s' L' k =
    if beqb k key then (d ← value_of t s L key; ma_apply key msg d) else value_of t s L k.
Proof.
  intros Hok Hf Hv Hp Hroot Hb Hi. unfold tree_insert in Hi.
  destruct (bool_decide (key = [])); [done|].
  destruct (insert_message_ok fuel t s L key msg pref Hok Hf Hv Hp Hroot)
    as (s1&node&parent&l&r&Him&Hok1&Hfoc&Hoth&Hkey).
  rewrite Him in Hi. cbn [mbind option_bind] in Hi.
  apply bind_Some in Hi as (s2&Hr&[= <-]).
  destruct (rebalance_tree_ok _ _ _ _ _ _ _ _ _ _ Hok1 Hfoc Hr) as (L'&Hok'&Hd).
  exists L'. split; [done|]. intros k.
  transitivity (value_of t s1 L k); [apply Hd|].
  bbool; [subst; by apply Hkey|by apply Hoth].
Qed.



(** Flushing the buffer of a child never panics in a well-formed tree:
    it empties the buffer, the child stays in place, and every key keeps its
    value. *)
Theorem flush_keeps_values t s L l r o i e :
  tree_inv t s L → at_path (objs s) L whole (or_id (root_node t)) (S l) r o →
  child_at s o r i e →
  ∃ s' b', flush_step s o e.2.2 i = Some s' ∧ tree_inv t s' L ∧
    child_at s' o r i (e.1, (b', e.2.2)) ∧ buf_contents b' = [] ∧
    ∀ key, tree_get (S L) t s' key = tree_get (S L) t s key.
Proof.
  intros Hok Hp Hc.
  destruct (flush_step_ok s l r o i e (sub_path _ _ _ _ _ _ _ Hok Hp) Hc)
    as (s'&b'&Hf&Hst&Hc'&Hb).
  destruct (path_values _ _ _ _ _ _ _ Hok Hp Hst) as [[Hok' Hd] _].
  exists s', b'. split_and!; [done..|]. intros key.
  rewrite !(tree_get_value _ _ _ L) by (try done; lia). apply Hd.
Qed.

(** Filling up a leaf from its right sibling panics whenever the two
    leaves fit into one: the merged sibling is removed while it is still
    borrowed. *)
Theorem leaf_merge_panics t s L r o i e1 e2 nd1 nd2 nd1' nd2' d :
  tree_inv t s L → at_path (objs s) L whole (or_id (root_node t)) 1 r o →
  child_at s o r i e1 → child_at s o r (S i) e2 →
  objs s !! e1.2.2 = Some nd1 → objs s !! e2.2.2 = Some nd2 →
  leaf_rebalance (storage_map t) nd1 nd2 = Some (nd1', nd2', Merged d) →
  fill_step t s o e1.2.2 i = None.
Proof.
  intros Hok Hp (n&Hn&He1) (n2&Hn2&He2) Hnd1 Hnd2 Hlr. simplify_eq.
  pose proof (sub_path _ _ _ _ _ _ _ Hok Hp) as Hsub.
  destruct (fill_step t s o e1.2.2 i) as [s'|] eqn:Hf; [|done]. exfalso.
  destruct (fill_step_pair t s 0 r o n i e1 s' Hsub Hn He1 Hf)
    as (p&f1&f2&pk&sib&md&Hf1&Hf2&Hnb&Hcase&Hfp).
  destruct Hcase as [(->&->&->)|(->&_&_&Hnone)]; [|congruence].
  rewrite He2 in Hf2. injection Hf2 as <-.
  assert (sub_ok (mkStore (objs s) (next_id s) md) 1 r o) as Hok1 by (destruct Hsub; by split).
  destruct (neighbours_ok _ _ _ _ n p f1 e2 Hok1 Hn Hf1 He2) as (pk'&Hnb').
  apply (fill_pair_inv t _ 0 r o n p f1 e2 pk') in Hfp
    as (x1&x2&x3&x4&x5&x6&x7&x8&Hx1&Hx2&Hx3&_); [|done..|set_solver].
  simpl in Hx1, Hx2. congruence.
Qed.

(** A new tree is well-formed and holds no key. *)
Theorem empty_tree_is_empty d pref sm s key :
  let '(t, s') := empty_tree d pref sm s in
  tree_inv t s' 0 ∧ tree_get 1 t s' key = Some None.
Proof.
  unfold empty_tree. simpl.
  assert (tree_inv (mkTree (mkRef (next_id s) (PkRoot d)) d pref sm)
    (dml_insert empty_leaf (PkRoot d) s).2 0) as Hok.
  { split; simpl.
    - eexists. rewrite lookup_insert_eq. split; [done|].
      split_and!; [apply buf_new_wf|done|]. by intros k.
    - apply NoDup_singleton.
    - intros x ->%list_elem_of_singleton. lia. }
  split; [done|]. rewrite (tree_get_value 1 _ _ 0) by (try done; lia).
  unfold value_of. simpl. by rewrite lookup_insert_eq.
Qed.

End correct.

(** ** Witnesses *)

Module TreeExamples.
Import PolyHash BufferExamples.

(** Trees of an internal root over leaves. *)
Lemma two_level_ok t s n :
  let R := or_id (root_node t) in
  objs s !! R = Some (CopylessInternal n) → inner_ok 0 n →
  Forall (λ e, link_ok e.1.1 e.1.2 e.2.1 ∧
    ∃ b, objs s !! e.2.2 = Some (MemLeaf b) ∧ leaf_ok e.1.1 e.1.2 b) (cover_ids None None n) →
  NoDup (R :: (snd ∘ snd <$> cover_ids None None n)) →
  Forall (λ x, (x < next_id s)%positive) (R :: (snd ∘ snd <$> cover_ids None None n)) →
  tree_inv t s 1.
Proof.
  intros R HR Hi Hall Hnd Hnx.
  assert (oids (objs s) 1 R = R :: (snd ∘ snd <$> cover_ids None None n)) as Eo.
  { rewrite (oids_cover _ _ None None _ n HR) by apply Hi. f_equal.
    clear. induction (cover_ids None None n) as [|e es IH]; [done|]. simpl. f_equal. exact IH. }
  split; fold R.
  - exists n. split_and!; [done..|]. eapply Forall_impl; [exact Hall|]. simpl.
    intros e (Hl&b&Hb&Hlf). split; [done|]. by exists b.
  - by rewrite Eo.
  - intros x Hx. rewrite Eo in Hx. rewrite Forall_forall in Hnx. by apply Hnx.
Qed.

Lemma keys_in_Forall lo hi b :
  Forall (λ e, in_range lo hi e.1) (buf_contents b) → keys_in lo hi b.
Proof.
  intros Hall k Hk. destruct (bt_get k (buf_contents b)) as [v|] eqn:E; [|done].
  apply bt_get_In in E. rewrite Forall_forall in Hall. by apply (Hall (k, v)).
Qed.

(** A link and a leaf without entries. *)
Lemma empty_leaf_ok lo hi : leaf_ok lo hi (buf_new true).
Proof. split_and!; [apply buf_new_wf|done|]. by intros k. Qed.

Lemma empty_link_ok lo hi :
  match lo, hi with Some l, Some h => bltb l h = true | _, _ => True end →
  link_ok lo hi (buf_new false).
Proof.
  intros Hr. apply new_link_ok. intros l h -> ->. by destruct (bltb_spec l h).
Qed.

(** A root with long pivots over four empty leaves: its fanout is too
    high. *)
Definition pivot_of (b : byte) : bytes := b :: replicate 250 zero.

Definition wide_root : CopylessInternalNode ObjRef :=
  mkInternal (meta_invalidate (mkMeta 0 1 Pref.NONE AtomicPref.unknown
      [pivot_of Byte.x02; pivot_of Byte.x04; pivot_of Byte.x06]
      (replicate 4 (buf_size (buf_new false))) (replicate 4 Pref.NONE)))
    [mkLink (buf_new false) (mkRef 2 (PkLeftOuter (pivot_of Byte.x02) 0));
     mkLink (buf_new false) (mkRef 3 (PkRight (pivot_of Byte.x02) 0));
     mkLink (buf_new false) (mkRef 4 (PkRight (pivot_of Byte.x04) 0));
     mkLink (buf_new false) (mkRef 5 (PkRight (pivot_of Byte.x06) 0))].

Definition ram : StorageMap := mkStorageMap [] Memory.

Definition tree1 : Tree := mkTree (mkRef 1 (PkRoot 0)) 0 Pref.NONE ram.

Definition wide_store : Store :=
  mkStore (<[1%positive := CopylessInternal wide_root]>
    (<[2%positive := MemLeaf (buf_new true)]> (<[3%positive := MemLeaf (buf_new true)]>
    (<[4%positive := MemLeaf (buf_new true)]> {[5%positive := MemLeaf (buf_new true)]})))) 6 ∅.

Lemma prefs_none k : Forall Pref.valid (replicate k Pref.NONE).
Proof. apply Forall_replicate, Pref.valid_NONE. Qed.

Lemma wide_ok : tree_inv tree1 wide_store 1.
Proof.
  apply (two_level_ok tree1 wide_store wide_root).
  - by vm_compute.
  - split_and!; [by split|done|]. split_and!; [apply prefs_none|by left|apply Pref.valid_NONE].
  - change (cover_ids None None wide_root) with
      [((None, Some (pivot_of Byte.x02)), (buf_new false, 2%positive));
       ((Some (pivot_of Byte.x02), Some (pivot_of Byte.x04)), (buf_new false, 3%positive));
       ((Some (pivot_of Byte.x04), Some (pivot_of Byte.x06)), (buf_new false, 4%positive));
       ((Some (pivot_of Byte.x06), None), (buf_new false, 5%positive))].
    repeat (apply Forall_cons; split); try apply Forall_nil_2;
      (split; [apply empty_link_ok; by vm_compute|]);
      (eexists; split; [by vm_compute|apply empty_leaf_ok]).
  - apply (bool_decide_unpack _). by vm_compute.
  - apply (bool_decide_unpack _). by vm_compute.
Qed.

Lemma get_reads_the_tree_witness :
  ∃ v, tree_get 2 tree1 wide_store (key Byte.x01) = Some v ∧
    value_of tree1 wide_store 1 (key Byte.x01) = Some v.
Proof.
  apply (get_reads_the_tree 2 tree1 wide_store 1 (key Byte.x01)).
  - apply wide_ok.
  - lia.
Defined.


Definition new_value : bytes := BufferExamples.put [Byte.x2a].

Lemma wide_settled nd :
  objs wide_store !! or_id (root_node tree1) = Some nd → root_needs_merge nd = false.
Proof. vm_compute. by intros [= <-]. Qed.


(** Two leaves under a root whose buffers are empty; no node is mutable. *)
Definition small_root : CopylessInternalNode ObjRef :=
  in_new (mkInl (mkRef 2 (PkLeftOuter (key Byte.x02) 0)) (buf_new false) (buf_size (buf_new false)))
    (mkInl (mkRef 3 (PkRight (key Byte.x02) 0)) (buf_new false) (buf_size (buf_new false)))
    (key Byte.x02) 1.

Definition small_store : Store :=
  mkStore (<[1%positive := CopylessInternal small_root]>
    (<[2%positive := MemLeaf (buf_new true)]> {[3%positive := MemLeaf (buf_new true)]})) 4 ∅.

Lemma small_ok : tree_inv tree1 small_store 1.
Proof.
  apply (two_level_ok tree1 small_store small_root).
  - by vm_compute.
  - apply (new_root_ok 0).
  - repeat (apply Forall_cons; split); try apply Forall_nil_2;
      (split; [apply empty_link_ok; by vm_compute|]);
      (eexists; split; [by vm_compute|apply empty_leaf_ok]).
  - apply (bool_decide_unpack _). by vm_compute.
  - apply (bool_decide_unpack _). by vm_compute.
Qed.


Definition left_entry : entry :=
  ((None, Some (key Byte.x02)), (buf_new false, 2%positive)).
Definition right_entry : entry :=
  ((Some (key Byte.x02), None), (buf_new false, 3%positive)).

Lemma flush_keeps_values_witness :
  ∃ s', flush_step small_store 1%positive 2%positive 0 = Some s' ∧ tree_inv tree1 s' 1.
Proof.
  destruct (flush_keeps_values tree1 small_store 1 0 whole 1%positive 0 left_entry)
    as (s'&b'&Hf&Hok&_).
  - apply small_ok.
  - constructor.
  - by exists small_root.
  - by exists s'.
Defined.

Lemma leaf_merge_panics_witness : fill_step tree1 small_store 1%positive 2%positive 0 = None.
Proof.
  destruct (leaf_rebalance (N := ObjRef) (storage_map tree1) (MemLeaf (buf_new true))
    (MemLeaf (buf_new true))) as [[[nd1' nd2'] [pk d|d]]|] eqn:E; [by vm_compute in E| |by vm_compute in E].
  apply (leaf_merge_panics tree1 small_store 1 whole 1%positive 0 left_entry right_entry
    (MemLeaf (buf_new true)) (MemLeaf (buf_new true)) nd1' nd2' d).
  - apply small_ok.
  - constructor.
  - by exists small_root.
  - by exists small_root.
  - by vm_compute.
  - by vm_compute.
  - exact E.
Defined.

(** A newer message can be put below an older one, and then the older
    one wins.  Starting from a tree that was just written back: the first
    value is buffered in the root; changing the preference of the key makes
    the leaf mutable; the second value goes directly into the leaf; the query
    still returns the first value. *)
Theorem newer_message_lost :
  tree_inv tree1 small_store 1 ∧
  ∃ s1 s2 i s3,
    tree_insert 5 tree1 small_store (key Byte.x01) (BufferExamples.put [Byte.x11]) Pref.FAST =
      Some (inl s1) ∧
    tree_apply_with_info 5 tree1 s1 (key Byte.x01) Pref.FAST = Some (s2, i) ∧
    tree_insert 5 tree1 s2 (key Byte.x01) (BufferExamples.put [Byte.x22]) Pref.FAST =
      Some (inl s3) ∧
    tree_get 5 tree1 s3 (key Byte.x01) = Some (Some [Byte.x11]).
Proof.
  split; [apply small_ok|].
  destruct (tree_insert 5 tree1 small_store (key Byte.x01) _ Pref.FAST)
    as [[s1|]|] eqn:E1; [|by vm_compute in E1..].
  destruct (tree_apply_with_info 5 tree1 s1 (key Byte.x01) Pref.FAST) as [[s2 i]|] eqn:E2;
    [|by vm_compute in E1; injection E1 as <-; vm_compute in E2].
  destruct (tree_insert 5 tree1 s2 (key Byte.x01) (BufferExamples.put [Byte.x22]) Pref.FAST)
    as [[s3|]|] eqn:E3;
    [|by vm_compute in E1; injection E1 as <-; vm_compute in E2; injection E2 as <- <-;
      vm_compute in E3..].
  exists s1, s2, i, s3. split_and!; [done..|].
  vm_compute in E1. injection E1 as <-. vm_compute in E2. injection E2 as <- <-.
  vm_compute in E3. injection E3 as <-. by vm_compute.
Qed.

End TreeExamples.
