(* ===== verification/Range.v ===== *)
(** * Range queries

    [tree/imp/range.rs] and [range_validation.rs]: the iterator over a range of
    keys.  It reads one leaf at a time: [leaf_range_query] walks down to the
    leaf of the smallest key it still has to return, gathers the messages of
    the buffers on the way, and merges them into the entries of the leaf.

    The main theorem says which entries an iteration yields, in which order,
    and that it ends.  Two more say where this differs from the range that
    was asked for: an excluded end is included, and a key that extends a
    pivot by a zero byte is left out.

    Prefetching is switched off in the code (by [&& false]); the branch that
    would use it has no result here, and the theorems show it is not
    taken. *)

From Stdlib Require Import ZArith Lia.
From stdpp Require Import base option list numbers gmap fin_maps.
From S2P Require Import Prelude.
From S2P Require Import Bytes.
From S2P Require Import BTreeMap.
From S2P Require Import CowBytes.
From S2P Require Import StoragePref.
From S2P Require Import Message.
From S2P Require Import Checksum.
From S2P Require Import ChildBuffer.
From S2P Require Import Pivots.
From S2P Require Import Internal.
From S2P Require Import Node.
From S2P Require Import Tree.
From S2P Require Import TreeInv.
From S2P Require Import TreeSteps.
From S2P Require Import TreeCorrect.

(** ** Bounds *)

(** [std::ops::Bound] and a [RangeBounds]. *)
Inductive Bound := Unbounded | Included (x : bytes) | Excluded (x : bytes).
Record RangeBounds := mkRange { start_bound : Bound; end_bound : Bound }.

(** [is_inclusive_non_empty] *)
Definition is_inclusive_non_empty (r : RangeBounds) : bool :=
  match start_bound r, end_bound r with
  | Unbounded, _ | _, Unbounded => true
  | Included a, Included b => bleb a b
  | Excluded a, Included b | Included a, Excluded b | Excluded a, Excluded b => bltb a b
  end.

(** [increment_pivot_key] *)
Definition increment_pivot_key (v : bytes) : bytes := v ++ [zero].

Module Bounded.
Inductive Bounded := Included (x : bytes) | Excluded (x : bytes).

Definition key (b : Bounded) : bytes := match b with Included x | Excluded x => x end.

(** The test of [fill_buffer] for entries in front of the bound. *)
Definition in_front (b : Bounded) (k : bytes) : bool :=
  match b with Included x => bltb k x | Excluded x => bleb k x end.
End Bounded.

(** ** Merging two sorted sequences *)

(** [Iterator::skip_while] and [take_while]. *)
Fixpoint skip_while {A} (p : A → bool) (l : list A) : list A :=
  match l with [] => [] | x :: l' => if p x then skip_while p l' else l end.

Fixpoint take_while {A} (p : A → bool) (l : list A) : list A :=
  match l with [] => [] | x :: l' => if p x then x :: take_while p l' else [] end.

Record MergeByKeyIterator (T U : Type) := mkMerge {
  mi : list (bytes * T);
  mj : list (bytes * U);
  peeked_i : option (bytes * T);
  peeked_j : option (bytes * U);
}.
Arguments mkMerge {T U}.
Arguments mi {T U}.
Arguments mj {T U}.
Arguments peeked_i {T U}.
Arguments peeked_j {T U}.

Definition merge_new {T U} (i : list (bytes * T)) (j : list (bytes * U)) :
    MergeByKeyIterator T U := mkMerge i j None None.

(** [peeked.take().or_else(|| iter.next())] *)
Definition take_or_next {A} (peeked : option A) (l : list A) : option A * list A :=
  match peeked with
  | Some x => (Some x, l)
  | None => match l with [] => (None, []) | x :: l => (Some x, l) end
  end.

(** [MergeByKeyIterator::next] *)
Definition merge_next {T U} (it : MergeByKeyIterator T U) :
    option (bytes * (option T * option U)) * MergeByKeyIterator T U :=
  let '(i, li) := take_or_next (peeked_i it) (mi it) in
  let '(j, lj) := take_or_next (peeked_j it) (mj it) in
  match i, j with
  | None, None => (None, mkMerge li lj None None)
  | Some (k, v), None => (Some (k, (Some v, None)), mkMerge li lj None None)
  | None, Some (k, v) => (Some (k, (None, Some v)), mkMerge li lj None None)
  | Some (k_i, v_i), Some (k_j, v_j) =>
      match bytes_cmp k_i k_j with
      | Eq => (Some (k_i, (Some v_i, Some v_j)), mkMerge li lj None None)
      | Lt => (Some (k_i, (Some v_i, None)), mkMerge li lj None (Some (k_j, v_j)))
      | Gt => (Some (k_j, (None, Some v_j)), mkMerge li lj (Some (k_i, v_i)) None)
      end
  end.

(** The items of a [for] loop over the iterator. *)
Fixpoint merge_items {T U} (fuel : nat) (it : MergeByKeyIterator T U) :
    option (list (bytes * (option T * option U))) :=
  match fuel with
  | O => None
  | S fuel =>
      match merge_next it with
      | (None, _) => Some []
      | (Some x, it) => xs ← merge_items fuel it; Some (x :: xs)
      end
  end.

(** ** The query of one leaf *)

(** The messages gathered for a key, upper ones first. *)
Abbreviation Messages := (list (bytes * list (KeyInfo * bytes))).

(** [entry(key).or_insert_with(Vec::new).push(msg)] *)
Definition push_msg (all_msgs : Messages) (key : bytes) (msg : KeyInfo * bytes) : Messages :=
  bt_insert key (default [] (bt_get key all_msgs) ++ [msg]) all_msgs.

Inductive GetRangeResult :=
  | RangeData (leaf_entries : btree)
  | RangeNextNode (np : ObjRef) (prefetch_option_node : option ObjRef).

Section range.
Context `{Checksum} `{MessageAction}.
Implicit Types (s : Store) (t : Tree) (key : bytes).

(** [Node::get_range] *)
Definition node_get_range (nd : TNode) key (left_pivot_key right_pivot_key : option bytes)
    (all_msgs : Messages) :
    option (GetRangeResult * option bytes * option bytes * Messages) :=
  match nd with
  | MemLeaf b =>
      es ← get_all_messages b;
      Some (RangeData es, left_pivot_key, right_pivot_key, all_msgs)
  | CopylessInternal n =>
      let prefetch_option :=
        if (level n =? 1) && false then in_get_next_node n key else None in
      '(cl, l, r) ← in_get_range n key left_pivot_key right_pivot_key;
      es ← get_all_messages (cl_buffer cl);
      let all_msgs := foldl (λ ms e, push_msg ms e.1 e.2) all_msgs es in
      Some (RangeNextNode (cl_ptr cl) (cl_ptr <$> prefetch_option), l, r, all_msgs)
  end.

(** The loop of [apply_messages] over the messages of a key, lowest first. *)
Fixpoint apply_key_messages key (msgs : list (KeyInfo * bytes)) (keyinfo : option KeyInfo)
    (value : option bytes) : option (option KeyInfo * option bytes) :=
  match msgs with
  | [] => Some (keyinfo, value)
  | (new_keyinfo, msg) :: msgs =>
      let keyinfo :=
        match keyinfo with
        | Some previous_keyinfo => Some (merge_with_upper previous_keyinfo new_keyinfo)
        | None => Some new_keyinfo
        end in
      value ← ma_apply key msg value;
      apply_key_messages key msgs keyinfo value
  end.

(** The body of the loop of [apply_messages]. *)
Definition apply_entry (data : btree)
    (e : bytes * (option (list (KeyInfo * bytes)) * option (KeyInfo * bytes))) : option btree :=
  let '(key, (msgs, value)) := e in
  '(keyinfo, value) ← apply_key_messages key (rev (default [] msgs)) (fst <$> value) (snd <$> value);
  match value with
  | Some value => ki ← keyinfo; Some (data ++ [(key, (ki, value))])
  | None => Some data
  end.

Fixpoint apply_entries (data : btree)
    (es : list (bytes * (option (list (KeyInfo * bytes)) * option (KeyInfo * bytes)))) :
    option btree :=
  match es with
  | [] => Some data
  | e :: es => data ← apply_entry data e; apply_entries data es
  end.

(** [apply_messages] *)
Definition apply_messages (left_pivot_key right_pivot_key : option bytes) (messages : Messages)
    (leaf_entries data : btree) : option btree :=
  let msgs_iter :=
    take_while (λ e, match right_pivot_key with None => true | Some max_key => bleb e.1 max_key end)
      (skip_while (λ e, match left_pivot_key with None => false | Some min_key => bltb e.1 min_key end)
        messages) in
  items ← merge_items (S (length msgs_iter + length leaf_entries)) (merge_new msgs_iter leaf_entries);
  apply_entries data items.

(** The loop of [leaf_range_query]. *)
Fixpoint leaf_range_loop (fuel : nat) s (np : ObjRef) key
    (left_pivot_key right_pivot_key : option bytes) (messages : Messages) (data : btree) :
    option (option bytes * btree) :=
  match fuel with
  | O => None
  | S fuel =>
      nd ← dml_get s np;
      '(res, l, r, messages) ← node_get_range nd key left_pivot_key right_pivot_key messages;
      match res with
      | RangeNextNode np None => leaf_range_loop fuel s np key l r messages data
      | RangeNextNode np (Some _) => None
      | RangeData leaf_entries => data ← apply_messages l r messages leaf_entries data; Some (r, data)
      end
  end.

(** [leaf_range_query] *)
Definition leaf_range_query (fuel : nat) t s key (data : btree) : option (option bytes * btree) :=
  leaf_range_loop fuel s (root_node t) key None None [] data.

(** ** The iterator *)

Record RangeIterator := mkIter {
  ri_buffer : btree;
  min_key : Bounded.Bounded;
  max_key : option bytes;
  finished : bool;
}.

(** [RangeIterator::new] *)
Definition range_iterator_new (range : RangeBounds) : RangeIterator :=
  mkIter []
    (match start_bound range with
     | Unbounded => Bounded.Included []
     | Included x => Bounded.Included x
     | Excluded x => Bounded.Excluded x
     end)
    (match end_bound range with
     | Unbounded => None
     | Included x => Some x
     | Excluded x => Some (increment_pivot_key x)
     end) false.

(** Entries popped off the back while they are past the end. *)
Definition pop_back_while {A} (p : A → bool) (l : list A) : list A :=
  rev (skip_while p (rev l)).

(** [fill_buffer] *)
Definition fill_buffer (fuel : nat) t s (it : RangeIterator) : option RangeIterator :=
  '(next_pivot, buffer) ← leaf_range_query fuel t s (Bounded.key (min_key it)) (ri_buffer it);
  let buffer := skip_while (λ e, Bounded.in_front (min_key it) e.1) buffer in
  let '(buffer, fin) :=
    match max_key it with
    | Some max_key =>
        (pop_back_while (λ e, bltb max_key e.1) buffer,
         match next_pivot with Some pivot => bleb max_key pivot | None => finished it end)
    | None => (buffer, finished it)
    end in
  match next_pivot with
  | Some pivot =>
      if fin then Some (mkIter buffer (min_key it) (max_key it) true)
      else Some (mkIter buffer (Bounded.Excluded (increment_pivot_key pivot)) (max_key it) false)
  | None => Some (mkIter buffer (min_key it) (max_key it) true)
  end.

(** [RangeIterator::next]; the fuel [loops] bounds its loop. *)
Fixpoint range_next (loops fuel : nat) t s (it : RangeIterator) :
    option (option (bytes * bytes) * RangeIterator) :=
  match loops with
  | O => None
  | S loops =>
      match ri_buffer it with
      | (key, (_keyinfo, data)) :: buffer =>
          Some (Some (key, data), mkIter buffer (min_key it) (max_key it) (finished it))
      | [] =>
          if finished it then Some (None, it)
          else it ← fill_buffer fuel t s it; range_next loops fuel t s it
      end
  end.

(** A [for] loop over the iterator. *)
Fixpoint range_collect (n loops fuel : nat) t s (it : RangeIterator) :
    option (list (bytes * bytes)) :=
  match n with
  | O => None
  | S n =>
      '(r, it) ← range_next loops fuel t s it;
      match r with
      | None => Some []
      | Some x => xs ← range_collect n loops fuel t s it; Some (x :: xs)
      end
  end.

(** [TreeLayer::range]: an iterator, or [Error::InvalidRange]. *)
Definition tree_range (range : RangeBounds) : RangeIterator + TreeError :=
  if negb (is_inclusive_non_empty range) then inr InvalidRange
  else inl (range_iterator_new range).

End range.

(** ** Sequences *)

Section sequences.
Context {V : Type}.
Implicit Types (p : bytes → bool) (l : list (bytes * V)).

(** On a sorted list, cutting off a prefix or a suffix is a filter. *)
Lemma skip_while_sorted p l :
  bt_sorted l → (∀ a b, a <ᵇ b → p b = true → p a = true) →
  skip_while (λ e, p e.1) l = bt_filter (λ k, negb (p k)) l.
Proof.
  intros Hs Hp. induction l as [|[k v] l IH]; [done|].
  apply bt_sorted_cons in Hs as [Hs Hall]. simpl. destruct (p k) eqn:Ek; simpl; [by apply IH|].
  f_equal. symmetry. apply bt_filter_all. eapply Forall_impl; [exact Hall|].
  intros e He. destruct (p e.1) eqn:Ee; [|done]. by rewrite (Hp _ _ He Ee) in Ek.
Qed.

Lemma take_while_sorted p l :
  bt_sorted l → (∀ a b, a <ᵇ b → p b = true → p a = true) →
  take_while (λ e, p e.1) l = bt_filter p l.
Proof.
  intros Hs Hp. induction l as [|[k v] l IH]; [done|].
  apply bt_sorted_cons in Hs as [Hs Hall]. simpl. destruct (p k) eqn:Ek; simpl; [by rewrite IH|].
  symmetry. apply bt_filter_none. eapply Forall_impl; [exact Hall|].
  intros e He. destruct (p e.1) eqn:Ee; [|done]. by rewrite (Hp _ _ He Ee) in Ek.
Qed.

Lemma pop_back_while_snoc p l e :
  pop_back_while (λ e, p e.1) (l ++ [e]) =
    if p e.1 then pop_back_while (λ e, p e.1) l else l ++ [e].
Proof.
  unfold pop_back_while. rewrite rev_app_distr. simpl. destruct (p e.1); [done|].
  by rewrite <- (rev_involutive (l ++ [e])), rev_app_distr.
Qed.

Lemma pop_back_while_sorted p l :
  bt_sorted l → (∀ a b, a <ᵇ b → p a = true → p b = true) →
  pop_back_while (λ e, p e.1) l = bt_filter (λ k, negb (p k)) l.
Proof.
  intros Hs Hp. induction l as [|e l IH] using rev_ind; [done|].
  rewrite pop_back_while_snoc. unfold bt_filter. rewrite List.filter_app. simpl.
  apply bt_sorted_app_inv in Hs as (Hs&_&Hlt). destruct (p e.1) eqn:Ee; simpl.
  - rewrite app_nil_r. by apply IH.
  - f_equal. symmetry. apply (bt_filter_all (λ k, negb (p k))), Forall_forall. intros x Hx.
    destruct (p x.1) eqn:Ex; [|done].
    rewrite (Hp x.1 e.1) in Ee; [done| |done]. apply Hlt; [done|]. by apply list_elem_of_singleton.
Qed.

End sequences.

(** ** The merge of two sequences *)

Section merge.
Context {T U : Type}.
Implicit Types it : MergeByKeyIterator T U.

(** What is still to come from either side. *)
Definition rest_i it : list (bytes * T) := option_list (peeked_i it) ++ mi it.
Definition rest_j it : list (bytes * U) := option_list (peeked_j it) ++ mj it.

Definition both (a : option T) (b : option U) : option (option T * option U) :=
  match a, b with None, None => None | _, _ => Some (a, b) end.

(** One step on the remaining sequences. *)
Lemma merge_next_rest it :
  match rest_i it, rest_j it, merge_next it with
  | [], [], (r, _) => r = None
  | (k, v) :: i, [], (r, it') => r = Some (k, (Some v, None)) ∧ rest_i it' = i ∧ rest_j it' = []
  | [], (k, v) :: j, (r, it') => r = Some (k, (None, Some v)) ∧ rest_i it' = [] ∧ rest_j it' = j
  | (k, v) :: i, (k', v') :: j, (r, it') =>
      match bytes_cmp k k' with
      | Eq => r = Some (k, (Some v, Some v')) ∧ rest_i it' = i ∧ rest_j it' = j
      | Lt => r = Some (k, (Some v, None)) ∧ rest_i it' = i ∧ rest_j it' = (k', v') :: j
      | Gt => r = Some (k', (None, Some v')) ∧ rest_i it' = (k, v) :: i ∧ rest_j it' = j
      end
  end.
Proof.
  destruct it as [i j [[ki vi]|] [[kj vj]|]];
    [|destruct j as [|[kj vj] j]|destruct i as [|[ki vi] i]
    |destruct i as [|[ki vi] i], j as [|[kj vj] j]];
    unfold rest_i, rest_j, merge_next; simpl; try done;
    destruct (bytes_cmp ki kj); done.
Qed.

(** An item in front of the merge of later entries. *)
Lemma merge_cons k a b i i' j j' out :
  bt_sorted out → (∀ k', bt_get k' out = both (bt_get k' i') (bt_get k' j')) →
  Forall (λ e, k <ᵇ e.1) i' → Forall (λ e, k <ᵇ e.1) j' → both a b = Some (a, b) →
  (∀ k', bt_get k' i = if beqb k' k then a else bt_get k' i') →
  (∀ k', bt_get k' j = if beqb k' k then b else bt_get k' j') →
  bt_sorted ((k, (a, b)) :: out) ∧
  ∀ k', bt_get k' ((k, (a, b)) :: out) = both (bt_get k' i) (bt_get k' j).
Proof.
  intros Hs Hg Hi Hj Hab Ei Ej. split.
  - apply bt_sorted_cons. split; [done|]. apply Forall_forall. intros [k' [x y]] Hin.
    apply (bt_get_Some _ _ _ Hs) in Hin. rewrite Hg in Hin. simpl. rewrite Forall_forall in Hi. rewrite Forall_forall in Hj.
    destruct (bt_get k' i') as [v|] eqn:Hk; [by apply bt_get_In, Hi in Hk|].
    destruct (bt_get k' j') as [v|] eqn:Hk'; [by apply bt_get_In, Hj in Hk'|done].
  - intros k'. rewrite Ei, Ej. simpl. bbool; [by rewrite Hab|apply Hg].
Qed.

Lemma bt_get_front {V} k (l : list (bytes * V)) :
  Forall (λ e, k <ᵇ e.1) l → ∀ k', bt_get k' l = if beqb k' k then None else bt_get k' l.
Proof. intros Hl k'. bbool; [|done]. subst. by apply bt_get_lt. Qed.

Lemma sorted_front {V} k k' v (l : list (bytes * V)) :
  bt_sorted ((k', v) :: l) → k <ᵇ k' → Forall (λ e, k <ᵇ e.1) ((k', v) :: l).
Proof.
  intros [_ Hall]%bt_sorted_cons Hk. constructor; [done|].
  eapply Forall_impl; [exact Hall|]. simpl. intros e He. border.
Qed.

Lemma merge_items_spec fuel it :
  bt_sorted (rest_i it) → bt_sorted (rest_j it) →
  (length (rest_i it) + length (rest_j it) < fuel)%nat →
  ∃ out, merge_items fuel it = Some out ∧ bt_sorted out ∧
    ∀ k, bt_get k out = both (bt_get k (rest_i it)) (bt_get k (rest_j it)).
Proof.
  revert it. induction fuel as [|fuel IH]; intros it Hi Hj Hf; [lia|].
  pose proof (merge_next_rest it) as Hn. simpl.
  assert (∀ k a b it' i j,
    bt_sorted (rest_i it') → bt_sorted (rest_j it') →
    (length (rest_i it') + length (rest_j it') < fuel)%nat →
    Forall (λ e, k <ᵇ e.1) (rest_i it') → Forall (λ e, k <ᵇ e.1) (rest_j it') →
    both a b = Some (a, b) →
    (∀ k', bt_get k' i = if beqb k' k then a else bt_get k' (rest_i it')) →
    (∀ k', bt_get k' j = if beqb k' k then b else bt_get k' (rest_j it')) →
    ∃ out, (xs ← merge_items fuel it'; Some ((k, (a, b)) :: xs)) = Some out ∧ bt_sorted out ∧
      ∀ k, bt_get k out = both (bt_get k i) (bt_get k j)) as Hstep.
  { intros k a b it' i j Hi' Hj' Hf' Hki Hkj Hab Ei Ej.
    destruct (IH it' Hi' Hj' Hf') as (out&Hout&Hs&Hg). rewrite Hout. simpl.
    eexists. split; [done|]. by eapply merge_cons. }
  destruct (rest_i it) as [|[k v] i] eqn:Ei, (rest_j it) as [|[k' v'] j] eqn:Ej,
    (merge_next it) as [r it'].
  - subst r. exists []. split_and!; [done|constructor|done].
  - destruct Hn as (->&Ei'&Ej'). pose proof Hj as [Hsj Hkj]%bt_sorted_cons.
    apply (Hstep k' None (Some v') it' [] ((k', v') :: j)); rewrite ?Ei', ?Ej'; try done.
    all: simpl in *; try lia. intros x. by destruct (beqb x k').
  - destruct Hn as (->&Ei'&Ej'). pose proof Hi as [Hsi Hki]%bt_sorted_cons.
    apply (Hstep k (Some v) None it' ((k, v) :: i) []); rewrite ?Ei', ?Ej'; try done.
    all: simpl in *; try lia. intros x. by destruct (beqb x k).
  - pose proof Hi as [Hsi Hki]%bt_sorted_cons. pose proof Hj as [Hsj Hkj]%bt_sorted_cons.
    destruct (bytes_cmp k k') eqn:Ek; destruct Hn as (->&Ei'&Ej').
    + apply bytes_cmp_eq in Ek as <-.
      apply (Hstep k (Some v) (Some v') it' ((k, v) :: i) ((k, v') :: j)); rewrite ?Ei', ?Ej'; try done.
      simpl in *. lia.
    + assert (Forall (λ e, k <ᵇ e.1) ((k', v') :: j)) by by apply sorted_front.
      apply (Hstep k (Some v) None it' ((k, v) :: i) ((k', v') :: j)); rewrite ?Ei', ?Ej'; try done.
      * simpl in *. lia.
      * by apply (bt_get_front k).
    + assert (k' <ᵇ k) as Hlt by (unfold blt; by rewrite bytes_cmp_antisym, Ek).
      assert (Forall (λ e, k' <ᵇ e.1) ((k, v) :: i)) by by apply sorted_front.
      apply (Hstep k' None (Some v') it' ((k, v) :: i) ((k', v') :: j)); rewrite ?Ei', ?Ej'; try done.
      * simpl in *. lia.
      * by apply (bt_get_front k').
Qed.
End merge.

(** ** One leaf *)

Section leaf.
Context `{Checksum} `{MessageActionLaws}.
Implicit Types (s : Store) (t : Tree) (k key : bytes) (ms : Messages)
  (n : CopylessInternalNode ObjRef).

(** The messages gathered for a key. *)
Definition msgs_for k ms : list (KeyInfo * bytes) := default [] (bt_get k ms).

(** Gathered messages: sorted by key, all of them valid. *)
Definition msgs_ok ms : Prop := bt_sorted ms ∧ ∀ k, Forall (λ x, ma_valid x.2) (msgs_for k ms).

Lemma msgs_ok_nil : msgs_ok [].
Proof. split; [constructor|]. intros k. constructor. Qed.

Lemma msgs_for_push ms key x k :
  msgs_for k (push_msg ms key x) = msgs_for k ms ++ (if beqb k key then [x] else []).
Proof.
  unfold msgs_for, push_msg. rewrite bt_get_insert. bbool; [by subst|].
  by rewrite app_nil_r.
Qed.

Lemma gather_msgs es ms :
  bt_sorted es → Forall (λ e, ma_valid e.2.2) es → msgs_ok ms →
  let ms' := foldl (λ ms e, push_msg ms e.1 e.2) ms es in
  msgs_ok ms' ∧ ∀ k, msgs_for k ms' = msgs_for k ms ++ option_list (bt_get k es).
Proof.
  intros Hs Hv. revert ms. induction es as [|[k0 x] es IH]; intros ms Hok; simpl.
  { split; [done|]. intros k. by rewrite app_nil_r. }
  apply bt_sorted_cons in Hs as [Hs Hall]. apply Forall_cons in Hv as [Hx Hv].
  destruct (IH Hs Hv (push_msg ms k0 x)) as [Hok' Hm].
  { destruct Hok as [Hms Hval]. split; [by apply bt_sorted_insert|]. intros k.
    rewrite msgs_for_push. apply Forall_app. split; [done|]. by destruct (beqb k k0); repeat constructor. }
  split; [done|]. intros k. rewrite Hm, msgs_for_push, <- app_assoc. f_equal.
  bbool; [|done]. subst. by rewrite bt_get_lt.
Qed.

Lemma apply_key_messages_spec key l ki v :
  Forall (λ x, ma_valid x.2) l → (ki = None → v = None) →
  ∃ ki' d, apply_key_messages key l ki v = Some (ki', d) ∧ applied key l v = Some d ∧
    (ki' = None → d = None).
Proof.
  intros Hv. revert ki v. induction Hv as [|[ki0 m] l Hm _ IH]; intros ki v Hki; simpl; [by eauto 10|].
  destruct (ma_apply_total key m v Hm) as [d ->]. simpl. apply IH. by destruct ki.
Qed.

(** The value of a merged entry. *)
Definition entry_value k (e : option (list (KeyInfo * bytes)) * option (KeyInfo * bytes)) :
    option (option bytes) :=
  applied k (rev (default [] e.1)) (snd <$> e.2).

(** [res] lists the merged entries with their values. *)
Definition entries_done
    (items : list (bytes * (option (list (KeyInfo * bytes)) * option (KeyInfo * bytes))))
    (res : btree) : Prop :=
  bt_sorted res ∧
  ∀ k, match bt_get k items with
       | Some e => entry_value k e = Some (snd <$> bt_get k res)
       | None => bt_get k res = None
       end.

Lemma entries_done_cons k0 e items res (x : option (KeyInfo * bytes)) :
  Forall (λ e, k0 <ᵇ e.1) items → entries_done items res →
  entry_value k0 e = Some (snd <$> x) →
  entries_done ((k0, e) :: items) (option_list ((k0,.) <$> x) ++ res).
Proof.
  intros Hall [Hres Hg] Hx. assert (Forall (λ e, k0 <ᵇ e.1) res) as Hfront.
  { apply Forall_forall. intros [k y] Hin. apply (bt_get_Some _ _ _ Hres) in Hin. specialize (Hg k).
    destruct (bt_get k items) as [e'|] eqn:Ek; [|by rewrite Hin in Hg].
    apply bt_get_In in Ek. rewrite Forall_forall in Hall. by apply (Hall (k, e')). }
  split; [destruct x; [by apply bt_sorted_cons|done]|].
  intros k. simpl. bbool; [subst|].
  - rewrite Hx. destruct x; simpl; [by rewrite beqb_refl|]. by rewrite bt_get_lt.
  - destruct x; simpl; [|apply Hg]. bbool; try done; apply Hg.
Qed.

Lemma apply_entries_spec items data :
  bt_sorted items → Forall (λ e, Forall (λ x, ma_valid x.2) (default [] e.2.1)) items →
  ∃ res, apply_entries data items = Some (data ++ res) ∧ entries_done items res.
Proof.
  revert data. induction items as [|[k0 [l v]] items IH]; intros data Hs Hv.
  { exists []. rewrite app_nil_r. split; [done|]. split; [constructor|done]. }
  apply bt_sorted_cons in Hs as [Hs Hall]. apply Forall_cons in Hv as [Hl Hv]. simpl in *.
  destruct (apply_key_messages_spec k0 (rev (default [] l)) (fst <$> v) (snd <$> v))
    as (ki&d&Hap&Hd&Hki).
  { by apply Forall_rev. }
  { by destruct v. }
  rewrite Hap. simpl. destruct d as [d|].
  - destruct ki as [ki|]; [|by discriminate Hki]. simpl.
    destruct (IH (data ++ [(k0, (ki, d))]) Hs Hv) as (res&Ha&Hres). rewrite Ha.
    exists ((k0, (ki, d)) :: res). rewrite <- app_assoc. split; [done|].
    by apply (entries_done_cons k0 (l, v) items res (Some (ki, d))).
  - destruct (IH data Hs Hv) as (res&Ha&Hres). exists res. split; [done|].
    by apply (entries_done_cons k0 (l, v) items res None).
Qed.

Lemma apply_messages_spec lo hi ms leaf data :
  msgs_ok ms → bt_sorted leaf → (∀ k, bt_get k leaf ≠ None → in_range lo hi k) →
  ∃ res, apply_messages lo hi ms leaf data = Some (data ++ res) ∧ bt_sorted res ∧
    (∀ k, in_range lo hi k →
      applied k (rev (msgs_for k ms)) (leaf_val leaf k) = Some (snd <$> bt_get k res)) ∧
    (∀ k, bt_get k res ≠ None → in_range lo hi k ∨ lo = Some k).
Proof.
  intros [Hms Hval] Hleaf Hkeys. unfold apply_messages.
  set (low := λ k, match lo with None => false | Some min_key => bltb k min_key end).
  set (high := λ k, match hi with None => true | Some max_key => bleb k max_key end).
  change (take_while _ _) with (take_while (λ e, high e.1) (skip_while (λ e, low e.1) ms)).
  rewrite (skip_while_sorted low) by (first [done|unfold low; destruct lo; intros; bbool; try done; border]).
  rewrite (take_while_sorted high); [|by apply bt_sorted_filter|
    unfold high; destruct hi; intros; bbool; try done; border].
  set (it := bt_filter high _).
  assert (∀ k, bt_get k it = if negb (low k) && high k then bt_get k ms else None) as Hit.
  { intros k. unfold it. rewrite !bt_get_filter. by destruct (high k), (low k). }
  assert (bt_sorted it) as Hits by by apply bt_sorted_filter, bt_sorted_filter.
  destruct (merge_items_spec (S (length it + length leaf)) (merge_new it leaf))
    as (items&Hm&Hs&Hg); [done|done|unfold rest_i, rest_j; simpl; lia|].
  unfold rest_i, rest_j in Hg. simpl in Hg. rewrite Hm. simpl.
  destruct (apply_entries_spec items data Hs) as (res&Ha&Hres&Hr).
  { apply Forall_forall. intros [k e] Hin. apply (bt_get_Some _ _ _ Hs) in Hin. simpl.
    rewrite Hg, Hit in Hin. specialize (Hval k). unfold msgs_for in Hval.
    destruct (negb (low k) && high k), (bt_get k ms), (bt_get k leaf); simplify_eq/=; auto. }
  exists res. split_and!; [done|done| |].
  - intros k Hk%in_range_alt. specialize (Hr k). rewrite Hg, Hit in Hr.
    assert (negb (low k) && high k = true) as E.
    { unfold low, high. destruct lo, hi; destruct Hk; bbool; try done; border. }
    rewrite E in Hr. unfold msgs_for, leaf_val. unfold both, entry_value in Hr.
    destruct (bt_get k ms), (bt_get k leaf); simpl in *; try done. by rewrite Hr.
  - intros k Hk. specialize (Hr k). rewrite Hg, Hit in Hr.
    destruct (bt_get k leaf) eqn:El; [left; apply Hkeys; by rewrite El|].
    destruct (negb (low k) && high k) eqn:E; [|done]. clear -E Hms.
    unfold low, high in E. rewrite in_range_alt.
    destruct lo as [a|], hi as [b|]; simpl in *; bbool; try done; auto.
    all: destruct (bytes_total a k) as [|[->|]]; [by left|by right|border].
Qed.

(** ** The way to a leaf *)

(** The pivots of a subtree. *)
Fixpoint pivots (m : heap) (l : nat) (o : oid) : list bytes :=
  match l, m !! o with
  | S l, Some (CopylessInternal n) =>
      pivot (meta_data n) ++ concat ((λ c, pivots m l (or_id (cl_ptr c))) <$> children n)
  | _, _ => []
  end.

Lemma pivots_elem m l o n q :
  m !! o = Some (CopylessInternal n) →
  q ∈ pivots m (S l) o ↔
    q ∈ pivot (meta_data n) ∨ ∃ c, c ∈ children n ∧ q ∈ pivots m l (or_id (cl_ptr c)).
Proof.
  intros Ho. simpl. rewrite Ho, elem_of_app, (list_elem_of_In (concat _)), in_concat.
  apply or_iff_compat_l. split.
  - intros (qs&Hqs&Hq). apply list_elem_of_In, list_elem_of_fmap in Hqs as (c&->&Hc).
    exists c. split; [done|]. by apply list_elem_of_In.
  - intros (c&Hc&Hq). eexists. split; [|by apply list_elem_of_In].
    apply list_elem_of_In, list_elem_of_fmap. by exists c.
Qed.

(** Every pivot, and the upper bound, ends the range of a child. *)
Lemma ranges_end lo ps hi q :
  hi = Some q ∨ q ∈ ps → ∃ i r, ranges lo ps hi !! i = Some r ∧ r.2 = Some q.
Proof.
  revert lo. induction ps as [|p ps IH]; intros lo Hq; simpl.
  - exists 0%nat, (lo, hi). set_solver.
  - destruct (decide (q = p)) as [->|Hne]; [by exists 0%nat, (lo, Some p)|].
    destruct (IH (Some p)) as (i&r&Hi&Hr); [set_solver|]. by exists (S i), r.
Qed.

Lemma range_end_in lo hi n i r q :
  cover_ok lo hi n → ranges lo (pivot (meta_data n)) hi !! i = Some r → r.2 = Some q →
  in_range r.1 r.2 q.
Proof.
  intros [Hs Hall] Hi Er. rewrite in_range_alt, Er. split; [|by right].
  destruct r.1 eqn:E; [|done].
  rewrite <- (Forall_fmap fst (λ r, range_ok r.1 r.2)), (cover_fst lo hi n Hs) in Hall.
  eapply Forall_lookup_1 in Hi; [|exact Hall]. by apply Hi.
Qed.

(** A pivot in the range of a child is the end of this range. *)
Lemma pivot_ends_range lo hi n r c k q :
  cover_ok lo hi n → cover lo hi n !! idx n k = Some (r, c) →
  hi = Some q ∨ q ∈ pivot (meta_data n) → in_range r.1 r.2 q → r.2 = Some q.
Proof.
  intros Hc Hi Hq Hr. destruct (ranges_end lo _ _ _ Hq) as (j&r'&Hj&Er).
  pose proof (cover_sorted _ _ _ Hc) as Hs. apply cover_lookup in Hi as [Hi _].
  pose proof (range_end_in _ _ _ _ _ _ Hc Hj Er) as Hr'.
  assert (j = idx n k) as ->; [|congruence].
  by rewrite <- (pivot_idx_unique _ _ _ _ _ _ Hs Hj Hr'), (pivot_idx_unique _ _ _ _ _ _ Hs Hi Hr).
Qed.

(** The pivots below a node lie in its range. *)
Lemma pivots_in_range m l lo hi o q :
  tree_ok m l lo hi o → q ∈ pivots m l o → in_range lo hi q.
Proof.
  revert lo hi o. induction l as [|l IH]; intros lo hi o Ht Hq; [by apply not_elem_of_nil in Hq|].
  destruct Ht as (n&Ho&Hi&Hall). pose proof Hi as (Hs&_).
  pose proof (tree_cover_ok _ _ _ _ _ Hs Hall) as Hc.
  rewrite (pivots_elem _ _ _ _ _ Ho) in Hq. destruct Hq as [Hq|(c&Hin&Hq)].
  - destruct (ranges_end lo _ hi q (or_intror Hq)) as (i&r&Hr&Er).
    apply (ranges_in lo (pivot (meta_data n)) hi r); [|by eapply list_elem_of_lookup_2|].
    + rewrite <- (cover_fst lo hi n Hs). apply Forall_fmap, Hc.
    + by eapply range_end_in.
  - assert ((link_id c) ∈ (cover_ids lo hi n).*2) as He.
    { rewrite (cover_ids_snd lo hi n Hs). apply list_elem_of_fmap. by exists c. }
    apply list_elem_of_fmap in He as (e&Ee&He). rewrite Forall_forall in Hall.
    pose proof (Hall e He) as [_ Hsub]. apply (cover_ids_range lo hi n e q Hs Hc He).
    apply (IH _ _ _ Hsub). by rewrite <- Ee.
Qed.

Lemma ranges_bounds lo ps hi i r :
  ranges lo ps hi !! i = Some r →
  (match i with O => r.1 = lo | S j => ∃ p, ps !! j = Some p ∧ r.1 = Some p end) ∧
  r.2 = match ps !! i with Some p => Some p | None => hi end.
Proof.
  revert lo i. induction ps as [|p ps IH]; intros lo i; simpl.
  - destruct i as [|i]; [|done]. by intros [= <-].
  - destruct i as [|i]; simpl; [by intros [= <-]|]. intros Hi.
    destruct (IH _ _ Hi) as [Hl Hr]. split; [|done]. destruct i as [|i]; [by exists p|done].
Qed.

(** [get_range] returns the link of the key with its range. *)
Lemma in_get_range_cover lo hi n key r c :
  cover lo hi n !! idx n key = Some (r, c) → in_get_range n key lo hi = Some (c, r.1, r.2).
Proof.
  intros [Hr Hc]%cover_lookup. apply ranges_bounds in Hr as [Hl Hr]. unfold in_get_range.
  rewrite Hc, Hr. destruct (idx n key) as [|j]; [by rewrite Hl|].
  destruct Hl as (p&->&->). done.
Qed.

(** What one query finds: the entries of the leaf with range [a..b]. *)
Record leaf_found (m : heap) (l : nat) (lo hi : option bytes) (o : oid) key ms
    (a b : option bytes) (res : btree) : Prop := {
  lf_sorted : bt_sorted res;
  lf_key : in_range a b key;
  lf_within k : in_range a b k → in_range lo hi k;
  lf_values k : in_range a b k →
    (d ← den m l o k; applied k (rev (msgs_for k ms)) d) = Some (snd <$> bt_get k res);
  lf_keys k : bt_get k res ≠ None → in_range a b k ∨ a = Some k;
  lf_end : b = hi ∨ ∃ p, b = Some p ∧ p ∈ pivots m l o;
  lf_inside q : hi = Some q ∨ q ∈ pivots m l o → in_range a b q → b = Some q;
}.

Lemma leaf_found_here m lo hi o key ms b res :
  m !! o = Some (MemLeaf b) → in_range lo hi key → bt_sorted res →
  (∀ k, in_range lo hi k →
    applied k (rev (msgs_for k ms)) (leaf_val (buf_contents b) k) = Some (snd <$> bt_get k res)) →
  (∀ k, bt_get k res ≠ None → in_range lo hi k ∨ lo = Some k) →
  leaf_found m 0 lo hi o key ms lo hi res.
Proof.
  intros Ho Hk Hs Hv Hkeys. split; try done; [|by left|].
  - intros k Hin. simpl. rewrite Ho. by apply Hv.
  - intros q [Hq|Hq]; [done|]. by apply not_elem_of_nil in Hq.
Qed.

Lemma pivots_same_child m l lo hi o n c' c r key q :
  tree_ok m (S l) lo hi o → m !! o = Some (CopylessInternal n) → cover_ok lo hi n →
  cover lo hi n !! idx n key = Some (r, c) → in_range r.1 r.2 q → c' ∈ children n →
  q ∈ pivots m l (or_id (cl_ptr c')) → q ∈ pivots m l (or_id (cl_ptr c)).
Proof.
  intros (n0&Ho0&_&Hall) Ho Hc Hi Hr Hin Hq. rewrite Ho in Ho0. injection Ho0 as <-. pose proof Hc as [Hs _].
  assert (link_id c' ∈ (cover_ids lo hi n).*2) as He.
  { rewrite (cover_ids_snd lo hi n Hs). apply list_elem_of_fmap. by exists c'. }
  apply list_elem_of_fmap in He as ([r' e]&Ee&He). simpl in Ee. subst e.
  rewrite Forall_forall in Hall. pose proof (Hall _ He) as [_ Hsub].
  assert (in_range r'.1 r'.2 q) as Hr' by by eapply pivots_in_range.
  assert (cover_ids lo hi n !! idx n key = Some (r, link_id c)) as He'.
  { unfold cover_ids. by rewrite list_lookup_fmap, Hi. }
  apply list_elem_of_lookup in He as [j Hj].
  pose proof (cover_ids_unique _ _ _ _ _ _ Hc Hj Hr'). pose proof (cover_ids_unique _ _ _ _ _ _ Hc He' Hr).
  assert (j = idx n key) as -> by congruence. rewrite Hj in He'.
  injection He' as _ _ E. by rewrite <- E.
Qed.

Lemma leaf_found_below m l lo hi o n c r key ms ms' a b res :
  tree_ok m (S l) lo hi o → m !! o = Some (CopylessInternal n) → cover_ok lo hi n →
  cover lo hi n !! idx n key = Some (r, c) → tree_ok m l r.1 r.2 (or_id (cl_ptr c)) →
  (∀ k, msgs_for k ms' = msgs_for k ms ++ option_list (bt_get k (buf_contents (cl_buffer c)))) →
  leaf_found m l r.1 r.2 (or_id (cl_ptr c)) key ms' a b res →
  leaf_found m (S l) lo hi o key ms a b res.
Proof.
  intros Ht Ho Hc Hi Hsub Hms [Hs Hkey Hwithin Hv Hkeys Hend Hin].
  pose proof Hi as [_ Hch]%cover_lookup. pose proof Hc as [Hsh _].
  assert (∀ k, in_range r.1 r.2 k → idx n k = idx n key) as Hidx.
  { intros k Hk. pose proof Hi as [Hr _]%cover_lookup.
    by apply (pivot_idx_unique lo _ hi k _ r (cover_sorted _ _ _ Hc)). }
  assert ((r, (cl_buffer c, or_id (cl_ptr c))) ∈ cover_ids lo hi n) as He.
  { apply cover_ids_elem. exists c. split; [by eapply list_elem_of_lookup_2|done]. }
  split; try done.
  - intros k Hk. by apply (cover_ids_range lo hi n _ k Hsh Hc He), Hwithin.
  - intros k Hk. rewrite <- (Hv k Hk). simpl. rewrite Ho, (Hidx k) by auto. rewrite Hch. simpl.
    destruct (den m l _ k) as [d|]; simpl; [|done].
    rewrite Hms, rev_app_distr, applied_app. unfold msg_eff.
    destruct (bt_get k (buf_contents (cl_buffer c))) as [[ki x]|]; simpl; [|done].
    by destruct (ma_apply k x d).
  - destruct Hend as [->|(p&->&Hp)].
    + apply cover_lookup in Hi as [[_ Hr]%ranges_bounds _]. rewrite Hr.
      destruct (pivot (meta_data n) !! _) as [p|] eqn:Ep; [right|by left].
      exists p. split; [done|]. rewrite (pivots_elem _ _ _ _ _ Ho). left.
      by eapply list_elem_of_lookup_2.
    + right. exists p. split; [done|]. rewrite (pivots_elem _ _ _ _ _ Ho). right.
      exists c. split; [by eapply list_elem_of_lookup_2|done].
  - intros q Hq Hqr. rewrite (pivots_elem _ _ _ _ _ Ho) in Hq. apply Hin; [|done].
    pose proof (Hwithin q Hqr) as Hr. destruct Hq as [Hq|[Hq|(c'&Hc'&Hq)]];
      [left; by eapply pivot_ends_range; eauto..|]. right.
    by apply (pivots_same_child m l lo hi o n c' c r key q).
Qed.

(** The query of a leaf in a well-formed subtree. *)
Lemma leaf_range_loop_spec fuel s l lo hi np key ms data :
  tree_ok (objs s) l lo hi (or_id np) → in_range lo hi key → (l < fuel)%nat → msgs_ok ms →
  ∃ a b res, leaf_range_loop fuel s np key lo hi ms data = Some (b, data ++ res) ∧
    leaf_found (objs s) l lo hi (or_id np) key ms a b res.
Proof.
  revert lo hi np ms fuel.
  induction l as [|l IH]; intros lo hi np ms fuel Ht Hk Hf Hms; (destruct fuel as [|fuel]; [lia|]).
  - destruct Ht as (b&Hb&Hwf&_&Hkeys). simpl. unfold dml_get. rewrite Hb. simpl.
    rewrite (wf_iter _ _ Hwf). simpl.
    destruct (apply_messages_spec lo hi ms (buf_contents b) data) as (res&Ha&Hs&Hv&Hr);
      [done|apply Hwf|done|].
    rewrite Ha. simpl. exists lo, hi, res. split; [done|]. by apply (leaf_found_here _ _ _ _ _ _ b).
  - destruct (tree_find _ _ _ _ _ _ Ht Hk) as (n&c&r&Ho&_&Hc&Hch&Hcov&Hr&(_&Hwf&Hl&_)&Hsub).
    simpl. unfold dml_get. rewrite Ho. simpl. rewrite (in_get_range_cover _ _ _ _ _ _ Hcov). simpl.
    rewrite (wf_iter _ _ Hwf), andb_false_r. simpl.
    destruct (gather_msgs (buf_contents (cl_buffer c)) ms) as [Hok Hfor];
      [apply Hwf|by apply Hwf|done|].
    edestruct (IH r.1 r.2 (cl_ptr c)) as (a&b&res&Hloop&Hfound); [done|done| |exact Hok|].
    { instantiate (1 := fuel). lia. }
    exists a, b, res. split; [exact Hloop|]. by eapply leaf_found_below.
Qed.
End leaf.

(** ** The iteration *)

Section iterate.
Context `{Checksum} `{MessageActionLaws}.
Implicit Types (k : bytes) (it : RangeIterator).

(** Not past the last key. *)
Definition before (max_key : option bytes) k : Prop :=
  match max_key with Some y => k ≤ᵇ y | None => True end.

(** The keys left out between leaves: pivots, from [x] on, extended by a zero
    byte. *)
Definition skipped (ps : list bytes) (x k : bytes) : Prop :=
  ∃ p, p ∈ ps ∧ x ≤ᵇ p ∧ k = increment_pivot_key p.

Variables (t : Tree) (s : Store) (L fuel : nat).
Hypothesis Hinv : tree_inv t s L.
Hypothesis Hfuel : (L < fuel)%nat.

Definition tree_pivots : list bytes := pivots (objs s) L (or_id (root_node t)).

(** The entries an iterator with an empty buffer has still to return. *)
Definition wanted it k (v : bytes) : Prop :=
  value_of t s L k = Some (Some v) ∧ Bounded.in_front (min_key it) k = false ∧
  before (max_key it) k ∧ ¬ skipped tree_pivots (Bounded.key (min_key it)) k.

(** What [fill_buffer] puts into the buffer: the wanted entries up to the end
    [b] of a leaf. *)
Record filled it it' (b : option bytes) : Prop := {
  fl_max : max_key it' = max_key it;
  fl_sorted : bt_sorted (ri_buffer it');
  fl_entries k v : snd <$> bt_get k (ri_buffer it') = Some v ↔ wanted it k v ∧ before b k;
  fl_next : if finished it' then ∀ k v, wanted it k v → before b k
    else ∃ p, b = Some p ∧ p ∈ tree_pivots ∧ Bounded.key (min_key it) ≤ᵇ p ∧
      min_key it' = Bounded.Excluded (increment_pivot_key p);
}.

Lemma in_front_key b k : Bounded.in_front b k = false → Bounded.key b ≤ᵇ k.
Proof. destruct b; simpl; intros; bbool; try done. by left. Qed.

Lemma in_front_mono b k k' : k <ᵇ k' → Bounded.in_front b k' = true → Bounded.in_front b k = true.
Proof. destruct b; simpl; intros; bbool; try done; border. Qed.

(** The buffer after both ends are cut off. *)
Lemma cut_buffer (mn : Bounded.Bounded) (mx : option bytes) (res : btree) :
  bt_sorted res →
  let buf := skip_while (λ e, Bounded.in_front mn e.1) res in
  let buf := match mx with Some y => pop_back_while (λ e, bltb y e.1) buf | None => buf end in
  bt_sorted buf ∧
  ∀ k x, bt_get k buf = Some x ↔
    bt_get k res = Some x ∧ Bounded.in_front mn k = false ∧ before mx k.
Proof.
  intros Hs. cbv zeta.
  rewrite (skip_while_sorted (Bounded.in_front mn)); [|done|by apply in_front_mono].
  destruct mx as [y|].
  - rewrite (pop_back_while_sorted (bltb y)); [|by apply bt_sorted_filter|
      intros a b Hab Ha; bbool; try done; border].
    split; [by apply bt_sorted_filter, bt_sorted_filter|]. intros k x. rewrite !bt_get_filter.
    unfold before. destruct (bltb_spec y k); simpl.
    { split; [done|]. intros (_&_&?). exfalso. border. }
    destruct (Bounded.in_front mn k); naive_solver.
  - split; [by apply bt_sorted_filter|]. intros k x. rewrite bt_get_filter. simpl.
    destruct (Bounded.in_front mn k); naive_solver.
Qed.

(** From the smallest key on, the entries found in the leaf are the wanted
    ones. *)
Lemma found_wanted it a b res k v :
  leaf_found (objs s) L None None (or_id (root_node t)) (Bounded.key (min_key it)) [] a b res →
  Bounded.in_front (min_key it) k = false → before (max_key it) k →
  snd <$> bt_get k res = Some v ↔ wanted it k v ∧ before b k.
Proof.
  intros [_ Hkey _ Hv Hkeys _ Hin] Hmin Hmax. pose proof (in_front_key _ _ Hmin) as Hx.
  rewrite in_range_alt in Hkey. destruct Hkey as [Ha Hb].
  assert (∀ d, d = snd <$> bt_get k res → in_range a b k → value_of t s L k = Some d) as Hval.
  { intros d -> Hk. rewrite <- (Hv k Hk). unfold value_of. by destruct (den _ _ _ k). }
  split.
  - intros Hg. destruct (bt_get k res) as [[ki w]|] eqn:Ek; [|done]. injection Hg as ->.
    assert (in_range a b k) as Hk.
    { destruct (Hkeys k) as [?| ->]; [by rewrite Ek|done|border]. }
    pose proof Hk as Hk'. rewrite in_range_alt in Hk'. destruct Hk' as [Hak Hbk].
    split; [|done]. split_and!; [by apply Hval|done|done|]. intros (p&Hp&Hxp&->).
    assert (p <ᵇ increment_pivot_key p) as Hlt by (apply blt_succ).
    assert (b = Some p) as ->; [|border].
    apply Hin; [by right|]. rewrite in_range_alt. destruct a, b; split; try done; border.
  - intros [(Hw&_) Hbk]. assert (in_range a b k) as Hk.
    { rewrite in_range_alt. split; [|done]. destruct a; [|done]. border. }
    rewrite (Hval _ eq_refl Hk) in Hw. by injection Hw.
Qed.

Lemma fill_buffer_spec it :
  ri_buffer it = [] → finished it = false →
  ∃ it' b, fill_buffer fuel t s it = Some it' ∧ filled it it' b.
Proof.
  intros Hbuf Hfin. unfold fill_buffer, leaf_range_query. rewrite Hbuf, Hfin.
  destruct (leaf_range_loop_spec fuel s L None None (root_node t) (Bounded.key (min_key it)) [] [])
    as (a&b&res&->&Hf); [apply Hinv|done|done|apply msgs_ok_nil|].
  simpl. destruct (cut_buffer (min_key it) (max_key it) res) as [Hbs Hbg]; [apply Hf|].
  set (buf := match max_key it with Some y => _ | None => _ end) in Hbs, Hbg.
  assert (∀ k v, snd <$> bt_get k buf = Some v ↔ wanted it k v ∧ before b k) as Hent.
  { intros k v. rewrite fmap_Some. setoid_rewrite Hbg. split.
    - intros (e&(He&Hmn&Hmx)&->). apply (found_wanted it a b res); [done..|]. by rewrite He.
    - intros [Hw Hb]. pose proof Hw as (_&Hmn&Hmx&_).
      destruct (found_wanted it a b res k v) as [_ Hg]; [done..|].
      destruct (bt_get k res) as [e|]; [|by specialize (Hg (conj Hw Hb))].
      specialize (Hg (conj Hw Hb)). injection Hg as <-. by exists e. }
  assert (∀ k v, wanted it k v → before (max_key it) k) as Hmax by by intros k v (_&_&?&_).
  pose proof (lf_key _ _ _ _ _ _ _ _ _ _ Hf) as [_ Hxb]%in_range_alt.
  pose proof (lf_end _ _ _ _ _ _ _ _ _ _ Hf) as Hend.
  destruct b as [p|].
  - destruct Hend as [?|(p'&[= <-]&Hp)]; [done|]. destruct (max_key it) as [y|] eqn:Emx.
    + destruct (bleb_spec y p); (eexists _, (Some p); split; [done|]; split; try done).
      * simpl. intros k v Hw. specialize (Hmax k v Hw). simpl in *. border.
      * simpl. by exists p.
    + eexists _, (Some p). split; [done|]. split; try done. simpl. by exists p.
  - destruct (max_key it) eqn:Emx; eexists _, None; (split; [done|]); split; done.
Qed.

(** What is wanted behind the end of a leaf. *)
Lemma wanted_step it it' p k v :
  p ∈ tree_pivots → Bounded.key (min_key it) ≤ᵇ p → max_key it' = max_key it →
  min_key it' = Bounded.Excluded (increment_pivot_key p) →
  wanted it k v ∧ p <ᵇ k ↔ wanted it' k v.
Proof.
  intros Hp Hx Emx Emn. unfold wanted. rewrite Emx, Emn. simpl. unfold increment_pivot_key.
  pose proof (blt_succ p) as Hsucc.
  split.
  - intros [(Hv&Hmn&Hmx&Hsk) Hlt]. split_and!; try done.
    + assert (p ++ [zero] ≠ k). { intros <-. apply Hsk. by exists p. }
      apply ble_snoc_zero in Hlt. bbool; [|done]. exfalso. border.
    + intros (q&Hq&Hqx&->). apply Hsk. exists q. split_and!; try done.
      border.
  - intros (Hv&Hmn&Hmx&Hsk). assert (p ++ [zero] <ᵇ k) as Hlt by (bbool; [done|border]).
    assert (p <ᵇ k) as Hpk by border. split; [split_and!; try done|done].
    + destruct (min_key it); simpl in *; bbool; try done; border.
    + intros (q&Hq&Hqx&->). apply Hsk. exists q. split_and!; try done.
      by apply blt_snoc_zero in Hlt.
Qed.

(** The pivots from [x] on: they bound the leaves still to be read. *)
Definition ahead (x : bytes) : nat := length (filter (λ q, x ≤ᵇ q) tree_pivots).

Lemma ahead_step x p :
  p ∈ tree_pivots → x ≤ᵇ p → (ahead (increment_pivot_key p) < ahead x)%nat.
Proof.
  intros Hp Hx. unfold ahead. assert (p <ᵇ increment_pivot_key p) as Hlt by (apply blt_succ).
  induction tree_pivots as [|q l IH]; [by apply not_elem_of_nil in Hp|].
  assert ((length (filter (λ q, increment_pivot_key p ≤ᵇ q) l) ≤
    length (filter (λ q, x ≤ᵇ q) l))%nat) as Hle.
  { clear IH Hp. induction l as [|y l IH]; [done|]. rewrite !filter_cons.
    destruct (decide (_ ≤ᵇ y)), (decide (x ≤ᵇ y)); simpl; try lia. border. }
  rewrite !filter_cons. apply elem_of_cons in Hp as [<-|Hp].
  - rewrite decide_False by (intros ?; border). rewrite decide_True by done. simpl. lia.
  - specialize (IH Hp). destruct (decide (_ ≤ᵇ q)), (decide (x ≤ᵇ q)); simpl; try lia. border.
Qed.

(** [out] is what [next] returns, call by call, until it returns [None]. *)
Inductive yields (c : nat) : RangeIterator → list (bytes * bytes) → Prop :=
  | yields_end it it' :
      (∀ loops, (c ≤ loops)%nat → range_next loops fuel t s it = Some (None, it')) → yields c it []
  | yields_next it x it' out :
      (∀ loops, (c ≤ loops)%nat → range_next loops fuel t s it = Some (Some x, it')) →
      yields c it' out → yields c it (x :: out).

Lemma yields_mono c c' it out : (c ≤ c')%nat → yields c it out → yields c' it out.
Proof.
  intros Hc. induction 1 as [it it' Hn|it x it' out Hn _ IH].
  - apply (yields_end _ _ it'). intros loops ?. apply Hn. lia.
  - apply (yields_next _ _ _ it'); [|done]. intros loops ?. apply Hn. lia.
Qed.

Lemma yields_fill c it it' out :
  ri_buffer it = [] → finished it = false → fill_buffer fuel t s it = Some it' →
  yields c it' out → yields (S c) it out.
Proof.
  intros Hb Hf Hfill Hy.
  assert (∀ loops, (S c ≤ loops)%nat → ∃ loops', (c ≤ loops')%nat ∧
    range_next loops fuel t s it = range_next loops' fuel t s it') as Hn.
  { intros [|loops] Hl; [lia|]. exists loops. split; [lia|]. simpl. by rewrite Hb, Hf, Hfill. }
  destruct Hy as [it0 it1 Hn1|it0 x it1 out Hn1 Hy].
  - apply (yields_end _ _ it1). intros loops Hl. destruct (Hn _ Hl) as (?&?&->). auto.
  - apply (yields_next _ _ _ it1); [|apply (yields_mono c); [lia|done]].
    intros loops Hl. destruct (Hn _ Hl) as (?&?&->). auto.
Qed.

(** The entries of a buffer as they are returned. *)
Definition returned (buf : btree) : list (bytes * bytes) := (λ e, (e.1, e.2.2)) <$> buf.

Lemma yields_buffer c buf mn mx fin out :
  (1 ≤ c)%nat → yields c (mkIter [] mn mx fin) out →
  yields c (mkIter buf mn mx fin) (returned buf ++ out).
Proof.
  intros Hc Hy. induction buf as [|[k [ki v]] buf IH]; [done|].
  apply (yields_next _ _ _ (mkIter buf mn mx fin)); [|done].
  intros [|loops] Hl; [lia|done].
Qed.

Lemma yields_collect c it out loops n :
  yields c it out → (c ≤ loops)%nat → (length out < n)%nat →
  range_collect n loops fuel t s it = Some out.
Proof.
  intros Hy Hl. revert n. induction Hy as [it it' Hn|it x it' out Hn _ IH]; intros n Hlen;
    (destruct n as [|n]; [simpl in *; lia|]); simpl; rewrite (Hn _ Hl); simpl; [done|].
  rewrite IH by (simpl in *; lia). done.
Qed.

Lemma returned_elem buf k v :
  bt_sorted buf → (k, v) ∈ returned buf ↔ snd <$> bt_get k buf = Some v.
Proof.
  intros Hs. unfold returned. rewrite list_elem_of_fmap, fmap_Some. split.
  - intros ([k' x]&[= -> ->]&Hin). exists x. split; [|done]. by apply bt_get_Some.
  - intros (x&Hg&->). exists (k, x). split; [done|]. by apply bt_get_Some.
Qed.

Lemma returned_sorted buf : bt_sorted buf → bt_sorted (returned buf).
Proof. unfold bt_sorted, returned. by rewrite <- list_fmap_compose. Qed.

Lemma iteration c it :
  ri_buffer it = [] → finished it = false → (ahead (Bounded.key (min_key it)) ≤ c)%nat →
  ∃ out, yields (S (S c)) it out ∧ bt_sorted out ∧ ∀ k v, (k, v) ∈ out ↔ wanted it k v.
Proof.
  revert it. induction c as [c IH] using lt_wf_ind. intros it Hb Hf Hc.
  destruct (fill_buffer_spec it Hb Hf) as (it'&b&Hfill&[Hmx Hs Hent Hnext]).
  destruct it' as [buf mn mx fin]. simpl in *. subst mx.
  destruct fin.
  - exists (returned buf). split_and!.
    + eapply yields_fill; [done..|]. rewrite <- (app_nil_r (returned buf)).
      apply yields_buffer; [lia|]. eapply yields_end. intros [|loops] Hl; [lia|done].
    + by apply returned_sorted.
    + intros k v. rewrite returned_elem, Hent by done. split; [by intros []|eauto].
  - destruct Hnext as (p&->&Hp&Hxp&->). pose proof (ahead_step _ _ Hp Hxp) as Hlt.
    set (it1 := mkIter [] (Bounded.Excluded (increment_pivot_key p)) (max_key it) false).
    destruct (IH (pred c) ltac:(lia) it1) as (out&Hy&Hso&Hout); [done|done|simpl; lia|].
    pose proof (λ k v, wanted_step it it1 p k v Hp Hxp eq_refl eq_refl) as Hw.
    exists (returned buf ++ out). split_and!.
    + eapply yields_fill; [done..|]. apply yields_buffer; [lia|]. by replace (S c) with (S (S (pred c))) by lia.
    + apply bt_sorted_app; [by apply returned_sorted|done|]. intros [k v] [k' v'] Hk Hk'.
      apply returned_elem, Hent in Hk as [_ Hk]; [|done]. apply Hout, Hw in Hk' as [_ Hk']. simpl in *. border.
    + intros k v. rewrite elem_of_app, returned_elem, Hent, Hout, <- Hw by done. simpl.
      split; [naive_solver|]. intros Hwk.
      destruct (bytes_total p k) as [|[->|]]; [by right|left; split; [done|]..]; [by right|by left].
Qed.
End iterate.

(** ** What a range query returns *)

(** The end of a range as the iterator takes it: an excluded end counts as
    included, and so does its successor. *)
Definition up_to (b : Bound) (k : bytes) : Prop :=
  match b with
  | Unbounded => True
  | Included y => k ≤ᵇ y
  | Excluded y => k ≤ᵇ increment_pivot_key y
  end.

(** The end as the caller states it. *)
Definition ends_after (b : Bound) (k : bytes) : Prop :=
  match b with Unbounded => True | Included y => k ≤ᵇ y | Excluded y => k <ᵇ y end.

Definition starting_at (b : Bound) (k : bytes) : Prop :=
  match b with Unbounded => True | Included x => x ≤ᵇ k | Excluded x => x <ᵇ k end.

(** The smallest key the iterator looks for. *)
Definition first_key (b : Bound) : bytes :=
  match b with Unbounded => [] | Included x | Excluded x => x end.

Section results.
Context `{Checksum} `{MessageActionLaws}.

Lemma wanted_range t s L r k v :
  wanted t s L (range_iterator_new r) k v ↔
    value_of t s L k = Some (Some v) ∧ starting_at (start_bound r) k ∧ up_to (end_bound r) k ∧
    ¬ skipped (tree_pivots t s L) (first_key (start_bound r)) k.
Proof.
  unfold wanted. assert (Bounded.in_front (min_key (range_iterator_new r)) k = false ↔
    starting_at (start_bound r) k) as ->.
  { unfold range_iterator_new. simpl. destruct (start_bound r); simpl; bbool; split; try done; intros;
      try border. pose proof (ble_nil k). border. }
  assert (before (max_key (range_iterator_new r)) k ↔ up_to (end_bound r) k) as ->
    by (unfold range_iterator_new; simpl; by destruct (end_bound r)).
  unfold range_iterator_new. simpl. by destruct (start_bound r).
Qed.

(** [range] refuses only ranges without keys. *)
Lemma tree_range_invalid r k :
  is_inclusive_non_empty r = false → starting_at (start_bound r) k → ¬ ends_after (end_bound r) k.
Proof.
  unfold is_inclusive_non_empty. intros Hr Hs He.
  destruct (start_bound r), (end_bound r); simpl in *; bbool; try done; border.
Qed.

(** What the iterator returns. *)
Lemma range_collect_entries t s L fuel loops r :
  tree_inv t s L → (L < fuel)%nat → (length (tree_pivots t s L) + 2 ≤ loops)%nat →
  ∃ out,
    (∀ n, (length out < n)%nat →
      range_collect n loops fuel t s (range_iterator_new r) = Some out) ∧
    bt_sorted out ∧
    ∀ k v, (k, v) ∈ out ↔
      value_of t s L k = Some (Some v) ∧
      starting_at (start_bound r) k ∧ up_to (end_bound r) k ∧
      ¬ skipped (tree_pivots t s L) (first_key (start_bound r)) k.
Proof.
  intros Hinv Hf Hl.
  destruct (iteration t s L fuel Hinv Hf (length (tree_pivots t s L)) (range_iterator_new r))
    as (out&Hy&Hs&Hout); [done|done|apply length_filter|].
  exists out. split_and!; [|done|].
  - intros n Hn. eapply yields_collect; [exact Hf|exact Hy|lia|done].
  - intros k v. by rewrite Hout, wanted_range.
Qed.

(** C15: a range query returns the entries of the range.  A range is refused
    only if no key can be in it.  Else, on a well-formed tree, no step panics
    and the iteration ends; it returns, sorted by key and each key once,
    exactly the keys from the start to the end that have a value, with the
    values that [get] returns for them.  Two things differ from the range
    that was asked for: an excluded end (and its successor) is returned, and
    keys that extend a pivot of the tree by a zero byte are not.  A call of
    [next] reads at most one leaf more than there are pivots. *)
Theorem range_returns_entries t s L fuel loops r :
  tree_inv t s L → (L < fuel)%nat → (length (tree_pivots t s L) + 2 ≤ loops)%nat →
  match tree_range r with
  | inr _ => ∀ k, starting_at (start_bound r) k → ¬ ends_after (end_bound r) k
  | inl it =>
      ∃ out,
        (∀ n, (length out < n)%nat → range_collect n loops fuel t s it = Some out) ∧
        bt_sorted out ∧
        ∀ k v, (k, v) ∈ out ↔
          tree_get fuel t s k = Some (Some v) ∧
          starting_at (start_bound r) k ∧ up_to (end_bound r) k ∧
          ¬ skipped (tree_pivots t s L) (first_key (start_bound r)) k
  end.
Proof.
  intros Hinv Hf Hl. unfold tree_range.
  destruct (is_inclusive_non_empty r) eqn:Er; simpl; [|by intros k; apply tree_range_invalid].
  destruct (range_collect_entries t s L fuel loops r Hinv Hf Hl) as (out&Hc&Hs&Hout).
  exists out. split_and!; [done..|]. intros k v.
  by rewrite Hout, (tree_get_value fuel t s L k Hinv Hf).
Qed.
End results.

Module RangeExamples.
Import PolyHash BufferExamples TreeExamples.

(** Two keys inserted into a tree of two leaves with the pivot 2. *)
Definition succ_key : bytes := [Byte.x02; Byte.x00].

Definition stored (s : Store) (k v : bytes) : Store :=
  match insert_message 5 tree1 s k (put v) Pref.FAST with Some (s, _) => s | None => s end.

Definition two_keys : Store :=
  stored (stored small_store succ_key [Byte.x0a]) (key Byte.x05) [Byte.x0b].

Lemma stored_ok s k v :
  tree_inv tree1 s 1 →
  (∀ nd, objs s !! or_id (root_node tree1) = Some nd → root_needs_merge nd = false) →
  tree_inv tree1 (stored s k v) 1.
Proof.
  intros Hs Hr. unfold stored.
  destruct (insert_message_ok 5 tree1 s 1 k (put v) Pref.FAST) as (s'&node&parent&l&r&Hi&Hok&_);
    [done|lia|apply put_valid|by apply Pref.validb_spec|done|]. by rewrite Hi.
Qed.

Lemma two_keys_ok : tree_inv tree1 two_keys 1.
Proof.
  apply stored_ok; [apply stored_ok; [apply small_ok|]|]; vm_compute; by intros nd [= <-].
Qed.

Lemma range_returns_entries_witness :
  range_collect 2 3 2 tree1 two_keys (range_iterator_new (mkRange Unbounded Unbounded)) =
    Some [(key Byte.x05, [Byte.x0b])].
Proof.
  destruct (range_returns_entries tree1 two_keys 1 2 3 (mkRange Unbounded Unbounded))
    as (out&Hc&_).
  - apply two_keys_ok.
  - lia.
  - vm_compute. lia.
  - specialize (Hc (S (length out)) ltac:(lia)). by vm_compute.
Defined.

(** A range query can return a key outside its range and miss one inside.
    The tree holds the keys 2.0 and 5, and [get] finds both; the query for all
    keys before 5 returns 5 and not 2.0. *)
Theorem range_differs_from_request :
  tree_inv tree1 two_keys 1 ∧
  tree_get 2 tree1 two_keys succ_key = Some (Some [Byte.x0a]) ∧
  tree_get 2 tree1 two_keys (key Byte.x05) = Some (Some [Byte.x0b]) ∧
  range_collect 2 3 2 tree1 two_keys
      (range_iterator_new (mkRange Unbounded (Excluded (key Byte.x05)))) =
    Some [(key Byte.x05, [Byte.x0b])].
Proof. split_and!; [apply two_keys_ok|by vm_compute..]. Qed.
End RangeExamples.
