(* ===== verification/Disk.v ===== *)
(** * Blocks and disk offsets

    [vdev/block.rs] (sizes in blocks of 4 KiB) and
    [storage_pool/disk_offset.rs] (the 64-bit address of a block: 2 bits of
    storage class, 10 bits of disk number, 52 bits of block number).

    A [Block<T>] is its number; the operations that can overflow take the
    number of values of [T] ([U32_SIZE], [U64_SIZE]).  Shifts of a [u64] drop
    the bits that leave the word, also in a debug build, which is written out
    with [wrap64]. *)

From Stdlib Require Import ZArith Lia.
From stdpp Require Import base option list numbers.
From S2P Require Import Prelude.

(** ** Blocks *)

Definition BLOCK_SIZE : Z := 4096.

Module Block.

(** [Block::from_bytes]: a debug assertion on the multiple. *)
Definition from_bytes (bytes : Z) : option Z :=
  assert! (bytes mod BLOCK_SIZE =? 0);
  Some (bytes / BLOCK_SIZE).

Definition round_up_from_bytes (bytes : Z) : Z :=
  let full_blocks := bytes / BLOCK_SIZE in
  if bytes mod BLOCK_SIZE =? 0 then full_blocks else full_blocks + 1.

Definition to_bytes (width b : Z) : option Z := umul width b BLOCK_SIZE.

(** [Block<u32> * u32] *)
Definition mul (width b rhs : Z) : option Z := umul width b rhs.

End Block.

(** ** Disk offsets *)

Module DiskOffset.

Definition MASK_STORAGE_CLASS : Z := Z.shiftl (Z.shiftl 1 2 - 1) (10 + 52).
Definition MASK_DISK_ID : Z := Z.shiftl (Z.shiftl 1 10 - 1) 52.
Definition MASK_OFFSET : Z := Z.shiftl 1 52 - 1.
Definition MASK_CLASS_DISK_ID_COMBINED : Z := Z.shiftl (Z.shiftl 1 12 - 1) 52.

(** [DiskOffset(u64)] *)
Record DiskOffset := mk { raw : Z }.

(** [GlobalDiskId(u16)] *)
Record GlobalDiskId := mkDisk { gid : Z }.

(** [DiskOffset::new]: only the block number is checked. *)
Definition new (storage_class disk_id block_offset : Z) : option DiskOffset :=
  assert! (Z.land block_offset (Z.lnot MASK_OFFSET) =? 0);
  Some (mk (Z.lor (Z.lor (wrap64 (Z.shiftl storage_class (52 + 10)))
                         (wrap64 (Z.shiftl disk_id 52)))
                  block_offset)).

Definition storage_class (o : DiskOffset) : Z :=
  wrap8 (Z.shiftr (Z.land (raw o) MASK_STORAGE_CLASS) (52 + 10)).

Definition disk_id (o : DiskOffset) : Z :=
  wrap16 (Z.shiftr (Z.land (raw o) MASK_DISK_ID) 52).

Definition class_disk_id (o : DiskOffset) : GlobalDiskId :=
  mkDisk (wrap16 (Z.shiftr (Z.land (raw o) MASK_CLASS_DISK_ID_COMBINED) 52)).

Definition block_offset (o : DiskOffset) : Z := Z.land (raw o) MASK_OFFSET.

Definition as_u64 (o : DiskOffset) : Z := raw o.

Definition from_u64 (x : Z) : DiskOffset := mk x.

(** [construct_disk_id]: [(class as u16) << 10] drops high bits. *)
Definition construct_disk_id (class disk_id : Z) : GlobalDiskId :=
  mkDisk (Z.lor (wrap16 (Z.shiftl class 10)) disk_id).

End DiskOffset.

#[global] Instance GlobalDiskId_eq_dec : EqDecision DiskOffset.GlobalDiskId.
Proof. solve_decision. Defined.

(** ** Lemmas *)

Lemma round_up_bounds b :
  BLOCK_SIZE * (Block.round_up_from_bytes b - 1) < b ≤ BLOCK_SIZE * Block.round_up_from_bytes b.
Proof.
  unfold Block.round_up_from_bytes, BLOCK_SIZE.
  pose proof (Z.div_mod b 4096 ltac:(lia)). pose proof (Z.mod_pos_bound b 4096 ltac:(lia)).
  zbool; lia.
Qed.

Section Fields.
Import DiskOffset.

(** The address as a number in mixed base. *)
Lemma new_value c d b :
  0 ≤ c < 4 → 0 ≤ d < 1024 → 0 ≤ b < 2 ^ 52 →
  new c d b = Some (mk (c * 2 ^ 62 + d * 2 ^ 52 + b)).
Proof.
  intros Hc Hd Hb. unfold new, MASK_OFFSET.
  change (Z.shiftl 1 52 - 1) with (Z.ones 52).
  rewrite land_lnot_ones, Z.mod_small, Z.sub_diag by lia. simpl. do 2 f_equal.
  unfold wrap64. change (52 + 10) with 62.
  rewrite (Z.mod_small (Z.shiftl c 62)), (Z.mod_small (Z.shiftl d 52))
    by (rewrite Z.shiftl_mul_pow2; lia).
  rewrite <- Z.lor_assoc, (lor_field d), lor_field; lia.
Qed.

Lemma storage_class_div x : 0 ≤ x < U64_SIZE → storage_class (mk x) = x / 2 ^ 62.
Proof.
  unfold U64_SIZE. intros Hx. unfold storage_class, MASK_STORAGE_CLASS.
  change (Z.shiftl 1 2 - 1) with (Z.ones 2). change (10 + 52) with 62.
  change (52 + 10) with 62. cbn [raw]. rewrite field_mod by lia.
  unfold wrap8. assert (0 ≤ x / 2 ^ 62 < 4).
  { split; [apply Z.div_pos; lia|apply Z.div_lt_upper_bound; lia]. }
  change (2 ^ 2) with 4. rewrite (Z.mod_small (x / _) 4) by lia. apply Z.mod_small. lia.
Qed.

Lemma disk_id_div x : disk_id (mk x) = (x / 2 ^ 52) mod 1024.
Proof.
  unfold disk_id, MASK_DISK_ID. change (Z.shiftl 1 10 - 1) with (Z.ones 10).
  cbn [raw]. rewrite field_mod by lia. unfold wrap16.
  change (2 ^ 10) with 1024. pose proof (Z.mod_pos_bound (x / 2 ^ 52) 1024 ltac:(lia)).
  apply Z.mod_small. lia.
Qed.

Lemma class_disk_id_div x :
  0 ≤ x < U64_SIZE → class_disk_id (mk x) = mkDisk (x / 2 ^ 52).
Proof.
  unfold U64_SIZE. intros Hx. unfold class_disk_id, MASK_CLASS_DISK_ID_COMBINED.
  change (Z.shiftl 1 12 - 1) with (Z.ones 12). cbn [raw]. rewrite field_mod by lia.
  unfold wrap16. assert (0 ≤ x / 2 ^ 52 < 4096).
  { split; [apply Z.div_pos; lia|apply Z.div_lt_upper_bound; lia]. }
  f_equal. change (2 ^ 12) with 4096. rewrite (Z.mod_small (x / _) 4096) by lia.
  apply Z.mod_small. lia.
Qed.

Lemma block_offset_mod x : block_offset (mk x) = x mod 2 ^ 52.
Proof.
  unfold block_offset, MASK_OFFSET. change (Z.shiftl 1 52 - 1) with (Z.ones 52).
  cbn [raw]. by rewrite Z.land_ones.
Qed.

Lemma construct_disk_id_value c d :
  0 ≤ c < 4 → 0 ≤ d < 1024 → construct_disk_id c d = mkDisk (c * 1024 + d).
Proof.
  intros Hc Hd. unfold construct_disk_id, wrap16. f_equal.
  rewrite Z.mod_small by (rewrite Z.shiftl_mul_pow2; lia). rewrite lor_field; lia.
Qed.

End Fields.

(** ** Properties *)

(** A disk offset keeps its parts.  For a 2-bit storage class, a 10-bit
    disk number and a 52-bit block number, [DiskOffset::new] does not panic,
    its accessors return the parts, and the combined disk number of the
    offset is the one [construct_disk_id] builds, which separates disks: two
    offsets have the same combined number exactly when class and disk agree. *)
Theorem disk_offset_parts c d b :
  0 ≤ c < 4 → 0 ≤ d < 1024 → 0 ≤ b < 2 ^ 52 →
  ∃ o, DiskOffset.new c d b = Some o ∧
    DiskOffset.storage_class o = c ∧ DiskOffset.disk_id o = d ∧
    DiskOffset.block_offset o = b ∧ 0 ≤ DiskOffset.as_u64 o < U64_SIZE ∧
    DiskOffset.class_disk_id o = DiskOffset.construct_disk_id c d ∧
    ∀ c' d', 0 ≤ c' < 4 → 0 ≤ d' < 1024 →
      DiskOffset.construct_disk_id c' d' = DiskOffset.class_disk_id o ↔ c' = c ∧ d' = d.
Proof.
  intros Hc Hd Hb. rewrite new_value by done. eexists. split; [done|].
  assert (0 ≤ c * 2 ^ 62 + d * 2 ^ 52 + b < U64_SIZE) as Hx by (unfold U64_SIZE; lia).
  assert ((c * 2 ^ 62 + d * 2 ^ 52 + b) / 2 ^ 52 = c * 1024 + d) as Hq.
  { symmetry. apply Z.div_unique with b; lia. }
  rewrite storage_class_div, disk_id_div, block_offset_mod, class_disk_id_div by done.
  rewrite Hq, construct_disk_id_value by done. repeat split; try (unfold DiskOffset.as_u64; simpl; lia).
  - symmetry. apply Z.div_unique with (d * 2 ^ 52 + b); lia.
  - symmetry. apply Z.mod_unique with c; lia.
  - symmetry. apply Z.mod_unique with (c * 1024 + d); lia.
  - rewrite construct_disk_id_value in * by lia. injection H1 as H1. lia.
  - rewrite construct_disk_id_value in * by lia. injection H1 as H1. lia.
  - intros [-> ->]. by rewrite construct_disk_id_value.
Qed.

Lemma disk_offset_parts_witness :
  ∃ o, DiskOffset.new 1 42 189631 = Some o ∧ DiskOffset.disk_id o = 42.
Proof.
  destruct (disk_offset_parts 1 42 189631) as (o & Ho & _ & Hd & _); [lia..|].
  by exists o.
Defined.

(** A disk number of more than 10 bits is not refused: it spills into the
    storage class. *)
Theorem disk_offset_spills :
  ∃ o, DiskOffset.new 0 1024 0 = Some o ∧
    DiskOffset.storage_class o = 1 ∧ DiskOffset.disk_id o = 0.
Proof. eexists. split; [reflexivity|]. split; reflexivity. Qed.
