(* ===== verification/Allocator.v ===== *)
(** * The segment allocator

    [allocator.rs]: the first-fit allocator of one segment of 2^18 blocks
    (1 GiB), a bitmap with a sorted list of the free runs, and the numbering
    of the segments of a disk ([SegmentId]).

    The bitmap is the byte array of the source, read and written through its
    [Lsb0] bit view ([bit_at], [fill_bits]); a run is a pair of offset and
    size.  The scan that builds the list has fuel for the whole segment
    ([scan_fuel]); [alloc_new_ok] shows that it is enough. *)

From Stdlib Require Import ZArith Lia.
From stdpp Require Import base option list numbers.
From S2P Require Import Prelude.
From S2P Require Import Bytes.
From S2P Require Import Disk.

Definition SEGMENT_SIZE_LOG_2 : Z := 18.
Definition SEGMENT_SIZE : Z := Z.shiftl 1 SEGMENT_SIZE_LOG_2.
Definition SEGMENT_SIZE_BYTES : Z := SEGMENT_SIZE / 8.
Definition SEGMENT_SIZE_MASK : Z := SEGMENT_SIZE - 1.

Inductive Action := Deallocate | Allocate.

Definition as_bool (a : Action) : bool :=
  match a with Deallocate => false | Allocate => true end.

Record SegmentAllocator := mkAlloc {
  bitmap : bytes;
  free_segments : list (Z * Z);
}.

(** [range.any()] and [range.all()] on the bits [start..start + n]. *)
Fixpoint bits_any (d : bytes) (start : Z) (n : nat) : bool :=
  match n with
  | O => false
  | S n => bit_at d start || bits_any d (start + 1) n
  end.

Fixpoint bits_all (d : bytes) (start : Z) (n : nat) : bool :=
  match n with
  | O => true
  | S n => bit_at d start && bits_all d (start + 1) n
  end.

(** [mark]: the slice of the bitmap is bounds checked, the assertion is a
    debug assertion. *)
Definition mark (a : SegmentAllocator) (offset size : Z) (action : Action) :
    option SegmentAllocator :=
  end_idx ← u32_add offset size;
  assert! (end_idx <=? SEGMENT_SIZE);
  assert! (match action with
           | Allocate => negb (bits_any (bitmap a) offset (Z.to_nat size))
           | Deallocate => bits_all (bitmap a) offset (Z.to_nat size)
           end);
  Some (mkAlloc (fill_bits (bitmap a) offset (Z.to_nat size) (as_bool action))
                (free_segments a)).

(** The inner loop of [initialize_free_segments]: the end of the free run
    and its length. *)
Fixpoint free_run (fuel : nat) (d : bytes) (offset current_size : Z) : option (Z * Z) :=
  match fuel with
  | O => None
  | S fuel =>
      if (offset <? SEGMENT_SIZE) && negb (bit_at d offset)
      then free_run fuel d (offset + 1) (current_size + 1)
      else Some (offset, current_size)
  end.

Fixpoint scan (fuel : nat) (d : bytes) (offset : Z) (free : list (Z * Z)) :
    option (list (Z * Z)) :=
  match fuel with
  | O => None
  | S fuel =>
      if offset <? SEGMENT_SIZE then
        if negb (bit_at d offset) then
          '(offset', current_size) ← free_run fuel d offset 0;
          scan fuel d offset' (free ++ [(offset, current_size)])
        else scan fuel d (offset + 1) free
      else Some free
  end.

Definition scan_fuel : nat := S (S (Z.to_nat SEGMENT_SIZE)).

Definition initialize_free_segments (a : SegmentAllocator) : option SegmentAllocator :=
  free ← scan scan_fuel (bitmap a) 0 (free_segments a);
  Some (mkAlloc (bitmap a) free).

(** [SegmentAllocator::new] *)
Definition alloc_new (bitmap : bytes) : option SegmentAllocator :=
  initialize_free_segments (mkAlloc bitmap []).

(** The loop of [allocate] from position [i] of the list, [n] entries left. *)
Fixpoint allocate_from (n i : nat) (a : SegmentAllocator) (size : Z) :
    option (option Z * SegmentAllocator) :=
  match n with
  | O => Some (None, a)
  | S n =>
      '(offset, segment_size) ← free_segments a !! i;
      if size <=? segment_size then
        a ← mark a offset size Allocate;
        offset' ← u32_add offset size;
        segment_size' ← usub segment_size size;
        free ← vec_set i (offset', segment_size') (free_segments a);
        Some (Some offset, mkAlloc (bitmap a) free)
      else allocate_from n (S i) a size
  end.

Definition allocate (a : SegmentAllocator) (size : Z) : option (option Z * SegmentAllocator) :=
  if size =? 0 then Some (Some 0, a)
  else allocate_from (length (free_segments a)) 0 a size.

(** The loop of [allocate_at]: perfect fit, at the beginning, at the end, in
    the middle of a run. *)
Fixpoint allocate_at_from (n i : nat) (a : SegmentAllocator) (size offset : Z) :
    option (bool * SegmentAllocator) :=
  match n with
  | O => Some (false, a)
  | S n =>
      '(seg_offset, seg_size) ← free_segments a !! i;
      if (seg_offset =? offset) && (seg_size =? size) then
        '(_, free) ← vec_remove i (free_segments a);
        a ← mark (mkAlloc (bitmap a) free) offset size Allocate;
        Some (true, a)
      else if (seg_offset =? offset) && (size <? seg_size) then
        seg_offset' ← u32_add seg_offset size;
        seg_size' ← usub seg_size size;
        free ← vec_set i (seg_offset', seg_size') (free_segments a);
        a ← mark (mkAlloc (bitmap a) free) offset size Allocate;
        Some (true, a)
      else
        stop ← u32_add offset size;
        seg_end ← u32_add seg_offset seg_size;
        if (seg_offset <? offset) && (stop =? seg_end) then
          seg_size' ← usub seg_size size;
          free ← vec_set i (seg_offset, seg_size') (free_segments a);
          a ← mark (mkAlloc (bitmap a) free) offset size Allocate;
          Some (true, a)
        else if (seg_offset <? offset) && (offset <? seg_end) && (stop <? seg_end) then
          front ← usub offset seg_offset;
          used ← u32_add size front;
          remaining_size ← usub seg_size used;
          free ← vec_set i (seg_offset, front) (free_segments a);
          free ← vec_insert (S i) (stop, remaining_size) free;
          a ← mark (mkAlloc (bitmap a) free) offset size Allocate;
          Some (true, a)
        else allocate_at_from n (S i) a size offset
  end.

Definition allocate_at (a : SegmentAllocator) (size offset : Z) :
    option (bool * SegmentAllocator) :=
  if size =? 0 then Some (true, a)
  else
    stop ← u32_add offset size;
    if SEGMENT_SIZE <? stop then Some (false, a)
    else if bits_any (bitmap a) offset (Z.to_nat size) then Some (false, a)
    else allocate_at_from (length (free_segments a)) 0 a size offset.

(** ** Segments *)

Module SegmentId.

(** [SegmentId(u64)] *)
Record SegmentId := mk { seg : Z }.

Definition get (offset : DiskOffset.DiskOffset) : SegmentId :=
  mk (Z.land (DiskOffset.as_u64 offset) (Z.lnot SEGMENT_SIZE_MASK)).

(** [offset.as_u64() as u32 & SEGMENT_SIZE_MASK as u32] *)
Definition get_block_offset (offset : DiskOffset.DiskOffset) : Z :=
  Z.land (wrap32 (DiskOffset.as_u64 offset)) (wrap32 SEGMENT_SIZE_MASK).

Definition as_disk_offset (s : SegmentId) : DiskOffset.DiskOffset :=
  DiskOffset.from_u64 (seg s).

Definition disk_offset (s : SegmentId) (segment_offset : Z) : option DiskOffset.DiskOffset :=
  x ← u64_add (seg s) segment_offset;
  Some (DiskOffset.from_u64 x).

(** [key]: the two lower bytes have to be null and are left out. *)
Definition key (s : SegmentId) (key_prefix : bytes) : option bytes :=
  let segment_key := be64 (seg s) in
  assert! bool_decide (drop 6 segment_key = [zero; zero]);
  Some (key_prefix ++ take 6 segment_key).

Definition disk_id (s : SegmentId) : Z := DiskOffset.disk_id (as_disk_offset s).

(** [next]: wraps around at the end of the disk. *)
Definition next (s : SegmentId) (disk_size : Z) : option SegmentId :=
  let disk_offset := as_disk_offset s in
  end_ ← u64_add (DiskOffset.block_offset disk_offset) SEGMENT_SIZE;
  if disk_size <=? end_ then
    first ← DiskOffset.new (DiskOffset.storage_class disk_offset)
                           (DiskOffset.disk_id disk_offset) 0;
    Some (get first)
  else
    x ← u64_add (seg s) SEGMENT_SIZE;
    Some (mk x).

End SegmentId.

#[global] Instance SegmentId_eq_dec : EqDecision SegmentId.SegmentId.
Proof. solve_decision. Defined.

(** ** The invariant

    [runs lo hi l]: the runs of [l] lie in [lo..hi], in order, and between
    two of them lies at least one block that is in none. *)

Fixpoint runs (lo hi : Z) (l : list (Z * Z)) : Prop :=
  match l with
  | [] => True
  | r :: l => lo ≤ r.1 ∧ 0 ≤ r.2 ∧ r.1 + r.2 ≤ hi ∧ runs (r.1 + r.2 + 1) hi l
  end.

(** Block [k] lies in one of the runs. *)
Definition covered (l : list (Z * Z)) (k : Z) : Prop :=
  ∃ r, r ∈ l ∧ r.1 ≤ k < r.1 + r.2.

(** The list describes the clear bits of the bitmap. *)
Record alloc_ok (a : SegmentAllocator) : Prop := {
  ok_len : blen (bitmap a) = SEGMENT_SIZE_BYTES;
  ok_runs : runs 0 SEGMENT_SIZE (free_segments a);
  ok_free : ∀ k, 0 ≤ k < SEGMENT_SIZE →
    bit_at (bitmap a) k = false ↔ covered (free_segments a) k;
}.

(** All blocks of the range are free. *)
Definition range_free (a : SegmentAllocator) (offset size : Z) : Prop :=
  0 ≤ offset ∧ offset + size ≤ SEGMENT_SIZE ∧
  ∀ k, offset ≤ k < offset + size → bit_at (bitmap a) k = false.

(** ** Bits *)

Lemma bits_any_false d s n :
  bits_any d s n = false ↔ ∀ k, s ≤ k < s + Z.of_nat n → bit_at d k = false.
Proof.
  revert s; induction n as [|n IH]; intros s; simpl.
  - split; [lia|done].
  - rewrite orb_false_iff, IH. split.
    + intros [H0 H] k Hk. destruct (decide (k = s)) as [->|]; [done|]. apply H. lia.
    + intros H. split; [apply H; lia|]. intros k Hk. apply H. lia.
Qed.

Lemma segment_size_eq : SEGMENT_SIZE = 262144.
Proof. reflexivity. Qed.

Lemma segment_bytes_eq : 8 * SEGMENT_SIZE_BYTES = SEGMENT_SIZE.
Proof. reflexivity. Qed.

#[global] Opaque SEGMENT_SIZE SEGMENT_SIZE_BYTES.

(** ** Runs *)

Lemma runs_mono lo lo' hi l : lo' ≤ lo → runs lo hi l → runs lo' hi l.
Proof. destruct l as [|r l]; simpl; [done|]. intros ? (?&?&?&?). repeat split; try done; lia. Qed.

Lemma runs_widen lo hi hi' l : hi ≤ hi' → runs lo hi l → runs lo hi' l.
Proof.
  intros Hhi. revert lo; induction l as [|r l IH]; intros lo; simpl; [done|].
  intros (?&?&?&?). repeat split; auto; lia.
Qed.

Lemma covered_app l1 l2 k : covered (l1 ++ l2) k ↔ covered l1 k ∨ covered l2 k.
Proof. unfold covered. setoid_rewrite elem_of_app. naive_solver. Qed.

Lemma covered_cons r l k : covered (r :: l) k ↔ r.1 ≤ k < r.1 + r.2 ∨ covered l k.
Proof. unfold covered. setoid_rewrite elem_of_cons. naive_solver. Qed.

Lemma covered_nil k : covered [] k ↔ False.
Proof. unfold covered. set_solver. Qed.

Lemma runs_covered lo hi l k : runs lo hi l → covered l k → lo ≤ k < hi.
Proof.
  revert lo; induction l as [|r l IH]; intros lo; simpl.
  - by rewrite covered_nil.
  - intros (?&?&?&Hl) [Hk|Hk]%covered_cons; [lia|]. specialize (IH _ Hl Hk). lia.
Qed.

(** The runs around a run in the list. *)
Lemma runs_split lo hi l1 r l2 :
  runs lo hi (l1 ++ r :: l2) →
  lo ≤ r.1 ∧ 0 ≤ r.2 ∧ r.1 + r.2 ≤ hi ∧
  (∀ k, covered l1 k → k < r.1) ∧ runs (r.1 + r.2 + 1) hi l2.
Proof.
  revert lo; induction l1 as [|q l1 IH]; intros lo; simpl.
  - intros (?&?&?&?). repeat split; try done. by intros k ?%covered_nil.
  - intros (?&?&?&(?&?&?&H4&?)%IH). repeat split; try done; [lia|].
    intros k [Hk|Hk]%covered_cons; [lia|auto].
Qed.

(** Runs below a bound in front of runs above it. *)
Lemma runs_append lo hi mid new l :
  lo ≤ mid + 1 → mid ≤ hi → runs lo mid new → runs (mid + 1) hi l → runs lo hi (new ++ l).
Proof.
  intros Hlo Hhi Hn Hl. revert lo Hlo Hn; induction new as [|q new IH]; intros lo Hlo; simpl.
  - intros _. by eapply runs_mono.
  - intros (?&?&?&?). repeat split; try lia. apply IH; [lia|done].
Qed.

(** Replacing a run by runs inside it. *)
Lemma runs_replace lo hi l1 r new l2 :
  runs lo hi (l1 ++ r :: l2) → runs r.1 (r.1 + r.2) new → runs lo hi (l1 ++ new ++ l2).
Proof.
  revert lo; induction l1 as [|q l1 IH]; intros lo; simpl.
  - intros (Hlo&H0&Hhi&Hl) Hn. apply runs_mono with r.1; [done|].
    apply runs_append with (r.1 + r.2); [lia|done..].
  - intros (?&?&?&?) Hn. repeat split; auto.
Qed.

(** The block behind a run is in no run. *)
Lemma runs_gap lo hi l r : runs lo hi l → r ∈ l → ¬ covered l (r.1 + r.2).
Proof.
  intros Hl (l1 & l2 & ->)%list_elem_of_split.
  apply runs_split in Hl as (_&?&_&H1&H2). rewrite covered_app, covered_cons.
  intros [Hc|[Hc|Hc]]; [apply H1 in Hc; lia|lia|]. eapply runs_covered in Hc; [|done]. lia.
Qed.

(** A covered range lies in one run. *)
Lemma covered_run lo hi l offset n :
  runs lo hi l → (∀ k, offset ≤ k < offset + Z.of_nat (S n) → covered l k) →
  ∃ r, r ∈ l ∧ r.1 ≤ offset ∧ offset + Z.of_nat (S n) ≤ r.1 + r.2.
Proof.
  intros Hl. induction n as [|n IH]; intros Hc.
  - destruct (Hc offset) as (r & Hr & Hk); [lia|]. exists r. split; [done|lia].
  - destruct IH as (r & Hr & Hlo & Hhi); [intros k Hk; apply Hc; lia|].
    destruct (decide (offset + Z.of_nat (S n) = r.1 + r.2)) as [E|].
    + exfalso. eapply (runs_gap _ _ _ _ Hl Hr). rewrite <- E. apply Hc. lia.
    + exists r. split; [done|lia].
Qed.

(** ** Taking blocks out of a run *)

(** The blocks of the run that the new runs leave out are marked. *)
Lemma carve a l1 r new l2 offset size :
  alloc_ok a → free_segments a = l1 ++ r :: l2 →
  0 < size → r.1 ≤ offset → offset + size ≤ r.1 + r.2 →
  runs r.1 (r.1 + r.2) new →
  (∀ k, r.1 ≤ k < r.1 + r.2 → covered new k ↔ ¬ offset ≤ k < offset + size) →
  ∃ d, (∀ l, mark (mkAlloc (bitmap a) l) offset size Allocate = Some (mkAlloc d l)) ∧
    alloc_ok (mkAlloc d (l1 ++ new ++ l2)) ∧ range_free a offset size ∧
    ∀ k, 0 ≤ k < SEGMENT_SIZE →
      bit_at d k = if decide (offset ≤ k < offset + size) then true else bit_at (bitmap a) k.
Proof.
  intros [Hlen Hruns Hfree] Hl Hs Ho He Hn Hcov. rewrite Hl in *.
  pose proof (runs_split _ _ _ _ _ Hruns) as (Hr0 & Hr1 & Hr2 & Hbelow & Habove).
  assert (∀ k, offset ≤ k < offset + size → bit_at (bitmap a) k = false) as Hclear.
  { intros k Hk. apply Hfree; [lia|]. rewrite covered_app, covered_cons. right; left. lia. }
  pose proof segment_size_eq. pose proof segment_bytes_eq.
  exists (fill_bits (bitmap a) offset (Z.to_nat size) true). split; [|split; [|split]].
  - intros l. unfold mark. rewrite u32_add_Some by (unfold U32_SIZE; lia). simpl.
    rewrite (proj2 (Z.leb_le _ _)) by lia.
    rewrite (proj2 (bits_any_false _ _ _)) by (intros k Hk; apply Hclear; lia). done.
  - assert (∀ k, 0 ≤ k < SEGMENT_SIZE →
      bit_at (fill_bits (bitmap a) offset (Z.to_nat size) true) k =
        if decide (offset ≤ k < offset + size) then true else bit_at (bitmap a) k) as Hb.
    { intros k Hk. rewrite bit_at_fill_bits, Z2Nat.id by lia. done. }
    split; simpl.
    + unfold blen. by rewrite length_fill_bits.
    + by eapply runs_replace.
    + intros k Hk. rewrite Hb by done. rewrite !covered_app.
      specialize (Hfree k Hk). rewrite covered_app, covered_cons in Hfree.
      pose proof (runs_covered _ _ _ k Hn). pose proof (runs_covered _ _ _ k Habove).
      pose proof (Hbelow k). specialize (Hcov k).
      case_decide; [|rewrite Hfree].
      * split; [done|]. intros [Hc|[Hc|Hc]]; exfalso; naive_solver lia.
      * destruct (decide (r.1 ≤ k < r.1 + r.2)); [naive_solver lia|]. naive_solver lia.
  - split; [lia|]. split; [lia|done].
  - intros k Hk. rewrite bit_at_fill_bits, Z2Nat.id by lia. done.
Qed.

(** The state after an allocation of the range. *)
Definition taken (a a' : SegmentAllocator) (offset size : Z) : Prop :=
  alloc_ok a' ∧ range_free a offset size ∧
  ∀ k, 0 ≤ k < SEGMENT_SIZE →
    bit_at (bitmap a') k =
      if decide (offset ≤ k < offset + size) then true else bit_at (bitmap a) k.

(** [carve] on the run at a position of the list. *)
Lemma carve_at a j r new offset size :
  alloc_ok a → free_segments a !! j = Some r →
  0 < size → r.1 ≤ offset → offset + size ≤ r.1 + r.2 →
  runs r.1 (r.1 + r.2) new →
  (∀ k, r.1 ≤ k < r.1 + r.2 → covered new k ↔ ¬ offset ≤ k < offset + size) →
  ∃ d, (∀ l, mark (mkAlloc (bitmap a) l) offset size Allocate = Some (mkAlloc d l)) ∧
    taken a (mkAlloc d (take j (free_segments a) ++ new ++ drop (S j) (free_segments a)))
      offset size.
Proof.
  intros Ha Hj Hs Ho He Hn Hc.
  destruct (carve a (take j (free_segments a)) r new (drop (S j) (free_segments a)) offset size)
    as (d & ? & ? & ? & ?); try done; [by rewrite take_drop_middle|].
  exists d. done.
Qed.

Lemma runs_elem lo hi l r :
  runs lo hi l → r ∈ l → lo ≤ r.1 ∧ 0 ≤ r.2 ∧ r.1 + r.2 ≤ hi.
Proof.
  intros Hl (l1 & l2 & ->)%list_elem_of_split. apply runs_split in Hl as (?&?&?&_). done.
Qed.

(** A run ends before a later one begins. *)
Lemma runs_order lo hi l i j q r :
  runs lo hi l → l !! i = Some q → l !! j = Some r → (i < j)%nat → q.1 + q.2 < r.1.
Proof.
  intros Hl Hi Hj Hij. rewrite <- (take_drop_middle _ _ _ Hi) in Hl.
  apply runs_split in Hl as (_&_&_&_&Hl).
  assert (r ∈ drop (S i) l) as Hr.
  { apply list_elem_of_lookup. exists (j - S i)%nat. rewrite lookup_drop.
    by replace (S i + (j - S i))%nat with j by lia. }
  apply (runs_elem _ _ _ _ Hl) in Hr. lia.
Qed.

(** A free range lies in one of the runs. *)
Lemma range_free_run a offset size :
  alloc_ok a → 0 < size → range_free a offset size →
  ∃ j r, free_segments a !! j = Some r ∧ r.1 ≤ offset ∧ offset + size ≤ r.1 + r.2.
Proof.
  intros [_ Hr Hf] Hs (H0 & H1 & Hb).
  destruct (covered_run _ _ _ offset (Z.to_nat (size - 1)) Hr) as (r & [j Hj]%list_elem_of_lookup & ?).
  - intros k Hk. apply Hf; [lia|]. apply Hb. lia.
  - exists j, r. split; [done|]. lia.
Qed.

(** ** [allocate] *)

Lemma allocate_from_spec a size n i :
  alloc_ok a → 0 < size → (i + n)%nat = length (free_segments a) →
  (allocate_from n i a size = Some (None, a) ∧
    ∀ j r, (i ≤ j)%nat → free_segments a !! j = Some r → r.2 < size) ∨
  (∃ j r a', allocate_from n i a size = Some (Some r.1, a') ∧ taken a a' r.1 size ∧
    free_segments a !! j = Some r ∧
    ∀ j' r', (i ≤ j' < j)%nat → free_segments a !! j' = Some r' → r'.2 < size).
Proof.
  intros Ha Hs. revert i; induction n as [|n IH]; intros i Hn; simpl.
  { left. split; [done|]. intros j r ? Hj%lookup_lt_Some. lia. }
  destruct (lookup_lt_is_Some_2 (free_segments a) i) as [[o s] Hi]; [lia|].
  rewrite Hi. simpl. destruct (Z.leb_spec size s).
  - right. pose proof (runs_elem _ _ _ _ (ok_runs _ Ha) (list_elem_of_lookup_2 _ _ _ Hi)).
    destruct (carve_at a i (o, s) [(o + size, s - size)] o size) as (d & Hm & Ht);
      simpl in *; try done; try lia.
    { intros k Hk. rewrite covered_cons, covered_nil. simpl. lia. }
    pose proof segment_size_eq. destruct a as [bm fs]. simpl in *.
    rewrite Hm. simpl. rewrite u32_add_Some, usub_Some by (unfold U32_SIZE; lia). simpl.
    rewrite vec_set_Some by (by eapply lookup_lt_Some). simpl.
    rewrite insert_cut by (by eapply lookup_lt_Some).
    eexists i, (o, s), _. split; [done|]. split; [done|]. split; [done|]. lia.
  - destruct (IH (S i)) as [[-> Hall]|(j & r & a' & -> & Ht & Hj & Hb)]; [lia|left|right].
    + split; [done|]. intros j r Hij Hj. destruct (decide (j = i)) as [->|].
      * rewrite Hi in Hj. by injection Hj as <-.
      * apply (Hall j r); [lia|done].
    + exists j, r, a'. do 3 (split; [done|]). intros j' r' Hij Hj'.
      destruct (decide (j' = i)) as [->|].
      * rewrite Hi in Hj'. by injection Hj' as <-.
      * apply (Hb j' r'); [lia|done].
Qed.

Lemma allocate_spec a size :
  alloc_ok a → 0 < size →
  ∃ res a', allocate a size = Some (res, a') ∧ alloc_ok a' ∧
    match res with
    | Some offset => taken a a' offset size ∧ ∀ o, o < offset → ¬ range_free a o size
    | None => a' = a ∧ ∀ o, ¬ range_free a o size
    end.
Proof.
  intros Ha Hs. unfold allocate. rewrite (proj2 (Z.eqb_neq _ _)) by lia.
  destruct (allocate_from_spec a size (length (free_segments a)) 0)
    as [[-> Hall]|(j & r & a' & -> & Ht & Hj & Hb)]; [done..| |].
  - exists None, a. do 2 (split; [done|]). split; [done|]. intros o Hf.
    apply range_free_run in Hf as (j & r & Hj & ?); [|done..].
    specialize (Hall j r ltac:(lia) Hj). lia.
  - exists (Some r.1), a'. split; [done|]. split; [apply Ht|]. split; [done|].
    intros o Ho Hf. apply range_free_run in Hf as (j' & r' & Hj' & ?); [|done..].
    destruct (lt_eq_lt_dec j' j) as [[Hlt| ->]|Hlt].
    + specialize (Hb j' r' ltac:(lia) Hj'). lia.
    + rewrite Hj in Hj'. injection Hj' as <-. lia.
    + pose proof (runs_order _ _ _ _ _ _ _ (ok_runs _ Ha) Hj Hj' Hlt).
      pose proof (runs_elem _ _ _ _ (ok_runs _ Ha) (list_elem_of_lookup_2 _ _ _ Hj)). lia.
Qed.

(** [SegmentAllocator::allocate] is a complete first-fit allocation.  On
    an allocator whose list describes the clear bits of its bitmap it does
    not panic and keeps that invariant.  If it returns an offset, the blocks
    were free, no lower offset has that many free blocks, and exactly these
    blocks are now marked; if it returns [None], no range of the segment has
    enough free blocks, and nothing changed. *)
Theorem allocate_first_fit a size :
  alloc_ok a → 0 < size →
  ∃ res a', allocate a size = Some (res, a') ∧ alloc_ok a' ∧
    match res with
    | Some offset => taken a a' offset size ∧ ∀ o, o < offset → ¬ range_free a o size
    | None => a' = a ∧ ∀ o, ¬ range_free a o size
    end.
Proof. apply allocate_spec. Qed.

(** ** [allocate_at] *)

(** The run at position [j] holds the range: each of the four cases takes
    exactly the range out of it. *)
Lemma allocate_at_hit a size offset n j o s :
  alloc_ok a → 0 < size → free_segments a !! j = Some (o, s) →
  o ≤ offset → offset + size ≤ o + s →
  ∃ a', allocate_at_from (S n) j a size offset = Some (true, a') ∧ taken a a' offset size.
Proof.
  intros Ha Hs Hj Ho He. cbn [allocate_at_from]. rewrite Hj. cbn [mbind option_bind].
  pose proof (runs_elem _ _ _ _ (ok_runs _ Ha) (list_elem_of_lookup_2 _ _ _ Hj)) as (?&?&?).
  pose proof (lookup_lt_Some _ _ _ Hj). pose proof segment_size_eq. simpl in *.
  pose proof (λ new, carve_at a j (o, s) new offset size Ha Hj Hs Ho He) as Hcarve.
  destruct a as [bm fs]. simpl in *.
  destruct (decide (o = offset ∧ s = size)) as [[-> ->]|Hne1].
  { rewrite !Z.eqb_refl. simpl. rewrite (vec_remove_Some _ _ _ Hj). simpl.
    destruct (Hcarve []) as (d & Hm & Ht); [done| |].
    { intros k Hk. rewrite covered_nil. lia. }
    rewrite Hm. simpl. by eexists. }
  replace ((o =? offset) && (s =? size)) with false by (zbool; simpl; lia).
  destruct (decide (o = offset)) as [->|Hne].
  { rewrite Z.eqb_refl, (proj2 (Z.ltb_lt _ _)) by lia. simpl.
    rewrite u32_add_Some, usub_Some by (unfold U32_SIZE; lia). simpl.
    rewrite vec_set_Some, insert_cut by done. simpl.
    destruct (Hcarve [(offset + size, s - size)]) as (d & Hm & Ht); [simpl; lia| |].
    { intros k Hk. rewrite covered_cons, covered_nil. simpl. lia. }
    rewrite Hm. simpl. by eexists. }
  rewrite (proj2 (Z.eqb_neq o offset)) by done. simpl.
  rewrite !u32_add_Some by (unfold U32_SIZE; lia). cbn [mbind option_bind].
  rewrite (proj2 (Z.ltb_lt o offset)) by lia. cbn [andb].
  destruct (Z.eqb_spec (offset + size) (o + s)).
  { rewrite usub_Some by lia. simpl. rewrite vec_set_Some, insert_cut by done. simpl.
    destruct (Hcarve [(o, s - size)]) as (d & Hm & Ht); [simpl; lia| |].
    { intros k Hk. rewrite covered_cons, covered_nil. simpl. lia. }
    rewrite Hm. simpl. by eexists. }
  rewrite (proj2 (Z.ltb_lt offset _)), (proj2 (Z.ltb_lt (offset + size) _)) by lia.
  cbn [andb]. rewrite usub_Some by lia. simpl.
  rewrite u32_add_Some by (unfold U32_SIZE; lia). simpl. rewrite usub_Some by lia. simpl.
  rewrite vec_set_Some by done. simpl. rewrite insert_cut by done.
  rewrite vec_insert_Some, insert_after_cut by (rewrite ?length_app, ?length_take; simpl; lia).
  simpl. destruct (Hcarve [(o, offset - o); (offset + size, s - (size + (offset - o)))])
    as (d & Hm & Ht); [simpl; lia| |].
  { intros k Hk. rewrite !covered_cons, covered_nil. simpl. lia. }
  rewrite Hm. simpl. by eexists.
Qed.

Lemma allocate_at_from_spec a size offset n i j r :
  alloc_ok a → 0 < size → free_segments a !! j = Some r →
  r.1 ≤ offset → offset + size ≤ r.1 + r.2 →
  (i ≤ j)%nat → (i + n)%nat = length (free_segments a) →
  ∃ a', allocate_at_from n i a size offset = Some (true, a') ∧ taken a a' offset size.
Proof.
  intros Ha Hs Hj Ho He. pose proof (lookup_lt_Some _ _ _ Hj). pose proof segment_size_eq.
  pose proof (runs_elem _ _ _ _ (ok_runs _ Ha) (list_elem_of_lookup_2 _ _ _ Hj)) as (?&?&?).
  revert i; induction n as [|n IH]; intros i Hi Hn; [lia|].
  destruct (decide (i = j)) as [->|]; [destruct r; by eapply allocate_at_hit|].
  destruct (lookup_lt_is_Some_2 (free_segments a) i) as [[o s] Hq]; [lia|].
  pose proof (runs_order _ _ _ _ _ _ _ (ok_runs _ Ha) Hq Hj ltac:(lia)).
  pose proof (runs_elem _ _ _ _ (ok_runs _ Ha) (list_elem_of_lookup_2 _ _ _ Hq)).
  cbn [allocate_at_from]. rewrite Hq. simpl in *.
  rewrite (proj2 (Z.eqb_neq o offset)) by lia. simpl.
  rewrite !u32_add_Some by (unfold U32_SIZE; lia). cbn [mbind option_bind].
  rewrite (proj2 (Z.eqb_neq (offset + size) _)), andb_false_r by lia.
  rewrite (proj2 (Z.ltb_ge (o + s) _)) || rewrite (proj2 (Z.ltb_ge _ (o + s))) by lia.
  rewrite andb_false_r. simpl. apply IH; lia.
Qed.

Lemma allocate_at_spec a size offset :
  alloc_ok a → 0 < size → 0 ≤ offset → offset + size < U32_SIZE →
  ∃ b a', allocate_at a size offset = Some (b, a') ∧ alloc_ok a' ∧
    (b = true ↔ range_free a offset size) ∧
    (if b then taken a a' offset size else a' = a).
Proof.
  intros Ha Hs H0 He. unfold allocate_at. rewrite (proj2 (Z.eqb_neq _ _)) by lia.
  rewrite u32_add_Some by done. cbn [mbind option_bind].
  destruct (Z.ltb_spec SEGMENT_SIZE (offset + size)).
  { exists false, a. do 2 (split; [done|]). split; [|done]. split; [done|]. intros (?&?&?). lia. }
  destruct (bits_any _ _ _) eqn:Hany.
  { exists false, a. do 2 (split; [done|]). split; [|done]. split; [done|]. intros (?&?&Hf).
    rewrite (proj2 (bits_any_false _ _ _)) in Hany; [done|]. intros k Hk. apply Hf. lia. }
  assert (range_free a offset size) as Hf.
  { split; [done|]. split; [done|]. intros k Hk. apply (proj1 (bits_any_false _ _ _) Hany). lia. }
  destruct (range_free_run a offset size) as (j & r & Hj & Hlo & Hhi); [done..|].
  destruct (allocate_at_from_spec a size offset (length (free_segments a)) 0 j r)
    as (a' & -> & Ht); [done..|lia|lia|].
  exists true, a'. split; [done|]. split; [apply Ht|]. done.
Qed.

(** [SegmentAllocator::allocate_at] takes a range exactly when it lies in
    the segment and is free.  It does not panic (for a range whose end is a
    [u32]) and keeps the invariant; on [true] exactly the blocks of the range
    are now marked, on [false] nothing changed. *)
Theorem allocate_at_exact a size offset :
  alloc_ok a → 0 < size → 0 ≤ offset → offset + size < U32_SIZE →
  ∃ b a', allocate_at a size offset = Some (b, a') ∧ alloc_ok a' ∧
    (b = true ↔ range_free a offset size) ∧
    (if b then taken a a' offset size else a' = a).
Proof. apply allocate_at_spec. Qed.

(** ** [SegmentAllocator::new] *)

Lemma free_run_spec d fuel offset size :
  SEGMENT_SIZE - offset < Z.of_nat fuel → offset ≤ SEGMENT_SIZE →
  ∃ m, free_run fuel d offset size = Some (offset + m, size + m) ∧
    0 ≤ m ∧ offset + m ≤ SEGMENT_SIZE ∧
    (∀ k, offset ≤ k < offset + m → bit_at d k = false) ∧
    (offset + m < SEGMENT_SIZE → bit_at d (offset + m) = true).
Proof.
  revert offset size; induction fuel as [|fuel IH]; intros offset size Hf Ho; [lia|].
  cbn [free_run]. destruct (Z.ltb_spec offset SEGMENT_SIZE); simpl.
  - destruct (bit_at d offset) eqn:Hb; simpl.
    + exists 0. rewrite !Z.add_0_r. repeat split; try done; lia.
    + destruct (IH (offset + 1) (size + 1)) as (m & -> & ? & ? & Hfree & Hend); [lia..|].
      exists (1 + m). rewrite !Z.add_assoc. repeat split; try done; try lia.
      intros k Hk. destruct (decide (k = offset)) as [->|]; [done|]. apply Hfree. lia.
  - exists 0. rewrite !Z.add_0_r. repeat split; try done; lia.
Qed.

(** The scan from [offset], with the runs below it in [free]. *)
Lemma scan_spec d fuel offset free :
  SEGMENT_SIZE - offset + 1 < Z.of_nat fuel → 0 ≤ offset ≤ SEGMENT_SIZE →
  runs 0 offset free →
  (offset < SEGMENT_SIZE → bit_at d offset = false → runs 0 (offset - 1) free) →
  (∀ k, 0 ≤ k < offset → bit_at d k = false ↔ covered free k) →
  ∃ l, scan fuel d offset free = Some l ∧ runs 0 SEGMENT_SIZE l ∧
    ∀ k, 0 ≤ k < SEGMENT_SIZE → bit_at d k = false ↔ covered l k.
Proof.
  revert offset free; induction fuel as [|fuel IH]; intros offset free Hf Ho Hr Hg Hc; [lia|].
  cbn [scan]. destruct (Z.ltb_spec offset SEGMENT_SIZE) as [Hlt|].
  2: { replace offset with SEGMENT_SIZE in * by lia. by exists free. }
  specialize (Hg Hlt). destruct (bit_at d offset) eqn:Hb; cbn [negb].
  - apply IH; [lia|lia| |intros; by replace (offset + 1 - 1) with offset by lia|].
    + eapply runs_widen; [|done]. lia.
    + intros k Hk. destruct (decide (k = offset)) as [->|]; [|apply Hc; lia].
      rewrite Hb. split; [done|]. intros Hk'. apply (runs_covered _ _ _ _ Hr) in Hk'. lia.
  - specialize (Hg eq_refl).
    destruct (free_run_spec d fuel offset 0) as (m & -> & Hm & Hend & Hfree & Hstop); [lia..|].
    assert (m ≠ 0) by (intros ->; rewrite Z.add_0_r, Hb in Hstop; naive_solver).
    cbn [mbind option_bind]. simpl. apply IH; [lia|lia| | |].
    + apply runs_append with (offset - 1); [lia|lia|done|]. simpl. lia.
    + intros ? Hb'. by rewrite Hstop in Hb'.
    + intros k Hk. rewrite covered_app, covered_cons, covered_nil. simpl.
      destruct (decide (k < offset)).
      * rewrite Hc by lia. split; [auto|]. intros [?|[?|?]]; [done|lia|done].
      * rewrite (Hfree k) by lia. split; [intros _; right; left; lia|done].
Qed.

Lemma alloc_new_scan d :
  blen d = SEGMENT_SIZE_BYTES → ∃ a, alloc_new d = Some a ∧ bitmap a = d ∧ alloc_ok a.
Proof.
  intros Hd. unfold alloc_new, initialize_free_segments. cbn [bitmap free_segments].
  pose proof segment_size_eq.
  destruct (scan_spec d scan_fuel 0 []) as (l & -> & Hr & Hc);
    [unfold scan_fuel; lia|lia|done|done|intros; lia|].
  simpl. by exists (mkAlloc d l).
Qed.

(** Building an allocator from a stored bitmap.  [SegmentAllocator::new]
    terminates without a panic, keeps the bitmap, and its list of free runs
    describes exactly the clear bits, so that the guarantees of [allocate]
    and [allocate_at] hold for it. *)
Theorem alloc_new_ok d :
  blen d = SEGMENT_SIZE_BYTES → ∃ a, alloc_new d = Some a ∧ bitmap a = d ∧ alloc_ok a.
Proof. apply alloc_new_scan. Qed.

(** ** Segments of a disk *)

Section Segments.
Import SegmentId.

Lemma segment_mask : SEGMENT_SIZE_MASK = Z.ones 18.
Proof. unfold SEGMENT_SIZE_MASK. by rewrite segment_size_eq. Qed.

Lemma get_eq x : get (DiskOffset.mk x) = mk (x - x mod SEGMENT_SIZE).
Proof.
  unfold get, DiskOffset.as_u64. simpl. rewrite segment_mask, land_lnot_ones by lia.
  by rewrite segment_size_eq.
Qed.

Lemma get_block_offset_eq x : get_block_offset (DiskOffset.mk x) = x mod SEGMENT_SIZE.
Proof.
  unfold get_block_offset, DiskOffset.as_u64, wrap32. simpl.
  rewrite segment_mask. change (Z.ones 18 mod 2 ^ 32) with (Z.ones 18).
  rewrite Z.land_ones by lia. change SEGMENT_SIZE with (2 ^ 18).
  apply Z.mod_mod_divide. exists (2 ^ 14). lia.
Qed.

(** Segment number [i] of a disk. *)
Definition seg_at (class disk i : Z) : SegmentId :=
  mk (class * 2 ^ 62 + disk * 2 ^ 52 + i * SEGMENT_SIZE).

(** The number of segments of a disk of [disk_size] blocks; the last one may
    be incomplete. *)
Definition segment_count (disk_size : Z) : Z :=
  Z.max 1 ((disk_size + SEGMENT_SIZE - 1) / SEGMENT_SIZE).

Lemma segment_count_spec size i :
  0 ≤ i → i < segment_count size ↔ i = 0 ∨ i * SEGMENT_SIZE < size.
Proof.
  intros Hi. unfold segment_count. rewrite segment_size_eq.
  pose proof (Z.div_mod (size + 262144 - 1) 262144 ltac:(lia)).
  pose proof (Z.mod_pos_bound (size + 262144 - 1) 262144 ltac:(lia)). lia.
Qed.

(** The parts of the address of a segment. *)
Lemma seg_at_parts c d i :
  0 ≤ c < 4 → 0 ≤ d < 1024 → 0 ≤ i → i * SEGMENT_SIZE < 2 ^ 52 →
  let o := as_disk_offset (seg_at c d i) in
  DiskOffset.storage_class o = c ∧ DiskOffset.disk_id o = d ∧
  DiskOffset.block_offset o = i * SEGMENT_SIZE ∧ 0 ≤ seg (seg_at c d i) < U64_SIZE.
Proof.
  intros Hc Hd Hi Hs. unfold as_disk_offset, seg_at, DiskOffset.from_u64. cbn [seg].
  pose proof segment_size_eq.
  assert (0 ≤ c * 2 ^ 62 + d * 2 ^ 52 + i * SEGMENT_SIZE < U64_SIZE) by (unfold U64_SIZE; lia).
  rewrite storage_class_div, disk_id_div, block_offset_mod by done.
  split; [|split; [|split; [|done]]]; symmetry.
  - apply Z.div_unique with (d * 2 ^ 52 + i * SEGMENT_SIZE); lia.
  - apply Z.mod_unique with c; [lia|].
    symmetry. apply Z.div_unique with (i * SEGMENT_SIZE); lia.
  - apply Z.mod_unique with (c * 1024 + d); lia.
Qed.

Lemma seg_at_aligned c d i k :
  0 ≤ k < SEGMENT_SIZE → (seg (seg_at c d i) + k) mod SEGMENT_SIZE = k.
Proof.
  intros Hk. unfold seg_at. cbn [seg]. symmetry. rewrite segment_size_eq in *.
  apply Z.mod_unique with (c * 2 ^ 44 + d * 2 ^ 34 + i); lia.
Qed.

Lemma seg_at_first c d :
  0 ≤ c < 4 → 0 ≤ d < 1024 → (get <$> DiskOffset.new c d 0) = Some (seg_at c d 0).
Proof.
  intros Hc Hd. rewrite new_value by lia. simpl. rewrite get_eq. unfold seg_at. do 2 f_equal.
  pose proof (seg_at_aligned c d 0 0) as H. unfold seg_at in H. cbn [seg] in H.
  rewrite Z.mul_0_l, !Z.add_0_r in *. rewrite H; [lia|]. rewrite segment_size_eq. lia.
Qed.

End Segments.

Lemma next_in_ring c d i disk_size :
  0 ≤ c < 4 → 0 ≤ d < 1024 → 0 ≤ disk_size ≤ 2 ^ 52 → 0 ≤ i < segment_count disk_size →
  SegmentId.next (seg_at c d i) disk_size = Some (seg_at c d ((i + 1) mod segment_count disk_size)).
Proof.
  intros Hc Hd Hsz Hi. pose proof segment_size_eq as HS.
  pose proof (proj1 (segment_count_spec disk_size i ltac:(lia)) ltac:(lia)) as Hin.
  assert (0 ≤ i * SEGMENT_SIZE < 2 ^ 52) by (rewrite HS in *; lia).
  destruct (seg_at_parts c d i) as (Hcl & Hdi & Hbo & Hb); [lia..|].
  unfold SegmentId.next. rewrite Hcl, Hdi, Hbo.
  rewrite (u64_add_Some (i * _)) by (rewrite HS in *; unfold U64_SIZE; lia). cbn [mbind option_bind].
  pose proof (segment_count_spec disk_size (i + 1) ltac:(lia)) as Hnext.
  rewrite Z.mul_add_distr_r, Z.mul_1_l in Hnext.
  destruct (Z.leb_spec disk_size (i * SEGMENT_SIZE + SEGMENT_SIZE)).
  - assert (i + 1 = segment_count disk_size) as -> by lia. rewrite Z.mod_same by lia.
    pose proof (seg_at_first c d Hc Hd) as Hf.
    destruct (DiskOffset.new c d 0); [|done]. done.
  - rewrite Z.mod_small by lia.
    rewrite u64_add_Some
      by (rewrite HS in *; unfold U64_SIZE, seg_at in *; cbn [SegmentId.seg] in *; lia).
    cbn [mbind option_bind]. unfold seg_at. cbn [SegmentId.seg]. do 2 f_equal. lia.
Qed.

(** The segments of a disk form a ring.  For a disk of at most 2^52
    blocks, [SegmentId::next] steps from segment [i] to segment [i + 1] of
    the same disk and from the last segment, the one that holds the last
    block, back to the first: starting anywhere, the allocation loop visits
    every segment of the disk once before it sees its first one again. *)
Theorem segment_ring c d i disk_size :
  0 ≤ c < 4 → 0 ≤ d < 1024 → 0 ≤ disk_size ≤ 2 ^ 52 → 0 ≤ i < segment_count disk_size →
  SegmentId.next (seg_at c d i) disk_size = Some (seg_at c d ((i + 1) mod segment_count disk_size)).
Proof. apply next_in_ring. Qed.

Lemma segment_ring_witness :
  SegmentId.next (seg_at 1 2 1) 300000 = Some (seg_at 1 2 0).
Proof.
  assert (segment_count 300000 = 2) as Hn by reflexivity.
  rewrite (segment_ring 1 2 1 300000); [by rewrite Hn|lia..].
Defined.

Lemma seg_disk_offset c d i k :
  0 ≤ c < 4 → 0 ≤ d < 1024 → 0 ≤ i → (i + 1) * SEGMENT_SIZE ≤ 2 ^ 52 → 0 ≤ k < SEGMENT_SIZE →
  ∃ o, SegmentId.disk_offset (seg_at c d i) k = Some o ∧
    SegmentId.get o = seg_at c d i ∧ SegmentId.get_block_offset o = k ∧
    DiskOffset.storage_class o = c ∧ DiskOffset.disk_id o = d ∧
    DiskOffset.block_offset o = i * SEGMENT_SIZE + k.
Proof.
  intros Hc Hd Hi He Hk. pose proof segment_size_eq as HS.
  assert (0 ≤ c * 2 ^ 62 + d * 2 ^ 52 + i * SEGMENT_SIZE + k < U64_SIZE) by (unfold U64_SIZE; lia).
  unfold SegmentId.disk_offset.
  rewrite u64_add_Some by (unfold seg_at; cbn [SegmentId.seg]; lia).
  eexists. split; [done|]. unfold DiskOffset.from_u64.
  rewrite get_eq, get_block_offset_eq, seg_at_aligned by done. unfold seg_at. cbn [SegmentId.seg].
  rewrite storage_class_div, disk_id_div, block_offset_mod by lia.
  split; [f_equal; lia|]. split; [done|]. split; [|split]; symmetry.
  - apply Z.div_unique with (d * 2 ^ 52 + i * SEGMENT_SIZE + k); lia.
  - apply Z.mod_unique with c; [lia|].
    symmetry. apply Z.div_unique with (i * SEGMENT_SIZE + k); lia.
  - apply Z.mod_unique with (c * 1024 + d); lia.
Qed.

(** A block address is a segment and an offset into it.  The segment of
    an address and the block offset in it determine the address; and the
    address that [disk_offset] builds from a segment of a disk and an offset
    below the segment size belongs to that segment, lies on that disk, and
    has that offset. *)
Theorem segment_address c d i k :
  0 ≤ c < 4 → 0 ≤ d < 1024 → 0 ≤ i → (i + 1) * SEGMENT_SIZE ≤ 2 ^ 52 → 0 ≤ k < SEGMENT_SIZE →
  ∃ o, SegmentId.disk_offset (seg_at c d i) k = Some o ∧
    SegmentId.get o = seg_at c d i ∧ SegmentId.get_block_offset o = k ∧
    DiskOffset.storage_class o = c ∧ DiskOffset.disk_id o = d ∧
    DiskOffset.block_offset o = i * SEGMENT_SIZE + k.
Proof. apply seg_disk_offset. Qed.

Lemma segment_address_witness :
  ∃ o, SegmentId.disk_offset (seg_at 1 2 1) 5 = Some o ∧ SegmentId.get_block_offset o = 5.
Proof.
  destruct (segment_address 1 2 1 5) as (o & ? & _ & ? & _); 
    [lia|lia|lia|rewrite segment_size_eq; lia..|]. by exists o.
Defined.

(** ** A fresh segment *)

Definition blank_bitmap : bytes := replicate (Z.to_nat SEGMENT_SIZE_BYTES) zero.

Lemma blank_bit k : bit_at blank_bitmap k = false.
Proof.
  unfold bit_at, blank_bitmap. destruct (_ !! _) as [b|] eqn:Hb; [|done].
  apply lookup_replicate in Hb as [-> _]. apply Z.testbit_0_l.
Qed.

Lemma blank_len : blen blank_bitmap = SEGMENT_SIZE_BYTES.
Proof.
  unfold blen, blank_bitmap. rewrite length_replicate. apply Z2Nat.id.
  pose proof segment_bytes_eq. pose proof segment_size_eq. lia.
Qed.

Definition blank : SegmentAllocator := mkAlloc blank_bitmap [(0, SEGMENT_SIZE)].

Lemma blank_ok : alloc_ok blank.
Proof.
  pose proof segment_size_eq. split; [apply blank_len|simpl; lia|].
  intros k Hk. cbn [bitmap blank]. rewrite blank_bit. simpl. rewrite covered_cons. simpl.
  split; [|done]. intros _. left. lia.
Qed.

Lemma alloc_new_ok_witness : ∃ a, alloc_new blank_bitmap = Some a ∧ alloc_ok a.
Proof.
  destruct (alloc_new_ok blank_bitmap blank_len) as (a & ? & _ & ?).
  exists a. split; assumption.
Defined.

Lemma blank_range_free o n : 0 ≤ o → o + n ≤ SEGMENT_SIZE → range_free blank o n.
Proof. intros ??. split; [done|]. split; [done|]. intros k _. apply blank_bit. Qed.

Lemma allocate_first_fit_witness :
  ∃ o a', allocate blank 8 = Some (Some o, a') ∧ taken blank a' o 8.
Proof.
  destruct (allocate_first_fit blank 8 blank_ok) as (r & a' & Hr & Hok & Hm); [lia|].
  destruct r as [o|]; [exists o, a'; split; [exact Hr|apply Hm]|].
  destruct Hm as [_ Hno]. destruct (Hno 0). apply blank_range_free; [lia|].
  rewrite segment_size_eq. lia.
Defined.

Lemma allocate_at_exact_witness :
  ∃ a', allocate_at blank 2 0 = Some (true, a') ∧ taken blank a' 0 2.
Proof.
  destruct (allocate_at_exact blank 2 0 blank_ok) as (b & a' & Hb & _ & Hiff & Ht);
    [lia|lia|unfold U32_SIZE; lia|].
  destruct b; [exists a'; split; [exact Hb|exact Ht]|]. exfalso.
  assert (false = true); [|done]. apply Hiff, blank_range_free; [lia|].
  rewrite segment_size_eq. lia.
Defined.
