(* ===== verification/RootKeys.v ===== *)
(** * The root tree: identifiers, keys, records

    [database/root_tree_msg.rs] (the keys of the root tree) and the part of
    [database/mod.rs] that defines what is stored under them: [DatasetId],
    [Generation], [DatasetData] and [DeadListData].

    Identifiers and generations are [u64] values; [next] panics on overflow.
    The pointers and records that the source serialises with the bincode
    crate go through the class [Bincode]; the laws state what the code relies
    on: reading back a serialised value, also when bytes follow it. *)

From Stdlib Require Import ZArith Lia.
From stdpp Require Import base option list numbers.
From S2P Require Import Prelude.
From S2P Require Import Bytes.
From S2P Require Import CowBytes.
From S2P Require Import Message.
From S2P Require Import Disk.
From S2P Require Import Allocator.

(** ** Serialisation *)

Class Bincode (A : Type) := {
  serialize : A → bytes;
  deserialize : bytes → option A;
}.

Class BincodeLaws (A : Type) `{Bincode A} := {
  deserialize_serialize (a : A) rest : deserialize (serialize a ++ rest) = Some a;
}.

(** [BigEndian::read_u64] on the front of a slice, and on a [u16]. *)
Definition read_u64 (b : bytes) : option Z := w ← cut b 0 8; Some (of_be w).
Definition read_u16 (b : bytes) : option Z := w ← cut b 0 2; Some (of_be w).

(** ** Identifiers *)

Module DatasetId.
Definition pack (id : Z) : bytes := be64 id.
Definition unpack (b : bytes) : option Z := read_u64 b.
Definition next (id : Z) : option Z := u64_add id 1.
End DatasetId.

Module Generation.
Definition pack (g : Z) : bytes := be64 g.
Definition unpack (b : bytes) : option Z := read_u64 b.
Definition next (g : Z) : option Z := u64_add g 1.
End Generation.

(** ** Keys *)

Definition DATASET_ID_COUNTER : byte := to_u8 0.
Definition SEGMENT : byte := to_u8 0.
Definition DATASET_NAME_TO_ID : byte := to_u8 1.
Definition DATASET_DATA : byte := to_u8 2.
Definition SNAPSHOT_DS_ID_AND_NAME_TO_ID : byte := to_u8 3.
Definition SNAPSHOT_DATA : byte := to_u8 4.
Definition DEADLIST : byte := to_u8 5.
Definition DISK_SPACE : byte := to_u8 9.

Module dataset.
Definition id_counter : bytes := [DATASET_ID_COUNTER].
Definition name_to_id (name : bytes) : bytes := DATASET_NAME_TO_ID :: name.
Definition data_key (id : Z) : bytes := DATASET_DATA :: DatasetId.pack id.
Definition data_key_max : bytes := [to_u8 (u8 DATASET_DATA + 1)].
End dataset.

Module segment.
Definition id_to_key (segment_id : SegmentId.SegmentId) : bytes :=
  SEGMENT :: be64 (SegmentId.seg segment_id).
End segment.

Module snapshot.
Definition key (ds_id : Z) (name : bytes) : bytes :=
  SNAPSHOT_DS_ID_AND_NAME_TO_ID :: DatasetId.pack ds_id ++ name.

Definition data_key (ds_id ss_id : Z) : bytes :=
  SNAPSHOT_DATA :: DatasetId.pack ds_id ++ Generation.pack ss_id.

Definition data_key_max (ds_id : Z) : option bytes :=
  ds_id ← u64_add ds_id 1;
  Some (SNAPSHOT_DATA :: DatasetId.pack ds_id).
End snapshot.

Module deadlist.
Definition min_key (ds_id ss_id : Z) : bytes :=
  DEADLIST :: DatasetId.pack ds_id ++ Generation.pack ss_id.

Definition max_key (ds_id ss_id : Z) : option bytes :=
  g ← Generation.next ss_id; Some (min_key ds_id g).

Definition max_key_ds (ds_id : Z) : option bytes :=
  ds_id ← u64_add ds_id 1;
  Some (DEADLIST :: DatasetId.pack ds_id).

Definition key (ds_id cur_gen : Z) (offset : DiskOffset.DiskOffset) : bytes :=
  DEADLIST :: DatasetId.pack ds_id ++ Generation.pack cur_gen ++ be64 (DiskOffset.as_u64 offset).

(** [&key[DO_OFFSET..]] panics on a shorter key. *)
Definition offset_from_key (key : bytes) : option DiskOffset.DiskOffset :=
  assert! (17 <=? blen key);
  x ← read_u64 (drop 17 key);
  Some (DiskOffset.from_u64 x).
End deadlist.

Module space_accounting.
Definition key (disk_id : DiskOffset.GlobalDiskId) : bytes :=
  DISK_SPACE :: be16 (DiskOffset.gid disk_id).

Definition read_key (buf : bytes) : option DiskOffset.GlobalDiskId :=
  assert! (blen buf =? 3);
  x ← read_u16 (drop 1 buf);
  Some (DiskOffset.mkDisk x).

Definition min_key : bytes := [DISK_SPACE].
Definition max_key : bytes := [to_u8 (u8 DISK_SPACE + 1)].
End space_accounting.

(** ** Records *)

(** [DeadListData]; [pack] and [unpack] are its serialisation. *)
Record DeadListData := mkDead { dead_size : Z; birth : Z }.

Record DatasetData (P : Type) := mkDs { previous_snapshot : option Z; ptr : P }.
Arguments mkDs {P} _ _.
Arguments previous_snapshot {P} _.
Arguments ptr {P} _.

(** [None] is stored as generation zero, which may not occur. *)
Definition snapshot_word (x : option Z) : option Z :=
  match x with
  | Some generation => assert! negb (generation =? 0); Some generation
  | None => Some 0
  end.

Definition update_previous_snapshot (x : option Z) : option bytes :=
  x ← snapshot_word x;
  Some (Content.build_upsert_msg [UBytes 0 (le64 x)]).

Section Data.
Context {P : Type} `{Bincode P}.

Definition update_ptr (p : P) : bytes := Content.build_upsert_msg [UBytes 8 (serialize p)].

Definition ds_pack (d : DatasetData P) : option bytes :=
  x ← snapshot_word (previous_snapshot d);
  Some (le64 x ++ serialize (ptr d)).

(** [None] is the error result ([Error::Generic] or a bincode error). *)
Definition ds_unpack (b : bytes) : option (DatasetData P) :=
  w ← cut b 0 8;
  let x := of_le w in
  p ← deserialize (drop 8 b);
  Some (mkDs (if 0 <? x then Some x else None) p).

End Data.

(** ** Lemmas *)

Definition u64 (x : Z) : Prop := 0 ≤ x < U64_SIZE.

Lemma read_u64_be64 x rest : u64 x → read_u64 (be64 x ++ rest) = Some x.
Proof.
  intros Hx. unfold read_u64.
  rewrite (cut_app_mid [] (be64 x) rest) by (done || (unfold blen; rewrite length_be64; done)).
  simpl. by rewrite of_be_be64.
Qed.

Lemma be64_inj x y : u64 x → u64 y → be64 x = be64 y → x = y.
Proof. intros Hx Hy E. rewrite <- (of_be_be64 x Hx), E. by apply of_be_be64. Qed.

(** Keys with a common tag, ordered by two words and a rest. *)
Lemma cmp_word t x y a b :
  u64 x → u64 y →
  bytes_cmp (t :: be64 x ++ a) (t :: be64 y ++ b) =
    match x ?= y with Eq => bytes_cmp a b | c => c end.
Proof.
  intros Hx Hy. cbn [bytes_cmp]. rewrite Z.compare_refl.
  rewrite bytes_cmp_app by (by rewrite !length_be64). by rewrite bytes_cmp_be64.
Qed.

Lemma cmp_word_end t x y a :
  u64 x → u64 y →
  bytes_cmp (t :: be64 x ++ a) (t :: be64 y) =
    match x ?= y with Eq => bytes_cmp a [] | c => c end.
Proof. intros Hx Hy. rewrite <- (app_nil_r (be64 y)). by apply cmp_word. Qed.

Lemma cmp_words x y a b :
  u64 x → u64 y →
  bytes_cmp (be64 x ++ a) (be64 y ++ b) = match x ?= y with Eq => bytes_cmp a b | c => c end.
Proof.
  intros Hx Hy. rewrite bytes_cmp_app by (by rewrite !length_be64). by rewrite bytes_cmp_be64.
Qed.

(** ** Properties *)

Lemma dead_above ds ds' g g' o :
  u64 ds → u64 ds' → u64 g → u64 g' →
  deadlist.min_key ds g ≤ᵇ deadlist.key ds' g' o ↔ ds < ds' ∨ ds = ds' ∧ g ≤ g'.
Proof.
  intros. assert (deadlist.min_key ds g ≠ deadlist.key ds' g' o) as Hne.
  { intros E%(f_equal length). 
    unfold deadlist.min_key, deadlist.key, DatasetId.pack, Generation.pack in E.
    cbn [length] in E. rewrite !length_app, !length_be64 in E. lia. }
  unfold ble, blt. replace (deadlist.min_key ds g)
    with (DEADLIST :: be64 ds ++ be64 g ++ []) in * by (by rewrite app_nil_r).
  unfold deadlist.key, DatasetId.pack, Generation.pack in *.
  rewrite cmp_word, cmp_words by done.
  destruct (be64 (DiskOffset.as_u64 o)) as [|b l] eqn:Hb;
    [apply (f_equal length) in Hb; by rewrite length_be64 in Hb|].
  simpl. destruct (Z.compare_spec ds ds'), (Z.compare_spec g g'); split; try done; try lia;
    try (intros [?|?]; [done|done]); intros; left; done.
Qed.

Lemma dead_below ds ds' g g' o :
  u64 ds → u64 ds' → u64 g → u64 g' →
  deadlist.key ds' g' o <ᵇ deadlist.min_key ds g ↔ ds' < ds ∨ ds' = ds ∧ g' < g.
Proof.
  intros. unfold blt. replace (deadlist.min_key ds g)
    with (DEADLIST :: be64 ds ++ be64 g ++ []) by (by rewrite app_nil_r).
  unfold deadlist.key, DatasetId.pack, Generation.pack.
  rewrite cmp_word, cmp_words by done.
  destruct (be64 (DiskOffset.as_u64 o)) as [|b l] eqn:Hb;
    [apply (f_equal length) in Hb; by rewrite length_be64 in Hb|].
  simpl. destruct (Z.compare_spec ds' ds), (Z.compare_spec g' g); split; try done; lia.
Qed.

Lemma dead_below_ds ds ds' g' o :
  u64 ds → u64 ds' → deadlist.key ds' g' o <ᵇ DEADLIST :: be64 ds ↔ ds' < ds.
Proof.
  intros. unfold blt, deadlist.key, DatasetId.pack, Generation.pack.
  rewrite cmp_word_end by done.
  destruct (be64 g' ++ _) as [|b l] eqn:Hb;
    [apply (f_equal length) in Hb; by rewrite length_app, length_be64 in Hb|].
  simpl. destruct (Z.compare_spec ds' ds); split; try done; lia.
Qed.

(** The dead list is scanned exactly.  Among the entries of all data sets
    and generations, the key range from [min_key] of the generation behind a
    snapshot to [max_key] of the next snapshot holds exactly the entries of
    this data set that died after the one and not after the other; the range
    to [max_key_ds] holds all that died after the snapshot; and the disk
    offset is read back from the key. *)
Theorem deadlist_window ds ss next ds' g o :
  u64 ds → ds + 1 < U64_SIZE → u64 ss → ss + 1 < U64_SIZE → u64 next → next + 1 < U64_SIZE →
  u64 ds' → u64 g → u64 (DiskOffset.as_u64 o) →
  let k := deadlist.key ds' g o in
  ∃ lo hi hi_ds, Generation.next ss = Some lo ∧
    deadlist.max_key ds next = Some hi ∧ deadlist.max_key_ds ds = Some hi_ds ∧
    (deadlist.min_key ds lo ≤ᵇ k ∧ k <ᵇ hi ↔ ds' = ds ∧ ss < g ≤ next) ∧
    (deadlist.min_key ds lo ≤ᵇ k ∧ k <ᵇ hi_ds ↔ ds' = ds ∧ ss < g) ∧
    deadlist.offset_from_key k = Some o.
Proof.
  intros Hds Hds1 Hss Hss1 Hnx Hnx1 Hds' Hg Ho k. unfold u64 in *.
  unfold Generation.next, deadlist.max_key, deadlist.max_key_ds, Generation.next.
  rewrite !u64_add_Some by done. do 3 eexists. do 3 (split; [done|]). subst k.
  rewrite dead_above, dead_below, dead_below_ds by (unfold u64; lia).
  split; [lia|]. split; [lia|].
  unfold deadlist.offset_from_key, deadlist.key, DatasetId.pack, Generation.pack.
  rewrite (proj2 (Z.leb_le _ _)); [|unfold blen; cbn [length]; rewrite !length_app, !length_be64; lia].
  rewrite (app_assoc (be64 ds')), app_comm_cons, drop_app_length'
    by (cbn [length]; rewrite !length_app, !length_be64; lia).
  rewrite <- (app_nil_r (be64 (DiskOffset.as_u64 o))), read_u64_be64 by done.
  destruct o. done.
Qed.

Lemma deadlist_window_witness :
  let k := deadlist.key 1 5 (DiskOffset.mk 77) in
  deadlist.offset_from_key k = Some (DiskOffset.mk 77).
Proof.
  destruct (deadlist_window 1 4 6 1 5 (DiskOffset.mk 77))
    as (lo & hi & hd & _ & _ & _ & _ & _ & Hk);
    [unfold u64, U64_SIZE, DiskOffset.as_u64; simpl; lia..|exact Hk].
Defined.

(** The keys of the root tree by what they are for. *)
Inductive RootKey :=
  | KCounter
  | KSegment (s : SegmentId.SegmentId)
  | KName (name : bytes)
  | KDataset (id : Z)
  | KSnapName (ds : Z) (name : bytes)
  | KSnapshot (ds ss : Z)
  | KDead (ds g : Z) (o : DiskOffset.DiskOffset)
  | KSpace (d : DiskOffset.GlobalDiskId).

Definition key_of (k : RootKey) : bytes :=
  match k with
  | KCounter => dataset.id_counter
  | KSegment s => segment.id_to_key s
  | KName name => dataset.name_to_id name
  | KDataset id => dataset.data_key id
  | KSnapName ds name => snapshot.key ds name
  | KSnapshot ds ss => snapshot.data_key ds ss
  | KDead ds g o => deadlist.key ds g o
  | KSpace d => space_accounting.key d
  end.

(** The numbers are in the range of their types. *)
Definition key_wf (k : RootKey) : Prop :=
  match k with
  | KCounter | KName _ => True
  | KSegment s => u64 (SegmentId.seg s)
  | KDataset id => u64 id
  | KSnapName ds _ => u64 ds
  | KSnapshot ds ss => u64 ds ∧ u64 ss
  | KDead ds g o => u64 ds ∧ u64 g ∧ u64 (DiskOffset.as_u64 o)
  | KSpace d => 0 ≤ DiskOffset.gid d < 2 ^ 16
  end.

Lemma be64_app_inj x y a b : u64 x → u64 y → be64 x ++ a = be64 y ++ b → x = y ∧ a = b.
Proof.
  intros Hx Hy E. apply app_inj_1 in E as [E ->]; [|by rewrite !length_be64].
  split; [by apply be64_inj|done].
Qed.

(** The keys of the root tree never collide.  The dataset counter, the
    segment bitmaps, names, data set and snapshot records, dead list entries
    and space counters use distinct keys: equal keys come from the same kind
    of entry with the same identifiers. *)
Theorem root_keys_distinct k1 k2 :
  key_wf k1 → key_wf k2 → key_of k1 = key_of k2 → k1 = k2.
Proof.
  unfold key_of, dataset.id_counter, segment.id_to_key, dataset.name_to_id, dataset.data_key,
    snapshot.key, snapshot.data_key, deadlist.key, space_accounting.key, DatasetId.pack,
    Generation.pack.
  destruct k1, k2; intros H1 H2 E; try done; cbn [key_wf] in *;
    try (by apply (f_equal length) in E; cbn [length] in E; rewrite length_be64 in E);
    apply (f_equal (drop 1)) in E; cbn [drop] in E; rewrite ?drop_0 in E.
  - apply be64_inj in E; [|done..]. destruct s, s0. simpl in *. by subst.
  - by subst.
  - apply be64_inj in E; [|done..]. by subst.
  - apply be64_app_inj in E as [-> ->]; done.
  - destruct H1, H2. apply be64_app_inj in E as [-> E]; [|done..]. apply be64_inj in E; [|done..].
    by subst.
  - destruct H1 as (?&?&?), H2 as (?&?&?). apply be64_app_inj in E as [-> E]; [|done..].
    apply be64_app_inj in E as [-> E]; [|done..]. apply be64_inj in E; [|done..].
    destruct o, o0. unfold DiskOffset.as_u64 in E. simpl in *. by subst.
  - apply (f_equal of_be) in E. rewrite !of_be_be16 in E by done. destruct d, d0.
    simpl in *. by subst.
Qed.

Lemma root_keys_distinct_witness : key_of (KDataset 3) = key_of (KDataset 3) ∧ KDataset 3 = KDataset 3.
Proof.
  split; [reflexivity|].
  apply root_keys_distinct; [unfold key_wf, u64, U64_SIZE; lia..|reflexivity].
Defined.

(** ** Data set records *)

Definition snapshot_wf (x : option Z) : Prop := ∀ g, x = Some g → 0 < g < U64_SIZE.

Lemma snapshot_word_ok x :
  snapshot_wf x → ∃ w, snapshot_word x = Some w ∧ u64 w ∧ (if 0 <? w then Some w else None) = x.
Proof.
  intros Hx. destruct x as [g|]; simpl.
  - specialize (Hx g eq_refl). rewrite (proj2 (Z.eqb_neq g 0)) by lia. exists g.
    split; [done|]. split; [split; lia|]. by rewrite (proj2 (Z.ltb_lt 0 g)) by lia.
  - exists 0. done.
Qed.

Section Records.
Context {P : Type} `{BincodeLaws P}.

Lemma unpack_word x rest :
  u64 x → ds_unpack (le64 x ++ rest) =
    (p ← deserialize rest; Some (mkDs (if 0 <? x then Some x else None) p)).
Proof.
  intros Hx. unfold ds_unpack.
  rewrite (cut_app_mid [] (le64 x) rest) by (done || (unfold blen; rewrite length_le64; done)).
  cbn [mbind option_bind]. rewrite of_le_le64 by done.
  by rewrite drop_app_length' by (by rewrite length_le64).
Qed.

Lemma unpack_inv b (d : DatasetData P) :
  ds_unpack b = Some d →
  ∃ w rest, b = w ++ rest ∧ length w = 8%nat ∧
    previous_snapshot d = (if 0 <? of_le w then Some (of_le w) else None) ∧
    deserialize rest = Some (ptr d).
Proof.
  unfold ds_unpack. intros (w & Hc & (p & Hd & [= <-])%bind_Some)%bind_Some.
  apply cut_Some in Hc as (_ & _ & Hlen & -> & Hw). change (Z.to_nat 0) with 0%nat.
  change (Z.to_nat 8) with 8%nat in *. rewrite drop_0. exists (take 8 b), (drop 8 b).
  split; [by rewrite take_drop|]. split; [|done]. unfold blen in Hlen. rewrite length_take. lia.
Qed.

(** Data set records survive packing and partial updates.  A packed
    record unpacks to itself.  Applied to any stored record, the message of
    [update_ptr] replaces the pointer and keeps the snapshot, and the message
    of [update_previous_snapshot] replaces the snapshot and keeps the
    pointer, also when the new pointer is shorter than the old one. *)
Theorem dataset_record_updates (d : DatasetData P) b p x k :
  snapshot_wf (previous_snapshot d) → snapshot_wf x →
  blen (serialize p) < U32_SIZE → ds_unpack b = Some d →
  (∃ b0, ds_pack d = Some b0 ∧ ds_unpack b0 = Some d) ∧
  (∃ b1, Content.apply k (update_ptr p) (Some b) = Some (Some b1) ∧
    ds_unpack b1 = Some (mkDs (previous_snapshot d) p)) ∧
  (∃ m b2, update_previous_snapshot x = Some m ∧ Content.apply k m (Some b) = Some (Some b2) ∧
    ds_unpack b2 = Some (mkDs x (ptr d))).
Proof.
  intros Hd Hx Hp Hb. split; [|split].
  - destruct (snapshot_word_ok _ Hd) as (w & Hw & Hu & He). unfold ds_pack. rewrite Hw.
    cbn [mbind option_bind]. eexists. split; [done|]. rewrite unpack_word by done.
    rewrite <- (app_nil_r (serialize _)), deserialize_serialize. simpl. rewrite He. by destruct d.
  - apply unpack_inv in Hb as (w & rest & -> & Hl & Hs & Hr). unfold update_ptr.
    rewrite apply_upsert_build by (apply Forall_singleton; simpl; lia).
    unfold Content.apply_upserts. cbn [fold_upserts default].
    rewrite apply_upsert_bytes by lia. simpl. eexists. split; [done|].
    unfold overwrite_at. change (Pos.to_nat 8) with 8%nat.
    rewrite length_app, Hl, take_app_le, take_app_length' by (rewrite ?length_app; lia).
    unfold ds_unpack.
    rewrite (cut_at _ [] w (serialize p ++ drop (8 + length (serialize p)) (w ++ rest)))
      by (done || (unfold blen; rewrite Hl; done)).
    cbn [mbind option_bind]. rewrite drop_app_length' by done.
    rewrite deserialize_serialize. simpl. by rewrite Hs.
  - apply unpack_inv in Hb as (w & rest & -> & Hl & Hs & Hr).
    destruct (snapshot_word_ok _ Hx) as (y & Hy & Hu & He). unfold update_previous_snapshot.
    rewrite Hy. cbn [mbind option_bind]. do 2 eexists. split; [done|].
    rewrite apply_upsert_build
      by (apply Forall_singleton; simpl; rewrite blen_le64; unfold U32_SIZE; lia).
    unfold Content.apply_upserts. cbn [fold_upserts default].
    rewrite apply_upsert_bytes by lia. cbn [mbind option_bind inner]. split; [done|].
    unfold overwrite_at. change (Z.to_nat 0) with 0%nat. rewrite take_0, length_le64, app_nil_l.
    change (id (w ++ rest)) with (w ++ rest). rewrite drop_app_length' by (by rewrite Hl). rewrite unpack_word by done.
    rewrite Hr. simpl. by rewrite He.
Qed.

End Records.

(** A pointer type of one byte. *)
#[local] Instance bool_bincode : Bincode bool := {
  serialize b := [to_u8 (if b then 1 else 0)];
  deserialize l := x ← head l; Some (u8 x =? 1);
}.

#[local] Instance bool_bincode_laws : BincodeLaws bool.
Proof. constructor. by intros [] rest. Qed.

Lemma dataset_record_updates_witness :
  ∃ b1, Content.apply [] (update_ptr true) (Some (le64 7 ++ [to_u8 0])) = Some (Some b1) ∧
    ds_unpack b1 = Some (mkDs (Some 7) true).
Proof.
  destruct (dataset_record_updates (mkDs (Some 7) false) (le64 7 ++ [to_u8 0]) true None [])
    as (_ & H & _); [|done|reflexivity|reflexivity|exact H].
  intros g [= <-]. unfold U64_SIZE. lia.
Defined.
