(* ===== verification/Handler.v ===== *)
(** * The handler: allocation state of a database

    [database/handler.rs]: the cached segment allocators, the space counters,
    the messages for the root tree that wait for the next sync, and the
    decision between freeing a block and keeping it for a snapshot;
    [database/storage_info.rs] for the counters.

    The two root trees the handler reads (the current one and the one of the
    last sync) are represented by their contents, finite maps from keys to
    values; that [get] and [insert] of a tree behave like that is the subject
    of [TreeCorrect].  The atomic counters are [u64] values that wrap. *)

From Stdlib Require Import ZArith Lia.
From stdpp Require Import base option list numbers gmap fin_maps.
From S2P Require Import Prelude.
From S2P Require Import Bytes.
From S2P Require Import BTreeMap.
From S2P Require Import CowBytes.
From S2P Require Import Message.
From S2P Require Import Disk.
From S2P Require Import Allocator.
From S2P Require Import RootKeys.

Record StorageInfo := mkInfo { info_free : Z; info_total : Z }.

Inductive CopyOnWriteEvent := Preserved | Removed.

Record Handler := mkHandler {
  current_root_tree : contents;
  last_root_tree : option contents;
  current_generation : Z;
  free_space : gmap Z StorageInfo;
  free_space_tier : list StorageInfo;
  delayed_messages : list (bytes * bytes);
  last_snapshot_generation : gmap Z Z;
  allocators : gmap Z SegmentAllocator;
  allocations : Z;
  old_root_allocation : option (DiskOffset.DiskOffset * Z);
}.

Definition update_allocation_bitmap_msg (offset : DiskOffset.DiskOffset) (size : Z)
    (action : Action) : bytes :=
  let segment_offset := SegmentId.get_block_offset offset in
  Content.build_upsert_msg [UBits segment_offset size (as_bool action)].

Definition set_allocators (h : Handler) (m : gmap Z SegmentAllocator) : Handler :=
  mkHandler (current_root_tree h) (last_root_tree h) (current_generation h) (free_space h)
    (free_space_tier h) (delayed_messages h) (last_snapshot_generation h) m (allocations h)
    (old_root_allocation h).

(** The allocator behind a guard, after it was changed. *)
Definition set_allocator (h : Handler) (id : SegmentId.SegmentId) (a : SegmentAllocator) :
    Handler :=
  set_allocators h (<[SegmentId.seg id := a]> (allocators h)).

Definition bump_generation (h : Handler) : option Handler :=
  g ← u64_add (current_generation h) 1;
  Some (mkHandler (current_root_tree h) (last_root_tree h) g (free_space h)
    (free_space_tier h) (delayed_messages h) (last_snapshot_generation h) ∅ (allocations h)
    (old_root_allocation h)).

(** [fetch_add] / [fetch_sub] on the free counter of an entry. *)
Definition add_free (n : Z) (i : StorageInfo) : StorageInfo :=
  mkInfo (wrap64 (info_free i + n)) (info_total i).

(** Both counters of the disk that holds [offset]; a missing disk or class
    panics. *)
Definition count_free (h : Handler) (offset : DiskOffset.DiskOffset) (n : Z) : option Handler :=
  let disk_key := DiskOffset.gid (DiskOffset.class_disk_id offset) in
  info ← free_space h !! disk_key;
  let class := Z.to_nat (DiskOffset.storage_class offset) in
  tier ← free_space_tier h !! class;
  Some (mkHandler (current_root_tree h) (last_root_tree h) (current_generation h)
    (<[disk_key := add_free n info]> (free_space h))
    (<[class := add_free n tier]> (free_space_tier h))
    (delayed_messages h) (last_snapshot_generation h) (allocators h) (allocations h)
    (old_root_allocation h)).

Definition push_messages (h : Handler) (ms : list (bytes * bytes)) : Handler :=
  mkHandler (current_root_tree h) (last_root_tree h) (current_generation h) (free_space h)
    (free_space_tier h) (delayed_messages h ++ ms) (last_snapshot_generation h) (allocators h)
    (allocations h) (old_root_allocation h).

Definition count_allocation (h : Handler) : Handler :=
  mkHandler (current_root_tree h) (last_root_tree h) (current_generation h) (free_space h)
    (free_space_tier h) (delayed_messages h) (last_snapshot_generation h) (allocators h)
    (wrap64 (allocations h + 1)) (old_root_allocation h).

(** Byte-wise [|=] over the common prefix. *)
Fixpoint or_bytes (w old : bytes) : bytes :=
  match w, old with
  | x :: w, y :: old => to_u8 (Z.lor (u8 x) (u8 y)) :: or_bytes w old
  | _, _ => w
  end.

(** The bitmap of a segment as the root trees store it; a value longer than
    the bitmap panics. *)
Definition load_bitmap (h : Handler) (id : SegmentId.SegmentId) : option bytes :=
  let bitmap := replicate (Z.to_nat SEGMENT_SIZE_BYTES) zero in
  let key := segment.id_to_key id in
  bitmap ← match current_root_tree h !! key with
           | Some segment =>
               assert! (blen segment <=? SEGMENT_SIZE_BYTES);
               Some (segment ++ drop (length segment) bitmap)
           | None => Some bitmap
           end;
  Some (match last_root_tree h with
        | Some tree =>
            match tree !! key with
            | Some old_segment => or_bytes bitmap old_segment
            | None => bitmap
            end
        | None => bitmap
        end).

(** [get_allocation_bitmap]: the allocator of the segment, cached. *)
Definition get_allocation_bitmap (h : Handler) (id : SegmentId.SegmentId) :
    option (SegmentAllocator * Handler) :=
  match allocators h !! SegmentId.seg id with
  | Some a => Some (a, h)
  | None =>
      bitmap ← load_bitmap h id;
      allocator ← alloc_new bitmap;
      allocator ← match old_root_allocation h with
                  | Some (offset, size) =>
                      if decide (SegmentId.get offset = id) then
                        '(_, allocator) ←
                          allocate_at allocator size (SegmentId.get_block_offset offset);
                        Some allocator
                      else Some allocator
                  | None => Some allocator
                  end;
      Some (allocator, set_allocator h id allocator)
  end.

Definition free_space_disk (h : Handler) (disk_id : DiskOffset.GlobalDiskId) :
    option StorageInfo :=
  free_space h !! DiskOffset.gid disk_id.

(** The method [free_space_tier]. *)
Definition free_space_of_tier (h : Handler) (class : Z) : option StorageInfo :=
  free_space_tier h !! Z.to_nat class.

Section Handler.
Context `{Bincode StorageInfo} `{Bincode DeadListData}.

Definition update_storage_info (info : StorageInfo) : bytes :=
  Content.build_upsert_msg [UBytes 0 (serialize info)].

(** The two messages of a change: the bits and the counter of the disk. *)
Definition space_messages (h : Handler) (offset : DiskOffset.DiskOffset) (size : Z)
    (action : Action) : option (list (bytes * bytes)) :=
  let disk_key := DiskOffset.class_disk_id offset in
  info ← free_space_disk h disk_key;
  Some [(segment.id_to_key (SegmentId.get offset),
         update_allocation_bitmap_msg offset size action);
        (space_accounting.key disk_key, update_storage_info info)].

Definition update_allocation_bitmap (h : Handler) (offset : DiskOffset.DiskOffset) (size : Z)
    (action : Action) : option Handler :=
  let h := count_allocation h in
  h ← count_free h offset (match action with Deallocate => size | Allocate => - size end);
  ms ← space_messages h offset size action;
  Some (push_messages h ms).

(** [Option<Generation>] is ordered with [None] below. *)
Definition snapshot_before (last : option Z) (generation : Z) : bool :=
  match last with None => true | Some g => g <? generation end.

Definition copy_on_write (h : Handler) (offset : DiskOffset.DiskOffset) (size generation : Z)
    (dataset_id : Z) : option (Handler * CopyOnWriteEvent) :=
  if snapshot_before (last_snapshot_generation h !! dataset_id) generation then
    h ← count_free h offset size;
    ms ← space_messages h offset size Deallocate;
    Some (push_messages h ms, Removed)
  else
    let key := deadlist.key dataset_id (current_generation h) offset in
    let data := serialize (mkDead size generation) in
    let msg := Content.build_overwrite_msg (Some data) in
    Some (push_messages h [(key, msg)], Preserved).

End Handler.

(** ** Bitmaps *)

Lemma lor_u8 x y : u8 (to_u8 (Z.lor (u8 x) (u8 y))) = Z.lor (u8 x) (u8 y).
Proof.
  pose proof (u8_range x) as [Hx0 Hx1]. pose proof (u8_range y) as [Hy0 Hy1].
  apply u8_to_u8. split; [by apply Z.lor_nonneg|].
  destruct (decide (Z.lor (u8 x) (u8 y) = 0)) as [->|Hne]; [lia|].
  apply (Z.log2_lt_pow2 _ 8); [pose proof (proj2 (Z.lor_nonneg (u8 x) (u8 y))); lia|].
  rewrite Z.log2_lor by done.
  assert (∀ z, 0 ≤ z < 256 → Z.log2 z < 8) as Hl.
  { intros z [Hz0 Hz]. destruct (decide (z = 0)) as [->|]; [done|].
    apply (Z.log2_lt_pow2 _ 8); lia. }
  apply Z.max_lub_lt; apply Hl; lia.
Qed.

Lemma length_or_bytes w old : length (or_bytes w old) = length w.
Proof. revert old; induction w as [|x w IH]; intros [|y old]; simpl; auto. Qed.

Lemma lookup_or_bytes w old i :
  or_bytes w old !! i =
    (x ← w !! i; Some (match old !! i with
                       | Some y => to_u8 (Z.lor (u8 x) (u8 y))
                       | None => x end)).
Proof.
  revert old i; induction w as [|x w IH]; intros [|y old] [|i]; simpl; try done.
  by destruct (w !! i).
Qed.

Lemma bit_at_or_bytes w old k :
  0 ≤ k < 8 * blen w → bit_at (or_bytes w old) k = bit_at w k || bit_at old k.
Proof.
  intros Hk. unfold bit_at. rewrite lookup_or_bytes.
  destruct (lookup_lt_is_Some_2 w (Z.to_nat (k / 8))) as [x Hx].
  { unfold blen in Hk. pose proof (Z.div_lt_upper_bound k 8 (Z.of_nat (length w))).
    pose proof (Z.div_pos k 8). lia. }
  rewrite Hx. simpl. destruct (old !! _) as [y|]; [|by rewrite orb_false_r].
  unfold byte_bit. by rewrite lor_u8, Z.lor_spec.
Qed.

(** What a root tree stores for a segment. *)
Definition stored_bits (t : contents) (id : SegmentId.SegmentId) : bytes :=
  default [] (t !! segment.id_to_key id).

Definition last_bits (h : Handler) (id : SegmentId.SegmentId) : bytes :=
  match last_root_tree h with Some t => stored_bits t id | None => [] end.

Lemma load_bitmap_spec h id :
  blen (stored_bits (current_root_tree h) id) ≤ SEGMENT_SIZE_BYTES →
  ∃ d, load_bitmap h id = Some d ∧ blen d = SEGMENT_SIZE_BYTES ∧
    ∀ k, 0 ≤ k < SEGMENT_SIZE →
      bit_at d k = bit_at (stored_bits (current_root_tree h) id) k || bit_at (last_bits h id) k.
Proof.
  unfold stored_bits. set (c := current_root_tree h !! _). intros Hlen.
  set (b := default [] c ++ replicate (Z.to_nat SEGMENT_SIZE_BYTES - length (default [] c)) zero).
  assert (blen b = SEGMENT_SIZE_BYTES) as Hb.
  { unfold b, blen in *. rewrite length_app, length_replicate.
    pose proof segment_bytes_eq. pose proof segment_size_eq. lia. }
  assert (load_bitmap h id =
    Some (match last_root_tree h with
          | Some t => match t !! segment.id_to_key id with
                      | Some old => or_bytes b old | None => b end
          | None => b end)) as ->.
  { unfold load_bitmap. fold c. subst b. destruct c as [s|] eqn:Ec; simpl in *.
    - rewrite (proj2 (Z.leb_le _ _)) by done. simpl. rewrite drop_replicate. done.
    - by rewrite Nat.sub_0_r. }
  eexists. split; [done|].
  assert (∀ k, 0 ≤ k → bit_at b k = bit_at (default [] c) k) as Hbit.
  { intros k Hk. by apply bit_at_app_zeros. }
  pose proof segment_bytes_eq.
  unfold last_bits. destruct (last_root_tree h) as [t|]; [|split; [done|]].
  - unfold stored_bits. destruct (t !! _) as [old|]; simpl; (split; [|intros k Hk]).
    + unfold blen. rewrite length_or_bytes. done.
    + rewrite bit_at_or_bytes, Hbit by lia. done.
    + done.
    + rewrite Hbit by lia. by rewrite orb_false_r.
  - intros k Hk. rewrite Hbit by lia. by rewrite orb_false_r.
Qed.

(** ** The invariant of the handler *)

Record handler_ok (h : Handler) : Prop := {
  ho_alloc : ∀ s a, allocators h !! s = Some a → alloc_ok a;
  ho_stored : ∀ id, blen (stored_bits (current_root_tree h) id) ≤ SEGMENT_SIZE_BYTES;
  ho_root : ∀ o n, old_root_allocation h = Some (o, n) →
    0 < n ∧ SegmentId.get_block_offset o + n ≤ SEGMENT_SIZE;
}.

(** Whether the handler treats block [k] of a segment as used. *)
Definition used (h : Handler) (id : SegmentId.SegmentId) (k : Z) : bool :=
  match get_allocation_bitmap h id with
  | Some (a, _) => bit_at (bitmap a) k
  | None => false
  end.

(** The part of the state [get_allocation_bitmap] depends on. *)
Record same_space (h h' : Handler) : Prop := {
  ss_alloc : allocators h' = allocators h;
  ss_cur : current_root_tree h' = current_root_tree h;
  ss_last : last_root_tree h' = last_root_tree h;
  ss_root : old_root_allocation h' = old_root_allocation h;
}.

Lemma same_space_trans h1 h2 h3 : same_space h1 h2 → same_space h2 h3 → same_space h1 h3.
Proof. intros [] []. split; congruence. Qed.

Lemma same_space_ok h h' : same_space h h' → handler_ok h → handler_ok h'.
Proof. intros [Ea Ec El Er] [Ha Hs Hr]. split; [rewrite Ea|rewrite Ec|rewrite Er]; done. Qed.

Lemma same_space_used h h' id k : same_space h h' → used h' id k = used h id k.
Proof.
  intros [Ea Ec El Er]. unfold used, get_allocation_bitmap. rewrite Ea, Er.
  assert (load_bitmap h' id = load_bitmap h id) as ->.
  { unfold load_bitmap. by rewrite Ec, El. }
  destruct (allocators h !! _); [done|].
  destruct (load_bitmap h id); simpl; [|done]. destruct (alloc_new _); simpl; [|done].
  destruct (old_root_allocation h) as [[o n]|]; simpl; [|done].
  case_decide; [|done]. destruct (allocate_at _ _ _) as [[]|]; done.
Qed.

(** What protects a block of a segment that is not cached: the current root
    tree, the one of the last sync, and the last root node. *)
Definition in_old_root (h : Handler) (id : SegmentId.SegmentId) (k : Z) : Prop :=
  ∃ o n, old_root_allocation h = Some (o, n) ∧ SegmentId.get o = id ∧
    SegmentId.get_block_offset o ≤ k < SegmentId.get_block_offset o + n.

Definition stored_used (h : Handler) (id : SegmentId.SegmentId) (k : Z) : bool :=
  bit_at (stored_bits (current_root_tree h) id) k || bit_at (last_bits h id) k.

(** The stored bitmaps mark all blocks of the last root node or none. *)
Definition root_uniform (h : Handler) : Prop :=
  ∀ o n, old_root_allocation h = Some (o, n) →
    ∀ k k', in_old_root h (SegmentId.get o) k → in_old_root h (SegmentId.get o) k' →
      stored_used h (SegmentId.get o) k = stored_used h (SegmentId.get o) k'.

Lemma same_space_uniform h h' : same_space h h' → root_uniform h → root_uniform h'.
Proof.
  intros [Ea Ec El Er] Hu o n Ho k k'. unfold in_old_root, stored_used, last_bits.
  rewrite Ec, El, Er in *. apply (Hu o n Ho).
Qed.

Lemma get_block_offset_range o : 0 ≤ SegmentId.get_block_offset o < SEGMENT_SIZE.
Proof.
  destruct o as [x]. rewrite get_block_offset_eq. apply Z.mod_pos_bound.
  pose proof segment_size_eq. lia.
Qed.

(** The last root node is taken out of a freshly loaded allocator. *)
Lemma protect_root h id d a :
  handler_ok h → root_uniform h → alloc_ok a → bitmap a = d →
  (∀ k, 0 ≤ k < SEGMENT_SIZE → bit_at d k = stored_used h id k) →
  ∃ a', match old_root_allocation h with
        | Some (offset, size) =>
            if decide (SegmentId.get offset = id) then
              '(_, allocator) ← allocate_at a size (SegmentId.get_block_offset offset);
              Some allocator
            else Some a
        | None => Some a
        end = Some a' ∧ alloc_ok a' ∧
    ∀ k, 0 ≤ k < SEGMENT_SIZE →
      bit_at (bitmap a') k = true ↔ stored_used h id k = true ∨ in_old_root h id k.
Proof.
  intros Hok Hu Ha Hd Hbits. subst d. unfold in_old_root.
  destruct (old_root_allocation h) as [[o n]|] eqn:Er.
  2: { exists a. split; [done|]. split; [done|]. intros k Hk. rewrite Hbits by done.
       split; [auto|]. intros [?|(?&?&?&_)]; done. }
  destruct (decide (SegmentId.get o = id)) as [Hid|Hid].
  2: { exists a. split; [done|]. split; [done|]. intros k Hk. rewrite Hbits by done.
       split; [auto|]. intros [?|(?&?&[= <- <-]&?&_)]; done. }
  destruct (ho_root _ Hok o n Er) as [Hn Hin]. pose proof (get_block_offset_range o) as Hr.
  pose proof segment_size_eq.
  destruct (allocate_at_spec a n (SegmentId.get_block_offset o)) as (b & a' & -> & Ha' & Hiff & Ht);
    [done|lia|lia|unfold U32_SIZE; lia|].
  exists a'. split; [done|]. split; [done|]. intros k Hk. destruct b.
  - destruct Ht as (_ & _ & Hbit). rewrite Hbit by done. case_decide.
    + split; [|done]. intros _. right. by exists o, n.
    + rewrite Hbits by done. split; [auto|]. intros [?|(?&?&[= <- <-]&_&?)]; [done|lia].
  - subst a'. rewrite Hbits by done. split; [auto|]. intros [?|(?&?&[= <- <-]&_&Hko)]; [done|].
    destruct (stored_used h id k) eqn:Hk0; [done|]. exfalso.
    assert (false = true); [|done]. apply Hiff. split; [lia|]. split; [lia|].
    intros k' Hk'. rewrite Hbits by lia. rewrite <- Hk0, <- Hid.
    apply (Hu o n Er); exists o, n; auto.
Qed.

(** Looking at a bitmap does not panic, gives a correct allocator, caches it,
    and does not change which blocks count as used. *)
Lemma get_bitmap_spec h id :
  handler_ok h → root_uniform h →
  ∃ a h', get_allocation_bitmap h id = Some (a, h') ∧ alloc_ok a ∧
    h' = set_allocator h id a ∧
    (∀ k, used h id k = bit_at (bitmap a) k) ∧
    (allocators h !! SegmentId.seg id = None → ∀ k, 0 ≤ k < SEGMENT_SIZE →
      used h id k = true ↔ stored_used h id k = true ∨ in_old_root h id k).
Proof.
  intros Hok Hu. unfold used, get_allocation_bitmap.
  destruct (allocators h !! SegmentId.seg id) as [a|] eqn:Ea.
  { exists a, h. split; [done|]. split; [by eapply ho_alloc|]. split; [|done].
    unfold set_allocator, set_allocators. rewrite insert_id by done. by destruct h. }
  destruct (load_bitmap_spec h id (ho_stored _ Hok id)) as (d & -> & Hd & Hbits).
  cbn [mbind option_bind]. destruct (alloc_new_scan d Hd) as (a & -> & Had & Ha).
  cbn [mbind option_bind].
  destruct (protect_root h id d a Hok Hu Ha Had Hbits) as (a' & -> & Ha' & Hp).
  cbn [mbind option_bind]. by exists a', (set_allocator h id a').
Qed.

Lemma seg_inj id id' : SegmentId.seg id = SegmentId.seg id' → id = id'.
Proof. destruct id, id'. simpl. congruence. Qed.

(** Replacing the allocator of a segment. *)
Lemma used_set_allocator h id a id' k :
  used (set_allocator h id a) id' k =
    if decide (id' = id) then bit_at (bitmap a) k else used h id' k.
Proof.
  unfold used, get_allocation_bitmap. cbn [set_allocator set_allocators allocators].
  case_decide as Hid.
  - subst. by rewrite lookup_insert_eq.
  - rewrite lookup_insert_ne by (intros E%seg_inj; congruence).
    cbn [set_allocator set_allocators old_root_allocation].
    change (load_bitmap (set_allocator h id a) id') with (load_bitmap h id').
    destruct (allocators h !! SegmentId.seg id'); [done|].
    destruct (load_bitmap h id'); simpl; [|done]. destruct (alloc_new _); simpl; [|done].
    destruct (old_root_allocation h) as [[o n]|]; simpl; [|done].
    case_decide; [|done]. destruct (allocate_at _ _ _) as [[]|]; done.
Qed.

Lemma handler_ok_set h id a : handler_ok h → alloc_ok a → handler_ok (set_allocator h id a).
Proof.
  intros [Ha Hs Hr] Hok. split; [|done|done]. intros s a'. simpl.
  rewrite lookup_insert_Some. naive_solver.
Qed.

Lemma root_uniform_set h id a : root_uniform h → root_uniform (set_allocator h id a).
Proof. done. Qed.

(** ** Properties *)


(** A handler with nothing allocated but the last root node. *)
Definition fresh_handler : Handler :=
  mkHandler ∅ None 1 {[ 0 := mkInfo 100 100 ]} [mkInfo 100 100] [] ∅ ∅ 0
    (Some (DiskOffset.mk 5, 2)).

Lemma fresh_handler_ok : handler_ok fresh_handler ∧ root_uniform fresh_handler.
Proof.
  split; [split|].
  - intros s a. simpl. by rewrite lookup_empty.
  - intros id. unfold stored_bits. simpl. rewrite lookup_empty. simpl.
    pose proof segment_bytes_eq. pose proof segment_size_eq. change (blen []) with 0. lia.
  - intros o n [= <- <-]. rewrite get_block_offset_eq, segment_size_eq.
    change (5 mod 262144) with 5. lia.
  - intros o n _ k k' _ _. unfold stored_used, stored_bits, last_bits. simpl.
    by rewrite !lookup_empty.
Qed.


(** The bit message of a change that lies in one segment. *)
Lemma bitmap_msg_effect k o size act old :
  0 ≤ size → SegmentId.get_block_offset o + size ≤ SEGMENT_SIZE →
  blen (default [] old) ≤ SEGMENT_SIZE_BYTES →
  ∃ r, Content.apply k (update_allocation_bitmap_msg o size act) old = Some (Some r) ∧
    blen r ≤ SEGMENT_SIZE_BYTES ∧
    ∀ j, 0 ≤ j → bit_at r j =
      if decide (SegmentId.get_block_offset o ≤ j < SegmentId.get_block_offset o + size)
      then as_bool act else bit_at (default [] old) j.
Proof.
  intros Hs He Hl. pose proof (get_block_offset_range o) as Hr.
  pose proof segment_size_eq. pose proof segment_bytes_eq.
  unfold update_allocation_bitmap_msg.
  rewrite apply_upsert_build by (apply Forall_singleton; simpl; unfold U32_SIZE; lia).
  unfold Content.apply_upserts. cbn [fold_upserts].
  destruct (apply_upsert_bits (default [] old) (SegmentId.get_block_offset o) size (as_bool act))
    as (d & Hd & Hdl & Hb); [lia|lia|unfold U32_SIZE; lia|].
  rewrite Hd. simpl. exists d. split; [done|]. split; [|done]. rewrite Hdl.
  apply Z.max_lub; [done|]. apply Z.lt_succ_r, Z.div_lt_upper_bound; lia.
Qed.

Section Properties.
Context `{Bincode StorageInfo} `{Bincode DeadListData}.

(** The counters know the disk and the class of an offset. *)
Definition known_disk (h : Handler) (o : DiskOffset.DiskOffset) : Prop :=
  is_Some (free_space h !! DiskOffset.gid (DiskOffset.class_disk_id o)) ∧
  is_Some (free_space_tier h !! Z.to_nat (DiskOffset.storage_class o)).

(** The counters and messages after [n] blocks of an offset became free. *)
Record accounted (h h' : Handler) (o : DiskOffset.DiskOffset) (n size : Z) (act : Action) : Prop := {
  ac_space : same_space h h';
  ac_disk : ∀ d, free_space h' !! d =
    (if decide (d = DiskOffset.gid (DiskOffset.class_disk_id o))
     then add_free n <$> free_space h !! d else free_space h !! d);
  ac_tier : ∀ c, free_space_tier h' !! c =
    (if decide (c = Z.to_nat (DiskOffset.storage_class o))
     then add_free n <$> free_space_tier h !! c else free_space_tier h !! c);
  ac_msgs : ∃ m, delayed_messages h' = delayed_messages h ++
    [(segment.id_to_key (SegmentId.get o), update_allocation_bitmap_msg o size act); m];
}.

Lemma count_free_spec h o n size act :
  known_disk h o →
  ∃ h1 ms, count_free h o n = Some h1 ∧ space_messages h1 o size act = Some ms ∧
    accounted h (push_messages h1 ms) o n size act ∧ allocations h1 = allocations h.
Proof.
  intros [[info Hi] [tier Ht]]. unfold count_free. rewrite Hi, Ht. cbn [mbind option_bind].
  do 2 eexists. split; [done|].
  unfold space_messages, free_space_disk. cbn [free_space]. rewrite lookup_insert_eq.
  cbn [mbind option_bind]. split; [done|]. split; [|done]. split.
  - done.
  - intros d. cbn [push_messages free_space]. case_decide as Hd.
    + subst. rewrite lookup_insert_eq, Hi. done.
    + rewrite lookup_insert_ne by done. done.
  - intros c. cbn [push_messages free_space_tier]. case_decide as Hc.
    + subst. rewrite list_lookup_insert_eq, Ht by (by eapply lookup_lt_Some). done.
    + rewrite list_lookup_insert_ne by done. done.
  - by eexists.
Qed.

Lemma accounted_tiers h h' o n size act :
  accounted h h' o n size act → length (free_space_tier h') = length (free_space_tier h).
Proof.
  intros Hac. apply Nat.le_antisymm.
  - apply lookup_ge_None. rewrite (ac_tier _ _ _ _ _ _ Hac).
    rewrite (lookup_ge_None_2 (free_space_tier h)) by done. by case_decide.
  - apply lookup_ge_None. pose proof (ac_tier _ _ _ _ _ _ Hac (length (free_space_tier h'))) as E.
    rewrite (lookup_ge_None_2 (free_space_tier h')) in E by done.
    case_decide; [|done]. by destruct (free_space_tier h !! _).
Qed.

Lemma recorded h o size act :
  known_disk h o →
  ∃ h', update_allocation_bitmap h o size act = Some h' ∧
    accounted h h' o (match act with Deallocate => size | Allocate => - size end) size act ∧
    allocations h' = wrap64 (allocations h + 1).
Proof.
  intros Hk. unfold update_allocation_bitmap.
  destruct (count_free_spec (count_allocation h) o
    (match act with Deallocate => size | Allocate => - size end) size act Hk)
    as (h1 & ms & -> & Hms & Hac & Hal).
  cbn [mbind option_bind]. rewrite Hms. cbn [mbind option_bind].
  eexists. split; [done|].
  split; [destruct Hac as [[] ? ? ?]; constructor; [constructor|..]; assumption|].
  simpl. by rewrite Hal.
Qed.

(** An allocation is recorded completely.  For a range of one segment on
    a known disk, [update_allocation_bitmap] does not panic and changes no
    bitmap; it moves the free counters of the disk and of its class by the
    size of the range (down for an allocation, up for a deallocation) and
    leaves all other counters alone; and the message it queues for the
    segment, applied to whatever bitmap is stored, sets exactly the bits of
    the range and keeps the bitmap within its size. *)
Theorem allocation_recorded h o size act :
  known_disk h o → 0 ≤ size → SegmentId.get_block_offset o + size ≤ SEGMENT_SIZE →
  ∃ h', update_allocation_bitmap h o size act = Some h' ∧
    accounted h h' o (match act with Deallocate => size | Allocate => - size end) size act ∧
    allocations h' = wrap64 (allocations h + 1) ∧
    ∀ old, blen (default [] old) ≤ SEGMENT_SIZE_BYTES →
      ∃ r, Content.apply [] (update_allocation_bitmap_msg o size act) old = Some (Some r) ∧
        blen r ≤ SEGMENT_SIZE_BYTES ∧
        ∀ j, 0 ≤ j → bit_at r j =
          if decide (SegmentId.get_block_offset o ≤ j < SegmentId.get_block_offset o + size)
          then as_bool act else bit_at (default [] old) j.
Proof.
  intros Hk Hs He. destruct (recorded h o size act Hk) as (h' & Hu & Hac & Hal).
  exists h'. do 3 (split; [done|]). intros old Hold. by apply bitmap_msg_effect.
Qed.

(** Copy on write frees a block exactly when no snapshot needs it.  An
    object born after the last snapshot of its data set is freed: counters go
    up and a message clears its bits.  Any other object is kept: the counters
    and bitmaps stay, and its dead list entry, under the current generation,
    records its size and birth. *)
Theorem copy_on_write_decision h o size g ds :
  known_disk h o →
  if snapshot_before (last_snapshot_generation h !! ds) g then
    ∃ h', copy_on_write h o size g ds = Some (h', Removed) ∧ accounted h h' o size size Deallocate
  else
    ∃ h' msg, copy_on_write h o size g ds = Some (h', Preserved) ∧ same_space h h' ∧
      free_space h' = free_space h ∧ free_space_tier h' = free_space_tier h ∧
      delayed_messages h' =
        delayed_messages h ++ [(deadlist.key ds (current_generation h) o, msg)] ∧
      ∀ k old, Content.apply k msg old = Some (Some (serialize (mkDead size g))).
Proof.
  intros Hk. unfold copy_on_write. destruct (snapshot_before _ _).
  - destruct (count_free_spec h o size size Deallocate Hk) as (h1 & ms & -> & Hms & Hac & _).
    cbn [mbind option_bind]. rewrite Hms. simpl. by eexists.
  - do 2 eexists. split; [done|]. split; [done|]. repeat (split; [done|]).
    intros k old. by destruct old.
Qed.

End Properties.

(** Concrete serialisations, for examples. *)
#[local] Instance info_bincode : Bincode StorageInfo := {
  serialize i := le64 (info_free i) ++ le64 (info_total i);
  deserialize b := w ← cut b 0 8; v ← cut b 8 8; Some (mkInfo (of_le w) (of_le v));
}.

#[local] Instance dead_bincode : Bincode DeadListData := {
  serialize d := le32 (dead_size d) ++ le64 (birth d);
  deserialize b := w ← cut b 0 4; v ← cut b 4 8; Some (mkDead (of_le w) (of_le v));
}.

Lemma fresh_known : known_disk fresh_handler (DiskOffset.mk 9).
Proof. split; eexists; reflexivity. Qed.

Lemma allocation_recorded_witness :
  ∃ h', update_allocation_bitmap fresh_handler (DiskOffset.mk 9) 3 Allocate = Some h' ∧
    free_space h' !! 0 = Some (mkInfo 97 100).
Proof.
  destruct (allocation_recorded fresh_handler (DiskOffset.mk 9) 3 Allocate fresh_known)
    as (h' & Hh & Hac & _); [lia|rewrite get_block_offset_eq, segment_size_eq; vm_compute; congruence|].
  exists h'. split; [exact Hh|]. rewrite (ac_disk _ _ _ _ _ _ Hac). reflexivity.
Defined.

Lemma copy_on_write_decision_witness :
  ∃ h', copy_on_write fresh_handler (DiskOffset.mk 9) 3 1 7 = Some (h', Removed).
Proof.
  destruct (copy_on_write_decision fresh_handler (DiskOffset.mk 9) 3 1 7 fresh_known) as (h' & Hh & _).
  by exists h'.
Defined.
