(* ===== verification/DmuAlloc.v ===== *)
(** * Allocation in the data management unit

    [Dmu::allocate] and [Dmu::allocate_raw_at] of [data_management/dmu.rs]:
    the classes of the allocation strategy are tried in order, on each the
    disk with the most free space is chosen, and its segments are searched
    round robin from the segment of the last allocation.

    The storage pool is the type parameter [SPL] of the source; its class
    [StoragePoolLayer] lists the methods used.  The search over the segments
    of a disk has one unit of fuel for each segment ([segment_fuel]). *)

From Stdlib Require Import ZArith Lia.
From stdpp Require Import base option list numbers gmap fin_maps.
From S2P Require Import Prelude.
From S2P Require Import Bytes.
From S2P Require Import Disk.
From S2P Require Import Allocator.
From S2P Require Import RootKeys.
From S2P Require Import Handler.

Definition NUM_STORAGE_CLASSES : Z := 4.

Class StoragePoolLayer := {
  disk_count : Z → Z;
  effective_free_size : Z → Z → Z → Z;
  actual_size : Z → Z → Z → Z;
  size_in_blocks : Z → Z → Z;
  num_disks : Z → Z → Z;
}.

Inductive DmuError := OutOfSpaceError | RawAllocationError (at_ : DiskOffset.DiskOffset) (size : Z).

Record Dmu := mkDmu {
  handler : Handler;
  alloc_strategy : list (list (option Z));
  allocation_data : list (list (option SegmentId.SegmentId));
  next_disk_id : Z;
}.

Definition set_handler (d : Dmu) (h : Handler) : Dmu :=
  mkDmu h (alloc_strategy d) (allocation_data d) (next_disk_id d).

(** [self.allocation_data[class][disk]]; out of range panics. *)
Definition last_segment (d : Dmu) (class disk : Z) : option (option SegmentId.SegmentId) :=
  disks ← allocation_data d !! Z.to_nat class;
  disks !! Z.to_nat disk.

Definition set_last_segment (d : Dmu) (class disk : Z) (s : SegmentId.SegmentId) : Dmu :=
  mkDmu (handler d) (alloc_strategy d)
    (alter (λ disks, <[Z.to_nat disk := Some s]> disks) (Z.to_nat class) (allocation_data d))
    (next_disk_id d).

(** [Iterator::max_by_key]: the last of the maximal elements. *)
Fixpoint max_by_key (key : Z → option Z) (l : list Z) : option (option Z) :=
  match l with
  | [] => Some None
  | x :: l =>
      kx ← key x;
      r ← max_by_key key l;
      match r with
      | None => Some (Some x)
      | Some y => ky ← key y; Some (Some (if kx <=? ky then y else x))
      end
  end.

(** The loop over the segments of a disk: the handler, the segment it ended
    in, and the address found. *)
Fixpoint search_segments (fuel : nat) (h : Handler) (size disk_size : Z)
    (first segment_id : SegmentId.SegmentId) :
    option (Handler * SegmentId.SegmentId * option DiskOffset.DiskOffset) :=
  match fuel with
  | O => None
  | S fuel =>
      '(allocator, h) ← get_allocation_bitmap h segment_id;
      '(allocation, allocator) ← allocate allocator size;
      let h := set_allocator h segment_id allocator in
      match allocation with
      | Some segment_offset =>
          disk_offset ← SegmentId.disk_offset segment_id segment_offset;
          Some (h, segment_id, Some disk_offset)
      | None =>
          next_segment_id ← SegmentId.next segment_id disk_size;
          if decide (next_segment_id = first) then Some (h, segment_id, None)
          else search_segments fuel h size disk_size first next_segment_id
      end
  end.

Definition segment_fuel (disk_size : Z) : nat := Z.to_nat (segment_count disk_size).

Section Allocate.
Context `{StoragePoolLayer} `{Bincode StorageInfo} `{Bincode DeadListData}.

(** The disk of a class with the most effective free space, starting from the
    round robin counter. *)
Definition choose_disk (d : Dmu) (class : Z) : option (Z * Dmu) :=
  let disks_in_class := disk_count class in
  let start_disk_id := next_disk_id d mod disks_in_class in
  let d := mkDmu (handler d) (alloc_strategy d) (allocation_data d)
             (wrap64 (next_disk_id d + 1)) in
  r ← max_by_key (λ disk_id,
        info ← free_space_disk (handler d) (DiskOffset.construct_disk_id class disk_id);
        Some (effective_free_size class disk_id (info_free info)))
      (seqZ start_disk_id (disks_in_class - start_disk_id) ++ seqZ 0 start_disk_id);
  disk_id ← r;
  Some (disk_id, d).

(** The segment the search of a disk starts in. *)
Definition start_segment (d : Dmu) (class disk_id : Z) : option SegmentId.SegmentId :=
  last_seg_id ← last_segment d class disk_id;
  match last_seg_id with
  | Some s => Some s
  | None => o ← DiskOffset.new class disk_id 0; Some (SegmentId.get o)
  end.

(** One iteration of the loop over the classes: [None] in the result is
    [continue 'class]. *)
Definition allocate_in_class (d : Dmu) (class size : Z) :
    option (option DiskOffset.DiskOffset * Dmu) :=
  if disk_count class =? 0 then Some (None, d)
  else
    tier ← free_space_of_tier (handler d) class;
    if info_free tier <? size then Some (None, d)
    else
      '(disk_id, d) ← choose_disk d class;
      let size := actual_size class disk_id size in
      let disk_size := size_in_blocks class disk_id in
      segment_id ← start_segment d class disk_id;
      '(h, segment_id, found) ←
        search_segments (segment_fuel disk_size) (handler d) size disk_size segment_id segment_id;
      let d := set_last_segment (set_handler d h) class disk_id segment_id in
      match found with
      | None => Some (None, d)
      | Some disk_offset =>
          h ← update_allocation_bitmap (handler d) disk_offset size Allocate;
          Some (Some disk_offset, set_handler d h)
      end.

Fixpoint allocate_in_classes (d : Dmu) (classes : list Z) (size : Z) :
    option ((DiskOffset.DiskOffset + DmuError) * Dmu) :=
  match classes with
  | [] => Some (inr OutOfSpaceError, d)
  | class :: classes =>
      '(r, d) ← allocate_in_class d class size;
      match r with
      | Some disk_offset => Some (inl disk_offset, d)
      | None => allocate_in_classes d classes size
      end
  end.

(** [Dmu::allocate] *)
Definition dmu_allocate (d : Dmu) (storage_preference size : Z) :
    option ((DiskOffset.DiskOffset + DmuError) * Dmu) :=
  assert! (storage_preference <? NUM_STORAGE_CLASSES);
  strategy ← alloc_strategy d !! Z.to_nat storage_preference;
  allocate_in_classes d (omap id strategy) size.

(** [Dmu::allocate_raw_at] *)
Definition allocate_raw_at (d : Dmu) (disk_offset : DiskOffset.DiskOffset) (size : Z) :
    option ((unit + DmuError) * Dmu) :=
  let class := DiskOffset.storage_class disk_offset in
  let disk_id := DiskOffset.disk_id disk_offset in
  size ← Block.mul U32_SIZE size (num_disks class disk_id);
  let segment_id := SegmentId.get disk_offset in
  _ ← last_segment d class disk_id;
  '(allocator, h) ← get_allocation_bitmap (handler d) segment_id;
  '(ok, allocator) ← allocate_at allocator size (SegmentId.get_block_offset disk_offset);
  let d := set_handler d (set_allocator h segment_id allocator) in
  if (ok : bool) then
    let d := set_last_segment d class disk_id segment_id in
    h ← update_allocation_bitmap (handler d) disk_offset size Allocate;
    Some (inl tt, set_handler d h)
  else Some (inr (RawAllocationError disk_offset size), d).

End Allocate.

(** ** The search over the segments *)

(** [size] blocks from [k] on are unused, or one of them is used, in every
    position. *)
Definition unused (h : Handler) (id : SegmentId.SegmentId) (k size : Z) : Prop :=
  0 ≤ k ∧ k + size ≤ SEGMENT_SIZE ∧ ∀ x, k ≤ x < k + size → used h id x = false.

Definition full (h : Handler) (id : SegmentId.SegmentId) (size : Z) : Prop :=
  ∀ k, ¬ unused h id k size.

(** The same blocks are used. *)
Definition same_used (h h' : Handler) : Prop :=
  ∀ id x, 0 ≤ x < SEGMENT_SIZE → used h' id x = used h id x.

(** Exactly the range becomes used. *)
Definition range_used (h h' : Handler) (id : SegmentId.SegmentId) (k size : Z) : Prop :=
  ∀ id' x, 0 ≤ x < SEGMENT_SIZE →
    used h' id' x = if decide (id' = id ∧ k ≤ x < k + size) then true else used h id' x.

(** Only the cached allocators differ. *)
Definition cache_only (h h' : Handler) : Prop := h' = set_allocators h (allocators h').

Definition space_ok (h : Handler) : Prop := handler_ok h ∧ root_uniform h.

Lemma same_used_trans h1 h2 h3 : same_used h1 h2 → same_used h2 h3 → same_used h1 h3.
Proof. intros H1 H2 id x Hx. by rewrite H2, H1. Qed.

Lemma same_used_full h h' id size : same_used h h' → full h' id size → full h id size.
Proof.
  intros Hs Hf k (H0 & H1 & Hx). apply (Hf k). split; [done|]. split; [done|].
  intros x Hx'. rewrite Hs by lia. auto.
Qed.

Lemma same_used_range h h1 h' id k size :
  same_used h h1 → range_used h1 h' id k size → range_used h h' id k size.
Proof. intros Hs Hr id' x Hx. rewrite Hr by done. by rewrite Hs. Qed.

(** One segment is tried. *)
Lemma try_segment h id size :
  space_ok h → 0 < size →
  ∃ a h1 r a', get_allocation_bitmap h id = Some (a, h1) ∧ allocate a size = Some (r, a') ∧
    let h' := set_allocator h1 id a' in
    space_ok h' ∧ cache_only h h' ∧
    match r with
    | Some k => unused h id k size ∧ range_used h h' id k size
    | None => full h id size ∧ same_used h h'
    end.
Proof.
  intros [Hok Hu] Hs. destruct (get_bitmap_spec h id Hok Hu) as (a & h1 & Hg & Ha & -> & Hb & _).
  destruct (allocate_spec a size Ha Hs) as (r & a' & Hal & Ha' & Hr).
  exists a, (set_allocator h id a), r, a'. split; [done|]. split; [done|]. intros h'.
  assert (h' = set_allocator h id a') as Hh'.
  { unfold h', set_allocator, set_allocators. simpl. by rewrite insert_insert_eq. }
  rewrite Hh'. clear h' Hh'. split; [split; [by apply handler_ok_set|done]|]. split; [done|].
  destruct r as [k|].
  - destruct Hr as [(_ & (H0 & H1 & Hfree) & Hbit) _]. split.
    + split; [done|]. split; [done|]. intros x Hx. rewrite Hb. auto.
    + intros id' x Hx. rewrite used_set_allocator.
      destruct (decide (id' = id)) as [->|Hne].
      * rewrite Hbit by done. repeat case_decide; try done; try tauto; by rewrite Hb.
      * case_decide; [tauto|done].
  - destruct Hr as [-> Hno]. split.
    + intros k (H0 & H1 & Hx). apply (Hno k). split; [done|]. split; [done|].
      intros x Hx'. rewrite <- Hb. auto.
    + intros id' x Hx. rewrite used_set_allocator. case_decide; [subst; by rewrite Hb|done].
Qed.

Section Search.
Context (c d : Z) (disk_size size : Z).
Hypothesis (Hc : 0 ≤ c < 4) (Hd : 0 ≤ d < 1024).
Hypothesis (Hdisk : 0 ≤ disk_size ≤ 2 ^ 52) (Hsize : 0 < size).

Abbreviation n := (segment_count disk_size).

Lemma count_pos : 0 < n.
Proof. unfold segment_count. lia. Qed.

(** What the search of a disk guarantees: the range it found, or that none of
    the segments from number [t] of the round on has room. *)
Definition search_result (h : Handler) (first t : Z)
    (res : Handler * SegmentId.SegmentId * option DiskOffset.DiskOffset) : Prop :=
  let '(h', id, r) := res in
  space_ok h' ∧ cache_only h h' ∧ ∃ i, 0 ≤ i < n ∧ id = seg_at c d i ∧
  match r with
  | Some o => ∃ k, SegmentId.disk_offset id k = Some o ∧ unused h id k size ∧
                range_used h h' id k size
  | None => same_used h h' ∧
      ∀ t', t ≤ t' < n → full h (seg_at c d ((first + t') mod n)) size
  end.

Lemma seg_at_inj i j :
  0 ≤ i < n → 0 ≤ j < n → seg_at c d i = seg_at c d j → i = j.
Proof.
  intros Hi Hj E. unfold seg_at in E. injection E as E. rewrite segment_size_eq in E. lia.
Qed.

Lemma seg_range i : 0 ≤ i < n → (i + 1) * SEGMENT_SIZE ≤ 2 ^ 52.
Proof.
  intros Hi. pose proof (proj1 (segment_count_spec disk_size i ltac:(lia)) ltac:(lia)) as Hin.
  rewrite segment_size_eq in *. lia.
Qed.

Lemma search_spec first t fuel h :
  space_ok h → 0 ≤ first < n → 0 ≤ t < n → Z.of_nat fuel = n - t →
  ∃ res, search_segments fuel h size disk_size (seg_at c d first)
           (seg_at c d ((first + t) mod n)) = Some res ∧ search_result h first t res.
Proof.
  pose proof count_pos as Hn. revert t h; induction fuel as [|fuel IH]; intros t h Hok Hfi Ht Hf; [lia|].
  set (i := (first + t) mod n). assert (0 ≤ i < n) as Hi by (apply Z.mod_pos_bound; lia).
  cbn [search_segments].
  destruct (try_segment h (seg_at c d i) size Hok Hsize) as (a & h1 & r & a' & -> & Hal & Hok' & Hco & Hr).
  cbn [mbind option_bind]. rewrite Hal. cbn [mbind option_bind]. destruct r as [k|].
  - destruct Hr as [Hun Hru]. pose proof (seg_range i Hi).
    assert (0 ≤ k < SEGMENT_SIZE) as Hk by (destruct Hun as (?&?&?); lia).
    destruct (seg_disk_offset c d i k) as (o & Ho & _); [lia..|].
    rewrite Ho. cbn [mbind option_bind]. eexists. split; [done|]. split; [done|].
    split; [done|]. exists i. split; [done|]. split; [done|]. by exists k.
  - destruct Hr as [Hfull Hsame].
    rewrite next_in_ring by done. cbn [mbind option_bind].
    assert (((i + 1) mod n) = (first + (t + 1)) mod n) as Hnx.
    { unfold i. rewrite Z.add_mod_idemp_l by lia. f_equal. lia. }
    rewrite Hnx. destruct (decide (t + 1 = n)) as [Ht1|Ht1].
    + rewrite Ht1. replace ((first + n) mod n) with first.
      2: { rewrite <- (Z.mod_small first n) at 1 by lia.
           rewrite <- (Z.mul_1_l n) at 2. by rewrite Z.mod_add by lia. }
      rewrite decide_True by done. eexists. split; [done|]. split; [done|]. split; [done|].
      exists i. split; [done|]. split; [done|]. split; [done|].
      intros t' Ht'. by replace t' with t by lia.
    + rewrite decide_False.
      2: { intros E. apply seg_at_inj in E; [|apply Z.mod_pos_bound; lia|done].
           pose proof (Z.div_mod (first + (t + 1)) n ltac:(lia)).
           assert ((first + (t + 1)) / n = 0 ∨ (first + (t + 1)) / n = 1) as [Hq|Hq]; [|nia|nia].
           pose proof (Z.div_pos (first + (t + 1)) n).
           pose proof (Z.div_lt_upper_bound (first + (t + 1)) n 2). lia. }
      destruct (IH (t + 1) (set_allocator h1 (seg_at c d i) a')) as ([[h' id] r'] & -> & Hres);
        [done|done|lia|lia|].
      eexists. split; [done|]. destruct Hres as (Hok2 & Hco2 & i' & Hi' & -> & Hr').
      split; [done|]. split; [unfold cache_only in *; rewrite Hco2, Hco; done|].
      exists i'. split; [done|]. split; [done|]. destruct r' as [o|].
      * destruct Hr' as (k & Ho & Hun & Hru). exists k. split; [done|]. split.
        -- destruct Hun as (?&?&Hx). split; [done|]. split; [done|]. intros x Hx'.
           rewrite <- (Hsame _ x) by lia. auto.
        -- by eapply same_used_range.
      * destruct Hr' as [Hsame' Hfull']. split; [by eapply same_used_trans|].
        intros t' Ht'. destruct (decide (t' = t)) as [->|]; [done|].
        eapply same_used_full; [done|]. apply Hfull'. lia.
Qed.

End Search.

(** ** [Dmu::allocate] *)

(** What the allocation relies on of a storage pool: at most 2^10 disks in a
    class, at most 2^52 blocks on a disk, and a request that is not empty
    takes space. *)
Class StoragePoolLaws `{StoragePoolLayer} := {
  pool_disk_count c : 0 ≤ disk_count c ≤ 1024;
  pool_size c d : 0 ≤ size_in_blocks c d ≤ 2 ^ 52;
  pool_actual c d s : 0 < s → 0 < actual_size c d s;
}.

Section AllocateSpec.
Context `{StoragePoolLaws} `{Bincode StorageInfo} `{Bincode DeadListData}.

(** The counters know every disk, and the remembered segments lie on their
    disks. *)
Record dmu_ok (m : Dmu) : Prop := {
  do_space : space_ok (handler m);
  do_disks : ∀ c d, 0 ≤ c < 4 → 0 ≤ d < disk_count c →
    is_Some (free_space (handler m) !! DiskOffset.gid (DiskOffset.construct_disk_id c d));
  do_tiers : length (free_space_tier (handler m)) = 4%nat;
  do_last : ∀ c d, 0 ≤ c < 4 → 0 ≤ d < disk_count c →
    ∃ r, last_segment m c d = Some r ∧
      ∀ s, r = Some s → ∃ i, 0 ≤ i < segment_count (size_in_blocks c d) ∧ s = seg_at c d i;
  do_strategy : length (alloc_strategy m) = 4%nat ∧
    ∀ row c, row ∈ alloc_strategy m → Some c ∈ row → 0 ≤ c < 4;
}.

Lemma max_by_key_spec key l :
  l ≠ [] → (∀ x, x ∈ l → is_Some (key x)) → ∃ y, max_by_key key l = Some (Some y) ∧ y ∈ l.
Proof.
  induction l as [|x l IH]; intros Hne Hk; [done|]. simpl.
  destruct (Hk x) as [kx ->]; [left|]. simpl. destruct l as [|z l].
  - simpl. exists x. split; [done|left].
  - destruct IH as (y & -> & Hy); [done|intros; apply Hk; by right|]. simpl.
    destruct (Hk y) as [ky ->]; [by right|]. simpl.
    destruct (kx <=? ky); eexists; (split; [done|]); [by right|left].
Qed.

(** Choosing a disk only moves the round robin counter. *)
Lemma choose_disk_spec m c :
  dmu_ok m → 0 ≤ c < 4 → 0 < disk_count c →
  ∃ d w, choose_disk m c = Some (d, mkDmu (handler m) (alloc_strategy m) (allocation_data m) w) ∧
    0 ≤ d < disk_count c.
Proof.
  intros Hok Hc Hn. unfold choose_disk.
  pose proof (Z.mod_pos_bound (next_disk_id m) (disk_count c) Hn) as Hs.
  set (s := next_disk_id m mod disk_count c) in *.
  destruct (max_by_key_spec (λ disk_id,
    info ← free_space_disk (handler m) (DiskOffset.construct_disk_id c disk_id);
    Some (effective_free_size c disk_id (info_free info)))
    (seqZ s (disk_count c - s) ++ seqZ 0 s)) as (d & Hd & Hin).
  - rewrite seqZ_cons by lia. done.
  - intros x Hx. assert (0 ≤ x < disk_count c) as Hr
      by (apply elem_of_app in Hx; rewrite !elem_of_seqZ in Hx; lia).
    destruct (do_disks _ Hok c x Hc Hr) as [i Hi]. unfold free_space_disk. rewrite Hi. by eexists.
  - cbn [handler]. rewrite Hd. simpl. do 2 eexists. split; [done|].
    apply elem_of_app in Hin. rewrite !elem_of_seqZ in Hin. lia.
Qed.

Lemma address_disk c d i k o :
  0 ≤ c < 4 → 0 ≤ d < 1024 → 0 ≤ i → (i + 1) * SEGMENT_SIZE ≤ 2 ^ 52 → 0 ≤ k < SEGMENT_SIZE →
  SegmentId.disk_offset (seg_at c d i) k = Some o →
  DiskOffset.class_disk_id o = DiskOffset.construct_disk_id c d ∧
  DiskOffset.storage_class o = c ∧ SegmentId.get o = seg_at c d i ∧
  SegmentId.get_block_offset o = k.
Proof.
  intros Hc Hd Hi He Hk Ho.
  destruct (seg_disk_offset c d i k Hc Hd Hi He Hk) as (o' & Ho' & Hg & Hb & Hcl & _).
  rewrite Ho in Ho'. injection Ho' as <-. split; [|done].
  unfold SegmentId.disk_offset in Ho. apply bind_Some in Ho as (x & Hx & [= <-]).
  apply u64_add_inv in Hx as [-> _]. unfold seg_at. cbn [SegmentId.seg]. unfold DiskOffset.from_u64.
  rewrite segment_size_eq in *.
  rewrite class_disk_id_div, construct_disk_id_value by (unfold U64_SIZE; lia). f_equal.
  symmetry. apply Z.div_unique with (i * 262144 + k); lia.
Qed.

(** The state between two allocations: only counters, messages and cached
    allocators of the handler changed. *)
Lemma dmu_ok_handler m h w last :
  dmu_ok m → space_ok h →
  (∀ d, is_Some (free_space (handler m) !! d) → is_Some (free_space h !! d)) →
  length (free_space_tier h) = length (free_space_tier (handler m)) →
  (∀ c d, 0 ≤ c < 4 → 0 ≤ d < disk_count c →
    ∃ r, last_segment (mkDmu h (alloc_strategy m) last w) c d = Some r ∧
      ∀ s, r = Some s → ∃ i, 0 ≤ i < segment_count (size_in_blocks c d) ∧ s = seg_at c d i) →
  dmu_ok (mkDmu h (alloc_strategy m) last w).
Proof.
  intros [Hs Hd Ht Hl Hst] Hh Hfs Hft Hla. split; [done| |by cbn [handler]; rewrite Hft|done|done].
  intros c d Hc Hdc. apply Hfs, Hd; done.
Qed.

Lemma last_set m h w c d s c' d' :
  dmu_ok m → 0 ≤ c < 4 → 0 ≤ d < disk_count c → 0 ≤ c' < 4 → 0 ≤ d' < disk_count c' →
  last_segment (set_last_segment (mkDmu h (alloc_strategy m) (allocation_data m) w) c d s) c' d' =
    if decide (c' = c ∧ d' = d) then Some (Some s) else last_segment m c' d'.
Proof.
  intros Hok Hc Hd Hc' Hd'. unfold last_segment, set_last_segment. cbn [allocation_data].
  destruct (do_last _ Hok c d Hc Hd) as (r & Hr & _). unfold last_segment in Hr.
  apply bind_Some in Hr as (disks & Hdk & Hr).
  destruct (decide (c' = c)) as [->|Hne].
  - rewrite list_lookup_alter_eq, Hdk. simpl. destruct (decide (d' = d)) as [->|Hned].
    + rewrite decide_True by done. apply list_lookup_insert_eq. by eapply lookup_lt_Some.
    + rewrite decide_False by tauto. apply list_lookup_insert_ne. lia.
  - rewrite decide_False by tauto. rewrite list_lookup_alter_ne by lia. done.
Qed.

Lemma start_segment_spec m c d :
  dmu_ok m → 0 ≤ c < 4 → 0 ≤ d < disk_count c →
  ∃ i, 0 ≤ i < segment_count (size_in_blocks c d) ∧ start_segment m c d = Some (seg_at c d i).
Proof.
  intros Hok Hc Hd. unfold start_segment. destruct (do_last _ Hok c d Hc Hd) as (r & -> & Hr).
  cbn [mbind option_bind]. destruct r as [s|].
  - destruct (Hr s eq_refl) as (i & Hi & ->). by exists i.
  - exists 0. split; [pose proof (count_pos (size_in_blocks c d)); lia|].
    pose proof (pool_disk_count c). pose proof (seg_at_first c d Hc ltac:(lia)) as Hf.
    destruct (DiskOffset.new c d 0); [|done]. done.
Qed.

(** Moving the remembered segment of a disk. *)
Lemma dmu_ok_last m h w c d i :
  dmu_ok m → space_ok h → cache_only (handler m) h →
  0 ≤ c < 4 → 0 ≤ d < disk_count c → 0 ≤ i < segment_count (size_in_blocks c d) →
  dmu_ok (set_last_segment (mkDmu h (alloc_strategy m) (allocation_data m) w) c d (seg_at c d i)).
Proof.
  intros Hok Hsp Hco Hc Hd Hi. apply (dmu_ok_handler m h w); [done|done| | |].
  - rewrite Hco. done.
  - rewrite Hco. done.
  - intros c' d' Hc' Hd'.
    change (mkDmu h (alloc_strategy m) _ w) with
      (set_last_segment (mkDmu h (alloc_strategy m) (allocation_data m) w) c d (seg_at c d i)).
    rewrite (last_set m) by done. case_decide as E; [|by apply (do_last _ Hok)].
    destruct E as [-> ->]. eexists. split; [done|]. intros s [= <-]. by exists i.
Qed.

(** Recording an allocation keeps the state consistent. *)
Lemma dmu_recorded m c d i k o size :
  dmu_ok m → 0 ≤ c < 4 → 0 ≤ d < disk_count c → 0 ≤ i < segment_count (size_in_blocks c d) →
  0 ≤ k < SEGMENT_SIZE → SegmentId.disk_offset (seg_at c d i) k = Some o →
  ∃ h, update_allocation_bitmap (handler m) o size Allocate = Some h ∧
    dmu_ok (set_handler m h) ∧ ∀ id x, used h id x = used (handler m) id x.
Proof.
  intros Hok Hc Hd Hi Hk Ho. pose proof (pool_disk_count c). pose proof (pool_size c d) as Hps.
  pose proof (seg_range _ Hps i Hi).
  destruct (address_disk c d i k o) as (Hdisk & Hcl & _); [lia..|done|].
  assert (known_disk (handler m) o) as Hkn.
  { split; [rewrite Hdisk; by apply (do_disks _ Hok)|rewrite Hcl].
    apply lookup_lt_is_Some_2. rewrite (do_tiers _ Hok). lia. }
  destruct (recorded (handler m) o size Allocate Hkn) as (h & Hup & Hac & _).
  exists h. split; [done|]. split; [|intros id x; apply same_space_used, Hac].
  apply (dmu_ok_handler m h); [done| | | |].
  - destruct (do_space _ Hok) as [? ?]. split; [eapply same_space_ok; [apply Hac|done]|].
    by eapply same_space_uniform; [apply Hac|].
  - intros x [y Hy]. rewrite (ac_disk _ _ _ _ _ _ Hac). case_decide; [|done]. rewrite Hy. by eexists.
  - apply (accounted_tiers _ _ _ _ _ _ Hac).
  - apply (do_last _ Hok).
Qed.

(** The outcome of an allocation: a range that was unused and is used now. *)
Definition placed (h h' : Handler) (size : Z) (o : DiskOffset.DiskOffset) : Prop :=
  ∃ c d i k, 0 ≤ c < 4 ∧ 0 ≤ d < disk_count c ∧
    0 ≤ i < segment_count (size_in_blocks c d) ∧
    SegmentId.disk_offset (seg_at c d i) k = Some o ∧
    let id := seg_at c d i in
    unused h id k (actual_size c d size) ∧ range_used h h' id k (actual_size c d size).

Lemma allocate_in_class_spec m c size :
  dmu_ok m → 0 ≤ c < 4 → 0 < size →
  ∃ r m', allocate_in_class m c size = Some (r, m') ∧ dmu_ok m' ∧
    alloc_strategy m' = alloc_strategy m ∧
    match r with
    | Some o => placed (handler m) (handler m') size o
    | None => same_used (handler m) (handler m')
    end.
Proof.
  intros Hok Hc Hs. unfold allocate_in_class.
  destruct (Z.eqb_spec (disk_count c) 0) as [|Hn]; [by exists None, m|].
  pose proof (pool_disk_count c).
  destruct (lookup_lt_is_Some_2 (free_space_tier (handler m)) (Z.to_nat c)) as [tier Ht];
    [rewrite (do_tiers _ Hok); lia|].
  unfold free_space_of_tier. rewrite Ht. cbn [mbind option_bind].
  destruct (info_free tier <? size); [by exists None, m|].
  destruct (choose_disk_spec m c Hok Hc ltac:(lia)) as (d & w & -> & Hd).
  cbn [mbind option_bind].
  set (m1 := mkDmu (handler m) (alloc_strategy m) (allocation_data m) w).
  assert (dmu_ok m1) as Hok1 by (by destruct Hok).
  destruct (start_segment_spec m1 c d Hok1 Hc Hd) as (i0 & Hi0 & ->). cbn [mbind option_bind].
  pose proof (pool_size c d) as Hps. pose proof (pool_actual c d size Hs) as Hpa.
  destruct (search_spec c d (size_in_blocks c d) (actual_size c d size) Hc ltac:(lia) Hps Hpa
    i0 0 (segment_fuel (size_in_blocks c d)) (handler m)) as ([[h' id] r] & Hse & Hres);
    [apply Hok|done|lia|unfold segment_fuel; lia|].
  rewrite Z.add_0_r, Z.mod_small in Hse by done. cbn [handler m1]. rewrite Hse.
  cbn [mbind option_bind]. destruct Hres as (Hsp & Hco & i & Hi & -> & Hr).
  set (m2 := set_last_segment (set_handler m1 h') c d (seg_at c d i)).
  assert (dmu_ok m2) as Hok2 by (by apply (dmu_ok_last m)).
  destruct r as [o|].
  2: { exists None, m2. split; [done|]. split; [done|]. split; [done|]. apply Hr. }
  destruct Hr as (k & Ho & Hun & Hru).
  assert (0 ≤ k < SEGMENT_SIZE) as Hk by (destruct Hun as (?&?&?); lia).
  destruct (dmu_recorded m2 c d i k o (actual_size c d size) Hok2 Hc Hd Hi Hk Ho)
    as (h3 & Hup & Hok3 & Hus).
  rewrite Hup. cbn [mbind option_bind]. exists (Some o), (set_handler m2 h3).
  do 3 (split; [done|]). exists c, d, i, k. do 4 (split; [done|]). split; [done|].
  intros id' x Hx. rewrite <- Hru by done. apply Hus.
Qed.

Lemma placed_after h h1 h' size o : same_used h h1 → placed h1 h' size o → placed h h' size o.
Proof.
  intros Hs (c & d & i & k & Hc & Hd & Hi & Ho & (Hk0 & Hk1 & Hx) & Hr).
  exists c, d, i, k. do 4 (split; [done|]). split; [|by eapply same_used_range].
  split; [done|]. split; [done|]. intros x Hx'. rewrite <- Hs by lia. auto.
Qed.

Lemma allocate_in_classes_spec m classes size :
  dmu_ok m → Forall (λ c, 0 ≤ c < 4) classes → 0 < size →
  ∃ r m', allocate_in_classes m classes size = Some (r, m') ∧ dmu_ok m' ∧
    match r with
    | inl o => placed (handler m) (handler m') size o
    | inr e => e = OutOfSpaceError ∧ same_used (handler m) (handler m')
    end.
Proof.
  intros Hok Hf Hs. revert m Hok; induction Hf as [|c classes Hc _ IH]; intros m Hok; simpl.
  { by exists (inr OutOfSpaceError), m. }
  destruct (allocate_in_class_spec m c size Hok Hc Hs) as (r & m1 & -> & Hok1 & _ & Hr).
  cbn [mbind option_bind]. destruct r as [o|]; [by exists (inl o), m1|].
  destruct (IH m1 Hok1) as (r & m' & -> & Hok' & Hr'). exists r, m'. do 2 (split; [done|]).
  destruct r as [o|e]; [by eapply placed_after|]. destruct Hr' as [-> Hr'].
  split; [done|]. by eapply same_used_trans.
Qed.

Lemma dmu_allocate_spec m pref size :
  dmu_ok m → 0 ≤ pref < 4 → 0 < size →
  ∃ r m', dmu_allocate m pref size = Some (r, m') ∧ dmu_ok m' ∧
    match r with
    | inl o => placed (handler m) (handler m') size o
    | inr e => e = OutOfSpaceError ∧ same_used (handler m) (handler m')
    end.
Proof.
  intros Hok Hp Hs. unfold dmu_allocate, NUM_STORAGE_CLASSES.
  rewrite (proj2 (Z.ltb_lt _ _)) by lia. destruct (do_strategy _ Hok) as [Hl Hst].
  destruct (lookup_lt_is_Some_2 (alloc_strategy m) (Z.to_nat pref)) as [row Hrow]; [lia|].
  rewrite Hrow. cbn [mbind option_bind]. apply allocate_in_classes_spec; [done| |done].
  apply Forall_forall. intros c (x & Hx & E)%list_elem_of_omap. unfold id in E. subst x.
  eapply Hst; [by eapply list_elem_of_lookup_2|done].
Qed.

(** C38: [Dmu::allocate] hands out fresh blocks.  On a consistent state it
    does not panic and its loops end; the state stays consistent.  If it
    returns an address, this lies in a segment of a disk of the pool, the
    blocks of the request were all unused, and exactly these blocks are now
    used; if it returns an error, the error is [OutOfSpaceError] and no block
    changed its state. *)
Theorem dmu_allocate_fresh m pref size :
  dmu_ok m → 0 ≤ pref < 4 → 0 < size →
  ∃ r m', dmu_allocate m pref size = Some (r, m') ∧ dmu_ok m' ∧
    match r with
    | inl o => placed (handler m) (handler m') size o
    | inr e => e = OutOfSpaceError ∧ same_used (handler m) (handler m')
    end.
Proof. apply dmu_allocate_spec. Qed.

(** The blocks of an allocation as addresses. *)
Definition blocks_of (size : Z) (o : DiskOffset.DiskOffset) (x : Z) : Prop :=
  DiskOffset.as_u64 o ≤ x < DiskOffset.as_u64 o +
    actual_size (DiskOffset.storage_class o) (DiskOffset.disk_id o) size.

(** A placed range by its addresses. *)
Lemma placed_blocks h h' size o :
  0 < size → placed h h' size o →
  ∃ id k n, 0 ≤ k ∧ k + n ≤ SEGMENT_SIZE ∧ SegmentId.seg id mod SEGMENT_SIZE = 0 ∧
    unused h id k n ∧ range_used h h' id k n ∧
    ∀ x, blocks_of size o x ↔ SegmentId.seg id + k ≤ x < SegmentId.seg id + k + n.
Proof.
  intros Hs (c & d & i & k & Hc & Hd & Hi & Ho & Hun & Hru).
  pose proof (pool_disk_count c). pose proof (pool_size c d) as Hps.
  pose proof (pool_actual c d size Hs). pose proof (seg_range _ Hps i Hi).
  exists (seg_at c d i), k, (actual_size c d size). pose proof Hun as (?&?&_).
  split; [done|]. split; [done|].
  pose proof segment_size_eq.
  split; [rewrite <- (Z.add_0_r (SegmentId.seg _)); apply seg_at_aligned; lia|].
  do 2 (split; [done|]). intros x. unfold blocks_of.
  destruct (seg_disk_offset c d i k) as (o' & Ho' & _ & _ & Hcl & Hdi & _); [lia..|].
  rewrite Ho in Ho'. injection Ho' as <-. rewrite Hcl, Hdi. unfold SegmentId.disk_offset in Ho.
  apply bind_Some in Ho as (y & [-> _]%u64_add_inv & [= <-]). done.
Qed.

(** Allocations do not overlap.  Of two allocations in a row that both
    succeed, no block belongs to both. *)
Theorem allocations_disjoint m pref1 size1 o1 m1 pref2 size2 o2 m2 :
  dmu_ok m → 0 ≤ pref1 < 4 → 0 ≤ pref2 < 4 → 0 < size1 → 0 < size2 →
  dmu_allocate m pref1 size1 = Some (inl o1, m1) →
  dmu_allocate m1 pref2 size2 = Some (inl o2, m2) →
  ∀ x, ¬ (blocks_of size1 o1 x ∧ blocks_of size2 o2 x).
Proof.
  intros Hok Hp1 Hp2 Hs1 Hs2 Hal1 Hal2 x [Hx1 Hx2].
  destruct (dmu_allocate_spec m pref1 size1 Hok Hp1 Hs1) as (r & m1' & E & Hok1 & Hr).
  rewrite Hal1 in E. injection E as <- <-.
  destruct (dmu_allocate_spec m1 pref2 size2 Hok1 Hp2 Hs2) as (r & m2' & E & _ & Hr2).
  rewrite Hal2 in E. injection E as <- <-.
  apply placed_blocks in Hr as (id1 & k1 & n1 & Hk1 & He1 & Ha1 & _ & Hru & Hb1); [|done].
  apply placed_blocks in Hr2 as (id2 & k2 & n2 & Hk2 & He2 & Ha2 & (_ & _ & Hun) & _ & Hb2); [|done].
  apply Hb1 in Hx1. apply Hb2 in Hx2. pose proof segment_size_eq as HS.
  assert (id1 = id2) as ->.
  { apply seg_inj. apply Z.mod_divide in Ha1 as [a Ha]; [|lia].
    apply Z.mod_divide in Ha2 as [b Hb]; [|lia]. rewrite HS in *. lia. }
  specialize (Hun (x - SegmentId.seg id2) ltac:(lia)). rewrite Hru in Hun by lia.
  rewrite decide_True in Hun; [done|]. split; [done|lia].
Qed.

(** ** [Dmu::allocate_raw_at] *)

(** The segment and offset of a block of a disk. *)
Lemma address_split c d b :
  0 ≤ c < 4 → 0 ≤ d < 1024 → 0 ≤ b < size_in_blocks c d →
  ∃ i k o, DiskOffset.new c d b = Some o ∧ 0 ≤ i < segment_count (size_in_blocks c d) ∧
    0 ≤ k < SEGMENT_SIZE ∧ SegmentId.disk_offset (seg_at c d i) k = Some o.
Proof.
  intros Hc Hd Hb. pose proof (pool_size c d) as Hps. pose proof segment_size_eq as HS.
  pose proof (Z.div_mod b SEGMENT_SIZE ltac:(lia)) as Hsplit.
  pose proof (Z.mod_pos_bound b SEGMENT_SIZE ltac:(lia)) as Hk.
  assert (0 ≤ b / SEGMENT_SIZE) as Hi0 by (apply Z.div_pos; lia).
  set (i := b / SEGMENT_SIZE) in *. set (k := b mod SEGMENT_SIZE) in *.
  assert (0 ≤ i < segment_count (size_in_blocks c d)) as Hi.
  { split; [done|]. apply segment_count_spec; [done|]. right. lia. }
  pose proof (seg_range _ Hps i Hi).
  destruct (seg_disk_offset c d i k) as (o & Ho & _); [lia..|].
  exists i, k, o. split; [|done]. rewrite new_value by lia. unfold SegmentId.disk_offset in Ho.
  apply bind_Some in Ho as (y & [-> _]%u64_add_inv & [= <-]).
  unfold seg_at, DiskOffset.from_u64. cbn [SegmentId.seg]. do 2 f_equal. lia.
Qed.

(** [allocate_raw_at] takes exactly the given blocks, and only when they
    are all unused: on [Ok] exactly they become used, on an error
    ([RawAllocationError] with the address) no block changes its state. *)
Theorem raw_allocation_exact m c d b n :
  dmu_ok m → 0 ≤ c < 4 → 0 ≤ d < disk_count c → 0 ≤ b → b < size_in_blocks c d →
  0 < n * num_disks c d → n * num_disks c d < U32_SIZE - SEGMENT_SIZE →
  ∃ o r m', DiskOffset.new c d b = Some o ∧ allocate_raw_at m o n = Some (r, m') ∧ dmu_ok m' ∧
    let id := SegmentId.get o in let k := SegmentId.get_block_offset o in
    match r with
    | inl _ => unused (handler m) id k (n * num_disks c d) ∧
        range_used (handler m) (handler m') id k (n * num_disks c d)
    | inr e => e = RawAllocationError o (n * num_disks c d) ∧
        same_used (handler m) (handler m') ∧ ¬ unused (handler m) id k (n * num_disks c d)
    end.
Proof.
  intros Hok Hc Hd Hb Hbs Hn0 Hn1. pose proof (pool_disk_count c). pose proof (pool_size c d).
  pose proof segment_size_eq as HS.
  destruct (address_split c d b) as (i & k & o & Hnew & Hi & Hk & Ho); [lia..|].
  pose proof (seg_range _ (pool_size c d) i Hi) as Hir.
  destruct (seg_disk_offset c d i k) as (o' & Ho' & Hg & Hbo & Hcl & Hdi & _); [lia..|].
  rewrite Ho in Ho'. injection Ho' as <-.
  exists o. rewrite Hg, Hbo. unfold allocate_raw_at. rewrite Hcl, Hdi.
  unfold Block.mul, umul. rewrite (proj2 (Z.ltb_lt _ _)) by (unfold U32_SIZE in *; lia).
  cbn [mbind option_bind]. set (size := n * num_disks c d) in *.
  destruct (do_last _ Hok c d Hc Hd) as (r0 & -> & _). cbn [mbind option_bind].
  destruct (do_space _ Hok) as [Hho Hu].
  rewrite Hg, Hbo.
  destruct (get_bitmap_spec (handler m) (seg_at c d i) Hho Hu) as (a & h1 & -> & Ha & -> & Hbit & _).
  cbn [mbind option_bind].
  destruct (allocate_at_spec a size k) as (ok & a' & -> & Ha' & Hiff & Ht); [done|done|lia|lia|].
  cbn [mbind option_bind].
  assert (set_allocator (set_allocator (handler m) (seg_at c d i) a) (seg_at c d i) a' =
    set_allocator (handler m) (seg_at c d i) a') as ->.
  { unfold set_allocator, set_allocators. simpl. by rewrite insert_insert_eq. }
  set (h2 := set_allocator (handler m) (seg_at c d i) a').
  assert (space_ok h2) as Hsp by (split; [by apply handler_ok_set|done]).
  assert (unused (handler m) (seg_at c d i) k size ↔ range_free a k size) as Huf.
  { unfold unused, range_free. setoid_rewrite Hbit. done. }
  destruct ok; cycle 1.
  { exists (inr (RawAllocationError o size)), (set_handler m h2). do 2 (split; [done|]).
    split; [apply (dmu_ok_handler m h2); try done; apply (do_last _ Hok)|].
    split; [done|]. subst a'. split; [|rewrite Huf, <- Hiff; done].
    intros id' x Hx. unfold h2, set_handler. cbn [handler]. rewrite used_set_allocator.
    case_decide; [subst; by rewrite Hbit|done]. }
  set (m2 := set_last_segment (set_handler m h2) c d (seg_at c d i)).
  assert (dmu_ok m2) as Hok2 by (by apply (dmu_ok_last m)).
  destruct (dmu_recorded m2 c d i k o size Hok2 Hc Hd Hi Hk Ho) as (h3 & Hup & Hok3 & Hus).
  rewrite Hup. cbn [mbind option_bind]. exists (inl tt), (set_handler m2 h3).
  do 3 (split; [done|]).
  destruct Ht as (_ & Hf & Hbits). split; [by apply Huf|]. intros id' x Hx.
  cbn [handler set_handler]. rewrite Hus. change (handler m2) with h2. unfold h2.
  rewrite used_set_allocator. destruct (decide (id' = seg_at c d i)) as [->|].
  - rewrite Hbits by done. repeat case_decide; try done; try tauto; by rewrite Hbit.
  - case_decide; [tauto|done].
Qed.

End AllocateSpec.

(** ** A small pool *)

Module DmuAllocExamples.

#[local] Existing Instance info_bincode.
#[local] Existing Instance dead_bincode.

(** One disk of eight blocks. *)
#[local] Instance one_disk : StoragePoolLayer := {
  disk_count c := if c =? 0 then 1 else 0;
  effective_free_size _ _ free := free;
  actual_size _ _ size := size;
  size_in_blocks _ _ := 8;
  num_disks _ _ := 1;
}.

#[local] Instance one_disk_laws : StoragePoolLaws.
Proof. split; intros; simpl; try lia. by case_match; lia. Qed.

(** Blocks 0, 1, 4 and 5 are in use. *)
Definition fragmented : SegmentAllocator :=
  mkAlloc (fill_bits (fill_bits blank_bitmap 0 2 true) 4 2 true) [(2, 2); (6, SEGMENT_SIZE - 6)].

Lemma fragmented_ok : alloc_ok fragmented.
Proof.
  pose proof segment_size_eq. pose proof segment_bytes_eq. pose proof blank_len as Hl.
  split; cbn [fragmented bitmap free_segments].
  - unfold blen. rewrite !length_fill_bits. apply blank_len.
  - simpl. lia.
  - intros k Hk. rewrite !bit_at_fill_bits, blank_bit;
      try (unfold blen in *; rewrite ?length_fill_bits; lia).
    rewrite !covered_cons, covered_nil. cbn [fst snd].
    rewrite segment_size_eq in *. change (Z.of_nat 2) with 2. repeat case_decide;
      (split; [intros Hb; first [discriminate Hb|lia]|intros Hb; first [exfalso; lia|reflexivity]]).
Qed.

Definition small_handler : Handler :=
  mkHandler ∅ None 1 {[ 0 := mkInfo 4 8 ]} (replicate 4 (mkInfo 4 8)) [] ∅
    {[ 0 := fragmented ]} 0 None.

Definition small_dmu : Dmu :=
  mkDmu small_handler (replicate 4 [Some 0]) [[None]; []; []; []] 0.

Lemma small_dmu_ok : dmu_ok small_dmu.
Proof.
  split.
  - split; [split|].
    + intros s a. simpl. rewrite lookup_singleton_Some. intros [_ <-]. apply fragmented_ok.
    + intros id. unfold stored_bits. simpl. rewrite lookup_empty.
      pose proof segment_bytes_eq. pose proof segment_size_eq. change (blen (default [] None)) with 0. lia.
    + done.
    + done.
  - intros c d Hc Hd. simpl in Hd. case_match; [|lia].
    assert (c = 0) as -> by (by apply Z.eqb_eq). assert (d = 0) as -> by lia. by eexists.
  - done.
  - intros c d Hc Hd. simpl in Hd. case_match; [|lia].
    assert (c = 0) as -> by (by apply Z.eqb_eq). assert (d = 0) as -> by lia.
    exists None. done.
  - split; [done|]. intros row c Hrow Hin. apply elem_of_replicate in Hrow as [-> _].
    apply list_elem_of_singleton in Hin. injection Hin as ->. lia.
Qed.

Lemma dmu_allocate_fresh_witness :
  ∃ r m', dmu_allocate small_dmu 0 2 = Some (r, m') ∧ dmu_ok m'.
Proof.
  destruct (dmu_allocate_fresh small_dmu 0 2 small_dmu_ok) as (r & m' & Hr & Hok & _); [lia..|].
  exists r, m'. split; [exact Hr|exact Hok].
Defined.

(** Two requests in a row, and the addresses they get. *)
Definition two_requests : option (Z * Z) :=
  match dmu_allocate small_dmu 0 2 with
  | Some (inl o1, m1) =>
      match dmu_allocate m1 0 2 with
      | Some (inl o2, _) => Some (DiskOffset.as_u64 o1, DiskOffset.as_u64 o2)
      | _ => None
      end
  | _ => None
  end.

Lemma two_requests_value : two_requests = Some (2, 6).
Proof. vm_compute. reflexivity. Qed.

Lemma allocations_disjoint_witness :
  ∃ o1 o2, DiskOffset.as_u64 o1 = 2 ∧ DiskOffset.as_u64 o2 = 6 ∧
    ∀ x, ¬ (blocks_of 2 o1 x ∧ blocks_of 2 o2 x).
Proof.
  pose proof two_requests_value as Hv. unfold two_requests in Hv.
  destruct (dmu_allocate small_dmu 0 2) as [[[o1|] m1]|] eqn:E1; try discriminate Hv.
  destruct (dmu_allocate m1 0 2) as [[[o2|] m2]|] eqn:E2; try discriminate Hv.
  injection Hv as H1 H2. exists o1, o2. split; [exact H1|]. split; [exact H2|].
  apply (allocations_disjoint small_dmu 0 2 o1 m1 0 2 o2 m2 small_dmu_ok); [lia..|exact E1|exact E2].
Defined.

Lemma raw_allocation_exact_witness :
  ∃ o r m', DiskOffset.new 0 0 2 = Some o ∧ allocate_raw_at small_dmu o 2 = Some (r, m') ∧ dmu_ok m'.
Proof.
  destruct (raw_allocation_exact small_dmu 0 0 2 2 small_dmu_ok) as (o & r & m' & Ho & Hr & Hok & _);
    [simpl; lia..|simpl; unfold U32_SIZE; rewrite segment_size_eq; lia|].
  exists o, r, m'. split; [exact Ho|]. split; [exact Hr|exact Hok].
Defined.

(** The address of a request, if it gets one. *)
Definition request (m : Dmu) (size : Z) : option Z :=
  match dmu_allocate m 0 size with
  | Some (inl o, _) => Some (DiskOffset.block_offset o)
  | _ => None
  end.

(** An allocation can lie outside its disk.  The segments of a disk are
    searched whole, also where the disk ends inside a segment.  On a disk of
    eight blocks of which four, not in a row, are free, a request for four
    blocks passes the check of the free space and is placed at block six. *)
Theorem allocates_past_disk_end :
  dmu_ok small_dmu ∧ request small_dmu 4 = Some 6 ∧ size_in_blocks 0 0 < 6 + 4.
Proof. split; [apply small_dmu_ok|]. split; [vm_compute; reflexivity|simpl; lia]. Qed.

End DmuAllocExamples.
