(* ===== verification/Clock.v ===== *)
(** * The clock of the cache

    [cache/clock.rs]: a circular singly linked list over raw pointers.  The
    memory is a map from pointers to entries; reading or freeing a pointer
    that is not in it has no result, so that a result means no dangling
    pointer was used.  [ring] ties a clock to the list of its elements, head
    first, and says that the memory holds nothing else.

    The main theorem is the one the unit test of the file samples: any
    sequence of operations gives the same answers as on a [VecDeque], without
    touching freed memory and without a leak. *)

From Stdlib Require Import Lia.
From stdpp Require Import base option list gmap fin_maps.
From S2P Require Import Prelude.

Abbreviation ptr := positive.

Record ClockEntry (T : Type) := mkEntry { value : T; next : ptr }.
Arguments mkEntry {T}.
Arguments value {T}.
Arguments next {T}.

Record Clock := mkClock { tail : option ptr }.

Record ClockIter := mkClockIter { current : option ptr; last_ : ptr }.

(** [NonNull::dangling]: some pointer, never read. *)
Definition dangling : ptr := 1%positive.

Section clock.
Context {T : Type}.
Abbreviation mem := (gmap ptr (ClockEntry T)).
Implicit Types (m : mem) (c : Clock) (p : ptr) (x v : T).

(** ** Memory *)

Definition deref m p : option (ClockEntry T) := m !! p.

Definition set_next m p (n : ptr) : option mem :=
  e ← m !! p; Some (<[p := mkEntry (value e) n]> m).

Definition set_value m p v : option mem :=
  e ← m !! p; Some (<[p := mkEntry v (next e)]> m).

(** [Box::new] and [Box::into_raw] *)
Definition box_new m (e : ClockEntry T) : ptr * mem :=
  let p := fresh (dom m) in (p, <[p := e]> m).

(** [Box::from_raw]: the entry is moved out of the box, which is freed. *)
Definition box_take m p : option (ClockEntry T * mem) :=
  e ← m !! p; Some (e, delete p m).

(** ** Operations *)

Definition clock_default : Clock := mkClock None.

(** [pop_front] *)
Definition pop_front m c : option (option T * mem * Clock) :=
  match tail c with
  | None => Some (None, m, c)
  | Some tail =>
      head ← next <$> deref m tail;
      '(m, c) ←
        (if negb (bool_decide (head = tail)) then
           n ← next <$> deref m head;
           m ← set_next m tail n;
           Some (m, c)
         else Some (m, mkClock None));
      '(e, m) ← box_take m head;
      Some (Some (value e), m, c)
  end.

(** [peek_front] *)
Definition peek_front m c : option (option T) :=
  match tail c with
  | None => Some None
  | Some tail => head ← next <$> deref m tail; v ← value <$> deref m head; Some (Some v)
  end.

(** [next] *)
Definition clock_next m c : option Clock :=
  match tail c with
  | Some tail => n ← next <$> deref m tail; Some (mkClock (Some n))
  | None => Some c
  end.

(** [push_back] *)
Definition push_back m c v : option (mem * Clock) :=
  let '(entry, m) := box_new m (mkEntry v dangling) in
  m ← (match tail c with
       | Some tail =>
           n ← next <$> deref m tail;
           m ← set_next m entry n;
           set_next m tail entry
       | None => set_next m entry entry
       end);
  Some (m, mkClock (Some entry)).

(** [iter] and [iter_mut] *)
Definition iter m c : option ClockIter :=
  match tail c with
  | Some tail => n ← next <$> deref m tail; Some (mkClockIter (Some n) tail)
  | None => Some (mkClockIter None dangling)
  end.

(** [ClockIter::next] and [ClockIterMut::next]; the item is a reference to
    the entry. *)
Definition iter_next m (it : ClockIter) : option (option ptr * ClockIter) :=
  match current it with
  | None => Some (None, it)
  | Some current =>
      entry ← deref m current;
      Some (Some current,
        mkClockIter (if bool_decide (current = last_ it) then None else Some (next entry)) (last_ it))
  end.

(** The values of a loop over the iterator. *)
Fixpoint iter_values (fuel : nat) m (it : ClockIter) : option (list T) :=
  match fuel with
  | O => None
  | S fuel =>
      '(r, it) ← iter_next m it;
      match r with
      | None => Some []
      | Some p => v ← value <$> deref m p; vs ← iter_values fuel m it; Some (v :: vs)
      end
  end.

(** [Iterator::find] on the iterator. *)
Fixpoint iter_find (fuel : nat) m (f : T → bool) (it : ClockIter) : option (option ptr) :=
  match fuel with
  | O => None
  | S fuel =>
      '(r, it) ← iter_next m it;
      match r with
      | None => Some None
      | Some p => v ← value <$> deref m p; if f v then Some (Some p) else iter_find fuel m f it
      end
  end.

Definition clock_values (fuel : nat) m c : option (list T) := it ← iter m c; iter_values fuel m it.

(** [len] *)
Definition clock_len (fuel : nat) m c : option nat := length <$> clock_values fuel m c.

(** The loop of [retain]. *)
Fixpoint retain_loop (fuel : nat) m (f : T → bool) (tail last current : ptr) :
    option (mem * ptr * ptr) :=
  match fuel with
  | O => None
  | S fuel =>
      if bool_decide (tail = current) then Some (m, last, current)
      else
        e ← deref m current;
        if f (value e) then retain_loop fuel m f tail current (next e)
        else
          '(_, m) ← box_take m current;
          m ← set_next m last (next e);
          retain_loop fuel m f tail last (next e)
  end.

(** [retain] *)
Definition retain (fuel : nat) m c (f : T → bool) : option (mem * Clock) :=
  match tail c with
  | None => Some (m, c)
  | Some tail =>
      n ← next <$> deref m tail;
      '(m, last, current) ← retain_loop fuel m f tail tail n;
      e ← deref m current;
      if f (value e) then Some (m, c)
      else
        '(m, c) ←
          (if bool_decide (last = current) then Some (m, mkClock None)
           else m ← set_next m last (next e); Some (m, mkClock (Some last)));
        '(_, m) ← box_take m current;
        Some (m, c)
  end.

(** [drop] *)
Fixpoint clock_drop (fuel : nat) m c : option mem :=
  match fuel with
  | O => None
  | S fuel =>
      '(r, m, c) ← pop_front m c;
      match r with None => Some m | Some _ => clock_drop fuel m c end
  end.

(** ** Rings *)

(** The entries [l] are linked in their order, the last one to [stop]. *)
Fixpoint links m (l : list (ptr * T)) (stop : ptr) : Prop :=
  match l with
  | [] => True
  | (p, v) :: l => m !! p = Some (mkEntry v (default stop (head l.*1))) ∧ links m l stop
  end.

(** The entries [l] form a cycle, and the memory holds nothing else. *)
Definition cycle m (l : list (ptr * T)) : Prop :=
  NoDup l.*1 ∧ dom m = list_to_set l.*1 ∧ links m l (default dangling (head l.*1)).

(** The clock has the elements [l], from its head to its tail. *)
Definition ring m c (l : list (ptr * T)) : Prop := cycle m l ∧ tail c = last l.*1.

Lemma links_app m l1 l2 stop :
  links m (l1 ++ l2) stop ↔ links m l1 (default stop (head l2.*1)) ∧ links m l2 stop.
Proof.
  induction l1 as [|[p v] l1 IH]; simpl; [tauto|]. rewrite IH.
  rewrite fmap_app. destruct l1 as [|[p' v'] l1]; simpl; tauto.
Qed.

Lemma links_frame m p e l stop : p ∉ l.*1 → links m l stop → links (<[p := e]> m) l stop.
Proof.
  induction l as [|[q v] l IH]; simpl; [done|]. intros Hp [Hq Hl].
  split; [rewrite lookup_insert_ne; set_solver|apply IH; set_solver].
Qed.

Lemma links_delete m p l stop : p ∉ l.*1 → links m l stop → links (delete p m) l stop.
Proof.
  induction l as [|[q v] l IH]; simpl; [done|]. intros Hp [Hq Hl].
  split; [rewrite lookup_delete_ne; set_solver|apply IH; set_solver].
Qed.

Lemma links_lookup m l stop i p v :
  links m l stop → l !! i = Some (p, v) →
  m !! p = Some (mkEntry v (default stop (l.*1 !! S i))).
Proof.
  revert i. induction l as [|[q w] l IH]; intros i Hp Hi; [done|]. destruct Hp as [Hq Hl].
  destruct i as [|i]; simpl in *; [|by apply IH]. simplify_eq. rewrite Hq.
  by destruct l as [|[??]].
Qed.

Lemma last_ptr (l : list (ptr * T)) p x : last (l ++ [(p, x)]).*1 = Some p.
Proof. rewrite fmap_app. simpl. apply last_snoc. Qed.

Lemma head_app {A} (l l' : list A) d : default d (head (l ++ l')) = default (default d (head l')) (head l).
Proof. by destruct l. Qed.

(** A cycle has no distinguished element. *)
Lemma cycle_rotate m l1 l2 : cycle m (l1 ++ l2) → cycle m (l2 ++ l1).
Proof.
  intros (Hnd&Hd&Hp). unfold cycle. rewrite fmap_app in *. apply links_app in Hp as [Hp1 Hp2].
  split_and!.
  - by rewrite (Permutation_app_comm (l2.*1)).
  - rewrite Hd, !list_to_set_app_L. set_solver.
  - rewrite head_app in *. apply links_app.
    by destruct l1 as [|[p1 x1] l1], l2 as [|[p2 x2] l2].
Qed.

(** A cycle by its last entry. *)
Lemma cycle_snoc m l p v :
  cycle m (l ++ [(p, v)]) ↔
    NoDup (l.*1 ++ [p]) ∧ dom m = list_to_set (l.*1 ++ [p]) ∧
    links m l p ∧ m !! p = Some (mkEntry v (default p (head l.*1))).
Proof.
  unfold cycle. rewrite fmap_app, links_app, head_app. simpl. tauto.
Qed.

(** The first entry is cut out by linking the last one to the second. *)
Lemma cycle_cut m q x l p y n :
  cycle m ((q, x) :: l ++ [(p, y)]) → m !! q = Some (mkEntry x n) →
  cycle (delete q (<[p := mkEntry y n]> m)) (l ++ [(p, y)]).
Proof.
  intros Hc Hq. change ((q, x) :: l ++ [(p, y)]) with (((q, x) :: l) ++ [(p, y)]) in Hc.
  apply cycle_snoc in Hc as (Hnd&Hd&[Hq' Hp]&Hy). rewrite Hq in Hq'. injection Hq' as ->.
  simpl in *. apply NoDup_cons in Hnd as [Hnin Hnd]. apply cycle_snoc. split_and!.
  - done.
  - rewrite dom_delete_L, dom_insert_L, Hd. set_solver.
  - apply links_delete; [set_solver|]. apply links_frame; [|done].
    apply NoDup_app in Hnd as (_&Hnd&_). intros Hin. apply (Hnd p Hin). set_solver.
  - rewrite lookup_delete_ne by set_solver. by rewrite lookup_insert_eq.
Qed.

(** The entry behind the last one in a cycle. *)
Lemma cycle_last m l p y : cycle m (l ++ [(p, y)]) → ∃ h, m !! p = Some (mkEntry y h) ∧
  h = default p (head l.*1).
Proof. intros (_&_&_&Hy)%cycle_snoc. eauto. Qed.

Lemma ring_cases m c l :
  ring m c l → (l = [] ∧ tail c = None ∧ m = ∅) ∨
    ∃ l' p v, l = l' ++ [(p, v)] ∧ tail c = Some p ∧
      m !! p = Some (mkEntry v (default p (head l'.*1))).
Proof.
  intros [Hc Ht]. induction l as [|[p v] l' _] using rev_ind; [left|right].
  - split_and!; [done|done|]. apply dom_empty_inv_L, Hc.
  - exists l', p, v. rewrite last_ptr in Ht. apply cycle_snoc in Hc as (_&_&_&Hy). done.
Qed.

(** The tail points to the head. *)
Lemma ring_head m c h x l :
  ring m c ((h, x) :: l) →
  ∃ t y, tail c = Some t ∧ m !! t = Some (mkEntry y h) ∧
    m !! h = Some (mkEntry x (default h (head l.*1))) ∧
    (t = h ∧ l = [] ∨ t ≠ h ∧ ∃ l', l = l' ++ [(t, y)]).
Proof.
  intros Hr. destruct (ring_cases _ _ _ Hr) as [[? _]|(l'&t&y&E&Ht&Hy)]; [done|].
  destruct Hr as [(Hnd&_&Hp) _]. exists t, y. split_and!; [done| |by apply Hp|].
  - rewrite Hy. by destruct l' as [|[q z] l']; simplify_eq/=.
  - destruct l' as [|[q z] l']; simplify_eq/=; [by left|right]. split; [|by exists l'].
    intros ->. apply NoDup_cons in Hnd as [Hnd _]. rewrite fmap_app in Hnd. set_solver.
Qed.

Lemma peek_front_spec m c l : ring m c l → peek_front m c = Some (head l.*2).
Proof.
  intros Hr. unfold peek_front. destruct l as [|[h x] l].
  - destruct Hr as [_ ->]. done.
  - destruct (ring_head _ _ _ _ _ Hr) as (t&y&->&Ht&Hh&_). unfold deref. rewrite Ht. simpl.
    by rewrite Hh.
Qed.

Lemma clock_next_spec m c l :
  ring m c l → ∃ c', clock_next m c = Some c' ∧ ring m c' (drop 1 l ++ take 1 l).
Proof.
  intros Hr. unfold clock_next. destruct l as [|[h x] l].
  - exists c. pose proof Hr as [_ ->]. done.
  - destruct (ring_head _ _ _ _ _ Hr) as (t&y&->&Ht&_). unfold deref. rewrite Ht. simpl.
    eexists. split; [done|]. rewrite take_0. split.
    + by apply (cycle_rotate m [(h, x)] l), Hr.
    + by rewrite last_ptr.
Qed.

Lemma pop_front_spec m c l :
  ring m c l → ∃ m' c', pop_front m c = Some (head l.*2, m', c') ∧ ring m' c' (drop 1 l).
Proof.
  intros Hr. unfold pop_front. destruct l as [|[h x] l].
  { exists m, c. pose proof Hr as [_ ->]. done. }
  destruct (ring_head _ _ _ _ _ Hr) as (t&y&Et&Ht&Hh&Hl). rewrite Et. unfold deref. rewrite Ht. simpl.
  rewrite drop_0. destruct Hr as [Hc Htl]. destruct Hl as [[-> ->]|(Hne&l'&->)].
  - rewrite bool_decide_true by done. simpl. unfold box_take. rewrite Hh. simpl.
    eexists _, _. split; [done|]. split; [|done]. split_and!; [constructor| |done].
    destruct Hc as (_&Hd&_). rewrite dom_delete_L, Hd. set_solver.
  - rewrite bool_decide_false by done. simpl. rewrite Hh. simpl. unfold set_next. rewrite Ht. simpl.
    unfold box_take. rewrite lookup_insert_ne by done. rewrite Hh. simpl. eexists _, _. split; [done|].
    split; [by eapply cycle_cut|]. simpl. rewrite last_ptr. done.
Qed.

Lemma push_back_spec m c l v :
  ring m c l → ∃ m' c' p, push_back m c v = Some (m', c') ∧ ring m' c' (l ++ [(p, v)]).
Proof.
  intros Hr. unfold push_back, box_new. set (p := fresh (dom m)).
  assert (p ∉ dom m) as Hp by apply is_fresh. clearbody p.
  destruct (ring_cases _ _ _ Hr) as [(->&->&->)|(l'&t&y&->&->&Ht)].
  - unfold set_next. rewrite lookup_insert_eq. simpl. eexists _, _, p. split; [done|].
    split; [|done]. apply (cycle_snoc _ []). split_and!; [apply NoDup_singleton| |done|].
    + rewrite !dom_insert_L. set_solver.
    + by rewrite lookup_insert_eq.
  - assert (p ≠ t) as Hne by (intros ->; apply Hp, elem_of_dom; eauto).
    unfold deref, set_next. rewrite (lookup_insert_ne _ p t) by done. rewrite Ht. simpl.
    rewrite lookup_insert_eq. simpl. rewrite !(lookup_insert_ne _ p t) by done. rewrite Ht. simpl.
    eexists _, _, p. split; [done|]. destruct Hr as [(Hnd&Hd&Hpath) _].
    split; [|by rewrite last_ptr]. apply cycle_snoc. rewrite fmap_app in *. simpl in *.
    assert (p ∉ l'.*1 ++ [t]) as Hpl by (rewrite Hd in Hp; set_solver).
    apply NoDup_app in Hnd as Hnd'. destruct Hnd' as (Hnd1&Hnd2&_).
    apply links_app in Hpath as [Hpath _]. rewrite head_app. simpl. split_and!.
    + apply NoDup_app. split_and!; [done|set_solver|apply NoDup_singleton].
    + rewrite !dom_insert_L, Hd. set_solver.
    + apply links_app. split.
      * do 3 (apply links_frame; [set_solver|]). done.
      * simpl. rewrite lookup_insert_eq. done.
    + rewrite lookup_insert_ne by done. by rewrite lookup_insert_eq.
Qed.

(** ** Iteration *)

Lemma iter_spec m c l :
  ring m c l →
  ∃ t, iter m c = Some (mkClockIter (head l.*1) t) ∧ ∀ p, last l.*1 = Some p → t = p.
Proof.
  intros Hr. unfold iter. destruct (ring_cases _ _ _ Hr) as [(->&->&->)|(l'&t&y&->&->&Ht)].
  - eexists. by split.
  - unfold deref. rewrite Ht. simpl. exists t. rewrite last_ptr. split; [|by intros p [= <-]].
    by destruct l' as [|[q z] l'].
Qed.

(** What the iterator reads on the way to the last entry. *)
Lemma iter_next_links m p v l t y stop :
  links m ((p, v) :: l ++ [(t, y)]) stop → NoDup (p :: (l ++ [(t, y)]).*1) →
  iter_next m (mkClockIter (Some p) t) =
    Some (Some p, mkClockIter (head (l ++ [(t, y)]).*1) t) ∧ m !! p = Some (mkEntry v (default stop (head (l ++ [(t, y)]).*1))).
Proof.
  intros [Hp _] [Hnd _]%NoDup_cons. unfold iter_next, deref. simpl. rewrite Hp. simpl.
  rewrite bool_decide_false.
  - split; [|done]. by destruct l as [|[q z] l].
  - intros ->. apply Hnd. rewrite fmap_app. set_solver.
Qed.

Lemma iter_next_last m t y n :
  m !! t = Some (mkEntry y n) → iter_next m (mkClockIter (Some t) t) = Some (Some t, mkClockIter None t).
Proof. intros Ht. unfold iter_next, deref. simpl. rewrite Ht. simpl. by rewrite bool_decide_true. Qed.

Lemma iter_values_links fuel m l t y stop :
  links m (l ++ [(t, y)]) stop → NoDup (l ++ [(t, y)]).*1 → (S (length l) < fuel)%nat →
  iter_values fuel m (mkClockIter (head (l ++ [(t, y)]).*1) t) = Some (l ++ [(t, y)]).*2.
Proof.
  revert fuel. induction l as [|[p v] l IH]; intros [|fuel] Hp Hnd Hf; simpl in Hf; try lia.
  - destruct fuel as [|fuel]; [lia|]. destruct Hp as [Hp _]. simpl. rewrite (iter_next_last _ _ _ _ Hp). simpl. unfold deref.
    by rewrite Hp.
  - destruct (iter_next_links _ _ _ _ _ _ _ Hp Hnd) as [Hn Hv]. simpl. simpl in Hn. rewrite Hn. simpl. unfold deref. rewrite Hv. simpl.
    destruct Hp as [_ Hp]. apply NoDup_cons in Hnd as [_ Hnd].
    by rewrite (IH fuel Hp Hnd ltac:(lia)).
Qed.

Lemma clock_values_spec fuel m c l :
  ring m c l → (length l < fuel)%nat → clock_values fuel m c = Some l.*2.
Proof.
  intros Hr Hf. unfold clock_values. destruct (iter_spec _ _ _ Hr) as (t&->&Ht). simpl.
  destruct (ring_cases _ _ _ Hr) as [(->&_)|(l'&t'&y&->&_)]; [by destruct fuel; [lia|]|].
  rewrite (Ht t') by apply last_ptr. destruct Hr as [(Hnd&_&Hp) _].
  eapply iter_values_links; [done..|]. rewrite length_app in Hf. simpl in Hf. lia.
Qed.

Lemma iter_find_links fuel m f l t y stop :
  links m (l ++ [(t, y)]) stop → NoDup (l ++ [(t, y)]).*1 → (S (length l) < fuel)%nat →
  iter_find fuel m f (mkClockIter (head (l ++ [(t, y)]).*1) t) =
    Some (fst <$> List.find (λ e, f e.2) (l ++ [(t, y)])).
Proof.
  revert fuel. induction l as [|[p v] l IH]; intros [|fuel] Hp Hnd Hf; simpl in Hf; try lia.
  - destruct fuel as [|fuel]; [lia|]. destruct Hp as [Hp _]. simpl. rewrite (iter_next_last _ _ _ _ Hp). simpl. unfold deref.
    rewrite Hp. simpl. by destruct (f y).
  - destruct (iter_next_links _ _ _ _ _ _ _ Hp Hnd) as [Hn Hv]. simpl. simpl in Hn. rewrite Hn. simpl. unfold deref. rewrite Hv. simpl. destruct (f v); [done|].
    destruct Hp as [_ Hp]. apply NoDup_cons in Hnd as [_ Hnd]. by apply (IH fuel Hp Hnd ltac:(lia)).
Qed.

Lemma iter_find_spec fuel m c l f :
  ring m c l → (length l < fuel)%nat →
  (it ← iter m c; iter_find fuel m f it) = Some (fst <$> List.find (λ e, f e.2) l).
Proof.
  intros Hr Hf. destruct (iter_spec _ _ _ Hr) as (t&->&Ht). simpl.
  destruct (ring_cases _ _ _ Hr) as [(->&_)|(l'&t'&y&->&_)]; [by destruct fuel; [lia|]|].
  rewrite (Ht t') by apply last_ptr. destruct Hr as [(Hnd&_&Hp) _].
  eapply iter_find_links; [done..|]. rewrite length_app in Hf. simpl in Hf. lia.
Qed.

Lemma links_set m l stop i p x v e :
  links m l stop → NoDup l.*1 → l !! i = Some (p, x) → m !! p = Some e →
  links (<[p := mkEntry v (next e)]> m) (<[i := (p, v)]> l) stop.
Proof.
  revert i. induction l as [|[q w] l IH]; intros i Hp Hnd Hi He; [done|].
  destruct Hp as [Hq Hp]. simpl in Hnd. apply NoDup_cons in Hnd as [Hnin Hnd].
  destruct i as [|i]; simpl in *; simplify_eq.
  - rewrite lookup_insert_eq. split; [done|].
    by apply links_frame.
  - assert (p ≠ q).
    { intros ->. apply Hnin. apply list_elem_of_fmap. exists (q, x). split; [done|].
      by eapply list_elem_of_lookup_2. }
    rewrite lookup_insert_ne by done. split; [|by apply IH].
    rewrite Hq. do 3 f_equal. destruct l as [|[??] l]; [done|]. destruct i; simpl in *; by simplify_eq.
Qed.

(** Writing through a mutable reference to an element. *)
Lemma set_value_spec m c l i p x v :
  ring m c l → l !! i = Some (p, x) →
  ∃ m', set_value m p v = Some m' ∧ ring m' c (<[i := (p, v)]> l).
Proof.
  intros [(Hnd&Hd&Hp) Ht] Hi. unfold set_value.
  pose proof (links_lookup _ _ _ _ _ _ Hp Hi) as He. rewrite He. simpl. eexists. split; [done|].
  assert ((<[i := (p, v)]> l).*1 = l.*1) as E.
  { rewrite list_fmap_insert. apply list_insert_id. by rewrite list_lookup_fmap, Hi. }
  unfold ring, cycle. rewrite E. split_and!; try done.
  - rewrite dom_insert_L, Hd. assert (p ∈ l.*1); [|set_solver].
    apply list_elem_of_fmap. exists (p, x). split; [done|]. by eapply list_elem_of_lookup_2.
  - exact (links_set m l _ i p x v _ Hp Hnd Hi He).
Qed.

(** ** Removal of elements *)

(** An entry is cut out anywhere before the last one. *)
Lemma cycle_cut_mid m k q x r t y n :
  cycle m (k ++ (q, x) :: r ++ [(t, y)]) → m !! q = Some (mkEntry x n) →
  let p := default t (last k.*1) in
  ∃ e, m !! p = Some e ∧ p ≠ q ∧
    cycle (<[p := mkEntry (value e) n]> (delete q m)) (k ++ r ++ [(t, y)]).
Proof.
  intros Hc Hq. apply cycle_rotate in Hc. simpl in Hc.
  assert (∃ r' p z, (r ++ [(t, y)]) ++ k = r' ++ [(p, z)] ∧ p = default t (last k.*1))
    as (r'&p&z&E&Ep).
  { induction k as [|[p z] k _] using rev_ind.
    - exists r, t, y. by rewrite app_nil_r.
    - exists ((r ++ [(t, y)]) ++ k), p, z. by rewrite last_ptr, app_assoc. }
  rewrite <- Ep. rewrite E in Hc. pose proof (cycle_cut _ _ _ _ _ _ _ Hc Hq) as Hcut.
  destruct (cycle_last m ((q, x) :: r') p z Hc) as (h&Hp&_).
  assert (p ≠ q).
  { destruct Hc as (Hnd&_). simpl in Hnd. apply NoDup_cons in Hnd as [Hnd _].
    rewrite fmap_app in Hnd. set_solver. }
  exists (mkEntry z h). split_and!; [done|done|]. simpl. rewrite delete_insert_ne in Hcut by done.
  rewrite <- E in Hcut. by apply cycle_rotate in Hcut.
Qed.

Lemma retain_loop_spec fuel m f k r t y :
  cycle m (k ++ r ++ [(t, y)]) → (length r < fuel)%nat →
  ∃ m' k', k' = k ++ List.filter (λ e, f e.2) r ∧
    retain_loop fuel m f t (default t (last k.*1)) (default t (head r.*1)) =
      Some (m', default t (last k'.*1), t) ∧ cycle m' (k' ++ [(t, y)]).
Proof.
  revert fuel m k. induction r as [|[q x] r IH]; intros [|fuel] m k Hc Hf; simpl in Hf; try lia.
  - exists m, (k ++ []). simpl. rewrite app_nil_r, bool_decide_true by done. done.
  - pose proof Hc as (Hnd&_&Hp). assert (m !! q = Some (mkEntry x (default t (head r.*1)))) as Hq.
    { apply links_app in Hp as [_ [Hq _]]. rewrite Hq. by destruct r as [|[??] r]. }
    assert (t ≠ q) as Hne.
    { rewrite fmap_app in Hnd. apply NoDup_app in Hnd as (_&_&Hnd). simpl in Hnd.
      apply NoDup_cons in Hnd as [Hnd _]. rewrite fmap_app in Hnd. set_solver. }
    simpl. rewrite bool_decide_false by done. unfold deref at 1. rewrite Hq. simpl.
    destruct (f x) eqn:Ef.
    + destruct (IH fuel m (k ++ [(q, x)])) as (m'&k'&->&Hl&Hc'); [by rewrite <- app_assoc|lia|].
      rewrite last_ptr in Hl. simpl in Hl. rewrite <- app_assoc in Hl.
      eexists m', _. split; [done|]. split; [exact Hl|]. by rewrite <- !app_assoc in *.
    + destruct (cycle_cut_mid _ _ _ _ _ _ _ _ Hc Hq) as (e&He&Hne'&Hc').
      unfold box_take. rewrite Hq. simpl. unfold set_next. rewrite lookup_delete_ne by done.
      rewrite He. simpl. apply IH; [done|lia].
Qed.

Lemma retain_spec fuel m c l f :
  ring m c l → (length l ≤ fuel)%nat →
  ∃ m' c', retain fuel m c f = Some (m', c') ∧ ring m' c' (List.filter (λ e, f e.2) l).
Proof.
  intros Hr Hf. unfold retain. destruct (ring_cases _ _ _ Hr) as [(->&->&->)|(r&t&y&->&Et&Ht)].
  { by eexists _, _. }
  rewrite Et. unfold deref. rewrite Ht. simpl. destruct Hr as [Hc _].
  rewrite length_app in Hf. simpl in Hf.
  destruct (retain_loop_spec fuel m f [] r t y) as (m'&k&->&Hl&Hc'); [done|lia|].
  simpl in Hl. rewrite Hl. simpl in *. set (k := List.filter (λ e, f e.2) r) in *.
  destruct (cycle_last _ _ _ _ Hc') as (h&Hy&Eh). rewrite Hy. simpl.
  rewrite List.filter_app. simpl. fold k. destruct (f y).
  { eexists _, _. split; [done|]. split; [done|]. by rewrite last_ptr. }
  rewrite app_nil_r. clearbody k. induction k as [|[p z] k _] using rev_ind.
  - simpl. rewrite bool_decide_true by done. simpl. unfold box_take. rewrite Hy. simpl.
    eexists _, _. split; [done|]. split; [|done]. split_and!; [constructor| |done].
    destruct Hc' as (_&Hd&_). rewrite dom_delete_L, Hd. set_solver.
  - rewrite last_ptr. simpl. pose proof (cycle_rotate m' (k ++ [(p, z)]) [(t, y)] Hc') as Hrot.
    simpl in Hrot. pose proof (cycle_cut _ _ _ _ _ _ _ Hrot Hy) as Hcut.
    destruct (cycle_last m' ((t, y) :: k) p z Hrot) as (h'&Hp&_).
    assert (p ≠ t).
    { destruct Hrot as (Hnd&_). simpl in Hnd. apply NoDup_cons in Hnd as [Hnd _].
      rewrite fmap_app in Hnd. set_solver. }
    rewrite bool_decide_false by done. unfold set_next. rewrite Hp. simpl. unfold box_take.
    rewrite lookup_insert_ne, Hy by done. simpl. eexists _, _. split; [done|].
    split; [done|]. by rewrite last_ptr.
Qed.

Lemma clock_drop_spec fuel m c l :
  ring m c l → (length l < fuel)%nat → clock_drop fuel m c = Some ∅.
Proof.
  revert fuel m c. induction l as [|e l IH]; intros [|fuel] m c Hr Hf; simpl in Hf; try lia; simpl;
    destruct (pop_front_spec _ _ _ Hr) as (m'&c'&->&Hr'); simpl in *.
  - destruct (ring_cases _ _ _ Hr') as [(_&_&->)|(?&?&?&E&_)]; [done|by destruct x].
  - apply IH; [by rewrite drop_0 in Hr'|lia].
Qed.

End clock.

(** ** The clock as a queue *)

Section queue.
Context {T : Type}.

Inductive clock_op :=
  | OpPush (v : T) | OpPop | OpPeek | OpNext | OpRetain (f : T → bool) | OpIter.

Inductive answer := ADone | AItem (x : option T) | AItems (l : list T).

Definition clock_state : Type := gmap ptr (ClockEntry T) * Clock.

(** One call on the clock, with fuel for its loops. *)
Definition clock_call (fuel : nat) (st : clock_state) (op : clock_op) :
    option (answer * clock_state) :=
  let '(m, c) := st in
  match op with
  | OpPush v => '(m, c) ← push_back m c v; Some (ADone, (m, c))
  | OpPop => '(r, m, c) ← pop_front m c; Some (AItem r, (m, c))
  | OpPeek => r ← peek_front m c; Some (AItem r, (m, c))
  | OpNext => c ← clock_next m c; Some (ADone, (m, c))
  | OpRetain f => '(m, c) ← retain fuel m c f; Some (ADone, (m, c))
  | OpIter => l ← clock_values fuel m c; Some (AItems l, (m, c))
  end.

(** The same call on a queue. *)
Definition queue_call (q : list T) (op : clock_op) : answer * list T :=
  match op with
  | OpPush v => (ADone, q ++ [v])
  | OpPop => (AItem (head q), drop 1 q)
  | OpPeek => (AItem (head q), q)
  | OpNext => (ADone, drop 1 q ++ take 1 q)
  | OpRetain f => (ADone, List.filter f q)
  | OpIter => (AItems q, q)
  end.

Fixpoint clock_calls (fuel : nat) (st : clock_state) (ops : list clock_op) :
    option (list answer * clock_state) :=
  match ops with
  | [] => Some ([], st)
  | op :: ops =>
      '(a, st) ← clock_call fuel st op;
      '(l, st) ← clock_calls fuel st ops;
      Some (a :: l, st)
  end.

Fixpoint queue_calls (q : list T) (ops : list clock_op) : list answer * list T :=
  match ops with
  | [] => ([], q)
  | op :: ops =>
      let '(a, q) := queue_call q op in let '(l, q) := queue_calls q ops in (a :: l, q)
  end.

Lemma filter_values (f : T → bool) (l : list (ptr * T)) :
  (List.filter (λ e, f e.2) l).*2 = List.filter f l.*2.
Proof. induction l as [|[p v] l IH]; simpl; [done|]. destruct (f v); simpl; [f_equal|]; apply IH. Qed.

Lemma length_filter_le {A} (f : A → bool) (l : list A) : (length (List.filter f l) ≤ length l)%nat.
Proof. induction l as [|x l IH]; simpl; [done|]. destruct (f x); simpl; lia. Qed.

Lemma clock_call_sim fuel m c l op :
  ring m c l → (length l < fuel)%nat →
  ∃ m' c' l', ring m' c' l' ∧
    clock_call fuel (m, c) op = Some ((queue_call l.*2 op).1, (m', c')) ∧
    l'.*2 = (queue_call l.*2 op).2 ∧ (length l' ≤ S (length l))%nat.
Proof.
  intros Hr Hf. destruct op as [v| | | |f|]; simpl.
  - destruct (push_back_spec _ _ _ v Hr) as (m'&c'&p&->&Hr'). simpl. eexists _, _, _.
    split_and!; [exact Hr'|done|by rewrite fmap_app|]. rewrite length_app. simpl. lia.
  - destruct (pop_front_spec _ _ _ Hr) as (m'&c'&->&Hr'). simpl. eexists _, _, _.
    split_and!; [exact Hr'|done|apply fmap_drop|]. rewrite length_drop. lia.
  - rewrite (peek_front_spec _ _ _ Hr). simpl. exists m, c, l. split_and!; try done. lia.
  - destruct (clock_next_spec _ _ _ Hr) as (c'&->&Hr'). simpl. eexists _, _, _.
    split_and!; [exact Hr'|done|by rewrite fmap_app, fmap_drop, fmap_take|].
    rewrite length_app, length_drop, length_take. lia.
  - destruct (retain_spec fuel m c l f Hr) as (m'&c'&->&Hr'); [lia|]. simpl. eexists _, _, _.
    split_and!; [exact Hr'|done|apply filter_values|].
    pose proof (length_filter_le (λ e, f e.2) l). lia.
  - rewrite (clock_values_spec fuel m c l Hr Hf). simpl. exists m, c, l. split_and!; try done. lia.
Qed.

Lemma clock_calls_sim fuel m c l ops :
  ring m c l → (length l + length ops < fuel)%nat →
  ∃ m' c' l', ring m' c' l' ∧
    clock_calls fuel (m, c) ops = Some ((queue_calls l.*2 ops).1, (m', c')) ∧
    l'.*2 = (queue_calls l.*2 ops).2 ∧ (length l' ≤ length l + length ops)%nat.
Proof.
  revert m c l. induction ops as [|op ops IH]; intros m c l Hr Hf; cbn [clock_calls queue_calls length] in *.
  - exists m, c, l. split_and!; try done. lia.
  - destruct (clock_call_sim fuel m c l op Hr) as (m1&c1&l1&Hr1&->&E1&Hl1); [lia|]. simpl.
    destruct (queue_call l.*2 op) as [a q]. simpl in *. subst q.
    destruct (IH m1 c1 l1 Hr1) as (m2&c2&l2&Hr2&->&E2&Hl2); [lia|]. simpl.
    destruct (queue_calls l1.*2 ops) as [as_ q]. simpl in *.
    exists m2, c2, l2. split_and!; try done. lia.
Qed.

Lemma ring_empty : ring (T := T) ∅ clock_default [].
Proof. split; [|done]. split_and!; [constructor|done|done]. Qed.

(** C18: the clock is a queue.  Any sequence of [push_back], [pop_front],
    [peek_front], [next] (the head moves to the end), [retain] and [iter] on a
    new clock gives the answers of the same sequence on a double-ended queue;
    no call reads a pointer that is not allocated; and dropping the clock
    afterwards frees all of its memory. *)
Theorem clock_refines_queue (ops : list clock_op) fuel :
  (length ops < fuel)%nat →
  ∃ m c, clock_calls fuel (∅, clock_default) ops = Some ((queue_calls [] ops).1, (m, c)) ∧
    clock_values fuel m c = Some (queue_calls [] ops).2 ∧
    clock_drop fuel m c = Some ∅.
Proof.
  intros Hf. destruct (clock_calls_sim fuel ∅ clock_default [] ops ring_empty Hf)
    as (m&c&l&Hr&Hc&El&Hl). simpl in *. exists m, c. split_and!; [done| |].
  - rewrite <- El. apply clock_values_spec; [done|lia].
  - apply (clock_drop_spec _ _ _ l); [done|lia].
Qed.
End queue.

Lemma clock_refines_queue_witness :
  ∃ m c, clock_calls 9 (∅, clock_default)
      [OpPush 1; OpPush 2; OpPush 3; OpNext; OpPop; OpRetain Nat.odd; OpPeek; OpIter]%nat =
    Some ([ADone; ADone; ADone; ADone; AItem (Some 2%nat); ADone; AItem (Some 3%nat); AItems [3; 1]%nat],
      (m, c)) ∧ clock_drop 9 m c = Some ∅.
Proof.
  destruct (clock_refines_queue
    [OpPush 1; OpPush 2; OpPush 3; OpNext; OpPop; OpRetain Nat.odd; OpPeek; OpIter]%nat 9)
    as (m&c&Hc&_&Hd).
  - simpl. lia.
  - exists m, c. split; [exact Hc|exact Hd].
Defined.
