(* ===== verification/Cache.v ===== *)
(** * The clock cache

    [cache/clock_cache.rs] and [cache/mod.rs]: a map from keys to entries and
    a clock of the keys.  Entries are reference counted ([Arc]): the map holds
    one reference, every [PinnedEntry] another one, and an entry can be
    changed or taken out only while the map's is the only one.  [arcs] is the
    memory of these entries; a [PinnedEntry] is its pointer.  A failed
    [unwrap] or [assert!] has no result.

    Counters wrap around as in a release build, and so does the size, which
    is an atomic.  The callbacks are functions of the key, the value and the
    set of cached keys, and return the changed value.

    [cache_ok c q] is the invariant: [q] are the keys in the order of the
    clock.  The theorems say what each operation does to the entries, and
    which entry [evict] takes: the first one in the order of the clock that
    is not referenced, not pinned and not declined by the callback; if there
    is none, the first that is not pinned and not declined. *)

From Stdlib Require Import ZArith Lia.
From stdpp Require Import base option list gmap fin_maps.
From S2P Require Import Prelude.
From S2P Require Import Clock.

Abbreviation arc := positive.

Record CacheEntry (V : Type) := mkCached { cvalue : V; referenced : bool }.
Arguments mkCached {V}.
Arguments cvalue {V}.
Arguments referenced {V}.

(** The allocation of an [Arc]: the number of references and the entry. *)
Record ArcInner (V : Type) := mkArc { strong : nat; inner : CacheEntry V }.
Arguments mkArc {V}.
Arguments strong {V}.
Arguments inner {V}.

Inductive RemoveError := RemoveNotPresent | RemovePinned.
Inductive ChangeKeyError (E : Type) := ChangeNotPresent | ChangePinned | CallbackError (e : E).
Arguments ChangeNotPresent {E}.
Arguments ChangePinned {E}.
Arguments CallbackError {E}.

Record ClockCache (K V : Type) `{Countable K} := mkCache {
  map : gmap K arc;
  clock : Clock;
  capacity : Z;
  size_ : Z;
  hits : Z;
  misses : Z;
  insertions : Z;
  evictions : Z;
  removals : Z;
  clock_mem : gmap ptr (ClockEntry K);
  arcs : gmap arc (ArcInner V);
}.
Arguments mkCache {K V _ _}.
Arguments map {K V _ _}.
Arguments clock {K V _ _}.
Arguments capacity {K V _ _}.
Arguments size_ {K V _ _}.
Arguments hits {K V _ _}.
Arguments misses {K V _ _}.
Arguments insertions {K V _ _}.
Arguments evictions {K V _ _}.
Arguments removals {K V _ _}.
Arguments clock_mem {K V _ _}.
Arguments arcs {K V _ _}.

(** ** Reference counting *)

Section arcs.
Context {V : Type}.
Implicit Types (m : gmap arc (ArcInner V)) (a : arc).

Definition arc_new m (e : CacheEntry V) : arc * gmap arc (ArcInner V) :=
  let a := fresh (dom m) in (a, <[a := mkArc 1 e]> m).

Definition arc_clone m a : option (gmap arc (ArcInner V)) :=
  x ← m !! a; Some (<[a := mkArc (S (strong x)) (inner x)]> m).

Definition arc_drop m a : option (gmap arc (ArcInner V)) :=
  x ← m !! a;
  Some (if (strong x <=? 1)%nat then delete a m else <[a := mkArc (pred (strong x)) (inner x)]> m).

(** [Arc::get_mut]: the entry, if this is the only reference. *)
Definition arc_get_mut m a : option (option (CacheEntry V)) :=
  x ← m !! a; Some (if (strong x =? 1)%nat then Some (inner x) else None).

(** A write through a reference from [Arc::get_mut], or to an atomic. *)
Definition arc_write m a (e : CacheEntry V) : option (gmap arc (ArcInner V)) :=
  x ← m !! a; Some (<[a := mkArc (strong x) e]> m).

(** [Arc::try_unwrap] *)
Definition arc_try_unwrap m a : option (option (CacheEntry V) * gmap arc (ArcInner V)) :=
  x ← m !! a; Some (if (strong x =? 1)%nat then (Some (inner x), delete a m) else (None, m)).
End arcs.

(** ** Operations *)

Section cache.
Context {K V : Type} `{Countable K}.
Abbreviation cache := (ClockCache K V).
Implicit Types (c : cache) (key : K).

Definition set_map c (x : gmap K arc) : cache :=
  mkCache x (clock c) (capacity c) (size_ c) (hits c) (misses c) (insertions c) (evictions c)
    (removals c) (clock_mem c) (arcs c).
Definition set_arcs c (x : gmap arc (ArcInner V)) : cache :=
  mkCache (map c) (clock c) (capacity c) (size_ c) (hits c) (misses c) (insertions c) (evictions c)
    (removals c) (clock_mem c) x.
Definition set_clock c (m : gmap ptr (ClockEntry K)) (x : Clock) : cache :=
  mkCache (map c) x (capacity c) (size_ c) (hits c) (misses c) (insertions c) (evictions c)
    (removals c) m (arcs c).
Definition add_size c (d : Z) : cache :=
  mkCache (map c) (clock c) (capacity c) (wrap64 (size_ c + d)) (hits c) (misses c) (insertions c)
    (evictions c) (removals c) (clock_mem c) (arcs c).
Definition count_hit c : cache :=
  mkCache (map c) (clock c) (capacity c) (size_ c) (wrap64 (hits c + 1)) (misses c) (insertions c)
    (evictions c) (removals c) (clock_mem c) (arcs c).
Definition count_miss_ c : cache :=
  mkCache (map c) (clock c) (capacity c) (size_ c) (hits c) (wrap64 (misses c + 1)) (insertions c)
    (evictions c) (removals c) (clock_mem c) (arcs c).
Definition count_insertion c : cache :=
  mkCache (map c) (clock c) (capacity c) (size_ c) (hits c) (misses c) (wrap64 (insertions c + 1))
    (evictions c) (removals c) (clock_mem c) (arcs c).
Definition count_eviction c : cache :=
  mkCache (map c) (clock c) (capacity c) (size_ c) (hits c) (misses c) (insertions c)
    (wrap64 (evictions c + 1)) (removals c) (clock_mem c) (arcs c).
Definition count_removal c : cache :=
  mkCache (map c) (clock c) (capacity c) (size_ c) (hits c) (misses c) (insertions c) (evictions c)
    (wrap64 (removals c + 1)) (clock_mem c) (arcs c).

(** Fuel for loops over the clock: its memory holds its entries only. *)
Definition clock_fuel c : nat := S (S (size (clock_mem c))).

(** [new] *)
Definition cache_new (cap : Z) : cache := mkCache ∅ clock_default cap 0 0 0 0 0 0 ∅ ∅.

(** [contains_key] *)
Definition contains_key c key : bool := bool_decide (is_Some (map c !! key)).

(** [get]: a pinned entry *)
Definition cache_get c key (count_miss : bool) : option (option arc * cache) :=
  match map c !! key with
  | Some a =>
      m ← arc_clone (arcs c) a;
      x ← m !! a;
      m ← arc_write m a (mkCached (cvalue (inner x)) true);
      Some (Some a, set_arcs (count_hit c) m)
  | None => Some (None, if count_miss then count_miss_ c else c)
  end.

(** Dropping a [PinnedEntry]. *)
Definition unpin c (a : arc) : option cache := m ← arc_drop (arcs c) a; Some (set_arcs c m).

(** [PinnedEntry::deref] *)
Definition pinned_value c (a : arc) : option V := x ← arcs c !! a; Some (cvalue (inner x)).

(** [|entry| entry != key] *)
Definition other_than key (entry : K) : bool := negb (bool_decide (entry = key)).

(** [clock.retain(|entry| entry != key)] *)
Definition clock_remove c key : option cache :=
  '(m, cl) ← retain (clock_fuel c) (clock_mem c) (clock c) (other_than key);
  Some (set_clock c m cl).

(** [remove] *)
Definition cache_remove c key (f : V → V * Z) : option ((V + RemoveError) * cache) :=
  match map c !! key with
  | None => Some (inr RemoveNotPresent, c)
  | Some a =>
      r ← arc_get_mut (arcs c) a;
      match r with
      | None => Some (inr RemovePinned, c)
      | Some _ =>
          c ← clock_remove c key;
          a ← map c !! key;
          let c := set_map c (delete key (map c)) in
          '(e, m) ← arc_try_unwrap (arcs c) a;
          e ← e;
          let '(value, size) := f (cvalue e) in
          Some (inl value, add_size (count_removal (set_arcs c m)) (- size))
      end
  end.

(** [force_remove] *)
Definition force_remove c key (size : Z) : option (bool * cache) :=
  c ← clock_remove c key;
  match map c !! key with
  | None => Some (false, c)
  | Some a =>
      m ← arc_drop (arcs c) a;
      let c := set_arcs (set_map c (delete key (map c))) m in
      Some (true, add_size (count_removal c) (- size))
  end.

(** [map.insert(key, entry)]: an entry that was there is dropped. *)
Definition map_insert c key (a : arc) : option cache :=
  m ← (match map c !! key with Some old => arc_drop (arcs c) old | None => Some (arcs c) end);
  Some (set_arcs (set_map c (<[key := a]> (map c))) m).

(** The key in the clock is overwritten. *)
Definition clock_rename c key (new_key : K) : option cache :=
  it ← iter (clock_mem c) (clock c);
  r ← iter_find (clock_fuel c) (clock_mem c) (λ k, bool_decide (k = key)) it;
  match r with
  | Some p => m ← set_value (clock_mem c) p new_key; Some (set_clock c m (clock c))
  | None => Some c
  end.

(** The end of [change_key] and [force_change_key]. *)
Definition rename c key (new_key : K) : option cache :=
  a ← map c !! key;
  c ← map_insert (set_map c (delete key (map c))) new_key a;
  clock_rename c key new_key.

(** [change_key] *)
Definition change_key {E} c key (f : K → V → (K → bool) → V * (K + E)) :
    option ((unit + ChangeKeyError E) * cache) :=
  match map c !! key with
  | None => Some (inr ChangeNotPresent, c)
  | Some a =>
      r ← arc_get_mut (arcs c) a;
      match r with
      | None => Some (inr ChangePinned, c)
      | Some e =>
          let '(v, r) := f key (cvalue e) (contains_key c) in
          m ← arc_write (arcs c) a (mkCached v (referenced e));
          let c := set_arcs c m in
          match r with
          | inr err => Some (inr (CallbackError err), c)
          | inl new_key => c ← rename c key new_key; Some (inl tt, c)
          end
      end
  end.

(** [force_change_key] *)
Definition force_change_key c key (new_key : K) : option (bool * cache) :=
  match map c !! key with
  | None => Some (false, c)
  | Some _ => c ← rename c key new_key; Some (true, c)
  end.

(** The attempt of [evict] on one entry. *)
Definition try_evict c key (a : arc) (f : K → V → (K → bool) → V * option Z) :
    option (option Z * cache) :=
  r ← arc_get_mut (arcs c) a;
  match r with
  | Some e =>
      if referenced e then
        m ← arc_write (arcs c) a (mkCached (cvalue e) false);
        Some (None, set_arcs c m)
      else
        let '(v, r) := f key (cvalue e) (contains_key c) in
        m ← arc_write (arcs c) a (mkCached v false);
        Some (r, set_arcs c m)
  | None => Some (None, c)
  end.

(** The loop of [evict]. *)
Fixpoint evict_loop (fuel : nat) c (f : K → V → (K → bool) → V * option Z) (cnt len : nat) :
    option (option (K * V) * cache) :=
  match fuel with
  | O => None
  | S fuel =>
      front ← peek_front (clock_mem c) (clock c);
      match front with
      | None => Some (None, c)
      | Some key =>
          a ← map c !! key;
          '(eviction_successful, c) ← try_evict c key a f;
          match eviction_successful with
          | Some size =>
              '(k, m, cl) ← pop_front (clock_mem c) (clock c);
              key ← k;
              a ← map c !! key;
              let c := set_map (set_clock c m cl) (delete key (map c)) in
              let c := add_size (count_eviction c) (- size) in
              '(e, m) ← arc_try_unwrap (arcs c) a;
              e ← e;
              Some (Some (key, cvalue e), set_arcs c m)
          | None =>
              cl ← clock_next (clock_mem c) (clock c);
              let c := set_clock c (clock_mem c) cl in
              if (S cnt =? 2 * len)%nat then Some (None, c) else evict_loop fuel c f (S cnt) len
          end
      end
  end.

(** [evict] *)
Definition evict c (f : K → V → (K → bool) → V * option Z) : option (option (K * V) * cache) :=
  len ← clock_len (clock_fuel c) (clock_mem c) (clock c);
  evict_loop (S (2 * len)) c f 0 len.

(** [insert]; [cache_size] is [SizeMut::cache_size] of the value. *)
Definition cache_insert (cache_size : V → Z) c key (value : V) (size : Z) : option cache :=
  assert! cache_size value =? size;
  let '(a, m) := arc_new (arcs c) (mkCached value false) in
  let old_value := contains_key c key in
  c ← map_insert (set_arcs c m) key a;
  assert! negb old_value;
  '(m, cl) ← push_back (clock_mem c) (clock c) key;
  Some (add_size (count_insertion (set_clock c m cl)) size).

(** [iter] *)
Definition cache_iter c : option (list K) := clock_values (clock_fuel c) (clock_mem c) (clock c).

(** ** The invariant *)

(** [q] are the keys in the order of the clock. *)
Record cache_ok c (q : list K) : Prop := {
  ok_ring : ∃ l, ring (clock_mem c) (clock c) l ∧ l.*2 = q;
  ok_nodup : NoDup q;
  ok_dom k : k ∈ q ↔ is_Some (map c !! k);
  ok_arcs k a : map c !! k = Some a → ∃ x, arcs c !! a = Some x ∧ (1 ≤ strong x)%nat;
  ok_inj k k' a : map c !! k = Some a → map c !! k' = Some a → k = k';
}.

(** An entry with the number of its references. *)
Definition view c key : option (ArcInner V) := a ← map c !! key; arcs c !! a.


(** ** Entries *)

Lemma ring_size (m : gmap ptr (ClockEntry K)) cl l : ring m cl l → length l = size m.
Proof.
  intros [(Hnd&Hd&_) _]. rewrite <- size_dom, Hd, size_list_to_set by done. by rewrite length_fmap.
Qed.

Lemma ok_length c q : cache_ok c q → length q = size (clock_mem c).
Proof. intros [(l&Hr&<-) _ _ _ _]. rewrite length_fmap. by eapply ring_size. Qed.

Lemma ok_view c q k :
  cache_ok c q → k ∈ q →
  ∃ a x, map c !! k = Some a ∧ arcs c !! a = Some x ∧ view c k = Some x ∧ (1 ≤ strong x)%nat.
Proof.
  intros Hok Hk. apply (ok_dom _ _ Hok) in Hk as [a Ha].
  destruct (ok_arcs _ _ Hok k a Ha) as (x&Hx&Hs). exists a, x. unfold view. by rewrite Ha.
Qed.

(** The same cache up to the counters. *)
Lemma cache_ok_ext c c' q :
  map c' = map c → clock c' = clock c → clock_mem c' = clock_mem c → arcs c' = arcs c →
  cache_ok c q → cache_ok c' q.
Proof.
  intros Em Ec Ecm Ea [Hr Hnd Hd Hs Hi]. split; rewrite ?Em, ?Ec, ?Ecm, ?Ea; done.
Qed.

(** Writing to an entry. *)
Lemma write_ok c q k a x x' :
  cache_ok c q → map c !! k = Some a → arcs c !! a = Some x → (1 ≤ strong x')%nat →
  let c' := set_arcs c (<[a := x']> (arcs c)) in
  cache_ok c' q ∧ view c' k = Some x' ∧ ∀ k', k' ≠ k → view c' k' = view c k'.
Proof.
  intros [Hr Hnd Hd Hs Hi] Ha Hx Hx'. split_and!.
  - split; simpl; try done. intros k' a' Ha'. destruct (decide (a = a')) as [<-|Hne].
    + rewrite lookup_insert_eq. eauto.
    + rewrite lookup_insert_ne by done. eauto.
  - unfold view. simpl. rewrite Ha. simpl. apply lookup_insert_eq.
  - intros k' Hne. unfold view. simpl. destruct (map c !! k') as [a'|] eqn:Ha'; [|done]. simpl.
    rewrite lookup_insert_ne; [done|]. intros ->. apply Hne. by eapply Hi.
Qed.

(** Dropping a key from the map; of the entries only that of the key may
    change. *)
Lemma delete_ok c k q q' a m cl m' :
  cache_ok c q → map c !! k = Some a → (∃ l, ring m cl l ∧ l.*2 = q') →
  NoDup q' → (∀ k', k' ∈ q' ↔ k' ∈ q ∧ k' ≠ k) → (∀ a', a ≠ a' → m' !! a' = arcs c !! a') →
  let c' := set_arcs (set_map (set_clock c m cl) (delete k (map c))) m' in
  cache_ok c' q' ∧ ∀ k', k' ≠ k → view c' k' = view c k'.
Proof.
  intros [_ _ Hd Hs Hi] Ha Hr Hnd Hin Hm.
  assert (∀ k' a', k' ≠ k → map c !! k' = Some a' → a ≠ a') as Hne.
  { intros k' a' Hk' Ha' ->. apply Hk'. by eapply Hi. }
  split.
  - split; simpl; try done.
    + intros k'. rewrite Hin, Hd. destruct (decide (k' = k)) as [->|Hk'].
      * rewrite lookup_delete_eq. split; [tauto|by intros []].
      * rewrite lookup_delete_ne by done. tauto.
    + intros k' a' (Hk'&Ha')%lookup_delete_Some. rewrite Hm by eauto. eauto.
    + intros k1 k2 a' [_ H1]%lookup_delete_Some [_ H2]%lookup_delete_Some. eauto.
  - intros k' Hk'. unfold view. simpl. rewrite lookup_delete_ne by done.
    destruct (map c !! k') as [a'|] eqn:Ha'; [|done]. simpl. by rewrite Hm by eauto.
Qed.

(** A key is taken out of the clock. *)
Lemma clock_remove_spec c q k :
  cache_ok c q →
  ∃ m cl, clock_remove c k = Some (set_clock c m cl) ∧
    ∃ l, ring m cl l ∧ l.*2 = List.filter (other_than k) q.
Proof.
  intros Hok. destruct (ok_ring _ _ Hok) as (l&Hr&El). unfold clock_remove.
  destruct (retain_spec (clock_fuel c) _ _ l (other_than k) Hr) as (m&cl&->&Hr').
  { rewrite (ring_size _ _ _ Hr). unfold clock_fuel. lia. }
  simpl. exists m, cl. split; [done|]. eexists. split; [exact Hr'|].
  rewrite <- El. apply (filter_values (other_than k)).
Qed.

Lemma elem_of_without k k' (q : list K) :
  k' ∈ List.filter (other_than k) q ↔ k' ∈ q ∧ k' ≠ k.
Proof.
  unfold other_than. rewrite !list_elem_of_In, List.filter_In, negb_true_iff, bool_decide_eq_false. done.
Qed.

Lemma NoDup_without k (q : list K) :
  NoDup q → NoDup (List.filter (other_than k) q).
Proof. rewrite !NoDup_ListNoDup. apply List.NoDup_filter. Qed.

(** ** Eviction *)

Section evict.
Variable f : K → V → (K → bool) → V * option Z.

(** A callback that declines an entry leaves it as it is. *)
Definition declines_keep : Prop := ∀ k v b, (f k v b).2 = None → (f k v b).1 = v.

(** Not pinned, and the callback agrees. *)
Definition evictable c k : bool :=
  match view c k with
  | Some x => (strong x =? 1)%nat && bool_decide (is_Some (f k (cvalue (inner x)) (contains_key c)).2)
  | None => false
  end.

Definition unreferenced c k : bool :=
  match view c k with Some x => negb (referenced (inner x)) | None => false end.

Definition ready c k : bool := unreferenced c k && evictable c k.

(** The entry that goes: the first ready one, else the first evictable one. *)
Definition victim c (q : list K) : option K :=
  match List.find (ready c) q with Some k => Some k | None => List.find (evictable c) q end.

(** What a failed attempt does to an entry. *)
Definition reset (x : ArcInner V) : ArcInner V :=
  if (strong x =? 1)%nat then mkArc (strong x) (mkCached (cvalue (inner x)) false) else x.

(** [c'] after failed attempts on the keys [r]. *)
Record passed c c' (r : list K) : Prop := {
  ps_map : map c' = map c;
  ps_size : size_ c' = size_ c;
  ps_in k : k ∈ r → view c' k = reset <$> view c k;
  ps_out k : k ∉ r → view c' k = view c k;
}.

Lemma try_evict_fails c q k a x :
  declines_keep → cache_ok c q → map c !! k = Some a → arcs c !! a = Some x →
  ready c k = false →
  ∃ c', try_evict c k a f = Some (None, c') ∧ cache_ok c' q ∧ passed c c' [k] ∧
    clock c' = clock c ∧ clock_mem c' = clock_mem c.
Proof.
  intros Hd Hok Ha Hx Hr. unfold try_evict, arc_get_mut, arc_write. rewrite Hx. simpl.
  assert (view c k = Some x) as Hv by (unfold view; by rewrite Ha).
  assert (∀ x', (1 ≤ strong x')%nat → reset x = x' →
    let c' := set_arcs c (<[a := x']> (arcs c)) in cache_ok c' q ∧ passed c c' [k]) as Hw.
  { intros x' Hs Hres. destruct (write_ok c q k a x x' Hok Ha Hx Hs) as (Hok'&Hvk&Hvo).
    split; [done|]. split; try done.
    - intros k' ->%list_elem_of_singleton. rewrite Hvk, Hv. simpl. by f_equal.
    - intros k' Hk'. apply Hvo. set_solver. }
  unfold reset in Hw. unfold ready, unreferenced, evictable in Hr. rewrite Hv in Hr.
  destruct (strong x =? 1)%nat eqn:Es; simpl.
  - apply Nat.eqb_eq in Es. destruct (referenced (inner x)) eqn:Eref; simpl.
    + eexists. split; [done|]. destruct (Hw (mkArc (strong x) (mkCached (cvalue (inner x)) false))); simpl; [lia|done|].
      done.
    + destruct (f k (cvalue (inner x)) (contains_key c)) as [v r] eqn:Ef. simpl in Hr.
      destruct r as [sz|]; [by rewrite bool_decide_true in Hr by eauto|].
      pose proof (Hd k (cvalue (inner x)) (contains_key c)) as Hkeep. rewrite Ef in Hkeep.
      specialize (Hkeep eq_refl). simpl in Hkeep. subst v.
      eexists. split; [done|]. destruct (Hw (mkArc (strong x) (mkCached (cvalue (inner x)) false))); simpl; [lia|done|].
      done.
  - exists c. split_and!; try done. split; try done.
    intros k' ->%list_elem_of_singleton. rewrite Hv. simpl. unfold reset. by rewrite Es.
Qed.

(** The entry is taken out. *)
Record taken c c' (k : K) (x : ArcInner V) (v : V) (sz : Z) : Prop := {
  tk_view : view c k = Some x;
  tk_call : f k (cvalue (inner x)) (contains_key c) = (v, Some sz);
  tk_size : size_ c' = wrap64 (size_ c - sz);
  tk_map : map c' = delete k (map c);
  tk_others k' : k' ≠ k → view c' k' = view c k';
}.

Lemma evict_step_takes fuel c k q cnt len :
  cache_ok c (k :: q) → ready c k = true →
  ∃ c' x v sz, evict_loop (S fuel) c f cnt len = Some (Some (k, v), c') ∧
    taken c c' k x v sz ∧ cache_ok c' q.
Proof.
  intros Hok Hr. destruct (ok_view c _ k Hok) as (a&x&Ha&Hx&Hv&Hs); [set_solver|].
  unfold ready, unreferenced, evictable in Hr. rewrite Hv in Hr.
  destruct (referenced (inner x)) eqn:Eref; [done|]. simpl in Hr.
  apply andb_prop in Hr as [Es Hacc]. apply bool_decide_eq_true in Hacc as [sz Hsz].
  destruct (f k (cvalue (inner x)) (contains_key c)) as [v r] eqn:Ef. simpl in Hsz. subst r.
  destruct (ok_ring _ _ Hok) as (l&Hring&El). destruct l as [|[p k'] l]; [done|].
  simpl in El. injection El as -> El.
  destruct (pop_front_spec _ _ _ Hring) as (m&cl&Hpop&Hring'). simpl in Hpop, Hring'.
  rewrite drop_0 in Hring'. cbn [evict_loop]. rewrite (peek_front_spec _ _ _ Hring). simpl.
  rewrite Ha. simpl. unfold try_evict, arc_get_mut, arc_write. rewrite Hx. simpl. rewrite Es, Eref, Ef.
  simpl. rewrite Hpop. simpl. rewrite Ha. simpl. unfold arc_try_unwrap. rewrite lookup_insert_eq. simpl.
  rewrite Es. simpl. rewrite delete_insert_eq.
  pose proof (ok_nodup _ _ Hok) as [Hnin Hnd]%NoDup_cons.
  destruct (delete_ok c k (k :: q) q a m cl (delete a (arcs c)) Hok Ha) as [Hok' Hvo];
    [by exists l|done|set_solver|intros; by rewrite lookup_delete_ne|].
  eexists _, x, v, sz. split; [done|]. split.
  - by split.
  - eapply cache_ok_ext; [..|exact Hok']; done.
Qed.

Lemma evict_step_fails fuel c k q cnt len :
  declines_keep → cache_ok c (k :: q) → ready c k = false →
  ∃ c1, evict_loop (S fuel) c f cnt len =
      (if (S cnt =? 2 * len)%nat then Some (None, c1) else evict_loop fuel c1 f (S cnt) len) ∧
    cache_ok c1 (q ++ [k]) ∧ passed c c1 [k].
Proof.
  intros Hd Hok Hr. destruct (ok_view c _ k Hok) as (a&x&Ha&Hx&Hv&Hs); [set_solver|].
  destruct (try_evict_fails c _ k a x Hd Hok Ha Hx Hr) as (c1&Htry&Hok1&Hp&Ec&Em).
  destruct (ok_ring _ _ Hok) as (l&Hring&El). destruct l as [|[p k'] l]; [done|].
  simpl in El. injection El as -> El.
  destruct (clock_next_spec _ _ _ Hring) as (cl&Hnext&Hring'). simpl in Hring'.
  rewrite drop_0, take_0 in Hring'. cbn [evict_loop]. rewrite (peek_front_spec _ _ _ Hring). simpl.
  rewrite Ha. simpl. rewrite Htry. simpl. rewrite Ec, Em, Hnext. simpl.
  exists (set_clock c1 (clock_mem c) cl). split; [done|]. destruct Hok1 as [_ Hnd Hdom Harcs Hinj].
  split; [|by destruct Hp]. split; simpl; try done.
  - exists (l ++ [(p, k)]). split; [done|]. rewrite fmap_app. f_equal. exact El.
  - by rewrite (Permutation_app_comm q [k]).
  - intros k'. rewrite <- Hdom. set_solver.
Qed.
(** Attempts leave what the callback is asked unchanged. *)
Lemma passed_evictable c c' r k : passed c c' r → evictable c' k = evictable c k.
Proof.
  intros [Em _ Hin Hout]. unfold evictable, contains_key. rewrite Em.
  destruct (decide (k ∈ r)) as [Hk|Hk]; [rewrite (Hin k Hk)|by rewrite (Hout k Hk)].
  destruct (view c k) as [x|]; [|done]. simpl. unfold reset. by destruct (strong x =? 1)%nat eqn:E; simpl; rewrite E.
Qed.

Lemma passed_ready c c' r k : passed c c' r → k ∉ r → ready c' k = ready c k.
Proof.
  intros Hp Hk. unfold ready. rewrite (passed_evictable _ _ _ _ Hp). f_equal.
  unfold unreferenced. by rewrite (ps_out _ _ _ Hp).
Qed.

(** After a pass an evictable entry is ready. *)
Lemma passed_ready_in c c' r k : passed c c' r → k ∈ r → ready c' k = evictable c k.
Proof.
  intros Hp Hk. unfold ready. rewrite (passed_evictable _ _ _ _ Hp).
  unfold unreferenced, evictable. rewrite (ps_in _ _ _ Hp k Hk).
  destruct (view c k) as [x|]; [|done]. simpl. unfold reset. by destruct (strong x =? 1)%nat; [|destruct (negb _)].
Qed.

Lemma reset_reset x : reset (reset x) = reset x.
Proof. unfold reset. by destruct (strong x =? 1)%nat eqn:E; simpl; rewrite E. Qed.

Lemma passed_trans c c1 c2 r r' : passed c c1 r → passed c1 c2 r' → passed c c2 (r ++ r').
Proof.
  intros [Em1 Es1 Hi1 Ho1] [Em2 Es2 Hi2 Ho2]. split; try congruence.
  - intros k Hk. destruct (decide (k ∈ r')) as [Hk'|Hk']; [rewrite (Hi2 k Hk')|rewrite (Ho2 k Hk')].
    + destruct (decide (k ∈ r)) as [Hr|Hr]; [rewrite (Hi1 k Hr)|by rewrite (Ho1 k Hr)].
      destruct (view c k); simpl; [|done]. by rewrite reset_reset.
    + apply Hi1. set_solver.
  - intros k Hk. rewrite Ho2, Ho1; set_solver.
Qed.

(** The outcome of the loop over the keys [r ++ d], where the first ready key
    of [r], if any, is taken. *)
Lemma evict_pass fuel c r d cnt len :
  declines_keep → cache_ok c (r ++ d) → (cnt + length r ≤ 2 * len)%nat → (cnt < 2 * len)%nat →
  match List.find (ready c) r with
  | Some k => ∃ r1 r2 c1 c' x v sz, r = r1 ++ k :: r2 ∧ passed c c1 r1 ∧
      evict_loop (length r + fuel) c f cnt len = Some (Some (k, v), c') ∧
      taken c1 c' k x v sz ∧ cache_ok c' (r2 ++ d ++ r1)
  | None => ∃ c1, cache_ok c1 (d ++ r) ∧ passed c c1 r ∧
      evict_loop (length r + fuel) c f cnt len =
        if (cnt + length r =? 2 * len)%nat then Some (None, c1)
        else evict_loop fuel c1 f (cnt + length r) len
  end.
Proof.
  intros Hd. revert c d cnt. induction r as [|k r IH]; intros c d cnt Hok Hle Hlt.
  { exists c. rewrite app_nil_r. split_and!; [done|by split; set_solver|].
    cbn [length Nat.add]. by rewrite Nat.add_0_r, (proj2 (Nat.eqb_neq cnt (2 * len))) by lia. }
  cbn [List.find length Nat.add app] in *. destruct (ready c k) eqn:Ek.
  { destruct (evict_step_takes (length r + fuel) c k (r ++ d) cnt len Hok Ek) as (c'&x&v&sz&He&Ht&Hok').
    exists [], r, c, c', x, v, sz. rewrite app_nil_r. split_and!; try done. split; set_solver. }
  destruct (evict_step_fails (length r + fuel) c k (r ++ d) cnt len Hd Hok Ek) as (c1&He&Hok1&Hp).
  rewrite <- app_assoc in Hok1.
  pose proof (ok_nodup _ _ Hok) as [Hk _]%NoDup_cons.
  destruct (decide (r = [])) as [->|Hne].
  { exists c1. cbn [length app List.find] in *. split_and!; try done. by rewrite He, Nat.add_1_r. }
  assert (S cnt < 2 * len)%nat as Hlt' by (destruct r; [done|simpl in Hle; lia]).
  rewrite (proj2 (Nat.eqb_neq (S cnt) (2 * len))) in He by lia.
  assert (List.find (ready c) r = List.find (ready c1) r) as ->.
  { assert (∀ k', k' ∈ r → ready c k' = ready c1 k') as Hext.
    { intros k' Hk'. symmetry. apply (passed_ready c c1 [k] k' Hp). set_solver. }
    clear -Hext. induction r as [|k' r IH]; [done|]. simpl. rewrite <- Hext, IH by set_solver. done. }
  specialize (IH c1 (d ++ [k]) (S cnt) Hok1 ltac:(lia) Hlt').
  destruct (List.find (ready c1) r) as [k'|].
  - destruct IH as (r1&r2&c2&c'&x&v&sz&->&Hp'&Hl&Ht&Hok').
    exists (k :: r1), r2, c2, c', x, v, sz. split_and!; try done.
    + by apply (passed_trans c c1 c2 [k] r1).
    + by rewrite He.
    + by rewrite <- app_assoc in Hok'.
  - destruct IH as (c2&Hok2&Hp'&Hl). exists c2. split_and!.
    + by rewrite <- app_assoc in Hok2.
    + by apply (passed_trans c c1 c2 [k] r).
    + rewrite He, Hl. by replace (cnt + S (length r))%nat with (S cnt + length r)%nat by lia.
Qed.
(** An entry up to its reference bit. *)
Definition contents c k : option (nat * V) :=
  (λ x, (strong x, cvalue (inner x))) <$> view c k.

Lemma passed_contents c c' r k : passed c c' r → contents c' k = contents c k.
Proof.
  intros [_ _ Hin Hout]. unfold contents.
  destruct (decide (k ∈ r)) as [Hk|Hk]; [rewrite (Hin k Hk)|by rewrite (Hout k Hk)].
  destruct (view c k) as [x|]; [|done]. simpl. unfold reset. by destruct (strong x =? 1)%nat.
Qed.

(** The result of a call of [evict] that takes [k]. *)
Definition evicts c (q : list K) (k : K) (res : option (option (K * V) * cache)) : Prop :=
  ∃ c' v v' sz q1 q2, res = Some (Some (k, v'), c') ∧
    contents c k = Some (1%nat, v) ∧ f k v (contains_key c) = (v', Some sz) ∧
    q = q1 ++ k :: q2 ∧ cache_ok c' (q2 ++ q1) ∧ size_ c' = wrap64 (size_ c - sz) ∧
    map c' = delete k (map c) ∧ ∀ k', k' ≠ k → contents c' k' = contents c k'.

Lemma taken_evicts c c1 c' q q1 q2 k x v sz r res :
  passed c c1 r → taken c1 c' k x v sz → evictable c k = true →
  res = Some (Some (k, v), c') → q = q1 ++ k :: q2 → cache_ok c' (q2 ++ q1) → evicts c q k res.
Proof.
  intros Hp [Hv Hf Hs Hm Ho] He -> -> Hok. pose proof (passed_contents _ _ _ k Hp) as Hc.
  exists c', (cvalue (inner x)), v, sz, q1, q2. split_and!; try done.
  - rewrite <- (passed_evictable _ _ _ k Hp) in He. unfold evictable in He. rewrite Hv in He.
    apply andb_prop in He as [Es%Nat.eqb_eq _]. unfold contents in Hc at 1. rewrite Hv in Hc.
    simpl in Hc. by rewrite <- Hc, Es.
  - unfold contains_key in *. by rewrite (ps_map _ _ _ Hp) in Hf.
  - by rewrite Hs, (ps_size _ _ _ Hp).
  - by rewrite Hm, (ps_map _ _ _ Hp).
  - intros k' Hk'. rewrite <- (passed_contents _ _ _ k' Hp). unfold contents. by rewrite Ho.
Qed.

Lemma find_ext (p p' : K → bool) l :
  (∀ k, k ∈ l → p k = p' k) → List.find p l = List.find p' l.
Proof.
  intros Hp. induction l as [|k l IH]; [done|]. simpl. rewrite Hp, IH by set_solver. done.
Qed.

Lemma evict_spec c q :
  declines_keep → cache_ok c q →
  match victim c q with
  | Some k => evicts c q k (evict c f)
  | None => ∃ c', evict c f = Some (None, c') ∧ cache_ok c' q ∧ size_ c' = size_ c ∧
      map c' = map c ∧ ∀ k, contents c' k = contents c k
  end.
Proof.
  intros Hd Hok. unfold evict, clock_len, clock_fuel.
  destruct (ok_ring _ _ Hok) as (l&Hr&El). pose proof (ring_size _ _ _ Hr) as Hsz.
  rewrite (clock_values_spec _ _ _ l Hr) by lia.
  cbn [fmap option_fmap option_map mbind option_bind]. rewrite El.
  destruct (decide (q = [])) as [->|Hne].
  { exists c. simpl. rewrite (peek_front_spec _ _ _ Hr), El. done. }
  assert (0 < length q)%nat by (destruct q; simpl; [done|lia]).
  replace (S (2 * length q)) with (length q + S (length q))%nat by lia. unfold victim.
  pose proof (evict_pass (S (length q)) c q [] 0 (length q) Hd) as Hpass1.
  rewrite app_nil_r in Hpass1. specialize (Hpass1 Hok ltac:(lia) ltac:(lia)).
  destruct (List.find (ready c) q) as [k|] eqn:E1.
  - destruct Hpass1 as (r1&r2&c1&c'&x&v&sz&Eq&Hp&Hl&Ht&Hok'). simpl in Hok'.
    eapply (taken_evicts c c1 c' q r1 r2); [done..| |exact Hl|done|done].
    apply List.find_some in E1 as [_ E1]. unfold ready in E1. by apply andb_prop in E1 as [_ ?].
  - destruct Hpass1 as (c1&Hok1&Hp1&Hl1). cbn [Nat.add app] in *. rewrite Hl1.
    rewrite (proj2 (Nat.eqb_neq _ _)) by lia.
    pose proof (evict_pass 1 c1 q [] (length q) (length q) Hd) as Hpass2.
    rewrite app_nil_r in Hpass2. specialize (Hpass2 Hok1 ltac:(lia) ltac:(lia)).
    rewrite Nat.add_1_r in Hpass2.
    rewrite (find_ext (ready c1) (evictable c)) in Hpass2
      by (intros k Hk; by eapply passed_ready_in).
    destruct (List.find (evictable c) q) as [k|] eqn:E2.
    + destruct Hpass2 as (r1&r2&c2&c'&x&v&sz&Eq&Hp&Hl&Ht&Hok'). simpl in Hok'.
      eapply (taken_evicts c c2 c' q r1 r2); [by eapply passed_trans|done| |exact Hl|done|done].
      by apply List.find_some in E2 as [_ ?].
    + destruct Hpass2 as (c2&Hok2&Hp2&Hl2). rewrite Hl2.
      rewrite (proj2 (Nat.eqb_eq _ _)) by lia. exists c2. simpl in Hok2. split_and!; try done.
      * rewrite (ps_size _ _ _ Hp2). apply Hp1.
      * rewrite (ps_map _ _ _ Hp2). apply Hp1.
      * intros k. by rewrite (passed_contents _ _ _ k Hp2), (passed_contents _ _ _ k Hp1).
Qed.

End evict.

(** ** The other operations *)

Lemma cache_get_spec c q k count_miss :
  cache_ok c q →
  match view c k with
  | Some x =>
      ∃ a c', cache_get c k count_miss = Some (Some a, c') ∧ cache_ok c' q ∧
        pinned_value c' a = Some (cvalue (inner x)) ∧
        view c' k = Some (mkArc (S (strong x)) (mkCached (cvalue (inner x)) true)) ∧
        ∀ k', k' ≠ k → view c' k' = view c k'
  | None =>
      ∃ c', cache_get c k count_miss = Some (None, c') ∧ cache_ok c' q ∧
        ∀ k', view c' k' = view c k'
  end.
Proof.
  intros Hok. unfold cache_get. destruct (view c k) as [x|] eqn:Hv.
  - unfold view in Hv. apply bind_Some in Hv as (a&Ha&Hx). rewrite Ha. unfold arc_clone, arc_write.
    rewrite Hx. simpl. rewrite !lookup_insert_eq. simpl. rewrite insert_insert_eq.
    destruct (write_ok c q k a x (mkArc (S (strong x)) (mkCached (cvalue (inner x)) true)))
      as (Hok'&Hvk&Hvo); [done|done|done|simpl; lia|].
    eexists a, _. split; [done|]. split_and!; [by eapply cache_ok_ext; [..|exact Hok']| |done|done].
    unfold pinned_value. simpl. by rewrite lookup_insert_eq.
  - destruct (map c !! k) as [a|] eqn:Ha.
    + unfold view in Hv. rewrite Ha in Hv. simpl in Hv.
      destruct (ok_arcs _ _ Hok k a Ha) as (x&Hx&_). by rewrite Hx in Hv.
    + eexists. split; [done|]. destruct count_miss; [|done]. split; [|done].
      by eapply cache_ok_ext; [..|exact Hok].
Qed.

Lemma view_None c q k : cache_ok c q → view c k = None ↔ map c !! k = None.
Proof.
  intros Hok. unfold view. destruct (map c !! k) as [a|] eqn:Ha; [|done]. simpl.
  destruct (ok_arcs _ _ Hok k a Ha) as (x&->&_). done.
Qed.

Lemma cache_remove_spec c q k g :
  cache_ok c q →
  match view c k with
  | None => cache_remove c k g = Some (inr RemoveNotPresent, c)
  | Some x =>
      if (strong x =? 1)%nat then
        ∃ c', cache_remove c k g = Some (inl (g (cvalue (inner x))).1, c') ∧
          cache_ok c' (List.filter (other_than k) q) ∧ view c' k = None ∧
          size_ c' = wrap64 (size_ c - (g (cvalue (inner x))).2) ∧
          ∀ k', k' ≠ k → view c' k' = view c k'
      else cache_remove c k g = Some (inr RemovePinned, c)
  end.
Proof.
  intros Hok. unfold cache_remove. destruct (view c k) as [x|] eqn:Hv.
  - unfold view in Hv. apply bind_Some in Hv as (a&Ha&Hx). rewrite Ha. unfold arc_get_mut.
    rewrite Hx. simpl. destruct (strong x =? 1)%nat eqn:Es; [|done].
    destruct (clock_remove_spec c q k Hok) as (m&cl&->&Hr). simpl. rewrite Ha. simpl.
    unfold arc_try_unwrap. rewrite Hx. simpl. rewrite Es. simpl.
    destruct (delete_ok c k q _ a m cl (delete a (arcs c)) Hok Ha Hr) as [Hok' Hvo].
    + eapply NoDup_without, ok_nodup, Hok.
    + intros k'. apply elem_of_without.
    + intros a' Hne. by rewrite lookup_delete_ne.
    + destruct (g (cvalue (inner x))) as [v sz]. eexists. split; [done|]. split_and!; try done.
      * by eapply cache_ok_ext; [..|exact Hok'].
      * unfold view. simpl. by rewrite lookup_delete_eq.
  - apply (view_None _ _ _ Hok) in Hv. by rewrite Hv.
Qed.

Lemma cache_insert_spec (cache_size : V → Z) c q k v sz :
  cache_ok c q → view c k = None → cache_size v = sz →
  ∃ c', cache_insert cache_size c k v sz = Some c' ∧ cache_ok c' (q ++ [k]) ∧
    view c' k = Some (mkArc 1 (mkCached v false)) ∧ size_ c' = wrap64 (size_ c + sz) ∧
    ∀ k', k' ≠ k → view c' k' = view c k'.
Proof.
  intros Hok Hv Hsz. pose proof Hv as Hm. apply (view_None _ _ _ Hok) in Hm.
  unfold cache_insert, arc_new, map_insert, contains_key.
  rewrite (proj2 (Z.eqb_eq _ _) Hsz). simpl. rewrite Hm. simpl.
  set (a := fresh (dom (arcs c))). assert (a ∉ dom (arcs c)) as Ha by apply is_fresh. clearbody a.
  destruct (ok_ring _ _ Hok) as (l&Hr&El).
  destruct (push_back_spec _ _ _ k Hr) as (m&cl&p&->&Hr'). simpl.
  assert (∀ k' a', map c !! k' = Some a' → a ≠ a') as Hne.
  { intros k' a' Ha' ->. destruct (ok_arcs _ _ Hok k' a' Ha') as (x&Hx&_).
    apply Ha, elem_of_dom. eauto. }
  eexists. split; [done|]. destruct Hok as [_ Hnd Hd Hs Hi]. split_and!; [|..].
  - split; simpl.
    + eexists. split; [exact Hr'|]. rewrite fmap_app. by f_equal.
    + apply NoDup_app. split_and!; [done| |apply NoDup_singleton].
      intros k' Hk' ->%list_elem_of_singleton. apply Hd in Hk' as [? ?]. congruence.
    + intros k'. rewrite elem_of_app, list_elem_of_singleton, Hd.
      destruct (decide (k' = k)) as [->|Hk']; [rewrite lookup_insert_eq|rewrite lookup_insert_ne by done];
        naive_solver.
    + intros k' a' [[-> <-]|[Hk' Ha']]%lookup_insert_Some.
      * rewrite lookup_insert_eq. eexists. split; [done|]. simpl. lia.
      * rewrite lookup_insert_ne by eauto. eauto.
    + intros k1 k2 a' [[<- <-]|[H1 H1']]%lookup_insert_Some [[<- E]|[H2 H2']]%lookup_insert_Some;
        try done; [by destruct (Hne k2 a)|subst; by destruct (Hne k1 a')|by eapply Hi].
  - unfold view. simpl. by rewrite lookup_insert_eq; simpl; rewrite lookup_insert_eq.
  - done.
  - intros k' Hk'. unfold view. simpl. rewrite lookup_insert_ne by done.
    destruct (map c !! k') as [a'|] eqn:Ha'; [|done]. simpl. rewrite lookup_insert_ne by eauto. done.
Qed.


(** A key in the clock is overwritten. *)
Lemma clock_rename_spec c q k k2 :
  (∃ l, ring (clock_mem c) (clock c) l ∧ l.*2 = q) → k ∈ q →
  ∃ m q1 q2, q = q1 ++ k :: q2 ∧ clock_rename c k k2 = Some (set_clock c m (clock c)) ∧
    ∃ l, ring m (clock c) l ∧ l.*2 = q1 ++ k2 :: q2.
Proof.
  intros (l&Hr&El) Hk. unfold clock_rename.
  pose proof (iter_find_spec (clock_fuel c) _ _ l (λ k', bool_decide (k' = k)) Hr) as Hfind.
  destruct (iter (clock_mem c) (clock c)) as [it|]; [|by discriminate Hfind;
    rewrite (ring_size _ _ _ Hr); unfold clock_fuel; lia].
  simpl in *. rewrite Hfind by (rewrite (ring_size _ _ _ Hr); unfold clock_fuel; lia). simpl. clear Hfind.
  destruct (List.find _ l) as [[p k']|] eqn:Ef.
  - apply List.find_some in Ef as [Hin Ek]. apply bool_decide_eq_true in Ek. simpl in Ek. subst k'.
    apply list_elem_of_In, list_elem_of_lookup in Hin as [i Hi].
    destruct (set_value_spec _ _ l i p k k2 Hr Hi) as (m&Hset&Hr'). simpl. rewrite Hset. simpl.
    assert (q !! i = Some k) as Hqi by by rewrite <- El, list_lookup_fmap, Hi.
    exists m, (take i q), (drop (S i) q). split_and!; [by rewrite take_drop_middle|done|].
    eexists. split; [exact Hr'|]. rewrite list_fmap_insert, El. simpl.
    apply insert_take_drop. by apply lookup_lt_Some in Hqi.
  - exfalso. rewrite <- El in Hk. apply list_elem_of_fmap in Hk as (e&->&He).
    apply list_elem_of_In in He. pose proof (List.find_none _ _ Ef e He) as Hn. simpl in Hn.
    by apply bool_decide_eq_false in Hn.
Qed.

Lemma rename_spec c q k k2 :
  cache_ok c q → k ∈ q → k2 ∉ q →
  ∃ c' q1 q2, rename c k k2 = Some c' ∧ q = q1 ++ k :: q2 ∧ cache_ok c' (q1 ++ k2 :: q2) ∧
    size_ c' = size_ c ∧ view c' k2 = view c k ∧ view c' k = None ∧
    ∀ k', k' ≠ k → k' ≠ k2 → view c' k' = view c k'.
Proof.
  intros Hok Hk Hk2. destruct (ok_view _ _ _ Hok Hk) as (a&x&Ha&Hx&_).
  assert (k ≠ k2) as Hne by (intros ->; done).
  assert (map c !! k2 = None) as Hm2.
  { destruct (map c !! k2) eqn:E; [|done]. destruct Hk2. apply (ok_dom _ _ Hok). by rewrite E. }
  unfold rename, map_insert. rewrite Ha. simpl. rewrite lookup_delete_ne, Hm2 by done. simpl.
  set (c1 := set_arcs _ _).
  destruct (clock_rename_spec c1 q k k2 (ok_ring _ _ Hok) Hk) as (m&q1&q2&Eq&->&Hr).
  destruct Hok as [_ Hnd Hd Hs Hi]. rewrite Eq in *.
  assert (∀ k', k' ≠ k → k' ≠ k2 → <[k2 := a]> (delete k (map c)) !! k' = map c !! k') as Hother.
  { intros k' ??. by rewrite lookup_insert_ne, lookup_delete_ne by done. }
  eexists _, q1, q2. split; [done|]. split; [done|]. apply NoDup_app in Hnd as (Hnd1&Hnd12&Hnd2).
  apply NoDup_cons in Hnd2 as [Hnk Hnd2]. split_and!; [split; simpl; try done|done|..].
  - apply NoDup_app. split_and!; [done| |].
    + intros k' Hk1 [->|Hk']%elem_of_cons; [set_solver|]. apply (Hnd12 k' Hk1). set_solver.
    + apply NoDup_cons. split; [set_solver|done].
  - intros k'. destruct (decide (k' = k2)) as [->|H2].
    { rewrite lookup_insert_eq. split; [eauto|set_solver]. }
    destruct (decide (k' = k)) as [->|H1].
    { rewrite lookup_insert_ne, lookup_delete_eq by done. split; [|by intros []].
      intros Hin. exfalso. specialize (Hnd12 k). set_solver. }
    rewrite Hother, <- Hd by done. set_solver.
  - intros k' a' Ha'. destruct (decide (k' = k2)) as [->|H2].
    { rewrite lookup_insert_eq in Ha'. simplify_eq. by eapply Hs. }
    rewrite lookup_insert_ne in Ha' by done. apply lookup_delete_Some in Ha' as [_ Ha']. by eapply Hs.
  - intros k' k'' a' [[<- <-]|[_ [Hn1 Hl1]%lookup_delete_Some]]%lookup_insert_Some
      [[<- E]|[_ [Hn2 Hl2]%lookup_delete_Some]]%lookup_insert_Some; try done.
    + by destruct (Hi k k'' a Ha Hl2).
    + subst a'. by destruct (Hi k k' a Ha Hl1).
    + by eapply Hi.
  - unfold view. simpl. by rewrite lookup_insert_eq, Ha.
  - unfold view. simpl. by rewrite lookup_insert_ne, lookup_delete_eq by done.
  - intros k' H1 H2. unfold view. simpl. by rewrite Hother.
Qed.


Lemma force_remove_spec c q k sz :
  cache_ok c q →
  ∃ c', force_remove c k sz = Some (contains_key c k, c') ∧
    cache_ok c' (List.filter (other_than k) q) ∧ view c' k = None ∧
    (∀ k', k' ≠ k → view c' k' = view c k') ∧
    ∀ a x, map c !! k = Some a → arcs c !! a = Some x → (2 ≤ strong x)%nat →
      arcs c' !! a = Some (mkArc (pred (strong x)) (inner x)).
Proof.
  intros Hok. unfold force_remove, contains_key.
  destruct (clock_remove_spec c q k Hok) as (m&cl&->&Hr). simpl.
  destruct (map c !! k) as [a|] eqn:Ha.
  - destruct (ok_arcs _ _ Hok k a Ha) as (x&Hx&_). unfold arc_drop. rewrite Hx. simpl.
    set (m' := if (strong x <=? 1)%nat then _ else _).
    destruct (delete_ok c k q _ a m cl m' Hok Ha Hr) as [Hok' Hvo].
    + eapply NoDup_without, ok_nodup, Hok.
    + intros k'. apply elem_of_without.
    + intros a' Hne. unfold m'. destruct (strong x <=? 1)%nat;
        [by rewrite lookup_delete_ne|by rewrite lookup_insert_ne].
    + eexists. split; [done|]. split_and!; try done.
      * by eapply cache_ok_ext; [..|exact Hok'].
      * unfold view. simpl. by rewrite lookup_delete_eq.
      * intros a' x' [= <-] Hx' Hs. rewrite Hx in Hx'. injection Hx' as <-. simpl. unfold m'.
        destruct (Nat.leb_spec (strong x) 1); [lia|]. by rewrite lookup_insert_eq.
  - eexists. split; [done|].
    assert (List.filter (other_than k) q = q) as E.
    { assert (k ∉ q) as Hk by (rewrite (ok_dom _ _ Hok), Ha; by intros []).
      clear -Hk. induction q as [|k' q IH]; [done|]. simpl. unfold other_than at 1.
      rewrite bool_decide_false by set_solver. simpl. f_equal. apply IH. set_solver. }
    rewrite E in *. split_and!; try done.
    + destruct Hok as [_ Hnd Hd Hs Hi]. by split.
    + unfold view. simpl. by rewrite Ha.
Qed.

(** What a caller of [get] holds: one reference more than the map. *)
Lemma cache_get_pins c q k count_miss a c1 :
  cache_ok c q → cache_get c k count_miss = Some (Some a, c1) →
  ∃ v n, cache_ok c1 q ∧ map c1 !! k = Some a ∧
    arcs c1 !! a = Some (mkArc (S (S n)) (mkCached v true)).
Proof.
  intros Hok Hg. pose proof (cache_get_spec c q k count_miss Hok) as Hs.
  destruct (view c k) as [x|] eqn:Hv.
  - destruct Hs as (a'&c'&Hg'&Hok'&_&Hvk&_). rewrite Hg in Hg'. injection Hg' as <- <-.
    unfold view in Hvk. apply bind_Some in Hvk as (a1&Ha'&Hx).
    assert (a1 = a) as ->.
    { unfold cache_get in Hg. destruct (map c !! k) as [a0|] eqn:E; [|by destruct count_miss].
      repeat (apply bind_Some in Hg as (?&_&Hg)). simplify_eq. simpl in Ha'. congruence. }
    unfold view in Hv. apply bind_Some in Hv as (a0&Ha0&Hx0).
    destruct (ok_arcs _ _ Hok k a0 Ha0) as (x0&Hx1&Hn). rewrite Hx0 in Hx1. injection Hx1 as <-.
    exists (cvalue (inner x)), (pred (strong x)). split_and!; try done.
    rewrite Hx. do 2 f_equal. lia.
  - destruct Hs as (c'&Hg'&_). congruence.
Qed.


(** C16: eviction finds an entry if there is one, by second chance.  The loop
    of [evict] ends without a panic.  If some entry is neither pinned nor
    declined by the callback, the call returns one: the first in the order of
    the clock that has not been referenced since the hand passed it, or else
    the first at all; this entry leaves the cache with the value the callback
    made of it, the size goes down by what the callback reported, and all
    other entries keep their values and references.  Otherwise it returns
    [None] and no entry is lost. *)
Theorem evict_second_chance c q f :
  cache_ok c q → declines_keep f →
  match victim f c q with
  | Some k => evicts f c q k (evict c f)
  | None => ∃ c', evict c f = Some (None, c') ∧ cache_ok c' q ∧ size_ c' = size_ c ∧
      map c' = map c ∧ ∀ k, contents c' k = contents c k
  end.
Proof. intros Hok Hd. by apply evict_spec. Qed.

(** An inserted entry is found.  Inserting a value under a new key, with
    its size, does not panic; it adds the key at the end of the clock and the
    size to that of the cache, and [get] then returns the value; the other
    entries are not affected.  The key can be changed to another new one,
    which then leads to the same value. *)
Theorem inserted_entry_found (cache_size : V → Z) c q k v k2 :
  cache_ok c q → contains_key c k = false → contains_key c k2 = false → k ≠ k2 →
  ∃ c1 a c2 c3, cache_insert cache_size c k v (cache_size v) = Some c1 ∧ cache_ok c1 (q ++ [k]) ∧
    size_ c1 = wrap64 (size_ c + cache_size v) ∧
    (∀ k', k' ≠ k → view c1 k' = view c k') ∧
    cache_get c1 k true = Some (Some a, c2) ∧ pinned_value c2 a = Some v ∧
    force_change_key c1 k k2 = Some (true, c3) ∧ cache_ok c3 (q ++ [k2]) ∧
    view c3 k2 = Some (mkArc 1 (mkCached v false)) ∧ contains_key c3 k = false.
Proof.
  intros Hok Hk Hk2 Hne. unfold contains_key in Hk, Hk2. apply bool_decide_eq_false in Hk, Hk2.
  assert (view c k = None) as Hv by (apply (view_None _ _ _ Hok); by apply eq_None_not_Some).
  destruct (cache_insert_spec cache_size c q k v (cache_size v) Hok Hv eq_refl) as (c1&Hi&Hok1&Hv1&Hs1&Ho1).
  pose proof (cache_get_spec c1 _ k true Hok1) as Hg. rewrite Hv1 in Hg.
  destruct Hg as (a&c2&Hg&_&Hpv&_).
  destruct (rename_spec c1 (q ++ [k]) k k2 Hok1) as (c3&q1&q2&Hr&Eq&Hok3&_&Hv3&Hvk&_);
    [set_solver|rewrite elem_of_app, list_elem_of_singleton, (ok_dom _ _ Hok); naive_solver|].
  assert (q1 = q ∧ q2 = []) as [-> ->].
  { pose proof (ok_nodup _ _ Hok1) as Hnd. rewrite Eq in Hnd.
    destruct (decide (q2 = [])) as [->|Hq2]; [by apply app_inj_tail in Eq as [-> _]|].
    destruct (exists_last Hq2) as (q3&x&->). rewrite app_comm_cons, app_assoc in Eq.
    apply app_inj_tail in Eq as [_ <-]. rewrite app_comm_cons, app_assoc in Hnd.
    apply NoDup_app in Hnd as (_&Hnd&_). destruct (Hnd k); set_solver. }
  exists c1, a, c2, c3. split_and!; try done.
  - unfold force_change_key. unfold view in Hv1. destruct (map c1 !! k); [|done]. by rewrite Hr.
  - by rewrite Hv3.
  - apply bool_decide_eq_false. intros [a' Ha']. apply (view_None _ _ _ Hok3) in Hvk. congruence.
Qed.

Lemma cache_new_ok cap : cache_ok (cache_new cap) [].
Proof.
  split; simpl; try done.
  - exists []. split; [apply ring_empty|done].
  - constructor.
  - intros k. rewrite lookup_empty. split; [set_solver|by intros []].
Qed.
End cache.

Module CacheExamples.

Definition eight (v : nat) : Z := 8.
Definition put (c : ClockCache nat nat) (k v : nat) : ClockCache nat nat :=
  default c (cache_insert eight c k v 8).

(** Two entries, the older one read and released again. *)
Definition two : ClockCache nat nat := put (put (cache_new 100) 1 10) 2 20.
Definition pinned : option (option arc * ClockCache nat nat) := cache_get two 1%nat true.
Definition read : ClockCache nat nat :=
  default two ('(a, c) ← pinned; a ← a; unpin c a).

Lemma put_ok c q k v :
  cache_ok c q → view c k = None → cache_ok (put c k v) (q ++ [k]).
Proof.
  intros Hok Hv. unfold put.
  destruct (cache_insert_spec eight c q k v 8 Hok Hv eq_refl) as (c'&->&Hok'&_). done.
Qed.

Lemma two_ok : cache_ok two [1; 2]%nat.
Proof. apply (put_ok _ [1%nat]); [apply (put_ok _ []); [apply cache_new_ok|]|]; by vm_compute. Qed.

Definition accept (k v : nat) (b : nat → bool) : nat * option Z := (v, Some 8).

(** The unreferenced entry of [two] that comes first is evicted. *)
Lemma evict_second_chance_witness : evicts accept two [1; 2]%nat 1%nat (evict two accept).
Proof.
  apply (evict_second_chance two [1; 2]%nat accept).
  - apply two_ok.
  - by intros k v b.
Defined.


Lemma inserted_entry_found_witness :
  ∃ c1, cache_insert eight two 3%nat 30%nat 8 = Some c1 ∧ cache_ok c1 [1; 2; 3]%nat.
Proof.
  destruct (inserted_entry_found eight two [1; 2]%nat 3%nat 30%nat 4%nat) as (c1&_&_&_&Hi&Hok&_).
  - apply two_ok.
  - by vm_compute.
  - by vm_compute.
  - lia.
  - by exists c1.
Defined.

(** A referenced entry gets a second chance. *)
Lemma second_chance : victim accept read [1; 2]%nat = Some 2%nat.
Proof. by vm_compute. Qed.
End CacheExamples.
