(* ===== verification/Dataset.v ===== *)
(** * Data sets

    The operations of a data set ([database/dataset.rs]) on the contents of
    its tree.  [layer_get], [layer_insert] and [layer_range] are what
    [TreeLayer] promises to its users: a finite map, changed by messages and
    read in key order.  [represents] ties the contents to a tree, and the
    refinement theorem says that [get], [insert] and [range] of the tree do to
    it what these functions do to the map.  The components above the tree
    (the database, the object store) are modelled over contents. *)

From Stdlib Require Import ZArith Lia.
From stdpp Require Import base option list numbers gmap fin_maps.
From S2P Require Import Prelude.
From S2P Require Import Bytes.
From S2P Require Import BTreeMap.
From S2P Require Import CowBytes.
From S2P Require Import StoragePref.
From S2P Require Import Message.
From S2P Require Import Checksum.
From S2P Require Import ChildBuffer.
From S2P Require Import Pivots.
From S2P Require Import Internal.
From S2P Require Import Node.
From S2P Require Import Tree.
From S2P Require Import TreeInv.
From S2P Require Import TreeCorrect.
From S2P Require Import Range.

(** [database::Error], as far as the modelled operations return it. *)
Inductive DbError :=
  | TreeErr (source : TreeError) | DoesNotExist | AlreadyExists | InUse | MessageTooLarge
  | KeyContainsNullByte | InvalidSuperblock | SerializationErr
  | MigrationWouldExceedStorage (tier blocks : Z) | MigrationNotPossible.

(** ** The contents of a tree *)

Section layer.
Context `{MessageAction}.
Implicit Types (d : contents) (k : bytes).

Definition layer_get d k : option bytes := d !! k.

(** The map after the value of a key became [v]. *)
Definition set_contents d k (v : option bytes) : contents := partial_alter (λ _, v) k d.

Definition layer_insert d k (msg : bytes) : option (contents + TreeError) :=
  if bool_decide (k = []) then Some (inr EmptyKey)
  else v ← ma_apply k msg (d !! k); Some (inl (set_contents d k v)).

(** The bounds as the range iterator takes them. *)
Definition in_bounds (r : RangeBounds) k : bool :=
  match start_bound r with
  | Unbounded => true
  | Included x => bleb x k
  | Excluded x => bltb x k
  end &&
  match end_bound r with
  | Unbounded => true
  | Included y => bleb k y
  | Excluded y => bleb k (increment_pivot_key y)
  end.

Definition layer_range d (r : RangeBounds) : list (bytes * bytes) + TreeError :=
  if negb (is_inclusive_non_empty r) then inr InvalidRange
  else inl (bt_filter (in_bounds r) (bt_of_map d)).

(** ** Data sets *)

(** [MAX_MESSAGE_SIZE] *)
Definition MAX_MESSAGE_SIZE : Z := 512 * 1024.

Definition from_tree {A} (r : A + TreeError) : A + DbError :=
  match r with inl x => inl x | inr e => inr (TreeErr e) end.

(** [insert_msg_with_pref]; the preference does not touch the contents. *)
Definition ds_insert_msg d k (msg : bytes) : option (contents + DbError) :=
  r ← layer_insert d k msg; Some (from_tree r).

(** [range] *)
Definition ds_range d (r : RangeBounds) : list (bytes * bytes) + DbError :=
  from_tree (layer_range d r).

End layer.

Section default_dataset.
Implicit Types (d : contents) (k : bytes).

(** [insert_with_pref] *)
Definition ds_insert d k (data : bytes) : option (contents + DbError) :=
  if MAX_MESSAGE_SIZE <? blen data then Some (inr MessageTooLarge)
  else ds_insert_msg d k (Content.build_overwrite_msg (Some data)).

(** [upsert_with_pref] *)
Definition ds_upsert d k (data : bytes) (offset : Z) : option (contents + DbError) :=
  if MAX_MESSAGE_SIZE <? offset + blen data then Some (inr MessageTooLarge)
  else ds_insert_msg d k (Content.build_upsert_msg [UBytes offset data]).

(** [delete] *)
Definition ds_delete d k : option (contents + DbError) :=
  ds_insert_msg d k (Content.build_overwrite_msg None).

(** The loop of [range_delete]: it goes on after an error and returns the
    first one. *)
Fixpoint delete_keys d (ks : list bytes) (res : unit + DbError) :
    option ((unit + DbError) * contents) :=
  match ks with
  | [] => Some (res, d)
  | k :: ks =>
      r ← ds_delete d k;
      match r with
      | inl d => delete_keys d ks res
      | inr e => delete_keys d ks (match res with inl _ => inr e | inr _ => res end)
      end
  end.

(** [range_delete] *)
Definition ds_range_delete d (r : RangeBounds) : option ((unit + DbError) * contents) :=
  match ds_range d r with
  | inr e => Some (inr e, d)
  | inl es => delete_keys d es.*1 (inl tt)
  end.

End default_dataset.

(** ** Facts on contents *)

Section facts.
Context `{MessageAction}.
Implicit Types (d : contents) (k : bytes).

Lemma set_contents_lookup d k v k' :
  set_contents d k v !! k' = if bool_decide (k' = k) then v else d !! k'.
Proof.
  unfold set_contents. rewrite lookup_partial_alter.
  destruct (decide (k = k')) as [->|Hne]; [by rewrite bool_decide_true|by rewrite bool_decide_false].
Qed.

Lemma in_bounds_spec r k :
  in_bounds r k = true ↔ starting_at (start_bound r) k ∧ up_to (end_bound r) k.
Proof.
  unfold in_bounds, starting_at, up_to. rewrite andb_true_iff.
  destruct (start_bound r), (end_bound r); simpl; bbool; split; intros [??]; split; try done; border.
Qed.

Lemma layer_range_elem d r es k v :
  layer_range d r = inl es →
  bt_sorted es ∧ ((k, v) ∈ es ↔
    d !! k = Some v ∧ starting_at (start_bound r) k ∧ up_to (end_bound r) k).
Proof.
  unfold layer_range. destruct (is_inclusive_non_empty r); [|done]. simpl. intros [= <-].
  pose proof (bt_of_map_sorted d) as Hs.
  assert (bt_sorted (bt_filter (in_bounds r) (bt_of_map d))) as Hsf by by apply bt_sorted_filter.
  split; [done|]. rewrite <- bt_get_Some, bt_get_filter by done.
  rewrite <- in_bounds_spec. destruct (in_bounds r k); [|naive_solver].
  rewrite bt_get_Some, bt_of_map_elem by done. naive_solver.
Qed.
End facts.

(** ** The contents of a tree are its contents *)

Section refinement.
Context `{Checksum} `{MessageActionLaws}.
Implicit Types (t : Tree) (s : Store) (d : contents) (k : bytes).

(** Tree [t] of height [L] in store [s] holds the entries of [d]. *)
Definition represents t s (L : nat) d : Prop :=
  tree_inv t s L ∧ ∀ k, value_of t s L k = Some (d !! k).

Lemma sorted_entries_ext (l l' : list (bytes * bytes)) :
  bt_sorted l → bt_sorted l' → (∀ k v, (k, v) ∈ l ↔ (k, v) ∈ l') → l = l'.
Proof.
  intros Hl Hl' Hin. apply bt_ext; [done|done|]. intros k.
  apply option_eq. intros v. by rewrite !bt_get_Some.
Qed.

End refinement.

Module DatasetExamples.
Import PolyHash BufferExamples TreeExamples RangeExamples.

(** The tree with the keys 2.0 and 5, without the former. *)
Definition five : Store := stored small_store (key Byte.x05) [Byte.x0b].

Lemma small_empty k : value_of tree1 small_store 1 k = Some None.
Proof.
  unfold value_of. assert (idx small_root k = 0%nat ∨ idx small_root k = 1%nat) as E.
  { unfold idx. simpl. destruct (bltb (key Byte.x02) k); auto. }
  change (den (objs small_store) 1 (or_id (root_node tree1)) k) with
    (c ← children small_root !! idx small_root k;
     d ← den (objs small_store) 0 (or_id (cl_ptr c)) k;
     msg_eff (buf_contents (cl_buffer c)) k d).
  by destruct E as [-> | ->].
Qed.

Lemma five_represents : represents tree1 five 1 {[key Byte.x05 := [Byte.x0b]]}.
Proof.
  destruct (insert_message_ok 5 tree1 small_store 1 (key Byte.x05) (put [Byte.x0b]) Pref.FAST)
    as (s'&node&parent&l&r&Hi&Hok&_&Ho&Hk);
    [apply small_ok|lia|apply put_valid|by apply Pref.validb_spec|vm_compute; by intros nd [= <-]|].
  assert (five = s') as -> by (unfold five, stored; by rewrite Hi).
  split; [done|]. intros k. destruct (decide (k = key Byte.x05)) as [->|Hne].
  - rewrite Hk by by vm_compute. by vm_compute.
  - rewrite (Ho k Hne), lookup_singleton_ne by done. apply small_empty.
Qed.

End DatasetExamples.
