(* ===== verification/Meta.v ===== *)
(** * Object meta data

    The messages of an object store's meta data tree ([object/meta.rs]) and
    [PreferredAccessType] ([storage_pool/configuration.rs]).

    A key without a zero byte is the name of an object and holds its
    [ObjectInfo]; a name followed by a zero byte and more holds a custom
    entry.  A [SystemTime] is the number of nanoseconds since the epoch.  The
    records are stored with the speedy crate, the class [Speedy]; its law is
    that a record is read back as it was written. *)

From Stdlib Require Import ZArith Lia.
From stdpp Require Import base option list numbers.
From S2P Require Import Prelude.
From S2P Require Import Bytes.
From S2P Require Import StoragePref.
From S2P Require Import Message.

(** ** Access patterns *)

Inductive PreferredAccessType :=
  | AccessUnknown | RandomRead | RandomWrite | RandomReadWrite
  | SequentialWrite | SequentialRead | SequentialReadWrite.

#[export] Instance access_eq_dec : EqDecision PreferredAccessType.
Proof. solve_decision. Defined.

Definition access_as_u8 (a : PreferredAccessType) : Z :=
  match a with
  | AccessUnknown => 0 | RandomRead => 1 | RandomWrite => 2 | RandomReadWrite => 3
  | SequentialWrite => 4 | SequentialRead => 5 | SequentialReadWrite => 6
  end.

Definition access_try_from (v : Z) : option PreferredAccessType :=
  if v =? access_as_u8 AccessUnknown then Some AccessUnknown
  else if v =? access_as_u8 RandomRead then Some RandomRead
  else if v =? access_as_u8 RandomWrite then Some RandomWrite
  else if v =? access_as_u8 RandomReadWrite then Some RandomReadWrite
  else if v =? access_as_u8 SequentialRead then Some SequentialRead
  else if v =? access_as_u8 SequentialWrite then Some SequentialWrite
  else if v =? access_as_u8 SequentialReadWrite then Some SequentialReadWrite
  else None.

(** [Default for PreferredAccessType] *)
Definition access_default : PreferredAccessType := AccessUnknown.

Lemma access_try_from_as_u8 a : access_try_from (access_as_u8 a) = Some a.
Proof. by destruct a. Qed.

Lemma access_as_u8_byte a : 0 ≤ access_as_u8 a < 256.
Proof. destruct a; simpl; lia. Qed.

(** ** Records and messages *)

Record ObjectInfo := {
  oi_object_id : Z;
  oi_size : Z;
  oi_mtime : Z;
  oi_pref : StoragePreference;
  oi_access_pattern : PreferredAccessType;
}.

Record MetaMessage := {
  mm_object_id : option Z;
  mm_size : option Z;
  mm_mtime : option Z;
  mm_pref : option StoragePreference;
  mm_access_pattern : option PreferredAccessType;
}.

(** [MetaMessage::new] *)
Definition meta_new (object_id size mtime : option Z) (pref : option StoragePreference)
    (access_pattern : option PreferredAccessType) : MetaMessage :=
  {| mm_object_id := object_id; mm_size := size; mm_mtime := mtime;
     mm_pref := pref; mm_access_pattern := access_pattern |}.

(** [MetaMessage::delete] *)
Definition meta_delete : MetaMessage := meta_new None None None None None.

Definition set_info (info : ObjectInfo) : MetaMessage :=
  meta_new (Some (oi_object_id info)) (Some (oi_size info)) (Some (oi_mtime info))
    (Some (oi_pref info)) (Some (oi_access_pattern info)).

Definition flag {A} (o : option A) (f : Z) : Z :=
  match o with Some _ => f | None => 0 end.

Definition to_content_flags (m : MetaMessage) : Z :=
  Z.lor (Z.lor (Z.lor (Z.lor (flag (mm_object_id m) 1) (flag (mm_size m) 2))
    (flag (mm_mtime m) 4)) (flag (mm_pref m) 8)) (flag (mm_access_pattern m) 16).

Definition CONTENT_FLAG_NONE : Z := to_content_flags meta_delete.
Definition CONTENT_FLAG_ALL : Z :=
  to_content_flags (meta_new (Some 0) (Some 0) (Some 0) (Some Pref.NONE) (Some AccessUnknown)).

Definition encoded_length (m : MetaMessage) : Z :=
  1 + flag (mm_object_id m) 8 + flag (mm_size m) 8 + flag (mm_mtime m) 8
    + flag (mm_pref m) 1 + flag (mm_access_pattern m) 16.

(** The microseconds of a time, as [pack] stores them; a time before the
    epoch or past the [u64] range panics. *)
Definition us_since_epoch (mtime : Z) : option Z :=
  assert! 0 <=? mtime;
  let us := mtime / 1000 in
  assert! us <? U64_SIZE; Some us.

(** [if let Some(x) = o { write x }] *)
Definition write_opt {A} (o : option A) (w : A → option bytes) : option bytes :=
  match o with Some x => w x | None => Some [] end.

(** [MetaMessage::pack] *)
Definition meta_pack (m : MetaMessage) : option bytes :=
  object_id ← write_opt (mm_object_id m) (λ x, Some (le64 x));
  size ← write_opt (mm_size m) (λ x, Some (le64 x));
  mtime ← write_opt (mm_mtime m) (λ t, us ← us_since_epoch t; Some (le64 us));
  pref ← write_opt (mm_pref m) (λ p, Some [to_u8 (Pref.as_u8 p)]);
  ap ← write_opt (mm_access_pattern m) (λ a, Some [to_u8 (access_as_u8 a)]);
  Some (to_u8 (to_content_flags m) :: object_id ++ size ++ mtime ++ pref ++ ap).

(** Reading from a cursor: the value and the rest; [None] is the error at the
    end of the input, on which every caller panics. *)
Definition cursor_u8 (c : bytes) : option (Z * bytes) :=
  match c with [] => None | b :: c => Some (u8 b, c) end.

Definition cursor_u64 (c : bytes) : option (Z * bytes) :=
  w ← cut c 0 8; Some (of_le w, drop 8 c).

(** A field that is read when its flag is set. *)
Definition read_opt {A} (content_flags f : Z) (read : bytes → option (A * bytes)) (c : bytes) :
    option (option A * bytes) :=
  if negb (Z.land content_flags f =? 0) then '(x, c) ← read c; Some (Some x, c)
  else Some (None, c).

(** [MetaMessage::unpack] *)
Definition meta_unpack (msg : bytes) : option MetaMessage :=
  '(fl, c) ← cursor_u8 msg;
  '(object_id, c) ← read_opt fl 1 cursor_u64 c;
  '(size, c) ← read_opt fl 2 cursor_u64 c;
  '(mtime, c) ← read_opt fl 4 (λ c, '(us, c) ← cursor_u64 c; Some (us * 1000, c)) c;
  '(pref, c) ← read_opt fl 8 (λ c, '(p, c) ← cursor_u8 c; p ← Pref.from_u8 p; Some (p, c)) c;
  '(ap, c) ← read_opt fl 16
    (λ c, '(a, c) ← cursor_u8 c; Some (default access_default (access_try_from a), c)) c;
  Some (meta_new object_id size mtime pref ap).

(** ** The message action *)

Definition FIXED_DELETE : Z := 0.
Definition FIXED_REPLACE : Z := 1.

Definition is_fixed_key (key : bytes) : bool := bool_decide (zero ∉ key).

Definition delete_custom : bytes := [to_u8 FIXED_DELETE].

Definition set_custom (value : bytes) : bytes := to_u8 FIXED_REPLACE :: value.

(** [write_to_vec_with_ctx] and [read_from_buffer_with_ctx] of [ObjectInfo]. *)
Class Speedy := {
  write_info : ObjectInfo → option bytes;
  read_info : bytes → option ObjectInfo;
}.

(** The values the fields can have. *)
Definition info_ok (i : ObjectInfo) : Prop :=
  0 ≤ oi_object_id i < U64_SIZE ∧ 0 ≤ oi_size i < U64_SIZE ∧
  0 ≤ oi_mtime i < 1000 * U64_SIZE ∧ Pref.valid (oi_pref i).

Class SpeedyLaws `{Speedy} := {
  read_write_info i : info_ok i → ∃ b, write_info i = Some b ∧ read_info b = Some i;
}.

Definition or_max (a b : option Z) : option Z :=
  match a, b with
  | None, None => None
  | Some x, None | None, Some x => Some x
  | Some a, Some b => Some (Z.max a b)
  end.

(** [Option::or] *)
Definition opt_or {A} (a b : option A) : option A :=
  match a with Some _ => a | None => b end.

Section action.
Context `{Speedy}.

Definition with_fields (m : MetaMessage) (info : ObjectInfo) : ObjectInfo :=
  {| oi_object_id := default (oi_object_id info) (mm_object_id m);
     oi_size := default (oi_size info) (mm_size m);
     oi_mtime := default (oi_mtime info) (mm_mtime m);
     oi_pref := default (oi_pref info) (mm_pref m);
     oi_access_pattern := default (oi_access_pattern info) (mm_access_pattern m) |}.

(** [apply] *)
Definition meta_apply (key msg : bytes) (data : option bytes) : option (option bytes) :=
  if is_fixed_key key then
    m ← meta_unpack msg;
    match m with
    | {| mm_object_id := Some object_id; mm_size := Some size; mm_mtime := Some mtime;
         mm_pref := Some pref; mm_access_pattern := Some access_pattern |} =>
        b ← write_info {| oi_object_id := object_id; oi_size := size; oi_mtime := mtime;
                          oi_pref := pref; oi_access_pattern := access_pattern |};
        Some (Some b)
    | {| mm_object_id := None; mm_size := None; mm_mtime := None;
         mm_pref := None; mm_access_pattern := None |} => Some None
    | _ =>
        match data with
        | Some d => info ← read_info d; b ← write_info (with_fields m info); Some (Some b)
        | None => Some None
        end
    end
  else
    t ← at_ msg 0;
    if u8 t =? FIXED_DELETE then Some None
    else if u8 t =? FIXED_REPLACE then Some (Some (drop 1 msg))
    else None.

(** [merge] *)
Definition meta_merge (key upper_msg lower_msg : bytes) : option bytes :=
  if is_fixed_key key then
    upper ← meta_unpack upper_msg;
    if to_content_flags upper =? CONTENT_FLAG_ALL then Some upper_msg
    else if to_content_flags upper =? CONTENT_FLAG_NONE then Some lower_msg
    else
      lower ← meta_unpack lower_msg;
      meta_pack {| mm_object_id := opt_or (mm_object_id upper) (mm_object_id lower);
                   mm_size := or_max (mm_size upper) (mm_size lower);
                   mm_mtime := or_max (mm_mtime upper) (mm_mtime lower);
                   mm_pref := opt_or (mm_pref upper) (mm_pref lower);
                   mm_access_pattern :=
                     opt_or (mm_access_pattern upper) (mm_access_pattern lower) |}
  else Some upper_msg.

Definition MetaMessageAction : MessageAction :=
  {| ma_apply := meta_apply; ma_merge := meta_merge |}.

End action.

(** ** Packing *)

(** The messages that can be packed. *)
Definition msg_ok (m : MetaMessage) : Prop :=
  (∀ x, mm_object_id m = Some x → 0 ≤ x < U64_SIZE) ∧
  (∀ x, mm_size m = Some x → 0 ≤ x < U64_SIZE) ∧
  (∀ x, mm_mtime m = Some x → 0 ≤ x < 1000 * U64_SIZE) ∧
  (∀ p, mm_pref m = Some p → Pref.valid p).

(** A message as it is read back: the time is cut to microseconds. *)
Definition in_us (m : MetaMessage) : MetaMessage :=
  meta_new (mm_object_id m) (mm_size m) ((λ t, t / 1000 * 1000) <$> mm_mtime m)
    (mm_pref m) (mm_access_pattern m).

Lemma msg_ok_set_info i : info_ok i → msg_ok (set_info i).
Proof. intros (?&?&?&?). split_and!; simpl; intros ? [= <-]; done. Qed.

Lemma us_since_epoch_Some t : 0 ≤ t < 1000 * U64_SIZE → us_since_epoch t = Some (t / 1000).
Proof.
  intros ?. unfold us_since_epoch. rewrite (proj2 (Z.leb_le 0 t)) by lia.
  rewrite (proj2 (Z.ltb_lt _ _)); [done|]. apply Z.div_lt_upper_bound; lia.
Qed.

Lemma pref_from_as_u8 p : Pref.valid p → Pref.from_u8 p = Some p.
Proof. unfold Pref.valid, Pref.from_u8, Pref.NONE, U8_MAX. intros ?. zbool; simpl; lia || done. Qed.

Lemma cursor_u64_le64 x rest : 0 ≤ x < U64_SIZE → cursor_u64 (le64 x ++ rest) = Some (x, rest).
Proof.
  intros ?. unfold cursor_u64.
  rewrite (cut_app_mid [] (le64 x) rest) by (rewrite ?blen_le64; done). cbn [mbind option_bind].
  rewrite of_le_le64 by done. by rewrite drop_app_length' by (by rewrite length_le64).
Qed.

Lemma cursor_u8_byte x rest : 0 ≤ x < 256 → cursor_u8 (to_u8 x :: rest) = Some (x, rest).
Proof. intros ?. simpl. by rewrite u8_to_u8. Qed.

Lemma flags_set m f :
  f ∈ [1; 2; 4; 8; 16] →
  (Z.land (to_content_flags m) f =? 0) =
  negb (if f =? 1 then bool_decide (is_Some (mm_object_id m))
        else if f =? 2 then bool_decide (is_Some (mm_size m))
        else if f =? 4 then bool_decide (is_Some (mm_mtime m))
        else if f =? 8 then bool_decide (is_Some (mm_pref m))
        else bool_decide (is_Some (mm_access_pattern m))).
Proof. intros Hf. destruct m as [[] [] [] [] []]; set_unfold; naive_solver. Qed.

Lemma flags_byte m : 0 ≤ to_content_flags m < 256.
Proof. destruct m as [[] [] [] [] []]; compute; split; congruence. Qed.

Lemma read_written {A} (o : option A) (g : A → A) fl f w rd c rest :
  (Z.land fl f =? 0) = negb (bool_decide (is_Some o)) →
  write_opt o w = Some c →
  (∀ x b, o = Some x → w x = Some b → rd (b ++ rest) = Some (g x, rest)) →
  read_opt fl f rd (c ++ rest) = Some (g <$> o, rest).
Proof.
  intros Hf Hw Hr. unfold read_opt. rewrite Hf, negb_involutive.
  destruct o as [x|]; simpl in *; [by rewrite (Hr _ _ eq_refl Hw)|by simplify_eq].
Qed.

Lemma pack_total m : msg_ok m → ∃ b, meta_pack m = Some b.
Proof.
  intros (_&_&Ht&_). unfold meta_pack, write_opt. destruct m as [[] [] [t|] [] []]; simpl in *;
    rewrite ?us_since_epoch_Some by (by apply Ht); simpl; eauto.
Qed.

Lemma unpack_pack m b : msg_ok m → meta_pack m = Some b → meta_unpack b = Some (in_us m).
Proof.
  intros (Hi&Hs&Ht&Hp) Hpk. unfold meta_pack in Hpk.
  apply bind_Some in Hpk as (oid & ? & Hpk). apply bind_Some in Hpk as (sz & ? & Hpk).
  apply bind_Some in Hpk as (mt & ? & Hpk). apply bind_Some in Hpk as (pf & ? & Hpk).
  apply bind_Some in Hpk as (ap & ? & Hpk). injection Hpk as <-.
  unfold meta_unpack. rewrite cursor_u8_byte by apply flags_byte. simpl.
  erewrite (read_written (mm_object_id m) id); [|by rewrite flags_set by set_solver|done|];
    [|intros x ? ? [= <-]; by apply cursor_u64_le64, Hi]. simpl.
  erewrite (read_written (mm_size m) id); [|by rewrite flags_set by set_solver|done|];
    [|intros x ? ? [= <-]; by apply cursor_u64_le64, Hs]. simpl.
  erewrite (read_written (mm_mtime m) (λ t, t / 1000 * 1000));
    [|by rewrite flags_set by set_solver|done|].
  2:{ intros x ? Hx. pose proof (Ht _ Hx). simpl. rewrite us_since_epoch_Some by done. simpl. intros [= <-].
      rewrite cursor_u64_le64; [done|]. split; [apply Z.div_pos; lia|apply Z.div_lt_upper_bound; lia]. }
  simpl.
  erewrite (read_written (mm_pref m) id); [|by rewrite flags_set by set_solver|done|].
  2:{ intros x ? Hx [= <-]. pose proof (Hp _ Hx). simpl. unfold Pref.as_u8.
      rewrite u8_to_u8 by (by apply Pref.valid_byte). by rewrite pref_from_as_u8. }
  simpl.
  rewrite <- (app_nil_r ap).
  erewrite (read_written (mm_access_pattern m) id); [|by rewrite flags_set by set_solver|done|].
  2:{ intros x ? _ [= <-]. simpl. rewrite u8_to_u8 by apply access_as_u8_byte.
      by rewrite access_try_from_as_u8. }
  simpl.
  unfold in_us. by rewrite !option_fmap_id.
Qed.

(** ** What a message does to a record *)

Definition is_full (m : MetaMessage) : bool := to_content_flags m =? CONTENT_FLAG_ALL.
Definition is_delete (m : MetaMessage) : bool := to_content_flags m =? CONTENT_FLAG_NONE.

Definition blank : ObjectInfo :=
  {| oi_object_id := 0; oi_size := 0; oi_mtime := 0; oi_pref := Pref.NONE;
     oi_access_pattern := AccessUnknown |}.

(** A full message sets the record, the empty one deletes it, any other one
    changes the fields it has of a record that exists. *)
Definition info_effect (m : MetaMessage) (o : option ObjectInfo) : option ObjectInfo :=
  if is_full m then Some (with_fields m blank)
  else if is_delete m then None
  else with_fields m <$> o.

Definition merge_fields (u l : MetaMessage) : MetaMessage :=
  {| mm_object_id := opt_or (mm_object_id u) (mm_object_id l);
     mm_size := or_max (mm_size u) (mm_size l);
     mm_mtime := or_max (mm_mtime u) (mm_mtime l);
     mm_pref := opt_or (mm_pref u) (mm_pref l);
     mm_access_pattern := opt_or (mm_access_pattern u) (mm_access_pattern l) |}.

(** The messages the object store sends: a full record, or a change that
    leaves the identifier alone. *)
Definition regular (m : MetaMessage) : Prop :=
  is_full m = true ∨ (mm_object_id m = None ∧ is_delete m = false).

(** The newer message has no smaller size and no earlier time. *)
Definition not_before (u l : MetaMessage) : Prop :=
  (∀ a b, mm_size u = Some a → mm_size l = Some b → b ≤ a) ∧
  (∀ a b, mm_mtime u = Some a → mm_mtime l = Some b → b ≤ a).

Lemma is_full_in_us m : is_full (in_us m) = is_full m.
Proof. by destruct m as [[] [] [] [] []]. Qed.

Lemma is_delete_in_us m : is_delete (in_us m) = is_delete m.
Proof. by destruct m as [[] [] [] [] []]. Qed.

Lemma us_round t : 0 ≤ t < 1000 * U64_SIZE → 0 ≤ t / 1000 * 1000 < 1000 * U64_SIZE.
Proof. intros. pose proof (Z.div_mod t 1000). pose proof (Z.mod_pos_bound t 1000). lia. Qed.

Lemma us_idem t : t / 1000 * 1000 / 1000 * 1000 = t / 1000 * 1000.
Proof. by rewrite Z.div_mul. Qed.

Lemma msg_ok_in_us m : msg_ok m → msg_ok (in_us m).
Proof.
  intros (?&?&Ht&?). split_and!; [done..| |done]. simpl. intros t.
  destruct (mm_mtime m) as [x|]; [|done]. intros [= <-]. apply us_round. by apply Ht.
Qed.

Lemma or_max_elem (P : Z → Prop) a b c :
  (∀ x, a = Some x → P x) → (∀ x, b = Some x → P x) → or_max a b = Some c → P c.
Proof.
  destruct a as [x|], b as [y|]; simpl; intros Ha Hb [= <-]; eauto.
  destruct (Z.max_spec x y) as [[? ->]|[? ->]]; eauto.
Qed.

Lemma opt_or_elem {A} (P : A → Prop) a b c :
  (∀ x, a = Some x → P x) → (∀ x, b = Some x → P x) → opt_or a b = Some c → P c.
Proof. destruct a; simpl; intros Ha Hb; [intros [= <-]|]; eauto. Qed.

Lemma msg_ok_merge u l : msg_ok u → msg_ok l → msg_ok (merge_fields u l).
Proof.
  intros (Hi&Hs&Ht&Hp) (Hi'&Hs'&Ht'&Hp'). split_and!; intros x.
  - exact (opt_or_elem _ _ _ _ Hi Hi').
  - exact (or_max_elem _ _ _ _ Hs Hs').
  - exact (or_max_elem _ _ _ _ Ht Ht').
  - exact (opt_or_elem _ _ _ _ Hp Hp').
Qed.

Lemma in_us_merge u l :
  in_us (merge_fields (in_us u) (in_us l)) = merge_fields (in_us u) (in_us l).
Proof.
  unfold in_us, merge_fields, meta_new. simpl. f_equal.
  destruct (mm_mtime u) as [a|], (mm_mtime l) as [b|]; simpl; rewrite ?us_idem; try done.
  destruct (Z.max_spec (a / 1000 * 1000) (b / 1000 * 1000)) as [[_ ->]|[_ ->]];
    by rewrite us_idem.
Qed.

Lemma info_ok_effect m o i :
  msg_ok m → (∀ j, o = Some j → info_ok j) → info_effect m o = Some i → info_ok i.
Proof.
  intros (?&?&?&?) Ho. unfold info_effect.
  assert (∀ j, info_ok j → info_ok (with_fields m j)) as Hw.
  { intros j (?&?&?&?). unfold with_fields, info_ok. simpl.
    destruct (mm_object_id m), (mm_size m), (mm_mtime m), (mm_pref m); simpl; auto 10. }
  destruct (is_full m); [|destruct (is_delete m)].
  - intros [= <-]. apply Hw. unfold blank, info_ok, U64_SIZE. simpl.
    split_and!; try lia. by left.
  - done.
  - destruct o as [j|]; [|done]. intros [= <-]. auto.
Qed.

Lemma with_fields_merge u l i :
  not_before u l → with_fields (merge_fields u l) i = with_fields u (with_fields l i).
Proof.
  intros [Hs Ht]. unfold with_fields, merge_fields. simpl. f_equal.
  - by destruct (mm_object_id u).
  - destruct (mm_size u), (mm_size l); simpl; try done. rewrite Z.max_l; auto.
  - destruct (mm_mtime u), (mm_mtime l); simpl; try done. rewrite Z.max_l; auto.
  - by destruct (mm_pref u).
  - by destruct (mm_access_pattern u).
Qed.

Lemma is_full_spec m :
  is_full m = true ↔ is_Some (mm_object_id m) ∧ is_Some (mm_size m) ∧ is_Some (mm_mtime m) ∧
    is_Some (mm_pref m) ∧ is_Some (mm_access_pattern m).
Proof.
  split.
  - destruct m as [[] [] [] [] []]; intros E; try discriminate E; simpl; eauto 10.
  - destruct m as [a b c d e]. simpl. by intros ([? ->]&[? ->]&[? ->]&[? ->]&[? ->]).
Qed.

Lemma is_delete_spec m : is_delete m = true ↔ m = meta_delete.
Proof.
  split; [|by intros ->]. destruct m as [[] [] [] [] []]; intros E; first [discriminate E|reflexivity].
Qed.

Lemma is_full_merge u l : mm_object_id u = None → regular l → is_full (merge_fields u l) = is_full l.
Proof.
  intros Hu Hl. apply eq_true_iff_eq. rewrite !is_full_spec. unfold merge_fields. simpl.
  rewrite Hu. simpl. destruct Hl as [Hl%is_full_spec|[Hl _]].
  - destruct Hl as ([? ->]&[? ->]&[? ->]&[? ->]&[? ->]).
    destruct (mm_size u), (mm_mtime u), (mm_pref u), (mm_access_pattern u); simpl; split; eauto 10.
  - rewrite Hl. split; intros ([? ?]&_); done.
Qed.

Lemma is_delete_merge u l : is_delete u = false → is_delete (merge_fields u l) = false.
Proof.
  intros Hu. apply not_true_is_false. intros Hm%is_delete_spec. apply not_true_iff_false in Hu.
  apply Hu, is_delete_spec. injection Hm as Hi Hs Ht Hp Ha. destruct u as [a b c d e]. simpl in *.
  destruct a; [done|]. destruct b; [by destruct (mm_size l)|].
  destruct c; [by destruct (mm_mtime l)|]. by destruct d, e.
Qed.

(** A regular message after another regular one acts as their merge. *)
Lemma merge_fields_sequence u l o :
  is_full u = false → regular u → regular l → not_before u l →
  info_effect (merge_fields u l) o = info_effect u (info_effect l o).
Proof.
  intros Hf [?|[Hid Hd]] Hl Hnb; [congruence|]. unfold info_effect.
  rewrite (is_full_merge u l), is_delete_merge, Hf, Hd by done. rewrite !with_fields_merge by done.
  destruct (is_full l) eqn:Hfl; [done|]. destruct Hl as [?|[_ ->]]; [congruence|].
  destruct o; simpl; by rewrite ?with_fields_merge.
Qed.

(** ** Messages and stored records *)

Section laws.
Context `{SpeedyLaws}.

(** How a record lies in the tree. *)
Definition store (o : option ObjectInfo) : option (option bytes) :=
  match o with
  | Some i => b ← write_info i; Some (Some b)
  | None => Some None
  end.

Lemma store_total o : (∀ i, o = Some i → info_ok i) → ∃ d, store o = Some d.
Proof.
  intros Ho. destruct o as [i|]; simpl; [|eauto].
  destruct (read_write_info i (Ho i eq_refl)) as (b & -> & _). simpl. eauto.
Qed.

Lemma apply_effect key m b o d :
  is_fixed_key key = true → msg_ok m → meta_pack m = Some b →
  (∀ i, o = Some i → info_ok i) → store o = Some d →
  meta_apply key b d = store (info_effect (in_us m) o).
Proof.
  intros Hk Hm Hb Ho Hd. unfold meta_apply. rewrite Hk, (unpack_pack m b) by done.
  assert (∀ i, o = Some i → ∃ x, d = Some x ∧ read_info x = Some i) as Hread.
  { intros i ->. simpl in Hd. destruct (read_write_info i (Ho i eq_refl)) as (x & Hw & Hr).
    rewrite Hw in Hd. injection Hd as <-. eauto. }
  set (n := in_us m). destruct n as [[] [] [] [] []] eqn:En; cbn [mbind option_bind];
    try reflexivity; unfold info_effect, is_full, is_delete; simpl;
    (destruct o as [i|]; simpl; [|by injection Hd as <-]);
    destruct (Hread i eq_refl) as (x & -> & ->); reflexivity.
Qed.

Lemma merge_packed key u l bu bl :
  is_fixed_key key = true → msg_ok u → msg_ok l → is_full u = false → is_delete u = false →
  meta_pack u = Some bu → meta_pack l = Some bl →
  meta_merge key bu bl = meta_pack (merge_fields (in_us u) (in_us l)).
Proof.
  intros Hk Hu Hl Hf Hd Hbu Hbl. unfold meta_merge.
  rewrite Hk, (unpack_pack u bu), (unpack_pack l bl) by done. cbn [mbind option_bind].
  fold (is_full (in_us u)) (is_delete (in_us u)). by rewrite is_full_in_us, is_delete_in_us, Hf, Hd.
Qed.

Lemma effect_ok m o :
  msg_ok m → (∀ i, o = Some i → info_ok i) →
  ∀ i, info_effect (in_us m) o = Some i → info_ok i.
Proof. intros Hm Ho i. apply info_ok_effect; [by apply msg_ok_in_us|done]. Qed.

Lemma regular_in_us m : regular m → regular (in_us m).
Proof. unfold regular. by rewrite is_full_in_us, is_delete_in_us. Qed.

(** A meta data message is read back from its packed form, its time cut
    to microseconds; packing panics for no message with fields in range, and
    what it writes is no longer than the length it computes beforehand. *)
Theorem meta_roundtrip m :
  msg_ok m →
  ∃ b, meta_pack m = Some b ∧ meta_unpack b = Some (in_us m) ∧ blen b ≤ encoded_length m.
Proof.
  intros Hm. destruct (pack_total m Hm) as [b Hb]. exists b. split; [done|].
  split; [by apply unpack_pack|].
  unfold meta_pack, write_opt in Hb. unfold encoded_length.
  destruct m as [[] [] [] [] []]; simpl in *; inv_bind;
    rewrite ?blen_cons, ?blen_app, ?blen_le64, ?blen_cons, ?blen_nil; lia.
Qed.

(** For the messages the object store sends for an object (a full record
    or a change that leaves the identifier alone, the newer one with no
    smaller size and no earlier time), merging does not panic, and the merged
    message does to a stored record what the older message followed by the
    newer one does. *)
Theorem meta_merge_is_sequence key u l bu bl o d :
  is_fixed_key key = true → msg_ok u → msg_ok l → regular u → regular l →
  not_before (in_us u) (in_us l) → meta_pack u = Some bu → meta_pack l = Some bl →
  (∀ i, o = Some i → info_ok i) → store o = Some d →
  ∃ bm d' d'', meta_merge key bu bl = Some bm ∧
    meta_apply key bl d = Some d' ∧ meta_apply key bu d' = Some d'' ∧
    meta_apply key bm d = Some d''.
Proof.
  intros Hk Hu Hl Ru Rl Hnb Hbu Hbl Ho Hd.
  pose proof (effect_ok l o Hl Ho) as Ho1. destruct (store_total _ Ho1) as [d1 Hd1].
  pose proof (effect_ok u _ Hu Ho1) as Ho2. destruct (store_total _ Ho2) as [d2 Hd2].
  assert (meta_apply key bl d = Some d1) as Hl1 by (by rewrite (apply_effect key l bl o d)).
  assert (meta_apply key bu d1 = Some d2) as Hu1
    by (by rewrite (apply_effect key u bu (info_effect (in_us l) o) d1)).
  destruct (is_full u) eqn:Hf.
  - exists bu, d1, d2. split_and!; try done.
    + unfold meta_merge. rewrite Hk, (unpack_pack u bu) by done. cbn [mbind option_bind].
      fold (is_full (in_us u)). by rewrite is_full_in_us, Hf.
    + rewrite (apply_effect key u bu o d) by done. rewrite <- Hd2.
      unfold info_effect. by rewrite is_full_in_us, Hf.
  - assert (is_delete u = false) as Hdel by (destruct Ru as [?|[_ ?]]; congruence).
    pose proof (msg_ok_merge _ _ (msg_ok_in_us u Hu) (msg_ok_in_us l Hl)) as Hm.
    destruct (pack_total _ Hm) as [bm Hbm]. exists bm, d1, d2.
    rewrite (merge_packed key u l) by done. split_and!; try done.
    rewrite (apply_effect key _ bm o d Hk Hm Hbm Ho Hd), in_us_merge.
    rewrite merge_fields_sequence;
      [done|by rewrite is_full_in_us|by apply regular_in_us|by apply regular_in_us|done].
Qed.

(** Custom entries: the newer message wins. *)
Lemma custom_merge_is_sequence key u l d :
  is_fixed_key key = false → ma_merge (MessageAction := MetaMessageAction) key u l = Some u ∧
  (∀ d', meta_apply key u d = meta_apply key u d').
Proof. intros Hk. simpl. unfold meta_merge, meta_apply. by rewrite Hk. Qed.

(** A deletion that is merged into an older message is lost: merging
    returns the older message, so an object that was created and deleted
    before the messages reached a leaf is back. *)
Theorem merged_deletion_is_lost key l bl bd :
  is_fixed_key key = true → msg_ok l → is_full l = true →
  meta_pack l = Some bl → meta_pack meta_delete = Some bd →
  (∀ d, meta_apply key bd d = Some None) ∧
  ∃ bm b, meta_merge key bd bl = Some bm ∧ ∀ d, meta_apply key bm d = Some (Some b).
Proof.
  intros Hk Hl Hf Hbl [= <-]. split.
  { intros d. unfold meta_apply. by rewrite Hk. }
  destruct (store_total (info_effect (in_us l) None)) as [d0 Hd]; [by apply effect_ok|].
  unfold info_effect in Hd. rewrite is_full_in_us, Hf in Hd. simpl in Hd. apply bind_Some in Hd as (w & Hw & _).
  exists bl, w. split; [unfold meta_merge; by rewrite Hk|]. intros d.
  unfold meta_apply. rewrite Hk, (unpack_pack l bl) by done. cbn [mbind option_bind].
  rewrite is_full_spec in Hf.
  unfold in_us, with_fields, meta_new in *. destruct l as [a b c e f]. simpl in *.
  destruct Hf as ([? ->]&[? ->]&[? ->]&[? ->]&[? ->]). simpl in *. by rewrite Hw.
Qed.

(** A change of the size that reaches the record replaces it, also by a
    smaller one: after a write that ends below the end of an object, the
    object is cut there. (Two such changes that are merged on the way give the
    larger size.) *)
Theorem smaller_size_is_applied key i b s t bm :
  is_fixed_key key = true → info_ok i → write_info i = Some b →
  0 ≤ s < oi_size i → 0 ≤ t < 1000 * U64_SIZE →
  meta_pack (meta_new None (Some s) (Some t) None None) = Some bm →
  ∃ b' i', meta_apply key bm (Some b) = Some (Some b') ∧ read_info b' = Some i' ∧
    oi_size i' = s ∧ oi_size i' < oi_size i.
Proof.
  intros Hk Hi Hb Hs Ht Hbm. pose proof Hi as (_&?&_).
  set (m := meta_new None (Some s) (Some t) None None) in *.
  assert (msg_ok m) as Hm.
  { split_and!; simpl; intros ? [= <-]; lia. }
  assert (∀ j, Some i = Some j → info_ok j) as Ho by (by intros j [= <-]).
  assert (info_ok (with_fields (in_us m) i)) as Hi' by (by apply (effect_ok m (Some i) Hm Ho)).
  destruct (read_write_info _ Hi') as (b' & Hw & Hr).
  exists b', (with_fields (in_us m) i). split_and!; [|done|done|simpl; lia].
  rewrite (apply_effect key m bm (Some i)); try done; simpl; [by rewrite Hw|by rewrite Hb].
Qed.

End laws.

(** ** Examples *)

Module MetaExamples.

(** A record layout for which the laws hold: the fields one after the other,
    the time as seconds and nanoseconds. *)
Definition write_fields (i : ObjectInfo) : option bytes :=
  Some (le64 (oi_object_id i) ++ le64 (oi_size i) ++ le64 (oi_mtime i / 10 ^ 9) ++
        le64 (oi_mtime i mod 10 ^ 9) ++
        to_u8 (oi_pref i) :: to_u8 (access_as_u8 (oi_access_pattern i)) :: []).

Definition read_fields (c : bytes) : option ObjectInfo :=
  '(id, c) ← cursor_u64 c; '(sz, c) ← cursor_u64 c; '(s, c) ← cursor_u64 c;
  '(ns, c) ← cursor_u64 c; '(p, c) ← cursor_u8 c; '(a, c) ← cursor_u8 c;
  ap ← access_try_from a;
  Some {| oi_object_id := id; oi_size := sz; oi_mtime := s * 10 ^ 9 + ns; oi_pref := p;
          oi_access_pattern := ap |}.

#[export] Instance fields_speedy : Speedy := {
  write_info := write_fields;
  read_info := read_fields;
}.

Lemma read_write_fields i : info_ok i → ∃ b, write_fields i = Some b ∧ read_fields b = Some i.
Proof.
  destruct i as [id sz t p a]. intros (Hi & Hs & Ht & Hp). eexists. split; [done|].
  cbn [oi_object_id oi_size oi_mtime oi_pref oi_access_pattern] in *. unfold read_fields.
  pose proof (Z.mod_pos_bound t (10 ^ 9)). pose proof (Z.div_mod t (10 ^ 9)).
  rewrite (cursor_u64_le64 id) by done. cbn [mbind option_bind].
  rewrite (cursor_u64_le64 sz) by done. cbn [mbind option_bind].
  rewrite (cursor_u64_le64 (t / _)); [cbn [mbind option_bind]|].
  2:{ unfold U64_SIZE in *. split; [apply Z.div_pos; lia|apply Z.div_lt_upper_bound; lia]. }
  rewrite (cursor_u64_le64 (t mod _)) by (unfold U64_SIZE; lia). cbn [mbind option_bind].
  rewrite cursor_u8_byte by (by apply Pref.valid_byte).
  cbn [mbind option_bind]. rewrite cursor_u8_byte by apply access_as_u8_byte.
  cbn [mbind option_bind]. rewrite access_try_from_as_u8. simpl. do 2 f_equal. lia.
Qed.

#[export] Instance fields_laws : SpeedyLaws.
Proof. split. apply read_write_fields. Qed.

Definition name : bytes := [to_u8 111; to_u8 98; to_u8 106].

Definition info : ObjectInfo :=
  {| oi_object_id := 7; oi_size := 4096; oi_mtime := 5000000; oi_pref := Pref.NONE;
     oi_access_pattern := RandomRead |}.

Lemma info_is_ok : info_ok info.
Proof. unfold info_ok, U64_SIZE. simpl. split_and!; try lia. by left. Qed.

Definition write_msg : MetaMessage := meta_new None (Some 8192) (Some 6000000) None None.

Lemma write_msg_ok : msg_ok write_msg.
Proof. unfold msg_ok, U64_SIZE. simpl. split_and!; intros ? [= <-]; lia. Qed.

Lemma meta_roundtrip_witness :
  ∃ b, meta_pack write_msg = Some b ∧ meta_unpack b = Some (in_us write_msg) ∧
    blen b ≤ encoded_length write_msg.
Proof. apply (meta_roundtrip write_msg). apply write_msg_ok. Defined.

Lemma meta_merge_is_sequence_witness :
  ∃ bm d' d'',
    meta_merge name (default [] (meta_pack write_msg)) (default [] (meta_pack (set_info info)))
      = Some bm ∧
    meta_apply name (default [] (meta_pack (set_info info))) None = Some d' ∧
    meta_apply name (default [] (meta_pack write_msg)) d' = Some d'' ∧
    meta_apply name bm None = Some d''.
Proof.
  apply (meta_merge_is_sequence name write_msg (set_info info) _ _ None None); try reflexivity.
  - apply write_msg_ok.
  - apply msg_ok_set_info, info_is_ok.
  - right. split; reflexivity.
  - left. reflexivity.
  - split; simpl; intros ? ? [= <-] [= <-]; vm_compute; congruence.
  - intros i E. discriminate E.
Defined.

Lemma merged_deletion_is_lost_witness :
  (∀ d, meta_apply name (default [] (meta_pack meta_delete)) d = Some None) ∧
  ∃ bm b, meta_merge name (default [] (meta_pack meta_delete))
            (default [] (meta_pack (set_info info))) = Some bm ∧
    ∀ d, meta_apply name bm d = Some (Some b).
Proof.
  apply (merged_deletion_is_lost name (set_info info)); try reflexivity.
  apply msg_ok_set_info, info_is_ok.
Defined.

Lemma smaller_size_is_applied_witness :
  ∃ b' i',
    meta_apply name (default [] (meta_pack (meta_new None (Some 10) (Some 6000000) None None)))
      (Some (default [] (write_info info))) = Some (Some b') ∧
    read_info b' = Some i' ∧ oi_size i' = 10 ∧ oi_size i' < oi_size info.
Proof.
  apply (smaller_size_is_applied name info _ 10 6000000); try reflexivity.
  - apply info_is_ok.
  - simpl. lia.
  - unfold U64_SIZE. lia.
Defined.

End MetaExamples.
