(* ===== verification/Chunk.v ===== *)
(** * Chunks of an object

    [object/chunk.rs]: an object is cut into chunks of 128 KiB; a range of
    bytes becomes a range of chunk offsets, and that a sequence of ranges that
    each lie in one chunk. *)

From Stdlib Require Import ZArith Lia.
From stdpp Require Import base option list numbers.
From S2P Require Import Prelude.

Definition CHUNK_SIZE : Z := 128 * 1024.
Definition CHUNK_MAX : Z := U32_SIZE - 1 - 1024.

Record ChunkOffset := { chunk_id : Z; chunk_offset : Z }.

#[export] Instance ChunkOffset_eq_dec : EqDecision ChunkOffset.
Proof. solve_decision. Defined.

Definition as_bytes (c : ChunkOffset) : Z := chunk_id c * CHUNK_SIZE + chunk_offset c.

Record ChunkRange := { cr_start : ChunkOffset; cr_end : ChunkOffset }.

(** [ChunkRange::from_byte_bounds]; the casts to [u32] cut off high bits. *)
Definition from_byte_bounds (offset len : Z) : ChunkRange :=
  let end_ := Z.min (offset + len) (U64_SIZE - 1) in
  {| cr_start := {| chunk_id := wrap32 (offset / CHUNK_SIZE);
                    chunk_offset := wrap32 (offset mod CHUNK_SIZE) |};
     cr_end := {| chunk_id := wrap32 (end_ / CHUNK_SIZE);
                  chunk_offset := wrap32 (end_ mod CHUNK_SIZE) |} |}.

Definition is_single_chunk (r : ChunkRange) : bool :=
  chunk_id (cr_start r) =? chunk_id (cr_end r).

Definition single_chunk_len (r : ChunkRange) : option Z :=
  assert! is_single_chunk r;
  assert! chunk_offset (cr_start r) <=? chunk_offset (cr_end r);
  Some (chunk_offset (cr_end r) - chunk_offset (cr_start r)).

(** One call of the closure behind the iterator of [split_at_chunk_bounds]:
    the range it returns and the new [range_start]. *)
Definition split_next (range_start : option ChunkOffset) (end_ : ChunkOffset) :
    option (ChunkRange * option ChunkOffset) :=
  start ← range_start;
  if (chunk_id end_ <? chunk_id start) || bool_decide (start = end_) then None
  else
    let last_chunk := chunk_id start =? chunk_id end_ in
    let range_start :=
      id ← u32_add (chunk_id start) 1; Some {| chunk_id := id; chunk_offset := 0 |} in
    Some ({| cr_start := start;
             cr_end := {| chunk_id := chunk_id start;
                          chunk_offset := if last_chunk then chunk_offset end_ else CHUNK_SIZE |} |},
          range_start).

Fixpoint split_collect (n : nat) (range_start : option ChunkOffset) (end_ : ChunkOffset) :
    list ChunkRange :=
  match n with
  | O => []
  | S n =>
      match split_next range_start end_ with
      | None => []
      | Some (r, range_start) => r :: split_collect n range_start end_
      end
  end.

(** The ranges of the iterator; there are at most as many as chunks. *)
Definition split_at_chunk_bounds (r : ChunkRange) : list ChunkRange :=
  split_collect (Z.to_nat (chunk_id (cr_end r) - chunk_id (cr_start r) + 1))
    (Some (cr_start r)) (cr_end r).

(** ** The ranges cover the bytes *)

(** The bytes that have a chunk. *)
Definition MAX_BYTES : Z := CHUNK_SIZE * U32_SIZE.

(** [rs] leads from byte [a] to byte [b] without a gap. *)
Fixpoint contiguous (a : Z) (rs : list ChunkRange) (b : Z) : Prop :=
  match rs with
  | [] => a = b
  | r :: rs => as_bytes (cr_start r) = a ∧ contiguous (as_bytes (cr_end r)) rs b
  end.

(** A range of at least one byte within one chunk. *)
Definition in_one_chunk (r : ChunkRange) : Prop :=
  chunk_id (cr_start r) = chunk_id (cr_end r) ∧
  0 ≤ chunk_id (cr_start r) < U32_SIZE ∧ 0 ≤ chunk_offset (cr_start r) ∧
  chunk_offset (cr_start r) < chunk_offset (cr_end r) ≤ CHUNK_SIZE.

Definition offset_ok (c : ChunkOffset) : Prop :=
  0 ≤ chunk_id c < U32_SIZE ∧ 0 ≤ chunk_offset c < CHUNK_SIZE.

(** The chunk offset of a byte. *)
Definition chunk_at (x : Z) : ChunkOffset :=
  {| chunk_id := x / CHUNK_SIZE; chunk_offset := x mod CHUNK_SIZE |}.

Lemma chunk_at_ok x : 0 ≤ x < MAX_BYTES → offset_ok (chunk_at x).
Proof.
  unfold MAX_BYTES, offset_ok, chunk_at. simpl. intros ?.
  pose proof (Z.mod_pos_bound x CHUNK_SIZE eq_refl).
  split; [|done]. split; [apply Z.div_pos; unfold CHUNK_SIZE; lia|].
  apply Z.div_lt_upper_bound; unfold CHUNK_SIZE in *; lia.
Qed.

Lemma as_bytes_chunk_at x : as_bytes (chunk_at x) = x.
Proof. unfold as_bytes. simpl. pose proof (Z.div_mod x CHUNK_SIZE). unfold CHUNK_SIZE in *. lia. Qed.

Lemma wrap32_small x : 0 ≤ x < U32_SIZE → wrap32 x = x.
Proof. intros. unfold wrap32, U32_SIZE in *. by apply Z.mod_small. Qed.

Lemma from_byte_bounds_at offset len :
  0 ≤ offset → 0 ≤ len → offset + len < MAX_BYTES →
  from_byte_bounds offset len = {| cr_start := chunk_at offset; cr_end := chunk_at (offset + len) |}.
Proof.
  intros Ho Hl Hm. unfold from_byte_bounds.
  rewrite Z.min_l by (unfold MAX_BYTES, CHUNK_SIZE, U32_SIZE, U64_SIZE in *; lia).
  destruct (chunk_at_ok offset) as [? [? ?]]; [lia|].
  destruct (chunk_at_ok (offset + len)) as [? [? ?]]; [lia|]. simpl in *.
  rewrite !wrap32_small; [done|..]; unfold CHUNK_SIZE, U32_SIZE in *; lia.
Qed.

(** Comparing chunk offsets is comparing bytes. *)
Lemma split_collect_ok n start end_ :
  offset_ok start → offset_ok end_ → as_bytes start ≤ as_bytes end_ →
  chunk_id end_ - chunk_id start < Z.of_nat n →
  contiguous (as_bytes start) (split_collect n (Some start) end_) (as_bytes end_) ∧
  Forall in_one_chunk (split_collect n (Some start) end_).
Proof.
  revert start. induction n as [|n IH]; intros start [Hs Hso] [He Heo] Hle Hn;
    unfold as_bytes in Hle.
  { simpl. destruct start as [a b], end_ as [c d]. simpl in *. unfold CHUNK_SIZE in *. lia. }
  cbn [split_collect]. unfold split_next. cbn [mbind option_bind].
  destruct (Z.ltb_spec (chunk_id end_) (chunk_id start)); [unfold CHUNK_SIZE in *; lia|]. simpl.
  case_bool_decide as Heq; [by subst|].
  destruct (Z.eqb_spec (chunk_id start) (chunk_id end_)) as [E|E].
  - assert (chunk_offset start < chunk_offset end_).
    { rewrite E in Hle. destruct (decide (chunk_offset start = chunk_offset end_)) as [E'|];
        [|lia]. destruct start, end_; simpl in *; congruence. }
    assert (split_collect n (id ← u32_add (chunk_id start) 1;
      Some {| chunk_id := id; chunk_offset := 0 |}) end_ = []) as ->.
    { destruct n; [done|]. simpl. unfold u32_add. zbool; [|done]. simpl.
      rewrite (proj2 (Z.ltb_lt _ _)) by lia. done. }
    split.
    + simpl. unfold as_bytes. simpl. rewrite E. done.
    + constructor; [|done]. unfold in_one_chunk. simpl. lia.
  - rewrite u32_add_Some by lia. cbn [mbind option_bind].
    destruct (IH {| chunk_id := chunk_id start + 1; chunk_offset := 0 |}) as [Hc Hf].
    { unfold offset_ok, CHUNK_SIZE. simpl. lia. }
    { done. }
    { unfold as_bytes, CHUNK_SIZE in *. simpl. lia. }
    { simpl. lia. }
    split.
    + cbn [contiguous]. split; [done|]. cbn [cr_end].
      replace (as_bytes _) with (as_bytes {| chunk_id := chunk_id start + 1; chunk_offset := 0 |});
        [done|]. unfold as_bytes. simpl. lia.
    + constructor; [|done]. unfold in_one_chunk. simpl. lia.
Qed.

(** The number of bytes of a sequence of ranges. *)
Fixpoint total_len (rs : list ChunkRange) : option Z :=
  match rs with
  | [] => Some 0
  | r :: rs => l ← single_chunk_len r; t ← total_len rs; Some (l + t)
  end.

Lemma single_chunk_len_ok r :
  in_one_chunk r → single_chunk_len r = Some (as_bytes (cr_end r) - as_bytes (cr_start r)).
Proof.
  intros (E&_&_&?&?). unfold single_chunk_len, is_single_chunk, as_bytes. rewrite E, Z.eqb_refl.
  rewrite (proj2 (Z.leb_le _ _)) by lia. f_equal. lia.
Qed.

Lemma contiguous_le rs a b : contiguous a rs b → Forall in_one_chunk rs → a ≤ b.
Proof.
  revert a. induction rs as [|r rs IH]; intros a; simpl; [lia|].
  intros [<- Hc] [Hr Hf]%Forall_cons. specialize (IH _ Hc Hf).
  destruct Hr as (E&_&_&?&_). unfold as_bytes in *. rewrite <- E in IH. lia.
Qed.

Lemma total_len_contiguous rs a b :
  contiguous a rs b → Forall in_one_chunk rs → total_len rs = Some (b - a).
Proof.
  revert a. induction rs as [|r rs IH]; intros a; simpl.
  - intros -> _. f_equal. lia.
  - intros [<- Hc] (Hr & Hf)%Forall_cons.
    rewrite single_chunk_len_ok, (IH _ Hc Hf) by done. simpl. f_equal. lia.
Qed.

Lemma split_bytes offset len :
  0 ≤ offset → 0 ≤ len → offset + len < MAX_BYTES →
  contiguous offset (split_at_chunk_bounds (from_byte_bounds offset len)) (offset + len) ∧
  Forall in_one_chunk (split_at_chunk_bounds (from_byte_bounds offset len)).
Proof.
  intros Ho Hl Hm. rewrite from_byte_bounds_at by done. unfold split_at_chunk_bounds.
  cbn [cr_start cr_end].
  assert (offset / CHUNK_SIZE ≤ (offset + len) / CHUNK_SIZE) by (apply Z.div_le_mono; [done|lia]).
  set (n := Z.to_nat _).
  pose proof (split_collect_ok n (chunk_at offset) (chunk_at (offset + len))) as Hs.
  rewrite !as_bytes_chunk_at in Hs. apply Hs; [apply chunk_at_ok; lia..|lia|subst n; simpl; lia].
Qed.

(** The chunk ranges of a byte range cover it: they follow one another
    without a gap from its first byte to its end, each lies within one chunk
    and is not empty, and their lengths add up to the length of the range.
    The bound is the number of bytes for which chunk identifiers of 32 bits
    suffice. *)
Theorem chunks_partition_range offset len :
  0 ≤ offset → 0 ≤ len → offset + len < MAX_BYTES →
  let rs := split_at_chunk_bounds (from_byte_bounds offset len) in
  contiguous offset rs (offset + len) ∧ Forall in_one_chunk rs ∧ total_len rs = Some len.
Proof.
  intros Ho Hl Hm rs. destruct (split_bytes offset len Ho Hl Hm) as [Hc Hf]. split_and!; try done.
  unfold rs. rewrite (total_len_contiguous _ _ _ Hc Hf). f_equal. lia.
Qed.

Lemma chunks_partition_range_witness :
  total_len (split_at_chunk_bounds (from_byte_bounds 1 (21 * CHUNK_SIZE))) = Some (21 * CHUNK_SIZE) ∧
  length (split_at_chunk_bounds (from_byte_bounds 1 (21 * CHUNK_SIZE))) = 22%nat.
Proof.
  destruct (chunks_partition_range 1 (21 * CHUNK_SIZE)) as (_ & _ & E);
    [unfold MAX_BYTES, CHUNK_SIZE, U32_SIZE; lia..|].
  split; [exact E|by vm_compute].
Defined.

(** Behind the last chunk the identifiers start over: the range of an object
    of more than 512 TiB begins in chunk 0 again. *)
Lemma chunk_ids_wrap : cr_start (from_byte_bounds MAX_BYTES 1) = chunk_at 0.
Proof. by vm_compute. Qed.
