(* ===== verification/Object.v ===== *)
(** * The object store

    [object/mod.rs] and [object/cursor.rs], over the contents of the two data
    sets of an object store: the data (chunks by object identifier and chunk
    number, and the counter of identifiers) and the meta data (records by
    object name, custom entries behind a zero byte).

    Operations return [None] for a panic; otherwise a result or an error,
    with the store as they leave it.  The time is an argument; the reports to
    the migration thread do not touch the store and are left out. *)

From Stdlib Require Import ZArith Lia.
From stdpp Require Import base option list numbers gmap fin_maps.
From S2P Require Import Prelude.
From S2P Require Import Bytes.
From S2P Require Import BTreeMap.
From S2P Require Import StoragePref.
From S2P Require Import Message.
From S2P Require Import Tree.
From S2P Require Import Range.
From S2P Require Import Disk.
From S2P Require Import Dataset.
From S2P Require Import Meta.
From S2P Require Import Chunk.

(** ** Keys of chunks *)

Definition OBJECT_ID_COUNTER_KEY : bytes := [zero; to_u8 111; to_u8 105; to_u8 100].

Definition object_chunk_key (object_id chunk_id : Z) : bytes := be64 object_id ++ be32 chunk_id.

#[global] Arguments object_chunk_key : simpl never.

(** [decode_object_chunk_key]; the conversion to an array of 12 bytes in
    front of it panics for any other length. *)
Definition decode_object_chunk_key (key : bytes) : option (Z * Z) :=
  assert! blen key =? 12;
  id ← cut key 0 8; chunk ← cut key 8 4;
  Some (of_be id, of_be chunk).

(** ** The store *)

Record ObjectStore := {
  os_data : contents;
  os_metadata : contents;
  object_id_counter : Z;
  default_storage_preference : StoragePreference;
}.

Definition set_os_data (s : ObjectStore) (d : contents) : ObjectStore :=
  {| os_data := d; os_metadata := os_metadata s; object_id_counter := object_id_counter s;
     default_storage_preference := default_storage_preference s |}.

Definition set_os_metadata (s : ObjectStore) (d : contents) : ObjectStore :=
  {| os_data := os_data s; os_metadata := d; object_id_counter := object_id_counter s;
     default_storage_preference := default_storage_preference s |}.

Definition set_counter (s : ObjectStore) (c : Z) : ObjectStore :=
  {| os_data := os_data s; os_metadata := os_metadata s; object_id_counter := c;
     default_storage_preference := default_storage_preference s |}.

Record Object := {
  obj_key : bytes;
  obj_id : Z;
  obj_storage_preference : StoragePreference;
}.

(** [with_datasets]: the counter starts behind the last identifier that was
    stored. *)
Definition with_datasets (data metadata : contents) (pref : StoragePreference) :
    option ObjectStore :=
  counter ←
    match layer_get data OBJECT_ID_COUNTER_KEY with
    | Some b => if blen b =? 8 then u64_add (of_le b) 1 else Some 0
    | None => Some 0
    end;
  Some {| os_data := data; os_metadata := metadata; object_id_counter := counter;
          default_storage_preference := pref |}.

(** ** Keys of meta data *)

(** [metadata_end] *)
Definition metadata_end (o : Object) : bytes := obj_key o ++ [to_u8 1].

(** [metadata_bounds] *)
Definition metadata_bounds (o : Object) : bytes * bytes :=
  (obj_key o ++ [zero], obj_key o ++ [to_u8 1]).

(** [metadata_key], with [metadata_prefix_into] *)
Definition metadata_key (o : Object) (name : bytes) : bytes := (obj_key o ++ [zero]) ++ name.

Definition contains_zero (b : bytes) : bool := bool_decide (zero ∈ b).

Section store.
Context `{Speedy}.
Implicit Types (s : ObjectStore) (o : Object).

(** Insertion of a message into the meta data. *)
Definition meta_insert_msg s (key msg : bytes) : option (ObjectStore + DbError) :=
  r ← ds_insert_msg (H := MetaMessageAction) (os_metadata s) key msg;
  Some (match r with inl d => inl (set_os_metadata s d) | inr e => inr e end).

Definition update_object_info s (key : bytes) (info : MetaMessage) :
    option (ObjectStore + DbError) :=
  msg ← meta_pack info; meta_insert_msg s key msg.

Definition read_object_info s (key : bytes) : option (option ObjectInfo) :=
  match layer_get (os_metadata s) key with
  | Some meta => i ← read_info meta; Some (Some i)
  | None => Some None
  end.

(** ** Objects *)

(** The loop that looks for an unused identifier; the counter wraps around. *)
Fixpoint find_oid (fuel : nat) (data : contents) (counter : Z) : option (Z * Z) :=
  match fuel with
  | O => None
  | S fuel =>
      let oid := counter in
      let counter := wrap64 (counter + 1) in
      match layer_get data (object_chunk_key oid 0) with
      | Some _ => find_oid fuel data counter
      | None => Some (oid, counter)
      end
  end.

(** [init_object_with_pref_and_access_type] *)
Definition init_object s (key : bytes) (storage_preference : StoragePreference)
    (access_type : PreferredAccessType) (now : Z) :
    option (((Object * ObjectInfo) + DbError) * ObjectStore) :=
  if contains_zero key then Some (inr KeyContainsNullByte, s)
  else
    '(oid, counter) ← find_oid (S (size (os_data s))) (os_data s) (object_id_counter s);
    let s := set_counter s counter in
    let info := {| oi_object_id := oid; oi_size := 0; oi_mtime := now;
                   oi_pref := storage_preference; oi_access_pattern := access_type |} in
    r ← update_object_info s key (set_info info);
    match r with
    | inr e => Some (inr e, s)
    | inl s =>
        r ← ds_insert (os_data s) OBJECT_ID_COUNTER_KEY (le64 oid);
        match r with
        | inr e => Some (inr e, s)
        | inl d =>
            Some (inl ({| obj_key := key; obj_id := oid;
                          obj_storage_preference := storage_preference |}, info),
                  set_os_data s d)
        end
    end.

(** [create_object_with_pref] *)
Definition create_object_with_pref s key pref now := init_object s key pref AccessUnknown now.

(** [create_object_with_access_type]; the pool gives the preference. *)
Definition create_object_with_access_type
    (access_type_preference : PreferredAccessType → StoragePreference) s key access_type now :=
  init_object s key (access_type_preference access_type) access_type now.

(** [open_object_with_pref] *)
Definition open_object_with_pref s (key : bytes) (pref : StoragePreference) :
    option (option (Object * ObjectInfo) + DbError) :=
  if contains_zero key then Some (inr KeyContainsNullByte)
  else
    info ← read_object_info s key;
    match info with
    | None => Some (inl None)
    | Some info =>
        Some (inl (Some ({| obj_key := key; obj_id := oi_object_id info;
                            obj_storage_preference := pref |}, info)))
    end.

(** [open_or_create_object_with_pref] *)
Definition open_or_create_object_with_pref s key pref now :
    option (((Object * ObjectInfo) + DbError) * ObjectStore) :=
  r ← open_object_with_pref s key pref;
  match r with
  | inr e => Some (inr e, s)
  | inl (Some obj) => Some (inl obj, s)
  | inl None => create_object_with_pref s key pref now
  end.

(** The loop of [delete_object] over the custom entries; errors are ignored. *)
Fixpoint delete_custom_entries s (ks : list bytes) : option ObjectStore :=
  match ks with
  | [] => Some s
  | k :: ks =>
      r ← meta_insert_msg s k delete_custom;
      delete_custom_entries (match r with inl s' => s' | inr _ => s end) ks
  end.

(** [delete_object] *)
Definition delete_object s o : option ((unit + DbError) * ObjectStore) :=
  r ← update_object_info s (obj_key o) meta_delete;
  match r with
  | inr e => Some (inr e, s)
  | inl s =>
      let '(start, end_) := metadata_bounds o in
      match ds_range (os_metadata s) (mkRange (Included start) (Excluded end_)) with
      | inr e => Some (inr e, s)
      | inl es =>
          s ← delete_custom_entries s es.*1;
          '(r, d) ← ds_range_delete (os_data s)
            (mkRange (Included (object_chunk_key (obj_id o) 0))
                     (Excluded (object_chunk_key (obj_id o) (U32_SIZE - 1))));
          Some (r, set_os_data s d)
      end
  end.

(** A handle and the record for an entry of the meta data. *)
Definition listed (e : bytes * bytes) : option (Object * ObjectInfo) :=
  info ← read_info e.2;
  Some ({| obj_key := e.1; obj_id := oi_object_id info;
           obj_storage_preference := Pref.NONE |}, info).

(** [list_objects], all items of the iterator. *)
Definition list_objects s (r : RangeBounds) : option (list (Object * ObjectInfo) + DbError) :=
  match ds_range (os_metadata s) r with
  | inr e => Some (inr e)
  | inl es => os ← mapM listed (bt_filter is_fixed_key es); Some (inl os)
  end.

(** [iter_objects], all items of the iterator. *)
Definition iter_objects s : option (list (bytes * ObjectInfo) + DbError) :=
  match ds_range (os_metadata s) (mkRange (Included [zero]) (Included [to_u8 255])) with
  | inr e => Some (inr e)
  | inl es => os ← mapM (λ e, info ← read_info e.2; Some (e.1, info)) es; Some (inl os)
  end.

(** ** Custom meta data *)

Definition get_metadata s o (name : bytes) : option bytes + DbError :=
  if contains_zero name then inr KeyContainsNullByte
  else inl (layer_get (os_metadata s) (metadata_key o name)).

Definition set_metadata s o (name value : bytes) : option (ObjectStore + DbError) :=
  if contains_zero name then Some (inr KeyContainsNullByte)
  else meta_insert_msg s (metadata_key o name) (set_custom value).

Definition delete_metadata s o (name : bytes) : option (ObjectStore + DbError) :=
  if contains_zero name then Some (inr KeyContainsNullByte)
  else meta_insert_msg s (metadata_key o name) delete_custom.

(** [iter_metadata], all items: the names without the prefix. *)
Definition iter_metadata s o : option (list (bytes * bytes) + DbError) :=
  let '(start, end_) := metadata_bounds o in
  let prefix_len := blen start in
  match ds_range (os_metadata s) (mkRange (Included start) (Excluded end_)) with
  | inr e => Some (inr e)
  | inl es =>
      es ← mapM (λ e, k ← cut e.1 prefix_len (blen e.1 - prefix_len); Some (k, e.2)) es;
      Some (inl es)
  end.

(** ** Reading *)

(** [info] *)
Definition info s o : option (option ObjectInfo) := read_object_info s (obj_key o).

(** An item of [read_chunk_range]: the byte range of a chunk, and its value. *)
Definition chunk_item (e : bytes * bytes) : option (Z * Z * bytes) :=
  '(_, chunk) ← decode_object_chunk_key e.1;
  let byte_offset := as_bytes {| chunk_id := chunk; chunk_offset := 0 |} in
  Some (byte_offset, byte_offset + blen e.2, e.2).

(** [read_chunk_range], all items *)
Definition read_chunk_range s o (start end_ : Z) : option (list (Z * Z * bytes) + DbError) :=
  match ds_range (os_data s) (mkRange (Included (object_chunk_key (obj_id o) start))
                                      (Included (object_chunk_key (obj_id o) end_))) with
  | inr e => Some (inr e)
  | inl es => cs ← mapM chunk_item es; Some (inl cs)
  end.

(** [read_all_chunks] *)
Definition read_all_chunks s o := read_chunk_range s o 0 CHUNK_MAX.

(** [buf[..n].fill(0)] or a copy of [new], followed by taking the rest of the
    buffer; panics when the buffer is too short. *)
Definition advance (done rest new : bytes) : option (bytes * bytes) :=
  assert! blen new <=? blen rest; Some (done ++ new, drop (length new) rest).

Definition zeros (n : Z) : bytes := replicate (Z.to_nat n) zero.

(** The state of the loop of [read_at]: the part of the buffer that [buf] has
    left behind, [buf], [total_read], [last_offset]. *)
Record ReadState := { rs_done : bytes; rs_buf : bytes; total_read : Z; last_offset : Z }.

(** One round of the loop of [read_at]. *)
Definition read_step (offset to_be_read : Z) (st : ReadState) (chunk : Z * Z * bytes) :
    option ReadState :=
  let '(c_start, c_end, c_data) := chunk in
  let chunk_start := Z.max c_start offset in
  let gap := Z.min (Z.max 0 (chunk_start - last_offset st)) to_be_read in
  '(done, buf) ← advance (rs_done st) (rs_buf st) (zeros gap);
  let total := total_read st + gap in
  range_end ← u64_add offset to_be_read;
  let chunk_end := Z.min c_end range_end in
  let want_len := Z.max 0 (chunk_end - chunk_start) in
  let first := chunk_start - c_start in
  let new :=
    if first <=? blen c_data then
      let data := drop (Z.to_nat first) c_data in
      let have_len := Z.min want_len (blen data) in
      take (Z.to_nat have_len) data ++ zeros (want_len - have_len)
    else zeros want_len in
  '(done, buf) ← advance done buf new;
  Some {| rs_done := done; rs_buf := buf; total_read := total + want_len; last_offset := c_end |}.

Fixpoint read_loop (offset to_be_read : Z) (st : ReadState) (chunks : list (Z * Z * bytes)) :
    option ReadState :=
  match chunks with
  | [] => Some st
  | c :: chunks => st ← read_step offset to_be_read st c; read_loop offset to_be_read st chunks
  end.

(** [read_at]: the result and the buffer. *)
Definition read_at s o (buf : bytes) (offset : Z) : option ((Z + (Z * DbError)) * bytes) :=
  inf ← info s o;
  let obj_size := match inf with Some i => oi_size i | None => 0 end in
  let remaining_data := Z.max 0 (obj_size - offset) in
  let to_be_read := Z.min (blen buf) remaining_data in
  let chunk_range := from_byte_bounds offset to_be_read in
  chunks ← read_chunk_range s o (chunk_id (cr_start chunk_range)) (chunk_id (cr_end chunk_range));
  match chunks with
  | inr e => Some (inr (0, e), buf)
  | inl chunks =>
      st ← read_loop offset to_be_read
        {| rs_done := []; rs_buf := buf; total_read := 0; last_offset := offset |} chunks;
      if negb (total_read st =? blen (rs_buf st)) then
        Some (inl to_be_read, rs_done st ++ zeros (blen (rs_buf st)))
      else Some (inl (total_read st), rs_done st ++ rs_buf st)
  end.

(** ** Writing *)

(** The message that [write_at_with_pref] sends for the record. *)
Definition change (size mtime : option Z) (pref : option StoragePreference) : MetaMessage :=
  meta_new None size mtime pref None.

(** The loop of [write_at_with_pref] over the chunks: the data set, the bytes
    written, the new size, and the error that ended it. *)
Fixpoint write_loop (d : contents) (id : Z) (buf : bytes) (total_written : Z) (size : option Z)
    (chunks : list ChunkRange) : option (contents * Z * option Z * option DbError) :=
  match chunks with
  | [] => Some (d, total_written, size, None)
  | chunk :: chunks =>
      len ← single_chunk_len chunk;
      part ← cut buf 0 len;
      r ← ds_upsert d (object_chunk_key id (chunk_id (cr_start chunk))) part
            (chunk_offset (cr_start chunk));
      match r with
      | inr e => Some (d, total_written, size, Some e)
      | inl d =>
          write_loop d id (drop (Z.to_nat len) buf) (total_written + len)
            (Some (as_bytes (cr_end chunk))) chunks
      end
  end.

(** [write_at_with_pref] *)
Definition write_at_with_pref s o (buf : bytes) (offset : Z) (pref : StoragePreference) (now : Z) :
    option ((Z + (Z * DbError)) * ObjectStore) :=
  let chunk_range := from_byte_bounds offset (blen buf) in
  '(d, total_written, size, err) ←
    write_loop (os_data s) (obj_id o) buf 0 None (split_at_chunk_bounds chunk_range);
  let s := set_os_data s d in
  match err with
  | Some e =>
      r ← update_object_info s (obj_key o) (change size (Some now) None);
      Some (inr (total_written, e), match r with inl s' => s' | inr _ => s end)
  | None =>
      r ← update_object_info s (obj_key o) (change size (Some now) (Some pref));
      match r with
      | inl s' => Some (inl total_written, s')
      | inr e => Some (inr (total_written, e), s)
      end
  end.

(** [write_at] *)
Definition write_at s o buf offset now :=
  write_at_with_pref s o buf offset (obj_storage_preference o) now.

(** ** Migration

    The number of disks of a class comes from the pool, the free blocks of a
    class from the handler.  Moving a key changes where its leaf is written,
    not the contents. *)

Section migration.
Variable disk_count : Z → Z.
Variable free_space_tier : StoragePreference → option Z.

(** [Dataset::migrate] and the loop of [Dataset::migrate_range] *)
Definition ds_migrate (pref : StoragePreference) : unit + DbError :=
  if disk_count (Pref.as_u8 pref) =? 0 then inr MigrationNotPossible else inl tt.

Fixpoint migrate_keys (ks : list bytes) (pref : StoragePreference) : unit + DbError :=
  match ks with
  | [] => inl tt
  | _ :: ks => match ds_migrate pref with inl _ => migrate_keys ks pref | inr e => inr e end
  end.

Definition ds_migrate_range (d : contents) (r : RangeBounds) (pref : StoragePreference) :
    unit + DbError :=
  match ds_range d r with
  | inr e => inr e
  | inl es => migrate_keys es.*1 pref
  end.

(** [ObjectHandle::migrate_range] *)
Definition obj_migrate_range s o (length offset : Z) (pref : StoragePreference) :
    option (ObjectStore + DbError) :=
  let chunk_range := from_byte_bounds offset length in
  match ds_migrate_range (os_data s)
    (mkRange (Included (object_chunk_key (obj_id o) (chunk_id (cr_start chunk_range))))
             (Excluded (object_chunk_key (obj_id o) (chunk_id (cr_end chunk_range))))) pref with
  | inr e => Some (inr e)
  | inl _ => update_object_info s (obj_key o) (change None None (Some pref))
  end.

Definition migrate_once s o (pref : StoragePreference) : option (ObjectStore + DbError) :=
  inf ← info s o;
  let refused :=
    match inf with
    | Some i =>
        let blocks := Block.round_up_from_bytes (oi_size i) in
        match free_space_tier pref with
        | None => Some DoesNotExist
        | Some free =>
            if free <? blocks then Some (MigrationWouldExceedStorage (Pref.as_u8 pref) blocks)
            else None
        end
    | None => None
    end in
  match refused with
  | Some e => Some (inr e)
  | None => obj_migrate_range s o (U64_SIZE - 1) 0 pref
  end.

(** [migrate]: the handle and the store. *)
Definition migrate s o (pref : StoragePreference) : option ((Object * ObjectStore) + DbError) :=
  r ← migrate_once s o pref;
  match r with
  | inr e => Some (inr e)
  | inl s =>
      Some (inl ({| obj_key := obj_key o; obj_id := obj_id o; obj_storage_preference := pref |}, s))
  end.

(** [migrate_up], [migrate_down] and the variants that leave the handle. *)
Definition migrate_up s o : option ((Object * ObjectStore) + DbError) :=
  match Pref.lift (obj_storage_preference o) with
  | Some pref => migrate s o pref
  | None => Some (inr MigrationNotPossible)
  end.

Definition migrate_up_once s o : option (ObjectStore + DbError) :=
  match Pref.lift (obj_storage_preference o) with
  | Some pref => migrate_once s o pref
  | None => Some (inr MigrationNotPossible)
  end.

Definition migrate_down s o : option ((Object * ObjectStore) + DbError) :=
  match Pref.lower (obj_storage_preference o) with
  | Some pref => migrate s o pref
  | None => Some (inr MigrationNotPossible)
  end.

Definition migrate_down_once s o : option (ObjectStore + DbError) :=
  match Pref.lower (obj_storage_preference o) with
  | Some pref => migrate_once s o pref
  | None => Some (inr MigrationNotPossible)
  end.

End migration.
(** ** Cursors *)

Record ObjectCursor := {
  cur_handle : Object;
  pos : Z;
  cur_pref : StoragePreference;
}.

Definition cursor_with_pref o (pref : StoragePreference) : ObjectCursor :=
  {| cur_handle := o; pos := 0; cur_pref := pref |}.

Definition cursor o : ObjectCursor := cursor_with_pref o Pref.NONE.

Definition set_storage_preference (c : ObjectCursor) (pref : StoragePreference) : ObjectCursor :=
  {| cur_handle := cur_handle c; pos := pos c; cur_pref := pref |}.

Definition set_pos (c : ObjectCursor) (p : Z) : ObjectCursor :=
  {| cur_handle := cur_handle c; pos := p; cur_pref := cur_pref c |}.

(** [io::ErrorKind], as far as it occurs. *)
Inductive IoError := IoOther | IoInvalidInput | IoNotFound.

(** [convert_res], with [convert_err] *)
Definition convert_res (res : Z + (Z * DbError)) : Z + IoError :=
  match res with inl n => inl n | inr _ => inr IoOther end.

(** [if let Ok(n) | Err((n, _)) = res] *)
Definition moved (res : Z + (Z * DbError)) : Z :=
  match res with inl n | inr (n, _) => n end.

Definition cursor_read s (c : ObjectCursor) (buf : bytes) :
    option ((Z + IoError) * bytes * ObjectCursor) :=
  '(res, buf) ← read_at s (cur_handle c) buf (pos c);
  p ← u64_add (pos c) (moved res);
  Some (convert_res res, buf, set_pos c p).

Definition cursor_write s (c : ObjectCursor) (buf : bytes) (now : Z) :
    option ((Z + IoError) * ObjectStore * ObjectCursor) :=
  '(res, s) ← write_at_with_pref s (cur_handle c) buf (pos c) (cur_pref c) now;
  p ← u64_add (pos c) (moved res);
  Some (convert_res res, s, set_pos c p).

Inductive SeekFrom := SeekStart (new_pos : Z) | SeekEnd (delta : Z) | SeekCurrent (delta : Z).

(** [delta.wrapping_neg() as u64] of a negative [i64] is its absolute value. *)
Definition add_u64_i64 (base delta : Z) : option Z :=
  if 0 <=? delta then u64_add base delta else usub base (wrap64 (- delta)).

Definition seek s (c : ObjectCursor) (target : SeekFrom) :
    option ((Z + IoError) * ObjectCursor) :=
  match target with
  | SeekStart new_pos => Some (inl new_pos, set_pos c new_pos)
  | SeekEnd delta =>
      inf ← info s (cur_handle c);
      match inf with
      | Some i =>
          match add_u64_i64 (oi_size i) delta with
          | Some new_pos => Some (inl new_pos, set_pos c new_pos)
          | None => Some (inr IoInvalidInput, c)
          end
      | None => Some (inr IoNotFound, c)
      end
  | SeekCurrent delta =>
      match add_u64_i64 (pos c) delta with
      | Some new_pos => Some (inl new_pos, set_pos c new_pos)
      | None => Some (inr IoInvalidInput, c)
      end
  end.

End store.
