(* ===== verification/ObjectCorrect.v ===== *)
(** * Correctness of the object store

    The bytes of an object ([obj_byte]) are what its chunks hold, zero where
    there is no chunk or the chunk is too short.  Shown here: the shape of the
    data tree ([data_ok]) that all operations keep; what a write does to the
    bytes; that a read returns them, unless it starts behind the end of a
    chunk that was only written in part; creation, opening and deletion. *)

From Stdlib Require Import ZArith Lia Sorted.
From stdpp Require Import base option list numbers gmap fin_maps.
From S2P Require Import Prelude.
From S2P Require Import Bytes.
From S2P Require Import BTreeMap.
From S2P Require Import StoragePref.
From S2P Require Import Message.
From S2P Require Import Tree.
From S2P Require Import Range.
From S2P Require Import Dataset.
From S2P Require Import Meta.
From S2P Require Import Chunk.
From S2P Require Import Object.

(** ** Keys *)

Definition u64_ok (x : Z) : Prop := 0 ≤ x < U64_SIZE.
Definition u32_ok (x : Z) : Prop := 0 ≤ x < U32_SIZE.

Lemma length_chunk_key id c : length (object_chunk_key id c) = 12%nat.
Proof. unfold object_chunk_key. by rewrite length_app, length_be64, length_be32. Qed.

Lemma decode_chunk_key id c :
  u64_ok id → u32_ok c → decode_object_chunk_key (object_chunk_key id c) = Some (id, c).
Proof.
  intros Hi Hc. unfold decode_object_chunk_key.
  assert (blen (object_chunk_key id c) = 12) as -> by (unfold blen; by rewrite length_chunk_key).
  unfold object_chunk_key.
  rewrite (cut_at _ [] (be64 id) (be32 c) 0 8) by (unfold blen; rewrite ?length_be64; done).
  rewrite (cut_at _ (be64 id) (be32 c) [] 8 4)
    by (rewrite ?app_nil_r; unfold blen; rewrite ?length_be64, ?length_be32; done).
  simpl. by rewrite of_be_be64, of_be_be32.
Qed.

Lemma chunk_key_inj id c id' c' :
  u64_ok id → u32_ok c → u64_ok id' → u32_ok c' →
  object_chunk_key id c = object_chunk_key id' c' → id = id' ∧ c = c'.
Proof.
  intros ???? E. apply (f_equal decode_object_chunk_key) in E.
  rewrite !decode_chunk_key in E by done. by simplify_eq.
Qed.

Lemma chunk_key_cmp id c id' c' :
  u64_ok id → u32_ok c → u64_ok id' → u32_ok c' →
  bytes_cmp (object_chunk_key id c) (object_chunk_key id' c') =
    match id ?= id' with Eq => c ?= c' | x => x end.
Proof.
  intros. unfold object_chunk_key. rewrite bytes_cmp_app by (by rewrite !length_be64).
  rewrite bytes_cmp_be64 by done. unfold be32. by rewrite (bytes_cmp_be 4 c c').
Qed.

Lemma chunk_key_lt id c c' :
  u64_ok id → u32_ok c → u32_ok c' →
  object_chunk_key id c <ᵇ object_chunk_key id c' ↔ c < c'.
Proof. intros. unfold blt. by rewrite chunk_key_cmp, Z.compare_refl, Z.compare_lt_iff. Qed.

Lemma chunk_key_le id c c' :
  u64_ok id → u32_ok c → u32_ok c' →
  object_chunk_key id c ≤ᵇ object_chunk_key id c' ↔ c ≤ c'.
Proof.
  intros. unfold ble. rewrite chunk_key_lt by done. split; [|intros Hle].
  - intros [?|E]; [lia|]. apply chunk_key_inj in E as [_ ->]; done.
  - destruct (decide (c = c')) as [->|]; [by right|left; lia].
Qed.

(** What lies between two keys with a common prefix has the prefix. *)
Lemma between_prefix p x y k : p ++ x ≤ᵇ k → k ≤ᵇ p ++ y → ∃ z, k = p ++ z.
Proof.
  revert k. induction p as [|u p IH]; intros k Hx Hy; [by exists k|].
  destruct k as [|w k].
  { exfalso. destruct Hx as [Hx|Hx]; done. }
  unfold ble, blt in *. simpl in *.
  assert (u8 u = u8 w) as E.
  { destruct Hx as [Hx|Hx]; [|by simplify_eq]. destruct Hy as [Hy|Hy]; [|by simplify_eq].
    destruct (Z.compare_spec (u8 u) (u8 w)); [done| |done].
    destruct (Z.compare_spec (u8 w) (u8 u)); try done; lia. }
  rewrite E, Z.compare_refl in Hx, Hy.
  apply (f_equal to_u8) in E. rewrite !to_u8_u8 in E. subst w.
  destruct (IH k) as [z ->]; [naive_solver..|]. by exists z.
Qed.

(** ** The data tree *)

(** What may be stored in the data tree: the counter, and chunks. *)
Definition entry_ok (k v : bytes) : Prop :=
  k = OBJECT_ID_COUNTER_KEY ∨
  ∃ id c, u64_ok id ∧ u32_ok c ∧ k = object_chunk_key id c ∧ blen v ≤ CHUNK_SIZE.

Definition data_ok (d : contents) : Prop := map_Forall entry_ok d.

(** The byte at [x] of object [id], if it is stored. *)
Definition obj_at (d : contents) (id x : Z) : option byte :=
  default [] (d !! object_chunk_key id (x / CHUNK_SIZE)) !! Z.to_nat (x mod CHUNK_SIZE).

Definition obj_byte (d : contents) (id x : Z) : byte := default zero (obj_at d id x).

Lemma counter_not_chunk id c : OBJECT_ID_COUNTER_KEY ≠ object_chunk_key id c.
Proof. intros E. apply (f_equal length) in E. by rewrite length_chunk_key in E. Qed.

Lemma entry_between d id x y k v :
  data_ok d → u64_ok id → d !! k = Some v → be64 id ++ x ≤ᵇ k → k ≤ᵇ be64 id ++ y →
  ∃ c, u32_ok c ∧ k = object_chunk_key id c ∧ blen v ≤ CHUNK_SIZE.
Proof.
  intros Hd Hi Hk Hx Hy. destruct (between_prefix _ _ _ _ Hx Hy) as [z ->].
  destruct (Hd _ _ Hk) as [E|(id'&c&Hi'&Hc&E&Hv)].
  - apply (f_equal length) in E. rewrite length_app, length_be64 in E. simpl in E. lia.
  - exists c. split_and!; try done. rewrite E. unfold object_chunk_key in *.
    apply (f_equal (take 8)) in E.
    rewrite !take_app_length' in E by (by rewrite length_be64).
    apply (f_equal of_be) in E. rewrite !of_be_be64 in E by done. by subst.
Qed.

(** ** The chunks of a range *)

Definition chunk_entry (id : Z) (cv : Z * bytes) : bytes * bytes :=
  (object_chunk_key id cv.1, cv.2).

Lemma chunk_list id es :
  u64_ok id → bt_sorted es → Forall (λ e, ∃ c, u32_ok c ∧ e.1 = object_chunk_key id c) es →
  ∃ cvs, es = chunk_entry id <$> cvs ∧ Forall (λ cv, u32_ok cv.1) cvs ∧
    StronglySorted (λ a b, a.1 < b.1) cvs.
Proof.
  intros Hi. induction es as [|[k v] es IH]; intros Hs Hf.
  { exists []. repeat constructor. }
  apply bt_sorted_cons in Hs as [Hs Hlt]. apply Forall_cons in Hf as [(c & Hc & Hk) Hf]. simpl in Hk. subst k.
  destruct (IH Hs Hf) as (cvs & -> & Hok & Hss). exists ((c, v) :: cvs). split_and!; [done|by constructor|].
  constructor; [done|]. apply Forall_forall. intros [c' v'] Hin. simpl.
  rewrite Forall_forall in Hlt. rewrite Forall_forall in Hok. specialize (Hok _ Hin).
  apply (chunk_key_lt id); [done..|].
  exact (Hlt _ (list_elem_of_fmap_2 (chunk_entry id) _ _ Hin)).
Qed.

Lemma chunk_entries d id c0 c1 :
  data_ok d → u64_ok id → u32_ok c0 → u32_ok c1 → c0 ≤ c1 →
  ∃ cvs, layer_range d (mkRange (Included (object_chunk_key id c0))
                                (Included (object_chunk_key id c1))) =
           inl (chunk_entry id <$> cvs) ∧
    Forall (λ cv, u32_ok cv.1 ∧ blen cv.2 ≤ CHUNK_SIZE) cvs ∧
    StronglySorted (λ a b, a.1 < b.1) cvs ∧
    ∀ c v, (c, v) ∈ cvs ↔ c0 ≤ c ≤ c1 ∧ d !! object_chunk_key id c = Some v.
Proof.
  intros Hd Hi H0 H1 Hle. set (r := mkRange _ _).
  destruct (layer_range d r) as [es|e] eqn:Hes.
  2:{ unfold layer_range in Hes. subst r. unfold is_inclusive_non_empty in Hes.
      cbn [start_bound end_bound] in Hes.
      pose proof (proj2 (chunk_key_le id c0 c1 Hi H0 H1) Hle).
      generalize dependent (object_chunk_key id c0). intros k0. 
      generalize dependent (object_chunk_key id c1). intros k1.
      bbool; simpl; intros; try done; border. }
  assert (∀ k v, (k, v) ∈ es ↔ d !! k = Some v ∧ object_chunk_key id c0 ≤ᵇ k ∧
    k ≤ᵇ object_chunk_key id c1) as Hel.
  { intros k v. destruct (layer_range_elem d r es k v Hes) as [_ E]. exact E. }
  assert (bt_sorted es) as Hs by (by apply (layer_range_elem d r es [] [])).
  destruct (chunk_list id es) as (cvs & -> & Hok & Hss); [done|done| |].
  { apply Forall_forall. intros [k v] [Hk [? ?]]%Hel. simpl.
    destruct (entry_between d id (be32 c0) (be32 c1) k v) as (c&?&?&_); eauto. }
  exists cvs. rewrite Forall_forall in Hok.
  assert (∀ c v, (c, v) ∈ cvs ↔ c0 ≤ c ≤ c1 ∧ d !! object_chunk_key id c = Some v) as Hcv.
  { intros c v. split.
    - intros Hin. specialize (Hok _ Hin). simpl in Hok.
      apply (list_elem_of_fmap_2 (chunk_entry id)), Hel in Hin as (?&Ha&Hb).
      rewrite chunk_key_le in Ha, Hb by done. done.
    - intros [Hc Hv]. assert (u32_ok c) by (unfold u32_ok in *; lia).
      assert ((object_chunk_key id c, v) ∈ chunk_entry id <$> cvs) as Hin.
      { apply Hel. rewrite !chunk_key_le by done. done. }
      apply list_elem_of_fmap in Hin as ([c' v'] & E & Hin).
      assert (object_chunk_key id c = object_chunk_key id c') as E1 by exact (f_equal fst E).
      assert (v = v') as -> by exact (f_equal snd E).
      destruct (chunk_key_inj id c id c') as [_ ->]; try done. by apply (Hok (c', v')). }
  split_and!; try done. apply Forall_forall. intros [c v] Hin. specialize (Hok _ Hin). split; [done|].
  apply Hcv in Hin as [_ Hv]. destruct (Hd _ _ Hv) as [E|(?&?&_&_&_&?)]; [|done].
  by destruct (counter_not_chunk id c).
Qed.

Definition chunk_span (cv : Z * bytes) : Z * Z * bytes :=
  (cv.1 * CHUNK_SIZE, cv.1 * CHUNK_SIZE + blen cv.2, cv.2).

Lemma chunk_items id cvs :
  u64_ok id → Forall (λ cv, u32_ok cv.1 ∧ blen cv.2 ≤ CHUNK_SIZE) cvs →
  mapM chunk_item (chunk_entry id <$> cvs) = Some (chunk_span <$> cvs).
Proof.
  intros Hi. induction 1 as [|[c v] cvs [Hc _] Hf IH]; [done|].
  cbn [fmap list_fmap mapM]. rewrite IH.
  assert (chunk_item (chunk_entry id (c, v)) = Some (chunk_span (c, v))) as ->; [|done].
  unfold chunk_item, chunk_entry. cbn [fst snd]. rewrite decode_chunk_key by done. simpl.
  unfold chunk_span, as_bytes. simpl. by rewrite Z.add_0_r.
Qed.

(** ** Reading *)

Lemma advance_ok done rest new :
  blen new ≤ blen rest →
  advance done rest new = Some (done ++ new, drop (length new) rest).
Proof. intros ?. unfold advance. by rewrite (proj2 (Z.leb_le _ _)). Qed.

Lemma blen_zeros n : 0 ≤ n → blen (zeros n) = n.
Proof. intros. unfold blen, zeros. rewrite length_replicate. lia. Qed.

Lemma blen_drop n (b : bytes) : (n ≤ length b)%nat → blen (drop n b) = blen b - Z.of_nat n.
Proof. intros. unfold blen. rewrite length_drop. lia. Qed.

Lemma chunk_div c x : c * CHUNK_SIZE ≤ x < (c + 1) * CHUNK_SIZE → x / CHUNK_SIZE = c.
Proof. intros. symmetry. apply (Z.div_unique_pos _ _ _ (x - c * CHUNK_SIZE)); lia. Qed.

Lemma chunk_mod c x : c * CHUNK_SIZE ≤ x < (c + 1) * CHUNK_SIZE → x mod CHUNK_SIZE = x - c * CHUNK_SIZE.
Proof. intros. symmetry. apply (Z.mod_unique_pos _ _ c); lia. Qed.

Lemma div_bounds x : x / CHUNK_SIZE * CHUNK_SIZE ≤ x < (x / CHUNK_SIZE + 1) * CHUNK_SIZE.
Proof. pose proof (Z.div_mod x CHUNK_SIZE). pose proof (Z.mod_pos_bound x CHUNK_SIZE eq_refl).
  unfold CHUNK_SIZE in *. lia. Qed.

Section reading.
Variables (d : contents) (id offset tbr B : Z).
Hypotheses (Hoff : 0 ≤ offset) (Htbr : 0 ≤ tbr ≤ B) (Hmax : offset + tbr < MAX_BYTES).

(** The buffer so far holds the bytes of the object, the chunks still to come
    begin behind it, and what is stored behind it is in these chunks. *)
Record read_inv (st : ReadState) (cvs : list (Z * bytes)) : Prop := {
  ri_total : 0 ≤ total_read st ≤ tbr;
  ri_done : blen (rs_done st) = total_read st;
  ri_buf : total_read st + blen (rs_buf st) = B;
  ri_bytes : ∀ j, 0 ≤ j < total_read st →
    rs_done st !! Z.to_nat j = Some (obj_byte d id (offset + j));
  ri_last : last_offset st = offset + total_read st ∨ cvs = [];
  ri_ahead : Forall (λ cv, offset + total_read st ≤ Z.max (cv.1 * CHUNK_SIZE) offset) cvs;
  ri_rest : ∀ x, offset + total_read st ≤ x < offset + tbr →
    (∀ v, (x / CHUNK_SIZE, v) ∉ cvs) → obj_at d id x = None;
}.

(** A chunk of the range that is stored at least up to [offset]. *)
Definition chunk_in_range (cv : Z * bytes) : Prop :=
  d !! object_chunk_key id cv.1 = Some cv.2 ∧ blen cv.2 ≤ CHUNK_SIZE ∧
  offset / CHUNK_SIZE ≤ cv.1 ≤ (offset + tbr) / CHUNK_SIZE ∧
  offset ≤ cv.1 * CHUNK_SIZE + blen cv.2.

(** What a round adds to the buffer. *)
Lemma read_step_eq st c v :
  chunk_in_range (c, v) → 0 ≤ total_read st →
  last_offset st = offset + total_read st →
  offset + total_read st ≤ Z.max (c * CHUNK_SIZE) offset →
  total_read st + blen (rs_buf st) = B →
  let chunk_start := Z.max (c * CHUNK_SIZE) offset in
  let chunk_end := Z.min (c * CHUNK_SIZE + blen v) (offset + tbr) in
  let new := zeros (chunk_start - offset - total_read st) ++
    take (Z.to_nat (chunk_end - chunk_start)) (drop (Z.to_nat (chunk_start - c * CHUNK_SIZE)) v) in
  chunk_start ≤ chunk_end ∧ blen new = chunk_end - offset - total_read st ∧
  read_step offset tbr st (chunk_span (c, v)) =
    Some {| rs_done := rs_done st ++ new; rs_buf := drop (length new) (rs_buf st);
            total_read := chunk_end - offset; last_offset := c * CHUNK_SIZE + blen v |}.
Proof.
  intros (_ & Hv & Hc & Hd) Ht Hl Ha HB cs ce new. simpl in *.
  pose proof (blen_nonneg v). pose proof (div_bounds (offset + tbr)). pose proof (div_bounds offset).
  assert (cs ≤ offset + tbr) by (unfold cs, CHUNK_SIZE in *; nia).
  assert (cs ≤ ce) by (unfold cs, ce; lia).
  assert (cs - c * CHUNK_SIZE ≤ blen v) by lia.
  set (data := drop (Z.to_nat (cs - c * CHUNK_SIZE)) v).
  assert (blen data = c * CHUNK_SIZE + blen v - cs) as Hdata.
  { unfold data. rewrite blen_drop; unfold blen in *; lia. }
  assert (blen (take (Z.to_nat (ce - cs)) data) = ce - cs) as Htake.
  { unfold blen in *. rewrite length_take_le; lia. }
  assert (blen new = ce - offset - total_read st) as Hnew.
  { unfold new. rewrite blen_app, blen_zeros by lia. fold data. rewrite Htake. lia. }
  split_and!; [done|done|].
  unfold read_step, chunk_span. cbn [fst snd]. fold cs. rewrite Hl.
  replace (Z.min (Z.max 0 (cs - (offset + total_read st))) tbr) with (cs - offset - total_read st) by lia.
  set (z := zeros (cs - offset - total_read st)) in *.
  assert (blen z = cs - offset - total_read st) as Hz by (unfold z; rewrite blen_zeros; lia).
  rewrite advance_ok by lia. cbn [mbind option_bind].
  rewrite u64_add_Some by (unfold MAX_BYTES, CHUNK_SIZE, U32_SIZE, U64_SIZE in *; lia).
  cbn [mbind option_bind]. fold ce.
  rewrite (Z.max_r 0 (ce - cs)) by lia. rewrite (proj2 (Z.leb_le _ _)) by lia. fold data.
  rewrite Z.min_l by lia. rewrite Z.sub_diag. change (zeros 0) with (@nil byte). rewrite app_nil_r.
  rewrite advance_ok by (rewrite blen_drop, Htake; unfold blen in *; lia).
  cbn [mbind option_bind]. f_equal. unfold new. fold data. f_equal; [by rewrite app_assoc| |lia].
  by rewrite drop_drop, length_app.
Qed.

Lemma obj_at_chunk c v x :
  d !! object_chunk_key id c = Some v → c * CHUNK_SIZE ≤ x < (c + 1) * CHUNK_SIZE →
  obj_at d id x = v !! Z.to_nat (x - c * CHUNK_SIZE).
Proof. intros Hv Hx. unfold obj_at. by rewrite (chunk_div c x), (chunk_mod c x), Hv by done. Qed.

(** The bytes that a round adds are those of the object. *)
Lemma new_bytes st c v cvs j :
  read_inv st ((c, v) :: cvs) → StronglySorted (λ a b, a.1 < b.1) ((c, v) :: cvs) →
  chunk_in_range (c, v) →
  let chunk_start := Z.max (c * CHUNK_SIZE) offset in
  let chunk_end := Z.min (c * CHUNK_SIZE + blen v) (offset + tbr) in
  total_read st ≤ j < chunk_end - offset → chunk_start ≤ chunk_end →
  (zeros (chunk_start - offset - total_read st) ++
    take (Z.to_nat (chunk_end - chunk_start)) (drop (Z.to_nat (chunk_start - c * CHUNK_SIZE)) v))
    !! Z.to_nat (j - total_read st) = Some (obj_byte d id (offset + j)).
Proof.
  intros Hinv Hs (Hv & Hlen & Hc & Hd) cs ce Hj Hle. simpl in *.
  pose proof (ri_total _ _ Hinv). pose proof (blen_nonneg v).
  pose proof (ri_ahead _ _ Hinv) as [Ha _]%Forall_cons. simpl in Ha.
  destruct (decide (offset + j < cs)) as [Hlt|Hge].
  - rewrite lookup_app_l by (unfold zeros; rewrite length_replicate; lia).
    unfold zeros. rewrite lookup_replicate_2 by lia. f_equal. unfold obj_byte.
    rewrite (ri_rest _ _ Hinv (offset + j)); [done|lia|]. intros v' Hin.
    assert (offset + j < c * CHUNK_SIZE) by lia.
    assert (c ≤ (offset + j) / CHUNK_SIZE) as Hcle.
    { apply StronglySorted_inv in Hs as [_ Hs]. rewrite Forall_forall in Hs.
      apply elem_of_cons in Hin as [[= -> ->]|Hin]; [lia|]. specialize (Hs _ Hin). simpl in Hs. lia. }
    pose proof (div_bounds (offset + j)). unfold CHUNK_SIZE in *. nia.
  - rewrite lookup_app_r by (unfold zeros; rewrite length_replicate; lia).
    unfold zeros. rewrite length_replicate. unfold obj_byte.
    rewrite (obj_at_chunk c v) by (try done; lia).
    rewrite lookup_take_lt by lia. rewrite lookup_drop.
    replace (Z.to_nat (cs - c * CHUNK_SIZE) + _)%nat with (Z.to_nat (offset + j - c * CHUNK_SIZE)) by lia.
    destruct (lookup_lt_is_Some_2 v (Z.to_nat (offset + j - c * CHUNK_SIZE))) as [b Hb];
      [unfold blen in *; lia|]. by rewrite Hb.
Qed.

Lemma read_step_inv st c v cvs :
  read_inv st ((c, v) :: cvs) → StronglySorted (λ a b, a.1 < b.1) ((c, v) :: cvs) →
  Forall chunk_in_range ((c, v) :: cvs) →
  ∃ st', read_step offset tbr st (chunk_span (c, v)) = Some st' ∧ read_inv st' cvs.
Proof.
  intros Hinv Hs [Hcv Hf]%Forall_cons. pose proof Hcv as (Hv & Hlen & Hc & Hd). cbn [fst snd] in Hv, Hlen, Hc, Hd.
  pose proof (ri_total _ _ Hinv) as Ht. pose proof (ri_ahead _ _ Hinv) as Hah.
  apply Forall_cons in Hah as [Ha _]. cbn [fst] in Ha. destruct (ri_last _ _ Hinv) as [Hl|]; [|done].
  destruct (read_step_eq st c v Hcv ltac:(lia) Hl Ha (ri_buf _ _ Hinv)) as (Hle & Hnew & ->).
  pose proof (new_bytes st c v cvs) as Hby. simpl in Hby.
  set (cs := Z.max (c * CHUNK_SIZE) offset) in *.
  set (ce := Z.min (c * CHUNK_SIZE + blen v) (offset + tbr)) in *.
  set (new := zeros _ ++ _) in *. eexists. split; [done|].
  pose proof (ri_done _ _ Hinv) as Hdn. pose proof (ri_buf _ _ Hinv) as Hbf.
  apply StronglySorted_inv in Hs as Hs'. destruct Hs' as [_ Hlt]. rewrite Forall_forall in Hlt.
  rewrite Forall_forall in Hf.
  assert (∀ c' v', (c', v') ∈ cvs → c < c' ≤ (offset + tbr) / CHUNK_SIZE) as Hnext.
  { intros c' v' Hin. pose proof (Hlt _ Hin). destruct (Hf _ Hin) as (_&_&?&_). simpl in *. lia. }
  pose proof (div_bounds (offset + tbr)).
  split; cbn [total_read rs_done rs_buf last_offset].
  - lia.
  - rewrite blen_app. lia.
  - rewrite blen_drop; unfold blen in *; lia.
  - intros j Hj. destruct (decide (j < total_read st)) as [Hjt|Hjt].
    + rewrite lookup_app_l by (unfold blen in *; lia). apply (ri_bytes _ _ Hinv). lia.
    + rewrite lookup_app_r by (unfold blen in *; lia).
      replace (Z.to_nat j - length (rs_done st))%nat with (Z.to_nat (j - total_read st))
        by (unfold blen in *; lia). apply Hby; try done; lia.
  - destruct cvs as [|[c' v'] cvs]; [by right|]. left.
    destruct (Hnext c' v' ltac:(left)). unfold ce, CHUNK_SIZE in *. nia.
  - apply Forall_forall. intros [c' v'] Hin. simpl. destruct (Hnext c' v' Hin).
    unfold ce, CHUNK_SIZE in *. nia.
  - intros x Hx Hno. destruct (decide (x / CHUNK_SIZE = c)) as [E|E].
    + pose proof (div_bounds x) as Hxb. rewrite E in Hxb. rewrite (obj_at_chunk c v) by done.
      apply lookup_ge_None_2. unfold blen in *. lia.
    + apply (ri_rest _ _ Hinv); [lia|]. intros v' [[= ? _]|Hin]%elem_of_cons; [done|].
      by apply (Hno v').
Qed.

Lemma read_loop_inv st cvs :
  read_inv st cvs → StronglySorted (λ a b, a.1 < b.1) cvs → Forall chunk_in_range cvs →
  ∃ st', read_loop offset tbr st (chunk_span <$> cvs) = Some st' ∧ read_inv st' [].
Proof.
  revert st. induction cvs as [|[c v] cvs IH]; intros st Hinv Hs Hf; [by exists st|].
  destruct (read_step_inv st c v cvs Hinv Hs Hf) as (st1 & E & Hinv1).
  apply StronglySorted_inv in Hs as [Hs _]. apply Forall_cons in Hf as [_ Hf].
  destruct (IH st1 Hinv1 Hs Hf) as (st2 & E2 & Hinv2). exists st2. split; [|done].
  change (chunk_span <$> (c, v) :: cvs) with (chunk_span (c, v) :: (chunk_span <$> cvs)).
  cbn [read_loop]. by rewrite E.
Qed.

End reading.

(** The chunk in which [offset] lies is missing or stored up to [offset]. *)
Definition stored_up_to (d : contents) (id offset : Z) : Prop :=
  ∀ v, d !! object_chunk_key id (offset / CHUNK_SIZE) = Some v → offset mod CHUNK_SIZE ≤ blen v.

Lemma chunks_in_range d id offset tbr cvs :
  stored_up_to d id offset → Forall (λ cv, u32_ok cv.1 ∧ blen cv.2 ≤ CHUNK_SIZE) cvs →
  (∀ c v, (c, v) ∈ cvs ↔ offset / CHUNK_SIZE ≤ c ≤ (offset + tbr) / CHUNK_SIZE ∧
    d !! object_chunk_key id c = Some v) →
  Forall (chunk_in_range d id offset tbr) cvs.
Proof.
  intros Hup Hf Hel. rewrite Forall_forall in Hf. apply Forall_forall. intros [c v] Hcv.
  pose proof (Hf _ Hcv) as [_ Hv]. cbn [snd] in Hv. apply Hel in Hcv as [Hc Hget].
  split_and!; [done|done|simpl; lia|simpl; lia|]. cbn [fst snd].
  pose proof (div_bounds offset). pose proof (Z.div_mod offset CHUNK_SIZE ltac:(done)).
  destruct (decide (c = offset / CHUNK_SIZE)) as [->|].
  - specialize (Hup _ Hget). lia.
  - pose proof (blen_nonneg v). unfold CHUNK_SIZE in *. nia.
Qed.

Lemma read_inv_start d id offset tbr buf cvs :
  0 ≤ tbr ≤ blen buf →
  (∀ c v, (c, v) ∈ cvs ↔ offset / CHUNK_SIZE ≤ c ≤ (offset + tbr) / CHUNK_SIZE ∧
    d !! object_chunk_key id c = Some v) →
  read_inv d id offset tbr (blen buf)
    {| rs_done := []; rs_buf := buf; total_read := 0; last_offset := offset |} cvs.
Proof.
  intros Ht Hel. split; simpl; try lia; try done.
  - apply Forall_forall. intros. lia.
  - intros x Hx Hno. unfold obj_at.
    destruct (d !! object_chunk_key id (x / CHUNK_SIZE)) as [v|] eqn:E; [|done].
    exfalso. apply (Hno v), Hel. split; [|done]. split; apply Z.div_le_mono; lia || done.
Qed.

Section read.
Context `{Speedy}.

Lemma read_at_spec s o buf offset i :
  data_ok (os_data s) → u64_ok (obj_id o) → 0 ≤ offset < MAX_BYTES → oi_size i < MAX_BYTES →
  info s o = Some (Some i) → stored_up_to (os_data s) (obj_id o) offset →
  let to_be_read := Z.min (blen buf) (Z.max 0 (oi_size i - offset)) in
  ∃ n buf', read_at s o buf offset = Some (inl n, buf') ∧ blen buf' = blen buf ∧
    0 ≤ n ≤ to_be_read ∧
    (∀ j, 0 ≤ j < n → buf' !! Z.to_nat j = Some (obj_byte (os_data s) (obj_id o) (offset + j))) ∧
    (n = to_be_read ∨ 2 * n = blen buf ∧
      ∀ x, offset + n ≤ x < offset + to_be_read → obj_at (os_data s) (obj_id o) x = None).
Proof.
  intros Hd Hid Hoff Hsz Hi Hup tbr. unfold read_at. rewrite Hi. cbn [mbind option_bind].
  fold tbr. pose proof (blen_nonneg buf). assert (0 ≤ tbr ≤ blen buf) as Htbr by lia.
  assert (offset + tbr < MAX_BYTES) as Hmax by lia.
  rewrite from_byte_bounds_at by lia. cbn [cr_start cr_end].
  destruct (chunk_at_ok offset) as [Hc0 _]; [lia|]. destruct (chunk_at_ok (offset + tbr)) as [Hc1 _]; [lia|].
  assert (offset / CHUNK_SIZE ≤ (offset + tbr) / CHUNK_SIZE) by (apply Z.div_le_mono; [done|lia]).
  destruct (chunk_entries (os_data s) (obj_id o) (offset / CHUNK_SIZE) ((offset + tbr) / CHUNK_SIZE))
    as (cvs & Hr & Hf & Hs & Hel); [done..|].
  unfold read_chunk_range, ds_range. cbn [chunk_id chunk_at]. rewrite Hr. cbn [from_tree].
  rewrite chunk_items by done. cbn [mbind option_bind].
  destruct (read_loop_inv (os_data s) (obj_id o) offset tbr (blen buf) Htbr Hmax
    {| rs_done := []; rs_buf := buf; total_read := 0; last_offset := offset |} cvs)
    as (st & -> & Hinv); [by apply read_inv_start|done|by apply chunks_in_range|].
  cbn [mbind option_bind]. destruct Hinv as [T1 T2 T3 T4 _ _ T7].
  pose proof (blen_nonneg (rs_buf st)).
  destruct (Z.eqb_spec (total_read st) (blen (rs_buf st))) as [E|E]; simpl;
    (eexists _, _; split; [done|]; split; [rewrite blen_app, ?blen_zeros; lia|]; split; [lia|]).
  - split.
    + intros j Hj. rewrite lookup_app_l by (unfold blen in *; lia). by apply T4.
    + right. split; [lia|]. intros x Hx. apply T7; [lia|]. intros v. apply not_elem_of_nil.
  - split; [|by left]. intros j Hj. destruct (decide (j < total_read st)).
    + rewrite lookup_app_l by (unfold blen in *; lia). apply T4. lia.
    + rewrite lookup_app_r by (unfold blen in *; lia). unfold zeros.
      rewrite lookup_replicate_2 by (unfold blen in *; lia). unfold obj_byte.
      rewrite T7; [done|lia|]. intros v. apply not_elem_of_nil.
Qed.

End read.

(** ** Writing *)

Lemma ds_upsert_chunk d id c part off :
  0 ≤ off → off + blen part ≤ CHUNK_SIZE →
  ∃ r, ds_upsert d (object_chunk_key id c) part off =
         Some (inl (set_contents d (object_chunk_key id c) (Some r))) ∧
    ∀ i, r !! i =
      let old := default [] (d !! object_chunk_key id c) in
      if (i <? Z.to_nat off)%nat then Some (default zero (old !! i))
      else if (i <? Z.to_nat off + length part)%nat then part !! (i - Z.to_nat off)%nat
      else old !! i.
Proof.
  intros Ho Hp. pose proof (blen_nonneg part). unfold CHUNK_SIZE in Hp.
  destruct (upsert_bytes_at (object_chunk_key id c) off part (d !! object_chunk_key id c))
    as (r & Hr & Hat); [lia|unfold U32_SIZE; lia|].
  exists r. split; [|exact Hat]. unfold ds_upsert.
  destruct (Z.ltb_spec MAX_MESSAGE_SIZE (off + blen part)); [unfold MAX_MESSAGE_SIZE in *; lia|].
  unfold ds_insert_msg, layer_insert. rewrite bool_decide_false.
  - simpl. by rewrite Hr.
  - intros E. apply (f_equal length) in E. by rewrite length_chunk_key in E.
Qed.

(** The chunk [c] of object [id] was overwritten with [r]. *)
Lemma obj_at_set_chunk d id c r id' x :
  u64_ok id → u32_ok c → u64_ok id' → 0 ≤ x < MAX_BYTES →
  obj_at (set_contents d (object_chunk_key id c) (Some r)) id' x =
    if bool_decide (id' = id ∧ x / CHUNK_SIZE = c) then r !! Z.to_nat (x mod CHUNK_SIZE)
    else obj_at d id' x.
Proof.
  intros Hi Hc Hi' Hx. destruct (chunk_at_ok x Hx) as [Hx' _]. simpl in Hx'.
  unfold obj_at. rewrite set_contents_lookup. case_bool_decide as E.
  - apply chunk_key_inj in E as [-> ->]; try done. by rewrite bool_decide_true.
  - rewrite bool_decide_false; [done|]. by intros [-> <-].
Qed.

(** What a write of [part] from byte [a] on does. *)
Record written (d d' : contents) (id a : Z) (part : bytes) : Prop := {
  wr_ok : data_ok d → data_ok d';
  wr_byte : ∀ id' x, u64_ok id' → 0 ≤ x < MAX_BYTES →
    obj_byte d' id' x =
      if bool_decide (id' = id ∧ a ≤ x < a + blen part)
      then default zero (part !! Z.to_nat (x - a)) else obj_byte d id' x;
  wr_stored : ∀ x, a ≤ x < a + blen part → is_Some (obj_at d' id x);
  wr_keeps : ∀ id' x, u64_ok id' → 0 ≤ x < MAX_BYTES →
    is_Some (obj_at d id' x) → is_Some (obj_at d' id' x);
  wr_counter : d' !! OBJECT_ID_COUNTER_KEY = d !! OBJECT_ID_COUNTER_KEY;
}.

Lemma written_nil d id a : written d d id a [].
Proof.
  split; try done.
  - intros. rewrite bool_decide_false; [done|]. rewrite blen_nil. lia.
  - intros x. rewrite blen_nil. lia.
Qed.

Lemma written_app d d1 d2 id a p q :
  u64_ok id → 0 ≤ a → a + blen p + blen q ≤ MAX_BYTES →
  written d d1 id a p → written d1 d2 id (a + blen p) q → written d d2 id a (p ++ q).
Proof.
  intros Hi Ha Hm [O1 B1 S1 K1 C1] [O2 B2 S2 K2 C2].
  pose proof (blen_nonneg p). pose proof (blen_nonneg q). split.
  - auto.
  - intros id' x Hi' Hx. rewrite B2, B1, blen_app by done.
    repeat case_bool_decide; try (exfalso; lia); try done.
    + rewrite lookup_app_r by (unfold blen in *; lia). do 2 f_equal. unfold blen in *. lia.
    + rewrite lookup_app_l by (unfold blen in *; lia). done.
  - intros x. rewrite blen_app. intros Hx. destruct (decide (x < a + blen p)).
    + apply K2; [done|lia|]. apply S1. lia.
    + apply S2. lia.
  - eauto.
  - congruence.
Qed.

Section upsert.
Variables (d : contents) (id c off : Z) (part r : bytes).
Hypotheses (Hi : u64_ok id) (Hc : u32_ok c) (Ho : 0 ≤ off) (Hp : off + blen part ≤ CHUNK_SIZE).
Hypothesis Hat : ∀ i, r !! i =
  let old := default [] (d !! object_chunk_key id c) in
  if (i <? Z.to_nat off)%nat then Some (default zero (old !! i))
  else if (i <? Z.to_nat off + length part)%nat then part !! (i - Z.to_nat off)%nat
  else old !! i.

Let d' := set_contents d (object_chunk_key id c) (Some r).
Let a := c * CHUNK_SIZE + off.

Lemma upsert_data_ok : data_ok d → data_ok d'.
Proof.
  intros Hd k v. unfold d'. rewrite set_contents_lookup. case_bool_decide as E; [|by apply Hd].
  intros [= <-]. right. exists id, c. split_and!; try done.
  assert (0 < CHUNK_SIZE) by done. assert (r !! Z.to_nat CHUNK_SIZE = None) as Hn%lookup_ge_None_1; [|unfold blen; lia].
  rewrite Hat. cbv zeta. pose proof (blen_nonneg part).
  destruct (Nat.ltb_spec (Z.to_nat CHUNK_SIZE) (Z.to_nat off)); [lia|].
  destruct (Nat.ltb_spec (Z.to_nat CHUNK_SIZE) (Z.to_nat off + length part)); [unfold blen in *; lia|].
  destruct (d !! object_chunk_key id c) as [old|] eqn:Eo; [|done].
  destruct (Hd _ _ Eo) as [?|(?&?&?&?&?&?)]; [by destruct (counter_not_chunk id c)|].
  apply lookup_ge_None_2. unfold blen in *. simpl. lia.
Qed.

Lemma upsert_obj_at id' x :
  u64_ok id' → 0 ≤ x < MAX_BYTES →
  obj_at d' id' x =
    if bool_decide (id' = id ∧ a ≤ x < a + blen part) then part !! Z.to_nat (x - a)
    else if bool_decide (id' = id ∧ x / CHUNK_SIZE = c ∧ x < a)
    then Some (default zero (obj_at d id' x)) else obj_at d id' x.
Proof.
  intros Hi' Hx. unfold d', a. rewrite obj_at_set_chunk by done. pose proof (div_bounds x).
  pose proof (blen_nonneg part).
  case_bool_decide as E.
  - destruct E as [-> Ec]. unfold obj_at. rewrite Ec. pose proof (chunk_mod c x) as Hm.
    rewrite Ec in *. rewrite Hm by lia. rewrite Hat. cbv zeta.
    destruct (Nat.ltb_spec (Z.to_nat (x - c * CHUNK_SIZE)) (Z.to_nat off)).
    { rewrite bool_decide_false, bool_decide_true by lia. done. }
    destruct (Nat.ltb_spec (Z.to_nat (x - c * CHUNK_SIZE)) (Z.to_nat off + length part)).
    + rewrite bool_decide_true by (unfold blen; lia). f_equal. lia.
    + by rewrite !bool_decide_false by (unfold blen; lia).
  - rewrite !bool_decide_false; [done|tauto|]. intros [-> Hin]. apply E. split; [done|].
    apply chunk_div. lia.
Qed.

Lemma upsert_is_written : written d d' id a part.
Proof.
  assert (0 ≤ a ∧ a + blen part ≤ MAX_BYTES) as [Ha Hm].
  { unfold a, MAX_BYTES, u32_ok, CHUNK_SIZE, U32_SIZE in *. lia. }
  split.
  - apply upsert_data_ok.
  - intros id' x Hi' Hx. unfold obj_byte. rewrite upsert_obj_at by done.
    case_bool_decide; [done|]. by case_bool_decide.
  - intros x Hx. rewrite upsert_obj_at by (done || lia). rewrite bool_decide_true by done.
    apply lookup_lt_is_Some_2. unfold blen in *. lia.
  - intros id' x Hi' Hx Hs. rewrite upsert_obj_at by done. case_bool_decide as E.
    + apply lookup_lt_is_Some_2. unfold blen in *. lia.
    + case_bool_decide; [eauto|done].
  - unfold d'. rewrite set_contents_lookup, bool_decide_false; [done|apply counter_not_chunk].
Qed.
End upsert.

Lemma upsert_written d id c part off :
  u64_ok id → u32_ok c → 0 ≤ off → off + blen part ≤ CHUNK_SIZE →
  ∃ d', ds_upsert d (object_chunk_key id c) part off = Some (inl d') ∧
    written d d' id (c * CHUNK_SIZE + off) part.
Proof.
  intros Hi Hc Ho Hp. destruct (ds_upsert_chunk d id c part off Ho Hp) as (r & Hr & Hat).
  eexists. split; [done|]. by apply upsert_is_written.
Qed.

Lemma write_loop_written d id buf n size rs a b :
  u64_ok id → 0 ≤ a → b ≤ MAX_BYTES → contiguous a rs b → Forall in_one_chunk rs →
  blen buf = b - a →
  ∃ d', write_loop d id buf n size rs =
      Some (d', n + (b - a), (if decide (rs = []) then size else Some b), None) ∧
    written d d' id a buf.
Proof.
  intros Hi. revert d buf n size a. induction rs as [|r rs IH]; intros d buf n size a Ha Hb Hc Hf Hlen.
  - simpl in Hc. subst b. exists d. assert (buf = []) as ->.
    { apply nil_length_inv. unfold blen in *. lia. }
    split; [|apply written_nil]. cbn [write_loop]. by rewrite Z.sub_diag, Z.add_0_r, decide_True.
  - cbn [contiguous] in Hc. destruct Hc as [Hs Hc]. apply Forall_cons in Hf as [Hr Hf].
    pose proof (contiguous_le _ _ _ Hc Hf) as Hle.
    cbn [write_loop]. rewrite (single_chunk_len_ok r Hr). cbn [mbind option_bind].
    destruct Hr as (E&Hc32&Hoff&Hlt&Hend).
    set (len := as_bytes (cr_end r) - as_bytes (cr_start r)).
    assert (len = chunk_offset (cr_end r) - chunk_offset (cr_start r)) as El
      by (unfold len, as_bytes; rewrite E; lia).
    assert (Z.of_nat (length buf) = b - a) as Hlen' by done.
    rewrite cut_front by (unfold blen in *; lia). cbn [mbind option_bind].
    assert (blen (take (Z.to_nat len) buf) = len) as Ht by (unfold blen; rewrite length_take_le; lia).
    destruct (upsert_written d id (chunk_id (cr_start r)) (take (Z.to_nat len) buf)
      (chunk_offset (cr_start r))) as (d1 & -> & Hw1); [done..|lia|]. cbn [mbind option_bind].
    replace (chunk_id (cr_start r) * CHUNK_SIZE + chunk_offset (cr_start r)) with a in Hw1
      by (rewrite <- Hs; done).
    destruct (IH d1 (drop (Z.to_nat len) buf) (n + len) (Some (as_bytes (cr_end r)))
      (as_bytes (cr_end r))) as (d2 & -> & Hw2); [lia|done|done|done| |].
    { rewrite blen_drop; unfold blen in *; lia. }
    exists d2. split.
    + replace (n + len + (b - as_bytes (cr_end r))) with (n + (b - a)) by lia.
      rewrite (decide_False (P := r :: rs = [])) by done.
      case_decide as En; [|done]. subst rs. simpl in Hc. by subst b.
    + rewrite <- (take_drop (Z.to_nat len) buf). apply (written_app _ d1); try done.
      * rewrite blen_drop, Ht; unfold blen in *; lia.
      * rewrite Ht. replace (a + len) with (as_bytes (cr_end r)) by lia. done.
Qed.

(** ** Records *)

Section records.
Context `{SpeedyLaws}.
Implicit Types (s : ObjectStore).

(** The record of [key] in the meta data is [r]. *)
Definition record s (key : bytes) (r : option ObjectInfo) : Prop :=
  store r = Some (os_metadata s !! key) ∧ ∀ i, r = Some i → info_ok i.

(** The names an object can have. *)
Definition name_ok (key : bytes) : Prop := key ≠ [] ∧ zero ∉ key.

Lemma name_fixed key : name_ok key → is_fixed_key key = true.
Proof. intros [_ ?]. by apply bool_decide_eq_true_2. Qed.

Lemma name_no_zero key : name_ok key → contains_zero key = false.
Proof. intros [_ ?]. by apply bool_decide_eq_false_2. Qed.

Lemma read_record s key r : record s key r → read_object_info s key = Some r.
Proof.
  intros [Hs Hok]. unfold read_object_info, layer_get. destruct r as [i|]; simpl in Hs.
  - destruct (read_write_info i (Hok i eq_refl)) as (b & Hb & Hr). rewrite Hb in Hs.
    injection Hs as <-. by rewrite Hr.
  - by injection Hs as <-.
Qed.

Lemma meta_insert_spec s key msg v :
  key ≠ [] → meta_apply key msg (os_metadata s !! key) = Some v →
  meta_insert_msg s key msg = Some (inl (set_os_metadata s (set_contents (os_metadata s) key v))).
Proof.
  intros Hk Hv. unfold meta_insert_msg, ds_insert_msg, layer_insert.
  rewrite bool_decide_false by done. simpl. by rewrite Hv.
Qed.

Lemma update_record s key m r :
  name_ok key → msg_ok m → record s key r →
  ∃ s', update_object_info s key m = Some (inl s') ∧ record s' key (info_effect (in_us m) r) ∧
    os_data s' = os_data s ∧ object_id_counter s' = object_id_counter s ∧
    (∀ k, k ≠ key → os_metadata s' !! k = os_metadata s !! k).
Proof.
  intros Hk Hm [Hs Hok]. destruct (pack_total m Hm) as [b Hb].
  pose proof (effect_ok m r Hm Hok) as Hok'. destruct (store_total _ Hok') as [v Hv].
  eexists. split_and!.
  - unfold update_object_info. rewrite Hb. apply meta_insert_spec; [apply Hk|].
    by rewrite (apply_effect key m b r) by (done || by apply name_fixed).
  - split; [|done]. simpl. by rewrite set_contents_lookup, bool_decide_true.
  - done.
  - done.
  - intros k Hne. simpl. by rewrite set_contents_lookup, bool_decide_false.
Qed.

(** What a completed write makes of the record. *)
Definition written_info (i : ObjectInfo) (size now : Z) (pref : StoragePreference) : ObjectInfo :=
  {| oi_object_id := oi_object_id i; oi_size := size; oi_mtime := now / 1000 * 1000;
     oi_pref := pref; oi_access_pattern := oi_access_pattern i |}.

Lemma write_at_spec s o buf offset pref now i :
  name_ok (obj_key o) → record s (obj_key o) (Some i) → u64_ok (obj_id o) →
  0 ≤ offset → buf ≠ [] → offset + blen buf < MAX_BYTES →
  0 ≤ now < 1000 * U64_SIZE → Pref.valid pref →
  ∃ s', write_at_with_pref s o buf offset pref now = Some (inl (blen buf), s') ∧
    written (os_data s) (os_data s') (obj_id o) offset buf ∧
    record s' (obj_key o) (Some (written_info i (offset + blen buf) now pref)) ∧
    (∀ k, k ≠ obj_key o → os_metadata s' !! k = os_metadata s !! k).
Proof.
  intros Hk Hr Hi Ho Hne Hm Hnow Hp. pose proof (blen_nonneg buf).
  destruct (split_bytes offset (blen buf) ltac:(lia) ltac:(lia) Hm) as [Hc Hf].
  set (rs := split_at_chunk_bounds _) in *.
  assert (rs ≠ []) as Hrs.
  { intros E. rewrite E in Hc. simpl in Hc. apply Hne, nil_length_inv. unfold blen in *. lia. }
  destruct (write_loop_written (os_data s) (obj_id o) buf 0 None rs offset (offset + blen buf))
    as (d & Hw & Hwr); [done|lia|lia|done|done|lia|].
  rewrite decide_False in Hw by done.
  unfold write_at_with_pref. fold rs. rewrite Hw. cbn [mbind option_bind].
  set (m := change _ _ _).
  assert (msg_ok m) as Hmsg.
  { split_and!; simpl; intros ? [= <-]; try done.
    unfold MAX_BYTES, CHUNK_SIZE, U32_SIZE, U64_SIZE in *. lia. }
  destruct (update_record (set_os_data s d) (obj_key o) m (Some i) Hk Hmsg Hr)
    as (s' & -> & Hrec & Hd & _ & Hoth).
  exists s'. cbn [mbind option_bind]. split_and!.
  - do 3 f_equal. lia.
  - by rewrite Hd.
  - exact Hrec.
  - done.
Qed.



Lemma stored_up_to_at d id offset : is_Some (obj_at d id offset) → stored_up_to d id offset.
Proof.
  unfold obj_at, stored_up_to. intros Hs v Hv. rewrite Hv in Hs. simpl in Hs.
  apply lookup_lt_is_Some_1 in Hs. pose proof (Z.mod_pos_bound offset CHUNK_SIZE eq_refl).
  unfold blen. lia.
Qed.

Lemma bytes_of_prefix d id offset (buf buf' : bytes) n :
  n = blen buf → blen buf' = blen buf →
  (∀ j, 0 ≤ j < n → buf' !! Z.to_nat j = Some (obj_byte d id (offset + j))) →
  (∀ j, 0 ≤ j < n → obj_byte d id (offset + j) = default zero (buf !! Z.to_nat j)) → buf' = buf.
Proof.
  intros -> Hl H1 H2. apply list_eq_same_length with (length buf); [done|unfold blen in Hl; lia|].
  intros j x y Hj Hx Hy. specialize (H1 (Z.of_nat j)). specialize (H2 (Z.of_nat j)).
  rewrite Nat2Z.id in H1, H2. unfold blen in *. rewrite H1 in Hx by lia. rewrite H2, Hy in Hx by lia.
  simpl in Hx. by injection Hx as <-.
Qed.

Lemma written_then_read s o buf offset pref now i :
  name_ok (obj_key o) → record s (obj_key o) (Some i) → u64_ok (obj_id o) →
  data_ok (os_data s) → 0 ≤ offset → buf ≠ [] → offset + blen buf < MAX_BYTES →
  0 ≤ now < 1000 * U64_SIZE → Pref.valid pref →
  ∃ s', write_at_with_pref s o buf offset pref now = Some (inl (blen buf), s') ∧
    ∀ buf0, blen buf0 = blen buf → read_at s' o buf0 offset = Some (inl (blen buf), buf).
Proof.
  intros Hk Hr Hi Hd Ho Hne Hm Hnow Hp.
  destruct (write_at_spec s o buf offset pref now i) as (s' & Hw & Hwr & Hrec & _); try done.
  exists s'. split; [done|]. intros buf0 Hl.
  assert (0 < blen buf) as Hpos by (destruct buf; [done|rewrite blen_cons; pose proof (blen_nonneg buf); lia]).
  destruct (read_at_spec s' o buf0 offset (written_info i (offset + blen buf) now pref))
    as (n & buf' & -> & Hl' & Hn & Hby & Hend).
  - by apply (wr_ok _ _ _ _ _ Hwr).
  - done.
  - lia.
  - simpl. lia.
  - by apply read_record.
  - apply stored_up_to_at, (wr_stored _ _ _ _ _ Hwr). lia.
  - simpl in *. rewrite Hl in *.
    replace (Z.min (blen buf) (Z.max 0 (offset + blen buf - offset))) with (blen buf) in * by lia.
    assert (n = blen buf) as En.
    { destruct Hend as [?|[_ Hno]]; [done|]. destruct (decide (n = blen buf)) as [|Hn']; [done|].
      destruct (wr_stored _ _ _ _ _ Hwr (offset + n)) as [b Hb]; [lia|].
      rewrite Hno in Hb by lia. done. }
    do 3 f_equal; [done|]. apply (bytes_of_prefix (os_data s') (obj_id o) offset _ _ n); try done.
    intros j Hj. rewrite (wr_byte _ _ _ _ _ Hwr) by (done || lia).
    rewrite bool_decide_true by lia. by replace (offset + j - offset) with j by lia.
Qed.

(** What is written is read back: a read of as many bytes at the same
    offset right after a write returns the bytes that were written, whatever
    the object held before. *)
Theorem write_then_read s o buf offset pref now i :
  name_ok (obj_key o) → record s (obj_key o) (Some i) → u64_ok (obj_id o) →
  data_ok (os_data s) → 0 ≤ offset → buf ≠ [] → offset + blen buf < MAX_BYTES →
  0 ≤ now < 1000 * U64_SIZE → Pref.valid pref →
  ∃ s', write_at_with_pref s o buf offset pref now = Some (inl (blen buf), s') ∧
    ∀ buf0, blen buf0 = blen buf → read_at s' o buf0 offset = Some (inl (blen buf), buf).
Proof. apply written_then_read. Qed.

End records.
