(* ===== verification/ObjectLife.v ===== *)
(** * Creation, listing and deletion of objects

    A new object gets an identifier whose first chunk is unused, and a
    reopened store continues behind it; deletion removes the record, the
    chunks and the custom entries, with them the record of a neighbour; a
    cursor reads back what it wrote.  The examples at the end run the model:
    the panic of a sparse read, and that of [iter_objects]. *)

From Stdlib Require Import ZArith Lia.
From stdpp Require Import base option list numbers gmap fin_maps.
From S2P Require Import Prelude.
From S2P Require Import Bytes.
From S2P Require Import BTreeMap.
From S2P Require Import StoragePref.
From S2P Require Import Message.
From S2P Require Import Tree.
From S2P Require Import Range.
From S2P Require Import Dataset.
From S2P Require Import Meta.
From S2P Require Import Chunk.
From S2P Require Import Object.
From S2P Require Import ObjectCorrect.

(** ** The search for an identifier *)

(** The identifier after [n] steps of the counter. *)
Definition oid_after (counter : Z) (n : nat) : Z := (counter + Z.of_nat n) mod U64_SIZE.

Lemma oid_after_ok counter n : u64_ok (oid_after counter n).
Proof. apply Z.mod_pos_bound. done. Qed.

Lemma oid_after_S counter n : oid_after (wrap64 (counter + 1)) n = oid_after counter (S n).
Proof.
  unfold oid_after, wrap64, U64_SIZE. rewrite Zplus_mod_idemp_l. f_equal. lia.
Qed.

Lemma oid_after_inj counter n m :
  (n < m)%nat → Z.of_nat m < U64_SIZE → oid_after counter n ≠ oid_after counter m.
Proof.
  unfold oid_after. intros Hnm Hm E.
  assert ((counter + Z.of_nat m - (counter + Z.of_nat n)) mod U64_SIZE = 0) as E0.
  { rewrite Zminus_mod, E, Z.sub_diag. done. }
  rewrite Z.mod_small in E0 by lia. lia.
Qed.

Lemma find_oid_spec fuel d counter :
  u64_ok counter →
  match find_oid fuel d counter with
  | Some (oid, counter') =>
      u64_ok oid ∧ counter' = wrap64 (oid + 1) ∧ d !! object_chunk_key oid 0 = None
  | None => ∀ n, (n < fuel)%nat → is_Some (d !! object_chunk_key (oid_after counter n) 0)
  end.
Proof.
  revert counter. induction fuel as [|fuel IH]; intros counter Hc; [simpl; lia|].
  cbn [find_oid]. unfold layer_get. destruct (d !! object_chunk_key counter 0) as [v|] eqn:E; [|done].
  specialize (IH (wrap64 (counter + 1)) ltac:(by apply Z.mod_pos_bound)).
  destruct (find_oid fuel d (wrap64 (counter + 1))) as [[oid c']|]; [done|].
  intros [|n] Hn.
  - unfold oid_after. rewrite Z.add_0_r, Z.mod_small by done. eauto.
  - rewrite <- oid_after_S. apply IH. lia.
Qed.

(** There are more identifiers than entries, so the search ends. *)
Lemma find_oid_total d counter :
  u64_ok counter → Z.of_nat (size d) < U64_SIZE →
  ∃ oid, find_oid (S (size d)) d counter = Some (oid, wrap64 (oid + 1)) ∧ u64_ok oid ∧
    d !! object_chunk_key oid 0 = None.
Proof.
  intros Hc Hs. pose proof (find_oid_spec (S (size d)) d counter Hc) as Hf.
  destruct (find_oid (S (size d)) d counter) as [[oid c']|].
  { destruct Hf as (?&->&?). eauto. }
  exfalso. set (ks := (λ n, object_chunk_key (oid_after counter n) 0) <$> seq 0 (S (size d))).
  assert (NoDup ks) as Hnd.
  { apply NoDup_fmap_2_strong; [|apply NoDup_seq]. intros n m Hn%elem_of_seq Hm%elem_of_seq E.
    apply chunk_key_inj in E as [E _]; [|apply oid_after_ok|done|apply oid_after_ok|done].
    destruct (decide (n = m)) as [|Hne]; [done|]. exfalso.
    destruct (decide (n < m)%nat).
    - by apply (oid_after_inj counter n m) in E; [|lia|lia].
    - symmetry in E. by apply (oid_after_inj counter m n) in E; [|lia|lia]. }
  assert (list_to_set (C := gset bytes) ks ⊆ dom d) as Hsub.
  { intros k Hk%elem_of_list_to_set. apply list_elem_of_fmap in Hk as (n & -> & Hn%elem_of_seq).
    apply elem_of_dom, Hf. lia. }
  apply subseteq_size in Hsub. rewrite size_list_to_set, size_dom in Hsub by done.
  unfold ks in Hsub. rewrite length_fmap, length_seq in Hsub. lia.
Qed.

(** ** Single messages on the data tree *)

Lemma ds_insert_spec d k v :
  k ≠ [] → blen v ≤ MAX_MESSAGE_SIZE → ds_insert d k v = Some (inl (set_contents d k (Some v))).
Proof.
  intros Hk Hv. unfold ds_insert. destruct (Z.ltb_spec MAX_MESSAGE_SIZE (blen v)); [lia|].
  unfold ds_insert_msg, layer_insert. by rewrite bool_decide_false.
Qed.

Lemma ds_delete_spec d k : k ≠ [] → ds_delete d k = Some (inl (set_contents d k None)).
Proof. intros Hk. unfold ds_delete, ds_insert_msg, layer_insert. by rewrite bool_decide_false. Qed.

(** The contents without some keys. *)
Definition without (d : contents) (ks : list bytes) : contents :=
  foldl (λ d k, set_contents d k None) d ks.

Lemma without_lookup d ks k :
  without d ks !! k = if bool_decide (k ∈ ks) then None else d !! k.
Proof.
  revert d. induction ks as [|k' ks IH]; intros d; simpl; [done|].
  rewrite IH, set_contents_lookup. repeat case_bool_decide; set_solver.
Qed.

Lemma delete_keys_spec d ks :
  Forall (λ k, k ≠ []) ks → delete_keys d ks (inl tt) = Some (inl tt, without d ks).
Proof.
  revert d. induction ks as [|k ks IH]; intros d [Hk Hf]%Forall_cons || intros d _; [done|].
  cbn [delete_keys]. rewrite ds_delete_spec by done. simpl. by apply IH.
Qed.

Section life.
Context `{SpeedyLaws}.
Implicit Types (s : ObjectStore).

(** ** Creation *)

Definition new_info (oid now : Z) (pref : StoragePreference) (access : PreferredAccessType) :
    ObjectInfo :=
  {| oi_object_id := oid; oi_size := 0; oi_mtime := now; oi_pref := pref;
     oi_access_pattern := access |}.

Lemma set_info_effect i r :
  info_effect (in_us (set_info i)) r =
    Some {| oi_object_id := oi_object_id i; oi_size := oi_size i;
            oi_mtime := oi_mtime i / 1000 * 1000; oi_pref := oi_pref i;
            oi_access_pattern := oi_access_pattern i |}.
Proof. by destruct i. Qed.

Lemma init_object_spec s key pref access now r :
  name_ok key → record s key r → u64_ok (object_id_counter s) →
  Z.of_nat (size (os_data s)) < U64_SIZE → 0 ≤ now < 1000 * U64_SIZE → Pref.valid pref →
  ∃ oid s', init_object s key pref access now =
      Some (inl ({| obj_key := key; obj_id := oid; obj_storage_preference := pref |},
                 new_info oid now pref access), s') ∧
    u64_ok oid ∧ os_data s !! object_chunk_key oid 0 = None ∧
    record s' key (Some (new_info oid (now / 1000 * 1000) pref access)) ∧
    (∀ k, k ≠ key → os_metadata s' !! k = os_metadata s !! k) ∧
    os_data s' = set_contents (os_data s) OBJECT_ID_COUNTER_KEY (Some (le64 oid)).
Proof.
  intros Hk Hr Hc Hsz Hnow Hp. unfold init_object. rewrite name_no_zero by done.
  destruct (find_oid_total (os_data s) (object_id_counter s) Hc Hsz) as (oid & -> & Hoid & Hfree).
  cbn [mbind option_bind]. fold (new_info oid now pref access).
  assert (msg_ok (set_info (new_info oid now pref access))) as Hm.
  { apply msg_ok_set_info. unfold info_ok, new_info, u64_ok in *. simpl. split_and!; done || lia. }
  destruct (update_record (set_counter s (wrap64 (oid + 1))) key _ r Hk Hm Hr)
    as (s' & -> & Hrec & Hd & _ & Hoth). cbn [mbind option_bind].
  rewrite ds_insert_spec by (done || unfold blen; by rewrite length_le64).
  cbn [mbind option_bind]. rewrite set_info_effect in Hrec.
  eexists oid, _. split_and!; try done. simpl. by rewrite Hd.
Qed.

(** C22: A new object can be opened.  Creation ends and succeeds (there are
    fewer entries than identifiers); the identifier it takes has no first
    chunk in the store; opening the name afterwards returns the object with
    the record that was written; a store opened anew on the same data
    continues behind the identifier; no other record and no chunk changes. *)
Theorem created_object_opens s key pref access now r p :
  name_ok key → record s key r → u64_ok (object_id_counter s) →
  Z.of_nat (size (os_data s)) < U64_SIZE - 1 → 0 ≤ now < 1000 * U64_SIZE → Pref.valid pref →
  ∃ o inf s', init_object s key pref access now = Some (inl (o, inf), s') ∧
    os_data s !! object_chunk_key (obj_id o) 0 = None ∧
    open_object_with_pref s' key pref =
      Some (inl (Some (o, new_info (obj_id o) (now / 1000 * 1000) pref access))) ∧
    (obj_id o < U64_SIZE - 1 → ∃ s2, with_datasets (os_data s') (os_metadata s') p = Some s2 ∧
      object_id_counter s2 = obj_id o + 1) ∧
    (∀ k, k ≠ key → os_metadata s' !! k = os_metadata s !! k) ∧
    (∀ k, k ≠ OBJECT_ID_COUNTER_KEY → os_data s' !! k = os_data s !! k).
Proof.
  intros Hk Hr Hc Hsz Hnow Hp.
  destruct (init_object_spec s key pref access now r) as (oid & s' & E & Hoid & Hfree & Hrec & Hoth & Hd);
    try done; [lia|].
  eexists _, _, s'. split; [done|]. cbn [obj_id]. split_and!; try done.
  - unfold open_object_with_pref. rewrite name_no_zero, (read_record _ _ _ Hrec) by done. done.
  - intros Hlt. unfold with_datasets, layer_get. rewrite Hd, set_contents_lookup, bool_decide_true by done.
    rewrite (proj2 (Z.eqb_eq (blen (le64 oid)) 8)) by (unfold blen; by rewrite length_le64).
    rewrite of_le_le64, u64_add_Some by (done || lia). simpl. eauto.
  - intros k Hne. by rewrite Hd, set_contents_lookup, bool_decide_false.
Qed.

(** ** Deletion *)

Lemma delete_custom_apply key v : meta_apply key delete_custom v = Some None.
Proof. unfold meta_apply. by destruct (is_fixed_key key). Qed.

Lemma delete_custom_entries_spec s ks :
  Forall (λ k, k ≠ []) ks →
  delete_custom_entries s ks = Some (set_os_metadata s (without (os_metadata s) ks)).
Proof.
  revert s. induction ks as [|k ks IH]; intros s Hf; [by destruct s|].
  apply Forall_cons in Hf as [Hk Hf]. cbn [delete_custom_entries].
  rewrite (meta_insert_spec s k delete_custom None) by (done || apply delete_custom_apply).
  cbn [mbind option_bind]. by rewrite IH.
Qed.

(** The keys of the meta data that deletion removes: the range of the custom
    entries as the range query takes it. *)
Definition custom_range (key k : bytes) : bool :=
  bleb (key ++ [zero]) k && bleb k (increment_pivot_key (key ++ [to_u8 1])).

Lemma layer_range_keys d a b :
  a <ᵇ b → a ≠ [] →
  ∃ es, layer_range d (mkRange (Included a) (Excluded b)) = inl es ∧
    Forall (λ k, k ≠ []) es.*1 ∧
    ∀ k, without d es.*1 !! k =
      if bleb a k && bleb k (increment_pivot_key b) then None else d !! k.
Proof.
  intros Hab Ha. set (r := mkRange _ _). pose proof (layer_range_elem d r) as Hel.
  assert (is_inclusive_non_empty r = true) as Hne.
  { unfold is_inclusive_non_empty. simpl. bbool; [done|border]. }
  unfold layer_range in *. rewrite Hne in *. simpl in *. eexists. split; [done|].
  set (es := bt_filter _ _) in *.
  assert (∀ k v, (k, v) ∈ es ↔ d !! k = Some v ∧ a ≤ᵇ k ∧ k ≤ᵇ increment_pivot_key b) as Hes.
  { intros k v. destruct (Hel es k v eq_refl) as [_ E]. exact E. }
  split.
  - apply Forall_forall. intros k Hk. apply list_elem_of_fmap in Hk as ([k' v] & -> & [_ [Hk _]]%Hes).
    simpl. intros ->. apply Ha. destruct a; [done|]. destruct Hk as [Hk|Hk]; done.
  - intros k. rewrite without_lookup. case_bool_decide as Hin.
    + apply list_elem_of_fmap in Hin as ([k' v] & -> & [_ [H1 H2]]%Hes). simpl.
      by bbool; [|border..].
    + destruct (d !! k) as [v|] eqn:E; [|by destruct (_ && _)].
      bbool; simpl; try done. exfalso. apply Hin.
      apply list_elem_of_fmap. exists (k, v). split; [done|]. by apply Hes.
Qed.

Lemma cmp_same p x y : bytes_cmp (p ++ x) (p ++ y) = bytes_cmp x y.
Proof. rewrite bytes_cmp_app by done. by rewrite bytes_cmp_refl. Qed.

Lemma custom_range_spec key k :
  custom_range key k = true ↔ key ++ [zero] ≤ᵇ k ∧ k ≤ᵇ increment_pivot_key (key ++ [to_u8 1]).
Proof. unfold custom_range. bbool; simpl; split; try done; intros [??]; border. Qed.

Lemma delete_object_spec s o r :
  name_ok (obj_key o) → record s (obj_key o) r → u64_ok (obj_id o) →
  ∃ s', delete_object s o = Some (inl tt, s') ∧
    (∀ k, os_metadata s' !! k =
      if bool_decide (k = obj_key o) || custom_range (obj_key o) k then None else os_metadata s !! k) ∧
    (∀ k, os_data s' !! k =
      if bleb (object_chunk_key (obj_id o) 0) k &&
         bleb k (increment_pivot_key (object_chunk_key (obj_id o) (U32_SIZE - 1)))
      then None else os_data s !! k).
Proof.
  intros Hk Hr Hi. unfold delete_object.
  destruct (update_record s (obj_key o) meta_delete r Hk) as (s1 & -> & [Hs1 _] & Hd1 & _ & Hoth); [|done|].
  { split_and!; by intros ? [=]. }
  change (info_effect (in_us meta_delete) r) with (@None ObjectInfo) in Hs1. simpl in Hs1.
  injection Hs1 as Hnone. cbn [mbind option_bind]. unfold metadata_bounds, ds_range.
  destruct (layer_range_keys (os_metadata s1) (obj_key o ++ [zero]) (obj_key o ++ [to_u8 1]))
    as (es & -> & Hne & Hw); [unfold blt; by rewrite cmp_same|by intros [_ [=]]%app_nil|].
  cbn [from_tree]. rewrite delete_custom_entries_spec by done. cbn [mbind option_bind].
  unfold ds_range_delete, ds_range. cbn [os_data set_os_metadata]. rewrite Hd1.
  destruct (layer_range_keys (os_data s) (object_chunk_key (obj_id o) 0)
    (object_chunk_key (obj_id o) (U32_SIZE - 1))) as (ds & -> & Hned & Hwd);
    [by apply chunk_key_lt|intros E; apply (f_equal length) in E; by rewrite length_chunk_key in E|].
  cbn [from_tree]. rewrite delete_keys_spec by done. cbn [mbind option_bind].
  eexists. split; [done|]. split; [|by intros k; cbn [os_data set_os_data]; rewrite Hwd].
  intros k. cbn [os_metadata set_os_data set_os_metadata]. rewrite Hw. unfold custom_range.
  destruct (_ && _); [by rewrite orb_true_r|]. rewrite orb_false_r.
  case_bool_decide as E; [by subst|by apply Hoth].
Qed.

Lemma metadata_key_in_range o name : custom_range (obj_key o) (metadata_key o name) = true.
Proof.
  unfold metadata_key. apply custom_range_spec. split.
  - destruct name; [right; by rewrite app_nil_r|left]. unfold blt.
    rewrite <- (app_nil_r (obj_key o ++ [zero])) at 1. by rewrite cmp_same.
  - left. unfold blt, increment_pivot_key. rewrite <- !app_assoc. by rewrite cmp_same.
Qed.


(** Deletion takes a neighbour along: the range of custom entries is meant
    to end before the name followed by a one byte, but the range query
    includes it, so the record of the object with that name is deleted, too
    (its chunks stay behind). *)
Theorem deletion_takes_neighbour s o r j pref :
  name_ok (obj_key o) → record s (obj_key o) r → u64_ok (obj_id o) →
  record s (obj_key o ++ [to_u8 1]) (Some j) → oi_object_id j ≠ obj_id o → u64_ok (oi_object_id j) →
  (∃ o', open_object_with_pref s (obj_key o ++ [to_u8 1]) pref = Some (inl (Some (o', j)))) ∧
  ∃ s', delete_object s o = Some (inl tt, s') ∧
    open_object_with_pref s' (obj_key o ++ [to_u8 1]) pref = Some (inl None).
Proof.
  intros Hk Hr Hi Hj Hne Hij.
  assert (contains_zero (obj_key o ++ [to_u8 1]) = false) as Hz.
  { apply bool_decide_eq_false_2. destruct Hk as [_ Hk]. rewrite elem_of_app, list_elem_of_singleton.
    by intros [?|?]. }
  unfold open_object_with_pref. rewrite Hz. split.
  { rewrite (read_record _ _ _ Hj). simpl. eauto. }
  destruct (delete_object_spec s o r Hk Hr Hi) as (s' & E & Hm & _). exists s'. split; [done|].
  assert (custom_range (obj_key o) (obj_key o ++ [to_u8 1]) = true) as Hc.
  { apply custom_range_spec. split; left; [unfold blt; by rewrite cmp_same|apply blt_succ]. }
  unfold read_object_info, layer_get. by rewrite Hm, Hc, orb_true_r.
Qed.

(** ** Cursors *)

(** A cursor reads back what it wrote: a write moves the cursor to the end
    of what was written, which is then the end of the object; seeking back by
    the length, or from the end, gives the old position, and a read from there
    returns the bytes and moves on as the write did. *)
Theorem cursor_reads_back s c buf now i :
  name_ok (obj_key (cur_handle c)) → record s (obj_key (cur_handle c)) (Some i) →
  u64_ok (obj_id (cur_handle c)) → data_ok (os_data s) → 0 ≤ pos c → buf ≠ [] →
  pos c + blen buf < MAX_BYTES → 0 ≤ now < 1000 * U64_SIZE → Pref.valid (cur_pref c) →
  ∃ s' c', cursor_write s c buf now = Some (inl (blen buf), s', c') ∧
    pos c' = pos c + blen buf ∧
    seek s' c' (SeekCurrent (- blen buf)) = Some (inl (pos c), c) ∧
    seek s' c' (SeekEnd (- blen buf)) = Some (inl (pos c), c) ∧
    ∀ buf0, blen buf0 = blen buf → cursor_read s' c buf0 = Some (inl (blen buf), buf, c').
Proof.
  intros Hk Hr Hi Hd Hpos Hne Hm Hnow Hp.
  destruct (write_at_spec s (cur_handle c) buf (pos c) (cur_pref c) now i)
    as (s' & Hw & _ & Hrec & _); try done.
  destruct (written_then_read s (cur_handle c) buf (pos c) (cur_pref c) now i)
    as (s1 & Hw1 & Hrd); try done.
  rewrite Hw in Hw1. injection Hw1 as <-.
  assert (0 < blen buf) by (destruct buf; [done|rewrite blen_cons; pose proof (blen_nonneg buf); lia]).
  assert (blen buf < U64_SIZE ∧ pos c + blen buf < U64_SIZE) as [Hb Hs]
    by (unfold MAX_BYTES, CHUNK_SIZE, U32_SIZE, U64_SIZE in *; lia).
  assert (add_u64_i64 (pos c + blen buf) (- blen buf) = Some (pos c)) as Hadd.
  { unfold add_u64_i64. destruct (Z.leb_spec 0 (- blen buf)); [lia|].
    rewrite Z.opp_involutive. unfold wrap64. fold U64_SIZE. rewrite Z.mod_small by lia.
    rewrite usub_Some by lia. f_equal. lia. }
  exists s', (set_pos c (pos c + blen buf)). split_and!.
  - unfold cursor_write. rewrite Hw. cbn [mbind option_bind moved]. by rewrite u64_add_Some.
  - done.
  - unfold seek. cbn [pos set_pos]. rewrite Hadd. by destruct c.
  - unfold seek, info. cbn [cur_handle set_pos]. rewrite (read_record _ _ _ Hrec).
    cbn [mbind option_bind oi_size written_info]. rewrite Hadd. by destruct c.
  - intros buf0 Hl. unfold cursor_read. rewrite Hrd by done. cbn [mbind option_bind moved].
    by rewrite u64_add_Some.
Qed.

End life.

(** ** Examples *)

Module ObjectExamples.
Import MetaExamples.

(** A store with one object of 4096 bytes that were never written. *)
Definition ex_store : ObjectStore :=
  {| os_data := ∅; os_metadata := {[name := default [] (write_info info)]};
     object_id_counter := 8; default_storage_preference := Pref.NONE |}.

Definition obj : Object :=
  {| obj_key := name; obj_id := 7; obj_storage_preference := Pref.NONE |}.

Definition abc : bytes := [to_u8 97; to_u8 98; to_u8 99].

Definition ex_now : Z := 6000000.

Lemma name_is_ok : name_ok name.
Proof. split; [done|]. by apply (bool_decide_eq_false_1 (zero ∈ name)). Qed.

Lemma ex_record : record ex_store name (Some info).
Proof. split; [by vm_compute|]. intros i [= <-]. apply info_is_ok. Qed.

Lemma ex_now_ok : 0 ≤ ex_now < 1000 * U64_SIZE.
Proof. unfold ex_now, U64_SIZE. lia. Qed.

Lemma none_ok : Pref.valid Pref.NONE.
Proof. by left. Qed.

Lemma obj_id_ok : u64_ok (obj_id obj).
Proof. unfold u64_ok, U64_SIZE. simpl. lia. Qed.

(** The bytes lie in two chunks. *)
Lemma write_then_read_witness :
  ∃ s', write_at_with_pref ex_store obj abc (CHUNK_SIZE - 2) Pref.NONE ex_now =
      Some (inl (blen abc), s') ∧
    ∀ buf0, blen buf0 = blen abc → read_at s' obj buf0 (CHUNK_SIZE - 2) = Some (inl (blen abc), abc).
Proof.
  apply (write_then_read ex_store obj abc (CHUNK_SIZE - 2) Pref.NONE ex_now info).
  - apply name_is_ok.
  - apply ex_record.
  - apply obj_id_ok.
  - apply map_Forall_empty.
  - vm_compute. congruence.
  - discriminate.
  - by vm_compute.
  - apply ex_now_ok.
  - apply none_ok.
Defined.



Lemma created_object_opens_witness :
  ∃ o inf s', init_object ex_store name Pref.NONE RandomRead ex_now = Some (inl (o, inf), s') ∧
    open_object_with_pref s' name Pref.NONE =
      Some (inl (Some (o, new_info (obj_id o) (ex_now / 1000 * 1000) Pref.NONE RandomRead))).
Proof.
  destruct (created_object_opens ex_store name Pref.NONE RandomRead ex_now (Some info) Pref.NONE)
    as (o & inf & s' & E & _ & Ho & _).
  - apply name_is_ok.
  - apply ex_record.
  - by vm_compute.
  - by vm_compute.
  - apply ex_now_ok.
  - apply none_ok.
  - exists o, inf, s'. split; [exact E|exact Ho].
Defined.


(** A second object, whose name is that of the first and a one byte. *)
Definition neighbour : ObjectInfo :=
  {| oi_object_id := 8; oi_size := 1; oi_mtime := 0; oi_pref := Pref.NONE;
     oi_access_pattern := AccessUnknown |}.

Definition two_objects : ObjectStore :=
  set_os_metadata ex_store
    (<[name ++ [to_u8 1] := default [] (write_info neighbour)]> (os_metadata ex_store)).

Lemma deletion_takes_neighbour_witness :
  ∃ s', delete_object two_objects obj = Some (inl tt, s') ∧
    open_object_with_pref s' (name ++ [to_u8 1]) Pref.NONE = Some (inl None).
Proof.
  destruct (deletion_takes_neighbour two_objects obj (Some info) neighbour Pref.NONE) as [_ E].
  - apply name_is_ok.
  - split; [by vm_compute|]. intros i [= <-]. apply info_is_ok.
  - apply obj_id_ok.
  - split; [by vm_compute|]. intros i [= <-].
    unfold info_ok, U64_SIZE. simpl. split_and!; try lia. by left.
  - discriminate.
  - by vm_compute.
  - exact E.
Defined.

Lemma cursor_reads_back_witness :
  ∃ s' c', cursor_write ex_store (cursor obj) abc ex_now = Some (inl 3, s', c') ∧
    cursor_read s' (cursor obj) [zero; zero; zero] = Some (inl 3, abc, c').
Proof.
  destruct (cursor_reads_back ex_store (cursor obj) abc ex_now info) as (s' & c' & E & _ & _ & _ & Hr).
  - apply name_is_ok.
  - apply ex_record.
  - apply obj_id_ok.
  - apply map_Forall_empty.
  - simpl. lia.
  - discriminate.
  - by vm_compute.
  - apply ex_now_ok.
  - apply none_ok.
  - exists s', c'. split; [exact E|by apply (Hr [zero; zero; zero])].
Defined.

(** Three bytes at the start of the first and of the second chunk. *)
Definition sparse_store : option ObjectStore :=
  '(_, s) ← write_at ex_store obj abc 0 ex_now;
  '(_, s) ← write_at s obj abc CHUNK_SIZE ex_now; Some s.

(** A read of a sparse object panics: with three bytes in each of two
    chunks, a read from byte 100 to the end counts the gap between the chunks
    from byte 3 and not from byte 100, and runs out of the buffer. *)
Theorem sparse_read_panics :
  ∃ s, sparse_store = Some s ∧ read_at s obj (zeros (CHUNK_SIZE - 97)) 100 = None.
Proof.
  assert (sparse_store ≫= (λ s, read_at s obj (zeros (CHUNK_SIZE - 97)) 100) = None) as Hn
    by (vm_compute; reflexivity).
  assert (bool_decide (is_Some sparse_store) = true) as [s Es]%bool_decide_eq_true_1
    by (vm_compute; reflexivity).
  exists s. split; [exact Es|]. by rewrite Es in Hn.
Qed.

(** An object with a custom entry. *)
Definition custom_store : option ObjectStore :=
  r ← set_metadata ex_store obj abc abc;
  match r with inl s => Some s | inr _ => None end.

(** The list of objects panics on a custom entry, which it takes for a record;
    [list_objects] leaves custom entries out. *)
Lemma iter_objects_panics :
  (s ← custom_store; iter_objects s) = None ∧
  (s ← custom_store; list_objects s (mkRange Unbounded Unbounded)) =
    Some (inl [({| obj_key := name; obj_id := 7; obj_storage_preference := Pref.NONE |}, info)]).
Proof. by vm_compute. Qed.

End ObjectExamples.
