(* ===== verification/Buffer.v ===== *)
(** * Block-aligned buffers

    [buffer.rs]: the storage behind a buffer, [BufWrite], which is written
    to and grows, and [Buf], a window of blocks on a storage.  A storage is
    the bytes of its memory and its capacity in blocks.

    Memory comes from [alloc::alloc], which leaves it uninitialised:
    [uninit n] stands for what [n] fresh bytes hold, the laws of the class say
    nothing but their number.  The reference counts and the raw pointers
    behind [from_raw] are not modelled. *)

From Stdlib Require Import ZArith Lia.
From stdpp Require Import base option list numbers.
From S2P Require Import Prelude.
From S2P Require Import Bytes.
From S2P Require Import Disk.

Class Memory := { uninit : Z → bytes }.
Class MemoryLaws `{Memory} := { uninit_length n : 0 ≤ n → blen (uninit n) = n }.

(** ** Storage *)

Record AlignedStorage := { stg : bytes; capacity : Z }.

Definition MIN_GROWTH_SIZE : Z := 1.

(** [x as f32 as u32]: rounding to 24 bits, ties to even; [GROWTH_FACTOR] is
    one. *)
Definition f32_round (x : Z) : Z :=
  if x <? 2 ^ 24 then x
  else
    let ulp := 2 ^ (Z.log2 x - 23) in
    let q := x / ulp in
    let r := x mod ulp in
    let q := if (2 * r <? ulp) || ((2 * r =? ulp) && Z.even q) then q else q + 1 in
    Z.min (q * ulp) (U32_SIZE - 1).

Section memory.
Context `{Memory}.

(** [AlignedStorage::zeroed], which does not write the memory. *)
Definition storage_zeroed (blocks : Z) : option AlignedStorage :=
  n ← Block.to_bytes U32_SIZE blocks;
  Some {| stg := uninit n; capacity := blocks |}.

(** [ensure_capacity]: [realloc] keeps the old bytes. *)
Definition ensure_capacity (s : AlignedStorage) (requested : Z) : option AlignedStorage :=
  if requested <=? capacity s then Some s
  else
    old_bytes ← Block.to_bytes U32_SIZE (capacity s);
    grown ← u32_add (capacity s) MIN_GROWTH_SIZE;
    let wanted :=
      Z.max (Z.max requested (Block.round_up_from_bytes (f32_round old_bytes))) grown in
    new_bytes ← Block.to_bytes U32_SIZE wanted;
    Some {| stg := stg s ++ uninit (new_bytes - old_bytes); capacity := wanted |}.

(** ** Writing *)

Record BufWrite := { bw_buf : AlignedStorage; bw_size : Z }.

Definition with_capacity (blocks : Z) : option BufWrite :=
  s ← storage_zeroed blocks; Some {| bw_buf := s; bw_size := 0 |}.

(** The bytes from [pos] on are replaced by [data]. *)
Definition copy_to (b : bytes) (pos : Z) (data : bytes) : bytes :=
  take (Z.to_nat pos) b ++ data ++ drop (Z.to_nat pos + length data) b.

(** [io::Write::write] *)
Definition bw_write (w : BufWrite) (data : bytes) : option BufWrite :=
  required_size ← u32_add (bw_size w) (blen data);
  s ← ensure_capacity (bw_buf w) (Block.round_up_from_bytes required_size);
  Some {| bw_buf := {| stg := copy_to (stg s) (bw_size w) data; capacity := capacity s |};
          bw_size := required_size |}.

Inductive BufSeek := BufStart (offset : Z) | BufEnd (offset : Z) | BufCurrent (offset : Z).

(** [io::Seek::seek]; [inr] is the error. *)
Definition bw_seek (w : BufWrite) (target : BufSeek) : option (BufWrite + unit) :=
  cap ← Block.to_bytes U32_SIZE (capacity (bw_buf w));
  let new_size := wrap32
    match target with
    | BufStart offset => offset
    | BufEnd offset => cap + offset
    | BufCurrent offset => bw_size w + offset
    end in
  if new_size <=? cap then Some (inl {| bw_buf := bw_buf w; bw_size := new_size |})
  else Some (inr tt).

(** [AsRef for BufWrite] *)
Definition bw_as_ref (w : BufWrite) : option bytes := cut (stg (bw_buf w)) 0 (bw_size w).

(** ** Reading *)

(** A buffer: its memory, and its range of blocks. *)
Record Buf := { buf_source : bytes; range_start : Z; range_end : Z }.

(** [into_buf], [Buf::from_aligned] *)
Definition into_buf (w : BufWrite) : Buf :=
  {| buf_source := stg (bw_buf w); range_start := 0; range_end := capacity (bw_buf w) |}.

(** [Buf::zeroed] *)
Definition buf_zeroed (size : Z) : option Buf :=
  s ← storage_zeroed size;
  Some {| buf_source := stg s; range_start := 0; range_end := capacity s |}.

(** [Buf::from_zero_padded] *)
Definition from_zero_padded (b : bytes) : Buf :=
  let padded_size := Block.round_up_from_bytes (blen b) in
  {| buf_source := b ++ replicate (Z.to_nat (BLOCK_SIZE * padded_size - blen b)) zero;
     range_start := 0; range_end := padded_size |}.

(** [AsRef for Buf] *)
Definition buf_as_ref (b : Buf) : option bytes :=
  s ← Block.to_bytes U32_SIZE (range_start b);
  e ← Block.to_bytes U32_SIZE (range_end b);
  cut (buf_source b) s (e - s).

(** [Buf::size] *)
Definition buf_blocks (b : Buf) : option Z := usub (range_end b) (range_start b).

(** [split_range_at], [Buf::split_at] *)
Definition split_range_at (s e mid : Z) : option ((Z * Z) * (Z * Z)) :=
  m ← u32_add s mid;
  Some (if m <? e then ((s, m), (m, e)) else ((s, e), (e, e))).

Definition split_at (b : Buf) (mid : Z) : option (Buf * Buf) :=
  '((ls, le), (rs, re)) ← split_range_at (range_start b) (range_end b) mid;
  Some ({| buf_source := buf_source b; range_start := ls; range_end := le |},
        {| buf_source := buf_source b; range_start := rs; range_end := re |}).

End memory.

(** ** Correctness *)

(** The memory has the length that the capacity says; the written part lies
    in it. *)
Definition bw_ok (w : BufWrite) : Prop :=
  0 ≤ capacity (bw_buf w) ∧ BLOCK_SIZE * capacity (bw_buf w) < U32_SIZE ∧
  blen (stg (bw_buf w)) = BLOCK_SIZE * capacity (bw_buf w) ∧
  0 ≤ bw_size w ≤ BLOCK_SIZE * capacity (bw_buf w).

Definition buf_ok (b : Buf) : Prop :=
  0 ≤ range_start b ≤ range_end b ∧ BLOCK_SIZE * range_end b ≤ blen (buf_source b) ∧
  BLOCK_SIZE * range_end b < U32_SIZE.

(** The written part. *)
Definition bw_bytes (w : BufWrite) : bytes := take (Z.to_nat (bw_size w)) (stg (bw_buf w)).

Lemma to_bytes_Some b : BLOCK_SIZE * b < U32_SIZE → Block.to_bytes U32_SIZE b = Some (BLOCK_SIZE * b).
Proof.
  intros. unfold Block.to_bytes, umul. rewrite Z.mul_comm. by rewrite (proj2 (Z.ltb_lt _ _)).
Qed.

Lemma bw_as_ref_ok w : bw_ok w → bw_as_ref w = Some (bw_bytes w).
Proof.
  intros (?&?&?&?). unfold bw_as_ref, bw_bytes. apply cut_front. lia.
Qed.

Lemma bw_bytes_length w : bw_ok w → blen (bw_bytes w) = bw_size w.
Proof. intros (?&?&?&?). unfold bw_bytes, blen in *. rewrite length_take. lia. Qed.

Lemma into_buf_ref w :
  bw_ok w → buf_ok (into_buf w) ∧ buf_as_ref (into_buf w) = Some (stg (bw_buf w)) ∧
    stg (bw_buf w) = bw_bytes w ++ drop (Z.to_nat (bw_size w)) (stg (bw_buf w)).
Proof.
  intros (Hc & Hm & Hl & Hs). split_and!.
  - unfold buf_ok. simpl. unfold BLOCK_SIZE in *. lia.
  - unfold buf_as_ref, into_buf. cbn [range_start range_end buf_source].
    rewrite !to_bytes_Some by (unfold BLOCK_SIZE, U32_SIZE in *; lia).
    cbn [mbind option_bind]. rewrite Z.mul_0_r, Z.sub_0_r, <- Hl, cut_front by (unfold blen; lia).
    unfold blen. by rewrite Nat2Z.id, firstn_all.
  - unfold bw_bytes. by rewrite take_drop.
Qed.

Section correct.
Context `{MemoryLaws}.

Lemma with_capacity_ok n :
  0 ≤ n → BLOCK_SIZE * n < U32_SIZE →
  ∃ w, with_capacity n = Some w ∧ bw_ok w ∧ bw_bytes w = [] ∧ capacity (bw_buf w) = n.
Proof.
  intros Hz Hn. unfold with_capacity, storage_zeroed. rewrite to_bytes_Some by done. simpl.
  eexists. split; [done|]. split; [|done]. unfold bw_ok, BLOCK_SIZE in *. simpl.
  rewrite uninit_length by lia. lia.
Qed.

Lemma ensure_capacity_fits s n :
  n ≤ capacity s → ensure_capacity s n = Some s.
Proof. intros. unfold ensure_capacity. by rewrite (proj2 (Z.leb_le _ _)). Qed.

(** A write into the capacity appends. *)
Lemma bw_write_fits w data :
  bw_ok w → bw_size w + blen data ≤ BLOCK_SIZE * capacity (bw_buf w) →
  ∃ w', bw_write w data = Some w' ∧ bw_ok w' ∧ bw_bytes w' = bw_bytes w ++ data ∧
    capacity (bw_buf w') = capacity (bw_buf w) ∧
    stg (bw_buf w') = copy_to (stg (bw_buf w)) (bw_size w) data.
Proof.
  intros (Hc & Hm & Hl & Hs) Hd. pose proof (blen_nonneg data). unfold bw_write.
  rewrite u32_add_Some by lia. cbn [mbind option_bind].
  pose proof (round_up_bounds (bw_size w + blen data)) as Hr.
  rewrite ensure_capacity_fits by (unfold BLOCK_SIZE in *; lia). cbn [mbind option_bind].
  eexists. split; [done|]. unfold bw_ok, bw_bytes, copy_to. simpl.
  assert (blen (take (Z.to_nat (bw_size w)) (stg (bw_buf w))) = bw_size w)
    by (unfold blen in *; rewrite length_take; lia).
  split_and!; try done.
  - rewrite !blen_app. unfold blen in *. rewrite length_drop. lia.
  - lia.
  - rewrite app_assoc, take_app_length'; [done|]. rewrite length_app. unfold blen in *. lia.
Qed.

(** Several writes into the capacity *)
Lemma bw_writes_fit w slices :
  bw_ok w → bw_size w + blen (concat slices) ≤ BLOCK_SIZE * capacity (bw_buf w) →
  ∃ w', foldl (λ b d, b ← b; bw_write b d) (Some w) slices = Some w' ∧ bw_ok w' ∧
    bw_bytes w' = bw_bytes w ++ concat slices ∧ capacity (bw_buf w') = capacity (bw_buf w).
Proof.
  revert w. induction slices as [|d ds IH]; intros w Hok Hr.
  - exists w. simpl. by rewrite app_nil_r.
  - simpl in Hr. rewrite blen_app in Hr. pose proof (blen_nonneg (concat ds)).
    destruct (bw_write_fits w d Hok) as (w1 & Hw & Hok1 & Hb1 & Hc1 & _); [lia|].
    assert (bw_size w1 = bw_size w + blen d) as Hs1.
    { rewrite <- (bw_bytes_length w1), Hb1, blen_app, bw_bytes_length by done. done. }
    destruct (IH w1 Hok1) as (w' & Hf & Hok' & Hb' & Hc'); [rewrite Hs1, Hc1; lia|].
    exists w'. simpl. rewrite Hw. split_and!; [done|done| |congruence]. by rewrite Hb', Hb1, <- app_assoc.
Qed.

(** Up to 16 MiB the rounding of the growth is exact. *)
Lemma ensure_capacity_ok w n :
  bw_ok w → BLOCK_SIZE * capacity (bw_buf w) < 2 ^ 24 → BLOCK_SIZE * n < 2 ^ 24 →
  ∃ s, ensure_capacity (bw_buf w) n = Some s ∧ ensure_capacity s n = Some s ∧
    n ≤ capacity s ∧ capacity (bw_buf w) ≤ capacity s ∧ BLOCK_SIZE * capacity s < 2 ^ 24 ∧
    bw_ok {| bw_buf := s; bw_size := bw_size w |} ∧
    bw_bytes {| bw_buf := s; bw_size := bw_size w |} = bw_bytes w.
Proof.
  intros Hok Hc Hn. pose proof Hok as (Hc0 & Hm & Hl & Hs).
  destruct (decide (n ≤ capacity (bw_buf w))) as [Hle|Hgt].
  { exists (bw_buf w). rewrite ensure_capacity_fits by done. split_and!; try done. }
  unfold ensure_capacity at 1. destruct (Z.leb_spec n (capacity (bw_buf w))); [lia|].
  rewrite to_bytes_Some by done. cbn [mbind option_bind].
  rewrite u32_add_Some by (unfold MIN_GROWTH_SIZE, BLOCK_SIZE, U32_SIZE in *; lia).
  cbn [mbind option_bind]. unfold f32_round. rewrite (proj2 (Z.ltb_lt _ _)) by done.
  assert (Block.round_up_from_bytes (BLOCK_SIZE * capacity (bw_buf w)) = capacity (bw_buf w)) as ->.
  { pose proof (round_up_bounds (BLOCK_SIZE * capacity (bw_buf w))). unfold BLOCK_SIZE in *. lia. }
  replace (Z.max (Z.max n (capacity (bw_buf w))) (capacity (bw_buf w) + MIN_GROWTH_SIZE)) with n
    by (unfold MIN_GROWTH_SIZE; lia).
  rewrite to_bytes_Some by (unfold U32_SIZE; lia). cbn [mbind option_bind].
  eexists. split; [done|]. unfold bw_ok, bw_bytes. simpl.
  rewrite ensure_capacity_fits, blen_app, uninit_length by (simpl; unfold BLOCK_SIZE in *; lia).
  split_and!; try done; try (unfold U32_SIZE, BLOCK_SIZE in *; lia).
  apply take_app_le. unfold blen in *. lia.
Qed.

Lemma bw_write_grows w data :
  bw_ok w → BLOCK_SIZE * capacity (bw_buf w) < 2 ^ 24 → bw_size w + blen data < 2 ^ 24 - BLOCK_SIZE →
  ∃ w', bw_write w data = Some w' ∧ bw_ok w' ∧ bw_bytes w' = bw_bytes w ++ data ∧
    capacity (bw_buf w) ≤ capacity (bw_buf w') ∧ BLOCK_SIZE * capacity (bw_buf w') < 2 ^ 24.
Proof.
  intros Hok Hc Hd. pose proof Hok as (_ & _ & _ & Hs). pose proof (blen_nonneg data).
  pose proof (round_up_bounds (bw_size w + blen data)) as Hr.
  set (n := Block.round_up_from_bytes (bw_size w + blen data)) in *.
  destruct (ensure_capacity_ok w n Hok Hc) as (s & E & E2 & Hn & Hcs & Hmax & Hok2 & Hb2);
    [unfold BLOCK_SIZE in *; lia|].
  set (w2 := {| bw_buf := s; bw_size := bw_size w |}) in *.
  destruct (bw_write_fits w2 data Hok2) as (w' & Hw & Hok' & Hb' & Hc' & _);
    [simpl; unfold BLOCK_SIZE in *; lia|].
  exists w'. rewrite Hb', Hb2, Hc'. split_and!; try done.
  rewrite <- Hw. unfold bw_write. simpl bw_size. simpl bw_buf.
  rewrite u32_add_Some by (unfold U32_SIZE, BLOCK_SIZE in *; lia). cbn [mbind option_bind].
  fold n. by rewrite E, E2.
Qed.

(** Several writes, which let the buffer grow *)
Lemma bw_writes_grow w slices :
  bw_ok w → BLOCK_SIZE * capacity (bw_buf w) < 2 ^ 24 → bw_size w + blen (concat slices) < 2 ^ 24 - BLOCK_SIZE →
  ∃ w', foldl (λ b d, b ← b; bw_write b d) (Some w) slices = Some w' ∧ bw_ok w' ∧
    bw_bytes w' = bw_bytes w ++ concat slices ∧ capacity (bw_buf w) ≤ capacity (bw_buf w') ∧
    BLOCK_SIZE * capacity (bw_buf w') < 2 ^ 24.
Proof.
  revert w. induction slices as [|d ds IH]; intros w Hok Hc Hr.
  - exists w. simpl. rewrite app_nil_r. split_and!; [done|done|done|lia|done].
  - simpl in Hr. rewrite blen_app in Hr. pose proof (blen_nonneg (concat ds)).
    destruct (bw_write_grows w d Hok Hc) as (w1 & Hw & Hok1 & Hb1 & Hc1 & Hm1); [lia|].
    assert (bw_size w1 = bw_size w + blen d) as Hs1.
    { rewrite <- (bw_bytes_length w1), Hb1, blen_app, bw_bytes_length by done. done. }
    destruct (IH w1 Hok1 Hm1) as (w' & Hf & Hok' & Hb' & Hc' & Hm'); [rewrite Hs1; lia|].
    exists w'. simpl. rewrite Hw. split_and!; [done|done| |lia|done]. by rewrite Hb', Hb1, <- app_assoc.
Qed.

(** A write to a buffer appends its data, growing the buffer where its
    capacity does not suffice; it does not panic for buffers below 16 MiB, and
    the memory keeps the length that the capacity says. *)
Theorem buffer_write_appends w data :
  bw_ok w → BLOCK_SIZE * capacity (bw_buf w) < 2 ^ 24 → bw_size w + blen data < 2 ^ 24 - BLOCK_SIZE →
  ∃ w', bw_write w data = Some w' ∧ bw_ok w' ∧
    bw_as_ref w' = Some (bw_bytes w ++ data) ∧ capacity (bw_buf w) ≤ capacity (bw_buf w').
Proof.
  intros Hok Hc Hd. destruct (bw_write_grows w data Hok Hc Hd) as (w' & Hw & Hok' & Hb' & Hc' & _).
  exists w'. rewrite bw_as_ref_ok, Hb' by done. done.
Qed.

End correct.

(** The two halves of a buffer are its bytes. *)
Lemma split_at_spec b mid bs :
  buf_ok b → 0 ≤ mid → range_start b + mid < U32_SIZE → buf_as_ref b = Some bs →
  ∃ l r bl br, split_at b mid = Some (l, r) ∧ buf_ok l ∧ buf_ok r ∧
    buf_as_ref l = Some bl ∧ buf_as_ref r = Some br ∧ bs = bl ++ br ∧
    blen bl = BLOCK_SIZE * Z.min mid (range_end b - range_start b).
Proof.
  intros ([H0 Hse] & Hlen & Hmax) Hm Hov. unfold buf_as_ref.
  assert (∀ x, 0 ≤ x ≤ range_end b → Block.to_bytes U32_SIZE x = Some (BLOCK_SIZE * x)) as Hb.
  { intros x Hx. apply to_bytes_Some. unfold BLOCK_SIZE in *. lia. }
  rewrite !Hb by lia. cbn [mbind option_bind]. intros Hc.
  apply cut_Some in Hc as (_ & _ & _ & -> & _).
  unfold split_at, split_range_at. rewrite u32_add_Some by lia. cbn [mbind option_bind].
  set (s := range_start b) in *. set (e := range_end b) in *. set (src := buf_source b) in *.
  assert (∀ x y, 0 ≤ x → x ≤ y → y ≤ e →
    cut src (BLOCK_SIZE * x) (BLOCK_SIZE * y - BLOCK_SIZE * x) =
    Some (take (Z.to_nat (BLOCK_SIZE * y - BLOCK_SIZE * x)) (drop (Z.to_nat (BLOCK_SIZE * x)) src))) as Hcut.
  { intros x y Hx Hxy Hy. unfold cut, BLOCK_SIZE in *.
    rewrite (proj2 (Z.leb_le 0 (4096 * x))), (proj2 (Z.leb_le 0 (4096 * y - 4096 * x))),
      (proj2 (Z.leb_le (4096 * x + (4096 * y - 4096 * x)) (blen src))) by lia. done. }
  set (m := if s + mid <? e then s + mid else e).
  assert (s ≤ m ≤ e ∧ m = Z.min (s + mid) e) as [Hme Em].
  { unfold m. destruct (Z.ltb_spec (s + mid) e); lia. }
  replace (if s + mid <? e then (s, s + mid, (s + mid, e)) else (s, e, (e, e)))
    with (s, m, (m, e)) by (unfold m; by destruct (s + mid <? e)).
  cbn [mbind option_bind]. eexists _, _, _, _. split; [done|].
  unfold buf_ok. cbn [range_start range_end buf_source]. rewrite !Hb by lia. cbn [mbind option_bind].
  rewrite !Hcut by lia. split_and!; try done; try (unfold BLOCK_SIZE in *; lia).
  - replace (Z.to_nat (BLOCK_SIZE * e - BLOCK_SIZE * s)) with
      (Z.to_nat (BLOCK_SIZE * m - BLOCK_SIZE * s) + Z.to_nat (BLOCK_SIZE * e - BLOCK_SIZE * m))%nat
      by (unfold BLOCK_SIZE in *; lia).
    rewrite <- take_take_drop, drop_drop. do 3 f_equal. unfold BLOCK_SIZE in *. lia.
  - unfold blen, BLOCK_SIZE in *. rewrite length_take, length_drop. lia.
Qed.

(** A padded buffer holds the bytes and zeroes up to a whole block. *)
Theorem zero_padded_holds b :
  BLOCK_SIZE * Block.round_up_from_bytes (blen b) < U32_SIZE →
  buf_ok (from_zero_padded b) ∧
  ∃ n, buf_as_ref (from_zero_padded b) = Some (b ++ replicate n zero) ∧
    (length b + n = Z.to_nat (BLOCK_SIZE * Block.round_up_from_bytes (blen b)))%nat.
Proof.
  intros Hm. pose proof (round_up_bounds (blen b)) as Hr. pose proof (blen_nonneg b).
  set (p := Block.round_up_from_bytes (blen b)) in *.
  assert (blen (b ++ replicate (Z.to_nat (BLOCK_SIZE * p - blen b)) zero) = BLOCK_SIZE * p) as Hl.
  { unfold blen in *. rewrite length_app, length_replicate. lia. }
  assert (0 ≤ p) by (unfold BLOCK_SIZE in *; lia).
  split.
  { unfold buf_ok, from_zero_padded. simpl. fold p. rewrite Hl. lia. }
  exists (Z.to_nat (BLOCK_SIZE * p - blen b)). split; [|unfold blen in *; lia].
  unfold buf_as_ref, from_zero_padded. cbn [range_start range_end buf_source]. fold p.
  rewrite !to_bytes_Some by (unfold BLOCK_SIZE, U32_SIZE in *; lia). cbn [mbind option_bind].
  rewrite Z.mul_0_r, Z.sub_0_r.
  apply (cut_at _ [] _ []); [by rewrite app_nil_r|done|done].
Qed.
