(* ===== verification/Compression.v ===== *)
(** * Compression

    [compression/mod.rs], [none.rs] and [zstd.rs].  The encoder and decoder
    of the zstd library are parameters; what they write goes into a buffer
    after the length of the data.  [lz4.rs] is not compiled. *)

From Stdlib Require Import ZArith Lia.
From stdpp Require Import base option list numbers.
From S2P Require Import Prelude.
From S2P Require Import Bytes.
From S2P Require Import Disk.
From S2P Require Import Buffer.

Inductive CompressionConfiguration := CompNone | CompZstd (level : Z).

Inductive DecompressionTag := TagNone | TagLz4 | TagZstd.

(** [decompression_tag] of the builders *)
Definition decompression_tag (c : CompressionConfiguration) : DecompressionTag :=
  match c with CompNone => TagNone | CompZstd _ => TagZstd end.

(** The zstd library: the bound it gives for the length of a frame, the frame
    of some data, and the data of the frame at the front of a buffer. *)
Class Zstd := {
  compress_bound : Z → Z;
  encode_frame : Z → bytes → bytes;
  decode_frame : bytes → option bytes;
}.

(** The bound is at least the length of the data; the decoder stops at the end
    of the frame. *)
Class ZstdLaws `{Zstd} := {
  compress_bound_ge n : 0 ≤ n → n ≤ compress_bound n;
  decode_encode l d rest : decode_frame (encode_frame l d ++ rest) = Some d;
}.

Definition DATA_OFF : Z := 4.

Section compression.
Context `{Zstd} `{Memory}.

(** [OutBuffer] over a [BufWrite]: what the encoder writes from [pos] on, and
    [filled_until].  Without room for it the loop around [flush] does not
    end. *)
Definition out_write (w : BufWrite) (pos : Z) (data : bytes) : option BufWrite :=
  cap ← Block.to_bytes U32_SIZE (capacity (bw_buf w));
  assert! (pos + blen data <=? cap);
  Some {| bw_buf := {| stg := copy_to (stg (bw_buf w)) pos data; capacity := capacity (bw_buf w) |};
          bw_size := pos + blen data |}.

(** [ZstdCompression::finish] *)
Definition zstd_finish (level : Z) (data : bytes) : option Buf :=
  let size := compress_bound (blen data) in
  buf ← with_capacity (Block.round_up_from_bytes (wrap32 size));
  buf ← bw_write buf (replicate (Z.to_nat DATA_OFF) zero);
  buf ← out_write buf DATA_OFF (encode_frame level data);
  let og_len := wrap32 (blen data) in
  assert! (DATA_OFF <=? bw_size buf);
  Some (into_buf {| bw_buf := {| stg := copy_to (stg (bw_buf buf)) 0 (le32 og_len);
                                 capacity := capacity (bw_buf buf) |};
                    bw_size := bw_size buf |}).

(** The loop of [decompress]: as long as the buffer is full and the frame is
    not at its end, one byte is appended, for which the buffer grows. *)
Fixpoint decode_into (fuel : nat) (w : BufWrite) (d : bytes) : option BufWrite :=
  cap ← Block.to_bytes U32_SIZE (capacity (bw_buf w));
  if blen d <=? cap then out_write w 0 d
  else
    match fuel with
    | O => None
    | S fuel =>
        w ← out_write w 0 (take (Z.to_nat cap) d);
        w ← bw_write w [zero];
        decode_into fuel w d
    end.

(** [ZstdDecompression::decompress]: an error of the decoder is [inr tt]. *)
Definition zstd_decompress (data : bytes) : option (Buf + unit) :=
  header ← cut data 0 DATA_OFF;
  let size := of_le header in
  buf ← with_capacity (Block.round_up_from_bytes size);
  match decode_frame (drop (Z.to_nat DATA_OFF) data) with
  | None => Some (inr tt)
  | Some d => buf ← decode_into (length d) buf d; Some (inl (into_buf buf))
  end.

(** [NoneCompression::finish] and the builder that the configuration
    selects *)
Definition compress (c : CompressionConfiguration) (data : Buf) : option Buf :=
  match c with
  | CompNone => Some data
  | CompZstd level => d ← buf_as_ref data; zstd_finish level d
  end.

(** [NoneDecompression::decompress] and [new_decompression] *)
Definition decompress (t : DecompressionTag) (data : Buf) : option (Buf + unit) :=
  match t with
  | TagNone => Some (inl data)
  | TagLz4 => None
  | TagZstd => d ← buf_as_ref data; zstd_decompress d
  end.

End compression.

(** ** Correctness *)

Lemma out_write_fits `{Memory} w pos data :
  BLOCK_SIZE * capacity (bw_buf w) < U32_SIZE →
  pos + blen data ≤ BLOCK_SIZE * capacity (bw_buf w) →
  out_write w pos data = Some
    {| bw_buf := {| stg := copy_to (stg (bw_buf w)) pos data; capacity := capacity (bw_buf w) |};
       bw_size := pos + blen data |}.
Proof.
  intros Hc Hr. unfold out_write. rewrite to_bytes_Some by done. cbn [mbind option_bind].
  by rewrite (proj2 (Z.leb_le _ _)).
Qed.

(** Copying the header, the frame, and the header again. *)
Lemma copy_header (m h1 h2 f : bytes) :
  length h1 = 4%nat → length h2 = 4%nat → (4 + length f ≤ length m)%nat →
  ∃ rest, copy_to (copy_to (copy_to m 0 h1) 4 f) 0 h2 = h2 ++ f ++ rest ∧
    length rest = (length m - (4 + length f))%nat.
Proof.
  intros H1 H2 Hm. exists (drop (4 + length f) m). rewrite length_drop. split; [|done].
  unfold copy_to. rewrite H1, H2. simpl.
  destruct h1 as [|a1 [|a2 [|a3 [|a4 [|]]]]]; try done. simpl. f_equal. f_equal.
  unfold drop. by destruct m as [|? [|? [|? [|? m]]]]; simpl in *; try lia.
Qed.

Section correct.
Context `{ZstdLaws} `{MemoryLaws}.

(** The buffer that [finish] returns: the length, the frame, and what the
    memory held behind them. *)
Lemma zstd_finish_ok level d :
  blen d < U32_SIZE →
  BLOCK_SIZE * Block.round_up_from_bytes (compress_bound (blen d)) < U32_SIZE →
  DATA_OFF + blen (encode_frame level d) ≤
    BLOCK_SIZE * Block.round_up_from_bytes (compress_bound (blen d)) →
  ∃ b rest, zstd_finish level d = Some b ∧
    buf_as_ref b = Some (le32 (blen d) ++ encode_frame level d ++ rest) ∧
    blen (le32 (blen d) ++ encode_frame level d ++ rest) =
      BLOCK_SIZE * Block.round_up_from_bytes (compress_bound (blen d)).
Proof.
  intros Hd Hc Hf. set (cap := Block.round_up_from_bytes (compress_bound (blen d))) in *.
  pose proof (blen_nonneg d) as Hd0. pose proof (compress_bound_ge (blen d) Hd0) as Hb.
  pose proof (round_up_bounds (compress_bound (blen d))) as Hr. fold cap in Hr.
  pose proof (blen_nonneg (encode_frame level d)) as Hf0.
  unfold zstd_finish, wrap32.
  rewrite !Z.mod_small by (unfold U32_SIZE in *; lia). fold cap.
  unfold DATA_OFF in *.
  destruct (with_capacity_ok cap) as (w & -> & Hok & Hbs & Hcap);
    [unfold BLOCK_SIZE in *; lia|done|]. cbn [mbind option_bind].
  assert (bw_size w = 0) as Hz by (rewrite <- bw_bytes_length, Hbs by done; done).
  destruct (bw_write_fits w (replicate (Z.to_nat 4) zero)) as (w1 & -> & Hok1 & _ & Hcap1 & Hs1);
    [done|rewrite Hz, Hcap; unfold blen; simpl; lia|]. cbn [mbind option_bind].
  rewrite out_write_fits by (rewrite Hcap1, Hcap; done). cbn [mbind option_bind bw_size bw_buf stg capacity].
  rewrite (proj2 (Z.leb_le _ _)) by lia. cbn [mbind option_bind].
  rewrite Hcap1, Hcap, Hs1, Hz.
  destruct Hok as (_ & _ & Hlen & _). rewrite Hcap in Hlen.
  destruct (copy_header (stg (bw_buf w)) (replicate (Z.to_nat 4) zero) (le32 (blen d))
              (encode_frame level d)) as (rest & -> & Hrest);
    [done|apply length_le32|unfold blen in *; lia|].
  assert (blen (le32 (blen d) ++ encode_frame level d ++ rest) = BLOCK_SIZE * cap) as Htot.
  { rewrite !blen_app, blen_le32. unfold blen in *. lia. }
  do 2 eexists. split; [done|]. split; [|done].
  unfold buf_as_ref, into_buf. cbn [range_start range_end buf_source bw_buf stg capacity].
  rewrite !to_bytes_Some by (unfold BLOCK_SIZE, U32_SIZE in *; lia). cbn [mbind option_bind].
  rewrite Z.mul_0_r, Z.sub_0_r, <- Htot, cut_front by (unfold blen; lia).
  unfold blen. by rewrite Nat2Z.id, firstn_all.
Qed.

(** Decoding data of as many bytes as the header says. *)
Lemma zstd_decompress_ok d data :
  BLOCK_SIZE * Block.round_up_from_bytes (blen d) = blen d → blen d < U32_SIZE →
  decode_frame data = Some d →
  ∃ b, zstd_decompress (le32 (blen d) ++ data) = Some (inl b) ∧ buf_as_ref b = Some d.
Proof.
  intros Hm Hd Hdec. pose proof (blen_nonneg d) as Hd0. unfold zstd_decompress, DATA_OFF.
  rewrite (cut_front _ 4) by (rewrite blen_app, blen_le32; pose proof (blen_nonneg data); lia).
  change (Z.to_nat 4) with 4%nat. rewrite (take_app_length' (le32 (blen d))) by (by rewrite length_le32). cbn [mbind option_bind].
  rewrite (drop_app_length' (le32 (blen d))), Hdec by (by rewrite length_le32).
  rewrite of_le_le32 by (unfold U32_SIZE in *; lia).
  set (cap := Block.round_up_from_bytes (blen d)) in *.
  destruct (with_capacity_ok cap) as (w & -> & (_ & _ & Hlen & _) & _ & Hcap);
    [unfold BLOCK_SIZE in *; lia|lia|]. cbn [mbind option_bind]. rewrite Hcap in Hlen.
  assert (decode_into (length d) w d = out_write w 0 d) as ->.
  { destruct (length d); simpl; rewrite Hcap, to_bytes_Some by lia; cbn [mbind option_bind];
      by rewrite (proj2 (Z.leb_le _ _)) by lia. }
  rewrite out_write_fits by (rewrite Hcap; lia). cbn [mbind option_bind].
  eexists. split; [done|]. unfold buf_as_ref, into_buf.
  cbn [range_start range_end buf_source bw_buf stg capacity]. rewrite Hcap.
  rewrite !to_bytes_Some by (unfold BLOCK_SIZE, U32_SIZE in *; lia). cbn [mbind option_bind].
  rewrite Z.mul_0_r, Z.sub_0_r, Hm. unfold copy_to. simpl. apply (cut_app_mid []); done.
Qed.

(** The frame of the data fits into the buffer that [finish] makes. *)
Definition compressible (c : CompressionConfiguration) (d : bytes) : Prop :=
  match c with
  | CompNone => True
  | CompZstd level =>
      BLOCK_SIZE * Block.round_up_from_bytes (compress_bound (blen d)) < U32_SIZE ∧
      DATA_OFF + blen (encode_frame level d) ≤
        BLOCK_SIZE * Block.round_up_from_bytes (compress_bound (blen d))
  end.

Lemma compress_ok c data d :
  buf_ok data → buf_as_ref data = Some d → compressible c d →
  ∃ stored s n, compress c data = Some stored ∧ buf_as_ref stored = Some s ∧
    blen s = BLOCK_SIZE * n ∧ BLOCK_SIZE * n < U32_SIZE ∧ blen d ≤ blen s ∧
    ∀ b, buf_as_ref b = Some s →
      ∃ data', decompress (decompression_tag c) b = Some (inl data') ∧ buf_as_ref data' = Some d.
Proof.
  intros ([Hs0 Hse] & Hlen & Hmax) Hd Hc.
  assert (BLOCK_SIZE * Block.round_up_from_bytes (blen d) = blen d ∧ blen d < U32_SIZE) as [Hm Hdm].
  { unfold buf_as_ref in Hd. rewrite !to_bytes_Some in Hd by (unfold BLOCK_SIZE in *; lia).
    cbn [mbind option_bind] in Hd. apply cut_Some in Hd as (_ & _ & _ & _ & Hb).
    pose proof (round_up_bounds (blen d)). unfold BLOCK_SIZE, U32_SIZE in *. lia. }
  destruct c as [|level]; simpl.
  { exists data, d, (Block.round_up_from_bytes (blen d)). split_and!; try done; [lia|].
    intros b Hb. by exists b. }
  destruct Hc as [Hc Hf]. rewrite Hd. cbn [mbind option_bind].
  pose proof (blen_nonneg d) as Hd0. pose proof (compress_bound_ge (blen d) Hd0).
  pose proof (round_up_bounds (compress_bound (blen d))).
  destruct (zstd_finish_ok level d) as (b & rest & -> & Hb & Htot); [done..|].
  destruct (zstd_decompress_ok d (encode_frame level d ++ rest)) as (b' & Hdec & Hb');
    [done|done|apply decode_encode|].
  eexists b, _, _. split_and!; [done|exact Hb|exact Htot|done|lia|].
  intros b2 Hb2. rewrite Hb2. cbn [mbind option_bind]. by exists b'.
Qed.

(** C37: Compressed data decompresses to itself under the tag that is stored
    with it, and the result of a compression is never smaller than the data:
    [finish] returns the whole buffer, which has room for the bound that
    the library gives, and not the part of it that was written. *)
Theorem compression_roundtrip c data d :
  buf_ok data → buf_as_ref data = Some d → compressible c d →
  ∃ stored data' s, compress c data = Some stored ∧
    decompress (decompression_tag c) stored = Some (inl data') ∧ buf_as_ref data' = Some d ∧
    buf_as_ref stored = Some s ∧ blen d ≤ blen s.
Proof.
  intros Hok Hd Hc. destruct (compress_ok c data d Hok Hd Hc) as (st & s & n & Hst & Hs & _ & _ & Hle & Hdec).
  destruct (Hdec st Hs) as (data' & Hd' & Hr). by exists st, data', s.
Qed.

End correct.

(** ** An encoder that marks every byte *)
Module CompressionExamples.

#[local] Instance zeroes : Memory := {| uninit n := replicate (Z.to_nat n) zero |}.

#[local] Instance zeroed_memory : MemoryLaws.
Proof. constructor. intros. simpl. unfold blen. rewrite length_replicate. lia. Qed.

Fixpoint marked (d : bytes) : bytes :=
  match d with [] => [zero] | x :: d => Byte.x01 :: x :: marked d end.

Fixpoint unmarked (b : bytes) : option bytes :=
  match b with
  | m :: b =>
      if Byte.eqb m zero then Some []
      else match b with x :: b => d ← unmarked b; Some (x :: d) | [] => None end
  | [] => None
  end.

#[local] Instance marking : Zstd := {|
  compress_bound n := 2 * n + 1;
  encode_frame _ d := marked d;
  decode_frame := unmarked;
|}.

#[local] Instance marking_laws : ZstdLaws.
Proof.
  constructor; [simpl; lia|]. intros l d rest. simpl.
  induction d as [|x d IH]; [done|]. simpl. by rewrite IH.
Qed.

Definition letters : Buf := from_zero_padded [Byte.x68; Byte.x61].

Lemma compression_roundtrip_witness :
  ∃ stored data' s, compress (CompZstd 1) letters = Some stored ∧
    decompress TagZstd stored = Some (inl data') ∧ buf_as_ref data' = buf_as_ref letters ∧
    buf_as_ref stored = Some s ∧ 4096 ≤ blen s.
Proof.
  destruct (compression_roundtrip (CompZstd 1) letters (buf_source letters)) as (st & d' & s & H).
  - split_and!; vm_compute; congruence.
  - vm_compute. reflexivity.
  - split; vm_compute; congruence.
  - exists st, d', s. exact H.
Defined.

End CompressionExamples.
