(* ===== verification/Superblock.v ===== *)
(** * Superblocks

    [database/superblock.rs]: the block that names the root of the root tree.
    It is written, in turns, to the first and the second block of every
    disk, with a checksum in its last bytes, and the one with the newest
    generation is taken when a database is opened.

    A disk is its first two blocks.  The pointer is a type with a generation
    and a coding; errors of the devices are not modelled. *)

From Stdlib Require Import ZArith Lia.
From stdpp Require Import base option list numbers countable.
From S2P Require Import Prelude.
From S2P Require Import Bytes.
From S2P Require Import Checksum.
From S2P Require Import Disk.
From S2P Require Import RootKeys.
From S2P Require Import Handler.
From S2P Require Import Tree.
From S2P Require Import Dataset.
From S2P Require Import Buffer.

(** The bytes of the text HEAFSv3, a zero byte and a line feed. *)
Definition MAGIC : bytes :=
  [to_u8 72; to_u8 69; to_u8 65; to_u8 70; to_u8 83; to_u8 118; to_u8 51; to_u8 0; to_u8 10].

Record Superblock (P : Type) := mkSb { magic : bytes; root_ptr : P; tiers : list StorageInfo }.
Arguments mkSb {P} _ _ _.
Arguments magic {P} _.
Arguments root_ptr {P} _.
Arguments tiers {P} _.

(** The first two blocks of a disk. *)
Record RawDisk := { block0 : bytes; block1 : bytes }.

(** [read_raw(Block(1), offset)] and [write_raw(data, offset)] of the pool. *)
Definition read_raw (pool : list RawDisk) (offset : Z) : list bytes :=
  (λ d, if offset =? 0 then block0 d else block1 d) <$> pool.

Definition write_raw (pool : list RawDisk) (data : bytes) (offset : Z) : list RawDisk :=
  (λ d, if offset =? 0 then {| block0 := data; block1 := block1 d |}
        else {| block0 := block0 d; block1 := data |}) <$> pool.

Section superblock.
Context {P : Type} (generation : P → Z).
Context `{Checksum} `{!EqDecision csum} `{Memory} `{Bincode (Superblock P)}.

(** [checksum] *)
Definition sb_checksum (b : bytes) : csum := csum_build b.

(** [Superblock::unpack] *)
Definition sb_unpack (b : bytes) : option (Superblock P + DbError) :=
  n ← usub (blen b) CSUM_SIZE;
  pre ← cut b 0 n; suf ← cut b n CSUM_SIZE;
  let correct_checksum := sb_checksum pre in
  match csum_de suf with
  | None => Some (inr SerializationErr)
  | Some actual_checksum =>
      if negb (bool_decide (correct_checksum = actual_checksum)) then Some (inr InvalidSuperblock)
      else
        match deserialize b with
        | None => Some (inr SerializationErr)
        | Some this =>
            if negb (bool_decide (magic this = MAGIC)) then Some (inr InvalidSuperblock)
            else Some (inl this)
        end
  end.

(** [Superblock::pack] *)
Definition sb_pack (p : P) (ts : list StorageInfo) : option (Buf + DbError) :=
  data ← with_capacity 1;
  data ← bw_write data (serialize (mkSb MAGIC p ts));
  r ← bw_seek data (BufEnd (- CSUM_SIZE));
  match r with
  | inr _ => Some (inr SerializationErr)
  | inl data =>
      b ← bw_as_ref data;
      pre ← cut b 0 (BLOCK_SIZE - CSUM_SIZE);
      data ← bw_write data (csum_ser (sb_checksum pre));
      Some (inl (into_buf data))
  end.

(** [Self::unpack(..).ok()] *)
Definition sb_ok (b : bytes) : option (option (Superblock P)) :=
  r ← sb_unpack b; Some (match r with inl sb => Some sb | inr _ => None end).

(** [filter_map], then [max_by_key]: the last of the largest. *)
Fixpoint newest (sbs : list (option (Superblock P))) (acc : option (Superblock P)) :
    option (Superblock P) :=
  match sbs with
  | [] => acc
  | None :: sbs => newest sbs acc
  | Some sb :: sbs =>
      newest sbs (match acc with
                  | None => Some sb
                  | Some best =>
                      if generation (root_ptr best) <=? generation (root_ptr sb) then Some sb else acc
                  end)
  end.

(** [fetch_superblocks] *)
Definition fetch_superblocks (pool : list RawDisk) : option (option (Superblock P)) :=
  sbs ← mapM sb_ok (read_raw pool 0 ++ read_raw pool 1);
  Some (newest sbs None).

(** [write_superblock] *)
Definition write_superblock (pool : list RawDisk) (p : P) (ts : list StorageInfo) :
    option (list RawDisk + DbError) :=
  r ← sb_pack p ts;
  match r with
  | inr e => Some (inr e)
  | inl buf =>
      let sb_offset := if Z.land (generation p) 1 =? 0 then 0 else 1 in
      data ← buf_as_ref buf;
      Some (inl (write_raw pool data sb_offset))
  end.

(** [clear_superblock] *)
Definition clear_superblock (pool : list RawDisk) : option (list RawDisk) :=
  empty_data ← buf_zeroed 1;
  data ← buf_as_ref empty_data;
  Some (write_raw (write_raw pool data 0) data 1).

End superblock.

(** ** Packing *)

(** A one-block buffer that is written, and then sealed in its last bytes. *)
Lemma sealed_block `{MemoryLaws} d :
  blen d ≤ BLOCK_SIZE - CSUM_SIZE →
  ∃ w0 w1 w2 pre, with_capacity 1 = Some w0 ∧ bw_write w0 d = Some w1 ∧
    bw_seek w1 (BufEnd (- CSUM_SIZE)) = Some (inl w2) ∧ bw_as_ref w2 = Some pre ∧
    blen pre = BLOCK_SIZE - CSUM_SIZE ∧ (∃ tail, pre = d ++ tail) ∧
    ∀ c, blen c = CSUM_SIZE → ∃ w3, bw_write w2 c = Some w3 ∧
      buf_as_ref (into_buf w3) = Some (pre ++ c).
Proof.
  intros Hlen. pose proof (blen_nonneg d).
  destruct (with_capacity_ok 1) as (w0 & E0 & Hok0 & Hb0 & Hc0); [lia|done|].
  assert (bw_size w0 = 0) as Hs0 by (rewrite <- (bw_bytes_length w0 Hok0), Hb0; done).
  destruct (bw_write_fits w0 d Hok0) as (w1 & E1 & Hok1 & Hb1 & Hc1 & _);
    [rewrite Hs0, Hc0; unfold CSUM_SIZE in *; lia|].
  rewrite Hb0 in Hb1. rewrite Hc0 in Hc1.
  set (w2 := {| bw_buf := bw_buf w1; bw_size := BLOCK_SIZE - CSUM_SIZE |}).
  pose proof Hok1 as (_ & _ & Hl1 & Hs1). rewrite Hc1 in Hl1, Hs1.
  assert (bw_ok w2) as Hok2.
  { unfold w2, bw_ok. cbn [bw_buf bw_size]. rewrite Hc1. split_and!; done || (rewrite Hl1; lia). }
  exists w0, w1, w2, (bw_bytes w2). split_and!; try done.
  - unfold bw_seek. rewrite Hc1. by vm_compute.
  - by apply bw_as_ref_ok.
  - by rewrite bw_bytes_length.
  - exists (drop (Z.to_nat (bw_size w1)) (bw_bytes w2)).
    assert (bw_size w1 = blen d) as Hsz by (by rewrite <- (bw_bytes_length w1 Hok1), Hb1).
    rewrite <- (take_drop (Z.to_nat (bw_size w1)) (bw_bytes w2)) at 1. f_equal.
    rewrite <- Hb1 at 1. unfold bw_bytes. cbn [bw_buf bw_size w2].
    rewrite take_take. f_equal. lia.
  - intros c Hc. destruct (bw_write_fits w2 c Hok2) as (w3 & E3 & Hok3 & Hb3 & Hc3 & _).
    { cbn [bw_buf bw_size w2]. rewrite Hc, Hc1. by vm_compute. }
    exists w3. split; [done|]. cbn [bw_buf w2] in Hc3. rewrite Hc1 in Hc3.
    unfold buf_as_ref, into_buf. cbn [range_start range_end buf_source]. rewrite Hc3.
    rewrite !to_bytes_Some by done. cbn [mbind option_bind]. rewrite <- Hb3.
    pose proof Hok3 as (_ & _ & Hl3 & _). rewrite Hc3 in Hl3.
    pose proof (bw_bytes_length w3 Hok3) as Hl3'. rewrite Hb3, blen_app, bw_bytes_length, Hc in Hl3' by done.
    cbn [bw_size w2] in Hl3'. unfold bw_bytes. rewrite cut_front by (rewrite Hl3; vm_compute; by split).
    f_equal. f_equal. rewrite <- Hl3'. by vm_compute.
Qed.

Section correct.
Context {P : Type} (generation : P → Z).
Context `{ChecksumLaws} `{!EqDecision csum} `{MemoryLaws} `{BincodeLaws (Superblock P)}.

Lemma sb_pack_spec p ts :
  blen (serialize (mkSb MAGIC p ts)) ≤ BLOCK_SIZE - CSUM_SIZE →
  ∃ buf b, sb_pack p ts = Some (inl buf) ∧ buf_as_ref buf = Some b ∧ blen b = BLOCK_SIZE ∧
    sb_unpack b = Some (inl (mkSb MAGIC p ts)).
Proof.
  intros Hlen.
  destruct (sealed_block _ Hlen) as (w0 & w1 & w2 & pre & E0 & E1 & E2 & E3 & Hl & [tail Ht] & Hc).
  set (cs := sb_checksum pre). pose proof (csum_ser_length cs) as Hcs.
  destruct (Hc (csum_ser cs) Hcs) as (w3 & E4 & Hb).
  exists (into_buf w3), (pre ++ csum_ser cs). split_and!.
  - unfold sb_pack. rewrite E0. cbn [mbind option_bind]. rewrite E1. cbn [mbind option_bind].
    rewrite E2. cbn [mbind option_bind]. rewrite E3. cbn [mbind option_bind].
    rewrite cut_front by (rewrite Hl; by vm_compute). cbn [mbind option_bind].
    rewrite take_ge by (unfold blen in Hl; lia). fold cs. by rewrite E4.
  - done.
  - rewrite blen_app, Hl, Hcs. by vm_compute.
  - unfold sb_unpack. rewrite blen_app, Hcs, usub_Some by (pose proof (blen_nonneg pre); lia).
    cbn [mbind option_bind]. replace (blen pre + CSUM_SIZE - CSUM_SIZE) with (blen pre) by lia.
    rewrite (cut_at (pre ++ csum_ser cs) [] pre (csum_ser cs) 0 (blen pre)) by done. cbn [mbind option_bind].
    rewrite (cut_at _ pre (csum_ser cs) []) by (rewrite ?app_nil_r; congruence).
    cbn [mbind option_bind]. rewrite csum_de_ser, bool_decide_true by done. simpl.
    rewrite Ht, <- app_assoc, deserialize_serialize. by rewrite bool_decide_true.
Qed.

(** ** Fetching *)

Local Abbreviation gen sb := (generation (root_ptr sb)).

Lemma newest_max sb sbs acc :
  (∀ x, Some x ∈ sbs ∨ acc = Some x → gen x < gen sb ∨ x = sb) →
  (Some sb ∈ sbs ∨ acc = Some sb) → newest generation sbs acc = Some sb.
Proof.
  revert acc. induction sbs as [|[x|] sbs IH]; intros acc Hle Hin; cbn [newest].
  - destruct Hin as [?%elem_of_nil|?]; done.
  - apply IH.
    + intros y [Hy|Hy]; [apply Hle; left; by right|]. destruct acc as [best|].
      * destruct (Z.leb_spec (gen best) (gen x)); [|auto].
        injection Hy as <-. apply Hle. left. left.
      * injection Hy as <-. apply Hle. left. left.
    + destruct Hin as [[E|Hin]%elem_of_cons| ->]; [|by left|].
      * injection E as <-. right. destruct acc as [best|]; [|done].
        destruct (Z.leb_spec (gen best) (gen sb)); [done|].
        destruct (Hle best (or_intror eq_refl)) as [?| ->]; [lia|done].
      * right. destruct (Z.leb_spec (gen sb) (gen x)); [|done].
        destruct (Hle x) as [?| ->]; [left; left|lia|done].
  - apply IH.
    + intros y [Hy|Hy]; apply Hle; [left; by right|by right].
    + destruct Hin as [[E|?]%elem_of_cons|?]; [done|by left|by right].
Qed.

(** Block [b] reads as superblock [r], or as none. *)
Definition reads (b : bytes) (r : option (Superblock P)) : Prop := sb_ok b = Some r.

Definition slot (d : RawDisk) (i : bool) : bytes := if i then block1 d else block0 d.

Lemma fetch_spec pool rs :
  Forall2 reads (read_raw pool 0 ++ read_raw pool 1) rs →
  fetch_superblocks generation pool = Some (newest generation rs None).
Proof. intros Hr. unfold fetch_superblocks. by rewrite (proj2 (mapM_Some _ _ _) Hr). Qed.

Lemma elem_of_blocks pool b :
  b ∈ read_raw pool 0 ++ read_raw pool 1 ↔ ∃ d i, d ∈ pool ∧ b = slot d i.
Proof.
  unfold read_raw. rewrite elem_of_app, !list_elem_of_fmap. simpl. split.
  - intros [(d & -> & ?)|(d & -> & ?)]; [by exists d, false|by exists d, true].
  - intros (d & [] & ? & ->); [right|left]; by exists d.
Qed.

(** Every readable block is [old], [new], or older than [old]; if [old] is
    there, [old] or [new] is fetched, and [new] if it is there. *)
Lemma fetch_old_or_new pool old new :
  gen old < gen new →
  (∀ b, b ∈ read_raw pool 0 ++ read_raw pool 1 →
    ∃ r, reads b r ∧ ∀ x, r = Some x → x = old ∨ x = new ∨ gen x < gen old) →
  (∃ b, b ∈ read_raw pool 0 ++ read_raw pool 1 ∧ reads b (Some old)) →
  (fetch_superblocks generation pool = Some (Some old) ∨
   fetch_superblocks generation pool = Some (Some new)) ∧
  ((∃ b, b ∈ read_raw pool 0 ++ read_raw pool 1 ∧ reads b (Some new)) →
   fetch_superblocks generation pool = Some (Some new)).
Proof.
  intros Hlt Hall Hold. set (bs := read_raw pool 0 ++ read_raw pool 1) in *.
  assert (∃ rs, Forall2 reads bs rs) as [rs Hrs].
  { clear Hold. induction bs as [|b bs IH]; [by exists []|].
    destruct (Hall b ltac:(left)) as (r & Hr & _). destruct IH as [rs ?].
    - intros b' Hb'. apply Hall. by right.
    - exists (r :: rs). by constructor. }
  rewrite (fetch_spec pool rs Hrs).
  assert (∀ x, Some x ∈ rs → x = old ∨ x = new ∨ gen x < gen old) as Hx.
  { intros x Hin. apply list_elem_of_lookup in Hin as [i Hi].
    destruct (Forall2_lookup_r _ _ _ _ _ Hrs Hi) as (b & Hb & Hr).
    destruct (Hall b ltac:(by eapply list_elem_of_lookup_2)) as (r & Hr' & Hx).
    unfold reads in *. rewrite Hr in Hr'. injection Hr' as <-. by apply Hx. }
  assert (∀ x, (∃ b, b ∈ bs ∧ reads b (Some x)) → Some x ∈ rs) as Hthere.
  { intros x (b & Hb & Hr). apply list_elem_of_lookup in Hb as [i Hi].
    destruct (Forall2_lookup_l _ _ _ _ _ Hrs Hi) as (r & Hri & Hr').
    unfold reads in *. rewrite Hr in Hr'. injection Hr' as <-. by eapply list_elem_of_lookup_2. }
  apply Hthere in Hold.
  assert (Some new ∈ rs → newest generation rs None = Some new) as Hnew.
  { intros Hin. apply newest_max; [|by left]. intros x [[->|[->|?]]%Hx|?]; [left; lia|by right|left; lia|done]. }
  split; [|intros Hb; f_equal; auto].
  destruct (decide (Exists (λ r, (λ x, gen x) <$> r = Some (gen new)) rs))
    as [(r & Hin & Hr)%Exists_exists|Hno].
  - destruct r as [x|]; [|done]. injection Hr as Hr. right. f_equal. apply Hnew.
    destruct (Hx x Hin) as [->|[->|?]]; [lia|done|lia].
  - left. f_equal. apply newest_max; [|by left]. intros x [Hin|?]; [|done].
    destruct (Hx x Hin) as [->|[->|?]]; [by right| |by left].
    exfalso. apply Hno, Exists_exists. by exists (Some new).
Qed.

(** ** Crashes *)

(** On every disk the block for the parity of its generation reads [old], and
    the other one nothing newer. *)
Definition settled (pool : list RawDisk) (old : Superblock P) : Prop :=
  pool ≠ [] ∧ ∀ d, d ∈ pool →
    reads (slot d (Z.odd (gen old))) (Some old) ∧
    ∃ r, reads (slot d (negb (Z.odd (gen old)))) r ∧ ∀ x, r = Some x → gen x < gen old.

(** After a crash in a write that takes disk [d] to [d1], disk [d'] has each
    block as before, as after, or, if the write changes it, unreadable. *)
Definition torn (d d1 d' : RawDisk) : Prop :=
  ∀ i, slot d' i = slot d i ∨ slot d' i = slot d1 i ∨
    slot d i ≠ slot d1 i ∧ reads (slot d' i) None.

Lemma land_1 g : (if Z.land g 1 =? 0 then 0 else 1) = if Z.odd g then 1 else 0.
Proof.
  change 1 with (Z.ones 1) at 1. rewrite Z.land_ones by lia. change (2 ^ 1) with 2.
  rewrite Zmod_odd. by destruct (Z.odd g).
Qed.

Definition with_slot (i : bool) (b : bytes) (d : RawDisk) : RawDisk :=
  if i then {| block0 := block0 d; block1 := b |} else {| block0 := b; block1 := block1 d |}.

Lemma slot_with_slot i b d j : slot (with_slot i b d) j = if eqb i j then b else slot d j.
Proof. by destruct i, j. Qed.

Lemma write_superblock_spec pool p ts :
  blen (serialize (mkSb MAGIC p ts)) ≤ BLOCK_SIZE - CSUM_SIZE →
  ∃ b, reads b (Some (mkSb MAGIC p ts)) ∧
    write_superblock generation pool p ts =
      Some (inl (with_slot (Z.odd (generation p)) b <$> pool)).
Proof.
  intros Hlen. destruct (sb_pack_spec p ts Hlen) as (buf & b & E & Hb & _ & Hu).
  exists b. split; [unfold reads, sb_ok; by rewrite Hu|].
  unfold write_superblock. rewrite E. cbn [mbind option_bind]. rewrite Hb. cbn [mbind option_bind].
  rewrite land_1. unfold write_raw. by destruct (Z.odd (generation p)).
Qed.

Lemma torn_fetch pool old p ts b pool' :
  settled pool old → generation p = gen old + 1 → reads b (Some (mkSb MAGIC p ts)) →
  Forall3 torn pool (with_slot (Z.odd (generation p)) b <$> pool) pool' →
  (fetch_superblocks generation pool' = Some (Some old) ∨
   fetch_superblocks generation pool' = Some (Some (mkSb MAGIC p ts))) ∧
  ((∃ b', b' ∈ read_raw pool' 0 ++ read_raw pool' 1 ∧ reads b' (Some (mkSb MAGIC p ts))) →
   fetch_superblocks generation pool' = Some (Some (mkSb MAGIC p ts))).
Proof.
  intros [Hne Hset] Hg Hb Ht.
  assert (Z.odd (generation p) = negb (Z.odd (gen old))) as Hodd.
  { rewrite Hg, Z.odd_add. by destruct (Z.odd (gen old)). }
  assert (∀ d', d' ∈ pool' → ∃ d, d ∈ pool ∧ torn d (with_slot (Z.odd (generation p)) b d) d') as Htd.
  { intros d' [k Hk]%list_elem_of_lookup. destruct (Forall3_lookup_r _ _ _ _ _ _ Ht Hk) as (d&d1&Hd&Hd1&Hkt).
    rewrite list_lookup_fmap, Hd in Hd1. injection Hd1 as <-. exists d. split; [|done].
    by eapply list_elem_of_lookup_2. }
  apply fetch_old_or_new.
  - simpl. lia.
  - intros b' (d' & i & Hd' & ->)%elem_of_blocks. destruct (Htd d' Hd') as (d & Hd & Htorn).
    destruct (Hset d Hd) as [Hold (r & Hr & Hlt)]. specialize (Htorn i). rewrite slot_with_slot, Hodd in Htorn.
    destruct (eqb (negb (Z.odd (gen old))) i) eqn:Ei.
    + apply eqb_prop in Ei as <-. destruct Htorn as [->|[->|[_ Hu]]].
      * exists r. split; [done|]. auto.
      * eexists. split; [done|]. intros x [= <-]. auto.
      * by exists None.
    + assert (i = Z.odd (gen old)) as -> by (by destruct i, (Z.odd (gen old))).
      exists (Some old). split; [|intros x [= <-]; auto].
      destruct Htorn as [->|[->|[? _]]]; done.
  - destruct pool as [|d pool]; [done|].
    destruct pool' as [|d' pool']; [by inversion Ht|].
    destruct (Htd d' ltac:(left)) as (d2 & Hd2 & Htorn). destruct (Hset d2 Hd2) as [Hold _].
    exists (slot d' (Z.odd (gen old))). split; [apply elem_of_blocks; exists d', (Z.odd (gen old)); split; [left|done]|].
    specialize (Htorn (Z.odd (gen old))). rewrite slot_with_slot, Hodd in Htorn.
    replace (eqb (negb (Z.odd (gen old))) (Z.odd (gen old))) with false in Htorn
      by (by destruct (Z.odd (gen old))). destruct Htorn as [->|[->|[? _]]]; done.
Qed.

Lemma written_superblock pool old p ts :
  settled pool old → generation p = gen old + 1 →
  blen (serialize (mkSb MAGIC p ts)) ≤ BLOCK_SIZE - CSUM_SIZE →
  ∃ pool1, write_superblock generation pool p ts = Some (inl pool1) ∧
    fetch_superblocks generation pool1 = Some (Some (mkSb MAGIC p ts)) ∧
    settled pool1 (mkSb MAGIC p ts).
Proof.
  intros Hs Hg Hlen. destruct (write_superblock_spec pool p ts Hlen) as (b & Hb & E).
  eexists. split; [done|]. pose proof Hs as [Hne Hset].
  assert (Z.odd (generation p) = negb (Z.odd (gen old))) as Hodd.
  { rewrite Hg, Z.odd_add. by destruct (Z.odd (gen old)). }
  split.
  - apply (torn_fetch pool old p ts b); try done.
    + clear. induction pool as [|d pool IH]; simpl; constructor; [|done]. intros i. auto.
    + destruct pool as [|d pool]; [done|]. exists b. split; [|done].
      apply elem_of_blocks. exists (with_slot (Z.odd (generation p)) b d), (Z.odd (generation p)).
      split; [left|]. by rewrite slot_with_slot, eqb_reflx.
  - split; [by destruct pool|]. intros d1 (d & -> & Hd)%list_elem_of_fmap. simpl. rewrite !slot_with_slot.
    rewrite eqb_reflx. split; [done|]. destruct (Hset d Hd) as [Hold _]. rewrite Hodd in *.
    exists (Some old). rewrite negb_involutive.
    replace (eqb (negb (Z.odd (gen old))) (Z.odd (gen old))) with false
      by (by destruct (Z.odd (gen old))). split; [done|]. intros x [= <-]. lia.
Qed.

(** C24: Writing a superblock is atomic.  On disks that hold the superblock of
    the last generation, writing that of the next one succeeds; it is then
    fetched, and the disks are ready for the one after it.  If the write is
    interrupted, each disk having its block as before, as after or
    unreadable, the last or the new superblock is fetched, nothing else. *)
Theorem superblock_survives_crash pool old p ts :
  settled pool old → generation p = gen old + 1 →
  blen (serialize (mkSb MAGIC p ts)) ≤ BLOCK_SIZE - CSUM_SIZE →
  ∃ pool1, write_superblock generation pool p ts = Some (inl pool1) ∧
    fetch_superblocks generation pool1 = Some (Some (mkSb MAGIC p ts)) ∧
    settled pool1 (mkSb MAGIC p ts) ∧
    ∀ pool', Forall3 torn pool pool1 pool' →
      fetch_superblocks generation pool' = Some (Some old) ∨
      fetch_superblocks generation pool' = Some (Some (mkSb MAGIC p ts)).
Proof.
  intros Hs Hg Hlen. destruct (written_superblock pool old p ts Hs Hg Hlen) as (pool1 & E & Hf & Hs').
  exists pool1. split_and!; try done. intros pool' Ht.
  destruct (write_superblock_spec pool p ts Hlen) as (b & Hb & E'). rewrite E in E'.
  injection E' as ->. by apply (torn_fetch pool old p ts b).
Qed.

End correct.

(** A database that is created anew clears the superblocks with a buffer that
    [Buf::zeroed] returns; its memory is whatever the allocator hands out.  If
    that is a block that once held a superblock, the superblock is back. *)
Lemma clear_superblock_may_keep {P : Type} (generation : P → Z) `{Checksum} `{!EqDecision csum}
    `{Bincode (Superblock P)} pool b sb :
  pool ≠ [] → blen b = BLOCK_SIZE → sb_unpack b = Some (inl sb) →
  ∃ (M : Memory) pool1, MemoryLaws ∧ clear_superblock pool = Some pool1 ∧
    fetch_superblocks generation pool1 = Some (Some sb).
Proof.
  intros Hne Hb Hu.
  set (M := {| uninit n := if n =? BLOCK_SIZE then b else replicate (Z.to_nat n) zero |}).
  exists M, (write_raw (write_raw pool b 0) b 1). split_and!.
  - split. intros n Hn. simpl. destruct (Z.eqb_spec n BLOCK_SIZE) as [->|]; [done|].
    unfold blen. rewrite length_replicate. lia.
  - unfold clear_superblock, buf_zeroed, storage_zeroed. rewrite to_bytes_Some by done.
    cbn [mbind option_bind]. unfold buf_as_ref. cbn [range_start range_end buf_source capacity stg].
    rewrite !to_bytes_Some by done. cbn [mbind option_bind]. simpl uninit.
    rewrite cut_front by (rewrite Hb; vm_compute; by split). cbn [mbind option_bind].
    rewrite take_ge; [done|]. unfold blen in Hb. unfold BLOCK_SIZE in *. lia.
  - set (pool1 := write_raw _ b 1).
    assert (Forall (λ x, x = b) (read_raw pool1 0 ++ read_raw pool1 1)) as Hall.
    { apply Forall_forall. intros x (d & i & Hd & ->)%elem_of_blocks. unfold pool1, write_raw in Hd.
      apply list_elem_of_fmap in Hd as (d1 & -> & Hd).
      apply list_elem_of_fmap in Hd as (d2 & -> & Hd). by destruct i. }
    assert (read_raw pool1 0 ++ read_raw pool1 1 ≠ []) as Hne1
      by (by destruct pool).
    set (bs := read_raw pool1 0 ++ read_raw pool1 1) in *.
    rewrite (fetch_spec generation pool1 (replicate (length bs) (Some sb))).
    + f_equal. apply newest_max.
      * intros x [[= ->]%elem_of_replicate_inv|?]; [by right|done].
      * left. apply elem_of_replicate. split; [done|]. by destruct bs.
    + fold bs. clear -Hall Hu. induction Hall as [|x bs -> _ IH]; [constructor|].
      simpl. constructor; [|done]. unfold reads, sb_ok. by rewrite Hu.
Qed.

(** ** Examples *)

Module SuperblockExamples.
Import PolyHash.

#[export] Instance hash64_eq_dec : EqDecision Hash64.
Proof.
  intros [x Hx] [y Hy]. destruct (decide (x = y)) as [<-|Hne].
  - left. f_equal. apply proof_irrel.
  - right. by intros [= ?].
Defined.

#[export] Instance info_eq_dec : EqDecision StorageInfo.
Proof. solve_decision. Defined.

#[export] Instance info_countable : Countable StorageInfo.
Proof.
  apply (inj_countable' (λ i, (info_free i, info_total i)) (λ p, mkInfo p.1 p.2)). by intros [].
Defined.

#[export] Instance sb_eq_dec : EqDecision (Superblock Z).
Proof. solve_decision. Defined.

#[export] Instance sb_countable : Countable (Superblock Z).
Proof.
  apply (inj_countable' (λ s, (magic s, root_ptr s, tiers s)) (λ p, mkSb p.1.1 p.1.2 p.2)).
  by intros [].
Defined.

(** A coding: the bits of a number, with an end mark. *)
Fixpoint bits (p : positive) : bytes :=
  match p with
  | xH => [to_u8 0]
  | xO p => to_u8 1 :: bits p
  | xI p => to_u8 2 :: bits p
  end.

Fixpoint of_bits (b : bytes) : option positive :=
  match b with
  | [] => None
  | x :: b =>
      if u8 x =? 0 then Some xH
      else p ← of_bits b; Some (if u8 x =? 1 then xO p else xI p)
  end.

Lemma of_bits_bits p rest : of_bits (bits p ++ rest) = Some p.
Proof. induction p as [p IH|p IH|]; simpl; by rewrite ?IH. Qed.

#[export] Instance sb_bincode : Bincode (Superblock Z) := {
  serialize s := bits (encode s);
  deserialize b := p ← of_bits b; decode p;
}.

#[export] Instance sb_bincode_laws : BincodeLaws (Superblock Z).
Proof. split. intros a rest. simpl. rewrite of_bits_bits. simpl. apply decode_encode. Qed.

#[export] Instance ones : Memory := {| uninit n := replicate (Z.to_nat n) (to_u8 1) |}.

#[export] Instance ones_laws : MemoryLaws.
Proof. split. intros n Hn. simpl. unfold blen. rewrite length_replicate. lia. Qed.

(** Disks that were never written, and the superblocks of two generations. *)
Definition blank : RawDisk := {| block0 := uninit BLOCK_SIZE; block1 := uninit BLOCK_SIZE |}.
Definition sb4 : Superblock Z := mkSb MAGIC 4 [].
Definition sb5 : Superblock Z := mkSb MAGIC 5 [].

Definition pool4 : list RawDisk :=
  match write_superblock id [blank; blank] 4 [] with Some (inl p) => p | _ => [] end.

Lemma pool4_settled : settled id pool4 sb4.
Proof.
  split; [by vm_compute|].
  assert (Forall (λ d, reads (slot d (Z.odd 4)) (Some sb4) ∧ reads (slot d (negb (Z.odd 4))) None) pool4)
    as Hf by (repeat constructor; by vm_compute).
  rewrite Forall_forall in Hf. intros d Hd. destruct (Hf d Hd) as [? ?]. split; [done|].
  by exists None.
Qed.

Lemma superblock_survives_crash_witness :
  ∃ pool1, write_superblock id pool4 5 [] = Some (inl pool1) ∧
    fetch_superblocks id pool1 = Some (Some sb5).
Proof.
  destruct (superblock_survives_crash id pool4 sb4 5 []) as (pool1 & E & Hf & _).
  - apply pool4_settled.
  - reflexivity.
  - vm_compute. discriminate.
  - exists pool1. split; [exact E|exact Hf].
Defined.

End SuperblockExamples.
