(* ===== verification/Database.v ===== *)
(** * The database: data sets, snapshots, sync

    The operations of [database/mod.rs], [database/dataset.rs] and
    [database/snapshot.rs] on the root tree.  The root tree is the contents
    that the handler refers to ([current_root_tree]); the state of the
    database has the handler, the identifiers of the open data sets and the
    first blocks of the disks.

    [M] is a state monad with errors and panics: an operation that fails
    leaves the changes it made before.  What [sync] of a tree returns is an
    argument: the pointer of a data set's tree, and for the root tree a
    function on the handler ([root_sync]), since writing the root tree
    allocates and queues messages. *)

From Stdlib Require Import ZArith Lia.
From stdpp Require Import base option list numbers gmap fin_maps.
From S2P Require Import Prelude.
From S2P Require Import Bytes.
From S2P Require Import BTreeMap.
From S2P Require Import Message.
From S2P Require Import Checksum.
From S2P Require Import Tree.
From S2P Require Import Range.
From S2P Require Import Disk.
From S2P Require Import Allocator.
From S2P Require Import RootKeys.
From S2P Require Import Handler.
From S2P Require Import DmuAlloc.
From S2P Require Import Dataset.
From S2P Require Import Buffer.
From S2P Require Import Superblock.

(** ** State *)

Record Database := mkDb {
  handler : Handler;
  open_datasets : gset Z;
  pool : list RawDisk;
}.

Definition root (db : Database) : contents := current_root_tree (handler db).

Definition set_handler (db : Database) (h : Handler) : Database :=
  mkDb h (open_datasets db) (pool db).

Definition set_root_tree (h : Handler) (d : contents) : Handler :=
  mkHandler d (last_root_tree h) (current_generation h) (free_space h) (free_space_tier h)
    (delayed_messages h) (last_snapshot_generation h) (allocators h) (allocations h)
    (old_root_allocation h).

Definition set_delayed (h : Handler) (ms : list (bytes * bytes)) : Handler :=
  mkHandler (current_root_tree h) (last_root_tree h) (current_generation h) (free_space h)
    (free_space_tier h) ms (last_snapshot_generation h) (allocators h) (allocations h)
    (old_root_allocation h).

Definition set_last_snapshots (h : Handler) (m : gmap Z Z) : Handler :=
  mkHandler (current_root_tree h) (last_root_tree h) (current_generation h) (free_space h)
    (free_space_tier h) (delayed_messages h) m (allocators h) (allocations h)
    (old_root_allocation h).

Definition set_synced (h : Handler) (old : DiskOffset.DiskOffset * Z) (last : contents) : Handler :=
  mkHandler (current_root_tree h) (Some last) (current_generation h) (free_space h)
    (free_space_tier h) (delayed_messages h) (last_snapshot_generation h) (allocators h)
    (allocations h) (Some old).

Definition set_root (db : Database) (d : contents) : Database :=
  set_handler db (set_root_tree (handler db) d).

(** ** The monad *)

Definition M (A : Type) : Type := Database → option ((A + DbError) * Database).

Definition ret {A} (x : A) : M A := λ db, Some (inl x, db).
Definition throw {A} (e : DbError) : M A := λ db, Some (inr e, db).
Definition bindM {A B} (m : M A) (f : A → M B) : M B :=
  λ db, '(r, db) ← m db; match r with inl x => f x db | inr e => Some (inr e, db) end.
(** The result of an operation, also if it is an error. *)
Definition catch {A} (m : M A) : M (A + DbError) :=
  λ db, '(r, db) ← m db; Some (inl r, db).
(** [unwrap] and the like: [None] is a panic. *)
Definition unwrap {A} (o : option A) : M A := λ db, x ← o; Some (inl x, db).
Definition get_db : M Database := λ db, Some (inl db, db).
Definition put_db (db : Database) : M unit := λ _, Some (inl tt, db).

Declare Scope db_scope.
Delimit Scope db_scope with db.
Notation "x ←! m ; k" := (bindM m (λ x, k%db))
  (at level 20, m at level 100, k at level 200, right associativity) : db_scope.
Notation "m ;! k" := (bindM m (λ _, k%db))
  (at level 100, k at level 200, right associativity) : db_scope.
Local Open Scope db_scope.

(** ** The root tree *)

Definition root_get (k : bytes) : M (option bytes) := λ db, Some (inl (layer_get (root db) k), db).

Definition root_insert (k msg : bytes) : M unit :=
  λ db, r ← ds_insert_msg (root db) k msg;
    Some (match r with inl d => (inl tt, set_root db d) | inr e => (inr e, db) end).

Definition root_range (r : RangeBounds) : M (list (bytes * bytes)) :=
  λ db, Some (match ds_range (root db) r with inl es => inl es | inr e => inr e end, db).

Definition insert_msg (data : bytes) : bytes := Content.build_overwrite_msg (Some data).
Definition delete_msg : bytes := Content.build_overwrite_msg None.

Section database.
Context {P : Type} (generation : P → Z) (ptr_offset : P → DiskOffset.DiskOffset) (ptr_size : P → Z).
Context `{Bincode P} `{Bincode StorageInfo} `{Bincode DeadListData}.

(** ** Data sets *)

Definition lookup_dataset_id (name : bytes) : M Z :=
  data ←! root_get (dataset.name_to_id name);
  match data with
  | None => throw DoesNotExist
  | Some data => unwrap (DatasetId.unpack data)
  end.

(** [fetch_ds_data] and [fetch_ss_data] differ in the key. *)
Definition fetch_data (key : bytes) : M (DatasetData P) :=
  data ←! root_get key;
  match data with
  | None => throw DoesNotExist
  | Some data =>
      match ds_unpack data with Some d => ret d | None => throw SerializationErr end
  end.

Definition fetch_ds_data (id : Z) : M (DatasetData P) := fetch_data (dataset.data_key id).
Definition fetch_ss_data (ds_id ss_id : Z) : M (DatasetData P) :=
  fetch_data (snapshot.data_key ds_id ss_id).

Definition allocate_ds_id : M Z :=
  last ←! root_get dataset.id_counter;
  last_ds_id ←! unwrap (match last with Some b => DatasetId.unpack b | None => Some 0 end);
  next_ds_id ←! unwrap (DatasetId.next last_ds_id);
  root_insert dataset.id_counter (insert_msg (DatasetId.pack next_ds_id)) ;!
  ret next_ds_id.

(** [create_custom_dataset]; [ptr] is what the sync of the empty tree
    returns for the identifier. *)
Definition create_custom_dataset (name : bytes) (synced : Z → P) : M unit :=
  found ←! catch (lookup_dataset_id name);
  match found with
  | inl _ => throw AlreadyExists
  | inr DoesNotExist =>
      ds_id ←! allocate_ds_id;
      data ←! unwrap (ds_pack (mkDs None (synced ds_id)));
      root_insert (dataset.data_key ds_id) (insert_msg data) ;!
      root_insert (to_u8 1 :: name) (insert_msg (DatasetId.pack ds_id))
  | inr e => throw e
  end.

(** A data set: its identifier, the pointer its tree was opened at, its name
    and the snapshots that are open. *)
Record Dataset := mkDataset {
  ds_id : Z; ds_ptr : P; ds_name : bytes; open_snapshots : gset Z;
}.

(** [last_snapshot_generation.insert(id, ss_id)] *)
Definition set_last_snapshot (id : Z) (ss : option Z) : M unit :=
  db ←! get_db;
  put_db (set_handler db (set_last_snapshots (handler db)
    (match ss with
     | Some ss_id => <[id := ss_id]> (last_snapshot_generation (handler db))
     | None => last_snapshot_generation (handler db)
     end))).

Definition open_dataset_with_id_and_name (id : Z) (name : bytes) : M Dataset :=
  ds_data ←! fetch_ds_data id;
  db ←! get_db;
  if bool_decide (id ∈ open_datasets db) then throw InUse
  else
    set_last_snapshot id (previous_snapshot ds_data) ;!
    db ←! get_db;
    put_db (mkDb (handler db) ({[id]} ∪ open_datasets db) (pool db)) ;!
    ret (mkDataset id (ptr ds_data) name ∅).

Definition open_custom_dataset (name : bytes) : M Dataset :=
  id ←! lookup_dataset_id name; open_dataset_with_id_and_name id name.

Definition open_or_create_custom_dataset (name : bytes) (synced : Z → P) : M Dataset :=
  found ←! catch (lookup_dataset_id name);
  match found with
  | inl _ => open_custom_dataset name
  | inr DoesNotExist => create_custom_dataset name synced ;! open_custom_dataset name
  | inr e => throw e
  end.

(** [sync_ds]; [p] is the pointer that the sync of the tree returns. *)
Definition sync_ds (id : Z) (p : P) : M unit := root_insert (dataset.data_key id) (update_ptr p).

(** [close_dataset]; [shared] if there are other handles on the data set. *)
Definition close_dataset (ds : Dataset) (shared : bool) (p : P) : M unit :=
  sync_ds (ds_id ds) p ;!
  if shared then ret tt
  else
    db ←! get_db;
    put_db (mkDb (set_last_snapshots (handler db)
                    (delete (ds_id ds) (last_snapshot_generation (handler db))))
                 (open_datasets db ∖ {[ds_id ds]}) (pool db)).

(** [iter_datasets], all items *)
Definition iter_datasets : M (list bytes) :=
  es ←! root_range (mkRange (Included (dataset.data_key 0)) (Excluded dataset.data_key_max));
  unwrap (mapM (λ e, cut e.1 1 (blen e.1 - 1)) es).

(** ** Sync *)

(** The loop over the messages that were taken. *)
Fixpoint insert_messages (v : list (bytes * bytes)) : M unit :=
  match v with
  | [] => ret tt
  | (key, msg) :: v => root_insert key msg ;! insert_messages v
  end.

(** [flush_delayed_messages] *)
Fixpoint flush_delayed_messages (fuel : nat) : M unit :=
  match fuel with
  | O => λ _, None
  | S fuel =>
      db ←! get_db;
      let v := delayed_messages (handler db) in
      put_db (set_handler db (set_delayed (handler db) [])) ;!
      if bool_decide (v = []) then ret tt
      else insert_messages v ;! flush_delayed_messages fuel
  end.

(** The data sets whose root was modified, with the pointers their sync
    returned. *)
Fixpoint sync_datasets (synced : list (Z * P)) : M unit :=
  match synced with
  | [] => ret tt
  | (id, p) :: synced => sync_ds id p ;! sync_datasets synced
  end.

(** The loop that syncs the root tree until it allocates at most its root. *)
Fixpoint sync_root (fuel : nat) (root_sync : Handler → option (P * Handler)) : M P :=
  match fuel with
  | O => λ _, None
  | S fuel =>
      flush_delayed_messages 2 ;!
      db ←! get_db;
      r ←! unwrap (root_sync (handler db));
      put_db (set_handler db r.2) ;!
      n ←! unwrap (usub (allocations r.2) (allocations (handler db)));
      if n <=? 1 then ret r.1 else sync_root fuel root_sync
  end.

Context `{Checksum} `{!EqDecision csum} `{Memory} `{Bincode (Superblock P)}.

(** [Database::sync] *)
Definition sync (fuel : nat) (synced : list (Z * P)) (root_sync : Handler → option (P * Handler)) :
    M unit :=
  sync_datasets synced ;!
  root_ptr ←! sync_root fuel root_sync;
  db ←! get_db;
  info ←! unwrap (mapM (λ idx, free_space_of_tier (handler db) (Z.of_nat idx))
                       (seq 0 (Z.to_nat NUM_STORAGE_CLASSES)));
  w ←! unwrap (write_superblock generation (pool db) root_ptr info);
  match w with
  | inr e => throw e
  | inl disks =>
      h ←! unwrap (bump_generation (set_synced (handler db)
             (ptr_offset root_ptr, ptr_size root_ptr) (current_root_tree (handler db))));
      put_db (mkDb h (open_datasets db) disks)
  end.

(** ** Snapshots *)

Definition lookup_snapshot_id (id : Z) (name : bytes) : M Z :=
  data ←! root_get (snapshot.key id name);
  match data with
  | None => throw DoesNotExist
  | Some data => unwrap (Generation.unpack data)
  end.

(** [open_snapshot]: the pointer or an error, and the data set, which keeps
    the snapshot in its set also if the record is missing. *)
Definition open_snapshot (ds : Dataset) (name : bytes) : M ((P + DbError) * Dataset) :=
  id ←! lookup_snapshot_id (ds_id ds) name;
  if bool_decide (id ∈ open_snapshots ds) then throw InUse
  else
    let ds := mkDataset (ds_id ds) (ds_ptr ds) (ds_name ds) ({[id]} ∪ open_snapshots ds) in
    d ←! catch (fetch_ss_data (ds_id ds) id);
    ret (match d with inl d => inl (ptr d) | inr e => inr e end, ds).

(** What [create_snapshot] writes, before it calls [sync]. *)
Definition record_snapshot (ds : Dataset) (name : bytes) : M unit :=
  found ←! catch (lookup_snapshot_id (ds_id ds) name);
  match found with
  | inl _ => throw AlreadyExists
  | inr DoesNotExist =>
      d ←! fetch_ds_data (ds_id ds);
      let ss_id := generation (ptr d) in
      data ←! unwrap (ds_pack d);
      root_insert (snapshot.data_key (ds_id ds) ss_id) (insert_msg data) ;!
      msg ←! unwrap (update_previous_snapshot (Some ss_id));
      root_insert (dataset.data_key (ds_id ds)) msg
  | inr e => throw e
  end.

(** [create_snapshot] *)
Definition create_snapshot (ds : Dataset) (name : bytes) (fuel : nat) (synced : list (Z * P))
    (root_sync : Handler → option (P * Handler)) : M unit :=
  record_snapshot ds name ;! sync fuel synced root_sync.

(** [iter_snapshots], all items *)
Definition iter_snapshots (ds : Dataset) : M (list bytes) :=
  es ←! root_range (mkRange (Included (to_u8 3 :: be64 (ds_id ds))) (Excluded [to_u8 4]));
  unwrap (mapM (λ e, cut e.1 9 (blen e.1 - 9)) es).

Definition next_snapshot_id (id ss_id : Z) : M (option Z) :=
  next ←! unwrap (Generation.next ss_id);
  high ←! unwrap (snapshot.data_key_max id);
  es ←! root_range (mkRange (Included (snapshot.data_key id next)) (Excluded high));
  match es with
  | (key, _) :: _ => g ←! unwrap (Generation.unpack (drop 9 key)); ret (Some g)
  | [] => ret None
  end.

(** The loop of [delete_snapshot] over the dead list. *)
Fixpoint release_dead (previous_ss_id : option Z) (es : list (bytes * bytes)) : M unit :=
  match es with
  | [] => ret tt
  | (key, value) :: es =>
      match deserialize value with
      | None => throw SerializationErr
      | Some entry =>
          (if snapshot_before previous_ss_id (birth entry) then
             offset ←! unwrap (deadlist.offset_from_key key);
             db ←! get_db;
             h ←! unwrap (update_allocation_bitmap (handler db) offset (dead_size entry) Deallocate);
             put_db (set_handler db h) ;!
             root_insert key delete_msg
           else ret tt) ;!
          release_dead previous_ss_id es
      end
  end.

(** [delete_snapshot] *)
Definition delete_snapshot (ds : Dataset) (name : bytes) : M unit :=
  let id := ds_id ds in
  ss_id ←! lookup_snapshot_id id name;
  if bool_decide (ss_id ∈ open_snapshots ds) then throw InUse
  else
    root_insert (snapshot.key id name) delete_msg ;!
    d ←! fetch_ss_data id ss_id;
    let previous_ss_id := previous_snapshot d in
    msg ←! unwrap (update_previous_snapshot previous_ss_id);
    next ←! next_snapshot_id id ss_id;
    max_key ←! match next with
      | Some next_ss_id =>
          root_insert (snapshot.data_key id next_ss_id) msg ;!
          unwrap (deadlist.max_key id next_ss_id)
      | None =>
          root_insert (dataset.data_key id) msg ;!
          unwrap (deadlist.max_key_ds id)
      end;
    first ←! unwrap (Generation.next ss_id);
    es ←! root_range (mkRange (Included (deadlist.min_key id first)) (Excluded max_key));
    release_dead previous_ss_id es.

End database.

Arguments Dataset : clear implicits.

(** ** Running the operations *)

Lemma bindM_ok {A B} (m : M A) (f : A → M B) db x db' :
  m db = Some (inl x, db') → bindM m f db = f x db'.
Proof. intros E. unfold bindM. by rewrite E. Qed.

Lemma root_insert_spec db k msg v :
  k ≠ [] → Content.apply k msg (root db !! k) = Some v →
  root_insert k msg db = Some (inl tt, set_root db (set_contents (root db) k v)).
Proof.
  intros Hk Hv. unfold root_insert, ds_insert_msg, layer_insert. rewrite bool_decide_false by done.
  simpl. by rewrite Hv.
Qed.

Lemma root_insert_overwrite db k v :
  k ≠ [] → root_insert k (insert_msg v) db =
    Some (inl tt, set_root db (set_contents (root db) k (Some v))).
Proof. intros Hk. by apply root_insert_spec. Qed.

Lemma root_set_root db d : root (set_root db d) = d.
Proof. done. Qed.

Lemma catch_throw {A} (m : M A) db e : m db = Some (inr e, db) → catch m db = Some (inl (inr e), db).
Proof. intros E. unfold catch. by rewrite E. Qed.

Lemma catch_ok {A} (m : M A) db x : m db = Some (inl x, db) → catch m db = Some (inl (inl x), db).
Proof. intros E. unfold catch. by rewrite E. Qed.

(** What the next identifier follows. *)
Definition last_id (db : Database) : option Z :=
  match root db !! dataset.id_counter with Some b => DatasetId.unpack b | None => Some 0 end.

Lemma id_unpack_pack id : u64 id → DatasetId.unpack (DatasetId.pack id) = Some id.
Proof.
  intros. unfold DatasetId.unpack, DatasetId.pack. rewrite <- (app_nil_r (be64 id)).
  by apply read_u64_be64.
Qed.

Section datasets.
Context {P : Type} `{BincodeLaws P}.

Lemma lookup_none name db :
  root db !! dataset.name_to_id name = None →
  lookup_dataset_id name db = Some (inr DoesNotExist, db).
Proof. intros Hn. unfold lookup_dataset_id, bindM, root_get, layer_get. by rewrite Hn. Qed.

Lemma lookup_some name db id :
  u64 id → root db !! dataset.name_to_id name = Some (DatasetId.pack id) →
  lookup_dataset_id name db = Some (inl id, db).
Proof.
  intros Hi Hn. unfold lookup_dataset_id, bindM, root_get, layer_get. simpl. rewrite Hn.
  unfold unwrap. by rewrite id_unpack_pack.
Qed.

Lemma fetch_some key db b (d : DatasetData P) :
  root db !! key = Some b → ds_unpack b = Some d → fetch_data key db = Some (inl d, db).
Proof. intros Hk Hb. unfold fetch_data, bindM, root_get, layer_get. simpl. by rewrite Hk, Hb. Qed.

Lemma allocate_ds_id_spec db n :
  last_id db = Some n → n + 1 < U64_SIZE →
  allocate_ds_id db = Some (inl (n + 1),
    set_root db (set_contents (root db) dataset.id_counter (Some (DatasetId.pack (n + 1))))).
Proof.
  unfold last_id. intros Hl Hn. unfold allocate_ds_id.
  rewrite (bindM_ok _ _ db (root db !! dataset.id_counter) db) by done.
  rewrite (bindM_ok _ _ db n db) by (unfold unwrap; by rewrite Hl).
  rewrite (bindM_ok _ _ db (n + 1) db) by (unfold unwrap, DatasetId.next; by rewrite u64_add_Some).
  by rewrite (bindM_ok _ _ _ _ _ (root_insert_overwrite db dataset.id_counter _ ltac:(done))).
Qed.

Lemma open_by_name name db id b (d : DatasetData P) :
  u64 id → root db !! dataset.name_to_id name = Some (DatasetId.pack id) →
  root db !! dataset.data_key id = Some b → ds_unpack b = Some d →
  open_custom_dataset name db =
    if bool_decide (id ∈ open_datasets db) then Some (inr InUse, db)
    else Some (inl (mkDataset id (ptr d) name ∅),
      mkDb (set_last_snapshots (handler db)
              (match previous_snapshot d with
               | Some ss_id => <[id := ss_id]> (last_snapshot_generation (handler db))
               | None => last_snapshot_generation (handler db) end))
           ({[id]} ∪ open_datasets db) (pool db)).
Proof.
  intros Hi Hn Hk Hb. unfold open_custom_dataset.
  rewrite (bindM_ok _ _ _ _ _ (lookup_some name db id Hi Hn)). unfold open_dataset_with_id_and_name.
  rewrite (bindM_ok _ _ _ _ _ (fetch_some _ db b d Hk Hb)).
  rewrite (bindM_ok _ _ db db db) by done. by case_bool_decide.
Qed.

Lemma pack_none (p : P) : ds_pack (mkDs None p) = Some (le64 0 ++ serialize p).
Proof. done. Qed.

Lemma unpack_none (p : P) : ds_unpack (le64 0 ++ serialize p) = Some (mkDs None p).
Proof.
  rewrite unpack_word by done. rewrite <- (app_nil_r (serialize p)), deserialize_serialize. done.
Qed.

Lemma create_spec name (synced : Z → P) db n :
  last_id db = Some n → n + 1 < U64_SIZE → root db !! dataset.name_to_id name = None →
  create_custom_dataset name synced db = Some (inl tt, set_root db
    (set_contents (set_contents (set_contents (root db)
       dataset.id_counter (Some (DatasetId.pack (n + 1))))
       (dataset.data_key (n + 1)) (Some (le64 0 ++ serialize (synced (n + 1)))))
       (dataset.name_to_id name) (Some (DatasetId.pack (n + 1))))).
Proof.
  intros Hl Hn Hno. unfold create_custom_dataset.
  rewrite (bindM_ok _ _ _ _ _ (catch_throw _ _ _ (lookup_none name db Hno))).
  rewrite (bindM_ok _ _ _ _ _ (allocate_ds_id_spec db n Hl Hn)).
  set (db1 := set_root _ _).
  rewrite (bindM_ok _ _ db1 (le64 0 ++ serialize (synced (n + 1))) db1) by (unfold unwrap; by rewrite pack_none).
  rewrite (bindM_ok _ _ _ _ _ (root_insert_overwrite db1 (dataset.data_key (n + 1)) _ ltac:(done))).
  by rewrite root_insert_overwrite.
Qed.

(** C26: A new data set can be opened.  If no data set has the name, creating
    it succeeds with the identifier behind the last one; opening it returns
    the data set at the pointer of the empty tree; opening it again fails
    while it is open, creating it again fails, and no other entry of the root
    tree changes. *)
Theorem created_dataset_opens name (synced : Z → P) db n :
  last_id db = Some n → 0 ≤ n → n + 1 < U64_SIZE →
  root db !! dataset.name_to_id name = None → n + 1 ∉ open_datasets db →
  ∃ db1 db2, create_custom_dataset name synced db = Some (inl tt, db1) ∧
    open_custom_dataset name db1 = Some (inl (mkDataset (n + 1) (synced (n + 1)) name ∅), db2) ∧
    open_custom_dataset (P := P) name db2 = Some (inr InUse, db2) ∧
    create_custom_dataset name synced db2 = Some (inr AlreadyExists, db2) ∧
    last_id db1 = Some (n + 1) ∧
    (∀ k, k ∉ [dataset.id_counter; dataset.data_key (n + 1); dataset.name_to_id name] →
      root db1 !! k = root db !! k).
Proof.
  intros Hl Hn Hn1 Hno Hopen. assert (u64 (n + 1)) as Hu by (unfold u64; lia).
  rewrite (create_spec name synced db n) by done. set (db1 := set_root _ _).
  assert (root db1 !! dataset.name_to_id name = Some (DatasetId.pack (n + 1))) as H1.
  { unfold db1. by rewrite root_set_root, set_contents_lookup, bool_decide_true. }
  assert (root db1 !! dataset.data_key (n + 1) = Some (le64 0 ++ serialize (synced (n + 1)))) as H2.
  { unfold db1. by rewrite root_set_root, !set_contents_lookup, bool_decide_false, bool_decide_true. }
  eexists db1, _. split; [done|].
  rewrite (open_by_name name db1 (n + 1) _ _ Hu H1 H2 (unpack_none _)).
  rewrite bool_decide_false by done. split; [done|]. set (db2 := mkDb _ _ _). split_and!.
  - rewrite (open_by_name name db2 (n + 1) _ _ Hu H1 H2 (unpack_none _)).
    rewrite bool_decide_true; [done|]. set_solver.
  - unfold create_custom_dataset.
    by rewrite (bindM_ok _ _ _ _ _ (catch_ok _ _ _ (lookup_some name db2 (n + 1) Hu H1))).
  - unfold last_id, db1. rewrite root_set_root, !set_contents_lookup.
    rewrite bool_decide_false, bool_decide_false, bool_decide_true by done.
    by rewrite id_unpack_pack.
  - intros k Hk. unfold db1. rewrite root_set_root, !set_contents_lookup.
    rewrite !bool_decide_false by set_solver. done.
Qed.

Lemma sync_ds_spec id (p : P) db b d :
  root db !! dataset.data_key id = Some b → ds_unpack b = Some d →
  snapshot_wf (previous_snapshot d) → blen (serialize p) < U32_SIZE →
  ∃ b', sync_ds id p db = Some (inl tt, set_root db (set_contents (root db) (dataset.data_key id) (Some b'))) ∧
    ds_unpack b' = Some (mkDs (previous_snapshot d) p).
Proof.
  intros Hk Hb Hs Hp.
  destruct (dataset_record_updates d b p None (dataset.data_key id)) as (_ & (b1 & Ha & Hu) & _);
    try done.
  exists b1. split; [|done]. apply root_insert_spec; [done|]. by rewrite Hk.
Qed.

(** A data set that was closed is opened where it was left: closing the
    last handle stores the pointer of the synced tree and takes the data set
    off the list of open ones; opening it by its name then succeeds, at this
    pointer, and the handler knows its last snapshot again. *)
Theorem closed_dataset_reopens db (ds : Dataset P) name b d p :
  u64 (ds_id ds) → root db !! dataset.name_to_id name = Some (DatasetId.pack (ds_id ds)) →
  root db !! dataset.data_key (ds_id ds) = Some b → ds_unpack b = Some d →
  snapshot_wf (previous_snapshot d) → blen (serialize p) < U32_SIZE →
  ∃ db1 db2, close_dataset ds false p db = Some (inl tt, db1) ∧
    ds_id ds ∉ open_datasets db1 ∧ last_snapshot_generation (handler db1) !! ds_id ds = None ∧
    open_custom_dataset name db1 = Some (inl (mkDataset (ds_id ds) p name ∅), db2) ∧
    last_snapshot_generation (handler db2) !! ds_id ds = previous_snapshot d.
Proof.
  intros Hi Hn Hk Hb Hs Hp. set (id := ds_id ds) in *.
  destruct (sync_ds_spec id p db b d Hk Hb Hs Hp) as (b' & Hsync & Hu).
  unfold close_dataset. fold id. rewrite (bindM_ok _ _ _ _ _ Hsync).
  set (db0 := set_root db _). rewrite (bindM_ok _ _ db0 db0 db0) by done.
  eexists _, _. split; [done|]. set (db1 := mkDb _ _ _). split_and!.
  - simpl. set_solver.
  - simpl. apply lookup_delete_eq.
  - rewrite (open_by_name name db1 id b' (mkDs (previous_snapshot d) p)); try done.
    + rewrite bool_decide_false; [done|]. simpl. set_solver.
    + unfold db1, db0. change (root _) with (set_contents (root db) (dataset.data_key id) (Some b')).
      by rewrite set_contents_lookup, bool_decide_false.
    + unfold db1, db0. change (root _) with (set_contents (root db) (dataset.data_key id) (Some b')).
      by rewrite set_contents_lookup, bool_decide_true.
  - simpl. destruct (previous_snapshot d); simpl; [apply lookup_insert_eq|apply lookup_delete_eq].
Qed.

End datasets.

(** ** Invariants of operations *)

(** [m] keeps [I], whether it succeeds or fails. *)
Definition keeps {A} (I : Database → Prop) (m : M A) : Prop :=
  ∀ db r db', I db → m db = Some (r, db') → I db'.

Lemma keeps_ret {A} I (x : A) : keeps I (ret x).
Proof. by intros db r db' Hi [= <- <-]. Qed.

Lemma keeps_throw {A} I e : keeps I (throw (A := A) e).
Proof. by intros db r db' Hi [= <- <-]. Qed.

Lemma keeps_unwrap {A} I (o : option A) : keeps I (unwrap o).
Proof. intros db r db' Hi. unfold unwrap. destruct o; simpl; [by intros [= <- <-]|done]. Qed.

Lemma keeps_get I : keeps I get_db.
Proof. by intros db r db' Hi [= <- <-]. Qed.

Lemma keeps_root_get I k : keeps I (root_get k).
Proof. by intros db r db' Hi [= <- <-]. Qed.

Lemma keeps_bind {A B} I (m : M A) (f : A → M B) :
  keeps I m → (∀ x, keeps I (f x)) → keeps I (bindM m f).
Proof.
  intros Hm Hf db r db' Hi. unfold bindM. destruct (m db) as [[[x|e] db1]|] eqn:E; simpl; [| |done].
  - apply Hf. by eapply Hm.
  - intros [= <- <-]. by eapply Hm.
Qed.

Lemma keeps_catch {A} I (m : M A) : keeps I m → keeps I (catch m).
Proof.
  intros Hm db r db' Hi. unfold catch. destruct (m db) as [[x db1]|] eqn:E; simpl; [|done].
  intros [= <- <-]. by eapply Hm.
Qed.

Create HintDb keeps.
#[export] Hint Resolve keeps_ret keeps_throw keeps_unwrap keeps_get keeps_root_get keeps_bind
  keeps_catch : keeps.

(** A key that no message in the queue is for. *)
Definition untouched (k : bytes) (ms : list (bytes * bytes)) : Prop := Forall (λ km, km.1 ≠ k) ms.

(** Entry [k] of the root tree is [v] and no message for it is queued; the
    handler's snapshot generations are [l]. *)
Definition pinned (k : bytes) (v : option bytes) (l : gmap Z Z) (db : Database) : Prop :=
  root db !! k = v ∧ untouched k (delayed_messages (handler db)) ∧
  last_snapshot_generation (handler db) = l.

Lemma keeps_root_insert k v l k' msg : k' ≠ k → keeps (pinned k v l) (root_insert k' msg).
Proof.
  intros Hne db r db' (Hk & Hu & Hl). unfold root_insert, ds_insert_msg, layer_insert.
  destruct (bool_decide (k' = [])); simpl; [by intros [= <- <-]|].
  destruct (Content.apply k' msg (root db !! k')) as [x|]; simpl; [|done]. intros [= <- <-].
  split; [|done]. rewrite root_set_root, set_contents_lookup, bool_decide_false; done.
Qed.

Lemma keeps_insert_messages k v l ms :
  untouched k ms → keeps (pinned k v l) (insert_messages ms).
Proof.
  induction ms as [|[k' msg] ms IH]; intros Hu; cbn [insert_messages]; [auto with keeps|].
  apply Forall_cons in Hu as [Hk Hu]. apply keeps_bind; [by apply keeps_root_insert|auto].
Qed.

Lemma keeps_flush k v l fuel : keeps (pinned k v l) (flush_delayed_messages fuel).
Proof.
  induction fuel as [|fuel IH]; [by intros db r db' _ [=]|].
  intros db r db' Hi. cbn [flush_delayed_messages]. rewrite (bindM_ok _ _ db db db) by done.
  set (db1 := set_handler db _). rewrite (bindM_ok _ _ db tt db1) by done.
  destruct Hi as (Hk & Hu & Hl). assert (pinned k v l db1) as Hi1 by (split_and!; [done|constructor|done]).
  destruct (bool_decide _); [by intros [= <- <-]|].
  apply (keeps_bind (pinned k v l)); [by apply keeps_insert_messages|by intros _|done].
Qed.

Lemma bindM_inv {A B} (m : M A) (f : A → M B) db y db' :
  bindM m f db = Some (inl y, db') → ∃ x db1, m db = Some (inl x, db1) ∧ f x db1 = Some (inl y, db').
Proof. unfold bindM. destruct (m db) as [[[x|e] db1]|]; simpl; [eauto|done|done]. Qed.

Section snapshots.
Context {P : Type} (generation : P → Z) (ptr_offset : P → DiskOffset.DiskOffset) (ptr_size : P → Z).
Context `{Bincode P} `{Bincode StorageInfo} `{Bincode DeadListData}.
Context `{Checksum} `{!EqDecision csum} `{Memory} `{Bincode (Superblock P)}.

(** What the sync of the root tree leaves alone: the contents of the tree,
    the snapshot generations, and that no message for [k] is queued (it queues
    messages for bitmaps, space counters and dead lists). *)
Definition root_sync_leaves (k : bytes) (root_sync : Handler → option (P * Handler)) : Prop :=
  ∀ h p h', root_sync h = Some (p, h') →
    current_root_tree h' = current_root_tree h ∧
    last_snapshot_generation h' = last_snapshot_generation h ∧
    (untouched k (delayed_messages h) → untouched k (delayed_messages h')).

Variables (k : bytes) (v : option bytes) (l : gmap Z Z).
Variable root_sync : Handler → option (P * Handler).
Hypothesis Hk : ∀ id, dataset.data_key id ≠ k.
Hypothesis Hsync : root_sync_leaves k root_sync.

Lemma keeps_sync_datasets (synced : list (Z * P)) : keeps (pinned k v l) (sync_datasets synced).
Proof.
  induction synced as [|[id p] synced IH]; cbn [sync_datasets]; [auto with keeps|].
  apply keeps_bind; [by apply keeps_root_insert|auto].
Qed.

Lemma keeps_sync_root fuel : keeps (pinned k v l) (sync_root fuel root_sync).
Proof.
  induction fuel as [|fuel IH]; [by intros db r db' _ [=]|].
  cbn [sync_root]. apply keeps_bind; [apply keeps_flush|]. intros _.
  intros db r db' Hi. rewrite (bindM_ok _ _ db db db) by done.
  destruct (root_sync (handler db)) as [[p h]|] eqn:E; [|done].
  rewrite (bindM_ok _ _ db (p, h) db) by done.
  destruct (Hsync _ _ _ E) as (Hr & Hl & Hu). set (db1 := set_handler db h).
  rewrite (bindM_ok _ _ db tt db1) by done.
  destruct Hi as (Hk1 & Hu1 & Hl1). assert (pinned k v l db1) as Hi1.
  { unfold pinned, root, db1. simpl. rewrite Hr, Hl. auto. }
  apply (keeps_bind (pinned k v l)); [auto with keeps| |done].
  intros n. destruct (n <=? 1); [auto with keeps|done].
Qed.

Lemma keeps_sync fuel (synced : list (Z * P)) :
  keeps (pinned k v l) (sync generation ptr_offset ptr_size fuel synced root_sync).
Proof.
  unfold sync. apply keeps_bind; [apply keeps_sync_datasets|intros _].
  apply keeps_bind; [apply keeps_sync_root|intros p].
  intros db r db' Hi. rewrite (bindM_ok _ _ db db db) by done.
  unfold bindM, unwrap. destruct (mapM _ _) as [info|]; simpl; [|done].
  destruct (write_superblock _ _ _ _) as [[disks|e]|]; simpl; [|by intros [= <- <-]|done].
  unfold bump_generation. destruct (u64_add _ 1) as [g|]; simpl; [|done]. by intros [= <- <-].
Qed.

Lemma keeps_record_snapshot (ds : Dataset P) name :
  (∀ id ss, snapshot.data_key id ss ≠ k) → keeps (pinned k v l) (record_snapshot generation ds name).
Proof.
  intros Hss. unfold record_snapshot, lookup_snapshot_id, fetch_ds_data, fetch_data.
  apply keeps_bind; [|intros [x|e]; [auto with keeps|]].
  - apply keeps_catch, keeps_bind; [auto with keeps|]. intros [data|]; auto with keeps.
  - destruct e; try apply keeps_throw. apply keeps_bind.
    { apply keeps_bind; [auto with keeps|]. intros [data|]; [|auto with keeps].
      destruct (ds_unpack data); auto with keeps. }
    intros d. cbv zeta. apply keeps_bind; [auto with keeps|]. intros data.
    apply keeps_bind; [by apply keeps_root_insert|]. intros _.
    apply keeps_bind; [auto with keeps|]. intros msg. by apply keeps_root_insert.
Qed.

End snapshots.

Section lost.
Context {P : Type} (generation : P → Z) (ptr_offset : P → DiskOffset.DiskOffset) (ptr_size : P → Z).
Context `{Bincode P} `{Bincode StorageInfo} `{Bincode DeadListData}.
Context `{Checksum} `{!EqDecision csum} `{Memory} `{Bincode (Superblock P)}.

Lemma lookup_snapshot_none id name db :
  root db !! snapshot.key id name = None → lookup_snapshot_id id name db = Some (inr DoesNotExist, db).
Proof. intros Hn. unfold lookup_snapshot_id, bindM, root_get, layer_get. simpl. by rewrite Hn. Qed.

(** Recording a snapshot needs that its name is not in the root tree. *)
Lemma record_snapshot_fresh (ds : Dataset P) name db db1 :
  record_snapshot generation ds name db = Some (inl tt, db1) →
  root db !! snapshot.key (ds_id ds) name = None.
Proof.
  unfold record_snapshot. intros (found & db0 & Hf & Hr)%bindM_inv.
  destruct (root db !! snapshot.key (ds_id ds) name) as [data|] eqn:E; [|done]. exfalso.
  unfold catch, lookup_snapshot_id, bindM, root_get, layer_get in Hf. simpl in Hf. rewrite E in Hf.
  unfold unwrap in Hf. destruct (Generation.unpack data); simpl in Hf; [|done].
  injection Hf as <- <-. done.
Qed.

Lemma data_key_ne id ds name : dataset.data_key id ≠ snapshot.key ds name.
Proof. intros E%(f_equal head). cbn [head] in E. by vm_compute in E. Qed.

Lemma snapshot_data_key_ne id ss ds name : snapshot.data_key id ss ≠ snapshot.key ds name.
Proof. intros E%(f_equal head). cbn [head] in E. by vm_compute in E. Qed.

(** A snapshot is lost as soon as it is created.  After a call of
    [create_snapshot] that succeeds, neither opening nor deleting a snapshot
    of this name finds it, since its name was not stored; and the handler
    does not know its generation, so that copy on write goes on to free
    blocks of the data set that the snapshot refers to, if it had no snapshot
    when it was opened. *)
Theorem created_snapshot_is_lost (ds : Dataset P) name fuel synced root_sync db db1 :
  let key := snapshot.key (ds_id ds) name in
  create_snapshot generation ptr_offset ptr_size ds name fuel synced root_sync db =
    Some (inl tt, db1) →
  untouched key (delayed_messages (handler db)) → root_sync_leaves key root_sync →
  last_snapshot_generation (handler db) !! ds_id ds = None →
  open_snapshot ds name db1 = Some (inr DoesNotExist, db1) ∧
  delete_snapshot ds name db1 = Some (inr DoesNotExist, db1) ∧
  (∀ offset size born h e,
    copy_on_write (handler db1) offset size born (ds_id ds) = Some (h, e) → e = Removed).
Proof.
  intros key Hc Hu Hsync Hl. unfold create_snapshot in Hc.
  apply bindM_inv in Hc as ([] & db0 & Hrec & Hsy).
  pose proof (record_snapshot_fresh ds name db db0 Hrec) as Hfresh.
  set (l := last_snapshot_generation (handler db)) in *.
  assert (pinned key None l db) as Hi by (by split_and!).
  assert (keeps (pinned key None l) (record_snapshot generation ds name)) as K1.
  { apply keeps_record_snapshot; intros; [apply data_key_ne|apply snapshot_data_key_ne]. }
  assert (keeps (pinned key None l)
    (sync generation ptr_offset ptr_size fuel synced root_sync)) as K2.
  { apply keeps_sync; [intros; apply data_key_ne|done]. }
  destruct (K2 _ _ _ (K1 _ _ _ Hi Hrec) Hsy) as (Hr1 & _ & Hl1).
  split_and!.
  - unfold open_snapshot, bindM. by rewrite lookup_snapshot_none.
  - unfold delete_snapshot, bindM. by rewrite lookup_snapshot_none.
  - intros offset size born h e. unfold copy_on_write. rewrite Hl1, Hl. simpl.
    destruct (count_free _ _ _); simpl; [|done]. destruct (space_messages _ _ _ _); simpl; [|done].
    by intros [= <- <-].
Qed.


End lost.

(** ** Examples *)

Module DatabaseExamples.
Import PolyHash SuperblockExamples.

(** Pointers are numbers, each its own generation. *)
#[export] Instance ptr_bincode : Bincode Z := {
  serialize p := bits (encode p);
  deserialize b := p ← of_bits b; decode p;
}.

#[export] Instance ptr_bincode_laws : BincodeLaws Z.
Proof. split. intros a rest. simpl. rewrite of_bits_bits. simpl. apply decode_encode. Qed.

#[export] Instance info_bincode : Bincode StorageInfo := {
  serialize p := bits (encode p);
  deserialize b := p ← of_bits b; decode p;
}.

#[export] Instance dead_bincode : Bincode DeadListData := {
  serialize d := bits (encode (dead_size d, birth d));
  deserialize b := p ← of_bits b; x ← decode p; Some (mkDead x.1 x.2);
}.

(** A new database on two disks that hold the superblock of generation 4. *)
Definition new_handler : Handler :=
  mkHandler ∅ None 5 ∅ (replicate 4 (mkInfo 100 100)) [] ∅ ∅ 0 None.
Definition new_db : Database := mkDb new_handler ∅ pool4.

(** The sync of the root tree returns pointer 5 and allocates nothing. *)
Definition sync_5 (h : Handler) : option (Z * Handler) := Some (5, h).

Definition no_offset (p : Z) : DiskOffset.DiskOffset := DiskOffset.mk 0.
Definition one_block (p : Z) : Z := 1.

Definition data_name : bytes := [to_u8 100].
Definition snap_name : bytes := [to_u8 115].

(** The state after an operation. *)
Definition after {A} (m : M A) (db : Database) : Database :=
  match m db with Some (_, db') => db' | None => db end.

Lemma created_dataset_opens_witness :
  ∃ db1 db2, create_custom_dataset data_name (λ _, 4) new_db = Some (inl tt, db1) ∧
    open_custom_dataset data_name db1 = Some (inl (mkDataset 1 4 data_name ∅), db2).
Proof.
  destruct (created_dataset_opens data_name (λ _, 4) new_db 0) as (db1 & db2 & E1 & E2 & _).
  - reflexivity.
  - lia.
  - unfold U64_SIZE. lia.
  - reflexivity.
  - apply not_elem_of_empty.
  - exists db1, db2. split; [exact E1|exact E2].
Defined.

(** The database with one data set. *)
Definition ds_db : Database := after (create_custom_dataset data_name (λ _, 4)) new_db.
Definition the_ds : Dataset Z := mkDataset 1 4 data_name ∅.

Lemma closed_dataset_reopens_witness :
  ∃ db1 db2, close_dataset the_ds false 7 ds_db = Some (inl tt, db1) ∧
    open_custom_dataset data_name db1 = Some (inl (mkDataset 1 7 data_name ∅), db2).
Proof.
  destruct (closed_dataset_reopens ds_db the_ds data_name
    (default [] (root ds_db !! dataset.data_key 1)) (mkDs None 4) 7)
    as (db1 & db2 & E1 & _ & _ & E2 & _).
  - unfold u64, U64_SIZE. simpl. lia.
  - vm_compute. reflexivity.
  - vm_compute. reflexivity.
  - vm_compute. reflexivity.
  - intros g E. discriminate E.
  - vm_compute. reflexivity.
  - exists db1, db2. split; [exact E1|exact E2].
Defined.

Definition snap_db : Database :=
  after (create_snapshot id no_offset one_block the_ds snap_name 1 [] sync_5) ds_db.

Lemma created_snapshot_is_lost_witness :
  create_snapshot id no_offset one_block the_ds snap_name 1 [] sync_5 ds_db =
    Some (inl tt, snap_db) ∧
  open_snapshot the_ds snap_name snap_db = Some (inr DoesNotExist, snap_db).
Proof.
  assert (create_snapshot id no_offset one_block the_ds snap_name 1 [] sync_5 ds_db =
    Some (inl tt, snap_db)) as E by (vm_compute; reflexivity).
  split; [exact E|].
  destruct (created_snapshot_is_lost id no_offset one_block the_ds snap_name 1 [] sync_5
    ds_db snap_db) as (Ho & _ & _).
  - exact E.
  - constructor.
  - intros h p h' [= <- <-]. auto.
  - reflexivity.
  - exact Ho.
Defined.


(** The list of snapshots of a data set goes on with those of the next. *)
Lemma iter_snapshots_too_far :
  let db := set_root new_db {[snapshot.key 2 snap_name := be64 4]} in
  iter_snapshots the_ds db = Some (inl [snap_name], db).
Proof. vm_compute. reflexivity. Qed.

End DatabaseExamples.
