(* ===== verification/Vdev.v ===== *)
(** * Leaf devices

    [vdev/mod.rs] (statistics, the traits of leaf devices), [vdev/mem.rs] and
    [vdev/file.rs].  A device is its state; an operation returns a value or an
    error, and the device after it.  [None] is a panic: an overflow of an
    offset, or a length that is no multiple of the block size.

    What the redundant devices rely on is stated as the laws of the class
    [VdevLeaf]: a request never panics, and a device that works ([leaf_ok])
    reads back what was written.  A device that does not work may answer
    anything. *)

From Stdlib Require Import ZArith Lia String.
From stdpp Require Import base option list numbers.
From S2P Require Import Prelude.
From S2P Require Import Bytes.
From S2P Require Import Checksum.
From S2P Require Import Disk.
From S2P Require Import Buffer.

Inductive VdevError :=
  | VIo | VChecksum | VRead (id : string) | VWrite (id : string).

(** ** Statistics *)

Record AtomicStatistics := mkStats {
  st_read : Z; st_written : Z; st_failed_reads : Z; st_checksum_errors : Z;
  st_repaired : Z; st_failed_writes : Z;
}.

(** [fetch_add], which wraps *)
Definition add_read (n : Z) (s : AtomicStatistics) : AtomicStatistics :=
  mkStats (wrap64 (st_read s + n)) (st_written s) (st_failed_reads s) (st_checksum_errors s)
    (st_repaired s) (st_failed_writes s).
Definition add_written (n : Z) (s : AtomicStatistics) : AtomicStatistics :=
  mkStats (st_read s) (wrap64 (st_written s + n)) (st_failed_reads s) (st_checksum_errors s)
    (st_repaired s) (st_failed_writes s).
Definition add_failed_reads (n : Z) (s : AtomicStatistics) : AtomicStatistics :=
  mkStats (st_read s) (st_written s) (wrap64 (st_failed_reads s + n)) (st_checksum_errors s)
    (st_repaired s) (st_failed_writes s).
Definition add_checksum_errors (n : Z) (s : AtomicStatistics) : AtomicStatistics :=
  mkStats (st_read s) (st_written s) (st_failed_reads s) (wrap64 (st_checksum_errors s + n))
    (st_repaired s) (st_failed_writes s).
Definition add_repaired (n : Z) (s : AtomicStatistics) : AtomicStatistics :=
  mkStats (st_read s) (st_written s) (st_failed_reads s) (st_checksum_errors s)
    (wrap64 (st_repaired s + n)) (st_failed_writes s).
Definition add_failed_writes (n : Z) (s : AtomicStatistics) : AtomicStatistics :=
  mkStats (st_read s) (st_written s) (st_failed_reads s) (st_checksum_errors s)
    (st_repaired s) (wrap64 (st_failed_writes s + n)).

Definition no_stats : AtomicStatistics := mkStats 0 0 0 0 0 0.

(** [Statistics], what [as_stats] reports *)
Record Statistics := mkStatistics {
  rep_read : Z; rep_written : Z; rep_failed_reads : Z; rep_checksum_errors : Z;
  rep_failed_writes : Z;
}.

Definition as_stats (s : AtomicStatistics) : Statistics :=
  mkStatistics (st_read s) (st_written s) (st_failed_reads s) (st_checksum_errors s)
    (st_failed_writes s).

(** [ScrubResult] *)
Record ScrubResult := mkScrub { scrub_data : bytes; faulted : Z; repaired : Z }.

(** ** The traits of a leaf device

    [leaf_read_raw d len offset] and [leaf_write_raw d data offset is_repair]
    are those of [VdevLeafRead] and [VdevLeafWrite]; [leaf_read],
    [leaf_scrub] and [leaf_read_all] are [read], [scrub] and [read_raw] of
    [VdevRead]. *)

Abbreviation IO D A := (option ((A + VdevError) * D)) (only parsing).

Class VdevLeaf `{Checksum} (D : Type) := {
  leaf_read_raw : D → Z → Z → IO D bytes;
  leaf_write_raw : D → bytes → Z → bool → IO D unit;
  leaf_read : D → Z → Z → csum → IO D bytes;
  leaf_scrub : D → Z → Z → csum → IO D ScrubResult;
  leaf_read_all : D → Z → Z → IO D (list bytes);
  leaf_flush : D → IO D unit;
  checksum_error_occurred : D → Z → D;
  leaf_size : D → Z;
}.

(** A request that no counter overflows on: blocks from [offset] on. *)
Definition addressable (offset len : Z) : Prop :=
  0 ≤ offset ∧ 0 ≤ len ∧ len mod BLOCK_SIZE = 0 ∧ len < U32_SIZE ∧
  BLOCK_SIZE * offset + len < U64_SIZE.

(** [leaf_ok]: the device works; [leaf_bytes]: what is on it then. *)
Class VdevLeafLaws `{VdevLeaf D} := {
  leaf_ok : D → Prop;
  leaf_bytes : D → bytes;
  leaf_read_raw_total d len off : addressable off len →
    ∃ r d', leaf_read_raw d len off = Some (r, d') ∧ (∀ b, r = inl b → blen b = len) ∧
      (leaf_ok d → leaf_ok d' ∧ leaf_bytes d' = leaf_bytes d);
  leaf_write_raw_total d data off rep : addressable off (blen data) →
    ∃ r d', leaf_write_raw d data off rep = Some (r, d');
  leaf_read_total d size off c : addressable off (BLOCK_SIZE * size) →
    ∃ r d', leaf_read d size off c = Some (r, d') ∧
      (∀ b, r = inl b → blen b = BLOCK_SIZE * size ∧ csum_verify c b = true) ∧
      (leaf_ok d → leaf_ok d' ∧ leaf_bytes d' = leaf_bytes d ∧
        (0 < size → ∀ b, r = inl b →
          cut (leaf_bytes d) (BLOCK_SIZE * off) (BLOCK_SIZE * size) = Some b));
  leaf_read_raw_ok d len off : leaf_ok d → addressable off len →
    BLOCK_SIZE * off + len ≤ blen (leaf_bytes d) →
    ∃ b d', leaf_read_raw d len off = Some (inl b, d') ∧
      cut (leaf_bytes d) (BLOCK_SIZE * off) len = Some b;
  leaf_write_raw_ok d data off rep : leaf_ok d → addressable off (blen data) →
    BLOCK_SIZE * off + blen data ≤ blen (leaf_bytes d) →
    ∃ d', leaf_write_raw d data off rep = Some (inl tt, d') ∧ leaf_ok d' ∧
      leaf_bytes d' = copy_to (leaf_bytes d) (BLOCK_SIZE * off) data;
  leaf_read_ok d size off c b : leaf_ok d → addressable off (BLOCK_SIZE * size) →
    cut (leaf_bytes d) (BLOCK_SIZE * off) (BLOCK_SIZE * size) = Some b →
    csum_verify c b = true → ∃ d', leaf_read d size off c = Some (inl b, d');
  leaf_flush_total d : ∃ r d', leaf_flush d = Some (r, d') ∧
    (leaf_ok d → leaf_ok d' ∧ leaf_bytes d' = leaf_bytes d);
  checksum_error_ok d n : leaf_ok d →
    leaf_ok (checksum_error_occurred d n) ∧ leaf_bytes (checksum_error_occurred d n) = leaf_bytes d;
}.

(** ** Requests to all disks

    The futures that are collected, in the order in which they are created. *)

Fixpoint each_disk {D A} (op : D → IO D A) (ds : list D) :
    option (list (A + VdevError) * list D) :=
  match ds with
  | [] => Some ([], [])
  | d :: ds =>
      '(r, d) ← op d;
      '(rs, ds) ← each_disk op ds;
      Some (r :: rs, d :: ds)
  end.

(** The loop that calls [f(vdev)?] for every disk. *)
Fixpoint try_each {D} (op : D → IO D unit) (ds : list D) : IO (list D) unit :=
  match ds with
  | [] => Some (inl tt, [])
  | d :: ds =>
      '(r, d) ← op d;
      match r with
      | inr e => Some (inr e, d :: ds)
      | inl _ => '(r, ds) ← try_each op ds; Some (r, d :: ds)
      end
  end.

(** [result.into_iter().flatten()], and the first error *)
Definition successes {A} (rs : list (A + VdevError)) : list A :=
  omap (λ r, match r with inl a => Some a | inr _ => None end) rs.

Definition errors {A} (rs : list (A + VdevError)) : list VdevError :=
  omap (λ r, match r with inl _ => None | inr e => Some e end) rs.

Definition nth_disk {D A} (ds : list D) (idx : nat) (op : D → IO D A) : IO (list D) A :=
  d ← ds !! idx;
  '(r, d) ← op d;
  Some (r, <[idx := d]> ds).

(** ** Devices in memory *)

Record MemoryDev := mkMem {
  mem : bytes; mem_id : string; mem_size : Z; mem_stats : AtomicStatistics;
}.

(** [Memory::new] *)
Definition memory_new (size : Z) (id : string) : option MemoryDev :=
  blocks ← Block.from_bytes size;
  Some (mkMem (replicate (Z.to_nat size) zero) id blocks no_stats).

Definition mem_count (f : AtomicStatistics → AtomicStatistics) (m : MemoryDev) : MemoryDev :=
  mkMem (mem m) (mem_id m) (mem_size m) (f (mem_stats m)).

(** [slice], [slice_mut]: [None] inside is a range outside of the memory. *)
Definition mem_slice (m : MemoryDev) (size offset : Z) : option (option bytes) :=
  e ← u64_add offset size;
  Some (cut (mem m) offset size).

(** [slice_read] *)
Definition mem_slice_read (m : MemoryDev) (size offset : Z) : IO MemoryDev bytes :=
  let m := mem_count (add_read size) m in
  len ← Block.to_bytes U32_SIZE size;
  pos ← Block.to_bytes U64_SIZE offset;
  s ← mem_slice m len pos;
  match s with
  | Some b => Some (inl b, m)
  | None => Some (inr (VRead (mem_id m)), mem_count (add_failed_reads size) m)
  end.

Section memory.
Context `{Checksum}.

(** [VdevRead::read] *)
Definition mem_read (m : MemoryDev) (size offset : Z) (checksum : csum) : IO MemoryDev bytes :=
  '(r, m) ← mem_slice_read m size offset;
  match r with
  | inr e => Some (inr e, m)
  | inl buf =>
      if csum_verify checksum buf then Some (inl buf, m)
      else Some (inr (VRead (mem_id m)), mem_count (add_checksum_errors size) m)
  end.

(** [VdevRead::scrub] *)
Definition mem_scrub (m : MemoryDev) (size offset : Z) (checksum : csum) :
    IO MemoryDev ScrubResult :=
  '(r, m) ← mem_read m size offset checksum;
  Some (match r with inl data => inl (mkScrub data 0 0) | inr e => inr e end, m).

(** [VdevRead::read_raw] *)
Definition mem_read_all (m : MemoryDev) (size offset : Z) : IO MemoryDev (list bytes) :=
  '(r, m) ← mem_slice_read m size offset;
  Some (match r with inl b => inl [b] | inr e => inr e end, m).

(** [VdevLeafRead::read_raw] *)
Definition mem_read_raw (m : MemoryDev) (len offset : Z) : IO MemoryDev bytes :=
  size ← Block.from_bytes (wrap32 len);
  let m := mem_count (add_read size) m in
  pos ← Block.to_bytes U64_SIZE offset;
  s ← mem_slice m len pos;
  match s with
  | Some src => Some (inl src, m)
  | None => Some (inr (VRead (mem_id m)), mem_count (add_failed_reads size) m)
  end.

(** [VdevLeafWrite::write_raw] *)
Definition mem_write_raw (m : MemoryDev) (data : bytes) (offset : Z) (is_repair : bool) :
    IO MemoryDev unit :=
  block_cnt ← Block.from_bytes (blen data);
  let m := mem_count (add_written block_cnt) m in
  pos ← Block.to_bytes U64_SIZE offset;
  s ← mem_slice m (blen data) pos;
  match s with
  | Some _ =>
      let m := mkMem (copy_to (mem m) pos data) (mem_id m) (mem_size m) (mem_stats m) in
      Some (inl tt, if is_repair then mem_count (add_repaired block_cnt) m else m)
  | None => Some (inr (VWrite (mem_id m)), mem_count (add_failed_writes block_cnt) m)
  end.

#[global] Instance MemoryDev_leaf : VdevLeaf MemoryDev := {|
  leaf_read_raw := mem_read_raw;
  leaf_write_raw := mem_write_raw;
  leaf_read := mem_read;
  leaf_scrub := mem_scrub;
  leaf_read_all := mem_read_all;
  leaf_flush m := Some (inl tt, m);
  checksum_error_occurred m size := mem_count (add_checksum_errors size) m;
  leaf_size := mem_size;
|}.

End memory.

(** ** Files

    The file of the operating system is a parameter: reads and writes at a
    position, each of which may fail. *)

Class FileIO (F : Type) := {
  read_exact_at : F → Z → Z → (bytes + unit) * F;
  write_all_at : F → bytes → Z → (unit + unit) * F;
  sync_data : F → (unit + unit) * F;
}.

(** A file that works returns what was written to it; a read that succeeds
    fills its buffer. *)
Class FileIOLaws `{FileIO F} := {
  file_ok : F → Prop;
  file_bytes : F → bytes;
  read_exact_length f len pos b f' : read_exact_at f len pos = (inl b, f') → blen b = len;
  read_exact_ok f len pos b : file_ok f → cut (file_bytes f) pos len = Some b →
    ∃ f', read_exact_at f len pos = (inl b, f');
  read_exact_only f len pos b f' : file_ok f → 0 < len → read_exact_at f len pos = (inl b, f') →
    cut (file_bytes f) pos len = Some b;
  read_exact_keeps f len pos r f' : file_ok f → read_exact_at f len pos = (r, f') →
    file_ok f' ∧ file_bytes f' = file_bytes f;
  sync_keeps f r f' : file_ok f → sync_data f = (r, f') → file_ok f' ∧ file_bytes f' = file_bytes f;
  write_all_ok f data pos : file_ok f → 0 ≤ pos → pos + blen data ≤ blen (file_bytes f) →
    ∃ f', write_all_at f data pos = (inl tt, f') ∧ file_ok f' ∧
      file_bytes f' = copy_to (file_bytes f) pos data;
}.

Record FileDev (F : Type) := mkFile {
  file : F; file_id : string; file_size : Z; file_stats : AtomicStatistics;
}.
Arguments mkFile {F} _ _ _ _.
Arguments file {F} _.
Arguments file_id {F} _.
Arguments file_size {F} _.
Arguments file_stats {F} _.

(** What the metadata of a file say; [None] is a failed [ioctl]. *)
Inductive FileKind := RegularFile (len : Z) | BlockDevice (size : option Z) | OtherFile.

Section file.
Context {F : Type} `{FileIO F} `{Checksum}.

(** [File::new] *)
Definition file_new (f : F) (kind : FileKind) (id : string) : option (FileDev F + unit) :=
  match kind with
  | RegularFile len => size ← Block.from_bytes len; Some (inl (mkFile f id size no_stats))
  | BlockDevice (Some len) => size ← Block.from_bytes len; Some (inl (mkFile f id size no_stats))
  | BlockDevice None | OtherFile => Some (inr tt)
  end.

Definition file_count (g : AtomicStatistics → AtomicStatistics) (d : FileDev F) : FileDev F :=
  mkFile (file d) (file_id d) (file_size d) (g (file_stats d)).

Definition set_file (d : FileDev F) (f : F) : FileDev F :=
  mkFile f (file_id d) (file_size d) (file_stats d).

(** [VdevRead::read] *)
Definition file_read (d : FileDev F) (size offset : Z) (checksum : csum) : IO (FileDev F) bytes :=
  let d := file_count (add_read size) d in
  len ← Block.to_bytes U32_SIZE size;
  pos ← Block.to_bytes U64_SIZE offset;
  let '(r, f) := read_exact_at (file d) len pos in
  let d := set_file d f in
  match r with
  | inr _ => Some (inr VIo, file_count (add_failed_reads size) d)
  | inl buf =>
      if csum_verify checksum buf then Some (inl buf, d)
      else Some (inr VChecksum, file_count (add_checksum_errors size) d)
  end.

(** [VdevRead::scrub] *)
Definition file_scrub (d : FileDev F) (size offset : Z) (checksum : csum) :
    IO (FileDev F) ScrubResult :=
  '(r, d) ← file_read d size offset checksum;
  Some (match r with inl data => inl (mkScrub data 0 0) | inr e => inr e end, d).

(** [VdevRead::read_raw] *)
Definition file_read_all (d : FileDev F) (size offset : Z) : IO (FileDev F) (list bytes) :=
  let d := file_count (add_read size) d in
  len ← Block.to_bytes U32_SIZE size;
  pos ← Block.to_bytes U64_SIZE offset;
  let '(r, f) := read_exact_at (file d) len pos in
  let d := set_file d f in
  match r with
  | inl buf => Some (inl [buf], d)
  | inr _ => Some (inr VIo, file_count (add_failed_reads size) d)
  end.

(** [VdevLeafRead::read_raw] *)
Definition file_read_raw (d : FileDev F) (len offset : Z) : IO (FileDev F) bytes :=
  size ← Block.from_bytes (wrap32 len);
  let d := file_count (add_read size) d in
  pos ← Block.to_bytes U64_SIZE offset;
  let '(r, f) := read_exact_at (file d) len pos in
  let d := set_file d f in
  match r with
  | inl buf => Some (inl buf, d)
  | inr _ => Some (inr VIo, file_count (add_failed_reads size) d)
  end.

(** [VdevLeafWrite::write_raw] *)
Definition file_write_raw (d : FileDev F) (data : bytes) (offset : Z) (is_repair : bool) :
    IO (FileDev F) unit :=
  block_cnt ← Block.from_bytes (blen data);
  let d := file_count (add_written block_cnt) d in
  pos ← Block.to_bytes U64_SIZE offset;
  let '(r, f) := write_all_at (file d) data pos in
  let d := set_file d f in
  match r with
  | inl _ => Some (inl tt, if is_repair then file_count (add_repaired block_cnt) d else d)
  | inr _ => Some (inr (VWrite (file_id d)), file_count (add_failed_writes block_cnt) d)
  end.

Definition file_flush (d : FileDev F) : IO (FileDev F) unit :=
  let '(r, f) := sync_data (file d) in
  Some (match r with inl _ => inl tt | inr _ => inr VIo end, set_file d f).

#[global] Instance FileDev_leaf : VdevLeaf (FileDev F) := {|
  leaf_read_raw := file_read_raw;
  leaf_write_raw := file_write_raw;
  leaf_read := file_read;
  leaf_scrub := file_scrub;
  leaf_read_all := file_read_all;
  leaf_flush := file_flush;
  checksum_error_occurred d size := file_count (add_checksum_errors size) d;
  leaf_size := file_size;
|}.

End file.

(** ** Both keep the laws *)

Lemma addressable_parts off len :
  addressable off len →
  Block.from_bytes len = Some (len / BLOCK_SIZE) ∧ wrap32 len = len ∧
  Block.to_bytes U64_SIZE off = Some (BLOCK_SIZE * off) ∧ 0 ≤ BLOCK_SIZE * off ∧
  u64_add (BLOCK_SIZE * off) len = Some (BLOCK_SIZE * off + len).
Proof.
  intros (Ho & Hl & Hm & Hu & Ha). unfold Block.from_bytes, Block.to_bytes, umul, wrap32.
  rewrite Hm. simpl. rewrite (Z.mul_comm off).
  rewrite (proj2 (Z.ltb_lt (BLOCK_SIZE * off) _)), u64_add_Some by lia.
  split_and!; try done; [apply Z.mod_small; unfold U32_SIZE in *; lia|unfold BLOCK_SIZE; lia].
Qed.

Lemma size_to_bytes size off :
  addressable off (BLOCK_SIZE * size) → Block.to_bytes U32_SIZE size = Some (BLOCK_SIZE * size).
Proof.
  intros (_ & _ & _ & Hu & _). unfold Block.to_bytes, umul. rewrite Z.mul_comm.
  by rewrite (proj2 (Z.ltb_lt _ _)).
Qed.

Lemma cut_in_range (b : bytes) pos len : 0 ≤ pos → 0 ≤ len → pos + len ≤ blen b →
  ∃ r, cut b pos len = Some r.
Proof.
  intros ???. unfold cut.
  rewrite (proj2 (Z.leb_le 0 pos)), (proj2 (Z.leb_le 0 len)), (proj2 (Z.leb_le _ (blen b))) by done.
  eauto.
Qed.

Section laws.
Context `{Checksum}.

#[global] Program Instance MemoryDev_laws : VdevLeafLaws (D := MemoryDev) := {|
  leaf_ok m := True; leaf_bytes := mem;
|}.
Next Obligation.
  intros d len off Ha. destruct (addressable_parts _ _ Ha) as (Hb & Hw & Hp & H0 & Hadd). simpl.
  unfold mem_read_raw, mem_slice. rewrite Hw, Hb, Hp. cbn [mbind option_bind]. rewrite Hadd.
  cbn [mbind option_bind]. destruct (cut _ _ _) eqn:E; eexists _, _; (split; [done|]); [|done].
  split; [|done]. intros b' [= <-]. by apply cut_Some in E as (_&_&_&_&?).
Qed.
Next Obligation.
  intros d data off rep Ha. destruct (addressable_parts _ _ Ha) as (Hb & Hw & Hp & H0 & Hadd).
  simpl. unfold mem_write_raw, mem_slice. rewrite Hb, Hp. cbn [mbind option_bind]. rewrite Hadd.
  cbn [mbind option_bind]. destruct (cut _ _ _); eauto.
Qed.
Next Obligation.
  intros d size off c Ha. destruct (addressable_parts _ _ Ha) as (Hb & Hw & Hp & H0 & Hadd).
  simpl. unfold mem_read, mem_slice_read, mem_slice. rewrite (size_to_bytes _ _ Ha), Hp.
  cbn [mbind option_bind]. rewrite Hadd. cbn [mbind option_bind].
  destruct (cut _ _ _) as [b|] eqn:E; cbn [mbind option_bind]; [|by eexists _, _].
  destruct (csum_verify c b) eqn:V; eexists _, _; (split; [done|]); [|done].
  split; [|intros _; split_and!; try done; by intros _ b' [= <-]].
  intros b' [= <-]. by apply cut_Some in E as (_&_&_&_&?).
Qed.
Next Obligation.
  intros d len off _ Ha Hr. destruct (addressable_parts _ _ Ha) as (Hb & Hw & Hp & H0 & Hadd).
  simpl. unfold mem_read_raw, mem_slice. rewrite Hw, Hb, Hp. cbn [mbind option_bind]. rewrite Hadd.
  cbn [mbind option_bind]. destruct (cut_in_range (mem d) (BLOCK_SIZE * off) len) as [b E];
    [done|by destruct Ha as (_&?&_)|done|].
  change (mem (mem_count (add_read (len / BLOCK_SIZE)) d)) with (mem d). rewrite E.
  by eexists _, _.
Qed.
Next Obligation.
  intros d data off rep _ Ha Hr. destruct (addressable_parts _ _ Ha) as (Hb & Hw & Hp & H0 & Hadd).
  simpl. unfold mem_write_raw, mem_slice. rewrite Hb, Hp. cbn [mbind option_bind]. rewrite Hadd.
  cbn [mbind option_bind].
  destruct (cut_in_range (mem d) (BLOCK_SIZE * off) (blen data)) as [b E];
    [done|by destruct Ha as (_&?&_)|done|].
  change (mem (mem_count (add_written (blen data / BLOCK_SIZE)) d)) with (mem d). rewrite E.
  eexists. split; [done|]. split; [done|]. by destruct rep.
Qed.
Next Obligation.
  intros d size off c b _ Ha E V. destruct (addressable_parts _ _ Ha) as (Hb & Hw & Hp & H0 & Hadd).
  simpl. unfold mem_read, mem_slice_read, mem_slice. rewrite (size_to_bytes _ _ Ha), Hp.
  cbn [mbind option_bind]. rewrite Hadd. cbn [mbind option_bind].
  change (mem (mem_count (add_read size) d)) with (mem d). rewrite E. cbn [mbind option_bind].
  rewrite V. by eexists.
Qed.
Next Obligation. intros d. by eexists _, _. Qed.
Next Obligation. done. Qed.

#[global] Program Instance FileDev_laws `{FileIOLaws F} : VdevLeafLaws (D := FileDev F) := {|
  leaf_ok d := file_ok (file d); leaf_bytes d := file_bytes (file d);
|}.
Next Obligation.
  intros F FI FL d len off Ha. destruct (addressable_parts _ _ Ha) as (Hb & Hw & Hp & _). simpl.
  unfold file_read_raw. rewrite Hw, Hb, Hp. cbn [mbind option_bind].
  destruct (read_exact_at _ _ _) as [[b|?] f] eqn:E; eexists _, _; (split; [done|]).
  - split; [intros b' [= <-]; by eapply read_exact_length|]. intros. by eapply read_exact_keeps.
  - split; [done|]. intros. by eapply read_exact_keeps.
Qed.
Next Obligation.
  intros F FI FL d data off rep Ha. destruct (addressable_parts _ _ Ha) as (Hb & Hw & Hp & _).
  simpl. unfold file_write_raw. rewrite Hb, Hp. cbn [mbind option_bind].
  destruct (write_all_at _ _ _) as [[?|?] f]; eauto.
Qed.
Next Obligation.
  intros F FI FL d size off c Ha. destruct (addressable_parts _ _ Ha) as (Hb & Hw & Hp & _).
  simpl. unfold file_read. rewrite (size_to_bytes _ _ Ha), Hp. cbn [mbind option_bind].
  destruct (read_exact_at _ _ _) as [[b|?] f] eqn:E.
  - destruct (csum_verify c b) eqn:V; eexists _, _; (split; [done|]); split; try done.
    + intros b' [= <-]. split; [by eapply read_exact_length|done].
    + intros Hok. destruct (read_exact_keeps _ _ _ _ _ Hok E). split_and!; try done.
      intros Hs b' [= <-]. eapply read_exact_only; [done| |done]. unfold BLOCK_SIZE. lia.
    + intros Hok. by destruct (read_exact_keeps _ _ _ _ _ Hok E).
  - eexists _, _. split; [done|]. split; [done|]. intros Hok. by destruct (read_exact_keeps _ _ _ _ _ Hok E).
Qed.
Next Obligation.
  intros F FI FL d len off Hok Ha Hr. destruct (addressable_parts _ _ Ha) as (Hb & Hw & Hp & H0 & _).
  simpl. unfold file_read_raw. rewrite Hw, Hb, Hp. cbn [mbind option_bind].
  destruct (cut_in_range (file_bytes (file d)) (BLOCK_SIZE * off) len) as [b E];
    [done|by destruct Ha as (_&?&_)|done|].
  destruct (read_exact_ok (file d) _ _ _ Hok E) as (f & Ef). simpl. rewrite Ef.
  by eexists _, _.
Qed.
Next Obligation.
  intros F FI FL d data off rep Hok Ha Hr.
  destruct (addressable_parts _ _ Ha) as (Hb & Hw & Hp & H0 & _).
  simpl. unfold file_write_raw. rewrite Hb, Hp. cbn [mbind option_bind].
  destruct (write_all_ok (file d) data (BLOCK_SIZE * off) Hok) as (f & Ef & ? & ?); [done..|].
  simpl. rewrite Ef. eexists. split; [done|]. by destruct rep.
Qed.
Next Obligation.
  intros F FI FL d size off c b Hok Ha E V. destruct (addressable_parts _ _ Ha) as (Hb & Hw & Hp & _).
  simpl. unfold file_read. rewrite (size_to_bytes _ _ Ha), Hp. cbn [mbind option_bind].
  destruct (read_exact_ok (file d) _ _ _ Hok E) as (f & Ef). simpl. rewrite Ef, V. by eexists.
Qed.
Next Obligation.
  intros F FI FL d. simpl. unfold file_flush. destruct (sync_data _) as [r f] eqn:E. eexists _, _.
  split; [done|]. simpl. intros. by eapply sync_keeps.
Qed.
Next Obligation. done. Qed.

End laws.

(** ** Writing into a device *)

Lemma blen_copy_to b pos data :
  0 ≤ pos → pos + blen data ≤ blen b → blen (copy_to b pos data) = blen b.
Proof.
  intros. unfold copy_to, blen in *. rewrite !length_app, length_take, length_drop. lia.
Qed.

Lemma cut_copy_to_same b pos data :
  0 ≤ pos → pos + blen data ≤ blen b → cut (copy_to b pos data) pos (blen data) = Some data.
Proof.
  intros. unfold copy_to. apply cut_app_mid; [|done].
  unfold blen in *. rewrite length_take. lia.
Qed.

Lemma cut_copy_to_other b pos data p len :
  0 ≤ pos → pos + blen data ≤ blen b →
  len = 0 ∨ blen data = 0 ∨ p + len ≤ pos ∨ pos + blen data ≤ p →
  cut (copy_to b pos data) p len = cut b p len.
Proof.
  intros H0 Hr Ho. unfold cut. rewrite blen_copy_to by done.
  destruct (Z.leb_spec 0 p); [|done]. destruct (Z.leb_spec 0 len); [|done].
  destruct (Z.leb_spec (p + len) (blen b)); [|done]. simpl. f_equal. unfold copy_to, blen in *.
  destruct Ho as [->|[Hd|Ho]]; [done| |].
  { destruct data; [|simpl in Hd; lia]. simpl. by rewrite Nat.add_0_r, take_drop. }
  apply list_eq. intros i. destruct (decide (i < Z.to_nat len)%nat).
  - rewrite !lookup_take_lt, !lookup_drop by lia.
    destruct Ho.
    + rewrite lookup_app_l, lookup_take_lt by (rewrite ?length_take; lia). done.
    + rewrite !lookup_app_r by (rewrite ?length_take; lia). rewrite lookup_drop. f_equal.
      rewrite length_take. lia.
  - rewrite !lookup_take_ge by lia. done.
Qed.
