(* ===== verification/Parity.v ===== *)
(** * Single parity (RAID 5)

    [vdev/parity1.rs].  A request of [size] blocks at [offset] is cut into one
    column for every disk but one; the disk with number [offset mod n] gets
    the exclusive or of the columns.  Columns lie on the disks that follow,
    round the end with the next row.

    The reads and writes that the source runs as futures are for different
    disks, and are run here in the order in which they are created.  The part
    of the buffer that a failed read should have filled is uninitialised
    memory. *)

From Stdlib Require Import ZArith Lia String.
From stdpp Require Import base option list numbers.
From S2P Require Import Prelude.
From S2P Require Import Bytes.
From S2P Require Import Checksum.
From S2P Require Import Disk.
From S2P Require Import Buffer.
From S2P Require Import Vdev.

Record Parity1 (D : Type) := mkParity {
  p_vdevs : list D; p_id : string; p_stats : AtomicStatistics;
}.
Arguments mkParity {D} _ _ _.
Arguments p_vdevs {D} _.
Arguments p_id {D} _.
Arguments p_stats {D} _.

(** ** Columns *)

(** [long_col_len], [long_col_cnt]: length in blocks and number of the long
    columns of a request. *)
Definition long_col_len (disk_cnt size : Z) : Z :=
  if size =? 0 then 0 else (size - 1) / (disk_cnt - 1) + 1.

Definition long_col_cnt (disk_cnt size : Z) : Z :=
  if size =? 0 then disk_cnt - 1
  else
    let cnt := size mod (disk_cnt - 1) in
    if cnt =? 0 then disk_cnt - 1 else cnt.

(** [col_length_sequence] *)
Definition col_length_sequence (long_col_len long_col_cnt disk_cnt : Z) : list Z :=
  take (Z.to_nat (disk_cnt - 1))
    (replicate (Z.to_nat long_col_cnt) long_col_len ++
     replicate (Z.to_nat (disk_cnt - 1)) (if long_col_len =? 0 then 0 else long_col_len - 1)).

Definition calc_col_length (col_idx : nat) (long_col_len long_col_cnt : Z) : Z :=
  if Z.of_nat col_idx <? long_col_cnt then long_col_len else long_col_len - 1.

Definition calc_col_offset (col_idx : nat) (long_col_len long_col_cnt : Z) : Z :=
  if Z.of_nat col_idx <=? long_col_cnt then long_col_len * Z.of_nat col_idx
  else long_col_len * long_col_cnt + (long_col_len - 1) * (Z.of_nat col_idx - long_col_cnt).

(** [disk_iter]: the number of the disk and the row of each column. *)
Definition disk_iter (disk_cnt parity_idx : nat) (parity_disk_offset : Z) : list (nat * Z) :=
  ((λ i, (i, parity_disk_offset)) <$> seq (S parity_idx) (disk_cnt - S parity_idx)) ++
  ((λ i, (i, parity_disk_offset + 1)) <$> seq 0 parity_idx).

Definition byte_xor (x y : byte) : byte := to_u8 (Z.lxor (u8 x) (u8 y)).

(** [xor]: what is past the end of one of them is left alone. *)
Fixpoint xor (d s : bytes) : bytes :=
  match d, s with
  | x :: d, y :: s => byte_xor x y :: xor d s
  | d, _ => d
  end.

(** [block_iter]: all items; [split_at] panics past the end. *)
Fixpoint split_columns (lens : list Z) (data : bytes) : option (list bytes) :=
  match lens with
  | [] => Some []
  | col_length :: lens =>
      len ← Block.to_bytes U32_SIZE col_length;
      cur ← cut data 0 len;
      rest ← split_columns lens (drop (Z.to_nat len) data);
      Some (cur :: rest)
  end.

Definition block_iter (long_col_len long_col_cnt disk_cnt : Z) (data : bytes) :
    option (list bytes) :=
  split_columns (col_length_sequence long_col_len long_col_cnt disk_cnt) data.

(** The loop of [build_parity]. *)
Fixpoint parity_loop (lens : list Z) (data parity_block : bytes) : option bytes :=
  match lens with
  | [] => Some parity_block
  | col_len :: lens =>
      if col_len =? 0 then Some parity_block
      else
        len ← Block.to_bytes U32_SIZE col_len;
        cur_col ← cut data 0 len;
        parity_loop lens (drop (Z.to_nat len) data) (xor parity_block cur_col)
  end.

Definition build_parity (data : bytes) (long_col_len long_col_cnt disk_cnt : Z) : option bytes :=
  len ← Block.to_bytes U32_SIZE long_col_len;
  parity_loop (col_length_sequence long_col_len long_col_cnt disk_cnt) data
    (replicate (Z.to_nat len) zero).

(** ** The device *)

Section parity.
Context `{VdevLeaf D} `{Memory}.

Definition parity_new (vdevs : list D) (id : string) : option (Parity1 D) :=
  assert! (3 <=? Z.of_nat (length vdevs));
  Some (mkParity vdevs id no_stats).

Definition p_count (f : AtomicStatistics → AtomicStatistics) (p : Parity1 D) : Parity1 D :=
  mkParity (p_vdevs p) (p_id p) (f (p_stats p)).

Definition set_disks (p : Parity1 D) (vdevs : list D) : Parity1 D :=
  mkParity vdevs (p_id p) (p_stats p).

Definition disk_cnt (p : Parity1 D) : Z := Z.of_nat (length (p_vdevs p)).

(** [Vdev::actual_size], [size], [effective_free_size] *)
Definition parity_actual_size (p : Parity1 D) (size : Z) : option Z :=
  u32_add size (long_col_len (disk_cnt p) size).

Definition parity_size (p : Parity1 D) : option Z :=
  match leaf_size <$> p_vdevs p with
  | [] => None
  | s :: sizes => umul U64_SIZE (foldr Z.min s sizes) (disk_cnt p)
  end.

Definition parity_effective_free_size (p : Parity1 D) (free_size : Z) : option Z :=
  x ← umul U64_SIZE free_size (disk_cnt p - 1);
  Some (x / disk_cnt p).

(** An operation on one disk. *)
Definition on_disk {A} (p : Parity1 D) (idx : nat) (op : D → IO D A) : IO (Parity1 D) A :=
  d ← p_vdevs p !! idx;
  '(r, d) ← op d;
  Some (r, set_disks p (<[idx := d]> (p_vdevs p))).

(** *** Reading *)

(** The loop that starts the reads, with what they return: the length of each
    piece in bytes, and its bytes or an error.  [s], [e] is the range of the
    buffer that is left. *)
Fixpoint read_columns (p : Parity1 D) (cols : list ((nat * Z) * Z)) (s e : Z) :
    option (list (Z * (bytes + VdevError)) * Parity1 D) :=
  match cols with
  | [] => Some ([], p)
  | ((disk, disk_offset), col_length) :: cols =>
      if col_length =? 0 then Some ([], p)
      else
        '((ls, le), (rs, re)) ← split_range_at s e col_length;
        len ← Block.to_bytes U32_SIZE (le - ls);
        '(r, p) ← on_disk p disk (λ d, leaf_read_raw d len disk_offset);
        '(results, p) ← read_columns p cols rs re;
        Some ((len, r) :: results, p)
  end.

(** The loop over the results: the column that failed, with the number of its
    blocks, or [inr] if two did. *)
Fixpoint scan_results (results : list (Z * (bytes + VdevError))) (idx : nat)
    (long_col_len long_col_cnt : Z) (failed_idx : option nat) (faulted : Z) :
    (option nat * Z) + unit :=
  match results with
  | [] => inl (failed_idx, faulted)
  | (_, inl _) :: results =>
      scan_results results (S idx) long_col_len long_col_cnt failed_idx faulted
  | (_, inr _) :: results =>
      let faulted := faulted + calc_col_length idx long_col_len long_col_cnt in
      match failed_idx with
      | None => scan_results results (S idx) long_col_len long_col_cnt (Some idx) faulted
      | Some _ => inr tt
      end
  end.

Definition piece (r : Z * (bytes + VdevError)) : bytes :=
  match r.2 with inl b => b | inr _ => uninit r.1 end.

(** [data[start..end].copy_from_slice(block)] *)
Definition copy_column (data : bytes) (col_off : Z) (block : bytes) : option bytes :=
  start ← Block.to_bytes U32_SIZE col_off;
  _ ← cut data start (blen block);
  Some (copy_to data start block).

(** The disk and the row of a column. *)
Definition bad_disk (p : Parity1 D) (parity_disk_idx col : nat) : nat :=
  ((parity_disk_idx + 1 + col) mod length (p_vdevs p))%nat.

Definition bad_offset (p : Parity1 D) (parity_disk_idx col : nat) (parity_disk_offset : Z) : Z :=
  if (parity_disk_idx + 1 + col <? length (p_vdevs p))%nat then parity_disk_offset
  else parity_disk_offset + 1.

(** Exactly one device failed: its column is rebuilt from the parity. *)
Definition rebuild (p : Parity1 D) (size : Z) (parity_disk_idx : nat)
    (parity_disk_offset : Z) (checksum : csum) (data parity_block : bytes) (failed_idx : nat)
    (faulted : Z) : IO (Parity1 D) ScrubResult :=
  let L := long_col_len (disk_cnt p) size in
  let c := long_col_cnt (disk_cnt p) size in
  len ← Block.to_bytes U32_SIZE (calc_col_length failed_idx L c);
  repaired_block ← cut parity_block 0 len;
  blocks ← block_iter L c (disk_cnt p) data;
  let repaired_block :=
    foldl (λ acc ib, if bool_decide (ib.1 = failed_idx) then acc else xor acc ib.2)
      repaired_block (imap pair blocks) in
  data ← copy_column data (calc_col_offset failed_idx L c) repaired_block;
  if negb (csum_verify checksum data) then
    Some (inr (VRead (p_id p)), p_count (add_checksum_errors size) (p_count (add_failed_reads size) p))
  else
    '(w, p) ← on_disk p (bad_disk p parity_disk_idx failed_idx) (λ d,
      leaf_write_raw d repaired_block (bad_offset p parity_disk_idx failed_idx parity_disk_offset) true);
    Some (inl (mkScrub data faulted (match w with inl _ => faulted | inr _ => 0 end)), p).

(** The data is fine: the parity is checked. *)
Definition check_parity (p : Parity1 D) (size : Z) (parity_disk_idx : nat)
    (parity_disk_offset : Z) (data parity_block : bytes) (faulted : Z) :
    IO (Parity1 D) ScrubResult :=
  let L := long_col_len (disk_cnt p) size in
  let c := long_col_cnt (disk_cnt p) size in
  len ← Block.to_bytes U32_SIZE L;
  blocks ← block_iter L c (disk_cnt p) data;
  let new_parity_block := foldl xor (replicate (Z.to_nat len) zero) blocks in
  if bool_decide (new_parity_block = parity_block) then Some (inl (mkScrub data 0 0), p)
  else
    '(w, p) ← on_disk p parity_disk_idx (λ d,
      leaf_write_raw d new_parity_block parity_disk_offset true);
    Some (inl (mkScrub data faulted (match w with inl _ => faulted | inr _ => 0 end)), p).

(** The loop of the combinatorial reconstruction: the first column whose
    replacement satisfies the checksum. *)
Fixpoint try_columns (checksum : csum) (blocks : list bytes) (all_xored : bytes)
    (rest : list bytes) (idx : nat) : option (option (nat * bytes)) :=
  match rest with
  | [] => Some None
  | block :: rest =>
      let repaired_block := xor all_xored block in
      front ← cut repaired_block 0 (blen block);
      if csum_verify_buffer checksum (take idx blocks ++ [front] ++ drop (S idx) blocks)
      then Some (Some (idx, repaired_block))
      else try_columns checksum blocks all_xored rest (S idx)
  end.

(** Every disk returned data, but the checksum does not match. *)
Definition reconstruct (p : Parity1 D) (size : Z) (parity_disk_idx : nat)
    (parity_disk_offset : Z) (checksum : csum) (data parity_block : bytes) (faulted : Z) :
    IO (Parity1 D) ScrubResult :=
  let L := long_col_len (disk_cnt p) size in
  let c := long_col_cnt (disk_cnt p) size in
  blocks ← block_iter L c (disk_cnt p) data;
  let all_xored := foldl xor parity_block blocks in
  found ← try_columns checksum blocks all_xored blocks 0;
  match found with
  | None =>
      Some (inr (VRead (p_id p)),
            p_count (add_checksum_errors size) (p_count (add_failed_reads size) p))
  | Some (bad_block_idx, repaired_block) =>
      len ← Block.to_bytes U32_SIZE (calc_col_length bad_block_idx L c);
      let repaired_block := take (Z.to_nat len) repaired_block in
      data ← copy_column data (calc_col_offset bad_block_idx L c) repaired_block;
      let bad := bad_disk p parity_disk_idx bad_block_idx in
      '(_, p) ← on_disk p bad (λ d, Some (inl tt, checksum_error_occurred d size));
      '(w, p) ← on_disk p bad (λ d,
        leaf_write_raw d repaired_block (bad_offset p parity_disk_idx bad_block_idx parity_disk_offset) true);
      Some (inl (mkScrub data faulted (match w with inl _ => faulted | inr _ => 0 end)), p)
  end.

Definition read_ (p : Parity1 D) (size offset : Z) (checksum : csum) (scrub : bool) :
    IO (Parity1 D) ScrubResult :=
  let n := disk_cnt p in
  let p := p_count (add_read size) p in
  let L := long_col_len n size in
  let c := long_col_cnt n size in
  let parity_disk_offset := offset / n in
  let parity_disk_idx := Z.to_nat (offset mod n) in
  _ ← buf_zeroed size;
  '(results, p) ← read_columns p
     (zip (disk_iter (length (p_vdevs p)) parity_disk_idx parity_disk_offset)
          (col_length_sequence L c n)) 0 size;
  match scan_results results 0 L c None 0 with
  | inr _ => Some (inr (VRead (p_id p)), p_count (add_failed_reads size) p)
  | inl (failed_idx, faulted) =>
      let data := concat (piece <$> results) in
      if bool_decide (failed_idx = None) && negb scrub && csum_verify checksum data
      then Some (inl (mkScrub data 0 0), p)
      else
        len ← Block.to_bytes U32_SIZE L;
        '(r, p) ← on_disk p parity_disk_idx (λ d, leaf_read_raw d len parity_disk_offset);
        let parity_block := match r with inl b => b | inr _ => replicate (Z.to_nat len) zero end in
        match failed_idx, r with
        | Some _, inr _ => Some (inr (VRead (p_id p)), p_count (add_failed_reads size) p)
        | Some f, inl _ =>
            rebuild p size parity_disk_idx parity_disk_offset checksum data parity_block f faulted
        | None, _ =>
            if scrub && csum_verify checksum data
            then check_parity p size parity_disk_idx parity_disk_offset data parity_block faulted
            else reconstruct p size parity_disk_idx parity_disk_offset checksum data parity_block
                   faulted
        end
  end.

(** [VdevRead::read], [VdevRead::scrub] *)
Definition parity_read (p : Parity1 D) (size offset : Z) (checksum : csum) : IO (Parity1 D) bytes :=
  '(r, p) ← read_ p size offset checksum false;
  Some (match r with inl x => inl (scrub_data x) | inr e => inr e end, p).

Definition parity_scrub (p : Parity1 D) (size offset : Z) (checksum : csum) :
    IO (Parity1 D) ScrubResult := read_ p size offset checksum true.

(** [VdevRead::read_raw] *)
Definition parity_read_raw (p : Parity1 D) (size offset : Z) : IO (Parity1 D) (list bytes) :=
  len ← Block.to_bytes U32_SIZE size;
  '(rs, ds) ← each_disk (λ d, leaf_read_raw d len offset) (p_vdevs p);
  let p := set_disks p ds in
  match successes rs with
  | [] => Some (inr (VRead (p_id p)), p)
  | v => Some (inl v, p)
  end.

(** *** Writing *)

(** The loop that starts the writes of the columns. *)
Fixpoint write_columns (p : Parity1 D) (cols : list ((nat * Z) * Z)) (data : bytes) (s e : Z) :
    option (list (unit + VdevError) * Parity1 D) :=
  match cols with
  | [] => Some ([], p)
  | ((disk, disk_offset), col_length) :: cols =>
      if col_length =? 0 then Some ([], p)
      else
        '((ls, le), (rs, re)) ← split_range_at s e col_length;
        pos ← Block.to_bytes U32_SIZE ls;
        len ← Block.to_bytes U32_SIZE (le - ls);
        left_ ← cut data pos len;
        '(r, p) ← on_disk p disk (λ d, leaf_write_raw d left_ disk_offset false);
        '(results, p) ← write_columns p cols data rs re;
        Some (r :: results, p)
  end.

(** One error is tolerated: the second one, if there is one. *)
Fixpoint second_error (results : list (unit + VdevError)) (error_occurred : bool) :
    option VdevError :=
  match results with
  | [] => None
  | inl _ :: results => second_error results error_occurred
  | inr e :: results => if error_occurred then Some e else second_error results true
  end.

Definition parity_write (p : Parity1 D) (data : bytes) (offset : Z) : IO (Parity1 D) unit :=
  size ← Block.from_bytes (blen data);
  let n := disk_cnt p in
  let L := long_col_len n size in
  let c := long_col_cnt n size in
  parity_block ← build_parity data L c n;
  let parity_disk_offset := offset / n in
  let parity_disk_idx := Z.to_nat (offset mod n) in
  '(r, p) ← on_disk p parity_disk_idx (λ d,
    leaf_write_raw d parity_block parity_disk_offset false);
  '(results, p) ← write_columns p
     (zip (disk_iter (length (p_vdevs p)) parity_disk_idx parity_disk_offset)
          (col_length_sequence L c n)) data 0 size;
  match second_error (r :: results) false with
  | Some e => Some (inr e, p_count (add_failed_writes size) p)
  | None => Some (inl tt, p)
  end.

(** [VdevWrite::flush], [VdevWrite::write_raw] *)
Definition parity_flush (p : Parity1 D) : IO (Parity1 D) unit :=
  '(r, ds) ← try_each leaf_flush (p_vdevs p);
  Some (r, set_disks p ds).

Definition parity_write_raw (p : Parity1 D) (data : bytes) (offset : Z) : IO (Parity1 D) unit :=
  size ← Block.from_bytes (wrap32 (blen data));
  '(rs, ds) ← each_disk (λ d, leaf_write_raw d data offset false) (p_vdevs p);
  let p := set_disks p ds in
  match errors rs with
  | e :: _ => Some (inr e, p_count (add_failed_writes size) p)
  | [] => Some (inl tt, p)
  end.

End parity.
