(* ===== verification/ParityCorrect.v ===== *)
(** * Single parity: correctness

    The theorems about [Parity]: a stripe survives the loss of any one disk,
    and a write touches only the blocks of its own allocation.

    The parts of a stripe, the parity first, lie on consecutive disks: part
    [j] of a request at [offset] is on disk [(offset + j) mod n], from row
    [(offset + j) / n] on.  All disks but [bad] work and hold their part;
    nothing is assumed of [bad]. *)

From Stdlib Require Import ZArith Lia String.
From stdpp Require Import base option list numbers sorting.
From S2P Require Import Prelude.
From S2P Require Import Bytes.
From S2P Require Import Checksum.
From S2P Require Import Disk.
From S2P Require Import Buffer.
From S2P Require Import Vdev.
From S2P Require Import Parity.

(** ** Exclusive or *)

Lemma u8_byte_xor x y : u8 (byte_xor x y) = Z.lxor (u8 x) (u8 y).
Proof.
  apply u8_to_u8. pose proof (u8_range x). pose proof (u8_range y). split.
  - apply Z.lxor_nonneg. lia.
  - destruct (decide (Z.lxor (u8 x) (u8 y) = 0)) as [->|]; [lia|].
    change 256 with (2 ^ 8). apply Z.log2_lt_pow2.
    { assert (0 ≤ Z.lxor (u8 x) (u8 y)) by (apply Z.lxor_nonneg; lia). lia. }
    eapply Z.le_lt_trans; [apply Z.log2_lxor; lia|].
    assert (∀ z, 0 ≤ z < 256 → Z.log2 z < 8) as Hl.
    { intros z ?. destruct (decide (z = 0)) as [->|]; [done|]. apply Z.log2_lt_pow2; lia. }
    apply Z.max_lub_lt; by apply Hl.
Qed.

#[global] Instance byte_xor_assoc : Assoc (=) byte_xor.
Proof. intros x y z. apply (inj u8). by rewrite !u8_byte_xor, Z.lxor_assoc. Qed.
#[global] Instance byte_xor_comm : Comm (=) byte_xor.
Proof. intros x y. apply (inj u8). by rewrite !u8_byte_xor, Z.lxor_comm. Qed.
#[global] Instance byte_xor_zero : RightId (=) zero byte_xor.
Proof. intros x. apply (inj u8). rewrite u8_byte_xor. apply Z.lxor_0_r. Qed.

Lemma byte_xor_self x : byte_xor x x = zero.
Proof. apply (inj u8). rewrite u8_byte_xor. apply Z.lxor_nilpotent. Qed.

Lemma byte_xor_cancel x y : byte_xor (byte_xor x y) y = x.
Proof. by rewrite <- (assoc_L byte_xor), byte_xor_self, right_id_L by apply _. Qed.

(** A byte of a block, zero past its end, and the sum over blocks. *)
Definition byte_of (b : bytes) (i : nat) : byte := default zero (b !! i).
Definition byte_sum (i : nat) (bs : list bytes) : byte :=
  foldr (λ b acc, byte_xor acc (byte_of b i)) zero bs.

Lemma length_xor d s : length (xor d s) = length d.
Proof. revert s. induction d as [|x d IH]; intros [|y s]; simpl; auto. Qed.

Lemma lookup_xor d s i :
  (i < length d)%nat → xor d s !! i = Some (byte_xor (byte_of d i) (byte_of s i)).
Proof.
  revert s i. induction d as [|x d IH]; intros [|y s] [|i]; simpl; intros Hi; try lia.
  - unfold byte_of. simpl. by rewrite right_id_L by apply _.
  - rewrite (list_lookup_lookup_total_lt d i) by lia. unfold byte_of. simpl.
    rewrite (list_lookup_lookup_total_lt d i) by lia. simpl. by rewrite right_id_L by apply _.
  - done.
  - by rewrite IH by lia.
Qed.

Lemma byte_of_xor d s i :
  (i < length d)%nat → byte_of (xor d s) i = byte_xor (byte_of d i) (byte_of s i).
Proof. intros. unfold byte_of at 1. by rewrite lookup_xor. Qed.

Lemma length_foldl_xor bs acc : length (foldl xor acc bs) = length acc.
Proof. revert acc. induction bs as [|b bs IH]; intros acc; simpl; [done|]. by rewrite IH, length_xor. Qed.

Lemma byte_of_foldl bs acc i :
  (i < length acc)%nat → byte_of (foldl xor acc bs) i = byte_xor (byte_of acc i) (byte_sum i bs).
Proof.
  revert acc. induction bs as [|b bs IH]; intros acc Hi; simpl.
  { by rewrite right_id_L by apply _. }
  rewrite IH, byte_of_xor by (rewrite ?length_xor; done).
  rewrite <- (assoc_L byte_xor). f_equal. apply (comm_L byte_xor).
Qed.

Lemma byte_sum_delete i bs f b :
  bs !! f = Some b → byte_sum i bs = byte_xor (byte_sum i (delete f bs)) (byte_of b i).
Proof.
  revert f. induction bs as [|a bs IH]; intros [|f]; simpl; intros E; simplify_eq; [done|].
  rewrite (IH f E). rewrite <- !(assoc_L byte_xor). f_equal. apply (comm_L byte_xor).
Qed.

Lemma bytes_ext a b :
  length a = length b → (∀ i, (i < length a)%nat → byte_of a i = byte_of b i) → a = b.
Proof.
  intros Hl Hb. apply list_eq_same_length with (length a); [done|done|].
  intros i x y Hi Hx Hy. specialize (Hb i Hi). unfold byte_of in Hb. by rewrite Hx, Hy in Hb.
Qed.

Lemma byte_of_take n b i : (i < n)%nat → byte_of (take n b) i = byte_of b i.
Proof. intros. unfold byte_of. by rewrite lookup_take_lt. Qed.

Lemma byte_of_replicate n i : byte_of (replicate n zero) i = zero.
Proof.
  unfold byte_of. destruct (replicate n zero !! i) as [x|] eqn:E; [|done].
  by apply lookup_replicate in E as [-> _].
Qed.

(** The parity of blocks: as long as [n] bytes. *)
Definition parity_of (n : nat) (bs : list bytes) : bytes := foldl xor (replicate n zero) bs.

Lemma length_parity_of n bs : length (parity_of n bs) = n.
Proof. unfold parity_of. by rewrite length_foldl_xor, length_replicate. Qed.

Lemma byte_of_parity n bs i : (i < n)%nat → byte_of (parity_of n bs) i = byte_sum i bs.
Proof.
  intros. unfold parity_of. rewrite byte_of_foldl, byte_of_replicate by (by rewrite length_replicate).
  rewrite (comm_L byte_xor). by rewrite right_id_L by apply _.
Qed.

(** The loop over all blocks but one. *)
Definition fold_skip (skip : nat → bool) (acc : bytes) (bs : list bytes) : bytes :=
  foldl (λ acc ib, if skip ib.1 then acc else xor acc ib.2) acc (imap pair bs).

Lemma fold_skip_cons skip acc b bs :
  fold_skip skip acc (b :: bs) =
    fold_skip (λ i, skip (S i)) (if skip 0%nat then acc else xor acc b) bs.
Proof.
  unfold fold_skip. cbn [imap foldl fst snd].
  assert (imap (pair ∘ S) bs = (λ ib, (S ib.1, ib.2)) <$> imap pair bs) as ->
    by (by rewrite fmap_imap).
  by rewrite foldl_fmap.
Qed.

Lemma fold_skip_none skip acc bs :
  (∀ i, skip i = false) → fold_skip skip acc bs = foldl xor acc bs.
Proof.
  intros Hs. revert skip Hs acc. induction bs as [|b bs IH]; intros skip Hs acc; [done|].
  rewrite fold_skip_cons, Hs, IH; [done|]. intros i. apply Hs.
Qed.

Lemma fold_skip_one bs f skip acc :
  (∀ i, skip i = bool_decide (i = f)) → fold_skip skip acc bs = foldl xor acc (delete f bs).
Proof.
  revert f skip acc. induction bs as [|b bs IH]; intros f skip acc Hs; [by destruct f|].
  rewrite fold_skip_cons, Hs. destruct f as [|f].
  - rewrite bool_decide_true by done. simpl. apply fold_skip_none. intros i. rewrite Hs.
    by apply bool_decide_false.
  - rewrite bool_decide_false by done. simpl. apply IH. intros i. rewrite Hs.
    apply bool_decide_ext. lia.
Qed.

(** ** Recovering a block *)

(** The parity and all blocks but one give the missing block. *)
Lemma recover_block n bs bs' f b :
  bs !! f = Some b → delete f bs' = delete f bs → (length b ≤ n)%nat →
  foldl xor (take (length b) (parity_of n bs)) (delete f bs') = b.
Proof.
  intros Hf Hd Hn.
  assert (length (take (length b) (parity_of n bs)) = length b) as Hl.
  { rewrite length_take, length_parity_of. lia. }
  apply bytes_ext; rewrite length_foldl_xor, Hl; [done|]. intros i Hi.
  rewrite byte_of_foldl, byte_of_take, byte_of_parity, Hd, (byte_sum_delete i bs f b Hf) by lia.
  rewrite (comm_L byte_xor _ (byte_of b i)). apply byte_xor_cancel.
Qed.

(** So do the parity and all blocks, with the wrong one taken out again. *)
Lemma recover_block_all n bs bs' f b g :
  bs !! f = Some b → bs' !! f = Some g → delete f bs' = delete f bs →
  length g = length b → (length b ≤ n)%nat →
  take (length b) (xor (foldl xor (parity_of n bs) bs') g) = b.
Proof.
  intros Hf Hg Hd Hgl Hn. apply bytes_ext.
  { rewrite length_take, length_xor, length_foldl_xor, length_parity_of. lia. }
  intros i Hi. rewrite length_take in Hi.
  rewrite byte_of_take, byte_of_xor, byte_of_foldl, byte_of_parity
    by (rewrite ?length_foldl_xor, ?length_parity_of; lia).
  rewrite (byte_sum_delete i bs' f g Hg), Hd, (byte_sum_delete i bs f b Hf).
  rewrite (assoc_L byte_xor), byte_xor_cancel, (comm_L byte_xor _ (byte_of b i)).
  apply byte_xor_cancel.
Qed.

(** ** Columns of a request *)

Section columns.
Context (n size : Z) (Hn : 3 ≤ n) (Hsize : 0 ≤ size).

Local Abbreviation L := (long_col_len n size).
Local Abbreviation c := (long_col_cnt n size).
Local Abbreviation cols := (col_length_sequence L c n).

Lemma col_numbers :
  0 ≤ L ∧ 0 < c ≤ n - 1 ∧ (size = 0 → L = 0 ∧ c = n - 1) ∧
  (0 < size → 0 < L ∧ size = (L - 1) * (n - 1) + c).
Proof.
  unfold long_col_len, long_col_cnt. destruct (Z.eqb_spec size 0) as [->|Hs]; [lia|].
  pose proof (Z.div_mod (size - 1) (n - 1) ltac:(lia)) as Hd.
  pose proof (Z.mod_pos_bound (size - 1) (n - 1) ltac:(lia)) as Hm.
  pose proof (Z.div_mod size (n - 1) ltac:(lia)) as Hd'.
  pose proof (Z.mod_pos_bound size (n - 1) ltac:(lia)) as Hm'.
  set (q := (size - 1) / (n - 1)) in *. set (q' := size / (n - 1)) in *.
  assert (0 ≤ q) by (apply Z.div_pos; lia).
  destruct (Z.eqb_spec (size mod (n - 1)) 0) as [E|E].
  - assert (q' = q + 1) by nia. split_and!; try lia; intros _; split; nia.
  - assert (q' = q) by nia. split_and!; try lia; intros _; split; nia.
Qed.

Lemma cols_calc : cols = (λ i, calc_col_length i L c) <$> seq 0 (Z.to_nat (n - 1)).
Proof.
  destruct col_numbers as (HL & Hc & H0 & Hp). apply list_eq. intros i.
  unfold col_length_sequence, calc_col_length. rewrite list_lookup_fmap.
  destruct (decide (i < Z.to_nat (n - 1))%nat) as [Hi|Hi].
  - rewrite lookup_take_lt, lookup_seq_lt by lia. simpl.
    destruct (Z.ltb_spec (Z.of_nat i) c).
    + rewrite lookup_app_l, lookup_replicate_2 by (rewrite ?length_replicate; lia). done.
    + rewrite lookup_app_r, length_replicate by (rewrite length_replicate; lia).
      rewrite lookup_replicate_2 by lia. do 2 f_equal.
      destruct (Z.eqb_spec L 0); [|done]. destruct (decide (size = 0)); lia.
  - rewrite lookup_take_ge, lookup_seq_ge by lia. done.
Qed.

Lemma cols_length : length cols = Z.to_nat (n - 1).
Proof. by rewrite cols_calc, length_fmap, length_seq. Qed.

Lemma cols_lookup i : (i < Z.to_nat (n - 1))%nat → cols !! i = Some (calc_col_length i L c).
Proof. intros Hi. by rewrite cols_calc, list_lookup_fmap, lookup_seq_lt. Qed.

Lemma calc_col_length_bound i : (i < Z.to_nat (n - 1))%nat → 0 ≤ calc_col_length i L c ≤ L.
Proof.
  intros Hi. destruct col_numbers as (HL & Hc & H0 & Hp). unfold calc_col_length.
  destruct (Z.ltb_spec (Z.of_nat i) c); [lia|]. destruct (decide (size = 0)); lia.
Qed.

Lemma cols_sum_take i :
  (i ≤ Z.to_nat (n - 1))%nat → sum_Z (take i cols) = calc_col_offset i L c.
Proof.
  induction i as [|i IH]; intros Hi.
  { unfold calc_col_offset. destruct col_numbers as (HL & Hc & _). zbool; simpl; lia. }
  rewrite (take_S_r _ _ (calc_col_length i L c)), sum_Z_app, IH by (try apply cols_lookup; lia).
  simpl. unfold calc_col_offset, calc_col_length. zbool; lia.
Qed.

Lemma cols_sum : sum_Z cols = size.
Proof.
  rewrite <- (take_ge cols (Z.to_nat (n - 1))), cols_sum_take by (rewrite ?cols_length; lia).
  unfold calc_col_offset. destruct col_numbers as (HL & Hc & H0 & Hp).
  destruct (decide (size = 0)) as [E|]; [destruct (H0 E) as [-> ->]; zbool; lia|].
  destruct Hp as [HL1 Hs]; [lia|]. zbool; nia.
Qed.

Lemma long_col_bound : L ≤ size.
Proof. destruct col_numbers as (? & ? & H0 & Hp). destruct (decide (size = 0)); nia. Qed.

(** The longer columns come first. *)
Lemma cols_sorted : StronglySorted (λ a b, b ≤ a) cols.
Proof.
  rewrite cols_calc. generalize 0%nat as k. induction (Z.to_nat (n - 1)) as [|m IH]; intros k.
  { constructor. }
  cbn [seq fmap list_fmap]. constructor; [apply IH|]. apply Forall_forall. intros x Hx.
  apply list_elem_of_fmap in Hx as (j & -> & Hj%elem_of_seq). unfold calc_col_length. zbool; lia.
Qed.

Lemma cols_nonneg : Forall (λ l, 0 ≤ l) cols.
Proof.
  rewrite cols_calc. apply Forall_fmap, Forall_forall. intros i [_ Hi]%elem_of_seq.
  apply calc_col_length_bound. lia.
Qed.

End columns.

(** ** Cutting data into columns *)

(** Blocks of the given lengths. *)
Definition blocks_of (lens : list Z) (bs : list bytes) : Prop :=
  Forall2 (λ l b, blen b = BLOCK_SIZE * l) lens bs.

Lemma blocks_of_sum lens bs : blocks_of lens bs → blen (concat bs) = BLOCK_SIZE * sum_Z lens.
Proof.
  induction 1 as [|l b lens bs Hl _ IH]; [done|]. cbn [concat]. rewrite blen_app, IH, Hl.
  unfold sum_Z. simpl. lia.
Qed.

Lemma split_columns_concat lens bs :
  blocks_of lens bs → Forall (λ l, 0 ≤ l) lens → BLOCK_SIZE * sum_Z lens < U32_SIZE →
  split_columns lens (concat bs) = Some bs.
Proof.
  induction 1 as [|l b lens bs Hl _ IH]; intros Hp Hm; [done|].
  apply Forall_cons in Hp as [Hl0 Hp]. pose proof (sum_Z_nonneg lens Hp).
  cbn [split_columns concat]. unfold sum_Z in *. simpl in Hm. fold (sum_Z lens) in *.
  rewrite to_bytes_Some by (unfold BLOCK_SIZE in *; lia). cbn [mbind option_bind].
  rewrite (cut_at (b ++ concat bs) [] b (concat bs)) by (by rewrite ?blen_nil).
  cbn [mbind option_bind]. rewrite <- Hl. unfold blen. rewrite Nat2Z.id, drop_app_length.
  rewrite IH by (done || unfold BLOCK_SIZE in *; lia). done.
Qed.

Lemma split_columns_exists lens data :
  Forall (λ l, 0 ≤ l) lens → blen data = BLOCK_SIZE * sum_Z lens →
  ∃ bs, blocks_of lens bs ∧ concat bs = data.
Proof.
  revert data. induction lens as [|l lens IH]; intros data Hp Hd.
  { exists []. split; [constructor|]. by destruct data. }
  apply Forall_cons in Hp as [Hl Hp]. pose proof (sum_Z_nonneg lens Hp).
  unfold sum_Z in Hd. simpl in Hd. fold (sum_Z lens) in Hd.
  destruct (IH (drop (Z.to_nat (BLOCK_SIZE * l)) data)) as (bs & Hb & Hc); [done| |].
  { unfold blen, BLOCK_SIZE in *. rewrite length_drop. lia. }
  exists (take (Z.to_nat (BLOCK_SIZE * l)) data :: bs). split.
  - constructor; [|done]. unfold blen, BLOCK_SIZE in *. rewrite length_take. lia.
  - simpl. by rewrite Hc, take_drop.
Qed.

Lemma split_range_exact s e l :
  0 ≤ s → 0 ≤ l → s + l ≤ e → BLOCK_SIZE * e < U32_SIZE →
  split_range_at s e l = Some ((s, s + l), (s + l, e)).
Proof.
  intros. unfold split_range_at. rewrite u32_add_Some by (unfold BLOCK_SIZE, U32_SIZE in *; lia).
  simpl. destruct (Z.ltb_spec (s + l) e); [done|]. by assert (s + l = e) as -> by lia.
Qed.

Lemma blocks_of_empty lens bs :
  blocks_of lens bs → Forall (λ l, l = 0) lens → Forall (λ b, b = []) bs.
Proof.
  induction 1 as [|l b lens bs Hl _ IH]; intros Hz; [constructor|].
  apply Forall_cons in Hz as [-> Hz]. constructor; [|by apply IH].
  apply nil_length_inv. unfold blen in Hl. lia.
Qed.

(** Blocks of length zero do not count. *)
Lemma foldl_xor_empty lens bs acc :
  blocks_of lens bs → Forall (λ l, l = 0) lens → foldl xor acc bs = acc.
Proof.
  intros Hb Hz. pose proof (blocks_of_empty _ _ Hb Hz) as He. clear -He. revert acc.
  induction He as [|b bs -> _ IH]; intros acc; [done|]. simpl. destruct acc; by rewrite IH.
Qed.

Lemma sorted_zero l lens :
  StronglySorted (λ a b, b ≤ a) (l :: lens) → Forall (λ l, 0 ≤ l) lens → l = 0 →
  Forall (λ l, l = 0) lens.
Proof.
  intros [_ Hs]%StronglySorted_inv Hp ->. rewrite Forall_forall in *. intros x Hx.
  specialize (Hs x Hx). specialize (Hp x Hx). lia.
Qed.

Lemma parity_loop_spec lens bs acc :
  blocks_of lens bs → Forall (λ l, 0 ≤ l) lens → StronglySorted (λ a b, b ≤ a) lens →
  BLOCK_SIZE * sum_Z lens < U32_SIZE →
  parity_loop lens (concat bs) acc = Some (foldl xor acc bs).
Proof.
  intros Hb. induction Hb as [|l b lens bs Hl Hb IH] in acc |- *; intros Hp Hs Hm; [done|].
  pose proof Hp as [Hl0 Hp']%Forall_cons. pose proof (sum_Z_nonneg lens Hp').
  unfold sum_Z in Hm. simpl in Hm. fold (sum_Z lens) in Hm.
  cbn [parity_loop concat]. destruct (Z.eqb_spec l 0) as [E|E].
  - by rewrite (foldl_xor_empty (l :: lens) (b :: bs)) by
      (constructor; [done|by try eapply sorted_zero]).
  - rewrite to_bytes_Some by (unfold BLOCK_SIZE in *; lia). cbn [mbind option_bind].
    rewrite (cut_at (b ++ concat bs) [] b (concat bs)) by (by rewrite ?blen_nil).
    cbn [mbind option_bind]. rewrite <- Hl. unfold blen. rewrite Nat2Z.id, drop_app_length.
    apply IH; [done| |unfold BLOCK_SIZE in *; lia]. by apply StronglySorted_inv in Hs as [? _].
Qed.

Lemma concat_middle {A} (l : list (list A)) i x :
  l !! i = Some x → concat l = concat (take i l) ++ x ++ concat (drop (S i) l).
Proof.
  intros Hi. rewrite <- (take_drop_middle l i x Hi) at 1. by rewrite concat_app.
Qed.

Lemma blocks_of_take lens bs i : blocks_of lens bs → blocks_of (take i lens) (take i bs).
Proof. apply Forall2_take. Qed.

Lemma blocks_of_lookup lens bs i b :
  blocks_of lens bs → bs !! i = Some b → ∃ l, lens !! i = Some l ∧ blen b = BLOCK_SIZE * l.
Proof. intros Hb Hi. by eapply Forall2_lookup_r in Hb. Qed.

Lemma blocks_of_insert lens bs i l b :
  blocks_of lens bs → lens !! i = Some l → blen b = BLOCK_SIZE * l → blocks_of lens (<[i := b]> bs).
Proof.
  intros Hb Hl Hlen. rewrite <- (list_insert_id lens i l Hl). by apply Forall2_insert.
Qed.

Lemma blocks_of_same lens bs i b g :
  blocks_of lens bs → blocks_of lens (<[i := g]> bs) → bs !! i = Some b → blen g = blen b.
Proof.
  intros H1 H2 Hi. destruct (blocks_of_lookup _ _ _ _ H1 Hi) as (l & Hl & ->).
  destruct (blocks_of_lookup _ _ i g H2) as (l' & Hl' & ->); [|by simplify_eq].
  apply list_lookup_insert_eq. by eapply lookup_lt_Some.
Qed.

(** Replacing a column in the data. *)
Lemma copy_column_spec lens bs i l b :
  blocks_of lens bs → Forall (λ l, 0 ≤ l) lens → lens !! i = Some l →
  blen b = BLOCK_SIZE * l → BLOCK_SIZE * sum_Z lens < U32_SIZE →
  copy_column (concat bs) (sum_Z (take i lens)) b = Some (concat (<[i := b]> bs)).
Proof.
  intros Hb Hp Hl Hlen Hm. destruct (Forall2_lookup_l _ _ _ _ _ Hb Hl) as (b0 & Hi & Hb0).
  pose proof (blocks_of_sum _ _ (blocks_of_take _ _ i Hb)) as Hs.
  assert (sum_Z (take i lens) ≤ sum_Z lens) as Hle.
  { rewrite <- (take_drop i lens) at 2. rewrite sum_Z_app.
    pose proof (sum_Z_nonneg _ (Forall_drop _ i _ Hp)). lia. }
  unfold copy_column. rewrite to_bytes_Some by (unfold BLOCK_SIZE in *; lia).
  cbn [mbind option_bind]. rewrite (concat_middle bs i b0 Hi), <- Hs.
  rewrite (cut_app_mid _ b0) by lia. cbn [mbind option_bind]. f_equal.
  rewrite (concat_middle (<[i := b]> bs) i b) by (apply list_lookup_insert_eq; by eapply lookup_lt_Some).
  rewrite take_insert_ge, drop_insert_lt by lia. unfold copy_to, blen in *. rewrite Nat2Z.id.
  rewrite take_app_length. do 2 f_equal. rewrite app_assoc. rewrite drop_app_length'; [done|].
  rewrite length_app. lia.
Qed.

(** ** The place of a part *)

Definition part_disk (n : nat) (offset : Z) (j : nat) : nat :=
  Z.to_nat ((offset + Z.of_nat j) mod Z.of_nat n).
Definition part_row (n : nat) (offset : Z) (j : nat) : Z := (offset + Z.of_nat j) / Z.of_nat n.

Section place.
Context (n : nat) (offset : Z) (Hn : (3 ≤ n)%nat).
Local Abbreviation pidx := (Z.to_nat (offset mod Z.of_nat n)).
Local Abbreviation prow := (offset / Z.of_nat n).

Lemma part_place j :
  (j < n)%nat →
  part_disk n offset j = ((pidx + j) mod n)%nat ∧
  part_row n offset j = if (pidx + j <? n)%nat then prow else prow + 1.
Proof.
  intros Hj. unfold part_disk, part_row.
  pose proof (Z.div_mod offset (Z.of_nat n) ltac:(lia)) as Hd.
  pose proof (Z.mod_pos_bound offset (Z.of_nat n) ltac:(lia)) as Hm.
  set (m := offset mod Z.of_nat n) in *.
  destruct (Nat.ltb_spec (Z.to_nat m + j) n) as [Hlt|Hge].
  - rewrite (Nat.mod_small _ n) by done.
    rewrite <- (Z.mod_unique_pos (offset + Z.of_nat j) (Z.of_nat n) prow (m + Z.of_nat j)) by lia.
    rewrite <- (Z.div_unique_pos (offset + Z.of_nat j) (Z.of_nat n) prow (m + Z.of_nat j)) by lia.
    split; [lia|done].
  - replace (Z.to_nat m + j)%nat with ((Z.to_nat m + j - n) + 1 * n)%nat by lia.
    rewrite Nat.Div0.mod_add, Nat.mod_small by lia.
    rewrite <- (Z.mod_unique_pos (offset + Z.of_nat j) (Z.of_nat n) (prow + 1)
                 (m + Z.of_nat j - Z.of_nat n)) by lia.
    rewrite <- (Z.div_unique_pos (offset + Z.of_nat j) (Z.of_nat n) (prow + 1)
                 (m + Z.of_nat j - Z.of_nat n)) by lia.
    split; [lia|done].
Qed.

Lemma part_disk_lt j : (part_disk n offset j < n)%nat.
Proof. unfold part_disk. pose proof (Z.mod_pos_bound (offset + Z.of_nat j) (Z.of_nat n) ltac:(lia)). lia. Qed.

Lemma part_disk_inj i j : (i < n)%nat → (j < n)%nat → part_disk n offset i = part_disk n offset j → i = j.
Proof.
  intros Hi Hj E. unfold part_disk in E.
  pose proof (Z.mod_pos_bound (offset + Z.of_nat i) (Z.of_nat n) ltac:(lia)).
  pose proof (Z.mod_pos_bound (offset + Z.of_nat j) (Z.of_nat n) ltac:(lia)).
  pose proof (Z.div_mod (offset + Z.of_nat i) (Z.of_nat n) ltac:(lia)) as Ei.
  pose proof (Z.div_mod (offset + Z.of_nat j) (Z.of_nat n) ltac:(lia)) as Ej.
  assert ((offset + Z.of_nat i) mod Z.of_nat n = (offset + Z.of_nat j) mod Z.of_nat n) as Em by lia.
  rewrite Em in Ei. set (q1 := (offset + Z.of_nat i) / Z.of_nat n) in *.
  set (q2 := (offset + Z.of_nat j) / Z.of_nat n) in *.
  assert (Z.of_nat i - Z.of_nat j = Z.of_nat n * (q1 - q2)) as Eq by lia.
  assert (q1 - q2 = 0) by (clear -Eq Hi Hj; nia). nia.
Qed.

Lemma part_0 : part_disk n offset 0 = pidx ∧ part_row n offset 0 = prow.
Proof. unfold part_disk, part_row. by rewrite Z.add_0_r. Qed.

Lemma disk_iter_length : length (disk_iter n pidx prow) = (n - 1)%nat.
Proof.
  unfold disk_iter. rewrite length_app, !length_fmap, !length_seq.
  pose proof (Z.mod_pos_bound offset (Z.of_nat n) ltac:(lia)). lia.
Qed.

Lemma disk_iter_lookup i :
  (i < n - 1)%nat →
  disk_iter n pidx prow !! i = Some (part_disk n offset (S i), part_row n offset (S i)).
Proof.
  intros Hi. destruct (part_place (S i)) as [-> ->]; [lia|]. unfold disk_iter.
  pose proof (Z.mod_pos_bound offset (Z.of_nat n) ltac:(lia)).
  destruct (Nat.ltb_spec (pidx + S i) n).
  - rewrite lookup_app_l by (rewrite length_fmap, length_seq; lia).
    rewrite list_lookup_fmap, lookup_seq_lt by lia. simpl. rewrite Nat.mod_small by lia.
    do 2 f_equal. lia.
  - rewrite lookup_app_r by (rewrite length_fmap, length_seq; lia).
    rewrite length_fmap, length_seq, list_lookup_fmap, lookup_seq_lt by lia. simpl.
    rewrite <- (Nat.mod_unique (pidx + S i) n 1 (pidx + S i - n)) by lia. do 2 f_equal. lia.
Qed.

Lemma disk_iter_nodup : NoDup (disk_iter n pidx prow).*1.
Proof using Hn.
  apply NoDup_alt. intros i j x Hi Hj.
  apply list_lookup_fmap_Some in Hi as (t & -> & Ht). apply list_lookup_fmap_Some in Hj as (t' & E & Ht').
  pose proof (lookup_lt_Some _ _ _ Ht). pose proof (lookup_lt_Some _ _ _ Ht').
  rewrite disk_iter_length in *. rewrite disk_iter_lookup in Ht, Ht' by done. simplify_eq. simpl in E.
  apply part_disk_inj in E; lia.
Qed.

End place.

(** ** The parts of a stripe *)

Lemma concat_inj lens bs1 bs2 :
  blocks_of lens bs1 → blocks_of lens bs2 → concat bs1 = concat bs2 → bs1 = bs2.
Proof.
  intros H1. revert bs2. induction H1 as [|l b lens bs Hl _ IH]; intros bs2 H2 E.
  { by inversion H2. }
  inversion H2 as [|? b2 ? bs2' Hl2 H2']; subst. simpl in E.
  apply app_inj_1 in E as [-> E]; [|unfold blen in *; lia]. by rewrite (IH bs2' H2' E).
Qed.

(** The parity, then the columns. *)
Definition stripe_parts (n : Z) (data : bytes) : list bytes :=
  let size := blen data / BLOCK_SIZE in
  let L := long_col_len n size in
  match block_iter L (long_col_cnt n size) n data with
  | Some bs => parity_of (Z.to_nat (BLOCK_SIZE * L)) bs :: bs
  | None => []
  end.

(** A request whose parts can be addressed. *)
Definition fits (n offset size : Z) : Prop :=
  3 ≤ n ∧ 0 ≤ offset ∧ 0 ≤ size ∧ BLOCK_SIZE * size < U32_SIZE ∧
  BLOCK_SIZE * (offset / n + 1 + size) < U64_SIZE.

Lemma stripe_parts_spec n offset size data :
  fits n offset size → blen data = BLOCK_SIZE * size →
  let L := long_col_len n size in
  let lens := col_length_sequence L (long_col_cnt n size) n in
  ∃ bs, blocks_of lens bs ∧ concat bs = data ∧ length bs = Z.to_nat (n - 1) ∧
    block_iter L (long_col_cnt n size) n data = Some bs ∧
    stripe_parts n data = parity_of (Z.to_nat (BLOCK_SIZE * L)) bs :: bs.
Proof.
  intros (Hn & _ & Hs & Hm & _) Hd L lens.
  destruct (split_columns_exists lens data) as (bs & Hb & Hc).
  { by apply cols_nonneg. }
  { unfold lens, L. by rewrite Hd, cols_sum. }
  assert (blen data / BLOCK_SIZE = size) as Hdiv.
  { rewrite Hd, Z.mul_comm. by apply Z.div_mul. }
  assert (split_columns lens data = Some bs) as Hsp.
  { rewrite <- Hc. apply split_columns_concat; [done|by apply cols_nonneg|].
    unfold lens, L. by rewrite cols_sum. }
  exists bs. split_and!; try done.
  - rewrite <- (Forall2_length _ _ _ Hb). by apply cols_length.
  - unfold stripe_parts. rewrite Hdiv. unfold block_iter. fold L. fold lens. by rewrite Hsp.
Qed.

Lemma stripe_part_length n offset size data j part :
  fits n offset size → blen data = BLOCK_SIZE * size → stripe_parts n data !! j = Some part →
  (j < Z.to_nat n)%nat ∧
  blen part = BLOCK_SIZE *
    match j with O => long_col_len n size
    | S i => calc_col_length i (long_col_len n size) (long_col_cnt n size) end.
Proof.
  intros Hf Hd Hj. pose proof Hf as (Hn & _ & Hs & _).
  destruct (stripe_parts_spec n offset size data Hf Hd) as (bs & Hb & _ & Hl & _ & Hp).
  rewrite Hp in Hj. destruct j as [|i].
  - injection Hj as <-. split; [lia|]. unfold blen. rewrite length_parity_of.
    pose proof (col_numbers n size Hn Hs) as (? & _). unfold BLOCK_SIZE. lia.
  - simpl in Hj. pose proof (lookup_lt_Some _ _ _ Hj). split; [lia|].
    destruct (blocks_of_lookup _ _ _ _ Hb Hj) as (l & Hl' & ->).
    rewrite cols_lookup in Hl' by lia. by simplify_eq.
Qed.

Lemma part_addressable n offset size data j part :
  fits (Z.of_nat n) offset size → blen data = BLOCK_SIZE * size →
  stripe_parts (Z.of_nat n) data !! j = Some part →
  addressable (part_row n offset j) (blen part).
Proof.
  intros Hf Hd Hj. destruct (stripe_part_length _ _ _ _ _ _ Hf Hd Hj) as [Hlt Hl].
  pose proof Hf as (Hn & Ho & Hs & Hm & Hu).
  pose proof (col_numbers _ size Hn Hs) as (HL & _). pose proof (long_col_bound _ size Hn Hs).
  destruct (part_place n offset ltac:(lia) j ltac:(lia)) as [_ Hrow].
  assert (0 ≤ offset / Z.of_nat n) by (apply Z.div_pos; lia).
  assert (0 ≤ part_row n offset j ≤ offset / Z.of_nat n + 1) by (rewrite Hrow; case_match; lia).
  assert (0 ≤ match j with O => long_col_len (Z.of_nat n) size
    | S i => calc_col_length i (long_col_len (Z.of_nat n) size) (long_col_cnt (Z.of_nat n) size) end ≤ size).
  { destruct j; [lia|].
    pose proof (calc_col_length_bound _ size Hn Hs j ltac:(lia)). lia. }
  unfold addressable. rewrite Hl. split_and!; try (unfold BLOCK_SIZE in *; lia).
  rewrite Z.mul_comm. by apply Z.mod_mul.
Qed.

(** The blocks of a device are numbered across the rows: block [b] is in row
    [b / n] of disk [b mod n].  The rows of a part are blocks of the request. *)
Lemma part_blocks n offset size data j part r :
  fits (Z.of_nat n) offset size → blen data = BLOCK_SIZE * size →
  stripe_parts (Z.of_nat n) data !! j = Some part →
  part_row n offset j ≤ r → BLOCK_SIZE * r < BLOCK_SIZE * part_row n offset j + blen part →
  offset ≤ r * Z.of_nat n + Z.of_nat (part_disk n offset j) <
    offset + size + long_col_len (Z.of_nat n) size.
Proof.
  intros Hf Hd Hj Hr1 Hr2. destruct (stripe_part_length _ _ _ _ _ _ Hf Hd Hj) as [Hlt Hl].
  pose proof Hf as (Hn & Ho & Hs & _). rewrite Hl in Hr2. clear Hl.
  destruct (col_numbers _ size Hn Hs) as (HL & Hc & H0 & Hp).
  pose proof (Z.div_mod (offset + Z.of_nat j) (Z.of_nat n) ltac:(lia)) as Hdm.
  pose proof (Z.mod_pos_bound (offset + Z.of_nat j) (Z.of_nat n) ltac:(lia)) as Hmb.
  unfold part_disk, part_row in *. rewrite Z2Nat.id by lia.
  set (q := (offset + Z.of_nat j) / Z.of_nat n) in *. set (m := (offset + Z.of_nat j) mod Z.of_nat n) in *.
  set (k := r - q). assert (r * Z.of_nat n + m = offset + Z.of_nat j + k * Z.of_nat n) as E by (unfold k; nia).
  rewrite E. set (lc := match j with O => _ | S i => _ end) in *.
  assert (k < lc) as Hk by (unfold k, BLOCK_SIZE in *; lia). assert (0 ≤ k) by (unfold k; lia).
  assert (0 < size) as Hs0.
  { destruct (decide (size = 0)) as [Ez|]; [|lia]. destruct (H0 Ez) as [HL0 _]. unfold lc in Hk.
    destruct j; [lia|]. pose proof (calc_col_length_bound _ size Hn Hs j ltac:(lia)). lia. }
  destruct (Hp Hs0) as [HL1 Esize].
  set (L := long_col_len (Z.of_nat n) size) in *. set (c := long_col_cnt (Z.of_nat n) size) in *.
  assert (Z.of_nat j + k * Z.of_nat n ≤ c + (L - 1) * Z.of_nat n); [|nia].
  destruct j as [|i]; [unfold lc in Hk; nia|]. unfold lc, calc_col_length in Hk.
  destruct (Z.ltb_spec (Z.of_nat i) c); [nia|]. assert (k ≤ L - 2) by lia. nia.
Qed.

(** Requests for disjoint blocks share no row of a disk. *)
Lemma parts_disjoint n offset size data j part offset' size' data' j' part' :
  fits (Z.of_nat n) offset size → blen data = BLOCK_SIZE * size →
  stripe_parts (Z.of_nat n) data !! j = Some part →
  fits (Z.of_nat n) offset' size' → blen data' = BLOCK_SIZE * size' →
  stripe_parts (Z.of_nat n) data' !! j' = Some part' →
  part_disk n offset j = part_disk n offset' j' →
  offset + size + long_col_len (Z.of_nat n) size ≤ offset' ∨
    offset' + size' + long_col_len (Z.of_nat n) size' ≤ offset →
  blen part' = 0 ∨ blen part = 0 ∨
  BLOCK_SIZE * part_row n offset' j' + blen part' ≤ BLOCK_SIZE * part_row n offset j ∨
  BLOCK_SIZE * part_row n offset j + blen part ≤ BLOCK_SIZE * part_row n offset' j'.
Proof.
  intros Hf Hd Hj Hf' Hd' Hj' Hdisk Hdis.
  destruct (stripe_part_length _ _ _ _ _ _ Hf Hd Hj) as [_ Hl].
  destruct (stripe_part_length _ _ _ _ _ _ Hf' Hd' Hj') as [_ Hl'].
  set (a := part_row n offset j). set (b := part_row n offset' j').
  destruct (decide (blen part' = 0)) as [|Hn']; [by left|].
  destruct (decide (blen part = 0)) as [|Hn]; [by right; left|]. right; right.
  pose proof (blen_nonneg part). pose proof (blen_nonneg part').
  destruct (decide (BLOCK_SIZE * b + blen part' ≤ BLOCK_SIZE * a)) as [|H1]; [by left|].
  destruct (decide (BLOCK_SIZE * a + blen part ≤ BLOCK_SIZE * b)) as [|H2]; [by right|]. exfalso.
  pose proof (part_blocks n offset size data j part (Z.max a b) Hf Hd Hj) as B1.
  pose proof (part_blocks n offset' size' data' j' part' (Z.max a b) Hf' Hd' Hj') as B2.
  fold a in B1. fold b in B2. rewrite Hdisk in B1. unfold BLOCK_SIZE in *. lia.
Qed.

(** ** Disks *)

Section devices.
Context `{Hck : !Checksum} {D : Type} `{!VdevLeaf D} `{Hlaws : !VdevLeafLaws (D := D)}.
Context `{Hmem : !Memory} `{Hml : !MemoryLaws}.

(** The working disks of [p] work in [p'], with the same bytes on them. *)
Definition same (p p' : Parity1 D) : Prop :=
  length (p_vdevs p') = length (p_vdevs p) ∧
  ∀ i d, p_vdevs p !! i = Some d → leaf_ok d →
    ∃ d', p_vdevs p' !! i = Some d' ∧ leaf_ok d' ∧ leaf_bytes d' = leaf_bytes d.

#[global] Instance same_preorder : PreOrder same.
Proof.
  split.
  - intros p. split; [done|]. eauto.
  - intros p1 p2 p3 [Hl1 H1] [Hl2 H2]. split; [by rewrite Hl2|]. intros i d Hi Hok.
    destruct (H1 i d Hi Hok) as (d2 & Hi2 & Hok2 & Hb2).
    destruct (H2 i d2 Hi2 Hok2) as (d3 & Hi3 & Hok3 & Hb3). exists d3. by rewrite Hb3, Hb2.
Qed.

(** The range [off], [len] of a working disk. *)
Definition disk_range (p : Parity1 D) (idx : nat) (off len : Z) (b : bytes) : Prop :=
  ∃ d, p_vdevs p !! idx = Some d ∧ leaf_ok d ∧ cut (leaf_bytes d) (BLOCK_SIZE * off) len = Some b.

Lemma same_range p p' idx off len b :
  same p p' → disk_range p idx off len b → disk_range p' idx off len b.
Proof.
  intros [_ Hs] (d & Hd & Hok & Hc). destruct (Hs idx d Hd Hok) as (d' & Hd' & Hok' & Hb).
  exists d'. by rewrite Hb.
Qed.

Lemma disk_range_det p idx off len b1 b2 :
  disk_range p idx off len b1 → disk_range p idx off len b2 → b1 = b2.
Proof. intros (d & ? & ? & ?) (d' & ? & ? & ?). naive_solver. Qed.

(** What a read returns, whatever the disk. *)
Lemma read_disk p idx off len :
  (idx < length (p_vdevs p))%nat → addressable off len →
  ∃ r p', on_disk p idx (λ d, leaf_read_raw d len off) = Some (r, p') ∧ same p p' ∧
    (∀ b, r = inl b → blen b = len) ∧ (∀ b, disk_range p idx off len b → r = inl b).
Proof.
  intros Hi Ha. destruct (lookup_lt_is_Some_2 _ _ Hi) as [d Hd].
  destruct (leaf_read_raw_total d len off Ha) as (r & d' & Hr & Hb & Hok).
  exists r, (set_disks p (<[idx := d']> (p_vdevs p))). unfold on_disk. rewrite Hd. simpl. rewrite Hr.
  split_and!; try done.
  - split; [apply length_insert|]. intros i di Hdi Hoki. simpl.
    destruct (decide (i = idx)) as [->|Hne].
    + rewrite list_lookup_insert_eq by done. simplify_eq. destruct (Hok Hoki). eauto.
    + rewrite list_lookup_insert_ne by done. eauto.
  - intros b (d0 & Hd0 & Hok0 & Hc). simplify_eq. pose proof Hc as (_ & _ & Hrange & _)%cut_Some.
    destruct (leaf_read_raw_ok d len off Hok0 Ha Hrange) as (b' & d'' & Hr' & Hc').
    rewrite Hr in Hr'. by simplify_eq.
Qed.

(** What a write does, whatever the disk. *)
Lemma write_disk p idx off data rep :
  (idx < length (p_vdevs p))%nat → addressable off (blen data) →
  ∃ r p', on_disk p idx (λ d, leaf_write_raw d data off rep) = Some (r, p') ∧
    length (p_vdevs p') = length (p_vdevs p) ∧
    (∀ i, i ≠ idx → p_vdevs p' !! i = p_vdevs p !! i) ∧
    (∀ d, p_vdevs p !! idx = Some d → leaf_ok d →
      BLOCK_SIZE * off + blen data ≤ blen (leaf_bytes d) →
      r = inl tt ∧ ∃ d', p_vdevs p' !! idx = Some d' ∧ leaf_ok d' ∧
        leaf_bytes d' = copy_to (leaf_bytes d) (BLOCK_SIZE * off) data).
Proof.
  intros Hi Ha. destruct (lookup_lt_is_Some_2 _ _ Hi) as [d Hd].
  destruct (leaf_write_raw_total d data off rep Ha) as (r & d' & Hr).
  exists r, (set_disks p (<[idx := d']> (p_vdevs p))). unfold on_disk. rewrite Hd. simpl. rewrite Hr.
  split_and!; try done.
  - apply length_insert.
  - intros i Hne. simpl. by rewrite list_lookup_insert_ne.
  - intros d0 Hd0 Hok Hrange. simplify_eq. simpl.
    destruct (leaf_write_raw_ok d0 data off rep Hok Ha Hrange) as (d'' & Hr' & Hok' & Hb).
    rewrite Hr in Hr'. simplify_eq. split; [done|]. exists d''.
    by rewrite list_lookup_insert_eq.
Qed.

(** A disk takes note of a wrong answer. *)
Lemma note_error p idx size :
  (idx < length (p_vdevs p))%nat →
  ∃ p1, on_disk p idx (λ d, Some (@inl unit VdevError tt, checksum_error_occurred d size)) =
      Some (inl tt, p1) ∧ same p p1.
Proof.
  intros Hi. destruct (lookup_lt_is_Some_2 _ _ Hi) as [d Hd]. unfold on_disk. rewrite Hd. simpl.
  eexists. split; [done|]. split; [apply length_insert|]. intros i di Hdi Hok. simpl.
  destruct (decide (i = idx)) as [->|Hne].
  - rewrite list_lookup_insert_eq by done. assert (di = d) as -> by congruence.
    destruct (checksum_error_ok d size Hok). eauto.
  - rewrite list_lookup_insert_ne by done. eauto.
Qed.

Lemma keep_range p p' idx i off len b :
  (∀ j, j ≠ idx → p_vdevs p' !! j = p_vdevs p !! j) → i ≠ idx →
  disk_range p i off len b → disk_range p' i off len b.
Proof. intros Hk Hne (d & Hd & ? & ?). exists d. by rewrite Hk. Qed.

(** The part of a working disk that was just written, and the rest of it. *)
Lemma written_range d d' off data :
  addressable off (blen data) → BLOCK_SIZE * off + blen data ≤ blen (leaf_bytes d) →
  leaf_bytes d' = copy_to (leaf_bytes d) (BLOCK_SIZE * off) data →
  cut (leaf_bytes d') (BLOCK_SIZE * off) (blen data) = Some data.
Proof.
  intros (? & _) Hr ->. apply cut_copy_to_same; [|done]. unfold BLOCK_SIZE. lia.
Qed.

(** *** Reading the columns *)

Lemma read_columns_spec ts lens p s e :
  length ts = length lens → Forall (λ l, 0 ≤ l) lens → StronglySorted (λ a b, b ≤ a) lens →
  0 ≤ s → e = s + sum_Z lens → BLOCK_SIZE * e < U32_SIZE →
  Forall (λ t, t.1 < length (p_vdevs p))%nat ts →
  Forall2 (λ t l, addressable t.2 (BLOCK_SIZE * l)) ts lens →
  ∃ results p' k, read_columns p (zip ts lens) s e = Some (results, p') ∧ same p p' ∧
    Forall (λ l, l = 0) (drop k lens) ∧
    Forall2 (λ tl r, r.1 = BLOCK_SIZE * tl.2 ∧ (∀ b, r.2 = inl b → blen b = BLOCK_SIZE * tl.2) ∧
        ∀ b, disk_range p tl.1.1 tl.1.2 (BLOCK_SIZE * tl.2) b → r.2 = inl b)
      (take k (zip ts lens)) results.
Proof.
  revert lens p s. induction ts as [|t ts IH]; intros [|l lens] p s Hlen Hp Hs H0 He Hm Ht Ha; try done.
  { exists [], p, 0%nat. split_and!; try done; constructor. }
  cbn [zip zip_with read_columns]. destruct t as [idx off].
  pose proof Hp as [Hl Hp']%Forall_cons. pose proof (sum_Z_nonneg lens Hp').
  unfold sum_Z in He. simpl in He. fold (sum_Z lens) in He.
  destruct (Z.eqb_spec l 0) as [E|E].
  { exists [], p, 0%nat. split_and!; try done. constructor; [done|]. by eapply sorted_zero. }
  rewrite split_range_exact by lia. cbn [mbind option_bind]. replace (s + l - s) with l by lia.
  rewrite to_bytes_Some by (unfold BLOCK_SIZE in *; lia). cbn [mbind option_bind].
  apply Forall_cons in Ht as [Hidx Ht]. apply Forall2_cons in Ha as [Ha Has]. simpl in Hidx, Ha.
  destruct (read_disk p idx off (BLOCK_SIZE * l) Hidx Ha) as (r & p1 & Hr & Hsame & Hb & Hok).
  rewrite Hr. cbn [mbind option_bind].
  destruct (IH lens p1 (s + l)) as (results & p2 & k & Hrd & Hsame2 & Hz & Hres); try done; try lia.
  { simpl in Hlen. lia. }
  { by apply StronglySorted_inv in Hs as [? _]. }
  { by rewrite (proj1 Hsame). }
  replace (s + l + sum_Z lens) with e in Hrd by lia. rewrite Hrd. cbn [mbind option_bind].
  exists ((BLOCK_SIZE * l, r) :: results), p2, (S k). split_and!; try done.
  - by etrans.
  - cbn [take]. constructor; [done|]. eapply Forall2_impl; [done|].
    intros tl r' (? & ? & Hd). split_and!; try done. intros b Hdr. apply Hd. by eapply same_range.
Qed.

Lemma scan_results_ok results idx L c failed faulted :
  (∀ i r, results !! i = Some r → ∃ b, r.2 = inl b) →
  scan_results results idx L c failed faulted = inl (failed, faulted).
Proof.
  revert idx. induction results as [|[len [b|e]] results IH]; intros idx Hr; simpl; [done| |].
  - apply IH. intros i. apply (Hr (S i)).
  - by destruct (Hr 0%nat _ eq_refl).
Qed.

(** At most one read failed. *)
Lemma scan_results_one results idx L c x :
  (∀ i r, i ≠ x → results !! i = Some r → ∃ b, r.2 = inl b) →
  (scan_results results idx L c None 0 = inl (None, 0) ∧
    ∀ i r, results !! i = Some r → ∃ b, r.2 = inl b) ∨
  (scan_results results idx L c None 0 =
    inl (Some (idx + x)%nat, calc_col_length (idx + x) L c) ∧
    ∃ r e, results !! x = Some r ∧ r.2 = inr e).
Proof.
  revert idx x. induction results as [|[len [b|e]] results IH]; intros idx x Hr; simpl.
  - left. split; [done|]. intros i r Hi. by destruct i.
  - destruct x as [|x].
    + left. rewrite scan_results_ok by (intros i r Hi; by apply (Hr (S i) r)). split; [done|].
      intros [|i] r Hi; simplify_eq/=; [eauto|]. by apply (Hr (S i)).
    + destruct (IH (S idx) x) as [[Hs Ha]|[Hs (r & e & ? & ?)]].
      { intros i r Hne. apply (Hr (S i)). congruence. }
      * left. split; [done|]. intros [|i] r Hi; simplify_eq/=; [eauto|]. by apply (Ha i).
      * right. rewrite Hs. replace (S idx + x)%nat with (idx + S x)%nat by lia.
        split; [done|]. by exists r, e.
  - destruct x as [|x]; [|by destruct (Hr 0%nat _ ltac:(done) eq_refl)].
    right. rewrite Nat.add_0_r, scan_results_ok by (intros i r Hi; by apply (Hr (S i) r)).
    split; [done|]. by eexists _, e.
Qed.


(** *** Stripes on the disks *)

Definition holds (p : Parity1 D) (offset : Z) (data : bytes) (j : nat) : Prop :=
  ∃ part, stripe_parts (disk_cnt p) data !! j = Some part ∧
    disk_range p (part_disk (length (p_vdevs p)) offset j) (part_row (length (p_vdevs p)) offset j)
      (blen part) part.

(** Every part but that on disk [bad]. *)
Definition stripe (p : Parity1 D) (offset : Z) (data : bytes) (bad : nat) : Prop :=
  ∀ j, (j < length (p_vdevs p))%nat → part_disk (length (p_vdevs p)) offset j ≠ bad →
    holds p offset data j.

Lemma same_holds p p' offset data j : same p p' → holds p offset data j → holds p' offset data j.
Proof.
  intros Hs (part & Hp & Hr). exists part. unfold disk_cnt in *. rewrite (proj1 Hs).
  split; [done|]. by eapply same_range.
Qed.

Lemma same_stripe p p' offset data bad :
  same p p' → stripe p offset data bad → stripe p' offset data bad.
Proof.
  intros Hs Hst j. rewrite (proj1 Hs). intros Hj Hb. by eapply same_holds, Hst.
Qed.

(** A part was written to its disk, whatever came of it. *)
Definition rewrote (p p' : Parity1 D) (idx : nat) (off : Z) (part : bytes) : Prop :=
  length (p_vdevs p') = length (p_vdevs p) ∧
  (∀ i, i ≠ idx → p_vdevs p' !! i = p_vdevs p !! i) ∧
  (∀ d, p_vdevs p !! idx = Some d → leaf_ok d →
    BLOCK_SIZE * off + blen part ≤ blen (leaf_bytes d) → disk_range p' idx off (blen part) part).

Lemma rewrite_disk p idx off part rep :
  (idx < length (p_vdevs p))%nat → addressable off (blen part) →
  ∃ r p', on_disk p idx (λ d, leaf_write_raw d part off rep) = Some (r, p') ∧ rewrote p p' idx off part.
Proof.
  intros Hi Ha. destruct (write_disk p idx off part rep Hi Ha) as (r & p' & Hw & Hl & Ho & Hd).
  exists r, p'. split; [done|]. split_and!; try done. intros d Hdi Hok Hr.
  destruct (Hd d Hdi Hok Hr) as (_ & d' & ? & ? & Hb). exists d'. split_and!; try done.
  by eapply written_range.
Qed.

Lemma rewrote_stripe p p' offset data bad off part :
  stripe p offset data bad → rewrote p p' bad off part → stripe p' offset data bad.
Proof.
  intros Hst (Hl & Ho & _) j. rewrite Hl. intros Hj Hb. destruct (Hst j Hj Hb) as (q & Hq & Hr).
  exists q. unfold disk_cnt in *. rewrite Hl. split; [done|]. by eapply keep_range.
Qed.

(** *** Repairing a column *)

Lemma bad_place (p : Parity1 D) offset col :
  (3 ≤ length (p_vdevs p))%nat → (col < length (p_vdevs p) - 1)%nat →
  let pidx := Z.to_nat (offset mod disk_cnt p) in
  bad_disk p pidx col = part_disk (length (p_vdevs p)) offset (S col) ∧
  bad_offset p pidx col (offset / disk_cnt p) = part_row (length (p_vdevs p)) offset (S col).
Proof.
  intros Hn Hc pidx. destruct (part_place (length (p_vdevs p)) offset Hn (S col)) as [-> ->]; [lia|].
  unfold bad_disk, bad_offset, pidx, disk_cnt.
  by replace (Z.to_nat (offset mod Z.of_nat (length (p_vdevs p))) + 1 + col)%nat with
    (Z.to_nat (offset mod Z.of_nat (length (p_vdevs p))) + S col)%nat by lia.
Qed.

Lemma delete_insert_list {A} (l : list A) i x : delete i (<[i := x]> l) = delete i l.
Proof. by rewrite !delete_take_drop, take_insert_ge, drop_insert_lt by lia. Qed.

Section repair.
Context (p : Parity1 D) (offset size : Z) (bs : list bytes).
Local Abbreviation n := (length (p_vdevs p)).
Local Abbreviation L := (long_col_len (disk_cnt p) size).
Local Abbreviation c := (long_col_cnt (disk_cnt p) size).
Local Abbreviation lens := (col_length_sequence L c (disk_cnt p)).
Local Abbreviation pidx := (Z.to_nat (offset mod disk_cnt p)).
Local Abbreviation prow := (offset / disk_cnt p).
Local Abbreviation parity := (parity_of (Z.to_nat (BLOCK_SIZE * L)) bs).
Context (Hfits : fits (disk_cnt p) offset size) (Hbs : blocks_of lens bs).

Lemma repair_facts :
  (3 ≤ n)%nat ∧ length bs = (n - 1)%nat ∧ 0 ≤ L ∧ BLOCK_SIZE * L < U32_SIZE ∧
  BLOCK_SIZE * sum_Z lens < U32_SIZE ∧ Forall (λ l, 0 ≤ l) lens.
Proof using Hfits Hbs.
  pose proof Hfits as (Hn & Ho & Hs & Hm & _). unfold disk_cnt in Hn.
  pose proof (long_col_bound _ size Hn Hs). pose proof (col_numbers _ size Hn Hs) as (? & _).
  split; [lia|]. split.
  { rewrite <- (Forall2_length _ _ _ Hbs), cols_length by done. unfold disk_cnt. lia. }
  split; [done|]. split; [unfold disk_cnt, BLOCK_SIZE in *; lia|]. split.
  - by rewrite cols_sum.
  - by apply cols_nonneg.
Qed.

Lemma concat_blocks : blen (concat bs) = BLOCK_SIZE * size.
Proof using Hfits Hbs.
  pose proof Hfits as (? & _ & ? & _). rewrite (blocks_of_sum _ _ Hbs). by rewrite cols_sum.
Qed.

Lemma parts_blocks : stripe_parts (disk_cnt p) (concat bs) = parity :: bs.
Proof using Hfits Hbs.
  destruct (stripe_parts_spec _ offset size (concat bs) Hfits concat_blocks)
    as (bs2 & Hb2 & Hc2 & _ & _ & Hp).
  by apply (concat_inj _ _ _ Hb2 Hbs) in Hc2 as ->.
Qed.

Lemma part_address j part :
  (parity :: bs) !! j = Some part → addressable (part_row n offset j) (blen part).
Proof using Hfits Hbs.
  rewrite <- parts_blocks. by apply (part_addressable n offset size _ j), concat_blocks.
Qed.

Lemma column_facts x b :
  bs !! x = Some b →
  (x < n - 1)%nat ∧ lens !! x = Some (calc_col_length x L c) ∧
  blen b = BLOCK_SIZE * calc_col_length x L c ∧ 0 ≤ calc_col_length x L c ≤ L ∧
  sum_Z (take x lens) = calc_col_offset x L c ∧
  addressable (part_row n offset (S x)) (blen b).
Proof using Hfits Hbs.
  intros Hx. destruct repair_facts as (Hn3 & Hlen & _). pose proof (lookup_lt_Some _ _ _ Hx).
  pose proof Hfits as (Hn & _ & Hs & _).
  assert (lens !! x = Some (calc_col_length x L c)) as Hl by (apply cols_lookup; unfold disk_cnt in *; lia).
  destruct (blocks_of_lookup _ _ _ _ Hbs Hx) as (l & Hl' & Hb). rewrite Hl in Hl'. simplify_eq.
  split_and!; try done; try lia.
  - apply (calc_col_length_bound _ _ Hn Hs). unfold disk_cnt in *. lia.
  - apply (calc_col_length_bound _ _ Hn Hs). unfold disk_cnt in *. lia.
  - apply cols_sum_take; [done|done|]. unfold disk_cnt. lia.
  - by apply (part_address (S x)).
Qed.

Lemma rebuild_spec x b g ck faulted :
  bs !! x = Some b → blen g = blen b → csum_verify ck (concat bs) = true →
  ∃ rep p', rebuild p size pidx prow ck (concat (<[x := g]> bs)) parity x faulted =
      Some (inl (mkScrub (concat bs) faulted rep), p') ∧
    rewrote p p' (part_disk n offset (S x)) (part_row n offset (S x)) b.
Proof using Hfits Hbs Hlaws.
  intros Hx Hg Hv. destruct repair_facts as (Hn3 & Hlen & HL & HLm & Hm & Hp).
  destruct (column_facts x b Hx) as (Hlt & Hl & Hb & Hcl & Hoff & Ha).
  unfold rebuild. rewrite to_bytes_Some by (unfold BLOCK_SIZE in *; lia). cbn [mbind option_bind].
  rewrite cut_front by (unfold blen, BLOCK_SIZE in *; rewrite length_parity_of; lia).
  cbn [mbind option_bind]. rewrite <- Hb.
  assert (Z.to_nat (blen b) = length b) as -> by (unfold blen; lia).
  assert (blocks_of lens (<[x := g]> bs)) as Hbs' by (eapply blocks_of_insert; [done|done|congruence]).
  unfold block_iter. rewrite split_columns_concat by done. cbn [mbind option_bind].
  fold (fold_skip (λ i, bool_decide (i = x)) (take (length b) parity) (<[x := g]> bs)).
  rewrite (fold_skip_one _ x) by done.
  rewrite (recover_block _ bs _ x b) by
    (try apply delete_insert_list; try done; unfold blen, BLOCK_SIZE in *; lia).
  rewrite <- Hoff, (copy_column_spec lens _ x _ b) by done. cbn [mbind option_bind].
  rewrite list_insert_insert_eq, (list_insert_id bs x b Hx), Hv. cbn [negb].
  destruct (bad_place p offset x) as [-> ->]; [done|lia|].
  destruct (rewrite_disk p (part_disk n offset (S x)) (part_row n offset (S x)) b true) as (r & p' & -> & Hr).
  { by apply part_disk_lt. }
  { done. }
  cbn [mbind option_bind]. eauto.
Qed.

Lemma check_parity_spec parity' faulted :
  ∃ f rep p', check_parity p size pidx prow (concat bs) parity' faulted =
      Some (inl (mkScrub (concat bs) f rep), p') ∧
    ((p' = p ∧ parity' = parity) ∨
     (parity' ≠ parity ∧ rewrote p p' (part_disk n offset 0) (part_row n offset 0) parity)).
Proof using Hfits Hbs Hlaws.
  destruct repair_facts as (Hn3 & Hlen & HL & HLm & Hm & Hp).
  unfold check_parity. rewrite to_bytes_Some by done. cbn [mbind option_bind].
  unfold block_iter. rewrite split_columns_concat by done. cbn [mbind option_bind].
  fold parity. destruct (bool_decide_reflect (parity = parity')) as [E|E].
  { eexists _, _, p. split; [done|]. by left. }
  destruct (part_0 n offset) as [Hd Hr0]. unfold disk_cnt. rewrite <- Hd, <- Hr0.
  destruct (rewrite_disk p (part_disk n offset 0) (part_row n offset 0) parity true) as (r & p' & Hw & Hr).
  { by apply part_disk_lt. }
  { by apply (part_address 0). }
  unfold disk_cnt in Hw. rewrite Hw. cbn [mbind option_bind]. eexists _, _, p'. split; [done|]. right.
  split; [|done]. intros ->. by apply E.
Qed.

(** The combinatorial reconstruction ends at a column whose replacement gives
    the data; the wrong one is such a column. *)
Lemma try_columns_spec `{!ChecksumStream} ck bs' A x k :
  (k ≤ x)%nat →
  (∀ i b', bs' !! i = Some b' → (length b' ≤ length A)%nat) →
  (∀ b', bs' !! x = Some b' →
    csum_verify ck (concat (<[x := take (length b') (xor A b')]> bs')) = true) →
  (x < length bs')%nat →
  ∃ idx b', try_columns ck bs' A (drop k bs') k = Some (Some (idx, xor A b')) ∧ bs' !! idx = Some b' ∧
    csum_verify ck (concat (<[idx := take (length b') (xor A b')]> bs')) = true.
Proof using.
  intros Hk HA Hx Hlen. remember (x - k)%nat as m eqn:Em. revert k Hk Em.
  induction m as [|m IH]; intros k Hk Em;
    destruct (lookup_lt_is_Some_2 bs' k ltac:(lia)) as [b' Hb'];
    rewrite (drop_S _ _ _ Hb'); cbn [try_columns];
    (rewrite cut_front by (unfold blen; rewrite length_xor; pose proof (HA k b' Hb'); lia));
    cbn [mbind option_bind];
    (replace (Z.to_nat (blen b')) with (length b') by (unfold blen; lia));
    rewrite csum_verify_pieces;
    change ([?z] ++ ?l) with (z :: l);
    rewrite <- (insert_take_drop bs' k) by lia.
  - assert (k = x) as -> by lia. rewrite (Hx b' Hb'). eauto 10.
  - destruct (csum_verify ck _) eqn:V; [eauto 10|]. apply IH; lia.
Qed.

(** A replacement that satisfies the checksum replaces the wrong column. *)
Lemma wrong_column x idx g b' A ck :
  let bs' := <[x := g]> bs in
  blocks_of lens bs' → bs' !! idx = Some b' → (length b' ≤ length A)%nat →
  csum_verify ck (concat (<[idx := take (length b') (xor A b')]> bs')) = true →
  csum_verify ck (concat bs) = true →
  (∀ d, blen d = BLOCK_SIZE * size → csum_verify ck d = true → d = concat bs) →
  csum_verify ck (concat bs') = false → (x < length bs)%nat → idx = x.
Proof using Hfits Hbs.
  intros bs' Hbs' Hidx HA Hver Hv Huniq Hbad Hx.
  destruct (decide (idx = x)) as [|Hne]; [done|]. exfalso.
  destruct (blocks_of_lookup _ _ _ _ Hbs' Hidx) as (l & Hl' & Hb').
  set (r := take (length b') (xor A b')) in *.
  assert (blen r = blen b') as Hr by (unfold r, blen; rewrite length_take, length_xor; lia).
  assert (blocks_of lens (<[idx := r]> bs')) as Hbr by (eapply blocks_of_insert; [done|done|congruence]).
  assert (<[idx := r]> bs' = bs) as E.
  { apply (concat_inj lens); [done|done|]. apply Huniq; [|done].
    rewrite (blocks_of_sum _ _ Hbr), <- (blocks_of_sum _ _ Hbs). apply concat_blocks. }
  assert (bs !! x = Some g) as Hg'.
  { rewrite <- E at 1. rewrite list_lookup_insert_ne by done. by apply list_lookup_insert_eq. }
  unfold bs' in Hbad. by rewrite (list_insert_id bs x g Hg'), Hv in Hbad.
Qed.

Lemma block_in_parity bs' i b' :
  blocks_of lens bs' → bs' !! i = Some b' → (length b' ≤ Z.to_nat (BLOCK_SIZE * L))%nat.
Proof using Hfits.
  intros Hbs' Hi. destruct (blocks_of_lookup _ _ _ _ Hbs' Hi) as (l & Hl & Hb').
  pose proof Hfits as (? & _ & ? & _). pose proof (lookup_lt_Some _ _ _ Hl) as Hlt.
  rewrite cols_length in Hlt by done. rewrite cols_lookup in Hl by done. simplify_eq.
  pose proof (calc_col_length_bound (disk_cnt p) size ltac:(done) ltac:(done) i Hlt).
  unfold blen, BLOCK_SIZE in *. lia.
Qed.

Lemma reconstruct_spec `{!ChecksumStream} x b g ck faulted :
  bs !! x = Some b → blen g = blen b → csum_verify ck (concat bs) = true →
  (∀ d, blen d = BLOCK_SIZE * size → csum_verify ck d = true → d = concat bs) →
  csum_verify ck (concat (<[x := g]> bs)) = false →
  ∃ rep p', reconstruct p size pidx prow ck (concat (<[x := g]> bs)) parity faulted =
      Some (inl (mkScrub (concat bs) faulted rep), p') ∧
    ∃ p1, same p p1 ∧ rewrote p1 p' (part_disk n offset (S x)) (part_row n offset (S x)) b.
Proof using Hfits Hbs Hlaws.
  intros Hx Hg Hv Huniq Hbad. destruct repair_facts as (Hn3 & Hlen & HL & HLm & Hm & Hp).
  destruct (column_facts x b Hx) as (Hlt & Hl & Hb & Hcl & Hoff & Ha).
  set (bs' := <[x := g]> bs). assert (blocks_of lens bs') as Hbs'
    by (eapply blocks_of_insert; [done|done|congruence]).
  unfold reconstruct, block_iter. rewrite split_columns_concat by done. cbn [mbind option_bind].
  set (A := foldl xor parity bs').
  assert (length A = Z.to_nat (BLOCK_SIZE * L)) as HAl
    by (unfold A; by rewrite length_foldl_xor, length_parity_of).
  assert (bs' !! x = Some g) as Hgx by (apply list_lookup_insert_eq; lia).
  assert (take (length g) (xor A g) = b) as Hrec.
  { replace (length g) with (length b) by (unfold blen in *; lia). eapply recover_block_all; try done.
    - apply delete_insert_list.
    - unfold blen in *; lia.
    - unfold blen, BLOCK_SIZE in *. lia. }
  assert (<[x := b]> bs' = bs) as Hfix
    by (unfold bs'; by rewrite list_insert_insert_eq, list_insert_id).
  assert (∀ i b', bs' !! i = Some b' → (length b' ≤ length A)%nat) as HA.
  { intros i b'. rewrite HAl. by apply block_in_parity. }
  destruct (try_columns_spec ck bs' A x 0) as (idx & b' & Htry & Hidx & Hver); [lia|done| | |].
  { intros b' Hb'. rewrite Hgx in Hb'. injection Hb' as <-. by rewrite Hrec, Hfix. }
  { unfold bs'. rewrite length_insert. lia. }
  change (drop 0 bs') with bs' in Htry. rewrite Htry. cbn [mbind option_bind].
  assert (idx = x) as ->
    by (eapply (wrong_column x idx g b' A ck); try done; [by eapply HA|lia]).
  rewrite Hgx in Hidx. injection Hidx as <-.
  rewrite to_bytes_Some by (unfold BLOCK_SIZE in *; lia). cbn [mbind option_bind].
  replace (Z.to_nat (BLOCK_SIZE * calc_col_length x L c)) with (length g) by (unfold blen in *; lia).
  rewrite Hrec, <- Hoff, (copy_column_spec lens _ x _ b) by done. cbn [mbind option_bind].
  rewrite Hfix. destruct (bad_place p offset x) as [-> _]; [done|lia|].
  destruct (note_error p (part_disk n offset (S x)) size) as (p1 & -> & Hs1); [by apply part_disk_lt|].
  cbn [mbind option_bind].
  destruct (bad_place p1 offset x) as [_ Hbo]; [by rewrite (proj1 Hs1)|by rewrite (proj1 Hs1)|].
  unfold disk_cnt in Hbo. rewrite (proj1 Hs1) in Hbo. unfold disk_cnt. rewrite Hbo.
  destruct (rewrite_disk p1 (part_disk n offset (S x)) (part_row n offset (S x)) b true)
    as (r & p' & Hw & Hr).
  { rewrite (proj1 Hs1). by apply part_disk_lt. }
  { done. }
  rewrite Hw. cbn [mbind option_bind]. eauto 10.
Qed.

(** What the reads of the columns return: a result for each column that is
    not empty, and what a working disk holds. *)
Definition column_result (p : Parity1 D) (results : list (Z * (bytes + VdevError))) : Prop :=
  (length results ≤ n - 1)%nat ∧
  (∀ i, (length results ≤ i < n - 1)%nat → calc_col_length i L c = 0) ∧
  ∀ i r, results !! i = Some r →
    blen (piece r) = BLOCK_SIZE * calc_col_length i L c ∧
    ∀ b, disk_range p (part_disk n offset (S i)) (part_row n offset (S i))
           (BLOCK_SIZE * calc_col_length i L c) b → r.2 = inl b.

Lemma columns_results :
  ∃ results p', read_columns p (zip (disk_iter n pidx prow) lens) 0 size = Some (results, p') ∧
    same p p' ∧ column_result p results.
Proof using Hfits Hbs Hlaws Hml.
  destruct repair_facts as (Hn3 & Hlen & HL & HLm & Hm & Hp).
  pose proof Hfits as (Hn & Ho & Hs & Hsm & _).
  assert (length lens = (n - 1)%nat) as Hll by (rewrite cols_length by done; unfold disk_cnt; lia).
  assert (∀ i, (i < n - 1)%nat → lens !! i = Some (calc_col_length i L c)) as Hli
    by (intros; apply cols_lookup; [done|done|unfold disk_cnt; lia]).
  assert (length (disk_iter n pidx prow) = (n - 1)%nat) as Hdl by (by apply disk_iter_length).
  assert (∀ i, (i < n - 1)%nat → disk_iter n pidx prow !! i =
    Some (part_disk n offset (S i), part_row n offset (S i))) as Hdi
    by (intros; by apply disk_iter_lookup).
  destruct (read_columns_spec (disk_iter n pidx prow) lens p 0 size)
    as (results & p' & k & Hrd & Hsame & Hz & Hres); try done.
  { congruence. }
  { by apply cols_sorted. }
  { by rewrite cols_sum. }
  { apply Forall_lookup. intros i t Hi. pose proof (lookup_lt_Some _ _ _ Hi).
    rewrite Hdi in Hi by lia. simplify_eq. by apply part_disk_lt. }
  { apply Forall2_same_length_lookup. split; [congruence|]. intros i t l Hi Hl.
    pose proof (lookup_lt_Some _ _ _ Hi). destruct (lookup_lt_is_Some_2 bs i) as [b Hb]; [lia|].
    destruct (column_facts i b Hb) as (_ & Hl2 & Hbl & _ & _ & Ha). rewrite Hdi in Hi by lia.
    rewrite Hl2 in Hl. simplify_eq. by rewrite <- Hbl. }
  exists results, p'. split; [done|]. split; [done|].
  pose proof (Forall2_length _ _ _ Hres) as Hlr. rewrite length_take, length_zip in Hlr.
  split_and!; [lia| |].
  - intros i Hi. rewrite Forall_lookup in Hz. apply (Hz (i - k)%nat).
    rewrite lookup_drop. replace (k + (i - k))%nat with i by lia. apply Hli. lia.
  - intros i r Hi. destruct (Forall2_lookup_r _ _ _ _ _ Hres Hi) as ([[ti to] tl] & Htl & H1 & Hb & Hd).
    cbn [fst snd] in *.
    apply lookup_take_Some in Htl as [Htl _]. apply lookup_zip_Some in Htl as [Ht Hl].
    pose proof (lookup_lt_Some _ _ _ Hi). rewrite Hdi in Ht by lia. rewrite Hli in Hl by lia.
    injection Ht as <- <-. injection Hl as <-. split; [|done].
    unfold piece. destruct (r.2) as [b|e]; [by apply Hb|]. rewrite H1. apply uninit_length.
    destruct (calc_col_length_bound _ size Hn Hs i); unfold disk_cnt, BLOCK_SIZE in *; lia.
Qed.

Lemma disk_range_length q idx off len b : disk_range q idx off len b → blen b = len.
Proof using. intros (d & _ & _ & (_ & _ & _ & _ & ?)%cut_Some). done. Qed.

(** The results as blocks. *)
Lemma columns_blocks results :
  column_result p results →
  ∃ bs', concat (piece <$> results) = concat bs' ∧ blocks_of lens bs' ∧ length bs' = (n - 1)%nat ∧
    ∀ i b, (i < n - 1)%nat →
      disk_range p (part_disk n offset (S i)) (part_row n offset (S i))
        (BLOCK_SIZE * calc_col_length i L c) b → bs' !! i = Some b.
Proof using Hfits Hbs.
  intros (Hrl & Hzero & Hres). destruct repair_facts as (Hn3 & Hlen & _).
  exists ((piece <$> results) ++ replicate (n - 1 - length results) []).
  set (bs' := _ ++ _). assert (length bs' = (n - 1)%nat) as Hbl.
  { unfold bs'. rewrite length_app, length_fmap, length_replicate. lia. }
  split_and!; try done.
  - unfold bs'. rewrite concat_app. rewrite (proj2 (concat_nil_Forall (replicate _ _))).
    + by rewrite app_nil_r.
    + by apply Forall_replicate.
  - apply Forall2_same_length_lookup. pose proof Hfits as (? & _ & ? & _).
    assert (length lens = (n - 1)%nat) by (rewrite cols_length by done; unfold disk_cnt; lia).
    split; [congruence|]. intros i l b Hl Hb. pose proof (lookup_lt_Some _ _ _ Hl).
    rewrite cols_lookup in Hl by (unfold disk_cnt in *; try done; lia). simplify_eq.
    apply lookup_app_Some in Hb as [Hi|[Hge Hi]].
    + apply list_lookup_fmap_Some in Hi as (r & -> & Hr). by apply Hres.
    + rewrite length_fmap in *. apply lookup_replicate in Hi as [-> Hi]. by rewrite Hzero by lia.
  - intros i b Hi Hd. destruct (lookup_lt_is_Some_2 bs' i) as [b2 Hb2]; [lia|]. rewrite Hb2.
    f_equal. apply lookup_app_Some in Hb2 as [Hi2|[Hge Hi2]].
    + apply list_lookup_fmap_Some in Hi2 as (r & -> & Hr). destruct (Hres i r Hr) as [_ Hd2].
      unfold piece. by rewrite (Hd2 _ Hd).
    + rewrite length_fmap in *. apply lookup_replicate in Hi2 as [-> _].
      pose proof (disk_range_length _ _ _ _ _ Hd) as Hl. rewrite Hzero in Hl by lia.
      symmetry. apply nil_length_inv. unfold blen in Hl. lia.
Qed.

(** All columns but [x] can be relied on. *)
Lemma columns_read bad x :
  stripe p offset (concat bs) bad →
  (∀ i, (i < n - 1)%nat → i ≠ x → part_disk n offset (S i) ≠ bad) →
  ∃ results p' g, read_columns p (zip (disk_iter n pidx prow) lens) 0 size = Some (results, p') ∧
    same p p' ∧ concat (piece <$> results) = concat (<[x := g]> bs) ∧
    blocks_of lens (<[x := g]> bs) ∧
    (∀ b', (x < n - 1)%nat →
      disk_range p (part_disk n offset (S x)) (part_row n offset (S x))
        (BLOCK_SIZE * calc_col_length x L c) b' → g = b') ∧
    (scan_results results 0 L c None 0 = inl (None, 0) ∨
     scan_results results 0 L c None 0 = inl (Some x, calc_col_length x L c) ∧ (x < n - 1)%nat).
Proof using Hfits Hbs Hlaws Hml.
  intros Hst Hx. destruct repair_facts as (Hn3 & Hlen & _).
  destruct columns_results as (results & p' & Hrd & Hsame & Hres).
  destruct (columns_blocks results Hres) as (bs' & Hcat & Hbs' & Hbl & Hdr).
  assert (∀ i b, (i < n - 1)%nat → i ≠ x → bs !! i = Some b →
    disk_range p (part_disk n offset (S i)) (part_row n offset (S i))
      (BLOCK_SIZE * calc_col_length i L c) b) as Hgood.
  { intros i b Hi Hne Hb. destruct (column_facts i b Hb) as (_ & _ & <- & _).
    destruct (Hst (S i)) as (part & Hpart & Hpd); [lia|by apply Hx|].
    rewrite parts_blocks in Hpart. simpl in Hpart. rewrite Hb in Hpart. by simplify_eq. }
  exists results, p', (default [] (bs' !! x)). set (g := default [] (bs' !! x)).
  assert (<[x := g]> bs = bs') as ->.
  { apply list_eq. intros i. destruct (decide (i < n - 1)%nat) as [Hi|Hi].
    - destruct (decide (i = x)) as [->|Hne].
      + rewrite list_lookup_insert_eq by lia. unfold g.
        destruct (lookup_lt_is_Some_2 bs' x) as [b2 ->]; [lia|]. done.
      + rewrite list_lookup_insert_ne by done. destruct (lookup_lt_is_Some_2 bs i) as [b Hb]; [lia|].
        rewrite Hb. symmetry. by apply Hdr, Hgood.
    - rewrite !lookup_ge_None_2 by (rewrite ?length_insert; lia). done. }
  split_and!; try done.
  - intros b' Hxlt Hb'. unfold g. by rewrite (Hdr x b' Hxlt Hb').
  - destruct Hres as (Hrl & _ & Hres).
    destruct (scan_results_one results 0 L c x) as [[? _]|(Hs & r & e & Hr & _)].
    + intros i r Hne Hi. pose proof (lookup_lt_Some _ _ _ Hi).
      destruct (lookup_lt_is_Some_2 bs i) as [b Hb]; [lia|]. exists b.
      destruct (Hres i r Hi) as [_ Hd]. apply Hd, Hgood; try done. lia.
    + by left.
    + right. split; [done|]. apply lookup_lt_Some in Hr. lia.
Qed.

End repair.

(** *** Reading *)

(** What a read leaves behind: all stripes are as before, and the part of this
    one that lies on [bad] is right again if the disk works and the read
    looked at it. *)
Definition recovered (p p' : Parity1 D) (offset : Z) (data : bytes) (bad : nat) (scrub : bool) : Prop :=
  length (p_vdevs p') = length (p_vdevs p) ∧
  (∀ i d, i ≠ bad → p_vdevs p !! i = Some d → leaf_ok d →
    ∃ d', p_vdevs p' !! i = Some d' ∧ leaf_ok d' ∧ leaf_bytes d' = leaf_bytes d) ∧
  (∀ offset' data', stripe p offset' data' bad → stripe p' offset' data' bad) ∧
  (∀ j part d, stripe_parts (disk_cnt p) data !! j = Some part →
    (j < length (p_vdevs p))%nat → part_disk (length (p_vdevs p)) offset j = bad →
    scrub = true ∨ (0 < j)%nat → p_vdevs p !! bad = Some d → leaf_ok d →
    BLOCK_SIZE * part_row (length (p_vdevs p)) offset j + blen part ≤ blen (leaf_bytes d) →
    holds p' offset data j).

Lemma recovered_same p p' offset data bad scrub :
  same p p' →
  (∀ j part d, stripe_parts (disk_cnt p) data !! j = Some part →
    (j < length (p_vdevs p))%nat → part_disk (length (p_vdevs p)) offset j = bad →
    scrub = true ∨ (0 < j)%nat → p_vdevs p !! bad = Some d → leaf_ok d →
    BLOCK_SIZE * part_row (length (p_vdevs p)) offset j + blen part ≤ blen (leaf_bytes d) →
    holds p offset data j) →
  recovered p p' offset data bad scrub.
Proof.
  intros Hs Hj. split_and!; [apply Hs|intros i d _; apply Hs|by intros; eapply same_stripe|].
  intros. eapply same_holds; [done|]. by eapply Hj.
Qed.

Lemma recovered_rewrote p p1 p' offset data bad scrub j part :
  (3 ≤ length (p_vdevs p))%nat → (j < length (p_vdevs p))%nat →
  same p p1 → part_disk (length (p_vdevs p)) offset j = bad →
  stripe_parts (disk_cnt p) data !! j = Some part →
  rewrote p1 p' bad (part_row (length (p_vdevs p)) offset j) part →
  recovered p p' offset data bad scrub.
Proof.
  intros Hn Hj Hs Hb Hpart Hr. pose proof Hr as (Hl & Ho & Hw).
  split_and!; [by rewrite Hl, (proj1 Hs)|intros i d Hne; rewrite Ho by done; apply Hs|intros; by eapply rewrote_stripe, Hr; eapply same_stripe|].
  intros j' part' d Hp' Hj' Hb' _ Hd Hok Hrange.
  assert (j' = j) as -> by (eapply (part_disk_inj _ offset); [done..|congruence]).
  rewrite Hpart in Hp'. simplify_eq. exists part'. unfold disk_cnt in *.
  rewrite Hl, (proj1 Hs). split; [done|].
  destruct (proj2 Hs _ d Hd Hok) as (d1 & Hd1 & Hok1 & Hb1). eapply Hw; [done|done|by rewrite Hb1].
Qed.

Lemma find_column n offset bad :
  (3 ≤ n)%nat →
  ∃ x, (∀ i, (i < n - 1)%nat → i ≠ x → part_disk n offset (S i) ≠ bad) ∧
    ((x < n - 1)%nat → part_disk n offset (S x) = bad ∧ part_disk n offset 0 ≠ bad).
Proof.
  intros Hn. destruct (decide (bad ∈ (λ i, part_disk n offset (S i)) <$> seq 0 (n - 1))) as [Hb|Hb].
  - apply list_elem_of_fmap in Hb as (x & -> & [_ Hx]%elem_of_seq). exists x. split.
    + intros i Hi Hne E. apply Hne. apply (part_disk_inj n offset Hn) in E; lia.
    + intros _. split; [done|]. intros E. apply (part_disk_inj n offset Hn) in E; lia.
  - exists n. split; [|lia]. intros i Hi _ E. apply Hb. apply list_elem_of_fmap. exists i.
    split; [done|]. apply elem_of_seq. lia.
Qed.

(** A part of a working disk that is in range, and what it holds. *)
Lemma in_range_read p idx off len d :
  addressable off len → p_vdevs p !! idx = Some d → leaf_ok d →
  BLOCK_SIZE * off + len ≤ blen (leaf_bytes d) → ∃ b, disk_range p idx off len b.
Proof.
  intros (Ho & Hl & _) Hd Hok Hr.
  destruct (cut_in_range (leaf_bytes d) (BLOCK_SIZE * off) len) as [b Hb]; try done.
  { unfold BLOCK_SIZE. lia. }
  exists b, d. done.
Qed.

Section read.
Context (p : Parity1 D) (offset size : Z) (bs : list bytes) (bad : nat) (ck : csum).
Local Abbreviation n := (length (p_vdevs p)).
Local Abbreviation L := (long_col_len (disk_cnt p) size).
Local Abbreviation c := (long_col_cnt (disk_cnt p) size).
Local Abbreviation lens := (col_length_sequence L c (disk_cnt p)).
Local Abbreviation data := (concat bs).
Local Abbreviation parity := (parity_of (Z.to_nat (BLOCK_SIZE * L)) bs).
Context (Hfits : fits (disk_cnt p) offset size) (Hbs : blocks_of lens bs).
Context (Hst : stripe p offset data bad).

(** The read of the parity. *)
Lemma parity_read_spec p1 :
  same p p1 →
  ∃ r p2, on_disk p1 (part_disk n offset 0)
      (λ d, leaf_read_raw d (BLOCK_SIZE * L) (part_row n offset 0)) = Some (r, p2) ∧
    same p p2 ∧ (part_disk n offset 0 ≠ bad → r = inl parity) ∧
    (∀ d, part_disk n offset 0 = bad → p_vdevs p !! bad = Some d → leaf_ok d →
      BLOCK_SIZE * part_row n offset 0 + blen parity ≤ blen (leaf_bytes d) →
      ∃ b, r = inl b ∧ disk_range p bad (part_row n offset 0) (BLOCK_SIZE * L) b).
Proof using Hfits Hbs Hst Hlaws.
  intros Hs. destruct (repair_facts p offset size bs Hfits Hbs) as (Hn3 & Hlen & HL & HLm & _).
  assert (blen parity = BLOCK_SIZE * L) as Hpl
    by (unfold blen, BLOCK_SIZE in *; rewrite length_parity_of; lia).
  pose proof (part_address p offset size bs Hfits Hbs 0 parity eq_refl) as Ha. rewrite Hpl in Ha.
  destruct (read_disk p1 (part_disk n offset 0) (part_row n offset 0) (BLOCK_SIZE * L))
    as (r & p2 & Hr & Hs2 & _ & Hok); [rewrite (proj1 Hs); by apply part_disk_lt|done|].
  exists r, p2. split; [done|]. split; [by etrans|]. split.
  - intros Hne. apply Hok. eapply same_range; [done|].
    destruct (Hst 0%nat) as (part & Hp & Hd); [lia|done|].
    rewrite (parts_blocks p offset size bs Hfits Hbs) in Hp. injection Hp as <-. by rewrite Hpl in Hd.
  - intros d <- Hd Hdok Hrange. rewrite Hpl in Hrange.
    destruct (in_range_read p _ _ _ d Ha Hd Hdok Hrange) as [b Hb]. exists b. split; [|done].
    apply Hok. by eapply same_range.
Qed.

(** A column that was read and turned out right. *)
Lemma column_was_right x g :
  (∀ i, (i < n - 1)%nat → i ≠ x → part_disk n offset (S i) ≠ bad) →
  (∀ b', (x < n - 1)%nat → disk_range p (part_disk n offset (S x)) (part_row n offset (S x))
      (BLOCK_SIZE * calc_col_length x L c) b' → g = b') →
  <[x := g]> bs = bs →
  ∀ i part d, stripe_parts (disk_cnt p) data !! S i = Some part → (S i < n)%nat →
    part_disk n offset (S i) = bad → p_vdevs p !! bad = Some d → leaf_ok d →
    BLOCK_SIZE * part_row n offset (S i) + blen part ≤ blen (leaf_bytes d) →
    holds p offset data (S i).
Proof using Hfits Hbs Hlaws Hst.
  intros Hx Hg Eb i part d Hpart Hi Hb Hd Hok Hrange.
  pose proof Hpart as Hpi. rewrite (parts_blocks p offset size bs Hfits Hbs) in Hpi. simpl in Hpi.
  destruct (decide (i = x)) as [->|Hne]; [|by destruct (Hx i ltac:(lia) Hne)].
  destruct (column_facts p offset size bs Hfits Hbs x part Hpi) as (Hlt & _ & Hbl & _ & _ & Ha).
  destruct (in_range_read p _ _ _ d Ha Hd Hok Hrange) as [b Hr].
  exists part. split; [done|]. rewrite Hb. assert (g = b) as ->.
  { apply Hg; [done|]. rewrite Hb. by rewrite <- Hbl. }
  assert (bs !! x = Some b) as Hbx.
  { rewrite <- Eb. apply list_lookup_insert_eq. by eapply lookup_lt_Some. }
  rewrite Hpi in Hbx. by simplify_eq.
Qed.

(** The three ways a read ends that has looked at the parity. *)
Local Abbreviation pidx := (Z.to_nat (offset mod disk_cnt p)).
Local Abbreviation prow := (offset / disk_cnt p).

Definition ends (o : IO (Parity1 D) ScrubResult) (scrub : bool) : Prop :=
  ∃ r p', o = Some (inl r, p') ∧ scrub_data r = data ∧ recovered p p' offset data bad scrub.

Lemma same_cnt p2 : same p p2 → disk_cnt p2 = disk_cnt p.
Proof using. intros [E _]. unfold disk_cnt. by rewrite E. Qed.

Lemma parity_checked p2 x g parity' faulted :
  same p p2 →
  (part_disk n offset 0 ≠ bad → parity' = parity) →
  (∀ d, part_disk n offset 0 = bad → p_vdevs p !! bad = Some d → leaf_ok d →
    BLOCK_SIZE * part_row n offset 0 + blen parity ≤ blen (leaf_bytes d) →
    disk_range p bad (part_row n offset 0) (BLOCK_SIZE * L) parity') →
  (∀ i, (i < n - 1)%nat → i ≠ x → part_disk n offset (S i) ≠ bad) →
  (∀ b', (x < n - 1)%nat → disk_range p (part_disk n offset (S x)) (part_row n offset (S x))
      (BLOCK_SIZE * calc_col_length x L c) b' → g = b') →
  <[x := g]> bs = bs →
  ends (check_parity p2 size pidx prow data parity' faulted) true.
Proof using Hfits Hbs Hst Hlaws.
  intros Hs2 Hpok Hpbad Hx Hg Eb.
  destruct (repair_facts p offset size bs Hfits Hbs) as (Hn3 & _).
  pose proof (parts_blocks p offset size bs Hfits Hbs) as Hparts.
  pose proof (check_parity_spec p2 offset size bs) as Hcp. rewrite (proj1 Hs2), same_cnt in Hcp by done.
  destruct (Hcp Hfits Hbs parity' faulted) as (f & rep & p' & -> & Hp').
  eexists _, p'. split; [done|]. split; [done|]. destruct Hp' as [[-> Epar]|[Epar Hrw]].
  - apply recovered_same; [done|]. intros [|i] part d Hpart Hj Hb _ Hd Hok Hrange.
    + rewrite Hparts in Hpart. injection Hpart as <-.
      pose proof (Hpbad d Hb Hd Hok Hrange) as Hb'. exists parity. rewrite Hparts. split; [done|].
      rewrite Hb, <- Epar. by rewrite (disk_range_length _ _ _ _ _ Hb').
    + by eapply (column_was_right x g).
  - destruct (decide (part_disk n offset 0 = bad)) as [Hb|Hne]; [|by destruct (Epar (Hpok Hne))].
    rewrite Hb in Hrw. eapply (recovered_rewrote p p2 p' _ _ _ _ 0); try done; [lia|].
    by rewrite Hparts.
Qed.

Lemma column_rebuilt p2 x g faulted scrub :
  same p p2 → (x < n - 1)%nat → part_disk n offset (S x) = bad → blocks_of lens (<[x := g]> bs) →
  csum_verify ck data = true →
  ends (rebuild p2 size pidx prow ck (concat (<[x := g]> bs)) parity x faulted) scrub.
Proof using Hfits Hbs Hst Hlaws.
  intros Hs2 Hxlt Hb Hbs' Hv. destruct (repair_facts p offset size bs Hfits Hbs) as (Hn3 & Hlen & _).
  destruct (lookup_lt_is_Some_2 bs x) as [b Hbx]; [lia|].
  pose proof (rebuild_spec p2 offset size bs) as Hrb. rewrite (proj1 Hs2), same_cnt in Hrb by done.
  destruct (Hrb Hfits Hbs x b g ck faulted) as (rep & p' & -> & Hrw); try done.
  { by apply (blocks_of_same lens bs x). }
  eexists _, p'. split; [done|]. split; [done|]. rewrite Hb in Hrw.
  eapply (recovered_rewrote p p2 p' _ _ _ _ (S x)); try done; [lia|].
  by rewrite (parts_blocks p offset size bs Hfits Hbs).
Qed.

Lemma column_reconstructed `{!ChecksumStream} p2 x g faulted scrub :
  same p p2 → (x < n - 1)%nat → part_disk n offset (S x) = bad → blocks_of lens (<[x := g]> bs) →
  csum_verify ck data = true →
  (∀ d, blen d = BLOCK_SIZE * size → csum_verify ck d = true → d = data) →
  csum_verify ck (concat (<[x := g]> bs)) = false →
  ends (reconstruct p2 size pidx prow ck (concat (<[x := g]> bs)) parity faulted) scrub.
Proof using Hfits Hbs Hst Hlaws.
  intros Hs2 Hxlt Hb Hbs' Hv Huniq V.
  destruct (repair_facts p offset size bs Hfits Hbs) as (Hn3 & Hlen & _).
  destruct (lookup_lt_is_Some_2 bs x) as [b Hbx]; [lia|].
  pose proof (reconstruct_spec p2 offset size bs) as Hrc. rewrite (proj1 Hs2), same_cnt in Hrc by done.
  destruct (Hrc Hfits Hbs _ x b g ck faulted) as (rep & p' & -> & p3 & Hs3 & Hrw); try done.
  { by apply (blocks_of_same lens bs x). }
  eexists _, p'. split; [done|]. split; [done|]. rewrite Hb in Hrw.
  eapply (recovered_rewrote p p3 p' _ _ _ _ (S x)); try done; [lia|by etrans|].
  by rewrite (parts_blocks p offset size bs Hfits Hbs).
Qed.

Lemma read_spec `{!ChecksumStream} scrub :
  csum_verify ck data = true →
  (∀ d, blen d = BLOCK_SIZE * size → csum_verify ck d = true → d = data) →
  ends (read_ p size offset ck scrub) scrub.
Proof using Hfits Hbs Hst Hlaws Hml.
  intros Hv Huniq. destruct (repair_facts p offset size bs Hfits Hbs) as (Hn3 & Hlen & HL & HLm & _).
  pose proof Hfits as (_ & _ & _ & Hsm & _). set (p0 := p_count (add_read size) p).
  destruct (find_column n offset bad Hn3) as (x & Hx & Hxb).
  destruct (columns_read p0 offset size bs Hfits Hbs bad x Hst Hx)
    as (results & p1 & g & Hrd & Hs1 & Hcat & Hbs' & Hg & Hscan).
  assert (same p p1) as Hs01 by (etrans; [|done]; split; [done|]; eauto).
  destruct (parity_read_spec p1 Hs01) as (r & p2 & Hpr & Hs2 & Hpok & Hpbad).
  unfold read_, buf_zeroed, storage_zeroed. rewrite to_bytes_Some by done. cbn [mbind option_bind].
  change (disk_cnt p0) with (disk_cnt p) in Hrd, Hcat, Hscan, Hbs', Hg.
  change (p_count (add_read size) p) with p0. change (length (p_vdevs p0)) with n in Hrd, Hg, Hscan |- *.
  rewrite Hrd. cbn [mbind option_bind]. rewrite Hcat, to_bytes_Some by done. cbn [mbind option_bind].
  destruct (part_0 n offset) as [Hpd Hprow]. rewrite Hpd, Hprow in Hpr. fold (disk_cnt p) in Hpr.
  destruct Hscan as [Hscan|[Hscan Hxlt]]; rewrite Hscan.
  - rewrite bool_decide_true by done. cbn [andb].
    destruct (csum_verify ck (concat (<[x := g]> bs))) eqn:V.
    + assert (<[x := g]> bs = bs) as Eb.
      { apply (concat_inj lens); [done|done|]. apply Huniq; [|done].
        rewrite (blocks_of_sum _ _ Hbs'), <- (blocks_of_sum _ _ Hbs).
        by apply (concat_blocks p offset size bs Hfits Hbs). }
      rewrite Eb. destruct scrub; cbn [negb andb].
      * rewrite Hpr. cbn [mbind option_bind]. apply (parity_checked p2 x g); try done.
        -- intros Hne. by rewrite (Hpok Hne).
        -- intros d ? ? ? ?. by destruct (Hpbad d) as (b & -> & ?).
      * eexists _, p1. split; [done|]. split; [done|]. apply recovered_same; [done|].
        intros [|i] part d Hpart Hj Hb [?|?] Hd Hok Hrange; try done; [lia|].
        by eapply (column_was_right x g).
    + assert (x < n - 1)%nat as Hxlt.
      { destruct (decide (x < n - 1)%nat) as [|Hge]; [done|].
        rewrite list_insert_ge in V by lia. congruence. }
      destruct (Hxb Hxlt) as [Hb Hne]. rewrite !andb_false_r. cbn [andb]. rewrite Hpr.
      cbn [mbind option_bind]. rewrite (Hpok Hne), ?andb_false_r. by apply column_reconstructed.
  - rewrite bool_decide_false by done. cbn [andb]. rewrite Hpr. cbn [mbind option_bind].
    destruct (Hxb Hxlt) as [Hb Hne]. rewrite (Hpok Hne). by apply column_rebuilt.
Qed.

End read.

(** *** Writing *)

(** A disk that works, with room for [len] bytes. *)
Definition working (p : Parity1 D) (idx : nat) (len : Z) : Prop :=
  ∃ d, p_vdevs p !! idx = Some d ∧ leaf_ok d ∧ len ≤ blen (leaf_bytes d).

(** The effect of writes [ws] to different disks: on a working disk with room
    for it, the bytes are replaced. *)
Definition wrote (p p' : Parity1 D) (ws : list ((nat * Z) * bytes)) : Prop :=
  length (p_vdevs p') = length (p_vdevs p) ∧
  (∀ i, i ∉ ws.*1.*1 → p_vdevs p' !! i = p_vdevs p !! i) ∧
  (∀ idx off b d, ((idx, off), b) ∈ ws → p_vdevs p !! idx = Some d → leaf_ok d →
    BLOCK_SIZE * off + blen b ≤ blen (leaf_bytes d) →
    ∃ d', p_vdevs p' !! idx = Some d' ∧ leaf_ok d' ∧
      leaf_bytes d' = copy_to (leaf_bytes d) (BLOCK_SIZE * off) b).

Lemma wrote_nil p : wrote p p [].
Proof. split_and!; try done. intros ???? Hin. by apply elem_of_nil in Hin. Qed.

Lemma wrote_cons p p1 p' idx off b ws :
  length (p_vdevs p1) = length (p_vdevs p) →
  (∀ i, i ≠ idx → p_vdevs p1 !! i = p_vdevs p !! i) →
  (∀ d, p_vdevs p !! idx = Some d → leaf_ok d → BLOCK_SIZE * off + blen b ≤ blen (leaf_bytes d) →
    ∃ d', p_vdevs p1 !! idx = Some d' ∧ leaf_ok d' ∧
      leaf_bytes d' = copy_to (leaf_bytes d) (BLOCK_SIZE * off) b) →
  idx ∉ ws.*1.*1 → wrote p1 p' ws → wrote p p' (((idx, off), b) :: ws).
Proof.
  intros Hl Ho Hd Hidx (Hl' & Ho' & Hd'). split_and!.
  - congruence.
  - intros i Hi. cbn [fmap list_fmap fst] in Hi. apply not_elem_of_cons in Hi as [Hne Hi].
    by rewrite Ho', Ho.
  - intros idx0 off0 b0 d [[= -> -> ->]|Hin]%elem_of_cons Hdi Hok Hr.
    + rewrite Ho' by done. by apply Hd.
    + assert (idx0 ≠ idx).
      { intros ->. apply Hidx. apply list_elem_of_fmap. exists (idx, off0). split; [done|].
        apply list_elem_of_fmap. by exists ((idx, off0), b0). }
      eapply Hd'; try done. by rewrite Ho.
Qed.

(** At most one error. *)
Lemma second_error_none (ws : list ((nat * Z) * bytes)) results bad :
  Forall2 (λ w r, w.1.1 ≠ bad → r = inl tt) ws results → NoDup ws.*1.*1 →
  second_error results false = None.
Proof.
  assert (∀ ws results e, Forall2 (λ (w : (nat * Z) * bytes) r, w.1.1 ≠ bad → r = inl tt) ws results →
    bad ∉ ws.*1.*1 → second_error results e = None) as Hok.
  { intros ws' results' e H2. induction H2 as [|w r ws' rs Hr H2 IH]; intros Hb; [done|].
    cbn [fmap list_fmap] in Hb. apply not_elem_of_cons in Hb as [Hne Hb]. rewrite Hr by done. by apply IH. }
  induction 1 as [|w r ws' rs Hr H2 IH]; intros Hnd; [done|].
  cbn [fmap list_fmap] in Hnd. apply NoDup_cons in Hnd as [Hni Hnd].
  destruct r as [[]|e]; simpl; [by apply IH|]. eapply Hok; [done|].
  destruct (decide (w.1.1 = bad)) as [<-|Hne]; [done|]. by discriminate (Hr Hne).
Qed.

Lemma write_columns_spec bad ts lens bs p data pre s e :
  blocks_of lens bs → length ts = length lens → Forall (λ l, 0 ≤ l) lens →
  StronglySorted (λ a b, b ≤ a) lens → data = pre ++ concat bs → blen pre = BLOCK_SIZE * s →
  0 ≤ s → e = s + sum_Z lens → BLOCK_SIZE * e < U32_SIZE →
  NoDup ts.*1 → Forall2 (λ t b, addressable t.2 (blen b)) ts bs →
  Forall2 (λ t b, t.1 < length (p_vdevs p) ∧ (t.1 ≠ bad → working p t.1 (BLOCK_SIZE * t.2 + blen b)))%nat ts bs →
  ∃ results p' k, write_columns p (zip ts lens) data s e = Some (results, p') ∧
    wrote p p' (take k (zip ts bs)) ∧ Forall (λ b, b = []) (drop k bs) ∧
    Forall2 (λ w r, w.1.1 ≠ bad → r = inl tt) (take k (zip ts bs)) results.
Proof.
  intros Hbs. revert ts p pre s. induction Hbs as [|l b lens bs Hl Hbs IH];
    intros [|[idx off] ts] p pre s Hlen Hp Hs -> Hpre H0 He Hm Hnd Ha Hw; try done.
  { exists [], p, 0%nat. split; [done|]. split; [apply wrote_nil|]. split; constructor. }
  cbn [zip zip_with write_columns]. pose proof Hp as [Hl0 Hp']%Forall_cons.
  pose proof (sum_Z_nonneg lens Hp').
  unfold sum_Z in He. simpl in He. fold (sum_Z lens) in He.
  destruct (Z.eqb_spec l 0) as [E|E].
  { exists [], p, 0%nat. split; [done|]. split; [apply wrote_nil|]. split; [|constructor].
    apply (blocks_of_empty (l :: lens)); [by constructor|].
    constructor; [done|]. by eapply sorted_zero. }
  rewrite split_range_exact by lia. cbn [mbind option_bind]. replace (s + l - s) with l by lia.
  rewrite !to_bytes_Some by (unfold BLOCK_SIZE in *; lia). cbn [mbind option_bind concat].
  rewrite (cut_app_mid pre b (concat bs)) by done. cbn [mbind option_bind].
  apply Forall2_cons in Ha as [Ha Has]. apply Forall2_cons in Hw as [[Hidx Hwk] Hws].
  cbn [fmap list_fmap fst snd] in *. apply NoDup_cons in Hnd as [Hni Hnd].
  destruct (write_disk p idx off b false Hidx Ha) as (r & p1 & -> & Hl1 & Ho1 & Hd1).
  cbn [mbind option_bind].
  destruct (IH ts p1 (pre ++ b) (s + l)) as (results & p' & k & Hwr & Hwrote & Hz & Hres); try done; try lia.
  { simpl in Hlen. lia. }
  { by apply StronglySorted_inv in Hs as [? _]. }
  { by rewrite <- app_assoc. }
  { rewrite blen_app. lia. }
  { apply Forall2_same_length_lookup. split; [by eapply Forall2_length|]. intros i t b' Ht Hb'.
    destruct (Forall2_lookup_lr _ _ _ _ _ _ Hws Ht Hb') as [Hlt Hwk']. rewrite Hl1. split; [done|].
    intros Hne. destruct (Hwk' Hne) as (d & Hd & ?). exists d. rewrite Ho1; [done|]. intros E2.
    apply Hni. rewrite <- E2. apply list_elem_of_fmap. exists t. split; [done|].
    by eapply list_elem_of_lookup_2. }
  cbn [concat] in Hwr. rewrite Hwr. cbn [mbind option_bind].
  exists (r :: results), p', (S k). cbn [take drop]. split_and!; try done.
  - eapply wrote_cons; try done.
    + intros d Hd Hok Hr. by destruct (Hd1 d Hd Hok Hr) as [_ ?].
    + rewrite !fmap_take, fst_zip by (by rewrite (Forall2_length _ _ _ Has)). intros Hin.
      apply list_elem_of_lookup in Hin as [i Hi]. apply lookup_take_Some in Hi as [Hi _].
      by apply Hni, (list_elem_of_lookup_2 _ i).
  - constructor; [|done]. intros Hne. destruct (Hwk Hne) as (d & Hd & Hok & Hr).
    by destruct (Hd1 d Hd Hok Hr) as [? _].
Qed.

Section write.
Context (p : Parity1 D) (offset size : Z) (bs : list bytes) (bad : nat).
Local Abbreviation n := (length (p_vdevs p)).
Local Abbreviation L := (long_col_len (disk_cnt p) size).
Local Abbreviation c := (long_col_cnt (disk_cnt p) size).
Local Abbreviation lens := (col_length_sequence L c (disk_cnt p)).
Local Abbreviation data := (concat bs).
Local Abbreviation parity := (parity_of (Z.to_nat (BLOCK_SIZE * L)) bs).
Context (Hfits : fits (disk_cnt p) offset size) (Hbs : blocks_of lens bs).
Context (Hroom : ∀ j part, (parity :: bs) !! j = Some part → part_disk n offset j ≠ bad →
  working p (part_disk n offset j) (BLOCK_SIZE * part_row n offset j + blen part)).

Lemma build_parity_spec : build_parity data L c (disk_cnt p) = Some parity.
Proof using Hfits Hbs.
  destruct (repair_facts p offset size bs Hfits Hbs) as (Hn3 & Hlen & HL & HLm & Hm & Hp).
  pose proof Hfits as (? & _ & ? & _).
  unfold build_parity. rewrite to_bytes_Some by done. cbn [mbind option_bind].
  by rewrite parity_loop_spec by (done || by apply cols_sorted).
Qed.

(** The writes of a stripe. *)
Definition stripe_writes : list ((nat * Z) * bytes) :=
  imap (λ j part, ((part_disk n offset j, part_row n offset j), part)) (parity :: bs).

Lemma stripe_writes_columns :
  zip (disk_iter n (Z.to_nat (offset mod disk_cnt p)) (offset / disk_cnt p)) bs =
    imap (λ i part, ((part_disk n offset (S i), part_row n offset (S i)), part)) bs.
Proof using Hfits Hbs.
  destruct (repair_facts p offset size bs Hfits Hbs) as (Hn3 & Hlen & _).
  apply list_eq. intros i. rewrite list_lookup_imap. destruct (decide (i < n - 1)%nat) as [Hi|Hi].
  - destruct (lookup_lt_is_Some_2 bs i) as [b Hb]; [lia|]. rewrite Hb. simpl.
    apply lookup_zip_Some. split; [|done]. by apply disk_iter_lookup.
  - rewrite (lookup_ge_None_2 bs) by lia. simpl. apply lookup_ge_None_2.
    rewrite length_zip. lia.
Qed.

(** The columns are written, on the disks that the parity leaves alone. *)
Lemma columns_written p1 :
  length (p_vdevs p1) = n →
  (∀ i, i ≠ part_disk n offset 0 → p_vdevs p1 !! i = p_vdevs p !! i) →
  ∃ results p' k, write_columns p1 (zip (disk_iter n (Z.to_nat (offset mod disk_cnt p))
      (offset / disk_cnt p)) lens) data 0 size = Some (results, p') ∧
    let ws := take k (imap (λ i part, ((part_disk n offset (S i), part_row n offset (S i)), part)) bs) in
    wrote p1 p' ws ∧ Forall (λ b, b = []) (drop k bs) ∧
    Forall2 (λ w r, w.1.1 ≠ bad → r = inl tt) ws results ∧
    NoDup (part_disk n offset 0 :: ws.*1.*1).
Proof using Hfits Hbs Hroom Hlaws.
  intros Hl1 Ho1.
  destruct (repair_facts p offset size bs Hfits Hbs) as (Hn3 & Hlen & HL & HLm & Hm & Hp).
  pose proof Hfits as (Hn & Ho & Hs & Hsm & _).
  pose proof (part_address p offset size bs Hfits Hbs) as Ha. set (ts := disk_iter n _ _).
  assert (length ts = (n - 1)%nat) as Htl by (by apply disk_iter_length).
  assert (∀ i, (i < n - 1)%nat → ts !! i = Some (part_disk n offset (S i), part_row n offset (S i)))
    as Hti by (intros; by apply disk_iter_lookup).
  destruct (write_columns_spec bad ts lens bs p1 data [] 0 size)
    as (results & p' & k & -> & Hwr & Hz & Hres); try done.
  { rewrite cols_length by done. unfold disk_cnt in *. lia. }
  { by apply cols_sorted. }
  { by rewrite cols_sum. }
  { apply disk_iter_nodup. lia. }
  { apply Forall2_same_length_lookup. split; [congruence|]. intros i t b Ht Hb.
    pose proof (lookup_lt_Some _ _ _ Hb). rewrite Hti in Ht by lia. simplify_eq.
    by apply (Ha (S i)). }
  { apply Forall2_same_length_lookup. split; [congruence|]. intros i t b Ht Hb.
    pose proof (lookup_lt_Some _ _ _ Hb). rewrite Hti in Ht by lia. simplify_eq. cbn [fst snd].
    rewrite Hl1. split; [by apply part_disk_lt|]. intros Hne.
    destruct (Hroom (S i) b Hb Hne) as (d & Hd & ?). exists d. rewrite Ho1; [done|].
    intros E. apply (part_disk_inj n offset Hn3) in E; lia. }
  exists results, p', k. cbv zeta. rewrite <- stripe_writes_columns. fold ts. split_and!; try done.
  rewrite !fmap_take, fst_zip by lia. constructor.
  - intros Hin. apply list_elem_of_lookup in Hin as [i Hi]. apply lookup_take_Some in Hi as [Hi _].
    apply list_lookup_fmap_Some in Hi as (t & E & Ht). pose proof (lookup_lt_Some _ _ _ Ht).
    rewrite Hti in Ht by lia. simplify_eq. simpl in E. apply (part_disk_inj n offset Hn3) in E; lia.
  - pose proof (disk_iter_nodup n offset Hn3) as Hnd. fold (disk_cnt p) in Hnd. fold ts in Hnd.
    rewrite <- (take_drop k ts.*1) in Hnd. by apply NoDup_app in Hnd as (? & _).
Qed.

Lemma write_spec :
  ∃ p' k, parity_write p data offset = Some (inl tt, p') ∧
    wrote p p' (take (S k) stripe_writes) ∧ Forall (λ b, b = []) (drop k bs).
Proof using Hfits Hbs Hroom Hlaws.
  destruct (repair_facts p offset size bs Hfits Hbs) as (Hn3 & _).
  assert (Block.from_bytes (blen data) = Some size) as Hfrom.
  { rewrite (concat_blocks p offset size bs Hfits Hbs). unfold Block.from_bytes.
    rewrite Z.mul_comm, Z.mod_mul, Z.div_mul by done. done. }
  unfold parity_write. rewrite Hfrom. cbn [mbind option_bind]. rewrite build_parity_spec.
  cbn [mbind option_bind].
  destruct (write_disk p (part_disk n offset 0) (part_row n offset 0) parity false)
    as (r & p1 & Hw & Hl1 & Ho1 & Hd1);
    [by apply part_disk_lt|by apply (part_address p offset size bs Hfits Hbs 0%nat)|].
  destruct (columns_written p1 Hl1 Ho1) as (results & p' & k & Hcw & Hwr & Hz & Hres & Hnd).
  destruct (part_0 n offset) as [Hpd Hprow].
  rewrite Hpd, Hprow in Hw. fold (disk_cnt p) in Hw. rewrite Hw. cbn [mbind option_bind].
  rewrite Hl1, Hcw. cbn [mbind option_bind]. exists p', k.
  rewrite (second_error_none (take (S k) stripe_writes) (r :: results) bad); [| |done].
  - split; [done|]. split; [|done]. apply NoDup_cons in Hnd as [Hni _]. eapply wrote_cons; try done.
    intros d Hd Hok Hr. by destruct (Hd1 d Hd Hok Hr) as [_ ?].
  - constructor; [|done]. intros Hne. cbn [fst] in Hne.
    destruct (Hroom 0%nat parity eq_refl Hne) as (d & Hd & Hok & Hr).
    by destruct (Hd1 d Hd Hok Hr) as [? _].
Qed.

Lemma stripe_writes_lookup k j part :
  take (S k) stripe_writes !! j = Some ((part_disk n offset j, part_row n offset j), part) ↔
  (j ≤ k)%nat ∧ (parity :: bs) !! j = Some part.
Proof.
  rewrite lookup_take_Some. unfold stripe_writes. rewrite list_lookup_imap_Some. split.
  - intros [(x & Hx & E) Hlt]. simplify_eq. split; [lia|done].
  - intros [Hlt Hj]. split; [eauto|lia].
Qed.

(** The disk of a part that was not written is left alone. *)
Lemma unwritten_disk k i :
  i ∈ (take (S k) stripe_writes).*1.*1 →
  ∃ j part, (parity :: bs) !! j = Some part ∧ (j ≤ k)%nat ∧ i = part_disk n offset j ∧
    ((part_disk n offset j, part_row n offset j), part) ∈ take (S k) stripe_writes.
Proof.
  rewrite <- list_fmap_compose, list_elem_of_fmap. intros (w & -> & Hw). pose proof Hw as Hw'.
  apply list_elem_of_lookup in Hw as [j Hj]. pose proof Hj as Hj'.
  apply lookup_take_Some in Hj' as [Hj' Hlt]. unfold stripe_writes in Hj'.
  rewrite list_lookup_imap_Some in Hj'. destruct Hj' as (part & Hp & ->).
  exists j, part. split_and!; try done. lia.
Qed.

(** The new stripe is on the disks. *)
Lemma wrote_stripe p' k :
  wrote p p' (take (S k) stripe_writes) → Forall (λ b, b = []) (drop k bs) → stripe p' offset data bad.
Proof using Hfits Hbs Hroom.
  intros (Hl & Ho & Hw) Hz j. rewrite Hl. intros Hj Hne.
  destruct (repair_facts p offset size bs Hfits Hbs) as (Hn3 & Hlen & _).
  pose proof (part_address p offset size bs Hfits Hbs) as Ha.
  destruct (lookup_lt_is_Some_2 (parity :: bs) j) as [part Hp]; [simpl; lia|].
  exists part. unfold disk_cnt at 1. rewrite Hl. fold (disk_cnt p).
  rewrite (parts_blocks p offset size bs Hfits Hbs). split; [done|].
  destruct (Hroom j part Hp Hne) as (d & Hd & Hok & Hr). destruct (decide (j ≤ k)%nat) as [Hjk|Hjk].
  - destruct (Hw (part_disk n offset j) (part_row n offset j) part d) as (d' & Hd' & Hok' & Hb'); try done.
    { apply (list_elem_of_lookup_2 _ j), stripe_writes_lookup. done. }
    exists d'. split_and!; try done. eapply written_range; [|done|done]. by apply (Ha j).
  - assert (part = []) as ->.
    { destruct j as [|i]; [lia|]. simpl in Hp. rewrite Forall_lookup in Hz.
      apply (Hz (i - k)%nat). rewrite lookup_drop. by replace (k + (i - k))%nat with i by lia. }
    destruct (in_range_read p (part_disk n offset j) (part_row n offset j) 0 d) as [b Hb]; try done.
    { by apply (Ha j []). }
    pose proof (disk_range_length _ _ _ _ _ Hb) as Hb0. destruct b; [|unfold blen in Hb0; simpl in Hb0; lia].
    exists d. rewrite Ho; [by destruct Hb as (d0 & Hd0 & ? & ?); simplify_eq|]. intros Hin.
    apply unwritten_disk in Hin as (j' & part' & Hp' & Hle & E & _). apply lookup_lt_Some in Hp'.
    simpl in Hp'. apply (part_disk_inj n offset Hn3) in E; lia.
Qed.

(** A stripe of other blocks stays on the disks. *)
Lemma wrote_other p' k offset' size' data' :
  wrote p p' (take (S k) stripe_writes) →
  fits (disk_cnt p) offset' size' → blen data' = BLOCK_SIZE * size' →
  offset + size + L ≤ offset' ∨ offset' + size' + long_col_len (disk_cnt p) size' ≤ offset →
  stripe p offset' data' bad → stripe p' offset' data' bad.
Proof using Hfits Hbs Hroom Hlaws.
  intros (Hl & Ho & Hw) Hf' Hd' Hdis Hst j'. rewrite Hl. intros Hj' Hne.
  destruct (Hst j' Hj' Hne) as (part' & Hp' & Hr'). exists part'. unfold disk_cnt at 1. rewrite Hl.
  split; [done|]. set (i := part_disk n offset' j') in *.
  destruct (decide (i ∈ (take (S k) stripe_writes).*1.*1)) as [Hin|Hin].
  - apply unwritten_disk in Hin as (j & part & Hp & _ & E & Hin). rewrite E in Hne, Hr' |- *.
    destruct (Hroom j part Hp Hne) as (d & Hd & Hok & Hr).
    destruct (Hw _ _ _ d Hin Hd Hok Hr) as (d' & Hd2 & Hok2 & Hb2).
    destruct Hr' as (d0 & Hd0 & _ & Hc). rewrite Hd in Hd0. injection Hd0 as <-.
    exists d'. split_and!; try done. rewrite Hb2, cut_copy_to_other; [done| |done|].
    + destruct (part_address p offset size bs Hfits Hbs j part Hp). unfold BLOCK_SIZE; lia.
    + apply (parts_disjoint n offset size data j part offset' size' data' j' part'); try done.
      * by apply (concat_blocks p offset size bs Hfits Hbs).
      * by rewrite <- (parts_blocks p offset size bs Hfits Hbs) in Hp.
  - destruct Hr' as (d & Hd & ?). exists d. by rewrite Ho.
Qed.

Lemma wrote_working p' k i len :
  wrote p p' (take (S k) stripe_writes) → i ≠ bad → working p i len → working p' i len.
Proof using Hfits Hbs Hroom Hlaws.
  intros (Hl & Ho & Hw) Hne (d & Hd & Hok & Hr).
  destruct (decide (i ∈ (take (S k) stripe_writes).*1.*1)) as [Hin|Hin].
  - apply unwritten_disk in Hin as (j & part & Hp & _ & -> & Hin).
    destruct (Hroom j part Hp Hne) as (d0 & Hd0 & _ & Hr0). rewrite Hd in Hd0. injection Hd0 as <-.
    destruct (Hw _ _ _ d Hin Hd Hok Hr0) as (d' & Hd2 & Hok2 & Hb2). exists d'.
    split_and!; try done. rewrite Hb2, blen_copy_to; [done| |done].
    destruct (part_address p offset size bs Hfits Hbs j part Hp). unfold BLOCK_SIZE; lia.
  - exists d. by rewrite Ho.
Qed.

End write.

(** ** What a single parity promises

    The first [rows] rows of all disks but [bad] work. *)
Definition healthy (p : Parity1 D) (bad : nat) (rows : Z) : Prop :=
  ∀ i, (i < length (p_vdevs p))%nat → i ≠ bad → working p i (BLOCK_SIZE * rows).

(** A request whose allocation is inside of these rows. *)
Definition request (n rows offset size : Z) : Prop :=
  fits n offset size ∧ offset + size + long_col_len n size ≤ n * rows.

Lemma request_room p bad rows offset size data j part :
  healthy p bad rows → request (disk_cnt p) rows offset size → blen data = BLOCK_SIZE * size →
  stripe_parts (disk_cnt p) data !! j = Some part → part_disk (length (p_vdevs p)) offset j ≠ bad →
  working p (part_disk (length (p_vdevs p)) offset j)
    (BLOCK_SIZE * part_row (length (p_vdevs p)) offset j + blen part).
Proof.
  intros Hh [Hf Hend] Hd Hj Hne. pose proof Hf as (Hn & Ho & Hs & _). unfold disk_cnt in *.
  set (n := length (p_vdevs p)) in *. destruct (stripe_part_length _ _ _ _ _ _ Hf Hd Hj) as [Hlt Hl].
  destruct (Hh (part_disk n offset j)) as (d & Hdi & Hok & Hr); [apply part_disk_lt; lia|done|].
  exists d. split_and!; try done. etrans; [|done].
  destruct (col_numbers _ size Hn Hs) as (HL & _).
  destruct (decide (blen part = 0)) as [E|E].
  - rewrite E. assert (part_row n offset j ≤ rows); [|unfold BLOCK_SIZE; lia]. unfold part_row.
    apply Z.lt_succ_r, Z.div_lt_upper_bound; nia.
  - pose proof (blen_nonneg part). rewrite Hl in E |- *. set (l := match j with O => _ | S _ => _ end) in *.
    pose proof (part_blocks n offset size data j part (part_row n offset j + l - 1) Hf Hd Hj) as Hb.
    rewrite Hl in Hb. fold l in Hb. assert (0 < l) by (unfold BLOCK_SIZE in *; lia).
    assert (part_row n offset j + l - 1 < rows); [|unfold BLOCK_SIZE in *; lia].
    destruct Hb as [_ Hb]; [lia|unfold BLOCK_SIZE; lia|]. nia.
Qed.

(** A write of a stripe that fits: the write is good, and so are the stripes
    that were there. *)
Lemma write_keeps p bad rows offset size data :
  healthy p bad rows → request (disk_cnt p) rows offset size → blen data = BLOCK_SIZE * size →
  ∃ p', parity_write p data offset = Some (inl tt, p') ∧ disk_cnt p' = disk_cnt p ∧
    healthy p' bad rows ∧ stripe p' offset data bad ∧
    (∀ offset' size' data', fits (disk_cnt p) offset' size' → blen data' = BLOCK_SIZE * size' →
      offset + size + long_col_len (disk_cnt p) size ≤ offset' ∨
        offset' + size' + long_col_len (disk_cnt p) size' ≤ offset →
      stripe p offset' data' bad → stripe p' offset' data' bad).
Proof using Hlaws.
  intros Hh Hreq Hd. pose proof Hreq as [Hf _].
  destruct (stripe_parts_spec _ _ _ _ Hf Hd) as (bs & Hbs & <- & _ & _ & Hparts).
  assert (∀ j part, (parity_of (Z.to_nat (BLOCK_SIZE * long_col_len (disk_cnt p) size)) bs :: bs) !! j =
    Some part → part_disk (length (p_vdevs p)) offset j ≠ bad →
    working p (part_disk (length (p_vdevs p)) offset j)
      (BLOCK_SIZE * part_row (length (p_vdevs p)) offset j + blen part)) as Hroom.
  { rewrite <- Hparts. intros. by eapply request_room. }
  destruct (write_spec p offset size bs bad Hf Hbs Hroom) as (p' & k & Hw & Hwr & Hz).
  exists p'. split_and!; [done| | | |].
  - unfold disk_cnt. by rewrite (proj1 Hwr).
  - intros i. rewrite (proj1 Hwr). intros Hi Hne.
    apply (wrote_working p offset size bs bad Hf Hbs Hroom p' k); auto.
  - by apply (wrote_stripe p offset size bs bad Hf Hbs Hroom p' k).
  - intros offset' size' data' ? ? ? ?.
    by apply (wrote_other p offset size bs bad Hf Hbs Hroom p' k offset' size').
Qed.

(** Some other writes. *)
Fixpoint parity_writes (p : Parity1 D) (ws : list (Z * bytes)) : option (Parity1 D) :=
  match ws with
  | [] => Some p
  | (offset, data) :: ws => '(_, p) ← parity_write p data offset; parity_writes p ws
  end.

Lemma writes_keep p bad rows offset size data ws :
  healthy p bad rows → request (disk_cnt p) rows offset size → blen data = BLOCK_SIZE * size →
  stripe p offset data bad →
  Forall (λ w, ∃ size', request (disk_cnt p) rows w.1 size' ∧ blen w.2 = BLOCK_SIZE * size' ∧
    (offset + size + long_col_len (disk_cnt p) size ≤ w.1 ∨
     w.1 + size' + long_col_len (disk_cnt p) size' ≤ offset)) ws →
  ∃ p', parity_writes p ws = Some p' ∧ disk_cnt p' = disk_cnt p ∧ stripe p' offset data bad.
Proof using Hlaws.
  intros Hh Hreq Hd Hst Hws. revert p Hh Hreq Hst Hws.
  induction ws as [|[o d] ws IH]; intros p Hh Hreq Hst Hws; [by exists p|].
  apply Forall_cons in Hws as [(size' & Hreq' & Hd' & Hdis) Hws]. simpl in *.
  destruct (write_keeps p bad rows o size' d Hh Hreq' Hd') as (p1 & -> & Hc & Hh1 & _ & Hk).
  cbn [mbind option_bind]. rewrite <- Hc in Hreq, Hws |- *.
  apply (IH p1); try done. eapply Hk; [|done| |done]; [rewrite <- Hc; apply Hreq|lia].
Qed.

(** The rows of a working disk that are no part of the request are as before. *)
Lemma write_outside p bad rows offset size data :
  healthy p bad rows → request (disk_cnt p) rows offset size → blen data = BLOCK_SIZE * size →
  ∃ p', parity_write p data offset = Some (inl tt, p') ∧
    ∀ i r d, p_vdevs p !! i = Some d → leaf_ok d → i ≠ bad →
      r * disk_cnt p + Z.of_nat i < offset ∨
        offset + size + long_col_len (disk_cnt p) size ≤ r * disk_cnt p + Z.of_nat i →
      ∃ d', p_vdevs p' !! i = Some d' ∧ leaf_ok d' ∧
        cut (leaf_bytes d') (BLOCK_SIZE * r) BLOCK_SIZE = cut (leaf_bytes d) (BLOCK_SIZE * r) BLOCK_SIZE.
Proof using Hlaws.
  intros Hh Hreq Hd. pose proof Hreq as [Hf _].
  destruct (stripe_parts_spec _ _ _ _ Hf Hd) as (bs & Hbs & <- & _ & _ & Hparts).
  set (n := length (p_vdevs p)).
  assert (∀ j part, (parity_of (Z.to_nat (BLOCK_SIZE * long_col_len (disk_cnt p) size)) bs :: bs) !! j =
    Some part → part_disk n offset j ≠ bad →
    working p (part_disk n offset j) (BLOCK_SIZE * part_row n offset j + blen part)) as Hroom.
  { rewrite <- Hparts. intros. by eapply request_room. }
  destruct (write_spec p offset size bs bad Hf Hbs Hroom) as (p' & k & Hw & (Hl & Ho & Hwr) & _).
  exists p'. split; [done|]. intros i r d Hi Hok Hne Hout.
  destruct (decide (i ∈ (take (S k) (stripe_writes p offset size bs)).*1.*1)) as [Hin|Hin].
  - apply unwritten_disk in Hin as (j & part & Hp & _ & -> & Hin). fold n in Hin, Hi, Hne, Hout |- *.
    destruct (Hroom j part Hp Hne) as (d0 & Hd0 & _ & Hr). rewrite Hi in Hd0. injection Hd0 as <-.
    destruct (Hwr _ _ _ d Hin Hi Hok Hr) as (d' & Hd' & Hok' & Hb'). exists d'. split_and!; try done.
    destruct (part_address p offset size bs Hf Hbs j part Hp) as (Hrow & _). fold n in Hrow.
    rewrite <- (parts_blocks p offset size bs Hf Hbs) in Hp.
    destruct (stripe_part_length _ _ _ _ _ _ Hf Hd Hp) as [_ Hlen].
    rewrite Hb', cut_copy_to_other; [done|unfold BLOCK_SIZE; lia|done|].
    destruct (decide (part_row n offset j ≤ r)) as [Hle|]; [|unfold BLOCK_SIZE in *; lia].
    destruct (decide (BLOCK_SIZE * r < BLOCK_SIZE * part_row n offset j + blen part)) as [Hlt|]; [|lia].
    exfalso. pose proof (part_blocks n offset size _ j part r Hf Hd Hp Hle Hlt). unfold disk_cnt in *.
    fold n in Hout. lia.
  - exists d. by rewrite Ho.
Qed.

(** *** Theorems *)



(** C28: A write stays inside of its allocation: of all blocks of the device,
    where block [r * n + i] is row [r] of disk [i], a write of [size] blocks
    changes none before its offset and none from [offset + actual_size] on. *)
Theorem parity_write_in_allocation p bad rows offset size data :
  healthy p bad rows → request (disk_cnt p) rows offset size → blen data = BLOCK_SIZE * size →
  ∃ p', parity_write p data offset = Some (inl tt, p') ∧
    ∀ i r d actual, p_vdevs p !! i = Some d → leaf_ok d → i ≠ bad → 0 ≤ r →
      parity_actual_size p size = Some actual →
      r * disk_cnt p + Z.of_nat i < offset ∨ offset + actual ≤ r * disk_cnt p + Z.of_nat i →
      ∃ d', p_vdevs p' !! i = Some d' ∧ leaf_ok d' ∧
        cut (leaf_bytes d') (BLOCK_SIZE * r) BLOCK_SIZE = cut (leaf_bytes d) (BLOCK_SIZE * r) BLOCK_SIZE.
Proof using Hlaws.
  intros Hh Hreq Hd.
  destruct (write_outside p bad rows offset size data Hh Hreq Hd) as (p' & Hw & Ho).
  exists p'. split; [done|]. intros i r d actual Hi Hok Hne Hr0 Ha Hout.
  unfold parity_actual_size in Ha. apply u32_add_inv in Ha as [-> _].
  by apply Ho; rewrite ?Z.add_assoc in *.
Qed.

End devices.

(** ** Examples

    Three disks of two blocks, of which the second has no room at all. *)
Module ParityExamples.
Import WholeData.

#[local] Instance zeroes : Memory := {| uninit n := replicate (Z.to_nat n) zero |}.

#[local] Instance zeroes_laws : MemoryLaws.
Proof. split. intros n Hn. simpl. unfold blen. rewrite length_replicate. lia. Qed.

Definition disk (blocks : Z) : MemoryDev :=
  mkMem (replicate (Z.to_nat (BLOCK_SIZE * blocks)) zero) "disk" blocks no_stats.

Definition array : Parity1 MemoryDev := mkParity [disk 2; disk 0; disk 2] "array" no_stats.

Definition block (x : Z) : bytes := replicate (Z.to_nat BLOCK_SIZE) (to_u8 x).

Definition sum5 : csum := block 5.

Lemma array_healthy : healthy array 1 2.
Proof.
  intros i Hi Hne. simpl in Hi. destruct i as [|[|[|i]]]; [|done| |lia].
  all: exists (disk 2); split; [done|]; split; [done|]; simpl; vm_compute; done.
Qed.

Lemma array_request offset : 0 ≤ offset ≤ 4 → request (disk_cnt array) 2 offset 1.
Proof.
  intros Ho. unfold request, fits, disk_cnt. cbn [array p_vdevs length].
  change (long_col_len (Z.of_nat 3) 1) with 1. unfold BLOCK_SIZE, U32_SIZE, U64_SIZE.
  pose proof (Z.div_le_upper_bound offset 3 2 ltac:(lia) ltac:(lia)). lia.
Qed.

Definition array' : Parity1 MemoryDev :=
  match parity_write array (block 5) 0 with Some (_, p) => p | None => array end.

Lemma block_length x : blen (block x) = BLOCK_SIZE * 1.
Proof. unfold block, blen. by rewrite length_replicate. Qed.

Lemma array_stripe : stripe array' 0 (block 5) 1.
Proof.
  destruct (write_keeps array 1 2 0 1 (block 5)) as (p' & Hw & _ & _ & Hst & _).
  - apply array_healthy.
  - by apply array_request.
  - apply block_length.
  - unfold array'. by rewrite Hw.
Qed.



Lemma parity_write_in_allocation_witness :
  ∃ p', parity_write array (block 5) 1 = Some (inl tt, p').
Proof.
  destruct (parity_write_in_allocation array 1 2 1 1 (block 5)) as (p' & Hw & _).
  - apply array_healthy.
  - by apply array_request.
  - apply block_length.
  - exists p'. exact Hw.
Defined.

End ParityExamples.
