(* ===== verification/Mirror.v ===== *)
(** * Mirrors

    [vdev/mirror.rs]: all disks hold the same data; one working disk is
    enough.  The requests that the source runs as futures are for different
    disks, and are run here in the order in which they are created. *)

From Stdlib Require Import ZArith Lia String.
From stdpp Require Import base option list numbers.
From S2P Require Import Prelude.
From S2P Require Import Bytes.
From S2P Require Import Checksum.
From S2P Require Import Disk.
From S2P Require Import Buffer.
From S2P Require Import Vdev.

Record Mirror (D : Type) := mkMirror {
  m_vdevs : list D; m_id : string; m_stats : AtomicStatistics;
}.
Arguments mkMirror {D} _ _ _.
Arguments m_vdevs {D} _.
Arguments m_id {D} _.
Arguments m_stats {D} _.

Section mirror.
Context `{VdevLeaf D}.

Definition mirror_new (vdevs : list D) (id : string) : Mirror D := mkMirror vdevs id no_stats.

Definition m_count (f : AtomicStatistics → AtomicStatistics) (m : Mirror D) : Mirror D :=
  mkMirror (m_vdevs m) (m_id m) (f (m_stats m)).

Definition set_mirrors (m : Mirror D) (vdevs : list D) : Mirror D :=
  mkMirror vdevs (m_id m) (m_stats m).

(** [Vdev::actual_size], [num_disks], [size], [effective_free_size] *)
Definition mirror_actual_size (m : Mirror D) (size : Z) : Z := size.

Definition mirror_num_disks (m : Mirror D) : nat := length (m_vdevs m).

Definition mirror_size (m : Mirror D) : option Z :=
  match leaf_size <$> m_vdevs m with
  | [] => None
  | s :: sizes => Some (foldr Z.min s sizes)
  end.

Definition mirror_effective_free_size (m : Mirror D) (free_size : Z) : Z := free_size.

(** [ReadResult] *)
Record ReadResult := mkRead { rr_data : option bytes; failed_disks : list nat }.

(** The repairs that [handle_repair] starts, and how many succeed. *)
Fixpoint repair_disks (ds : list D) (failed : list nat) (data : bytes) (offset : Z) :
    option (Z * list D) :=
  match failed with
  | [] => Some (0, ds)
  | idx :: failed =>
      '(r, ds) ← nth_disk ds idx (λ d, leaf_write_raw d data offset true);
      '(total, ds) ← repair_disks ds failed data offset;
      Some (match r with inl _ => total + 1 | inr _ => total end, ds)
  end.

Definition handle_repair (m : Mirror D) (size offset : Z) (r : ReadResult) :
    IO (Mirror D) ScrubResult :=
  let m := m_count (add_read size) m in
  match rr_data r with
  | None => Some (inr (VRead (m_id m)), m_count (add_failed_reads size) m)
  | Some data =>
      let faulted := wrap32 (Z.of_nat (length (failed_disks r))) in
      '(total_repaired, ds) ← repair_disks (m_vdevs m) (failed_disks r) data offset;
      repaired_blocks ← umul U64_SIZE total_repaired size;
      let m := m_count (add_repaired repaired_blocks) (set_mirrors m ds) in
      faulted ← umul U32_SIZE size faulted;
      repaired ← umul U32_SIZE size total_repaired;
      Some (inl (mkScrub data faulted repaired), m)
  end.

(** The loop of [read]: the first disk whose data match. *)
Fixpoint read_first (ds : list D) (idxs : list nat) (size offset : Z) (checksum : csum)
    (failed : list nat) : option (ReadResult * list D) :=
  match idxs with
  | [] => Some (mkRead None failed, ds)
  | idx :: idxs =>
      '(r, ds) ← nth_disk ds idx (λ d, leaf_read d size offset checksum);
      match r with
      | inl x => Some (mkRead (Some x) failed, ds)
      | inr _ => read_first ds idxs size offset checksum (failed ++ [idx])
      end
  end.

(** [VdevRead::read] *)
Definition mirror_read (m : Mirror D) (size offset : Z) (checksum : csum) : IO (Mirror D) bytes :=
  pos ← Block.to_bytes U64_SIZE offset;
  let disk_cnt := Z.of_nat (length (m_vdevs m)) in
  assert! (negb (disk_cnt =? 0));
  let start_idx := Z.shiftr pos 25 mod disk_cnt in
  let idxs := (λ idx, Z.to_nat ((Z.of_nat idx + start_idx) mod disk_cnt)) <$>
    seq 0 (length (m_vdevs m)) in
  '(r, ds) ← read_first (m_vdevs m) idxs size offset checksum [];
  '(r, m) ← handle_repair (set_mirrors m ds) size offset r;
  Some (match r with inl x => inl (scrub_data x) | inr e => inr e end, m).

(** The loop of [scrub] over the results: the data are those of the last. *)
Fixpoint scan_reads (idx : nat) (results : list (bytes + VdevError)) (r : ReadResult) :
    ReadResult :=
  match results with
  | [] => r
  | inl x :: results => scan_reads (S idx) results (mkRead (Some x) (failed_disks r))
  | inr _ :: results => scan_reads (S idx) results (mkRead (rr_data r) (failed_disks r ++ [idx]))
  end.

(** [VdevRead::scrub] *)
Definition mirror_scrub (m : Mirror D) (size offset : Z) (checksum : csum) :
    IO (Mirror D) ScrubResult :=
  '(rs, ds) ← each_disk (λ d, leaf_read d size offset checksum) (m_vdevs m);
  handle_repair (set_mirrors m ds) size offset (scan_reads 0 rs (mkRead None [])).

(** [VdevRead::read_raw] *)
Definition mirror_read_raw (m : Mirror D) (size offset : Z) : IO (Mirror D) (list bytes) :=
  len ← Block.to_bytes U32_SIZE size;
  '(rs, ds) ← each_disk (λ d, leaf_read_raw d len offset) (m_vdevs m);
  let m := set_mirrors m ds in
  match successes rs with
  | [] => Some (inr (VRead (m_id m)), m)
  | v => Some (inl v, m)
  end.

(** [VdevWrite::write]: fails if no disk accepts the data. *)
Definition mirror_write (m : Mirror D) (data : bytes) (offset : Z) : IO (Mirror D) unit :=
  size ← Block.from_bytes (wrap32 (blen data));
  let m := m_count (add_written size) m in
  '(rs, ds) ← each_disk (λ d, leaf_write_raw d data offset false) (m_vdevs m);
  let m := set_mirrors m ds in
  if (length (errors rs) <? length rs)%nat then Some (inl tt, m)
  else Some (inr (VWrite (m_id m)), m_count (add_failed_writes size) m).

(** [VdevWrite::flush], [VdevWrite::write_raw] *)
Definition mirror_flush (m : Mirror D) : IO (Mirror D) unit :=
  '(r, ds) ← try_each leaf_flush (m_vdevs m);
  Some (r, set_mirrors m ds).

Definition mirror_write_raw (m : Mirror D) (data : bytes) (offset : Z) : IO (Mirror D) unit :=
  '(rs, ds) ← each_disk (λ d, leaf_write_raw d data offset false) (m_vdevs m);
  let m := set_mirrors m ds in
  match errors rs with
  | e :: _ => size ← Block.from_bytes (wrap32 (blen data)); Some (inr e, m_count (add_failed_writes size) m)
  | [] => Some (inl tt, m)
  end.

End mirror.

(** ** Correctness *)

Section correct.
Context `{Hck : !Checksum} {D : Type} `{!VdevLeaf D} `{Hlaws : !VdevLeafLaws (D := D)}.

(** The working disks work on, with the same bytes on them. *)
Definition kept (ds ds' : list D) : Prop :=
  length ds' = length ds ∧
  ∀ i d, ds !! i = Some d → leaf_ok d →
    ∃ d', ds' !! i = Some d' ∧ leaf_ok d' ∧ leaf_bytes d' = leaf_bytes d.

#[global] Instance kept_preorder : PreOrder kept.
Proof.
  split.
  - intros ds. split; [done|]. eauto.
  - intros ds1 ds2 ds3 [Hl1 H1] [Hl2 H2]. split; [by rewrite Hl2|]. intros i d Hi Hok.
    destruct (H1 i d Hi Hok) as (d2 & Hi2 & Hok2 & Hb2).
    destruct (H2 i d2 Hi2 Hok2) as (d3 & Hi3 & Hok3 & Hb3). exists d3. by rewrite Hb3, Hb2.
Qed.

(** Disk [i] works and holds [data] at [offset]. *)
Definition on_mirror (ds : list D) (i : nat) (offset : Z) (data : bytes) : Prop :=
  ∃ d, ds !! i = Some d ∧ leaf_ok d ∧
    cut (leaf_bytes d) (BLOCK_SIZE * offset) (blen data) = Some data.

Lemma kept_on_mirror ds ds' i offset data :
  kept ds ds' → on_mirror ds i offset data → on_mirror ds' i offset data.
Proof.
  intros [_ Hk] (d & Hd & Hok & Hc). destruct (Hk i d Hd Hok) as (d' & ? & ? & Hb).
  exists d'. by rewrite Hb.
Qed.

(** The results of the reads. *)
Lemma scan_reads_failed rs idx r j :
  j ∈ failed_disks (scan_reads idx rs r) ↔
  j ∈ failed_disks r ∨ ∃ i e, j = (idx + i)%nat ∧ rs !! i = Some (inr e).
Proof.
  revert idx r. induction rs as [|[x|e] rs IH]; intros idx r; simpl.
  - split; [by left|]. by intros [?|(? & ? & ? & ?)].
  - rewrite IH. simpl. split; (intros [?|(i & e & -> & Hi)]; [by left|right]).
    + exists (S i), e. split; [lia|done].
    + destruct i as [|i]; [done|]. exists i, e. split; [lia|done].
  - rewrite IH. simpl. rewrite elem_of_app, list_elem_of_singleton. split.
    + intros [[?| ->]|(i & e' & -> & Hi)]; [by left|right..].
      * exists 0%nat, e. split; [lia|done].
      * exists (S i), e'. split; [lia|done].
    + intros [?|(i & e' & -> & Hi)]; [by left; left|]. destruct i as [|i]; [left; right; lia|].
      right. exists i, e'. split; [lia|done].
Qed.

Lemma scan_reads_count rs idx r :
  (length (failed_disks (scan_reads idx rs r)) ≤ length (failed_disks r) + length rs)%nat.
Proof.
  revert idx r. induction rs as [|[x|e] rs IH]; intros idx r; simpl; [lia|..].
  - etrans; [apply IH|]. simpl. lia.
  - etrans; [apply IH|]. simpl. rewrite length_app. simpl. lia.
Qed.

Lemma scan_reads_data data rs idx r :
  (∀ x, inl x ∈ rs → x = data) → rr_data r = Some data ∨ inl data ∈ rs →
  rr_data (scan_reads idx rs r) = Some data.
Proof.
  revert idx r. induction rs as [|[x|e] rs IH]; intros idx r Hx Hd; simpl.
  - destruct Hd as [?|Hd]; [done|]. by apply elem_of_nil in Hd.
  - apply IH; [set_solver|]. left. simpl. f_equal. set_solver.
  - apply IH; [set_solver|]. destruct Hd as [?|Hd]; [by left|right]. set_solver.
Qed.

Section read.
Context (size offset : Z) (ck : csum) (data : bytes).
Context (Ha : addressable offset (BLOCK_SIZE * size)) (Hlen : blen data = BLOCK_SIZE * size).
Context (Hv : csum_verify ck data = true).
Context (Huniq : ∀ d, blen d = BLOCK_SIZE * size → csum_verify ck d = true → d = data).

(** The result of the read of one disk. *)
Definition read_result (d : D) (r : bytes + VdevError) : Prop :=
  (∀ b, r = inl b → b = data) ∧
  (leaf_ok d → cut (leaf_bytes d) (BLOCK_SIZE * offset) (blen data) = Some data → r = inl data) ∧
  (leaf_ok d → 0 < size → r = inl data →
    cut (leaf_bytes d) (BLOCK_SIZE * offset) (blen data) = Some data).

Lemma read_leaf d :
  ∃ r d', leaf_read d size offset ck = Some (r, d') ∧ read_result d r ∧
    (leaf_ok d → leaf_ok d' ∧ leaf_bytes d' = leaf_bytes d).
Proof using Hlaws Ha Hlen Hv Huniq.
  destruct (leaf_read_total d size offset ck Ha) as (r & d' & Hr & Hb & Hok).
  exists r, d'. split; [done|]. split; [|intros Hd; by destruct (Hok Hd) as (? & ? & _)].
  split_and!.
  - intros b E. destruct (Hb b E). by apply Huniq.
  - intros Hd Hc. rewrite Hlen in Hc.
    destruct (leaf_read_ok d size offset ck data Hd Ha Hc Hv) as [d2 Hr2]. congruence.
  - intros Hd Hs E. rewrite Hlen. destruct (Hok Hd) as (_ & _ & Hc). by apply Hc.
Qed.

Lemma read_nth ds idx :
  (idx < length ds)%nat →
  ∃ r ds', nth_disk ds idx (λ d, leaf_read d size offset ck) = Some (r, ds') ∧ kept ds ds' ∧
    ∀ d, ds !! idx = Some d → read_result d r.
Proof using Hlaws Ha Hlen Hv Huniq.
  intros Hi. destruct (lookup_lt_is_Some_2 _ _ Hi) as [d Hd].
  destruct (read_leaf d) as (r & d' & Hr & Hres & Hk). unfold nth_disk. rewrite Hd.
  cbn [mbind option_bind]. rewrite Hr. cbn [mbind option_bind]. eexists _, _. split; [done|]. split.
  - split; [apply length_insert|]. intros i d0 Hd0 Hok. destruct (decide (i = idx)) as [->|Hne].
    + rewrite list_lookup_insert_eq by done. simplify_eq. destruct (Hk Hok). eauto.
    + rewrite list_lookup_insert_ne by done. eauto.
  - intros ? [= <-]. done.
Qed.

Lemma read_first_spec good idxs ds failed :
  Forall (λ i, (i < length ds)%nat) idxs → good ∈ idxs → on_mirror ds good offset data →
  good ∉ failed → Forall (λ i, (i < length ds)%nat) failed →
  ∃ failed' ds', read_first ds idxs size offset ck failed = Some (mkRead (Some data) failed', ds') ∧
    kept ds ds' ∧ (good ∉ failed') ∧ Forall (λ i, (i < length ds)%nat) failed' ∧
    (length failed' ≤ length failed + length idxs)%nat.
Proof using Hlaws Ha Hlen Hv Huniq.
  revert ds failed. induction idxs as [|idx idxs IH]; intros ds failed Hi Hg Hon Hnf Hf.
  { by apply elem_of_nil in Hg. }
  apply Forall_cons in Hi as [Hi His]. destruct (read_nth ds idx Hi) as (r & ds1 & Hr & Hk & Hres).
  simpl. rewrite Hr. cbn [mbind option_bind]. destruct r as [x|e].
  { destruct (lookup_lt_is_Some_2 _ _ Hi) as [d Hd]. destruct (Hres d Hd) as [Hx _].
    rewrite (Hx x eq_refl). exists failed, ds1. split_and!; try done. lia. }
  assert (good ≠ idx) as Hne.
  { intros <-. destruct Hon as (d & Hd & Hok & Hc). destruct (Hres d Hd) as (_ & Hgd & _).
    specialize (Hgd Hok Hc). discriminate. }
  pose proof Hk as [Hkl _].
  destruct (IH ds1 (failed ++ [idx])) as (failed' & ds' & Hrf & Hk2 & Hn & Hfl & Hle).
  - by rewrite Hkl.
  - by apply elem_of_cons in Hg as [?|?].
  - by eapply kept_on_mirror.
  - set_solver.
  - rewrite Hkl. by apply Forall_app_2, Forall_singleton.
  - exists failed', ds'. rewrite Hkl in Hfl. split_and!; try done; [by etrans|].
    rewrite length_app in Hle. simpl in *. lia.
Qed.

(** The reads of all disks. *)
Lemma each_read ds :
  ∃ rs ds', each_disk (λ d, leaf_read d size offset ck) ds = Some (rs, ds') ∧ kept ds ds' ∧
    Forall2 read_result ds rs.
Proof using Hlaws Ha Hlen Hv Huniq.
  induction ds as [|d ds IH]; [eexists _, _; by split_and!|].
  destruct (read_leaf d) as (r & d' & Hr & Hres & Hk). destruct IH as (rs & ds' & Hrs & [Hkl Hks] & Hf).
  simpl. rewrite Hr. cbn [mbind option_bind]. rewrite Hrs. cbn [mbind option_bind].
  eexists _, _. split; [done|]. split; [|by constructor]. split; [simpl; by rewrite Hkl|].
  intros [|i] d0 Hd0 Hok; simpl in *; [|by apply Hks]. simplify_eq. destruct (Hk Hok). eauto.
Qed.

(** The repairs. *)
Lemma repair_disks_spec ds failed :
  Forall (λ i, (i < length ds)%nat) failed →
  ∃ total ds', repair_disks ds failed data offset = Some (total, ds') ∧
    0 ≤ total ≤ Z.of_nat (length failed) ∧ length ds' = length ds ∧
    (∀ i, i ∉ failed → ds' !! i = ds !! i) ∧
    (∀ i d, i ∈ failed → ds !! i = Some d → leaf_ok d →
      BLOCK_SIZE * offset + blen data ≤ blen (leaf_bytes d) → on_mirror ds' i offset data).
Proof using Hlaws Ha Hlen.
  revert ds. induction failed as [|idx failed IH]; intros ds Hf.
  { exists 0, ds. split_and!; try done. intros ? ? Hin. by apply elem_of_nil in Hin. }
  apply Forall_cons in Hf as [Hi Hf]. destruct (lookup_lt_is_Some_2 _ _ Hi) as [d Hd].
  pose proof Ha as Ha'. rewrite <- Hlen in Ha'.
  destruct (leaf_write_raw_total d data offset true Ha') as (r & d1 & Hw).
  destruct (IH (<[idx := d1]> ds)) as (total & ds' & Hrep & Ht & Hl & Ho & Hon).
  { by rewrite length_insert. }
  simpl. unfold nth_disk. rewrite Hd. cbn [mbind option_bind]. rewrite Hw. cbn [mbind option_bind].
  rewrite Hrep. cbn [mbind option_bind]. rewrite length_insert in Hl. eexists _, ds'.
  split; [done|]. split; [destruct r; lia|]. split; [done|]. split.
  { intros i Hni. apply not_elem_of_cons in Hni as [Hne Hni]. rewrite Ho by done.
    by rewrite list_lookup_insert_ne. }
  intros i d0 Hin Hd0 Hok Hr. destruct (decide (i = idx)) as [->|Hne].
  - rewrite Hd in Hd0. injection Hd0 as <-.
    destruct (leaf_write_raw_ok d data offset true Hok Ha' Hr) as (d2 & Hw2 & Hok2 & Hb2).
    rewrite Hw in Hw2. simplify_eq. destruct Ha' as (? & _).
    assert (0 ≤ BLOCK_SIZE * offset) by (unfold BLOCK_SIZE; lia).
    destruct (decide (idx ∈ failed)) as [Hin'|Hin'].
    + apply (Hon idx d2 Hin'); [by apply list_lookup_insert_eq|done|]. by rewrite Hb2, blen_copy_to.
    + exists d2. split; [by rewrite Ho, list_lookup_insert_eq|]. split; [done|].
      rewrite Hb2. by apply cut_copy_to_same.
  - apply (Hon i d0); try done; [by apply elem_of_cons in Hin as [?|?]|by rewrite list_lookup_insert_ne].
Qed.

Lemma handle_repair_spec m failed :
  Forall (λ i, (i < length (m_vdevs m))%nat) failed →
  size * Z.of_nat (length failed) < U32_SIZE → 0 < size →
  ∃ f r m', handle_repair m size offset (mkRead (Some data) failed) = Some (inl (mkScrub data f r), m') ∧
    f = size * Z.of_nat (length failed) ∧ 0 ≤ r ≤ f ∧ length (m_vdevs m') = length (m_vdevs m) ∧
    (∀ i, i ∉ failed → m_vdevs m' !! i = m_vdevs m !! i) ∧
    (∀ i d, i ∈ failed → m_vdevs m !! i = Some d → leaf_ok d →
      BLOCK_SIZE * offset + blen data ≤ blen (leaf_bytes d) → on_mirror (m_vdevs m') i offset data).
Proof using Hlaws Ha Hlen.
  intros Hf Hsize Hs.
  destruct (repair_disks_spec (m_vdevs m) failed Hf) as (total & ds' & Hrep & Ht & Hl & Ho & Hon).
  unfold handle_repair. cbn [rr_data failed_disks]. cbv zeta.
  change (m_vdevs (m_count (add_read size) m)) with (m_vdevs m). rewrite Hrep. cbn [mbind option_bind].
  set (n := Z.of_nat (length failed)) in *. assert (0 ≤ n) by (unfold n; lia).
  assert (n < U32_SIZE) by (pose proof (Z.mul_le_mono_nonneg_r 1 size n ltac:(lia) ltac:(lia)); lia).
  assert (size * total ≤ size * n) by (apply Z.mul_le_mono_nonneg_l; lia).
  unfold wrap32, umul. rewrite (Z.mod_small n) by (unfold U32_SIZE in *; lia).
  rewrite (Z.mul_comm total), (proj2 (Z.ltb_lt _ U64_SIZE)) by (unfold U32_SIZE, U64_SIZE in *; lia).
  cbn [mbind option_bind].
  rewrite (proj2 (Z.ltb_lt _ _)) by lia. cbn [mbind option_bind].
  rewrite (proj2 (Z.ltb_lt _ _)) by lia. cbn [mbind option_bind].
  eexists _, _, _. split; [done|]. split_and!; try done; nia.
Qed.

(** What a request leaves on disk [good]. *)
Definition good_kept (m m' : Mirror D) (good : nat) : Prop :=
  length (m_vdevs m') = length (m_vdevs m) ∧
  ∀ d, m_vdevs m !! good = Some d → leaf_ok d →
    ∃ d', m_vdevs m' !! good = Some d' ∧ leaf_ok d' ∧ leaf_bytes d' = leaf_bytes d.

Lemma mirror_read_spec m good :
  on_mirror (m_vdevs m) good offset data → 0 < size →
  size * Z.of_nat (length (m_vdevs m)) < U32_SIZE →
  ∃ m', mirror_read m size offset ck = Some (inl data, m') ∧ good_kept m m' good.
Proof using Hlaws Ha Hlen Hv Huniq.
  intros Hon Hs Hsize. set (n := length (m_vdevs m)) in *.
  assert (good < n)%nat as Hg by (destruct Hon as (d & Hd & _); by eapply lookup_lt_Some).
  destruct (addressable_parts _ _ Ha) as (_ & _ & Hpos & _).
  unfold mirror_read. rewrite Hpos. cbn [mbind option_bind]. fold n.
  rewrite (proj2 (Z.eqb_neq (Z.of_nat n) 0)) by lia. cbn [negb].
  set (start := Z.shiftr _ 25 mod _). set (idxs := _ <$> seq 0 n).
  assert (0 ≤ start < Z.of_nat n) as Hstart by (apply Z.mod_pos_bound; lia).
  destruct (read_first_spec good idxs (m_vdevs m) []) as (failed & ds & Hrf & Hk & Hn & Hfl & Hle);
    try done.
  - apply Forall_forall. intros i Hi. apply list_elem_of_fmap in Hi as (j & -> & _). fold n.
    pose proof (Z.mod_pos_bound (Z.of_nat j + start) (Z.of_nat n) ltac:(lia)). lia.
  - apply list_elem_of_fmap. exists (Z.to_nat ((Z.of_nat good - start) mod Z.of_nat n)).
    pose proof (Z.mod_pos_bound (Z.of_nat good - start) (Z.of_nat n) ltac:(lia)). split.
    + rewrite Z2Nat.id, Z.add_mod_idemp_l by lia. replace (Z.of_nat good - start + start) with (Z.of_nat good) by lia.
      rewrite Z.mod_small, Nat2Z.id by lia. done.
    + apply elem_of_seq. lia.
  - by apply not_elem_of_nil.
  - rewrite Hrf. cbn [mbind option_bind]. pose proof Hk as [Hkl Hk'].
    destruct (handle_repair_spec (set_mirrors m ds) failed) as (f & r & m' & Hh & _ & _ & Hl & Ho & _);
      [simpl; by rewrite Hkl| |done|].
    { unfold idxs in Hle. rewrite length_fmap, length_seq in Hle. simpl in Hle.
      eapply Z.le_lt_trans; [|done]. apply Z.mul_le_mono_nonneg_l; lia. }
    rewrite Hh. cbn [mbind option_bind]. exists m'. split; [done|]. simpl in *.
    split; [by rewrite Hl, Hkl|]. rewrite Ho by done. intros d Hd. by apply Hk'.
Qed.

(** A scrub leaves the data on all working disks. *)
Lemma mirror_scrub_spec m good :
  on_mirror (m_vdevs m) good offset data → 0 < size →
  size * Z.of_nat (length (m_vdevs m)) < U32_SIZE →
  ∃ f r m', mirror_scrub m size offset ck = Some (inl (mkScrub data f r), m') ∧
    0 ≤ r ≤ f ∧ good_kept m m' good ∧
    ∀ i d, m_vdevs m !! i = Some d → leaf_ok d →
      BLOCK_SIZE * offset + blen data ≤ blen (leaf_bytes d) → on_mirror (m_vdevs m') i offset data.
Proof using Hlaws Ha Hlen Hv Huniq.
  intros Hon Hs Hsize. destruct (each_read (m_vdevs m)) as (rs & ds & Hrs & [Hkl Hk] & Hres).
  unfold mirror_scrub. rewrite Hrs. cbn [mbind option_bind].
  assert (∀ x, inl x ∈ rs → x = data) as Hx.
  { intros x Hin. apply list_elem_of_lookup in Hin as [i Hi].
    destruct (Forall2_lookup_r _ _ _ _ _ Hres Hi) as (d & _ & Hd & _). by apply Hd. }
  assert (∀ i d, m_vdevs m !! i = Some d → leaf_ok d → ∃ d', ds !! i = Some d' ∧ leaf_ok d' ∧
    leaf_bytes d' = leaf_bytes d) as Hk' by done.
  destruct Hon as (dg & Hdg & Hokg & Hcg).
  destruct (Forall2_lookup_l _ _ _ _ _ Hres Hdg) as (rg & Hrg & _ & Hgood & _).
  rewrite (Hgood Hokg Hcg) in Hrg.
  set (r0 := scan_reads 0 rs (mkRead None [])).
  assert (rr_data r0 = Some data) as Hdata.
  { apply scan_reads_data; [done|]. right. by eapply list_elem_of_lookup_2. }
  assert (∀ j, j ∈ failed_disks r0 ↔ ∃ e, rs !! j = Some (inr e)) as Hfailed.
  { intros j. unfold r0. rewrite scan_reads_failed. simpl. split.
    - intros [Hin|(i & e & -> & Hi)]; [by apply elem_of_nil in Hin|by exists e].
    - intros [e He]. right. by exists j, e. }
  assert (length rs = length (m_vdevs m)) as Hlr by (symmetry; by eapply Forall2_length).
  destruct r0 as [rd failed] eqn:E0. simpl in Hdata, Hfailed. subst rd.
  destruct (handle_repair_spec (set_mirrors m ds) failed) as (f & r & m' & Hh & _ & Hr & Hl & Ho & Hrep).
  { apply Forall_forall. intros j Hj. apply Hfailed in Hj as [e He]. simpl.
    rewrite Hkl, <- Hlr. by eapply lookup_lt_Some. }
  { pose proof (scan_reads_count rs 0 (mkRead None [])) as Hc. fold r0 in Hc. rewrite E0 in Hc. simpl in Hc.
    eapply Z.le_lt_trans; [|done]. apply Z.mul_le_mono_nonneg_l; lia. }
  { done. }
  exists f, r, m'. split; [done|]. split; [done|]. simpl in *. split.
  - split; [by rewrite Hl, Hkl|]. rewrite Ho; [by intros d Hd; apply Hk'|].
    intros Hin. apply Hfailed in Hin as [e He]. congruence.
  - intros i d Hd Hok Hroom. destruct (Hk' i d Hd Hok) as (d' & Hd' & Hok' & Hb').
    destruct (Forall2_lookup_l _ _ _ _ _ Hres Hd) as (ri & Hri & Hall & _ & Hright).
    destruct ri as [x|e].
    + pose proof (Hall x eq_refl) as ->. exists d'. rewrite Ho; [|by intros [e He]%Hfailed; congruence].
      rewrite Hb'. auto.
    + apply (Hrep i d'); [apply Hfailed; by exists e|done|done|by rewrite Hb'].
Qed.

End read.

(** *** Writing *)

Lemma each_write ds data offset rep :
  addressable offset (blen data) →
  ∃ rs ds', each_disk (λ d, leaf_write_raw d data offset rep) ds = Some (rs, ds') ∧
    length ds' = length ds ∧
    ∀ i d, ds !! i = Some d → leaf_ok d →
      BLOCK_SIZE * offset + blen data ≤ blen (leaf_bytes d) →
      rs !! i = Some (inl tt) ∧ ∃ d', ds' !! i = Some d' ∧ leaf_ok d' ∧
        leaf_bytes d' = copy_to (leaf_bytes d) (BLOCK_SIZE * offset) data.
Proof using Hlaws.
  intros Ha. induction ds as [|d ds IH]; [by eexists _, _; split_and!|].
  destruct (leaf_write_raw_total d data offset rep Ha) as (r & d' & Hr).
  destruct IH as (rs & ds' & Hrs & Hl & Hd). simpl. rewrite Hr. cbn [mbind option_bind]. rewrite Hrs.
  cbn [mbind option_bind]. eexists _, _. split; [done|]. split; [simpl; by rewrite Hl|].
  intros [|i] d0 Hd0 Hok Hroom; simpl in *; [|by apply Hd]. injection Hd0 as <-.
  destruct (leaf_write_raw_ok d data offset rep Hok Ha Hroom) as (d2 & Hw & ? & ?).
  rewrite Hr in Hw. simplify_eq. eauto.
Qed.

Lemma errors_lt {A} (rs : list (A + VdevError)) i a :
  rs !! i = Some (inl a) → (length (errors rs) < length rs)%nat.
Proof.
  assert (∀ l : list (A + VdevError), length (errors l) ≤ length l)%nat as Hle.
  { intros l. induction l as [|[?|?] l IH]; simpl; [done|..]; unfold errors in *; lia. }
  revert i. induction rs as [|[x|e] rs IH]; intros [|i] Hi; simplify_eq/=;
    pose proof (Hle rs); unfold errors in *; simpl; [lia|lia|]. specialize (IH i Hi). lia.
Qed.

Lemma mirror_write_spec m good data offset d :
  addressable offset (blen data) → m_vdevs m !! good = Some d → leaf_ok d →
  BLOCK_SIZE * offset + blen data ≤ blen (leaf_bytes d) →
  ∃ m' d', mirror_write m data offset = Some (inl tt, m') ∧
    length (m_vdevs m') = length (m_vdevs m) ∧ m_vdevs m' !! good = Some d' ∧ leaf_ok d' ∧
    leaf_bytes d' = copy_to (leaf_bytes d) (BLOCK_SIZE * offset) data.
Proof using Hlaws.
  intros Ha Hd Hok Hroom. destruct (addressable_parts _ _ Ha) as (Hb & Hw & _).
  destruct (each_write (m_vdevs m) data offset false Ha) as (rs & ds & Hrs & Hl & Hall).
  destruct (Hall good d Hd Hok Hroom) as (Hr & d' & Hd' & Hok' & Hb').
  unfold mirror_write. rewrite Hw, Hb. cbn [mbind option_bind].
  change (m_vdevs (m_count (add_written (blen data / BLOCK_SIZE)) m)) with (m_vdevs m).
  rewrite Hrs. cbn [mbind option_bind]. rewrite (proj2 (Nat.ltb_lt _ _)) by (by eapply errors_lt).
  by exists (set_mirrors (m_count (add_written (blen data / BLOCK_SIZE)) m) ds), d'.
Qed.

(** C29: A mirror with one working disk that holds the data returns them,
    whatever the other disks return: [read] ends with the data that match the
    checksum, and so does [scrub], after which every disk that works and has
    room for them holds them too. *)
Theorem mirror_recovers m good size offset data ck :
  addressable offset (BLOCK_SIZE * size) → 0 < size → blen data = BLOCK_SIZE * size →
  size * Z.of_nat (length (m_vdevs m)) < U32_SIZE →
  on_mirror (m_vdevs m) good offset data → csum_verify ck data = true →
  (∀ d, blen d = BLOCK_SIZE * size → csum_verify ck d = true → d = data) →
  (∃ m', mirror_read m size offset ck = Some (inl data, m')) ∧
  ∃ faulted repaired m',
    mirror_scrub m size offset ck = Some (inl (mkScrub data faulted repaired), m') ∧
    repaired ≤ faulted ∧
    ∀ i d, m_vdevs m !! i = Some d → leaf_ok d →
      BLOCK_SIZE * offset + blen data ≤ blen (leaf_bytes d) → on_mirror (m_vdevs m') i offset data.
Proof using Hlaws.
  intros Ha Hs Hlen Hsize Hon Hv Huniq. split.
  - destruct (mirror_read_spec size offset ck data Ha Hlen Hv Huniq m good Hon Hs Hsize)
      as (m' & Hr & _). by exists m'.
  - destruct (mirror_scrub_spec size offset ck data Ha Hlen Hv Huniq m good Hon Hs Hsize)
      as (f & r & m' & Hr & Hle & _ & Hall). exists f, r, m'. split_and!; [done|lia|done].
Qed.

End correct.

(** ** Examples

    A blank disk and one with the data. *)
Module MirrorExamples.
Import WholeData.

Definition block (x : Z) : bytes := replicate (Z.to_nat BLOCK_SIZE) (to_u8 x).
Definition sum5 : csum := block 5.
Definition pair : Mirror MemoryDev :=
  mkMirror [mkMem (block 0) "a" 1 no_stats; mkMem (block 5) "b" 1 no_stats] "pair" no_stats.

Lemma mirror_recovers_witness : ∃ m', mirror_read pair 1 0 sum5 = Some (inl (block 5), m').
Proof.
  assert (blen (block 5) = BLOCK_SIZE * 1) as Hlen by (unfold block, blen; by rewrite length_replicate).
  destruct (mirror_recovers pair 1 1 0 (block 5) sum5) as [[m' Hr] _].
  - unfold addressable. by vm_compute.
  - lia.
  - done.
  - by vm_compute.
  - exists (mkMem (block 5) "b" 1 no_stats). split; [done|]. split; [done|]. rewrite Hlen.
    by vm_compute.
  - apply verify_data.
  - intros d _. apply verify_only.
  - exists m'. exact Hr.
Defined.

End MirrorExamples.
