(* ===== verification/Device.v ===== *)
(** * Devices

    The traits [Vdev], [VdevRead] and [VdevWrite] of [vdev/mod.rs], their
    dispatch over [Leaf] and [Dev], and what the storage pool relies on: data
    that were written are read back, whatever one disk of a parity device or
    all disks but one of a mirror do. *)

From Stdlib Require Import ZArith Lia String.
From stdpp Require Import base option list numbers.
From S2P Require Import Prelude.
From S2P Require Import Bytes.
From S2P Require Import Checksum.
From S2P Require Import Disk.
From S2P Require Import Buffer.
From S2P Require Import Vdev.
From S2P Require Import Parity.
From S2P Require Import ParityCorrect.
From S2P Require Import Mirror.

(** ** The traits *)

Class Vdev `{Checksum} (V : Type) := {
  dev_read : V → Z → Z → csum → IO V bytes;
  dev_scrub : V → Z → Z → csum → IO V ScrubResult;
  dev_read_raw : V → Z → Z → IO V (list bytes);
  dev_write : V → bytes → Z → IO V unit;
  dev_write_raw : V → bytes → Z → IO V unit;
  dev_flush : V → IO V unit;
  dev_actual_size : V → Z → option Z;
  dev_num_disks : V → Z;
  dev_size : V → option Z;
  dev_effective_free_size : V → Z → option Z;
}.

(** ** Leaves *)

(** [enum Leaf]; [PMemFile] is a part of the [nvm] feature. *)
Inductive Leaf (F : Type) := LFile (d : FileDev F) | LMemory (m : MemoryDev).
Arguments LFile {F} _.
Arguments LMemory {F} _.

Definition leaf_map {F A} (o : IO (FileDev F) A) : IO (Leaf F) A := '(r, d) ← o; Some (r, LFile d).
Definition mem_map {F A} (o : IO MemoryDev A) : IO (Leaf F) A := '(r, m) ← o; Some (r, LMemory m).

Section leaf.
Context `{Checksum} {F : Type} `{FileIO F}.

Definition file_leaf_on {A} (l : Leaf F) (f : FileDev F → IO (FileDev F) A)
    (g : MemoryDev → IO MemoryDev A) : IO (Leaf F) A :=
  match l with LFile d => leaf_map (f d) | LMemory m => mem_map (g m) end.

#[global] Instance Leaf_leaf : VdevLeaf (Leaf F) := {|
  leaf_read_raw l len off := file_leaf_on l (λ d, leaf_read_raw d len off) (λ m, leaf_read_raw m len off);
  leaf_write_raw l data off rep :=
    file_leaf_on l (λ d, leaf_write_raw d data off rep) (λ m, leaf_write_raw m data off rep);
  leaf_read l size off c := file_leaf_on l (λ d, leaf_read d size off c) (λ m, leaf_read m size off c);
  leaf_scrub l size off c := file_leaf_on l (λ d, leaf_scrub d size off c) (λ m, leaf_scrub m size off c);
  leaf_read_all l size off := file_leaf_on l (λ d, leaf_read_all d size off) (λ m, leaf_read_all m size off);
  leaf_flush l := file_leaf_on l leaf_flush leaf_flush;
  checksum_error_occurred l n :=
    match l with
    | LFile d => LFile (checksum_error_occurred d n)
    | LMemory m => LMemory (checksum_error_occurred m n)
    end;
  leaf_size l := match l with LFile d => leaf_size d | LMemory m => leaf_size m end;
|}.

(** What holds of both kinds of leaf holds of a leaf. *)
#[global] Program Instance Leaf_laws `{!FileIOLaws} : VdevLeafLaws (D := Leaf F) := {|
  leaf_ok l := match l with LFile d => leaf_ok d | LMemory m => leaf_ok m end;
  leaf_bytes l := match l with LFile d => leaf_bytes d | LMemory m => leaf_bytes m end;
|}.
Next Obligation.
  intros ? [d|m] len off Ha; simpl.
  - destruct (leaf_read_raw_total d len off Ha) as (r & d' & E & ? & ?). simpl in E. rewrite E. simpl. eauto 10.
  - destruct (leaf_read_raw_total m len off Ha) as (r & d' & E & ? & ?). simpl in E. rewrite E. simpl. eauto 10.
Qed.
Next Obligation.
  intros ? [d|m] data off rep Ha; simpl.
  - destruct (leaf_write_raw_total d data off rep Ha) as (r & d' & E). simpl in E. rewrite E. simpl. eauto.
  - destruct (leaf_write_raw_total m data off rep Ha) as (r & d' & E). simpl in E. rewrite E. simpl. eauto.
Qed.
Next Obligation.
  intros ? [d|m] size off c Ha; simpl.
  - destruct (leaf_read_total d size off c Ha) as (r & d' & E & ? & ?). simpl in E. rewrite E. simpl. eauto 10.
  - destruct (leaf_read_total m size off c Ha) as (r & d' & E & ? & ?). simpl in E. rewrite E. simpl. eauto 10.
Qed.
Next Obligation.
  intros ? [d|m] len off Hok Ha Hr; simpl.
  - destruct (leaf_read_raw_ok d len off Hok Ha Hr) as (b & d' & E & ?). simpl in E. rewrite E. simpl. eauto.
  - destruct (leaf_read_raw_ok m len off Hok Ha Hr) as (b & d' & E & ?). simpl in E. rewrite E. simpl. eauto.
Qed.
Next Obligation.
  intros ? [d|m] data off rep Hok Ha Hr; simpl.
  - destruct (leaf_write_raw_ok d data off rep Hok Ha Hr) as (d' & E & ? & ?). simpl in E. rewrite E. simpl. eauto.
  - destruct (leaf_write_raw_ok m data off rep Hok Ha Hr) as (d' & E & ? & ?). simpl in E. rewrite E. simpl. eauto.
Qed.
Next Obligation.
  intros ? [d|m] size off c b Hok Ha Hc Hv; simpl.
  - destruct (leaf_read_ok d size off c b Hok Ha Hc Hv) as (d' & E). simpl in E. rewrite E. simpl. eauto.
  - destruct (leaf_read_ok m size off c b Hok Ha Hc Hv) as (d' & E). simpl in E. rewrite E. simpl. eauto.
Qed.
Next Obligation.
  intros ? [d|m]; simpl.
  - destruct (leaf_flush_total d) as (r & d' & E & ?). simpl in E. rewrite E. simpl. eauto.
  - by eexists _, _.
Qed.
Next Obligation. intros ? [d|m] n Hok; [by apply (checksum_error_ok d)|by apply (checksum_error_ok m)]. Qed.

End leaf.

(** ** Devices *)

Section dev.
Context `{Hck : !Checksum} {L : Type} `{!VdevLeaf L} `{Hmem : !Memory}.

(** [VdevRead] of a leaf, and [VdevWrite] of everything that is a
    [VdevLeafWrite]. *)
#[global] Instance leaf_vdev : Vdev L | 10 := {|
  dev_read := leaf_read;
  dev_scrub := leaf_scrub;
  dev_read_raw := leaf_read_all;
  dev_write l data off := leaf_write_raw l data off false;
  dev_write_raw l data off := leaf_write_raw l data off false;
  dev_flush := leaf_flush;
  dev_actual_size _ size := Some size;
  dev_num_disks _ := 1;
  dev_size l := Some (leaf_size l);
  dev_effective_free_size _ free := Some free;
|}.

#[global] Instance mirror_vdev : Vdev (Mirror L) := {|
  dev_read := mirror_read;
  dev_scrub := mirror_scrub;
  dev_read_raw := mirror_read_raw;
  dev_write := mirror_write;
  dev_write_raw := mirror_write_raw;
  dev_flush := mirror_flush;
  dev_actual_size m size := Some (mirror_actual_size m size);
  dev_num_disks m := Z.of_nat (mirror_num_disks m);
  dev_size := mirror_size;
  dev_effective_free_size m free := Some (mirror_effective_free_size m free);
|}.

#[global] Instance parity_vdev : Vdev (Parity1 L) := {|
  dev_read := parity_read;
  dev_scrub := parity_scrub;
  dev_read_raw := parity_read_raw;
  dev_write := parity_write;
  dev_write_raw := parity_write_raw;
  dev_flush := parity_flush;
  dev_actual_size := parity_actual_size;
  dev_num_disks := disk_cnt;
  dev_size := parity_size;
  dev_effective_free_size := parity_effective_free_size;
|}.

End dev.

(** [enum Dev] *)
Inductive Dev (L : Type) := DLeaf (l : L) | DMirror (m : Mirror L) | DParity1 (p : Parity1 L).
Arguments DLeaf {L} _.
Arguments DMirror {L} _.
Arguments DParity1 {L} _.

Definition on_dev {L A} (d : Dev L) (f : L → IO L A) (g : Mirror L → IO (Mirror L) A)
    (h : Parity1 L → IO (Parity1 L) A) : IO (Dev L) A :=
  match d with
  | DLeaf l => '(r, l) ← f l; Some (r, DLeaf l)
  | DMirror m => '(r, m) ← g m; Some (r, DMirror m)
  | DParity1 p => '(r, p) ← h p; Some (r, DParity1 p)
  end.

Definition of_dev {L A} (d : Dev L) (f : L → A) (g : Mirror L → A) (h : Parity1 L → A) : A :=
  match d with DLeaf l => f l | DMirror m => g m | DParity1 p => h p end.

#[global] Instance dev_vdev `{Checksum} {L} `{!VdevLeaf L} `{!Memory} : Vdev (Dev L) := {|
  dev_read d size off c := on_dev d (λ x, dev_read x size off c) (λ x, dev_read x size off c)
    (λ x, dev_read x size off c);
  dev_scrub d size off c := on_dev d (λ x, dev_scrub x size off c) (λ x, dev_scrub x size off c)
    (λ x, dev_scrub x size off c);
  dev_read_raw d size off := on_dev d (λ x, dev_read_raw x size off) (λ x, dev_read_raw x size off)
    (λ x, dev_read_raw x size off);
  dev_write d data off := on_dev d (λ x, dev_write x data off) (λ x, dev_write x data off)
    (λ x, dev_write x data off);
  dev_write_raw d data off := on_dev d (λ x, dev_write_raw x data off) (λ x, dev_write_raw x data off)
    (λ x, dev_write_raw x data off);
  dev_flush d := on_dev d dev_flush dev_flush dev_flush;
  dev_actual_size d size := of_dev d (λ x, dev_actual_size x size) (λ x, dev_actual_size x size)
    (λ x, dev_actual_size x size);
  dev_num_disks d := of_dev d dev_num_disks dev_num_disks dev_num_disks;
  dev_size d := of_dev d dev_size dev_size dev_size;
  dev_effective_free_size d free := of_dev d (λ x, dev_effective_free_size x free)
    (λ x, dev_effective_free_size x free) (λ x, dev_effective_free_size x free);
|}.

(** ** What a device promises

    A view of a device says which of its disks to count on: the one that
    works (mirrors), or the one that may not (parity), and how many rows of
    the disks are in use. *)
Record View := mkView { v_disk : nat; v_rows : Z }.

(** Allocations of [s1] blocks at [o1] and [s2] at [o2] that do not overlap. *)
Definition separate `{Vdev V} (d : V) (o1 s1 o2 s2 : Z) : Prop :=
  ∃ a1 a2, dev_actual_size d s1 = Some a1 ∧ dev_actual_size d s2 = Some a2 ∧
    (o1 + a1 ≤ o2 ∨ o2 + a2 ≤ o1).

(** [dev_holds v d offset data]: the device can return [data]. *)
Class VdevLaws `{Vdev V} := {
  dev_ok : View → V → Prop;
  dev_request : View → V → Z → Z → Prop;
  dev_holds : View → V → Z → bytes → Prop;
  dev_write_ok v d offset size data :
    dev_ok v d → dev_request v d offset size → blen data = BLOCK_SIZE * size →
    ∃ d', dev_write d data offset = Some (inl tt, d') ∧ dev_ok v d' ∧ dev_holds v d' offset data ∧
      (∀ o s, dev_request v d o s → dev_request v d' o s) ∧
      (∀ s, dev_actual_size d' s = dev_actual_size d s) ∧
      (∀ o s x, dev_request v d o s → blen x = BLOCK_SIZE * s → separate d offset size o s →
        dev_holds v d o x → dev_holds v d' o x);
  dev_read_ok v d offset size data ck :
    dev_ok v d → dev_request v d offset size → blen data = BLOCK_SIZE * size →
    dev_holds v d offset data → csum_verify ck data = true →
    (∀ x, blen x = BLOCK_SIZE * size → csum_verify ck x = true → x = data) →
    ∃ d', dev_read d size offset ck = Some (inl data, d') ∧ dev_ok v d' ∧
      (∀ o s, dev_request v d o s → dev_request v d' o s) ∧
      (∀ s, dev_actual_size d' s = dev_actual_size d s) ∧
      (∀ o x, dev_holds v d o x → dev_holds v d' o x);
  dev_flush_ok v d :
    dev_ok v d →
    ∃ r d', dev_flush d = Some (r, d') ∧ dev_ok v d' ∧
      (∀ o s, dev_request v d o s → dev_request v d' o s) ∧
      (∀ s, dev_actual_size d' s = dev_actual_size d s) ∧
      (∀ o x, dev_holds v d o x → dev_holds v d' o x);
}.

Section laws.
Context `{Hck : !Checksum} {L : Type} `{!VdevLeaf L} `{Hmem : !Memory}.
Context `{Hlaws : !VdevLeafLaws (D := L)}.

(** Bytes of one disk: what was written is there, what is elsewhere stays. *)
Lemma disk_written (b : bytes) offset data size o s x :
  0 ≤ offset → blen data = BLOCK_SIZE * size → blen x = BLOCK_SIZE * s →
  BLOCK_SIZE * offset + blen data ≤ blen b → offset + size ≤ o ∨ o + s ≤ offset →
  cut (copy_to b (BLOCK_SIZE * offset) data) (BLOCK_SIZE * o) (blen x) = cut b (BLOCK_SIZE * o) (blen x).
Proof.
  intros Ho Hd Hx Hr Hsep. apply cut_copy_to_other; [unfold BLOCK_SIZE; lia|done|].
  right; right. rewrite Hd, Hx. unfold BLOCK_SIZE in *. lia.
Qed.

#[global] Program Instance leaf_vdev_laws : VdevLaws (V := L) | 10 := {|
  dev_ok v l := leaf_ok l;
  dev_request v l offset size :=
    0 < size ∧ addressable offset (BLOCK_SIZE * size) ∧
    BLOCK_SIZE * offset + BLOCK_SIZE * size ≤ blen (leaf_bytes l);
  dev_holds v l offset data := cut (leaf_bytes l) (BLOCK_SIZE * offset) (blen data) = Some data;
|}.
Next Obligation.
  intros v d offset size data Hok (Hs & Ha & Hr) Hd. rewrite <- Hd in Ha, Hr.
  destruct (leaf_write_raw_ok d data offset false Hok Ha Hr) as (d' & Hw & Hok' & Hb).
  assert (0 ≤ BLOCK_SIZE * offset) as H0 by (destruct Ha; unfold BLOCK_SIZE; lia).
  exists d'. split; [done|]. split; [done|]. rewrite Hb. split; [by apply cut_copy_to_same|].
  rewrite blen_copy_to by done. split_and!; [done|done|].
  intros o s x _ Hx (a1 & a2 & [= <-] & [= <-] & Hsep).
  rewrite (disk_written _ offset data size o s); try done. by destruct Ha.
Qed.
Next Obligation.
  intros v d offset size data ck Hok (Hs & Ha & Hr) Hd Hh Hv _.
  destruct (leaf_read_total d size offset ck Ha) as (r & d' & E & _ & Hk).
  destruct (Hk Hok) as (Hok' & Hb & _). rewrite Hd in Hh.
  destruct (leaf_read_ok d size offset ck data Hok Ha Hh Hv) as [d2 E2]. rewrite E in E2. simplify_eq.
  exists d2. by rewrite Hb.
Qed.

Next Obligation.
  intros v d Hok. simpl. destruct (leaf_flush_total d) as (r & d' & Hf & Hk).
  destruct (Hk Hok) as [Hok' Hb]. exists r, d'. by rewrite Hb.
Qed.

(** A flush that goes through the disks keeps what is on them. *)
Lemma try_flush ds :
  ∃ r ds', try_each leaf_flush ds = Some (r, ds') ∧ kept ds ds'.
Proof using Hlaws.
  induction ds as [|d ds IH]; [by eexists _, _|]. simpl.
  destruct (leaf_flush_total d) as (r & d' & -> & Hk). cbn [mbind option_bind].
  assert (∀ ds', kept ds ds' → kept (d :: ds) (d' :: ds')) as Hcons.
  { intros ds' [Hl Hds]. split; [simpl; by rewrite Hl|]. intros [|i] x Hx Hok; simpl in *; [|by apply Hds].
    simplify_eq. destruct (Hk Hok). eauto. }
  destruct r as [[]|e].
  - destruct IH as (r & ds' & -> & Hds). cbn [mbind option_bind]. eexists _, _. split; [done|auto].
  - eexists _, _. split; [done|]. by apply Hcons.
Qed.

#[global] Program Instance mirror_vdev_laws : VdevLaws (V := Mirror L) := {|
  dev_ok v m := ∃ d, m_vdevs m !! v_disk v = Some d ∧ leaf_ok d;
  dev_request v m offset size :=
    0 < size ∧ addressable offset (BLOCK_SIZE * size) ∧
    size * Z.of_nat (length (m_vdevs m)) < U32_SIZE ∧
    ∀ d, m_vdevs m !! v_disk v = Some d →
      BLOCK_SIZE * offset + BLOCK_SIZE * size ≤ blen (leaf_bytes d);
  dev_holds v m offset data := on_mirror (m_vdevs m) (v_disk v) offset data;
|}.
Next Obligation.
  intros v m offset size data (d & Hdi & Hok) (Hs & Ha & Hu & Hr) Hd. specialize (Hr d Hdi).
  rewrite <- Hd in Ha, Hr.
  destruct (mirror_write_spec m (v_disk v) data offset d Ha Hdi Hok Hr) as (m' & d' & Hw & Hl & Hdi' & Hok' & Hb).
  assert (0 ≤ BLOCK_SIZE * offset) as H0 by (destruct Ha; unfold BLOCK_SIZE; lia).
  exists m'. split; [done|]. split; [eauto|]. split; [|split_and!].
  - exists d'. rewrite Hb. split_and!; try done. by apply cut_copy_to_same.
  - intros o s (Hs' & Ha' & Hu' & Hr'). rewrite Hl. split_and!; try done. intros ? E. simplify_eq.
    rewrite Hb, blen_copy_to by done. by apply Hr'.
  - done.
  - intros o s x _ Hx (a1 & a2 & [= <-] & [= <-] & Hsep) (d0 & Hd0 & _ & Hc). simplify_eq.
    exists d'. split_and!; try done. rewrite Hb, (disk_written _ offset data size o s); try done.
    by destruct Ha.
Qed.
Next Obligation.
  intros v m offset size data ck (d & Hdi & Hok) (Hs & Ha & Hu & Hr) Hd Hh Hv Huniq.
  destruct (mirror_read_spec size offset ck data Ha Hd Hv Huniq m (v_disk v) Hh Hs Hu)
    as (m' & Hrd & Hl & Hk).
  destruct (Hk d Hdi Hok) as (d' & Hd' & Hok' & Hb). exists m'. split_and!; [done|eauto| |done|].
  - intros o s (Hs' & Ha' & Hu' & Hr'). rewrite Hl. split_and!; try done. intros ? E. simplify_eq.
    rewrite Hb. by apply Hr'.
  - intros o x (d0 & Hd0 & _ & Hc). simplify_eq. exists d'. by rewrite Hb.
Qed.
Next Obligation.
  intros v m (d & Hdi & Hok). destruct (try_flush (m_vdevs m)) as (r & ds' & Hf & Hl & Hk).
  destruct (Hk _ d Hdi Hok) as (d' & Hd' & Hok' & Hb).
  exists r, (set_mirrors m ds'). simpl. unfold mirror_flush. rewrite Hf. split_and!; [done|eauto| |done|].
  - intros o s (Hs' & Ha' & Hu' & Hr'). rewrite Hl. split_and!; try done. intros ? E. simplify_eq.
    rewrite Hb. by apply Hr'.
  - intros o x (d0 & Hd0 & _ & Hc). simplify_eq. exists d'. by rewrite Hb.
Qed.

(** Room and work, for the rows in use. *)
#[global] Program Instance parity_vdev_laws `{Hst : !ChecksumStream} `{Hml : !MemoryLaws} :
    VdevLaws (V := Parity1 L) := {|
  dev_ok v p := healthy p (v_disk v) (v_rows v);
  dev_request v p offset size := request (disk_cnt p) (v_rows v) offset size;
  dev_holds v p offset data := stripe p offset data (v_disk v);
|}.
Next Obligation.
  intros Hst Hml v p offset size data Hh Hreq Hd.
  destruct (write_keeps p (v_disk v) (v_rows v) offset size data Hh Hreq Hd)
    as (p' & Hw & Hc & Hh' & Hs & Hk).
  exists p'. split_and!; try done.
  - by rewrite Hc.
  - intros s. simpl. unfold parity_actual_size. by rewrite Hc.
  - intros o s x [Hf' _] Hx (a1 & a2 & E1 & E2 & Hsep).
    simpl in E1, E2. apply u32_add_inv in E1 as [-> _], E2 as [-> _].
    apply (Hk o s x Hf' Hx). lia.
Qed.
Next Obligation.
  intros Hst Hml v p offset size data ck Hh Hreq Hd Hs Hv Huniq. pose proof Hreq as [Hf _].
  destruct (stripe_parts_spec _ _ _ _ Hf Hd) as (bs & Hbs & <- & _).
  destruct (read_spec p offset size bs (v_disk v) ck Hf Hbs Hs false Hv Huniq)
    as (r & p' & Hr & Hdata & Hl & Hk & Hstripes & _).
  assert (disk_cnt p' = disk_cnt p) as Hc by (unfold disk_cnt; by rewrite Hl).
  exists p'. split_and!; [|  | | |done].
  - simpl. unfold parity_read. rewrite Hr. cbn [mbind option_bind]. by rewrite Hdata.
  - intros i. rewrite Hl. intros Hi Hne. destruct (Hh i Hi Hne) as (d & Hdi & Hok & Hroom).
    destruct (Hk i d Hne Hdi Hok) as (d' & ? & ? & Hb). exists d'. by rewrite Hb.
  - by rewrite Hc.
  - intros s. simpl. unfold parity_actual_size. by rewrite Hc.
Qed.
Next Obligation.
  intros Hst Hml v p Hh. destruct (try_flush (p_vdevs p)) as (r & ds' & Hf & Hl & Hk).
  exists r, (set_disks p ds'). simpl. unfold parity_flush. rewrite Hf.
  assert (same p (set_disks p ds')) as Hs by (split; [done|exact Hk]).
  assert (disk_cnt (set_disks p ds') = disk_cnt p) as Hc by (unfold disk_cnt; simpl; by rewrite Hl).
  split_and!; [done| | | |].
  - intros i. simpl. rewrite Hl. intros Hi Hne. destruct (Hh i Hi Hne) as (d & Hdi & Hok & Hroom).
    destruct (Hk i d Hdi Hok) as (d' & ? & ? & Hb). exists d'. by rewrite Hb.
  - by rewrite Hc.
  - intros s. unfold parity_actual_size. by rewrite Hc.
  - intros o x. by apply same_stripe.
Qed.

(** The dispatch keeps the laws. *)
#[global] Program Instance dev_vdev_laws `{Hst : !ChecksumStream} `{Hml : !MemoryLaws} :
    VdevLaws (V := Dev L) := {|
  dev_ok v d := of_dev d (dev_ok v) (dev_ok v) (dev_ok v);
  dev_request v d offset size := of_dev d (λ x, dev_request v x offset size)
    (λ x, dev_request v x offset size) (λ x, dev_request v x offset size);
  dev_holds v d offset data := of_dev d (λ x, dev_holds v x offset data)
    (λ x, dev_holds v x offset data) (λ x, dev_holds v x offset data);
|}.
Next Obligation.
  intros Hst Hml v [l|m|p] offset size data Hok Hreq Hd; cbn [of_dev] in *.
  - destruct (dev_write_ok v l offset size data Hok Hreq Hd) as (d' & Hw & ?).
    exists (DLeaf d'). split; [|done]. unfold dev_write at 1. simpl in *. by rewrite Hw.
  - destruct (dev_write_ok v m offset size data Hok Hreq Hd) as (d' & Hw & ?).
    exists (DMirror d'). split; [|done]. unfold dev_write at 1. simpl in *. by rewrite Hw.
  - destruct (dev_write_ok v p offset size data Hok Hreq Hd) as (d' & Hw & ?).
    exists (DParity1 d'). split; [|done]. unfold dev_write at 1. simpl in *. by rewrite Hw.
Qed.
Next Obligation.
  intros Hst Hml v [l|m|p] offset size data ck Hok Hreq Hd Hh Hv Huniq; cbn [of_dev] in *.
  - destruct (dev_read_ok v l offset size data ck Hok Hreq Hd Hh Hv Huniq) as (d' & Hw & ?).
    exists (DLeaf d'). split; [|done]. unfold dev_read at 1. simpl in *. by rewrite Hw.
  - destruct (dev_read_ok v m offset size data ck Hok Hreq Hd Hh Hv Huniq) as (d' & Hw & ?).
    exists (DMirror d'). split; [|done]. unfold dev_read at 1. simpl in *. by rewrite Hw.
  - destruct (dev_read_ok v p offset size data ck Hok Hreq Hd Hh Hv Huniq) as (d' & Hw & ?).
    exists (DParity1 d'). split; [|done]. unfold dev_read at 1. simpl in *. by rewrite Hw.
Qed.
Next Obligation.
  intros Hst Hml v [l|m|p] Hok; cbn [of_dev] in *.
  - destruct (dev_flush_ok v l Hok) as (r & d' & Hw & ?).
    exists r, (DLeaf d'). split; [|done]. unfold dev_flush at 1. simpl in *. by rewrite Hw.
  - destruct (dev_flush_ok v m Hok) as (r & d' & Hw & ?).
    exists r, (DMirror d'). split; [|done]. unfold dev_flush at 1. simpl in *. by rewrite Hw.
  - destruct (dev_flush_ok v p Hok) as (r & d' & Hw & ?).
    exists r, (DParity1 d'). split; [|done]. unfold dev_flush at 1. simpl in *. by rewrite Hw.
Qed.

End laws.
