(* ===== verification/PoolConfig.v ===== *)
(** * Configuration of the storage pool

    [storage_pool/configuration.rs]: the tiers, their ZFS-like notation, and
    how the devices are built from it.  Opening a file is a parameter. *)

From Stdlib Require Import ZArith Lia String Ascii.
From stdpp Require Import base option list numbers strings pretty.
From S2P Require Import Prelude.
From S2P Require Import Bytes.
From S2P Require Import Checksum.
From S2P Require Import Disk.
From S2P Require Import Meta.
From S2P Require Import Vdev.
From S2P Require Import Parity.
From S2P Require Import Mirror.
From S2P Require Import Device.

Local Open Scope string_scope.
Local Open Scope list_scope.

(** [StorageKind] of [tree/mod.rs] *)
Inductive StorageKind := Hdd | KindMemory | Ssd.

(** ** Data *)

(** [LeafVdev]; [PMemFile] is a part of the [nvm] feature. *)
Inductive LeafVdev :=
  | CfgFile (path : string)
  | CfgFileWithOpts (path : string) (direct : option bool)
  | CfgMemory (mem : N).

(** [Vdev] *)
Inductive VdevCfg :=
  | CfgLeaf (leaf : LeafVdev)
  | CfgMirror (mirror : list LeafVdev)
  | CfgParity1 (parity1 : list LeafVdev).

Record TierConfiguration := mkTier {
  top_level_vdevs : list VdevCfg;
  preferred_access_type : PreferredAccessType;
  storage_kind : StorageKind;
}.

(** [TierConfiguration::new], [FromIterator<Vdev>] *)
Definition tier_new (vdevs : list VdevCfg) : TierConfiguration :=
  mkTier vdevs AccessUnknown Hdd.

Record StoragePoolConfiguration := mkPoolCfg {
  tiers : list TierConfiguration;
  queue_depth_factor : Z;
  thread_pool_size : option Z;
  thread_pool_pinned : bool;
}.

Definition pool_default : StoragePoolConfiguration := mkPoolCfg [] 20 None false.

(** ** The ZFS-like notation *)

Definition is_path (s : string) : bool :=
  match s with
  | String c _ => bool_decide (c = "."%char) || bool_decide (c = "/"%char)
  | EmptyString => false
  end.

(** [peeking_take_while(is_path)]: what it takes and what it leaves *)
Fixpoint take_paths (ws : list string) : list string * list string :=
  match ws with
  | w :: ws' => if is_path w then let '(ps, rest) := take_paths ws' in (w :: ps, rest) else ([], ws)
  | [] => ([], [])
  end.

(** The loop of [parse_zfs_like], which takes a word in each round; [None] is
    [InvalidKeyword]. *)
Fixpoint parse_vdevs (fuel : nat) (ws : list string) : option (list VdevCfg) :=
  match ws, fuel with
  | [], _ => Some []
  | _, O => None
  | s :: ws, S fuel =>
      if is_path s then v ← parse_vdevs fuel ws; Some (CfgLeaf (CfgFile s) :: v)
      else
        f ← (if bool_decide (s = "mirror") then Some CfgMirror
             else if bool_decide (s = "parity") || bool_decide (s = "parity1") then Some CfgParity1
             else None);
        let '(paths, rest) := take_paths ws in
        v ← parse_vdevs fuel rest;
        Some (f (CfgFile <$> paths) :: v)
  end.

Definition parse_zfs_like (ws : list string) : option TierConfiguration :=
  v ← parse_vdevs (length ws) ws; Some (tier_new v).

(** [{:?}] of an [Option<bool>] *)
Definition debug_direct (d : option bool) : string :=
  match d with None => "None" | Some true => "Some(true)" | Some false => "Some(false)" end.

Definition zfs_leaf (l : LeafVdev) : string :=
  match l with
  | CfgFile path => path +:+ " "
  | CfgFileWithOpts path direct => path +:+ " (direct: " +:+ debug_direct direct +:+ ") "
  | CfgMemory mem => "memory(" +:+ pretty mem +:+ ") "
  end.

Definition zfs_vdev (v : VdevCfg) : string :=
  let '(keyword, leaves) :=
    match v with
    | CfgLeaf leaf => ("", [leaf])
    | CfgMirror leaves => ("mirror ", leaves)
    | CfgParity1 leaves => ("parity1 ", leaves)
    end in
  foldl (λ s l, s +:+ zfs_leaf l) keyword leaves.

(** [String::pop] *)
Fixpoint string_pop (s : string) : string :=
  match s with
  | EmptyString | String _ EmptyString => EmptyString
  | String c s => String c (string_pop s)
  end.

Definition zfs_like (t : TierConfiguration) : string :=
  string_pop (foldl (λ s v, s +:+ zfs_vdev v) "" (top_level_vdevs t)).

(** ** [Display] *)

Fixpoint spaces (n : nat) : string :=
  match n with O => "" | S n => String " "%char (spaces n) end.

Definition newline : string := String (ascii_of_nat 10) "".

Definition display_leaf (indent : nat) (l : LeafVdev) : string :=
  spaces indent +:+
  match l with
  | CfgFile path => path
  | CfgFileWithOpts path direct => path +:+ " (direct: " +:+ debug_direct direct +:+ ")"
  | CfgMemory mem => "memory(" +:+ pretty mem +:+ ")"
  end +:+ newline.

Definition display_vdev (indent : nat) (v : VdevCfg) : string :=
  let group keyword leaves :=
    foldl (λ s l, s +:+ display_leaf (indent + 4) l) (spaces indent +:+ keyword +:+ newline) leaves in
  match v with
  | CfgLeaf l => display_leaf indent l
  | CfgMirror leaves => group "mirror" leaves
  | CfgParity1 leaves => group "parity1" leaves
  end.

Definition display_tier (t : TierConfiguration) : string :=
  foldl (λ s v, s +:+ display_vdev 0 v) "" (top_level_vdevs t).

(** ** Building the devices

    A panic is [None], an [io::Error] is [inr tt]. *)

Section build.
Context {F : Type} (open_file : string → bool → (F * FileKind) + unit).

(** [collect] of results: the first error *)
Fixpoint try_map {A B} (f : nat → A → option (B + unit)) (n : nat) (l : list A) :
    option (list B + unit) :=
  match l with
  | [] => Some (inl [])
  | a :: l =>
      r ← f n a;
      match r with
      | inr e => Some (inr e)
      | inl b =>
          rs ← try_map f (S n) l;
          Some (match rs with inl bs => inl (b :: bs) | inr e => inr e end)
      end
  end.

Definition build_leaf (l : LeafVdev) : option (Leaf F + unit) :=
  let open path direct :=
    match open_file path direct with
    | inr e => Some (inr e)
    | inl (f, kind) =>
        r ← file_new f kind path;
        Some (match r with inl d => inl (LFile d) | inr e => inr e end)
    end in
  match l with
  | CfgFile path => open path true
  | CfgFileWithOpts path direct => open path (default true direct)
  | CfgMemory mem => m ← memory_new (Z.of_N mem) ("memory-" +:+ pretty mem); Some (inl (LMemory m))
  end.

Definition build_vdev (n : nat) (v : VdevCfg) : option (Dev (Leaf F) + unit) :=
  match v with
  | CfgMirror leaves =>
      r ← try_map (λ _, build_leaf) 0 leaves;
      Some (match r with
            | inl ls => inl (DMirror (mirror_new ls ("mirror-" +:+ pretty (N.of_nat n))))
            | inr e => inr e
            end)
  | CfgParity1 leaves =>
      r ← try_map (λ _, build_leaf) 0 leaves;
      match r with
      | inl ls => p ← parity_new ls ("parity-" +:+ pretty (N.of_nat n)); Some (inl (DParity1 p))
      | inr e => Some (inr e)
      end
  | CfgLeaf leaf =>
      r ← build_leaf leaf; Some (match r with inl l => inl (DLeaf l) | inr e => inr e end)
  end.

Definition build_tier (t : TierConfiguration) : option (list (Dev (Leaf F)) + unit) :=
  try_map build_vdev 0 (top_level_vdevs t).

End build.

(** ** The notation is read back *)

(** [str::split_whitespace] on ASCII *)
Definition is_space (c : ascii) : bool :=
  let n := nat_of_ascii c in bool_decide (n = 32)%nat || (bool_decide (9 ≤ n)%nat && bool_decide (n ≤ 13)%nat).

Fixpoint split_from (word : string) (s : string) : list string :=
  match s with
  | EmptyString => if bool_decide (word = "") then [] else [word]
  | String c s =>
      if is_space c then (if bool_decide (word = "") then [] else [word]) ++ split_from "" s
      else split_from (word +:+ String c "") s
  end.

Definition split_whitespace (s : string) : list string := split_from "" s.

Fixpoint no_space (w : string) : Prop :=
  match w with EmptyString => True | String c w => is_space c = false ∧ no_space w end.

Definition word (w : string) : Prop := w ≠ "" ∧ no_space w.

Lemma app_assoc_str (a b c : string) : a +:+ b +:+ c = (a +:+ b) +:+ c.
Proof. induction a as [|x a IH]; [done|]. by apply (f_equal (String x)). Qed.

Lemma app_nil_str (a : string) : a +:+ "" = a.
Proof. induction a as [|x a IH]; [done|]. by apply (f_equal (String x)). Qed.

Lemma foldl_app_str {A} (f : A → string) l acc :
  foldl (λ s x, s +:+ f x) acc l = acc +:+ foldr (λ x s, f x +:+ s) "" l.
Proof.
  revert acc. induction l as [|x l IH]; intros acc; cbn [foldl foldr]; [by rewrite app_nil_str|].
  by rewrite IH, app_assoc_str.
Qed.

(** Words, each followed by a space *)
Definition spaced (ws : list string) : string := foldr (λ w s, w +:+ " " +:+ s) "" ws.

Lemma spaced_app ws ws' : spaced (ws ++ ws') = spaced ws +:+ spaced ws'.
Proof.
  induction ws as [|w ws IH]; [done|]. cbn [spaced foldr app]. fold (spaced (ws ++ ws')) (spaced ws).
  rewrite IH. by rewrite !app_assoc_str.
Qed.

Lemma string_pop_app a b : b ≠ "" → string_pop (a +:+ b) = a +:+ string_pop b.
Proof.
  intros Hb. induction a as [|x a IH]; [done|].
  change (String x a +:+ string_pop b) with (String x (a +:+ string_pop b)). rewrite <- IH.
  change (String x a +:+ b) with (String x (a +:+ b)). cbn [string_pop].
  destruct (a +:+ b) eqn:E; [|done]. by destruct a.
Qed.

Lemma split_word w acc s : no_space w → split_from acc (w +:+ s) = split_from (acc +:+ w) s.
Proof.
  revert acc. induction w as [|c w IH]; intros acc Hw; [by rewrite app_nil_str|].
  destruct Hw as [Hc Hw]. change (String c w +:+ s) with (String c (w +:+ s)). cbn [split_from].
  rewrite Hc, IH by done. by rewrite <- app_assoc_str.
Qed.

Lemma split_spaced ws : Forall word ws → split_whitespace (string_pop (spaced ws)) = ws.
Proof.
  unfold split_whitespace. induction ws as [|w ws IH]; [done|].
  intros [[Hne Hw] Hws]%Forall_cons. cbn [spaced foldr]. fold (spaced ws).
  rewrite string_pop_app by done. rewrite split_word by done. simpl (_ +:+ w).
  destruct ws as [|w2 ws].
  - simpl. by rewrite bool_decide_false.
  - rewrite (string_pop_app " "); [|apply Forall_cons in Hws as [[Hne2 _] _]; by destruct w2].
    change (" " +:+ string_pop (spaced (w2 :: ws))) with (String " "%char (string_pop (spaced (w2 :: ws)))).
    cbn [split_from]. change (is_space " ") with true. cbn iota. rewrite bool_decide_false by done.
    by rewrite IH.
Qed.

(** *** The words of a configuration *)

Definition file_path (l : LeafVdev) : string :=
  match l with CfgFile p | CfgFileWithOpts p _ => p | CfgMemory _ => "" end.

Definition vdev_words (v : VdevCfg) : list string :=
  match v with
  | CfgLeaf l => [file_path l]
  | CfgMirror ls => "mirror" :: (file_path <$> ls)
  | CfgParity1 ls => "parity1" :: (file_path <$> ls)
  end.

Definition plain_file (l : LeafVdev) : Prop := ∃ p, l = CfgFile p ∧ is_path p = true ∧ word p.

(** Files only, and no lone device right after a group *)
Fixpoint canonical (vs : list VdevCfg) : Prop :=
  match vs with
  | [] => True
  | CfgLeaf l :: vs => plain_file l ∧ canonical vs
  | (CfgMirror ls | CfgParity1 ls) :: vs =>
      Forall plain_file ls ∧ canonical vs ∧ match vs with CfgLeaf _ :: _ => False | _ => True end
  end.

Lemma take_paths_spec ws :
  let '(ps, rest) := take_paths ws in
  ws = ps ++ rest ∧ Forall (λ p, is_path p = true) ps ∧
  match rest with w :: _ => is_path w = false | [] => True end.
Proof.
  induction ws as [|w ws IH]; [done|]. simpl. destruct (is_path w) eqn:E; [|done].
  destruct (take_paths ws) as [ps rest]. destruct IH as (-> & Hps & Hr).
  split_and!; [done|by constructor|done].
Qed.

Lemma take_paths_app ps rest :
  Forall (λ p, is_path p = true) ps → match rest with w :: _ => is_path w = false | [] => True end →
  take_paths (ps ++ rest) = (ps, rest).
Proof.
  intros Hps Hr. induction Hps as [|p ps Hp _ IH]; simpl; [|by rewrite Hp, IH].
  destruct rest as [|w rest]; simpl; [done|by rewrite Hr].
Qed.

Lemma plain_files ps :
  Forall word ps → Forall (λ p, is_path p = true) ps → Forall plain_file (CfgFile <$> ps).
Proof.
  intros Hw Hp. apply Forall_fmap, Forall_forall. intros p Hin. exists p.
  rewrite Forall_forall in Hw, Hp. auto.
Qed.

Lemma parse_head fuel w ws vs :
  parse_vdevs fuel (w :: ws) = Some vs → is_path w = false →
  match vs with CfgLeaf _ :: _ => False | _ => True end.
Proof.
  destruct fuel as [|fuel]; [done|]. intros Hp Hw. simpl in Hp. rewrite Hw in Hp.
  repeat case_bool_decide; simpl in Hp; try done;
    destruct (take_paths ws) as [ps rest]; destruct (parse_vdevs fuel rest); by simplify_eq/=.
Qed.

Lemma parse_canonical fuel ws vs :
  Forall word ws → parse_vdevs fuel ws = Some vs → canonical vs.
Proof.
  revert ws vs. induction fuel as [|fuel IH]; intros [|s ws] vs Hw Hp; try by simplify_eq/=.
  apply Forall_cons in Hw as [Hs Hw]. simpl in Hp. destruct (is_path s) eqn:E.
  - destruct (parse_vdevs fuel ws) as [v|] eqn:Ev; simplify_eq/=. split; [by exists s|by eapply IH].
  - pose proof (take_paths_spec ws) as Ht. destruct (take_paths ws) as [ps rest].
    destruct Ht as (-> & Hps & Hr). apply Forall_app in Hw as [Hw1 Hw2].
    assert (Forall plain_file (CfgFile <$> ps) ∧ ∀ v, parse_vdevs fuel rest = Some v →
      canonical v ∧ match v with CfgLeaf _ :: _ => False | _ => True end) as [Hf Hv].
    { split; [by apply plain_files|]. intros v Ev. split; [by eapply IH|].
      destruct rest as [|w rest]; [destruct fuel; by simplify_eq/=|by eapply parse_head]. }
    repeat case_bool_decide; simpl in Hp; try done;
      (destruct (parse_vdevs fuel rest) as [v|]; [|done]); simplify_eq/=;
      (split; [done|]); by apply Hv.
Qed.

Lemma file_paths ls :
  Forall plain_file ls → CfgFile <$> (file_path <$> ls) = ls ∧
  Forall (λ p, is_path p = true) (file_path <$> ls) ∧ Forall word (file_path <$> ls).
Proof.
  induction 1 as [|l ls (p & -> & Hp & Hw) _ (IH1 & IH2 & IH3)]; [done|].
  split_and!; [by apply (f_equal (cons (CfgFile p)))|by constructor..].
Qed.

Definition words_of (vs : list VdevCfg) : list string := concat (vdev_words <$> vs).

Lemma words_head vs :
  match vs with CfgLeaf _ :: _ => False | _ => True end →
  match words_of vs with w :: _ => is_path w = false | [] => True end.
Proof. by destruct vs as [|[l|ls|ls] vs]. Qed.

Lemma parse_words vs fuel :
  canonical vs → (length (words_of vs) ≤ fuel)%nat → parse_vdevs fuel (words_of vs) = Some vs.
Proof.
  revert fuel. induction vs as [|v vs IH]; intros fuel Hc Hf; [by destruct fuel|].
  assert (∀ ls k, Forall plain_file ls → canonical vs →
    match vs with CfgLeaf _ :: _ => False | _ => True end →
    (length (file_path <$> ls) + length (words_of vs) ≤ k)%nat →
    take_paths ((file_path <$> ls) ++ words_of vs) = (file_path <$> ls, words_of vs) ∧
    parse_vdevs k (words_of vs) = Some vs ∧ CfgFile <$> (file_path <$> ls) = ls) as Hg.
  { intros ls k Hls Hcv Hh Hk. destruct (file_paths ls Hls) as (E & Hp & _).
    split_and!; [by apply take_paths_app, words_head|apply IH; [done|lia]|done]. }
  unfold words_of in Hf |- *. cbn [fmap list_fmap concat] in Hf |- *. fold (words_of vs) in Hf |- *.
  rewrite length_app in Hf.
  destruct v as [l|ls|ls]; simpl in Hc; (destruct fuel as [|fuel]; [simpl in Hf; lia|]); simpl in Hf.
  - destruct Hc as [(p & -> & Hp & _) Hc]. simpl. by rewrite Hp, IH by (done || lia).
  - destruct Hc as (Hls & Hc & Hh). destruct (Hg ls fuel Hls Hc Hh ltac:(lia)) as (Ht & Hp & E).
    simpl. rewrite Ht, Hp. simpl. by rewrite E.
  - destruct Hc as (Hls & Hc & Hh). destruct (Hg ls fuel Hls Hc Hh ltac:(lia)) as (Ht & Hp & E).
    simpl. rewrite Ht, Hp. simpl. by rewrite E.
Qed.

Lemma zfs_files ls acc : Forall plain_file ls →
  foldl (λ s l, s +:+ zfs_leaf l) acc ls = acc +:+ spaced (file_path <$> ls).
Proof.
  intros Hls. rewrite foldl_app_str. f_equal. induction Hls as [|l ls (p & -> & _) _ IH]; [done|].
  simpl. rewrite IH. by rewrite <- app_assoc_str.
Qed.

Lemma zfs_words vs :
  canonical vs → foldl (λ s v, s +:+ zfs_vdev v) "" vs = spaced (words_of vs).
Proof.
  rewrite foldl_app_str. change ("" +:+ foldr (λ v s, zfs_vdev v +:+ s) "" vs) with
    (foldr (λ v s, zfs_vdev v +:+ s) "" vs). induction vs as [|v vs IH]; intros Hc; [done|].
  assert (zfs_vdev v = spaced (vdev_words v) ∧ canonical vs) as [Hv Hc'].
  { destruct v as [l|ls|ls]; simpl in Hc; unfold zfs_vdev.
    - destruct Hc as [Hl ?]. by rewrite zfs_files by (by constructor).
    - destruct Hc as (Hl & ? & _). by rewrite zfs_files.
    - destruct Hc as (Hl & ? & _). by rewrite zfs_files. }
  cbn [foldr]. rewrite Hv, IH by done. by rewrite <- spaced_app.
Qed.

Lemma canonical_words vs : canonical vs → Forall word (words_of vs).
Proof.
  induction vs as [|v vs IH]; intros Hc; [done|]. unfold words_of. cbn [fmap list_fmap concat].
  fold (words_of vs). destruct v as [l|ls|ls]; simpl in Hc.
  - destruct Hc as [(p & -> & _ & Hp) ?]. apply Forall_app. split; [by apply Forall_singleton|auto].
  - destruct Hc as (Hls & ? & _). destruct (file_paths ls Hls) as (_ & _ & Hw).
    apply Forall_app. split; [|auto]. constructor; [|done]. by repeat split.
  - destruct Hc as (Hls & ? & _). destruct (file_paths ls Hls) as (_ & _ & Hw).
    apply Forall_app. split; [|auto]. constructor; [|done]. by repeat split.
Qed.

(** The ZFS-like notation of a configuration that was parsed from words
    parses, word by word, to the same configuration. *)
Theorem zfs_like_roundtrip ws t :
  Forall word ws → parse_zfs_like ws = Some t →
  parse_zfs_like (split_whitespace (zfs_like t)) = Some t.
Proof.
  intros Hw Hp. unfold parse_zfs_like in Hp. destruct (parse_vdevs (length ws) ws) as [vs|] eqn:E; [|done].
  simpl in Hp. injection Hp as <-. pose proof (parse_canonical _ _ _ Hw E) as Hc.
  unfold zfs_like. simpl. rewrite (zfs_words vs Hc), split_spaced by (by apply canonical_words).
  unfold parse_zfs_like. by rewrite parse_words.
Qed.

Lemma zfs_like_roundtrip_witness :
  ∃ t, parse_zfs_like ["/dev/a"; "mirror"; "/dev/b"; "/dev/c"; "parity"; "/dev/d"] = Some t ∧
    parse_zfs_like (split_whitespace (zfs_like t)) = Some t.
Proof.
  eexists. split; [reflexivity|].
  apply (zfs_like_roundtrip ["/dev/a"; "mirror"; "/dev/b"; "/dev/c"; "parity"; "/dev/d"]).
  - repeat (apply Forall_cons; split; [by repeat split|]). apply Forall_nil. done.
  - reflexivity.
Defined.

(** The notation of a lone device after a mirror is that of one more disk of
    the mirror. *)
Lemma zfs_like_absorbs :
  let t := tier_new [CfgMirror [CfgFile "/a"; CfgFile "/b"]; CfgLeaf (CfgFile "/c")] in
  parse_zfs_like (split_whitespace (zfs_like t)) =
    Some (tier_new [CfgMirror [CfgFile "/a"; CfgFile "/b"; CfgFile "/c"]]).
Proof. by vm_compute. Qed.

(** That of a device in memory does not parse at all. *)
Lemma zfs_like_memory : parse_zfs_like (split_whitespace (zfs_like (tier_new [CfgLeaf (CfgMemory 4096)]))) = None.
Proof. by vm_compute. Qed.
