(* ===== verification/Pool.v ===== *)
(** * The storage pool

    [storage_pool/unit.rs] and [bounded_future_queue.rs].  A write is a task
    of its own; it is recorded under its offset in a queue, and removes itself
    from it when it is done.  The clients of the pool and the tasks run
    concurrently.  A step of a client is what it does under one of the locks,
    or a wait; a step of a task is its request to the device, which is taken
    to be atomic, or its last one, [mark_completed].  A schedule says which of
    them takes the next step. *)

From Stdlib Require Import ZArith Lia String.
From stdpp Require Import base option list numbers.
From S2P Require Import Prelude.
From S2P Require Import Bytes.
From S2P Require Import StoragePref.
From S2P Require Import Checksum.
From S2P Require Import Meta.
From S2P Require Import Disk.
From S2P Require Import DmuAlloc.
From S2P Require Import Vdev.
From S2P Require Import Device.
From S2P Require Import PoolConfig.

Import DiskOffset(DiskOffset, storage_class, disk_id, block_offset).

#[global] Instance DiskOffset_eq_dec : EqDecision DiskOffset.
Proof. solve_decision. Defined.

(** ** Tiers *)

Record StorageTier (V : Type) := mkStorageTier {
  tier_devs : list V;
  tier_access : PreferredAccessType;
  tier_kind : StorageKind;
}.
Arguments mkStorageTier {V} _ _ _.
Arguments tier_devs {V} _.
Arguments tier_access {V} _.
Arguments tier_kind {V} _.

(** [Default for StorageTier] *)
Definition tier_default {V} : StorageTier V := mkStorageTier [] AccessUnknown Hdd.

Section tiers.
Context `{Checksum} {V : Type} `{!Vdev V}.

(** [by_offset]; an index out of range panics. *)
Definition dev_at (ts : list (StorageTier V)) (class disk : Z) : option V :=
  t ← ts !! Z.to_nat class; tier_devs t !! Z.to_nat disk.

Definition by_offset (ts : list (StorageTier V)) (o : DiskOffset) : option V :=
  dev_at ts (storage_class o) (disk_id o).

Definition set_dev (ts : list (StorageTier V)) (o : DiskOffset) (d : V) : list (StorageTier V) :=
  alter (λ t, mkStorageTier (<[Z.to_nat (disk_id o) := d]> (tier_devs t)) (tier_access t) (tier_kind t))
    (Z.to_nat (storage_class o)) ts.

Definition at_offset {A} (ts : list (StorageTier V)) (o : DiskOffset) (op : V → IO V A) :
    IO (list (StorageTier V)) A :=
  d ← by_offset ts o;
  '(r, d) ← op d;
  Some (r, set_dev ts o d).

(** [StoragePoolUnit::new], from the devices of the configured tiers *)
Definition pool_tiers (cfg : list (StorageTier V)) : option (list (StorageTier V)) :=
  assert! (length cfg <=? Z.to_nat NUM_STORAGE_CLASSES)%nat;
  Some (cfg ++ replicate (Z.to_nat NUM_STORAGE_CLASSES - length cfg) tier_default).

Definition queue_depth (cfg : StoragePoolConfiguration) (ts : list (StorageTier V)) : option Z :=
  umul U64_SIZE (queue_depth_factor cfg) (Z.of_nat (sum_list_with (λ t, length (tier_devs t)) ts)).

(** [actual_size], [size_in_blocks], [num_disks], [effective_free_size],
    [disk_count], [storage_class_count] *)
Definition pool_actual_size (ts : list (StorageTier V)) (class disk size : Z) : option Z :=
  d ← dev_at ts class disk; dev_actual_size d size.

Definition pool_size_in_blocks (ts : list (StorageTier V)) (class disk : Z) : option Z :=
  d ← dev_at ts class disk; dev_size d.

Definition pool_num_disks (ts : list (StorageTier V)) (class disk : Z) : option Z :=
  d ← dev_at ts class disk; Some (dev_num_disks d).

Definition pool_effective_free_size (ts : list (StorageTier V)) (class disk free : Z) : option Z :=
  d ← dev_at ts class disk; dev_effective_free_size d free.

Definition tier_disk_count (ts : list (StorageTier V)) (class : Z) : option Z :=
  t ← ts !! Z.to_nat class; Some (wrap16 (Z.of_nat (length (tier_devs t)))).

Definition pool_storage_class_count (ts : list (StorageTier V)) : Z := NUM_STORAGE_CLASSES.

(** [access_type_preference]: the first tier with that preference *)
Fixpoint access_preference (pref : Z) (ts : list (StorageTier V)) (t : PreferredAccessType) :
    option StoragePreference :=
  match ts with
  | [] => Some Pref.NONE
  | tier :: ts => if decide (tier_access tier = t) then Pref.from_u8 pref else access_preference (pref + 1) ts t
  end.

Definition pool_storage_kind_map (ts : list (StorageTier V)) : list StorageKind := tier_kind <$> ts.

(** All devices, tier by tier, one after the other until an error: [flush]
    and [read_raw]. *)
Fixpoint each_tier {A} (op : list V → IO (list V) A) (join : A → A → A) (none : A)
    (ts : list (StorageTier V)) : IO (list (StorageTier V)) A :=
  match ts with
  | [] => Some (inl none, [])
  | t :: ts =>
      '(r, ds) ← op (tier_devs t);
      let t := mkStorageTier ds (tier_access t) (tier_kind t) in
      match r with
      | inr e => Some (inr e, t :: ts)
      | inl a =>
          '(rs, ts) ← each_tier op join none ts;
          Some (match rs with inl b => inl (join a b) | inr e => inr e end, t :: ts)
      end
  end.

Definition flush_devs (ts : list (StorageTier V)) : IO (list (StorageTier V)) unit :=
  each_tier (try_each dev_flush) (λ _ _, tt) tt ts.

Fixpoint read_raw_devs (size offset : Z) (ds : list V) : IO (list V) (list bytes) :=
  match ds with
  | [] => Some (inl [], [])
  | d :: ds =>
      '(r, d) ← dev_read_raw d size offset;
      match r with
      | inr e => Some (inr e, d :: ds)
      | inl v =>
          '(rs, ds) ← read_raw_devs size offset ds;
          Some (match rs with inl vs => inl (v ++ vs) | inr e => inr e end, d :: ds)
      end
  end.

(** [StoragePoolLayer::read_raw] *)
Definition pool_read_raw (ts : list (StorageTier V)) (size offset : Z) :
    IO (list (StorageTier V)) (list bytes) :=
  each_tier (read_raw_devs size offset) app [] ts.

(** [StoragePoolLayer::write_raw]: all requests are started; an error is
    that of one of them. *)
Fixpoint write_raw_tiers (ts : list (StorageTier V)) (data : bytes) (offset : Z) :
    option (list (unit + VdevError) * list (StorageTier V)) :=
  match ts with
  | [] => Some ([], [])
  | t :: ts =>
      '(rs, ds) ← each_disk (λ d, dev_write_raw d data offset) (tier_devs t);
      '(rs', ts) ← write_raw_tiers ts data offset;
      Some (rs ++ rs', mkStorageTier ds (tier_access t) (tier_kind t) :: ts)
  end.

Definition pool_write_raw (ts : list (StorageTier V)) (data : bytes) (offset : Z) :
    IO (list (StorageTier V)) unit :=
  '(rs, ts) ← write_raw_tiers ts data offset;
  Some (match errors rs with e :: _ => inr e | [] => inl tt end, ts).

End tiers.

(** ** The write-back queue *)

(** What a task has done: it waits for [enqueue_done], is let go, has begun,
    has written, has left the queue; or it was cancelled. *)
Inductive Status :=
  | Spawned | Started | Running | Written (r : unit + VdevError) | Completed (r : unit + VdevError)
  | Cancelled.

(** [task_from]: the client and the number of its request *)
Record Task := mkTask {
  task_data : bytes; task_offset : DiskOffset; task_status : Status; task_from : nat * nat;
}.

Definition set_status (st : Status) (t : Task) : Task :=
  mkTask (task_data t) (task_offset t) st (task_from t).

(** The [IndexMap]: offsets in the order of insertion *)
Abbreviation Queue := (list (DiskOffset * nat)).

Fixpoint queue_get (q : Queue) (key : DiskOffset) : option nat :=
  match q with
  | [] => None
  | (k, f) :: q => if decide (k = key) then Some f else queue_get q key
  end.

Definition shift_remove (q : Queue) (key : DiskOffset) : Queue := filter (λ e, e.1 ≠ key) q.

(** *** Clients *)

Inductive Answer :=
  | Wrote (r : unit + VdevError)
  | Got (r : bytes + VdevError)
  | Flushed (r : unit + VdevError).

(** Where [drain_specific_future] is: looking the key up, waiting for the
    future, removing the key. *)
Inductive WaitPc := WGet | WOn (f : nat) | WDrop (r : unit + VdevError).

(** Where [drain_while_above_limit] is: comparing the length, taking the
    first entry, waiting for it, removing its key. *)
Inductive DrainPc := DLen | DPeek | DOn (key : DiskOffset) (f : nat) | DDrop (key : DiskOffset) (r : unit + VdevError).

(** Where a client is: between requests, in [begin_write] for task [f], in
    [read] or in [flush]. *)
Inductive Pc :=
  | Idle
  | EnqLock (f : nat) | EnqWait (f : nat) (w : WaitPc) | EnqInsert (f : nat) | EnqCheck (f : nat)
  | EnqDrain (f : nat) (d : DrainPc) | EnqDone (f : nat) (r : unit + VdevError)
  | ReadWait (w : WaitPc) | ReadDev
  | FlushLock | FlushDrain (d : DrainPc) | FlushDevs.

(** Does a client there have the handle of task [f], its own or a clone of the
    one in the queue? *)
Definition holds_handle (f : nat) (p : Pc) : bool :=
  match p with
  | EnqLock g | EnqInsert g | EnqDrain _ (DOn _ g) | ReadWait (WOn g) | FlushDrain (DOn _ g) => bool_decide (g = f)
  | EnqWait g (WOn h) => bool_decide (g = f) || bool_decide (h = f)
  | EnqWait g _ => bool_decide (g = f)
  | _ => false
  end.

Inductive Step (A : Type) := Blocked | Panicked | Next (a : A).
Arguments Blocked {A}.
Arguments Panicked {A}.
Arguments Next {A} _.

Inductive Label := LClient (i : nat) | LTask (f : nat).

Section machine.
Context `{Checksum} {V : Type} `{!Vdev V}.

Inductive Request :=
  | WriteReq (data : bytes) (offset : DiskOffset)
  | ReadReq (size : Z) (offset : DiskOffset) (checksum : csum)
  | FlushReq.

(** [requests] are those that the client makes, [answers] those it got. *)
Record Client := mkClient { requests : list Request; answers : list Answer; pc : Pc }.

Definition goto (c : Client) (p : Pc) : Client := mkClient (requests c) (answers c) p.
Definition answer (c : Client) (a : Answer) : Client := mkClient (requests c) (answers c ++ [a]) Idle.

Record Pool := mkPool {
  p_tiers : list (StorageTier V);
  p_queue : Queue;
  p_tasks : list Task;
  p_flush_lock : bool;
  p_limit : nat;
  p_clients : list Client;
}.

Definition set_tiers (s : Pool) (ts : list (StorageTier V)) : Pool :=
  mkPool ts (p_queue s) (p_tasks s) (p_flush_lock s) (p_limit s) (p_clients s).
Definition set_queue (s : Pool) (q : Queue) : Pool :=
  mkPool (p_tiers s) q (p_tasks s) (p_flush_lock s) (p_limit s) (p_clients s).
Definition set_tasks (s : Pool) (ts : list Task) : Pool :=
  mkPool (p_tiers s) (p_queue s) ts (p_flush_lock s) (p_limit s) (p_clients s).
Definition set_lock (s : Pool) (b : bool) : Pool :=
  mkPool (p_tiers s) (p_queue s) (p_tasks s) b (p_limit s) (p_clients s).
Definition set_client (s : Pool) (i : nat) (c : Client) : Pool :=
  mkPool (p_tiers s) (p_queue s) (p_tasks s) (p_flush_lock s) (p_limit s) (<[i := c]> (p_clients s)).

(** *** Steps *)

(** The result of a future, once it has one *)
Definition poll (s : Pool) (f : nat) : option (unit + VdevError) :=
  t ← p_tasks s !! f; match task_status t with Completed r => Some r | _ => None end.

(** Is there a handle of the task?  A task whose handle is dropped does not
    run: the executor looks when it begins to poll it. *)
Definition handle_live (s : Pool) (f : nat) : bool :=
  existsb (λ e, bool_decide (e.2 = f)) (p_queue s) || existsb (λ c, holds_handle f (pc c)) (p_clients s).

(** [wait]: its next step, or its result *)
Definition wait_step (s : Pool) (key : DiskOffset) (w : WaitPc) :
    Step (Pool * (WaitPc + (unit + VdevError))) :=
  match w with
  | WGet =>
      match queue_get (p_queue s) key with
      | Some f => Next (s, inl (WOn f))
      | None => Next (s, inr (inl tt))
      end
  | WOn f => match poll s f with Some r => Next (s, inl (WDrop r)) | None => Blocked end
  | WDrop r => Next (set_queue s (shift_remove (p_queue s) key), inr r)
  end.

(** [drain_while_above_limit], [drain_any_future] *)
Definition drain_step (s : Pool) (limit : nat) (d : DrainPc) :
    Step (Pool * (DrainPc + (unit + VdevError))) :=
  match d with
  | DLen => Next (s, if (limit <? length (p_queue s))%nat then inl DPeek else inr (inl tt))
  | DPeek => Next (s, match p_queue s with (k, f) :: _ => inl (DOn k f) | [] => inr (inl tt) end)
  | DOn k f => match poll s f with Some r => Next (s, inl (DDrop k r)) | None => Blocked end
  | DDrop k r =>
      Next (set_queue s (shift_remove (p_queue s) k),
            match r with inl _ => inl DLen | inr e => inr (inr e) end)
  end.

(** [begin_write] spawns the task; [read] and [flush] start. *)
Definition start_request (s : Pool) (i : nat) (c : Client) : Step Pool :=
  match requests c !! length (answers c) with
  | None => Blocked
  | Some (WriteReq data offset) =>
      let f := length (p_tasks s) in
      Next (set_client
        (set_tasks s (p_tasks s ++ [mkTask data offset Spawned (i, length (answers c))])) i
        (goto c (EnqLock f)))
  | Some (ReadReq _ _ _) => Next (set_client s i (goto c (ReadWait WGet)))
  | Some FlushReq => Next (set_client s i (goto c FlushLock))
  end.

(** [enqueue] and the end of [begin_write]: to let a task go that was cancelled
    panics. *)
Definition enqueue_step (s : Pool) (i : nat) (c : Client) (f : nat) (key : DiskOffset) : Step Pool :=
  match pc c with
  | EnqLock _ =>
      if p_flush_lock s then Blocked else Next (set_client (set_lock s true) i (goto c (EnqWait f WGet)))
  | EnqWait _ w =>
      match wait_step s key w with
      | Next (s, inl w) => Next (set_client s i (goto c (EnqWait f w)))
      | Next (s, inr (inl _)) => Next (set_client s i (goto c (EnqInsert f)))
      | Next (s, inr (inr e)) => Next (set_client (set_lock s false) i (goto c (EnqDone f (inr e))))
      | Blocked => Blocked
      | Panicked => Panicked
      end
  | EnqInsert _ =>
      match queue_get (p_queue s) key with
      | Some _ => Panicked
      | None =>
          Next (set_client (set_lock (set_queue s (p_queue s ++ [(key, f)])) false) i
                  (goto c (EnqCheck f)))
      end
  | EnqCheck _ =>
      Next (set_client s i (goto c
        (if (p_limit s <? length (p_queue s))%nat then EnqDrain f DLen else EnqDone f (inl tt))))
  | EnqDrain _ d =>
      match drain_step s (p_limit s) d with
      | Next (s, inl d) => Next (set_client s i (goto c (EnqDrain f d)))
      | Next (s, inr r) => Next (set_client s i (goto c (EnqDone f r)))
      | Blocked => Blocked
      | Panicked => Panicked
      end
  | EnqDone _ r =>
      match p_tasks s !! f with
      | Some t =>
          match task_status t with
          | Spawned =>
              Next (set_client (set_tasks s (<[f := set_status Started t]> (p_tasks s))) i (answer c (Wrote r)))
          | _ => Panicked
          end
      | None => Panicked
      end
  | _ => Panicked
  end.

Definition pool_read_step (s : Pool) (i : nat) (c : Client) (size : Z) (offset : DiskOffset)
    (checksum : csum) : Step Pool :=
  match pc c with
  | ReadWait w =>
      match wait_step s offset w with
      | Next (s, inl w) => Next (set_client s i (goto c (ReadWait w)))
      | Next (s, inr (inl _)) => Next (set_client s i (goto c ReadDev))
      | Next (s, inr (inr e)) => Next (set_client s i (answer c (Got (inr e))))
      | Blocked => Blocked
      | Panicked => Panicked
      end
  | ReadDev =>
      match at_offset (p_tiers s) offset (λ d, dev_read d size (block_offset offset) checksum) with
      | Some (r, ts) => Next (set_client (set_tiers s ts) i (answer c (Got r)))
      | None => Panicked
      end
  | _ => Panicked
  end.

Definition pool_flush_step (s : Pool) (i : nat) (c : Client) : Step Pool :=
  match pc c with
  | FlushLock =>
      if p_flush_lock s then Blocked else Next (set_client (set_lock s true) i (goto c (FlushDrain DLen)))
  | FlushDrain d =>
      match drain_step s 0 d with
      | Next (s, inl d) => Next (set_client s i (goto c (FlushDrain d)))
      | Next (s, inr (inl _)) => Next (set_client (set_lock s false) i (goto c FlushDevs))
      | Next (s, inr (inr e)) => Next (set_client (set_lock s false) i (answer c (Flushed (inr e))))
      | Blocked => Blocked
      | Panicked => Panicked
      end
  | FlushDevs =>
      match flush_devs (p_tiers s) with
      | Some (r, ts) => Next (set_client (set_tiers s ts) i (answer c (Flushed r)))
      | None => Panicked
      end
  | _ => Panicked
  end.

Definition client_step (s : Pool) (i : nat) : Step Pool :=
  match p_clients s !! i with
  | None => Blocked
  | Some c =>
      match pc c, requests c !! length (answers c) with
      | Idle, _ => start_request s i c
      | (EnqLock f | EnqWait f _ | EnqInsert f | EnqCheck f | EnqDrain f _ | EnqDone f _),
        Some (WriteReq _ offset) => enqueue_step s i c f offset
      | (ReadWait _ | ReadDev), Some (ReadReq size offset checksum) => pool_read_step s i c size offset checksum
      | (FlushLock | FlushDrain _ | FlushDevs), Some FlushReq => pool_flush_step s i c
      | _, _ => Panicked
      end
  end.

(** The executor and the body of the task that [begin_write] spawns *)
Definition task_step (s : Pool) (f : nat) : Step Pool :=
  match p_tasks s !! f with
  | None => Blocked
  | Some t =>
      match task_status t with
      | Completed _ | Cancelled => Blocked
      | Spawned =>
          if handle_live s f then Blocked
          else Next (set_tasks s (<[f := set_status Cancelled t]> (p_tasks s)))
      | Started =>
          Next (set_tasks s
            (<[f := set_status (if handle_live s f then Running else Cancelled) t]> (p_tasks s)))
      | Running =>
          match at_offset (p_tiers s) (task_offset t)
                  (λ d, dev_write d (task_data t) (block_offset (task_offset t))) with
          | Some (r, ts) =>
              Next (set_tasks (set_tiers s ts) (<[f := set_status (Written r) t]> (p_tasks s)))
          | None => Panicked
          end
      | Written r =>
          Next (set_tasks (set_queue s (shift_remove (p_queue s) (task_offset t)))
                  (<[f := set_status (Completed r) t]> (p_tasks s)))
      end
  end.

Definition step (s : Pool) (l : Label) : Step Pool :=
  match l with LClient i => client_step s i | LTask f => task_step s f end.

(** A schedule; what is blocked is passed over. *)
Fixpoint run (s : Pool) (ls : list Label) : Step Pool :=
  match ls with
  | [] => Next s
  | l :: ls =>
      match step s l with
      | Next s => run s ls
      | Blocked => run s ls
      | Panicked => Panicked
      end
  end.

Definition pool_new (ts : list (StorageTier V)) (limit : nat) (progs : list (list Request)) : Pool :=
  mkPool ts [] [] false limit ((λ p, mkClient p [] Idle) <$> progs).

End machine.

