(* ===== verification/PoolCorrect.v ===== *)
(** * Correctness of the storage pool

    For every schedule of any number of clients: if the writes are to
    different places, each of which can hold its data, then nothing panics,
    writes succeed and a client reads what it wrote. *)

From Stdlib Require Import ZArith Lia String.
From stdpp Require Import base option list numbers.
From S2P Require Import Prelude.
From S2P Require Import Bytes.
From S2P Require Import Checksum.
From S2P Require Import Meta.
From S2P Require Import Disk.
From S2P Require Import DmuAlloc.
From S2P Require Import Vdev.
From S2P Require Import Buffer.
From S2P Require Import Parity.
From S2P Require Import ParityCorrect.
From S2P Require Import Device.
From S2P Require Import PoolConfig.
From S2P Require Import Pool.

Import DiskOffset(DiskOffset, storage_class, disk_id, block_offset).

(** ** The devices of the tiers *)

Section tiers.
Context `{Hck : !Checksum} {V : Type} `{Hv : !Vdev V} `{Hl : !VdevLaws}.
(** What to count on, for the devices of each tier *)
Context (view : nat → nat → View).

Definition dev_nm (ts : list (StorageTier V)) (n m : nat) : option V :=
  t ← ts !! n; tier_devs t !! m.

Definition class_of (o : DiskOffset) : nat := Z.to_nat (storage_class o).
Definition disk_of (o : DiskOffset) : nat := Z.to_nat (disk_id o).
Definition view_of (o : DiskOffset) : View := view (class_of o) (disk_of o).

Lemma dev_nm_set ts o d n m :
  dev_nm ts (class_of o) (disk_of o) ≠ None →
  dev_nm (set_dev ts o d) n m =
    if decide (n = class_of o ∧ m = disk_of o) then Some d else dev_nm ts n m.
Proof.
  unfold dev_nm, set_dev. fold (class_of o) (disk_of o). generalize (class_of o), (disk_of o).
  intros k l Hd. destruct (decide (n = k)) as [->|Hn].
  - rewrite list_lookup_alter_eq. destruct (ts !! k) as [t|]; [|done]. simpl in *.
    destruct (decide (m = l)) as [->|Hm].
    + rewrite decide_True by done. apply list_lookup_insert_eq.
      destruct (tier_devs t !! l) eqn:E2; [by eapply lookup_lt_Some|done].
    + rewrite decide_False by naive_solver. by rewrite list_lookup_insert_ne.
  - rewrite list_lookup_alter_ne by done. by rewrite decide_False by naive_solver.
Qed.

(** [by_offset] by the numbers of tier and disk *)
Lemma by_offset_nm ts o : by_offset ts o = dev_nm ts (class_of o) (disk_of o).
Proof. reflexivity. Qed.

#[local] Opaque class_of disk_of.

(** The device works on as before. *)
Definition dev_keeps (v : View) (d d' : V) : Prop :=
  dev_ok v d' ∧ (∀ o s, dev_request v d o s → dev_request v d' o s) ∧
  (∀ s, dev_actual_size d' s = dev_actual_size d s).

Definition keeps (ts ts' : list (StorageTier V)) : Prop :=
  ∀ n m, match dev_nm ts n m, dev_nm ts' n m with
         | Some d, Some d' => dev_keeps (view n m) d d'
         | None, None => True
         | _, _ => False
         end.

Definition devs_ok (ts : list (StorageTier V)) : Prop :=
  ∀ n m d, dev_nm ts n m = Some d → dev_ok (view n m) d.

Definition holds_at (ts : list (StorageTier V)) (o : DiskOffset) (data : bytes) : Prop :=
  ∃ d, by_offset ts o = Some d ∧ dev_holds (view_of o) d (block_offset o) data.

(** Data of [size] blocks at [o] *)
Definition fits_at (ts : list (StorageTier V)) (o : DiskOffset) (data : bytes) : Prop :=
  ∃ d size, by_offset ts o = Some d ∧ blen data = BLOCK_SIZE * size ∧
    dev_request (view_of o) d (block_offset o) size.

(** Different places, of which neither reaches into the other *)
Definition apart_at (ts : list (StorageTier V)) (o1 : DiskOffset) (data1 : bytes)
    (o2 : DiskOffset) (data2 : bytes) : Prop :=
  o1 ≠ o2 ∧
  (class_of o1 = class_of o2 → disk_of o1 = disk_of o2 → ∀ d, by_offset ts o1 = Some d →
    separate d (block_offset o1) (blen data1 / BLOCK_SIZE) (block_offset o2) (blen data2 / BLOCK_SIZE)).

Lemma keeps_fits ts ts' o data : keeps ts ts' → fits_at ts o data → fits_at ts' o data.
Proof.
  intros Hk (d & size & Hd & Hs & Hr). specialize (Hk (class_of o) (disk_of o)).
  rewrite by_offset_nm in Hd. rewrite Hd in Hk.
  destruct (dev_nm ts' (class_of o) (disk_of o)) as [d'|] eqn:E; [|done]. destruct Hk as (_ & Hq & _).
  exists d', size. split_and!; try done. by apply Hq.
Qed.

Lemma keeps_apart ts ts' o1 x1 o2 x2 : keeps ts ts' → apart_at ts o1 x1 o2 x2 → apart_at ts' o1 x1 o2 x2.
Proof.
  intros Hk [Hne Hs]. split; [done|]. intros Hc Hd d' Hd'. specialize (Hk (class_of o1) (disk_of o1)).
  rewrite by_offset_nm in Hd'. rewrite Hd' in Hk.
  destruct (dev_nm ts (class_of o1) (disk_of o1)) as [d|] eqn:E; [|done]. destruct Hk as (_ & _ & Ha).
  destruct (Hs Hc Hd d E) as (a1 & a2 & E1 & E2 & ?). exists a1, a2. by rewrite !Ha.
Qed.

Lemma keeps_ok ts ts' : keeps ts ts' → devs_ok ts'.
Proof.
  intros Hk n m d Hd. specialize (Hk n m). rewrite Hd in Hk.
  destruct (dev_nm ts n m); [by destruct Hk|done].
Qed.

(** A change of the device at [o]. *)
Lemma keeps_set ts o d d' :
  devs_ok ts → by_offset ts o = Some d → dev_keeps (view_of o) d d' → keeps ts (set_dev ts o d').
Proof.
  intros Hok Hd Hk n m. change (by_offset ts o) with (dev_nm ts (class_of o) (disk_of o)) in Hd.
  rewrite dev_nm_set by congruence. destruct (decide _) as [[-> ->]|Hne]; [by rewrite Hd|].
  destruct (dev_nm ts n m) as [x|] eqn:E; [|done]. split_and!; try done. by eapply Hok.
Qed.

Lemma holds_set ts o d d' o2 x :
  by_offset ts o = Some d → holds_at ts o2 x →
  (class_of o2 = class_of o → disk_of o2 = disk_of o →
    dev_holds (view_of o) d (block_offset o2) x → dev_holds (view_of o) d' (block_offset o2) x) →
  holds_at (set_dev ts o d') o2 x.
Proof.
  intros Hd (d2 & Hd2 & Hh) Hsame.
  rewrite by_offset_nm in Hd.
  rewrite by_offset_nm in Hd2.
  unfold holds_at. rewrite by_offset_nm, dev_nm_set by congruence. destruct (decide _) as [[Ec Ed]|Hne]; [|by exists d2].
  exists d'. split; [done|]. rewrite Ec, Ed in Hd2. simplify_eq. unfold view_of in *.
  rewrite Ec, Ed in Hh |- *. by apply Hsame.
Qed.

(** *** The requests of the pool *)

Lemma write_at ts o data :
  devs_ok ts → fits_at ts o data →
  ∃ ts', at_offset ts o (λ d, dev_write d data (block_offset o)) = Some (inl tt, ts') ∧
    keeps ts ts' ∧ holds_at ts' o data ∧
    ∀ o2 x, fits_at ts o2 x → apart_at ts o data o2 x → holds_at ts o2 x → holds_at ts' o2 x.
Proof using Hl.
  intros Hok (d & size & Hd & Hs & Hr). unfold at_offset. rewrite Hd. cbn [mbind option_bind].
  destruct (dev_write_ok (view_of o) d (block_offset o) size data) as (d' & Hw & Hok' & Hh & Hq & Ha & Hk);
    [by eapply Hok|done|done|]. rewrite Hw. cbn [mbind option_bind].
  exists (set_dev ts o d'). split_and!; [done|by eapply keeps_set| |].
  - exists d'. split; [|done]. rewrite by_offset_nm, dev_nm_set, decide_True; [done..|].
    by rewrite <- by_offset_nm, Hd.
  - intros o2 x (d2 & s2 & Hd2 & Hs2 & Hr2) [Hne Hsep] Hh2. eapply holds_set; [done|done|].
    intros Ec Ed. unfold view_of in Hr2. rewrite Ec, Ed in Hr2.
    rewrite by_offset_nm in Hd2. rewrite Ec, Ed in Hd2.
    change (dev_nm ts (class_of o) (disk_of o)) with (by_offset ts o) in Hd2. simplify_eq.
    apply (Hk _ s2); try done. specialize (Hsep (eq_sym Ec) (eq_sym Ed) d Hd).
    rewrite Hs, Hs2, !(Z.mul_comm BLOCK_SIZE), !Z.div_mul in Hsep by done. done.
Qed.

Lemma read_at ts o data size ck :
  devs_ok ts → fits_at ts o data → blen data = BLOCK_SIZE * size → holds_at ts o data →
  csum_verify ck data = true →
  (∀ x, blen x = BLOCK_SIZE * size → csum_verify ck x = true → x = data) →
  ∃ ts', at_offset ts o (λ d, dev_read d size (block_offset o) ck) = Some (inl data, ts') ∧
    keeps ts ts' ∧ ∀ o2 x, holds_at ts o2 x → holds_at ts' o2 x.
Proof using Hl.
  intros Hok (d & size' & Hd & Hs' & Hr) Hs (d2 & Hd2 & Hh) Hver Huniq. rewrite Hd in Hd2.
  injection Hd2 as <-. assert (size' = size) as -> by (unfold BLOCK_SIZE in *; lia).
  unfold at_offset. rewrite Hd. cbn [mbind option_bind].
  destruct (dev_read_ok (view_of o) d (block_offset o) size data ck) as (d' & Hw & Hok' & Hq & Ha & Hk);
    try done; [by eapply Hok|]. rewrite Hw. cbn [mbind option_bind].
  exists (set_dev ts o d'). split_and!; [done|by eapply keeps_set|].
  intros o2 x Hh2. eapply holds_set; [done|done|]. intros _ _. apply Hk.
Qed.

(** *** Flushing *)

(** Devices that are kept, with what they hold. *)
Definition flushed (v : nat → View) (ds ds' : list V) : Prop :=
  ∀ m, match ds !! m, ds' !! m with
       | Some d, Some d' => dev_keeps (v m) d d' ∧ ∀ o x, dev_holds (v m) d o x → dev_holds (v m) d' o x
       | None, None => True
       | _, _ => False
       end.

Lemma flushed_refl v ds : (∀ m d, ds !! m = Some d → dev_ok (v m) d) → flushed v ds ds.
Proof. intros Hok m. destruct (ds !! m) eqn:E; [|done]. split; [|done]. split_and!; try done. by eapply Hok. Qed.

Lemma flush_list (v : nat → View) ds :
  (∀ m d, ds !! m = Some d → dev_ok (v m) d) →
  ∃ r ds', try_each dev_flush ds = Some (r, ds') ∧ flushed v ds ds'.
Proof using Hl.
  revert v. induction ds as [|d ds IH]; intros v Hok; [by exists (inl tt), []|]. simpl.
  destruct (dev_flush_ok (v 0%nat) d (Hok 0%nat d eq_refl)) as (r & d' & -> & Hd' & Hq & Ha & Hh).
  cbn [mbind option_bind]. assert (∀ ds', flushed (λ m, v (S m)) ds ds' → flushed v (d :: ds) (d' :: ds')) as Hc.
  { intros ds' Hf [|m]; [by repeat split|]. apply (Hf m). }
  destruct r as [[]|e].
  - destruct (IH (λ m, v (S m))) as (r & ds' & -> & Hf); [intros m x Hx; by apply (Hok (S m))|].
    cbn [mbind option_bind]. eexists _, _. split; [done|auto].
  - eexists _, _. split; [done|]. apply Hc, flushed_refl. intros m x Hx. by apply (Hok (S m)).
Qed.

Definition flushed_tiers (vw : nat → nat → View) (ts ts' : list (StorageTier V)) : Prop :=
  ∀ n, match ts !! n, ts' !! n with
       | Some t, Some t' => flushed (vw n) (tier_devs t) (tier_devs t')
       | None, None => True
       | _, _ => False
       end.

Lemma flush_tiers (vw : nat → nat → View) ts :
  (∀ n m d, dev_nm ts n m = Some d → dev_ok (vw n m) d) →
  ∃ r ts', flush_devs ts = Some (r, ts') ∧ flushed_tiers vw ts ts'.
Proof using Hl.
  unfold flush_devs. revert vw. induction ts as [|t ts IH]; intros vw Hok; [by exists (inl tt), []|].
  cbn [each_tier]. destruct (flush_list (vw 0%nat) (tier_devs t)) as (r & ds & -> & Hf).
  { intros m d Hd. by apply (Hok 0%nat m d). }
  assert (∀ n m d, dev_nm ts n m = Some d → dev_ok (vw (S n) m) d) as Hok'.
  { intros n m d Hd. by apply (Hok (S n) m d). }
  cbn [mbind option_bind]. destruct r as [a|e].
  - destruct (IH (λ n, vw (S n)) Hok') as (r & ts' & -> & Hts). cbn [mbind option_bind].
    eexists _, _. split; [done|]. intros [|n]; [done|apply (Hts n)].
  - eexists _, _. split; [done|]. intros [|n]; [done|]. simpl. destruct (ts !! n) as [t'|] eqn:E; [|done].
    apply flushed_refl. intros m d Hd. apply (Hok' n). unfold dev_nm. by rewrite E.
Qed.

Lemma flush_at ts :
  devs_ok ts → ∃ r ts', flush_devs ts = Some (r, ts') ∧ keeps ts ts' ∧
    ∀ o x, holds_at ts o x → holds_at ts' o x.
Proof using Hl.
  intros Hok. destruct (flush_tiers view ts Hok) as (r & ts' & Hf & Hts). exists r, ts'.
  assert (∀ n m, match dev_nm ts n m, dev_nm ts' n m with
    | Some d, Some d' => dev_keeps (view n m) d d' ∧ ∀ o x, dev_holds (view n m) d o x → dev_holds (view n m) d' o x
    | None, None => True | _, _ => False end) as Hnm.
  { intros n m. unfold dev_nm. specialize (Hts n).
    destruct (ts !! n) as [t|], (ts' !! n) as [t'|]; try done. apply (Hts m). }
  split_and!; [done| |].
  - intros n m. specialize (Hnm n m). destruct (dev_nm ts n m), (dev_nm ts' n m); try done. apply Hnm.
  - intros o x (d & Hd & Hh). specialize (Hnm (class_of o) (disk_of o)). rewrite <- !by_offset_nm, Hd in Hnm.
    destruct (by_offset ts' o) as [d'|] eqn:E; [|done]. exists d'. split; [done|]. by apply Hnm.
Qed.

End tiers.

(** ** The invariant *)

Section invariant.
Context `{Hck : !Checksum} {V : Type} `{Hv : !Vdev V} `{Hl : !VdevLaws}.
Context (view : nat → nat → View) (progs : list (list Request)).

Definition prog_at (c i : nat) : option Request := progs !! c ≫= (.!! i).

(** The data that a read of client [c] returns: that of its last write
    there. *)
Definition wrote_before (c i : nat) (o : DiskOffset) (data : bytes) : Prop :=
  ∃ j, (j < i)%nat ∧ prog_at c j = Some (WriteReq data o).

(** What is asked of the programs of the clients *)
Definition reads_own : Prop :=
  ∀ c i size o ck, prog_at c i = Some (ReadReq size o ck) →
    ∃ data, wrote_before c i o data ∧ blen data = BLOCK_SIZE * size ∧ csum_verify ck data = true ∧
      ∀ x, blen x = BLOCK_SIZE * size → csum_verify ck x = true → x = data.

Definition writes_fit (ts : list (StorageTier V)) : Prop :=
  devs_ok view ts ∧
  (∀ c i data o, prog_at c i = Some (WriteReq data o) → fits_at view ts o data) ∧
  (∀ c i data o c' i' data' o', prog_at c i = Some (WriteReq data o) →
    prog_at c' i' = Some (WriteReq data' o') → (c, i) ≠ (c', i') → apart_at ts o data o' data').

Lemma keeps_writes ts ts' : keeps view ts ts' → writes_fit ts → writes_fit ts'.
Proof.
  intros Hk (_ & Hf & Ha). split_and!.
  - by eapply keeps_ok.
  - intros. eapply keeps_fits; [done|]. by eapply Hf.
  - intros. eapply keeps_apart; [done|]. by eapply Ha.
Qed.

(** *** Tasks *)

Definition completed_at (tasks : list Task) (o : DiskOffset) : Prop :=
  ∃ f t r, tasks !! f = Some t ∧ task_offset t = o ∧ task_status t = Completed r.

Definition is_task (tasks : list Task) (f : nat) (o : DiskOffset) : Prop :=
  ∃ t, tasks !! f = Some t ∧ task_offset t = o.

(** The task that a client in [begin_write] has spawned, and whether it is in
    the queue yet *)
Definition pc_task (p : Pc) : option nat :=
  match p with
  | EnqLock f | EnqWait f _ | EnqInsert f | EnqCheck f | EnqDrain f _ | EnqDone f _ => Some f
  | _ => None
  end.

Definition pc_inserted (p : Pc) : bool :=
  match p with EnqCheck _ | EnqDrain _ _ | EnqDone _ _ => true | _ => false end.

Definition drain_ok (tasks : list Task) (d : DrainPc) : Prop :=
  match d with
  | DLen | DPeek => True
  | DOn k f => is_task tasks f k
  | DDrop k r => r = inl tt ∧ completed_at tasks k
  end.

Definition wait_ok (tasks : list Task) (o : DiskOffset) (w : WaitPc) : Prop :=
  match w with
  | WGet => True
  | WOn f => is_task tasks f o
  | WDrop r => r = inl tt ∧ completed_at tasks o
  end.

(** What is so where a client is, by its request *)
Definition pc_ok (tasks : list Task) (q : Queue) (c : nat) (cl : Client) : Prop :=
  match pc cl, requests cl !! length (answers cl) with
  | Idle, _ => True
  | (EnqLock f | EnqWait f _ | EnqInsert f | EnqCheck f | EnqDrain f _ | EnqDone f _) as p,
    Some (WriteReq data o) =>
      tasks !! f = Some (mkTask data o Spawned (c, length (answers cl))) ∧
      (if pc_inserted p then (o, f) ∈ q else ∀ k, (k, f) ∉ q) ∧
      match p with
      | EnqWait _ w => w = WGet
      | EnqDrain _ d => drain_ok tasks d
      | EnqDone _ r => r = inl tt
      | _ => True
      end
  | ReadWait w, Some (ReadReq _ o _) => wait_ok tasks o w
  | ReadDev, Some (ReadReq _ o _) => completed_at tasks o
  | FlushDrain d, Some FlushReq => drain_ok tasks d
  | (FlushLock | FlushDevs), Some FlushReq => True
  | _, _ => False
  end.

(** The answers a client got *)
Definition answers_ok (tasks : list Task) (c : nat) (cl : Client) : Prop :=
  ∀ i, (i < length (answers cl))%nat →
    match prog_at c i with
    | Some (WriteReq data o) =>
        answers cl !! i = Some (Wrote (inl tt)) ∧
        ∃ f t, tasks !! f = Some t ∧ task_data t = data ∧ task_offset t = o ∧
          task_from t = (c, i) ∧ task_status t ≠ Spawned
    | Some (ReadReq _ o _) => ∃ data, wrote_before c i o data ∧ answers cl !! i = Some (Got (inl data))
    | Some FlushReq => ∃ r, answers cl !! i = Some (Flushed r)
    | None => False
    end.

Definition status_ok (ts : list (StorageTier V)) (q : Queue) (f : nat) (t : Task) : Prop :=
  match task_status t with
  | Spawned => True
  | Started | Running => (task_offset t, f) ∈ q
  | Written r => r = inl tt ∧ (task_offset t, f) ∈ q ∧ holds_at view ts (task_offset t) (task_data t)
  | Completed r => r = inl tt ∧ holds_at view ts (task_offset t) (task_data t)
  | Cancelled => False
  end.

Definition from_ok (clients : list Client) (f : nat) (t : Task) : Prop :=
  prog_at (task_from t).1 (task_from t).2 = Some (WriteReq (task_data t) (task_offset t)) ∧
  ∃ cl, clients !! (task_from t).1 = Some cl ∧
    ((task_from t).2 < length (answers cl) ∨
     (task_from t).2 = length (answers cl) ∧ pc_task (pc cl) = Some f)%nat.

Record Inv (s : Pool (V := V)) : Prop := {
  inv_fit : writes_fit (p_tiers s);
  inv_progs : ∀ c cl, p_clients s !! c = Some cl → progs !! c = Some (requests cl);
  inv_answers : ∀ c cl, p_clients s !! c = Some cl → answers_ok (p_tasks s) c cl;
  inv_pc : ∀ c cl, p_clients s !! c = Some cl → pc_ok (p_tasks s) (p_queue s) c cl;
  inv_from : ∀ f t, p_tasks s !! f = Some t → from_ok (p_clients s) f t;
  inv_unique : ∀ f t f' t', p_tasks s !! f = Some t → p_tasks s !! f' = Some t' →
    task_from t = task_from t' → f = f';
  inv_status : ∀ f t, p_tasks s !! f = Some t → status_ok (p_tiers s) (p_queue s) f t;
  inv_queue : ∀ k f, (k, f) ∈ p_queue s →
    ∃ t, p_tasks s !! f = Some t ∧ task_offset t = k ∧ ∀ r, task_status t ≠ Completed r;
}.

(** *** Lookups *)

Lemma queue_get_in q k f : queue_get q k = Some f → (k, f) ∈ q.
Proof.
  induction q as [|[k' f'] q IH]; simpl; [done|]. case_decide; intros E; simplify_eq; set_solver.
Qed.

Lemma queue_get_none q k : (∀ f, (k, f) ∉ q) → queue_get q k = None.
Proof. intros Hn. destruct (queue_get q k) as [f|] eqn:E; [|done]. by apply queue_get_in, Hn in E. Qed.

Lemma queue_get_absent q k f : queue_get q k = None → (k, f) ∉ q.
Proof.
  induction q as [|[k' f'] q IH]; simpl; [set_solver|]. case_decide; [done|]. set_solver.
Qed.

Lemma shift_remove_in q k e : e ∈ shift_remove q k ↔ e ∈ q ∧ e.1 ≠ k.
Proof. unfold shift_remove. rewrite list_elem_of_filter. tauto. Qed.

Lemma shift_remove_absent q k : (∀ f, (k, f) ∉ q) → shift_remove q k = q.
Proof.
  unfold shift_remove. induction q as [|[k' f'] q IH]; intros Hn; [done|].
  rewrite filter_cons_True; [f_equal; apply IH; set_solver|]. simpl. intros ->. apply (Hn f'). set_solver.
Qed.

Lemma client_set (s : Pool (V := V)) c cl i x :
  p_clients (set_client s c cl) !! i = Some x →
  (i = c ∧ x = cl) ∨ (i ≠ c ∧ p_clients s !! i = Some x).
Proof. simpl. intros [(-> & -> & _)|(? & ?)]%list_lookup_insert_Some; auto. Qed.

Section step.
Context (s : Pool (V := V)) (HI : Inv s).

Lemma offset_unique f t f' t' :
  p_tasks s !! f = Some t → p_tasks s !! f' = Some t' → task_offset t = task_offset t' → f = f'.
Proof using HI.
  intros Hf Hf' E. destruct (decide (task_from t = task_from t')) as [|Hne]; [by eapply (inv_unique s HI)|].
  destruct (inv_from s HI f t Hf) as [Hp _]. destruct (inv_from s HI f' t' Hf') as [Hp' _].
  destruct (inv_fit s HI) as (_ & _ & Ha).
  destruct (Ha _ _ _ _ _ _ _ _ Hp Hp') as [Ho _]; [by destruct (task_from t), (task_from t')|done].
Qed.

Lemma completed_not_queued k f : completed_at (p_tasks s) k → (k, f) ∉ p_queue s.
Proof using HI.
  intros (g & t & r & Hg & Ho & Hr) Hin. destruct (inv_queue s HI k f Hin) as (t' & Hf & Ho' & Hn).
  assert (g = f) as -> by (eapply offset_unique; [done|done|congruence]). simplify_eq. by eapply Hn.
Qed.

(** To remove the key of a write that is done changes nothing. *)
Lemma remove_completed k : completed_at (p_tasks s) k → set_queue s (shift_remove (p_queue s) k) = s.
Proof using HI.
  intros Hc. assert (shift_remove (p_queue s) k = p_queue s) as ->.
  { apply shift_remove_absent. intros f. by apply completed_not_queued. }
  by destruct s.
Qed.

Lemma poll_completed f r : poll s f = Some r → ∀ o, is_task (p_tasks s) f o → r = inl tt ∧ completed_at (p_tasks s) o.
Proof using HI.
  unfold poll. intros Hp o (t & Ht & Ho). rewrite Ht in Hp. simpl in Hp.
  destruct (task_status t) as [| | | |r'|] eqn:E; simplify_eq.
  pose proof (inv_status s HI f t Ht) as Hs. unfold status_ok in Hs. rewrite E in Hs.
  split; [by destruct Hs|]. by exists f, t, r.
Qed.

Lemma wait_step_ok o w :
  wait_ok (p_tasks s) o w →
  match wait_step s o w with
  | Blocked => True
  | Panicked => False
  | Next (s', inl w') => s' = s ∧ wait_ok (p_tasks s) o w'
  | Next (s', inr r) => s' = s ∧ r = inl tt ∧
      (completed_at (p_tasks s) o ∨ queue_get (p_queue s) o = None)
  end.
Proof using HI.
  intros Hw. destruct w as [|f|r]; simpl in *.
  - destruct (queue_get (p_queue s) o) as [f|] eqn:E; [|by auto]. split; [done|].
    apply queue_get_in in E. destruct (inv_queue s HI o f E) as (t & ? & ? & _). by exists t.
  - destruct (poll s f) as [r|] eqn:E; [|done]. split; [done|]. by eapply poll_completed.
  - destruct Hw as [-> Hc]. rewrite remove_completed by done. auto.
Qed.

Lemma drain_step_ok lim d :
  drain_ok (p_tasks s) d →
  match drain_step s lim d with
  | Blocked => True
  | Panicked => False
  | Next (s', inl d') => s' = s ∧ drain_ok (p_tasks s) d'
  | Next (s', inr r) => s' = s ∧ r = inl tt
  end.
Proof using HI.
  intros Hd. destruct d as [| |k f|k r]; simpl in *.
  - by destruct (_ <? _)%nat.
  - destruct (p_queue s) as [|[k f] q] eqn:E; [done|]. split; [done|]. simpl.
    destruct (inv_queue s HI k f) as (t & ? & ? & _); [rewrite E; set_solver|]. by exists t.
  - destruct (poll s f) as [r|] eqn:E; [|done]. split; [done|]. by eapply poll_completed.
  - destruct Hd as [-> Hc]. by rewrite remove_completed.
Qed.

(** The task of a client in [begin_write] *)
Lemma own_task c cl f :
  p_clients s !! c = Some cl → pc_task (pc cl) = Some f →
  ∃ data o, requests cl !! length (answers cl) = Some (WriteReq data o) ∧
    p_tasks s !! f = Some (mkTask data o Spawned (c, length (answers cl))).
Proof using HI.
  intros Hc Hp. pose proof (inv_pc s HI c cl Hc) as Hok. unfold pc_ok in Hok.
  destruct (pc cl); simplify_eq/=;
    (destruct (requests cl !! length (answers cl)) as [[data o|?|]|]; try done);
    destruct Hok as [Ht _]; eauto.
Qed.

(** *** Steps of a client that change only where it is *)

Lemma goto_ok c cl p :
  p_clients s !! c = Some cl → pc_task (pc cl) = None ∨ pc_task p = pc_task (pc cl) →
  pc_ok (p_tasks s) (p_queue s) c (goto cl p) → Inv (set_client s c (goto cl p)).
Proof using HI.
  intros Hc Ht Hp. split; simpl.
  - apply (inv_fit s HI).
  - intros i x [[-> ->]|[Hne Hx]]%client_set; [by apply (inv_progs s HI c cl)|by apply (inv_progs s HI)].
  - intros i x [[-> ->]|[Hne Hx]]%client_set; [by apply (inv_answers s HI c cl)|by apply (inv_answers s HI)].
  - intros i x [[-> ->]|[Hne Hx]]%client_set; [done|by apply (inv_pc s HI)].
  - intros f t Hf. destruct (inv_from s HI f t Hf) as [Hprog (x & Hx & Hlt)]. split; [done|].
    destruct (decide ((task_from t).1 = c)) as [E|Hne].
    + rewrite E in Hx |- *. rewrite Hc in Hx. injection Hx as <-. exists (goto cl p).
      rewrite list_lookup_insert_eq by (by eapply lookup_lt_Some). split; [done|].
      destruct Hlt as [?|[? Hpc]]; [by left|right]. simpl. split; [done|]. destruct Ht; congruence.
    + exists x. by rewrite list_lookup_insert_ne.
  - apply (inv_unique s HI).
  - apply (inv_status s HI).
  - apply (inv_queue s HI).
Qed.

Lemma lock_ok b : Inv (set_lock s b).
Proof using HI. by destruct HI. Qed.

End step.

(** *** Steps that change the tasks *)

(** Tasks go on, and there may be new ones. *)
Definition evolve (tasks tasks' : list Task) : Prop :=
  ∀ f t, tasks !! f = Some t → ∃ t', tasks' !! f = Some t' ∧ task_offset t' = task_offset t ∧
    task_data t' = task_data t ∧ task_from t' = task_from t ∧
    (task_status t ≠ Spawned → task_status t' ≠ Spawned) ∧
    (∀ r, task_status t = Completed r → task_status t' = Completed r).

Lemma evolve_refl tasks : evolve tasks tasks.
Proof. intros f t Hf. by exists t. Qed.

Lemma evolve_app tasks t : evolve tasks (tasks ++ [t]).
Proof. intros f x Hf. exists x. split; [by apply lookup_app_l_Some|done]. Qed.

Lemma evolve_status tasks f t st :
  tasks !! f = Some t → st ≠ Spawned → (∀ r, task_status t ≠ Completed r) →
  evolve tasks (<[f := set_status st t]> tasks).
Proof.
  intros Hf Hst Hn g x Hg. destruct (decide (g = f)) as [->|Hne].
  - rewrite list_lookup_insert_eq by (by eapply lookup_lt_Some).
    rewrite Hf in Hg. injection Hg as <-. exists (set_status st t).
    split_and!; try done. intros r E. by apply Hn in E.
  - rewrite list_lookup_insert_ne by done. by exists x.
Qed.

Lemma evolve_is_task tasks tasks' f o : evolve tasks tasks' → is_task tasks f o → is_task tasks' f o.
Proof. intros He (t & Ht & Ho). destruct (He f t Ht) as (t' & ? & ? & _). exists t'. by split; [|congruence]. Qed.

Lemma evolve_completed tasks tasks' o : evolve tasks tasks' → completed_at tasks o → completed_at tasks' o.
Proof.
  intros He (f & t & r & Ht & Ho & Hr). destruct (He f t Ht) as (t' & ? & ? & _ & _ & _ & Hc).
  exists f, t', r. split_and!; [done|congruence|auto].
Qed.

Lemma evolve_drain tasks tasks' d : evolve tasks tasks' → drain_ok tasks d → drain_ok tasks' d.
Proof.
  intros He. destruct d; simpl; try done; [by apply evolve_is_task|].
  intros [-> ?]. split; [done|by eapply evolve_completed].
Qed.

Lemma evolve_wait tasks tasks' o w : evolve tasks tasks' → wait_ok tasks o w → wait_ok tasks' o w.
Proof.
  intros He. destruct w; simpl; try done; [by apply evolve_is_task|].
  intros [-> ?]. split; [done|by eapply evolve_completed].
Qed.

Lemma evolve_answers tasks tasks' c cl : evolve tasks tasks' → answers_ok tasks c cl → answers_ok tasks' c cl.
Proof.
  intros He Ha i Hi. specialize (Ha i Hi). destruct (prog_at c i) as [[data o|?|]|]; try done.
  destruct Ha as [? (f & t & Ht & Hd & Ho & Hf & Hs)]. split; [done|].
  destruct (He f t Ht) as (t' & ? & ? & ? & ? & ? & _). exists f, t'. split_and!; try congruence; auto.
Qed.

Lemma evolve_pc tasks tasks' q q' c cl :
  evolve tasks tasks' →
  (∀ f, pc_task (pc cl) = Some f → tasks' !! f = tasks !! f ∧ ∀ k, (k, f) ∈ q' ↔ (k, f) ∈ q) →
  pc_ok tasks q c cl → pc_ok tasks' q' c cl.
Proof.
  intros He Hown. unfold pc_ok.
  assert (∀ f data o, pc_task (pc cl) = Some f →
    tasks !! f = Some (mkTask data o Spawned (c, length (answers cl))) ∧
      (if pc_inserted (pc cl) then (o, f) ∈ q else ∀ k, (k, f) ∉ q) →
    tasks' !! f = Some (mkTask data o Spawned (c, length (answers cl))) ∧
      (if pc_inserted (pc cl) then (o, f) ∈ q' else ∀ k, (k, f) ∉ q')) as Hw.
  { intros f data o Hf [Ht Hin]. destruct (Hown f Hf) as [-> Hq]. split; [done|].
    destruct (pc_inserted (pc cl)); [by apply Hq|]. intros k Hk. by eapply Hin, Hq. }
  pose proof (evolve_drain tasks tasks') as Hd. pose proof (evolve_wait tasks tasks') as Hwt.
  pose proof (evolve_completed tasks tasks') as Hcp.
  destruct (pc cl) eqn:Ep; simpl in Hw |- *;
    destruct (requests cl !! length (answers cl)) as [[data o|size o ck|]|]; try done; eauto;
    intros (Ht & Hin & Hr); destruct (Hw _ _ _ eq_refl (conj Ht Hin)); eauto.
Qed.

(** The status of a task where the data of its offset and its place in the
    queue are as before *)
Lemma status_kept ts ts' (q q' : Queue) f t :
  (holds_at view ts (task_offset t) (task_data t) → holds_at view ts' (task_offset t) (task_data t)) →
  ((task_offset t, f) ∈ q → (task_offset t, f) ∈ q') → status_ok ts q f t → status_ok ts' q' f t.
Proof.
  intros Hh Hq. unfold status_ok. destruct (task_status t); naive_solver.
Qed.

(** A client starts a write. *)
Lemma spawn_ok s c cl data o :
  Inv s → p_clients s !! c = Some cl → pc cl = Idle →
  requests cl !! length (answers cl) = Some (WriteReq data o) →
  Inv (set_client (set_tasks s (p_tasks s ++ [mkTask data o Spawned (c, length (answers cl))])) c
    (goto cl (EnqLock (length (p_tasks s))))).
Proof.
  intros HI Hc Hp Hr. set (t := mkTask data o Spawned (c, length (answers cl))).
  set (n := length (p_tasks s)). pose proof (evolve_app (p_tasks s) t) as He.
  assert (∀ f x, (p_tasks s ++ [t]) !! f = Some x → p_tasks s !! f = Some x ∨ f = n ∧ x = t) as Hcase.
  { intros f x [?|[? Hx]]%lookup_app_Some; [by left|right]. apply list_lookup_singleton_Some in Hx as [? <-].
    unfold n. split; [lia|done]. }
  assert (∀ f x, p_tasks s !! f = Some x → task_from x ≠ (c, length (answers cl))) as Hnew.
  { intros f x Hx E. destruct (inv_from s HI f x Hx) as [_ (cl' & Hcl & Hlt)]. rewrite E in Hcl, Hlt.
    simpl in *. rewrite Hc in Hcl. injection Hcl as <-. rewrite Hp in Hlt. destruct Hlt as [?|[_ ?]]; [lia|done]. }
  split; simpl.
  - apply (inv_fit s HI).
  - intros i x [[-> ->]|[Hne Hx]]%client_set; [by apply (inv_progs s HI c cl)|by apply (inv_progs s HI)].
  - intros i x [[-> ->]|[Hne Hx]]%client_set; (eapply evolve_answers; [done|]);
      [by apply (inv_answers s HI c cl)|by apply (inv_answers s HI)].
  - intros i x [[-> ->]|[Hne Hx]]%client_set.
    + unfold pc_ok. simpl. rewrite Hr. split_and!; [by apply list_lookup_middle| |done].
      intros k Hk. destruct (inv_queue s HI k _ Hk) as (t' & Ht' & _).
      apply lookup_lt_Some in Ht'. lia.
    + eapply evolve_pc; [done| |by apply (inv_pc s HI)]. intros f Hf.
      destruct (own_task s HI i x f Hx Hf) as (? & ? & _ & Ht). rewrite Ht. by rewrite (lookup_app_l_Some _ _ _ _ Ht).
  - intros f x [Hx|[-> ->]]%Hcase.
    + destruct (inv_from s HI f x Hx) as [Hprog (cl' & Hcl & Hlt)]. split; [done|].
      destruct (decide ((task_from x).1 = c)) as [E|Hne].
      * rewrite E in Hcl |- *. rewrite Hc in Hcl. injection Hcl as <-. rewrite Hp in Hlt.
        destruct Hlt as [?|[_ ?]]; [|done]. eexists.
        rewrite list_lookup_insert_eq by (by eapply lookup_lt_Some). split; [done|by left].
      * exists cl'. by rewrite list_lookup_insert_ne.
    + split; [unfold prog_at; simpl; by rewrite (inv_progs s HI c cl Hc)|]. eexists. simpl.
      rewrite list_lookup_insert_eq by (by eapply lookup_lt_Some). split; [done|by right].
  - intros f x f' x' [Hx|[-> ->]]%Hcase [Hx'|[-> ->]]%Hcase E; try done.
    + by eapply (inv_unique s HI).
    + by apply Hnew in Hx.
    + symmetry in E. by apply Hnew in Hx'.
  - intros f x [Hx|[-> ->]]%Hcase; [by apply (inv_status s HI)|done].
  - intros k f Hk. destruct (inv_queue s HI k f Hk) as (t' & Ht' & ?). exists t'.
    split; [by apply lookup_app_l_Some|done].
Qed.

(** A client puts its task into the queue. *)
Lemma insert_ok s c cl data o f :
  Inv s → p_clients s !! c = Some cl → pc cl = EnqInsert f →
  requests cl !! length (answers cl) = Some (WriteReq data o) →
  Inv (set_client (set_lock (set_queue s (p_queue s ++ [(o, f)])) false) c (goto cl (EnqCheck f))).
Proof.
  intros HI Hc Hp Hr. pose proof (inv_pc s HI c cl Hc) as Hok. unfold pc_ok in Hok. rewrite Hp, Hr in Hok.
  destruct Hok as (Ht & Hnq & _). split; simpl.
  - apply (inv_fit s HI).
  - intros i x [[-> ->]|[Hne Hx]]%client_set; [by apply (inv_progs s HI c cl)|by apply (inv_progs s HI)].
  - intros i x [[-> ->]|[Hne Hx]]%client_set; [by apply (inv_answers s HI c cl)|by apply (inv_answers s HI)].
  - intros i x [[-> ->]|[Hne Hx]]%client_set.
    + unfold pc_ok. simpl. rewrite Hr. split_and!; [done|set_solver|done].
    + eapply evolve_pc; [apply evolve_refl| |by apply (inv_pc s HI)]. intros g Hg. split; [done|].
      intros k. rewrite elem_of_app, list_elem_of_singleton. split; [|by left]. intros [?|E]; [done|].
      destruct (own_task s HI i x g Hx Hg) as (? & ? & _ & Hgt). simplify_eq.
  - intros g x Hx. destruct (inv_from s HI g x Hx) as [Hprog (cl' & Hcl & Hlt)]. split; [done|].
    destruct (decide ((task_from x).1 = c)) as [E|Hne].
    + rewrite E in Hcl |- *. rewrite Hc in Hcl. injection Hcl as <-. rewrite Hp in Hlt. eexists.
      rewrite list_lookup_insert_eq by (by eapply lookup_lt_Some). split; [done|]. done.
    + exists cl'. by rewrite list_lookup_insert_ne.
  - apply (inv_unique s HI).
  - intros g x Hx. eapply status_kept; [done| |by apply (inv_status s HI)]. set_solver.
  - intros k g. rewrite elem_of_app, list_elem_of_singleton. intros [Hk|[= -> ->]]; [by apply (inv_queue s HI)|].
    by eexists.
Qed.

(** A client gets an answer. *)
Lemma answer_ok s ts' tasks' c cl a :
  Inv s → p_clients s !! c = Some cl → keeps view (p_tiers s) ts' →
  evolve (p_tasks s) tasks' → length tasks' = length (p_tasks s) →
  (∀ f t, tasks' !! f = Some t → status_ok ts' (p_queue s) f t) →
  (∀ i x f, i ≠ c → p_clients s !! i = Some x → pc_task (pc x) = Some f → tasks' !! f = p_tasks s !! f) →
  answers_ok tasks' c (answer cl a) →
  (∀ k f t, (k, f) ∈ p_queue s → tasks' !! f = Some t → ∀ r, task_status t ≠ Completed r) →
  Inv (mkPool ts' (p_queue s) tasks' (p_flush_lock s) (p_limit s) (<[c := answer cl a]> (p_clients s))).
Proof.
  intros HI Hc Hk He Hlen Hst Hown Hans Hq.
  assert (∀ f t, tasks' !! f = Some t → ∃ t0, p_tasks s !! f = Some t0 ∧ task_offset t = task_offset t0 ∧
    task_data t = task_data t0 ∧ task_from t = task_from t0) as Hold.
  { intros f t Hf. destruct (lookup_lt_is_Some_2 (p_tasks s) f) as [t0 Ht0].
    { rewrite <- Hlen. by eapply lookup_lt_Some. }
    destruct (He f t0 Ht0) as (t' & Ht' & ? & ? & ? & _). rewrite Hf in Ht'. injection Ht' as <-. by exists t0. }
  split; simpl.
  - eapply keeps_writes; [done|]. apply (inv_fit s HI).
  - intros i x [[-> ->]|[Hne Hx]]%(client_set s); [by apply (inv_progs s HI c cl)|by apply (inv_progs s HI)].
  - intros i x [[-> ->]|[Hne Hx]]%(client_set s); [done|]. eapply evolve_answers; [done|].
    by apply (inv_answers s HI).
  - intros i x [[-> ->]|[Hne Hx]]%(client_set s); [done|].
    eapply evolve_pc; [done| |by apply (inv_pc s HI)]. intros f Hf. split; [by eapply Hown|done].
  - intros f t Hf. destruct (Hold f t Hf) as (t0 & Ht0 & Eo & Ed & Ef). unfold from_ok. rewrite Eo, Ed, Ef.
    destruct (inv_from s HI f t0 Ht0) as [Hprog (cl' & Hcl & Hlt)]. split; [done|].
    destruct (decide ((task_from t0).1 = c)) as [E|Hne].
    + rewrite E in Hcl |- *. rewrite Hc in Hcl. injection Hcl as <-. eexists.
      rewrite list_lookup_insert_eq by (by eapply lookup_lt_Some). split; [done|]. left. simpl.
      rewrite length_app. simpl. destruct Hlt as [?|[? _]]; lia.
    + exists cl'. by rewrite list_lookup_insert_ne.
  - intros f t f' t' Hf Hf' E. destruct (Hold f t Hf) as (t0 & Ht0 & _ & _ & Ef).
    destruct (Hold f' t' Hf') as (t0' & Ht0' & _ & _ & Ef'). eapply (inv_unique s HI); [done|done|congruence].
  - done.
  - intros k f Hkf. destruct (inv_queue s HI k f Hkf) as (t & Ht & Ho & _).
    destruct (He f t Ht) as (t' & Ht' & ? & _). exists t'. split_and!; [done|congruence|by eapply Hq].
Qed.

(** A task goes on. *)
Lemma task_ok s ts' (q' : Queue) f t st :
  Inv s → p_tasks s !! f = Some t → task_status t ≠ Spawned → (∀ r, task_status t ≠ Completed r) →
  st ≠ Spawned → keeps view (p_tiers s) ts' →
  (∀ g x, g ≠ f → p_tasks s !! g = Some x → holds_at view (p_tiers s) (task_offset x) (task_data x) →
    holds_at view ts' (task_offset x) (task_data x)) →
  (∀ k g, g ≠ f → (k, g) ∈ q' ↔ (k, g) ∈ p_queue s) →
  (∀ k, (k, f) ∈ q' → (k, f) ∈ p_queue s ∧ ∀ r, st ≠ Completed r) →
  status_ok ts' q' f (set_status st t) →
  Inv (mkPool ts' q' (<[f := set_status st t]> (p_tasks s)) (p_flush_lock s) (p_limit s) (p_clients s)).
Proof.
  intros HI Hf Hs Hn Hst Hk Hh Hq Hqf Hok.
  pose proof (evolve_status (p_tasks s) f t st Hf Hst Hn) as He.
  assert (∀ g x, <[f := set_status st t]> (p_tasks s) !! g = Some x →
    (g = f ∧ x = set_status st t) ∨ (g ≠ f ∧ p_tasks s !! g = Some x)) as Hcase.
  { intros g x [(-> & -> & _)|(? & ?)]%list_lookup_insert_Some; auto. }
  split; simpl.
  - eapply keeps_writes; [done|]. apply (inv_fit s HI).
  - apply (inv_progs s HI).
  - intros c cl Hc. eapply evolve_answers; [done|]. by apply (inv_answers s HI).
  - intros c cl Hc. eapply evolve_pc; [done| |by apply (inv_pc s HI)]. intros g Hg.
    destruct (own_task s HI c cl g Hc Hg) as (? & ? & _ & Hgt).
    assert (g ≠ f) as Hne by (intros ->; simplify_eq; by apply Hs).
    rewrite list_lookup_insert_ne by done. split; [done|]. intros k. by apply Hq.
  - intros g x [[-> ->]|[Hne Hx]]%Hcase; [|by apply (inv_from s HI)].
    destruct (inv_from s HI f t Hf) as [? ?]. by split.
  - intros g x g' x' [[-> ->]|[Hne Hx]]%Hcase [[-> ->]|[Hne' Hx']]%Hcase E; try done;
      by eapply (inv_unique s HI).
  - intros g x [[-> ->]|[Hne Hx]]%Hcase; [done|].
    eapply status_kept; [by eapply Hh|by apply Hq|by apply (inv_status s HI)].
  - intros k g Hg. destruct (decide (g = f)) as [->|Hne].
    + destruct (Hqf k Hg) as [Hin Hc]. destruct (inv_queue s HI k f Hin) as (x & Hx & Ho & _).
      rewrite Hf in Hx. injection Hx as <-. exists (set_status st t).
      rewrite list_lookup_insert_eq by (by eapply lookup_lt_Some). done.
    + apply Hq in Hg; [|done]. rewrite list_lookup_insert_ne by done. by apply (inv_queue s HI).
Qed.

Lemma keeps_refl ts : devs_ok view ts → keeps view ts ts.
Proof. intros Hok n m. destruct (dev_nm ts n m) eqn:Ed; [|done]. split_and!; [by eapply Hok|done..]. Qed.

(** The handle of a task that has not begun *)
Lemma task_live s f t :
  Inv s → p_tasks s !! f = Some t → task_status t = Spawned ∨ task_status t = Started →
  handle_live s f = true.
Proof.
  intros HI Hf Hs.
  assert ((∃ k, (k, f) ∈ p_queue s) → handle_live s f = true) as Hin.
  { intros [k Hk]. apply orb_true_iff. left. apply existsb_exists. exists (k, f).
    split; [by apply list_elem_of_In|by apply bool_decide_eq_true]. }
  destruct Hs as [Hs|Hs].
  2: { pose proof (inv_status s HI f t Hf) as Hst. unfold status_ok in Hst. rewrite Hs in Hst. eauto. }
  destruct (inv_from s HI f t Hf) as [Hprog (cl & Hcl & [Hlt|[Hlen Hp]])].
  - pose proof (inv_answers s HI _ cl Hcl _ Hlt) as Ha. rewrite Hprog in Ha.
    destruct Ha as [_ (g & x & Hg & _ & _ & Hfrom & Hx)]. exfalso. apply Hx.
    assert (g = f) as -> by (eapply (inv_unique s HI); [done..|rewrite Hfrom; by destruct (task_from t)]). congruence.
  - pose proof (inv_pc s HI _ cl Hcl) as Hok. unfold pc_ok in Hok.
    assert (holds_handle f (pc cl) = true → handle_live s f = true) as Hh.
    { intros Hh. apply orb_true_iff. right. apply existsb_exists. exists cl.
      split; [by apply list_elem_of_In, list_elem_of_lookup_2 with (task_from t).1|done]. }
    destruct (pc cl) as [|g|g w|g|g|g d|g r| | | | |]; simplify_eq/=;
      (destruct (requests cl !! length (answers cl)) as [[data o|?|]|]; try done); destruct Hok as (_ & Hq & _);
      first [by apply Hin; eauto | apply Hh; by rewrite ?bool_decide_eq_true_2 by done
            | apply Hh; destruct w; by rewrite ?bool_decide_eq_true_2 by done].
Qed.

Lemma task_step_ok s f :
  Inv s → match task_step s f with Blocked => True | Panicked => False | Next s' => Inv s' end.
Proof using Hl.
  intros HI. unfold task_step. destruct (p_tasks s !! f) as [t|] eqn:Hf; [|done].
  pose proof (inv_status s HI f t Hf) as Hst. unfold status_ok in Hst.
  destruct (inv_from s HI f t Hf) as [Hprog _]. destruct (inv_fit s HI) as (Hok & Hfit & Hapart).
  destruct (task_status t) as [| | |r|r|] eqn:E; try done.
  - by rewrite (task_live s f t) by auto.
  - rewrite (task_live s f t) by auto. apply (task_ok s (p_tiers s) (p_queue s) f t); rewrite ?E; try done.
    by apply keeps_refl.
  - destruct (write_at view (p_tiers s) (task_offset t) (task_data t) Hok) as (ts' & Hw & Hk & Hh & Ho).
    { by eapply Hfit. }
    rewrite Hw. apply (task_ok s ts' (p_queue s) f t); rewrite ?E; try done.
    intros g x Hne Hx Hhx. destruct (inv_from s HI g x Hx) as [Hprogx _]. apply Ho; [by eapply Hfit| |done].
    eapply Hapart; [exact Hprog|exact Hprogx|]. intros Eq. apply Hne.
    apply (inv_unique s HI g x f t Hx Hf). destruct (task_from x), (task_from t). by simpl in Eq.
  - destruct Hst as (-> & Hin & Hh). apply (task_ok s (p_tiers s) (shift_remove (p_queue s) (task_offset t)) f t); rewrite ?E; try done.
    + intros n m. destruct (dev_nm (p_tiers s) n m) eqn:Ed; [|done]. split_and!; [by eapply Hok|done..].
    + intros k g Hne. rewrite shift_remove_in. split; [by intros [? _]|]. intros Hg. split; [done|]. simpl.
      intros ->. apply Hne. destruct (inv_queue s HI _ g Hg) as (x & Hx & Ho & _).
      by eapply offset_unique.
    + intros k Hk. apply shift_remove_in in Hk as [Hk Hne]. destruct (inv_queue s HI k f Hk) as (x & Hx & Ho & _).
      simplify_eq.
Qed.

(** *** Steps of a client *)

Lemma answers_snoc tasks c cl a :
  answers_ok tasks c cl →
  match prog_at c (length (answers cl)) with
  | Some (WriteReq data o) =>
      a = Wrote (inl tt) ∧ ∃ f t, tasks !! f = Some t ∧ task_data t = data ∧ task_offset t = o ∧
        task_from t = (c, length (answers cl)) ∧ task_status t ≠ Spawned
  | Some (ReadReq _ o _) => ∃ data, wrote_before c (length (answers cl)) o data ∧ a = Got (inl data)
  | Some FlushReq => ∃ r, a = Flushed r
  | None => False
  end → answers_ok tasks c (answer cl a).
Proof.
  intros Ha Hn i Hi. simpl in *. rewrite length_app in Hi. simpl in Hi.
  destruct (decide (i = length (answers cl))) as [->|Hne].
  - assert ((answers cl ++ [a]) !! length (answers cl) = Some a) as -> by (by apply list_lookup_middle).
    destruct (prog_at c (length (answers cl))) as [[| |]|]; naive_solver.
  - rewrite lookup_app_l by lia. apply Ha. lia.
Qed.

Lemma enqueue_step_ok s c cl f data o :
  Inv s → p_clients s !! c = Some cl → pc_task (pc cl) = Some f →
  requests cl !! length (answers cl) = Some (WriteReq data o) →
  match enqueue_step s c cl f o with Blocked => True | Panicked => False | Next s' => Inv s' end.
Proof.
  intros HI Hc Hf Hr. pose proof (inv_pc s HI c cl Hc) as Hok. unfold pc_ok in Hok.
  rewrite Hr in Hok. unfold enqueue_step.
  assert (prog_at c (length (answers cl)) = Some (WriteReq data o)) as Hprog.
  { unfold prog_at. by rewrite (inv_progs s HI c cl Hc). }
  assert (∀ t, p_tasks s !! f = Some t → task_offset t = o → (∀ k, (k, f) ∉ p_queue s) →
    queue_get (p_queue s) o = None) as Hget.
  { intros t Ht Ho Hn. apply queue_get_none. intros g Hg. destruct (inv_queue s HI o g Hg) as (x & Hx & Hxo & _).
    assert (g = f) as -> by (eapply offset_unique; [done..|congruence]). by eapply Hn. }
  destruct (pc cl) as [|f0|f0 w|f0|f0|f0 d|f0 r|w| | |d|] eqn:Ep; simplify_eq/=; destruct Hok as (Ht & Hq & Hx).
  - destruct (p_flush_lock s); [done|].
    apply (goto_ok (set_lock s true)); [by apply lock_ok|done|simpl; rewrite Ep; by right|].
    unfold pc_ok. simpl. rewrite Hr. done.
  - subst w. simpl. rewrite (Hget _ Ht) by done. apply goto_ok; [done..|rewrite Ep; by right|].
    unfold pc_ok. simpl. rewrite Hr. done.
  - rewrite (Hget _ Ht) by done. by apply insert_ok with data.
  - apply goto_ok; [done..|rewrite Ep; right; by case_match|].
    unfold pc_ok. simpl. rewrite Hr. by destruct (_ <? _)%nat.
  - pose proof (drain_step_ok s HI (p_limit s) d Hx) as Hd.
    destruct (drain_step s (p_limit s) d) as [| |[s' [d'|r]]]; try done; destruct Hd as [-> Hd];
      (apply goto_ok; [done..|rewrite Ep; by right|]); unfold pc_ok; simpl; rewrite Hr; done.
  - subst r. destruct (inv_fit s HI) as (Hdok & _).
    rewrite Ht. cbn [task_status].
    assert (evolve (p_tasks s) (<[f := set_status Started
      (mkTask data o Spawned (c, length (answers cl)))]> (p_tasks s))) as He by (by apply evolve_status).
    apply (answer_ok s (p_tiers s)); try done.
    + by apply keeps_refl.
    + apply length_insert.
    + intros g x [(-> & <- & _)|(Hne & Hx)]%list_lookup_insert_Some; [done|]. by apply (inv_status s HI).
    + intros i x g Hne Hx Hg. destruct (own_task s HI i x g Hx Hg) as (? & ? & _ & Hgt).
      simpl. rewrite list_lookup_insert_ne; [done|]. intros ->. congruence.
    + apply answers_snoc; [by eapply evolve_answers; [done|apply (inv_answers s HI)]|]. rewrite Hprog.
      split; [done|]. eexists f, _. simpl. rewrite list_lookup_insert_eq by (by eapply lookup_lt_Some). done.
    + intros k g x Hk [(-> & <- & _)|(Hne & Hx)]%list_lookup_insert_Some; [done|].
      destruct (inv_queue s HI k g Hk) as (x' & Hx' & _ & ?). congruence.
Qed.

(** The write that a read is for has been started. *)
Lemma read_has_task s c cl o data :
  Inv s → p_clients s !! c = Some cl → wrote_before c (length (answers cl)) o data →
  ∃ f t, p_tasks s !! f = Some t ∧ task_data t = data ∧ task_offset t = o ∧ task_status t ≠ Spawned.
Proof.
  intros HI Hc (j & Hj & Hp). pose proof (inv_answers s HI c cl Hc j Hj) as Ha. rewrite Hp in Ha.
  destruct Ha as [_ (f & t & ? & ? & ? & _ & ?)]. by exists f, t.
Qed.

Lemma read_step_ok s c cl size o ck :
  reads_own → Inv s → p_clients s !! c = Some cl →
  requests cl !! length (answers cl) = Some (ReadReq size o ck) →
  pc cl = ReadDev ∨ (∃ w, pc cl = ReadWait w) →
  match pool_read_step s c cl size o ck with Blocked => True | Panicked => False | Next s' => Inv s' end.
Proof using Hl.
  intros Hro HI Hc Hr Hp. pose proof (inv_pc s HI c cl Hc) as Hok. unfold pc_ok in Hok. rewrite Hr in Hok.
  assert (prog_at c (length (answers cl)) = Some (ReadReq size o ck)) as Hprog.
  { unfold prog_at. by rewrite (inv_progs s HI c cl Hc). }
  destruct (Hro _ _ _ _ _ Hprog) as (data & Hwb & Hlen & Hver & Huniq).
  destruct (read_has_task s c cl o data HI Hc Hwb) as (f & t & Hf & <- & Ho & Hns).
  unfold pool_read_step. destruct Hp as [Hp|[w Hp]]; rewrite Hp in Hok |- *.
  - destruct Hok as (g & x & r & Hg & Hxo & Hxr).
    assert (g = f) as -> by (eapply offset_unique; [done..|congruence]). rewrite Hf in Hg. injection Hg as <-.
    pose proof (inv_status s HI f t Hf) as Hst. unfold status_ok in Hst. rewrite Hxr, Ho in Hst.
    destruct Hst as [-> Hh]. destruct (inv_fit s HI) as (Hdok & Hfit & _).
    destruct (inv_from s HI f t Hf) as [Hpt _]. rewrite Ho in Hpt.
    destruct (read_at view (p_tiers s) o (task_data t) size ck) as (ts' & Hread & Hk & Hhk); try done.
    { by eapply Hfit. }
    rewrite Hread. apply (answer_ok s ts' (p_tasks s)); try done.
    + apply evolve_refl.
    + intros g y Hy. eapply status_kept; [by apply Hhk|done|by apply (inv_status s HI)].
    + apply answers_snoc; [by apply (inv_answers s HI)|]. rewrite Hprog. eauto.
    + intros k g y Hk' Hy. destruct (inv_queue s HI k g Hk') as (y' & Hy' & _ & ?). congruence.
  - pose proof (wait_step_ok s HI o w Hok) as Hw.
    destruct (wait_step s o w) as [| |[s' [w'|r]]]; try done.
    + destruct Hw as [-> Hw]. apply goto_ok; [done..|rewrite Hp; by left|]. unfold pc_ok. simpl. by rewrite Hr.
    + destruct Hw as (-> & -> & Hw). apply goto_ok; [done..|rewrite Hp; by left|]. unfold pc_ok. simpl. rewrite Hr.
      destruct Hw as [|Hnone]; [done|]. pose proof (inv_status s HI f t Hf) as Hst. unfold status_ok in Hst.
      rewrite Ho in Hst. pose proof (queue_get_absent _ _ f Hnone) as Habs.
      destruct (task_status t) as [| | |r|r|] eqn:E; [done|done|done|by destruct Hst as (_ & ? & _)| |done].
      by exists f, t, r.
Qed.

Lemma pool_flush_step_ok s c cl :
  Inv s → p_clients s !! c = Some cl → requests cl !! length (answers cl) = Some FlushReq →
  pc cl = FlushLock ∨ (∃ d, pc cl = FlushDrain d) ∨ pc cl = FlushDevs →
  match pool_flush_step s c cl with Blocked => True | Panicked => False | Next s' => Inv s' end.
Proof using Hl.
  intros HI Hc Hr Hp. pose proof (inv_pc s HI c cl Hc) as Hok. unfold pc_ok in Hok. rewrite Hr in Hok.
  assert (prog_at c (length (answers cl)) = Some FlushReq) as Hprog.
  { unfold prog_at. by rewrite (inv_progs s HI c cl Hc). }
  unfold pool_flush_step. destruct Hp as [Hp|[[d Hp]|Hp]]; rewrite Hp in Hok |- *.
  - destruct (p_flush_lock s); [done|].
    apply (goto_ok (set_lock s true)); [by apply lock_ok|done|simpl; rewrite Hp; by left|].
    unfold pc_ok. simpl. by rewrite Hr.
  - pose proof (drain_step_ok s HI 0 d Hok) as Hd. destruct (drain_step s 0 d) as [| |[s' [d'|r]]]; try done.
    + destruct Hd as [-> Hd]. apply goto_ok; [done..|rewrite Hp; by left|]. unfold pc_ok. simpl. by rewrite Hr.
    + destruct Hd as [-> ->]. apply (goto_ok (set_lock s false)); [by apply lock_ok|done|simpl; rewrite Hp; by left|].
      unfold pc_ok. simpl. by rewrite Hr.
  - destruct (inv_fit s HI) as (Hdok & _). destruct (flush_at view (p_tiers s) Hdok) as (r & ts' & -> & Hk & Hh).
    apply (answer_ok s ts' (p_tasks s)); try done.
    + apply evolve_refl.
    + intros g y Hy. eapply status_kept; [by apply Hh|done|by apply (inv_status s HI)].
    + apply answers_snoc; [by apply (inv_answers s HI)|]. rewrite Hprog. eauto.
    + intros k g y Hk' Hy. destruct (inv_queue s HI k g Hk') as (y' & Hy' & _ & ?). congruence.
Qed.

Lemma client_step_ok s c :
  reads_own → Inv s →
  match client_step s c with Blocked => True | Panicked => False | Next s' => Inv s' end.
Proof using Hl.
  intros Hro HI. unfold client_step. destruct (p_clients s !! c) as [cl|] eqn:Hc; [|done].
  pose proof (inv_pc s HI c cl Hc) as Hok. unfold pc_ok in Hok.
  destruct (pc cl) as [|f|f w|f|f|f d|f r|w| | |d|] eqn:Ep.
  - unfold start_request. destruct (requests cl !! length (answers cl)) as [[data o|size o ck|]|] eqn:Hr; [..|done].
    + by apply spawn_ok.
    + apply goto_ok; [done..|rewrite Ep; by left|]. unfold pc_ok. simpl. by rewrite Hr.
    + apply goto_ok; [done..|rewrite Ep; by left|]. unfold pc_ok. simpl. by rewrite Hr.
  - destruct (requests cl !! length (answers cl)) as [[data o|size o ck|]|] eqn:Hr; try done.
    eapply enqueue_step_ok; [done..|by rewrite Ep|done].
  - destruct (requests cl !! length (answers cl)) as [[data o|size o ck|]|] eqn:Hr; try done.
    eapply enqueue_step_ok; [done..|by rewrite Ep|done].
  - destruct (requests cl !! length (answers cl)) as [[data o|size o ck|]|] eqn:Hr; try done.
    eapply enqueue_step_ok; [done..|by rewrite Ep|done].
  - destruct (requests cl !! length (answers cl)) as [[data o|size o ck|]|] eqn:Hr; try done.
    eapply enqueue_step_ok; [done..|by rewrite Ep|done].
  - destruct (requests cl !! length (answers cl)) as [[data o|size o ck|]|] eqn:Hr; try done.
    eapply enqueue_step_ok; [done..|by rewrite Ep|done].
  - destruct (requests cl !! length (answers cl)) as [[data o|size o ck|]|] eqn:Hr; try done.
    eapply enqueue_step_ok; [done..|by rewrite Ep|done].
  - destruct (requests cl !! length (answers cl)) as [[data o|size o ck|]|] eqn:Hr; try done.
    apply read_step_ok; eauto.
  - destruct (requests cl !! length (answers cl)) as [[data o|size o ck|]|] eqn:Hr; try done.
    apply read_step_ok; eauto.
  - destruct (requests cl !! length (answers cl)) as [[data o|size o ck|]|] eqn:Hr; try done.
    apply pool_flush_step_ok; eauto.
  - destruct (requests cl !! length (answers cl)) as [[data o|size o ck|]|] eqn:Hr; try done.
    apply pool_flush_step_ok; eauto.
  - destruct (requests cl !! length (answers cl)) as [[data o|size o ck|]|] eqn:Hr; try done.
    apply pool_flush_step_ok; eauto.
Qed.

Lemma run_ok s ls :
  reads_own → Inv s → ∃ s', run s ls = Next s' ∧ Inv s'.
Proof using Hl.
  intros Hro. revert s. induction ls as [|l ls IH]; intros s HI; [by exists s|]. simpl.
  assert (match step s l with Blocked => True | Panicked => False | Next s' => Inv s' end) as Hs.
  { destruct l; [by apply client_step_ok|by apply task_step_ok]. }
  destruct (step s l); [by apply IH|done|by apply IH].
Qed.

Lemma new_ok ts limit : writes_fit ts → Inv (pool_new ts limit progs).
Proof.
  intros Hf. split; simpl; try done.
  - intros c cl Hc. apply list_lookup_fmap_Some in Hc as (p & -> & Hp). done.
  - intros c cl Hc. apply list_lookup_fmap_Some in Hc as (p & -> & Hp). intros i Hi. simpl in Hi. lia.
  - intros c cl Hc. by apply list_lookup_fmap_Some in Hc as (p & -> & Hp).
  - intros k f Hk. by apply elem_of_nil in Hk.
Qed.

(** C9: Whatever the schedule and the number of clients: if the writes are to
    different places of working devices, and every read is for data that its
    client has written, then no request panics, every write that is answered
    succeeded, and every read that is answered returned the data that were
    written, though writes are only queued when they are answered. *)
Theorem pool_reads_own_writes ts limit ls :
  writes_fit ts → reads_own →
  ∃ s, run (pool_new ts limit progs) ls = Next s ∧
    ∀ c cl i, p_clients s !! c = Some cl → (i < length (answers cl))%nat →
      match prog_at c i with
      | Some (WriteReq _ _) => answers cl !! i = Some (Wrote (inl tt))
      | Some (ReadReq _ o _) => ∃ data, wrote_before c i o data ∧ answers cl !! i = Some (Got (inl data))
      | Some FlushReq => ∃ r, answers cl !! i = Some (Flushed r)
      | None => False
      end.
Proof using Hl.
  intros Hf Hro. destruct (run_ok _ ls Hro (new_ok ts limit Hf)) as (s & Hs & HI). exists s. split; [done|].
  intros c cl i Hc Hi. pose proof (inv_answers s HI c cl Hc i Hi) as Ha.
  destruct (prog_at c i) as [[| |]|]; naive_solver.
Qed.


End invariant.

(** ** Examples *)
Module PoolExamples.
Import WholeData.

#[local] Instance zeroes : Memory := {| uninit n := replicate (Z.to_nat n) zero |}.

#[local] Instance pool_zeroes_laws : MemoryLaws.
Proof. split. intros n Hn. simpl. unfold blen. rewrite length_replicate. lia. Qed.

Definition block (x : Z) : bytes := replicate (Z.to_nat BLOCK_SIZE) (to_u8 x).
Definition sum (x : Z) : csum := block x.
Definition at_block (n : Z) : DiskOffset := DiskOffset.mk n.

Lemma pool_block_length x : blen (block x) = BLOCK_SIZE * 1.
Proof. unfold block, blen. by rewrite length_replicate. Qed.

(** A single parity of which one disk has failed, and two clients *)
Definition array_tiers : list (StorageTier (Dev MemoryDev)) :=
  [mkStorageTier [DParity1 ParityExamples.array] AccessUnknown Hdd].
Definition array_view (n m : nat) : View := mkView 1 2.
Definition two_clients : list (list Request) :=
  [[WriteReq (block 5) (at_block 0); ReadReq 1 (at_block 0) (sum 5); FlushReq];
   [WriteReq (block 6) (at_block 2); ReadReq 1 (at_block 2) (sum 6)]].

Lemma two_clients_write c i data o :
  prog_at two_clients c i = Some (WriteReq data o) →
  (c = 0 ∧ i = 0 ∧ data = block 5 ∧ o = at_block 0)%nat ∨ (c = 1 ∧ i = 0 ∧ data = block 6 ∧ o = at_block 2)%nat.
Proof.
  unfold prog_at, two_clients. destruct c as [|[|c]]; simpl; [..|done].
  - destruct i as [|[|[|i]]]; simpl; intros [=]; auto.
  - destruct i as [|[|i]]; simpl; intros [=]; auto.
Qed.

Lemma array_fits b :
  0 ≤ b ≤ 4 → block_offset (at_block b) = b → by_offset array_tiers (at_block b) = Some (DParity1 ParityExamples.array) →
  ∀ x, fits_at array_view array_tiers (at_block b) (block x).
Proof.
  intros Hb Ho Hd x. exists (DParity1 ParityExamples.array), 1. split_and!; [done|apply pool_block_length|].
  rewrite Ho. apply ParityExamples.array_request. lia.
Qed.

Lemma array_writes_fit : writes_fit array_view two_clients array_tiers.
Proof.
  split_and!.
  - intros n m d Hd. unfold dev_nm, array_tiers in Hd. destruct n as [|n]; [|done].
    destruct m as [|m]; [|done]. injection Hd as <-. apply ParityExamples.array_healthy.
  - intros c i data o [(_ & _ & -> & ->)|(_ & _ & -> & ->)]%two_clients_write;
      (apply array_fits; [lia|by vm_compute|reflexivity]).
  - intros c i data o c' i' data' o' [(-> & -> & -> & ->)|(-> & -> & -> & ->)]%two_clients_write
      [(-> & -> & -> & ->)|(-> & -> & -> & ->)]%two_clients_write Hne; try done; (split; [done|]);
      intros _ _ d [= <-]; exists 2, 2; rewrite !pool_block_length; (split; [by vm_compute|]);
      (split; [by vm_compute|]).
    + left. by vm_compute.
    + right. by vm_compute.
Qed.

Lemma array_reads_own : reads_own two_clients.
Proof.
  intros c i size o ck. unfold prog_at, two_clients. destruct c as [|[|c]]; simpl; [..|done].
  - destruct i as [|[|[|i]]]; simpl; intros [=]; subst. exists (block 5). split_and!.
    + exists 0%nat. split; [lia|done].
    + apply pool_block_length.
    + apply verify_data.
    + intros x _. apply verify_only.
  - destruct i as [|[|i]]; simpl; intros [=]; subst. exists (block 6). split_and!.
    + exists 0%nat. split; [lia|done].
    + apply pool_block_length.
    + apply verify_data.
    + intros x _. apply verify_only.
Qed.

Lemma pool_reads_own_writes_witness :
  ∃ s, run (pool_new array_tiers 1 two_clients) [LClient 0; LClient 1; LTask 0] = Next s.
Proof.
  destruct (pool_reads_own_writes array_view two_clients array_tiers 1 [LClient 0; LClient 1; LTask 0])
    as (s & Hs & _).
  - apply array_writes_fit.
  - apply array_reads_own.
  - exists s. exact Hs.
Defined.


(** *** What can go wrong *)

Definition disk (blocks : Z) : MemoryDev :=
  mkMem (replicate (Z.to_nat (BLOCK_SIZE * blocks)) zero) "disk" blocks no_stats.
Definition one_disk (blocks : Z) : list (StorageTier MemoryDev) :=
  [mkStorageTier [disk blocks] AccessUnknown Hdd].

(** No client or task can take a step. *)
Definition stuck (s : Pool (V := MemoryDev)) : bool :=
  forallb (λ i, match client_step s i with Blocked => true | _ => false end) (seq 0 (length (p_clients s))) &&
  forallb (λ f, match task_step s f with Blocked => true | _ => false end) (seq 0 (length (p_tasks s))).

Lemma stuck_blocked s l : stuck s = true → step s l = Blocked.
Proof.
  unfold stuck. intros [Hc Ht]%andb_true_iff. rewrite forallb_forall in Hc, Ht. destruct l as [i|f]; simpl.
  - destruct (decide (i < length (p_clients s))%nat) as [Hi|Hi].
    + specialize (Hc i). destruct (client_step s i); [done|..];
        exfalso; (eapply eq_true_false_abs; [apply Hc, in_seq; lia|done]).
    + unfold client_step. by rewrite lookup_ge_None_2 by lia.
  - destruct (decide (f < length (p_tasks s))%nat) as [Hi|Hi].
    + specialize (Ht f). destruct (task_step s f); [done|..];
        exfalso; (eapply eq_true_false_abs; [apply Ht, in_seq; lia|done]).
    + unfold task_step. by rewrite lookup_ge_None_2 by lia.
Qed.

Definition unfinished (s : Pool (V := MemoryDev)) : bool :=
  match p_clients s !! 0%nat with
  | Some cl => (length (answers cl) <? length (requests cl))%nat
  | None => false
  end.

Lemma run_next (o : Step (Pool (V := MemoryDev))) (P : Pool (V := MemoryDev) → bool) :
  match o with Next s => P s | _ => false end = true → ∃ s, o = Next s ∧ P s = true.
Proof. destruct o; [done..|eauto]. Qed.

Definition writes (n : nat) : list Request :=
  (λ i, WriteReq (block 1) (at_block (Z.of_nat i))) <$> seq 0 n.

(** 20 writes are queued; the next one finds the queue too long, but before it
    takes the first entry all 20 are done, and the first entry is its own. *)
Definition deadlock_schedule : list Label :=
  replicate 126 (LClient 0) ++ concat ((λ f, [LTask f; LTask f; LTask f]) <$> seq 0 20) ++ [LClient 0].

(** C32: A single client can block for ever in [begin_write], with the default
    configuration and one disk: the client waits for the write that it has
    just queued, which waits until [begin_write] is past the queue. *)
Theorem write_back_deadlocks :
  queue_depth pool_default (one_disk 21) = Some 20 ∧
  ∃ s cl, run (pool_new (one_disk 21) 20 [writes 21]) deadlock_schedule = Next s ∧
    p_clients s !! 0%nat = Some cl ∧ (length (answers cl) < length (requests cl))%nat ∧
    ∀ l, step s l = Blocked.
Proof.
  split; [by vm_compute|].
  destruct (run_next (run (pool_new (one_disk 21) 20 [writes 21]) deadlock_schedule)
    (λ s, stuck s && unfinished s)) as (s & Hs & [Hst Hu]%andb_true_iff); [by vm_compute|].
  unfold unfinished in Hu. destruct (p_clients s !! 0%nat) as [cl|] eqn:Hcl; [|done].
  exists s, cl. split_and!; [exact Hs|exact Hcl|by apply Nat.ltb_lt|].
  intros l. by apply stuck_blocked.
Qed.

Definition outcome (o : Step (Pool (V := MemoryDev))) : option (list (list Answer)) :=
  match o with Next s => Some (answers <$> p_clients s) | _ => None end.

(** The error of a write is lost if the write is done before somebody
    waits for it: the disk has no room and the write fails, but [begin_write]
    and the [flush] that follows both return success. *)
Theorem failed_write_is_lost :
  outcome (run (pool_new (one_disk 0) 20 [[WriteReq (block 1) (at_block 0); FlushReq]])
    (replicate 6 (LClient 0) ++ replicate 3 (LTask 0) ++ replicate 4 (LClient 0))) =
  Some [[Wrote (inl tt); Flushed (inl tt)]].
Proof. by vm_compute. Qed.

(** One client writes to an offset twice; another one waits for the first
    write, as the oldest entry of the queue, and then removes its key, which is
    by now that of the second write. *)
Definition rewriting (rest : list Request) : list (list Request) :=
  [[WriteReq (block 1) (at_block 1)];
   [WriteReq (block 2) (at_block 0); WriteReq (block 3) (at_block 0)] ++ rest].
Definition rewriting_schedule (before after : list Label) : list Label :=
  replicate 6 (LClient 1) ++ replicate 7 (LClient 0) ++ replicate 3 (LTask 0) ++
  replicate 7 (LClient 1) ++ replicate 4 (LClient 0) ++ replicate 3 (LTask 1) ++
  before ++ replicate 4 (LClient 1) ++ after.


End PoolExamples.
