(* ===== verification/PoolAlloc.v ===== *)
(** * Allocations in a pool of devices

    The storage pool is the one that [Dmu::allocate] is written against: its
    devices keep the laws the allocation relies on, and what the allocation
    returns are places that are apart, as the pool needs them. *)

From Stdlib Require Import ZArith Lia String.
From stdpp Require Import base option list numbers gmap.
From S2P Require Import Prelude.
From S2P Require Import Bytes.
From S2P Require Import Checksum.
From S2P Require Import Disk.
From S2P Require Import Buffer.
From S2P Require Import Allocator.
From S2P Require Import RootKeys.
From S2P Require Import Handler.
From S2P Require Import DmuAlloc.
From S2P Require Import Vdev.
From S2P Require Import Parity.
From S2P Require Import ParityCorrect.
From S2P Require Import Mirror.
From S2P Require Import Device.
From S2P Require Import Pool.
From S2P Require Import PoolCorrect.

Import DiskOffset(DiskOffset, storage_class, disk_id, block_offset).

Section layer.
Context `{Hck : !Checksum} {L : Type} `{!VdevLeaf L} `{!Memory}.
Context `{Bincode StorageInfo} `{Bincode DeadListData}.

(** The methods of the pool that the allocation calls; out of range they
    would panic, which it never is. *)
Definition pool_layer (ts : list (StorageTier (Dev L))) : StoragePoolLayer := {|
  disk_count c := default 0 (tier_disk_count ts c);
  effective_free_size c d free := default 0 (pool_effective_free_size ts c d free);
  actual_size c d size := default 1 (pool_actual_size ts c d size);
  size_in_blocks c d := default 0 (pool_size_in_blocks ts c d);
  num_disks c d := default 0 (pool_num_disks ts c d);
|}.

(** Tiers whose devices can be addressed, as [Parity1::new] and the widths of
    a [DiskOffset] ask for. *)
Definition tiers_wf (ts : list (StorageTier (Dev L))) : Prop :=
  ∀ n t, ts !! n = Some t → (length (tier_devs t) ≤ 1024)%nat ∧
    ∀ d, d ∈ tier_devs t →
      (∀ b, dev_size d = Some b → 0 ≤ b ≤ 2 ^ 52) ∧ (∀ p, d = DParity1 p → 3 ≤ disk_cnt p).

Context (ts : list (StorageTier (Dev L))) (Hwf : tiers_wf ts).

Lemma dev_at_wf c d x :
  dev_at ts c d = Some x →
  (∀ b, dev_size x = Some b → 0 ≤ b ≤ 2 ^ 52) ∧ (∀ p, x = DParity1 p → 3 ≤ disk_cnt p).
Proof using Hwf.
  unfold dev_at. destruct (ts !! Z.to_nat c) as [t|] eqn:E; [|done]. simpl. intros Hx.
  destruct (Hwf _ t E) as [_ Hd]. by apply Hd, (list_elem_of_lookup_2 _ (Z.to_nat d)).
Qed.

(** A device takes at least as many blocks as are asked for, and at most
    twice as many. *)
Lemma actual_size_bounds c d x size :
  dev_at ts c d = Some x → 0 < size →
  (∀ a, dev_actual_size x size = Some a → size ≤ a) ∧
  (size < 2 ^ 31 → ∃ a, dev_actual_size x size = Some a).
Proof using Hwf.
  intros Hx Hs. destruct (dev_at_wf c d x Hx) as [_ Hp]. destruct x as [l|m|p]; simpl.
  - split; [by intros a [= <-]|eauto].
  - split; [by intros a [= <-]|eauto].
  - specialize (Hp p eq_refl). unfold parity_actual_size.
    pose proof (long_col_bound (disk_cnt p) size ltac:(lia) ltac:(lia)).
    pose proof (col_numbers (disk_cnt p) size ltac:(lia) ltac:(lia)) as (? & _). split.
    + intros a [-> _]%u32_add_inv. lia.
    + intros Hlt. exists (size + long_col_len (disk_cnt p) size). apply u32_add_Some. unfold U32_SIZE. lia.
Qed.

#[local] Instance layer : StoragePoolLayer := pool_layer ts.

#[local] Instance layer_laws : StoragePoolLaws.
Proof using Hwf.
  split; simpl.
  - intros c. unfold tier_disk_count. destruct (ts !! Z.to_nat c) as [t|] eqn:E; simpl; [|lia].
    destruct (Hwf _ t E) as [Hn _]. unfold wrap16. rewrite Z.mod_small by lia. lia.
  - intros c d. unfold pool_size_in_blocks. destruct (dev_at ts c d) as [x|] eqn:E; [|done].
    cbn [mbind option_bind]. destruct (dev_at_wf c d x E) as [Hb _].
    destruct (dev_size x) as [b|]; [by apply Hb|done].
  - intros c d s Hs. unfold pool_actual_size. destruct (dev_at ts c d) as [x|] eqn:E; [|done].
    cbn [mbind option_bind]. destruct (actual_size_bounds c d x s E Hs) as [Hb _].
    destruct (dev_actual_size x s) as [a|]; [|done]. specialize (Hb a eq_refl). simpl. lia.
Qed.

(** The address of an allocation is made of its disk and its block. *)
Lemma placed_address h h' size o :
  0 < size → placed h h' size o →
  DiskOffset.as_u64 o = storage_class o * 2 ^ 62 + disk_id o * 2 ^ 52 + block_offset o ∧
  0 ≤ storage_class o ∧ 0 ≤ disk_id o.
Proof using Hwf.
  intros Hs (c & d & i & k & Hc & Hd & Hi & Ho & (Hk0 & Hk & _) & _).
  pose proof (pool_disk_count c). pose proof (pool_size c d) as Hps.
  pose proof (pool_actual c d size Hs). pose proof (seg_range _ Hps i Hi).
  destruct (seg_disk_offset c d i k) as (o' & Ho' & _ & _ & Hcl & Hdi & Hbo); [lia..|].
  rewrite Ho in Ho'. injection Ho' as <-. rewrite Hcl, Hdi, Hbo. split; [|lia].
  unfold SegmentId.disk_offset in Ho. apply bind_Some in Ho as (y & [-> _]%u64_add_inv & [= <-]).
  unfold seg_at. simpl. lia.
Qed.

Lemma allocations_apart_on m pref1 data1 o1 m1 pref2 data2 o2 m2 :
  dmu_ok m → 0 ≤ pref1 < 4 → 0 ≤ pref2 < 4 →
  0 < blen data1 / BLOCK_SIZE < 2 ^ 31 → 0 < blen data2 / BLOCK_SIZE < 2 ^ 31 →
  dmu_allocate m pref1 (blen data1 / BLOCK_SIZE) = Some (inl o1, m1) →
  dmu_allocate m1 pref2 (blen data2 / BLOCK_SIZE) = Some (inl o2, m2) →
  apart_at ts o1 data1 o2 data2.
Proof using Hwf.
  intros Hok Hp1 Hp2. unfold apart_at. generalize (blen data1 / BLOCK_SIZE), (blen data2 / BLOCK_SIZE).
  intros s1 s2 Hs1 Hs2 Ha1 Ha2.
  pose proof (allocations_disjoint m pref1 s1 o1 m1 pref2 s2 o2 m2 Hok Hp1 Hp2 ltac:(lia) ltac:(lia) Ha1 Ha2) as Hdis.
  destruct (dmu_allocate_spec m pref1 s1 Hok Hp1 ltac:(lia)) as (r & m1' & E & Hok1 & Hr).
  rewrite Ha1 in E. injection E as <- <-.
  destruct (dmu_allocate_spec m1 pref2 s2 Hok1 Hp2 ltac:(lia)) as (r & m2' & E & _ & Hr2).
  rewrite Ha2 in E. injection E as <- <-.
  destruct (placed_address _ _ s1 _ ltac:(lia) Hr) as (E1 & Hc1 & Hd1).
  destruct (placed_address _ _ s2 _ ltac:(lia) Hr2) as (E2 & Hc2 & Hd2).
  assert (∀ s o, 0 < s → 0 < actual_size (storage_class o) (disk_id o) s) as Hpos by (intros; by apply pool_actual).
  unfold DmuAlloc.blocks_of in Hdis. split.
  - intros <-. apply (Hdis (DiskOffset.as_u64 o1)).
    pose proof (Hpos s1 o1 ltac:(lia)). pose proof (Hpos s2 o1 ltac:(lia)). lia.
  - intros Hcl Hdi d Hd. assert (storage_class o2 = storage_class o1) as Ec by (unfold class_of in Hcl; lia).
    assert (disk_id o2 = disk_id o1) as Ed by (unfold disk_of in Hdi; lia).
    destruct (actual_size_bounds _ _ _ s1 Hd ltac:(lia)) as [Hb1 [a1 Hs1']]; [lia|].
    destruct (actual_size_bounds _ _ _ s2 Hd ltac:(lia)) as [Hb2 [a2 Hs2']]; [lia|].
    exists a1, a2. split; [done|]. split; [done|]. specialize (Hb1 a1 Hs1'). specialize (Hb2 a2 Hs2').
    assert (∀ s a, dev_actual_size d s = Some a → actual_size (storage_class o1) (disk_id o1) s = a) as Hact.
    { intros s a Hsa. cbn [actual_size layer pool_layer]. unfold pool_actual_size.
      change (dev_at ts (storage_class o1) (disk_id o1)) with (by_offset ts o1). rewrite Hd.
      cbn [mbind option_bind]. by rewrite Hsa. }
    rewrite Ec, Ed in Hdis, E2. rewrite (Hact s1 a1 Hs1'), (Hact s2 a2 Hs2') in Hdis.
    destruct (decide (block_offset o1 + a1 ≤ block_offset o2)) as [|Hn1]; [by left|].
    destruct (decide (block_offset o2 + a2 ≤ block_offset o1)) as [|Hn2]; [by right|]. exfalso.
    apply (Hdis (Z.max (DiskOffset.as_u64 o1) (DiskOffset.as_u64 o2))). lia.
Qed.

End layer.

Section pool.
Context `{Hck : !Checksum} {L : Type} `{!VdevLeaf L} `{!Memory}.
Context `{Bincode StorageInfo} `{Bincode DeadListData}.
Context (ts : list (StorageTier (Dev L))).
#[local] Instance pool_of : StoragePoolLayer := pool_layer ts.

(** C31: What [Dmu::allocate] returns for two requests are places that are
    apart, on every pool of leaves, mirrors and parity devices: different
    offsets, and on the same device blocks, parity included, of which none
    belongs to both. *)
Theorem allocations_apart m pref1 data1 o1 m1 pref2 data2 o2 m2 :
  tiers_wf ts → dmu_ok m → 0 ≤ pref1 < 4 → 0 ≤ pref2 < 4 →
  0 < blen data1 / BLOCK_SIZE < 2 ^ 31 → 0 < blen data2 / BLOCK_SIZE < 2 ^ 31 →
  dmu_allocate m pref1 (blen data1 / BLOCK_SIZE) = Some (inl o1, m1) →
  dmu_allocate m1 pref2 (blen data2 / BLOCK_SIZE) = Some (inl o2, m2) →
  apart_at ts o1 data1 o2 data2.
Proof. intros Hwf. by apply allocations_apart_on. Qed.

End pool.

(** ** Example

    A mirror of two disks of eight blocks *)
Module PoolAllocExamples.
Import WholeData.
Import DmuAllocExamples.

#[local] Existing Instance info_bincode.
#[local] Existing Instance dead_bincode.

#[local] Instance zeroes : Memory := {| uninit n := replicate (Z.to_nat n) zero |}.

Definition mirror_tiers : list (StorageTier (Dev MemoryDev)) :=
  [mkStorageTier [DMirror (mkMirror [PoolExamples.disk 8; PoolExamples.disk 8] "mirror" no_stats)]
     Meta.AccessUnknown PoolConfig.Hdd].

Lemma mirror_tiers_wf : tiers_wf mirror_tiers.
Proof.
  intros [|n] t Ht; [|done]. injection Ht as <-. split; [simpl; lia|].
  intros d Hd. apply list_elem_of_singleton in Hd as ->. split; [|done].
  intros b Hb. vm_compute in Hb. injection Hb as <-. lia.
Qed.

#[local] Instance mirror_layer : StoragePoolLayer := pool_layer mirror_tiers.

Lemma mirror_disk c d : 0 ≤ c < 4 → 0 ≤ d < disk_count c → c = 0 ∧ d = 0.
Proof.
  assert (disk_count 0 = 1 ∧ disk_count 1 = 0 ∧ disk_count 2 = 0 ∧ disk_count 3 = 0) as (E0 & E1 & E2 & E3)
    by (by vm_compute).
  intros Hc Hd. assert (c = 0 ∨ c = 1 ∨ c = 2 ∨ c = 3) as [-> |[-> |[-> | ->]]] by lia;
    rewrite ?E0, ?E1, ?E2, ?E3 in Hd; lia.
Qed.

Lemma small_dmu_mirror_ok : dmu_ok small_dmu.
Proof.
  split.
  - split; [split|].
    + intros s a. simpl. rewrite lookup_singleton_Some. intros [_ <-]. apply fragmented_ok.
    + intros id. unfold stored_bits. simpl. rewrite lookup_empty.
      pose proof segment_bytes_eq. pose proof segment_size_eq. change (blen (default [] None)) with 0. lia.
    + done.
    + done.
  - intros c d Hc Hd. destruct (mirror_disk c d Hc Hd) as [-> ->]. by eexists.
  - done.
  - intros c d Hc Hd. destruct (mirror_disk c d Hc Hd) as [-> ->]. exists None. done.
  - split; [done|]. intros row c Hrow Hin. apply elem_of_replicate in Hrow as [-> _].
    apply list_elem_of_singleton in Hin. injection Hin as ->. lia.
Qed.

Definition two_blocks : bytes := replicate (Z.to_nat (2 * BLOCK_SIZE)) zero.

Definition two_offsets : option (DiskOffset * DiskOffset) :=
  match dmu_allocate small_dmu 0 2 with
  | Some (inl o1, m1) => match dmu_allocate m1 0 2 with Some (inl o2, _) => Some (o1, o2) | _ => None end
  | _ => None
  end.

Lemma allocations_apart_witness :
  ∃ o1 o2, two_offsets = Some (o1, o2) ∧ apart_at mirror_tiers o1 two_blocks o2 two_blocks.
Proof.
  assert (blen two_blocks / BLOCK_SIZE = 2) as Hb by (by vm_compute).
  assert (two_offsets = Some (DiskOffset.mk 2, DiskOffset.mk 6)) as Hv by (by vm_compute).
  exists (DiskOffset.mk 2), (DiskOffset.mk 6). split; [exact Hv|]. unfold two_offsets in Hv.
  destruct (dmu_allocate small_dmu 0 2) as [[[o1|] m1]|] eqn:E1; try discriminate Hv.
  destruct (dmu_allocate m1 0 2) as [[[o2|] m2]|] eqn:E2; try discriminate Hv.
  assert (o1 = DiskOffset.mk 2 ∧ o2 = DiskOffset.mk 6) as [Ho1 Ho2] by (split; congruence).
  rewrite <- Ho1, <- Ho2.
  apply (allocations_apart mirror_tiers small_dmu 0 two_blocks o1 m1 0 two_blocks o2 m2);
    [apply mirror_tiers_wf|apply small_dmu_mirror_ok|lia|lia|rewrite Hb; lia|rewrite Hb; lia|rewrite Hb; exact E1|rewrite Hb; exact E2].
Defined.

End PoolAllocExamples.
