(* ===== verification/DmuObjects.v ===== *)
(** * Objects in the data management unit

    [data_management/dmu.rs], [impls.rs] and [object_ptr.rs]: how an object
    moves between the cache and the disk, and what its references are
    meanwhile.

    An object that was changed is in the cache under [Modified(mid)]; when its
    write-back starts it goes to [InWriteback(mid)]; when the write-back is
    over it is either dropped from the cache or found under [Unmodified], and
    [written_back] has its pointer.  A reference still says [Modified(mid)]
    then: [fix_or] brings it forward when somebody meets it.

    An object is the references to its children and the rest, its body.
    Packing and unpacking are parameters ([Object]), and so are allocation and
    the storage pool ([ObjectStore]).  Where the cache chooses the entry to
    evict, the entries that it offers are an argument.  What threads do
    between two acquisitions of the cache's lock is one step; pins are not
    modelled, except that [remove] of a pinned object panics: a step that waits
    for a pin is taken when there is none.  Cache sizes are those of
    [Cache.v]. *)

From Stdlib Require Import ZArith Lia.
From stdpp Require Import base option list numbers gmap.
From S2P Require Import Prelude.
From S2P Require Import Bytes.
From S2P Require Import StoragePref.
From S2P Require Import Checksum.
From S2P Require Import ChildBuffer.
From S2P Require Import Internal.
From S2P Require Import Disk.
From S2P Require Import DmuAlloc.
From S2P Require Import Buffer.
From S2P Require Import Compression.
From S2P Require Import Vdev.
Import DiskOffset(DiskOffset).

(** ** Identifiers and keys *)

Record ModifiedObjectId := mkMid { mid_id : Z; mid_pref : StoragePreference }.

#[global] Instance DiskOffset_dec : EqDecision DiskOffset.
Proof. solve_decision. Defined.

#[global] Instance mid_eq_dec : EqDecision ModifiedObjectId.
Proof. solve_decision. Defined.

#[global] Instance mid_countable : Countable ModifiedObjectId.
Proof.
  refine (inj_countable' (λ m, (mid_id m, mid_pref m)) (λ p, mkMid p.1 p.2) _). by intros [].
Defined.

Inductive ObjectKey :=
  | KUnmodified (offset : DiskOffset) (generation : Z)
  | KModified (mid : ModifiedObjectId)
  | KInWriteback (mid : ModifiedObjectId).

#[global] Instance key_eq_dec : EqDecision ObjectKey.
Proof. solve_decision. Defined.

#[global] Instance key_countable : Countable ObjectKey.
Proof.
  refine (inj_countable'
    (λ k, match k with
          | KUnmodified o g => inl (DiskOffset.raw o, g)
          | KModified m => inr (inl m)
          | KInWriteback m => inr (inr m)
          end)
    (λ x, match x with
          | inl (o, g) => KUnmodified (DiskOffset.mk o) g
          | inr (inl m) => KModified m
          | inr (inr m) => KInWriteback m
          end) _).
  by intros [[] ?| |].
Defined.

(** [empty] of the builder: a checksum that accepts anything *)
Class EmptyChecksum `{Checksum} := { csum_empty : csum }.

(** ** Pointers and references *)

Section references.
Context `{Checksum}.

Record ObjectPointer := mkPtr {
  ptr_tag : DecompressionTag;
  ptr_checksum : csum;
  ptr_offset : DiskOffset;
  ptr_size : Z;
  ptr_integrity : IntegrityMode csum;
  ptr_info : DatasetId;
  ptr_generation : Z;
}.

Inductive ObjRef :=
  | RIncomplete (p : ObjectPointer)
  | RUnmodified (p : ObjectPointer) (pk : PivotKey)
  | RModified (mid : ModifiedObjectId) (pk : PivotKey)
  | RInWriteback (mid : ModifiedObjectId) (pk : PivotKey).

Definition get_unmodified (r : ObjRef) : option ObjectPointer :=
  match r with RUnmodified p _ | RIncomplete p => Some p | _ => None end.

Definition ref_set_index (r : ObjRef) (pk : PivotKey) : ObjRef :=
  match r with
  | RIncomplete p | RUnmodified p _ => RUnmodified p pk
  | RModified m _ => RModified m pk
  | RInWriteback m pk => RInWriteback m pk
  end.

(** [unreachable!] for an incomplete reference *)
Definition ref_index (r : ObjRef) : option PivotKey :=
  match r with
  | RIncomplete _ => None
  | RUnmodified _ pk | RModified _ pk | RInWriteback _ pk => Some pk
  end.

Definition ptr_key (p : ObjectPointer) : ObjectKey := KUnmodified (ptr_offset p) (ptr_generation p).

Definition as_key (r : ObjRef) : option ObjectKey :=
  match r with
  | RUnmodified p _ => Some (ptr_key p)
  | RModified m _ => Some (KModified m)
  | RInWriteback m _ => Some (KInWriteback m)
  | RIncomplete _ => None
  end.

Definition root_ref_from_obj_ptr (p : ObjectPointer) : ObjRef := RUnmodified p (PkRoot (ptr_info p)).

Definition ref_preference (r : ObjRef) : option StoragePreference :=
  match r with
  | RUnmodified p _ => Pref.new (DiskOffset.storage_class (ptr_offset p))
  | RModified m _ | RInWriteback m _ => Some (mid_pref m)
  | RIncomplete _ => None
  end.

(** ** Interfaces *)

(** [Node]: its child references and the rest *)
Record Obj (P : Type) := mkObj { body : P; kids : list ObjRef }.
Arguments mkObj {P}.
Arguments body {P}.
Arguments kids {P}.

(** The trait [Object], with [HasStoragePreference].  [obj_pack] gives the
    slices that are written one after the other. *)
Class Object (P : Type) := {
  obj_size : Obj P → Z;
  obj_preference : Obj P → StoragePreference;
  obj_set_preference : StoragePreference → P → P;
  obj_pack : Obj P → option ((list bytes * IntegrityMode csum) + unit);
  obj_unpack : DatasetId → bytes → IntegrityMode csum → option (Obj P + unit);
}.

(** The handler and the pool: generation, allocation, [begin_write], [read],
    and [Handler::copy_on_write] for the actual size. *)
Class ObjectStore (St : Type) := {
  os_generation : St → Z;
  os_allocate : St → Z → Z → option ((DiskOffset + DmuError) * St);
  os_write : St → bytes → DiskOffset → option ((unit + VdevError) * St);
  os_read : St → Z → DiskOffset → csum → option ((bytes + VdevError) * St);
  os_copy_on_write : St → DiskOffset → Z → Z → DatasetId → option St;
}.

Inductive ObjError :=
  | EVdev (e : VdevError) | EAllocate (e : DmuError) | EIo | EDecompression.

End references.

Arguments mkObj {_ P}.
Arguments body {_ P}.
Arguments kids {_ P}.

(** ** The unit *)

Section unit.
Context `{EmptyChecksum} `{!Memory} `{!Zstd}.
Context {P St : Type} `{!Object P} `{!ObjectStore St}.
Context (default_compression : CompressionConfiguration) (default_storage_class : Z).

Record ObjDmu := mkObjDmu {
  cache : gmap ObjectKey (PivotKey * Obj P);
  written_back : gmap ModifiedObjectId ObjectPointer;
  modified_info : gmap ModifiedObjectId DatasetId;
  storage_hints : list (PivotKey * StoragePreference);
  next_modified_node_id : Z;
  store : St;
}.

Definition set_cache (s : ObjDmu) (c : gmap ObjectKey (PivotKey * Obj P)) : ObjDmu :=
  mkObjDmu c (written_back s) (modified_info s) (storage_hints s) (next_modified_node_id s) (store s).
Definition set_written_back (s : ObjDmu) (w : gmap ModifiedObjectId ObjectPointer) : ObjDmu :=
  mkObjDmu (cache s) w (modified_info s) (storage_hints s) (next_modified_node_id s) (store s).
Definition set_modified_info (s : ObjDmu) (i : gmap ModifiedObjectId DatasetId) : ObjDmu :=
  mkObjDmu (cache s) (written_back s) i (storage_hints s) (next_modified_node_id s) (store s).
Definition set_hints (s : ObjDmu) (h : list (PivotKey * StoragePreference)) : ObjDmu :=
  mkObjDmu (cache s) (written_back s) (modified_info s) h (next_modified_node_id s) (store s).
Definition set_next (s : ObjDmu) (n : Z) : ObjDmu :=
  mkObjDmu (cache s) (written_back s) (modified_info s) (storage_hints s) n (store s).
Definition set_store (s : ObjDmu) (st : St) : ObjDmu :=
  mkObjDmu (cache s) (written_back s) (modified_info s) (storage_hints s) (next_modified_node_id s) st.

(** [HashMap::remove] of the hints *)
Fixpoint hint_take (hs : list (PivotKey * StoragePreference)) (pk : PivotKey) :
    option (StoragePreference * list (PivotKey * StoragePreference)) :=
  match hs with
  | [] => None
  | (k, p) :: hs =>
      if decide (k = pk) then Some (p, hs)
      else '(q, hs) ← hint_take hs pk; Some (q, (k, p) :: hs)
  end.

(** [set_system_storage_preference] of an object *)
Definition prefer (pref : StoragePreference) (o : Obj P) : Obj P :=
  mkObj (obj_set_preference pref (body o)) (kids o).

(** ** References and the cache *)

(** [copy_on_write]; the report to the migration policy is left out. *)
Definition dmu_copy_on_write (s : ObjDmu) (p : ObjectPointer) : option ObjDmu :=
  st ← os_copy_on_write (store s) (ptr_offset p) (ptr_size p) (ptr_generation p) (ptr_info p);
  Some (set_store s st).

(** [steal]: the entry is found under [as_key] of the new reference. *)
Definition steal (s : ObjDmu) (r : ObjRef) (info : DatasetId) : option (bool * ObjDmu * ObjRef) :=
  let id := next_modified_node_id s in
  let s := set_next s (wrap64 (id + 1)) in
  pk ← ref_index r;
  pref ← ref_preference r;
  let mid := mkMid id pref in
  key ← as_key r;
  match cache s !! key with
  | None => Some (false, s, r)
  | Some entry =>
      let s := set_cache s (<[KModified mid := entry]> (delete key (cache s))) in
      let s := set_modified_info s (<[mid := info]> (modified_info s)) in
      s ← match r with RUnmodified p _ => dmu_copy_on_write s p | _ => Some s end;
      Some (true, s, RModified mid pk)
  end.

Definition fix_or (s : ObjDmu) (r : ObjRef) : option (ObjDmu * ObjRef) :=
  match r with
  | RModified mid pk => Some (s, RInWriteback mid pk)
  | RInWriteback mid pk =>
      p ← written_back s !! mid;
      Some (set_written_back s (delete mid (written_back s)), RUnmodified p pk)
  | RUnmodified _ _ | RIncomplete _ => None
  end.

(** The data that a pointer's object is read from *)
Definition ptr_decode (p : ObjectPointer) (data : bytes) : option (Obj P + ObjError) :=
  d ← decompress (ptr_tag p) {| buf_source := data; range_start := 0; range_end := ptr_size p |};
  match d with
  | inr _ => Some (inr EDecompression)
  | inl b =>
      data ← buf_as_ref b;
      o ← obj_unpack (ptr_info p) data (ptr_integrity p);
      Some (match o with inl o => inl o | inr _ => inr EIo end)
  end.

(** [ObjectPointer::fetch] *)
Definition ptr_fetch (st : St) (p : ObjectPointer) : option ((Obj P + ObjError) * St) :=
  '(r, st) ← os_read st (ptr_size p) (ptr_offset p) (ptr_checksum p);
  match r with
  | inr e => Some (inr (EVdev e), st)
  | inl data => o ← ptr_decode p data; Some (o, st)
  end.

Definition insert_object_into_cache (s : ObjDmu) (key : ObjectKey) (entry : PivotKey * Obj P) : ObjDmu :=
  match cache s !! key with
  | Some _ => s
  | None => set_cache s (<[key := entry]> (cache s))
  end.

Definition fetch (s : ObjDmu) (p : ObjectPointer) (pk : PivotKey) : option ((unit + ObjError) * ObjDmu) :=
  '(r, st) ← ptr_fetch (store s) p;
  let s := set_store s st in
  Some (match r with
        | inl o => (inl tt, insert_object_into_cache s (ptr_key p) (pk, o))
        | inr e => (inr e, s)
        end).

(** ** Access *)

(** The objects that a handle gives access to are those under these keys. *)
Definition try_get (s : ObjDmu) (r : ObjRef) : option (option ObjectKey) :=
  key ← as_key r;
  Some (match cache s !! key with Some _ => Some key | None => None end).

Definition try_get_mut (s : ObjDmu) (r : ObjRef) : option ObjectKey :=
  match r with
  | RModified mid _ =>
      match cache s !! KModified mid with Some _ => Some (KModified mid) | None => None end
  | _ => None
  end.

(** The loop of [get]: [Modified], [InWriteback], [Unmodified] and not in the
    cache, and again after a fetch, of which a storage hint makes [Modified]. *)
Fixpoint get_loop (fuel : nat) (s : ObjDmu) (r : ObjRef) :
    option ((ObjectKey + ObjError) * ObjDmu * ObjRef) :=
  match fuel with
  | O => None
  | S fuel =>
      key ← as_key r;
      match cache s !! key with
      | Some _ => Some (inl key, s, r)
      | None =>
          match r with
          | RUnmodified p pk =>
              '(f, s) ← fetch s p pk;
              match f with
              | inr e => Some (inr e, s, r)
              | inl _ =>
                  match hint_take (storage_hints s) pk with
                  | None => get_loop fuel s r
                  | Some (pref, hs) =>
                      '(stolen, s, r) ← steal (set_hints s hs) r (ptr_info p);
                      key ← as_key r;
                      let s := if stolen : bool
                               then set_cache s (alter (λ e, (e.1, prefer pref e.2)) key (cache s))
                               else s in
                      get_loop fuel s r
                  end
              end
          | _ => '(s, r) ← fix_or s r; get_loop fuel s r
          end
      end
  end.

Definition get (s : ObjDmu) (r : ObjRef) : option ((ObjectKey + ObjError) * ObjDmu * ObjRef) :=
  get_loop 4 s r.

(** The loop of [get_mut]: a second round after [get]. *)
Fixpoint get_mut_loop (fuel : nat) (s : ObjDmu) (r : ObjRef) (info : DatasetId) :
    option ((ObjectKey + ObjError) * ObjDmu * ObjRef) :=
  match fuel with
  | O => None
  | S fuel =>
      '(stolen, s, r) ← steal s r info;
      if stolen : bool then key ← as_key r; Some (inl key, s, r)
      else
        '(g, s, r) ← get s r;
        match g with
        | inr e => Some (inr e, s, r)
        | inl _ => get_mut_loop fuel s r info
        end
  end.

Definition get_mut (s : ObjDmu) (r : ObjRef) (info : DatasetId) :
    option ((ObjectKey + ObjError) * ObjDmu * ObjRef) :=
  match try_get_mut s r with
  | Some key => Some (inl key, s, r)
  | None => get_mut_loop 2 s r info
  end.

(** What the holder of a mutable handle does to the object *)
Definition put (s : ObjDmu) (key : ObjectKey) (o : Obj P) : ObjDmu :=
  set_cache s (alter (λ e, (e.1, o)) key (cache s)).

Definition insert (s : ObjDmu) (o : Obj P) (info : DatasetId) (pk : PivotKey) : ObjDmu * ObjRef :=
  let mid := mkMid (next_modified_node_id s) (obj_preference o) in
  let s := set_next s (wrap64 (next_modified_node_id s + 1)) in
  let s := set_modified_info s (<[mid := info]> (modified_info s)) in
  (set_cache s (<[KModified mid := (pk, o)]> (cache s)), RModified mid pk).

(** [remove]; [pinned] if there is a handle of the object. *)
Definition remove (s : ObjDmu) (r : ObjRef) (pinned : bool) : option ObjDmu :=
  key ← as_key r;
  s ← match cache s !! key with
      | None => Some s
      | Some _ => if pinned then None else Some (set_cache s (delete key (cache s)))
      end;
  match r with RUnmodified p _ => dmu_copy_on_write s p | _ => Some s end.

Definition get_and_remove (s : ObjDmu) (r : ObjRef) (pinned : bool) :
    option ((Obj P + ObjError) * ObjDmu) :=
  '(g, s, r) ← get s r;
  match g with
  | inr e => Some (inr e, s)
  | inl key =>
      '(_, o) ← cache s !! key;
      assert! negb pinned;
      let s := set_cache s (delete key (cache s)) in
      s ← match r with RUnmodified p _ => dmu_copy_on_write s p | _ => Some s end;
      Some (inl o, s)
  end.

Definition is_clean (key : ObjectKey) : bool := match key with KUnmodified _ _ => true | _ => false end.

(** [drop_cache]; pinned entries stay. *)
Definition drop_cache (s : ObjDmu) (pinned : ObjectKey → bool) : ObjDmu :=
  set_cache s (filter (λ ke, is_clean ke.1 && negb (pinned ke.1) = false) (cache s)).

(** [prefetch]: what is to be read *)
Definition prefetch (s : ObjDmu) (r : ObjRef) : option (option (ObjectPointer * PivotKey)) :=
  key ← as_key r;
  match cache s !! key with
  | Some _ => Some None
  | None => Some match r with RUnmodified p pk => Some (p, pk) | _ => None end
  end.

(** [finish_prefetch], for the data that was read *)
Definition finish_prefetch (s : ObjDmu) (p : ObjectPointer) (pk : PivotKey) (data : bytes) :
    option ((ObjectKey + ObjError) * ObjDmu) :=
  o ← ptr_decode p data;
  Some match o with
       | inr e => (inr e, s)
       | inl o => (inl (ptr_key p), insert_object_into_cache s (ptr_key p) (pk, o))
       end.

(** ** Write-back *)

(** The loop over one child in [evict] and [prepare_write_back]: [false] if
    the child is in the cache and has to be written first. *)
Fixpoint settle (fuel : nat) (s : ObjDmu) (r : ObjRef) : option (bool * ObjDmu * ObjRef) :=
  match r with
  | RUnmodified _ _ => Some (true, s, r)
  | _ =>
      match fuel with
      | O => None
      | S fuel =>
          key ← as_key r;
          match cache s !! key with
          | Some _ => Some (false, s, r)
          | None => '(s, r) ← fix_or s r; settle fuel s r
          end
      end
  end.

(** [for_each_child] in [evict], which stops at the first child that is not
    [Unmodified] *)
Fixpoint settle_until (s : ObjDmu) (rs : list ObjRef) : option (bool * ObjDmu * list ObjRef) :=
  match rs with
  | [] => Some (true, s, [])
  | r :: rs =>
      '(ok, s, r) ← settle 2 s r;
      if ok : bool then '(ok, s, rs) ← settle_until s rs; Some (ok, s, r :: rs)
      else Some (false, s, r :: rs)
  end.

Definition ref_mid (r : ObjRef) : option ModifiedObjectId :=
  match r with RModified m _ | RInWriteback m _ => Some m | _ => None end.

(** [for_each_child] in [prepare_write_back], which collects the others *)
Fixpoint settle_all (s : ObjDmu) (rs : list ObjRef) :
    option (list (ModifiedObjectId * PivotKey) * ObjDmu * list ObjRef) :=
  match rs with
  | [] => Some ([], s, [])
  | r :: rs =>
      '(ok, s, r) ← settle 2 s r;
      dep ← (if ok : bool then Some [] else mid ← ref_mid r; pk ← ref_index r; Some [(mid, pk)]);
      '(deps, s, rs) ← settle_all s rs;
      Some (dep ++ deps, s, r :: rs)
  end.

(** The callback of [evict]: may the entry go? *)
Definition can_be_evicted (s : ObjDmu) (key : ObjectKey) (entry : PivotKey * Obj P) :
    option (bool * ObjDmu) :=
  match key with
  | KInWriteback _ => Some (false, s)
  | KUnmodified _ _ => Some (true, s)
  | KModified _ =>
      '(ok, s, rs) ← settle_until s (kids entry.2);
      Some (ok, set_cache s (<[key := (entry.1, mkObj (body entry.2) rs)]> (cache s)))
  end.

(** [cache.evict], by the keys that the cache offers *)
Fixpoint cache_evict (s : ObjDmu) (offered : list ObjectKey) : option (option ObjectKey * ObjDmu) :=
  match offered with
  | [] => Some (None, s)
  | key :: offered =>
      match cache s !! key with
      | None => cache_evict s offered
      | Some entry =>
          '(ok, s) ← can_be_evicted s key entry;
          if ok : bool then Some (Some key, s) else cache_evict s offered
      end
  end.

(** [evict] up to the write-back: the object whose write-back follows *)
Definition evict_begin (s : ObjDmu) (offered : list ObjectKey) :
    option (option (ModifiedObjectId * PivotKey) * ObjDmu) :=
  '(victim, s) ← cache_evict s offered;
  match victim with
  | None => Some (None, s)
  | Some key =>
      entry ← cache s !! key;
      let s := set_cache s (delete key (cache s)) in
      match key with
      | KInWriteback _ => None
      | KUnmodified _ _ => Some (None, s)
      | KModified mid =>
          Some (Some (mid, entry.1), set_cache s (<[KInWriteback mid := entry]> (cache s)))
      end
  end.

(** [handle_write_back] until the write is queued *)
Definition write_object (s : ObjDmu) (mid : ModifiedObjectId) (pivot_key : PivotKey) :
    option ((ObjectPointer + ObjError) * ObjDmu) :=
  '(tag, o) ← cache s !! KInWriteback mid;
  let object_size := obj_size o in
  let generation := os_generation (store s) in
  let '(o, hints) :=
    match hint_take (storage_hints s) pivot_key with
    | Some (pref, hints) => (prefer pref o, hints)
    | None => (o, storage_hints s)
    end in
  let s := set_hints (set_cache s (<[KInWriteback mid := (tag, o)]> (cache s))) hints in
  let storage_class := default default_storage_class (Pref.preferred_class (obj_preference o)) in
  buf ← with_capacity (Block.round_up_from_bytes (wrap32 object_size));
  packed ← obj_pack o;
  match packed with
  | inr _ => Some (inr EIo, s)
  | inl (slices, integrity_mode) =>
      buf ← foldl (λ b d, b ← b; bw_write b d) (Some buf) slices;
      compressed ← compress default_compression (into_buf buf);
      compressed_data ← buf_as_ref compressed;
      assert! (blen compressed_data <? U32_SIZE);
      let size := (blen compressed_data + BLOCK_SIZE - 1) / BLOCK_SIZE in
      '(a, st) ← os_allocate (store s) storage_class size;
      let s := set_store s st in
      match a with
      | inr e => Some (inr (EAllocate e), s)
      | inl offset =>
          assert! (size * BLOCK_SIZE =? blen compressed_data);
          info ← modified_info s !! mid;
          let s := set_modified_info s (delete mid (modified_info s)) in
          let checksum :=
            match integrity_mode with
            | External => csum_build compressed_data
            | ChildBuffer.Internal _ _ => csum_empty
            end in
          '(w, st) ← os_write (store s) compressed_data offset;
          let s := set_store s st in
          Some (match w with
                | inr e => inr (EVdev e)
                | inl _ => inl (mkPtr (decompression_tag default_compression) checksum offset size
                                  integrity_mode info generation)
                end, s)
      end
  end.

(** The rest of [handle_write_back], under the lock of the cache: was the
    object stolen meanwhile? *)
Definition write_back_done (s : ObjDmu) (mid : ModifiedObjectId) (evict : bool) (p : ObjectPointer) :
    option ObjDmu :=
  match cache s !! KInWriteback mid with
  | Some entry =>
      let c := delete (KInWriteback mid) (cache s) in
      let c := if evict then c else <[ptr_key p := entry]> c in
      Some (set_written_back (set_cache s c) (<[mid := p]> (written_back s)))
  | None => dmu_copy_on_write s p
  end.

Definition handle_write_back (s : ObjDmu) (mid : ModifiedObjectId) (evict : bool) (pk : PivotKey) :
    option ((ObjectPointer + ObjError) * ObjDmu) :=
  '(r, s) ← write_object s mid pk;
  match r with
  | inr e => Some (inr e, s)
  | inl p => s ← write_back_done s mid evict p; Some (inl p, s)
  end.

(** [evict] of one thread *)
Definition dmu_evict (s : ObjDmu) (offered : list ObjectKey) : option ((unit + ObjError) * ObjDmu) :=
  '(victim, s) ← evict_begin s offered;
  match victim with
  | None => Some (inl tt, s)
  | Some (mid, pk) =>
      '(r, s) ← handle_write_back s mid true pk;
      Some (match r with inl _ => inl tt | inr e => inr e end, s)
  end.

(** [prepare_write_back]: [Busy] if another write-back of the object is under
    way, for which it waits in a loop. *)
Inductive Prepared := Busy | NotPresent | Ready | Dependencies (deps : list (ModifiedObjectId * PivotKey)).

Definition prepare_write_back (s : ObjDmu) (mid : ModifiedObjectId) : option (Prepared * ObjDmu) :=
  match cache s !! KInWriteback mid with
  | Some _ => Some (Busy, s)
  | None =>
      match cache s !! KModified mid with
      | None => Some (NotPresent, s)
      | Some (tag, o) =>
          '(deps, s, rs) ← settle_all s (kids o);
          let entry := (tag, mkObj (body o) rs) in
          match deps with
          | [] => Some (Ready, set_cache s (<[KInWriteback mid := entry]>
                                             (delete (KModified mid) (cache s))))
          | _ => Some (Dependencies deps, set_cache s (<[KModified mid := entry]> (cache s)))
          end
      end
  end.

(** The loop over the objects that have to be written first, the last one
    first; after an error the object is [Modified] again. *)
Fixpoint write_dependencies (fuel : nat) (s : ObjDmu) (mids : list (ModifiedObjectId * PivotKey)) :
    option ((unit + ObjError) * ObjDmu) :=
  match mids with
  | [] => Some (inl tt, s)
  | (mid, pk) :: rest =>
      match fuel with
      | O => None
      | S fuel =>
          '(p, s) ← prepare_write_back s mid;
          match p with
          | Busy => None
          | NotPresent => write_dependencies fuel s rest
          | Dependencies deps => write_dependencies fuel s (rev deps ++ mids)
          | Ready =>
              '(r, s) ← handle_write_back s mid false pk;
              match r with
              | inl _ => write_dependencies fuel s rest
              | inr e =>
                  let c := match cache s !! KInWriteback mid with
                           | Some entry => <[KModified mid := entry]> (delete (KInWriteback mid) (cache s))
                           | None => cache s
                           end in
                  Some (inr e, set_cache s c)
              end
          end
      end
  end.

(** [write_back] of one thread; [mids] is a stack whose top comes first here.
    Without a result it panics or waits for ever. *)
Fixpoint write_back (fuel : nat) (s : ObjDmu) (r : ObjRef) :
    option ((ObjectPointer + ObjError) * ObjDmu * ObjRef) :=
  match fuel with
  | O => None
  | S fuel' =>
      match r with
      | RUnmodified p _ => Some (inl p, s, r)
      | RIncomplete _ => None
      | RModified mid pk | RInWriteback mid pk =>
          '(p, s) ← prepare_write_back s mid;
          match p with
          | Busy => None
          | NotPresent => '(s, r) ← fix_or s r; write_back fuel' s r
          | Ready => '(w, s) ← handle_write_back s mid false pk; Some (w, s, r)
          | Dependencies deps =>
              '(w, s) ← write_dependencies fuel s (rev deps);
              match w with
              | inl _ => write_back fuel' s r
              | inr e => Some (inr e, s, r)
              end
          end
      end
  end.

End unit.
