(* ===== verification/DmuDenote.v ===== *)
(** * What references denote

    The laws of the interfaces of [DmuObjects.v], and the meaning of a
    reference: a tree of contents.  [den s r t own] says that in the state [s]
    the reference [r] stands for the tree [t]; [own] lists what this depends
    on: identifiers of modified objects and places on disk.  A change that
    keeps what is listed keeps the meaning ([den_frame]), and a change at one
    node of a tree keeps the rest of it ([focus]). *)

From Stdlib Require Import ZArith Lia Permutation.
From stdpp Require Import base option list numbers gmap.
From S2P Require Import Prelude.
From S2P Require Import Bytes.
From S2P Require Import StoragePref.
From S2P Require Import Checksum.
From S2P Require Import ChildBuffer.
From S2P Require Import Internal.
From S2P Require Import Disk.
From S2P Require Import DmuAlloc.
From S2P Require Import Buffer.
From S2P Require Import Compression.
From S2P Require Import Vdev.
From S2P Require Import DmuObjects.
Import DiskOffset(DiskOffset).

(** ** Laws *)

(** A pointer whose fields have the width that they have in the code *)
Definition info_ok (i : DatasetId) : Prop := 0 ≤ i < U64_SIZE.

Definition mode_ok {C} (mode : IntegrityMode C) : Prop :=
  match mode with External => True | ChildBuffer.Internal _ len => 0 ≤ len < U32_SIZE end.

Definition ptr_ok `{Checksum} (p : ObjectPointer) : Prop :=
  0 ≤ DiskOffset.raw (ptr_offset p) < U64_SIZE ∧ 0 ≤ ptr_size p < U32_SIZE ∧ mode_ok (ptr_integrity p) ∧
  info_ok (ptr_info p) ∧ 0 ≤ ptr_generation p < U64_SIZE.

Definition is_unmodified `{Checksum} (r : ObjRef) : Prop :=
  match r with RUnmodified p _ => ptr_ok p | _ => False end.

(** References to the same place on disk *)
Definition same_ptr `{Checksum} (r r' : ObjRef) : Prop :=
  match r, r' with RUnmodified p _, RUnmodified p' _ => p = p' ∧ ptr_ok p | _, _ => False end.

(** The content of a body is what its representation and its storage
    preference leave unchanged; [obj_wf] is the invariant of the objects that
    clients make.  Such an object can be packed when its children are
    unmodified, and is read back with the same content and the same pointers,
    whatever follows the packed bytes.  The size that an object says of itself
    need not be the number of bytes that it is packed to (the pointers are
    larger than their [static_size]), but not less than half of it. *)
Class ObjectLaws `{Object P} := {
  Content : Type;
  content : P → Content;
  obj_wf : Obj P → Prop;
  obj_wf_dec o :: Decision (obj_wf o);
  prefer_content pref b : content (obj_set_preference pref b) = content b;
  prefer_wf pref b ks : obj_wf (mkObj b ks) → obj_wf (mkObj (obj_set_preference pref b) ks);
  prefer_size pref b ks : obj_size (mkObj (obj_set_preference pref b) ks) = obj_size (mkObj b ks);
  kids_wf b ks ks' : length ks = length ks' → obj_wf (mkObj b ks) → obj_wf (mkObj b ks');
  kids_size b ks ks' : length ks = length ks' → obj_size (mkObj b ks) = obj_size (mkObj b ks');
  pack_total o :
    obj_wf o → Forall is_unmodified (kids o) → ∃ slices mode,
      obj_pack o = Some (inl (slices, mode)) ∧ blen (concat slices) ≤ 2 * obj_size o ∧ mode_ok mode ∧
      ∀ info rest, blen (concat slices ++ rest) < U32_SIZE → ∃ o',
        obj_unpack info (concat slices ++ rest) mode = Some (inl o') ∧
        content (body o) = content (body o') ∧ Forall2 same_ptr (kids o) (kids o') ∧
        obj_wf o' ∧ obj_size o' = obj_size o;
}.

(** [os_holds st o d]: the place [o] was allocated and written with [d], and
    has not been given back. *)
Class ObjectStoreLaws `{ObjectStore St} := {
  os_ok : St → Prop;
  os_holds : St → DiskOffset → bytes → Prop;
  os_room : St → DiskOffset → Z → Prop;
  os_generation_ok st : os_ok st → 0 ≤ os_generation st < U64_SIZE;
  os_allocate_ok st class n :
    os_ok st → 0 < n → ∃ r st', os_allocate st class n = Some (r, st') ∧ os_ok st' ∧
      (∀ o d, os_holds st o d → os_holds st' o d) ∧
      ∀ o, r = inl o → os_room st' o n ∧ 0 ≤ DiskOffset.raw o < U64_SIZE ∧ ∀ d, ¬ os_holds st' o d;
  os_write_ok st d o n :
    os_ok st → os_room st o n → blen d = BLOCK_SIZE * n → ∃ r st',
      os_write st d o = Some (r, st') ∧ os_ok st' ∧
      (∀ o' d', o' ≠ o → os_holds st o' d' → os_holds st' o' d') ∧ (r = inl tt → os_holds st' o d);
  os_read_ok st n o ck d :
    os_ok st → os_holds st o d → blen d = BLOCK_SIZE * n → csum_verify ck d = true → ∃ st',
      os_read st n o ck = Some (inl d, st') ∧ os_ok st' ∧ ∀ o' d', os_holds st o' d' → os_holds st' o' d';
  os_copy_on_write_ok st o n g i :
    os_ok st → ∃ st', os_copy_on_write st o n g i = Some st' ∧ os_ok st' ∧
      ∀ o' d', o' ≠ o → os_holds st o' d' → os_holds st' o' d';
}.

Class EmptyLaws `{EmptyChecksum} := { csum_empty_verify d : csum_verify csum_empty d = true }.

(** ** Lists of resources *)

#[export] Instance app_permutation {A} : Proper (Permutation ==> Permutation ==> Permutation) (@app A).
Proof. intros a a' Ha b b' Hb. by apply Permutation_app. Qed.

Lemma perm_in_r {A} (a b c X : list A) : b ≡ₚ X ++ c → a ++ b ≡ₚ X ++ a ++ c.
Proof. intros Hp. etrans; [by apply Permutation_app_head|]. rewrite !app_assoc. apply Permutation_app_tail, Permutation_app_comm. Qed.

Lemma perm_in_l {A} (a b c X : list A) : a ≡ₚ X ++ c → a ++ b ≡ₚ X ++ c ++ b.
Proof. intros Hp. rewrite app_assoc. by apply Permutation_app_tail. Qed.

(** ** Denotation *)

Inductive res := RMid (m : ModifiedObjectId) | ROff (o : DiskOffset).

#[global] Instance res_eq_dec : EqDecision res.
Proof. solve_decision. Defined.

(** Where the object of a modified reference is *)
Inductive place `{Checksum} := PMod | PWb | PDisk (p : ObjectPointer).

Section denote.
Context `{Hck : !Checksum} `{Hml : !Memory} `{Hz : !Zstd}.
Context {P St : Type} `{Hobj : !Object P} `{Hst : !ObjectStore St}.
Context `{Hol : !ObjectLaws} `{Hsl : !ObjectStoreLaws}.

Inductive tree := Nd (c : Content) (ts : list tree).

(** An object of at most 4 MiB, the size from which on the code warns *)
Definition small (o : Obj P) : Prop := obj_wf o ∧ 0 < obj_size o ≤ 2 ^ 22.

#[export] Instance small_dec o : Decision (small o).
Proof. unfold small. apply _. Defined.

Definition same (o o' : Obj P) : Prop :=
  content (body o) = content (body o') ∧ Forall2 same_ptr (kids o) (kids o').

(** [data] is what [p] points to, and [o] is read from it. *)
Definition reads (p : ObjectPointer) (data : bytes) (o : Obj P) : Prop :=
  blen data = BLOCK_SIZE * ptr_size p ∧ csum_verify (ptr_checksum p) data = true ∧
  ptr_decode p data = Some (inl o) ∧ Forall is_unmodified (kids o) ∧ small o ∧ ptr_ok p.

Definition on_disk (s : ObjDmu (P := P) (St := St)) (p : ObjectPointer) (o : Obj P) : Prop :=
  (∃ data, os_holds (store s) (ptr_offset p) data ∧ reads p data o) ∧
  ∀ g e, cache s !! KUnmodified (ptr_offset p) g = Some e → g = ptr_generation p ∧ same e.2 o ∧ small e.2.

Definition place_own (w : place) : list res :=
  match w with PDisk p => [ROff (ptr_offset p)] | _ => [] end.

Definition at_place (s : ObjDmu (P := P) (St := St)) (m : ModifiedObjectId) (w : place) (o : Obj P) : Prop :=
  match w with
  | PMod => ∃ tag, cache s !! KModified m = Some (tag, o) ∧
      cache s !! KInWriteback m = None ∧ written_back s !! m = None
  | PWb => ∃ tag, cache s !! KModified m = None ∧
      cache s !! KInWriteback m = Some (tag, o) ∧ written_back s !! m = None
  | PDisk p => cache s !! KModified m = None ∧ cache s !! KInWriteback m = None ∧
      written_back s !! m = Some p ∧ on_disk s p o
  end.

Definition resolve (s : ObjDmu (P := P) (St := St)) (r : ObjRef) (o : Obj P) (own : list res) : Prop :=
  match r with
  | RIncomplete _ => False
  | RUnmodified p _ => on_disk s p o ∧ own = [ROff (ptr_offset p)]
  | RModified m _ => ∃ w, at_place s m w o ∧ own = RMid m :: place_own w
  | RInWriteback m _ => ∃ w, at_place s m w o ∧ w ≠ PMod ∧ own = RMid m :: place_own w
  end.

Inductive den (s : ObjDmu (P := P) (St := St)) : ObjRef → tree → list res → Prop :=
  | den_node r o ts own own' :
      resolve s r o own → dens s (kids o) ts own' → den s r (Nd (content (body o)) ts) (own ++ own')
with dens (s : ObjDmu (P := P) (St := St)) : list ObjRef → list tree → list res → Prop :=
  | dens_nil : dens s [] [] []
  | dens_cons r rs t ts own own' :
      den s r t own → dens s rs ts own' → dens s (r :: rs) (t :: ts) (own ++ own').

Scheme den_ind2 := Minimality for den Sort Prop
  with dens_ind2 := Minimality for dens Sort Prop.
Combined Scheme den_dens_ind from den_ind2, dens_ind2.

(** [s'] is like [s] where the resource is concerned. *)
Definition agree (s s' : ObjDmu (P := P) (St := St)) (x : res) : Prop :=
  match x with
  | RMid m => cache s' !! KModified m = cache s !! KModified m ∧
      cache s' !! KInWriteback m = cache s !! KInWriteback m ∧ written_back s' !! m = written_back s !! m
  | ROff o => (∀ d, os_holds (store s) o d → os_holds (store s') o d) ∧
      ∀ g e, cache s' !! KUnmodified o g = Some e → cache s !! KUnmodified o g = Some e
  end.

Definition agrees (s s' : ObjDmu (P := P) (St := St)) (F : list res) : Prop := ∀ x, x ∈ F → agree s s' x.

Lemma agree_refl s x : agree s s x.
Proof. destruct x; simpl; auto. Qed.

Lemma agree_trans s1 s2 s3 x : agree s1 s2 x → agree s2 s3 x → agree s1 s3 x.
Proof.
  destruct x; simpl.
  - intros (?&?&?) (?&?&?). split_and!; congruence.
  - intros [? ?] [? ?]. split; auto.
Qed.

Lemma agrees_refl s F : agrees s s F.
Proof. intros x _. apply agree_refl. Qed.

Lemma agrees_trans s1 s2 s3 F : agrees s1 s2 F → agrees s2 s3 F → agrees s1 s3 F.
Proof. intros H1 H2 x Hx. eapply agree_trans; [by apply H1|by apply H2]. Qed.

Lemma agrees_sub s s' F F' : agrees s s' F → F' ⊆ F → agrees s s' F'.
Proof. intros Ha Hs x Hx. by apply Ha, Hs. Qed.

Lemma on_disk_frame s s' p o : agree s s' (ROff (ptr_offset p)) → on_disk s p o → on_disk s' p o.
Proof.
  intros [Hh Hc] [(d & Hd & Hr) Hs]. split; [eauto|]. intros g e He. by eapply Hs, Hc.
Qed.

Lemma at_place_frame s s' m w o :
  agree s s' (RMid m) → agrees s s' (place_own w) → at_place s m w o → at_place s' m w o.
Proof.
  intros (H1 & H2 & H3) Hp. destruct w as [| |p]; simpl; rewrite ?H1, ?H2, ?H3; try done.
  intros (? & ? & ? & Hd). split_and!; try done. eapply on_disk_frame; [|done]. apply Hp. set_solver.
Qed.

Lemma resolve_frame s s' r o own : agrees s s' own → resolve s r o own → resolve s' r o own.
Proof.
  intros Ha. destruct r as [p|p pk|m pk|m pk]; simpl; [done| | |].
  - intros [Hd ->]. split; [|done]. eapply on_disk_frame; [|done]. apply Ha. set_solver.
  - intros (w & Hw & ->). exists w. split; [|done].
    eapply at_place_frame; [apply Ha; set_solver|intros x Hx; apply Ha; set_solver|done].
  - intros (w & Hw & Hne & ->). exists w. split_and!; [|done..].
    eapply at_place_frame; [apply Ha; set_solver|intros x Hx; apply Ha; set_solver|done].
Qed.

Lemma den_dens_frame s s' :
  (∀ r t own, den s r t own → agrees s s' own → den s' r t own) ∧
  (∀ rs ts own, dens s rs ts own → agrees s s' own → dens s' rs ts own).
Proof.
  apply den_dens_ind.
  - intros r o ts own own' Hr _ IH Ha. constructor.
    + eapply resolve_frame; [|done]. intros x Hx. apply Ha. set_solver.
    + apply IH. intros x Hx. apply Ha. set_solver.
  - intros _. constructor.
  - intros r rs t ts own own' _ IH1 _ IH2 Ha. constructor.
    + apply IH1. intros x Hx. apply Ha. set_solver.
    + apply IH2. intros x Hx. apply Ha. set_solver.
Qed.

Lemma den_frame s s' r t own : den s r t own → agrees s s' own → den s' r t own.
Proof. apply den_dens_frame. Qed.

Lemma dens_frame s s' rs ts own : dens s rs ts own → agrees s s' own → dens s' rs ts own.
Proof. apply den_dens_frame. Qed.

Lemma dens_app s rs1 rs2 ts own :
  dens s (rs1 ++ rs2) ts own ↔ ∃ ts1 ts2 own1 own2,
    ts = ts1 ++ ts2 ∧ own = own1 ++ own2 ∧ dens s rs1 ts1 own1 ∧ dens s rs2 ts2 own2.
Proof.
  revert ts own. induction rs1 as [|r rs1 IH]; intros ts own; simpl; split.
  - intros Hd. by exists [], ts, [], own; repeat split; [constructor|].
  - intros (ts1 & ts2 & own1 & own2 & -> & -> & Hd & ?). by inversion Hd; subst.
  - inversion 1 as [|? ? t ts' o1 o2 Hd Hds]; subst. apply IH in Hds as (ts1 & ts2 & own1 & own2 & -> & -> & ? & ?).
    exists (t :: ts1), ts2, (o1 ++ own1), own2. split_and!; [done|by rewrite app_assoc|by constructor|done].
  - intros (ts1 & ts2 & own1 & own2 & -> & -> & Hd & ?). inversion Hd as [|? ? t ts' o1 o2]; subst.
    rewrite <- app_assoc. simpl. constructor; [done|]. apply IH. eauto 10.
Qed.

Lemma dens_length s rs ts own : dens s rs ts own → length rs = length ts.
Proof. revert ts own. induction rs; inversion 1; subst; simpl; eauto. Qed.

(** Only the pointers of unmodified references count. *)
Lemma dens_same s ks ks' ts own : Forall2 same_ptr ks ks' → dens s ks ts own → dens s ks' ts own.
Proof.
  intros Hf. revert ts own. induction Hf as [|r r' ks ks' Hr _ IH]; intros ts own; inversion 1; subst; constructor; auto.
  destruct r as [|p pk| |], r' as [|p' pk'| |]; try done. destruct Hr as [<- _].
  match goal with Hd : den _ _ _ _ |- _ => inversion Hd; subst end. by constructor.
Qed.

Lemma same_unmodified ks ks' : Forall2 same_ptr ks ks' → Forall is_unmodified ks.
Proof. induction 1 as [|r r' ? ? Hr]; constructor; [destruct r, r'; try done; by destruct Hr|done]. Qed.

Lemma same_refl o : Forall is_unmodified (kids o) → same o o.
Proof. intros Hu. split; [done|]. induction Hu as [|r ? Hr]; constructor; [by destruct r|done]. Qed.

Lemma same_sym o o' : same o o' → same o' o.
Proof.
  intros [Hc Hk]. split; [done|]. induction Hk as [|r r' ? ? Hr]; constructor; [|done].
  destruct r, r'; try done. by destruct Hr as [-> ?].
Qed.

Lemma same_trans o1 o2 o3 : same o1 o2 → same o2 o3 → same o1 o3.
Proof.
  intros [Hc Hk] [Hc' Hk']. split; [congruence|]. revert Hk'. generalize (kids o3).
  induction Hk as [|r r' ? ? Hr _ IH]; intros ks Hk'; inversion Hk'; subst; constructor; [|auto].
  destruct r, r'; try done. destruct Hr as [-> ?]. by destruct y.
Qed.

Lemma kids_small b ks ks' : length ks = length ks' → small (mkObj b ks) → small (mkObj b ks').
Proof. intros Hl [Hw Hs]. split; [by eapply kids_wf|]. by rewrite <- (kids_size b ks ks'). Qed.

Lemma prefer_small pref o : small o → small (prefer pref o).
Proof. destruct o as [b ks]. intros [Hw Hs]. split; [by apply prefer_wf|]. unfold prefer. simpl. by rewrite prefer_size. Qed.

(** The node that a resource belongs to, and what it takes to change it *)
Definition focused (s : ObjDmu (P := P) (St := St)) (x : res) (own : list res)
    (K : ObjDmu (P := P) (St := St) → list res → Prop) : Prop :=
  ∃ r0 o0 tk ownr owk rest,
    resolve s r0 o0 ownr ∧ x ∈ ownr ∧ dens s (kids o0) tk owk ∧ own ≡ₚ (ownr ++ owk) ++ rest ∧
    ∀ s' own0', den s' r0 (Nd (content (body o0)) tk) own0' → agrees s s' rest →
      ∃ own', K s' own' ∧ own' ≡ₚ own0' ++ rest.

Lemma focus_all s x :
  (∀ r t own, den s r t own → x ∈ own → focused s x own (λ s' own', den s' r t own')) ∧
  (∀ rs ts own, dens s rs ts own → x ∈ own → focused s x own (λ s' own', dens s' rs ts own')).
Proof.
  apply den_dens_ind.
  - intros r o ts own own' Hr Hk IH Hx. destruct (decide (x ∈ own)) as [Hin|Hnin].
    + exists r, o, ts, own, own', []. split_and!; [done..|by rewrite app_nil_r|].
      intros s' own0' Hd _. exists own0'. split; [done|by rewrite app_nil_r].
    + destruct IH as (r0 & o0 & tk & ownr & owk & rest & H0 & Hx0 & Hk0 & Hp & Hw); [set_solver|].
      exists r0, o0, tk, ownr, owk, (own ++ rest). split_and!; [done..|by apply perm_in_r|].
      intros s' own0' Hd Ha. destruct (Hw s' own0' Hd) as (own'' & Hd' & Hp'); [intros y Hy; apply Ha; set_solver|].
      exists (own ++ own''). split; [|by apply perm_in_r]. constructor; [|done].
      eapply resolve_frame; [|done]. intros y Hy. apply Ha. set_solver.
  - intros Hx. set_solver.
  - intros r rs t ts own own' Hd IH1 Hds IH2 Hx. destruct (decide (x ∈ own)) as [Hin|Hnin].
    + destruct (IH1 Hin) as (r0 & o0 & tk & ownr & owk & rest & H0 & Hx0 & Hk0 & Hp & Hw).
      exists r0, o0, tk, ownr, owk, (rest ++ own'). split_and!; [done..|by apply perm_in_l|].
      intros s' own0' Hd' Ha. destruct (Hw s' own0' Hd') as (own'' & Hd'' & Hp'); [intros y Hy; apply Ha; set_solver|].
      exists (own'' ++ own'). split; [|by apply perm_in_l]. constructor; [done|].
      eapply dens_frame; [done|]. intros y Hy. apply Ha. set_solver.
    + destruct IH2 as (r0 & o0 & tk & ownr & owk & rest & H0 & Hx0 & Hk0 & Hp & Hw); [set_solver|].
      exists r0, o0, tk, ownr, owk, (own ++ rest). split_and!; [done..|by apply perm_in_r|].
      intros s' own0' Hd' Ha. destruct (Hw s' own0' Hd') as (own'' & Hd'' & Hp'); [intros y Hy; apply Ha; set_solver|].
      exists (own ++ own''). split; [|by apply perm_in_r]. constructor; [|done].
      eapply den_frame; [done|]. intros y Hy. apply Ha. set_solver.
Qed.

Lemma focus s x rs ts own :
  dens s rs ts own → x ∈ own → focused s x own (λ s' own', dens s' rs ts own').
Proof. apply focus_all. Qed.

End denote.
