(* ===== verification/DmuProtocol.v ===== *)
(** * The operations of the data management unit keep what references denote

    [Aux] is the invariant of the unit's state for the resources [own] of all
    references that anybody holds: no two references share a resource, every
    modified or written object and every clean entry of the cache belongs to
    one of them.  [busy] are the objects that are about to be written, [pend]
    those whose write is queued and whose write-back is not over.

    The operations are specified for one reference, [own] are its resources
    and [F] all others: the reference denotes the same tree afterwards, and
    the state agrees with the old one on [F]. *)

From Stdlib Require Import ZArith Lia Permutation.
From stdpp Require Import base option list numbers gmap.
From S2P Require Import Prelude.
From S2P Require Import Bytes.
From S2P Require Import StoragePref.
From S2P Require Import Checksum.
From S2P Require Import ChildBuffer.
From S2P Require Import Internal.
From S2P Require Import Disk.
From S2P Require Import DmuAlloc.
From S2P Require Import Buffer.
From S2P Require Import Compression.
From S2P Require Import Vdev.
From S2P Require Import DmuObjects.
From S2P Require Import DmuDenote.
Import DiskOffset(DiskOffset).

Section protocol.
Context `{Hck : !Checksum} `{Hec : !EmptyChecksum} `{Hml : !Memory} `{Hz : !Zstd}.
Context {P St : Type} `{Hobj : !Object P} `{Hst : !ObjectStore St}.
Context `{Hol : !ObjectLaws} `{Hsl : !ObjectStoreLaws}.

Abbreviation Dmu := (ObjDmu (P := P) (St := St)).

Definition pend_own (pend : list (ModifiedObjectId * ObjectPointer)) : list res :=
  (λ x, ROff (ptr_offset x.2)) <$> pend.

Definition info_at (s : Dmu) (m : ModifiedObjectId) : Prop :=
  ∃ i, modified_info s !! m = Some i ∧ info_ok i.

Record Aux (s : Dmu) (busy : list ModifiedObjectId) (pend : list (ModifiedObjectId * ObjectPointer))
    (own : list res) : Prop := {
  a_nodup : NoDup (own ++ pend_own pend);
  a_mods : ∀ m e, cache s !! KModified m = Some e → RMid m ∈ own;
  a_wbs : ∀ m e, cache s !! KInWriteback m = Some e → RMid m ∈ own;
  a_written : ∀ m p, written_back s !! m = Some p → RMid m ∈ own;
  a_clean : ∀ o g e, cache s !! KUnmodified o g = Some e → ROff o ∈ own;
  a_fresh : ∀ m, RMid m ∈ own ∨ m ∈ busy ∨ m ∈ pend.*1 → mid_id m < next_modified_node_id s;
  a_info : ∀ m e, cache s !! KModified m = Some e → info_at s m;
  a_small : ∀ m e, cache s !! KModified m = Some e → small e.2;
  a_wb : ∀ m e, cache s !! KInWriteback m = Some e → small e.2 ∧ Forall is_unmodified (kids e.2);
  a_busy : ∀ m, m ∈ busy → is_Some (cache s !! KInWriteback m) ∧ info_at s m;
  a_pend : ∀ m p, (m, p) ∈ pend → ∃ d o, os_holds (store s) (ptr_offset p) d ∧ reads p d o ∧
    ∀ e, cache s !! KInWriteback m = Some e → same e.2 o;
  a_gone : ∀ m e, cache s !! KModified m = Some e → m ∉ pend.*1;
  a_once : NoDup (busy ++ pend.*1);
  a_store : os_ok (store s);
  a_next : 0 ≤ next_modified_node_id s;
}.

Lemma Aux_perm s busy pend own own' : own ≡ₚ own' → Aux s busy pend own → Aux s busy pend own'.
Proof.
  intros Hp [H1 H2 H3 H4 H5 H6 H7 H8 H9 H10 H11 Hg H12 H13 H14].
  assert (∀ x, x ∈ own' ↔ x ∈ own) as Hin by (intros x; by rewrite Hp).
  split; try done; intros; rewrite ?Hin; eauto.
  - by rewrite <- Hp.
  - apply H6. by rewrite <- Hin.
Qed.

(** *** Changes of the store that keep what is held *)

Lemma Aux_store s busy pend own st' :
  Aux s busy pend own → os_ok st' →
  (∀ m p d, (m, p) ∈ pend → os_holds (store s) (ptr_offset p) d → os_holds st' (ptr_offset p) d) →
  Aux (set_store s st') busy pend own.
Proof.
  intros [] Hok Hh. split; try done. simpl. intros m p Hp. destruct (a_pend0 m p Hp) as (d & o & Hd & Hr & He).
  exists d, o. split; [|done]. by eapply Hh.
Qed.

Lemma pend_in m p pend : (m, p) ∈ pend → ROff (ptr_offset p) ∈ pend_own pend.
Proof. intros Hp. unfold pend_own. apply list_elem_of_fmap. by exists (m, p). Qed.

(** *** Clean entries *)

Lemma Aux_clean_insert s busy pend own p e :
  Aux s busy pend own → ROff (ptr_offset p) ∈ own →
  Aux (set_cache s (<[ptr_key p := e]> (cache s))) busy pend own.
Proof.
  intros [] Hin. split; simpl; try done; unfold ptr_key.
  - intros m e'. rewrite lookup_insert_ne by done. apply a_mods0.
  - intros m e'. rewrite lookup_insert_ne by done. apply a_wbs0.
  - intros o g e' [[[= <- <-] _]|[_ ?]]%lookup_insert_Some; [done|]. by eapply a_clean0.
  - intros m e'. rewrite lookup_insert_ne by done. apply a_info0.
  - intros m e'. rewrite lookup_insert_ne by done. apply a_small0.
  - intros m e'. rewrite lookup_insert_ne by done. apply a_wb0.
  - intros m Hm. rewrite lookup_insert_ne by done. by apply a_busy0.
  - intros m q Hq. destruct (a_pend0 m q Hq) as (d & o & Hd & Hr & He). exists d, o.
    rewrite lookup_insert_ne by done. done.
  - intros m e'. rewrite lookup_insert_ne by done. apply a_gone0.
Qed.

Lemma agree_clean_insert (s s' : Dmu) p e x :
  cache s' = <[ptr_key p := e]> (cache s) → written_back s' = written_back s →
  (∀ o d, os_holds (store s) o d → os_holds (store s') o d) →
  x ≠ ROff (ptr_offset p) → agree s s' x.
Proof.
  intros Hc Hw Hh Hne. destruct x as [m|o]; simpl; rewrite Hc, ?Hw; unfold ptr_key.
  - by rewrite !lookup_insert_ne by done.
  - split; [auto|]. intros g e'. rewrite lookup_insert_ne; [done|]. intros [= ? ?]. by apply Hne; f_equal.
Qed.

Lemma nodup_head {A} (x : A) l1 l2 l3 : NoDup (((x :: l1) ++ l2) ++ l3) → x ∉ l1 ∧ x ∉ l2 ∧ x ∉ l3.
Proof. simpl. rewrite NoDup_cons, !elem_of_app. tauto. Qed.

Lemma fetch_den s busy pend p pk t own F :
  den s (RUnmodified p pk) t own → Aux s busy pend (own ++ F) → cache s !! ptr_key p = None →
  ∃ s' e, fetch s p pk = Some (inl tt, s') ∧ cache s' = <[ptr_key p := e]> (cache s) ∧
    storage_hints s' = storage_hints s ∧ next_modified_node_id s' = next_modified_node_id s ∧
    den s' (RUnmodified p pk) t own ∧ agrees s s' F ∧ Aux s' busy pend (own ++ F).
Proof using Hsl.
  inversion 1 as [r o ts ownr owk Hres Hk]; subst. intros Ha Hn.
  destruct Hres as [[(data & Hd & Hr) Hcl] ->]. pose proof (a_nodup _ _ _ _ Ha) as Hnd.
  simpl in Hnd. apply nodup_head in Hnd as (Hno & HnF & _).
  destruct Hr as (Hlen & Hv & Hdec & Hu & Hsm).
  destruct (os_read_ok (store s) (ptr_size p) (ptr_offset p) (ptr_checksum p) data) as (st' & Hread & Hok & Hh);
    [apply (a_store _ _ _ _ Ha)|done..|].
  set (s' := set_cache (set_store s st') (<[ptr_key p := (pk, o)]> (cache s))).
  exists s', (pk, o). unfold fetch, ptr_fetch. rewrite Hread. cbn [mbind option_bind]. rewrite Hdec.
  cbn [mbind option_bind]. unfold insert_object_into_cache. simpl. rewrite Hn.
  assert (∀ x, x ≠ ROff (ptr_offset p) → agree s s' x) as Hag.
  { intros x Hx. by eapply agree_clean_insert. }
  split_and!; try done.
  - apply (den_node s' (RUnmodified p pk) o ts [ROff (ptr_offset p)] owk).
    + split; [|done]. split; [exists data; split; [by apply Hh|done]|].
      intros g e. simpl. intros [[[= ->] <-]|[_ He]]%lookup_insert_Some; [split; [done|split; [by apply same_refl|apply Hsm]]|].
      by apply Hcl.
    + eapply dens_frame; [done|]. intros x Hx. apply Hag. intros ->. by apply Hno.
  - intros x Hx. apply Hag. intros ->. by apply HnF.
  - apply (Aux_clean_insert (set_store s st')); [apply Aux_store; auto|]. set_solver.
Qed.

(** *** [fix_or] *)

Lemma fix_modified s m pk t own :
  den s (RModified m pk) t own → cache s !! KModified m = None → den s (RInWriteback m pk) t own.
Proof.
  inversion 1 as [r o ts ownr owk Hres Hk]; subst. intros Hn. constructor; [|done].
  destruct Hres as (w & Hw & ->). exists w. split_and!; [done| |done]. intros ->. simpl in Hw.
  destruct Hw as (? & ? & _). congruence.
Qed.

Lemma agree_unwritten (s : Dmu) m x :
  x ≠ RMid m → agree s (set_written_back s (delete m (written_back s))) x.
Proof.
  destruct x as [m'|o]; simpl; [|by auto]. intros Hne. rewrite lookup_delete_ne; [done|]. by intros ->.
Qed.

Lemma fix_in_writeback s busy pend m pk t own F :
  den s (RInWriteback m pk) t own → Aux s busy pend (own ++ F) → cache s !! KInWriteback m = None →
  ∃ p own', let s' := set_written_back s (delete m (written_back s)) in
    fix_or s (RInWriteback m pk) = Some (s', RUnmodified p pk) ∧ own = RMid m :: own' ∧
    den s' (RUnmodified p pk) t own' ∧ agrees s s' F ∧ Aux s' busy pend (own' ++ F).
Proof.
  inversion 1 as [r o ts ownr owk Hres Hk]; subst. intros Ha Hn.
  destruct Hres as (w & Hw & Hne & ->). destruct w as [| |p]; simpl in Hw; [done|destruct Hw as (? & _ & ? & _); congruence|].
  destruct Hw as (Hm & _ & Hwb & Hdisk). pose proof (a_nodup _ _ _ _ Ha) as Hnd.
  apply nodup_head in Hnd as (Hno & HnF & Hnp).
  exists p, ([ROff (ptr_offset p)] ++ owk). simpl. rewrite Hwb. cbn [mbind option_bind].
  assert (∀ x, x ≠ RMid m → agree s (set_written_back s (delete m (written_back s))) x) as Hag
    by (intros; by apply agree_unwritten).
  split_and!; try done.
  - apply (den_node _ (RUnmodified p pk) o ts [ROff (ptr_offset p)] owk); [done|].
    eapply dens_frame; [done|]. intros x Hx. apply Hag. intros ->. simpl in Hno. set_solver.
  - intros x Hx. apply Hag. by intros ->.
  - destruct Ha. split; simpl; try done.
    + simpl in a_nodup0. by apply NoDup_cons in a_nodup0 as [_ ?].
    + intros m' e He. destruct (decide (m' = m)) as [->|]; [congruence|]. specialize (a_mods0 m' e He). set_solver.
    + intros m' e He. destruct (decide (m' = m)) as [->|]; [congruence|]. specialize (a_wbs0 m' e He). set_solver.
    + intros m' q [Hne' Hq]%lookup_delete_Some. specialize (a_written0 m' q Hq). set_solver.
    + intros o' g e He. specialize (a_clean0 o' g e He). set_solver.
    + intros m' Hm'. apply a_fresh0. set_solver.
Qed.

(** *** [steal] *)

Definition key_res (key : ObjectKey) : res :=
  match key with KUnmodified o _ => ROff o | KModified m | KInWriteback m => RMid m end.

(** The entry is the only one of its resource. *)
Definition only_entry (s : Dmu) (key : ObjectKey) : Prop :=
  (∀ key' e', cache s !! key' = Some e' → key_res key' = key_res key → key' = key) ∧
  match key with KUnmodified _ _ => True | KModified m | KInWriteback m => written_back s !! m = None end.

Lemma agree_move (s s' : Dmu) key m e x :
  cache s' = <[KModified m := e]> (delete key (cache s)) → written_back s' = written_back s →
  (∀ o d, ROff o ≠ key_res key → os_holds (store s) o d → os_holds (store s') o d) →
  x ≠ key_res key → x ≠ RMid m → agree s s' x.
Proof.
  intros Hc Hw Hh Hk Hm. destruct x as [m'|o]; simpl; rewrite Hc, ?Hw.
  - assert (m ≠ m') by (by intros ->). rewrite !lookup_insert_ne by congruence.
    rewrite !lookup_delete_ne; [done|by intros ->..].
  - split; [auto|]. intros g e'. rewrite lookup_insert_ne by done.
    destruct (decide (key = KUnmodified o g)) as [->|]; [done|]. by rewrite lookup_delete_ne.
Qed.

Lemma info_at_new c m info (s : Dmu) n :
  info_ok info → info_at (set_next (set_modified_info (set_cache s c) (<[m := info]> (modified_info s))) n) m.
Proof. intros Hi. exists info. split; [simpl; apply lookup_insert_eq|done]. Qed.

Lemma info_at_old c m info m' (s : Dmu) n :
  m' ≠ m → info_at s m' → info_at (set_next (set_modified_info (set_cache s c) (<[m := info]> (modified_info s))) n) m'.
Proof. intros Hne (i & Hi & Hok). exists i. split; [simpl; by rewrite lookup_insert_ne|done]. Qed.

Lemma den_ptr_ok (s : Dmu) p pk t own : den s (RUnmodified p pk) t own → ptr_ok p.
Proof. inversion 1 as [? ? ? ? ? Hres]; subst. destruct Hres as [[(d & _ & Hr) _] _]. apply Hr. Qed.

(** An entry moves to a new identifier. *)
Lemma Aux_move s busy pend key m e info n own F :
  Aux s busy pend ((key_res key :: own) ++ F) → cache s !! key = Some e → only_entry s key → small e.2 →
  (∀ m', key = KInWriteback m' → m' ∉ busy) → mid_id m = next_modified_node_id s → mid_id m < n → info_ok info →
  Aux (set_next (set_modified_info (set_cache s (<[KModified m := e]> (delete key (cache s))))
         (<[m := info]> (modified_info s))) n) busy pend ((RMid m :: own) ++ F).
Proof.
  intros Ha He [Ho Hwb] Hsm Hb Hid Hn Hinfo. pose proof (a_fresh _ _ _ _ Ha) as Hfr.
  assert (∀ m', RMid m' ∈ (key_res key :: own) ++ F ∨ m' ∈ busy ∨ m' ∈ pend.*1 → m' ≠ m) as Hne.
  { intros m' Hm' ->. specialize (Hfr _ Hm'). lia. }
  assert (∀ key' e', <[KModified m := e]> (delete key (cache s)) !! key' = Some e' →
    key' = KModified m ∧ e' = e ∨ key_res key' ≠ key_res key ∧ cache s !! key' = Some e') as Hlook.
  { intros key' e' [[<- <-]|[Hn1 [Hn2 Hx]%lookup_delete_Some]]%lookup_insert_Some; [by left|right].
    split; [|done]. intros E. apply Hn2. symmetry. by eapply Ho. }
  destruct Ha. split; simpl; try done.
  - simpl in a_nodup0. apply NoDup_cons in a_nodup0 as [_ Hnd]. apply NoDup_cons. split; [|done].
    intros Hin. apply (Hne m); [|done]. left. rewrite elem_of_app in Hin. destruct Hin as [Hin|Hin].
    + rewrite elem_of_app in Hin. set_solver.
    + exfalso. unfold pend_own in Hin. by apply list_elem_of_fmap in Hin as ([] & ? & _).
  - intros m' e' [[[= ->] ->]|[Hk Hx]]%Hlook; [set_solver|]. specialize (a_mods0 m' e' Hx). simpl in Hk. set_solver.
  - intros m' e' [[[=] _]|[Hk Hx]]%Hlook. specialize (a_wbs0 m' e' Hx). simpl in Hk. set_solver.
  - intros m' p Hp. specialize (a_written0 m' p Hp). assert (RMid m' ≠ key_res key); [|set_solver].
    destruct key; simpl; [done|congruence|congruence].
  - intros o g e' [[[=] _]|[Hk Hx]]%Hlook. specialize (a_clean0 o g e' Hx). simpl in Hk. set_solver.
  - intros m' [Hin|Hin]; [|by apply Z.lt_trans with (next_modified_node_id s); [auto|lia]].
    destruct (decide (m' = m)) as [->|]; [done|]. assert (mid_id m' < next_modified_node_id s); [|lia].
    apply a_fresh0. left. set_solver.
  - intros m' e' [[[= ->] ->]|[Hk Hx]]%Hlook; [by apply info_at_new|].
    apply info_at_old; [|by eapply a_info0]. apply Hne. left. by eapply a_mods0.
  - intros m' e' [[_ ->]|[Hk Hx]]%Hlook; [done|]. by eapply a_small0.
  - intros m' e' [[[=] _]|[Hk Hx]]%Hlook. by eapply a_wb0.
  - intros m' Hm'. rewrite lookup_insert_ne, lookup_delete_ne by first [done|intros ->; by eapply Hb].
    destruct (a_busy0 m' Hm') as [? ?]. split; [done|]. apply info_at_old; [|done]. apply Hne. auto.
  - intros m' p Hp. destruct (a_pend0 m' p Hp) as (d & o & Hd & Hr & Hs). exists d, o. split_and!; [done..|].
    intros e' [[[=] _]|[_ Hx]]%Hlook. by apply Hs.
  - intros m' e' [[[= ->] ->]|[_ Hx]]%Hlook; [|by eapply a_gone0]. intros Hin. by apply (Hne m); auto.
  - lia.
Qed.

(** A reference whose object is in the cache under its key *)
Lemma cached_ref s busy pend r t own F key e :
  den s r t own → Aux s busy pend (own ++ F) → as_key r = Some key → cache s !! key = Some e →
  ∃ tk owk, t = Nd (content (body e.2)) tk ∧ own = key_res key :: owk ∧ dens s (kids e.2) tk owk ∧
    only_entry s key ∧ small e.2.
Proof.
  inversion 1 as [r' o ts ownr owk Hres Hk]; subst. intros Ha Hkey He.
  destruct r as [p|p pk|m pk|m pk]; simplify_eq/=.
  - destruct Hres as [[(d & Hd & Hr) Hcl] ->]. destruct (Hcl _ _ He) as (_ & Hs & Hsm).
    exists ts, owk. split_and!; [f_equal; symmetry; apply Hs|done| | |].
    + eapply dens_same; [|done]. apply same_sym in Hs. apply Hs.
    + split; [|done]. intros [o' g| |] e' He' E; simplify_eq/=. unfold ptr_key. f_equal. by eapply Hcl.
    + done.
  - destruct Hres as (w & Hw & ->). destruct w as [| |q]; simpl in Hw; [|destruct Hw as (? & ? & _); congruence..].
    destruct Hw as (tag & Hm & Hwb & Hwr). simplify_eq/=. exists ts, owk. split_and!; try done.
    + split; [|done]. intros [| |] e' He' E; simplify_eq/=; congruence.
    + eapply (a_small _ _ _ _ Ha m (tag, o)); eassumption.
  - destruct Hres as (w & Hw & Hne & ->). destruct w as [| |q]; simpl in Hw; [done| |destruct Hw as (_ & ? & _); congruence].
    destruct Hw as (tag & Hm & Hwb & Hwr). simplify_eq/=. exists ts, owk. split_and!; try done.
    + split; [|done]. intros [| |] e' He' E; simplify_eq/=; congruence.
    + eapply (a_wb _ _ _ _ Ha m (tag, o)); eassumption.
Qed.

Lemma DiskOffset_class o : 0 ≤ DiskOffset.storage_class o ≤ 3.
Proof.
  unfold DiskOffset.storage_class, DiskOffset.MASK_STORAGE_CLASS, wrap8.
  rewrite Z.shiftr_land.
  change (Z.shiftr (Z.shiftl (Z.shiftl 1 2 - 1) (10 + 52)) (52 + 10)) with (Z.ones 2). rewrite Z.land_ones by lia.
  pose proof (Z.mod_pos_bound (Z.shiftr (DiskOffset.raw o) (52 + 10)) (2 ^ 2) ltac:(lia)) as Hm.
  change (2 ^ 2) with 4 in *. rewrite Z.mod_small by lia. lia.
Qed.

Lemma preference_some r : (∀ p, r ≠ RIncomplete p) → is_Some (ref_preference r).
Proof.
  intros Hr. destruct r as [p|p pk| |]; simpl; [by destruct (Hr p)| |eauto..].
  unfold Pref.new. pose proof (DiskOffset_class (ptr_offset p)).
  by rewrite (proj2 (Z.leb_le _ _)) by lia.
Qed.

Lemma steal_den s busy pend r t own F key e info :
  den s r t own → Aux s busy pend (own ++ F) → as_key r = Some key → cache s !! key = Some e →
  (∀ m, ref_mid r = Some m → m ∉ busy) → next_modified_node_id s + 1 < U64_SIZE → info_ok info →
  ∃ s' m pk own', steal s r info = Some (true, s', RModified m pk) ∧
    den s' (RModified m pk) t own' ∧ agrees s s' F ∧ Aux s' busy pend (own' ++ F) ∧
    cache s' !! KModified m = Some e ∧ next_modified_node_id s' = next_modified_node_id s + 1.
Proof using Hsl.
  intros Hd Ha Hkey He Hb Hn Hinfo.
  destruct (cached_ref s busy pend r t own F key e Hd Ha Hkey He) as (tk & owk & -> & -> & Hk & Ho & Hsm).
  destruct (preference_some r) as [pref Hpref]; [intros p ->; done|].
  assert (∃ pk, ref_index r = Some pk) as [pk Hpk] by (destruct r; simpl in *; eauto; done).
  pose proof (a_next _ _ _ _ Ha) as Hn0. pose proof (a_nodup _ _ _ _ Ha) as Hnd.
  apply nodup_head in Hnd as (Hno & HnF & Hnp).
  set (m := mkMid (next_modified_node_id s) pref).
  set (s1 := set_next (set_modified_info (set_cache s (<[KModified m := e]> (delete key (cache s))))
         (<[m := info]> (modified_info s))) (next_modified_node_id s + 1)).
  assert (Aux s1 busy pend ((RMid m :: owk) ++ F)) as Ha1.
  { apply Aux_move; try done; [|simpl; lia]. intros m' ->. apply Hb. by destruct r; simplify_eq/=. }
  assert (∃ st', (match r with RUnmodified p _ => dmu_copy_on_write s1 p | _ => Some s1 end) = Some (set_store s1 st') ∧
    os_ok st' ∧ ∀ o d, ROff o ≠ key_res key → os_holds (store s) o d → os_holds st' o d) as (st' & Hcow & Hok & Hh).
  { destruct r as [p|p pk'|m' pk'|m' pk']; simplify_eq/=; try (by exists (store s); split_and!; [done|apply (a_store _ _ _ _ Ha)|auto]).
    destruct (os_copy_on_write_ok (store s) (ptr_offset p) (ptr_size p) (ptr_generation p) (ptr_info p))
      as (st' & Hc & Hok & Hh); [apply (a_store _ _ _ _ Ha)|].
    exists st'. unfold dmu_copy_on_write. simpl. rewrite Hc. cbn [mbind option_bind]. split_and!; try done.
    intros o d Hne. apply Hh. congruence. }
  exists (set_store s1 st'), m, pk, (RMid m :: owk). unfold steal. rewrite Hpk, Hpref, Hkey. cbn [mbind option_bind].
  simpl cache. rewrite He. unfold wrap64. rewrite Z.mod_small by (unfold U64_SIZE in *; lia).
  assert (∀ x, x ≠ key_res key → x ≠ RMid m → agree s (set_store s1 st') x) as Hag.
  { intros x Hx1 Hx2. by apply (agree_move s _ key m e). }
  assert (∀ x, x ∈ owk ++ F → x ≠ RMid m) as Hfr.
  { intros x Hx ->. pose proof (a_fresh _ _ _ _ Ha m) as Hf. simpl in Hf.
    assert (next_modified_node_id s < next_modified_node_id s); [|lia]. apply Hf. left. set_solver. }
  split_and!.
  - change (mkMid (next_modified_node_id s) pref) with m.
    transitivity (s ← (match r with RUnmodified p _ => dmu_copy_on_write s1 p | _ => Some s1 end);
      Some (true, s, RModified m pk)); [done|]. by rewrite Hcow.
  - apply (den_node _ (RModified m pk) e.2 tk [RMid m] owk).
    + exists PMod. split; [|done]. exists e.1. simpl. rewrite lookup_insert_eq. destruct e; simpl. split_and!; [done| |].
      * rewrite lookup_insert_ne by done. destruct (delete key (cache s) !! KInWriteback m) as [e'|] eqn:E; [|done].
        apply lookup_delete_Some in E as [_ E]. apply (a_wbs _ _ _ _ Ha) in E.
        pose proof (a_fresh _ _ _ _ Ha m ltac:(auto)). simpl in *. lia.
      * destruct (written_back s !! m) as [q|] eqn:E; [|done]. apply (a_written _ _ _ _ Ha) in E.
        pose proof (a_fresh _ _ _ _ Ha m ltac:(auto)). simpl in *. lia.
    + eapply dens_frame; [done|]. intros x Hx. apply Hag; [by intros ->|apply Hfr; set_solver].
  - intros x Hx. apply Hag; [by intros ->|apply Hfr; set_solver].
  - apply Aux_store; [done|done|]. intros m' p d Hp. simpl. apply Hh. intros E. apply Hnp. rewrite <- E. by eapply pend_in.
  - simpl. apply lookup_insert_eq.
  - done.
Qed.

(** *** Changing a modified object *)

Lemma agree_put (s s' : Dmu) m e x :
  cache s' = <[KModified m := e]> (cache s) → written_back s' = written_back s → store s' = store s →
  x ≠ RMid m → agree s s' x.
Proof.
  intros Hc Hw Hs Hne. destruct x as [m'|o]; simpl; rewrite Hc, ?Hw, ?Hs.
  - assert (m ≠ m') by (by intros ->). by rewrite !lookup_insert_ne by congruence.
  - split; [done|]. intros g e'. by rewrite lookup_insert_ne.
Qed.

Lemma Aux_put s busy pend own m e e' :
  Aux s busy pend own → cache s !! KModified m = Some e → small e'.2 →
  Aux (set_cache s (<[KModified m := e']> (cache s))) busy pend own.
Proof.
  intros [] He Hsm.
  assert (∀ m' e'', <[KModified m := e']> (cache s) !! KModified m' = Some e'' →
    m' = m ∧ e'' = e' ∨ cache s !! KModified m' = Some e'') as Hlook.
  { intros m' e'' [[[= ->] ->]|[_ ?]]%lookup_insert_Some; auto. }
  split; simpl; try done.
  - intros m' e'' [[-> ->]|Hx]%Hlook; by eapply a_mods0.
  - intros m' e''. rewrite lookup_insert_ne by done. apply a_wbs0.
  - intros o g e''. rewrite lookup_insert_ne by done. apply a_clean0.
  - intros m' e'' [[-> ->]|Hx]%Hlook; by eapply a_info0.
  - intros m' e'' [[-> ->]|Hx]%Hlook; [done|by eapply a_small0].
  - intros m' e''. rewrite lookup_insert_ne by done. apply a_wb0.
  - intros m'. rewrite lookup_insert_ne by done. apply a_busy0.
  - intros m' p Hp. rewrite lookup_insert_ne by done. by apply a_pend0.
  - intros m' e'' [[-> ->]|Hx]%Hlook; by eapply a_gone0.
Qed.

(** The object of a modified reference is replaced; its children were known
    before. *)
Lemma put_den s m pk t own e e' tk' owk' :
  den s (RModified m pk) t own → cache s !! KModified m = Some e →
  dens s (kids e'.2) tk' owk' → RMid m ∉ owk' →
  den (set_cache s (<[KModified m := e']> (cache s))) (RModified m pk)
    (Nd (content (body e'.2)) tk') (RMid m :: owk').
Proof.
  inversion 1 as [r o ts ownr owk Hres Hk]; subst. intros He Hk' Hn.
  destruct Hres as (w & Hw & ->). destruct w as [| |q]; simpl in Hw; [|destruct Hw as (? & ? & _); congruence..].
  destruct Hw as (tag & _ & Hwb & Hwr). apply (den_node _ (RModified m pk) e'.2 tk' [RMid m] owk').
  - exists PMod. split; [|done]. exists e'.1. simpl. rewrite lookup_insert_eq, lookup_insert_ne by done.
    by destruct e'.
  - eapply dens_frame; [done|]. intros x Hx. eapply agree_put; try done. by intros ->.
Qed.

Lemma prefer_den s busy pend m pk t own F e pref :
  den s (RModified m pk) t own → Aux s busy pend (own ++ F) → cache s !! KModified m = Some e →
  ∃ s', set_cache s (alter (λ e, (e.1, prefer pref e.2)) (KModified m) (cache s)) = s' ∧
    cache s' !! KModified m = Some (e.1, prefer pref e.2) ∧
    den s' (RModified m pk) t own ∧ agrees s s' F ∧ Aux s' busy pend (own ++ F) ∧
    next_modified_node_id s' = next_modified_node_id s.
Proof.
  intros Hd Ha He. destruct (cached_ref s busy pend _ t own F _ e Hd Ha eq_refl He) as (tk & owk & -> & -> & Hk & _ & Hsm).
  simpl in *. pose proof (a_nodup _ _ _ _ Ha) as Hnd. apply nodup_head in Hnd as (Hno & HnF & _).
  assert (alter (λ e, (e.1, prefer pref e.2)) (KModified m) (cache s) =
    <[KModified m := (e.1, prefer pref e.2)]> (cache s)) as ->.
  { apply map_eq. intros k. destruct (decide (k = KModified m)) as [->|].
    - by rewrite lookup_alter_eq, He, lookup_insert_eq.
    - by rewrite lookup_alter_ne, lookup_insert_ne by done. }
  eexists. split; [done|]. split_and!.
  - apply lookup_insert_eq.
  - rewrite <- (prefer_content pref (body e.2)).
    apply (put_den s m pk (Nd (content (body e.2)) tk) (RMid m :: owk) e (e.1, prefer pref e.2)); done.
  - intros x Hx. eapply agree_put; try done. by intros ->.
  - eapply Aux_put; [done|done|]. simpl. by apply prefer_small.
  - done.
Qed.

(** *** [get] *)

(** What [get] returns: a key under which the object is in the cache *)
Definition got (s s' : Dmu) (busy : list ModifiedObjectId) (pend : list (ModifiedObjectId * ObjectPointer))
    (r r' : ObjRef) (t : tree) (own' F : list res) (key : ObjectKey) : Prop :=
  den s' r' t own' ∧ agrees s s' F ∧ Aux s' busy pend (own' ++ F) ∧ as_key r' = Some key ∧
  is_Some (cache s' !! key) ∧ next_modified_node_id s' ≤ next_modified_node_id s + 1 ∧
  (∀ p pk, r = RUnmodified p pk → hint_take (storage_hints s) pk = None → r' = r) ∧
  (∀ m pk, r' = RInWriteback m pk → ref_mid r = Some m).

Lemma get_cached n s busy pend r t own F key :
  den s r t own → Aux s busy pend (own ++ F) → as_key r = Some key → is_Some (cache s !! key) →
  get_loop (S n) s r = Some (inl key, s, r) ∧ got s s busy pend r r t own F key.
Proof.
  intros Hd Ha Hk [e He]. simpl. rewrite Hk. cbn [mbind option_bind]. rewrite He.
  split; [done|]. unfold got. split_and!; try done; [apply agrees_refl|lia|by intros m pk ->].
Qed.

Lemma get_unmodified_ref n s busy pend p pk t own F :
  den s (RUnmodified p pk) t own → Aux s busy pend (own ++ F) → next_modified_node_id s + 1 < U64_SIZE →
  ∃ key s' r' own', get_loop (S (S n)) s (RUnmodified p pk) = Some (inl key, s', r') ∧
    got s s' busy pend (RUnmodified p pk) r' t own' F key.
Proof using Hsl.
  intros Hd Ha Hn. destruct (cache s !! ptr_key p) as [e|] eqn:He.
  { exists (ptr_key p), s, (RUnmodified p pk), own. by apply get_cached. }
  destruct (fetch_den s busy pend p pk t own F Hd Ha He) as (s1 & e & Hf & Hc & Hh & Hnx & Hd1 & Hag1 & Ha1).
  assert (cache s1 !! ptr_key p = Some e) as He1 by (rewrite Hc; apply lookup_insert_eq).
  cbn [get_loop as_key]. cbn [mbind option_bind]. rewrite He, Hf. cbn [mbind option_bind]. rewrite Hh.
  destruct (hint_take (storage_hints s) pk) as [[pref hs]|] eqn:Eh.
  - set (s2 := set_hints s1 hs).
    assert (den s2 (RUnmodified p pk) t own) as Hd2.
    { eapply den_frame; [done|]. intros x _. destruct x; simpl; auto. }
    assert (Aux s2 busy pend (own ++ F)) as Ha2 by (by destruct Ha1).
    destruct (steal_den s2 busy pend (RUnmodified p pk) t own F (ptr_key p) e (ptr_info p))
      as (s3 & m & pk' & own' & Hst3 & Hd3 & Hag3 & Ha3 & He3 & Hn3); try done; [simpl; lia|by apply den_ptr_ok in Hd as (_ & _ & _ & ? & _)|].
    rewrite Hst3. cbn [mbind option_bind as_key].
    destruct (prefer_den s3 busy pend m pk' t own' F e pref Hd3 Ha3 He3) as (s4 & Hp4 & He4 & Hd4 & Hag4 & Ha4 & Hn4).
    rewrite Hp4. destruct (get_cached n s4 busy pend (RModified m pk') t own' F (KModified m)) as [Hg Hgot]; [done..|by eexists|].
    eexists _, _, _, _. split; [exact Hg|]. destruct Hgot as (? & _ & ? & ? & ? & _ & _ & _).
    unfold got. split_and!; try done.
    + eapply agrees_trans; [done|]. eapply agrees_trans; [|done]. done.
    + simpl in Hn3. lia.
    + intros p0 pk0 [= <- <-]. congruence.
  - destruct (get_cached n s1 busy pend (RUnmodified p pk) t own F (ptr_key p)) as [Hg Hgot]; [done..|by eexists|].
    eexists _, _, _, _. split; [exact Hg|]. destruct Hgot as (? & _ & ? & ? & ? & _ & _ & _).
    unfold got. split_and!; try done. lia.
Qed.

Lemma get_den s busy pend r t own F :
  den s r t own → Aux s busy pend (own ++ F) → next_modified_node_id s + 1 < U64_SIZE →
  ∃ key s' r' own', get s r = Some (inl key, s', r') ∧ got s s' busy pend r r' t own' F key.
Proof using Hsl.
  intros Hd Ha Hn. unfold get.
  assert (∀ n m pk, den s (RInWriteback m pk) t own →
    ∃ key s' r' own', get_loop (S (S (S n))) s (RInWriteback m pk) = Some (inl key, s', r') ∧
      got s s' busy pend (RInWriteback m pk) r' t own' F key) as Hwb.
  { intros n m pk Hd1. destruct (cache s !! KInWriteback m) as [e|] eqn:He.
    { eexists _, _, _, _. by apply (get_cached _ s busy pend (RInWriteback m pk)). }
    destruct (fix_in_writeback s busy pend m pk t own F Hd1 Ha He) as (p & own' & Hf & -> & Hd2 & Hag & Ha2).
    destruct (get_unmodified_ref n _ busy pend p pk t own' F Hd2 Ha2) as (key & s' & r' & own'' & Hg & Hgot); [done|].
    exists key, s', r', own''. remember (S (S n)) as k. cbn [get_loop as_key]. cbn [mbind option_bind].
    rewrite He, Hf. cbn [mbind option_bind]. split; [done|]. destruct Hgot as (? & ? & ? & ? & ? & ? & _ & Hw).
    unfold got. split_and!; try done; [by eapply agrees_trans|]. intros m' pk' E. by apply Hw in E. }
  destruct r as [p|p pk|m pk|m pk].
  - by inversion Hd.
  - by eapply get_unmodified_ref.
  - destruct (cache s !! KModified m) as [e|] eqn:He.
    { eexists _, _, _, _. by apply (get_cached _ s busy pend (RModified m pk)). }
    destruct (Hwb 0%nat m pk) as (key & s' & r' & own' & Hg & Hgot); [by apply fix_modified|].
    exists key, s', r', own'. remember 3%nat as k. cbn [get_loop as_key]. cbn [mbind option_bind]. rewrite He.
    cbn [fix_or mbind option_bind]. split; [done|]. destruct Hgot as (? & ? & ? & ? & ? & ? & _ & ?).
    by unfold got; split_and!.
  - apply (Hwb 1%nat). done.
Qed.

(** *** [get_mut] *)

Lemma Aux_next s busy pend own n :
  Aux s busy pend own → next_modified_node_id s ≤ n → Aux (set_next s n) busy pend own.
Proof.
  intros [] Hn. split; simpl; try done; [|lia]. intros m Hm. specialize (a_fresh0 m Hm). lia.
Qed.

(** An object that is about to be written is not found under [Modified]. *)
Lemma not_busy s busy pend m pk t own F e :
  den s (RModified m pk) t own → Aux s busy pend (own ++ F) → cache s !! KModified m = Some e → m ∉ busy.
Proof.
  inversion 1 as [r o ts ownr owk Hres Hk]; subst. intros Ha He Hb.
  destruct (a_busy _ _ _ _ Ha m Hb) as [[e' He'] _].
  destruct Hres as (w & Hw & _). destruct w as [| |q]; simpl in Hw; destruct Hw as (? & Hw); destruct_and?; congruence.
Qed.

Lemma steal_absent (s : Dmu) r info key :
  as_key r = Some key → cache s !! key = None → 0 ≤ next_modified_node_id s → next_modified_node_id s + 1 < U64_SIZE →
  steal s r info = Some (false, set_next s (next_modified_node_id s + 1), r).
Proof.
  intros Hk Hc Hn0 Hn. destruct (preference_some r) as [pref Hpref]; [intros p ->; done|].
  assert (∃ pk, ref_index r = Some pk) as [pk Hpk] by (destruct r; simpl in *; eauto; done).
  unfold steal. rewrite Hpk, Hpref, Hk. cbn [mbind option_bind]. simpl. rewrite Hc.
  unfold wrap64. by rewrite Z.mod_small by (unfold U64_SIZE in *; lia).
Qed.

Lemma get_mut_den s busy pend r t own F info :
  den s r t own → Aux s busy pend (own ++ F) → (∀ m, ref_mid r = Some m → m ∉ busy) →
  next_modified_node_id s + 3 < U64_SIZE → info_ok info →
  ∃ s' m pk own', get_mut s r info = Some (inl (KModified m), s', RModified m pk) ∧
    den s' (RModified m pk) t own' ∧ agrees s s' F ∧ Aux s' busy pend (own' ++ F) ∧
    is_Some (cache s' !! KModified m) ∧ next_modified_node_id s' ≤ next_modified_node_id s + 3.
Proof using Hsl.
  intros Hd Ha Hb Hn Hinfo. pose proof (a_next _ _ _ _ Ha) as Hn0. unfold get_mut.
  destruct (try_get_mut s r) as [key|] eqn:Et.
  { destruct r as [| |m pk|]; try done. simpl in Et. destruct (cache s !! KModified m) as [e|] eqn:He; [|done].
    injection Et as <-. exists s, m, pk, own. split_and!; try done; [apply agrees_refl|lia]. }
  clear Et. assert (∃ key, as_key r = Some key) as [key Hkey]
    by (destruct r; simpl; eauto; by inversion Hd).
  cbn [get_mut_loop]. destruct (cache s !! key) as [e|] eqn:He.
  - destruct (steal_den s busy pend r t own F key e info Hd Ha Hkey He Hb) as (s' & m & pk & own' & Hs & Hd' & Hag & Ha' & He' & Hn');
      [lia|done|]. rewrite Hs. cbn [mbind option_bind as_key]. exists s', m, pk, own'. split_and!; try done; lia.
  - rewrite (steal_absent s r info key) by (done || lia). cbn [mbind option_bind].
    set (s1 := set_next s (next_modified_node_id s + 1)).
    assert (den s1 r t own) as Hd1 by (eapply den_frame; [done|]; intros x _; destruct x; simpl; auto).
    assert (Aux s1 busy pend (own ++ F)) as Ha1 by (apply Aux_next; [done|lia]).
    destruct (get_den s1 busy pend r t own F Hd1 Ha1) as (key2 & s2 & r2 & own2 & Hg & Hd2 & Hag2 & Ha2 & Hk2 & [e2 He2] & Hn2 & _ & Hw2);
      [simpl; lia|]. rewrite Hg. cbn [mbind option_bind].
    destruct (steal_den s2 busy pend r2 t own2 F key2 e2 info Hd2 Ha2 Hk2 He2) as (s' & m & pk & own' & Hs & Hd' & Hag & Ha' & He' & Hn').
    + intros m Hm. destruct r2 as [| |m2 pk2|m2 pk2]; simplify_eq/=.
      * by eapply not_busy.
      * by eapply Hb, Hw2.
    + simpl in Hn2. lia.
    + done.
    + rewrite Hs. cbn [mbind option_bind as_key]. exists s', m, pk, own'. simpl in Hn2.
      split_and!; try done; [|lia].
      eapply agrees_trans; [|exact Hag]. eapply agrees_trans; [|exact Hag2]. intros x _. destruct x; simpl; auto.
Qed.

(** *** Settling the references to children *)

(** What a reference is after the loop: unmodified, or in the cache *)
Definition settled (s : Dmu) (r : ObjRef) : Prop :=
  is_unmodified r ∨ ∃ key m pk, as_key r = Some key ∧ is_Some (cache s !! key) ∧
    ref_mid r = Some m ∧ ref_index r = Some pk.

Lemma settle_den s busy pend r t own F :
  den s r t own → Aux s busy pend (own ++ F) →
  ∃ ok w r' own', let s' := set_written_back s w in
    settle 2 s r = Some (ok, s', r') ∧ den s' r' t own' ∧ agrees s s' F ∧
    Aux s' busy pend (own' ++ F) ∧ own' ⊆ own ∧ settled s r' ∧ (ok = true ↔ is_unmodified r').
Proof.
  intros Hd Ha.
  assert (∀ n m pk, den s (RInWriteback m pk) t own → ∃ ok w r' own', let s' := set_written_back s w in
    settle (S n) s (RInWriteback m pk) = Some (ok, s', r') ∧ den s' r' t own' ∧ agrees s s' F ∧
    Aux s' busy pend (own' ++ F) ∧ own' ⊆ own ∧ settled s r' ∧ (ok = true ↔ is_unmodified r')) as Hwb.
  { intros n m pk Hd1. cbn [settle as_key]. cbn [mbind option_bind].
    destruct (cache s !! KInWriteback m) as [e|] eqn:He.
    - exists false, (written_back s), (RInWriteback m pk), own.
      replace (set_written_back s (written_back s)) with s by (by destruct s).
      split_and!; try done; [apply agrees_refl|]. right. eexists _, _, _. simpl. eauto.
    - destruct (fix_in_writeback s busy pend m pk t own F Hd1 Ha He) as (p & own' & Hf & -> & Hd2 & Hag & Ha2).
      rewrite Hf. cbn [mbind option_bind]. eexists true, _, (RUnmodified p pk), own'.
      pose proof (den_ptr_ok _ p pk t own' Hd2) as Hok.
      split; [by destruct n|]. split_and!; try done; [set_solver|by left]. }
  destruct r as [p|p pk|m pk|m pk].
  - by inversion Hd.
  - exists true, (written_back s), (RUnmodified p pk), own.
    replace (set_written_back s (written_back s)) with s by (by destruct s).
    pose proof (den_ptr_ok _ p pk t own Hd) as Hok. split_and!; try done; [apply agrees_refl|by left].
  - cbn [settle as_key]. cbn [mbind option_bind]. destruct (cache s !! KModified m) as [e|] eqn:He.
    + exists false, (written_back s), (RModified m pk), own.
      replace (set_written_back s (written_back s)) with s by (by destruct s).
      split_and!; try done; [apply agrees_refl|]. right. eexists _, _, _. simpl. eauto.
    + cbn [fix_or mbind option_bind]. apply (Hwb 0%nat). by apply fix_modified.
  - apply (Hwb 1%nat). done.
Qed.

(** The first of a list of references was settled. *)
Lemma dens_step s s' busy pend r' rs t ts own1 own2 F :
  dens s rs ts own2 → den s' r' t own1 → agrees s s' (own2 ++ F) → Aux s' busy pend (own1 ++ own2 ++ F) →
  dens s' (r' :: rs) (t :: ts) (own1 ++ own2) ∧ Aux s' busy pend ((own1 ++ own2) ++ F) ∧
  dens s' rs ts own2 ∧ Aux s' busy pend (own2 ++ own1 ++ F).
Proof.
  intros Hds Hd Hag Ha.
  assert (dens s' rs ts own2) as Hds' by (eapply dens_frame; [done|]; eapply agrees_sub; [done|set_solver]).
  split_and!; try done; [by constructor|by rewrite <- app_assoc|].
  eapply Aux_perm; [|done]. rewrite !app_assoc. f_equiv. apply Permutation_app_comm.
Qed.

Lemma settled_cache s s' r : cache s' = cache s → settled s r → settled s' r.
Proof. unfold settled. by intros ->. Qed.

Lemma settle_until_den s busy pend rs ts own F :
  dens s rs ts own → Aux s busy pend (own ++ F) →
  ∃ ok w rs' own', let s' := set_written_back s w in
    settle_until s rs = Some (ok, s', rs') ∧ dens s' rs' ts own' ∧ agrees s s' F ∧
    Aux s' busy pend (own' ++ F) ∧ own' ⊆ own ∧ (ok = true → Forall is_unmodified rs').
Proof.
  revert s ts own F. induction rs as [|r rs IH]; intros s ts own F.
  - inversion 1; subst. intros Ha. exists true, (written_back s), [], [].
    replace (set_written_back s (written_back s)) with s by (by destruct s).
    split_and!; try done; first [apply agrees_refl|by constructor].
  - inversion 1 as [|r0 rs0 t ts0 own1 own2 Hd Hds]; subst. intros Ha.
    rewrite <- app_assoc in Ha.
    destruct (settle_den s busy pend r t own1 (own2 ++ F) Hd Ha) as (ok & w & r' & own1' & Hs & Hd' & Hag & Ha' & Hsub & _ & Hok).
    cbn [settle_until]. rewrite Hs. cbn [mbind option_bind].
    destruct (dens_step s _ busy pend r' rs t ts0 own1' own2 F Hds Hd' Hag Ha') as (Hds' & Ha2 & Hds2 & Ha3).
    destruct ok.
    + destruct (IH (set_written_back s w) ts0 own2 (own1' ++ F) Hds2 Ha3) as (ok2 & w2 & rs' & own2' & Hs2 & Hd2 & Hag2 & Ha4 & Hsub2 & Hok2).
      rewrite Hs2. cbn [mbind option_bind]. exists ok2, w2, (r' :: rs'), (own1' ++ own2'). split_and!; try done.
      * constructor; [|done]. eapply den_frame; [done|]. eapply agrees_sub; [done|set_solver].
      * eapply agrees_trans; [eapply agrees_sub; [done|set_solver]|eapply agrees_sub; [done|set_solver]].
      * eapply Aux_perm; [|done]. rewrite !app_assoc. f_equiv. apply Permutation_app_comm.
      * set_solver.
      * intros E. constructor; [by apply Hok|auto].
    + exists false, w, (r' :: rs), (own1' ++ own2). split_and!; try done; [eapply agrees_sub; [done|set_solver]|set_solver].
Qed.

Definition dep_of (r : ObjRef) : option (ModifiedObjectId * PivotKey) :=
  m ← ref_mid r; pk ← ref_index r; Some (m, pk).

Lemma settle_all_den s busy pend rs ts own F :
  dens s rs ts own → Aux s busy pend (own ++ F) →
  ∃ w rs' own', let s' := set_written_back s w in
    settle_all s rs = Some (omap dep_of rs', s', rs') ∧ dens s' rs' ts own' ∧ agrees s s' F ∧
    Aux s' busy pend (own' ++ F) ∧ own' ⊆ own ∧ Forall (settled s) rs'.
Proof.
  revert s ts own F. induction rs as [|r rs IH]; intros s ts own F.
  - inversion 1; subst. intros Ha. exists (written_back s), [], [].
    replace (set_written_back s (written_back s)) with s by (by destruct s).
    split_and!; try done; first [apply agrees_refl|by constructor].
  - inversion 1 as [|r0 rs0 t ts0 own1 own2 Hd Hds]; subst. intros Ha.
    rewrite <- app_assoc in Ha.
    destruct (settle_den s busy pend r t own1 (own2 ++ F) Hd Ha) as (ok & w & r' & own1' & Hs & Hd' & Hag & Ha' & Hsub & Hset & Hok).
    cbn [settle_all]. rewrite Hs. cbn [mbind option_bind].
    destruct (dens_step s _ busy pend r' rs t ts0 own1' own2 F Hds Hd' Hag Ha') as (Hds' & Ha2 & Hds2 & Ha3).
    destruct (IH (set_written_back s w) ts0 own2 (own1' ++ F) Hds2 Ha3) as (w2 & rs' & own2' & Hs2 & Hd2 & Hag2 & Ha4 & Hsub2 & Hset2).
    assert ((if ok then Some [] else m ← ref_mid r'; pk ← ref_index r'; Some [(m, pk)]) =
      Some (option_list (dep_of r'))) as ->.
    { destruct ok.
      - assert (is_unmodified r') as Hu by (by apply Hok). by destruct r'.
      - destruct Hset as [Hu|(key & m & pk & _ & _ & Hm & Hpk)]; [by apply Hok in Hu|].
        unfold dep_of. by rewrite Hm, Hpk. }
    cbn [mbind option_bind]. rewrite Hs2. cbn [mbind option_bind]. exists w2, (r' :: rs'), (own1' ++ own2').
    split_and!; try done.
    + simpl. by destruct (dep_of r').
    + constructor; [|done]. eapply den_frame; [done|]. eapply agrees_sub; [done|set_solver].
    + eapply agrees_trans; [eapply agrees_sub; [done|set_solver]|eapply agrees_sub; [done|set_solver]].
    + eapply Aux_perm; [|done]. rewrite !app_assoc. f_equiv. apply Permutation_app_comm.
    + set_solver.
    + constructor; [done|]. eapply Forall_impl; [exact Hset2|]. intros x. by apply settled_cache.
Qed.

End protocol.
