(* ===== verification/DmuWriteBack.v ===== *)
(** * Eviction and write-back

    The steps by which objects go to disk keep what every reference denotes,
    whatever entries the cache offers for eviction and in whatever order the
    steps of different threads come: starting a write-back, packing and writing
    the object, finishing, and dropping what is clean.  [DmuMachine.v] and
    [DmuPersist.v] put the steps together. *)

From Stdlib Require Import ZArith Lia Permutation.
From stdpp Require Import base option list numbers gmap.
From S2P Require Import Prelude.
From S2P Require Import Bytes.
From S2P Require Import StoragePref.
From S2P Require Import Checksum.
From S2P Require Import ChildBuffer.
From S2P Require Import Internal.
From S2P Require Import Disk.
From S2P Require Import DmuAlloc.
From S2P Require Import Buffer.
From S2P Require Import Compression.
From S2P Require Import Vdev.
From S2P Require Import DmuObjects.
From S2P Require Import DmuDenote.
From S2P Require Import DmuProtocol.
Import DiskOffset(DiskOffset).

Section world.
Context `{Hck : !Checksum} `{Hec : !EmptyChecksum} `{Hm : !Memory} `{Hz : !Zstd}.
Context {P St : Type} `{Hobj : !Object P} `{Hst : !ObjectStore St}.
Context `{Hol : !ObjectLaws} `{Hsl : !ObjectStoreLaws}.

Abbreviation Dmu := (ObjDmu (P := P) (St := St)).

(** ** The world: all references that anybody holds, and what they denote *)

Definition World (s : Dmu) (busy : list ModifiedObjectId) (pend : list (ModifiedObjectId * ObjectPointer))
    (rs : list ObjRef) (ts : list tree) : Prop :=
  ∃ own, dens s rs ts own ∧ Aux s busy pend own.

(** The places that references point to are held by the store. *)
Lemma den_dens_held (s : Dmu) :
  (∀ r t own, den s r t own → ∀ o, ROff o ∈ own → ∃ d, os_holds (store s) o d) ∧
  (∀ rs ts own, dens s rs ts own → ∀ o, ROff o ∈ own → ∃ d, os_holds (store s) o d).
Proof.
  assert (∀ p ob o, on_disk s p ob → ROff o ∈ [ROff (ptr_offset p)] → ∃ d, os_holds (store s) o d) as Hdisk.
  { intros p ob o [(d & Hd & _) _] [= ->]%list_elem_of_singleton. eauto. }
  assert (∀ m w ob o, at_place s m w ob → ROff o ∈ RMid m :: place_own w → ∃ d, os_holds (store s) o d) as Hplace.
  { intros m w ob o Hat [?|Hx]%elem_of_cons; [done|]. destruct w as [| |p]; [set_solver..|].
    eapply Hdisk; [|exact Hx]. apply Hat. }
  apply den_dens_ind.
  - intros r ob ts own own' Hres _ IH o [Hx|Hx]%elem_of_app; [|by apply IH].
    destruct r as [p|p pk|m pk|m pk]; simpl in Hres; [done| | |].
    + destruct Hres as [Hd ->]. by eapply Hdisk.
    + destruct Hres as (w & Hat & ->). by eapply Hplace.
    + destruct Hres as (w & Hat & _ & ->). by eapply Hplace.
  - set_solver.
  - intros r rs t ts own own' _ IH1 _ IH2 o [Hx|Hx]%elem_of_app; auto.
Qed.

Definition held (s : Dmu) (own : list res) : Prop := ∀ o, ROff o ∈ own → ∃ d, os_holds (store s) o d.

Lemma world_held s busy pend own rs ts :
  dens s rs ts own → Aux s busy pend own → held s (own ++ pend_own pend).
Proof.
  intros Hds Ha o [Hx|Hx]%elem_of_app; [by eapply (proj2 (den_dens_held s))|].
  apply list_elem_of_fmap in Hx as ([m p] & [= ->] & Hp).
  destruct (a_pend _ _ _ _ Ha m p Hp) as (d & _ & Hd & _). eauto.
Qed.

(** The reference to a modified object, somewhere in the trees *)
Lemma world_focus s busy pend rs ts m key e :
  World s busy pend rs ts → cache s !! key = Some e → key = KModified m ∨ key = KInWriteback m →
  ∃ r0 w o0 tk owk rest, resolve s r0 o0 (RMid m :: place_own w) ∧ ref_mid r0 = Some m ∧ at_place s m w o0 ∧
    dens s (kids o0) tk owk ∧ Aux s busy pend (((RMid m :: place_own w) ++ owk) ++ rest) ∧
    held s ((((RMid m :: place_own w) ++ owk) ++ rest) ++ pend_own pend) ∧
    ∀ s' busy' pend' own', den s' r0 (Nd (content (body o0)) tk) own' → agrees s s' rest →
      Aux s' busy' pend' (own' ++ rest) → World s' busy' pend' rs ts.
Proof.
  intros (own & Hds & Ha) He Hkey.
  assert (RMid m ∈ own) as Hin by (destruct Hkey as [-> | ->]; [by eapply (a_mods _ _ _ _ Ha)|by eapply (a_wbs _ _ _ _ Ha)]).
  destruct (focus s (RMid m) rs ts own Hds Hin) as (r0 & o0 & tk & ownr & owk & rest & Hres & Hx & Hk & Hp & Hw).
  assert (∃ w, at_place s m w o0 ∧ ownr = RMid m :: place_own w ∧ ref_mid r0 = Some m) as (w & Hat & -> & Hmid).
  { destruct r0 as [p|p pk|m0 pk|m0 pk]; simpl in Hres.
    - done.
    - destruct Hres as [_ ->]. set_solver.
    - destruct Hres as (w & Hat & ->). assert (m = m0) as <-; [|by exists w].
      apply elem_of_cons in Hx as [[= ->]|Hx]; [done|]. destruct w; set_solver.
    - destruct Hres as (w & Hat & _ & ->). assert (m = m0) as <-; [|by exists w].
      apply elem_of_cons in Hx as [[= ->]|Hx]; [done|]. destruct w; set_solver. }
  exists r0, w, o0, tk, owk, rest. split_and!; try done; [by eapply Aux_perm| |].
  { intros o Ho. apply (world_held s busy pend own rs ts Hds Ha). by rewrite Hp. }
  intros s' busy' pend' own' Hd Hag Ha'. destruct (Hw s' own' Hd Hag) as (own'' & Hds' & Hp').
  exists own''. split; [done|]. by eapply Aux_perm.
Qed.

(** A modified object: its children, and how to change it *)
Lemma modified_focus s busy pend rs ts m tag o :
  World s busy pend rs ts → cache s !! KModified m = Some (tag, o) →
  ∃ pk tk owk rest, dens s (kids o) tk owk ∧ cache s !! KInWriteback m = None ∧ written_back s !! m = None ∧
    Aux s busy pend ((RMid m :: owk) ++ rest) ∧
    ∀ s' busy' pend' own', den s' (RModified m pk) (Nd (content (body o)) tk) own' → agrees s s' rest →
      Aux s' busy' pend' (own' ++ rest) → World s' busy' pend' rs ts.
Proof.
  intros HW He. destruct (world_focus s busy pend rs ts m (KModified m) (tag, o) HW He ltac:(auto))
    as (r0 & w & o0 & tk & owk & rest & Hres & Hmid & Hat & Hk & Ha & Hheld & Hw).
  destruct w as [| |p]; simpl in Hat; [|destruct Hat as (? & ? & _); congruence..].
  destruct Hat as (tag' & He' & Hwb & Hwr). rewrite He in He'. injection He' as <- <-.
  destruct r0 as [| |m0 pk|m0 pk]; simplify_eq/=; [|destruct Hres as (w & Hat & Hne & _)].
  - exists pk, tk, owk, rest. split_and!; done.
  - exfalso. destruct w as [| |p]; simpl in Hat; [done|destruct Hat as (? & ? & _); congruence..].
Qed.

Lemma modified_den (s : Dmu) m pk tag o tk owk :
  cache s !! KModified m = Some (tag, o) → cache s !! KInWriteback m = None → written_back s !! m = None →
  dens s (kids o) tk owk → den s (RModified m pk) (Nd (content (body o)) tk) (RMid m :: owk).
Proof.
  intros He Hwb Hwr Hk. apply (den_node s (RModified m pk) o tk [RMid m] owk); [|done].
  exists PMod. split; [|done]. by exists tag.
Qed.

(** The references in a modified object were changed, in a state [s1] that
    keeps the object and everything else. *)
Lemma slot_update s s1 busy pend rs ts m tag o tk owk rest pk ks owk' :
  cache s !! KModified m = Some (tag, o) → cache s !! KInWriteback m = None → written_back s !! m = None →
  small o → dens s (kids o) tk owk →
  (∀ s' busy' pend' own', den s' (RModified m pk) (Nd (content (body o)) tk) own' → agrees s s' rest →
      Aux s' busy' pend' (own' ++ rest) → World s' busy' pend' rs ts) →
  dens s1 ks tk owk' → agrees s s1 (RMid m :: rest) → Aux s1 busy pend (owk' ++ RMid m :: rest) →
  World (set_cache s1 (<[KModified m := (tag, mkObj (body o) ks)]> (cache s1))) busy pend rs ts.
Proof.
  intros He Hwb Hwr Hsm Hk Hw Hk' Hag Ha.
  set (s2 := set_cache s1 (<[KModified m := (tag, mkObj (body o) ks)]> (cache s1))).
  assert (RMid m ∉ owk' ∧ RMid m ∉ rest) as [Hn1 Hn2].
  { pose proof (a_nodup _ _ _ _ Ha) as Hnd. rewrite <- app_assoc in Hnd. simpl in Hnd.
    apply NoDup_app in Hnd as (_ & Hd & Hnd). apply NoDup_cons in Hnd as [Hd' _]. split; [|set_solver].
    intros Hx. apply (Hd _ Hx). set_solver. }
  assert (∀ x, x ≠ RMid m → agree s1 s2 x) as Hag2 by (intros x Hx; by eapply agree_put).
  destruct (Hag (RMid m)) as (Hm1 & Hm2 & Hm3); [set_solver|].
  apply (Hw s2 busy pend (RMid m :: owk')).
  - apply (modified_den s2 m pk tag (mkObj (body o) ks)); simpl.
    + apply lookup_insert_eq.
    + rewrite lookup_insert_ne by done. by etrans.
    + by etrans.
    + eapply dens_frame; [done|]. intros x Hx. apply Hag2. by intros ->.
  - intros x Hx. eapply agree_trans; [apply Hag; set_solver|]. apply Hag2. by intros ->.
  - eapply Aux_perm; [|eapply Aux_put; [exact Ha|by rewrite Hm1|]].
    + simpl. symmetry. apply Permutation_middle.
    + simpl. apply (kids_small (body o) (kids o)); [|by destruct o].
      rewrite (dens_length _ _ _ _ Hk), (dens_length _ _ _ _ Hk'). done.
Qed.

(** ** Eviction *)

Lemma can_be_evicted_ok s busy pend rs ts key e :
  World s busy pend rs ts → cache s !! key = Some e →
  ∃ ok s' e', can_be_evicted s key e = Some (ok, s') ∧ World s' busy pend rs ts ∧ cache s' !! key = Some e' ∧
    next_modified_node_id s' = next_modified_node_id s ∧
    (ok = true → match key with
                 | KInWriteback _ => False
                 | KModified _ => Forall is_unmodified (kids e'.2)
                 | KUnmodified _ _ => True
                 end).
Proof.
  intros HW He. destruct key as [o g|m|m].
  - by exists true, s, e.
  - destruct e as [tag o].
    destruct (modified_focus s busy pend rs ts m tag o HW He) as (pk & tk & owk & rest & Hk & Hwb & Hwr & Ha & Hw).
    assert (small o) as Hsm by (by apply (a_small _ _ _ _ Ha m (tag, o))).
    destruct (settle_until_den s busy pend (kids o) tk owk (RMid m :: rest) Hk) as (ok & w & ks & owk' & Hs & Hds & Hag & Ha' & _ & Hok).
    { eapply Aux_perm; [|exact Ha]. simpl. apply Permutation_middle. }
    cbn [can_be_evicted snd fst]. rewrite Hs. cbn [mbind option_bind].
    eexists ok, _, (tag, mkObj (body o) ks). split; [done|]. split_and!; [|simpl; apply lookup_insert_eq|done|done].
    eapply (slot_update s (set_written_back s w) busy pend rs ts m tag o tk owk rest pk); done.
  - by exists false, s, e.
Qed.

Lemma cache_evict_ok s busy pend rs ts offered :
  World s busy pend rs ts →
  ∃ victim s', cache_evict s offered = Some (victim, s') ∧ World s' busy pend rs ts ∧
    next_modified_node_id s' = next_modified_node_id s ∧
    ∀ key, victim = Some key → ∃ e, cache s' !! key = Some e ∧
      match key with
      | KInWriteback _ => False
      | KModified _ => Forall is_unmodified (kids e.2)
      | KUnmodified _ _ => True
      end.
Proof.
  revert s. induction offered as [|key offered IH]; intros s HW; simpl; [by exists None, s|].
  destruct (cache s !! key) as [e|] eqn:He; [|by apply IH].
  destruct (can_be_evicted_ok s busy pend rs ts key e HW He) as (ok & s1 & e1 & -> & HW1 & He1 & Hn1 & Hok).
  cbn [mbind option_bind]. destruct ok.
  - exists (Some key), s1. split_and!; try done. intros k [= <-]. exists e1. split; [done|]. by apply Hok.
  - destruct (IH s1 HW1) as (v & s2 & Hs2 & HW2 & Hn2 & Hv). exists v, s2. split_and!; try done. congruence.
Qed.

(** ** The steps of a write-back *)

(** Entries of clean objects may go at any time. *)
Lemma clean_drop s busy pend rs ts c :
  World s busy pend rs ts → c ⊆ cache s → (∀ k, is_clean k = false → c !! k = cache s !! k) →
  World (set_cache s c) busy pend rs ts.
Proof.
  intros (own & Hds & Ha) Hsub Hkeep. rewrite map_subseteq_spec in Hsub. exists own. split.
  - eapply dens_frame; [done|]. intros [m|o] _; simpl; [by rewrite !Hkeep|]. split; [done|].
    intros g e He. by apply Hsub.
  - destruct Ha. split; simpl; try done.
    + intros m e. rewrite Hkeep by done. apply a_mods.
    + intros m e. rewrite Hkeep by done. apply a_wbs.
    + intros o g e He. eapply a_clean. by apply Hsub.
    + intros m e. rewrite Hkeep by done. apply a_info.
    + intros m e. rewrite Hkeep by done. apply a_small.
    + intros m e. rewrite Hkeep by done. apply a_wb.
    + intros m Hm'. rewrite Hkeep by done. by apply a_busy.
    + intros m p Hp. rewrite Hkeep by done. by apply a_pend.
    + intros m e. rewrite Hkeep by done. apply a_gone.
Qed.

Lemma drop_cache_ok s busy pend rs ts pinned :
  World s busy pend rs ts → World (drop_cache s pinned) busy pend rs ts.
Proof.
  intros HW. apply clean_drop; [done|apply map_filter_subseteq|].
  intros k Hk. destruct (cache s !! k) as [e|] eqn:He.
  - apply map_lookup_filter_Some. simpl. by rewrite Hk.
  - apply map_lookup_filter_None. by left.
Qed.

(** A modified object whose children are on disk goes to [InWriteback]. *)
Lemma begin_local s busy pend m tag o tk owk rest :
  cache s !! KModified m = Some (tag, o) → Forall is_unmodified (kids o) →
  cache s !! KInWriteback m = None → written_back s !! m = None →
  dens s (kids o) tk owk → Aux s busy pend ((RMid m :: owk) ++ rest) →
  let s' := set_cache s (<[KInWriteback m := (tag, o)]> (delete (KModified m) (cache s))) in
  at_place s' m PWb o ∧ dens s' (kids o) tk owk ∧ agrees s s' rest ∧ Aux s' (m :: busy) pend ((RMid m :: owk) ++ rest).
Proof.
  intros He Hu Hwb Hwr Hk Ha.
  set (c := <[KInWriteback m := (tag, o)]> (delete (KModified m) (cache s))).
  assert (∀ k, k ≠ KModified m → k ≠ KInWriteback m → c !! k = cache s !! k) as Hc.
  { intros k H1 H2. unfold c. by rewrite lookup_insert_ne, lookup_delete_ne. }
  assert (c !! KModified m = None) as Hc1 by (unfold c; by rewrite lookup_insert_ne, lookup_delete_eq).
  assert (c !! KInWriteback m = Some (tag, o)) as Hc2 by apply lookup_insert_eq.
  assert (∀ x, x ≠ RMid m → agree s (set_cache s c) x) as Hag.
  { intros [m'|o'] Hx; simpl; [|split; [done|]; intros g e; by rewrite Hc].
    assert (m ≠ m') by congruence. by rewrite !Hc by congruence. }
  pose proof (a_nodup _ _ _ _ Ha) as Hnd. simpl in Hnd. apply NoDup_cons in Hnd as [Hnd _].
  rewrite !elem_of_app in Hnd. split_and!.
  - exists tag. done.
  - eapply dens_frame; [done|]. intros x Hx. apply Hag. intros ->. tauto.
  - intros x Hx. apply Hag. intros ->. tauto.
  - assert (small o) as Hsm by (by apply (a_small _ _ _ _ Ha m (tag, o))).
    assert (m ∉ busy) as Hnb.
    { intros Hb. apply (a_busy _ _ _ _ Ha) in Hb as [[? ?] _]. congruence. }
    assert (m ∉ pend.*1) as Hnp by (by apply (a_gone _ _ _ _ Ha m (tag, o))).
    assert (∀ m' e, c !! KModified m' = Some e → m' ≠ m ∧ cache s !! KModified m' = Some e) as Hmod.
    { intros m' e H'. destruct (decide (m' = m)) as [->|]; [congruence|]. rewrite Hc in H'; [done|congruence..]. }
    assert (∀ m' e, c !! KInWriteback m' = Some e → m' = m ∧ e = (tag, o) ∨ m' ≠ m ∧ cache s !! KInWriteback m' = Some e) as Hwbs.
    { intros m' e H'. destruct (decide (m' = m)) as [->|]; [left; split; congruence|]. right. rewrite Hc in H'; [done|congruence..]. }
    destruct Ha. split; simpl; try done.
    + intros m' e [_ H']%Hmod. by eapply a_mods.
    + intros m' e [[-> _]|[_ H']]%Hwbs; [set_solver|by eapply a_wbs].
    + intros o' g e. rewrite Hc by done. apply a_clean.
    + intros m' [H'|[[->|H']%elem_of_cons|H']]; apply a_fresh; [by left|left; set_solver|auto|auto].
    + intros m' e [_ H']%Hmod. by eapply a_info.
    + intros m' e [_ H']%Hmod. by eapply a_small.
    + intros m' e [[_ ->]|[_ H']]%Hwbs; [done|by eapply a_wb].
    + intros m' [->|H']%elem_of_cons; [split; [by eexists|by eapply a_info]|].
      assert (m' ≠ m) by congruence. rewrite Hc by congruence. by apply a_busy.
    + intros m' p Hp. destruct (a_pend m' p Hp) as (d & o' & Hd & Hr & Hs). exists d, o'. split_and!; try done.
      intros e [[-> _]|[_ H']]%Hwbs; [|by apply Hs]. exfalso. apply Hnp, list_elem_of_fmap. by exists (m, p).
    + intros m' e [_ H']%Hmod. by eapply a_gone.
    + apply NoDup_cons. split; [|done]. rewrite elem_of_app. tauto.
Qed.

Lemma begin_ok s busy pend rs ts m tag o :
  World s busy pend rs ts → cache s !! KModified m = Some (tag, o) → Forall is_unmodified (kids o) →
  World (set_cache s (<[KInWriteback m := (tag, o)]> (delete (KModified m) (cache s)))) (m :: busy) pend rs ts.
Proof.
  intros HW He Hu.
  destruct (modified_focus s busy pend rs ts m tag o HW He) as (pk & tk & owk & rest & Hk & Hwb & Hwr & Ha & Hw).
  destruct (begin_local s busy pend m tag o tk owk rest He Hu Hwb Hwr Hk Ha) as (Hat & Hk' & Hag & Ha').
  apply (Hw _ _ _ (RMid m :: owk)); [|done|done].
  apply (den_node _ (RModified m pk) o tk [RMid m] owk); [|done]. by exists PWb.
Qed.

Lemma Aux_work s busy pend busy' pend' own :
  busy ≡ₚ busy' → pend ≡ₚ pend' → Aux s busy pend own → Aux s busy' pend' own.
Proof.
  intros Hb Hp []. assert (pend.*1 ≡ₚ pend'.*1) as Hp1 by (by rewrite Hp).
  assert (pend_own pend ≡ₚ pend_own pend') as Ho by (unfold pend_own; by rewrite Hp).
  split; try done.
  - by rewrite <- Ho.
  - intros m Hx. apply a_fresh. by rewrite Hb, Hp1.
  - intros m Hx. apply a_busy. by rewrite Hb.
  - intros m p Hx. apply a_pend. by rewrite Hp.
  - intros m e He Hx. eapply a_gone; [done|]. by rewrite Hp1.
  - by rewrite <- Hb, <- Hp1.
Qed.

Lemma World_work s busy pend busy' pend' rs ts :
  busy ≡ₚ busy' → pend ≡ₚ pend' → World s busy pend rs ts → World s busy' pend' rs ts.
Proof. intros Hb Hp (own & Hds & Ha). exists own. split; [done|]. by eapply Aux_work. Qed.

(** An object that is being written: its children, and how to change it *)
Lemma writeback_focus s busy pend rs ts m tag o :
  World s busy pend rs ts → cache s !! KInWriteback m = Some (tag, o) →
  ∃ r0 tk owk rest, ref_mid r0 = Some m ∧ dens s (kids o) tk owk ∧ cache s !! KModified m = None ∧
    written_back s !! m = None ∧ Aux s busy pend ((RMid m :: owk) ++ rest) ∧
    held s (((RMid m :: owk) ++ rest) ++ pend_own pend) ∧
    ∀ s' w o' owk' busy' pend', w ≠ PMod → at_place s' m w o' → content (body o') = content (body o) →
      dens s' (kids o') tk owk' → agrees s s' rest →
      Aux s' busy' pend' (((RMid m :: place_own w) ++ owk') ++ rest) → World s' busy' pend' rs ts.
Proof.
  intros HW He. destruct (world_focus s busy pend rs ts m (KInWriteback m) (tag, o) HW He ltac:(auto))
    as (r0 & w & o0 & tk & owk & rest & Hres & Hmid & Hat & Hk & Ha & Hheld & Hw).
  destruct w as [| |p]; simpl in Hat; [destruct Hat as (? & _ & ? & _); congruence| |destruct Hat as (? & ? & _); congruence].
  destruct Hat as (tag' & Hmod & He' & Hwr). rewrite He in He'. injection He' as <- <-.
  exists r0, tk, owk, rest. split_and!; try done.
  intros s' w o' owk' busy' pend' Hne Hat' Hc Hk' Hag Ha'. eapply Hw; [|done|exact Ha'].
  rewrite <- Hc. apply (den_node s' r0 o' tk (RMid m :: place_own w) owk'); [|done].
  destruct r0 as [| |m0 pk|m0 pk]; simplify_eq/=; exists w; done.
Qed.

Lemma same_kids (s : Dmu) o o' tk owk : same o o' → dens s (kids o) tk owk → dens s (kids o') tk owk.
Proof. intros [_ Hk]. by apply dens_same. Qed.

(** What is in the cache under [InWriteback] is replaced, and the write of it
    is queued. *)
Lemma written_local s s' busy pend m tag o o1 pend' tk owk rest :
  cache s !! KInWriteback m = Some (tag, o) → cache s !! KModified m = None → written_back s !! m = None →
  dens s (kids o) tk owk → Aux s (m :: busy) pend ((RMid m :: owk) ++ rest) →
  held s (((RMid m :: owk) ++ rest) ++ pend_own pend) →
  cache s' = <[KInWriteback m := (tag, o1)]> (cache s) → written_back s' = written_back s →
  next_modified_node_id s' = next_modified_node_id s → os_ok (store s') → small o1 → kids o1 = kids o →
  (∀ m', m' ≠ m → modified_info s' !! m' = modified_info s !! m') →
  (∀ o' d', os_holds (store s) o' d' → os_holds (store s') o' d') →
  pend' = pend ∨ (∃ p d o', pend' = (m, p) :: pend ∧ (∀ d, ¬ os_holds (store s) (ptr_offset p) d) ∧
    os_holds (store s') (ptr_offset p) d ∧ reads p d o' ∧ same o1 o') →
  at_place s' m PWb o1 ∧ dens s' (kids o1) tk owk ∧ agrees s s' rest ∧ Aux s' busy pend' ((RMid m :: owk) ++ rest).
Proof.
  intros He Hmod Hwr Hk Ha Hheld Hc Hwr' Hn Hok Hsm1 Hki Hinfo Hst' Hpend.
  pose proof (a_nodup _ _ _ _ Ha) as Hnd.
  assert (RMid m ∉ owk ∧ RMid m ∉ rest) as [Hn1 Hn2].
  { simpl in Hnd. apply NoDup_cons in Hnd as [Hnd _]. rewrite !elem_of_app in Hnd. tauto. }
  assert (∀ k, k ≠ KInWriteback m → cache s' !! k = cache s !! k) as Hc'.
  { intros k Hne. rewrite Hc. by rewrite lookup_insert_ne. }
  assert (∀ x, x ≠ RMid m → agree s s' x) as Hag.
  { intros [m'|o'] Hx; simpl; [|split; [auto|]; intros g e; by rewrite Hc'].
    assert (m ≠ m') by congruence. rewrite !Hc', Hwr' by congruence. done. }
  split_and!; [| |intros x Hx; apply Hag; by intros ->|].
  { exists tag. rewrite Hc' by done. rewrite Hc, lookup_insert_eq, Hwr'. done. }
  { rewrite Hki. eapply dens_frame; [done|]. intros x Hx. apply Hag. by intros ->. }
  assert (m ∉ busy ∧ m ∉ pend.*1) as [Hnb Hnp].
  { pose proof (a_once _ _ _ _ Ha) as Ho. simpl in Ho. apply NoDup_cons in Ho as [Ho _]. rewrite elem_of_app in Ho. tauto. }
  assert (∀ m' e, cache s' !! KInWriteback m' = Some e → m' = m ∧ e = (tag, o1) ∨ m' ≠ m ∧ cache s !! KInWriteback m' = Some e) as Hwbs.
  { intros m' e H'. destruct (decide (m' = m)) as [->|]; [left|right; rewrite Hc' in H'; [done|congruence]].
    rewrite Hc, lookup_insert_eq in H'. split; congruence. }
  assert (∀ m' e, cache s' !! KModified m' = Some e → m' ≠ m ∧ cache s !! KModified m' = Some e) as Hmods.
  { intros m' e. rewrite Hc' by done. intros H'. split; [congruence|done]. }
  destruct (a_wb _ _ _ _ Ha m (tag, o) He) as [Hsm Hu]. simpl in Hsm, Hu.
  assert (pend'.*1 = pend.*1 ∨ pend'.*1 = m :: pend.*1) as Hfst.
  { destruct Hpend as [->|(p & d & o' & -> & _)]; auto. }
  destruct Ha. split; simpl; try done.
  - destruct Hpend as [->|(p & d & o' & -> & Hfree & _)]; [done|].
    change (NoDup (((RMid m :: owk) ++ rest) ++ [ROff (ptr_offset p)] ++ pend_own pend)).
    rewrite app_assoc, (Permutation_app_comm _ [_]). simpl. apply NoDup_cons. split; [|done].
    intros Hx. destruct (Hheld _ Hx) as [d' Hd']. by eapply Hfree.
  - intros m' e [_ H']%Hmods. by eapply a_mods.
  - intros m' e [[-> _]|[_ H']]%Hwbs; [set_solver|by eapply a_wbs].
  - intros m' p. rewrite Hwr'. apply a_written.
  - intros o' g e. rewrite Hc' by done. apply a_clean.
  - intros m' Hx. rewrite Hn. apply a_fresh. destruct Hfst as [Hf|Hf]; rewrite Hf in Hx; set_solver.
  - intros m' e [Hne H']%Hmods. destruct (a_info m' e H') as (i & Hi & ?). exists i. by rewrite Hinfo.
  - intros m' e [_ H']%Hmods. by eapply a_small.
  - intros m' e [[_ ->]|[_ H']]%Hwbs; [|by eapply a_wb]. simpl. by rewrite Hki.
  - intros m' Hm'. assert (m' ≠ m) by congruence. rewrite Hc' by congruence.
    destruct (a_busy m') as [? (i & Hi & ?)]; [set_solver|]. split; [done|]. exists i. by rewrite Hinfo.
  - intros m' p Hp.
    assert ((m', p) ∈ pend → ∃ d o', os_holds (store s') (ptr_offset p) d ∧ reads p d o' ∧
      ∀ e, cache s' !! KInWriteback m' = Some e → same e.2 o') as Hold.
    { intros Hp'. destruct (a_pend m' p Hp') as (d & o' & Hd & Hr & Hs). exists d, o'. split_and!; [auto|done|].
      intros e [[-> _]|[_ H']]%Hwbs; [|by apply Hs]. exfalso. apply Hnp, list_elem_of_fmap. by exists (m, p). }
    destruct Hpend as [->|(q & d & o' & -> & Hfree & Hd & Hr & Hsame)]; [by apply Hold|].
    apply elem_of_cons in Hp as [[= -> ->]|Hp]; [|by apply Hold]. exists d, o'. split_and!; try done.
    intros e [[_ ->]|[Hne _]]%Hwbs; [done|congruence].
  - intros m' e [Hne H']%Hmods Hx. destruct Hfst as [Hf|Hf]; rewrite Hf in Hx; [by eapply a_gone|].
    apply elem_of_cons in Hx as [->|Hx]; [done|]. by eapply a_gone.
  - simpl in a_once. destruct Hfst as [->| ->]; [by apply NoDup_cons in a_once as [_ ?]|].
    by rewrite <- Permutation_middle.
  - by rewrite Hn.
Qed.

(** The end of a write-back whose object is still there *)
Lemma done_local s busy pend m p tag o c tk owk rest :
  cache s !! KInWriteback m = Some (tag, o) → cache s !! KModified m = None →
  dens s (kids o) tk owk → Aux s busy ((m, p) :: pend) ((RMid m :: owk) ++ rest) →
  c = delete (KInWriteback m) (cache s) ∨ c = <[ptr_key p := (tag, o)]> (delete (KInWriteback m) (cache s)) →
  let s' := set_written_back (set_cache s c) (<[m := p]> (written_back s)) in
  ∃ o', at_place s' m (PDisk p) o' ∧ content (body o') = content (body o) ∧ dens s' (kids o') tk owk ∧
    agrees s s' rest ∧ Aux s' busy pend (((RMid m :: place_own (PDisk p)) ++ owk) ++ rest).
Proof.
  intros He Hmod Hk Ha Hcase s'.
  pose proof (a_nodup _ _ _ _ Ha) as Hnd.
  change (NoDup (((RMid m :: owk) ++ rest) ++ [ROff (ptr_offset p)] ++ pend_own pend)) in Hnd.
  assert (NoDup (((RMid m :: ROff (ptr_offset p) :: owk) ++ rest) ++ pend_own pend)) as Hnd'.
  { rewrite app_assoc, (Permutation_app_comm _ [_]) in Hnd. simpl in Hnd |- *.
    by rewrite (Permutation_swap (ROff (ptr_offset p)) (RMid m)). }
  assert (∀ x, x ∈ owk ++ rest ++ pend_own pend → x ≠ RMid m ∧ x ≠ ROff (ptr_offset p)) as Hne.
  { intros x Hx. simpl in Hnd'. rewrite !NoDup_cons, <- app_assoc in Hnd'. split; intros ->; set_solver. }
  assert (∀ g, cache s !! KUnmodified (ptr_offset p) g = None) as Hfree.
  { intros g. destruct (cache s !! KUnmodified (ptr_offset p) g) eqn:Hg; [|done]. exfalso.
    apply (a_clean _ _ _ _ Ha) in Hg. simpl in Hnd'. rewrite !NoDup_cons, <- app_assoc in Hnd'. set_solver. }
  assert (∀ k e, c !! k = Some e → k = ptr_key p ∧ e = (tag, o) ∨ k ≠ KInWriteback m ∧ cache s !! k = Some e) as Hc.
  { intros k e Hx. destruct Hcase as [-> | ->].
    - apply lookup_delete_Some in Hx as [? ?]. auto.
    - apply lookup_insert_Some in Hx as [[<- <-]|[_ [? ?]%lookup_delete_Some]]; auto. }
  assert (∀ k, k ≠ KInWriteback m → k ≠ ptr_key p → c !! k = cache s !! k) as Hkeep.
  { intros k H1 H2. destruct Hcase as [-> | ->]; rewrite ?lookup_insert_ne, ?lookup_delete_ne; done. }
  assert (c !! KInWriteback m = None) as Hgone.
  { destruct Hcase as [-> | ->]; rewrite ?lookup_insert_ne by done; apply lookup_delete_eq. }
  assert (∀ x, x ≠ RMid m → x ≠ ROff (ptr_offset p) → agree s s' x) as Hag.
  { intros [m'|o'] H1 H2; simpl.
    - assert (m ≠ m') by congruence. rewrite !Hkeep, lookup_insert_ne by (done || congruence). done.
    - split; [done|]. intros g e. rewrite Hkeep; [done|done|]. unfold ptr_key. congruence. }
  destruct (a_pend _ _ _ _ Ha m p) as (d & o' & Hd & Hr & Hsame); [set_solver|].
  specialize (Hsame (tag, o) He). simpl in Hsame.
  exists o'. split_and!.
  - simpl. rewrite Hkeep, lookup_insert_eq by done. split_and!; try done. split; [by exists d|].
    intros g e [[[= ->] ->]|[_ Hx]]%Hc; [|by rewrite Hfree in Hx].
    destruct (a_wb _ _ _ _ Ha m (tag, o) He) as [Hsm _]. done.
  - by destruct Hsame.
  - apply (same_kids s' o o'); [done|]. eapply dens_frame; [done|]. intros x Hx. apply Hag; apply Hne; set_solver.
  - intros x Hx. apply Hag; apply Hne; set_solver.
  - assert (∀ m' e, c !! KModified m' = Some e → cache s !! KModified m' = Some e) as Hmods.
    { intros m' e [[? _]|[_ H']]%Hc; done. }
    assert (∀ m' e, c !! KInWriteback m' = Some e → m' ≠ m ∧ cache s !! KInWriteback m' = Some e) as Hwbs.
    { intros m' e [[? _]|[? H']]%Hc; [done|]. split; [congruence|done]. }
    assert (∀ m', m' ∈ busy → m' ≠ m) as Hnb.
    { intros m' Hx ->. pose proof (a_once _ _ _ _ Ha) as Ho. apply NoDup_app in Ho as (_ & Ho & _).
      apply (Ho m Hx). set_solver. }
    destruct Ha. split; simpl; try done.
    + intros m' e H'%Hmods. apply a_mods in H'. set_solver.
    + intros m' e [_ H']%Hwbs. apply a_wbs in H'. set_solver.
    + intros m' q [[<- _]|[_ H']]%lookup_insert_Some; [set_solver|]. apply a_written in H'. set_solver.
    + intros o1 g e [[[= -> _] _]|[_ H']]%Hc; [set_solver|]. apply a_clean in H'. set_solver.
    + intros m' Hx. apply a_fresh. set_solver.
    + intros m' e H'%Hmods. by eapply a_info.
    + intros m' e H'%Hmods. by eapply a_small.
    + intros m' e [_ H']%Hwbs. by eapply a_wb.
    + intros m' Hx. rewrite Hkeep; [by apply a_busy| |done]. apply Hnb in Hx. congruence.
    + intros m' q Hq. destruct (a_pend m' q) as (d1 & o1 & Hd1 & Hr1 & Hs1); [set_solver|].
      exists d1, o1. split_and!; try done. intros e [_ H']%Hwbs. by apply Hs1.
    + intros m' e H'%Hmods Hx. apply (a_gone m' e H'). set_solver.
    + simpl in a_once. rewrite <- Permutation_middle in a_once. by apply NoDup_cons in a_once as [_ ?].
Qed.

Lemma done_present_ok s busy pend rs ts m p entry c :
  World s busy ((m, p) :: pend) rs ts → cache s !! KInWriteback m = Some entry →
  c = delete (KInWriteback m) (cache s) ∨ c = <[ptr_key p := entry]> (delete (KInWriteback m) (cache s)) →
  World (set_written_back (set_cache s c) (<[m := p]> (written_back s))) busy pend rs ts.
Proof.
  destruct entry as [tag o]. intros HW He Hcase.
  destruct (writeback_focus s _ _ rs ts m tag o HW He) as (r0 & tk & owk & rest & Hmid & Hk & Hmod & Hwr & Ha & Hheld & Hw).
  destruct (done_local s busy pend m p tag o c tk owk rest He Hmod Hk Ha Hcase) as (o' & Hat & Hc & Hk' & Hag & Ha').
  by apply (Hw _ (PDisk p) o' owk).
Qed.

(** The end of a write-back whose object was stolen *)
Lemma done_stolen_ok s busy pend rs ts m p :
  World s busy ((m, p) :: pend) rs ts →
  ∃ s', dmu_copy_on_write s p = Some s' ∧ next_modified_node_id s' = next_modified_node_id s ∧ World s' busy pend rs ts.
Proof.
  intros (own & Hds & Ha). pose proof (a_nodup _ _ _ _ Ha) as Hnd.
  change (NoDup (own ++ [ROff (ptr_offset p)] ++ pend_own pend)) in Hnd.
  rewrite app_assoc, (Permutation_app_comm _ [_]) in Hnd. simpl in Hnd. apply NoDup_cons in Hnd as [Hno Hnd].
  destruct (os_copy_on_write_ok (store s) (ptr_offset p) (ptr_size p) (ptr_generation p) (ptr_info p) (a_store _ _ _ _ Ha))
    as (st' & Hcow & Hok & Hkeep).
  exists (set_store s st'). unfold dmu_copy_on_write. rewrite Hcow. split_and!; try done.
  exists own. split.
  - eapply dens_frame; [done|]. intros [m'|o] Hx; simpl; [done|]. split; [|done].
    intros d Hd. apply Hkeep; [|done]. intros ->. set_solver.
  - destruct Ha. split; simpl; try done.
    + intros m' Hx. apply a_fresh. set_solver.
    + intros m' q Hq. destruct (a_pend m' q) as (d1 & o1 & Hd1 & Hr1 & Hs1); [set_solver|].
      exists d1, o1. split_and!; try done. apply Hkeep; [|done]. intros Heq. apply Hno. rewrite <- Heq.
      apply elem_of_app. right. by eapply pend_in.
    + intros m' e H' Hx. apply (a_gone m' e H'). set_solver.
    + simpl in a_once. rewrite <- Permutation_middle in a_once. by apply NoDup_cons in a_once as [_ ?].
Qed.

Lemma done_step_ok s busy pend rs ts m p evict :
  World s busy ((m, p) :: pend) rs ts →
  ∃ s', write_back_done s m evict p = Some s' ∧ next_modified_node_id s' = next_modified_node_id s ∧
    World s' busy pend rs ts.
Proof.
  intros HW. unfold write_back_done. destruct (cache s !! KInWriteback m) as [entry|] eqn:He; [|by eapply done_stolen_ok].
  eexists. split_and!; [done|done|]. eapply done_present_ok; [done|done|]. destruct evict; auto.
Qed.

(** ** The beginning of a write-back *)

Lemma evict_begin_ok s busy pend rs ts offered :
  World s busy pend rs ts →
  ∃ job s', evict_begin s offered = Some (job, s') ∧ next_modified_node_id s' = next_modified_node_id s ∧
    World s' (match job with Some (m, _) => m :: busy | None => busy end) pend rs ts.
Proof.
  intros HW. unfold evict_begin.
  destruct (cache_evict_ok s busy pend rs ts offered HW) as (victim & s1 & -> & HW1 & Hn & Hv).
  cbn [mbind option_bind]. destruct victim as [key|]; [|by exists None, s1].
  destruct (Hv key eq_refl) as ([tag o] & He & Hu). rewrite He. cbn [mbind option_bind].
  destruct key as [off g|m|m]; [| |done].
  - eexists None, _. split_and!; [done|done|]. apply clean_drop; [done|apply delete_subseteq|].
    intros k Hk. rewrite lookup_delete_ne; [done|]. by intros <-.
  - eexists (Some (m, tag)), _. split_and!; [done|done|]. exact (begin_ok s1 busy pend rs ts m tag o HW1 He Hu).
Qed.

Definition prepared_busy (p : Prepared) (m : ModifiedObjectId) (busy : list ModifiedObjectId) : list ModifiedObjectId :=
  match p with Ready => m :: busy | _ => busy end.

Lemma omap_dep_nil (s : Dmu) rs : Forall (settled s) rs → omap dep_of rs = [] → Forall is_unmodified rs.
Proof.
  induction 1 as [|r rs Hr _ IH]; [done|]. simpl. destruct (dep_of r) as [d|] eqn:Hd; [done|].
  intros Ho. constructor; [|auto]. destruct Hr as [?|(key & m & pk & _ & _ & Hmid & Hpk)]; [done|].
  unfold dep_of in Hd. by rewrite Hmid, Hpk in Hd.
Qed.

Lemma prepare_ok s busy pend rs ts m :
  World s busy pend rs ts →
  ∃ p s', prepare_write_back s m = Some (p, s') ∧ next_modified_node_id s' = next_modified_node_id s ∧
    World s' (prepared_busy p m busy) pend rs ts ∧
    (p = NotPresent → s' = s ∧ cache s !! KModified m = None ∧ cache s !! KInWriteback m = None).
Proof.
  intros HW. unfold prepare_write_back.
  destruct (cache s !! KInWriteback m) eqn:Hwb; [by exists Busy, s|].
  destruct (cache s !! KModified m) as [[tag o]|] eqn:He; [|by exists NotPresent, s].
  destruct (modified_focus s busy pend rs ts m tag o HW He) as (pk & tk & owk & rest & Hk & _ & Hwr & Ha & Hw).
  destruct (settle_all_den s busy pend (kids o) tk owk (RMid m :: rest) Hk) as (w & ks & owk' & -> & Hds & Hag & Ha' & _ & Hset).
  { eapply Aux_perm; [|exact Ha]. simpl. apply Permutation_middle. }
  cbn [mbind option_bind].
  assert (small o) as Hsm by (by apply (a_small _ _ _ _ Ha m (tag, o))).
  assert (World (set_cache (set_written_back s w) (<[KModified m := (tag, mkObj (body o) ks)]> (cache (set_written_back s w)))) busy pend rs ts)
    as HW' by (eapply (slot_update s (set_written_back s w) busy pend rs ts m tag o tk owk rest pk); done).
  destruct (omap dep_of ks) as [|d deps] eqn:Hdep; [|by eexists (Dependencies _), _].
  eexists Ready, _. split_and!; [done|done| |done]. apply (omap_dep_nil s) in Hdep; [|done].
  eapply (begin_ok _ busy pend rs ts m tag) in HW'; [|simpl; apply lookup_insert_eq|done].
  simpl in *. by rewrite delete_insert_eq in HW'.
Qed.

End world.

Section write_back.
Context `{Hck : !Checksum} `{Hec : !EmptyChecksum} `{Hm : !Memory} `{Hz : !Zstd}.
Context {P St : Type} `{Hobj : !Object P} `{Hst : !ObjectStore St}.
Context `{Hol : !ObjectLaws} `{Hsl : !ObjectStoreLaws}.
Context `{Hcl : !ChecksumLaws} `{Hel : !EmptyLaws} `{Hml : !MemoryLaws} `{Hzl : !ZstdLaws}.
Context (default_compression : CompressionConfiguration) (default_storage_class : Z).
Context (Hcomp : ∀ d, blen d ≤ 2 ^ 24 → compressible default_compression d).

Abbreviation Dmu := (ObjDmu (P := P) (St := St)).
Abbreviation write := (write_object (P := P) (St := St) default_compression default_storage_class).

(** ** Writing one object *)

(** What the packed slices of an object become: the bytes of a buffer, stored
    compressed, from which the object is read again. *)
Lemma packed_data o slices mode :
  small o → obj_pack o = Some (inl (slices, mode)) → blen (concat slices) ≤ 2 * obj_size o →
  ∃ buf w c data n rest,
    with_capacity (Block.round_up_from_bytes (wrap32 (obj_size o))) = Some buf ∧
    foldl (λ b d, b ← b; bw_write b d) (Some buf) slices = Some w ∧
    compress default_compression (into_buf w) = Some c ∧ buf_as_ref c = Some data ∧
    blen data = BLOCK_SIZE * n ∧ 0 < n ∧ BLOCK_SIZE * n < U32_SIZE ∧
    ∃ b, decompress (decompression_tag default_compression)
           {| buf_source := data; range_start := 0; range_end := n |} = Some (inl b) ∧
      buf_as_ref b = Some (concat slices ++ rest) ∧ blen (concat slices ++ rest) < U32_SIZE.
Proof using Hcomp Hml Hzl.
  intros [_ [Hs0 Hs1]] Hp Hlen. change (2 ^ 22) with 4194304 in Hs1.
  assert (wrap32 (obj_size o) = obj_size o) as -> by (unfold wrap32; rewrite Z.mod_small; [done|lia]).
  pose proof (round_up_bounds (obj_size o)) as Hr. set (cap := Block.round_up_from_bytes (obj_size o)) in *.
  destruct (with_capacity_ok cap) as (buf & Hbuf & Hok & Hb & Hcap); [unfold BLOCK_SIZE in *; lia|unfold BLOCK_SIZE, U32_SIZE in *; lia|].
  assert (bw_size buf = 0) as Hz0 by (rewrite <- bw_bytes_length, Hb by done; done).
  destruct (bw_writes_grow buf slices Hok) as (w & Hw & Hokw & Hbw & Hcw & Hcm);
    [rewrite Hcap; unfold BLOCK_SIZE in *; lia|rewrite Hz0; unfold BLOCK_SIZE in *; lia|].
  destruct (into_buf_ref w Hokw) as (Hbok & Href & Hsplit).
  assert (blen (stg (bw_buf w)) = BLOCK_SIZE * capacity (bw_buf w)) as Hst0 by (destruct Hokw as (_ & _ & Hl & _); done).
  destruct (compress_ok default_compression (into_buf w) (stg (bw_buf w)) Hbok Href)
    as (c & data & n & Hc & Hdata & Hn & Hmax & Hle & Hdec).
  { apply Hcomp. rewrite Hst0. lia. }
  assert (0 < n) as Hn0 by (unfold BLOCK_SIZE in *; lia).
  destruct (Hdec {| buf_source := data; range_start := 0; range_end := n |}) as (b & Hb' & Hbr).
  { unfold buf_as_ref. cbn [range_start range_end buf_source].
    rewrite !to_bytes_Some by (unfold BLOCK_SIZE, U32_SIZE in *; lia). cbn [mbind option_bind].
    rewrite Z.mul_0_r, Z.sub_0_r, <- Hn, cut_front by (unfold blen; lia). unfold blen. by rewrite Nat2Z.id, firstn_all. }
  exists buf, w, c, data, n, (drop (Z.to_nat (bw_size w)) (stg (bw_buf w))). split_and!; try done.
  assert (stg (bw_buf w) = concat slices ++ drop (Z.to_nat (bw_size w)) (stg (bw_buf w))) as Hall.
  { rewrite Hsplit at 1. by rewrite Hbw, Hb. }
  exists b. split; [done|]. rewrite <- Hall. split; [done|]. rewrite Hst0. unfold U32_SIZE. lia.
Qed.

Lemma write_object_ok (s : Dmu) m pk tag o :
  cache s !! KInWriteback m = Some (tag, o) → small o → Forall is_unmodified (kids o) →
  info_at s m → os_ok (store s) →
  ∃ r s' o1, write s m pk = Some (r, s') ∧
    cache s' = <[KInWriteback m := (tag, o1)]> (cache s) ∧ written_back s' = written_back s ∧
    next_modified_node_id s' = next_modified_node_id s ∧ os_ok (store s') ∧
    content (body o1) = content (body o) ∧ kids o1 = kids o ∧ small o1 ∧
    (∀ m', m' ≠ m → modified_info s' !! m' = modified_info s !! m') ∧
    (∀ o' d', os_holds (store s) o' d' → os_holds (store s') o' d') ∧
    ∀ p, r = inl p → (∀ d, ¬ os_holds (store s) (ptr_offset p) d) ∧
      ∃ d o', os_holds (store s') (ptr_offset p) d ∧ reads p d o' ∧ same o1 o'.
Proof using Hcl Hcomp Hel Hml Hsl Hzl.
  intros He Hsm Hu (info & Hinfo & Hio) Hok. unfold write_object. rewrite He. cbn [mbind option_bind].
  set (ho := match hint_take (storage_hints s) pk with
    | Some (pref, hints) => (prefer pref o, hints) | None => (o, storage_hints s) end).
  assert (content (body ho.1) = content (body o) ∧ kids ho.1 = kids o ∧ small ho.1 ∧ obj_size ho.1 = obj_size o) as (Hc1 & Hk1 & Hsm1 & Hsz).
  { unfold ho. destruct (hint_take _ _) as [[pref hs]|]; [|done]. simpl.
    split_and!; [apply prefer_content|done|by apply prefer_small|]. destruct o. apply prefer_size. }
  destruct ho as [o1 hints]. simpl in Hc1, Hk1, Hsm1, Hsz.
  destruct (pack_total o1) as (slices & mode & Hpack & Hlen & Hmode & Hunpack); [apply Hsm1|by rewrite Hk1|].
  destruct (packed_data o1 slices mode Hsm1 Hpack Hlen) as (buf & w & c & data & n & rest & Hbuf & Hw & Hc & Hdata & Hn & Hn0 & Hmax & b & Hdec & Hb & Hfit).
  rewrite Hsz in Hbuf. rewrite Hbuf. cbn [mbind option_bind]. rewrite Hpack. cbn [mbind option_bind].
  rewrite Hw. cbn [mbind option_bind]. rewrite Hc. cbn [mbind option_bind]. rewrite Hdata. cbn [mbind option_bind].
  rewrite (proj2 (Z.ltb_lt _ _)) by lia. cbn [mbind option_bind].
  assert ((blen data + BLOCK_SIZE - 1) / BLOCK_SIZE = n) as -> by (unfold BLOCK_SIZE in *; Z.div_mod_to_equations; lia).
  destruct (os_allocate_ok (store s) (default default_storage_class (Pref.preferred_class (obj_preference o1))) n Hok Hn0)
    as (a & st1 & Ha & Hok1 & Hh1 & Hroom).
  simpl store. rewrite Ha. cbn [mbind option_bind]. destruct a as [off|err].
  2: { eexists _, _, o1. split_and!; try done. }
  destruct (Hroom off eq_refl) as (Hr & Hraw & Hfree).
  rewrite Hn, Z.mul_comm, Z.eqb_refl. simpl modified_info. rewrite Hinfo. cbn [mbind option_bind].
  destruct (os_write_ok st1 data off n Hok1 Hr Hn) as (wr & st2 & Hwr & Hok2 & Hh2 & Hnew).
  simpl store. rewrite Hwr. cbn [mbind option_bind].
  assert (∀ o' d', os_holds (store s) o' d' → os_holds st2 o' d') as Hkeep.
  { intros o' d' Hd. apply Hh2; [|by apply Hh1]. intros ->. by eapply Hfree, Hh1. }
  eexists _, _, o1. split; [done|]. split_and!; try done.
  - intros m' Hne. simpl. by rewrite lookup_delete_ne.
  - intros p Hp. destruct wr as [[]|]; [|done]. injection Hp as <-. simpl. split; [intros d Hd; by eapply Hfree, Hh1|].
    destruct (Hunpack info rest Hfit) as (o' & Ho' & Hco & Hko & Hwf' & Hsz'). exists data, o'. split_and!; [by apply Hnew| |by split].
    unfold reads. simpl. split; [done|]. split; [|split; [|split; [|split]]].
    + destruct mode; [apply csum_verify_build|apply csum_empty_verify].
    + unfold ptr_decode. simpl. rewrite Hdec. cbn [mbind option_bind]. rewrite Hb. cbn [mbind option_bind].
      by rewrite Ho'.
    + apply (same_unmodified _ (kids o1)). by apply (same_sym o1 o').
    + split; [done|]. rewrite Hsz'. apply Hsm1.
    + pose proof (os_generation_ok (store s) Hok). unfold ptr_ok. simpl. split_and!; try done; unfold BLOCK_SIZE in *; lia.
Qed.

(** ** The write of an object *)

Lemma write_local s busy pend m pk tag o tk owk rest :
  cache s !! KInWriteback m = Some (tag, o) → cache s !! KModified m = None → written_back s !! m = None →
  dens s (kids o) tk owk → Aux s (m :: busy) pend ((RMid m :: owk) ++ rest) →
  held s (((RMid m :: owk) ++ rest) ++ pend_own pend) →
  ∃ r s' o1, write s m pk = Some (r, s') ∧ next_modified_node_id s' = next_modified_node_id s ∧
    content (body o1) = content (body o) ∧ at_place s' m PWb o1 ∧ dens s' (kids o1) tk owk ∧ agrees s s' rest ∧
    Aux s' busy (match r with inl p => (m, p) :: pend | inr _ => pend end) ((RMid m :: owk) ++ rest).
Proof using Hcl Hcomp Hel Hml Hsl Hzl.
  intros He Hmod Hwr Hk Ha Hheld.
  destruct (a_busy _ _ _ _ Ha m) as [_ Hi]; [set_solver|].
  destruct (a_wb _ _ _ _ Ha m (tag, o) He) as [Hsm Hu].
  destruct (write_object_ok s m pk tag o He Hsm Hu Hi (a_store _ _ _ _ Ha))
    as (r & s' & o1 & Hwrite & Hc & Hw & Hn & Hok & Hco & Hki & Hsm1 & Hinf & Hkeep & Hnew).
  exists r, s', o1. do 3 (split; [done|]). eapply (written_local s s'); try done.
  destruct r as [p|e]; [right|by left]. destruct (Hnew p eq_refl) as (Hfree & d & o' & Hd & Hr & Hs).
  by exists p, d, o'.
Qed.

Lemma write_step_ok s busy pend rs ts m pk :
  World s (m :: busy) pend rs ts →
  ∃ r s', write s m pk = Some (r, s') ∧ next_modified_node_id s' = next_modified_node_id s ∧
    World s' busy (match r with inl p => (m, p) :: pend | inr _ => pend end) rs ts.
Proof using Hcl Hcomp Hel Hml Hsl Hzl.
  intros HW. pose proof HW as (own & Hds & Ha).
  destruct (a_busy _ _ _ _ Ha m) as [[[tag o] He] Hi]; [set_solver|].
  destruct (writeback_focus s _ pend rs ts m tag o HW He) as (r0 & tk & owk & rest & Hmid & Hk & Hmod & Hwr & Ha' & Hheld & Hw).
  destruct (write_local s busy pend m pk tag o tk owk rest He Hmod Hwr Hk Ha' Hheld) as (r & s' & o1 & Hwrite & Hn & Hco & Hat & Hk' & Hag & Ha'').
  exists r, s'. split_and!; [done..|]. by apply (Hw s' PWb o1 owk).
Qed.

End write_back.
