(* ===== verification/DmuMachine.v ===== *)
(** * The data management unit refines a forest

    Threads access objects, change them, move references between objects,
    evict, and write back; [step] is one such action on the shared state, in
    whatever order the actions come.  A client never sees any of it: it reads
    and changes a forest ([dmu_refines_forest]).

    An action that has to wait for the lock of an object that is being packed
    is not [enabled]. *)

From Stdlib Require Import ZArith Lia Permutation.
From stdpp Require Import base option list numbers gmap.
From S2P Require Import Prelude.
From S2P Require Import Bytes.
From S2P Require Import StoragePref.
From S2P Require Import Checksum.
From S2P Require Import ChildBuffer.
From S2P Require Import Internal.
From S2P Require Import Disk.
From S2P Require Import DmuAlloc.
From S2P Require Import Buffer.
From S2P Require Import Compression.
From S2P Require Import Vdev.
From S2P Require Import DmuObjects.
From S2P Require Import DmuDenote.
From S2P Require Import DmuProtocol.
From S2P Require Import DmuWriteBack.
Import DiskOffset(DiskOffset).

(** ** Choosing from a list *)

Definition pick {A} (pool : list A) (ix : list nat) : list A := omap (pool !!.) ix.

(** Every index once *)
Definition is_split (ki ri : list nat) (n : nat) : bool :=
  bool_decide (NoDup (ki ++ ri) ∧ length (ki ++ ri) = n ∧ Forall (λ i, i < n)%nat (ki ++ ri)).

Lemma is_split_perm ki ri n : is_split ki ri n = true → ki ++ ri ≡ₚ seq 0 n.
Proof.
  unfold is_split. rewrite bool_decide_eq_true. intros (Hnd & Hlen & Hall).
  apply submseteq_length_Permutation; [|by rewrite Hlen, length_seq].
  apply NoDup_submseteq; [done|]. intros i Hi. rewrite Forall_forall in Hall. apply Hall in Hi.
  apply elem_of_seq. lia.
Qed.

Lemma pick_app {A} (pool : list A) ix ix' : pick pool (ix ++ ix') = pick pool ix ++ pick pool ix'.
Proof. apply omap_app. Qed.

Lemma pick_all {A} (pool : list A) : pick pool (seq 0 (length pool)) = pool.
Proof.
  unfold pick. induction pool as [|x pool IH] using rev_ind; [done|].
  rewrite length_app, seq_app, omap_app. simpl. rewrite lookup_app_r by lia. rewrite Nat.sub_diag. simpl.
  f_equal. etrans; [|exact IH]. apply list_omap_ext, Forall_Forall2_diag, Forall_seq.
  intros k [_ Hk]. by apply lookup_app_l.
Qed.

Lemma pick_perm {A} (pool : list A) ki ri :
  ki ++ ri ≡ₚ seq 0 (length pool) → pick pool ki ++ pick pool ri ≡ₚ pool.
Proof.
  intros Hp. rewrite <- pick_app. transitivity (pick pool (seq 0 (length pool))); [|by rewrite pick_all].
  unfold pick. by rewrite Hp.
Qed.

Section forest.
Context `{Hck : !Checksum} `{Hec : !EmptyChecksum} `{Hm : !Memory} `{Hz : !Zstd}.
Context {P St : Type} `{Hobj : !Object P} `{Hst : !ObjectStore St}.
Context `{Hol : !ObjectLaws} `{Hsl : !ObjectStoreLaws}.

Abbreviation Dmu := (ObjDmu (P := P) (St := St)).

(** ** Lists of references *)

Lemma dens_owns (s : Dmu) rs ts own :
  dens s rs ts own ↔ ∃ owns, Forall3 (den s) rs ts owns ∧ own = concat owns.
Proof.
  split.
  - revert ts own. induction rs as [|r rs IH]; inversion 1 as [|? ? t ts' o1 o2 Hd Hds]; subst.
    + exists []. split; [constructor|done].
    + apply IH in Hds as (owns & Hf & ->). exists (o1 :: owns). split; [by constructor|done].
  - intros (owns & Hf & ->). induction Hf; simpl; by constructor.
Qed.

Lemma Forall3_pick {A B C} (R : A → B → C → Prop) l1 l2 l3 ix :
  Forall3 R l1 l2 l3 → Forall3 R (pick l1 ix) (pick l2 ix) (pick l3 ix).
Proof.
  intros Hf. unfold pick. induction ix as [|i ix IH]; [constructor|]. simpl.
  destruct (l1 !! i) as [x|] eqn:Hi.
  - destruct (Forall3_lookup_l _ _ _ _ _ _ Hf Hi) as (y & z & -> & -> & HR). by constructor.
  - apply lookup_ge_None in Hi. pose proof (Forall3_length_lm _ _ _ _ Hf). pose proof (Forall3_length_lr _ _ _ _ Hf).
    rewrite !(proj2 (lookup_ge_None _ _)) by lia. done.
Qed.

Lemma dens_pick (s : Dmu) rs ts own ki ri :
  dens s rs ts own → ki ++ ri ≡ₚ seq 0 (length rs) →
  ∃ own1 own2, dens s (pick rs ki) (pick ts ki) own1 ∧ dens s (pick rs ri) (pick ts ri) own2 ∧
    own ≡ₚ own1 ++ own2.
Proof.
  rewrite dens_owns. intros (owns & Hf & ->) Hp.
  exists (concat (pick owns ki)), (concat (pick owns ri)). rewrite !dens_owns.
  split_and!; [eexists; split; [by apply Forall3_pick|done]..|].
  rewrite <- concat_app, <- (pick_perm owns ki ri) at 1; [done|].
  by rewrite <- (Forall3_length_lr _ _ _ _ Hf).
Qed.

Lemma dens_at (s : Dmu) rs ts own i r :
  dens s rs ts own → rs !! i = Some r →
  ∃ t own1 rest, ts !! i = Some t ∧ den s r t own1 ∧ own ≡ₚ own1 ++ rest ∧
    dens s (delete i rs) (delete i ts) rest ∧
    ∀ s' r' t' own1', den s' r' t' own1' → agrees s s' rest →
      ∃ own', dens s' (<[i := r']> rs) (<[i := t']> ts) own' ∧ own' ≡ₚ own1' ++ rest.
Proof.
  revert i ts own. induction rs as [|r0 rs IH]; intros i ts own Hds Hi; [done|].
  inversion Hds as [|? ? t0 ts' o1 o2 Hd Hds']; subst. destruct i as [|i]; simpl in Hi.
  - injection Hi as ->. exists t0, o1, o2. split_and!; try done.
    intros s' r' t' own1' Hd' Hag. exists (own1' ++ o2). split; [|done]. constructor; [done|]. by eapply dens_frame.
  - destruct (IH i ts' o2 Hds' Hi) as (t & own1 & rest & Ht & Hdt & Hp & Hdel & Hw).
    exists t, own1, (o1 ++ rest). split_and!; try done; [by apply perm_in_r|by constructor|].
    intros s' r' t' own1' Hd' Hag. destruct (Hw s' r' t' own1' Hd') as (own' & Hds'' & Hp'); [eapply agrees_sub; [done|set_solver]|].
    exists (o1 ++ own'). split; [|by apply perm_in_r]. constructor; [|done].
    eapply den_frame; [done|]. eapply agrees_sub; [done|set_solver].
Qed.

(** ** Operations on one reference of the clients *)

Lemma world_root (s : Dmu) busy pend rs ts i r :
  World s busy pend rs ts → rs !! i = Some r →
  ∃ t own rest, ts !! i = Some t ∧ den s r t own ∧ Aux s busy pend (own ++ rest) ∧
    dens s (delete i rs) (delete i ts) rest ∧
    ∀ s' r' t' own' busy' pend', den s' r' t' own' → agrees s s' rest → Aux s' busy' pend' (own' ++ rest) →
      World s' busy' pend' (<[i := r']> rs) (<[i := t']> ts).
Proof.
  intros (own & Hds & Ha) Hi.
  destruct (dens_at s rs ts own i r Hds Hi) as (t & own1 & rest & Ht & Hd & Hp & Hdel & Hw).
  exists t, own1, rest. split_and!; try done; [by eapply Aux_perm|].
  intros s' r' t' own' busy' pend' Hd' Hag Ha'. destruct (Hw s' r' t' own' Hd' Hag) as (own'' & Hds' & Hp').
  exists own''. split; [done|]. by eapply Aux_perm.
Qed.

(** The object under [key] is what the root of the tree says. *)
Definition shows (s : Dmu) (key : ObjectKey) (t : tree) : Prop :=
  ∃ e c tk, cache s !! key = Some e ∧ t = Nd c tk ∧ content (body e.2) = c ∧ length (kids e.2) = length tk.

Lemma den_shows (s : Dmu) busy pend r t own F key :
  den s r t own → Aux s busy pend (own ++ F) → as_key r = Some key → is_Some (cache s !! key) → shows s key t.
Proof.
  intros Hd Ha Hk [e He]. destruct (cached_ref s busy pend r t own F key e Hd Ha Hk He) as (tk & owk & -> & _ & Hds & _).
  exists e, (content (body e.2)), tk. split_and!; try done. by eapply dens_length.
Qed.

Lemma get_root (s : Dmu) busy pend rs ts i r :
  World s busy pend rs ts → rs !! i = Some r → next_modified_node_id s + 1 < U64_SIZE →
  ∃ key s' r' t, get s r = Some (inl key, s', r') ∧ World s' busy pend (<[i := r']> rs) ts ∧
    next_modified_node_id s' ≤ next_modified_node_id s + 1 ∧ ts !! i = Some t ∧ shows s' key t.
Proof.
  intros HW Hi Hn. destruct (world_root s busy pend rs ts i r HW Hi) as (t & own & rest & Ht & Hd & Ha & _ & Hw).
  destruct (get_den s busy pend r t own rest Hd Ha Hn) as (key & s' & r' & own' & Hg & Hd' & Hag & Ha' & Hk & Hc & Hn' & _).
  exists key, s', r', t. split_and!; try done; [|by eapply den_shows].
  rewrite <- (list_insert_id ts i t Ht). by eapply Hw.
Qed.

Lemma get_mut_root (s : Dmu) busy pend rs ts i r info :
  World s busy pend rs ts → rs !! i = Some r → (∀ m, ref_mid r = Some m → m ∉ busy) →
  next_modified_node_id s + 3 < U64_SIZE → info_ok info →
  ∃ s' m pk t, get_mut s r info = Some (inl (KModified m), s', RModified m pk) ∧
    World s' busy pend (<[i := RModified m pk]> rs) ts ∧
    next_modified_node_id s' ≤ next_modified_node_id s + 3 ∧ ts !! i = Some t ∧ shows s' (KModified m) t.
Proof.
  intros HW Hi Hb Hn Hinfo. destruct (world_root s busy pend rs ts i r HW Hi) as (t & own & rest & Ht & Hd & Ha & _ & Hw).
  destruct (get_mut_den s busy pend r t own rest info Hd Ha Hb Hn Hinfo) as (s' & m & pk & own' & Hg & Hd' & Hag & Ha' & Hc & Hn').
  exists s', m, pk, t. split_and!; try done; [|by eapply den_shows].
  rewrite <- (list_insert_id ts i t Ht). by eapply Hw.
Qed.

(** A client that has a reference's object for itself changes it: the content
    and which references it has. *)
Lemma edit_root (s : Dmu) busy pend rs ts i m pk e b ki ri :
  World s busy pend rs ts → rs !! i = Some (RModified m pk) → cache s !! KModified m = Some e →
  is_split ki ri (length (kids e.2 ++ delete i rs)) = true →
  let o := mkObj b (pick (kids e.2 ++ delete i rs) ki) in
  small o →
  ∃ c tk, ts !! i = Some (Nd c tk) ∧
    World (put s (KModified m) o) busy pend (RModified m pk :: pick (kids e.2 ++ delete i rs) ri)
      (Nd (content b) (pick (tk ++ delete i ts) ki) :: pick (tk ++ delete i ts) ri).
Proof.
  intros HW Hi He Hsp%is_split_perm o Hsm.
  destruct (world_root s busy pend rs ts i _ HW Hi) as (t & own & rest & Ht & Hd & Ha & Hdel & _).
  destruct (cached_ref s busy pend _ t own rest (KModified m) e Hd Ha eq_refl He) as (tk & owk & -> & -> & Hk & _).
  exists (content (body e.2)), tk. split; [done|].
  assert (dens s (kids e.2 ++ delete i rs) (tk ++ delete i ts) (owk ++ rest)) as Hpool by (apply dens_app; eauto 10).
  destruct (dens_pick s _ _ _ ki ri Hpool Hsp) as (own1 & own2 & Hd1 & Hd2 & Hp).
  set (s' := set_cache s (<[KModified m := (e.1, o)]> (cache s))).
  assert (put s (KModified m) o = s') as ->.
  { unfold put, s'. f_equal. apply map_eq. intros k. rewrite lookup_alter. case_decide as Hk'.
    - subst k. by rewrite He, lookup_insert_eq.
    - by rewrite lookup_insert_ne. }
  assert (RMid m ∉ own1 ++ own2) as Hno.
  { pose proof (a_nodup _ _ _ _ Ha) as Hnd. simpl in Hnd. apply NoDup_cons in Hnd as [Hnd _].
    rewrite <- Hp. set_solver. }
  exists ((RMid m :: own1) ++ own2). split.
  - constructor.
    + apply (put_den s m pk (Nd (content (body e.2)) tk) (RMid m :: owk) e (e.1, o)); try done. set_solver.
    + eapply dens_frame; [done|]. intros x Hx. eapply (agree_put s s' m (e.1, o)); try done. set_solver.
  - apply (Aux_put s busy pend _ m e (e.1, o)); [|done|done]. eapply Aux_perm; [|exact Ha]. simpl. by constructor.
Qed.

(** *** [insert] *)

Lemma fresh_mid (s : Dmu) busy pend own m :
  Aux s busy pend own → mid_id m = next_modified_node_id s →
  RMid m ∉ own ∧ m ∉ busy ∧ m ∉ pend.*1.
Proof.
  intros Ha Hid. split_and!; intros Hx; pose proof (a_fresh _ _ _ _ Ha m) as Hf; rewrite Hid in Hf; specialize (Hf ltac:(auto)); lia.
Qed.

Lemma Aux_insert (s : Dmu) busy pend own m e info n :
  Aux s busy pend own → mid_id m = next_modified_node_id s → mid_id m < n → small e.2 → info_ok info →
  Aux (set_cache (set_modified_info (set_next s n) (<[m := info]> (modified_info s)))
         (<[KModified m := e]> (cache s))) busy pend (RMid m :: own).
Proof.
  intros Ha Hid Hn Hsm Hinfo. destruct (fresh_mid s busy pend own m Ha Hid) as (Hno & Hnb & Hnp).
  assert (∀ m' e', <[KModified m := e]> (cache s) !! KModified m' = Some e' →
    m' = m ∧ e' = e ∨ cache s !! KModified m' = Some e') as Hlook.
  { intros m' e' [[[= ->] ->]|[_ ?]]%lookup_insert_Some; auto. }
  destruct Ha. split; simpl; try done.
  - apply NoDup_cons. split; [|done]. rewrite elem_of_app. intros [?|Hx]; [done|].
    by apply list_elem_of_fmap in Hx as ([? ?] & ? & _).
  - intros m' e' [[-> _]|Hx]%Hlook; [set_solver|]. apply a_mods in Hx. set_solver.
  - intros m' e'. rewrite lookup_insert_ne by done. intros Hx. apply a_wbs in Hx. set_solver.
  - intros m' p Hx. apply a_written in Hx. set_solver.
  - intros o g e'. rewrite lookup_insert_ne by done. intros Hx. apply a_clean in Hx. set_solver.
  - intros m' Hx. destruct (decide (m' = m)) as [->|]; [lia|].
    assert (mid_id m' < next_modified_node_id s) by (apply a_fresh; set_solver). lia.
  - intros m' e' Hx. destruct (decide (m' = m)) as [->|Hne]; [exists info; split; [simpl; apply lookup_insert_eq|done]|].
    apply Hlook in Hx as [[? _]|Hx]; [done|]. destruct (a_info m' e' Hx) as (i & Hi & ?). exists i. simpl. by rewrite lookup_insert_ne.
  - intros m' e' [[_ ->]|Hx]%Hlook; [done|]. by eapply a_small.
  - intros m' e'. rewrite lookup_insert_ne by done. apply a_wb.
  - intros m' Hx. assert (m ≠ m') by congruence. rewrite lookup_insert_ne by done.
    destruct (a_busy m' Hx) as [? (i & Hi & ?)]. split; [done|]. exists i. simpl. by rewrite lookup_insert_ne.
  - intros m' p Hp. rewrite lookup_insert_ne by done. by apply a_pend.
  - intros m' e' [[-> _]|Hx]%Hlook; [done|]. by eapply a_gone.
  - lia.
Qed.

Lemma insert_root (s : Dmu) busy pend rs ts b ki ri info pk :
  World s busy pend rs ts → is_split ki ri (length rs) = true → next_modified_node_id s + 1 < U64_SIZE → info_ok info →
  let o := mkObj b (pick rs ki) in
  small o →
  ∃ s' r, insert s o info pk = (s', r) ∧ next_modified_node_id s' = next_modified_node_id s + 1 ∧
    World s' busy pend (r :: pick rs ri) (Nd (content b) (pick ts ki) :: pick ts ri).
Proof.
  intros (own & Hds & Ha) Hsp%is_split_perm Hn Hinfo o Hsm. pose proof (a_next _ _ _ _ Ha) as H0.
  destruct (dens_pick s _ _ _ ki ri Hds Hsp) as (own1 & own2 & Hd1 & Hd2 & Hp).
  set (m := mkMid (next_modified_node_id s) (obj_preference o)).
  destruct (fresh_mid s busy pend own m Ha eq_refl) as (Hno & Hnb & _).
  assert (cache s !! KInWriteback m = None) as Hwb.
  { destruct (cache s !! KInWriteback m) eqn:Hx; [|done]. by apply (a_wbs _ _ _ _ Ha) in Hx. }
  assert (written_back s !! m = None) as Hwr.
  { destruct (written_back s !! m) eqn:Hx; [|done]. by apply (a_written _ _ _ _ Ha) in Hx. }
  assert (wrap64 (next_modified_node_id s + 1) = next_modified_node_id s + 1) as Hwrap by (unfold wrap64, U64_SIZE in *; rewrite Z.mod_small; [done|lia]).
  unfold insert. fold m. rewrite Hwrap. eexists _, _. split_and!; [done|done|].
  match goal with |- World ?s' _ _ _ _ => set (s1 := s') end.
  assert (∀ x, x ∈ own → agree s s1 x) as Hag.
  { intros x Hx. eapply (agree_put s s1 m (pk, o)); try done. by intros ->. }
  exists ((RMid m :: own1) ++ own2). split.
  - constructor.
    + apply (modified_den s1 m pk pk o (pick ts ki) own1); try done; simpl.
      * apply lookup_insert_eq.
      * by rewrite lookup_insert_ne.
      * eapply dens_frame; [done|]. intros x Hx. apply Hag. rewrite Hp. set_solver.
    + eapply dens_frame; [done|]. intros x Hx. apply Hag. rewrite Hp. set_solver.
  - eapply Aux_perm; [|eapply (Aux_insert s busy pend own m (pk, o) info (next_modified_node_id s + 1) Ha); [done|simpl; lia|done|done]].
    simpl. by constructor.
Qed.

(** *** [get_and_remove] *)

Lemma Aux_delete (s : Dmu) busy pend own F key e :
  Aux s busy pend ((key_res key :: own) ++ F) → cache s !! key = Some e → only_entry s key →
  (∀ m, key = KInWriteback m → m ∉ busy) →
  Aux (set_cache s (delete key (cache s))) busy pend (own ++ F).
Proof.
  intros Ha He [Honly Hwr] Hb. pose proof (a_nodup _ _ _ _ Ha) as Hnd. simpl in Hnd. apply NoDup_cons in Hnd as [_ Hnd].
  assert (∀ k e', delete key (cache s) !! k = Some e' → cache s !! k = Some e' ∧ key_res k ≠ key_res key) as Hlook.
  { intros k e' [Hne Hk]%lookup_delete_Some. split; [done|]. intros Hr. by apply Hne, eq_sym, (Honly k e'). }
  assert (∀ x, x ≠ key_res key → x ∈ (key_res key :: own) ++ F → x ∈ own ++ F) as Hin by set_solver.
  destruct Ha. split; simpl; try done.
  - intros m e' [Hx Hne]%Hlook. apply Hin; [done|]. by eapply a_mods.
  - intros m e' [Hx Hne]%Hlook. apply Hin; [done|]. by eapply a_wbs.
  - intros m p Hx. apply Hin; [|by eapply a_written]. intros Heq. destruct key; simplify_eq/=.
  - intros o g e' [Hx Hne]%Hlook. apply Hin; [done|]. by eapply a_clean.
  - intros m Hx. apply a_fresh. set_solver.
  - intros m e' [Hx _]%Hlook. by eapply a_info.
  - intros m e' [Hx _]%Hlook. by eapply a_small.
  - intros m e' [Hx _]%Hlook. by eapply a_wb.
  - intros m Hx. rewrite lookup_delete_ne; [by apply a_busy|]. intros ->. by apply (Hb m).
  - intros m p Hp. destruct (a_pend m p Hp) as (d & o & Hd & Hr & Hs). exists d, o. split_and!; try done.
    intros e' [Hx _]%Hlook. by apply Hs.
  - intros m e' [Hx _]%Hlook. by eapply a_gone.
Qed.

Lemma take_root (s : Dmu) busy pend rs ts i r :
  World s busy pend rs ts → rs !! i = Some r → (∀ m, ref_mid r = Some m → m ∉ busy) →
  next_modified_node_id s + 1 < U64_SIZE →
  ∃ o s' c tk, get_and_remove s r false = Some (inl o, s') ∧ ts !! i = Some (Nd c tk) ∧
    content (body o) = c ∧ World s' busy pend (kids o ++ delete i rs) (tk ++ delete i ts) ∧
    next_modified_node_id s' ≤ next_modified_node_id s + 1.
Proof.
  intros HW Hi Hb Hn. destruct (world_root s busy pend rs ts i r HW Hi) as (t & own & rest & Ht & Hd & Ha & Hdel & _).
  destruct (get_den s busy pend r t own rest Hd Ha Hn) as (key & s1 & r1 & own1 & Hg & Hd1 & Hag & Ha1 & Hk & [e He] & Hn1 & _ & Hwbk).
  destruct (cached_ref s1 busy pend r1 t own1 rest key e Hd1 Ha1 Hk He) as (tk & owk & -> & -> & Hkids & Honly & _).
  unfold get_and_remove. rewrite Hg. cbn [mbind option_bind]. rewrite He. cbn [mbind option_bind]. destruct e as [tag o]. simpl negb.
  cbn [mbind option_bind]. simpl in Hkids. set (s2 := set_cache s1 (delete key (cache s1))).
  assert (Aux s2 busy pend (owk ++ rest)) as Ha2.
  { eapply Aux_delete; [exact Ha1|done|done|]. intros m ->. destruct r1; simplify_eq/=. by eapply Hb, Hwbk. }
  pose proof (a_nodup _ _ _ _ Ha1) as Hnd. simpl in Hnd. apply NoDup_cons in Hnd as [Hno _].
  assert (∀ x, x ∈ owk ++ rest → agree s1 s2 x) as Hag2.
  { intros x Hx. assert (x ≠ key_res key) as Hne by (intros ->; set_solver).
    destruct x as [m|off]; simpl.
    - rewrite !lookup_delete_ne by (by intros ->). done.
    - split; [done|]. intros g e' [_ ?]%lookup_delete_Some. done. }
  assert (∀ s3, agrees s2 s3 (owk ++ rest) → Aux s3 busy pend (owk ++ rest) →
    World s3 busy pend (kids o ++ delete i rs) (tk ++ delete i ts)) as HW3.
  { intros s3 Hag3 Ha3. assert (agrees s1 s3 (owk ++ rest)) as Hag13 by (by eapply agrees_trans).
    exists (owk ++ rest). split; [|done]. apply dens_app. exists tk, (delete i ts), owk, rest. split_and!; try done.
    - eapply dens_frame; [done|]. eapply agrees_sub; [exact Hag13|set_solver].
    - eapply dens_frame; [done|]. eapply agrees_trans; [done|]. eapply agrees_sub; [exact Hag13|set_solver]. }
  assert (World s2 busy pend (kids o ++ delete i rs) (tk ++ delete i ts)) as HW2 by (apply HW3; [apply agrees_refl|done]).
  destruct r1 as [p|p pk|m pk|m pk]; simplify_eq/=; [|by eexists o, _, _, tk..].
  destruct (os_copy_on_write_ok (store s2) (ptr_offset p) (ptr_size p) (ptr_generation p) (ptr_info p)) as (st' & Hcow & Hok & Hkeep);
    [apply (a_store _ _ _ _ Ha2)|].
  unfold dmu_copy_on_write. rewrite Hcow. cbn [mbind option_bind].
  eexists o, _, _, tk. split_and!; try done. apply HW3.
  - intros [m|off] Hx; simpl; [done|]. split; [|done]. intros d. apply Hkeep. intros ->. set_solver.
  - apply (Aux_store s2); [done|done|]. intros m q d Hq. apply Hkeep. intros Heq. apply Hno.
    rewrite <- Heq, !elem_of_app. right. by eapply pend_in.
Qed.

(** ** Operations on a reference in an object *)

(** The reference at the end of a path through objects in the cache, and the
    place where it is *)
Fixpoint descend (s : Dmu) (place : option (ObjectKey * nat)) (r : ObjRef) (path : list nat) :
    option (option (ObjectKey * nat) * ObjRef) :=
  match path with
  | [] => Some (place, r)
  | j :: path =>
      key ← as_key r;
      '(_, o) ← cache s !! key;
      r' ← kids o !! j;
      descend s (Some (key, j)) r' path
  end.

Fixpoint subtree (t : tree) (path : list nat) : option tree :=
  match path, t with
  | [], _ => Some t
  | j :: path, Nd _ tk => t' ← tk !! j; subtree t' path
  end.

Definition set_child (s : Dmu) (key : ObjectKey) (j : nat) (r : ObjRef) : Dmu :=
  set_cache s (alter (λ e, (e.1, mkObj (body e.2) (<[j := r]> (kids e.2)))) key (cache s)).

Lemma descend_den (s : Dmu) busy pend place r t own F path place' r' :
  den s r t own → Aux s busy pend (own ++ F) → descend s place r path = Some (place', r') →
  ∃ t' own' F', subtree t path = Some t' ∧ den s r' t' own' ∧ Aux s busy pend (own' ++ F').
Proof.
  revert place r t own F. induction path as [|j path IH]; intros place r t own F Hd Ha; simpl.
  - intros [= <- <-]. by exists t, own, F.
  - destruct (as_key r) as [key|] eqn:Hk; [|done]. cbn [mbind option_bind].
    destruct (cache s !! key) as [[tag o]|] eqn:He; [|done]. cbn [mbind option_bind].
    destruct (kids o !! j) as [r1|] eqn:Hj; [|done]. cbn [mbind option_bind]. intros Hdesc.
    destruct (cached_ref s busy pend r t own F key (tag, o) Hd Ha Hk He) as (tk & owk & -> & -> & Hds & _).
    destruct (dens_at s _ _ _ j r1 Hds Hj) as (t1 & own1 & rest & Ht1 & Hd1 & Hp & _).
    rewrite Ht1. cbn [mbind option_bind]. eapply (IH _ _ _ _ (key_res key :: rest ++ F)); [done| |done].
    eapply Aux_perm; [|exact Ha]. simpl. rewrite <- Permutation_middle. constructor. by rewrite Hp, app_assoc.
Qed.

Lemma descend_place (s : Dmu) place r path key j r' :
  descend s place r path = Some (Some (key, j), r') → path ≠ [] →
  ∃ e, cache s !! key = Some e ∧ kids e.2 !! j = Some r'.
Proof.
  revert place r. induction path as [|i path IH]; intros place r; [done|]. simpl.
  destruct (as_key r) as [k|]; [|done]. cbn [mbind option_bind].
  destruct (cache s !! k) as [[tag o]|] eqn:He; [|done]. cbn [mbind option_bind].
  destruct (kids o !! i) as [r1|] eqn:Hi; [|done]. cbn [mbind option_bind]. intros Hd _.
  destruct path as [|i' path]; [|by eapply IH]. simpl in Hd. simplify_eq. by exists (tag, o).
Qed.

Lemma descend_inside (s : Dmu) place r j path r' : descend s place r (j :: path) ≠ Some (None, r').
Proof.
  revert place r j. induction path as [|j' path IH]; intros place r j; cbn [descend];
    (destruct (as_key r) as [k|]; [|done]); cbn [mbind option_bind];
    (destruct (cache s !! k) as [[tag ob]|]; [|done]); cbn [mbind option_bind];
    (destruct (kids ob !! j) as [r1|]; [|done]); cbn [mbind option_bind]; [done|intros Hd; by apply IH in Hd].
Qed.

(** An object that is on disk or on its way there *)
Lemma clean_focus (s : Dmu) busy pend rs ts key e :
  World s busy pend rs ts → cache s !! key = Some e → (∀ m, key ≠ KModified m) →
  Forall is_unmodified (kids e.2) ∧ ∃ ownr tk owk rest,
    dens s (kids e.2) tk owk ∧ Aux s busy pend ((ownr ++ owk) ++ rest) ∧ key_res key ∈ ownr ∧
    ∀ s' owk', dens s' (kids e.2) tk owk' → agrees s s' (ownr ++ rest) →
      Aux s' busy pend ((ownr ++ owk') ++ rest) → World s' busy pend rs ts.
Proof.
  intros (own & Hds & Ha) He Hne.
  assert (key_res key ∈ own) as Hin.
  { destruct key as [o g|m|m]; [by eapply (a_clean _ _ _ _ Ha)|by destruct (Hne m)|by eapply (a_wbs _ _ _ _ Ha)]. }
  destruct (focus s (key_res key) rs ts own Hds Hin) as (r0 & o0 & tk & ownr & owk & rest & Hres & Hx & Hk & Hp & Hw).
  assert (same e.2 o0) as Hsame.
  { assert (∀ m w, at_place s m w o0 → key_res key ∈ RMid m :: place_own w → same e.2 o0) as Hplace.
    { intros m w Hat Hx'. destruct key as [off g|m'|m']; [|by destruct (Hne m')|].
      - destruct w as [| |p]; [set_solver..|]. destruct Hat as (_ & _ & _ & _ & Hd).
        assert (off = ptr_offset p) as -> by set_solver. by apply (Hd g).
      - destruct (a_wb _ _ _ _ Ha m' e He) as [_ Hu]. assert (m' = m) as -> by (destruct w; set_solver).
        destruct w as [| |p]; [destruct Hat as (? & ? & ? & _); congruence| |destruct Hat as (? & ? & _); congruence].
        destruct Hat as (tag & _ & He' & _). rewrite He in He'. simplify_eq. by apply same_refl. }
    destruct r0 as [p|p pk|m pk|m pk]; simpl in Hres; [done| | |].
    - destruct Hres as [[_ Hd] ->]. destruct key as [off g|m'|m']; [|by destruct (Hne m')|set_solver].
      assert (off = ptr_offset p) as -> by set_solver. by apply (Hd g).
    - destruct Hres as (w & Hat & ->). by eapply Hplace.
    - destruct Hres as (w & Hat & _ & ->). by eapply Hplace. }
  split; [destruct Hsame as [_ Hs]; by eapply same_unmodified|].
  exists ownr, tk, owk, rest. split_and!.
  - eapply same_kids; [by apply same_sym|done].
  - by eapply Aux_perm.
  - done.
  - intros s' owk' Hk' Hag Ha'. destruct (Hw s' (ownr ++ owk')) as (own' & Hds' & Hp').
    + constructor; [|by eapply same_kids]. eapply resolve_frame; [|done]. eapply agrees_sub; [done|set_solver].
    + eapply agrees_sub; [done|set_solver].
    + exists own'. split; [done|]. by eapply Aux_perm.
Qed.

(** A reference in a modified object, and how to change it *)
Lemma kid_focus (s : Dmu) busy pend rs ts m tag o j r :
  World s busy pend rs ts → cache s !! KModified m = Some (tag, o) → kids o !! j = Some r →
  ∃ t own F, den s r t own ∧ Aux s busy pend (own ++ F) ∧
    ∀ s1 r1 own1, den s1 r1 t own1 → agrees s s1 F → Aux s1 busy pend (own1 ++ F) →
      World (set_child s1 (KModified m) j r1) busy pend rs ts.
Proof.
  intros HW He Hj.
  destruct (modified_focus s busy pend rs ts m tag o HW He) as (pk & tk & owk & rest & Hk & Hwb & Hwr & Ha & Hw).
  destruct (dens_at s _ _ _ j r Hk Hj) as (t & own & rest1 & Ht & Hd & Hp & _ & Hput).
  assert ((RMid m :: owk) ++ rest ≡ₚ own ++ RMid m :: rest1 ++ rest) as Hperm.
  { simpl. rewrite <- Permutation_middle. constructor. by rewrite Hp, app_assoc. }
  exists t, own, (RMid m :: rest1 ++ rest). split_and!; [done|by eapply Aux_perm|].
  intros s1 r1 own1 Hd1 Hag Ha1.
  destruct (Hput s1 r1 t own1 Hd1) as (owk' & Hk' & Hp'); [eapply agrees_sub; [done|set_solver]|].
  rewrite (list_insert_id tk j t Ht) in Hk'. destruct (Hag (RMid m)) as (Hm1 & _); [set_solver|].
  assert (set_child s1 (KModified m) j r1 =
    set_cache s1 (<[KModified m := (tag, mkObj (body o) (<[j := r1]> (kids o)))]> (cache s1))) as ->.
  { unfold set_child. f_equal. apply map_eq. intros k. rewrite lookup_alter. case_decide as Hk0.
    - subst k. by rewrite Hm1, He, lookup_insert_eq.
    - by rewrite lookup_insert_ne. }
  eapply (slot_update s s1 busy pend rs ts m tag o tk owk rest pk); try done.
  - by apply (a_small _ _ _ _ Ha m (tag, o)).
  - eapply agrees_sub; [done|set_solver].
  - eapply Aux_perm; [|exact Ha1]. rewrite Hp', <- !Permutation_middle. constructor. by rewrite app_assoc.
Qed.

Lemma set_child_same (s : Dmu) key j r :
  (∀ e, cache s !! key = Some e → (e.1, mkObj (body e.2) (<[j := r]> (kids e.2))) = e) → set_child s key j r = s.
Proof.
  intros Hs. unfold set_child. rewrite alter_id by done. by destruct s.
Qed.

Lemma get_child (s : Dmu) busy pend rs ts key e j r :
  World s busy pend rs ts → cache s !! key = Some e → kids e.2 !! j = Some r →
  next_modified_node_id s + 1 < U64_SIZE →
  (∀ pk, (∀ m, key ≠ KModified m) → ref_index r = Some pk → hint_take (storage_hints s) pk = None) →
  ∃ k s' r', get s r = Some (inl k, s', r') ∧ World (set_child s' key j r') busy pend rs ts ∧
    next_modified_node_id s' ≤ next_modified_node_id s + 1.
Proof.
  intros HW He Hj Hn Hhint. assert ((∃ m, key = KModified m) ∨ ∀ m, key ≠ KModified m) as [[m ->]|Hne'] by (destruct key; eauto).
  - destruct e as [tag o]. destruct (kid_focus s busy pend rs ts m tag o j r HW He Hj) as (t & own & F & Hd & Ha & Hw).
    destruct (get_den s busy pend r t own F Hd Ha Hn) as (k & s' & r' & own' & Hg & Hd' & Hag & Ha' & _ & _ & Hn' & _).
    exists k, s', r'. split_and!; [done|by eapply Hw|done].
  - destruct (clean_focus s busy pend rs ts key e HW He Hne') as (Hu & ownr & tk & owk & rest & Hk & Ha & Hin & Hw).
    destruct (dens_at s _ _ _ j r Hk Hj) as (t & own & rest1 & Ht & Hd & Hp & _ & Hput).
    assert (is_unmodified r) as Hr by (by eapply (Forall_lookup_1 _ _ j)).
    destruct r as [|p pk| |]; try done. specialize (Hhint pk Hne' eq_refl).
    assert ((ownr ++ owk) ++ rest ≡ₚ own ++ ownr ++ rest1 ++ rest) as Hperm.
    { rewrite Hp, (app_assoc ownr), (Permutation_app_comm ownr own), <- !app_assoc. done. }
    destruct (get_den s busy pend _ t own (ownr ++ rest1 ++ rest) Hd) as (k & s' & r' & own' & Hg & Hd' & Hag & Ha' & _ & _ & Hn' & Hsame & _);
      [by eapply Aux_perm|done|].
    rewrite (Hsame p pk eq_refl Hhint) in *. exists k, s', (RUnmodified p pk). split; [done|]. split; [|done].
    destruct (Hput s' (RUnmodified p pk) t own' Hd') as (owk' & Hk' & Hp'); [eapply agrees_sub; [done|set_solver]|].
    rewrite list_insert_id, list_insert_id in Hk' by done.
    assert (agrees s s' (ownr ++ rest)) as Hag' by (eapply agrees_sub; [done|set_solver]).
    assert (Aux s' busy pend ((ownr ++ owk') ++ rest)) as Ha''.
    { eapply Aux_perm; [|exact Ha']. rewrite Hp', <- !app_assoc, (app_assoc own' ownr), (Permutation_app_comm own' ownr), <- app_assoc. done. }
    assert (set_child s' key j (RUnmodified p pk) = s') as ->; [|by eapply Hw].
    apply set_child_same. intros e' He'. rewrite list_insert_id; [by destruct e' as [? []]|].
    assert (cache s !! key = Some e') as Hsame'; [|congruence].
    specialize (Hag' (key_res key) ltac:(set_solver)). destruct key as [off g|m|m]; [by apply Hag'|by destruct (Hne' m)|].
    destruct Hag' as (_ & Hm2 & _). by rewrite <- Hm2.
Qed.

Lemma get_mut_child (s : Dmu) busy pend rs ts m e j r info :
  World s busy pend rs ts → cache s !! KModified m = Some e → kids e.2 !! j = Some r →
  (∀ m', ref_mid r = Some m' → m' ∉ busy) → next_modified_node_id s + 3 < U64_SIZE → info_ok info →
  ∃ s' m' pk, get_mut s r info = Some (inl (KModified m'), s', RModified m' pk) ∧
    World (set_child s' (KModified m) j (RModified m' pk)) busy pend rs ts ∧
    next_modified_node_id s' ≤ next_modified_node_id s + 3.
Proof.
  destruct e as [tag o]. intros HW He Hj Hb Hn Hinfo.
  destruct (kid_focus s busy pend rs ts m tag o j r HW He Hj) as (t & own & F & Hd & Ha & Hw).
  destruct (get_mut_den s busy pend r t own F info Hd Ha Hb Hn Hinfo) as (s' & m' & pk & own' & Hg & Hd' & Hag & Ha' & _ & Hn').
  exists s', m', pk. split_and!; [done|by eapply Hw|done].
Qed.

(** *** A reference whose object is no more in the cache *)
Lemma fix_root (s : Dmu) busy pend rs ts i r m :
  World s busy pend rs ts → rs !! i = Some r → ref_mid r = Some m →
  cache s !! KModified m = None → cache s !! KInWriteback m = None →
  ∃ s' r', fix_or s r = Some (s', r') ∧ World s' busy pend (<[i := r']> rs) ts ∧
    next_modified_node_id s' = next_modified_node_id s.
Proof.
  intros HW Hi Hr Hm1 Hm2. destruct (world_root s busy pend rs ts i r HW Hi) as (t & own & rest & Ht & Hd & Ha & _ & Hw).
  assert (∀ s' r' own', den s' r' t own' → agrees s s' rest → Aux s' busy pend (own' ++ rest) →
    World s' busy pend (<[i := r']> rs) ts) as Hw'.
  { intros s' r' own' Hd' Hag Ha'. rewrite <- (list_insert_id ts i t Ht). by eapply Hw. }
  destruct r as [| |m0 pk|m0 pk]; simplify_eq/=.
  - eexists s, _. split_and!; [done| |done]. eapply Hw'; [by apply fix_modified|apply agrees_refl|done].
  - destruct (fix_in_writeback s busy pend m pk t own rest Hd Ha Hm2) as (p & own' & Hf & -> & Hd' & Hag & Ha').
    simpl in Hf. rewrite Hf. eexists _, _. split_and!; [done|by eapply Hw'|done].
Qed.

Lemma ref_kinds (s : Dmu) r t own : den s r t own →
  (∃ p pk, r = RUnmodified p pk) ∨ ∃ m pk, ref_mid r = Some m ∧ ref_index r = Some pk.
Proof. inversion 1 as [? ? ? ? ? Hres]; subst. destruct r; simpl in *; [done|eauto..]. Qed.

End forest.

(** ** The machine *)

(** A write-back that goes on: the object, the key it is written with, and
    whether it leaves the cache. *)
Record Job := mkJob { job_mid : ModifiedObjectId; job_pk : PivotKey; job_evict : bool }.

Section machine.
Context `{Hck : !Checksum} `{Hec : !EmptyChecksum} `{Hm : !Memory} `{Hz : !Zstd}.
Context {P St : Type} `{Hobj : !Object P} `{Hst : !ObjectStore St}.
Context (default_compression : CompressionConfiguration) (default_storage_class : Z).

Abbreviation Dmu := (ObjDmu (P := P) (St := St)).

(** [packing]: between [prepare_write_back] or [evict_begin] and the queued
    write; [writing]: between that and the end of [handle_write_back].
    [refs] are the references of the clients. *)
Record Machine := mkMachine {
  dmu : Dmu;
  packing : list Job;
  writing : list (Job * ObjectPointer);
  refs : list ObjRef;
}.

(** [Get], [GetMut]: of the client's reference [i], or of the one at a path
    in its object.  [Edit]: the holder of the object of reference [i] gives it
    the content [b] and exchanges references with it.  [Insert] makes an
    object with some of the references, [Take] is [get_and_remove].
    [WriteBack], [WriteChild]: a turn of the loops of [write_back]. *)
Inductive Action :=
  | Get (i : nat) (path : list nat)
  | GetMut (i : nat) (path : list nat) (info : DatasetId)
  | Edit (i : nat) (b : P) (ki ri : list nat)
  | Insert (b : P) (ki ri : list nat) (info : DatasetId) (pk : PivotKey)
  | Take (i : nat)
  | DropCache (pinned : ObjectKey → bool)
  | Evict (offered : list ObjectKey)
  | WriteBack (i : nat)
  | WriteChild (m : ModifiedObjectId) (pk : PivotKey)
  | Write (n : nat)
  | Done (n : nat).

Inductive Seen := Nothing | Found (o : Obj P) | Failed.

Definition locate (M : Machine) (i : nat) (path : list nat) : option (option (ObjectKey * nat) * ObjRef) :=
  r ← refs M !! i; descend (dmu M) None r path.

(** The reference that was located is now [r]. *)
Definition relocate (M : Machine) (s : Dmu) (i : nat) (place : option (ObjectKey * nat)) (r : ObjRef) : Machine :=
  match place with
  | None => mkMachine s (packing M) (writing M) (<[i := r]> (refs M))
  | Some (key, j) => mkMachine (set_child s key j r) (packing M) (writing M) (refs M)
  end.

Definition seen (s : Dmu) (g : ObjectKey + ObjError) : option Seen :=
  match g with
  | inl key => '(_, o) ← cache s !! key; Some (Found o)
  | inr _ => Some Failed
  end.

Definition with_dmu (M : Machine) (s : Dmu) : Machine := mkMachine s (packing M) (writing M) (refs M).

Definition prepared (M : Machine) (s : Dmu) (p : Prepared) (m : ModifiedObjectId) (pk : PivotKey) : Machine :=
  match p with
  | Ready => mkMachine s (mkJob m pk false :: packing M) (writing M) (refs M)
  | _ => with_dmu M s
  end.

Definition step (M : Machine) (a : Action) : option (Seen * Machine) :=
  match a with
  | Get i path =>
      '(place, r) ← locate M i path;
      '(g, s, r) ← get (dmu M) r;
      x ← seen s g;
      Some (x, relocate M s i place r)
  | GetMut i path info =>
      '(place, r) ← locate M i path;
      '(g, s, r) ← get_mut (dmu M) r info;
      x ← seen s g;
      Some (x, relocate M s i place r)
  | Edit i b ki ri =>
      r ← refs M !! i;
      key ← as_key r;
      '(_, o) ← cache (dmu M) !! key;
      let pool := kids o ++ delete i (refs M) in
      Some (Nothing, mkMachine (put (dmu M) key (mkObj b (pick pool ki))) (packing M) (writing M) (r :: pick pool ri))
  | Insert b ki ri info pk =>
      let '(s, r) := insert (dmu M) (mkObj b (pick (refs M) ki)) info pk in
      Some (Nothing, mkMachine s (packing M) (writing M) (r :: pick (refs M) ri))
  | Take i =>
      r ← refs M !! i;
      '(g, s) ← get_and_remove (dmu M) r false;
      Some match g with
           | inl o => (Found o, mkMachine s (packing M) (writing M) (kids o ++ delete i (refs M)))
           | inr _ => (Failed, mkMachine s (packing M) (writing M) (delete i (refs M)))
           end
  | DropCache pinned => Some (Nothing, with_dmu M (drop_cache (dmu M) pinned))
  | Evict offered =>
      '(job, s) ← evict_begin (dmu M) offered;
      Some (Nothing, match job with
                     | Some (m, pk) => mkMachine s (mkJob m pk true :: packing M) (writing M) (refs M)
                     | None => with_dmu M s
                     end)
  | WriteBack i =>
      r ← refs M !! i;
      match ref_mid r, ref_index r with
      | Some m, Some pk =>
          '(p, s) ← prepare_write_back (dmu M) m;
          match p with
          | NotPresent => '(s, r) ← fix_or s r; Some (Nothing, mkMachine s (packing M) (writing M) (<[i := r]> (refs M)))
          | _ => Some (Nothing, prepared M s p m pk)
          end
      | _, _ => match r with RUnmodified _ _ => Some (Nothing, M) | _ => None end
      end
  | WriteChild m pk =>
      '(p, s) ← prepare_write_back (dmu M) m;
      Some (Nothing, prepared M s p m pk)
  | Write n =>
      j ← packing M !! n;
      '(w, s) ← write_object default_compression default_storage_class (dmu M) (job_mid j) (job_pk j);
      Some match w with
           | inl p => (Nothing, mkMachine s (delete n (packing M)) ((j, p) :: writing M) (refs M))
           | inr _ => (Failed, mkMachine s (delete n (packing M)) (writing M) (refs M))
           end
  | Done n =>
      '(j, p) ← writing M !! n;
      s ← write_back_done (dmu M) (job_mid j) (job_evict j) p;
      Some (Nothing, mkMachine s (packing M) (delete n (writing M)) (refs M))
  end.

Definition idle (M : Machine) (r : ObjRef) : bool :=
  match ref_mid r with
  | Some m => bool_decide (m ∉ job_mid <$> packing M)
  | None => true
  end.

Context {Hol : ObjectLaws (P := P)}.

Definition fits (o : Obj P) : bool := bool_decide (small o).

Definition in_u64 (x : Z) : bool := (0 <=? x) && (x <? U64_SIZE).

(** What the types and the locks of the program see to: indices exist, an
    object that is changed is the client's and every reference is in one
    place afterwards, nobody packs the object.  [Get] in an object that is not
    modified finds no storage hint. *)
Definition enabled (M : Machine) (a : Action) : bool :=
  match a with
  | Get i path =>
      match locate M i path with
      | Some (Some (KModified _, _), _) | Some (None, _) => true
      | Some (Some _, r) =>
          match ref_index r with
          | Some pk => bool_decide (hint_take (storage_hints (dmu M)) pk = None)
          | None => false
          end
      | None => false
      end
  | GetMut i path info =>
      match locate M i path with
      | Some (Some (KModified _, _), r) | Some (None, r) => idle M r && in_u64 info
      | _ => false
      end
  | Edit i b ki ri =>
      match refs M !! i with
      | Some (RModified m _) =>
          match cache (dmu M) !! KModified m with
          | Some (_, o) =>
              let pool := kids o ++ delete i (refs M) in
              is_split ki ri (length pool) && fits (mkObj b (pick pool ki))
          | None => false
          end
      | _ => false
      end
  | Insert b ki ri info _ => is_split ki ri (length (refs M)) && fits (mkObj b (pick (refs M) ki)) && in_u64 info
  | Take i => match refs M !! i with Some r => idle M r | None => false end
  | WriteBack i => bool_decide (is_Some (refs M !! i))
  | Write n => bool_decide (is_Some (packing M !! n))
  | Done n => bool_decide (is_Some (writing M !! n))
  | DropCache _ | Evict _ | WriteChild _ _ => true
  end.

(** The actions that could be done, and what was seen *)
Fixpoint run (M : Machine) (acts : list Action) : option (list (Action * Seen) * Machine) :=
  match acts with
  | [] => Some ([], M)
  | a :: acts =>
      if enabled M a then
        '(x, M) ← step M a;
        '(xs, M) ← run M acts;
        Some ((a, x) :: xs, M)
      else run M acts
  end.

End machine.

(** ** What clients see *)

Section refinement.
Context `{Hck : !Checksum} `{Hec : !EmptyChecksum} `{Hm : !Memory} `{Hz : !Zstd}.
Context {P St : Type} `{Hobj : !Object P} `{Hst : !ObjectStore St}.
Context `{Hol : !ObjectLaws} `{Hsl : !ObjectStoreLaws}.

Abbreviation Machine := (Machine (P := P) (St := St)).
Abbreviation Action := (Action (P := P)).
Abbreviation Seen := (Seen (P := P)).

(** The forest, which only changes by what the clients change *)
Definition forest_step (ts : list tree) (a : Action) : list tree :=
  match a with
  | Edit i b ki ri =>
      match ts !! i with
      | Some (Nd _ tk) =>
          let pool := tk ++ delete i ts in
          Nd (content b) (pick pool ki) :: pick pool ri
      | None => ts
      end
  | Insert b ki ri _ _ => Nd (content b) (pick ts ki) :: pick ts ri
  | Take i =>
      match ts !! i with
      | Some (Nd _ tk) => tk ++ delete i ts
      | None => ts
      end
  | _ => ts
  end.

Definition sees (ts : list tree) (i : nat) (path : list nat) (x : Seen) : Prop :=
  match x with
  | Found o => ∃ t c tk, ts !! i = Some t ∧ subtree t path = Some (Nd c tk) ∧
      content (body o) = c ∧ length (kids o) = length tk
  | _ => False
  end.

Definition may_see (ts : list tree) (a : Action) (x : Seen) : Prop :=
  match a with
  | Get i path | GetMut i path _ => sees ts i path x
  | Take i => sees ts i [] x
  | Write _ => x = Nothing ∨ x = Failed
  | _ => x = Nothing
  end.

Fixpoint forest_run (ts : list tree) (trace : list (Action * Seen)) (ts' : list tree) : Prop :=
  match trace with
  | [] => ts' = ts
  | (a, x) :: trace => may_see ts a x ∧ forest_run (forest_step ts a) trace ts'
  end.

Lemma forest_run_end ts trace ts' : forest_run ts trace ts' → ts' = foldl (λ ts x, forest_step ts x.1) ts trace.
Proof. revert ts. induction trace as [|[a x] trace IH]; intros ts; simpl; [done|]. intros [_ Hr]. by apply IH. Qed.

(** The references of the clients denote the forest. *)
Definition represents (M : Machine) (ts : list tree) : Prop :=
  World (dmu M) (job_mid <$> packing M) ((λ x, (job_mid x.1, x.2)) <$> writing M) (refs M) ts.

Lemma represents_located M ts i path place r :
  represents M ts → locate M i path = Some (place, r) →
  match place with
  | None => refs M !! i = Some r ∧ path = []
  | Some (key, j) => ∃ e, cache (dmu M) !! key = Some e ∧ kids e.2 !! j = Some r
  end ∧ ∃ t t' own F, ts !! i = Some t ∧ subtree t path = Some t' ∧ den (dmu M) r t' own ∧
    Aux (dmu M) (job_mid <$> packing M) ((λ x, (job_mid x.1, x.2)) <$> writing M) (own ++ F).
Proof.
  intros HW. unfold locate. destruct (refs M !! i) as [r0|] eqn:Hi; [|done]. cbn [mbind option_bind]. intros Hd.
  split.
  - destruct path as [|j path]; [simpl in Hd; by simplify_eq|]. destruct place as [[key j']|].
    + by eapply descend_place.
    + by apply descend_inside in Hd.
  - destruct (world_root _ _ _ _ _ i r0 HW Hi) as (t & own & rest & Ht & Hdt & Ha & _).
    destruct (descend_den _ _ _ None r0 t own rest path place r Hdt Ha Hd) as (t' & own' & F' & Hs & Hd' & Ha').
    by exists t, t', own', F'.
Qed.

(** *** Every action *)

Definition correct (M : Machine) (ts : list tree) (a : Action) (res : option (Seen * Machine)) : Prop :=
  ∃ x M', res = Some (x, M') ∧ may_see ts a x ∧ represents M' (forest_step ts a) ∧
    next_modified_node_id (dmu M') ≤ next_modified_node_id (dmu M) + 3.

Lemma get_correct cc cl M ts i path :
  represents M ts → enabled M (Get i path) = true → next_modified_node_id (dmu M) + 3 < U64_SIZE →
  correct M ts (Get i path) (step cc cl M (Get i path)).
Proof.
  intros HW Hen Hn. simpl in Hen |- *. destruct (locate M i path) as [[place r]|] eqn:Hloc; [|done].
  cbn [mbind option_bind].
  destruct (represents_located M ts i path place r HW Hloc) as (Hplace & t & t' & own & F & Ht & Hsub & Hd & Ha).
  destruct (get_den _ _ _ r t' own F Hd Ha) as (key & s' & r' & own' & Hg & Hd' & _ & Ha' & Hkey & Hc & Hn' & _); [lia|].
  rewrite Hg. cbn [mbind option_bind].
  destruct (den_shows _ _ _ _ _ _ _ _ Hd' Ha' Hkey Hc) as ([tag o] & c & tk & He & -> & Hco & Hk).
  unfold seen. rewrite He. cbn [mbind option_bind]. eexists _, _. split; [done|]. split; [by exists t, c, tk|].
  destruct place as [[pkey j]|].
  - destruct Hplace as (e & He' & Hj).
    destruct (get_child _ _ _ _ ts pkey e j r HW He' Hj) as (k2 & s2 & r2 & Hg2 & HW2 & Hn2); [lia| |].
    { intros pk Hne Hpk. destruct pkey as [? ?|m|?]; [|by destruct (Hne m)|]; rewrite Hpk in Hen; by apply bool_decide_eq_true in Hen. }
    rewrite Hg in Hg2. simplify_eq. split; [done|simpl; lia].
  - destruct Hplace as [Hi ->].
    destruct (get_root _ _ _ _ ts i r HW Hi) as (k2 & s2 & r2 & t2 & Hg2 & HW2 & Hn2 & _); [lia|].
    rewrite Hg in Hg2. simplify_eq. split; [done|simpl; lia].
Qed.

Lemma idle_spec (M : Machine) r : idle M r = true → ∀ m, ref_mid r = Some m → m ∉ job_mid <$> packing M.
Proof. unfold idle. intros Hi m Hr. rewrite Hr in Hi. by apply bool_decide_eq_true in Hi. Qed.

Lemma in_u64_ok x : in_u64 x = true → info_ok x.
Proof. unfold in_u64, info_ok. rewrite andb_true_iff, Z.leb_le, Z.ltb_lt. done. Qed.

Lemma get_mut_correct cc cl M ts i path info :
  represents M ts → enabled M (GetMut i path info) = true → next_modified_node_id (dmu M) + 3 < U64_SIZE →
  correct M ts (GetMut i path info) (step cc cl M (GetMut i path info)).
Proof.
  intros HW Hen Hn. simpl in Hen |- *. destruct (locate M i path) as [[place r]|] eqn:Hloc; [|done].
  cbn [mbind option_bind].
  assert (idle M r && in_u64 info = true ∧ ∀ key j, place = Some (key, j) → ∃ m, key = KModified m) as [Hidle Hmod].
  { destruct place as [[[]]|]; try done; split; try done; naive_solver. }
  apply andb_true_iff in Hidle as [Hidle Hinfo%in_u64_ok].
  pose proof (idle_spec M r Hidle) as Hb.
  destruct (represents_located M ts i path place r HW Hloc) as (Hplace & t & t' & own & F & Ht & Hsub & Hd & Ha).
  destruct (get_mut_den _ _ _ r t' own F info Hd Ha Hb Hn Hinfo) as (s' & m & pk & own' & Hg & Hd' & _ & Ha' & Hc & Hn').
  rewrite Hg. cbn [mbind option_bind].
  destruct (den_shows _ _ _ _ _ _ _ (KModified m) Hd' Ha' eq_refl Hc) as ([tag o] & c & tk & He & -> & Hco & Hk).
  unfold seen. rewrite He. cbn [mbind option_bind]. eexists _, _. split; [done|]. split; [by exists t, c, tk|].
  destruct place as [[pkey j]|].
  - destruct Hplace as (e & He' & Hj). destruct (Hmod pkey j eq_refl) as [pm ->].
    destruct (get_mut_child _ _ _ _ ts pm e j r info HW He' Hj Hb Hn Hinfo) as (s2 & m2 & pk2 & Hg2 & HW2 & Hn2).
    rewrite Hg in Hg2. simplify_eq. done.
  - destruct Hplace as [Hi ->].
    destruct (get_mut_root _ _ _ _ ts i r info HW Hi Hb Hn Hinfo) as (s2 & m2 & pk2 & t2 & Hg2 & HW2 & Hn2 & _).
    rewrite Hg in Hg2. simplify_eq. done.
Qed.

Lemma fits_small (o : Obj P) : fits o = true → small o.
Proof. apply bool_decide_eq_true_1. Qed.

Lemma edit_correct cc cl M ts i b ki ri :
  represents M ts → enabled M (Edit i b ki ri) = true →
  correct M ts (Edit i b ki ri) (step cc cl M (Edit i b ki ri)).
Proof.
  intros HW Hen. simpl in Hen |- *. destruct (refs M !! i) as [r|] eqn:Hi; [|done]. destruct r as [| |m pk|]; try done.
  destruct (cache (dmu M) !! KModified m) as [[tag o]|] eqn:He; [|done].
  apply andb_true_iff in Hen as [Hsp Hfit%fits_small]. cbn [mbind option_bind as_key]. rewrite He. cbn [mbind option_bind].
  destruct (edit_root _ _ _ _ ts i m pk (tag, o) b ki ri HW Hi He Hsp Hfit) as (c & tk & Ht & HW').
  eexists _, _. split; [done|]. split; [done|]. split; [|simpl; lia]. unfold forest_step. by rewrite Ht.
Qed.

Lemma insert_correct cc cl M ts b ki ri info pk :
  represents M ts → enabled M (Insert b ki ri info pk) = true → next_modified_node_id (dmu M) + 3 < U64_SIZE →
  correct M ts (Insert b ki ri info pk) (step cc cl M (Insert b ki ri info pk)).
Proof.
  intros HW Hen Hn. simpl in Hen. apply andb_true_iff in Hen as [[Hsp Hfit%fits_small]%andb_true_iff Hinfo%in_u64_ok].
  destruct (insert_root _ _ _ _ ts b ki ri info pk HW Hsp) as (s' & r & Hins & Hn' & HW'); [lia|done|done|].
  cbn [step]. rewrite Hins. eexists _, _. split; [done|]. split; [done|]. split; [done|simpl; lia].
Qed.

Lemma take_correct cc cl M ts i :
  represents M ts → enabled M (Take i) = true → next_modified_node_id (dmu M) + 3 < U64_SIZE →
  correct M ts (Take i) (step cc cl M (Take i)).
Proof.
  intros HW Hen Hn. simpl in Hen |- *. destruct (refs M !! i) as [r|] eqn:Hi; [|done]. cbn [mbind option_bind].
  destruct (take_root _ _ _ _ ts i r HW Hi (idle_spec M r Hen)) as (o & s' & c & tk & Hg & Ht & Hco & HW' & Hn'); [lia|].
  rewrite Hg. cbn [mbind option_bind]. eexists _, _. split; [done|]. cbn [forest_step may_see]. rewrite Ht.
  split; [|split; [done|simpl; lia]]. exists (Nd c tk), c, tk. split_and!; try done.
  destruct HW' as (own & Hds & _). apply dens_length in Hds. rewrite !length_app in Hds.
  destruct HW as (own0 & Hds0 & _). apply dens_length in Hds0.
  pose proof (lookup_lt_Some _ _ _ Hi). pose proof (lookup_lt_Some _ _ _ Ht).
  rewrite !length_delete in Hds by eauto. lia.
Qed.

Lemma drop_correct cc cl M ts pinned : represents M ts → correct M ts (DropCache pinned) (step cc cl M (DropCache pinned)).
Proof.
  intros HW. eexists _, _. split; [done|]. split; [done|]. split; [by apply drop_cache_ok|simpl; lia].
Qed.

Lemma evict_correct cc cl M ts offered : represents M ts → correct M ts (Evict offered) (step cc cl M (Evict offered)).
Proof.
  intros HW. simpl. destruct (evict_begin_ok _ _ _ _ ts offered HW) as (job & s' & Hb & Hn & HW'). rewrite Hb. cbn [mbind option_bind].
  eexists _, _. split; [done|]. split; [done|]. by destruct job as [[m pk]|]; (split; [done|simpl; lia]).
Qed.

Lemma prepared_ok M s p m pk ts :
  World s (prepared_busy p m (job_mid <$> packing M)) ((λ x, (job_mid x.1, x.2)) <$> writing M) (refs M) ts →
  represents (prepared M s p m pk) ts.
Proof. by destruct p. Qed.

Lemma prepared_next (M : Machine) s p m pk : next_modified_node_id (dmu (prepared M s p m pk)) = next_modified_node_id s.
Proof. by destruct p. Qed.

Lemma write_child_correct cc cl M ts m pk : represents M ts → correct M ts (WriteChild m pk) (step cc cl M (WriteChild m pk)).
Proof.
  intros HW. simpl. destruct (prepare_ok _ _ _ _ ts m HW) as (p & s' & Hp & Hn & HW' & _). rewrite Hp. cbn [mbind option_bind].
  eexists _, _. split; [done|]. split; [done|]. split; [by apply prepared_ok|]. rewrite prepared_next. lia.
Qed.

Lemma write_back_correct cc cl M ts i :
  represents M ts → enabled M (WriteBack i) = true → correct M ts (WriteBack i) (step cc cl M (WriteBack i)).
Proof.
  intros HW [r Hi]%bool_decide_eq_true. simpl. rewrite Hi. cbn [mbind option_bind].
  destruct (world_root _ _ _ _ ts i r HW Hi) as (t & own & rest & _ & Hd & _).
  destruct (ref_kinds _ _ _ _ Hd) as [(p & pk & ->)|(m & pk & Hmid & Hpk)].
  { simpl. eexists _, _. split; [done|]. split; [done|]. split; [done|simpl; lia]. }
  rewrite Hmid, Hpk. destruct (prepare_ok _ _ _ _ ts m HW) as (p & s' & Hp & Hn & HW' & Habs). rewrite Hp. cbn [mbind option_bind].
  assert (p = NotPresent ∨ p ≠ NotPresent) as [->|Hne] by (destruct p; auto).
  - destruct (Habs eq_refl) as (-> & H1 & H2).
    destruct (fix_root _ _ _ _ ts i r m HW Hi Hmid H1 H2) as (s2 & r2 & -> & HW2 & Hn2). cbn [mbind option_bind].
    eexists _, _. split; [done|]. split; [done|]. split; [done|simpl; lia].
  - exists Nothing, (prepared M s' p m pk). split; [by destruct p|]. split; [done|].
    split; [by apply prepared_ok|]. rewrite prepared_next. lia.
Qed.

Lemma done_correct cc cl M ts n :
  represents M ts → enabled M (Done n) = true → correct M ts (Done n) (step cc cl M (Done n)).
Proof.
  intros HW [[j p] Hn]%bool_decide_eq_true. simpl. rewrite Hn. cbn [mbind option_bind].
  destruct (done_step_ok (dmu M) (job_mid <$> packing M) ((λ x, (job_mid x.1, x.2)) <$> delete n (writing M)) (refs M) ts (job_mid j) p (job_evict j))
    as (s' & -> & Hnx & HW').
  { eapply World_work; [done| |exact HW]. by rewrite (delete_Permutation _ _ _ Hn) at 1. }
  cbn [mbind option_bind]. eexists _, _. split; [done|]. split; [done|]. split; [done|simpl; lia].
Qed.

End refinement.

Section refinement_run.
Context `{Hck : !Checksum} `{Hec : !EmptyChecksum} `{Hm : !Memory} `{Hz : !Zstd}.
Context {P St : Type} `{Hobj : !Object P} `{Hst : !ObjectStore St}.
Context `{Hol : !ObjectLaws} `{Hsl : !ObjectStoreLaws}.
Context `{Hcl : !ChecksumLaws} `{Hel : !EmptyLaws} `{Hml : !MemoryLaws} `{Hzl : !ZstdLaws}.
Context (default_compression : CompressionConfiguration) (default_storage_class : Z).

Abbreviation Machine := (Machine (P := P) (St := St)).

(** Whatever is packed can be compressed. *)
Definition compresses : Prop := ∀ d, blen d ≤ 2 ^ 24 → compressible default_compression d.

Lemma write_correct (M : Machine) ts n :
  compresses → represents M ts → enabled M (Write n) = true →
  correct M ts (Write n) (step default_compression default_storage_class M (Write n)).
Proof using Hcl Hel Hml Hzl.
  intros Hcomp HW [j Hn]%bool_decide_eq_true. cbn [step]. rewrite Hn. cbn [mbind option_bind].
  destruct (write_step_ok default_compression default_storage_class Hcomp (dmu M) (job_mid <$> delete n (packing M))
    ((λ x, (job_mid x.1, x.2)) <$> writing M) (refs M) ts (job_mid j) (job_pk j)) as (r & s' & -> & Hnx & HW').
  { eapply World_work; [|done|exact HW]. by rewrite (delete_Permutation _ _ _ Hn) at 1. }
  cbn [mbind option_bind]. destruct r as [p|e]; (eexists _, _; split; [done|]; split; [simpl; auto|]; split; [done|simpl; lia]).
Qed.

Lemma step_correct (M : Machine) ts a :
  compresses → represents M ts → enabled M a = true → next_modified_node_id (dmu M) + 3 < U64_SIZE →
  correct M ts a (step default_compression default_storage_class M a).
Proof using Hcl Hel Hml Hzl.
  intros Hcomp HW Hen Hn. destruct a;
    eauto using get_correct, get_mut_correct, edit_correct, insert_correct, take_correct, drop_correct, evict_correct,
      write_back_correct, write_child_correct, write_correct, done_correct.
Qed.

Lemma run_correct (M : Machine) ts acts :
  compresses → represents M ts → next_modified_node_id (dmu M) + 3 * Z.of_nat (length acts) < U64_SIZE →
  ∃ trace M' ts', run default_compression default_storage_class M acts = Some (trace, M') ∧
    forest_run ts trace ts' ∧ represents M' ts'.
Proof using Hcl Hel Hml Hzl.
  intros Hcomp. revert M ts. induction acts as [|a acts IH]; intros M ts HW Hn; cbn [run].
  - by exists [], M, ts.
  - cbn [length] in Hn. destruct (enabled M a) eqn:Hen; [|apply IH; [done|lia]].
    destruct (step_correct M ts a Hcomp HW Hen) as (x & M1 & -> & Hx & HW1 & Hn1); [lia|]. cbn [mbind option_bind].
    destruct (IH M1 (forest_step ts a) HW1) as (trace & M' & ts' & -> & Hf & HW'); [lia|]. cbn [mbind option_bind].
    by exists ((a, x) :: trace), M', ts'.
Qed.


End refinement_run.
