(* ===== verification/DmuPersist.v ===== *)
(** * [write_back] writes a whole tree

    When nothing else is being written, [write_back] ends, and the pointer it
    returns is all that a data management unit with an empty cache needs to
    find the tree again ([write_back_persists]). *)

From Stdlib Require Import ZArith Lia Permutation.
From stdpp Require Import base option list numbers gmap.
From S2P Require Import Prelude.
From S2P Require Import Bytes.
From S2P Require Import StoragePref.
From S2P Require Import Checksum.
From S2P Require Import ChildBuffer.
From S2P Require Import Internal.
From S2P Require Import Disk.
From S2P Require Import DmuAlloc.
From S2P Require Import Buffer.
From S2P Require Import Compression.
From S2P Require Import Vdev.
From S2P Require Import DmuObjects.
From S2P Require Import DmuDenote.
From S2P Require Import DmuProtocol.
From S2P Require Import DmuWriteBack.
From S2P Require Import DmuMachine.
Import DiskOffset(DiskOffset).

Section persist.
Context `{Hck : !Checksum} `{Hec : !EmptyChecksum} `{Hm : !Memory} `{Hz : !Zstd}.
Context {P St : Type} `{Hobj : !Object P} `{Hst : !ObjectStore St}.
Context `{Hol : !ObjectLaws} `{Hsl : !ObjectStoreLaws}.

Abbreviation Dmu := (ObjDmu (P := P) (St := St)).

(** No object is being written, or was when its write failed. *)
Definition quiet (s : Dmu) : Prop := ∀ m, cache s !! KInWriteback m = None.

Definition is_writing (k : ObjectKey) : bool := match k with KInWriteback _ => true | _ => false end.

Lemma quiet_check (s : Dmu) :
  forallb (λ x, negb (is_writing x.1)) (map_to_list (cache s)) = true → quiet s.
Proof.
  rewrite forallb_forall. intros Hall m. destruct (cache s !! KInWriteback m) as [e|] eqn:He; [|done].
  apply elem_of_map_to_list, list_elem_of_In in He. by apply Hall in He.
Qed.

(** The unit of a database that was just opened *)
Definition opened (st : St) : Dmu := mkObjDmu ∅ ∅ ∅ [] 0 st.

(** The tree is found from a pointer, in a unit that knows nothing else. *)
Definition persisted (st : St) (p : ObjectPointer) (t : tree) : Prop :=
  World (opened st) [] [] [root_ref_from_obj_ptr p] [t].

(** ** Trees on disk *)

Lemma unmodified_own_all (s : Dmu) :
  (∀ r t own, den s r t own → is_unmodified r → ∀ m, RMid m ∉ own) ∧
  (∀ rs ts own, dens s rs ts own → Forall is_unmodified rs → ∀ m, RMid m ∉ own).
Proof.
  apply den_dens_ind.
  - intros r o ts own own' Hres _ IH Hu m. destruct r as [|p pk| |]; try done.
    destruct Hres as [[(d & _ & _ & _ & _ & Hk & _) _] ->]. specialize (IH Hk m). set_solver.
  - set_solver.
  - intros r rs t ts own own' _ IH1 _ IH2 Hu m. apply Forall_cons in Hu as [Hu1 Hu2].
    specialize (IH1 Hu1 m). specialize (IH2 Hu2 m). set_solver.
Qed.

Lemma unmodified_own (s : Dmu) r t own m : den s r t own → is_unmodified r → RMid m ∉ own.
Proof. intros Hd Hu. by eapply (proj1 (unmodified_own_all s)). Qed.

Lemma unmodified_owns (s : Dmu) rs ts own m : dens s rs ts own → Forall is_unmodified rs → RMid m ∉ own.
Proof. intros Hd Hu. by eapply (proj2 (unmodified_own_all s)). Qed.

Lemma opened_aux st own : os_ok st → NoDup own → (∀ m, RMid m ∉ own) → Aux (opened st) [] [] own.
Proof.
  intros Hok Hnd Hno. split; simpl; try done; try (by intros; set_solver).
  all: first [by rewrite app_nil_r | constructor | intros; by rewrite lookup_empty in * | lia
    | intros m [Hin|[?|?]]; [by apply Hno in Hin|set_solver|set_solver]].
Qed.

Lemma den_persisted (s : Dmu) p pk t own :
  den s (RUnmodified p pk) t own → os_ok (store s) → NoDup own → persisted (store s) p t.
Proof.
  intros Hd Hok Hnd. assert (den s (root_ref_from_obj_ptr p) t own) as Hd'.
  { inversion Hd; subst. by constructor. }
  assert (∀ m, RMid m ∉ own) as Hno.
  { intros m. apply (unmodified_own s _ t own m Hd'). by apply den_ptr_ok in Hd. }
  exists (own ++ []). split.
  - constructor; [|constructor]. eapply den_frame; [exact Hd'|]. intros [m|o] Hx; [by apply Hno in Hx|].
    split; [done|]. simpl. intros g e. by rewrite lookup_empty.
  - rewrite app_nil_r. by apply opened_aux.
Qed.

(** ** References whose objects are written *)

Definition gone (s : Dmu) (r : ObjRef) : Prop :=
  is_unmodified r ∨ ∃ m, ref_mid r = Some m ∧ cache s !! KModified m = None ∧ cache s !! KInWriteback m = None.

(** The mids of a written reference are not in the cache. *)
Lemma gone_mids (s : Dmu) r t own m :
  den s r t own → gone s r → RMid m ∈ own → cache s !! KModified m = None ∧ cache s !! KInWriteback m = None.
Proof.
  intros Hd [Hu|(m0 & Hr & H1 & H2)] Hin; [by eapply unmodified_own in Hd|].
  inversion Hd as [r0 o ts ownr owk Hres Hk]; subst.
  assert (∃ w, at_place s m0 w o ∧ ownr = RMid m0 :: place_own w) as (w & Hat & ->).
  { destruct r; simplify_eq/=; destruct Hres as (w & ? & ?); exists w; naive_solver. }
  destruct w as [| |p]; simpl in Hat; [destruct Hat as (? & ? & _); congruence|destruct Hat as (? & _ & ? & _); congruence|].
  destruct Hat as (_ & _ & _ & (d & _ & _ & _ & _ & Hu & _) & _). simpl in Hin.
  apply elem_of_cons in Hin as [[= ->]|[?|Hin]%elem_of_cons]; [done|done|]. by apply (unmodified_owns s _ _ _ m) in Hk.
Qed.

Lemma gones_mids (s : Dmu) rs ts own m :
  dens s rs ts own → Forall (gone s) rs → RMid m ∈ own → cache s !! KModified m = None ∧ cache s !! KInWriteback m = None.
Proof.
  revert ts own. induction rs as [|r rs IH]; intros ts own; inversion 1; subst; [set_solver|].
  intros [Hg Hgs]%Forall_cons [Hin|Hin]%elem_of_app; [by eapply gone_mids|by eapply IH].
Qed.

Lemma den_own_mid (s : Dmu) r t own m : den s r t own → ref_mid r = Some m → RMid m ∈ own.
Proof.
  inversion 1 as [r0 o ts ownr owk Hres Hk]; subst. intros Hr. apply elem_of_app. left.
  destruct r; simplify_eq/=; destruct Hres as (w & Hres); naive_solver set_solver.
Qed.

Lemma gone_frame (s s' : Dmu) r t own : den s r t own → agrees s s' own → gone s r → gone s' r.
Proof.
  intros Hd Hag [Hu|(m & Hr & H1 & H2)]; [by left|]. right. exists m. split; [done|].
  destruct (Hag (RMid m)) as (-> & -> & _); [by eapply den_own_mid|]. done.
Qed.

Lemma settled_frame (s s' : Dmu) r t own : den s r t own → agrees s s' own → settled s r → settled s' r.
Proof.
  intros Hd Hag [Hu|(key & m & pk & Hk & Hc & Hr & Hpk)]; [by left|]. right. exists key, m, pk. split_and!; try done.
  destruct (Hag (RMid m)) as (H1 & H2 & _); [by eapply den_own_mid|]. destruct r; simplify_eq/=; by rewrite ?H1, ?H2.
Qed.

Lemma settleds_frame (s s' : Dmu) rs ts own :
  dens s rs ts own → agrees s s' own → Forall (settled s) rs → Forall (settled s') rs.
Proof.
  revert ts own. induction rs as [|r rs IH]; intros ts own; inversion 1; subst; intros Hag; [done|].
  intros [Hs1 Hs2]%Forall_cons. constructor.
  - eapply settled_frame; [done| |done]. eapply agrees_sub; [done|set_solver].
  - eapply IH; [done| |done]. eapply agrees_sub; [done|set_solver].
Qed.

Lemma omap_unmodified rs : Forall is_unmodified rs → omap dep_of rs = [].
Proof. induction 1 as [|r rs Hr _ IH]; [done|]. simpl. by destruct r. Qed.

(** When all children are written, none has to be written first. *)
Lemma no_deps (s : Dmu) rs ts own rs' ts' own' w :
  dens s rs ts own → Forall (gone s) rs → dens (set_written_back s w) rs' ts' own' → own' ⊆ own →
  Forall (settled s) rs' → omap dep_of rs' = [] ∧ Forall is_unmodified rs'.
Proof.
  intros Hd Hg Hd' Hsub Hset. assert (Forall is_unmodified rs') as Hu.
  { apply Forall_forall. intros r Hr. rewrite Forall_forall in Hset.
    destruct (Hset r Hr) as [?|(key & m & pk & Hk & [e He] & Hmid & _)]; [done|]. exfalso.
    apply list_elem_of_lookup in Hr as [i Hi]. destruct (dens_at _ _ _ _ i r Hd' Hi) as (t & own1 & rest & _ & Hd1 & Hp & _).
    destruct (gones_mids s rs ts own m Hd Hg) as [H1 H2].
    { apply Hsub. rewrite Hp. apply elem_of_app. left. by eapply den_own_mid. }
    destruct r; simplify_eq/=; congruence. }
  split; [by apply omap_unmodified|done].
Qed.

(** ** Nothing else is going on *)

Definition calm (s : Dmu) (own F : list res) : Prop :=
  Aux s [] [] (own ++ F) ∧ held s (own ++ F) ∧ quiet s.

Lemma held_agrees (s s' : Dmu) F : held s F → agrees s s' F → held s' F.
Proof. intros Hh Hag o Ho. destruct (Hh o Ho) as [d Hd]. exists d. by apply (Hag (ROff o) Ho). Qed.

Lemma calm_perm (s : Dmu) own F own' F' : own ++ F ≡ₚ own' ++ F' → calm s own F → calm s own' F'.
Proof. intros Hp (Ha & Hh & Hq). split_and!; [by eapply Aux_perm|intros o Ho; apply Hh; by rewrite Hp|done]. Qed.

Lemma calm_settled (s : Dmu) w own own' F :
  calm s own F → Aux (set_written_back s w) [] [] (own' ++ F) → own' ⊆ own → calm (set_written_back s w) own' F.
Proof. intros (Ha & Hh & Hq) Ha' Hsub. split_and!; [done| |done]. intros o Ho. apply Hh. set_solver. Qed.

(** After the write of [m] *)
Lemma calm_done (s s' : Dmu) m p o' tk owk F :
  calm s (RMid m :: owk) F → (∀ m', RMid m' ∉ owk) → at_place s' m (PDisk p) o' → dens s' (kids o') tk owk →
  agrees s s' F → Aux s' [] [] (((RMid m :: place_own (PDisk p)) ++ owk) ++ F) →
  calm s' (RMid m :: ROff (ptr_offset p) :: owk) F.
Proof.
  intros (_ & Hh & Hq) Hno Hat Hk Hag Ha. split_and!; [done| |].
  - intros o Ho. simpl in Ho. rewrite !elem_of_cons, elem_of_app in Ho. destruct Ho as [?|[[= ->]|[Ho|Ho]]]; [done| | |].
    + destruct Hat as (_ & _ & _ & (d & Hd & _) & _). eauto.
    + by eapply (proj2 (den_dens_held s')).
    + eapply held_agrees; [|done|done]. intros off Hoff. apply Hh. set_solver.
  - intros m'. destruct (cache s' !! KInWriteback m') as [e|] eqn:He; [exfalso|done].
    pose proof (a_wbs _ _ _ _ Ha m' e He) as Hin. simpl in Hin. rewrite !elem_of_cons, elem_of_app in Hin.
    destruct Hin as [[= ->]|[?|[Hin|Hin]]]; [|done|by apply Hno in Hin|].
    + destruct Hat as (_ & ? & _). congruence.
    + destruct (Hag _ Hin) as (_ & Hm2 & _). rewrite (Hq m') in Hm2. congruence.
Qed.

(** ** [prepare_write_back] of a modified object *)

Lemma prepare_local (s : Dmu) m pk t own F tag o :
  den s (RModified m pk) t own → cache s !! KModified m = Some (tag, o) → calm s own F →
  ∃ ks tk owk s1, let entry := (tag, mkObj (body o) ks) in
    prepare_write_back s m = Some match omap dep_of ks with
      | [] => (Ready, set_cache s1 (<[KInWriteback m := entry]> (delete (KModified m) (cache s1))))
      | deps => (Dependencies deps, s1)
      end ∧
    t = Nd (content (body o)) tk ∧ cache s1 !! KModified m = Some entry ∧ written_back s1 !! m = None ∧
    dens s1 ks tk owk ∧ agrees s s1 F ∧ calm s1 (RMid m :: owk) F ∧ Forall (settled s1) ks ∧
    (Forall (gone s) (kids o) → omap dep_of ks = []).
Proof.
  intros Hd He Hcalm. pose proof Hcalm as (Ha & Hh & Hq).
  destruct (cached_ref s [] [] _ t own F (KModified m) (tag, o) Hd Ha eq_refl He) as (tk & owk0 & -> & -> & Hk & [_ Hwr] & Hsm).
  assert ((RMid m :: owk0) ++ F ≡ₚ owk0 ++ RMid m :: F) as Hp by apply Permutation_middle.
  destruct (settle_all_den s [] [] (kids o) tk owk0 (RMid m :: F) Hk) as (w & ks & owk & Hs & Hds & Hag & Ha' & Hsub & Hset);
    [by eapply Aux_perm|].
  set (s0 := set_written_back s w) in *.
  assert (calm s0 owk (RMid m :: F)) as Hc0 by (apply (calm_settled s w owk0); [by eapply calm_perm|done..]).
  set (s1 := set_cache s0 (<[KModified m := (tag, mkObj (body o) ks)]> (cache s0))).
  assert (∀ x, x ≠ RMid m → agree s0 s1 x) as Hag1 by (intros x Hx; by eapply agree_put).
  assert (RMid m ∉ owk ∧ RMid m ∉ F) as [Hn1 Hn2].
  { pose proof (a_nodup _ _ _ _ Ha') as Hnd. rewrite <- app_assoc in Hnd. simpl in Hnd.
    apply NoDup_app in Hnd as (_ & Hd' & Hnd). apply NoDup_cons in Hnd as [Hnd _]. split; [|set_solver].
    intros Hx. apply (Hd' _ Hx). set_solver. }
  exists ks, tk, owk, s1. split_and!.
  - unfold prepare_write_back. rewrite (Hq m), He, Hs. cbn [mbind option_bind].
    destruct (omap dep_of ks); [|done]. do 3 f_equal. simpl. by rewrite delete_insert_eq.
  - done.
  - apply lookup_insert_eq.
  - destruct (Hag (RMid m)) as (_ & _ & Hw3); [set_solver|]. simpl in Hwr. by rewrite <- Hwr, <- Hw3.
  - eapply dens_frame; [done|]. intros x Hx. apply Hag1. by intros ->.
  - intros x Hx. eapply agree_trans; [apply Hag; set_solver|]. apply Hag1. by intros ->.
  - destruct Hc0 as (Ha0 & Hh0 & Hq0). split_and!.
    + eapply Aux_perm; [|apply (Aux_put s0 [] [] (owk ++ RMid m :: F) m (tag, o)); [done|done|]].
      * simpl. symmetry. apply Permutation_middle.
      * simpl in *. apply (kids_small (body o) (kids o)); [|by destruct o].
        by rewrite (dens_length _ _ _ _ Hk), (dens_length _ _ _ _ Hds).
    + intros off Hoff. apply Hh0. simpl in Hoff. set_solver.
    + intros m'. simpl. rewrite lookup_insert_ne by done. apply Hq0.
  - eapply (settleds_frame s0 s1 ks tk owk); [done|intros x Hx; apply Hag1; by intros ->|].
    eapply Forall_impl; [exact Hset|]. intros r. by apply settled_cache.
  - intros Hg. by apply (no_deps s (kids o) tk owk0 ks tk owk w).
Qed.

Fixpoint tsize (t : tree) : nat := match t with Nd _ ts => S (sum_list_with tsize ts) end.

End persist.

Section loop.
Context `{Hck : !Checksum} `{Hec : !EmptyChecksum} `{Hm : !Memory} `{Hz : !Zstd}.
Context {P St : Type} `{Hobj : !Object P} `{Hst : !ObjectStore St}.
Context `{Hol : !ObjectLaws} `{Hsl : !ObjectStoreLaws}.
Context `{Hcl : !ChecksumLaws} `{Hel : !EmptyLaws} `{Hml : !MemoryLaws} `{Hzl : !ZstdLaws}.
Context (default_compression : CompressionConfiguration) (default_storage_class : Z).
Context (Hcomp : compresses default_compression).

Abbreviation Dmu := (ObjDmu (P := P) (St := St)).
Abbreviation handle := (handle_write_back (P := P) (St := St) default_compression default_storage_class).

(** The tree of [m] was written: it is denoted by the reference as before and
    found from the pointer. *)
Definition node_done (s s' : Dmu) (m : ModifiedObjectId) (t : tree) (F : list res) (p : ObjectPointer) : Prop :=
  ∃ own', (∀ pk, den s' (RModified m pk) t own') ∧ agrees s s' F ∧ calm s' own' F ∧
    cache s' !! KModified m = None ∧ cache s' !! KInWriteback m = None ∧ persisted (store s') p t.

Lemma node_written (s : Dmu) m tag o tk owk F pk :
  cache s !! KModified m = Some (tag, o) → Forall is_unmodified (kids o) → written_back s !! m = None →
  dens s (kids o) tk owk → calm s (RMid m :: owk) F →
  ∃ w s', handle (set_cache s (<[KInWriteback m := (tag, o)]> (delete (KModified m) (cache s)))) m false pk = Some (w, s') ∧
    ∀ p, w = inl p → node_done s s' m (Nd (content (body o)) tk) F p.
Proof using Hcl Hel Hml Hzl Hcomp.
  intros He Hu Hwr Hk Hcalm. pose proof Hcalm as (Ha & Hh & Hq).
  destruct (begin_local s [] [] m tag o tk owk F He Hu (Hq m) Hwr Hk Ha) as (Hat1 & Hk1 & Hag1 & Ha1).
  set (s1 := set_cache s _) in *. destruct Hat1 as (tag1 & Hm1 & Hw1 & Hwr1).
  destruct (write_local default_compression default_storage_class Hcomp s1 [] [] m pk tag1 o tk owk F Hw1 Hm1 Hwr1 Hk1 Ha1)
    as (r & s2 & o2 & Hwrite & _ & Hco2 & Hat2 & Hk2 & Hag2 & Ha2).
  { rewrite app_nil_r. exact Hh. }
  unfold handle_write_back. rewrite Hwrite. cbn [mbind option_bind].
  destruct r as [p|e]; [|by eexists _, _]. destruct Hat2 as (tag2 & Hm2 & Hw2 & Hwr2).
  destruct (done_local s2 [] [] m p tag2 o2 (<[ptr_key p := (tag2, o2)]> (delete (KInWriteback m) (cache s2))) tk owk F Hw2 Hm2 Hk2 Ha2)
    as (o3 & Hat3 & Hco3 & Hk3 & Hag3 & Ha3); [by right|].
  unfold write_back_done. rewrite Hw2. cbn [mbind option_bind]. eexists _, _. split; [done|]. intros p' [= <-].
  set (s3 := set_written_back _ _) in *.
  assert (agrees s s3 F) as Hag by (eapply agrees_trans; [done|]; by eapply agrees_trans).
  assert (calm s3 ((RMid m :: place_own (PDisk p)) ++ owk) F) as Hcalm3.
  { apply (calm_done s s3 m p o3 tk owk F); try done. intros m'. by apply (unmodified_owns s (kids o) tk owk m'). }
  rewrite <- Hco2, <- Hco3. exists ((RMid m :: place_own (PDisk p)) ++ owk). split_and!.
  - intros pk'. apply (den_node s3 (RModified m pk') o3 tk (RMid m :: place_own (PDisk p)) owk); [|done]. by exists (PDisk p).
  - done.
  - done.
  - apply Hat3.
  - apply Hat3.
  - destruct Hcalm3 as (Ha4 & _ & _).
    apply (den_persisted s3 p (PkRoot 0) _ ([ROff (ptr_offset p)] ++ owk)); [constructor; [|done]; split; [apply Hat3|done]|apply Ha4|].
    pose proof (a_nodup _ _ _ _ Ha4) as Hnd. apply NoDup_app in Hnd as [Hnd _]. apply NoDup_app in Hnd as [Hnd _].
    by apply NoDup_cons in Hnd as [_ Hnd].
Qed.

Abbreviation loop := (write_dependencies (P := P) (St := St) default_compression default_storage_class).

(** [k] turns of the loop work off the stack, or one of them fails. *)
Definition works_off (k : nat) (s : Dmu) (stack : list (ModifiedObjectId * PivotKey)) (res : unit + ObjError) (s' : Dmu) : Prop :=
  ∀ fuel rest, loop (k + fuel) s (stack ++ rest) =
    match res with inl _ => loop fuel s' rest | inr e => Some (inr e, s') end.

Definition ref_done (s s' : Dmu) (r : ObjRef) (t : tree) (F : list res) : Prop :=
  ∃ own', den s' r t own' ∧ agrees s s' F ∧ calm s' own' F ∧ gone s' r.

Definition refs_done (s s' : Dmu) (rs : list ObjRef) (ts : list tree) (F : list res) : Prop :=
  ∃ own', dens s' rs ts own' ∧ agrees s s' F ∧ calm s' own' F ∧ Forall (gone s') rs.

Definition writes_trees (n : nat) : Prop :=
  ∀ s m pk pk' t own F, (tsize t ≤ n)%nat → den s (RModified m pk) t own → is_Some (cache s !! KModified m) →
    calm s own F → ∃ k res s', (k ≤ 2 * tsize t)%nat ∧ works_off k s [(m, pk')] res s' ∧
      (res = inl tt → ref_done s s' (RModified m pk) t F).

(** The children that have to be written, the last one first *)
Lemma writes_children n : writes_trees n →
  ∀ s rs ts own F, Forall (λ t, tsize t ≤ n)%nat ts → dens s rs ts own → Forall (settled s) rs → calm s own F →
    ∃ k res s', (k ≤ 2 * sum_list_with tsize ts)%nat ∧ works_off k s (rev (omap dep_of rs)) res s' ∧
      (res = inl tt → refs_done s s' rs ts F).
Proof.
  intros IH s rs. revert s. induction rs as [|r rs IHrs] using rev_ind; intros s ts own F Hsz Hds Hset Hcalm.
  - exists 0%nat, (inl tt), s. inversion Hds; subst. split_and!; [lia|by intros fuel rest|].
    intros _. exists []. split_and!; [constructor|apply agrees_refl|done|done].
  - apply dens_app in Hds as (ts1 & ts2 & own1 & own2 & -> & -> & Hd1 & Hd2).
    inversion Hd2 as [|? ? t ? o2 ? Hdr Hnil]; subst. inversion Hnil; subst. rewrite app_nil_r in *.
    apply Forall_app in Hsz as [Hsz1 Hsz2]. apply Forall_cons in Hsz2 as [Hsz2 _].
    apply Forall_app in Hset as [Hset1 Hset2]. apply Forall_cons in Hset2 as [Hset2 _].
    rewrite sum_list_with_app. simpl. rewrite omap_app, rev_app_distr.
    assert (calm s o2 (own1 ++ F)) as Hc2.
    { eapply calm_perm; [|exact Hcalm]. rewrite (Permutation_app_comm own1 o2), app_assoc. done. }
    assert (∃ k res s', (k ≤ 2 * tsize t)%nat ∧ works_off k s (rev (omap dep_of [r])) res s' ∧
      (res = inl tt → ref_done s s' r t (own1 ++ F))) as (k2 & res2 & s2 & Hk2 & Hw2 & Hr2).
    { destruct Hset2 as [Hu|(key & m & pk & Hkey & Hcached & Hmid & Hpk)].
      - exists 0%nat, (inl tt), s. rewrite (omap_unmodified [r]) by (by constructor). split_and!; [lia|by intros fuel rest|].
        intros _. exists o2. split_and!; [done|apply agrees_refl|done|by left].
      - assert (r = RModified m pk) as ->.
        { destruct Hc2 as (_ & _ & Hq). destruct r; simplify_eq/=; [done|]. rewrite (Hq m) in Hcached. by destruct Hcached. }
        simplify_eq/=. by eapply IH. }
    destruct res2 as [[]|e].
    2: { exists k2, (inr e), s2. split_and!; [lia| |done]. intros fuel rest. rewrite <- app_assoc. apply Hw2. }
    destruct (Hr2 eq_refl) as (o2' & Hdr' & Hag2 & Hc2' & Hg2).
    destruct (IHrs s2 ts1 own1 (o2' ++ F)) as (k1 & res1 & s1 & Hk1 & Hw1 & Hr1); [done| | | |].
    { eapply dens_frame; [done|]. eapply agrees_sub; [done|set_solver]. }
    { eapply settleds_frame; [done| |done]. eapply agrees_sub; [done|set_solver]. }
    { eapply calm_perm; [|exact Hc2']. rewrite !app_assoc, (Permutation_app_comm o2' own1). done. }
    exists (k2 + k1)%nat, res1, s1. split_and!; [lia| |].
    + intros fuel rest. rewrite <- app_assoc, <- Nat.add_assoc, Hw2. apply Hw1.
    + intros Hres. destruct (Hr1 Hres) as (o1' & Hd1' & Hag1 & Hc1' & Hg1).
      assert (agrees s2 s1 o2') as Hag12 by (eapply agrees_sub; [done|set_solver]).
      exists (o1' ++ o2'). split_and!.
      * apply dens_app. exists ts1, [t], o1', o2'. split_and!; try done. rewrite <- (app_nil_r o2'). constructor; [|constructor].
        by eapply den_frame.
      * eapply agrees_trans; [eapply agrees_sub; [exact Hag2|set_solver]|eapply agrees_sub; [exact Hag1|set_solver]].
      * eapply calm_perm; [|exact Hc1']. by rewrite app_assoc.
      * apply Forall_app. split; [done|]. apply Forall_singleton. by eapply gone_frame.
Qed.

Lemma ready_turn s s1 m pk tag o tk owk F :
  prepare_write_back s m = Some (Ready, set_cache s1 (<[KInWriteback m := (tag, o)]> (delete (KModified m) (cache s1)))) →
  cache s1 !! KModified m = Some (tag, o) → Forall is_unmodified (kids o) → written_back s1 !! m = None →
  dens s1 (kids o) tk owk → calm s1 (RMid m :: owk) F →
  ∃ res s', works_off 1 s [(m, pk)] res s' ∧
    (res = inl tt → ∃ p, node_done s1 s' m (Nd (content (body o)) tk) F p).
Proof using Hcl Hel Hml Hzl Hcomp.
  intros Hp He Hu Hwr Hk Hc. destruct (node_written s1 m tag o tk owk F pk He Hu Hwr Hk Hc) as (w & s' & Hh & Hw).
  destruct w as [p|e].
  - exists (inl tt), s'. split; [|intros _; eauto]. intros fuel rest. simpl. rewrite Hp. cbn [mbind option_bind].
    rewrite Hh. by cbn [mbind option_bind].
  - eexists (inr e), _. split; [|done]. intros fuel rest. simpl. rewrite Hp. cbn [mbind option_bind].
    rewrite Hh. by cbn [mbind option_bind].
Qed.

Lemma node_ref_done s s1 s' m pk t F p : agrees s s1 F → node_done s1 s' m t F p → ref_done s s' (RModified m pk) t F.
Proof.
  intros Hag (own' & Hd & Hag' & Hc & H1 & H2 & _). exists own'. split_and!; [done|by eapply agrees_trans|done|].
  right. by exists m.
Qed.

(** A second turn for the same object, when its children are written *)
Lemma second_turn s m pk pk' t tag o ks tk F :
  cache s !! KModified m = Some (tag, o) → kids o = ks → written_back s !! m = None →
  refs_done s s ks tk (RMid m :: F) → t = Nd (content (body o)) tk →
  ∃ res s', works_off 1 s [(m, pk')] res s' ∧ (res = inl tt → ref_done s s' (RModified m pk) t F).
Proof using Hcl Hel Hml Hzl Hcomp.
  intros He <- Hwr (own & Hds & _ & Hc & Hg) ->. pose proof Hc as (Ha & _ & Hq).
  assert (den s (RModified m pk) (Nd (content (body o)) tk) (RMid m :: own)) as Hd.
  { by apply (modified_den s m pk tag o tk own). }
  assert (calm s (RMid m :: own) F) as Hc'.
  { eapply calm_perm; [|exact Hc]. symmetry. apply (Permutation_middle own F). }
  destruct (prepare_local s m pk _ (RMid m :: own) F tag o Hd He Hc') as (ks & tk2 & owk2 & s1 & Hp & Ht & He1 & Hwr1 & Hds1 & Hag1 & Hc1 & Hset & Hnil).
  specialize (Hnil Hg). rewrite Hnil in Hp. injection Ht as <-.
  destruct (ready_turn s s1 m pk' tag _ tk owk2 F Hp He1) as (res & s' & Hw & Hr); [|done..|].
  { by apply (omap_dep_nil s1). }
  exists res, s'. split; [done|]. intros Hres. destruct (Hr Hres) as [p Hnd]. by eapply node_ref_done.
Qed.

Lemma trees_written n : writes_trees n.
Proof using Hcl Hel Hml Hzl Hcomp.
  induction n as [|n IH]; intros s m pk pk' t own F Hsz Hd [[tag o] He] Hc; [destruct t; simpl in Hsz; lia|].
  destruct (prepare_local s m pk t own F tag o Hd He Hc) as (ks & tk & owk & s1 & Hp & -> & He1 & Hwr1 & Hds1 & Hag1 & Hc1 & Hset & _).
  destruct (omap dep_of ks) as [|d deps] eqn:Hdeps.
  - destruct (ready_turn s s1 m pk' tag _ tk owk F Hp He1) as (res & s' & Hw & Hr); [by apply (omap_dep_nil s1)|done..|].
    exists 1%nat, res, s'. split_and!; [simpl; lia|done|]. intros Hres. destruct (Hr Hres) as [p Hnd]. by eapply node_ref_done.
  - destruct (writes_children n IH s1 ks tk owk (RMid m :: F)) as (k & res & s2 & Hk & Hw & Hr); [|done..| |].
    { simpl in Hsz. clear -Hsz. induction tk as [|t tk IHt]; constructor; simpl in Hsz; [lia|apply IHt; lia]. }
    { eapply calm_perm; [|exact Hc1]. apply (Permutation_middle owk F). }
    rewrite Hdeps in Hw. assert (∀ fuel rest, loop (S (k + fuel)) s ((m, pk') :: rest) = loop (k + fuel) s1 (rev (d :: deps) ++ (m, pk') :: rest)) as Hstep.
    { intros fuel rest. cbn [write_dependencies]. rewrite Hp. by cbn [mbind option_bind]. }
    destruct res as [[]|e].
    2: { exists (S k), (inr e), s2. split_and!; [simpl; lia| |done]. intros fuel rest. etrans; [exact (Hstep fuel rest)|apply Hw]. }
    destruct (Hr eq_refl) as (own2 & Hds2 & Hag2 & Hc2 & Hg2).
    destruct (Hag2 (RMid m)) as (Hm1 & _ & Hm3); [set_solver|].
    destruct (second_turn s2 m pk pk' (Nd (content (body o)) tk) tag (mkObj (body o) ks) ks tk F) as (res & s' & Hw' & Hr');
      [by rewrite Hm1|done|by rewrite Hm3| |done|].
    { exists own2. split_and!; [done|apply agrees_refl|done|done]. }
    exists (S (k + 1)), res, s'. split_and!; [simpl; lia| |].
    + intros fuel rest. replace (S (k + 1) + fuel)%nat with (S (k + (1 + fuel))) by lia.
      etrans; [exact (Hstep (1 + fuel)%nat rest)|]. rewrite Hw. apply Hw'.
    + intros Hres. destruct (Hr' Hres) as (own' & Hd' & Hag' & Hc' & Hg'). exists own'. split_and!; try done.
      eapply agrees_trans; [done|]. eapply agrees_trans; [|done]. eapply agrees_sub; [exact Hag2|set_solver].
Qed.

(** ** [write_back] *)

Abbreviation wb := (write_back (P := P) (St := St) default_compression default_storage_class).

Definition tree_done (s : Dmu) (t : tree) (F : list res) (res : option ((ObjectPointer + ObjError) * Dmu * ObjRef)) : Prop :=
  ∃ w s' r', res = Some (w, s', r') ∧ ∀ p, w = inl p →
    ∃ own', den s' r' t own' ∧ agrees s s' F ∧ calm s' own' F ∧ persisted (store s') p t.

Lemma unmodified_done fuel s p pk t own F :
  den s (RUnmodified p pk) t own → calm s own F → tree_done s t F (wb (S fuel) s (RUnmodified p pk)).
Proof.
  intros Hd Hc. eexists _, _, _. split; [done|]. intros p' [= <-]. exists own.
  pose proof Hc as (Ha & _ & _). pose proof (a_nodup _ _ _ _ Ha) as Hnd. rewrite <- app_assoc in Hnd.
  split_and!; [done|apply agrees_refl|done|]. eapply den_persisted; [done|apply Ha|by apply NoDup_app in Hnd as [? _]].
Qed.

Lemma in_writeback_done fuel s m pk t own F :
  den s (RInWriteback m pk) t own → calm s own F → tree_done s t F (wb (S (S fuel)) s (RInWriteback m pk)).
Proof.
  intros Hd Hc. pose proof Hc as (Ha & Hh & Hq).
  assert (cache s !! KModified m = None) as Hmod.
  { inversion Hd as [? ? ? ? ? Hres]; subst. destruct Hres as (w & Hat & Hne & _). destruct w; [done|by destruct Hat as (? & ? & _)|by apply Hat]. }
  destruct (fix_in_writeback s [] [] m pk t own F Hd Ha (Hq m)) as (p & own' & Hf & -> & Hd' & Hag & Ha').
  assert (∀ n, wb (S n) s (RInWriteback m pk) = wb n (set_written_back s (delete m (written_back s))) (RUnmodified p pk)) as ->.
  { intros n. cbn [write_back]. unfold prepare_write_back. rewrite (Hq m), Hmod. cbn [mbind option_bind]. by rewrite Hf. }
  destruct (unmodified_done fuel _ p pk t own' F Hd') as (w & s' & r' & Hw & Hr).
  { split_and!; [done| |done]. intros o Ho. apply Hh. set_solver. }
  exists w, s', r'. split; [done|]. intros p' Hp'. destruct (Hr p' Hp') as (own2 & H1 & H2 & H3 & H4).
  exists own2. split_and!; try done. by eapply agrees_trans.
Qed.

Lemma ready_done fuel s s1 m pk tag o tk owk F :
  prepare_write_back s m = Some (Ready, set_cache s1 (<[KInWriteback m := (tag, o)]> (delete (KModified m) (cache s1)))) →
  cache s1 !! KModified m = Some (tag, o) → Forall is_unmodified (kids o) → written_back s1 !! m = None →
  dens s1 (kids o) tk owk → calm s1 (RMid m :: owk) F → agrees s s1 F →
  tree_done s (Nd (content (body o)) tk) F (wb (S fuel) s (RModified m pk)).
Proof using Hcl Hel Hml Hzl Hcomp.
  intros Hp He Hu Hwr Hk Hc Hag. destruct (node_written s1 m tag o tk owk F pk He Hu Hwr Hk Hc) as (w & s' & Hh & Hw).
  exists w, s', (RModified m pk). split.
  - cbn [write_back]. rewrite Hp. cbn [mbind option_bind]. rewrite Hh. by cbn [mbind option_bind].
  - intros p ->. destruct (Hw p eq_refl) as (own' & Hd' & Hag' & Hc' & _ & _ & Hper).
    exists own'. split_and!; [done|by eapply agrees_trans|done|done].
Qed.

Lemma tree_done_trans s s1 t F res : agrees s s1 F → tree_done s1 t F res → tree_done s t F res.
Proof.
  intros Hag (w & s' & r' & -> & Hr). exists w, s', r'. split; [done|]. intros p Hp.
  destruct (Hr p Hp) as (own' & H1 & H2 & H3 & H4). exists own'. split_and!; try done. by eapply agrees_trans.
Qed.

Lemma modified_done fuel s m pk t own F tag o :
  den s (RModified m pk) t own → calm s own F → cache s !! KModified m = Some (tag, o) → (2 * tsize t ≤ fuel)%nat →
  tree_done s t F (wb (S fuel) s (RModified m pk)).
Proof using Hcl Hel Hml Hzl Hcomp.
  intros Hd Hc He Hfuel.
  destruct (prepare_local s m pk t own F tag o Hd He Hc) as (ks & tk & owk & s1 & Hp & -> & He1 & Hwr1 & Hds1 & Hag1 & Hc1 & Hset & _).
  destruct (omap dep_of ks) as [|d deps] eqn:Hdeps.
  { eapply (ready_done fuel s s1 m pk tag (mkObj (body o) ks)); try done. by apply (omap_dep_nil s1). }
  destruct (writes_children (sum_list_with tsize tk) (trees_written _) s1 ks tk owk (RMid m :: F)) as (k & res & s2 & Hk & Hw & Hr); [|done..| |].
  { clear. assert (∀ n, (sum_list_with tsize tk ≤ n)%nat → Forall (λ t, tsize t ≤ n)%nat tk) as H'; [|by apply H'].
    intros n. induction tk as [|t tk IHt]; simpl; intros Hn; constructor; [lia|apply IHt; lia]. }
  { eapply calm_perm; [|exact Hc1]. apply (Permutation_middle owk F). }
  rewrite Hdeps in Hw. specialize (Hw (S fuel - k)%nat []). rewrite app_nil_r in Hw.
  simpl in Hfuel. replace (k + (S fuel - k))%nat with (S fuel) in Hw by lia.
  destruct res as [[]|e].
  2: { exists (inr e), s2, (RModified m pk). split; [|done]. cbn [write_back]. rewrite Hp. cbn [mbind option_bind].
       rewrite Hw. by cbn [mbind option_bind]. }
  destruct (Hr eq_refl) as (own2 & Hds2 & Hag2 & Hc2 & Hg2).
  destruct (Hag2 (RMid m)) as (Hm1 & _ & Hm3); [set_solver|].
  assert (wb (S fuel) s (RModified m pk) = wb fuel s2 (RModified m pk)) as ->.
  { cbn [write_back]. rewrite Hp. cbn [mbind option_bind]. rewrite Hw. destruct (S fuel - k)%nat; by cbn [mbind option_bind write_dependencies]. }
  assert (agrees s1 s2 F) as Hag12 by (eapply agrees_sub; [exact Hag2|set_solver]).
  apply (tree_done_trans s s2); [by eapply agrees_trans|].
  assert (calm s2 (RMid m :: own2) F) as Hc2'.
  { eapply calm_perm; [|exact Hc2]. symmetry. apply (Permutation_middle own2 F). }
  assert (den s2 (RModified m pk) (Nd (content (body o)) tk) (RMid m :: own2)) as Hd2.
  { apply (modified_den s2 m pk tag (mkObj (body o) ks)); [by rewrite Hm1|apply Hc2|by rewrite Hm3|done]. }
  destruct (prepare_local s2 m pk _ _ F tag (mkObj (body o) ks) Hd2) as (ks3 & tk3 & owk3 & s3 & Hp3 & Ht3 & He3 & Hwr3 & Hds3 & Hag3 & Hc3 & Hset3 & Hnil);
    [by rewrite Hm1|done|].
  specialize (Hnil Hg2). rewrite Hnil in Hp3. injection Ht3 as <-. destruct fuel as [|fuel]; [lia|].
  eapply (ready_done fuel s2 s3 m pk tag (mkObj (body o) ks3)); try done. by apply (omap_dep_nil s3).
Qed.

Lemma write_back_local fuel s r t own F :
  den s r t own → calm s own F → (2 * tsize t + 2 ≤ fuel)%nat → tree_done s t F (wb fuel s r).
Proof using Hcl Hel Hml Hzl Hcomp.
  intros Hd Hc Hfuel. destruct fuel as [|[|fuel]]; [lia..|]. pose proof Hc as (Ha & _ & Hq).
  destruct r as [p|p pk|m pk|m pk]; [by inversion Hd|exact (unmodified_done (S fuel) s p pk t own F Hd Hc)| |exact (in_writeback_done fuel s m pk t own F Hd Hc)].
  destruct (cache s !! KModified m) as [[tag o]|] eqn:He; [eapply modified_done; [done|done|done|lia]|].
  destruct fuel as [|fuel]; [destruct t; simpl in Hfuel; lia|].
  assert (∀ n, wb (S n) s (RModified m pk) = wb n s (RInWriteback m pk)) as ->.
  { intros n. cbn [write_back]. unfold prepare_write_back. rewrite (Hq m), He. by cbn [mbind option_bind fix_or]. }
  eapply in_writeback_done; [|done]. by apply fix_modified.
Qed.

End loop.

Section write_back.
Context `{Hck : !Checksum} `{Hec : !EmptyChecksum} `{Hm : !Memory} `{Hz : !Zstd}.
Context {P St : Type} `{Hobj : !Object P} `{Hst : !ObjectStore St}.
Context `{Hol : !ObjectLaws} `{Hsl : !ObjectStoreLaws}.
Context `{Hcl : !ChecksumLaws} `{Hel : !EmptyLaws} `{Hml : !MemoryLaws} `{Hzl : !ZstdLaws}.
Context (default_compression : CompressionConfiguration) (default_storage_class : Z).

Lemma write_back_whole (s : ObjDmu (P := P) (St := St)) rs ts i r t fuel :
  compresses default_compression → World s [] [] rs ts → quiet s → rs !! i = Some r → ts !! i = Some t →
  (2 * tsize t + 2 ≤ fuel)%nat →
  ∃ w s' r', write_back default_compression default_storage_class fuel s r = Some (w, s', r') ∧
    ∀ p, w = inl p → persisted (store s') p t ∧ World s' [] [] (<[i := r']> rs) ts ∧ quiet s'.
Proof using Hcl Hel Hml Hzl.
  intros Hcomp HW Hq Hi Ht Hfuel. pose proof HW as (own0 & Hds0 & Ha0).
  destruct (dens_at s rs ts own0 i r Hds0 Hi) as (t' & own & rest & Ht' & Hd & Hp & _ & Hw). simplify_eq.
  destruct (write_back_local default_compression default_storage_class Hcomp fuel s r t own rest Hd) as (w & s' & r' & Hwb & Hr); [|done|].
  { pose proof (world_held s [] [] own0 rs ts Hds0 Ha0) as Hh. rewrite app_nil_r in Hh.
    split_and!; [by eapply Aux_perm|intros o Ho; apply Hh; by rewrite Hp|done]. }
  exists w, s', r'. split; [done|]. intros p Hp'. destruct (Hr p Hp') as (own' & Hd' & Hag & (Ha & _ & Hq') & Hper).
  split; [done|]. split; [|done]. destruct (Hw s' r' t own' Hd' Hag) as (own2 & Hds2 & Hp2).
  exists own2. rewrite (list_insert_id ts i t Ht) in Hds2. split; [done|]. by eapply Aux_perm.
Qed.

(** C6: [write_back] ends, and what it returns is the tree on disk.  When no
    other write-back goes on, it neither panics nor waits; at most twice as
    many turns as the tree has nodes are needed.  If it succeeds, a unit that
    has nothing but the disk finds the whole tree from the returned pointer,
    whatever part of it was modified, written but not yet noticed by its
    parent, or clean; and every reference denotes what it did. *)
Theorem write_back_persists (s : ObjDmu (P := P) (St := St)) rs ts i r t fuel :
  compresses default_compression → World s [] [] rs ts → quiet s → rs !! i = Some r → ts !! i = Some t →
  (2 * tsize t + 2 ≤ fuel)%nat →
  ∃ w s' r', write_back default_compression default_storage_class fuel s r = Some (w, s', r') ∧
    ∀ p, w = inl p → persisted (store s') p t ∧ World s' [] [] (<[i := r']> rs) ts ∧ quiet s'.
Proof using Hcl Hel Hml Hzl. apply write_back_whole. Qed.

(** An object that stayed under [InWriteback]: every later write-back of it
    waits for ever. *)
Lemma write_back_waits (s : ObjDmu (P := P) (St := St)) r m fuel :
  ref_mid r = Some m → is_Some (cache s !! KInWriteback m) →
  write_back default_compression default_storage_class fuel s r = None.
Proof.
  intros Hr [e He]. destruct fuel as [|fuel]; [done|].
  assert (prepare_write_back s m = Some (Busy, s)) as Hp by (unfold prepare_write_back; by rewrite He).
  destruct r as [| |m' pk|m' pk]; simpl in Hr; try done; injection Hr as ->; cbn [write_back]; by rewrite Hp.
Qed.

End write_back.
