(* ===== verification/DmuExamples.v ===== *)
(** * The data management unit on small objects

    A store of numbered places and objects of one byte with their child
    pointers, which have the laws that the theorems of [DmuMachine.v] and
    [DmuPersist.v] suppose; runs of the machine, and runs in which the code
    loses data. *)

From Stdlib Require Import ZArith Lia Permutation.
From stdpp Require Import base option list numbers gmap.
From S2P Require Import Prelude.
From S2P Require Import Bytes.
From S2P Require Import StoragePref.
From S2P Require Import Checksum.
From S2P Require Import ChildBuffer.
From S2P Require Import Internal.
From S2P Require Import Disk.
From S2P Require Import DmuAlloc.
From S2P Require Import Buffer.
From S2P Require Import Compression.
From S2P Require Import Vdev.
From S2P Require Import DmuObjects.
From S2P Require Import DmuDenote.
From S2P Require Import DmuProtocol.
From S2P Require Import DmuWriteBack.
From S2P Require Import DmuMachine.
From S2P Require Import DmuPersist.
Import DiskOffset(DiskOffset).
Import PolyHash.

Module DmuExamples.

(** ** Parameters *)

#[local] Existing Instances CompressionExamples.zeroes CompressionExamples.zeroed_memory
  CompressionExamples.marking CompressionExamples.marking_laws.

#[local] Instance skip : EmptyChecksum := {| csum_empty := hash_empty |}.

#[local] Instance skip_laws : EmptyLaws.
Proof. constructor. intros d. apply hash_empty_verifies. Qed.

(** ** Places *)

Record Places := mkPlaces { contents : gmap Z bytes; next_place : Z; full : bool; broken : bool }.

#[local] Instance places_store : ObjectStore Places := {|
  os_generation _ := 3;
  os_allocate st _ _ :=
    if full st || (2 ^ 40 <=? next_place st) then Some (inr OutOfSpaceError, st)
    else Some (inl (DiskOffset.mk (next_place st)), mkPlaces (contents st) (next_place st + 1) (full st) (broken st));
  os_write st d o :=
    if broken st then Some (inr VIo, st)
    else Some (inl tt, mkPlaces (<[DiskOffset.raw o := d]> (contents st)) (next_place st) (full st) (broken st));
  os_read st _ o c :=
    Some (match contents st !! DiskOffset.raw o with
          | Some d => if csum_verify c d then inl d else inr VChecksum
          | None => inr VIo
          end, st);
  os_copy_on_write st o _ _ _ :=
    Some (mkPlaces (delete (DiskOffset.raw o) (contents st)) (next_place st) (full st) (broken st));
|}.

Lemma raw_inj o o' : DiskOffset.raw o = DiskOffset.raw o' → o = o'.
Proof. by destruct o, o'; simpl; intros ->. Qed.

#[local] Instance places_laws : ObjectStoreLaws (St := Places).
Proof.
  refine {|
    os_ok st := 0 ≤ next_place st ∧ ∀ k d, contents st !! k = Some d → k < next_place st;
    os_holds st o d := contents st !! DiskOffset.raw o = Some d;
    os_room st o n := DiskOffset.raw o < next_place st;
  |}.
  - intros st _. simpl. unfold U64_SIZE. lia.
  - intros st class n [H0 Hk] Hn. simpl. destruct (full st || (2 ^ 40 <=? next_place st)) eqn:E.
    + eexists _, _. split; [done|]. split; [done|]. split; [done|]. intros o [=].
    + apply orb_false_iff in E as [_ E%Z.leb_gt]. eexists _, _. split; [done|]. simpl. split_and!; try lia; [|done|].
      * intros k d Hd. specialize (Hk k d Hd). lia.
      * intros o [= <-]. simpl. split; [lia|]. split; [unfold U64_SIZE; lia|]. intros d Hd. specialize (Hk _ _ Hd). lia.
  - intros st d o n [H0 Hk] Hr Hd. simpl. destruct (broken st).
    + eexists _, _. split; [done|]. split; [done|]. split; [done|]. intros [=].
    + eexists _, _. split; [done|]. simpl. split_and!; try done.
      * intros k d' [[<- _]|[_ ?]]%lookup_insert_Some; [done|]. by eapply Hk.
      * intros o' d' Hne. rewrite lookup_insert_ne; [done|]. intros E. by apply Hne, raw_inj.
      * intros _. apply lookup_insert_eq.
  - intros st n o ck d Hok Hd Hlen Hv. cbn [os_read places_store]. rewrite Hd, Hv. by exists st.
  - intros st o n g i [H0 Hk]. simpl. eexists. split; [done|]. simpl. split_and!; [done| |].
    + intros k d [_ ?]%lookup_delete_Some. by eapply Hk.
    + intros o' d' Hne. rewrite lookup_delete_ne; [done|]. intros E. by apply Hne, raw_inj.
Defined.

(** ** Objects *)

Definition enc_tag (t : DecompressionTag) : byte := match t with TagNone => Byte.x00 | TagLz4 => Byte.x01 | TagZstd => Byte.x02 end.
Definition dec_tag (b : byte) : DecompressionTag := match b with Byte.x00 => TagNone | Byte.x01 => TagLz4 | _ => TagZstd end.

Definition enc_ptr (p : ObjectPointer) : bytes :=
  [enc_tag (ptr_tag p)] ++ csum_ser (ptr_checksum p) ++ le64 (DiskOffset.raw (ptr_offset p)) ++ le64 (ptr_size p) ++
  match ptr_integrity p with
  | External => [Byte.x00] ++ csum_ser csum_empty ++ le64 0
  | ChildBuffer.Internal c len => [Byte.x01] ++ csum_ser c ++ le64 len
  end ++ le64 (ptr_info p) ++ le64 (ptr_generation p).

(** The next [n] bytes *)
Definition field (n : nat) (b : bytes) : bytes * bytes := (take n b, drop n b).

Definition dec_ptr (b : bytes) : option (ObjectPointer * bytes) :=
  let '(t, b) := field 1 b in
  let '(c, b) := field 8 b in
  let '(o, b) := field 8 b in
  let '(n, b) := field 8 b in
  let '(k, b) := field 1 b in
  let '(mc, b) := field 8 b in
  let '(ml, b) := field 8 b in
  let '(i, b) := field 8 b in
  let '(g, b) := field 8 b in
  t ← head t; k ← head k; c ← csum_de c; mc ← csum_de mc;
  let mode := if Byte.eqb k Byte.x00 then External else ChildBuffer.Internal mc (of_le ml) in
  Some (mkPtr (dec_tag t) c (DiskOffset.mk (of_le o)) (of_le n) mode (of_le i) (of_le g), b).

Lemma field_app n b rest : length b = n → field n (b ++ rest) = (b, rest).
Proof. intros <-. unfold field. by rewrite take_app_length, drop_app_length. Qed.

Lemma length_ser (c : csum) : length (csum_ser c) = 8%nat.
Proof. pose proof (csum_ser_length c) as H. unfold blen, CSUM_SIZE in H. lia. Qed.

Lemma dec_tag_enc t : dec_tag (enc_tag t) = t.
Proof. by destruct t. Qed.

Lemma dec_enc_ptr p rest : ptr_ok p → dec_ptr (enc_ptr p ++ rest) = Some (p, rest).
Proof.
  intros (Ho & Hn & Hm & Hi & Hg). unfold enc_ptr, dec_ptr.
  assert (ptr_size p < U64_SIZE) by (unfold U32_SIZE, U64_SIZE in *; lia).
  destruct p as [t c [o] n mode i g].
  cbn [ptr_tag ptr_checksum ptr_offset ptr_size ptr_integrity ptr_info ptr_generation DiskOffset.raw] in *.
  destruct mode as [|mc len]; simpl in Hm; rewrite <- !app_assoc;
    repeat (rewrite field_app by (rewrite ?length_ser, ?length_le64; reflexivity); cbv beta iota);
    cbn [head]; cbn [mbind option_bind]; rewrite !csum_de_ser; cbn [mbind option_bind];
    rewrite dec_tag_enc, !of_le_le64 by (unfold info_ok, U32_SIZE, U64_SIZE in *; lia); reflexivity.
Qed.

Lemma length_enc_ptr p : length (enc_ptr p) = 58%nat.
Proof. unfold enc_ptr. destruct (ptr_integrity p); rewrite !length_app, ?length_ser, !length_le64; done. Qed.

Definition kid_bytes (r : ObjRef) : bytes :=
  match r with RUnmodified p _ => Byte.x01 :: enc_ptr p | _ => [] end.

Fixpoint dec_kids (fuel : nat) (b : bytes) : option (list ObjRef) :=
  match fuel, b with
  | S fuel, m :: b =>
      if Byte.eqb m Byte.x00 then Some []
      else '(p, b) ← dec_ptr b; rs ← dec_kids fuel b; Some (RUnmodified p (PkRoot 0) :: rs)
  | _, _ => None
  end.

Definition Letter : Type := byte * StoragePreference.

#[local] Instance letter : Object Letter := {|
  obj_size o := 2 + 59 * Z.of_nat (length (kids o));
  obj_preference o := (body o).2;
  obj_set_preference pref b := (b.1, pref);
  obj_pack o := Some (inl ([[(body o).1]; concat (kid_bytes <$> kids o); [Byte.x00]], External));
  obj_unpack _ d _ :=
    match d with
    | c :: d => rs ← dec_kids (length d) d; Some (inl (mkObj (c, Pref.NONE) rs))
    | [] => Some (inr tt)
    end;
|}.

Lemma length_kids rs : Forall is_unmodified rs → length (concat (kid_bytes <$> rs)) = (59 * length rs)%nat.
Proof.
  induction 1 as [|r rs Hr _ IH]; [done|]. destruct r as [|p pk| |]; try done.
  cbn [fmap list_fmap concat kid_bytes length]. rewrite length_app. cbn [length]. rewrite length_enc_ptr, IH. lia.
Qed.

Lemma dec_kids_ok rs rest fuel :
  Forall is_unmodified rs → (length rs < fuel)%nat →
  ∃ rs', dec_kids fuel (concat (kid_bytes <$> rs) ++ Byte.x00 :: rest) = Some rs' ∧ Forall2 same_ptr rs rs'.
Proof.
  intros Hu. revert fuel. induction Hu as [|r rs Hr _ IH]; intros fuel Hf; (destruct fuel as [|fuel]; [simpl in Hf; lia|]).
  - by exists [].
  - destruct r as [|p pk| |]; try done. destruct (IH fuel) as (rs' & Hd & Hs); [simpl in Hf; lia|].
    exists (RUnmodified p (PkRoot 0) :: rs'). split; [|by constructor].
    cbn [fmap list_fmap concat kid_bytes]. rewrite <- app_assoc. cbn [app dec_kids]. cbn [Byte.eqb].
    rewrite dec_enc_ptr by done. cbn [mbind option_bind]. by rewrite Hd.
Qed.

#[local] Instance letter_laws : ObjectLaws (P := Letter).
Proof.
  refine {| Content := byte; content b := b.1; obj_wf _ := True; obj_wf_dec _ := left I |}.
  - done.
  - done.
  - done.
  - done.
  - intros b ks ks' Hl. simpl. by rewrite Hl.
  - intros o _ Hu. eexists _, _. split; [done|]. split.
    { unfold blen. cbn [concat]. rewrite !length_app, length_kids by done. cbn [obj_size letter length]. lia. }
    split; [done|]. intros info rest _. cbn [obj_unpack letter]. cbn [concat]. rewrite app_nil_r, <- !app_assoc. cbn [app].
    destruct (dec_kids_ok (kids o) rest (length (concat (kid_bytes <$> kids o) ++ Byte.x00 :: rest))) as (rs' & -> & Hs); [done| |].
    { rewrite length_app, length_kids by done. simpl. lia. }
    cbn [mbind option_bind]. eexists. split; [done|]. split; [done|]. split; [done|]. split; [done|].
    simpl. by rewrite (Forall2_length _ _ _ Hs).
Defined.

(** ** A run *)

Definition fresh : Machine (P := Letter) (St := Places) := mkMachine (opened (mkPlaces ∅ 0 false false)) [] [] [].

Lemma fresh_represents : represents fresh [].
Proof.
  exists []. split; [constructor|]. split; simpl; try done; try (by intros; set_solver).
  all: first [constructor | intros; by rewrite lookup_empty in * | lia | intros ? [?|[?|?]]; set_solver].
Qed.

Lemma uncompressed : compresses CompNone.
Proof. by intros d _. Qed.

Abbreviation run0 := (run CompNone 0).

Definition pk_a : PivotKey := PkRight [Byte.x6b] 7.
Definition pk_b : PivotKey := PkRoot 7.
Definition a0 : ModifiedObjectId := mkMid 0 Pref.NONE.
Definition b1 : ModifiedObjectId := mkMid 1 Pref.NONE.

(** An object [b] with a child [a] *)
Definition plant : list (Action (P := Letter)) :=
  [Insert (Byte.x61, Pref.NONE) [] [] 7 pk_a; Insert (Byte.x62, Pref.NONE) [0%nat] [] 7 pk_b].

(** [a] is evicted, and taken again before its write is over; dropped, read,
    written and read again. *)
Definition day : list (Action (P := Letter)) :=
  plant ++
  [Evict [KModified b1; KModified a0]; Write 0; GetMut 0 [0%nat] 7; Done 0;
   WriteBack 0; WriteChild (mkMid 2 Pref.NONE) pk_a; Write 0; Done 0; DropCache (λ _, false);
   GetMut 0 [] 7; Edit 0 (Byte.x63, Pref.NONE) [] [0%nat]; Get 1 []; WriteBack 0; Write 0; Done 0; Get 0 []].

Definition letter_of (x : Action (P := Letter) * Seen (P := Letter)) : list byte :=
  match x.2 with Found o => [(body o).1] | _ => [] end.

Definition letters_seen (r : option (list (Action (P := Letter) * Seen (P := Letter)) * Machine (P := Letter) (St := Places))) :
    option (list byte) :=
  match r with Some (trace, _) => Some (concat (letter_of <$> trace)) | None => None end.

Example day_seen : letters_seen (run0 fresh day) = Some [Byte.x61; Byte.x62; Byte.x61; Byte.x63].
Proof. vm_compute. reflexivity. Qed.


(** ** Write-back of [b] and [a] *)

Definition planted : Machine (P := Letter) (St := Places) :=
  match run0 fresh plant with Some (_, M) => M | None => fresh end.

Definition leaf_a : tree (P := Letter) := Nd Byte.x61 [].
Definition tree_b : tree (P := Letter) := Nd Byte.x62 [leaf_a].

Definition forest_after (r : option (list (Action (P := Letter) * Seen (P := Letter)) * Machine (P := Letter) (St := Places))) :
    list (tree (P := Letter)) :=
  match r with Some (trace, _) => foldl (λ ts x, forest_step ts x.1) [] trace | None => [] end.

Lemma planted_represents : represents planted [tree_b].
Proof.
  assert (forest_after (run0 fresh plant) = [tree_b]) as He by reflexivity.
  destruct (run_correct CompNone 0 fresh [] plant uncompressed fresh_represents) as (trace & M & ts & Hrun & Hf & HW);
    [vm_compute; reflexivity|].
  unfold planted, forest_after in *. rewrite Hrun in *. apply forest_run_end in Hf. rewrite Hf, He in HW. exact HW.
Qed.

Lemma write_back_persists_witness :
  refs planted !! 0%nat = Some (RModified b1 pk_b) ∧
  ∃ w s' r', write_back CompNone 0 6 (dmu planted) (RModified b1 pk_b) = Some (w, s', r') ∧
    ∀ p, w = inl p → persisted (store s') p tree_b ∧ World s' [] [] (<[0%nat := r']> (refs planted)) [tree_b] ∧ quiet s'.
Proof.
  split; [reflexivity|].
  apply (write_back_persists CompNone 0 (dmu planted) (refs planted) [tree_b] 0).
  - exact uncompressed.
  - exact planted_represents.
  - apply quiet_check. vm_compute. reflexivity.
  - reflexivity.
  - reflexivity.
  - apply Nat.leb_le. reflexivity.
Defined.

(** The write-back succeeds. *)
Definition b_ptr : option (ObjectPointer * Places) :=
  match write_back CompNone 0 6 (dmu planted) (RModified b1 pk_b) with
  | Some (inl p, s, _) => Some (p, store s)
  | _ => None
  end.

Lemma some_check {A} (x : option A) : (if x then true else false) = true → is_Some x.
Proof. destruct x; [eauto|done]. Qed.

Lemma none_check {A} (x : option A) : (if x then false else true) = true → x = None.
Proof. by destruct x. Qed.

Example b_written : is_Some b_ptr.
Proof. apply some_check. vm_compute. reflexivity. Qed.

(** ** Storage hints *)

Definition opened_b : option (Machine (P := Letter) (St := Places)) :=
  '(p, st) ← b_ptr;
  Some (mkMachine (set_hints (opened st) [(PkRoot 0, Pref.FAST)]) [] [] [root_ref_from_obj_ptr p]).

Fixpoint steps (M : Machine (P := Letter) (St := Places)) (acts : list (Action (P := Letter))) : option (list byte) :=
  match acts with
  | [] => Some []
  | a :: acts =>
      '(x, M) ← step CompNone 0 M a;
      xs ← steps M acts;
      Some (match x with Found o => [(body o).1] | Failed => [Byte.x21] | Nothing => [] end ++ xs)
  end.


(** ** Writes that fail *)

Definition with_places (s : ObjDmu (P := Letter) (St := Places)) (full broken : bool) : ObjDmu :=
  set_store s (mkPlaces (contents (store s)) (next_place (store s)) full broken).

Definition after {A} (r : option (A * ObjDmu (P := Letter) (St := Places))) : ObjDmu :=
  match r with Some (_, s) => s | None => dmu fresh end.

Definition outcome {A B} (r : option (A * B)) : option A := match r with Some (x, _) => Some x | None => None end.

(** The disk is full when [a] is to be evicted, and has space again later. *)
Definition evict_full := dmu_evict CompNone 0 (with_places (dmu planted) true false) [KModified a0].
Definition stuck : ObjDmu := with_places (after evict_full) false false.


(** The device fails when [b] and [a] are written back, and works again later. *)
Definition write_broken := write_back CompNone 0 6 (with_places (dmu planted) false true) (RModified b1 pk_b).
Definition repaired : ObjDmu :=
  match write_broken with Some (_, s, _) => with_places s false false | None => dmu fresh end.

Definition error_of {A B C} (r : option ((A + ObjError) * B * C)) : option ObjError :=
  match r with Some (inr e, _, _) => Some e | _ => None end.

(** A write-back that fails in the device makes the next one panic.  The
    dataset of the object is taken from the unit's table before the write is
    begun and is not put back on an error, though the object is made [Modified]
    again to be written another time: the next write-back unwraps the missing
    entry, whatever the number of turns it may take. *)
Theorem failed_write_panics :
  error_of write_broken = Some (EVdev VIo) ∧
  is_Some (cache repaired !! KModified a0) ∧ is_Some (cache repaired !! KModified b1) ∧
  ∀ fuel, write_back CompNone 0 fuel repaired (RModified b1 pk_b) = None.
Proof.
  split; [vm_compute; reflexivity|]. do 2 (split; [apply some_check; vm_compute; reflexivity|]).
  intros fuel. destruct fuel as [|fuel]; [reflexivity|]. apply none_check. vm_compute. reflexivity.
Qed.

End DmuExamples.
