(* ===== verification/Migration.v ===== *)
(** * Migration policies

    [migration/mod.rs], [msg.rs] and [lfu.rs]: the messages that the data
    management unit and the object stores send to a policy, the policy that
    moves the least and the most frequently used objects or nodes between the
    storage classes, and one round of the loop that calls it.

    The caches that count how often a key is used come from the crate
    [lfu_cache]; they are a parameter ([LfuCache]) with what the crate
    documents of them.  The object stores of the database are [Object.v]'s;
    the trees whose nodes are moved are [Tree.v]'s.  How full a class is, is
    compared in floating-point numbers: the comparisons and the amount to move
    are arguments of the round.  Times and durations in the messages, which
    this policy does not read, the metrics that it writes to a file, and the
    policy that learns are not modelled. *)

From Stdlib Require Import ZArith Lia.
From stdpp Require Import base option list numbers gmap.
From S2P Require Import Prelude.
From S2P Require Import Bytes.
From S2P Require Import BTreeMap.
From S2P Require Import CowBytes.
From S2P Require Import StoragePref.
From S2P Require Import Message.
From S2P Require Import Checksum.
From S2P Require Import ChildBuffer.
From S2P Require Import Pivots.
From S2P Require Import Internal.
From S2P Require Import Node.
From S2P Require Import Tree.
From S2P Require Import Disk.
From S2P Require Import Dataset.
From S2P Require Import Meta.
From S2P Require Import Chunk.
From S2P Require Import Object.
From S2P Require Import RootKeys.
From S2P Require Import Allocator.
From S2P Require Import Handler.
Import DiskOffset(DiskOffset).

(** ** Messages *)

Record OpInfo := mkOpInfo { op_offset : DiskOffset; op_pivot_key : PivotKey; op_size : Z }.

Inductive DmlMsg := DmlFetch (i : OpInfo) | DmlWrite (i : OpInfo) | DmlRemove (i : OpInfo).

Record GlobalObjectId := mkGid { store_key : Z; gid_object : Z }.

#[global] Instance gid_eq_dec : EqDecision GlobalObjectId.
Proof. solve_decision. Defined.

#[global] Instance gid_countable : Countable GlobalObjectId.
Proof. refine (inj_countable' (λ g, (store_key g, gid_object g)) (λ p, mkGid p.1 p.2) _). by intros []. Defined.

#[global] Instance pk_countable : Countable PivotKey.
Proof.
  refine (inj_countable'
    (λ k, match k with PkLeftOuter p d => inl (p, d) | PkRight p d => inr (inl (p, d)) | PkRoot d => inr (inr d) end)
    (λ x, match x with inl (p, d) => PkLeftOuter p d | inr (inl (p, d)) => PkRight p d | inr (inr d) => PkRoot d end) _).
  by intros [].
Defined.

Inductive DatabaseMsg :=
  | DatasetOpen (d : Z) | DatasetClose (d : Z)
  | ObjectstoreOpen (id : Z) | ObjectstoreClose (id : Z)
  | ObjectOpen (key : GlobalObjectId) (info : ObjectInfo) (name : bytes)
  | ObjectClose (key : GlobalObjectId) (info : ObjectInfo)
  | ObjectRead (key : GlobalObjectId)
  | ObjectWrite (key : GlobalObjectId) (size : Z) (pref : StoragePreference)
  | ObjectMigrate (key : GlobalObjectId) (pref : StoragePreference)
  | ObjectDiscover (key : GlobalObjectId) (info : ObjectInfo) (name : bytes).

(** ** The counting caches *)

(** An unbounded cache of the crate [lfu_cache] *)
Class LfuCache (K V : Type) := {
  lfu : Type;
  lfu_unbounded : lfu;
  lfu_get : K → lfu → lfu;
  lfu_contains : K → lfu → bool;
  lfu_entry : K → V → lfu → lfu;                    (* [*c.entry(k).or_insert(v) = v] *)
  lfu_remove : K → lfu → option (V * Z) * lfu;      (* [remove_with_frequency] *)
  lfu_insert : K → V → Z → lfu → lfu;               (* [insert_with_frequency] *)
  peek_mfu : lfu → option (K * V * Z);
  peek_lfu : lfu → option (K * V * Z);
  pop_mfu : lfu → option (K * V * Z * lfu);
  pop_lfu : lfu → option (K * V * Z * lfu);
}.

Class LfuCacheLaws (K V : Type) `{Countable K} `{!LfuCache K V} := {
  lfu_map : lfu → gmap K (V * Z);
  lfu_unbounded_map : lfu_map lfu_unbounded = ∅;
  lfu_get_map k c : fst <$> lfu_map (lfu_get k c) = fst <$> lfu_map c;
  lfu_contains_map k c : lfu_contains k c = bool_decide (is_Some (lfu_map c !! k));
  lfu_entry_map k v c : fst <$> lfu_map (lfu_entry k v c) = <[k := v]> (fst <$> lfu_map c);
  lfu_remove_map k c : (lfu_remove k c).1 = lfu_map c !! k ∧ lfu_map (lfu_remove k c).2 = delete k (lfu_map c);
  lfu_insert_map k v f c : lfu_map (lfu_insert k v f c) = <[k := (v, f)]> (lfu_map c);
  peek_mfu_some c k v f :
    peek_mfu c = Some (k, v, f) → lfu_map c !! k = Some (v, f) ∧ ∀ k' v' f', lfu_map c !! k' = Some (v', f') → f' ≤ f;
  peek_mfu_none c : peek_mfu c = None ↔ lfu_map c = ∅;
  peek_lfu_some c k v f :
    peek_lfu c = Some (k, v, f) → lfu_map c !! k = Some (v, f) ∧ ∀ k' v' f', lfu_map c !! k' = Some (v', f') → f ≤ f';
  peek_lfu_none c : peek_lfu c = None ↔ lfu_map c = ∅;
  pop_mfu_map c :
    match peek_mfu c with
    | Some (k, v, f) => ∃ c', pop_mfu c = Some (k, v, f, c') ∧ lfu_map c' = delete k (lfu_map c)
    | None => pop_mfu c = None
    end;
  pop_lfu_map c :
    match peek_lfu c with
    | Some (k, v, f) => ∃ c', pop_lfu c = Some (k, v, f, c') ∧ lfu_map c' = delete k (lfu_map c)
    | None => pop_lfu c = None
    end;
}.

(** ** The policy *)

Definition NUM_STORAGE_CLASSES : nat := 4.

Inductive LfuMode := ModeObject | ModeNode | ModeBoth.

Record LfuConfig := mkLfuConfig { promote_num : Z; promote_size : Z; mode : LfuMode }.

Definition lfu_config_default : LfuConfig := mkLfuConfig (U32_SIZE - 1) 1024 ModeObject.

Inductive MigrationError := MigrationFailed | MigrationDb (e : DbError).

Section policy.
Context `{!LfuCache PivotKey Z} `{!LfuCache GlobalObjectId (bytes * Z)} `{Speedy}.
Context `{Checksum} `{MessageAction}.

Record Lfu := mkLfu {
  nodes : list (lfu (K := PivotKey) (V := Z));
  objects : list (lfu (K := GlobalObjectId) (V := bytes * Z));
  object_stores : gmap Z bool;   (* [Some] store or [None] *)
  config : LfuConfig;
  lfu_default_class : StoragePreference;
}.

Definition set_nodes (l : Lfu) ns : Lfu := mkLfu ns (objects l) (object_stores l) (config l) (lfu_default_class l).
Definition set_objects (l : Lfu) os : Lfu := mkLfu (nodes l) os (object_stores l) (config l) (lfu_default_class l).
Definition set_stores (l : Lfu) st : Lfu := mkLfu (nodes l) (objects l) st (config l) (lfu_default_class l).

Definition lfu_build (config : LfuConfig) (default_storage_class : StoragePreference) : Lfu :=
  mkLfu (replicate NUM_STORAGE_CLASSES lfu_unbounded) (replicate NUM_STORAGE_CLASSES lfu_unbounded) ∅ config
    default_storage_class.

(** *** Messages of the data management unit *)

(** The loop over the other classes: where the node was found, it goes to the
    new class with its frequency. *)
Fixpoint move_node (tiers : list nat) (class : nat) (i : OpInfo) (ns : list (lfu (K := PivotKey) (V := Z))) :
    option (list (lfu (K := PivotKey) (V := Z))) :=
  match tiers with
  | [] => Some ns
  | t :: tiers =>
      if (t =? class)%nat then move_node tiers class i ns
      else
        c ← ns !! t;
        let '(r, c) := lfu_remove (op_pivot_key i) c in
        let ns := <[t := c]> ns in
        ns ← match r with
             | Some (_, freq) => d ← ns !! class; Some (<[class := lfu_insert (op_pivot_key i) (op_size i) freq d]> ns)
             | None => Some ns
             end;
        move_node tiers class i ns
  end.

Definition op_class (i : OpInfo) : nat := Z.to_nat (DiskOffset.storage_class (op_offset i)).

Definition enter_node (i : OpInfo) (ns : list (lfu (K := PivotKey) (V := Z))) : option (list (lfu (K := PivotKey) (V := Z))) :=
  c ← ns !! op_class i; Some (<[op_class i := lfu_entry (op_pivot_key i) (op_size i) c]> ns).

Definition dml_msg (l : Lfu) (m : DmlMsg) : option Lfu :=
  match m with
  | DmlWrite i =>
      ns ← move_node (seq 0 NUM_STORAGE_CLASSES) (op_class i) i (nodes l);
      ns ← enter_node i ns; Some (set_nodes l ns)
  | DmlFetch i => ns ← enter_node i (nodes l); Some (set_nodes l ns)
  | DmlRemove i =>
      c ← nodes l !! op_class i;
      Some (set_nodes l (<[op_class i := (lfu_remove (op_pivot_key i) c).2]> (nodes l)))
  end.

(** [update_dml] *)
Definition update_dml (l : Lfu) (ms : list DmlMsg) : option Lfu := foldl (λ l m, l ← l; dml_msg l m) (Some l) ms.

(** *** Messages of the database *)

Definition class_of (l : Lfu) (pref : StoragePreference) : nat :=
  Z.to_nat (default (Pref.as_u8 (lfu_default_class l)) (Pref.preferred_class pref)).

Fixpoint move_object (tiers : list nat) (class : nat) (key : GlobalObjectId) (os : list (lfu (K := GlobalObjectId) (V := bytes * Z))) :
    option (list (lfu (K := GlobalObjectId) (V := bytes * Z))) :=
  match tiers with
  | [] => Some os
  | t :: tiers =>
      c ← os !! t;
      let '(r, c) := lfu_remove key c in
      let os := <[t := c]> os in
      os ← match r with
           | Some (name, freq) => d ← os !! class; Some (<[class := lfu_insert key name freq d]> os)
           | None => Some os
           end;
      move_object tiers class key os
  end.

Definition db_msg (l : Lfu) (m : DatabaseMsg) : option Lfu :=
  match m with
  | DatasetOpen _ | DatasetClose _ | ObjectClose _ _ => Some l
  | ObjectstoreOpen id => Some (set_stores l (<[id := true]> (object_stores l)))
  | ObjectstoreClose id => Some (set_stores l (<[id := false]> (object_stores l)))
  | ObjectOpen key info name | ObjectDiscover key info name =>
      let l := match object_stores l !! store_key key with
               | Some _ => l
               | None => set_stores l (<[store_key key := false]> (object_stores l))
               end in
      let class := class_of l (oi_pref info) in
      c ← objects l !! class;
      if lfu_contains key c then Some l
      else n ← Block.from_bytes (oi_size info); Some (set_objects l (<[class := lfu_entry key (name, n) c]> (objects l)))
  | ObjectRead key | ObjectWrite key _ _ => Some (set_objects l (lfu_get key <$> objects l))
  | ObjectMigrate key pref =>
      os ← move_object (seq 0 NUM_STORAGE_CLASSES) (class_of l pref) key (objects l);
      Some (set_objects l os)
  end.

(** [update_db], [update] *)
Definition update_db (l : Lfu) (ms : list DatabaseMsg) : option Lfu := foldl (λ l m, l ← l; db_msg l m) (Some l) ms.

Definition lfu_update (l : Lfu) (dml : list DmlMsg) (db : list DatabaseMsg) : option Lfu :=
  l ← update_dml l dml; update_db l db.

(** *** Objects *)

Variable disk_count : Z → Z.
Variable free_space_tier : StoragePreference → option Z.

(** The object stores of the database by their identifiers *)
Abbreviation Stores := (gmap Z ObjectStore).

(** [migrate_object_from_to]; [locked]: [try_write] of the database fails. *)
Definition migrate_object_from_to (l : Lfu) (locked : bool) (db : Stores) (id : GlobalObjectId) (name : bytes)
    (to : StoragePreference) : option ((Z * Stores) + MigrationError) :=
  let active := match object_stores l !! store_key id with Some true => true | _ => false end in
  if negb active && locked then Some (inr MigrationFailed)
  else
    match db !! store_key id with
    | None => Some (inr (MigrationDb DoesNotExist))
    | Some s =>
        o ← open_object_with_pref s name (default_storage_preference s);
        match o with
        | inr e => Some (inr (MigrationDb e))
        | inl None => Some (inr MigrationFailed)
        | inl (Some (obj, _)) =>
            i ← info s obj;
            i ← i;
            m ← migrate disk_count free_space_tier s obj to;
            match m with
            | inr e => Some (inr (MigrationDb e))
            | inl (_, s) => n ← Block.from_bytes (oi_size i); Some (inl (n, <[store_key id := s]> db))
            end
        end
    end.

(** How a loop ends, or [Running] when its fuel is used up *)
Inductive Ended := Finished (moved : Z) | Broken (e : MigrationError) | Running (moved : Z).

(** An object that was migrated goes from class [t] to class [target]. *)
Definition hand_over (pop : lfu → option (GlobalObjectId * (bytes * Z) * Z * lfu)) (l : Lfu) (t target : nat) : option Lfu :=
  c ← objects l !! t;
  '(key, val, freq, c) ← pop c;
  let os := <[t := c]> (objects l) in
  d ← os !! target;
  Some (set_objects l (<[target := lfu_insert key val freq d]> os)).

(** The loop of [promote] over objects; [locked] by the remaining fuel *)
Fixpoint promote_objects (fuel : nat) (locked : nat → bool) (tier target : nat) (tight_space : bool) (desired moved : Z)
    (l : Lfu) (db : Stores) : option (Ended * Lfu * Stores) :=
  match fuel with
  | O => Some (Running moved, l, db)
  | S fuel =>
      c ← objects l !! tier;
      match peek_mfu c with
      | None => Some (Finished moved, l, db)
      | Some (object_id, (name, _), freq) =>
          up ← objects l !! target;
          let up_freq := match peek_lfu up with Some (_, _, f) => f | None => 0 end in
          if (up_freq <? freq) || negb tight_space then
            r ← migrate_object_from_to l (locked fuel) db object_id name (Z.of_nat target);
            match r with
            | inr e => Some (Broken e, l, db)
            | inl (n, db) =>
                moved ← u64_add moved n;
                l ← hand_over pop_mfu l tier target;
                if desired <=? moved then Some (Finished moved, l, db)
                else promote_objects fuel locked tier target tight_space desired moved l db
            end
          else promote_objects fuel locked tier target tight_space desired moved l db
      end
  end.

(** The loop of [demote] over objects *)
Fixpoint demote_objects (fuel : nat) (locked : nat → bool) (tier target : nat) (desired moved : Z)
    (l : Lfu) (db : Stores) : option (Ended * Lfu * Stores) :=
  match fuel with
  | O => Some (Running moved, l, db)
  | S fuel =>
      c ← objects l !! tier;
      match peek_lfu c with
      | None => Some (Finished moved, l, db)
      | Some (object_id, (name, _), _) =>
          r ← migrate_object_from_to l (locked fuel) db object_id name (Z.of_nat target);
          match r with
          | inr e => Some (Broken e, l, db)
          | inl (n, db) =>
              moved ← u64_add moved n;
              l ← hand_over pop_lfu l tier target;
              if desired <=? moved then Some (Finished moved, l, db)
              else demote_objects fuel locked tier target desired moved l db
          end
      end
  end.

(** *** Nodes *)

Abbreviation Hints := (gmap PivotKey StoragePreference).

(** The loop of [promote] over nodes: hints for the unit *)
Fixpoint promote_nodes (fuel : nat) (tier target : nat) (tight_space : bool) (desired moved : Z) (l : Lfu) (hints : Hints) :
    option (Ended * Hints) :=
  match fuel with
  | O => Some (Running moved, hints)
  | S fuel =>
      c ← nodes l !! tier;
      match peek_mfu c with
      | None => Some (Finished moved, hints)
      | Some (key, lower_size, freq) =>
          up ← nodes l !! target;
          let up_freq := match peek_lfu up with Some (_, _, f) => f | None => 0 end in
          if (up_freq <? freq) || negb tight_space then
            let hints := <[key := Z.of_nat target]> hints in
            moved ← u64_add moved lower_size;
            if desired <=? moved then Some (Finished moved, hints)
            else promote_nodes fuel tier target tight_space desired moved l hints
          else Some (Finished moved, hints)
      end
  end.

(** [Tree::get_mut_node_pivot] *)
Fixpoint get_mut_node_pivot (fuel : nat) (s : Store) (o : oid) (pk : PivotKey) : option (option oid * Store) :=
  match fuel with
  | O => None
  | S fuel =>
      nd ← objs s !! o;
      r ← node_pivot_get_mut nd pk;
      match r with
      | Some (PivotTarget (Some np)) => s ← dml_get_mut s np; Some (Some (or_id np), s)
      | Some (PivotTarget None) => Some (Some o, s)
      | Some (PivotNextNode np) => s ← dml_get_mut s np; get_mut_node_pivot fuel s (or_id np) pk
      | None => Some (None, s)
      end
  end.

Abbreviation Trees := (gmap Z (Tree * Store)).

(** The node of [key] gets the preference of the class it is moved to; the
    tree is at most [fuel] levels high. *)
Definition demote_node (fuel : nat) (ts : Trees) (key : PivotKey) (target : StoragePreference) : option Trees :=
  '(t, s) ← ts !! pk_d_id key;
  s ← dml_get_mut s (root_node t);
  '(o, s) ← get_mut_node_pivot fuel s (or_id (root_node t)) key;
  o ← o;
  nd ← objs s !! o;
  nd ← node_set_system_storage_preference nd target;
  Some (<[pk_d_id key := (t, put s o nd)]> ts).

(** The loop of [demote] over nodes *)
Fixpoint demote_nodes (fuel : nat) (height : nat) (tier target : nat) (desired moved : Z) (l : Lfu) (ts : Trees) :
    option (Ended * Lfu * Trees) :=
  match fuel with
  | O => Some (Running moved, l, ts)
  | S fuel =>
      if moved <? desired then
        c ← nodes l !! tier;
        match pop_lfu c with
        | None => Some (Finished moved, l, ts)
        | Some (key, entry, freq, c) =>
            ts ← demote_node height ts key (Z.of_nat target);
            let ns := <[tier := c]> (nodes l) in
            d ← ns !! target;
            let l := set_nodes l (<[target := lfu_insert key entry freq d]> ns) in
            moved ← u64_add moved entry;
            demote_nodes fuel height tier target desired moved l ts
        end
      else Some (Finished moved, l, ts)
  end.

(** *** [promote] and [demote] *)

Record MWorld := mkMWorld { w_lfu : Lfu; w_db : Stores; w_hints : Hints; w_trees : Trees }.

(** The class above is one number lower; [from_u8] panics where there is
    none. *)
Definition promote (fuel : nat) (locked : nat → bool) (tier : nat) (tight_space : bool) (w : MWorld) :
    option (Ended * MWorld) :=
  let desired := promote_size (config (w_lfu w)) in
  target ← usub (Z.of_nat tier) 1;
  target ← Pref.from_u8 target;
  match mode (config (w_lfu w)) with
  | ModeObject =>
      '(e, l, db) ← promote_objects fuel locked tier (Z.to_nat target) tight_space desired 0 (w_lfu w) (w_db w);
      Some (e, mkMWorld l db (w_hints w) (w_trees w))
  | ModeNode =>
      '(e, hints) ← promote_nodes fuel tier (Z.to_nat target) tight_space desired 0 (w_lfu w) (w_hints w);
      Some (e, mkMWorld (w_lfu w) (w_db w) hints (w_trees w))
  | ModeBoth => None
  end.

Definition demote (fuel height : nat) (locked : nat → bool) (tier : nat) (desired : Z) (w : MWorld) : option (Ended * MWorld) :=
  match mode (config (w_lfu w)) with
  | ModeObject =>
      target ← Pref.from_u8 (Z.of_nat tier + 1);
      '(e, l, db) ← demote_objects fuel locked tier (Z.to_nat target) desired 0 (w_lfu w) (w_db w);
      Some (e, mkMWorld l db (w_hints w) (w_trees w))
  | ModeNode =>
      target ← Pref.from_u8 (Z.of_nat tier + 1);
      '(e, l, ts) ← demote_nodes fuel height tier (Z.to_nat target) desired 0 (w_lfu w) (w_trees w);
      Some (e, mkMWorld l (w_db w) (w_hints w) ts)
  | ModeBoth => None
  end.

(** *** The loop of the thread *)

(** How full the classes are: [percent_full() >= threshold], [>] and [<], and
    the blocks to remove, whose subtraction may panic *)
Record Fullness := mkFullness {
  is_tight : nat → StorageInfo → bool;
  is_over : nat → StorageInfo → bool;
  is_under : nat → StorageInfo → bool;
  to_remove : nat → StorageInfo → option Z;
}.

(** Neighbouring classes ([tuple_windows]) *)
Definition windows (infos : list (nat * StorageInfo)) : list ((nat * StorageInfo) * (nat * StorageInfo)) :=
  zip infos (tail infos).

(** The calls one after the other, until one fails or does not end *)
Fixpoint in_turn (calls : list (MWorld → option (Ended * MWorld))) (w : MWorld) : option (Ended * MWorld) :=
  match calls with
  | [] => Some (Finished 0, w)
  | f :: calls =>
      '(e, w) ← f w;
      match e with Finished _ => in_turn calls w | Broken _ | Running _ => Some (e, w) end
  end.

(** One turn of [thread_loop] after the messages were consumed; [before] and
    [after] are the spaces that the handler reports in the two halves. *)
Definition migration_round (fuel height : nat) (locked : nat → bool) (full : Fullness)
    (before after : list (nat * StorageInfo)) (dml : list DmlMsg) (db : list DatabaseMsg) (w : MWorld) :
    option (Ended * MWorld) :=
  l ← lfu_update (w_lfu w) dml db;
  let w := mkMWorld l (w_db w) (w_hints w) (w_trees w) in
  '(e, w) ← in_turn
    ((λ p, promote fuel locked p.2.1 (is_tight full p.1.1 p.1.2)) <$>
      filter (λ p, info_total p.2.2 ≠ 0) (windows before)) w;
  match e with
  | Finished _ =>
      in_turn
        ((λ p w, desired ← to_remove full p.1.1 p.1.2; demote fuel height locked p.1.1 desired w) <$>
          filter (λ p, is_over full p.1.1 p.1.2 && is_under full p.2.1 p.2.2 = true) (windows after)) w
  | Broken _ | Running _ => Some (e, w)
  end.

End policy.

(** ** What the policy keeps *)

Section keeps.
Context `{!LfuCache PivotKey Z} `{!LfuCache GlobalObjectId (bytes * Z)} `{Speedy}.
Context `{Checksum} `{MessageAction}.
Context (disk_count : Z → Z) (free_space_tier : StoragePreference → option Z).
Abbreviation Stores := (gmap Z ObjectStore).

(** The same stores with the same data; the meta data may differ. *)
Definition same_data (db db' : Stores) : Prop := os_data <$> db' = os_data <$> db.

Lemma update_object_info_data s key m s' : update_object_info s key m = Some (inl s') → os_data s' = os_data s.
Proof.
  unfold update_object_info, meta_insert_msg. intros Hu. apply bind_Some in Hu as (msg & _ & Hu).
  apply bind_Some in Hu as ([d|e] & _ & Hu); [|done]. by injection Hu as <-.
Qed.

Lemma migrate_once_data s o pref s' :
  migrate_once disk_count free_space_tier s o pref = Some (inl s') → os_data s' = os_data s.
Proof.
  unfold migrate_once. intros Hm. apply bind_Some in Hm as (i & _ & Hm). cbv zeta in Hm.
  destruct (match i with Some _ => _ | None => _ end); [done|]. unfold obj_migrate_range in Hm. cbv zeta in Hm.
  destruct (ds_migrate_range _ _ _ _); [|done]. by eapply update_object_info_data.
Qed.

Lemma migrate_object_data (l : Lfu) locked db id name to n db' :
  migrate_object_from_to disk_count free_space_tier l locked db id name to = Some (inl (n, db')) → same_data db db'.
Proof.
  unfold migrate_object_from_to, same_data. destruct (negb _ && locked); [done|].
  destruct (db !! store_key id) as [s|] eqn:Hs; [|done]. intros Hm.
  apply bind_Some in Hm as ([[[obj oi]|]|] & _ & Hm); try done.
  apply bind_Some in Hm as (i & _ & Hm). apply bind_Some in Hm as (i' & _ & Hm).
  apply bind_Some in Hm as ([[o2 s2]|] & Hmig & Hm); [|done]. apply bind_Some in Hm as (n2 & _ & [= _ <-]).
  unfold migrate in Hmig. apply bind_Some in Hmig as ([s3|] & Ho & [= _ <-]).
  rewrite fmap_insert, (migrate_once_data _ _ _ _ Ho). apply insert_id. by rewrite lookup_fmap, Hs.
Qed.

Lemma promote_objects_data fuel locked tier target tight desired : ∀ moved l db e l' db',
  promote_objects disk_count free_space_tier fuel locked tier target tight desired moved l db = Some (e, l', db') →
  same_data db db'.
Proof.
  induction fuel as [|fuel IH]; intros moved l db e l' db' Hp; cbn [promote_objects] in Hp; [by simplify_eq|].
  apply bind_Some in Hp as (c & _ & Hp). destruct (peek_mfu c) as [[[id [name ?]] freq]|]; [|by simplify_eq].
  apply bind_Some in Hp as (up & _ & Hp). destruct (_ || _); [|by eapply IH].
  apply bind_Some in Hp as ([[n db1]|err] & Hm & Hp); [|by simplify_eq]. apply migrate_object_data in Hm.
  apply bind_Some in Hp as (m2 & _ & Hp). apply bind_Some in Hp as (l2 & _ & Hp).
  destruct (desired <=? m2); [by simplify_eq|]. apply IH in Hp. unfold same_data in *. congruence.
Qed.

Lemma demote_objects_data fuel locked tier target desired : ∀ moved l db e l' db',
  demote_objects disk_count free_space_tier fuel locked tier target desired moved l db = Some (e, l', db') →
  same_data db db'.
Proof.
  induction fuel as [|fuel IH]; intros moved l db e l' db' Hp; cbn [demote_objects] in Hp; [by simplify_eq|].
  apply bind_Some in Hp as (c & _ & Hp). destruct (peek_lfu c) as [[[id [name ?]] freq]|]; [|by simplify_eq].
  apply bind_Some in Hp as ([[n db1]|err] & Hm & Hp); [|by simplify_eq]. apply migrate_object_data in Hm.
  apply bind_Some in Hp as (m2 & _ & Hp). apply bind_Some in Hp as (l2 & _ & Hp).
  destruct (desired <=? m2); [by simplify_eq|]. apply IH in Hp. unfold same_data in *. congruence.
Qed.

Lemma promote_data fuel locked tier tight w e w' :
  promote disk_count free_space_tier fuel locked tier tight w = Some (e, w') → same_data (w_db w) (w_db w').
Proof.
  unfold promote. intros Hp. apply bind_Some in Hp as (t & _ & Hp). apply bind_Some in Hp as (t' & _ & Hp).
  destruct (mode _); [| |done]; apply bind_Some in Hp as (r & Hr & Hp).
  - destruct r as [[e1 l1] db1]. simplify_eq/=. by eapply promote_objects_data.
  - destruct r as [e1 h1]. by simplify_eq/=.
Qed.

Lemma demote_data fuel height locked tier desired w e w' :
  demote disk_count free_space_tier fuel height locked tier desired w = Some (e, w') → same_data (w_db w) (w_db w').
Proof.
  unfold demote. intros Hp. destruct (mode _); [| |done]; apply bind_Some in Hp as (t & _ & Hp);
    apply bind_Some in Hp as ([[e1 l1] x1] & Hr & Hp); simplify_eq/=; [by eapply demote_objects_data|done].
Qed.

Lemma in_turn_data (calls : list (MWorld → option (Ended * MWorld))) :
  (∀ f, f ∈ calls → ∀ w e w', f w = Some (e, w') → same_data (w_db w) (w_db w')) →
  ∀ w e w', in_turn calls w = Some (e, w') → same_data (w_db w) (w_db w').
Proof.
  induction calls as [|f calls IH]; intros Hf w e w' Ht; cbn [in_turn] in Ht; [by simplify_eq|].
  apply bind_Some in Ht as ([e1 w1] & Hone & Ht). apply Hf in Hone; [|by left].
  destruct e1; simplify_eq; try done. unfold same_data in *. rewrite <- Hone. eapply IH; [|done]. intros g Hg. apply Hf. by right.
Qed.

(** Migration does not touch the data.  Whatever messages arrived, however
    full the classes are, whichever objects and nodes are moved, and however
    the round ends, every object store has the data that it had. *)
Theorem migration_keeps_data fuel height locked full before after dml db w e w' :
  migration_round disk_count free_space_tier fuel height locked full before after dml db w = Some (e, w') →
  same_data (w_db w) (w_db w').
Proof.
  unfold migration_round. intros Hr. apply bind_Some in Hr as (l & _ & Hr). cbv zeta in Hr.
  apply bind_Some in Hr as ([e1 w1] & Hone & Hr).
  apply in_turn_data in Hone; [|intros f (p & -> & _)%list_elem_of_fmap ? ? ?; apply promote_data].
  cbn [w_db] in Hone. destruct e1; simplify_eq; try done.
  apply in_turn_data in Hr; [unfold same_data in *; congruence|].
  intros f (p & -> & _)%list_elem_of_fmap w2 e2 w3 Hd. apply bind_Some in Hd as (d & _ & Hd). by eapply demote_data.
Qed.

(** [promote] of objects does not end when space is tight and no object of
    the class is used more often than the least used one above: nothing is
    moved, and the loop looks at the same object again and again. *)
Theorem promote_spins fuel locked (tier : nat) (w : MWorld) c up id name n freq k v f :
  (0 < tier <= 3)%nat → mode (config (w_lfu w)) = ModeObject →
  objects (w_lfu w) !! tier = Some c → objects (w_lfu w) !! (tier - 1)%nat = Some up →
  peek_mfu c = Some (id, (name, n), freq) → peek_lfu up = Some (k, v, f) → freq ≤ f →
  promote disk_count free_space_tier fuel locked tier true w = Some (Running 0, w).
Proof.
  intros Ht Hm Hc Hup Hp Hu Hf. unfold promote. rewrite usub_Some by lia. cbn [mbind option_bind].
  assert (Pref.from_u8 (Z.of_nat tier - 1) = Some (Z.of_nat tier - 1)) as ->.
  { apply Pref.from_u8_valid. unfold Pref.valid. lia. }
  cbn [mbind option_bind]. rewrite Hm. replace (Z.to_nat (Z.of_nat tier - 1)) with (tier - 1)%nat by lia.
  assert (promote_objects disk_count free_space_tier fuel locked tier (tier - 1) true (promote_size (config (w_lfu w))) 0
    (w_lfu w) (w_db w) = Some (Running 0, w_lfu w, w_db w)) as ->; [|by destruct w].
  induction fuel as [|fuel IH]; [done|]. cbn [promote_objects]. rewrite Hc. cbn [mbind option_bind]. rewrite Hp, Hup.
  cbn [mbind option_bind]. rewrite Hu. destruct (Z.ltb_spec f freq); [lia|]. cbn [orb negb]. done.
Qed.

(** [promote] of nodes hints at one node only: it looks at the most used one
    again and again, and counts it until enough blocks are counted. *)
Theorem promote_hints_one_node fuel tier target tight desired moved (l : Lfu) hints e hints' :
  promote_nodes fuel tier target tight desired moved l hints = Some (e, hints') →
  hints' = hints ∨
  ∃ c key size freq, nodes l !! tier = Some c ∧ peek_mfu c = Some (key, size, freq) ∧
    hints' = <[key := Z.of_nat target]> hints.
Proof.
  revert moved hints. induction fuel as [|fuel IH]; intros moved hints Hp; cbn [promote_nodes] in Hp; [simplify_eq; by left|].
  apply bind_Some in Hp as (c & Hc & Hp). destruct (peek_mfu c) as [[[key size] freq]|] eqn:Hk; [|simplify_eq; by left].
  apply bind_Some in Hp as (up & Hu & Hp). destruct (_ || _); [|simplify_eq; by left]. cbv zeta in Hp.
  apply bind_Some in Hp as (m & _ & Hp). right. exists c, key, size, freq. split; [done|]. split; [done|].
  destruct (desired <=? m); [by simplify_eq|]. apply IH in Hp as [->|(c' & k' & s' & f' & Hc' & Hk' & ->)]; [done|].
  simplify_eq. by rewrite insert_insert_eq.
Qed.

End keeps.

(** ** With the laws of the caches *)

Section laws.
Context `{Hn : !LfuCache PivotKey Z} `{Hnl : !LfuCacheLaws PivotKey Z}.
Context `{Ho : !LfuCache GlobalObjectId (bytes * Z)} `{Hol : !LfuCacheLaws GlobalObjectId (bytes * Z)}.
Context `{Hsp : Speedy}.
Context (disk_count : Z → Z) (free_space_tier : StoragePreference → option Z).
Implicit Types (l : Lfu).

Lemma hand_over_shrinks pop l tier target c k v f c' :
  objects l !! tier = Some c → is_Some (objects l !! target) → tier ≠ target →
  pop c = Some (k, v, f, c') →
  ∃ l', hand_over pop l tier target = Some l' ∧ objects l' !! tier = Some c' ∧ is_Some (objects l' !! target).
Proof.
  intros Hc [d Hd] Hne Hpop. unfold hand_over. rewrite Hc. cbn [mbind option_bind]. rewrite Hpop. cbn [mbind option_bind].
  rewrite list_lookup_insert_ne, Hd by done. cbn [mbind option_bind]. eexists. split; [done|]. cbn [objects set_objects].
  pose proof (lookup_lt_Some _ _ _ Hc) as Hlt. pose proof (lookup_lt_Some _ _ _ Hd) as Hlt'. split.
  - rewrite list_lookup_insert_ne by done. by apply list_lookup_insert_eq.
  - eexists. apply list_lookup_insert_eq. by rewrite length_insert.
Qed.

Lemma size_delete_lt {A} `{Countable K} (m : gmap K A) k x : m !! k = Some x → (size (delete k m) < size m)%nat.
Proof.
  intros Hk. rewrite map_size_delete, Hk. cbn. assert (size m ≠ 0%nat); [|lia].
  intros Hz. apply map_size_empty_inv in Hz. by rewrite Hz, lookup_empty in Hk.
Qed.

(** The loops over objects end when every turn moves one. *)
Definition ends {A B} (r : option (Ended * A * B)) : Prop := match r with Some (Running _, _, _) => False | _ => True end.

Lemma promote_objects_ends locked tier target desired : tier ≠ target → ∀ fuel moved l (db : gmap Z ObjectStore) c,
  objects l !! tier = Some c → is_Some (objects l !! target) → (size (lfu_map c) < fuel)%nat →
  ends (promote_objects disk_count free_space_tier fuel locked tier target false desired moved l db).
Proof using Hol.
  intros Hne fuel. induction fuel as [|fuel IH]; intros moved l db c Hc Ht Hfuel; [lia|]. cbn [promote_objects].
  rewrite Hc. cbn [mbind option_bind]. pose proof (pop_mfu_map c) as Hpop.
  destruct (peek_mfu c) as [[[id [name n]] freq]|] eqn:Hp; [|done]. destruct Hpop as (c' & Hpop & Hc').
  pose proof Ht as [up Hup]. rewrite Hup. cbn [mbind option_bind negb]. rewrite orb_true_r.
  destruct (migrate_object_from_to _ _ _ _ _ _ _ _) as [[[k db1]|]|]; [|done|done]. cbn [mbind option_bind].
  destruct (u64_add moved k) as [m|]; [|done]. cbn [mbind option_bind].
  destruct (hand_over_shrinks pop_mfu l tier target c id (name, n) freq c' Hc Ht Hne Hpop) as (l' & -> & Hl1 & Hl2).
  cbn [mbind option_bind]. destruct (desired <=? m); [done|]. apply (IH m l' db1 c'); [done|done|]. rewrite Hc'.
  destruct (peek_mfu_some c _ _ _ Hp) as [Hk _]. pose proof (size_delete_lt _ _ _ Hk). lia.
Qed.

Lemma demote_objects_ends locked tier target desired : tier ≠ target → ∀ fuel moved l (db : gmap Z ObjectStore) c,
  objects l !! tier = Some c → is_Some (objects l !! target) → (size (lfu_map c) < fuel)%nat →
  ends (demote_objects disk_count free_space_tier fuel locked tier target desired moved l db).
Proof using Hol.
  intros Hne fuel. induction fuel as [|fuel IH]; intros moved l db c Hc Ht Hfuel; [lia|]. cbn [demote_objects].
  rewrite Hc. cbn [mbind option_bind]. pose proof (pop_lfu_map c) as Hpop.
  destruct (peek_lfu c) as [[[id [name n]] freq]|] eqn:Hp; [|done]. destruct Hpop as (c' & Hpop & Hc').
  destruct (migrate_object_from_to _ _ _ _ _ _ _ _) as [[[k db1]|]|]; [|done|done]. cbn [mbind option_bind].
  destruct (u64_add moved k) as [m|]; [|done]. cbn [mbind option_bind].
  destruct (hand_over_shrinks pop_lfu l tier target c id (name, n) freq c' Hc Ht Hne Hpop) as (l' & -> & Hl1 & Hl2).
  cbn [mbind option_bind]. destruct (desired <=? m); [done|]. apply (IH m l' db1 c'); [done|done|]. rewrite Hc'.
  destruct (peek_lfu_some c _ _ _ Hp) as [Hk _]. pose proof (size_delete_lt _ _ _ Hk). lia.
Qed.

(** *** A node is in one class *)

Lemma move_node_spec tiers class (i : OpInfo) ns :
  Forall (λ t, t < length ns)%nat tiers → (class < length ns)%nat →
  ∃ ns', move_node tiers class i ns = Some ns' ∧ length ns' = length ns ∧
    ∀ t c, t ≠ class → ns' !! t = Some c →
      (t ∈ tiers → lfu_map c !! op_pivot_key i = None) ∧ (t ∉ tiers → ns !! t = Some c).
Proof using Hnl.
  revert ns. induction tiers as [|t0 tiers IH]; intros ns Hall Hclass; cbn [move_node].
  - exists ns. split; [done|]. split; [done|]. intros t c _ Hc. split; [by intros ?%elem_of_nil|done].
  - apply Forall_cons in Hall as [Ht0 Hall]. destruct (Nat.eqb_spec t0 class) as [->|Hne0].
    + destruct (IH ns Hall Hclass) as (ns' & Hm & Hl & Hr). exists ns'. split; [done|]. split; [done|].
      intros t c Hne Hc. destruct (Hr t c Hne Hc) as [Hin Hout]. split; intros Ht.
      * apply Hin. by apply elem_of_cons in Ht as [?|?].
      * apply Hout. intros ?. apply Ht. by right.
    + destruct (lookup_lt_is_Some_2 ns t0 Ht0) as [c0 Hc0]. rewrite Hc0. cbn [mbind option_bind].
      destruct (lfu_remove_map (op_pivot_key i) c0) as [_ Hrm]. destruct (lfu_remove (op_pivot_key i) c0) as [r c1].
      cbn [fst snd] in Hrm.
      destruct (lookup_lt_is_Some_2 (<[t0:=c1]> ns) class) as [d Hd]; [by rewrite length_insert|].
      set (ns1 := match r with Some (_, freq) => <[class := lfu_insert (op_pivot_key i) (op_size i) freq d]> (<[t0 := c1]> ns)
                  | None => <[t0 := c1]> ns end).
      assert (match r with Some (_, freq) => d0 ← <[t0 := c1]> ns !! class;
                Some (<[class := lfu_insert (op_pivot_key i) (op_size i) freq d0]> (<[t0 := c1]> ns))
              | None => Some (<[t0 := c1]> ns) end = Some ns1) as ->.
      { unfold ns1. destruct r as [[v f]|]; [|done]. by rewrite Hd. }
      cbn [mbind option_bind]. assert (length ns1 = length ns) as Hl1.
      { unfold ns1. destruct r as [[v f]|]; by rewrite ?length_insert. }
      assert (∀ t, t ≠ class → ns1 !! t = <[t0 := c1]> ns !! t) as Hns1.
      { intros t Hne. unfold ns1. destruct r as [[v f]|]; [by rewrite list_lookup_insert_ne|done]. }
      destruct (IH ns1) as (ns' & Hm & Hl & Hr); [by rewrite Hl1|by rewrite Hl1|].
      exists ns'. split; [done|]. split; [by rewrite Hl|]. intros t c Hne Hc. destruct (Hr t c Hne Hc) as [Hin Hout].
      destruct (decide (t ∈ tiers)) as [Ht|Ht].
      * split; [by intros _; apply Hin|]. intros Hn'. exfalso. apply Hn'. by right.
      * specialize (Hout Ht). rewrite Hns1 in Hout by done. destruct (decide (t = t0)) as [->|Hne1].
        -- rewrite list_lookup_insert_eq in Hout by done. simplify_eq. split; [intros _; by rewrite Hrm, lookup_delete_eq|].
           intros Hn'. exfalso. apply Hn'. by left.
        -- rewrite list_lookup_insert_ne in Hout by done. split; [|done]. intros [?|?]%elem_of_cons; done.
Qed.

(** C40: after a write the policy knows the node in the class that it was written
    to, and in no other one. *)
Theorem written_node_in_one_class l (i : OpInfo) :
  length (nodes l) = NUM_STORAGE_CLASSES → (op_class i < NUM_STORAGE_CLASSES)%nat →
  ∃ l', dml_msg l (DmlWrite i) = Some l' ∧ length (nodes l') = NUM_STORAGE_CLASSES ∧
    ∀ t c, nodes l' !! t = Some c → (is_Some (lfu_map c !! op_pivot_key i) ↔ t = op_class i).
Proof using Hnl.
  intros Hl Hc. cbn [dml_msg].
  destruct (move_node_spec (seq 0 NUM_STORAGE_CLASSES) (op_class i) i (nodes l)) as (ns & -> & Hlen & Hns).
  - apply Forall_forall. intros t Ht. apply elem_of_seq in Ht. rewrite Hl. lia.
  - by rewrite Hl.
  - cbn [mbind option_bind]. unfold enter_node. rewrite Hl in Hlen.
    destruct (lookup_lt_is_Some_2 ns (op_class i)) as [c0 Hc0]; [by rewrite Hlen|]. rewrite Hc0. cbn [mbind option_bind].
    eexists. split; [done|]. cbn [nodes set_nodes]. split; [by rewrite length_insert|]. intros t c Ht.
    destruct (decide (t = op_class i)) as [->|Hne].
    + rewrite list_lookup_insert_eq in Ht by (by rewrite Hlen). injection Ht as <-. split; [done|]. intros _.
      pose proof (lfu_entry_map (op_pivot_key i) (op_size i) c0) as He.
      apply (f_equal (.!! op_pivot_key i)) in He. rewrite lookup_fmap, lookup_insert_eq in He.
      destruct (lfu_map _ !! _); [by eexists|done].
    + rewrite list_lookup_insert_ne in Ht by done. destruct (Hns t c Hne Ht) as [Hin _]. split; [|done].
      rewrite Hin; [by intros [? ?]|]. apply elem_of_seq. pose proof (lookup_lt_Some _ _ _ Ht). rewrite Hlen in *. lia.
Qed.

End laws.

(** ** A cache that counts in a finite map *)

Module MigrationExamples.

Section counting.
Context {K V : Type} `{Countable K}.
Abbreviation counts := (gmap K (V * Z)).
Implicit Types (m : counts) (e : K * (V * Z)).

(** The entry of the list that no other one beats *)
Fixpoint best (beats : Z → Z → bool) (es : list (K * (V * Z))) : option (K * V * Z) :=
  match es with
  | [] => None
  | (k, (v, f)) :: es =>
      match best beats es with
      | Some (k', v', f') => if beats f' f then Some (k', v', f') else Some (k, v, f)
      | None => Some (k, v, f)
      end
  end.

Definition peek_best beats m : option (K * V * Z) := best beats (map_to_list m).

Definition pop_best beats m : option (K * V * Z * counts) :=
  '(k, v, f) ← peek_best beats m; Some (k, v, f, delete k m).

#[local] Instance counting : LfuCache K V := {
  lfu := counts;
  lfu_unbounded := ∅;
  lfu_get k m := alter (λ x, (x.1, x.2 + 1)) k m;
  lfu_contains k m := bool_decide (is_Some (m !! k));
  lfu_entry k v m := <[k := (v, match m !! k with Some (_, f) => f + 1 | None => 1 end)]> m;
  lfu_remove k m := (m !! k, delete k m);
  lfu_insert k v f m := <[k := (v, f)]> m;
  peek_mfu := peek_best (λ f' f, f <? f');
  peek_lfu := peek_best (λ f' f, f' <? f);
  pop_mfu := pop_best (λ f' f, f <? f');
  pop_lfu := pop_best (λ f' f, f' <? f);
}.

(** [R f f']: the winner's [f] is as good as [f']. *)
Lemma best_some beats (R : Z → Z → Prop) es k v f :
  (∀ a b, R a b → ∀ c, R b c → R a c) → (∀ a, R a a) →
  (∀ a b, beats a b = true → R a b) → (∀ a b, beats a b = false → R b a) →
  best beats es = Some (k, v, f) → (k, (v, f)) ∈ es ∧ ∀ k' v' f', (k', (v', f')) ∈ es → R f f'.
Proof.
  intros Htr Hrefl Ht Hf. revert k v f. induction es as [|[k0 [v0 f0]] es IH]; intros k v f; cbn [best]; [done|].
  destruct (best beats es) as [[[k1 v1] f1]|] eqn:Hb.
  - destruct (IH _ _ _ eq_refl) as [Hin Hall]. destruct (beats f1 f0) eqn:Hbt; intros [= <- <- <-].
    + split; [by right|]. intros k' v' f' [[= -> -> ->]|Hin']%elem_of_cons; [by apply Ht|by eapply Hall].
    + split; [by left|]. intros k' v' f' [[= -> -> ->]|Hin']%elem_of_cons; [done|]. eapply Htr; [by apply Hf|by eapply Hall].
  - intros [= <- <- <-]. assert (es = []) as ->.
    { destruct es as [|[? [? ?]] es]; [done|]. cbn [best] in Hb. by repeat case_match. }
    split; [by left|]. by intros k' v' f' [[= -> -> ->]|?%elem_of_nil]%elem_of_cons.
Qed.

Lemma best_none beats es : best beats es = None ↔ es = [].
Proof. destruct es as [|[k [v f]] es]; cbn [best]; [done|]. split; [by repeat case_match|done]. Qed.

Lemma peek_best_none beats m : peek_best beats m = None ↔ m = ∅.
Proof. unfold peek_best. rewrite best_none. apply map_to_list_empty_iff. Qed.

Lemma pop_best_peek beats m :
  match peek_best beats m with
  | Some (k, v, f) => ∃ m', pop_best beats m = Some (k, v, f, m') ∧ m' = delete k m
  | None => pop_best beats m = None
  end.
Proof. unfold pop_best. destruct (peek_best beats m) as [[[k v] f]|]; cbn [mbind option_bind]; [by eexists|done]. Qed.

#[local] Instance counting_laws : LfuCacheLaws K V.
Proof.
  refine (Build_LfuCacheLaws K V _ _ counting (λ m : counts, m) _ _ _ _ _ _ _ _ _ _ _ _); cbn.
  - done.
  - intros k m. apply map_eq. intros k'. rewrite !lookup_fmap. destruct (decide (k = k')) as [<-|Hne].
    + rewrite lookup_alter_eq. by destruct (m !! k).
    + by rewrite lookup_alter_ne.
  - done.
  - intros k v m. by rewrite fmap_insert.
  - done.
  - done.
  - intros m k v f Hp. apply (best_some _ (λ a b, b ≤ a)) in Hp as [Hin Hall];
      [|intros; lia|intros; lia|intros ? ? ?%Z.ltb_lt; lia|intros ? ? ?%Z.ltb_ge; lia].
    split; [by apply elem_of_map_to_list|]. intros k' v' f' Hk. by eapply Hall, elem_of_map_to_list.
  - apply peek_best_none.
  - intros m k v f Hp. apply (best_some _ (λ a b, a ≤ b)) in Hp as [Hin Hall];
      [|intros; lia|intros; lia|intros ? ? ?%Z.ltb_lt; lia|intros ? ? ?%Z.ltb_ge; lia].
    split; [by apply elem_of_map_to_list|]. intros k' v' f' Hk. by eapply Hall, elem_of_map_to_list.
  - apply peek_best_none.
  - apply pop_best_peek.
  - apply pop_best_peek.
Defined.

End counting.

#[local] Existing Instance counting.
#[local] Existing Instance counting_laws.

(** A node that was fetched from class 0 is written to class 2. *)
Definition node_key : PivotKey := PkRoot 1.

Definition fetched_info : OpInfo := mkOpInfo (DiskOffset.from_u64 0) node_key 8.

Definition written_info : OpInfo := mkOpInfo (DiskOffset.from_u64 (2 * 2 ^ 62)) node_key 9.

Definition policy : Lfu := lfu_build lfu_config_default 0.

Definition after_fetch : Lfu := default policy (update_dml policy [DmlFetch fetched_info; DmlFetch fetched_info]).

Lemma written_node_in_one_class_witness :
  (op_class written_info = 2%nat ∧ (λ c : gmap PivotKey (Z * Z), c !! node_key) <$> nodes after_fetch = [Some (8, 2); None; None; None]) ∧
  ∃ l', dml_msg after_fetch (DmlWrite written_info) = Some l' ∧ length (nodes l') = NUM_STORAGE_CLASSES ∧
    ∀ t c, nodes l' !! t = Some c → (is_Some (lfu_map c !! node_key) ↔ t = 2%nat).
Proof.
  split; [by vm_compute|].
  apply (written_node_in_one_class after_fetch written_info); [by vm_compute|]. vm_compute. lia.
Defined.

End MigrationExamples.
