(* ===== verification/NodePack.v ===== *)
(** * The packed form of a node

    [tree/imp/node.rs] ([Node::pack], [Node::unpack_at]) and
    [internal/copyless_internal.rs] ([CopylessInternalNode::pack],
    [unpack]).  A node starts with its type, a big-endian [u32].  A leaf is its
    packed buffer ([PackedFormat.v]).  An internal node is the length of its
    meta data and the meta data, the length of its pointers and the pointers,
    an integrity mode per child, and then the packed buffers of the children.
    Its own checksum covers everything before the buffers.

    bincode's coding of the meta data, of the vector of pointers and of the
    integrity modes is a parameter, with the laws of its documented format:
    what was serialised is read back, integers have their width, sequences
    begin with a [u64] length and variants with a [u32].  [ObjRef]'s own
    implementation of [Serialize] is [ref_serialize]. *)

From Stdlib Require Import ZArith Lia.
From stdpp Require Import base option list numbers sorting.
From S2P Require Import Prelude.
From S2P Require Import Bytes.
From S2P Require Import BTreeMap.
From S2P Require Import CowBytes.
From S2P Require Import StoragePref.
From S2P Require Import Message.
From S2P Require Import Checksum.
From S2P Require Import ChildBuffer.
From S2P Require Import PackedFormat.
From S2P Require Import Internal.
From S2P Require Import Node.
From S2P Require Import Disk.
From S2P Require Import RootKeys.
From S2P Require Import Compression.
From S2P Require Import DmuObjects.
From S2P Require Import DmuDenote.
Import DiskOffset(DiskOffset).

(** ** bincode *)

Class NodeBincode `{Checksum} := {
  bc_meta :: Bincode InternalNodeMetaData;
  bc_ptrs :: Bincode (list ObjectPointer);
  bc_mode :: Bincode (IntegrityMode csum);
}.

(** Fields that have the width that they have in the code *)
Definition meta_in_range (m : InternalNodeMetaData) : Prop :=
  0 ≤ current_size m < U64_SIZE ∧ 0 ≤ m_level m < U32_SIZE ∧
  0 ≤ m_system_storage_preference m < 256 ∧ 0 ≤ m_pref m < 256 ∧
  Forall (λ p, blen p < U64_SIZE) (pivot m) ∧ Forall (λ s, 0 ≤ s < U64_SIZE) (entries_sizes m) ∧
  Forall (λ p, 0 ≤ p < 256) (entries_prefs m) ∧ Z.of_nat (length (pivot m)) < U64_SIZE ∧
  Z.of_nat (length (entries_sizes m)) < U64_SIZE ∧ Z.of_nat (length (entries_prefs m)) < U64_SIZE.

Definition meta_len (m : InternalNodeMetaData) : Z :=
  8 + 4 + 1 + 1 + (8 + sum_Z ((λ p, 8 + blen p) <$> pivot m)) +
  (8 + 8 * Z.of_nat (length (entries_sizes m))) + (8 + Z.of_nat (length (entries_prefs m))).

Definition mode_len {C} (mode : IntegrityMode C) : Z :=
  match mode with External => 4 | ChildBuffer.Internal _ _ => 4 + CSUM_SIZE + 4 end.

Definition ptr_len `{Checksum} (p : ObjectPointer) : Z :=
  4 + CSUM_SIZE + 8 + 4 + mode_len (ptr_integrity p) + 8 + 8.

Class NodeBincodeLaws `{NodeBincode} := {
  bc_meta_ok m : meta_in_range m → deserialize (serialize m) = Some m;
  bc_meta_len m : blen (serialize m) = meta_len m;
  bc_ptrs_ok ps : Forall ptr_ok ps → Z.of_nat (length ps) < U64_SIZE → deserialize (serialize ps) = Some ps;
  bc_ptrs_len ps : blen (serialize ps) = 8 + sum_Z (ptr_len <$> ps);
  bc_mode_ok (mode : IntegrityMode csum) : mode_ok mode → deserialize (serialize mode) = Some mode;
  bc_mode_len (mode : IntegrityMode csum) : blen (serialize mode) = mode_len mode;
}.

(** ** References *)

Section references.
Context `{Checksum}.

(** [ObjectPointer::static_size] *)
Definition PTR_STATIC_SIZE : Z := 1 + CSUM_SIZE + 8 + 8 + 8 + 4 + 8.

(** [Serialize] of a reference: an error unless it is unmodified *)
Definition ref_serialize (r : ObjRef) : option ObjectPointer :=
  match r with RUnmodified p _ => Some p | _ => None end.

(** [index] panics for an incomplete reference, which no node has after
    [unpack_at]. *)
#[export] Instance objref_reference : ObjectReference ObjRef := {
  np_static_size := PTR_STATIC_SIZE;
  np_index r := default (PkRoot 0) (ref_index r);
  np_set_index pk r := ref_set_index r pk;
}.

End references.

(** ** Internal nodes *)

Section pack.
Context `{NodeBincode}.
Abbreviation INode := (CopylessInternalNode ObjRef).

(** The loop over the children: the integrity modes and the buffers *)
Fixpoint pack_buffers (bs : list PackedChildBuffer) : option (bytes * bytes) :=
  match bs with
  | [] => Some ([], [])
  | b :: bs =>
      '(d, mode) ← buf_pack b csum_build;
      assert! blen (serialize mode) =? INTERNAL_INTEGRITY_CHECKSUM_SIZE;
      '(modes, ds) ← pack_buffers bs;
      Some (serialize mode ++ modes, d ++ ds)
  end.

(** [CopylessInternalNode::pack]: what is written first, the buffers, and the
    integrity mode; [inr] is an error. *)
Definition in_pack (n : INode) : option ((bytes * bytes * IntegrityMode csum) + unit) :=
  let meta := serialize (meta_data n) in
  match mapM (λ c, ref_serialize (cl_ptr c)) (children n) with
  | None => Some (inr tt)
  | Some ptrs =>
      assert! forallb (λ p, p.1 =? p.2)
        (zip (entries_sizes (meta_data n)) ((λ c, buf_size (cl_buffer c)) <$> children n));
      '(modes, tmp_buffers) ← pack_buffers (cl_buffer <$> children n);
      let tmp := le32 (blen meta) ++ meta ++ le32 (blen (serialize ptrs)) ++ serialize ptrs ++ modes in
      Some (inl (tmp, tmp_buffers, ChildBuffer.Internal (csum_build tmp) (wrap32 (blen tmp))))
  end.

(** The integrity modes of [n] children, from [cursor] on *)
Fixpoint read_modes (d : bytes) (cursor : Z) (n : nat) : option (list (IntegrityMode csum) + unit) :=
  match n with
  | O => Some (inl [])
  | S n =>
      w ← cut d cursor INTERNAL_INTEGRITY_CHECKSUM_SIZE;
      match deserialize w with
      | None => Some (inr tt)
      | Some mode =>
          r ← read_modes d (cursor + INTERNAL_INTEGRITY_CHECKSUM_SIZE) n;
          Some (match r with inl ms => inl (mode :: ms) | inr _ => inr tt end)
      end
  end.

(** The buffers, each of which says how long it is *)
Fixpoint read_buffers (buf : SlicedCowBytes) (cursor : Z) (sizes : list Z) (modes : list (IntegrityMode csum)) :
    option (list PackedChildBuffer + unit) :=
  match modes with
  | [] => Some (inl [])
  | mode :: modes =>
      sub ← Sliced.slice_from buf (wrap32 cursor);
      b ← buf_unpack sub mode;
      match b with
      | None => Some (inr tt)
      | Some b =>
          size ← head sizes;
          assert! size =? buf_size b;
          r ← read_buffers buf (cursor + buf_size b) (tail sizes) modes;
          Some (match r with inl bs => inl (b :: bs) | inr _ => inr tt end)
      end
  end.

Definition NODE_ID : Z := 4.

(** [CopylessInternalNode::unpack] *)
Definition in_unpack (buf : SlicedCowBytes) (mode : IntegrityMode csum) : option (INode + unit) :=
  d ← Sliced.deref buf;
  c ← integrity_checksum mode;
  n ← integrity_length mode;
  checked ← cut d NODE_ID n;
  if negb (csum_verify c checked) then Some (inr tt) else
  w ← cut d NODE_ID 4;
  let len := of_le w in
  let cursor := NODE_ID + 4 in
  w ← cut d cursor len;
  meta ← deserialize w;
  let cursor := cursor + len in
  w ← cut d cursor 4;
  let ptrs_len := of_le w in
  let cursor := cursor + 4 in
  w ← cut d cursor ptrs_len;
  match deserialize w with
  | None => Some (inr tt)
  | Some ptrs =>
      let cursor := cursor + ptrs_len in
      ms ← read_modes d cursor (length ptrs);
      match ms with
      | inr _ => Some (inr tt)
      | inl ms =>
          let cursor := cursor + INTERNAL_INTEGRITY_CHECKSUM_SIZE * Z.of_nat (length ptrs) in
          bs ← read_buffers buf cursor (entries_sizes meta) ms;
          Some (match bs with
                | inr _ => inr tt
                | inl bs => inl (mkInternal meta (zip_with mkLink bs (RIncomplete <$> ptrs)))
                end)
      end
  end.

(** ** Nodes *)

(** [NodeInnerType] *)
Definition COPYLESS_LEAF : Z := 1.
Definition COPYLESS_INTERNAL : Z := 2.

(** [Node::pack]: the slices that are written *)
Definition node_pack (nd : Node ObjRef) : option ((list bytes * IntegrityMode csum) + unit) :=
  match nd with
  | MemLeaf leaf =>
      '(d, mode) ← buf_pack leaf csum_build;
      Some (inl ([be32 COPYLESS_LEAF; d], mode))
  | CopylessInternal n =>
      r ← in_pack n;
      Some (match r with
            | inl (tmp, tmp_buffers, mode) => inl ([be32 COPYLESS_INTERNAL; tmp; tmp_buffers], mode)
            | inr _ => inr tt
            end)
  end.

(** [Node::unpack_at] *)
Definition node_unpack_at (d_id : DatasetId) (data : bytes) (mode : IntegrityMode csum) : option (Node ObjRef + unit) :=
  let buf := Sliced.from (mkCow data) in
  w ← cut data 0 4;
  if decide (w = be32 COPYLESS_INTERNAL) then
    r ← in_unpack buf mode;
    match r with
    | inr _ => Some (inr tt)
    | inl n => n ← complete_object_refs n d_id; Some (inl (CopylessInternal n))
    end
  else if decide (w = be32 COPYLESS_LEAF) then
    sub ← Sliced.slice_from buf 4;
    b ← buf_unpack sub mode;
    Some (match b with Some b => inl (MemLeaf b) | None => inr tt end)
  else None.

End pack.

(** ** The nodes that are packed *)

Section packable.
Context `{Hnb : NodeBincode}.
Implicit Types (b : PackedChildBuffer) (t : btree).

(** A buffer whose recorded size is exact.  The bytes of one that was not
    unpacked since it was read begin with its packed form. *)
Definition packable b t : Prop :=
  bt_sorted t ∧ Forall (λ e, Pref.valid (storage_preference e.2.1)) t ∧ Pref.valid (system_storage_preference b) ∧
  entries_size b = bt_sum entry_size t ∧ buf_size b < U32_SIZE ∧
  match buffer b with
  | Unpacked t' => t' = t
  | Packed n s =>
      n = Z.of_nat (length t) ∧
      match Sliced.deref s with Some d => image (pack_head b t) t [] `prefix_of` d | None => False end
  end.

Definition packed_bytes b : bytes := image (pack_head b (buf_contents b)) (buf_contents b) [].

Definition packed_mode b : IntegrityMode csum :=
  let d := checked_part b (buf_contents b) in ChildBuffer.Internal (csum_build d) (wrap32 (blen d)).

Definition buf_packable b : Prop := packable b (buf_contents b).

(** An internal node with its vectors in order, of less than 4 GiB *)
Definition in_packable (n : CopylessInternalNode ObjRef) : Prop :=
  shape_ok n ∧ pivot (meta_data n) ≠ [] ∧ sizes_exact n ∧ meta_in_range (meta_data n) ∧
  recalc_size (meta_data n) ≤ 2 * current_size (meta_data n) ∧
  Forall (λ c, buf_packable (cl_buffer c)) (children n) ∧
  8 + meta_len (meta_data n) + 16 + fanout n * 72 + sum_Z (entries_sizes (meta_data n)) < U32_SIZE.

Definition node_packable (nd : Node ObjRef) : Prop :=
  match nd with
  | MemLeaf b => buf_packable b ∧ 4 + buf_size b < U32_SIZE
  | CopylessInternal n => in_packable n
  end.

(** What reading makes of a buffer *)
Definition buf_reread b b' : Prop :=
  ∃ s pad, b' = reread b (buf_contents b) s ∧ Sliced.deref s = Some (packed_bytes b ++ pad).

(** A buffer with the same entries, which is as well-formed as it was *)
Definition buf_same b b' : Prop :=
  buf_packable b' ∧ buf_contents b' = buf_contents b ∧ entries_size b' = entries_size b ∧ is_leaf b' = is_leaf b ∧
  ∀ k, map_get (buffer b') k = Some (bt_get k (buf_contents b)).

(** The pivot keys of the children *)
Definition child_keys (m : InternalNodeMetaData) (d_id : DatasetId) : list PivotKey :=
  match pivot m with
  | [] => []
  | p :: _ => PkLeftOuter p d_id :: ((λ p, PkRight p d_id) <$> pivot m)
  end.

Definition node_refs (nd : Node ObjRef) : list ObjRef :=
  match nd with MemLeaf _ => [] | CopylessInternal n => cl_ptr <$> children n end.

Definition node_same (d_id : DatasetId) (nd nd' : Node ObjRef) : Prop :=
  match nd, nd' with
  | MemLeaf b, MemLeaf b' => buf_same b b'
  | CopylessInternal n, CopylessInternal n' =>
      meta_data n' = meta_data n ∧
      Forall2 buf_same (cl_buffer <$> children n) (cl_buffer <$> children n') ∧
      Forall2 same_ptr (node_refs nd) (node_refs nd') ∧
      ref_index <$> node_refs nd' = Some <$> child_keys (meta_data n) d_id
  | _, _ => False
  end.

End packable.

Section roundtrip.
Context `{Hck : !Checksum} `{Hcl : !ChecksumLaws} `{Hnb : !NodeBincode} `{Hnl : !NodeBincodeLaws}.
Implicit Types (b : PackedChildBuffer) (t : btree).

Lemma image_pad b t pad : image (pack_head b t) t pad = image (pack_head b t) t [] ++ pad.
Proof. by rewrite !image_checked, app_nil_r, <- app_assoc. Qed.

Lemma packable_sum b t : packable b t → HEADER + bt_sum entry_size t < U32_SIZE.
Proof. intros (_ & _ & _ & <- & Hs & _). apply Hs. Qed.

Lemma packable_packed b t n s :
  packable b t → buffer b = Packed n s → n = Z.of_nat (length t) ∧ ∃ pad, Sliced.deref s = Some (image (pack_head b t) t pad).
Proof.
  intros (_ & _ & _ & _ & _ & Hb) E. rewrite E in Hb. destruct Hb as [-> Hb]. split; [done|].
  destruct (Sliced.deref s) as [d|]; [|done]. destruct Hb as [pad ->]. exists pad. by rewrite (image_pad b t pad).
Qed.

Lemma packable_unpacked b t : packable b t → ∃ d, unpacked (buffer b) = Some (t, d).
Proof.
  intros Hp. pose proof Hp as (Hso & Hpr & _ & _ & _ & Hb). destruct (buffer b) as [n s|t'] eqn:E.
  - destruct (packable_packed _ _ _ _ Hp E) as (-> & pad & Hs).
    apply (unpacked_packed t s (image (pack_head b t) t pad)); [done| |done].
    apply image_packed; [apply blen_pack_head|done|by apply (packable_sum b)].
  - subst t'. by eexists.
Qed.

Lemma packable_contents b t : packable b t → buf_contents b = t.
Proof. intros [d Hd]%packable_unpacked. unfold buf_contents. by rewrite Hd. Qed.

Lemma blen_packed_bytes b : buf_packable b → blen (packed_bytes b) = buf_size b.
Proof.
  intros (_ & _ & _ & He & _). unfold packed_bytes. rewrite blen_image, blen_nil, <- He. unfold buf_size. lia.
Qed.

(** Packing a buffer, unpacked or not *)
Lemma packable_pack b : buf_packable b → buf_pack b csum_build = Some (packed_bytes b, packed_mode b).
Proof.
  intros Hp. pose proof Hp as (_ & Hpr & Hsys & He & _ & Hb).
  unfold packed_bytes, packed_mode. set (t := buf_contents b) in *.
  destruct (buffer b) as [n s|t'] eqn:E.
  - destruct (packable_packed _ _ _ _ Hp E) as (-> & pad & Hs).
    pose proof (buf_repack b t s pad Hs Hpr (packable_sum _ _ Hp)) as Hr.
    rewrite take_ge in Hr.
    + rewrite <- Hr; [|rewrite He; pose proof (bt_sum_nonneg _ t entry_size_pos); lia].
      unfold buf_pack. rewrite E. done.
    + pose proof (blen_image b t []) as Hi. rewrite blen_nil in Hi. unfold blen in Hi.
      unfold buf_size. rewrite He. lia.
  - subst t'. by apply buf_pack_image.
Qed.

Lemma packable_reread b s pad :
  buf_packable b → Sliced.deref s = Some (packed_bytes b ++ pad) → packable (reread b (buf_contents b) s) (buf_contents b).
Proof.
  intros (Hso & Hpr & Hsys & He & Hs & _) Hd. split_and!; try done. unfold reread, packed_map. cbn [buffer].
  split; [done|]. rewrite Hd. by exists pad.
Qed.

Lemma packable_unpack b s pad :
  buf_packable b → Sliced.deref s = Some (packed_bytes b ++ pad) →
  buf_unpack s (packed_mode b) = Some (Some (reread b (buf_contents b) s)).
Proof.
  intros Hp Hd. pose proof Hp as (_ & _ & Hsys & He & Hs & _).
  apply (buf_unpack_image b (buf_contents b) s pad); [by rewrite (image_pad b _ pad)|done|by apply (packable_sum b)|].
  unfold buf_size, HEADER, IS_LEAF_HEADER in Hs. rewrite He in *.
  pose proof (bt_sum_nonneg _ (buf_contents b) entry_size_pos). lia.
Qed.

Lemma reread_same b b' : buf_packable b → buf_reread b b' → buf_same b b'.
Proof.
  intros Hp (s & pad & -> & Hd). pose proof (packable_reread b s pad Hp Hd) as Hr.
  pose proof (packable_contents _ _ Hr) as Hc. pose proof Hp as (Hso & Hpr & _).
  split_and!; [|done|done|done|].
  - unfold buf_packable. by rewrite Hc.
  - intros k. eapply map_get_packed; [done| |done]. unfold packed_bytes. rewrite <- image_pad.
    apply image_packed; [apply blen_pack_head|done|by apply (packable_sum b)].
Qed.

(** *** The loops *)

Lemma pack_buffers_ok bs :
  Forall buf_packable bs →
  pack_buffers bs = Some (concat ((λ b, serialize (packed_mode b)) <$> bs), concat (packed_bytes <$> bs)).
Proof.
  induction 1 as [|b bs Hb _ IH]; [done|]. cbn [pack_buffers fmap list_fmap concat].
  rewrite packable_pack by done. cbn [mbind option_bind]. by rewrite bc_mode_len, IH.
Qed.

Lemma packed_mode_ok b : mode_ok (packed_mode b).
Proof. by apply Z.mod_pos_bound. Qed.

Lemma read_modes_ok bs : ∀ d pre post cursor,
  d = pre ++ concat ((λ b, serialize (packed_mode b)) <$> bs) ++ post → cursor = blen pre →
  read_modes d cursor (length bs) = Some (inl (packed_mode <$> bs)).
Proof.
  induction bs as [|b bs IH]; intros d pre post cursor Hd Hc; [done|].
  cbn [fmap list_fmap concat] in Hd. rewrite <- app_assoc in Hd. cbn [length read_modes].
  pose proof (bc_mode_len (packed_mode b)) as Hl.
  rewrite (cut_at d pre (serialize (packed_mode b)) _ cursor _ Hd Hc) by by rewrite Hl.
  cbn [mbind option_bind]. rewrite bc_mode_ok by apply packed_mode_ok.
  rewrite (IH d (pre ++ serialize (packed_mode b)) post); [done|by rewrite <- app_assoc|].
  rewrite blen_app, Hl, Hc. done.
Qed.

Lemma read_buffers_ok s bs : ∀ pre rest cursor,
  scb_wf s → CowBytes.content s = pre ++ concat (packed_bytes <$> bs) ++ rest → Forall buf_packable bs → cursor = blen pre →
  ∃ bs', read_buffers s cursor (buf_size <$> bs) (packed_mode <$> bs) = Some (inl bs') ∧ Forall2 buf_reread bs bs'.
Proof.
  induction bs as [|b bs IH]; intros pre rest cursor Hs Hc Hall Hcur; [by exists []|].
  apply Forall_cons in Hall as [Hb Hall]. cbn [fmap list_fmap concat] in Hc. rewrite <- app_assoc in Hc.
  pose proof (blen_content s Hs) as Hlen. pose proof Hs as (?&?&?&?). pose proof (blen_nonneg pre).
  assert (0 ≤ cursor ≤ sc_len s) as Hr.
  { rewrite <- Hlen, Hc, blen_app, Hcur. pose proof (blen_nonneg (packed_bytes b ++ concat (packed_bytes <$> bs) ++ rest)). lia. }
  destruct (slice_from_content s cursor Hs Hr) as (sub & Hsub & Hwf & _ & Hcs).
  assert (Sliced.deref sub = Some (packed_bytes b ++ concat (packed_bytes <$> bs) ++ rest)) as Hd.
  { rewrite deref_wf, Hcs, Hc, Hcur by done. unfold blen. by rewrite Nat2Z.id, drop_app_length. }
  destruct (IH (pre ++ packed_bytes b) rest (cursor + buf_size b)) as (bs' & Hrd & Hall'); [done|by rewrite <- app_assoc|done| |].
  { by rewrite blen_app, blen_packed_bytes, Hcur. }
  exists (reread b (buf_contents b) sub :: bs'). split; [|constructor; [by eexists _, _|done]].
  cbn [fmap list_fmap read_buffers]. unfold wrap32. rewrite Z.mod_small by (unfold U32_SIZE in *; lia).
  rewrite Hsub. cbn [mbind option_bind]. rewrite (packable_unpack b sub _ Hb Hd). cbn [head tail mbind option_bind].
  change (buf_size (reread b (buf_contents b) sub)) with (buf_size b). rewrite Z.eqb_refl. rewrite Hrd. done.
Qed.

(** *** Internal nodes *)

Definition in_head (m : InternalNodeMetaData) (ptrs : list ObjectPointer) (bs : list PackedChildBuffer) : bytes :=
  le32 (blen (serialize m)) ++ serialize m ++ le32 (blen (serialize ptrs)) ++ serialize ptrs ++
  concat ((λ b, serialize (packed_mode b)) <$> bs).

Definition head_mode (d : bytes) : IntegrityMode csum := ChildBuffer.Internal (csum_build d) (wrap32 (blen d)).

Lemma unmodified_ptrs rs :
  Forall is_unmodified rs →
  ∃ ptrs, mapM ref_serialize rs = Some ptrs ∧ Forall2 (λ r p, same_ptr r (RUnmodified p (PkRoot 0))) rs ptrs ∧ Forall ptr_ok ptrs.
Proof.
  induction 1 as [|r rs Hr _ (ptrs & Hm & Hs & Hok)]; [by exists []|].
  destruct r as [|p pk| |]; try done. exists (p :: ptrs). cbn [mapM ref_serialize mbind option_bind]. rewrite Hm.
  split; [done|]. split; by constructor.
Qed.

Lemma zip_self_eqb (l : list Z) : forallb (λ p, p.1 =? p.2) (zip l l) = true.
Proof. induction l as [|x l IH]; [done|]. simpl. by rewrite Z.eqb_refl, IH. Qed.

Lemma mapM_over_fmap {A B C} (f : B → option C) (g : A → B) l : mapM f (g <$> l) = mapM (λ x, f (g x)) l.
Proof. induction l as [|x l IH]; [done|]. cbn [fmap list_fmap mapM]. by rewrite IH. Qed.

Lemma in_pack_ok (n : CopylessInternalNode ObjRef) ptrs :
  in_packable n → mapM ref_serialize (cl_ptr <$> children n) = Some ptrs →
  let bs := cl_buffer <$> children n in
  let d := in_head (meta_data n) ptrs bs in
  in_pack n = Some (inl (d, concat (packed_bytes <$> bs), head_mode d)).
Proof.
  intros (Hsh & _ & Hsz & _ & _ & Hb & _) Hp bs d. unfold in_pack.
  rewrite mapM_over_fmap in Hp. rewrite Hp. rewrite Hsz, zip_self_eqb.
  rewrite pack_buffers_ok by by rewrite Forall_fmap. done.
Qed.

Lemma sum_ptrs ptrs : (∀ p, 0 ≤ ptr_len p ≤ 56) ∧ 0 ≤ sum_Z (ptr_len <$> ptrs) ≤ 56 * Z.of_nat (length ptrs).
Proof.
  assert (∀ p, 0 ≤ ptr_len p ≤ 56) as Hb.
  { intros p. unfold ptr_len, mode_len, CSUM_SIZE. destruct (ptr_integrity p); lia. }
  split; [done|]. induction ptrs as [|p ps IH]; [done|].
  change (sum_Z (ptr_len <$> p :: ps)) with (ptr_len p + sum_Z (ptr_len <$> ps)). cbn [length]. pose proof (Hb p). lia.
Qed.

Lemma blen_modes bs : blen (concat ((λ b, serialize (packed_mode b)) <$> bs)) = 16 * Z.of_nat (length bs).
Proof.
  induction bs as [|b bs IH]; [done|]. cbn [fmap list_fmap concat length]. rewrite blen_app, bc_mode_len, IH.
  unfold packed_mode, mode_len, CSUM_SIZE. lia.
Qed.

Lemma blen_buffers bs : Forall buf_packable bs → blen (concat (packed_bytes <$> bs)) = sum_Z (buf_size <$> bs).
Proof.
  induction 1 as [|b bs Hb _ IH]; [done|]. cbn [fmap list_fmap concat]. rewrite blen_app, blen_packed_bytes, IH by done. done.
Qed.

Lemma blen_in_head m ptrs bs :
  blen (in_head m ptrs bs) = 4 + meta_len m + 4 + (8 + sum_Z (ptr_len <$> ptrs)) + 16 * Z.of_nat (length bs).
Proof. unfold in_head. rewrite !blen_app, !blen_le32, blen_modes, bc_meta_len, bc_ptrs_len. lia. Qed.

Lemma sizes_of_buffers (n : CopylessInternalNode ObjRef) :
  in_packable n → entries_sizes (meta_data n) = buf_size <$> (cl_buffer <$> children n).
Proof. intros (_ & _ & Hsz & _). rewrite Hsz. by rewrite <- list_fmap_compose. Qed.

Lemma packable_buffers (n : CopylessInternalNode ObjRef) : in_packable n → Forall buf_packable (cl_buffer <$> children n).
Proof. intros (_ & _ & _ & _ & _ & Hb & _). by rewrite Forall_fmap. Qed.

(** What is written before the buffers fits in a [u32]. *)
Lemma in_head_fits (n : CopylessInternalNode ObjRef) ptrs :
  in_packable n → length ptrs = length (children n) →
  0 ≤ blen (serialize (meta_data n)) < U32_SIZE ∧ 0 ≤ blen (serialize ptrs) < U32_SIZE ∧
  Z.of_nat (length ptrs) < U64_SIZE ∧
  4 + blen (in_head (meta_data n) ptrs (cl_buffer <$> children n)) + sum_Z (entries_sizes (meta_data n)) < U32_SIZE ∧
  0 ≤ sum_Z (entries_sizes (meta_data n)).
Proof.
  intros Hp Hl. pose proof (proj2 (sum_ptrs ptrs)) as Hsum. rewrite blen_in_head, length_fmap, <- Hl.
  assert (0 ≤ sum_Z (entries_sizes (meta_data n))) as Hpos.
  { rewrite sizes_of_buffers, <- blen_buffers by (done || by apply packable_buffers). apply blen_nonneg. }
  destruct Hp as (_ & _ & _ & _ & _ & _ & Hfit). unfold fanout in Hfit. rewrite <- Hl in Hfit.
  pose proof (bc_meta_len (meta_data n)) as Hl1. pose proof (bc_ptrs_len ptrs) as Hl2.
  pose proof (blen_nonneg (serialize (meta_data n))). pose proof (blen_nonneg (serialize ptrs)).
  unfold U32_SIZE, U64_SIZE in *. split_and!; lia.
Qed.

(** Reading what is before the buffers *)
Lemma in_unpack_head (n : CopylessInternalNode ObjRef) ptrs s rest :
  in_packable n → Forall ptr_ok ptrs → length ptrs = length (children n) → scb_wf s →
  let bs := cl_buffer <$> children n in
  let d := in_head (meta_data n) ptrs bs in
  CowBytes.content s = be32 COPYLESS_INTERNAL ++ d ++ rest →
  in_unpack s (head_mode d) =
    (bs ← read_buffers s (4 + blen d) (entries_sizes (meta_data n)) (packed_mode <$> bs);
     Some (match bs with
           | inr _ => inr tt
           | inl bs => inl (mkInternal (meta_data n) (zip_with mkLink bs (RIncomplete <$> ptrs)))
           end)).
Proof.
  intros Hp Hptrs Hlp Hs bs d Hc. destruct (in_head_fits n ptrs Hp Hlp) as (Hm & Hps & Hn & Hd & Hpos).
  pose proof (blen_nonneg d). fold bs d in Hd. assert (wrap32 (blen d) = blen d) as Hw.
  { apply Z.mod_small. unfold U32_SIZE in *. lia. }
  assert (length ptrs = length bs) as Hlb by (unfold bs; by rewrite length_fmap).
  unfold in_unpack. rewrite deref_wf by done. cbn [mbind option_bind head_mode integrity_checksum integrity_length].
  rewrite Hw, (cut_at _ _ _ _ NODE_ID (blen d) Hc eq_refl eq_refl). cbn [mbind option_bind].
  rewrite csum_verify_build. cbn [negb]. unfold d in Hc. unfold in_head in Hc. rewrite <- !app_assoc in Hc.
  set (m := serialize (meta_data n)) in *. set (ps := serialize ptrs) in *.
  rewrite (cut_at _ _ _ _ NODE_ID 4 Hc eq_refl (eq_sym (blen_le32 _))). cbn [mbind option_bind].
  rewrite of_le_le32 by done.
  rewrite (cut_at _ (be32 COPYLESS_INTERNAL ++ le32 (blen m)) m _ (NODE_ID + 4) (blen m)) by
    (try done; by rewrite Hc, <- app_assoc).
  cbn [mbind option_bind]. assert (deserialize m = Some (meta_data n)) as -> by (apply bc_meta_ok; apply Hp).
  cbn [mbind option_bind]. set (pre := be32 COPYLESS_INTERNAL ++ le32 (blen m) ++ m).
  assert (blen pre = NODE_ID + 4 + blen m) as Hpre by (unfold pre; rewrite !blen_app, blen_le32; change (blen (be32 COPYLESS_INTERNAL)) with NODE_ID; lia).
  rewrite (cut_at (CowBytes.content s) pre (le32 (blen ps)) _ (NODE_ID + 4 + blen m) 4 ltac:(by rewrite Hc; unfold pre; rewrite <- !app_assoc) (eq_sym Hpre) eq_refl).
  cbn [mbind option_bind]. rewrite of_le_le32 by done.
  rewrite (cut_at (CowBytes.content s) (pre ++ le32 (blen ps)) ps _ (NODE_ID + 4 + blen m + 4) (blen ps)
    ltac:(by rewrite Hc; unfold pre; rewrite <- !app_assoc) ltac:(by rewrite blen_app, Hpre) eq_refl).
  cbn [mbind option_bind]. assert (deserialize ps = Some ptrs) as -> by by apply bc_ptrs_ok.
  rewrite Hlb. set (pre2 := pre ++ le32 (blen ps) ++ ps).
  assert (blen pre2 = NODE_ID + 4 + blen m + 4 + blen ps) as Hpre2 by (unfold pre2; rewrite !blen_app, Hpre, blen_le32; lia).
  rewrite (read_modes_ok bs (CowBytes.content s) pre2 rest _ ltac:(rewrite Hc; unfold pre2, pre; by rewrite <- !app_assoc) (eq_sym Hpre2)).
  cbn [mbind option_bind]. do 2 f_equal. unfold d. rewrite blen_in_head, <- bc_meta_len, <- bc_ptrs_len. fold m ps.
  unfold NODE_ID, INTERNAL_INTEGRITY_CHECKSUM_SIZE. lia.
Qed.

(** Reading an internal node, before its references are completed *)
Lemma in_unpack_ok (n : CopylessInternalNode ObjRef) ptrs s rest :
  in_packable n → Forall ptr_ok ptrs → length ptrs = length (children n) → scb_wf s →
  let bs := cl_buffer <$> children n in
  let d := in_head (meta_data n) ptrs bs in
  CowBytes.content s = be32 COPYLESS_INTERNAL ++ d ++ concat (packed_bytes <$> bs) ++ rest →
  ∃ bs', in_unpack s (head_mode d) = Some (inl (mkInternal (meta_data n) (zip_with mkLink bs' (RIncomplete <$> ptrs)))) ∧
    Forall2 buf_reread bs bs'.
Proof.
  intros Hp Hptrs Hlp Hs bs d Hc. pose proof (in_unpack_head n ptrs s _ Hp Hptrs Hlp Hs Hc) as Hu. cbv zeta in Hu. fold bs in Hu. fold d in Hu. rewrite Hu.
  destruct (read_buffers_ok s bs (be32 COPYLESS_INTERNAL ++ d) rest (4 + blen d) Hs) as (bs' & Hr & Hall).
  - by rewrite Hc, <- app_assoc.
  - by apply packable_buffers.
  - by rewrite blen_app.
  - rewrite sizes_of_buffers by done. fold bs. rewrite Hr. by exists bs'.
Qed.

(** [complete_object_refs] after reading: every reference gets its pointer and
    the pivot key of its place. *)
Lemma complete_ok (m : InternalNodeMetaData) bs ptrs d_id :
  pivot m ≠ [] → length bs = length ptrs → length ptrs = S (length (pivot m)) →
  complete_object_refs (mkInternal m (zip_with mkLink bs (RIncomplete <$> ptrs))) d_id =
    Some (mkInternal m (zip_with mkLink bs (zip_with RUnmodified ptrs (child_keys m d_id)))).
Proof.
  intros Hp Hb Hl. unfold complete_object_refs, child_keys. cbn [meta_data children].
  destruct (pivot m) as [|p0 ps] eqn:E; [done|]. cbn [head mbind option_bind].
  set (pks := PkLeftOuter p0 d_id :: ((λ p, PkRight p d_id) <$> p0 :: ps)).
  assert (length pks = length ptrs) as Hlk by (unfold pks; simpl; rewrite length_fmap; simpl in Hl; lia).
  rewrite length_zip_with, length_fmap, Hb, Nat.min_id, Hlk, Nat.leb_refl.
  clearbody pks. clear E Hp Hl p0 ps. do 2 f_equal.
  revert bs pks Hb Hlk. induction ptrs as [|p ptrs IH]; intros [|b bs] [|pk pks] Hb Hlk; try done.
  simpl in Hb, Hlk. cbn [fmap list_fmap zip_with imap]. cbn [lookup list_lookup]. f_equal. apply IH; lia.
Qed.

(** The pointers come back, with the keys of their places. *)
Lemma same_ptrs rs ptrs pks :
  Forall2 (λ r p, same_ptr r (RUnmodified p (PkRoot 0))) rs ptrs → length pks = length ptrs →
  Forall2 same_ptr rs (zip_with RUnmodified ptrs pks) ∧ ref_index <$> zip_with RUnmodified ptrs pks = Some <$> pks.
Proof.
  intros Hs. revert pks. induction Hs as [|r p rs ptrs Hr _ IH]; intros [|pk pks] Hl; try done.
  simpl in Hl. destruct (IH pks) as [H1 H2]; [lia|]. cbn [zip_with fmap list_fmap]. split; [|by f_equal].
  constructor; [|done]. by destruct r.
Qed.

Lemma zip_links {N} (bs : list PackedChildBuffer) (rs : list N) :
  length bs = length rs → cl_buffer <$> zip_with mkLink bs rs = bs ∧ cl_ptr <$> zip_with mkLink bs rs = rs.
Proof.
  revert rs. induction bs as [|b bs IH]; intros [|r rs] Hl; try done. simpl in Hl.
  destruct (IH rs) as [H1 H2]; [lia|]. cbn [zip_with fmap list_fmap cl_buffer cl_ptr]. by rewrite H1, H2.
Qed.

Lemma length_child_keys m d_id : pivot m ≠ [] → length (child_keys m d_id) = S (length (pivot m)).
Proof. unfold child_keys. destruct (pivot m); [done|]. intros _. simpl. by rewrite length_fmap. Qed.

Lemma same_ptr_serialize rs ptrs :
  Forall2 (λ r p, same_ptr r (RUnmodified p (PkRoot 0))) rs ptrs → length ptrs = length rs.
Proof. intros Hs. symmetry. by eapply Forall2_length. Qed.

Lemma rereads_same bs bs' : Forall buf_packable bs → Forall2 buf_reread bs bs' → Forall2 buf_same bs bs'.
Proof.
  intros Hp Hr. induction Hr as [|b b' bs bs' Hb _ IH]; [constructor|].
  apply Forall_cons in Hp as [Hp Hps]. constructor; [by apply reread_same|by apply IH].
Qed.

Lemma internal_roundtrip (n : CopylessInternalNode ObjRef) :
  in_packable n → Forall is_unmodified (cl_ptr <$> children n) →
  ∃ d ds mode, in_pack n = Some (inl (d, ds, mode)) ∧ mode_ok mode ∧
    (∀ d_id rest, 4 + blen d + blen ds + blen rest < U32_SIZE →
    ∃ nd', node_unpack_at d_id (be32 COPYLESS_INTERNAL ++ d ++ ds ++ rest) mode = Some (inl nd') ∧
      node_same d_id (CopylessInternal n) nd').
Proof.
  intros Hp Hu. destruct (unmodified_ptrs _ Hu) as (ptrs & Hm & Hs & Hok).
  pose proof (same_ptr_serialize _ _ Hs) as Hl. rewrite length_fmap in Hl.
  eexists _, _, _. split; [by apply in_pack_ok|]. split; [by apply Z.mod_pos_bound|].
  set (bs := cl_buffer <$> children n). set (d := in_head (meta_data n) ptrs bs). intros d_id rest Hlen.
  set (data := be32 COPYLESS_INTERNAL ++ d ++ concat (packed_bytes <$> bs) ++ rest).
  destruct (from_wf (mkCow data)) as [Hwf Hc].
  { unfold Cow.len, data. cbn [inner]. rewrite !blen_app. change (blen (be32 COPYLESS_INTERNAL)) with 4. lia. }
  destruct (in_unpack_ok n ptrs (Sliced.from (mkCow data)) rest Hp Hok Hl Hwf Hc) as (bs' & Hun & Hr).
  unfold node_unpack_at. rewrite (cut_at data [] _ _ 0 4 eq_refl eq_refl eq_refl). cbn [mbind option_bind].
  rewrite decide_True by done. cbv zeta in Hun. fold bs in Hun. fold d in Hun. rewrite Hun. cbn [mbind option_bind].
  pose proof Hp as ([Hsh _ _] & Hpv & _). pose proof (Forall2_length _ _ _ Hr) as Hlb. change (cl_buffer <$> children n) with bs in Hlb.
  assert (length bs = length (children n)) as Hlbs by apply length_fmap.
  rewrite complete_ok by (done || lia). cbn [mbind option_bind]. eexists. split; [done|]. split; [done|].
  cbn [node_refs children meta_data]. pose proof (length_child_keys (meta_data n) d_id Hpv) as Hlk.
  destruct (same_ptrs _ _ (child_keys (meta_data n) d_id) Hs) as [Hs1 Hs2]; [lia|].
  destruct (zip_links bs' (zip_with RUnmodified ptrs (child_keys (meta_data n) d_id))) as [-> ->].
  { rewrite length_zip_with. lia. }
  split; [|done]. apply rereads_same; [by apply packable_buffers|done].
Qed.

Lemma leaf_roundtrip b d_id rest :
  buf_packable b → 4 + buf_size b + blen rest < U32_SIZE →
  ∃ b', node_unpack_at d_id (be32 COPYLESS_LEAF ++ packed_bytes b ++ rest) (packed_mode b) = Some (inl (MemLeaf b')) ∧
    buf_same b b'.
Proof.
  intros Hp Hlen. set (data := be32 COPYLESS_LEAF ++ packed_bytes b ++ rest).
  assert (blen data = 4 + buf_size b + blen rest) as Hld.
  { unfold data. rewrite !blen_app, blen_packed_bytes by done. change (blen (be32 COPYLESS_LEAF)) with 4. lia. }
  destruct (from_wf (mkCow data)) as [Hwf Hc]; [by rewrite <- Hld in Hlen|]. cbn [inner] in Hc.
  pose proof (blen_content _ Hwf) as Hlc. rewrite Hc in Hlc. pose proof (blen_nonneg (packed_bytes b)) as H0.
  rewrite blen_packed_bytes in H0 by done. pose proof (blen_nonneg rest).
  destruct (slice_from_content _ 4 Hwf) as (sub & Hsub & Hwfs & _ & Hcs); [lia|].
  unfold node_unpack_at. rewrite (cut_at data [] _ _ 0 4 eq_refl eq_refl eq_refl). cbn [mbind option_bind].
  rewrite decide_False by done. rewrite decide_True by done. rewrite Hsub. cbn [mbind option_bind].
  assert (Sliced.deref sub = Some (packed_bytes b ++ rest)) as Hd by (by rewrite deref_wf, Hcs, Hc).
  rewrite (packable_unpack b sub rest Hp Hd). cbn [mbind option_bind]. eexists. split; [done|].
  apply reread_same; [done|by eexists _, _].
Qed.

Lemma meta_len_recalc (n : CopylessInternalNode ObjRef) :
  shape_ok n → meta_len (meta_data n) = recalc_size (meta_data n).
Proof.
  intros [Hc Hs Hp]. unfold meta_len, recalc_size, META_BINCODE_STATIC. rewrite Hs, Hp, Hc. lia.
Qed.

(** The length of the packed form, and of the pointers in it *)
Lemma in_pack_len (n : CopylessInternalNode ObjRef) d ds mode :
  in_packable n → in_pack n = Some (inl (d, ds, mode)) →
  ∃ ptrs, mapM ref_serialize (cl_ptr <$> children n) = Some ptrs ∧ length ptrs = length (children n) ∧
    blen d + blen ds = 4 + recalc_size (meta_data n) + 4 + (8 + sum_Z (ptr_len <$> ptrs)) + 16 * fanout n +
      sum_Z (entries_sizes (meta_data n)).
Proof.
  intros Hp Hpk. destruct (mapM ref_serialize (cl_ptr <$> children n)) as [ptrs|] eqn:E.
  - exists ptrs. pose proof E as Hl. apply length_mapM in Hl. rewrite length_fmap in Hl. split_and!; [done|done|].
    rewrite (in_pack_ok n ptrs Hp E) in Hpk. injection Hpk as <- <- _.
    rewrite blen_in_head, blen_buffers, <- sizes_of_buffers, length_fmap by (done || by apply packable_buffers).
    rewrite meta_len_recalc by apply Hp. unfold fanout. lia.
  - rewrite mapM_over_fmap in E. unfold in_pack in Hpk. by rewrite E in Hpk.
Qed.

(** The size that an internal node says of itself, and its packed form *)
Lemma in_pack_bound (n : CopylessInternalNode ObjRef) d ds mode :
  in_packable n → in_pack n = Some (inl (d, ds, mode)) → 4 + blen d + blen ds ≤ 2 * node_size (CopylessInternal n).
Proof.
  intros Hp Hpk. destruct (in_pack_len n d ds mode Hp Hpk) as (ptrs & _ & Hl & Hlen).
  destruct (in_head_fits n ptrs Hp Hl) as (_ & _ & _ & _ & Hpos). pose proof (proj2 (sum_ptrs ptrs)) as Hs.
  destruct Hp as (_ & _ & _ & _ & Hcur & _). cbn [node_size]. unfold in_size, fanout in *. rewrite Hl in Hs.
  cbn [np_static_size objref_reference]. unfold PTR_STATIC_SIZE, CSUM_SIZE, INTERNAL_INTEGRITY_CHECKSUM_SIZE. lia.
Qed.

Lemma node_roundtrip nd :
  node_packable nd → Forall is_unmodified (node_refs nd) →
  ∃ slices mode, node_pack nd = Some (inl (slices, mode)) ∧ mode_ok mode ∧ blen (concat slices) ≤ 2 * node_size nd ∧
    ∀ d_id rest, blen (concat slices) + blen rest < U32_SIZE → ∃ nd',
      node_unpack_at d_id (concat slices ++ rest) mode = Some (inl nd') ∧ node_same d_id nd nd'.
Proof.
  destruct nd as [b|n]; cbn [node_packable node_refs node_pack]; intros Hp Hu.
  - destruct Hp as [Hp Hlen]. rewrite packable_pack by done. cbn [mbind option_bind].
    pose proof (blen_packed_bytes b Hp) as Hl. pose proof (blen_nonneg (packed_bytes b)).
    assert (blen (concat [be32 COPYLESS_LEAF; packed_bytes b]) = 4 + buf_size b) as Hc.
    { cbn [concat]. rewrite !blen_app, Hl, blen_nil. change (blen (be32 COPYLESS_LEAF)) with 4. lia. }
    eexists _, _. split; [done|]. split; [apply packed_mode_ok|]. rewrite Hc. split; [cbn [node_size]; lia|].
    intros d_id rest Hr. destruct (leaf_roundtrip b d_id rest Hp Hr) as (b' & Hun & Hs).
    exists (MemLeaf b'). cbn [concat]. by rewrite app_nil_r, <- app_assoc.
  - destruct (internal_roundtrip n Hp Hu) as (d & ds & mode & Hpk & Hm & Hun).
    rewrite Hpk. cbn [mbind option_bind].
    assert (blen (concat [be32 COPYLESS_INTERNAL; d; ds]) = 4 + blen d + blen ds) as Hc.
    { cbn [concat]. rewrite !blen_app, blen_nil. change (blen (be32 COPYLESS_INTERNAL)) with 4. lia. }
    eexists _, _. split; [done|]. split; [done|]. rewrite Hc. split; [by eapply in_pack_bound|].
    intros d_id rest Hr. destruct (Hun d_id rest Hr) as (nd' & Hnd & Hs).
    exists nd'. cbn [concat]. by rewrite app_nil_r, <- !app_assoc.
Qed.

(** What is read can be packed again, and says the same size. *)
Lemma node_same_packable d_id nd nd' :
  node_packable nd → node_same d_id nd nd' → node_packable nd' ∧ node_size nd' = node_size nd.
Proof.
  destruct nd as [b|n], nd' as [b'|n']; try done; cbn [node_packable node_same node_size node_refs].
  - intros [Hp Hl] (Hp' & _ & He & _). unfold buf_size in *. by rewrite He.
  - intros ([Hc Hz Hr] & Hpv & Hsz & Hm & Hcur & Hb & Hfit) (Hmeta & Hbs & Hrs & _).
    pose proof (Forall2_length _ _ _ Hrs) as Hl. rewrite !length_fmap in Hl.
    assert ((λ c, buf_size (cl_buffer c)) <$> children n' = (λ c, buf_size (cl_buffer c)) <$> children n) as Hsizes.
    { change (λ c : ChildLink ObjRef, buf_size (cl_buffer c)) with (buf_size ∘ @cl_buffer ObjRef).
      rewrite !list_fmap_compose. symmetry. clear -Hbs. induction Hbs as [|b b' bs bs' (_ & _ & He & _) _ IH]; [done|].
      cbn [fmap list_fmap]. rewrite IH. unfold buf_size. by rewrite He. }
    unfold in_packable, in_size, fanout, sizes_exact in *. rewrite Hmeta, <- Hl. split; [|done]. split_and!; try done.
    + by split; rewrite ?Hmeta, <- ?Hl.
    + by rewrite Hsz.
    + assert (Forall buf_packable (cl_buffer <$> children n')) as Hall; [|by rewrite Forall_fmap in Hall].
      clear -Hbs. induction Hbs as [|b b' bs bs' Hb _ IH]; constructor; [apply Hb|done].
Qed.

End roundtrip.

(** ** Properties *)

Section properties.
Context `{Hck : !Checksum} `{Hcl : !ChecksumLaws} `{Hnb : !NodeBincode} `{Hnl : !NodeBincodeLaws}.

(** C8: what [Node::pack] writes, [Node::unpack_at] reads.  A node of less than
    4 GiB whose recorded sizes are exact, leaf or internal, with buffers that
    are unpacked or still packed, and whose children have been written can be
    packed; whatever follows the packed bytes, reading them passes the
    checksums and gives a node with the same meta data, entries and pointers,
    in which lookups see the same entries, the children have the pivot keys of
    their places, and which can be packed again. *)
Theorem node_pack_roundtrip nd :
  node_packable nd → Forall is_unmodified (node_refs nd) →
  ∃ slices mode, node_pack nd = Some (inl (slices, mode)) ∧
    ∀ d_id rest, blen (concat slices) + blen rest < U32_SIZE → ∃ nd',
      node_unpack_at d_id (concat slices ++ rest) mode = Some (inl nd') ∧ node_same d_id nd nd' ∧ node_packable nd'.
Proof.
  intros Hp Hu. destruct (node_roundtrip nd Hp Hu) as (slices & mode & Hpk & _ & _ & Hun).
  exists slices, mode. split; [done|]. intros d_id rest Hlen. destruct (Hun d_id rest Hlen) as (nd' & Hnd & Hs).
  exists nd'. split; [done|]. split; [done|]. by eapply node_same_packable.
Qed.

(** An internal node is packed to more bytes than its [size] says: 11 more
    for every child, since [ObjectPointer::static_size] counts one byte for
    the tag instead of four and eight bytes for an integrity mode of sixteen,
    and what [current_size] is short of. *)
Theorem packed_internal_size (n : CopylessInternalNode ObjRef) slices mode :
  in_packable n → node_pack (CopylessInternal n) = Some (inl (slices, mode)) →
  Forall (λ r, ∀ p pk, r = RUnmodified p pk → ptr_integrity p ≠ External) (cl_ptr <$> children n) →
  blen (concat slices) = node_size (CopylessInternal n) + 11 * fanout n +
    (recalc_size (meta_data n) - current_size (meta_data n)).
Proof.
  intros Hp Hpk Hint. cbn [node_pack] in Hpk. destruct (in_pack n) as [[[[d ds] mode']|]|] eqn:E; try done.
  cbn [mbind option_bind] in Hpk. injection Hpk as <- <-.
  destruct (in_pack_len n d ds mode' Hp E) as (ptrs & Hm & Hl & Hlen).
  assert (sum_Z (ptr_len <$> ptrs) = 56 * Z.of_nat (length ptrs)) as Hs.
  { clear -Hm Hint. revert ptrs Hm. induction (cl_ptr <$> children n) as [|r rs IH]; intros ptrs Hm.
    - cbn in Hm. by injection Hm as <-.
    - cbn [mapM] in Hm. apply bind_Some in Hm as (p & Hp & Hm). apply bind_Some in Hm as (ps & Hps & [= <-]).
      apply Forall_cons in Hint as [Hr Hint]. destruct r as [|p' pk| |]; try done. injection Hp as ->.
      change (sum_Z (ptr_len <$> p :: ps)) with (ptr_len p + sum_Z (ptr_len <$> ps)). rewrite (IH Hint _ Hps).
      cbn [length]. unfold ptr_len, mode_len, CSUM_SIZE. specialize (Hr p pk eq_refl). destruct (ptr_integrity p); [done|]. lia. }
  cbn [concat node_size]. rewrite app_nil_r, !blen_app. change (blen (be32 COPYLESS_INTERNAL)) with 4.
  unfold in_size, fanout in *. rewrite <- Hl in *. cbn [np_static_size objref_reference].
  unfold PTR_STATIC_SIZE, CSUM_SIZE, INTERNAL_INTEGRITY_CHECKSUM_SIZE. lia.
Qed.

(** C34: a node whose children were rebalanced cannot be written: when the two
    buffers differ in size, [pack] panics, since [rebalanced] has recorded the
    size of the left one for both. *)
Theorem rebalanced_cannot_be_packed (n n' : CopylessInternalNode ObjRef) j pk d c1 c2 :
  shape_ok n → rebalanced n j pk = Some (n', d) → Forall is_unmodified (cl_ptr <$> children n') →
  children n' !! j = Some c1 → children n' !! S j = Some c2 →
  buf_size (cl_buffer c1) ≠ buf_size (cl_buffer c2) → node_pack (CopylessInternal n') = None.
Proof.
  intros Hsh Hr Hu H1 H2 Hne. destruct (rebalanced_records_wrong_size n j pk n' d Hsh Hr) as (c1' & c2' & H1' & H2' & He & _).
  rewrite H1 in H1'. rewrite H2 in H2'. simplify_eq. cbn [node_pack]. unfold in_pack.
  destruct (unmodified_ptrs _ Hu) as (ptrs & Hm & _). rewrite mapM_over_fmap in Hm. rewrite Hm.
  destruct (forallb _ _) eqn:E; [|done]. exfalso. rewrite forallb_forall in E.
  apply Hne, Z.eqb_eq, (E (buf_size (cl_buffer c1'), buf_size (cl_buffer c2'))).
  apply list_elem_of_In, (list_elem_of_lookup_2 _ (S j)). rewrite lookup_zip_with, He. cbn [mbind option_bind].
  by rewrite list_lookup_fmap, H2.
Qed.

End properties.

(** ** Decidability *)

#[export] Instance blt_dec a b : Decision (blt a b).
Proof. unfold blt. apply _. Defined.

#[export] Instance shape_ok_dec {N} (n : CopylessInternalNode N) : Decision (shape_ok n).
Proof.
  refine (cast_if (decide (length (children n) = S (length (pivot (meta_data n))) ∧
    length (entries_sizes (meta_data n)) = length (children n) ∧
    length (entries_prefs (meta_data n)) = length (children n)))).
  - abstract (destruct_and!; by split).
  - abstract (intros [? ? ?]; naive_solver).
Defined.

Section decide.
Context `{Hck : !Checksum}.

#[export] Instance pref_valid_dec p : Decision (Pref.valid p).
Proof. unfold Pref.valid. apply _. Defined.

#[export] Instance packable_dec b t : Decision (packable b t).
Proof.
  unfold packable, bt_sorted. repeat apply and_dec; try apply _.
  destruct (buffer b) as [n s|t']; [|apply _]. apply and_dec; [apply _|]. destruct (Sliced.deref s); apply _.
Defined.

#[export] Instance buf_packable_dec b : Decision (buf_packable b).
Proof. apply packable_dec. Defined.

#[export] Instance meta_in_range_dec m : Decision (meta_in_range m).
Proof. unfold meta_in_range. apply _. Defined.

#[export] Instance in_packable_dec (n : CopylessInternalNode ObjRef) : Decision (in_packable n).
Proof. unfold in_packable, sizes_exact. apply _. Defined.

#[export] Instance is_unmodified_dec (r : ObjRef) : Decision (is_unmodified r).
Proof.
  destruct r as [|p pk| |]; [apply _| |apply _..]. unfold is_unmodified, ptr_ok, mode_ok, info_ok.
  destruct (ptr_integrity p); apply _.
Defined.

#[export] Instance node_packable_dec (nd : Node ObjRef) : Decision (node_packable nd).
Proof. destruct nd; apply _. Defined.

End decide.

(** ** An instance of the coding *)

(** bincode's fixed-width format, for any checksum *)
Module FixedWidth.

Section coding.
Context `{Hck : !Checksum} `{Hcl : !ChecksumLaws}.

(** A reader takes its part from the front. *)
Definition Reader (A : Type) : Type := bytes → option (A * bytes).

Definition reads_back {A} (enc : A → bytes) (dec : Reader A) (a : A) : Prop :=
  ∀ rest, dec (enc a ++ rest) = Some (a, rest).

Definition read_uint (n : nat) : Reader Z := λ b,
  if (n <=? length b)%nat then Some (of_le (take n b), drop n b) else None.

Definition read_bytes (n : nat) : Reader bytes := λ b,
  if (n <=? length b)%nat then Some (take n b, drop n b) else None.

Fixpoint read_n {A} (dec : Reader A) (n : nat) : Reader (list A) := λ b,
  match n with
  | O => Some ([], b)
  | S n => '(x, b) ← dec b; '(xs, b) ← read_n dec n b; Some (x :: xs, b)
  end.

(** No item has no bytes, so more items than bytes are an error. *)
Definition read_vec {A} (dec : Reader A) : Reader (list A) := λ b,
  '(n, b) ← read_uint 8 b;
  if n <=? blen b then read_n dec (Z.to_nat n) b else None.

Definition ser_vec {A} (enc : A → bytes) (l : list A) : bytes := le64 (Z.of_nat (length l)) ++ concat (enc <$> l).

Definition ser_u8 (x : Z) : bytes := [to_u8 x].

Definition ser_str (p : bytes) : bytes := le64 (blen p) ++ p.
Definition read_str : Reader bytes := λ b,
  '(n, b) ← read_uint 8 b; if n <=? blen b then read_bytes (Z.to_nat n) b else None.

Lemma read_uint_ok (w rest : bytes) n : length w = n → read_uint n (w ++ rest) = Some (of_le w, rest).
Proof.
  intros <-. unfold read_uint. rewrite length_app. destruct (Nat.leb_spec (length w) (length w + length rest)); [|lia].
  by rewrite take_app_length, drop_app_length.
Qed.

Lemma read_bytes_ok (w rest : bytes) n : length w = n → read_bytes n (w ++ rest) = Some (w, rest).
Proof.
  intros <-. unfold read_bytes. rewrite length_app. destruct (Nat.leb_spec (length w) (length w + length rest)); [|lia].
  by rewrite take_app_length, drop_app_length.
Qed.

Lemma u8_back x : 0 ≤ x < 256 → reads_back ser_u8 (read_uint 1) x.
Proof. intros Hx rest. unfold ser_u8. rewrite read_uint_ok by done. by rewrite of_le_u8. Qed.

Lemma u32_back x : 0 ≤ x < U32_SIZE → reads_back le32 (read_uint 4) x.
Proof. intros Hx rest. rewrite read_uint_ok by apply length_le32. by rewrite of_le_le32. Qed.

Lemma u64_back x : 0 ≤ x < U64_SIZE → reads_back le64 (read_uint 8) x.
Proof. intros Hx rest. rewrite read_uint_ok by apply length_le64. by rewrite of_le_le64. Qed.

Lemma str_back p : blen p < U64_SIZE → reads_back ser_str read_str p.
Proof.
  intros Hp rest. pose proof (blen_nonneg p). pose proof (blen_nonneg rest). unfold ser_str, read_str.
  rewrite <- app_assoc, u64_back by done. cbn [mbind option_bind]. rewrite blen_app.
  destruct (Z.leb_spec (blen p) (blen p + blen rest)); [|lia]. apply read_bytes_ok. unfold blen. lia.
Qed.

Lemma vec_back {A} (enc : A → bytes) dec l :
  Forall (reads_back enc dec) l → (∀ a, 1 ≤ blen (enc a)) → Z.of_nat (length l) < U64_SIZE →
  reads_back (ser_vec enc) (read_vec dec) l.
Proof.
  intros Hl H1 Hn rest. unfold ser_vec, read_vec. rewrite <- app_assoc, u64_back by lia. cbn [mbind option_bind].
  assert (Z.of_nat (length l) ≤ blen (concat (enc <$> l))) as Hb.
  { clear -H1. induction l as [|a l IH]; [done|]. cbn [fmap list_fmap concat length]. rewrite blen_app. specialize (H1 a). lia. }
  rewrite blen_app. pose proof (blen_nonneg rest).
  destruct (Z.leb_spec (Z.of_nat (length l)) (blen (concat (enc <$> l)) + blen rest)); [|lia]. rewrite Nat2Z.id.
  clear -Hl. induction Hl as [|a l Ha _ IH]; [done|]. cbn [fmap list_fmap concat length read_n].
  rewrite <- app_assoc, Ha. cbn [mbind option_bind]. by rewrite IH.
Qed.

(** *** The types *)

Definition ser_meta (m : InternalNodeMetaData) : bytes :=
  le64 (current_size m) ++ le32 (m_level m) ++ ser_u8 (m_system_storage_preference m) ++ ser_u8 (m_pref m) ++
  ser_vec ser_str (pivot m) ++ ser_vec le64 (entries_sizes m) ++ ser_vec ser_u8 (entries_prefs m).

Definition read_meta : Reader InternalNodeMetaData := λ b,
  '(c, b) ← read_uint 8 b; '(l, b) ← read_uint 4 b; '(s, b) ← read_uint 1 b; '(p, b) ← read_uint 1 b;
  '(ps, b) ← read_vec read_str b; '(es, b) ← read_vec (read_uint 8) b; '(fs, b) ← read_vec (read_uint 1) b;
  Some (mkMeta c l s p ps es fs, b).

Definition read_csum : Reader csum := λ b, '(w, b) ← read_bytes 8 b; c ← csum_de w; Some (c, b).

Definition ser_mode (mode : IntegrityMode csum) : bytes :=
  match mode with External => le32 0 | ChildBuffer.Internal c len => le32 1 ++ csum_ser c ++ le32 len end.

Definition read_mode : Reader (IntegrityMode csum) := λ b,
  '(t, b) ← read_uint 4 b;
  if t =? 0 then Some (External, b)
  else if t =? 1 then '(c, b) ← read_csum b; '(len, b) ← read_uint 4 b; Some (ChildBuffer.Internal c len, b)
  else None.

Definition tag_index (t : DecompressionTag) : Z := match t with TagNone => 0 | TagLz4 => 1 | TagZstd => 2 end.

Definition read_tag : Reader DecompressionTag := λ b,
  '(t, b) ← read_uint 4 b;
  if t =? 0 then Some (TagNone, b) else if t =? 1 then Some (TagLz4, b) else if t =? 2 then Some (TagZstd, b) else None.

Definition ser_ptr (p : ObjectPointer) : bytes :=
  le32 (tag_index (ptr_tag p)) ++ csum_ser (ptr_checksum p) ++ le64 (DiskOffset.raw (ptr_offset p)) ++
  le32 (ptr_size p) ++ ser_mode (ptr_integrity p) ++ le64 (ptr_info p) ++ le64 (ptr_generation p).

Definition read_ptr : Reader ObjectPointer := λ b,
  '(t, b) ← read_tag b; '(c, b) ← read_csum b; '(o, b) ← read_uint 8 b; '(n, b) ← read_uint 4 b;
  '(mode, b) ← read_mode b; '(i, b) ← read_uint 8 b; '(g, b) ← read_uint 8 b;
  Some (mkPtr t c (DiskOffset.mk o) n mode i g, b).

#[export] Instance node_bincode : NodeBincode := {|
  bc_meta := {| serialize := ser_meta; deserialize b := fst <$> read_meta b |};
  bc_ptrs := {| serialize := ser_vec ser_ptr; deserialize b := fst <$> read_vec read_ptr b |};
  bc_mode := {| serialize := ser_mode; deserialize b := fst <$> read_mode b |};
|}.

Lemma csum_back c : reads_back csum_ser read_csum c.
Proof.
  intros rest. unfold read_csum. rewrite read_bytes_ok; [|pose proof (csum_ser_length c) as H; unfold blen, CSUM_SIZE in H; lia].
  cbn [mbind option_bind]. by rewrite csum_de_ser.
Qed.

Lemma mode_back mode : mode_ok mode → reads_back ser_mode read_mode mode.
Proof.
  intros Hm rest. unfold read_mode. destruct mode as [|c len]; cbn [ser_mode]; rewrite <- ?app_assoc, u32_back by done;
    cbn [mbind option_bind]; [done|]. rewrite csum_back. cbn [mbind option_bind]. by rewrite u32_back.
Qed.

Lemma ptr_back p : ptr_ok p → reads_back ser_ptr read_ptr p.
Proof.
  intros (Ho & Hn & Hm & Hi & Hg) rest. destruct p as [t c [o] n mode i g]. unfold ser_ptr, read_ptr.
  cbn [ptr_tag ptr_checksum ptr_offset ptr_size ptr_integrity ptr_info ptr_generation DiskOffset.raw] in *.
  rewrite <- !app_assoc. unfold read_tag. rewrite u32_back by (by destruct t). cbn [mbind option_bind].
  assert (∀ b : bytes, (if tag_index t =? 0 then Some (TagNone, b) else if tag_index t =? 1 then Some (TagLz4, b)
    else if tag_index t =? 2 then Some (TagZstd, b) else None) = Some (t, b)) as -> by (by destruct t).
  cbn [mbind option_bind]. rewrite csum_back. cbn [mbind option_bind]. rewrite u64_back by done. cbn [mbind option_bind].
  rewrite u32_back by done. cbn [mbind option_bind]. rewrite mode_back by done. cbn [mbind option_bind].
  rewrite u64_back by done. cbn [mbind option_bind]. by rewrite u64_back.
Qed.

Lemma blen_ser_mode mode : blen (ser_mode mode) = mode_len mode.
Proof. destruct mode; cbn [ser_mode mode_len]; rewrite ?blen_app, ?blen_le32, ?csum_ser_length; done. Qed.

Lemma blen_ser_ptr p : blen (ser_ptr p) = ptr_len p.
Proof. unfold ser_ptr, ptr_len. rewrite !blen_app, !blen_le32, !blen_le64, csum_ser_length, blen_ser_mode. lia. Qed.

Lemma blen_ser_vec {A} (enc : A → bytes) l : blen (ser_vec enc l) = 8 + sum_Z ((λ a, blen (enc a)) <$> l).
Proof.
  unfold ser_vec. rewrite blen_app, blen_le64. f_equal. induction l as [|a l IH]; [done|].
  cbn [fmap list_fmap concat]. rewrite blen_app, IH. done.
Qed.

Lemma sum_const {A} (f : A → Z) c l : (∀ a, f a = c) → sum_Z (f <$> l) = c * Z.of_nat (length l).
Proof.
  intros Hf. induction l as [|a l IH]; [simpl; lia|].
  change (sum_Z (f <$> a :: l)) with (f a + sum_Z (f <$> l)). rewrite Hf, IH. cbn [length]. lia.
Qed.

#[export] Instance node_bincode_laws : NodeBincodeLaws.
Proof.
  split.
  - intros m (Hc & Hl & Hs & Hp & Hps & Hes & Hfs & Hn1 & Hn2 & Hn3). cbn [deserialize serialize bc_meta node_bincode].
    rewrite <- (app_nil_r (ser_meta m)). unfold ser_meta, read_meta. rewrite <- !app_assoc.
    rewrite u64_back by done. cbn [mbind option_bind]. rewrite u32_back by done. cbn [mbind option_bind].
    rewrite !u8_back by done. cbn [mbind option_bind]. rewrite u8_back by done. cbn [mbind option_bind].
    rewrite (vec_back ser_str read_str); [|eapply Forall_impl; [done|intros ? ?; by apply str_back]| |done].
    2: { intros a. unfold ser_str. rewrite blen_app, blen_le64. pose proof (blen_nonneg a). lia. }
    cbn [mbind option_bind].
    rewrite (vec_back le64 (read_uint 8)); [|eapply Forall_impl; [done|intros ? ?; by apply u64_back]|by intros; rewrite blen_le64|done].
    cbn [mbind option_bind].
    rewrite (vec_back ser_u8 (read_uint 1)); [|eapply Forall_impl; [done|intros ? ?; by apply u8_back]|done|done].
    by destruct m.
  - intros m. cbn [serialize bc_meta node_bincode]. unfold ser_meta, meta_len.
    rewrite !blen_app, !blen_ser_vec, blen_le64, blen_le32. rewrite (sum_const (λ a, blen (le64 a)) 8) by (intros; apply blen_le64).
    rewrite (sum_const (λ a, blen (ser_u8 a)) 1) by done.
    replace ((λ a, blen (ser_str a)) <$> pivot m) with ((λ p, 8 + blen p) <$> pivot m).
    + change (blen (ser_u8 _)) with 1. lia.
    + apply list_fmap_ext. intros _ p _. unfold ser_str. by rewrite blen_app, blen_le64.
  - intros ps Hps Hn. cbn [deserialize serialize bc_ptrs node_bincode]. rewrite <- (app_nil_r (ser_vec ser_ptr ps)).
    rewrite (vec_back ser_ptr read_ptr); [done|eapply Forall_impl; [done|intros ? ?; by apply ptr_back]| |done].
    intros p. rewrite blen_ser_ptr. unfold ptr_len, mode_len, CSUM_SIZE. destruct (ptr_integrity p); lia.
  - intros ps. cbn [serialize bc_ptrs node_bincode]. rewrite blen_ser_vec. do 2 f_equal.
    apply list_fmap_ext. intros _ p _. apply blen_ser_ptr.
  - intros mode Hm. cbn [deserialize serialize bc_mode node_bincode]. rewrite <- (app_nil_r (ser_mode mode)). by rewrite mode_back.
  - intros mode. apply blen_ser_mode.
Qed.

End coding.

End FixedWidth.

(** *** Witnesses *)

Module PackExamples.
Import PolyHash BufferExamples FixedWidth.

Definition ptr_at (o : Z) : ObjectPointer :=
  mkPtr TagNone (csum_build []) (DiskOffset.mk o) 1 (ChildBuffer.Internal (csum_build []) 10) 7 3.

Definition root_of (ps : list bytes) (cs : list (ChildLink ObjRef)) : CopylessInternalNode ObjRef :=
  mkInternal (meta_invalidate (mkMeta 0 1 Pref.NONE AtomicPref.unknown ps
    ((λ c, buf_size (cl_buffer c)) <$> cs) (replicate (length cs) Pref.NONE))) cs.

(** A leaf, and a root with two children and messages for the first one *)
Definition root2 : CopylessInternalNode ObjRef :=
  root_of [key Byte.x04]
    [mkLink msgs3 (RUnmodified (ptr_at 8) (PkLeftOuter (key Byte.x04) 7));
     mkLink (buf_new false) (RUnmodified (ptr_at 9) (PkRight (key Byte.x04) 7))].

Lemma root2_packable : in_packable root2.
Proof. apply (bool_decide_eq_true_1 (in_packable root2)). reflexivity. Qed.

Lemma root2_unmodified : Forall is_unmodified (cl_ptr <$> children root2).
Proof. repeat constructor; done. Qed.

Lemma node_pack_roundtrip_witness :
  ∃ slices mode nd', node_pack (CopylessInternal root2) = Some (inl (slices, mode)) ∧
    node_unpack_at 7 (concat slices ++ [zero; zero]) mode = Some (inl nd') ∧
    node_same 7 (CopylessInternal root2) nd'.
Proof.
  destruct (node_pack_roundtrip (CopylessInternal root2)) as (slices & mode & Hp & Hu).
  - apply root2_packable.
  - apply root2_unmodified.
  - assert (blen (concat slices) < 4096) as Hl.
    { assert ((match node_pack (CopylessInternal root2) with Some (inl x) => blen (concat x.1) | _ => 4096 end <? 4096) = true)
        as E by reflexivity.
      rewrite Hp in E. by apply Z.ltb_lt in E. }
    destruct (Hu 7 [zero; zero]) as (nd' & Hn & Hs & _).
    { change (blen [zero; zero]) with 2. unfold U32_SIZE. lia. }
    exists slices, mode, nd'. split; [exact Hp|]. split; [exact Hn|exact Hs].
Defined.

Definition ragged (x : option (CopylessInternalNode ObjRef * Z)) : bool :=
  match x with
  | Some (n, _) =>
      match children n with
      | [c1; c2] =>
          bool_decide (Forall is_unmodified [cl_ptr c1; cl_ptr c2]) && negb (buf_size (cl_buffer c1) =? buf_size (cl_buffer c2))
      | _ => false
      end
  | None => false
  end.

Lemma packed_internal_size_witness :
  ∃ slices mode, node_pack (CopylessInternal root2) = Some (inl (slices, mode)) ∧
    blen (concat slices) = node_size (CopylessInternal root2) + 22.
Proof.
  destruct (node_pack (CopylessInternal root2)) as [[[slices mode]|]|] eqn:E.
  - exists slices, mode. split; [reflexivity|].
    rewrite (packed_internal_size root2 slices mode root2_packable E); [reflexivity|].
    repeat constructor; by intros ? ? [= <- _].
  - exfalso. assert ((match node_pack (CopylessInternal root2) with Some (inr _) => true | _ => false end) = false) as E' by reflexivity.
    by rewrite E in E'.
  - exfalso. assert ((match node_pack (CopylessInternal root2) with None => true | _ => false end) = false) as E' by reflexivity.
    by rewrite E in E'.
Defined.

(** The pivot moves below the last message: two messages stay, and one goes
    to the right. *)
Lemma rebalanced_cannot_be_packed_witness :
  ∃ n' d, rebalanced root2 0 (key Byte.x02) = Some (n', d) ∧ node_pack (CopylessInternal n') = None.
Proof.
  destruct (rebalanced root2 0 (key Byte.x02)) as [[n' d]|] eqn:E.
  - exists n', d. split; [reflexivity|].
    assert (ragged (rebalanced root2 0 (key Byte.x02)) = true) as Hc by reflexivity.
    rewrite E in Hc. unfold ragged in Hc. destruct (children n') as [|c1 [|c2 [|? ?]]] eqn:Ec; try discriminate Hc.
    apply andb_true_iff in Hc as [Hu Hne]. apply (rebalanced_cannot_be_packed root2 n' 0 (key Byte.x02) d c1 c2).
    + apply root2_packable.
    + exact E.
    + rewrite Ec. apply bool_decide_eq_true_1 in Hu. exact Hu.
    + by rewrite Ec.
    + by rewrite Ec.
    + apply negb_true_iff, Z.eqb_neq in Hne. exact Hne.
  - exfalso. assert (ragged (rebalanced root2 0 (key Byte.x02)) = true) as E' by reflexivity. by rewrite E in E'.
Defined.

End PackExamples.
