(* ===== verification/NodeObject.v ===== *)
(** * Tree nodes in the data management unit

    [Node] as the [Object] that the data management unit stores
    ([tree/imp/node.rs]): its child references are what [for_each_child]
    visits, its size, preference, packing and unpacking are those of
    [Node.v] and [NodePack.v].  The laws that [DmuDenote.v] asks of objects
    hold of nodes whose recorded sizes are exact, so the theorems about the
    unit hold of the trees that it stores.

    [correct_preference] caches what it computes in the node; the cached value
    is no part of the content, and the copy of the node that the unit keeps is
    the one without it. *)

From Stdlib Require Import ZArith Lia.
From stdpp Require Import base option list numbers gmap.
From S2P Require Import Prelude.
From S2P Require Import Bytes.
From S2P Require Import BTreeMap.
From S2P Require Import CowBytes.
From S2P Require Import StoragePref.
From S2P Require Import Message.
From S2P Require Import Checksum.
From S2P Require Import ChildBuffer.
From S2P Require Import PackedFormat.
From S2P Require Import Internal.
From S2P Require Import Node.
From S2P Require Import Disk.
From S2P Require Import Buffer.
From S2P Require Import Compression.
From S2P Require Import DmuObjects.
From S2P Require Import DmuDenote.
From S2P Require Import DmuWriteBack.
From S2P Require Import DmuMachine.
From S2P Require Import DmuPersist.
From S2P Require Import NodePack.
From S2P Require Import DmuExamples.

(** ** Nodes as objects *)

(** A node without its child references *)
Inductive NodeBody :=
  | BLeaf (leaf : PackedChildBuffer)
  | BInternal (meta : InternalNodeMetaData) (buffers : list PackedChildBuffer).

(** What a node says of its tree *)
Definition BufContent : Type := btree * Z * bool.

Inductive NodeContent :=
  | CLeaf (c : BufContent)
  | CInternal (size level : Z) (pivots : list bytes) (sizes : list Z) (prefs : list StoragePreference) (bs : list BufContent).

Section object.
Context `{Hck : !Checksum} `{Hnb : !NodeBincode}.

Definition to_node (o : Obj NodeBody) : Node ObjRef :=
  match body o with
  | BLeaf b => MemLeaf b
  | BInternal m bs => CopylessInternal (mkInternal m (zip_with mkLink bs (kids o)))
  end.

Definition of_node (nd : Node ObjRef) : Obj NodeBody :=
  match nd with
  | MemLeaf b => mkObj (BLeaf b) []
  | CopylessInternal n => mkObj (BInternal (meta_data n) (cl_buffer <$> children n)) (node_refs nd)
  end.

(** [set_system_storage_preference] of the node, see [prefer_node] *)
Definition body_prefer (pref : StoragePreference) (b : NodeBody) : NodeBody :=
  if decide (Pref.valid pref) then
    match b with
    | BLeaf b => match unpack_data b with Some (b', _) => BLeaf (set_system_storage_preference b' pref) | None => BLeaf b end
    | BInternal m bs => BInternal (set_sys_pref m pref) bs
    end
  else b.

#[export] Instance node_object : Object NodeBody := {|
  obj_size o := node_size (to_node o);
  obj_preference o := default Pref.NONE (fst <$> node_correct_preference (to_node o));
  obj_set_preference := body_prefer;
  obj_pack o := node_pack (to_node o);
  obj_unpack d_id data mode :=
    r ← node_unpack_at d_id data mode;
    Some (match r with inl nd => inl (of_node nd) | inr _ => inr tt end);
|}.

(** ** The laws *)

Definition buf_content (b : PackedChildBuffer) : BufContent := (buf_contents b, entries_size b, is_leaf b).

Definition node_content (b : NodeBody) : NodeContent :=
  match b with
  | BLeaf b => CLeaf (buf_content b)
  | BInternal m bs =>
      CInternal (current_size m) (m_level m) (pivot m) (entries_sizes m) (entries_prefs m) (buf_content <$> bs)
  end.

(** There is a reference per buffer, and the node can be packed. *)
Definition arity (b : NodeBody) : nat := match b with BLeaf _ => O | BInternal _ bs => length bs end.

Definition node_obj_ok (o : Obj NodeBody) : Prop := length (kids o) = arity (body o) ∧ node_packable (to_node o).

Lemma to_of_node nd : to_node (of_node nd) = nd.
Proof.
  destruct nd as [b|[m cs]]; [done|]. unfold to_node, of_node. cbn [body kids meta_data children node_refs]. do 2 f_equal.
  induction cs as [|[b r] cs IH]; [done|]. cbn [fmap list_fmap zip_with cl_buffer cl_ptr]. by rewrite IH.
Qed.

Lemma node_refs_kids (o : Obj NodeBody) : length (kids o) = arity (body o) → node_refs (to_node o) = kids o.
Proof.
  destruct o as [[b|m bs] ks]; cbn [body kids arity to_node node_refs children]; intros Hl.
  - by destruct ks.
  - apply zip_links. by rewrite Hl.
Qed.

Lemma to_node_buffers m bs ks :
  length ks = length bs → cl_buffer <$> children (mkInternal m (zip_with mkLink bs ks : list (ChildLink ObjRef))) = bs.
Proof. intros Hl. apply zip_links. by rewrite Hl. Qed.

(** [node_packable] depends on the number of the references only. *)
Lemma in_packable_ext m m' (cs cs' : list (ChildLink ObjRef)) :
  cl_buffer <$> cs = cl_buffer <$> cs' → pivot m = pivot m' → entries_sizes m = entries_sizes m' →
  entries_prefs m = entries_prefs m' → current_size m = current_size m' → meta_in_range m' →
  in_packable (mkInternal m cs) → in_packable (mkInternal m' cs').
Proof.
  intros Hb Hp He Hf Hc Hr ([H1 H2 H3] & Hne & Hsz & _ & Hcur & Hall & Hfit).
  assert (length cs = length cs') as Hl by (by rewrite <- (length_fmap cl_buffer cs), Hb, length_fmap).
  assert ((λ c, buf_size (cl_buffer c)) <$> cs = (λ c, buf_size (cl_buffer c)) <$> cs') as Hs.
  { change (λ c : ChildLink ObjRef, buf_size (cl_buffer c)) with (buf_size ∘ @cl_buffer ObjRef). by rewrite !list_fmap_compose, Hb. }
  unfold in_packable, sizes_exact, fanout, recalc_size, meta_len in *. cbn [meta_data children] in *.
  rewrite <- Hp, <- He, <- Hf, <- Hc, <- Hl, <- Hs. split_and!; try done.
  - by split; cbn [meta_data children]; rewrite <- ?Hp, <- ?He, <- ?Hf, <- ?Hl.
  - assert (Forall buf_packable (cl_buffer <$> cs')) as Hall'; [by rewrite <- Hb, Forall_fmap|by rewrite Forall_fmap in Hall'].
Qed.

#[export] Instance node_obj_ok_dec o : Decision (node_obj_ok o).
Proof. unfold node_obj_ok. apply _. Defined.

End object.

Section laws.
Context `{Hck : !Checksum} `{Hcl : !ChecksumLaws} `{Hnb : !NodeBincode} `{Hnl : !NodeBincodeLaws}.

Lemma unpack_packable b t d :
  buf_packable b → unpacked (buffer b) = Some (t, d) → buf_contents b = t ∧ packable (set_buffer b (Unpacked t)) t.
Proof.
  intros Hp Hu. assert (buf_contents b = t) as Hc by (unfold buf_contents; by rewrite Hu).
  split; [done|]. unfold buf_packable in Hp. rewrite Hc in Hp. destruct Hp as (Hso & Hpr & Hsys & He & Hs & _). by split_and!.
Qed.

Lemma body_prefer_content pref b : node_content (body_prefer pref b) = node_content b.
Proof.
  unfold body_prefer. destruct (decide _); [|done]. destruct b as [b|m bs]; [|done].
  unfold unpack_data. destruct (unpacked (buffer b)) as [[t d]|] eqn:E; [|done]. cbn [mbind option_bind node_content].
  unfold buf_content, buf_contents. cbn [buffer set_system_storage_preference set_buffer unpacked]. by rewrite E.
Qed.

Lemma body_prefer_size pref b ks : node_size (to_node (mkObj (body_prefer pref b) ks)) = node_size (to_node (mkObj b ks)).
Proof.
  unfold body_prefer. destruct (decide _); [|done]. destruct b as [b|m bs]; [|done].
  unfold unpack_data. by destruct (unpacked (buffer b)) as [[t d]|].
Qed.

Lemma body_prefer_ok pref b ks : node_obj_ok (mkObj b ks) → node_obj_ok (mkObj (body_prefer pref b) ks).
Proof.
  unfold body_prefer. destruct (decide (Pref.valid pref)) as [Hv|]; [|done].
  destruct b as [b|m bs]; unfold node_obj_ok; cbn [body kids arity to_node node_packable].
  - intros (Hk & Hp & Hfit). unfold unpack_data. destruct (packable_unpacked _ _ Hp) as [d E]. rewrite E. cbn [mbind option_bind].
    destruct (unpack_packable b _ d Hp E) as [_ (Hso & Hpr & Hsys & He & Hs & _)]. by split_and!.
  - intros [Hk Hp]. split; [done|]. pose proof Hp as (_ & _ & _ & Hr & _). revert Hp. apply in_packable_ext; try done.
    cbn [meta_data] in Hr. unfold meta_in_range in *. cbn. destruct_and!. split_and!; try done.
    all: unfold Pref.valid, Pref.NONE, U8_MAX, SysPref.set in *; lia.
Qed.

(** The preference is set as the code sets it. *)
Lemma prefer_node pref o :
  node_obj_ok o → Pref.valid pref →
  node_set_system_storage_preference (to_node o) pref = Some (to_node (prefer pref o)).
Proof.
  intros [_ Hp] Hv. destruct o as [[b|m bs] ks]; unfold prefer; cbn [to_node body kids obj_set_preference node_object] in *;
    unfold body_prefer; rewrite decide_True by done; [|done].
  destruct Hp as [Hp _]. destruct (packable_unpacked _ _ Hp) as [d E]. unfold node_set_system_storage_preference, ensure_unpacked, unpack_data.
  by rewrite E.
Qed.

Lemma kids_ok b ks ks' : length ks = length ks' → node_obj_ok (mkObj b ks) → node_obj_ok (mkObj b ks').
Proof.
  unfold node_obj_ok. cbn [body kids]. intros Hl [Hk Hp]. split; [by rewrite <- Hl|]. revert Hp.
  destruct b as [b|m bs]; cbn [to_node body kids node_packable arity] in *; [done|]. intros Hp.
  pose proof Hp as (_ & _ & _ & Hr & _). revert Hp. apply in_packable_ext; try done.
  destruct (zip_links bs ks ltac:(lia)) as [-> _]. by destruct (zip_links bs ks' ltac:(lia)) as [-> _].
Qed.

Lemma kids_same_size b ks ks' : length ks = length ks' → node_size (to_node (mkObj b ks)) = node_size (to_node (mkObj b ks')).
Proof.
  intros Hl. destruct b as [b|m bs]; cbn [to_node body kids node_size]; [done|]. unfold in_size, fanout. cbn [meta_data children].
  by rewrite !length_zip_with, Hl.
Qed.

Lemma bufs_same_content bs bs' : Forall2 buf_same bs bs' → buf_content <$> bs = buf_content <$> bs'.
Proof.
  induction 1 as [|b b' bs bs' (_ & Hc & He & Hl & _) _ IH]; [done|]. cbn [fmap list_fmap]. rewrite IH.
  unfold buf_content. by rewrite Hc, He, Hl.
Qed.

(** What is read back is the same object. *)
Lemma of_node_same d_id o nd' :
  node_obj_ok o → node_same d_id (to_node o) nd' →
  node_content (body o) = node_content (body (of_node nd')) ∧ Forall2 same_ptr (kids o) (kids (of_node nd')) ∧
  node_obj_ok (of_node nd').
Proof.
  intros [Hk Hp] Hs. destruct (node_same_packable d_id _ _ Hp Hs) as [Hp' _].
  pose proof (node_refs_kids o Hk) as Hr. unfold node_obj_ok. rewrite to_of_node.
  destruct o as [[b|m bs] ks], nd' as [b'|n']; try done; cbn [to_node body kids node_same of_node arity node_content] in *.
  - destruct ks; [|done]. split; [|done]. f_equal.
    destruct Hs as (_ & Hc & He & Hl & _). unfold buf_content. by rewrite Hc, He, Hl.
  - destruct Hs as (Hm & Hb & Hptr & _). rewrite Hr in Hptr. rewrite to_node_buffers in Hb by done.
    cbn [meta_data] in Hm. rewrite Hm. split_and!; try done.
    + f_equal. by apply bufs_same_content.
    + cbn [node_refs]. by rewrite !length_fmap.
Qed.

#[export] Instance node_laws : ObjectLaws (P := NodeBody).
Proof using Hcl Hnl.
  refine {| Content := NodeContent; content := node_content; obj_wf := node_obj_ok; obj_wf_dec := node_obj_ok_dec |}.
  - apply body_prefer_content.
  - apply body_prefer_ok.
  - apply body_prefer_size.
  - apply kids_ok.
  - apply kids_same_size.
  - intros o Ho Hu. pose proof Ho as [Hk Hp]. cbn [obj_pack obj_unpack obj_size node_object].
    destruct (node_roundtrip (to_node o) Hp) as (slices & mode & Hpk & Hm & Hlen & Hun); [by rewrite node_refs_kids|].
    exists slices, mode. split_and!; try done. intros info rest Hfit. rewrite blen_app in Hfit.
    destruct (Hun info rest Hfit) as (nd' & Hnd & Hs). exists (of_node nd'). rewrite Hnd. cbn [mbind option_bind].
    destruct (of_node_same info o nd' Ho Hs) as (Hc & Hptr & Ho'). split_and!; try done.
    rewrite to_of_node. by destruct (node_same_packable info _ _ Hp Hs).
Defined.

End laws.

(** ** Properties *)

Section properties.
Context `{Hck : !Checksum} `{Hcl : !ChecksumLaws} `{Hec : !EmptyChecksum} `{Hel : !EmptyLaws}.
Context `{Hm : !Memory} `{Hml : !MemoryLaws} `{Hz : !Zstd} `{Hzl : !ZstdLaws}.
Context `{Hnb : !NodeBincode} `{Hnl : !NodeBincodeLaws}.
Context {St : Type} `{Hst : !ObjectStore St} `{Hsl : !ObjectStoreLaws}.
Context (default_compression : CompressionConfiguration) (default_storage_class : DatasetId).


End properties.

(** *** Witnesses *)

Module NodeExamples.
Import PolyHash BufferExamples FixedWidth.

#[local] Existing Instances CompressionExamples.zeroes CompressionExamples.zeroed_memory
  CompressionExamples.marking CompressionExamples.marking_laws
  DmuExamples.skip DmuExamples.skip_laws DmuExamples.places_store DmuExamples.places_laws.

Abbreviation NMachine := (Machine (P := NodeBody) (St := DmuExamples.Places)).

Definition blank : NMachine := mkMachine (opened (DmuExamples.mkPlaces ∅ 0 false false)) [] [] [].

(** A leaf with three values, an empty one, and a root with three messages for
    the first *)
Definition root_body : NodeBody :=
  BInternal (meta_data PackExamples.root2) (cl_buffer <$> children PackExamples.root2).

Definition planting : list (Action (P := NodeBody)) :=
  [Insert (BLeaf leaf3) [] [] 7 (PkLeftOuter (key Byte.x04) 7);
   Insert (BLeaf (buf_new true)) [] [0%nat] 7 (PkRight (key Byte.x04) 7);
   Insert root_body [1%nat; 0%nat] [] 7 (PkRoot 7)].

Definition planted : NMachine :=
  match run CompNone 0 blank planting with Some (_, M) => M | None => blank end.

Definition planted_tree : tree (P := NodeBody) :=
  Nd (node_content root_body) [Nd (node_content (BLeaf leaf3)) []; Nd (node_content (BLeaf (buf_new true))) []].

Definition node_trace : Type := list (Action (P := NodeBody) * Seen (P := NodeBody)).

Definition forest_after (r : option (node_trace * NMachine)) : list (tree (P := NodeBody)) :=
  match r with Some (trace, _) => foldl (λ ts x, forest_step ts x.1) [] trace | None => [] end.

Lemma blank_represents : represents blank [].
Proof. exists []. split; [constructor|]. apply opened_aux; [|constructor|set_solver]. simpl. split; [lia|]. intros k d. by rewrite lookup_empty. Qed.

Lemma nodes_planted : represents planted [planted_tree].
Proof.
  assert (forest_after (run CompNone 0 blank planting) = [planted_tree]) as He by reflexivity.
  destruct (run_correct CompNone 0 blank [] planting DmuExamples.uncompressed blank_represents) as (trace & M & ts & Hrun & Hf & HW);
    [vm_compute; reflexivity|].
  unfold planted, forest_after in *. rewrite Hrun in *. apply forest_run_end in Hf. rewrite Hf, He in HW. exact HW.
Qed.

Definition root_r : ObjRef := default (RModified (mkMid 0 Pref.NONE) (PkRoot 7)) (refs planted !! 0%nat).

Definition saved := write_back CompNone 0 8 (dmu planted) root_r.

Definition look : list (Action (P := NodeBody)) := [Get 0 []; Get 0 [0%nat]; Get 0 [1%nat]; DropCache (λ _, false); Get 0 []].

(** The entries of the nodes that are found *)
Definition entries_of (x : Action (P := NodeBody) * Seen (P := NodeBody)) : list (list btree) :=
  match x.2 with
  | Found o => [match body o with BLeaf b => [buf_contents b] | BInternal _ bs => buf_contents <$> bs end]
  | _ => []
  end.

Definition looked : option (list (list btree)) :=
  match saved with
  | Some (inl p, s, _) =>
      match run CompNone 0 (mkMachine (opened (store s)) [] [] [root_ref_from_obj_ptr p]) look with
      | Some (trace, _) => Some (concat (entries_of <$> trace))
      | None => None
      end
  | _ => None
  end.

Example reopened_nodes : looked = Some [[puts; []]; [vals]; [[]]; [puts; []]].
Proof. vm_compute. reflexivity. Qed.


End NodeExamples.
